(* ===== verification/_CoqProject ===== *)
-Q . S2P
Prelude.v
Filepath.v
AllowedRoots.v
AllowedRootsTheory.v
AllowedRootsSpec.v
Operation.v
OperationTheory.v
OperationSpec.v
GoStrings.v
Json.v
BoundedBuffer.v
Sha256.v
Database.v
SnapshotStore.v
SnapshotSpec.v
MacLifecycle.v
MacTheory.v
WorkspacePolicy.v
Credential.v
CredentialSpec.v
Launcher.v
Session.v
SessionTheory.v
SelinuxManager.v
FcontextSpec.v
SelinuxSpec.v
MacSpec.v
SessionSpec.v
PrincipalStore.v
LauncherStore.v
DbHoare.v
OwnershipTheory.v
Config.v
ConfigTheory.v
Proc.v
Lifecycle.v
LifecyclePolicy.v
OwnershipSpec.v
LifecycleTheory.v
LifecycleRules.v
LifecycleSpec.v
Http.v
SessionHandlers.v
LauncherHandlers.v
PrincipalHandlers.v
Routes.v
HttpSpec.v
DockerMount.v
RunRequest.v
RunRequestTheory.v
Run.v
RunTheory.v
RunSpec.v
Staging.v
StagingTheory.v
StagingSpec.v
StagingCopy.v
Build.v
BuildSpec.v
HandlerSteps.v
OperationHandlers.v
Aare.v
AareTheory.v
WorkloadAppArmor.v
WorkloadAppArmorTheory.v
WorkloadAppArmorSpec.v
WorkloadMac.v
WorkloadMacTheory.v
WorkloadMacSpec.v
WorkloadRecovery.v
WorkloadAppArmorBackend.v
ApparmorBoundary.v
ApparmorManager.v
ApparmorSpec.v
ApparmorDriver.v
Mountinfo.v
WorkloadSelinux.v
WorkloadSelinuxTheory.v
WorkloadSelinuxSpec.v
WorkloadSelinuxRemoval.v
