(* ===== verification/Prelude.v ===== *)
(** * Verification of docker-helper

    docker-helper is a daemon that runs docker commands for unprivileged
    callers.  An administrator creates Principals (host accounts), each owns
    Launchers, and an agent that holds a Launcher's credential creates Sessions;
    a Session carries an immutable snapshot of the paths its operations (docker
    run and build) may mount.  This library models the parts of the daemon that
    decide what a caller may do and that keep its state consistent.

    ** Map of the files

    Foundations
    - Prelude: errors as values ([result], the sentinels of the sources),
      tactics, hints and list lemmas.
    - Filepath, GoStrings, Json, Sha256: the functions of the Go standard library
      the program's decisions depend on (path/filepath, strings, strconv,
      unicode/utf8, encoding/json, crypto/sha256), executable.
    - Proc: procedures as trees of atomic actions with a rely-guarantee logic.
    - Database, DbHoare: the SQLite tables (src/database.go) as finite maps with
      the constraints and cascades of the schema; a statement, a transaction and
      their failures; a program logic for them.

    Authority
    - AllowedRoots, AllowedRootsTheory, AllowedRootsSpec:
      src/allowed_root_policy.go, src/allowed_root.go, src/path_containment.go.
    - WorkspacePolicy: src/workspace_path_policy.go, src/fs_probe.go.
    - SnapshotStore, SnapshotSpec: src/session_snapshot_store.go.
    - Config, ConfigTheory: src/config.go, the document and its global roots.

    Ownership
    - Credential, CredentialSpec: src/credential.go, src/launcher_credential.go,
      src/credential_rotation.go, src/operator_auth.go.
    - Launcher: the lookups of src/launcher.go, src/ownership.go and
      src/principal_control_auth.go, with their lemmas.
    - PrincipalStore: src/principal.go, src/ownership.go,
      src/allowed_root_cascade.go.
    - LauncherStore: the mutations of src/launcher.go and
      src/lifecycle_owner.go.
    - OwnershipTheory, LifecyclePolicy, OwnershipSpec: the invariant of the
      tables, kept by every one of those operations.

    Runtime
    - Session, SessionTheory, SessionSpec: src/session.go,
      src/session_control.go.
    - Operation, OperationTheory, OperationSpec: src/operation.go.
    - BoundedBuffer: the log buffer of src/operation.go, the offsets of
      src/build.go and the drain loop of src/client.go.
    - MacLifecycle, MacTheory, MacSpec: src/mac_lifecycle.go, over the class
      [sessionMACDriver] (the Go interface) and its contract [macDriverLaws].
    - SelinuxManager, FcontextSpec, SelinuxSpec: src/selinux_fcontext.go.
    - ApparmorBoundary, ApparmorManager, ApparmorSpec, ApparmorDriver:
      src/apparmor.go and the driver of src/mac_lifecycle.go over it, an instance
      of the class.
    - Lifecycle, LifecycleTheory, LifecycleRules, LifecycleSpec:
      src/launcher_lifecycle.go and the lifecycle methods of src/app.go.

    Workload MAC
    - WorkloadMac, WorkloadMacTheory, WorkloadMacSpec, WorkloadRecovery:
      src/workload_mac.go, over the class [workloadMACBackend].
    - Aare, AareTheory, WorkloadAppArmor, WorkloadAppArmorTheory,
      WorkloadAppArmorSpec, WorkloadAppArmorBackend: src/workload_apparmor.go, the
      generated profile and the backend.
    - Mountinfo, WorkloadSelinux, WorkloadSelinuxTheory, WorkloadSelinuxSpec,
      WorkloadSelinuxRemoval: src/workload_selinux.go, with the mount inventory.

    Control plane
    - Http: requests, replies, audit records, the strict body decoder of
      src/response.go, the handler monad and the authentication wrappers of
      src/principal_control_auth.go, src/auth_handler.go and src/sessions.go.
    - SessionHandlers, LauncherHandlers, PrincipalHandlers: the handlers of
      src/sessions.go, src/launcher_handler.go, src/principal_handler.go,
      src/principal_credential_handler.go, src/policy_introspection.go and
      src/self_handler.go; Routes: the route table of src/main.go; HttpSpec.
    - OperationHandlers: the operation status and logs of src/build.go,
      src/pull.go, src/registry.go, src/docker_error_classify.go.

    Data plane
    - DockerMount: src/docker_mount_spec.go over the CSV writer and reader of the
      Go standard library.
    - RunRequest, RunRequestTheory: the checks of a run request, its mounts,
      environment, labels and docker arguments (src/run.go, src/api_contract.go,
      src/runtime_labels.go, the overlap test of src/ca.go).
    - Run, RunTheory, RunSpec: the run handler and its completion (src/run.go)
      and the ordered cleanup (src/run_cleanup.go).
    - Staging, StagingTheory, StagingSpec, StagingCopy: src/staging.go,
      src/staging_linux.go, the copy of a build context.
    - Build, BuildSpec: the build handler and its completion (src/build.go).
    - HandlerSteps: the run and build handlers and their completions as paths of
      the environment of the lifecycle operations.

    ** How the parts interact

    A control-plane request is matched (Routes), authenticated (Http,
    Credential) and decoded, and its handler calls the operations below in the
    monad of Http, which collects its audit records and its reply.  A Session
    create ([Session.createSessionAuthorized]) authenticates its operator
    (Credential), resolves the Launcher and its effective roots
    (Launcher, LauncherStore, AllowedRoots), admits the workspace
    (WorkspacePolicy), derives the snapshot (AllowedRoots), asks the coordinator
    for a binding of its boundaries (MacLifecycle) and commits the Session with
    its snapshot (SnapshotStore) in one transaction that proves the authority
    again.  A run ([Run.handleRun]) checks its request, reserves capacity
    (Operation), takes a lease of the Session's binding (MacLifecycle), resolves
    its mounts under the snapshot (RunRequest, AllowedRoots), has its workload
    confined (WorkloadMac), builds its docker arguments (DockerMount) and is
    admitted and started by the supervisor; its completion proves the container
    absent and gives back, in order, what it took.  A build ([Build.handleBuild])
    reserves and leases the same way, copies its context (Staging) and starts
    docker on the copy.  A lifecycle operation holds lifecycleMu, closes the
    admission of its Launchers, inspects what is running, changes the tables
    (PrincipalStore, LauncherStore) and releases the bindings of the Sessions it
    revoked.  Loading a configuration (Config) replaces the global roots and
    prunes the stored ones (PrincipalStore).

    ** What the theorems show

    - AllowedRootsSpec: composing scopes, and narrowing a policy to a request,
      authorizes exactly the intersection, and gives the meet of the accesses where
      no sibling name sorts between a path and its descendant; restricted Launchers
      stay within their ceiling, a snapshot is the restriction of the policy to the
      workspace, and the exposure decision is exact for the whole subtree of a
      mount.  One pass of the normalization is shown to drop a read-only region
      ([normalize_widens_interleaved]).
    - OwnershipSpec: in every state that the control plane, the Session statements
      and configuration loads can reach, whatever statement fails on the way, the
      tables are well-typed and every reference exists, stored roots are nested
      under their ceilings, every Session has enabled owners, and a Launcher reaches
      exactly the paths of its stored policy (with its accesses under the same
      condition on names); a reload prunes exactly what lies outside.
    - HttpSpec, OperationHandlers: a request without an authority changes and starts
      nothing on any route; a Session outside the caller's scope, and an operation
      of another Session, cannot be told from one that does not exist; a registry
      password reaches the standard input of docker and nothing else; a pull takes
      nothing for good.
    - LifecycleSpec: beside a running data plane, no running operation loses its
      Launcher; the outcome of a checked deletion on success and failure.
      HandlerSteps: that data plane is the one of the code - the run and build
      handlers and the completions are paths of its steps.
    - RunSpec: whatever refuses a run, it takes nothing (or keeps the lease when a
      cleanup failed); the docker command of a started run is confined and mounts
      only what the snapshot grants, each source pinned at the path granted; no path
      is probed before it is granted; the completion ends where the request began.
      DockerMount: the mount argument decodes to its mount and nothing else.
      RunRequestTheory: the size of /dev/shm is exact.
    - StagingSpec, StagingCopy: whatever the caller changes during the walk, no path
      of the copy leaves it, it is within the ceilings at every moment, a success is
      a faithful copy with a regular Dockerfile, a failure leaves nothing unless its
      removal fails.  BuildSpec: docker is given only the copy of the context the
      request resolves to, a refused build gives back what it took, its probes are
      granted, the completion ends where the request began.
    - CredentialSpec, SessionSpec, SnapshotSpec: exact authentication and token
      lookup, rotation with delivery before commit, the outcome of a create, the
      refusal of stale authority, the isolation of scopes, and that entry rows
      changed under an intact metadata row are noticed.
    - OperationSpec, BoundedBuffer: exact and bounded capacity, terminal states are
      final, nothing leaks; the buffer is the newest window of the output and the
      drain loop reads all of it and prints it as JSON transports it.
    - MacSpec, SelinuxSpec, FcontextSpec: consumer counts are exact, a boundary that
      a Session needs stays in force, reconciliation covers the live Sessions;
      preparing and removing a boundary, and which relabels are refused.
      ApparmorSpec, ApparmorDriver: the strict reader accepts exactly the fragments
      the manager writes, a boundary change succeeds or is rolled back, and the
      AppArmor driver satisfies [macDriverLaws].
    - WorkloadAppArmorSpec: the generated profile denies exactly the read-only
      region of the plan and its fixed baseline under /proc and /sys.
      WorkloadMacSpec, WorkloadRecovery: the ownership record precedes and outlives
      the kernel state at every crash point, startup reclaims only what is proven,
      and a healthy startup clears it.  WorkloadSelinuxSpec, WorkloadSelinuxRemoval:
      a read-only path is exposed through a projection of a pinned source; a
      preparation and a release never delete from a source, nor does a reclaiming
      unless a worker is starting.  Mountinfo: which mount tables each reader takes
      for what the kernel shows.

    ** Conventions and contracts

    A statement of the database takes the head of a list of booleans: [true]
    makes it fail, and theorems quantify over that list.  The commit of a
    credential rotation that fails takes one more: whether it landed all the same,
    the outcome the code leaves ambiguous.  Random draws, clocks
    and the identities SQLite allocates are arguments.  The host's file system is
    the record [host]; [host_ok] says that evaluating links yields canonical
    paths, [host_links] that a resolved path resolves to itself, [same_roots]
    that the configured roots still resolve to what was loaded.  [macDriverLaws]
    and [selinuxLaws] state the contract of the backend commands.  Each is
    instantiated by an executable example that the witnesses use.
    Fuel: the recursions of the sources over lists are structural here; the
    drain loop of the client, the decimal printer and the readers of Json carry
    fuel, with theorems that the given amount suffices.

    [Lifecycle] runs its procedures between the steps of [LifecycleTheory.env]:
    the supervisor's data plane, a request that resolves its bearer or ends, and
    the tables other than Principals and Launchers.  The model takes each call
    that holds the database, the supervisor's or the coordinator's mutex as one
    atomic action.  The other holders of lifecycleMu are single steps.

    Handlers.  An audit record has its members but for time, duration and
    request_id; a message built by Sprintf is the literal of its format; the
    print of a time is the parameter [format_time].  The hash of the
    administrator token and the configuration do not change during a request.
    Http bodies are texts, read by the decoder of Json; configuration documents
    and workload records enter as decoded values.  The run and build handlers
    start from the captured authority and the decoded request, with the
    coordinator and the supervisor present, and leave audit and logging out.
    Beyond ASCII, unicode.ToLower is a parameter of OperationHandlers.

    Logs.  A chunk of a log reply passes through the encoder and the decoder of
    Json ([BoundedBuffer.wire]), which replace the bytes of a rune cut by the end
    of the chunk.

    AppArmor.  The meaning of a path pattern is that of apparmor.d(5), a relation on
    its syntax; [WorkloadAppArmorSpec.aare_reading] is what the theorems ask of a
    reading of its text (the rules of the included abstractions are outside the
    text); what the parser and the kernel answer are arguments.  The refinement of
    [macDriverLaws] assumes that no stored boundary became a symbolic link;
    [ApparmorDriver.removal_follows_links] shows what happens otherwise.  The mount
    table has the format of proc_pid_mountinfo(5).  Workers of the SELinux
    projections are events that may happen between any two steps: a worker that is
    still starting may mount after the startup has inspected the tables, and the
    removal then reaches its source
    ([WorkloadSelinuxRemoval.removal_spares_sources_witness] ends in that case).

    Staging.  What the walk reads of the caller's directory is a tree of answers
    chosen by the environment, so a directory that changes under the walk is one of
    them; the copy is a map from paths to nodes with inodes for hard links; a list
    says which calls fail; a failed removal leaves an arbitrary part of the copy;
    file times are left out.  A failed staging of a build gives its lease back even
    where the removal of its partial copy failed, unlike every other cleanup.

    ** Not modelled, and why

    The command line, its completion and the configuration editor (argument
    parsing and presentation, no daemon state); logging (output); mount pins
    (kernel calls, whose outcomes are arguments of the run model); the cancel
    handler, which waits for a docker process (its steps are those of Operation);
    the rotation of the administrator token, the reload around its modelled
    reconciliation and the listeners; the trusted CA (X.509); the migrations of
    older schemas; the probes of the host platform. *)
From stdpp Require Export base tactics list strings gmap sorting.
From Stdlib Require Export Ascii ZArith Lia.
#[export] Set Default Goal Selector "!".
#[export] Set Warnings "-clear-no-such-hyp".

#[global] Arguments String.append !_ _ / : simpl nomatch.
#[global] Arguments ascii_dec : simpl never.


Declare Scope dh_scope.
Delimit Scope dh_scope with dh.
Open Scope dh_scope.

(** ** Go errors

    An [error] is identified by the literal of its [fmt.Errorf] format (or its
    [errors.New] text), without the interpolated arguments, and by the chain of
    sentinels it wraps; [errors_is] is Go's [errors.Is] over that chain. *)

Inductive sentinel :=
  | ErrInvalidWorkspace | ErrDatabase | ErrSystem | ErrMAC | ErrMACPreparation
  | ErrLifecycleBusy | ErrSessionNotFound | ErrInvalidSessionFilesystemPolicy
  | ErrReadOnlyRoot | ErrOutsideSessionSnapshot
  | ErrLauncherUnavailable | ErrLauncherNotFound | ErrCredentialRevoked
  | ErrCredentialNotFound | ErrInvalidAllowedRoot | ErrInvalidAllowedRootAccess
  | ErrAllowedRootNotFound | ErrPrincipalNotFound
  | ErrOperationNotFound | ErrOperationAlreadyTerminal
  | ErrPrincipalDisabled | ErrLauncherDisabled | ErrPrincipalCredentialExists
  | ErrInvalidPrincipalCredentialName | ErrLauncherCredentialNotFound
  | ErrLauncherCredentialExists | ErrCredentialRotationConflict
  | ErrCredentialRotationDelivery | ErrCredentialRotationCommitUnknown
  | ErrConflictingSelectors | ErrInvalidSelector | ErrMissingLauncherSelector
  | ErrLauncherNameRequiresPrincipal | ErrInvalidLauncherName
  | ErrPrincipalRootOutsideGlobal | ErrLauncherRootOutsidePrincipal
  | ErrMACTransitionBudgetExceeded | errInvalidControlAuthority
  | ErrPrincipalExists | ErrOSUserNotFound | ErrInvalidPrincipalUsername
  | ErrLauncherExists | ErrInvalidScope | ErrInvalidAllowedRoots
  | ErrLauncherRuntimeActive | ErrNoRows.

#[export] Instance sentinel_eq_dec : EqDecision sentinel.
Proof. solve_decision. Defined.

Record error := mkError { err_text : string; err_wraps : list sentinel }.

#[export] Instance error_eq_dec : EqDecision error.
Proof. solve_decision. Defined.

Definition errors_is (e : error) (s : sentinel) : bool :=
  bool_decide (s ∈ err_wraps e).

(** A Go [(T, error)] result: exactly one side is meaningful. *)
Inductive result (A : Type) :=
  | Ok (a : A)
  | Err (e : error).
Arguments Ok {A} a.
Arguments Err {A} e.

#[export] Instance result_eq_dec {A} `{EqDecision A} : EqDecision (result A).
Proof. solve_decision. Defined.

#[export] Instance result_ret : MRet result := fun A a => Ok a.
#[export] Instance result_bind : MBind result := fun A B f m =>
  match m with Ok a => f a | Err e => Err e end.

Definition errorf {A} (text : string) (wraps : list sentinel) : result A :=
  Err (mkError text wraps).

Definition is_ok {A} (r : result A) : bool :=
  match r with Ok _ => true | Err _ => false end.

(** ** Automation *)

Create HintDb dh.

(** Split the innermost [if]/[match] of a hypothesis or of the goal, keeping
    the equation, and close the contradictory branches. *)
Ltac split_match :=
  match goal with
  | H : context [match ?x with _ => _ end] |- _ =>
      lazymatch x with context [match _ with _ => _ end] => fail | _ => destruct x eqn:? end
  | |- context [match ?x with _ => _ end] =>
      lazymatch x with context [match _ with _ => _ end] => fail | _ => destruct x eqn:? end
  end.

Ltac split_matches := repeat (split_match; simplify_eq/=; try done).

(** Prove a closed decidable goal by evaluating its decision procedure. *)
Ltac decide_goal :=
  match goal with |- ?P => apply (bool_decide_eq_true_1 P); vm_compute; reflexivity end.

(** ** Byte-wise string order (Go's [<] on strings) *)

Fixpoint str_ltb (a b : string) : bool :=
  match a, b with
  | EmptyString, EmptyString => false
  | EmptyString, String _ _ => true
  | String _ _, EmptyString => false
  | String x a, String y b =>
      if (N_of_ascii x <? N_of_ascii y)%N then true
      else if (N_of_ascii y <? N_of_ascii x)%N then false
      else str_ltb a b
  end.

Definition str_leb (a b : string) : bool := negb (str_ltb b a).

Lemma N_of_ascii_inj x y : N_of_ascii x = N_of_ascii y → x = y.
Proof. intros H. by rewrite <-(ascii_N_embedding x), H, ascii_N_embedding. Qed.

Lemma str_ltb_cons x a y b :
  str_ltb (String x a) (String y b) =
  if (N_of_ascii x <? N_of_ascii y)%N then true
  else if (N_of_ascii y <? N_of_ascii x)%N then false else str_ltb a b.
Proof. done. Qed.

Lemma str_ltb_irrefl a : str_ltb a a = false.
Proof. induction a as [|x a IH]; simpl; [done|]. by rewrite N.ltb_irrefl. Qed.

Lemma str_ltb_app_same w a b : str_ltb (w +:+ a) (w +:+ b) = str_ltb a b.
Proof. induction w as [|x w IH]; simpl; [done|]. by rewrite N.ltb_irrefl. Qed.

Lemma str_ltb_trans a b c :
  str_ltb a b = true → str_ltb b c = true → str_ltb a c = true.
Proof.
  revert b c; induction a as [|x a IH]; intros [|y b] [|z c]; simpl; try done.
  destruct (N.ltb_spec (N_of_ascii x) (N_of_ascii y)),
           (N.ltb_spec (N_of_ascii y) (N_of_ascii x)),
           (N.ltb_spec (N_of_ascii y) (N_of_ascii z)),
           (N.ltb_spec (N_of_ascii z) (N_of_ascii y)),
           (N.ltb_spec (N_of_ascii x) (N_of_ascii z)),
           (N.ltb_spec (N_of_ascii z) (N_of_ascii x)); try lia; try done; eauto.
Qed.

Lemma str_ltb_total a b : str_ltb a b = false → str_ltb b a = false → a = b.
Proof.
  revert b; induction a as [|x a IH]; intros [|y b]; simpl; try done.
  destruct (N.ltb_spec (N_of_ascii x) (N_of_ascii y)),
           (N.ltb_spec (N_of_ascii y) (N_of_ascii x)); try done; try lia.
  intros. f_equal; [apply N_of_ascii_inj; lia|auto].
Qed.

Lemma str_ltb_asym a b : str_ltb a b = true → str_ltb b a = false.
Proof.
  intros H. destruct (str_ltb b a) eqn:E; [|done].
  pose proof (str_ltb_trans _ _ _ H E) as HH. by rewrite str_ltb_irrefl in HH.
Qed.

Lemma str_ltb_app_r a b : b ≠ "" → str_ltb a (a +:+ b) = true.
Proof.
  intros Hb. induction a as [|x a IH]; simpl.
  - by destruct b.
  - by rewrite N.ltb_irrefl.
Qed.

Lemma str_leb_refl a : str_leb a a = true.
Proof. unfold str_leb. by rewrite str_ltb_irrefl. Qed.

Lemma str_leb_lt_or_eq a b : str_leb a b = true ↔ str_ltb a b = true ∨ a = b.
Proof.
  unfold str_leb. rewrite negb_true_iff. split.
  - intros H. destruct (str_ltb a b) eqn:E; [by left|right; by apply str_ltb_total].
  - intros [H| ->]; [by apply str_ltb_asym|apply str_ltb_irrefl].
Qed.

Definition str_le (a b : string) : Prop := Is_true (str_leb a b).
#[export] Instance str_le_dec : RelDecision str_le.
Proof. intros a b. unfold str_le. apply _. Defined.

Lemma str_le_spec a b : str_le a b ↔ str_ltb a b = true ∨ a = b.
Proof. unfold str_le. by rewrite Is_true_true, str_leb_lt_or_eq. Qed.

#[export] Instance str_le_total : Total str_le.
Proof.
  intros a b. rewrite !str_le_spec.
  destruct (str_ltb a b) eqn:E1; [naive_solver|].
  destruct (str_ltb b a) eqn:E2; [naive_solver|].
  left; right. by apply str_ltb_total.
Qed.
#[export] Instance str_le_trans : Transitive str_le.
Proof.
  intros a b c. rewrite !str_le_spec.
  intros [?|<-] [?|<-]; eauto using str_ltb_trans.
Qed.
#[export] Instance str_le_anti : AntiSymm (=) str_le.
Proof.
  intros a b. rewrite !str_le_spec. intros [H|H] [H'|H']; try done.
  apply str_ltb_asym in H. by rewrite H in H'.
Qed.

(** ** Strings as byte lists *)

Lemma str_app_assoc (a b c : string) : (a +:+ b) +:+ c = a +:+ (b +:+ c).
Proof. induction a; simpl; by f_equal. Qed.

Lemma str_app_nil_r (a : string) : a +:+ "" = a.
Proof. induction a; simpl; by f_equal. Qed.

Lemma str_app_inj_l (a b c : string) : a +:+ b = a +:+ c → b = c.
Proof. induction a; simpl; [done|intros [=]; auto]. Qed.

Lemma str_prefix_spec (a b : string) :
  String.prefix a b = true ↔ ∃ k, b = a +:+ k.
Proof.
  revert b; induction a as [|x a IH]; intros [|y b]; simpl; [naive_solver..| |].
  - split; [done|by intros [k [=]]].
  - destruct (ascii_dec x y) as [->|Hne].
    + rewrite IH. split; intros [k Hk]; exists k; [by f_equal|by injection Hk].
    + split; [done|intros [k [= ]]; congruence].
Qed.

Fixpoint str_forall (P : ascii → bool) (s : string) : bool :=
  match s with
  | EmptyString => true
  | String c s => P c && str_forall P s
  end.

Fixpoint str_count (c : ascii) (s : string) : nat :=
  match s with
  | EmptyString => 0
  | String x s => (if ascii_dec c x then 1 else 0) + str_count c s
  end.

Lemma str_count_app c a b : str_count c (a +:+ b) = (str_count c a + str_count c b)%nat.
Proof. induction a as [|x a IH]; simpl; [done|]. rewrite IH. lia. Qed.
