(* ===== verification/Filepath.v ===== *)
(** * Filepath: Go's path/filepath on Unix, and src/path_containment.go

    [Clean], [IsAbs], [Rel], [Join] and [Dir] model the standard library on
    byte strings; [pathWithin], [pathStrictlyWithin], [pathOverlap] are the
    program's containment predicates.  The second half relates the strings to
    lists of path components: a canonical path is [render] of a list of proper
    components, and containment of canonical paths is the prefix order. *)
From S2P Require Import Prelude.

(** ** The standard library's lexical path operations *)

Definition Separator : ascii := "/"%char.

(** [strings.Split(s, "/")]. *)
Fixpoint split_sep (s : string) : list string :=
  match s with
  | EmptyString => [""]
  | String c s =>
      if ascii_dec c Separator then "" :: split_sep s
      else match split_sep s with
           | [] => [String c ""]
           | w :: ws => String c w :: ws
           end
  end.

(** [strings.Join(l, "/")]. *)
Fixpoint join_sep (l : list string) : string :=
  match l with
  | [] => ""
  | [w] => w
  | w :: ws => w +:+ String Separator (join_sep ws)
  end.

Definition IsAbs (p : string) : bool := String.prefix "/" p.

(** One component of [filepath.Clean]'s scan: the output is kept reversed. *)
Definition clean_step (rooted : bool) (out : list string) (w : string) : list string :=
  if bool_decide (w = "" ∨ w = ".") then out
  else if bool_decide (w = "..") then
    match out with
    | [] => if rooted then [] else [".."]
    | top :: rest => if bool_decide (top = "..") then ".." :: out else rest
    end
  else w :: out.

Definition clean_comps (p : string) : list string :=
  reverse (foldl (clean_step (IsAbs p)) [] (split_sep p)).

Definition Clean (p : string) : string :=
  if IsAbs p then String Separator (join_sep (clean_comps p))
  else match clean_comps p with [] => "." | l => join_sep l end.

Fixpoint strip_common (a b : list string) : list string * list string :=
  match a, b with
  | x :: a', y :: b' => if bool_decide (x = y) then strip_common a' b' else (a, b)
  | _, _ => (a, b)
  end.

Definition dotdots (n : nat) : list string := replicate n "..".

(** [filepath.Rel]: the error case is a base that cannot be climbed out of. *)
Definition Rel (basepath targpath : string) : option string :=
  let base := Clean basepath in
  let targ := Clean targpath in
  if bool_decide (targ = base) then Some "."
  else if negb (Bool.eqb (IsAbs base) (IsAbs targ)) then None
  else
    let '(b, t) := strip_common (clean_comps base) (clean_comps targ) in
    match b with
    | [] => Some (join_sep t)
    | w :: _ =>
        if bool_decide (w = ".." ∧ t ≠ []) then None
        else Some (join_sep (dotdots (length b) ++ t))
    end.

(** [filepath.Join]: empty elements are ignored, the result is cleaned. *)
Definition Join (elems : list string) : string :=
  match filter (λ e, e ≠ "") elems with
  | [] => ""
  | l => Clean (join_sep l)
  end.

(** ** src/path_containment.go *)

Definition pathWithin (root path : string) : bool :=
  if bool_decide (root = path) then true
  else match Rel root path with
       | None => false
       | Some rel => bool_decide (rel ≠ "..") && negb (String.prefix "../" rel)
       end.

Definition pathStrictlyWithin (root path : string) : bool :=
  if bool_decide (root = path) then false
  else match Rel root path with
       | None => false
       | Some rel => bool_decide (rel ≠ "..") && negb (String.prefix "../" rel)
       end.

(** ** Path overlap (src/mac_lifecycle.go) *)

Inductive pathOverlapRelation := pathExact | pathAncestor | pathDescendant | pathDisjoint.

Definition pathOverlap (a b : string) : pathOverlapRelation :=
  if bool_decide (a = b) then pathExact
  else if pathWithin a b then pathAncestor
  else if pathWithin b a then pathDescendant
  else pathDisjoint.

Definition boundaryCoversTree (boundary tree : string) : bool :=
  pathWithin boundary tree.

Definition macBoundaryOverlap (a b : string) : bool :=
  match pathOverlap a b with pathDisjoint => false | _ => true end.

(** ** Components and canonical paths *)

Definition no_sep (w : string) : bool :=
  str_forall (λ c, negb (bool_decide (c = Separator))) w.

(** A proper component: what survives [Clean] in an absolute path. *)
Definition proper (w : string) : Prop :=
  no_sep w = true ∧ w ≠ "" ∧ w ≠ "." ∧ w ≠ "..".

Definition render (l : list string) : string := String Separator (join_sep l).

Definition canonical (p : string) : bool := IsAbs p && bool_decide (Clean p = p).

Definition comps (p : string) : list string := clean_comps p.

Lemma split_sep_ne s : split_sep s ≠ [].
Proof. destruct s as [|c s]; simpl; [done|]. destruct (ascii_dec _ _); [done|]. by destruct (split_sep s). Qed.

Lemma split_sep_app w s :
  no_sep w = true → split_sep (w +:+ String Separator s) = w :: split_sep s.
Proof.
  induction w as [|c w IH]; simpl; [done|].
  intros [Hc Hw]%andb_true_iff. rewrite (IH Hw).
  destruct (ascii_dec c Separator) as [->|]; [|done]. by rewrite bool_decide_eq_true_2 in Hc.
Qed.

Lemma split_sep_no_sep w : no_sep w = true → split_sep w = [w].
Proof.
  induction w as [|c w IH]; simpl; [done|].
  intros [Hc Hw]%andb_true_iff. rewrite (IH Hw).
  destruct (ascii_dec c Separator) as [->|]; [|done]. by rewrite bool_decide_eq_true_2 in Hc.
Qed.

Lemma split_join l :
  l ≠ [] → Forall (λ w, no_sep w = true) l → split_sep (join_sep l) = l.
Proof.
  induction l as [|w l IH]; [done|]. intros _ [Hw Hl]%Forall_cons.
  destruct l as [|w' l]; [by apply split_sep_no_sep|].
  change (join_sep (w :: w' :: l)) with (w +:+ String Separator (join_sep (w' :: l))).
  rewrite split_sep_app by done. by rewrite IH.
Qed.

Lemma split_sep_no_sep_all s : Forall (λ w, no_sep w = true) (split_sep s).
Proof.
  induction s as [|c s IH]; simpl; [by repeat constructor|].
  destruct (ascii_dec c Separator) as [->|Hc]; [by constructor|].
  destruct (split_sep s) as [|w ws].
  - constructor; [|done]. unfold no_sep; simpl. by rewrite bool_decide_eq_false_2.
  - apply Forall_cons in IH as [??]. constructor; [|done].
    unfold no_sep in *; simpl. by rewrite bool_decide_eq_false_2.
Qed.

Lemma clean_step_proper rooted out w : proper w → clean_step rooted out w = w :: out.
Proof.
  unfold proper, clean_step. intros (Hns & Hnil & Hdot & Hdots).
  rewrite bool_decide_eq_false_2 by (by intros [?|?]). by rewrite bool_decide_eq_false_2.
Qed.

Lemma foldl_clean_proper rooted out l :
  Forall proper l → foldl (clean_step rooted) out l = reverse l ++ out.
Proof.
  intros Hl. revert out. induction Hl as [|w l Hw _ IH]; intros out; simpl; [done|].
  rewrite clean_step_proper, IH by done. by rewrite reverse_cons, <-app_assoc.
Qed.

(** Every component left in a rooted clean path is proper. *)
Lemma clean_step_rooted out w :
  no_sep w = true → Forall proper out → Forall proper (clean_step true out w).
Proof.
  intros Hw Hout. unfold clean_step. repeat case_bool_decide; try done.
  - destruct out as [|t out]; [done|]. apply Forall_cons in Hout as [Ht ?].
    case_bool_decide; [|done]. destruct Ht as (_ & _ & _ & ?). done.
  - constructor; [|done]. unfold proper. naive_solver.
Qed.

Lemma clean_comps_proper p : IsAbs p = true → Forall proper (clean_comps p).
Proof.
  intros Habs. unfold clean_comps. rewrite Habs. apply Forall_reverse.
  generalize (split_sep_no_sep_all p). generalize (split_sep p).
  assert (Forall proper []) as H0 by done. revert H0. generalize (@nil string).
  intros out Hout l; revert out Hout.
  induction l as [|w l IH]; intros out Hout Hl; simpl; [done|].
  apply Forall_cons in Hl as [??]. eauto using clean_step_rooted.
Qed.

Lemma proper_no_sep l : Forall proper l → Forall (λ w, no_sep w = true) l.
Proof. intros H. eapply Forall_impl; [exact H|]. by intros w []. Qed.

Lemma IsAbs_cons_sep s : IsAbs (String Separator s) = true.
Proof. by destruct s. Qed.

Lemma IsAbs_render l : IsAbs (render l) = true.
Proof. apply IsAbs_cons_sep. Qed.

Lemma comps_render l : Forall proper l → comps (render l) = l.
Proof.
  intros Hl. unfold comps, clean_comps. rewrite IsAbs_render. unfold render.
  simpl. destruct (ascii_dec Separator Separator); [|done]. simpl.
  assert (clean_step true [] "" = []) as -> by reflexivity.
  destruct l as [|w l]; [done|].
  rewrite split_join by (done || by apply proper_no_sep).
  rewrite foldl_clean_proper, app_nil_r by done. apply reverse_involutive.
Qed.

Lemma Clean_render l : Forall proper l → Clean (render l) = render l.
Proof. intros Hl. unfold Clean. rewrite IsAbs_render. fold (comps (render l)). by rewrite comps_render. Qed.

Lemma canonical_render l : Forall proper l → canonical (render l) = true.
Proof. intros Hl. unfold canonical. rewrite IsAbs_render, Clean_render by done. by rewrite bool_decide_eq_true_2. Qed.

(** A canonical path is the rendering of its proper components. *)
Lemma canonical_inv p :
  canonical p = true → p = render (comps p) ∧ Forall proper (comps p).
Proof.
  unfold canonical. intros [Ha Hc%bool_decide_eq_true]%andb_true_iff. split.
  - unfold Clean in Hc. by rewrite Ha in Hc.
  - by apply clean_comps_proper.
Qed.

Lemma Clean_canonical p : IsAbs p = true → canonical (Clean p) = true.
Proof. intros Ha. unfold Clean. rewrite Ha. apply canonical_render, clean_comps_proper, Ha. Qed.

Lemma render_inj a b : Forall proper a → Forall proper b → render a = render b → a = b.
Proof. intros Ha Hb H. by rewrite <-(comps_render a), <-(comps_render b), H. Qed.

Lemma comps_inj p q : canonical p = true → canonical q = true → comps p = comps q → p = q.
Proof.
  intros [Hp _]%canonical_inv [Hq _]%canonical_inv H. by rewrite Hp, Hq, H.
Qed.

(** ** Containment of canonical paths is the prefix order on components *)

Lemma strip_common_spec a b :
  let '(x, y) := strip_common a b in
  (∃ k, a = k ++ x ∧ b = k ++ y) ∧
  (∀ w x' v y', x = w :: x' → y = v :: y' → w ≠ v).
Proof.
  revert b; induction a as [|w a IH]; intros b; simpl.
  - split; [by exists []|naive_solver].
  - destruct b as [|v b]; [split; [by exists []|naive_solver]|].
    case_bool_decide as Hwv.
    + subst v. specialize (IH b). destruct (strip_common a b) as [x y].
      destruct IH as [[k [-> ->]] Hne]. split; [by exists (w :: k)|done].
    + split; [by exists []|naive_solver].
Qed.

Lemma strip_common_prefix a b : (strip_common a b).1 = [] ↔ a `prefix_of` b.
Proof.
  pose proof (strip_common_spec a b) as H. destruct (strip_common a b) as [x y].
  destruct H as [[k [-> ->]] Hne]. simpl. split.
  - intros ->. rewrite app_nil_r. by exists y.
  - intros [l Hl]. rewrite <-app_assoc in Hl. apply app_inv_head in Hl.
    destruct x as [|w x]; [done|]. destruct y as [|v y]; [done|].
    exfalso. injection Hl as ??. by eapply Hne.
Qed.

Lemma join_sep_cons w l :
  join_sep (w :: l) = w +:+ (match l with [] => "" | _ => String Separator (join_sep l) end).
Proof. destruct l; simpl; [by rewrite str_app_nil_r|done]. Qed.

Lemma dotdots_prefix n t :
  let rel := join_sep (dotdots (S n) ++ t) in
  bool_decide (rel ≠ "..") && negb (String.prefix "../" rel) = false.
Proof.
  intros rel. subst rel. change (dotdots (S n) ++ t) with (".." :: (dotdots n ++ t)).
  rewrite join_sep_cons. apply andb_false_iff.
  destruct (dotdots n ++ t) as [|w l]; [by left|].
  right. apply negb_false_iff. apply str_prefix_spec.
  by exists (join_sep (w :: l)).
Qed.

Lemma rel_down_ok t :
  Forall proper t →
  bool_decide (join_sep t ≠ "..") && negb (String.prefix "../" (join_sep t)) = true.
Proof.
  intros Ht. assert (split_sep (join_sep t) ≠ [".."] ∧ ∀ k, split_sep (join_sep t) ≠ ".." :: k) as [H1 H2].
  { destruct t as [|w t]; [by split; [|intros k]|].
    rewrite split_join by (done || by apply proper_no_sep).
    apply Forall_cons in Ht as [(_ & _ & _ & ?) _]. naive_solver. }
  apply andb_true_iff; split.
  - apply bool_decide_eq_true. intros E. apply H1. by rewrite E.
  - apply negb_true_iff. destruct (String.prefix _ _) eqn:E; [|done].
    apply str_prefix_spec in E as [k Hk]. destruct (H2 (split_sep k)).
    by rewrite Hk.
Qed.

Lemma Rel_canonical root path :
  canonical root = true → canonical path = true → root ≠ path →
  Rel root path =
    Some (join_sep (let '(b, t) := strip_common (comps root) (comps path) in
                    match b with [] => t | _ => dotdots (length b) ++ t end)).
Proof.
  intros Hr Hp Hne. unfold Rel.
  pose proof Hr as [Har Hcr%bool_decide_eq_true]%andb_true_iff.
  pose proof Hp as [Hap Hcp%bool_decide_eq_true]%andb_true_iff.
  rewrite Hcr, Hcp, Har, Hap. rewrite bool_decide_eq_false_2 by done. simpl.
  fold (comps root) (comps path).
  pose proof (strip_common_spec (comps root) (comps path)) as H.
  destruct (strip_common (comps root) (comps path)) as [b t].
  destruct H as [[k [Ek _]] _]. destruct b as [|w b]; [done|].
  assert (w ≠ "..") as Hw.
  { apply canonical_inv in Hr as [_ Hr]. rewrite Ek in Hr.
    apply Forall_app in Hr as [_ Hr]. apply Forall_cons in Hr as [(_ & _ & _ & ?) _]. done. }
  by rewrite bool_decide_eq_false_2 by (by intros [??]).
Qed.

Lemma within_rel root path :
  canonical root = true → canonical path = true → root ≠ path →
  match Rel root path with
  | None => false
  | Some rel => bool_decide (rel ≠ "..") && negb (String.prefix "../" rel)
  end = bool_decide (comps root `prefix_of` comps path).
Proof.
  intros Hr Hp Hne. rewrite Rel_canonical by done.
  pose proof (strip_common_prefix (comps root) (comps path)) as Hpre.
  pose proof (strip_common_spec (comps root) (comps path)) as Hs.
  destruct (strip_common (comps root) (comps path)) as [b t]. simpl in Hpre.
  destruct b as [|w b].
  - rewrite (bool_decide_eq_true_2 (_ `prefix_of` _)) by by apply Hpre.
    apply rel_down_ok. destruct Hs as [[k [_ Et]] _].
    apply canonical_inv in Hp as [_ Hp]. rewrite Et in Hp.
    by apply Forall_app in Hp as [_ ?].
  - rewrite (bool_decide_eq_false_2 (_ `prefix_of` _)) by by intros ?%Hpre.
    apply (dotdots_prefix (length b) t).
Qed.

Lemma pathWithin_spec root path :
  canonical root = true → canonical path = true →
  pathWithin root path = bool_decide (comps root `prefix_of` comps path).
Proof.
  intros Hr Hp. unfold pathWithin. case_bool_decide as E.
  - subst. by rewrite bool_decide_eq_true_2.
  - by apply within_rel.
Qed.

Lemma pathStrictlyWithin_spec root path :
  canonical root = true → canonical path = true →
  pathStrictlyWithin root path =
    bool_decide (comps root `prefix_of` comps path ∧ root ≠ path).
Proof.
  intros Hr Hp. unfold pathStrictlyWithin. case_bool_decide as E.
  - subst. by rewrite bool_decide_eq_false_2 by naive_solver.
  - rewrite within_rel by done. apply bool_decide_ext. naive_solver.
Qed.

Section order.
Context (a b c : string).
Context (Ha : canonical a = true) (Hb : canonical b = true) (Hc : canonical c = true).

Lemma pathWithin_trans :
  pathWithin a b = true → pathWithin b c = true → pathWithin a c = true.
Proof. rewrite !pathWithin_spec, !bool_decide_eq_true by done. intros; by etrans. Qed.

Lemma pathWithin_antisym : pathWithin a b = true → pathWithin b a = true → a = b.
Proof.
  rewrite !pathWithin_spec, !bool_decide_eq_true by done. intros.
  apply comps_inj; [done..|]. by apply (anti_symm prefix).
Qed.

(** Two containers of one path are nested. *)
Lemma pathWithin_chain :
  pathWithin a c = true → pathWithin b c = true →
  pathWithin a b = true ∨ pathWithin b a = true.
Proof. rewrite !pathWithin_spec, !bool_decide_eq_true by done. intros. by eapply prefix_weak_total. Qed.
End order.

Lemma pathWithin_refl a : pathWithin a a = true.
Proof. unfold pathWithin. by rewrite bool_decide_eq_true_2. Qed.

Lemma render_prefix_lt l k :
  Forall proper (l ++ k) → k ≠ [] → str_ltb (render l) (render (l ++ k)) = true.
Proof.
  intros Hp Hk. unfold render.
  change (String Separator (join_sep l)) with ("/" +:+ join_sep l).
  change (String Separator (join_sep (l ++ k))) with ("/" +:+ join_sep (l ++ k)).
  rewrite str_ltb_app_same.
  induction l as [|w l IH]; simpl app.
  - destruct k as [|w k]; [done|]. rewrite join_sep_cons.
    apply Forall_cons in Hp as [(_ & Hw & _) _]. by destruct w.
  - apply Forall_cons in Hp as [_ Hp]. specialize (IH Hp).
    rewrite !join_sep_cons, str_ltb_app_same.
    destruct l as [|v l]; [by destruct k|]. exact IH.
Qed.

(** A proper ancestor precedes its descendants in byte order. *)
Lemma pathWithin_lt a b :
  canonical a = true → canonical b = true → pathWithin a b = true → a ≠ b →
  str_ltb a b = true.
Proof.
  intros Ha Hb Hw Hne. rewrite pathWithin_spec, bool_decide_eq_true in Hw by done.
  destruct Hw as [k Hk]. pose proof (canonical_inv _ Ha) as [Ea _].
  pose proof (canonical_inv _ Hb) as [Eb Pb]. rewrite Ea, Eb, Hk.
  apply render_prefix_lt; [by rewrite <-Hk|]. intros ->.
  apply Hne. rewrite Ea, Eb, Hk. by rewrite app_nil_r.
Qed.
