(* ===== verification/AllowedRoots.v ===== *)
(** * AllowedRoots: src/allowed_root.go and src/allowed_root_policy.go

    The allowed-root vocabulary, the pure policy owner (most-specific lookup,
    normalization, scope composition, narrowing, the Principal and Launcher
    ceilings) and the predicates of src/principal.go it uses.  Lists of entries
    are Go slices: a [nil] slice and an empty one are the same list. *)
From S2P Require Import Prelude Filepath.

(** ** src/allowed_root.go *)

Definition AllowedRootAccessReadWrite : string := "read_write".
Definition AllowedRootAccessReadOnly : string := "read_only".

Definition isValid (a : string) : bool :=
  bool_decide (a = AllowedRootAccessReadWrite) || bool_decide (a = AllowedRootAccessReadOnly).

Definition allowedRootAccessVocabulary : list string :=
  [AllowedRootAccessReadWrite; AllowedRootAccessReadOnly].

Record AllowedRootEntry := mkEntry { Path : string; Access : string }.

#[export] Instance AllowedRootEntry_eq_dec : EqDecision AllowedRootEntry.
Proof. solve_decision. Defined.

Definition allowedRootEntry (path : string) : AllowedRootEntry :=
  mkEntry path AllowedRootAccessReadWrite.

Definition allowedRootPaths (entries : list AllowedRootEntry) : list string :=
  Path <$> entries.

Definition allowedRootEntriesForPaths (paths : list string) : list AllowedRootEntry :=
  allowedRootEntry <$> paths.

Definition parseAllowedRootAccess (access : string) : result string :=
  if negb (isValid access) then
    errorf "access must be read_write or read_only" [ErrInvalidAllowedRootAccess]
  else Ok access.

(** ** src/principal.go: path membership *)

Definition isWithinAnyAllowedRoot (path : string) (allowedRoots : list string) : bool :=
  existsb (λ r, bool_decide (path = r) || pathWithin r path) allowedRoots.

(** ** src/allowed_root_policy.go: lookup, normalization, composition *)

Definition meetAllowedRootAccess (a b : string) : string :=
  if bool_decide (a = AllowedRootAccessReadOnly) || bool_decide (b = AllowedRootAccessReadOnly)
  then AllowedRootAccessReadOnly else AllowedRootAccessReadWrite.

Definition entry_le (e1 e2 : AllowedRootEntry) : Prop := str_le (Path e1) (Path e2).
#[export] Instance entry_le_dec : RelDecision entry_le.
Proof. intros a b. unfold entry_le. apply _. Defined.

Definition sortAllowedRootEntriesCanonical (entries : list AllowedRootEntry) :=
  merge_sort entry_le entries.

(** The loop of [validateCanonicalAllowedRootEntries]; [seen] maps the paths
    met so far to their access. *)
Fixpoint validate_loop (seen : gmap string string) (entries : list AllowedRootEntry)
    : result unit :=
  match entries with
  | [] => Ok tt
  | e :: rest =>
      if negb (IsAbs (Path e)) || bool_decide (Clean (Path e) ≠ Path e) then
        errorf "allowed-root entry is not a canonical absolute path" []
      else if negb (isValid (Access e)) then
        errorf "allowed-root entry has unknown access" []
      else match seen !! Path e with
           | Some prev =>
               if bool_decide (prev ≠ Access e)
               then errorf "conflicting allowed-root entries" []
               else errorf "duplicate allowed-root entry" []
           | None => validate_loop (<[Path e := Access e]> seen) rest
           end
  end.

Definition validateCanonicalAllowedRootEntries (entries : list AllowedRootEntry) : result unit :=
  validate_loop ∅ entries.

(** One iteration of the most-specific search: [best] is the entry the loop
    index points at. *)
Definition lookup_step (source : string) (best : option AllowedRootEntry)
    (e : AllowedRootEntry) : option AllowedRootEntry :=
  if negb (pathWithin (Path e) source) then best
  else match best with
       | None => Some e
       | Some b => if pathWithin (Path b) (Path e) then Some e else best
       end.

Definition lookup_entry (entries : list AllowedRootEntry) (source : string)
    : option AllowedRootEntry :=
  foldl (lookup_step source) None entries.

Definition lookupAllowedRootAccess (entries : list AllowedRootEntry) (source : string)
    : option string := Access <$> lookup_entry entries source.

(** The inner loop of the normalization: pop the retained entries that do not
    contain [path] (the top of the stack is the head of the list). *)
Fixpoint pop_ancestors (ancestors : list AllowedRootEntry) (path : string)
    : list AllowedRootEntry :=
  match ancestors with
  | [] => []
  | top :: rest => if pathWithin (Path top) path then ancestors else pop_ancestors rest path
  end.

Fixpoint normalize_loop (ancestors entries : list AllowedRootEntry) : list AllowedRootEntry :=
  match entries with
  | [] => []
  | e :: rest =>
      let ancestors := pop_ancestors ancestors (Path e) in
      match ancestors with
      | top :: _ =>
          if bool_decide (Access top = Access e) then normalize_loop ancestors rest
          else e :: normalize_loop (e :: ancestors) rest
      | [] => e :: normalize_loop [e] rest
      end
  end.

Definition normalizeAllowedRootEntries (entries : list AllowedRootEntry)
    : list AllowedRootEntry :=
  match entries with
  | [] => []
  | _ => normalize_loop [] (sortAllowedRootEntriesCanonical entries)
  end.

(** The composed entry of one candidate path, if both scopes authorize it. *)
Definition compose_candidate (ceiling narrowing : list AllowedRootEntry) (path : string)
    : option AllowedRootEntry :=
  match lookupAllowedRootAccess ceiling path with
  | None => None
  | Some up =>
      match lookupAllowedRootAccess narrowing path with
      | None => None
      | Some down => Some (mkEntry path (meetAllowedRootAccess up down))
      end
  end.

(** The candidate set [map[string]bool] of the composition. *)
Definition compose_candidates (ceiling narrowing : list AllowedRootEntry) : gset string :=
  list_to_set (Path <$> ceiling) ∪ list_to_set (Path <$> narrowing).

(** The composition with the candidate map ranged over in the order [order]:
    Go does not specify it. *)
Definition compose_in_order (order : list string) (ceiling narrowing : list AllowedRootEntry)
    : list AllowedRootEntry :=
  if negb (is_ok (validateCanonicalAllowedRootEntries ceiling)) then []
  else if negb (is_ok (validateCanonicalAllowedRootEntries narrowing)) then []
  else if bool_decide (ceiling = []) || bool_decide (narrowing = []) then []
  else normalizeAllowedRootEntries (omap (compose_candidate ceiling narrowing) order).

Definition composeAllowedRootScopes (ceiling narrowing : list AllowedRootEntry)
    : list AllowedRootEntry :=
  compose_in_order (elements (compose_candidates ceiling narrowing)) ceiling narrowing.

(** ** Issuance-time narrowing *)

Fixpoint narrow_check (ceiling requested : list AllowedRootEntry) : result unit :=
  match requested with
  | [] => Ok tt
  | e :: rest =>
      match lookupAllowedRootAccess ceiling (Path e) with
      | None => errorf "filesystem root is outside the effective launcher policy"
                  [ErrInvalidSessionFilesystemPolicy]
      | Some up =>
          if bool_decide (Access e = AllowedRootAccessReadWrite)
             && bool_decide (up = AllowedRootAccessReadOnly)
          then errorf "filesystem root requests read_write under an effective read_only region"
                 [ErrInvalidSessionFilesystemPolicy]
          else narrow_check ceiling rest
      end
  end.

(** The requested scope: the head is the workspace grant, which an explicit
    root at the workspace replaces. *)
Definition narrow_scope (workspace : string) (implicit : string)
    (requested : list AllowedRootEntry) : list AllowedRootEntry :=
  foldl (λ scope e,
           if bool_decide (Path e = workspace) then <[0 := e]> scope else scope ++ [e])
        [mkEntry workspace implicit] requested.

Definition narrowSessionFilesystemPolicy (ceiling : list AllowedRootEntry)
    (workspace : string) (requested : list AllowedRootEntry)
    : result (list AllowedRootEntry) :=
  if bool_decide (requested = []) then
    errorf "session filesystem request is not a valid narrowing of the effective launcher policy"
      [ErrInvalidSessionFilesystemPolicy]
  else match validateCanonicalAllowedRootEntries requested with
  | Err _ => errorf "session filesystem roots" [ErrInvalidSessionFilesystemPolicy]
  | Ok _ =>
      _ ← narrow_check ceiling requested;
      match lookupAllowedRootAccess ceiling workspace with
      | None => errorf "workspace is not inside the effective launcher policy"
                  [ErrInvalidSessionFilesystemPolicy]
      | Some implicit =>
          let composed := composeAllowedRootScopes ceiling (narrow_scope workspace implicit requested) in
          if bool_decide (composed = []) then
            errorf "session filesystem request is not a valid narrowing of the effective launcher policy"
              [ErrInvalidSessionFilesystemPolicy]
          else Ok composed
      end
  end.

(** ** The Principal and Launcher ceilings *)

Definition LauncherScopeInherit : string := "inherit".
Definition LauncherScopeRestricted : string := "restricted".

(** The part of [sessionOwnershipSnapshot] (src/session_control.go) the policy
    reads. *)
Record sessionOwnershipSnapshot := mkOwnership {
  principalID : Z;
  principalRoots : list AllowedRootEntry;
  launcherScope : string;
  launcherRoots : list AllowedRootEntry;
}.

Definition effectivePrincipalAllowedRoots
    (globalEntries storedPrincipalEntries : list AllowedRootEntry) (principalID : Z) :=
  composeAllowedRootScopes globalEntries storedPrincipalEntries.

Definition effectiveLauncherAllowedRoots (globalEntries : list AllowedRootEntry)
    (snap : sessionOwnershipSnapshot) : result (list AllowedRootEntry) :=
  let principalCeiling :=
    effectivePrincipalAllowedRoots globalEntries (principalRoots snap) (principalID snap) in
  if bool_decide (launcherScope snap = LauncherScopeInherit) then Ok principalCeiling
  else if bool_decide (launcherScope snap = LauncherScopeRestricted) then
    let principalPaths := allowedRootPaths principalCeiling in
    if existsb (λ stored, negb (isWithinAnyAllowedRoot (Path stored) principalPaths))
         (launcherRoots snap)
    then errorf "launcher unavailable" [ErrLauncherUnavailable]
    else Ok (composeAllowedRootScopes principalCeiling (launcherRoots snap))
  else errorf "launcher scope mode is not supported" [ErrLauncherUnavailable].

(** ** The immutable Session filesystem snapshot *)

Record sessionFilesystemSnapshot := mkSnapshot {
  Workspace : string;
  Entries : list AllowedRootEntry;
}.

Definition newSessionFilesystemSnapshot (workspace : string) (entries : list AllowedRootEntry)
    : result sessionFilesystemSnapshot :=
  _ ← validateCanonicalAllowedRootEntries entries;
  if negb (IsAbs workspace) || bool_decide (Clean workspace ≠ workspace) then
    errorf "session workspace is not a canonical absolute path" []
  else if bool_decide (entries = []) then
    errorf "session filesystem snapshot has no entries" []
  else match lookupAllowedRootAccess entries workspace with
  | None => errorf "session filesystem snapshot does not authorize the workspace" []
  | Some _ =>
      if bool_decide (entries ≠ normalizeAllowedRootEntries entries) then
        errorf "session filesystem snapshot entries are not the canonical normalized representation" []
      else Ok (mkSnapshot workspace entries)
  end.

Fixpoint derive_candidates (effective : list AllowedRootEntry) (workspace : string)
    (todo : list AllowedRootEntry) : result (list AllowedRootEntry) :=
  match todo with
  | [] => Ok []
  | e :: rest =>
      if pathStrictlyWithin workspace (Path e) then
        match lookupAllowedRootAccess effective (Path e) with
        | None => errorf "policy entry lost its effective authority" []
        | Some access =>
            l ← derive_candidates effective workspace rest;
            mret (mkEntry (Path e) access :: l)
        end
      else derive_candidates effective workspace rest
  end.

Definition deriveSessionFilesystemSnapshot (effective : list AllowedRootEntry)
    (workspace : string) : result sessionFilesystemSnapshot :=
  _ ← validateCanonicalAllowedRootEntries effective;
  if negb (IsAbs workspace) || bool_decide (Clean workspace ≠ workspace) then
    errorf "session workspace is not a canonical absolute path" []
  else match lookupAllowedRootAccess effective workspace with
  | None => errorf "workspace is not inside the effective allowed-root policy" []
  | Some mode =>
      candidates ← derive_candidates effective workspace effective;
      newSessionFilesystemSnapshot workspace
        (normalizeAllowedRootEntries (mkEntry workspace mode :: candidates))
  end.

Definition LookupAccess (s : sessionFilesystemSnapshot) (source : string) : option string :=
  lookupAllowedRootAccess (Entries s) source.

(** One iteration of the boundary projection. *)
Definition boundary_step (kept : list string) (e : AllowedRootEntry) : list string :=
  if existsb (λ boundary, boundaryCoversTree boundary (Path e)) kept then kept
  else kept ++ [Path e].

Definition sessionMACBoundaries (snapshot : sessionFilesystemSnapshot) : list string :=
  foldl boundary_step [] (Entries snapshot).

Definition CanExposeWritable (s : sessionFilesystemSnapshot) (source : string) : bool :=
  match LookupAccess s source with
  | None => false
  | Some access =>
      if bool_decide (access ≠ AllowedRootAccessReadWrite) then false
      else negb (existsb (λ e, pathStrictlyWithin source (Path e)
                               && bool_decide (Access e = AllowedRootAccessReadOnly))
                   (Entries s))
  end.

Record sessionFilesystemExposure := mkExposure {
  SourcePath : string;
  Target : string;
  RequestedReadOnly : bool;
  ExpAccess : string;
  WritableAllowed : bool;
}.

(** The adapter returns the exposure next to the error: on [ErrReadOnlyRoot]
    the resolved facts accompany the refusal, on [ErrOutsideSessionSnapshot]
    the exposure is the zero value. *)
Definition resolveSessionFilesystemExposure (snapshot : sessionFilesystemSnapshot)
    (sourcePath target : string) (requestedReadOnly : bool)
    : sessionFilesystemExposure * option error :=
  match LookupAccess snapshot sourcePath with
  | None => (mkExposure "" "" false "" false,
             Some (mkError "canonical source" [ErrOutsideSessionSnapshot]))
  | Some access =>
      let exposure := mkExposure sourcePath target requestedReadOnly access in
      if requestedReadOnly then (exposure (CanExposeWritable snapshot sourcePath), None)
      else if negb (CanExposeWritable snapshot sourcePath) then
        (exposure false, Some (mkError "canonical source" [ErrReadOnlyRoot]))
      else (exposure true, None)
  end.
