(* ===== verification/AllowedRootsTheory.v ===== *)
(** * AllowedRootsTheory: the laws of the allowed-root policy

    Valid entry lists, the most-specific lookup as the deepest containing
    entry, the normalization and the composition.  [sibling_safe] is the
    condition under which byte order visits every subtree contiguously; the
    normalization preserves the lookup exactly under it. *)
From S2P Require Import Prelude Filepath AllowedRoots.

(** ** Valid entry lists *)

Record valid_entries (l : list AllowedRootEntry) : Prop := {
  valid_canonical : ∀ e, e ∈ l → canonical (Path e) = true;
  valid_access : ∀ e, e ∈ l → isValid (Access e) = true;
  valid_nodup : NoDup (Path <$> l);
}.

Lemma canonical_unfold p :
  canonical p = true ↔ negb (IsAbs p) || bool_decide (Clean p ≠ p) = false.
Proof.
  unfold canonical. destruct (IsAbs p); simpl; [|done].
  rewrite bool_decide_eq_true, bool_decide_eq_false. split; [naive_solver|].
  intros ?. by apply dec_stable.
Qed.

Lemma validate_loop_ok seen l :
  validate_loop seen l = Ok tt ↔
  (∀ e, e ∈ l → canonical (Path e) = true ∧ isValid (Access e) = true ∧ seen !! Path e = None) ∧
  NoDup (Path <$> l).
Proof.
  revert seen; induction l as [|e l IH]; intros seen; simpl.
  { split; [|done]. intros _. split; [|constructor]. by intros e ?%not_elem_of_nil. }
  rewrite NoDup_cons.
  destruct (negb (IsAbs (Path e)) || bool_decide (Clean (Path e) ≠ Path e)) eqn:Ec.
  { split; [done|]. intros [H _]. destruct (H e) as [Hc _]; [by left|].
    by rewrite canonical_unfold, Ec in Hc. }
  apply canonical_unfold in Ec.
  destruct (isValid (Access e)) eqn:Ev; simpl;
    [|split; [done|intros [H _]; destruct (H e) as (_ & ? & _); [by left|congruence]]].
  destruct (seen !! Path e) as [prev|] eqn:Es.
  { split; [by case_bool_decide|]. intros [H _].
    destruct (H e) as (_ & _ & ?); [by left|congruence]. }
  rewrite IH. setoid_rewrite elem_of_cons. split.
  - intros [H Hnd]. split; [|split; [|done]].
    + intros e' [->|He']; [done|]. by destruct (H _ He') as (? & ? & [? _]%lookup_insert_None).
    + intros ([p Ep] & He')%list_elem_of_fmap. subst.
      destruct He' as [Heq Hin]. destruct (H _ Hin) as (_ & _ & [_ Hne]%lookup_insert_None). done.
  - intros [H [Hni Hnd]]. split; [|done]. intros e' He'.
    destruct (H e') as (? & ? & ?); [by right|]. split_and!; [done..|].
    apply lookup_insert_None. split; [done|]. intros Heq. apply Hni.
    apply list_elem_of_fmap. by exists e'.
Qed.

Lemma validate_ok l :
  validateCanonicalAllowedRootEntries l = Ok tt ↔ valid_entries l.
Proof.
  unfold validateCanonicalAllowedRootEntries. rewrite validate_loop_ok. split.
  - intros [H ?]. split; [intros e He; apply (H e He)..|done].
  - intros []. split; [|done]. intros e ?. by split_and!; [auto..|].
Qed.

Lemma validate_ok_is l :
  is_ok (validateCanonicalAllowedRootEntries l) = true ↔ valid_entries l.
Proof.
  rewrite <-validate_ok. destruct (validateCanonicalAllowedRootEntries l) as [[]|]; naive_solver.
Qed.

Lemma valid_perm l l' : l ≡ₚ l' → valid_entries l → valid_entries l'.
Proof.
  intros Hp []. split; [intros e; rewrite <-Hp; auto..|]. by rewrite <-Hp.
Qed.

Lemma valid_sublist l l' : l' `sublist_of` l → valid_entries l → valid_entries l'.
Proof.
  intros Hs []. assert (∀ e, e ∈ l' → e ∈ l) by (intros e ?; by eapply elem_of_sublist).
  split; [auto..|]. eapply sublist_NoDup; [done|]. by apply fmap_sublist.
Qed.

Lemma valid_app_inv l k : valid_entries (l ++ k) → valid_entries l.
Proof. apply valid_sublist. by apply sublist_inserts_r. Qed.

(** Entries of a valid list are determined by their path. *)
Lemma valid_path_inj l e e' :
  valid_entries l → e ∈ l → e' ∈ l → Path e = Path e' → e = e'.
Proof.
  intros [_ _ Hnd] [i Hi]%list_elem_of_lookup [j Hj]%list_elem_of_lookup Hp.
  assert (i = j) as ->; [|congruence].
  eapply (NoDup_lookup _ _ _ (Path e) Hnd); rewrite list_lookup_fmap.
  - by rewrite Hi.
  - by rewrite Hj, Hp.
Qed.

Lemma valid_access_cases l e :
  valid_entries l → e ∈ l →
  Access e = AllowedRootAccessReadWrite ∨ Access e = AllowedRootAccessReadOnly.
Proof.
  intros [_ Hv _] He. specialize (Hv e He). unfold isValid in Hv.
  apply orb_true_iff in Hv. by rewrite !bool_decide_eq_true in Hv.
Qed.

(** ** The lookup finds the deepest containing entry *)

Definition deepest (l : list AllowedRootEntry) (source : string) (e : AllowedRootEntry) : Prop :=
  e ∈ l ∧ pathWithin (Path e) source = true ∧
  ∀ e', e' ∈ l → pathWithin (Path e') source = true → pathWithin (Path e') (Path e) = true.

Lemma lookup_entry_snoc l e source :
  lookup_entry (l ++ [e]) source = lookup_step source (lookup_entry l source) e.
Proof. unfold lookup_entry. by rewrite foldl_app. Qed.

Lemma lookup_entry_spec l source :
  valid_entries l → canonical source = true →
  match lookup_entry l source with
  | Some e => deepest l source e
  | None => ∀ e, e ∈ l → pathWithin (Path e) source = false
  end.
Proof.
  intros Hv Hs. induction l as [|e l IH] using rev_ind.
  { simpl. by intros e ?%not_elem_of_nil. }
  rewrite lookup_entry_snoc. specialize (IH (valid_app_inv _ _ Hv)).
  pose proof (valid_canonical _ Hv) as Hc.
  assert (He : e ∈ l ++ [e]) by set_solver.
  unfold lookup_step. destruct (pathWithin (Path e) source) eqn:Ew; simpl.
  2:{ destruct (lookup_entry l source) as [b|].
      - destruct IH as (Hb & Hbs & Hbd). split_and!; [set_solver|done|].
        intros e' [?| ->%list_elem_of_singleton]%elem_of_app Hw; [auto|congruence].
      - intros e' [?| ->%list_elem_of_singleton]%elem_of_app; auto. }
  destruct (lookup_entry l source) as [b|].
  2:{ split_and!; [done..|].
      intros e' [?| ->%list_elem_of_singleton]%elem_of_app Hw; [|apply pathWithin_refl].
      rewrite IH in Hw by done. done. }
  destruct IH as (Hb & Hbs & Hbd). assert (Hb' : b ∈ l ++ [e]) by set_solver.
  destruct (pathWithin (Path b) (Path e)) eqn:Eb.
  - split_and!; [done..|].
    intros e' [He'| ->%list_elem_of_singleton]%elem_of_app Hw; [|apply pathWithin_refl].
    eapply (pathWithin_trans _ (Path b)); eauto. apply Hc. set_solver.
  - split_and!; [done..|].
    intros e' [He'| ->%list_elem_of_singleton]%elem_of_app Hw; [by apply Hbd|].
    destruct (pathWithin_chain (Path e) (Path b) source); auto. congruence.
Qed.

Lemma deepest_unique l source e e' :
  valid_entries l → canonical source = true →
  deepest l source e → deepest l source e' → e = e'.
Proof.
  intros Hv Hs (He & Hw & Hd) (He' & Hw' & Hd').
  eapply valid_path_inj; [done..|].
  apply pathWithin_antisym; eauto using valid_canonical.
Qed.

Lemma lookup_entry_Some l source e :
  valid_entries l → canonical source = true →
  lookup_entry l source = Some e ↔ deepest l source e.
Proof.
  intros Hv Hs. pose proof (lookup_entry_spec l source Hv Hs) as H. split.
  - intros E. by rewrite E in H.
  - intros Hd. destruct (lookup_entry l source) as [b|].
    + f_equal. by eapply deepest_unique.
    + destruct Hd as (He & Hw & _). by rewrite H in Hw.
Qed.

Lemma lookup_entry_None l source :
  valid_entries l → canonical source = true →
  lookup_entry l source = None ↔ ∀ e, e ∈ l → pathWithin (Path e) source = false.
Proof.
  intros Hv Hs. pose proof (lookup_entry_spec l source Hv Hs) as H. split.
  - intros E. by rewrite E in H.
  - intros Hn. destruct (lookup_entry l source) as [b|]; [|done].
    destruct H as (Hb & Hw & _). by rewrite Hn in Hw.
Qed.

Lemma lookup_entry_is_Some l source :
  valid_entries l → canonical source = true →
  is_Some (lookup_entry l source) ↔ ∃ e, e ∈ l ∧ pathWithin (Path e) source = true.
Proof.
  intros Hv Hs. pose proof (lookup_entry_spec l source Hv Hs) as H.
  destruct (lookup_entry l source) as [b|].
  - split; [|done]. intros _. destruct H as (? & ? & _). eauto.
  - split; [by intros [? ?]|]. intros (e & He & Hw). by rewrite H in Hw.
Qed.

Lemma deepest_perm l l' source e : l ≡ₚ l' → deepest l source e → deepest l' source e.
Proof. intros Hp (He & Hw & Hd). split_and!; [by rewrite <-Hp|done|]. intros e'. rewrite <-Hp. auto. Qed.

(** The lookup reads the entries as a set. *)
Lemma lookup_entry_perm l l' source :
  l ≡ₚ l' → valid_entries l → canonical source = true →
  lookup_entry l source = lookup_entry l' source.
Proof.
  intros Hp Hv Hs. pose proof (valid_perm _ _ Hp Hv) as Hv'.
  pose proof (lookup_entry_spec l source Hv Hs) as H.
  destruct (lookup_entry l source) as [e|]; symmetry.
  - apply lookup_entry_Some; [done..|]. by eapply deepest_perm.
  - apply lookup_entry_None; [done..|]. intros e He. apply H. by rewrite Hp.
Qed.

(** An entry is the deepest container of its own path. *)
Lemma deepest_self l e : e ∈ l → deepest l (Path e) e.
Proof. intros He. split_and!; [done|apply pathWithin_refl|done]. Qed.

(** Below a source that the deepest entry [e] contains, every container of
    the source contains [e]; so [e] is also deepest for any path between. *)
Lemma deepest_between l source p e :
  valid_entries l → canonical source = true → canonical p = true →
  deepest l source e → pathWithin (Path e) p = true → pathWithin p source = true →
  deepest l p e.
Proof.
  intros Hv Hs Hp (He & Hw & Hd) Hep Hps. split_and!; [done..|].
  intros e' He' Hw'. apply Hd; [done|].
  eapply (pathWithin_trans _ p); eauto using valid_canonical.
Qed.

(** ** The canonical order *)

#[export] Instance entry_le_total : Total entry_le.
Proof. intros a b. unfold entry_le. apply (total str_le). Qed.
#[export] Instance entry_le_trans : Transitive entry_le.
Proof. intros a b c. unfold entry_le. by etrans. Qed.

Lemma sort_perm l : sortAllowedRootEntriesCanonical l ≡ₚ l.
Proof. apply merge_sort_Permutation. Qed.

Lemma sort_sorted l : StronglySorted entry_le (sortAllowedRootEntriesCanonical l).
Proof. apply StronglySorted_merge_sort; apply _. Qed.

(** The canonical order of a valid list is unique. *)
Lemma sorted_perm_unique l k :
  StronglySorted entry_le l → StronglySorted entry_le k → l ≡ₚ k →
  NoDup (Path <$> l) → l = k.
Proof.
  intros Hl. revert k. induction Hl as [|a l Hl IH Ha]; intros k Hk Hp Hnd.
  { by apply Permutation_nil_l in Hp as ->. }
  destruct Hk as [|b k Hk Hb]; [by apply Permutation_nil_r in Hp|].
  assert (a = b) as ->.
  { assert (Hba : a ∈ b :: k) by (rewrite <-Hp; by left).
    assert (Hab : b ∈ a :: l) by (rewrite Hp; by left).
    apply elem_of_cons in Hba as [?|Hba]; [done|]. apply elem_of_cons in Hab as [?|Hab]; [done|].
    rewrite Forall_forall in Ha, Hb. specialize (Ha _ Hab). specialize (Hb _ Hba).
    assert (Path a = Path b) as E by by apply (anti_symm str_le).
    apply NoDup_cons in Hnd as [Hni _]. destruct Hni. rewrite E. by apply list_elem_of_fmap_2. }
  f_equal. apply IH; [done|by eapply Permutation_cons_inv|by apply NoDup_cons in Hnd as [_ ?]].
Qed.

Lemma sort_perm_eq l k :
  l ≡ₚ k → NoDup (Path <$> l) →
  sortAllowedRootEntriesCanonical l = sortAllowedRootEntriesCanonical k.
Proof.
  intros Hp Hnd. apply sorted_perm_unique; [apply sort_sorted..| |].
  - by rewrite !sort_perm.
  - by rewrite sort_perm.
Qed.

Lemma sort_sorted_id l :
  StronglySorted entry_le l → NoDup (Path <$> l) → sortAllowedRootEntriesCanonical l = l.
Proof.
  intros Hs Hnd. symmetry. apply sorted_perm_unique; [done|apply sort_sorted| |done].
  by rewrite sort_perm.
Qed.

Lemma normalize_unfold l :
  normalizeAllowedRootEntries l = normalize_loop [] (sortAllowedRootEntriesCanonical l).
Proof. by destruct l. Qed.

Lemma pop_ancestors_suffix anc p : pop_ancestors anc p `suffix_of` anc.
Proof.
  induction anc as [|a anc IH]; simpl; [done|].
  destruct (pathWithin _ _); [done|]. by apply suffix_cons_r.
Qed.

Lemma pop_ancestors_head anc p :
  match pop_ancestors anc p with
  | top :: _ => top ∈ anc ∧ pathWithin (Path top) p = true
  | [] => ∀ a, a ∈ anc → pathWithin (Path a) p = false
  end.
Proof.
  induction anc as [|a anc IH]; simpl; [by intros a ?%not_elem_of_nil|].
  destruct (pathWithin (Path a) p) eqn:E; [split; [by left|done]|].
  destruct (pop_ancestors anc p) as [|top rest].
  - intros a' [->|?]%elem_of_cons; auto.
  - destruct IH as [??]. split; [by right|done].
Qed.

Lemma pop_ancestors_keeps anc p a :
  a ∈ anc → pathWithin (Path a) p = true → a ∈ pop_ancestors anc p.
Proof.
  induction anc as [|b anc IH]; simpl; [done|].
  intros [->|Ha]%elem_of_cons Hw.
  - rewrite Hw. by left.
  - destruct (pathWithin (Path b) p); [by right|auto].
Qed.

Lemma normalize_loop_sublist anc l : normalize_loop anc l `sublist_of` l.
Proof.
  revert anc. induction l as [|e l IH]; intros anc; simpl; [done|].
  destruct (pop_ancestors anc (Path e)) as [|top rest]; [by apply sublist_skip|].
  case_bool_decide; [by apply sublist_cons|by apply sublist_skip].
Qed.

Lemma normalize_elem l e : e ∈ normalizeAllowedRootEntries l → e ∈ l.
Proof.
  rewrite normalize_unfold. intros H. rewrite <-sort_perm.
  eapply elem_of_sublist; [done|apply normalize_loop_sublist].
Qed.

Lemma normalize_valid l : valid_entries l → valid_entries (normalizeAllowedRootEntries l).
Proof.
  intros Hv. rewrite normalize_unfold.
  eapply valid_sublist; [apply normalize_loop_sublist|].
  eapply valid_perm; [by symmetry; apply sort_perm|done].
Qed.

Lemma StronglySorted_sublist {A} (R : A → A → Prop) l k :
  l `sublist_of` k → StronglySorted R k → StronglySorted R l.
Proof.
  induction 1 as [|x l k Hs IH|x l k Hs IH]; [done|..]; inversion_clear 1; [|auto].
  constructor; [auto|]. rewrite Forall_forall in *. intros y Hy.
  eauto using elem_of_sublist.
Qed.

Lemma normalize_sorted l : StronglySorted entry_le (normalizeAllowedRootEntries l).
Proof.
  rewrite normalize_unfold. eapply StronglySorted_sublist; [apply normalize_loop_sublist|].
  apply sort_sorted.
Qed.

Lemma normalize_perm l k :
  l ≡ₚ k → NoDup (Path <$> l) → normalizeAllowedRootEntries l = normalizeAllowedRootEntries k.
Proof. intros Hp Hnd. rewrite !normalize_unfold. by rewrite (sort_perm_eq l k). Qed.

(** ** The normalization never changes which paths are authorized *)

Lemma normalize_loop_covers anc kept l :
  (∀ a, a ∈ anc → a ∈ kept) →
  (∀ e, e ∈ kept ++ l → canonical (Path e) = true) →
  ∀ e, e ∈ l → ∃ k, k ∈ kept ++ normalize_loop anc l ∧ pathWithin (Path k) (Path e) = true.
Proof.
  revert anc kept. induction l as [|e l IH]; intros anc kept Hanc Hc; simpl.
  { by intros e ?%not_elem_of_nil. }
  pose proof (pop_ancestors_head anc (Path e)) as Hh.
  pose proof (pop_ancestors_suffix anc (Path e)) as Hsuf.
  assert (Hkeep : ∀ anc', (∀ a, a ∈ anc' → a ∈ kept ++ [e]) →
    ∀ e', e' ∈ e :: l →
    ∃ k, k ∈ kept ++ e :: normalize_loop anc' l ∧ pathWithin (Path k) (Path e') = true).
  { intros anc' Hanc' e' [->|He']%elem_of_cons.
    - exists e. split; [set_solver|apply pathWithin_refl].
    - destruct (IH anc' (kept ++ [e])) with (e := e') as (k & Hk & Hw); [done| |done|].
      + intros x. rewrite <-app_assoc. apply Hc.
      + exists k. by rewrite <-app_assoc in Hk. }
  destruct (pop_ancestors anc (Path e)) as [|top rest].
  { apply Hkeep. intros a ->%list_elem_of_singleton. set_solver. }
  destruct Hh as [Htop Hwt].
  assert (∀ a, a ∈ top :: rest → a ∈ kept).
  { intros a Ha. apply Hanc. destruct Hsuf as [k ->]. set_solver. }
  case_bool_decide.
  - intros e' [->|He']%elem_of_cons.
    + exists top. split; [|done]. apply elem_of_app. auto.
    + apply IH; [done| |done]. intros x Hx. apply Hc. set_solver.
  - apply Hkeep. set_solver.
Qed.

Lemma normalize_authorizes l source :
  valid_entries l → canonical source = true →
  is_Some (lookup_entry (normalizeAllowedRootEntries l) source) ↔ is_Some (lookup_entry l source).
Proof.
  intros Hv Hs. rewrite !lookup_entry_is_Some by auto using normalize_valid. split.
  { intros (e & He & Hw). eauto using normalize_elem. }
  intros (e & He & Hw). pose proof (valid_canonical _ Hv) as Hc.
  rewrite normalize_unfold.
  destruct (normalize_loop_covers [] [] (sortAllowedRootEntriesCanonical l)) with (e := e)
    as (k & Hk & Hwk); [done| |by rewrite sort_perm|].
  { intros x. simpl. rewrite sort_perm. apply Hc. }
  exists k. split; [done|]. simpl in Hk.
  apply elem_of_sublist with (l2 := sortAllowedRootEntriesCanonical l) in Hk;
    [|apply normalize_loop_sublist]. rewrite sort_perm in Hk.
  eapply (pathWithin_trans _ (Path e)); eauto.
Qed.

(** ** The normalization preserves the lookup of sibling-safe lists *)

(** Byte order interleaves siblings: ["/a/b-x"] sorts between ["/a/b"] and
    ["/a/b/c"].  A list is sibling-safe when no such entry separates an entry
    from one of its descendants. *)
Definition sibling_safe (l : list AllowedRootEntry) : Prop :=
  ∀ a x e, a ∈ l → x ∈ l → e ∈ l →
    pathWithin (Path a) (Path e) = true →
    str_ltb (Path a) (Path x) = true → str_ltb (Path x) (Path e) = true →
    pathWithin (Path a) (Path x) = true.

Definition sibling_safe_b (l : list AllowedRootEntry) : bool :=
  forallb (λ a, forallb (λ x, forallb (λ e,
    negb (pathWithin (Path a) (Path e) && str_ltb (Path a) (Path x) && str_ltb (Path x) (Path e))
    || pathWithin (Path a) (Path x)) l) l) l.

Lemma sibling_safe_b_true l : sibling_safe_b l = true → sibling_safe l.
Proof.
  intros H a x e Ha Hx He H1 H2 H3. unfold sibling_safe_b in H.
  rewrite forallb_forall in H. specialize (H a ltac:(by apply list_elem_of_In)).
  rewrite forallb_forall in H. specialize (H x ltac:(by apply list_elem_of_In)).
  rewrite forallb_forall in H. specialize (H e ltac:(by apply list_elem_of_In)).
  by rewrite H1, H2, H3 in H.
Qed.

Lemma sibling_safe_incl l k : (∀ e, e ∈ k → e ∈ l) → sibling_safe l → sibling_safe k.
Proof. intros Hi Hs a x e ???. apply Hs; auto. Qed.

Definition before (l : list AllowedRootEntry) (e : AllowedRootEntry) : Prop :=
  ∀ b, b ∈ l → str_ltb (Path b) (Path e) = true.

(** Containers of one path are visited ancestors first. *)
Lemma before_within b e s :
  canonical (Path b) = true → canonical (Path e) = true → canonical s = true →
  str_ltb (Path b) (Path e) = true →
  pathWithin (Path b) s = true → pathWithin (Path e) s = true →
  pathWithin (Path b) (Path e) = true.
Proof.
  intros Hb He Hs Hlt Hbs Hes.
  destruct (pathWithin_chain (Path b) (Path e) s) as [|H]; [done..|].
  destruct (decide (Path e = Path b)) as [E|E]; [rewrite E; apply pathWithin_refl|].
  apply pathWithin_lt in H; [|done..]. apply str_ltb_asym in H. congruence.
Qed.

Lemma lookup_entry_last l e s :
  valid_entries (l ++ [e]) → canonical s = true → before l e →
  lookup_entry (l ++ [e]) s = if pathWithin (Path e) s then Some e else lookup_entry l s.
Proof.
  intros Hv Hs Hb. rewrite lookup_entry_snoc. unfold lookup_step.
  destruct (pathWithin (Path e) s) eqn:Ew; [|done]. simpl.
  pose proof (lookup_entry_spec l s (valid_app_inv _ _ Hv) Hs) as H.
  destruct (lookup_entry l s) as [b|]; [|done]. destruct H as (Hin & Hw & _).
  pose proof (valid_canonical _ Hv) as Hc.
  assert (pathWithin (Path b) (Path e) = true) as ->; [|done].
  apply (before_within b e s); auto; apply Hc; set_solver.
Qed.

Lemma sorted_before l e k :
  valid_entries (l ++ e :: k) → StronglySorted entry_le (l ++ e :: k) → before l e.
Proof.
  intros Hv Hs b Hb.
  assert (entry_le b e) as Hle.
  { apply list_elem_of_split in Hb as (l1 & l2 & ->).
    rewrite <-app_assoc in Hs. simpl in Hs. clear Hv.
    induction l1 as [|a l1 IH]; simpl in Hs; apply StronglySorted_inv in Hs as [Hs Hf]; [|auto].
    rewrite Forall_forall in Hf. apply Hf. set_solver. }
  apply str_le_spec in Hle as [|E]; [done|]. exfalso.
  assert (b = e) as ->.
  { eapply valid_path_inj; [exact Hv| | |done]; set_solver. }
  destruct Hv as [_ _ Hnd]. rewrite fmap_app in Hnd. apply NoDup_app in Hnd as (_ & Hd & _).
  apply (Hd (Path e)); [by apply list_elem_of_fmap_2|]. by left.
Qed.

(** The state of the loop after the prefix [visited]: the stack holds, deepest
    first, every retained entry that can still contain a later one. *)
Record loop_inv (visited kept anc todo : list AllowedRootEntry) : Prop := {
  inv_valid : valid_entries (visited ++ todo);
  inv_sorted : StronglySorted entry_le (visited ++ todo);
  inv_safe : sibling_safe (visited ++ todo);
  inv_kept : kept `sublist_of` visited;
  inv_anc : ∀ a, a ∈ anc → a ∈ kept;
  inv_chain : StronglySorted (λ a b, pathWithin (Path b) (Path a) = true) anc;
  inv_complete : ∀ k e, k ∈ kept → e ∈ todo → pathWithin (Path k) (Path e) = true → k ∈ anc;
  inv_agree : ∀ s, canonical s = true →
    lookupAllowedRootAccess kept s = lookupAllowedRootAccess visited s;
}.

Section loop_step.
Context (visited kept anc todo : list AllowedRootEntry) (e : AllowedRootEntry).
Context (I : loop_inv visited kept anc (e :: todo)).

Lemma li_canonical x : x ∈ visited ++ e :: todo → canonical (Path x) = true.
Proof. apply (valid_canonical _ (inv_valid _ _ _ _ I)). Qed.

Lemma li_before : before visited e.
Proof. eapply sorted_before; apply I. Qed.

Lemma li_kept k : k ∈ kept → k ∈ visited.
Proof. intros. by eapply elem_of_sublist; [|apply I]. Qed.

Lemma li_kept_valid : valid_entries (kept ++ [e]).
Proof.
  eapply valid_sublist; [|apply I]. apply sublist_app; [apply I|].
  apply singleton_sublist_l. by left.
Qed.

Lemma li_visited_valid : valid_entries (visited ++ [e]).
Proof.
  eapply valid_sublist; [|apply I]. apply sublist_app; [done|].
  apply singleton_sublist_l. by left.
Qed.

Lemma li_pop_keeps k :
  k ∈ anc → pathWithin (Path k) (Path e) = true → k ∈ pop_ancestors anc (Path e).
Proof. apply pop_ancestors_keeps. Qed.

Lemma li_pop_anc a : a ∈ pop_ancestors anc (Path e) → a ∈ anc.
Proof.
  intros Ha. destruct (pop_ancestors_suffix anc (Path e)) as [k Hk].
  rewrite Hk. apply elem_of_app. by right.
Qed.

Lemma li_pop_chain :
  StronglySorted (λ a b, pathWithin (Path b) (Path a) = true) (pop_ancestors anc (Path e)).
Proof.
  eapply StronglySorted_sublist; [|apply I].
  destruct (pop_ancestors_suffix anc (Path e)) as [k Hk]. rewrite Hk at 2.
  by apply sublist_inserts_l.
Qed.

(** Everything left on the popped stack contains [e]. *)
Lemma li_pop_within a :
  a ∈ pop_ancestors anc (Path e) → pathWithin (Path a) (Path e) = true.
Proof.
  intros Ha. pose proof (pop_ancestors_head anc (Path e)) as Hh. pose proof li_pop_chain as Hch.
  pose proof li_pop_anc as Hpa.
  destruct (pop_ancestors anc (Path e)) as [|top rest]; [by apply not_elem_of_nil in Ha|].
  destruct Hh as [_ Hw]. apply elem_of_cons in Ha as [->|Ha]; [done|].
  apply StronglySorted_inv in Hch as [_ Hf]. rewrite Forall_forall in Hf.
  assert (∀ x, x ∈ top :: rest → canonical (Path x) = true) as Hc.
  { intros x Hx. apply li_canonical, elem_of_app. left. apply li_kept, I, Hpa, Hx. }
  apply (pathWithin_trans _ (Path top)); [apply Hc; by right|apply Hc; by left| |by apply Hf|done].
  apply li_canonical, elem_of_app. right; by left.
Qed.

(** Sibling-safety: a retained container of a later entry contains [e]. *)
Lemma li_complete k e' :
  k ∈ kept → e' ∈ todo → pathWithin (Path k) (Path e') = true →
  k ∈ pop_ancestors anc (Path e).
Proof.
  intros Hk He' Hw. apply li_pop_keeps; [eapply (inv_complete _ _ _ _ I); set_solver|].
  apply (inv_safe _ _ _ _ I k e e'); [|set_solver..| |].
  - apply elem_of_app. left. by apply li_kept.
  - apply li_before, li_kept, Hk.
  - pose proof (inv_sorted _ _ _ _ I) as Hs. pose proof (inv_valid _ _ _ _ I) as Hv.
    apply list_elem_of_split in He' as (t1 & t2 & Et).
    assert (visited ++ e :: todo = (visited ++ e :: t1) ++ e' :: t2) as E
      by (subst; by rewrite <-app_assoc).
    rewrite E in Hs, Hv. eapply (sorted_before _ _ _ Hv Hs). set_solver.
Qed.

Lemma li_lookup_visited s :
  canonical s = true →
  lookupAllowedRootAccess (visited ++ [e]) s =
    if pathWithin (Path e) s then Some (Access e) else lookupAllowedRootAccess visited s.
Proof.
  intros Hs. unfold lookupAllowedRootAccess.
  rewrite lookup_entry_last by auto using li_visited_valid, li_before. by destruct (pathWithin _ _).
Qed.

Lemma loop_inv_push :
  loop_inv (visited ++ [e]) (kept ++ [e]) (e :: pop_ancestors anc (Path e)) todo.
Proof.
  split.
  - rewrite <-app_assoc. apply I.
  - rewrite <-app_assoc. apply I.
  - rewrite <-app_assoc. apply I.
  - apply sublist_app; [apply I|done].
  - intros a [->|Ha]%elem_of_cons; [set_solver|]. apply elem_of_app. left. by apply I, li_pop_anc.
  - constructor; [apply li_pop_chain|]. rewrite Forall_forall. apply li_pop_within.
  - intros k e' [Hk| ->%list_elem_of_singleton]%elem_of_app He' Hw; [|by left].
    right. by eapply li_complete.
  - intros s Hs. rewrite li_lookup_visited by done. unfold lookupAllowedRootAccess at 1.
    rewrite lookup_entry_last; [|apply li_kept_valid|done|].
    + destruct (pathWithin _ _); [done|]. by apply I.
    + intros b Hb. by apply li_before, li_kept.
Qed.

Lemma loop_inv_drop top rest :
  pop_ancestors anc (Path e) = top :: rest → Access top = Access e →
  loop_inv (visited ++ [e]) kept (top :: rest) todo.
Proof.
  intros Epop Hacc. pose proof (pop_ancestors_head anc (Path e)) as Hh.
  pose proof li_pop_chain as Hch. pose proof li_pop_anc as Hpa. rewrite Epop in Hh, Hch, Hpa.
  destruct Hh as [Htop Hwt].
  split.
  - rewrite <-app_assoc. apply I.
  - rewrite <-app_assoc. apply I.
  - rewrite <-app_assoc. apply I.
  - apply sublist_inserts_r, I.
  - intros a Ha. by apply I, Hpa.
  - done.
  - intros k e' Hk He' Hw. rewrite <-Epop. by eapply li_complete.
  - intros s Hs. rewrite li_lookup_visited by done.
    destruct (pathWithin (Path e) s) eqn:Ew; [|by apply I].
    assert (Hkv : valid_entries kept) by (eapply valid_app_inv, li_kept_valid).
    assert (Hce : canonical (Path e) = true) by (apply li_canonical; set_solver).
    assert (Hck : ∀ k, k ∈ kept → canonical (Path k) = true) by apply Hkv.
    assert (Htk : top ∈ kept) by by apply I.
    unfold lookupAllowedRootAccess. rewrite <-Hacc.
    assert (lookup_entry kept s = Some top) as ->; [|done].
    apply lookup_entry_Some; [done..|]. split_and!; [done|by eapply (pathWithin_trans _ (Path e)); eauto|].
    intros k Hk Hw. assert (Hke : pathWithin (Path k) (Path e) = true).
    { apply (before_within k e s); auto. apply li_before, li_kept, Hk. }
    assert (Hin : k ∈ top :: rest).
    { rewrite <-Epop. apply li_pop_keeps; [|done]. apply (inv_complete _ _ _ _ I k e); set_solver. }
    apply elem_of_cons in Hin as [->|Hin]; [apply pathWithin_refl|].
    apply StronglySorted_inv in Hch as [_ Hf]. rewrite Forall_forall in Hf. by apply Hf.
Qed.
End loop_step.

Lemma normalize_loop_lookup visited kept anc todo s :
  loop_inv visited kept anc todo → canonical s = true →
  lookupAllowedRootAccess (kept ++ normalize_loop anc todo) s =
  lookupAllowedRootAccess (visited ++ todo) s.
Proof.
  revert visited kept anc. induction todo as [|e todo IH]; intros visited kept anc I Hs; simpl.
  { rewrite !app_nil_r. by apply I. }
  pose proof (loop_inv_push _ _ _ _ _ I) as Hpush.
  pose proof (loop_inv_drop _ _ _ _ _ I) as Hdrop.
  assert (Hv : visited ++ e :: todo = (visited ++ [e]) ++ todo) by by rewrite <-app_assoc.
  assert (Hk : ∀ r, kept ++ e :: r = (kept ++ [e]) ++ r) by (intros; by rewrite <-app_assoc).
  destruct (pop_ancestors anc (Path e)) as [|top rest].
  - rewrite Hv, Hk. by apply IH.
  - case_bool_decide; rewrite Hv; [|rewrite Hk]; apply IH; auto.
Qed.

Lemma normalize_lookup l s :
  valid_entries l → sibling_safe l → canonical s = true →
  lookupAllowedRootAccess (normalizeAllowedRootEntries l) s = lookupAllowedRootAccess l s.
Proof.
  intros Hv Hsafe Hs. rewrite normalize_unfold.
  pose proof (sort_perm l) as Hp.
  assert (Hv' : valid_entries (sortAllowedRootEntriesCanonical l)) by by eapply valid_perm.
  rewrite <-(app_nil_l (normalize_loop _ _)).
  rewrite (normalize_loop_lookup [] [] [] (sortAllowedRootEntriesCanonical l)); [|split|done].
  - simpl. unfold lookupAllowedRootAccess. by rewrite (lookup_entry_perm _ l).
  - done.
  - apply sort_sorted.
  - eapply sibling_safe_incl; [|exact Hsafe]. intros e. by rewrite app_nil_l, Hp.
  - done.
  - done.
  - constructor.
  - by intros k e ?%not_elem_of_nil.
  - done.
Qed.

(** Authority is inherited by descendants. *)
Lemma authorized_down l p s x :
  valid_entries l → canonical p = true → canonical s = true →
  lookupAllowedRootAccess l p = Some x → pathWithin p s = true →
  ∃ e, e ∈ l ∧ pathWithin (Path e) s = true.
Proof.
  intros Hv Hp Hs Hl Hw. unfold lookupAllowedRootAccess in Hl.
  apply fmap_Some in Hl as (e & He & _). apply lookup_entry_Some in He as (Hin & Hwe & _); [|done..].
  exists e. split; [done|].
  apply (pathWithin_trans _ p); [by apply (valid_canonical _ Hv)|done..].
Qed.

Lemma valid_lookup_access l s x :
  valid_entries l → canonical s = true → lookupAllowedRootAccess l s = Some x → isValid x = true.
Proof.
  intros Hv Hs H. unfold lookupAllowedRootAccess in H. apply fmap_Some in H as (e & He & ->).
  apply lookup_entry_Some in He as (Hin & _); [|done..]. by apply (valid_access _ Hv).
Qed.

Lemma isValid_cases a :
  isValid a = true ↔ a = AllowedRootAccessReadWrite ∨ a = AllowedRootAccessReadOnly.
Proof. unfold isValid. by rewrite orb_true_iff, !bool_decide_eq_true. Qed.

(** ** The composition *)

Section compose.
Context (c n : list AllowedRootEntry).
Context (Hc : valid_entries c) (Hn : valid_entries n).

Definition composed_raw : list AllowedRootEntry :=
  omap (compose_candidate c n) (elements (compose_candidates c n)).

Lemma compose_candidate_path p e : compose_candidate c n p = Some e → Path e = p.
Proof. unfold compose_candidate. intros. split_matches. Qed.

Lemma compose_candidate_spec p e :
  compose_candidate c n p = Some e ↔
  ∃ u d, lookupAllowedRootAccess c p = Some u ∧ lookupAllowedRootAccess n p = Some d ∧
         e = mkEntry p (meetAllowedRootAccess u d).
Proof. unfold compose_candidate. split; intros; split_matches; naive_solver. Qed.

Lemma elem_of_candidates p :
  p ∈ compose_candidates c n ↔ (∃ e, e ∈ c ∧ Path e = p) ∨ (∃ e, e ∈ n ∧ Path e = p).
Proof.
  unfold compose_candidates. rewrite elem_of_union, !elem_of_list_to_set, !list_elem_of_fmap.
  naive_solver.
Qed.

Lemma candidate_canonical p : p ∈ compose_candidates c n → canonical p = true.
Proof. 
  intros [(e & ? & <-)|(e & ? & <-)]%elem_of_candidates.
  - by apply (valid_canonical _ Hc).
  - by apply (valid_canonical _ Hn).
Qed.

Lemma omap_candidate_paths order : NoDup order → NoDup (Path <$> omap (compose_candidate c n) order).
Proof.
  induction 1 as [|p order Hp _ IH]; simpl; [constructor|].
  destruct (compose_candidate c n p) as [e|] eqn:E; [|done].
  simpl. constructor; [|done]. rewrite (compose_candidate_path _ _ E).
  intros (e' & -> & He')%list_elem_of_fmap. apply list_elem_of_omap in He' as (q & Hq & Eq).
  by rewrite (compose_candidate_path _ _ Eq) in Hp.
Qed.

Lemma meet_valid u d : isValid (meetAllowedRootAccess u d) = true.
Proof. unfold meetAllowedRootAccess. by destruct (_ || _). Qed.

Lemma elem_of_composed_raw e :
  e ∈ composed_raw ↔ Path e ∈ compose_candidates c n ∧ compose_candidate c n (Path e) = Some e.
Proof.
  unfold composed_raw. rewrite list_elem_of_omap. setoid_rewrite elem_of_elements. split.
  - intros (p & Hp & E). by rewrite (compose_candidate_path _ _ E).
  - intros [??]. eauto.
Qed.

Lemma composed_raw_valid : valid_entries composed_raw.
Proof.
  split.
  - intros e [He _]%elem_of_composed_raw. by apply candidate_canonical.
  - intros e [_ (u & d & _ & _ & ->)%compose_candidate_spec]%elem_of_composed_raw. apply meet_valid.
  - apply omap_candidate_paths, NoDup_elements.
Qed.

(** Go's unspecified map iteration order does not reach the result. *)
Lemma compose_in_order_eq order :
  order ≡ₚ elements (compose_candidates c n) →
  compose_in_order order c n = composeAllowedRootScopes c n.
Proof.
  intros Hp. unfold composeAllowedRootScopes, compose_in_order.
  rewrite !(proj2 (validate_ok_is _)) by done. simpl. destruct (_ || _); [done|].
  apply normalize_perm; [by rewrite Hp|]. apply omap_candidate_paths. rewrite Hp. apply NoDup_elements.
Qed.

(** Also for empty scopes the composition is the normalization of the raw
    composed entries. *)
Lemma compose_unfold : composeAllowedRootScopes c n = normalizeAllowedRootEntries composed_raw.
Proof.
  unfold composeAllowedRootScopes, compose_in_order.
  rewrite !(proj2 (validate_ok_is _)) by done. simpl.
  case_bool_decide as E1; [|case_bool_decide as E2; [|done]]; simpl.
  - assert (composed_raw = []) as ->; [|done].
    destruct composed_raw as [|e l] eqn:E; [done|]. exfalso.
    assert (e ∈ composed_raw) as [_ (u & d & Hu & _)%compose_candidate_spec]%elem_of_composed_raw
      by (rewrite E; by left). by rewrite E1 in Hu.
  - assert (composed_raw = []) as ->; [|done].
    destruct composed_raw as [|e l] eqn:E; [done|]. exfalso.
    assert (e ∈ composed_raw) as [_ (u & d & _ & Hd & _)%compose_candidate_spec]%elem_of_composed_raw
      by (rewrite E; by left). by rewrite E2 in Hd.
Qed.

Lemma compose_valid : valid_entries (composeAllowedRootScopes c n).
Proof. rewrite compose_unfold. apply normalize_valid, composed_raw_valid. Qed.

(** The meet of the two lookups. *)
Definition meet_lookup (s : string) : option string :=
  match lookupAllowedRootAccess c s, lookupAllowedRootAccess n s with
  | Some u, Some d => Some (meetAllowedRootAccess u d)
  | _, _ => None
  end.

Lemma composed_raw_deepest s a b p :
  canonical s = true → deepest c s a → deepest n s b →
  (p = Path a ∧ pathWithin (Path b) p = true ∨ p = Path b ∧ pathWithin (Path a) p = true) →
  deepest composed_raw s (mkEntry p (meetAllowedRootAccess (Access a) (Access b))).
Proof.
  intros Hs Ha Hb Hp. pose proof Ha as (Hac & Has & Had). pose proof Hb as (Hbn & Hbs & Hbd).
  pose proof (valid_canonical _ Hc) as Hcc. pose proof (valid_canonical _ Hn) as Hcn.
  assert (Hpin : p ∈ compose_candidates c n) by (apply elem_of_candidates; naive_solver).
  assert (Hps : pathWithin p s = true) by naive_solver.
  assert (Hap : pathWithin (Path a) p = true) by (destruct Hp as [[-> _]|[_ ?]]; [apply pathWithin_refl|done]).
  assert (Hbp : pathWithin (Path b) p = true) by (destruct Hp as [[_ ?]|[-> _]]; [done|apply pathWithin_refl]).
  pose proof (candidate_canonical _ Hpin) as Hpc.
  assert (La : lookup_entry c p = Some a) by (apply lookup_entry_Some; [done..|by apply (deepest_between _ s)]).
  assert (Lb : lookup_entry n p = Some b) by (apply lookup_entry_Some; [done..|by apply (deepest_between _ s)]).
  split_and!.
  - apply elem_of_composed_raw. simpl. split; [done|]. apply compose_candidate_spec.
    unfold lookupAllowedRootAccess. rewrite La, Lb. simpl. eauto.
  - done.
  - simpl. intros q [Hq _]%elem_of_composed_raw Hqs.
    apply elem_of_candidates in Hq as [(e & He & E)|(e & He & E)]; rewrite <-E in *.
    + apply (pathWithin_trans _ (Path a)); auto.
    + apply (pathWithin_trans _ (Path b)); auto.
Qed.

Lemma composed_raw_lookup s :
  canonical s = true → lookupAllowedRootAccess composed_raw s = meet_lookup s.
Proof.
  intros Hs. unfold meet_lookup, lookupAllowedRootAccess.
  pose proof (lookup_entry_spec c s Hc Hs) as Ha. pose proof (lookup_entry_spec n s Hn Hs) as Hb.
  pose proof (lookup_entry_spec composed_raw s composed_raw_valid Hs) as Hr.
  destruct (lookup_entry c s) as [a|], (lookup_entry n s) as [b|]; simpl.
  1:{ assert (∃ p, p = Path a ∧ pathWithin (Path b) p = true ∨
                   p = Path b ∧ pathWithin (Path a) p = true) as [p Hp].
      { pose proof Ha as (Hac & Has & _). pose proof Hb as (Hbn & Hbs & _).
        destruct (pathWithin_chain (Path a) (Path b) s); [by apply (valid_canonical _ Hc)|by apply (valid_canonical _ Hn)|eauto..]. }
      assert (lookup_entry composed_raw s = Some (mkEntry p (meetAllowedRootAccess (Access a) (Access b)))) as ->; [|done].
      apply lookup_entry_Some; [apply composed_raw_valid|done|]. by apply composed_raw_deepest. }
  all: destruct (lookup_entry composed_raw s) as [r|]; [|done]; exfalso;
    destruct Hr as ([Hrc (u & d & Hu & Hd & _)%compose_candidate_spec]%elem_of_composed_raw & Hw & _);
    apply candidate_canonical in Hrc.
  - destruct (authorized_down n (Path r) s d) as (e & He & Hes); [done..|]. by rewrite Hb in Hes.
  - destruct (authorized_down c (Path r) s u) as (e & He & Hes); [done..|]. by rewrite Ha in Hes.
  - destruct (authorized_down c (Path r) s u) as (e & He & Hes); [done..|]. by rewrite Ha in Hes.
Qed.

(** Most-specific lookup commutes with composition on sibling-safe scopes. *)
Lemma compose_lookup s :
  sibling_safe composed_raw → canonical s = true →
  lookupAllowedRootAccess (composeAllowedRootScopes c n) s = meet_lookup s.
Proof.
  intros Hsafe Hs. rewrite compose_unfold, normalize_lookup by auto using composed_raw_valid.
  by apply composed_raw_lookup.
Qed.

Lemma compose_authorizes s :
  canonical s = true →
  is_Some (lookupAllowedRootAccess (composeAllowedRootScopes c n) s) ↔ is_Some (meet_lookup s).
Proof.
  intros Hs. rewrite compose_unfold, <-composed_raw_lookup by done.
  unfold lookupAllowedRootAccess. rewrite !fmap_is_Some.
  apply normalize_authorizes; [apply composed_raw_valid|done].
Qed.

Lemma meet_lookup_is_Some s :
  is_Some (meet_lookup s) ↔
  is_Some (lookupAllowedRootAccess c s) ∧ is_Some (lookupAllowedRootAccess n s).
Proof.
  unfold meet_lookup.
  destruct (lookupAllowedRootAccess c s), (lookupAllowedRootAccess n s); split;
    first [by intros [? ?] | by intros [[? ?] [? ?]] | (intros _; split; by eexists) | (intros _; by eexists)].
Qed.

(** The meet spelt out on the accesses of valid scopes. *)
Lemma meet_lookup_both s a :
  canonical s = true →
  meet_lookup s = Some a ↔
  ∃ up down, lookupAllowedRootAccess c s = Some up ∧ lookupAllowedRootAccess n s = Some down ∧
    a = if bool_decide (up = AllowedRootAccessReadWrite ∧ down = AllowedRootAccessReadWrite)
        then AllowedRootAccessReadWrite else AllowedRootAccessReadOnly.
Proof.
  intros Hs. unfold meet_lookup.
  pose proof (λ x, valid_lookup_access c s x Hc Hs) as Ac.
  pose proof (λ x, valid_lookup_access n s x Hn Hs) as An.
  destruct (lookupAllowedRootAccess c s) as [u|]; [|naive_solver].
  destruct (lookupAllowedRootAccess n s) as [d|]; [|naive_solver].
  specialize (Ac u eq_refl). specialize (An d eq_refl).
  assert (meetAllowedRootAccess u d = if bool_decide (u = AllowedRootAccessReadWrite ∧ d = AllowedRootAccessReadWrite)
        then AllowedRootAccessReadWrite else AllowedRootAccessReadOnly) as ->; [|naive_solver].
  apply isValid_cases in Ac as [->| ->], An as [->| ->]; reflexivity.
Qed.

(** Whatever the order of the siblings: the paths of both scopes, and the
    meet at every entry that is kept. *)
Lemma compose_exact :
  (∀ s, canonical s = true →
     is_Some (lookupAllowedRootAccess (composeAllowedRootScopes c n) s) ↔
     is_Some (lookupAllowedRootAccess c s) ∧ is_Some (lookupAllowedRootAccess n s)) ∧
  (∀ e, e ∈ composeAllowedRootScopes c n → meet_lookup (Path e) = Some (Access e)).
Proof.
  split.
  - intros s Hs. rewrite compose_authorizes by done. apply meet_lookup_is_Some.
  - intros e He. rewrite compose_unfold in He. apply normalize_elem in He.
    pose proof He as [Hp (u & d & Hu & Hd & E)%compose_candidate_spec]%elem_of_composed_raw.
    rewrite E in *. simpl in *. unfold meet_lookup. by rewrite Hu, Hd.
Qed.
End compose.

(** ** A syntactic criterion for sibling-safety

    Only bytes below ['/'] (space, ['-'], ['.'], ['+'], ...) let a sibling sort
    between a directory and its descendants. *)

Definition plain_byte (b : ascii) : bool := (N_of_ascii Separator <=? N_of_ascii b)%N.
Definition plain_path (p : string) : bool := str_forall plain_byte p.

Lemma str_forall_app P a b : str_forall P (a +:+ b) = str_forall P a && str_forall P b.
Proof. induction a; simpl; [done|]. by rewrite IHa, andb_assoc. Qed.

Lemma split_sep_join_app l r :
  l ≠ [] → Forall (λ w, no_sep w = true) l →
  split_sep (join_sep l +:+ String Separator r) = l ++ split_sep r.
Proof.
  induction l as [|w l IH]; [done|]. intros _ [Hw Hl]%Forall_cons.
  rewrite join_sep_cons. destruct l as [|v l].
  - rewrite str_app_nil_r. by rewrite split_sep_app.
  - rewrite str_app_assoc.
    change (String Separator (join_sep (v :: l)) +:+ String Separator r)
      with (String Separator (join_sep (v :: l) +:+ String Separator r)).
    rewrite split_sep_app by done. by rewrite IH.
Qed.

Lemma within_of_string_prefix a x r :
  canonical a = true → canonical x = true → x = a +:+ String Separator r →
  pathWithin a x = true.
Proof.
  intros Ha Hx E. rewrite pathWithin_spec, bool_decide_eq_true by done.
  apply canonical_inv in Ha as [Ea Pa]. apply canonical_inv in Hx as [Ex Px].
  destruct (decide (comps a = [])) as [->|Hne]; [apply prefix_nil|].
  exists (split_sep r). rewrite Ex, Ea in E. unfold render in E. simpl in E.
  injection E as E. apply (f_equal split_sep) in E.
  rewrite split_sep_join_app in E by (done || by apply proper_no_sep).
  destruct (comps x) as [|w l] eqn:Ecx.
  - simpl in E. destruct (comps a) as [|v [|v' k]]; [done|..]; simpl in E.
    + destruct (split_sep r) eqn:Er; [by apply split_sep_ne in Er|done].
    + done.
  - rewrite <-E. symmetry. apply split_join; [done|by apply proper_no_sep].
Qed.

(** The strings between [a] and [a ++ t] in byte order extend [a]. *)
Lemma str_between a x t :
  str_ltb a x = true → str_ltb x (a +:+ t) = true → ∃ y, x = a +:+ y ∧ str_ltb y t = true ∧ y ≠ "".
Proof.
  revert x; induction a as [|c a IH]; intros x; simpl.
  - destruct x; [done|]. eauto.
  - destruct x as [|d x]; [done|].
    change (String c a +:+ t) with (String c (a +:+ t)). rewrite str_ltb_cons.
    destruct (N.ltb_spec (N_of_ascii c) (N_of_ascii d)), (N.ltb_spec (N_of_ascii d) (N_of_ascii c));
      [lia|by intros|by intros|].
    intros Hlt Hgt. assert (c = d) as -> by (apply N_of_ascii_inj; lia).
    destruct (IH x Hlt Hgt) as (y & -> & ? & ?). by exists y.
Qed.

Lemma render_extend l k :
  l ≠ [] → k ≠ [] → ∃ t, render (l ++ k) = render l +:+ String Separator t.
Proof.
  intros Hl Hk. unfold render. simpl. exists (join_sep k). f_equal.
  induction l as [|w l IH]; [done|]. simpl app. rewrite !join_sep_cons, str_app_assoc. f_equal.
  destruct l as [|v l]; simpl app; [by destruct k|].
  change (String Separator (join_sep (v :: l)) +:+ String Separator (join_sep k))
    with (String Separator (join_sep (v :: l) +:+ String Separator (join_sep k))).
  by rewrite <-IH.
Qed.

Lemma plain_sibling_safe l :
  valid_entries l → (∀ e, e ∈ l → plain_path (Path e) = true) → sibling_safe l.
Proof.
  intros Hv Hp a x e Ha Hx He Hae Hax Hxe.
  pose proof (valid_canonical _ Hv) as Hc.
  pose proof (canonical_inv _ (Hc _ Ha)) as [Ea Pa].
  pose proof (canonical_inv _ (Hc _ He)) as [Ee _].
  rewrite pathWithin_spec, bool_decide_eq_true in Hae by auto. destruct Hae as [k Hk].
  destruct (decide (comps (Path a) = [])) as [Hr|Hr].
  { rewrite pathWithin_spec, bool_decide_eq_true, Hr by auto. apply prefix_nil. }
  destruct (decide (k = [])) as [->|Hkne].
  { rewrite app_nil_r in Hk. assert (Path a = Path e) as E by (apply comps_inj; auto).
    rewrite <-E in Hxe. apply str_ltb_asym in Hxe. congruence. }
  destruct (render_extend (comps (Path a)) k Hr Hkne) as [t Ht].
  rewrite <-Hk, <-Ea, <-Ee in Ht. rewrite Ht in Hxe.
  destruct (str_between _ _ _ Hax Hxe) as (y & Ey & Hlt & Hne).
  destruct y as [|b y]; [done|]. assert (b = Separator) as ->.
  { apply N_of_ascii_inj. specialize (Hp _ Hx). rewrite Ey in Hp.
    unfold plain_path in Hp. rewrite str_forall_app in Hp. apply andb_true_iff in Hp as [_ Hb].
    simpl in Hb. apply andb_true_iff in Hb as [Hb _]. unfold plain_byte in Hb.
    apply N.leb_le in Hb. rewrite str_ltb_cons in Hlt.
    destruct (N.ltb_spec (N_of_ascii b) (N_of_ascii Separator)); [lia|].
    destruct (N.ltb_spec (N_of_ascii Separator) (N_of_ascii b)); [done|]. lia. }
  apply (within_of_string_prefix _ _ y); auto.
Qed.

(** ** Auxiliary facts of the specifications *)

Lemma existsb_false_in {A} (f : A → bool) l x : existsb f l = false → x ∈ l → f x = false.
Proof.
  intros H Hx. destruct (f x) eqn:E; [|done].
  rewrite <-H. symmetry. apply existsb_exists. exists x. by rewrite <-list_elem_of_In.
Qed.

Lemma authorized_by_path l p :
  valid_entries l → canonical p = true →
  isWithinAnyAllowedRoot p (allowedRootPaths l) = true ↔ is_Some (lookupAllowedRootAccess l p).
Proof.
  intros Hv Hp. unfold lookupAllowedRootAccess. rewrite fmap_is_Some, lookup_entry_is_Some by done.
  unfold isWithinAnyAllowedRoot, allowedRootPaths. rewrite existsb_exists.
  setoid_rewrite <-list_elem_of_In. split.
  - intros (r & (e & -> & He)%list_elem_of_fmap & Hw). exists e. split; [done|].
    apply orb_true_iff in Hw as [E%bool_decide_eq_true|?]; [rewrite E; apply pathWithin_refl|done].
  - intros (e & He & Hw). exists (Path e). split; [by apply list_elem_of_fmap_2|].
    rewrite Hw. apply orb_true_r.
Qed.

Lemma composed_raw_perm c c' n n' :
  valid_entries c → valid_entries n → c' ≡ₚ c → n' ≡ₚ n →
  composed_raw c n ≡ₚ composed_raw c' n'.
Proof.
  intros Hc Hn Pc Pn.
  assert (Hcand : compose_candidates c n = compose_candidates c' n').
  { unfold compose_candidates. apply leibniz_equiv. by rewrite Pc, Pn. }
  unfold composed_raw. rewrite Hcand.
  assert (Hall : Forall (λ p, canonical p = true) (elements (compose_candidates c' n'))).
  { apply Forall_forall. intros p Hp%elem_of_elements. rewrite <-Hcand in Hp.
    by apply (candidate_canonical _ _ Hc Hn). }
  induction Hall as [|p l Hp _ IH]; simpl; [done|].
  unfold compose_candidate, lookupAllowedRootAccess.
  rewrite (lookup_entry_perm c c'), (lookup_entry_perm n n') by done.
  by destruct (lookup_entry c' p), (lookup_entry n' p); simpl; rewrite IH.
Qed.

(** ** Narrowing *)

Lemma narrow_scope_snoc w i l e :
  narrow_scope w i (l ++ [e]) =
  if bool_decide (Path e = w) then <[0 := e]> (narrow_scope w i l) else narrow_scope w i l ++ [e].
Proof. unfold narrow_scope. by rewrite foldl_app. Qed.

(** The scope is a workspace grant followed by the requested roots elsewhere;
    the grant is the explicit root at the workspace when there is one. *)
Lemma narrow_scope_shape w i l :
  ∃ h, narrow_scope w i l = h :: filter (λ e, Path e ≠ w) l ∧ Path h = w ∧
       (h ∈ l ∨ h = mkEntry w i ∧ ∀ e, e ∈ l → Path e ≠ w).
Proof.
  induction l as [|e l (h & E & Hp & Hh)] using rev_ind.
  - exists (mkEntry w i). split_and!; [done..|right]. split; [done|]. by intros e ?%not_elem_of_nil.
  - rewrite narrow_scope_snoc, E, filter_app. case_bool_decide as He.
    + exists e. rewrite (filter_cons_False _ e []) by naive_solver. rewrite filter_nil, app_nil_r.
      split_and!; [done..|]. left. set_solver.
    + exists h. rewrite (filter_cons_True _ e []) by done. rewrite filter_nil.
      split_and!; [done..|]. destruct Hh as [Hh|[-> Hh]]; [left; set_solver|right].
      split; [done|]. intros e' [?| ->%list_elem_of_singleton]%elem_of_app; auto.
Qed.

Lemma narrow_scope_elem w i l e :
  e ∈ narrow_scope w i l → e ∈ l ∨ e = mkEntry w i ∧ ∀ e', e' ∈ l → Path e' ≠ w.
Proof.
  destruct (narrow_scope_shape w i l) as (h & -> & Hp & Hh).
  intros [->|[_ ?]%list_elem_of_filter]%elem_of_cons; auto.
Qed.

Lemma narrow_scope_valid w i l :
  valid_entries l → canonical w = true → isValid i = true → valid_entries (narrow_scope w i l).
Proof.
  intros Hv Hw Hi. split.
  - intros e [He|[-> _]]%narrow_scope_elem; [by apply (valid_canonical _ Hv)|done].
  - intros e [He|[-> _]]%narrow_scope_elem; [by apply (valid_access _ Hv)|done].
  - destruct (narrow_scope_shape w i l) as (h & -> & Hp & _). simpl. constructor.
    + rewrite Hp. intros (e & -> & [He _]%list_elem_of_filter)%list_elem_of_fmap. done.
    + eapply sublist_NoDup; [apply (valid_nodup _ Hv)|]. apply fmap_sublist, sublist_filter.
Qed.

(** Every requested root is in the scope. *)
Lemma narrow_scope_requested w i l e :
  valid_entries l → e ∈ l → e ∈ narrow_scope w i l.
Proof.
  intros Hv He. destruct (narrow_scope_shape w i l) as (h & -> & Hp & Hh).
  destruct (decide (Path e = w)) as [Ew|Ew].
  - destruct Hh as [Hh|[_ Hh]]; [|by apply Hh in He].
    assert (e = h) as -> by (eapply valid_path_inj; [exact Hv|done|done|congruence]). by left.
  - right. by apply list_elem_of_filter.
Qed.

Lemma narrow_scope_workspace w i l :
  valid_entries l → canonical w = true → isValid i = true →
  is_Some (lookupAllowedRootAccess (narrow_scope w i l) w).
Proof.
  intros Hv Hw Hi. unfold lookupAllowedRootAccess. rewrite fmap_is_Some.
  apply lookup_entry_is_Some; [by apply narrow_scope_valid|done|].
  destruct (narrow_scope_shape w i l) as (h & -> & Hp & _).
  exists h. split; [by left|]. rewrite Hp. apply pathWithin_refl.
Qed.

(** The requested scope without regard to order: the requested roots, and
    the workspace with its implicit access unless a root names it. *)
Definition narrowing_scope (w i : string) (l : list AllowedRootEntry) : list AllowedRootEntry :=
  if existsb (λ e, bool_decide (Path e = w)) l then l else mkEntry w i :: l.

Lemma filter_path_split (l : list AllowedRootEntry) h :
  valid_entries l → h ∈ l → h :: filter (λ e, Path e ≠ Path h) l ≡ₚ l.
Proof.
  intros Hv Hh. apply NoDup_Permutation.
  - constructor; [by intros [? _]%list_elem_of_filter|].
    eapply sublist_NoDup; [|apply sublist_filter]. eapply NoDup_fmap_1, (valid_nodup _ Hv).
  - eapply NoDup_fmap_1, (valid_nodup _ Hv).
  - intros e. rewrite elem_of_cons, list_elem_of_filter. split; [naive_solver|]. intros He.
    destruct (decide (Path e = Path h)) as [E|]; [left|by right]. by eapply valid_path_inj.
Qed.

Lemma narrow_scope_perm w i l :
  valid_entries l → narrow_scope w i l ≡ₚ narrowing_scope w i l.
Proof.
  intros Hv. destruct (narrow_scope_shape w i l) as (h & -> & Hp & Hh). unfold narrowing_scope.
  destruct (existsb _ l) eqn:Ex.
  - apply existsb_exists in Ex as (e & He%list_elem_of_In & Ee%bool_decide_eq_true).
    destruct Hh as [Hh|[_ Hh]]; [|by apply Hh in He]. rewrite <-Hp. by apply filter_path_split.
  - assert (Hno : ∀ e, e ∈ l → Path e ≠ w).
    { intros e He. apply (existsb_false_in _ _ _ Ex), bool_decide_eq_false in He. done. }
    destruct Hh as [Hh|[-> _]]; [by apply Hno in Hh|].
    clear Ex. f_equiv. induction l as [|e l IH]; [done|].
    rewrite filter_cons_True by (apply Hno; by left). f_equiv. apply IH.
    + by apply (valid_sublist (e :: l)); [apply sublist_cons|].
    + intros e' He'. apply Hno. by right.
Qed.

Lemma narrowing_scope_authorizes w i l s :
  valid_entries (narrowing_scope w i l) → canonical s = true →
  is_Some (lookupAllowedRootAccess (narrowing_scope w i l) s) ↔
  pathWithin w s = true ∨ ∃ e, e ∈ l ∧ pathWithin (Path e) s = true.
Proof.
  intros Hv Hs. unfold lookupAllowedRootAccess. rewrite fmap_is_Some, lookup_entry_is_Some by done.
  unfold narrowing_scope. destruct (existsb _ l) eqn:Ex.
  - apply existsb_exists in Ex as (e & He%list_elem_of_In & Ee%bool_decide_eq_true).
    split; [by right|]. intros [Hw|?]; [|done]. exists e. by rewrite Ee.
  - setoid_rewrite elem_of_cons. naive_solver.
Qed.

Lemma narrow_check_ok c l :
  narrow_check c l = Ok tt ↔
  ∀ e, e ∈ l → ∃ up, lookupAllowedRootAccess c (Path e) = Some up ∧
    ¬ (Access e = AllowedRootAccessReadWrite ∧ up = AllowedRootAccessReadOnly).
Proof.
  induction l as [|e l IH]; simpl.
  { split; [|done]. by intros _ e ?%not_elem_of_nil. }
  setoid_rewrite elem_of_cons. destruct (lookupAllowedRootAccess c (Path e)) as [up|] eqn:E.
  2:{ split; [done|]. intros H. destruct (H e) as (? & ? & _); [by left|congruence]. }
  destruct (bool_decide (Access e = _) && bool_decide (up = _)) eqn:Eb.
  - split; [done|]. intros H. destruct (H e) as (? & ? & Hn); [by left|].
    apply andb_true_iff in Eb as [?%bool_decide_eq_true ?%bool_decide_eq_true]. naive_solver.
  - rewrite IH. split; [|naive_solver]. intros H e' [->|He']; [|auto].
    exists up. split; [done|]. intros [??]. apply andb_false_iff in Eb.
    rewrite !bool_decide_eq_false in Eb. naive_solver.
Qed.

Lemma lookup_self l e :
  valid_entries l → e ∈ l → lookupAllowedRootAccess l (Path e) = Some (Access e).
Proof.
  intros Hv He. unfold lookupAllowedRootAccess.
  assert (lookup_entry l (Path e) = Some e) as ->; [|done].
  apply lookup_entry_Some; [done|by apply (valid_canonical _ Hv)|]. by apply deepest_self.
Qed.

(** A request the check admits is granted exactly: the meet with the ceiling
    is the requested access. *)
Lemma meet_requested up a :
  isValid up = true → isValid a = true →
  ¬ (a = AllowedRootAccessReadWrite ∧ up = AllowedRootAccessReadOnly) →
  meetAllowedRootAccess up a = a.
Proof. rewrite !isValid_cases. intros [->| ->] [->| ->] ?; naive_solver. Qed.

(** What an admitted request is composed with. *)
Lemma narrow_compose ceiling requested workspace implicit :
  valid_entries ceiling → canonical workspace = true → valid_entries requested →
  (∀ e, e ∈ requested → ∃ up, lookupAllowedRootAccess ceiling (Path e) = Some up ∧
     ¬ (Access e = AllowedRootAccessReadWrite ∧ up = AllowedRootAccessReadOnly)) →
  lookupAllowedRootAccess ceiling workspace = Some implicit →
  let scope := narrowing_scope workspace implicit requested in
  composeAllowedRootScopes ceiling (narrow_scope workspace implicit requested) ≠ [] ∧
  composeAllowedRootScopes ceiling (narrow_scope workspace implicit requested) =
    composeAllowedRootScopes ceiling scope ∧
  valid_entries scope ∧
  ∀ e, e ∈ requested → meet_lookup ceiling scope (Path e) = Some (Access e).
Proof.
  intros Hc Hw Hr Hk Hi scope.
  assert (Hiv : isValid implicit = true) by by apply (valid_lookup_access ceiling workspace).
  pose proof (narrow_scope_valid workspace implicit requested Hr Hw Hiv) as Hsv.
  pose proof (narrow_scope_workspace workspace implicit requested Hr Hw Hiv) as Hsw.
  pose proof (narrow_scope_perm workspace implicit requested Hr) as Hp.
  pose proof (valid_perm _ _ Hp Hsv) as Hv. split_and!; [| |done|].
  - intros E. assert (is_Some (lookupAllowedRootAccess [] workspace)) as [? [=]].
    rewrite <-E. apply compose_authorizes; [done..|]. apply meet_lookup_is_Some. by rewrite Hi.
  - rewrite !compose_unfold by done. apply normalize_perm; [|by apply composed_raw_valid].
    by apply composed_raw_perm.
  - intros e He. destruct (Hk e He) as (up & Hup & Hnot). pose proof (valid_canonical _ Hr _ He) as Hce.
    assert (Hes : e ∈ scope) by (unfold scope; rewrite <-Hp; by apply narrow_scope_requested).
    unfold meet_lookup. rewrite Hup, (lookup_self scope e Hv Hes). f_equal.
    apply meet_requested; [by apply (valid_lookup_access ceiling (Path e))|by apply (valid_access _ Hr)|done].
Qed.

(** ** The snapshot *)

Lemma derive_candidates_ok eff w todo :
  valid_entries eff → (∀ e, e ∈ todo → e ∈ eff) →
  derive_candidates eff w todo = Ok (filter (λ e, pathStrictlyWithin w (Path e) = true) todo).
Proof.
  intros Hv. induction todo as [|e todo IH]; intros Hin; simpl; [done|].
  rewrite IH by set_solver. destruct (pathStrictlyWithin w (Path e)) eqn:E.
  - rewrite lookup_self by set_solver. rewrite filter_cons_True by done. by destruct e.
  - by rewrite filter_cons_False by congruence.
Qed.

Definition derive_raw (eff : list AllowedRootEntry) (w mode : string) : list AllowedRootEntry :=
  mkEntry w mode :: filter (λ e, pathStrictlyWithin w (Path e) = true) eff.

Lemma derive_raw_valid eff w mode :
  valid_entries eff → canonical w = true → isValid mode = true → valid_entries (derive_raw eff w mode).
Proof.
  intros Hv Hw Hm. unfold derive_raw. split.
  - intros e [->|[_ ?]%list_elem_of_filter]%elem_of_cons; [done|by apply (valid_canonical _ Hv)].
  - intros e [->|[_ ?]%list_elem_of_filter]%elem_of_cons; [done|by apply (valid_access _ Hv)].
  - simpl. constructor.
    + intros (e & -> & [He _]%list_elem_of_filter)%list_elem_of_fmap.
      unfold pathStrictlyWithin in He. by rewrite bool_decide_eq_true_2 in He.
    + eapply sublist_NoDup; [apply (valid_nodup _ Hv)|]. apply fmap_sublist, sublist_filter.
Qed.

(** Inside the workspace the derived entries read as the effective policy;
    outside they authorize nothing. *)
Lemma derive_raw_lookup eff w mode s :
  valid_entries eff → canonical w = true → canonical s = true →
  lookupAllowedRootAccess eff w = Some mode →
  lookupAllowedRootAccess (derive_raw eff w mode) s =
  if pathWithin w s then lookupAllowedRootAccess eff s else None.
Proof.
  intros Hv Hw Hs Hm. pose proof (valid_canonical _ Hv) as Hc.
  assert (Hrv : valid_entries (derive_raw eff w mode)).
  { apply derive_raw_valid; eauto using valid_lookup_access. }
  unfold lookupAllowedRootAccess in *. apply fmap_Some in Hm as (a & Ha & ->).
  apply lookup_entry_Some in Ha as Da; [|done..]. destruct Da as (Hain & Haw & Had).
  destruct (pathWithin w s) eqn:Ews.
  2:{ assert (lookup_entry (derive_raw eff w (Access a)) s = None) as ->; [|done].
      apply lookup_entry_None; [done..|].
      intros e [->|[Hsw He]%list_elem_of_filter]%elem_of_cons; [done|].
      destruct (pathWithin (Path e) s) eqn:E; [|done]. rewrite <-Ews. symmetry.
      rewrite pathStrictlyWithin_spec, bool_decide_eq_true in Hsw by auto.
      apply (pathWithin_trans _ (Path e)); auto.
      rewrite pathWithin_spec, bool_decide_eq_true by auto. apply Hsw. }
  assert (Hsome : is_Some (lookup_entry eff s)).
  { apply lookup_entry_is_Some; [done..|]. exists a. split; [done|].
    apply (pathWithin_trans _ w); auto. }
  destruct Hsome as [b Hb]. rewrite Hb. apply lookup_entry_Some in Hb as Db; [|done..].
  destruct Db as (Hbin & Hbs & Hbd).
  destruct (pathWithin (Path b) w) eqn:Ebw.
  - (* the deepest container of the source is at or above the workspace *)
    assert (b = a) as ->.
    { eapply valid_path_inj; [exact Hv|done..|]. apply pathWithin_antisym; auto.
      apply Hbd; [done|]. apply (pathWithin_trans _ w); auto. }
    assert (lookup_entry (derive_raw eff w (Access a)) s = Some (mkEntry w (Access a))) as ->; [|done].
    apply lookup_entry_Some; [done..|]. split_and!; [by left|done|]. simpl.
    intros e [->|[Hsw He]%list_elem_of_filter]%elem_of_cons Hes; [apply pathWithin_refl|].
    apply (pathWithin_trans _ (Path a)); auto.
  - assert (Hwb : pathWithin w (Path b) = true).
    { destruct (pathWithin_chain w (Path b) s); auto. congruence. }
    assert (lookup_entry (derive_raw eff w (Access a)) s = Some b) as ->; [|done].
    apply lookup_entry_Some; [done..|]. split_and!; [|done|].
    + right. apply list_elem_of_filter. split; [|done].
      rewrite pathStrictlyWithin_spec, bool_decide_eq_true by auto.
      rewrite pathWithin_spec, bool_decide_eq_true in Hwb by auto. split; [done|].
      intros ->. by rewrite pathWithin_refl in Ebw.
    + intros e [->|[_ He]%list_elem_of_filter]%elem_of_cons Hes; [done|]. auto.
Qed.

Lemma new_snapshot_ok w l s :
  newSessionFilesystemSnapshot w l = Ok s ↔
  s = mkSnapshot w l ∧ valid_entries l ∧ canonical w = true ∧ l ≠ [] ∧
  is_Some (lookupAllowedRootAccess l w) ∧ normalizeAllowedRootEntries l = l.
Proof.
  unfold newSessionFilesystemSnapshot.
  destruct (validateCanonicalAllowedRootEntries l) as [[]|] eqn:Ev; simpl.
  2:{ split; [done|]. intros (_ & Hv & _). apply validate_ok in Hv. congruence. }
  apply validate_ok in Ev. rewrite canonical_unfold.
  destruct (negb _ || _); [naive_solver|]. case_bool_decide; [naive_solver|].
  destruct (lookupAllowedRootAccess l w) as [x|]; [|naive_solver].
  case_bool_decide as E; naive_solver.
Qed.

(** A snapshot the constructor built. *)
Definition snapshot_wf (s : sessionFilesystemSnapshot) : Prop :=
  newSessionFilesystemSnapshot (Workspace s) (Entries s) = Ok s.

Lemma snapshot_wf_inv s :
  snapshot_wf s → valid_entries (Entries s) ∧ canonical (Workspace s) = true ∧
    is_Some (LookupAccess s (Workspace s)) ∧ StronglySorted entry_le (Entries s).
Proof.
  intros (_ & Hv & Hw & _ & Hl & Hn)%new_snapshot_ok. split_and!; [done..|].
  rewrite <-Hn. apply normalize_sorted.
Qed.

Lemma new_snapshot_wf w l s : newSessionFilesystemSnapshot w l = Ok s → snapshot_wf s.
Proof. intros H. pose proof H as (-> & _)%new_snapshot_ok. done. Qed.

Lemma CanExposeWritable_spec s source :
  snapshot_wf s → canonical source = true →
  CanExposeWritable s source = true ↔
  ∀ t, canonical t = true → pathWithin source t = true →
    LookupAccess s t = Some AllowedRootAccessReadWrite.
Proof.
  intros (Hv & _ & _ & _)%snapshot_wf_inv Hs. pose proof (valid_canonical _ Hv) as Hc.
  unfold CanExposeWritable, LookupAccess. split.
  - destruct (lookupAllowedRootAccess (Entries s) source) as [x|] eqn:El; [|done].
    case_bool_decide as Ex; [done|]. subst x.
    intros Hex%negb_true_iff t Ht Hst. unfold lookupAllowedRootAccess in *.
    apply fmap_Some in El as (a & Ha & Hacc). apply lookup_entry_Some in Ha as Da; [|done..].
    destruct Da as (Hain & Has & Had).
    assert (is_Some (lookup_entry (Entries s) t)) as [b Hb].
    { apply lookup_entry_is_Some; [done..|]. exists a. split; [done|].
      apply (pathWithin_trans _ source); auto. }
    rewrite Hb. simpl. f_equal. apply lookup_entry_Some in Hb as (Hbin & Hbt & Hbd); [|done..].
    destruct (pathWithin (Path b) source) eqn:Ebs.
    + assert (b = a) as ->; [|done]. eapply valid_path_inj; [exact Hv|done..|].
      apply pathWithin_antisym; auto. apply Hbd; [done|]. apply (pathWithin_trans _ source); auto.
    + assert (Hsb : pathStrictlyWithin source (Path b) = true).
      { rewrite pathStrictlyWithin_spec, bool_decide_eq_true by auto.
        destruct (pathWithin_chain source (Path b) t) as [H|H]; auto; [|congruence].
        rewrite pathWithin_spec, bool_decide_eq_true in H by auto. split; [done|].
        intros ->. by rewrite pathWithin_refl in Ebs. }
      pose proof (existsb_false_in _ _ _ Hex Hbin) as Hro.
      cbn beta in Hro. rewrite Hsb in Hro. simpl in Hro.
      apply bool_decide_eq_false in Hro. destruct (valid_access_cases _ _ Hv Hbin); naive_solver.
  - intros H. rewrite (H source Hs (pathWithin_refl _)).
    rewrite bool_decide_eq_false_2 by naive_solver. apply negb_true_iff.
    destruct (existsb _ _) eqn:E; [|done]. exfalso. apply existsb_exists in E as (e & He & Hb).
    apply list_elem_of_In in He. apply andb_true_iff in Hb as [Hse Hro%bool_decide_eq_true].
    rewrite pathStrictlyWithin_spec, bool_decide_eq_true in Hse by auto.
    specialize (H (Path e) (Hc _ He)). rewrite lookup_self, Hro in H by done.
    rewrite pathWithin_spec, bool_decide_eq_true in H by auto. destruct Hse as [Hse _].
    by specialize (H Hse).
Qed.

(** ** The MAC boundary projection *)

Lemma boundaries_snoc l e :
  foldl boundary_step [] (l ++ [e]) = boundary_step (foldl boundary_step [] l) e.
Proof. by rewrite foldl_app. Qed.

Lemma boundaries_subset l b : b ∈ foldl boundary_step [] l → b ∈ Path <$> l.
Proof.
  induction l as [|e l IH] using rev_ind; [done|]. rewrite boundaries_snoc, fmap_app. unfold boundary_step.
  destruct (existsb _ _); [set_solver|].
  intros [?| ->%list_elem_of_singleton]%elem_of_app; set_solver.
Qed.

Lemma boundaries_cover l e :
  e ∈ l → ∃ b, b ∈ foldl boundary_step [] l ∧ pathWithin b (Path e) = true.
Proof.
  induction l as [|e' l IH] using rev_ind; [by intros ?%not_elem_of_nil|].
  rewrite boundaries_snoc. unfold boundary_step.
  destruct (existsb _ _) eqn:E.
  - intros [?| ->%list_elem_of_singleton]%elem_of_app; [auto|].
    apply existsb_exists in E as (b & Hb%list_elem_of_In & Hw). eauto.
  - intros [(b & ? & ?)%IH| ->%list_elem_of_singleton]%elem_of_app; [set_solver|].
    exists (Path e'). split; [set_solver|apply pathWithin_refl].
Qed.

(** Ancestors come first, so no boundary covers another one. *)
Lemma boundaries_antichain l b b' :
  valid_entries l → StronglySorted entry_le l →
  b ∈ foldl boundary_step [] l → b' ∈ foldl boundary_step [] l → pathWithin b b' = true → b = b'.
Proof.
  induction l as [|e l IH] using rev_ind; intros Hv Hs; [by intros ?%not_elem_of_nil|].
  rewrite boundaries_snoc. unfold boundary_step.
  pose proof (sorted_before l e [] Hv Hs) as Hbef.
  assert (Hv' : valid_entries l) by by eapply valid_app_inv.
  assert (Hs' : StronglySorted entry_le l).
  { eapply StronglySorted_sublist; [|exact Hs]. by apply sublist_inserts_r. }
  pose proof (valid_canonical _ Hv) as Hc.
  destruct (existsb _ _) eqn:E; [by apply IH|].
  intros [Hb| ->%list_elem_of_singleton]%elem_of_app [Hb'| ->%list_elem_of_singleton]%elem_of_app Hw; [by apply IH| | |done].
  - eapply existsb_false_in in E; [|exact Hb]. unfold boundaryCoversTree in E. congruence.
  - apply boundaries_subset in Hb' as (e' & -> & He')%list_elem_of_fmap.
    specialize (Hbef _ He'). destruct (decide (Path e = Path e')) as [|Hne]; [done|].
    apply pathWithin_lt in Hw; [|apply Hc; set_solver|apply Hc; set_solver|done].
    apply str_ltb_asym in Hw. congruence.
Qed.

Lemma narrow_check_err c l e :
  narrow_check c l = Err e → errors_is e ErrInvalidSessionFilesystemPolicy = true.
Proof.
  induction l as [|x l IH]; simpl; [done|].
  destruct (lookupAllowedRootAccess c (Path x)); [destruct (_ && _)|]; [|done|]; by intros [= <-].
Qed.

(** Sibling-safety only reads paths. *)
Lemma sibling_safe_paths l k :
  (∀ p, p ∈ Path <$> k → p ∈ Path <$> l) → sibling_safe l → sibling_safe k.
Proof.
  intros Hi Hs a x e Ha Hx He.
  assert (∀ y, y ∈ k → ∃ z, Path y = Path z ∧ z ∈ l) as Hz.
  { intros y Hy. apply list_elem_of_fmap, Hi, list_elem_of_fmap_2, Hy. }
  destruct (Hz _ Ha) as (a' & -> & Ha'), (Hz _ Hx) as (x' & -> & Hx'), (Hz _ He) as (e' & -> & He').
  by apply Hs.
Qed.

Lemma derive_raw_safe eff w mode m :
  sibling_safe (mkEntry w m :: eff) → sibling_safe (derive_raw eff w mode).
Proof.
  apply sibling_safe_paths. unfold derive_raw. simpl.
  intros p [->|(e & -> & [_ He]%list_elem_of_filter)%list_elem_of_fmap]%elem_of_cons; [by left|].
  right. by apply list_elem_of_fmap_2.
Qed.
