(* ===== verification/AllowedRootsSpec.v ===== *)
(** * AllowedRootsSpec: what the allowed-root policy guarantees

    The properties of src/allowed_root_policy.go, stated on its definitions:
    the lookup, the normalization and its failure on interleaved siblings, the
    composition and the ceilings, the narrowing, the Session snapshot and the
    exposure decision. *)
From S2P Require Import Prelude Filepath AllowedRoots AllowedRootsTheory.

(** ** Paths *)

(** For canonical paths [pathWithin] is the ancestor-or-equal order on path
    components: a byte prefix that stops inside a component does not count. *)
Theorem pathWithin_components (root path : string)
    (Hr : canonical root = true) (Hp : canonical path = true) :
  pathWithin root path = true ↔ comps root `prefix_of` comps path.
Proof. by rewrite pathWithin_spec, bool_decide_eq_true. Qed.

Lemma pathWithin_components_witness :
  pathWithin "/srv/a" "/srv/a/b" = true ∧ pathWithin "/srv/a" "/srv/ab" = false.
Proof.
  split.
  - apply (pathWithin_components "/srv/a" "/srv/a/b"); [reflexivity..|].
    decide_goal.
  - vm_compute. reflexivity.
Defined.

(** ** The lookup *)

(** The access of a source is the access of the deepest entry containing
    it, and there is none exactly when no entry contains the source. *)
Theorem lookup_most_specific (entries : list AllowedRootEntry) (source : string)
    (Hv : validateCanonicalAllowedRootEntries entries = Ok tt)
    (Hs : canonical source = true) :
  match lookupAllowedRootAccess entries source with
  | Some access => ∃ e, deepest entries source e ∧ Access e = access
  | None => ∀ e, e ∈ entries → pathWithin (Path e) source = false
  end.
Proof.
  apply validate_ok in Hv. pose proof (lookup_entry_spec entries source Hv Hs) as H.
  unfold lookupAllowedRootAccess. destruct (lookup_entry entries source); simpl; eauto.
Qed.

Definition example_policy : list AllowedRootEntry :=
  [mkEntry "/srv" "read_only"; mkEntry "/srv/app" "read_write"; mkEntry "/srv/app/keys" "read_only"].

Lemma lookup_most_specific_witness :
  ∃ e, deepest example_policy "/srv/app/keys/id" e ∧ Access e = "read_only".
Proof.
  apply (lookup_most_specific example_policy "/srv/app/keys/id"); vm_compute; reflexivity.
Defined.

(** ** The normalization *)

(** Normalization keeps the access of every path, provided no entry sorts
    byte-wise between an entry and one of its descendants. *)
Theorem normalize_preserves_access (entries : list AllowedRootEntry) (source : string)
    (Hv : validateCanonicalAllowedRootEntries entries = Ok tt)
    (Hsafe : sibling_safe entries) (Hs : canonical source = true) :
  lookupAllowedRootAccess (normalizeAllowedRootEntries entries) source =
  lookupAllowedRootAccess entries source.
Proof. apply validate_ok in Hv. by apply normalize_lookup. Qed.

Lemma normalize_preserves_access_witness :
  lookupAllowedRootAccess (normalizeAllowedRootEntries (example_policy ++ [mkEntry "/srv/x" "read_only"]))
    "/srv/app/keys" = Some "read_only".
Proof.
  rewrite (normalize_preserves_access (example_policy ++ [mkEntry "/srv/x" "read_only"]) "/srv/app/keys").
  - vm_compute. reflexivity.
  - vm_compute. reflexivity.
  - apply sibling_safe_b_true. vm_compute. reflexivity.
  - vm_compute. reflexivity.
Defined.

(** Paths whose bytes are all at or above the separator satisfy that
    proviso, so normalization preserves the access of every source for them. *)
Theorem normalize_preserves_plain (entries : list AllowedRootEntry) (source : string)
    (Hv : validateCanonicalAllowedRootEntries entries = Ok tt)
    (Hp : ∀ e, e ∈ entries → plain_path (Path e) = true) (Hs : canonical source = true) :
  lookupAllowedRootAccess (normalizeAllowedRootEntries entries) source =
  lookupAllowedRootAccess entries source.
Proof.
  apply validate_ok in Hv. apply normalize_lookup; [done| |done]. by apply plain_sibling_safe.
Qed.

Lemma normalize_preserves_plain_witness :
  lookupAllowedRootAccess (normalizeAllowedRootEntries example_policy) "/srv/app" = Some "read_write".
Proof.
  rewrite (normalize_preserves_plain example_policy "/srv/app").
  - vm_compute. reflexivity.
  - vm_compute. reflexivity.
  - apply Forall_forall. repeat constructor.
  - vm_compute. reflexivity.
Defined.

(** Normalization never grants or removes path authority: a source is
    authorized after it exactly when it was before, whatever the order. *)
Theorem normalize_preserves_authority (entries : list AllowedRootEntry) (source : string)
    (Hv : validateCanonicalAllowedRootEntries entries = Ok tt) (Hs : canonical source = true) :
  is_Some (lookupAllowedRootAccess (normalizeAllowedRootEntries entries) source) ↔
  is_Some (lookupAllowedRootAccess entries source).
Proof.
  apply validate_ok in Hv. unfold lookupAllowedRootAccess. rewrite !fmap_is_Some.
  by apply normalize_authorizes.
Qed.

Lemma normalize_preserves_authority_witness :
  is_Some (lookupAllowedRootAccess (normalizeAllowedRootEntries example_policy) "/srv/y").
Proof.
  apply (normalize_preserves_authority example_policy "/srv/y"); vm_compute; eauto.
Defined.

(** A valid policy whose sibling ["/srv/app-2"] sorts between ["/srv/app"] and
    its protected child. *)
Definition interleaved_policy : list AllowedRootEntry :=
  [mkEntry "/srv" "read_only"; mkEntry "/srv/app" "read_write";
   mkEntry "/srv/app-2" "read_write"; mkEntry "/srv/app/keys" "read_only"].

(** Whether a Session at [workspace] derived from the policy may expose
    [source] writable. *)
Definition writable_in_session (policy : list AllowedRootEntry) (workspace source : string)
    : option bool :=
  match deriveSessionFilesystemSnapshot policy workspace with
  | Ok snapshot => Some (CanExposeWritable snapshot source)
  | Err _ => None
  end.

(** Without the proviso normalization is unsound: it drops the protected
    read_only region of a valid policy, and a Session issued from that policy
    accepts a writable exposure of a source the policy makes read_only. *)
Theorem normalize_widens_interleaved :
  validateCanonicalAllowedRootEntries interleaved_policy = Ok tt ∧
  lookupAllowedRootAccess interleaved_policy "/srv/app/keys" = Some AllowedRootAccessReadOnly ∧
  lookupAllowedRootAccess (normalizeAllowedRootEntries interleaved_policy) "/srv/app/keys"
    = Some AllowedRootAccessReadWrite ∧
  writable_in_session interleaved_policy "/srv/app" "/srv/app/keys" = Some false ∧
  writable_in_session (composeAllowedRootScopes interleaved_policy [mkEntry "/" "read_write"])
    "/srv/app" "/srv/app/keys" = Some true.
Proof. split_and!; vm_compute; reflexivity. Qed.

(** Normalization is not idempotent, so a Session derived from a valid
    policy can be refused as not canonical by the very constructor that checks
    the normalized form. *)
Theorem derive_refuses_own_normalization :
  let policy := [mkEntry "/srv" "read_only"; mkEntry "/srv/app" "read_write";
                 mkEntry "/srv/app-2" "read_only"; mkEntry "/srv/app/src" "read_write"] in
  validateCanonicalAllowedRootEntries policy = Ok tt ∧
  normalizeAllowedRootEntries (normalizeAllowedRootEntries policy)
    ≠ normalizeAllowedRootEntries policy ∧
  deriveSessionFilesystemSnapshot policy "/srv" =
    errorf "session filesystem snapshot entries are not the canonical normalized representation" [].
Proof. split_and!; vm_compute; [reflexivity|done|reflexivity]. Qed.

(** ** The composition and the ceilings *)

(** C20. The composed policy authorizes exactly the sources both scopes
    authorize, and each of its entries carries the meet of the accesses the two
    scopes give the path of the entry, whatever the paths.  When no path sorts
    byte-wise between a path and a descendant of it ([sibling_safe]), so that
    the normalization drops no entry it needs, every source gets the meet of the
    accesses the two scopes give it. *)
Theorem compose_is_meet (ceiling narrowing : list AllowedRootEntry)
    (Hc : validateCanonicalAllowedRootEntries ceiling = Ok tt)
    (Hn : validateCanonicalAllowedRootEntries narrowing = Ok tt) :
  let composed := composeAllowedRootScopes ceiling narrowing in
  let both_give source access :=
    ∃ up down, lookupAllowedRootAccess ceiling source = Some up ∧
      lookupAllowedRootAccess narrowing source = Some down ∧
      access = if bool_decide (up = AllowedRootAccessReadWrite ∧ down = AllowedRootAccessReadWrite)
               then AllowedRootAccessReadWrite else AllowedRootAccessReadOnly in
  (∀ source, canonical source = true →
     is_Some (lookupAllowedRootAccess composed source) ↔
     is_Some (lookupAllowedRootAccess ceiling source) ∧
     is_Some (lookupAllowedRootAccess narrowing source)) ∧
  (∀ e, e ∈ composed → both_give (Path e) (Access e)) ∧
  (sibling_safe (composed_raw ceiling narrowing) →
   ∀ source access, canonical source = true →
     lookupAllowedRootAccess composed source = Some access ↔ both_give source access).
Proof.
  apply validate_ok in Hc, Hn. intros composed both_give.
  assert (Hmeet : ∀ s a, canonical s = true → meet_lookup ceiling narrowing s = Some a ↔ both_give s a)
    by (intros; by apply meet_lookup_both).
  destruct (compose_exact ceiling narrowing Hc Hn) as [H1 H2]. split_and!.
  - exact H1.
  - intros e He. apply Hmeet; [|by apply H2].
    by apply (valid_canonical _ (compose_valid _ _ Hc Hn)).
  - intros Hsafe source access Hs. unfold composed. rewrite compose_lookup by done. by apply Hmeet.
Qed.

Definition example_narrowing : list AllowedRootEntry :=
  [mkEntry "/srv/app" "read_write"; mkEntry "/srv/app/out" "read_only"; mkEntry "/opt" "read_write"].

Lemma compose_is_meet_witness :
  lookupAllowedRootAccess (composeAllowedRootScopes example_policy example_narrowing) "/srv/app/out"
  = Some "read_only".
Proof.
  apply (compose_is_meet example_policy example_narrowing);
    [vm_compute; reflexivity|vm_compute; reflexivity| |vm_compute; reflexivity|].
  - apply sibling_safe_b_true. vm_compute. reflexivity.
  - exists "read_write", "read_only". split; [|split]; vm_compute; reflexivity.
Defined.

(** The composition is independent of Go's map iteration order over the
    candidates and of the order of both entry lists. *)
Theorem compose_order_independent (ceiling ceiling' narrowing narrowing' : list AllowedRootEntry)
    (order : list string)
    (Hc : validateCanonicalAllowedRootEntries ceiling = Ok tt)
    (Hn : validateCanonicalAllowedRootEntries narrowing = Ok tt)
    (Pc : ceiling ≡ₚ ceiling') (Pn : narrowing ≡ₚ narrowing')
    (Ho : order ≡ₚ elements (compose_candidates ceiling' narrowing')) :
  compose_in_order order ceiling' narrowing' = composeAllowedRootScopes ceiling narrowing.
Proof.
  apply validate_ok in Hc, Hn.
  pose proof (valid_perm _ _ Pc Hc) as Hc'. pose proof (valid_perm _ _ Pn Hn) as Hn'.
  rewrite compose_in_order_eq by done. rewrite !compose_unfold by done.
  apply normalize_perm; [|by apply composed_raw_valid].
  apply composed_raw_perm; [done..|by symmetry|by symmetry].
Qed.

Lemma compose_order_independent_witness :
  compose_in_order ["/opt"; "/srv/app/out"; "/srv/app/keys"; "/srv/app"; "/srv"]
    (reverse example_policy) (reverse example_narrowing)
  = composeAllowedRootScopes example_policy example_narrowing.
Proof.
  apply compose_order_independent; [vm_compute; reflexivity..| | |].
  - symmetry. apply reverse_Permutation.
  - symmetry. apply reverse_Permutation.
  - decide_goal.
Defined.

(** A Launcher never sees more than its Principal: whenever the effective
    Launcher policy exists, each source has at most the access of the effective
    Principal ceiling (inherit: the same; restricted: read_write only under
    read_write); and an unknown scope mode or an out-of-ceiling stored root
    refuses the Launcher as unavailable. *)
Theorem launcher_within_principal (globalEntries : list AllowedRootEntry)
    (snap : sessionOwnershipSnapshot)
    (Hg : validateCanonicalAllowedRootEntries globalEntries = Ok tt)
    (Hp : validateCanonicalAllowedRootEntries (principalRoots snap) = Ok tt)
    (Hl : validateCanonicalAllowedRootEntries (launcherRoots snap) = Ok tt) :
  let ceiling := effectivePrincipalAllowedRoots globalEntries (principalRoots snap) (principalID snap) in
  match effectiveLauncherAllowedRoots globalEntries snap with
  | Err e => errors_is e ErrLauncherUnavailable = true ∧ launcherScope snap ≠ LauncherScopeInherit
  | Ok eff =>
      (launcherScope snap = LauncherScopeInherit ∧ eff = ceiling) ∨
      (launcherScope snap = LauncherScopeRestricted ∧
       (∀ r, r ∈ launcherRoots snap → is_Some (lookupAllowedRootAccess ceiling (Path r))) ∧
       ∀ source, canonical source = true →
         is_Some (lookupAllowedRootAccess eff source) →
         is_Some (lookupAllowedRootAccess ceiling source) ∧
         is_Some (lookupAllowedRootAccess (launcherRoots snap) source) ∧
         (sibling_safe (composed_raw ceiling (launcherRoots snap)) →
          lookupAllowedRootAccess eff source = Some AllowedRootAccessReadWrite →
          lookupAllowedRootAccess ceiling source ≠ Some AllowedRootAccessReadOnly))
  end.
Proof.
  intros ceiling. apply validate_ok in Hg, Hp, Hl.
  assert (Hv : valid_entries ceiling) by by apply compose_valid.
  unfold effectiveLauncherAllowedRoots. fold ceiling.
  case_bool_decide as Ei; [by left|].
  case_bool_decide as Er; [|by split; [|done]].
  destruct (existsb _ _) eqn:Ex; [by split; [|done]|].
  right. split; [done|]. split.
  - intros r Hr. apply authorized_by_path; [done|by apply (valid_canonical _ Hl)|].
    by eapply existsb_false_in in Ex; [apply negb_false_iff in Ex|].
  - intros source Hs Hsome. pose proof (proj1 (compose_authorizes _ _ Hv Hl source Hs) Hsome) as Hm.
    unfold meet_lookup in Hm.
    destruct (lookupAllowedRootAccess ceiling source) as [u|] eqn:Eu; [|by destruct Hm].
    destruct (lookupAllowedRootAccess (launcherRoots snap) source) as [d|] eqn:Ed; [|by destruct Hm].
    split_and!; [eauto..|]. intros Hsafe Hrw [= ->].
    rewrite compose_lookup in Hrw by done. unfold meet_lookup in Hrw. by rewrite Eu, Ed in Hrw.
Qed.

Definition example_owner : sessionOwnershipSnapshot :=
  mkOwnership 7 [mkEntry "/srv/app" "read_write"] LauncherScopeRestricted
    [mkEntry "/srv/app/out" "read_write"].

Lemma launcher_within_principal_witness :
  is_Some (lookupAllowedRootAccess [mkEntry "/srv/app" "read_write"; mkEntry "/srv/app/keys" "read_only"]
             "/srv/app/out").
Proof.
  pose proof (launcher_within_principal example_policy example_owner
    ltac:(vm_compute; reflexivity) ltac:(vm_compute; reflexivity) ltac:(vm_compute; reflexivity)) as H.
  vm_compute effectiveLauncherAllowedRoots in H.
  destruct H as [[? _]|(_ & Hr & _)]; [done|].
  specialize (Hr (mkEntry "/srv/app/out" "read_write") ltac:(by left)).
  vm_compute in Hr. vm_compute. exact Hr.
Defined.

(** ** Issuance-time narrowing *)

(** C1. A narrowing request is accepted exactly when it is a nonempty valid
    list of roots, each inside the ceiling and none asking read_write where the
    ceiling is read_only, for a workspace inside the ceiling; otherwise it is
    refused in the invalid-policy family.  The accepted policy authorizes
    exactly the sources that the ceiling authorizes and that lie in the
    workspace or in a requested root, and each of its entries carries the meet
    of the ceiling and of the requested scope at its path, whatever the paths.
    When the paths are [sibling_safe], every source has the meet of both, and a
    requested root the access it asked for. *)
Theorem narrow_only_narrows (ceiling requested : list AllowedRootEntry) (workspace : string)
    (Hc : validateCanonicalAllowedRootEntries ceiling = Ok tt)
    (Hw : canonical workspace = true) :
  let admissible :=
    requested ≠ [] ∧ validateCanonicalAllowedRootEntries requested = Ok tt ∧
    is_Some (lookupAllowedRootAccess ceiling workspace) ∧
    ∀ e, e ∈ requested → ∃ up, lookupAllowedRootAccess ceiling (Path e) = Some up ∧
      ¬ (Access e = AllowedRootAccessReadWrite ∧ up = AllowedRootAccessReadOnly) in
  match narrowSessionFilesystemPolicy ceiling workspace requested with
  | Err e => errors_is e ErrInvalidSessionFilesystemPolicy = true ∧ ¬ admissible
  | Ok composed =>
      admissible ∧ ∃ implicit, lookupAllowedRootAccess ceiling workspace = Some implicit ∧
      let scope := narrowing_scope workspace implicit requested in
      (∀ source, canonical source = true →
         is_Some (lookupAllowedRootAccess composed source) ↔
         is_Some (lookupAllowedRootAccess ceiling source) ∧
         (pathWithin workspace source = true ∨ ∃ e, e ∈ requested ∧ pathWithin (Path e) source = true)) ∧
      (∀ e, e ∈ composed → meet_lookup ceiling scope (Path e) = Some (Access e)) ∧
      (sibling_safe (composed_raw ceiling scope) →
       (∀ source, canonical source = true →
          lookupAllowedRootAccess composed source = meet_lookup ceiling scope source) ∧
       (∀ e, e ∈ requested → lookupAllowedRootAccess composed (Path e) = Some (Access e)))
  end.
Proof.
  intros admissible. apply validate_ok in Hc. unfold narrowSessionFilesystemPolicy.
  case_bool_decide as E0; [split; [done|by intros [? _]]|].
  destruct (validateCanonicalAllowedRootEntries requested) as [[]|] eqn:Hr;
    [|split; [done|by intros (_ & ? & _)]].
  assert (Hrv : valid_entries requested) by by apply validate_ok.
  destruct (narrow_check ceiling requested) as [[]|e] eqn:Hk; simpl.
  2:{ split; [by eapply narrow_check_err|]. intros (_ & _ & _ & Ha%narrow_check_ok). congruence. }
  rewrite narrow_check_ok in Hk.
  destruct (lookupAllowedRootAccess ceiling workspace) as [implicit|] eqn:Hi;
    [|split; [done|by intros (_ & _ & [? ?] & _)]].
  destruct (narrow_compose ceiling requested workspace implicit) as (Hne & Heq & Hv & Hex); [done..|].
  rewrite bool_decide_eq_false_2 by done.
  split; [split_and!; [done|done|by eexists|exact Hk]|]. exists implicit. split; [done|].
  rewrite Heq. destruct (compose_exact ceiling (narrowing_scope workspace implicit requested) Hc Hv) as [H1 H2].
  split_and!; [| exact H2|].
  - intros source Hs. by rewrite H1, narrowing_scope_authorizes.
  - intros Hsafe. split; [intros; by apply compose_lookup|].
    intros e He. rewrite compose_lookup by eauto using valid_canonical. by apply Hex.
Qed.

Lemma narrow_only_narrows_witness :
  errors_is (mkError "" [ErrInvalidSessionFilesystemPolicy]) ErrInvalidSessionFilesystemPolicy = true ∧
  ∃ composed,
    narrowSessionFilesystemPolicy example_policy "/srv/app" [mkEntry "/srv/app/out" "read_only"] = Ok composed ∧
    is_Some (lookupAllowedRootAccess composed "/srv/app").
Proof.
  split; [reflexivity|].
  assert (Hc : validateCanonicalAllowedRootEntries example_policy = Ok tt) by (vm_compute; reflexivity).
  assert (Hw : canonical "/srv/app" = true) by (vm_compute; reflexivity).
  pose proof (narrow_only_narrows example_policy [mkEntry "/srv/app/out" "read_only"] "/srv/app" Hc Hw) as H.
  destruct (narrowSessionFilesystemPolicy example_policy "/srv/app" [mkEntry "/srv/app/out" "read_only"])
    as [composed|] eqn:E; [|vm_compute in E; discriminate].
  exists composed. split; [reflexivity|]. destruct H as (_ & implicit & Hi & H & _).
  apply H; [reflexivity|]. split; [by eexists|by left].
Defined.

(** ** The Session snapshot *)

(** The snapshot derived for a workspace reads, at every path inside the
    workspace, as the effective policy does, and authorizes nothing outside
    (for policies on which byte order keeps subtrees together). *)
Theorem derive_is_restriction (effective : list AllowedRootEntry) (workspace source : string)
    (snapshot : sessionFilesystemSnapshot)
    (Hd : deriveSessionFilesystemSnapshot effective workspace = Ok snapshot)
    (Hsafe : sibling_safe (mkEntry workspace "" :: effective)) (Hs : canonical source = true) :
  Workspace snapshot = workspace ∧
  LookupAccess snapshot source =
    if pathWithin workspace source then lookupAllowedRootAccess effective source else None.
Proof.
  unfold deriveSessionFilesystemSnapshot in Hd.
  destruct (validateCanonicalAllowedRootEntries effective) as [[]|] eqn:Hv; [|done]. simpl in Hd.
  apply validate_ok in Hv. destruct (negb _ || _) eqn:Hw; [done|].
  apply canonical_unfold in Hw.
  destruct (lookupAllowedRootAccess effective workspace) as [mode|] eqn:Hm; [|done].
  rewrite derive_candidates_ok in Hd by done. simpl in Hd. fold (derive_raw effective workspace mode) in Hd.
  apply new_snapshot_ok in Hd as (-> & _). simpl. split; [done|].
  unfold LookupAccess. simpl.
  change (normalize_loop [] _) with (normalizeAllowedRootEntries (derive_raw effective workspace mode)).
  rewrite normalize_lookup; [by apply derive_raw_lookup| |by eapply derive_raw_safe|done].
  apply derive_raw_valid; eauto using valid_lookup_access.
Qed.

Lemma derive_is_restriction_witness :
  ∃ snapshot,
    deriveSessionFilesystemSnapshot example_policy "/srv/app" = Ok snapshot ∧
    LookupAccess snapshot "/srv/app/keys" = Some "read_only" ∧ LookupAccess snapshot "/srv" = None.
Proof.
  destruct (deriveSessionFilesystemSnapshot example_policy "/srv/app") as [snapshot|] eqn:E;
    [|vm_compute in E; discriminate].
  assert (Hsafe : sibling_safe (mkEntry "/srv/app" "" :: example_policy))
    by (apply sibling_safe_b_true; vm_compute; reflexivity).
  exists snapshot. split; [reflexivity|]. split.
  - rewrite (proj2 (derive_is_restriction _ _ "/srv/app/keys" _ E Hsafe ltac:(vm_compute; reflexivity))).
    vm_compute. reflexivity.
  - rewrite (proj2 (derive_is_restriction _ _ "/srv" _ E Hsafe ltac:(vm_compute; reflexivity))).
    vm_compute. reflexivity.
Defined.

(** C2. The data-plane decision: read-only consumption is granted to every
    authorized source; writable consumption exactly when the source and every
    path below it read as read_write in the snapshot; a refusal is
    [ErrOutsideSessionSnapshot] for an unauthorized source, [ErrReadOnlyRoot]
    otherwise. *)
Theorem exposure_decision (s : sessionFilesystemSnapshot) (source target : string) (readOnly : bool)
    (Hwf : snapshot_wf s) (Hs : canonical source = true) :
  let writable := ∀ t, canonical t = true → pathWithin source t = true →
                    LookupAccess s t = Some AllowedRootAccessReadWrite in
  match resolveSessionFilesystemExposure s source target readOnly with
  | (exposure, None) =>
      is_Some (LookupAccess s source) ∧ (readOnly = false → writable) ∧
      SourcePath exposure = source ∧ Target exposure = target ∧
      RequestedReadOnly exposure = readOnly ∧ LookupAccess s source = Some (ExpAccess exposure) ∧
      (WritableAllowed exposure = true ↔ writable)
  | (exposure, Some e) =>
      (errors_is e ErrOutsideSessionSnapshot = true ∧ LookupAccess s source = None) ∨
      (errors_is e ErrReadOnlyRoot = true ∧ readOnly = false ∧
       LookupAccess s source = Some (ExpAccess exposure) ∧ ¬ writable)
  end.
Proof.
  intros writable. pose proof (CanExposeWritable_spec s source Hwf Hs) as Hcw. fold writable in Hcw.
  unfold resolveSessionFilesystemExposure.
  destruct (LookupAccess s source) as [access|]; [|by left].
  destruct readOnly; simpl; [split_and!; (done || eauto)|].
  destruct (CanExposeWritable s source); simpl.
  - split_and!; try done. intros _. by apply Hcw.
  - right. split_and!; [done..|]. intros ?%Hcw. done.
Qed.

Definition example_snapshot : sessionFilesystemSnapshot :=
  mkSnapshot "/srv/app" [mkEntry "/srv/app" "read_write"; mkEntry "/srv/app/keys" "read_only"].

Lemma exposure_decision_witness :
  errors_is (mkError "canonical source" [ErrReadOnlyRoot]) ErrReadOnlyRoot = true ∧
  ¬ (∀ t, canonical t = true → pathWithin "/srv/app" t = true →
       LookupAccess example_snapshot t = Some AllowedRootAccessReadWrite).
Proof.
  split; [reflexivity|].
  assert (Hwf : snapshot_wf example_snapshot) by (vm_compute; reflexivity).
  pose proof (exposure_decision example_snapshot "/srv/app" "/w" false Hwf ltac:(vm_compute; reflexivity)) as H.
  destruct H as [[H _]|(_ & _ & _ & H)]; [vm_compute in H; discriminate|exact H].
Defined.

(** The MAC boundaries of a snapshot cover exactly the authorized paths,
    every boundary is an issued entry, the workspace is covered, and no
    boundary covers another one. *)
Theorem mac_boundaries_minimal_cover (s : sessionFilesystemSnapshot) (Hwf : snapshot_wf s) :
  (∀ source, canonical source = true →
     is_Some (LookupAccess s source) ↔
     ∃ b, b ∈ sessionMACBoundaries s ∧ boundaryCoversTree b source = true) ∧
  (∀ b, b ∈ sessionMACBoundaries s → b ∈ Path <$> Entries s) ∧
  (∃ b, b ∈ sessionMACBoundaries s ∧ boundaryCoversTree b (Workspace s) = true) ∧
  (∀ b b', b ∈ sessionMACBoundaries s → b' ∈ sessionMACBoundaries s →
     boundaryCoversTree b b' = true → b = b').
Proof.
  pose proof (snapshot_wf_inv _ Hwf) as (Hv & Hw & Hl & Hso). pose proof (valid_canonical _ Hv) as Hc.
  unfold sessionMACBoundaries, boundaryCoversTree, LookupAccess, lookupAllowedRootAccess in *.
  assert (Hcover : ∀ source, canonical source = true →
     is_Some (Access <$> lookup_entry (Entries s) source) ↔
     ∃ b, b ∈ foldl boundary_step [] (Entries s) ∧ pathWithin b source = true).
  { intros source Hs. rewrite fmap_is_Some, lookup_entry_is_Some by done. split.
    - intros (e & He & Hes). destruct (boundaries_cover _ _ He) as (b & Hb & Hbe).
      exists b. split; [done|].
      apply boundaries_subset in Hb as (e' & -> & He')%list_elem_of_fmap.
      apply (pathWithin_trans _ (Path e)); auto.
    - intros (b & (e & -> & He)%boundaries_subset%list_elem_of_fmap & Hbs). eauto. }
  split_and!; [done| | |].
  - apply boundaries_subset.
  - by apply Hcover.
  - intros b b' Hb Hb' Hbb. by eapply boundaries_antichain.
Qed.

Lemma mac_boundaries_minimal_cover_witness :
  ∃ b, b ∈ sessionMACBoundaries example_snapshot ∧ boundaryCoversTree b "/srv/app/keys" = true.
Proof.
  apply (mac_boundaries_minimal_cover example_snapshot ltac:(vm_compute; reflexivity));
    vm_compute; eauto.
Defined.
