(* ===== verification/Operation.v ===== *)
(** * Operation: src/operation.go — the operation supervisor

    Operations, capacity reservations and the reservations' release closures
    live in a store addressed by references, because the code shares them:
    [admitReserved] moves a release closure out of the caller's reservation
    into the registered operation, and the pruning compares operation pointers.
    Every method that holds a mutex from entry to return is one function on the
    supervisor state [sup]; the signals, kills and audit records it emits are
    appended to [events].  Times are in nanoseconds. *)
From S2P Require Import Prelude.
Local Open Scope Z_scope.

(** ** Vocabulary *)

Inductive operationState := operationRunning | operationSucceeded | operationFailed.
#[export] Instance operationState_eq_dec : EqDecision operationState.
Proof. solve_decision. Defined.

Definition resultCancelled : string := "cancelled".
Definition operationKindRun : string := "run".
Definition operationKindBuild : string := "build".

Definition maxConcurrentOperationsPerSession : Z := 4.
Definition maxConcurrentOperationsGlobal : Z := 8.
Definition maxConcurrentBuildsGlobal : Z := 2.

Definition second : Z := 1000000000.
Definition defaultTerminationTimeout : Z := 5 * second.
Definition defaultForceCleanupTimeout : Z := 3 * second.

Inductive terminationReason := terminationNone | terminationShutdown | terminationCancelled.
#[export] Instance terminationReason_eq_dec : EqDecision terminationReason.
Proof. solve_decision. Defined.

Inductive admissionDecision :=
  | admissionAccepted | admissionRefusedShutdown | admissionRefusedQuiesced
  | admissionRefusedCapacity.
#[export] Instance admissionDecision_eq_dec : EqDecision admissionDecision.
Proof. solve_decision. Defined.

(** ** Data *)

Definition op_ref := nat.
Definition closure_ref := nat.
Definition reservation_ref := nat.

(** A channel field: not made yet, open, or closed. *)
Inductive channel := chan_nil | chan_open | chan_closed.
#[export] Instance channel_eq_dec : EqDecision channel.
Proof. solve_decision. Defined.

Record operation := mkOperation {
  op_ID : string;
  op_SessionID : string;
  op_LauncherID : string;
  op_Kind : string;
  op_State : operationState;
  op_CreatedAt : Z;
  op_StartedAt : option Z;
  op_CompletedAt : option Z;
  op_Duration : option string;
  op_ExitCode : option Z;
  op_ResultCode : option string;
  op_process : bool;              (* cmd != nil && cmd.Process != nil *)
  op_done : channel;
  op_terminated : bool;
  op_reason : terminationReason;
  op_started : bool;
  op_forceOwned : bool;
  op_forceDone : channel;
  op_forceDeadline : Z;
  op_cidfile : string;
  op_capacityRelease : option closure_ref;
}.

(** The environment of a reservation's release closure. *)
Record closure := mkClosure { cl_session : string; cl_build : bool; cl_released : bool }.

Inductive event :=
  | EvSignal (o : op_ref)               (* cmd.Process.Signal(SIGTERM) *)
  | EvKillContainer (o : op_ref) (id : string)   (* killContainer(forceCtx, id) *)
  | EvKill (o : op_ref)                 (* cmd.Process.Kill() *)
  | EvFinishAudit (o : op_ref) (result : string)
  | EvStart (o : op_ref).               (* cmd.Start() succeeded *)

Record sup := mkSup {
  ops : gmap string op_ref;
  shutting : bool;
  quiesced : gmap string bool;
  maxPerSession : Z;
  maxGlobal : Z;
  maxGlobalBuilds : Z;
  sessionRunning : gmap string Z;
  globalRunning : Z;
  globalBuildCount : Z;
  heap : gmap op_ref operation;
  closures : gmap closure_ref closure;
  reservations : gmap reservation_ref (option closure_ref);
  events : list event;
}.

Definition newOperationSupervisor : sup :=
  mkSup ∅ false ∅ maxConcurrentOperationsPerSession maxConcurrentOperationsGlobal
    maxConcurrentBuildsGlobal ∅ 0 0 ∅ ∅ ∅ [].

(** Field updates. *)
Definition set_heap (h : gmap op_ref operation) (s : sup) : sup :=
  mkSup (ops s) (shutting s) (quiesced s) (maxPerSession s) (maxGlobal s) (maxGlobalBuilds s)
    (sessionRunning s) (globalRunning s) (globalBuildCount s) h (closures s) (reservations s) (events s).
Definition set_ops (m : gmap string op_ref) (s : sup) : sup :=
  mkSup m (shutting s) (quiesced s) (maxPerSession s) (maxGlobal s) (maxGlobalBuilds s)
    (sessionRunning s) (globalRunning s) (globalBuildCount s) (heap s) (closures s) (reservations s) (events s).
Definition set_shutting (b : bool) (s : sup) : sup :=
  mkSup (ops s) b (quiesced s) (maxPerSession s) (maxGlobal s) (maxGlobalBuilds s)
    (sessionRunning s) (globalRunning s) (globalBuildCount s) (heap s) (closures s) (reservations s) (events s).
Definition set_quiesced (q : gmap string bool) (s : sup) : sup :=
  mkSup (ops s) (shutting s) q (maxPerSession s) (maxGlobal s) (maxGlobalBuilds s)
    (sessionRunning s) (globalRunning s) (globalBuildCount s) (heap s) (closures s) (reservations s) (events s).
Definition set_counts (sr : gmap string Z) (g b : Z) (s : sup) : sup :=
  mkSup (ops s) (shutting s) (quiesced s) (maxPerSession s) (maxGlobal s) (maxGlobalBuilds s)
    sr g b (heap s) (closures s) (reservations s) (events s).
Definition set_closures (c : gmap closure_ref closure) (s : sup) : sup :=
  mkSup (ops s) (shutting s) (quiesced s) (maxPerSession s) (maxGlobal s) (maxGlobalBuilds s)
    (sessionRunning s) (globalRunning s) (globalBuildCount s) (heap s) c (reservations s) (events s).
Definition set_reservations (r : gmap reservation_ref (option closure_ref)) (s : sup) : sup :=
  mkSup (ops s) (shutting s) (quiesced s) (maxPerSession s) (maxGlobal s) (maxGlobalBuilds s)
    (sessionRunning s) (globalRunning s) (globalBuildCount s) (heap s) (closures s) r (events s).
Definition emit (e : event) (s : sup) : sup :=
  mkSup (ops s) (shutting s) (quiesced s) (maxPerSession s) (maxGlobal s) (maxGlobalBuilds s)
    (sessionRunning s) (globalRunning s) (globalBuildCount s) (heap s) (closures s) (reservations s)
    (events s ++ [e]).

Definition set_op (o : op_ref) (op : operation) (s : sup) : sup := set_heap (<[o := op]> (heap s)) s.

Definition with_capacityRelease (c : option closure_ref) (op : operation) : operation :=
  mkOperation (op_ID op) (op_SessionID op) (op_LauncherID op) (op_Kind op) (op_State op)
    (op_CreatedAt op) (op_StartedAt op) (op_CompletedAt op) (op_Duration op) (op_ExitCode op)
    (op_ResultCode op) (op_process op) (op_done op) (op_terminated op) (op_reason op)
    (op_started op) (op_forceOwned op) (op_forceDone op) (op_forceDeadline op) (op_cidfile op) c.
Definition with_done (d : channel) (op : operation) : operation :=
  mkOperation (op_ID op) (op_SessionID op) (op_LauncherID op) (op_Kind op) (op_State op)
    (op_CreatedAt op) (op_StartedAt op) (op_CompletedAt op) (op_Duration op) (op_ExitCode op)
    (op_ResultCode op) (op_process op) d (op_terminated op) (op_reason op)
    (op_started op) (op_forceOwned op) (op_forceDone op) (op_forceDeadline op) (op_cidfile op)
    (op_capacityRelease op).
Definition with_terminal (st : operationState) (now : Z) (dur : option string) (exit : option Z)
    (rc : option string) (op : operation) : operation :=
  mkOperation (op_ID op) (op_SessionID op) (op_LauncherID op) (op_Kind op) st
    (op_CreatedAt op) (op_StartedAt op) (Some now) dur exit rc
    (op_process op) (op_done op) (op_terminated op) (op_reason op)
    (op_started op) (op_forceOwned op) (op_forceDone op) (op_forceDeadline op) (op_cidfile op)
    (op_capacityRelease op).
Definition with_start (now : Z) (started : bool) (op : operation) : operation :=
  mkOperation (op_ID op) (op_SessionID op) (op_LauncherID op) (op_Kind op) (op_State op)
    (op_CreatedAt op) (Some now) (op_CompletedAt op) (op_Duration op) (op_ExitCode op)
    (op_ResultCode op) started (op_done op) (op_terminated op) (op_reason op)
    started (op_forceOwned op) (op_forceDone op) (op_forceDeadline op) (op_cidfile op)
    (op_capacityRelease op).
Definition with_mark (reason : terminationReason) (terminated : bool) (op : operation) : operation :=
  mkOperation (op_ID op) (op_SessionID op) (op_LauncherID op) (op_Kind op) (op_State op)
    (op_CreatedAt op) (op_StartedAt op) (op_CompletedAt op) (op_Duration op) (op_ExitCode op)
    (op_ResultCode op) (op_process op) (op_done op) terminated reason
    (op_started op) (op_forceOwned op) (op_forceDone op) (op_forceDeadline op) (op_cidfile op)
    (op_capacityRelease op).
Definition with_force (owned : bool) (d : channel) (deadline : Z) (op : operation) : operation :=
  mkOperation (op_ID op) (op_SessionID op) (op_LauncherID op) (op_Kind op) (op_State op)
    (op_CreatedAt op) (op_StartedAt op) (op_CompletedAt op) (op_Duration op) (op_ExitCode op)
    (op_ResultCode op) (op_process op) (op_done op) (op_terminated op) (op_reason op)
    (op_started op) owned d deadline (op_cidfile op) (op_capacityRelease op).

(** ** Operation construction *)

Definition operationIDPrefix : string := "op_".
Definition operationIDHexLength : nat := 32.

(** [isOperationIDSafe]: not empty, no leading dot or slash, no separator. *)
Definition isOperationIDSafe (id : string) : bool :=
  match id with
  | EmptyString => false
  | String c _ =>
      if bool_decide (c = "."%char) || bool_decide (c = "/"%char) then false
      else str_forall (λ r, negb (bool_decide (r = "/"%char) || bool_decide (r = "\"%char))) id
  end.

Definition newOperation (kind opID sessionID launcherID : string) (now : Z) (cidfile : string)
    : operation :=
  mkOperation opID sessionID launcherID kind operationRunning now None None None None None
    false chan_open false terminationNone false false chan_nil 0 cidfile None.

Definition newBuildOperation (opID sessionID launcherID : string) (now : Z) : operation :=
  newOperation operationKindBuild opID sessionID launcherID now "".

Definition newRunOperation (opID sessionID launcherID : string) (now : Z) : operation :=
  newOperation operationKindRun opID sessionID launcherID now "".

(** ** Capacity accounting *)

Definition session_count (s : sup) (sessionID : string) : Z :=
  default 0 (sessionRunning s !! sessionID).

(** The counts after one reservation of [sessionID]. *)
Definition add_counts (sessionID : string) (build : bool) (s : sup) : sup :=
  set_counts (<[sessionID := session_count s sessionID + 1]> (sessionRunning s))
    (globalRunning s + 1) (globalBuildCount s + if build then 1 else 0) s.

(** The body of the release closure after the [released] test. *)
Definition sub_counts (sessionID : string) (build : bool) (s : sup) : sup :=
  let g := if 0 <? globalRunning s then globalRunning s - 1 else globalRunning s in
  let sr := if 0 <? session_count s sessionID
            then <[sessionID := session_count s sessionID - 1]> (sessionRunning s)
            else sessionRunning s in
  let sr := if bool_decide (default 0 (sr !! sessionID) = 0) then delete sessionID sr else sr in
  let b := if build && (0 <? globalBuildCount s) then globalBuildCount s - 1
           else globalBuildCount s in
  set_counts sr g b s.

(** Calling a release closure: the [released] flag makes it once-only. *)
Definition call_release (c : closure_ref) (s : sup) : sup :=
  match closures s !! c with
  | None => s
  | Some cl =>
      if cl_released cl then s
      else sub_counts (cl_session cl) (cl_build cl)
             (set_closures (<[c := mkClosure (cl_session cl) (cl_build cl) true]> (closures s)) s)
  end.

(** [reserveCapacityLocked]: the fresh reservation and its closure are
    allocated at [fresh]. *)
Definition reserveCapacityLocked (sessionID : string) (build : bool) (s : sup)
    : option reservation_ref * sup :=
  if maxGlobal s <=? globalRunning s then (None, s)
  else if maxPerSession s <=? session_count s sessionID then (None, s)
  else if build && (maxGlobalBuilds s <=? globalBuildCount s) then (None, s)
  else
    let c := fresh (dom (closures s)) in
    let r := fresh (dom (reservations s)) in
    (Some r,
     set_reservations (<[r := Some c]> (reservations s))
       (set_closures (<[c := mkClosure sessionID build false]> (closures s))
          (add_counts sessionID build s))).

(** The Release method of a capacity reservation; [None] is the nil one. *)
Definition Release (r : option reservation_ref) (s : sup) : sup :=
  match r with
  | None => s
  | Some r =>
      match reservations s !! r with
      | Some (Some c) => set_reservations (<[r := None]> (reservations s)) (call_release c s)
      | _ => s
      end
  end.

Definition reserveCapacity (sessionID : string) (build : bool) (s : sup)
    : option reservation_ref * bool * sup :=
  let '(res, s) := reserveCapacityLocked sessionID build s in
  (res, bool_decide (is_Some res), s).

Definition reserve (sessionID launcherID kind : string) (s : sup)
    : option reservation_ref * admissionDecision * sup :=
  if shutting s then (None, admissionRefusedShutdown, s)
  else if default false (quiesced s !! launcherID) then (None, admissionRefusedQuiesced, s)
  else match reserveCapacityLocked sessionID (bool_decide (kind = operationKindBuild)) s with
       | (None, s) => (None, admissionRefusedCapacity, s)
       | (Some r, s) => (Some r, admissionAccepted, s)
       end.

(** Moving the release closure of a reservation into an operation. *)
Definition transfer (o : op_ref) (reservation : option reservation_ref) (s : sup) : sup :=
  match reservation with
  | None => s
  | Some r =>
      match reservations s !! r, heap s !! o with
      | Some (Some c), Some op =>
          set_reservations (<[r := None]> (reservations s))
            (set_op o (with_capacityRelease (Some c) op) s)
      | _, _ => s
      end
  end.

Definition admitReserved (o : op_ref) (reservation : option reservation_ref) (s : sup)
    : admissionDecision * sup :=
  match heap s !! o with
  | None => (admissionAccepted, s)
  | Some op =>
      if shutting s then (admissionRefusedShutdown, s)
      else if default false (quiesced s !! op_LauncherID op) then (admissionRefusedQuiesced, s)
      else (admissionAccepted, transfer o reservation (set_ops (<[op_ID op := o]> (ops s)) s))
  end.

Definition lookup_op (id : string) (s : sup) : option op_ref := ops s !! id.

Definition operationForSession (sessionID operationID : string) (s : sup) : option op_ref :=
  match lookup_op operationID s with
  | None => None
  | Some o =>
      match heap s !! o with
      | Some op => if bool_decide (op_SessionID op ≠ sessionID) then None else Some o
      | None => None
      end
  end.

(** ** Quiesce and shutdown *)

Definition beginShutdown (s : sup) : sup := set_shutting true s.

Definition quiesceLauncher (launcherID : string) (s : sup) : sup :=
  set_quiesced (<[launcherID := true]> (quiesced s)) s.

Definition setQuiesced (launcherID : string) (closed : bool) (s : sup) : sup :=
  if closed then set_quiesced (<[launcherID := true]> (quiesced s)) s
  else set_quiesced (delete launcherID (quiesced s)) s.

Definition op_list (s : sup) : list op_ref := (map_to_list (ops s)).*2.

Definition hasRunningForLauncher (launcherID : string) (s : sup) : bool :=
  existsb (λ o, match heap s !! o with
                | Some op => bool_decide (op_LauncherID op = launcherID)
                             && bool_decide (op_State op = operationRunning)
                | None => false
                end) (op_list s).

(** ** Terminal transitions *)

Definition releaseCapacity (o : op_ref) (s : sup) : sup :=
  match heap s !! o with
  | Some op =>
      match op_capacityRelease op with
      | Some c => let s := call_release c s in set_op o (with_capacityRelease None op) s
      | None => s
      end
  | None => s
  end.

(** [writeFinishAudit] followed by the once-guarded close of [done]. *)
Definition finish (o : op_ref) (s : sup) : sup :=
  match heap s !! o with
  | Some op =>
      set_op o (with_done chan_closed op)
        (emit (EvFinishAudit o (default "" (op_ResultCode op))) s)
  | None => s
  end.

Definition succeed (o : op_ref) (duration : option string) (now : Z) (s : sup) : bool * sup :=
  match heap s !! o with
  | None => (false, s)
  | Some op =>
      match op_CompletedAt op with
      | Some _ => (false, s)
      | None =>
          let rc := match op_ResultCode op with None => Some "succeeded" | rc => rc end in
          let op := with_terminal operationSucceeded now duration (op_ExitCode op) rc op in
          (true, finish o (releaseCapacity o (set_op o op s)))
      end
  end.

Definition fail_op (o : op_ref) (resultCode : string) (exitCode : option Z)
    (duration : option string) (now : Z) (s : sup) : bool * sup :=
  match heap s !! o with
  | None => (false, s)
  | Some op =>
      match op_CompletedAt op with
      | Some _ => (false, s)
      | None =>
          let rc := match op_ResultCode op with None => Some resultCode | rc => rc end in
          let dur := match duration with Some d => Some d | None => op_Duration op end in
          let op := with_terminal operationFailed now dur exitCode rc op in
          (true, finish o (releaseCapacity o (set_op o op s)))
      end
  end.

(** [startOperationProcess]: [start_ok] is the result of [cmd.Start()]. *)
Inductive startResult := startTerminated | startErr | startOk.
#[export] Instance startResult_eq_dec : EqDecision startResult.
Proof. solve_decision. Defined.

Definition startOperationProcess (o : op_ref) (start_ok : bool) (now : Z) (s : sup)
    : startResult * sup :=
  match heap s !! o with
  | None => (startErr, s)
  | Some op =>
      if op_terminated op then (startTerminated, s)
      else
        let s := set_op o (with_start now start_ok op) s in
        if start_ok then (startOk, emit (EvStart o) s) else (startErr, s)
  end.

(** ** Termination *)

(** Phase 0+1 of [terminateOperations] on one operation. *)
Definition mark_op (reason : terminationReason) (o : op_ref) (s : sup) : sup :=
  match heap s !! o with
  | None => s
  | Some op =>
      let reason := if bool_decide (op_reason op = terminationNone) then reason else op_reason op in
      if negb (op_started op) then set_op o (with_mark reason true op) s
      else
        let s := set_op o (with_mark reason (op_terminated op) op) s in
        if op_process op then emit (EvSignal o) s else s
  end.

Definition terminate_targets (targetOp : option op_ref) (s : sup) : list op_ref :=
  match targetOp with Some o => [o] | None => op_list s end.

Definition terminate_mark (targetOp : option op_ref) (reason : terminationReason) (s : sup) : sup :=
  foldl (λ s o, mark_op reason o s) s (terminate_targets targetOp s).

(** The claim of the force phase: [None] when another path owns it or the
    operation has completed. *)
Definition forceClaim (o : op_ref) (deadline : Z) (s : sup) : bool * sup :=
  match heap s !! o with
  | None => (false, s)
  | Some op =>
      if op_forceOwned op then (false, s)
      else match op_CompletedAt op with
           | Some _ => (false, s)
           | None => (true, set_op o (with_force true chan_open deadline op) s)
           end
  end.

(** The owner's cleanup: [containerID] is what [waitForContainerID] read from
    the cidfile ([""] for nothing), [killContainer] whether the callback is
    set; then the kill under [op.mu] and the close of [forceDone]. *)
Definition kill_signals (killContainer : bool) (containerID : string) (o : op_ref) (op : operation)
    (s : sup) : sup :=
  let s := if bool_decide (op_cidfile op ≠ "") && bool_decide (containerID ≠ "") && killContainer
           then emit (EvKillContainer o containerID) s else s in
  if op_process op then emit (EvKill o) s else s.

Definition forceKill (killContainer : bool) (containerID : string) (o : op_ref) (s : sup) : sup :=
  match heap s !! o with
  | None => s
  | Some op =>
      set_op o (with_force (op_forceOwned op) chan_closed (op_forceDeadline op) op)
        (kill_signals killContainer containerID o op s)
  end.

Definition forceCleanupOperation (o : op_ref) (killContainer : bool) (containerID : string)
    (forceDeadline : Z) (s : sup) : sup :=
  match forceClaim o forceDeadline s with
  | (true, s) => forceKill killContainer containerID o s
  | (false, s) => s
  end.

Definition forceCleanupSequential (o : op_ref) (killContainer : bool) (containerID : string)
    (now : Z) (s : sup) : sup :=
  match forceClaim o (now + defaultForceCleanupTimeout) s with
  | (true, s) => forceKill killContainer containerID o s
  | (false, s) => s
  end.

(** The phases of [terminateOperations] after the marking, as the decision who
    is force-cleaned.  [doneInTime] says which operations close [done] before
    their wait ends: the shutdown wait is one timer for all of them, so the
    first operation that misses it ends the phase; the cancel wait is per
    operation. *)
Definition not_started (s : sup) (o : op_ref) : bool :=
  match heap s !! o with Some op => negb (op_started op) | None => false end.

Definition terminatedSet (targets : list op_ref) (s : sup) : list op_ref :=
  filter (λ o, not_started s o = true) targets.

(** The instant the shutdown's graceful phase ends, [None] to skip it. *)
Definition forceStart (deadline now : Z) : option Z :=
  let start := deadline - defaultForceCleanupTimeout in
  if start <? now then None else Some start.

Fixpoint graceful_completed (doneInTime : op_ref → bool) (waited : list op_ref) : list op_ref :=
  match waited with
  | [] => []
  | o :: waited => if doneInTime o then o :: graceful_completed doneInTime waited else []
  end.

Definition force_targets (isShutdown : bool) (grace : option Z) (doneInTime : op_ref → bool)
    (targets terminated : list op_ref) : list op_ref :=
  let waited := filter (λ o, ¬ o ∈ terminated) targets in
  if isShutdown then
    let completed := match grace with
                     | None => []
                     | Some _ => graceful_completed doneInTime waited
                     end in
    filter (λ o, o ∉ completed) waited
  else filter (λ o, doneInTime o = false) waited.

(** [cancel] up to the call of [terminateOperations]. *)
Definition cancel_check (id : string) (s : sup) : option error :=
  match ops s !! id with
  | None => Some (mkError "operation not found" [ErrOperationNotFound])
  | Some o =>
      match heap s !! o with
      | Some op =>
          match op_CompletedAt op with
          | Some _ => Some (mkError "operation already terminal" [ErrOperationAlreadyTerminal])
          | None => None
          end
      | None => None
      end
  end.

Definition cancel_begin (id : string) (s : sup) : option error * sup :=
  match cancel_check id s with
  | Some e => (Some e, s)
  | None => (None, match ops s !! id with
                   | Some o => terminate_mark (Some o) terminationCancelled s
                   | None => s
                   end)
  end.

(** ** Pruning *)

(** The completed operations with their completion times. *)
Definition completed_ops (s : sup) : list (op_ref * Z) :=
  omap (λ o, match heap s !! o with
             | Some op => if bool_decide (op_State op ≠ operationRunning)
                          then (λ t, (o, t)) <$> op_CompletedAt op else None
             | None => None
             end) (op_list s).

Definition older (a b : op_ref * Z) : Prop := a.2 <= b.2.
#[export] Instance older_dec : RelDecision older.
Proof. intros a b. unfold older. apply _. Defined.

Definition prune_victims (now retentionTTL : Z) (maxCompleted : nat) (completed : list (op_ref * Z))
    : list op_ref :=
  let expired := filter (λ c, now - c.2 > retentionTTL) completed in
  let nonExpired := filter (λ c, ¬ (now - c.2 > retentionTTL)) completed in
  let surplus := if decide (maxCompleted < length nonExpired)%nat
                 then take (length nonExpired - maxCompleted) (merge_sort older nonExpired)
                 else [] in
  expired.*1 ++ surplus.*1.

(** The removal re-checks that the id still names the same operation. *)
Definition prune_remove (s : sup) (o : op_ref) : sup :=
  match heap s !! o with
  | Some op => if bool_decide (ops s !! op_ID op = Some o) then set_ops (delete (op_ID op) (ops s)) s else s
  | None => s
  end.

Definition pruneCompleted (now retentionTTL : Z) (maxCompleted : nat) (s : sup) : sup :=
  foldl prune_remove s (prune_victims now retentionTTL maxCompleted (completed_ops s)).
