(* ===== verification/OperationTheory.v ===== *)
(** * OperationTheory: the supervisor as a state machine

    [step] interleaves the supervisor's critical sections in the order the
    request handlers may issue them; [sup_inv] is the capacity-ownership
    invariant: a release closure is live exactly while one reservation or one
    non-terminal operation holds it, and the counters count the live closures. *)
From S2P Require Import Prelude Operation.
Local Open Scope Z_scope.

(** ** Counting live closures *)

Definition live (P : closure → bool) (m : gmap closure_ref closure) : gmap closure_ref closure :=
  filter (λ kv, cl_released kv.2 = false ∧ P kv.2 = true) m.

Definition live_count (P : closure → bool) (m : gmap closure_ref closure) : Z :=
  Z.of_nat (size (live P m)).

Definition any_closure (_ : closure) : bool := true.
Definition of_session (sid : string) (cl : closure) : bool := bool_decide (cl_session cl = sid).

Lemma live_insert P m c cl :
  m !! c = None → cl_released cl = false →
  live_count P (<[c := cl]> m) = (if P cl then 1 else 0) + live_count P m.
Proof.
  intros Hc Hr. unfold live_count, live. destruct (P cl) eqn:E.
  - rewrite map_filter_insert_True by done.
    rewrite map_size_insert_None; [lia|]. apply map_lookup_filter_None. by left.
  - rewrite map_filter_insert_not'; [lia|simpl; rewrite E; by intros [_ ?]|].
    intros y Hy. congruence.
Qed.

Lemma live_released P m c cl :
  m !! c = Some cl → cl_released cl = false →
  live_count P m =
  (if P cl then 1 else 0) + live_count P (<[c := mkClosure (cl_session cl) (cl_build cl) true]> m).
Proof.
  intros Hc Hr.
  assert (Hd : live_count P (<[c := mkClosure (cl_session cl) (cl_build cl) true]> m)
               = live_count P (delete c m)).
  { unfold live_count, live. by rewrite map_filter_insert_False by (by intros [? _]). }
  rewrite Hd. rewrite <-(insert_delete_id m c cl Hc) at 1.
  rewrite live_insert by (done || apply lookup_delete_eq). done.
Qed.

Lemma live_empty P : live_count P ∅ = 0.
Proof. unfold live_count, live. by rewrite map_filter_empty, map_size_empty. Qed.

Lemma live_nonneg P m : 0 <= live_count P m.
Proof. unfold live_count. lia. Qed.

Lemma live_pos P m c cl :
  m !! c = Some cl → cl_released cl = false → P cl = true → 0 < live_count P m.
Proof.
  intros Hc Hr HP. rewrite (live_released P m c cl Hc Hr), HP. pose proof (live_nonneg P
    (<[c := mkClosure (cl_session cl) (cl_build cl) true]> m)). lia.
Qed.

(** ** Holders *)

(** Who may call a release closure: a reservation or an operation. *)
Definition holder : Type := reservation_ref + op_ref.

Definition holder_of (s : sup) (h : holder) : option closure_ref :=
  match h with
  | inl r => mjoin (reservations s !! r)
  | inr o => heap s !! o ≫= op_capacityRelease
  end.

Record capacity_inv (s : sup) : Prop := {
  ci_max : maxPerSession s = maxConcurrentOperationsPerSession ∧
           maxGlobal s = maxConcurrentOperationsGlobal ∧
           maxGlobalBuilds s = maxConcurrentBuildsGlobal;
  ci_held : ∀ h c, holder_of s h = Some c →
    ∃ cl, closures s !! c = Some cl ∧ cl_released cl = false;
  ci_holder : ∀ c cl, closures s !! c = Some cl → cl_released cl = false →
    ∃ h, holder_of s h = Some c;
  ci_unique : ∀ h h' c, holder_of s h = Some c → holder_of s h' = Some c → h = h';
  ci_global : globalRunning s = live_count any_closure (closures s);
  ci_session : ∀ sid, session_count s sid = live_count (of_session sid) (closures s);
  ci_session_key : ∀ sid n, sessionRunning s !! sid = Some n → 0 < n;
  ci_builds : globalBuildCount s = live_count cl_build (closures s);
  ci_bounds : globalRunning s <= maxGlobal s ∧ globalBuildCount s <= maxGlobalBuilds s ∧
    ∀ sid, session_count s sid <= maxPerSession s;
  ci_terminal : ∀ o op t, heap s !! o = Some op → op_CompletedAt op = Some t →
    op_capacityRelease op = None;
}.

Lemma capacity_inv_init : capacity_inv newOperationSupervisor.
Proof.
  split; simpl; try done.
  - intros [r|o] c; simpl; by rewrite lookup_empty.
  - intros [r|o] h' c; simpl; by rewrite lookup_empty.
Qed.

(** States that differ only outside the capacity accounting. *)
Lemma capacity_inv_view s s' :
  capacity_inv s →
  maxPerSession s' = maxPerSession s → maxGlobal s' = maxGlobal s →
  maxGlobalBuilds s' = maxGlobalBuilds s → closures s' = closures s →
  sessionRunning s' = sessionRunning s → globalRunning s' = globalRunning s →
  globalBuildCount s' = globalBuildCount s →
  (∀ h, holder_of s' h = holder_of s h) →
  (∀ o op t, heap s' !! o = Some op → op_CompletedAt op = Some t → op_capacityRelease op = None) →
  capacity_inv s'.
Proof.
  intros [] E1 E2 E3 E4 E5 E6 E7 Hh Ht.
  assert (∀ sid, session_count s' sid = session_count s sid) as Hs
    by (intros sid; unfold session_count; by rewrite E5).
  split.
  - by rewrite E1, E2, E3.
  - intros h c. rewrite Hh, E4. apply ci_held0.
  - intros c cl. rewrite E4. setoid_rewrite Hh. apply ci_holder0.
  - intros h h' c. rewrite !Hh. apply ci_unique0.
  - by rewrite E6, E4.
  - intros sid. by rewrite Hs, E4.
  - intros sid n. rewrite E5. apply ci_session_key0.
  - by rewrite E7, E4.
  - rewrite E1, E2, E3, E6, E7. setoid_rewrite Hs. done.
  - done.
Qed.

(** An operation update that keeps the held closure and does not complete. *)
Lemma capacity_inv_set_op s o op op' :
  capacity_inv s → heap s !! o = Some op →
  op_capacityRelease op' = op_capacityRelease op →
  (op_CompletedAt op' = op_CompletedAt op ∨ op_capacityRelease op = None) →
  capacity_inv (set_op o op' s).
Proof.
  intros Hi Ho Hc Ht. eapply capacity_inv_view; [exact Hi|done..| |].
  - intros [r|o']; simpl; [done|]. rewrite lookup_insert. case_decide; [|done].
    subst. by rewrite Ho.
  - intros o' op'' t. simpl. rewrite lookup_insert. case_decide as E; [|by apply (ci_terminal _ Hi)].
    intros [= <-] Hct. rewrite Hc. destruct Ht as [Ht|]; [|done]. rewrite Ht in Hct.
    by apply (ci_terminal _ Hi o op t).
Qed.

Lemma capacity_inv_emit s e : capacity_inv s → capacity_inv (emit e s).
Proof. intros Hi. eapply capacity_inv_view; [exact Hi|done..|]. apply (ci_terminal _ Hi). Qed.

Lemma capacity_inv_set_ops s m : capacity_inv s → capacity_inv (set_ops m s).
Proof. intros Hi. eapply capacity_inv_view; [exact Hi|done..|]. apply (ci_terminal _ Hi). Qed.

(** ** The counter updates *)

Lemma session_count_add s sid sid' b :
  session_count (add_counts sid b s) sid' =
  session_count s sid' + if decide (sid = sid') then 1 else 0.
Proof.
  unfold session_count, add_counts. simpl. rewrite lookup_insert. case_decide; [|lia].
  subst. simpl. unfold session_count. lia.
Qed.

Lemma session_count_sub s sid sid' b :
  0 < session_count s sid →
  session_count (sub_counts sid b s) sid' =
  session_count s sid' - if decide (sid = sid') then 1 else 0.
Proof.
  intros Hpos. unfold sub_counts. simpl.
  rewrite (proj2 (Z.ltb_lt _ _) Hpos). unfold session_count at 1. simpl.
  rewrite lookup_insert_eq. simpl. case_bool_decide as E.
  - rewrite lookup_delete. case_decide; [subst; simpl; lia|].
    rewrite lookup_insert_ne by done. unfold session_count. lia.
  - rewrite lookup_insert. case_decide; [subst; simpl; lia|]. unfold session_count. lia.
Qed.

Lemma session_key_sub s sid sid' b n :
  (∀ sid n, sessionRunning s !! sid = Some n → 0 < n) → 0 < session_count s sid →
  sessionRunning (sub_counts sid b s) !! sid' = Some n → 0 < n.
Proof.
  intros Hk Hpos. unfold sub_counts. simpl. rewrite (proj2 (Z.ltb_lt _ _) Hpos).
  rewrite lookup_insert_eq. simpl. case_bool_decide as E.
  - rewrite lookup_delete. case_decide; [done|]. rewrite lookup_insert_ne by done. apply Hk.
  - rewrite lookup_insert. case_decide; [|apply Hk]. intros [= <-]. lia.
Qed.

(** ** Reserving *)

Lemma capacity_inv_reserveLocked sid b s :
  capacity_inv s → capacity_inv (reserveCapacityLocked sid b s).2.
Proof.
  intros Hi. unfold reserveCapacityLocked.
  destruct (Z.leb_spec (maxGlobal s) (globalRunning s)); [done|].
  destruct (Z.leb_spec (maxPerSession s) (session_count s sid)); [done|].
  destruct (b && (maxGlobalBuilds s <=? globalBuildCount s)) eqn:Eb; [done|]. simpl.
  set (c := fresh (dom (closures s))). set (r := fresh (dom (reservations s))).
  assert (Hc : closures s !! c = None) by (apply not_elem_of_dom; apply is_fresh).
  assert (Hr : reservations s !! r = None) by (apply not_elem_of_dom; apply is_fresh).
  assert (Hfr : ∀ h, holder_of s h ≠ Some c).
  { intros h Hh. destruct (ci_held _ Hi _ _ Hh) as (? & ? & _). congruence. }
  set (s' := set_reservations _ _).
  assert (Hh : ∀ h, holder_of s' h = if decide (h = inl r) then Some c else holder_of s h).
  { intros [r'|o']; simpl; [|done]. rewrite lookup_insert.
    case_decide; [subst; by rewrite decide_True|]. rewrite decide_False by congruence. done. }
  pose proof (ci_bounds _ Hi) as (Hb1 & Hb2 & Hb3).
  split.
  - apply (ci_max _ Hi).
  - intros h c'. rewrite Hh. simpl. case_decide.
    + intros [= <-]. rewrite lookup_insert_eq. eauto.
    + intros Hh'. destruct (ci_held _ Hi _ _ Hh') as (cl & Hcl & ?). exists cl.
      rewrite lookup_insert_ne; [done|]. intros <-. by apply Hfr in Hh'.
  - intros c' cl. simpl. rewrite lookup_insert. case_decide.
    + intros _ _. exists (inl r). rewrite Hh, decide_True by done. congruence.
    + intros Hcl Hrel. destruct (ci_holder _ Hi _ _ Hcl Hrel) as [h Hh']. exists h.
      rewrite Hh. case_decide; [|done]. subst. simpl in Hh'. by rewrite Hr in Hh'.
  - intros h h' c'. rewrite !Hh. repeat case_decide; [congruence|..].
    + intros [= <-] H'. by apply Hfr in H'.
    + intros H' [= <-]. by apply Hfr in H'.
    + apply (ci_unique _ Hi).
  - simpl. rewrite live_insert by done. simpl. rewrite (ci_global _ Hi). lia.
  - intros sid'. simpl. rewrite live_insert by done.
    change (session_count s' sid') with (session_count (add_counts sid b s) sid').
    rewrite session_count_add, (ci_session _ Hi). unfold of_session. simpl.
    case_decide; case_bool_decide; try congruence; lia.
  - intros sid' n. simpl. rewrite lookup_insert. case_decide; [|apply (ci_session_key _ Hi)].
    intros [= <-]. rewrite (ci_session _ Hi). pose proof (live_nonneg (of_session sid) (closures s)). lia.
  - simpl. rewrite live_insert by done. simpl. rewrite (ci_builds _ Hi). lia.
  - simpl. split_and!; [lia| |].
    + destruct b; [|lia]. simpl in Eb. apply Z.leb_gt in Eb. lia.
    + intros sid'. change (session_count s' sid') with (session_count (add_counts sid b s) sid').
      rewrite session_count_add. specialize (Hb3 sid'). case_decide; [subst; lia|lia].
  - apply (ci_terminal _ Hi).
Qed.

(** ** Releasing *)

#[export] Instance holder_eq_dec : EqDecision holder.
Proof. unfold holder. apply _. Defined.

(** Holder [h0] gives up closure [c], whose slot is returned. *)
Lemma capacity_inv_drop s s' h0 c cl :
  capacity_inv s → holder_of s h0 = Some c → closures s !! c = Some cl →
  maxPerSession s' = maxPerSession s → maxGlobal s' = maxGlobal s →
  maxGlobalBuilds s' = maxGlobalBuilds s →
  closures s' = <[c := mkClosure (cl_session cl) (cl_build cl) true]> (closures s) →
  sessionRunning s' = sessionRunning (sub_counts (cl_session cl) (cl_build cl) s) →
  globalRunning s' = globalRunning (sub_counts (cl_session cl) (cl_build cl) s) →
  globalBuildCount s' = globalBuildCount (sub_counts (cl_session cl) (cl_build cl) s) →
  (∀ h, holder_of s' h = if decide (h = h0) then None else holder_of s h) →
  (∀ o op t, heap s' !! o = Some op → op_CompletedAt op = Some t → op_capacityRelease op = None) →
  capacity_inv s'.
Proof.
  intros Hi Hh0 Hc E1 E2 E3 E4 E5 E6 E7 Hh Ht.
  destruct (ci_held _ Hi _ _ Hh0) as (cl' & Hc' & Hrel). assert (cl' = cl) as -> by congruence. clear Hc'.
  pose proof (live_pos any_closure _ _ _ Hc Hrel eq_refl) as Pg.
  pose proof (live_pos (of_session (cl_session cl)) _ _ _ Hc Hrel (bool_decide_eq_true_2 _ eq_refl)) as Ps.
  rewrite <-(ci_global _ Hi) in Pg. rewrite <-(ci_session _ Hi) in Ps.
  assert (Hs : ∀ sid, session_count s' sid =
    session_count s sid - if decide (cl_session cl = sid) then 1 else 0).
  { intros sid. rewrite <-(session_count_sub s _ _ (cl_build cl)) by done. unfold session_count. by rewrite E5. }
  assert (Hg : globalRunning s' = globalRunning s - 1).
  { rewrite E6. unfold sub_counts. simpl. by rewrite (proj2 (Z.ltb_lt _ _) Pg). }
  assert (Hb : globalBuildCount s' = globalBuildCount s - if cl_build cl then 1 else 0).
  { rewrite E7. unfold sub_counts. simpl. destruct (cl_build cl) eqn:Eb; simpl; [|lia].
    pose proof (live_pos cl_build _ _ _ Hc Hrel Eb) as Pb. rewrite <-(ci_builds _ Hi) in Pb.
    by rewrite (proj2 (Z.ltb_lt _ _) Pb). }
  pose proof (ci_bounds _ Hi) as (B1 & B2 & B3).
  split.
  - rewrite E1, E2, E3. apply (ci_max _ Hi).
  - intros h c'. rewrite Hh, E4. case_decide as Eh; [done|]. intros Hh'.
    destruct (ci_held _ Hi _ _ Hh') as (cl' & ? & ?). exists cl'.
    rewrite lookup_insert_ne; [done|]. intros <-. apply Eh. by apply (ci_unique _ Hi _ _ c).
  - intros c' cl'. rewrite E4, lookup_insert. case_decide; [by intros [= <-]|].
    intros Hc' Hr'. destruct (ci_holder _ Hi _ _ Hc' Hr') as [h Hh']. exists h.
    rewrite Hh. rewrite decide_False by congruence. done.
  - intros h h' c'. rewrite !Hh. repeat case_decide; try done. apply (ci_unique _ Hi).
  - rewrite Hg, E4, (ci_global _ Hi), (live_released any_closure _ _ _ Hc Hrel). simpl. lia.
  - intros sid. rewrite Hs, E4, (ci_session _ Hi), (live_released (of_session sid) _ _ _ Hc Hrel).
    unfold of_session at 1. case_decide; case_bool_decide; try congruence; lia.
  - intros sid n. rewrite E5. apply session_key_sub; [apply (ci_session_key _ Hi)|done].
  - rewrite Hb, E4, (ci_builds _ Hi), (live_released cl_build _ _ _ Hc Hrel). lia.
  - rewrite E1, E2, E3, Hg, Hb. split_and!; [lia|destruct (cl_build cl); lia|].
    intros sid. rewrite Hs. specialize (B3 sid). case_decide; lia.
  - done.
Qed.

Lemma call_release_live c cl s :
  closures s !! c = Some cl → cl_released cl = false →
  call_release c s = sub_counts (cl_session cl) (cl_build cl)
    (set_closures (<[c := mkClosure (cl_session cl) (cl_build cl) true]> (closures s)) s).
Proof. intros Hc Hr. unfold call_release. by rewrite Hc, Hr. Qed.

Lemma capacity_inv_Release r s : capacity_inv s → capacity_inv (Release r s).
Proof.
  intros Hi. destruct r as [r|]; [|done]. simpl.
  destruct (reservations s !! r) as [[c|]|] eqn:Er; [|done..].
  assert (Hh : holder_of s (inl r) = Some c) by (simpl; by rewrite Er).
  destruct (ci_held _ Hi _ _ Hh) as (cl & Hc & Hrel).
  rewrite (call_release_live _ _ _ Hc Hrel).
  apply (capacity_inv_drop s _ (inl r) c cl); try done.
  - intros [r'|o]; simpl; [|done]. rewrite lookup_insert. case_decide.
    + subst. by rewrite decide_True.
    + by rewrite decide_False by congruence.
  - apply (ci_terminal _ Hi).
Qed.

(** Releasing the operation's slot while updating the operation. *)
Lemma capacity_inv_release_op o op op' c cl s :
  capacity_inv s → heap s !! o = Some op → op_capacityRelease op = Some c →
  closures s !! c = Some cl → op_capacityRelease op' = None →
  capacity_inv (set_op o op' (sub_counts (cl_session cl) (cl_build cl)
    (set_closures (<[c := mkClosure (cl_session cl) (cl_build cl) true]> (closures s)) s))).
Proof.
  intros Hi Ho Hop Hc Hop'.
  apply (capacity_inv_drop s _ (inr o) c cl); try done.
  - simpl. by rewrite Ho.
  - intros [r|o']; simpl; [done|]. rewrite lookup_insert. case_decide.
    + subst. by rewrite decide_True.
    + by rewrite decide_False by congruence.
  - simpl. intros o' op'' t. rewrite lookup_insert. case_decide; [congruence|]. apply (ci_terminal _ Hi).
Qed.

Lemma capacity_inv_releaseCapacity o s : capacity_inv s → capacity_inv (releaseCapacity o s).
Proof.
  intros Hi. unfold releaseCapacity.
  destruct (heap s !! o) as [op|] eqn:Ho; [|done].
  destruct (op_capacityRelease op) as [c|] eqn:Hop; [|done].
  destruct (ci_held _ Hi (inr o) c) as (cl & Hc & Hrel); [simpl; by rewrite Ho|].
  rewrite (call_release_live _ _ _ Hc Hrel). by eapply capacity_inv_release_op.
Qed.

(** ** Transferring *)

Lemma capacity_inv_transfer o r s :
  capacity_inv s →
  (∀ op c, heap s !! o = Some op → r = Some c → mjoin (reservations s !! c) ≠ None →
     op_capacityRelease op = None ∧ op_CompletedAt op = None) →
  capacity_inv (transfer o r s).
Proof.
  intros Hi Hpre. destruct r as [r|]; [|done]. simpl.
  destruct (reservations s !! r) as [[c|]|] eqn:Er; [|done..].
  destruct (heap s !! o) as [op|] eqn:Ho; [|done].
  destruct (Hpre op r eq_refl eq_refl) as [Hcap Hct]; [by rewrite Er|].
  assert (Hh : holder_of s (inl r) = Some c) by (simpl; by rewrite Er).
  set (s' := set_reservations _ _).
  assert (Hho : ∀ h, holder_of s' h = if decide (h = inr o) then Some c else
                                      if decide (h = inl r) then None else holder_of s h).
  { intros [r'|o']; unfold holder_of, s'; simpl; rewrite lookup_insert;
      repeat case_decide; simplify_eq/=; try done; congruence. }
  pose proof (ci_bounds _ Hi) as Hbd.
  split; try apply Hi.
  - intros h c'. rewrite Hho. repeat case_decide; [|done|apply (ci_held _ Hi)].
    intros [= <-]. by apply (ci_held _ Hi _ _ Hh).
  - intros c' cl Hc' Hr'. destruct (ci_holder _ Hi _ _ Hc' Hr') as [h Hh'].
    destruct (decide (h = inl r)) as [->|Hne].
    + exists (inr o). rewrite Hho, decide_True by done. congruence.
    + exists h. rewrite Hho. rewrite (decide_False (P := h = inl r)) by done.
      case_decide; [|done]. subst. simpl in Hh'. rewrite Ho in Hh'. simpl in Hh'. congruence.
  - intros h h' c'. rewrite !Hho. repeat case_decide; subst; try done.
    + intros [= <-] H'. by rewrite (ci_unique _ Hi _ _ _ Hh H') in *.
    + intros H' [= <-]. by rewrite (ci_unique _ Hi _ _ _ Hh H') in *.
    + apply (ci_unique _ Hi).
  - intros o' op' t. simpl. rewrite lookup_insert. case_decide; [|apply (ci_terminal _ Hi)].
    intros [= <-]. simpl. congruence.
Qed.

(** ** Completing *)

Lemma finish_inv o s : capacity_inv s → capacity_inv (finish o s).
Proof.
  intros Hi. unfold finish. destruct (heap s !! o) as [op|] eqn:Ho; [|done].
  eapply capacity_inv_set_op; [by apply capacity_inv_emit|exact Ho|done|by left].
Qed.

(** The winning transition: the terminal update and the release together. *)
Lemma capacity_inv_complete o op op' s :
  capacity_inv s → heap s !! o = Some op → op_capacityRelease op' = op_capacityRelease op →
  capacity_inv (finish o (releaseCapacity o (set_op o op' s))).
Proof.
  intros Hi Ho Hcap. apply finish_inv. unfold releaseCapacity. simpl. rewrite lookup_insert_eq, Hcap.
  destruct (op_capacityRelease op) as [c|] eqn:Hop.
  - destruct (ci_held _ Hi (inr o) c) as (cl & Hc & Hrel); [simpl; by rewrite Ho|].
    rewrite (call_release_live c cl) by done.
    pose proof (capacity_inv_release_op o op (with_capacityRelease None op') c cl s Hi Ho Hop Hc eq_refl) as H.
    eapply capacity_inv_view; [exact H|done..| |].
    + intros [r|o']; simpl; [done|]. by rewrite insert_insert_eq.
    + simpl. rewrite insert_insert_eq. apply (ci_terminal _ H).
  - eapply capacity_inv_set_op; [exact Hi|exact Ho|congruence|by right].
Qed.

Lemma succeed_inv o d now s : capacity_inv s → capacity_inv (succeed o d now s).2.
Proof.
  intros Hi. unfold succeed. destruct (heap s !! o) as [op|] eqn:Ho; [|done].
  destruct (op_CompletedAt op); [done|]. simpl. by eapply capacity_inv_complete.
Qed.

Lemma fail_inv o rc ex d now s : capacity_inv s → capacity_inv (fail_op o rc ex d now s).2.
Proof.
  intros Hi. unfold fail_op. destruct (heap s !! o) as [op|] eqn:Ho; [|done].
  destruct (op_CompletedAt op); [done|]. simpl. by eapply capacity_inv_complete.
Qed.

(** ** The interleaving of the critical sections

    The side conditions state what the handlers of src/run.go and src/build.go
    do: an operation is created fresh; the reservation of a handler is
    transferred to its own, still running operation, either right after the
    construction or at the final admission. *)
Inductive step (s : sup) : sup → Prop :=
  | step_reserve sid lid kind : step s (reserve sid lid kind s).2
  | step_reserveCapacity sid build : step s (reserveCapacity sid build s).2
  | step_Release r : step s (Release r s)
  | step_new o kind id sid lid now cid :
      heap s !! o = None → step s (set_op o (newOperation kind id sid lid now cid) s)
  | step_transfer o op r :
      heap s !! o = Some op → op_CompletedAt op = None → op_capacityRelease op = None →
      step s (transfer o r s)
  | step_admit o op r :
      heap s !! o = Some op → op_CompletedAt op = None →
      (op_capacityRelease op = None ∨ ∀ r', r = Some r' → mjoin (reservations s !! r') = None) →
      step s (admitReserved o r s).2
  | step_rollback o : step s (releaseCapacity o s)
  | step_start o ok now : step s (startOperationProcess o ok now s).2
  | step_succeed o d now : step s (succeed o d now s).2
  | step_fail o rc ex d now : step s (fail_op o rc ex d now s).2
  | step_mark o reason : reason ≠ terminationNone → step s (mark_op reason o s)
  | step_forceClaim o dl : step s (forceClaim o dl s).2
  | step_forceKill o kc cid : step s (forceKill kc cid o s)
  | step_prune o : o ∈ (completed_ops s).*1 → step s (prune_remove s o)
  | step_shutdown : step s (beginShutdown s)
  | step_quiesce lid : step s (quiesceLauncher lid s)
  | step_setQuiesced lid b : step s (setQuiesced lid b s).

Definition reachable (s : sup) : Prop := rtc step newOperationSupervisor s.

Lemma mark_op_inv reason o s : capacity_inv s → capacity_inv (mark_op reason o s).
Proof.
  intros Hi. unfold mark_op. destruct (heap s !! o) as [op|] eqn:Ho; [|done].
  assert (∀ r t, capacity_inv (set_op o (with_mark r t op) s)) as H
    by (intros; eapply capacity_inv_set_op; [done..|by left]).
  destruct (negb (op_started op)); [apply H|]. destruct (op_process op); [|apply H].
  apply capacity_inv_emit, H.
Qed.

Lemma kill_signals_heap kc cid o op s : heap (kill_signals kc cid o op s) = heap s.
Proof. unfold kill_signals. by repeat case_match. Qed.

Lemma kill_signals_ind (P : sup → Prop) kc cid o op s :
  (∀ s e, (∃ c, e = EvKillContainer o c) ∨ e = EvKill o → P s → P (emit e s)) →
  P s → P (kill_signals kc cid o op s).
Proof. unfold kill_signals. intros H ?. repeat case_match; repeat (apply H; [naive_solver|]); done. Qed.

Lemma force_inv o d b dl s :
  capacity_inv s → ∀ op, heap s !! o = Some op → capacity_inv (set_op o (with_force b d dl op) s).
Proof. intros Hi op Ho. eapply capacity_inv_set_op; [done..|by left]. Qed.

Lemma capacity_inv_step s s' : capacity_inv s → step s s' → capacity_inv s'.
Proof.
  intros Hi Hs. pose proof (ci_terminal _ Hi) as Ht.
  destruct Hs as [sid lid kind|sid b|r|o kind id sid lid now cid Ho|o op r Ho Hct Hcap|o op r Ho Hct Hcap
    |o|o ok now|o d now|o rc ex d now|o reason _|o dl|o kc cid'|o _| |lid|lid b].
  - unfold reserve. destruct (shutting s); [done|]. destruct (default false _); [done|].
    pose proof (capacity_inv_reserveLocked sid (bool_decide (kind = operationKindBuild)) s Hi) as H.
    by destruct (reserveCapacityLocked _ _ s) as [[r|] s'].
  - unfold reserveCapacity. pose proof (capacity_inv_reserveLocked sid b s Hi) as H.
    by destruct (reserveCapacityLocked _ _ s) as [r s'].
  - by apply capacity_inv_Release.
  - eapply capacity_inv_view; [exact Hi|done..| |].
    + intros [r|o']; simpl; [done|]. rewrite lookup_insert. case_decide; [|done]. subst. by rewrite Ho.
    + simpl. intros o' op' t. rewrite lookup_insert. case_decide; [|apply Ht]. by intros [= <-].
  - apply capacity_inv_transfer; [done|]. intros op' c Ho' _ _. by simplify_eq.
  - unfold admitReserved. rewrite Ho. destruct (shutting s); [done|]. destruct (default false _); [done|].
    simpl. apply capacity_inv_transfer; [by apply capacity_inv_set_ops|].
    simpl. intros op' c Ho' -> Hne. simplify_eq. split; [|done].
    destruct Hcap as [?|Hcap]; [done|]. by specialize (Hcap c eq_refl).
  - by apply capacity_inv_releaseCapacity.
  - unfold startOperationProcess. destruct (heap s !! o) as [op|] eqn:Ho; [|done].
    destruct (op_terminated op); [done|].
    assert (capacity_inv (set_op o (with_start now ok op) s)) as H
      by (eapply capacity_inv_set_op; [done..|by left]).
    destruct ok; [by apply capacity_inv_emit|done].
  - by apply succeed_inv.
  - by apply fail_inv.
  - by apply mark_op_inv.
  - unfold forceClaim. destruct (heap s !! o) as [op|] eqn:Ho; [|done].
    destruct (op_forceOwned op); [done|]. destruct (op_CompletedAt op); [done|]. by apply force_inv.
  - unfold forceKill. destruct (heap s !! o) as [op|] eqn:Ho; [|done].
    apply force_inv; [|by rewrite kill_signals_heap].
    apply kill_signals_ind; [intros; by apply capacity_inv_emit|done].
  - unfold prune_remove. destruct (heap s !! o) as [op|]; [|done].
    case_bool_decide; [|done]. by apply capacity_inv_set_ops.
  - by eapply capacity_inv_view.
  - by eapply capacity_inv_view.
  - unfold setQuiesced. destruct b; by eapply capacity_inv_view.
Qed.

Lemma reachable_inv (P : sup → Prop) s :
  P newOperationSupervisor → (∀ s s', capacity_inv s → P s → step s s' → P s') → reachable s → P s.
Proof.
  intros H0 Hstep Hr. assert (capacity_inv s ∧ P s) as [_ ?]; [|done].
  revert Hr. unfold reachable. generalize capacity_inv_init. revert H0.
  intros H0 Hc0 Hr. induction Hr as [|x y z Hxy _ IH]; [done|].
  apply IH; [by eapply Hstep|by eapply capacity_inv_step].
Qed.

Lemma reachable_capacity s : reachable s → capacity_inv s.
Proof. apply reachable_inv; [apply capacity_inv_init|]. intros ????. by apply capacity_inv_step. Qed.

(** ** The life of an operation *)

Definition is_audit (o : op_ref) (e : event) : bool :=
  match e with EvFinishAudit o' _ => bool_decide (o' = o) | _ => false end.
Definition is_start (o : op_ref) (e : event) : bool :=
  match e with EvStart o' => bool_decide (o' = o) | _ => false end.

Definition count_ev (p : event → bool) (l : list event) : nat := length (filter (λ e, p e = true) l).

Lemma count_ev_snoc p l e : count_ev p (l ++ [e]) = (count_ev p l + if p e then 1 else 0)%nat.
Proof.
  unfold count_ev. rewrite filter_app, length_app. f_equal.
  destruct (p e) eqn:E; [by rewrite filter_cons_True|by rewrite filter_cons_False by congruence].
Qed.

Lemma count_ev_none p l : (∀ e, e ∈ l → p e = false) → count_ev p l = 0%nat.
Proof.
  unfold count_ev. induction l as [|e l IH]; intros H; [done|].
  rewrite filter_cons_False by (rewrite (H e) by apply list_elem_of_here; congruence).
  apply IH. intros e' He'. apply H. by right.
Qed.

Record op_ok (o : op_ref) (op : operation) (evs : list event) : Prop := {
  ok_state : op_State op = operationRunning ↔ op_CompletedAt op = None;
  ok_done : op_done op = chan_closed ↔ is_Some (op_CompletedAt op);
  ok_result : is_Some (op_CompletedAt op) → is_Some (op_ResultCode op);
  ok_audit : count_ev (is_audit o) evs = match op_CompletedAt op with Some _ => 1%nat | None => 0%nat end;
  ok_term : op_terminated op = true → op_started op = false;
  ok_start : op_started op = false → op_process op = false;
}.

Record life_inv (s : sup) : Prop := {
  li_ops : ∀ o op, heap s !! o = Some op → op_ok o op (events s);
  li_fresh : ∀ o e, heap s !! o = None → e ∈ events s → is_audit o e = false;
  li_map : ∀ id o, ops s !! id = Some o → ∃ op, heap s !! o = Some op ∧ op_ID op = id;
}.

Lemma life_inv_init : life_inv newOperationSupervisor.
Proof. split; simpl; try done. intros o e _ ?%not_elem_of_nil. done. Qed.

(** Functions of the capacity accounting touch neither operations nor events. *)
Definition same_life (s s' : sup) : Prop :=
  heap s' = heap s ∧ ops s' = ops s ∧ events s' = events s.

Lemma life_same s s' : same_life s s' → life_inv s → life_inv s'.
Proof. intros (E1 & E2 & E3) [H1 H2 H3]. split; rewrite ?E1, ?E2, ?E3; auto. Qed.

Lemma same_life_reserve sid b s : same_life s (reserveCapacityLocked sid b s).2.
Proof. unfold reserveCapacityLocked. by repeat case_match. Qed.

Lemma same_life_call c s : same_life s (call_release c s).
Proof. unfold call_release. by repeat case_match. Qed.

Lemma same_life_Release r s : same_life s (Release r s).
Proof.
  unfold Release. destruct r as [r|]; [|done]. destruct (reservations s !! r) as [[c|]|]; [|done..].
  apply (same_life_call c s).
Qed.

Lemma life_set_op o op op' s :
  life_inv s → heap s !! o = Some op → op_ID op' = op_ID op → op_ok o op' (events s) →
  life_inv (set_op o op' s).
Proof.
  intros [H1 H2 H3] Ho Hid Hok. split; simpl.
  - intros o' op''. rewrite lookup_insert. case_decide; [|auto]. intros [= <-]. by subst.
  - intros o' e. rewrite lookup_insert. case_decide; [done|auto].
  - intros id o' Hm. destruct (H3 _ _ Hm) as (x & Hx & Hxid). rewrite lookup_insert.
    case_decide; [|eauto]. subst o'. exists op'. split; [done|congruence].
Qed.

Lemma op_ok_emit o op evs e : is_audit o e = false → op_ok o op evs → op_ok o op (evs ++ [e]).
Proof. intros He []. split; try done. by rewrite count_ev_snoc, He, Nat.add_0_r. Qed.

Lemma life_emit s e : (∀ o, is_audit o e = false) → life_inv s → life_inv (emit e s).
Proof.
  intros He [H1 H2 H3]. split; simpl; [|intros o e' Ho [?| ->%list_elem_of_singleton]%elem_of_app; eauto|done].
  intros o op Ho. apply op_ok_emit; auto.
Qed.

Lemma with_capacityRelease_id op : op_capacityRelease op = None → with_capacityRelease None op = op.
Proof. destruct op. simpl. by intros ->. Qed.

(** What the winning terminal transition leaves behind. *)
Lemma complete_spec o op' s :
  let s' := finish o (releaseCapacity o (set_op o op' s)) in
  heap s' = <[o := with_done chan_closed (with_capacityRelease None op')]> (heap s) ∧
  ops s' = ops s ∧
  events s' = events s ++ [EvFinishAudit o (default "" (op_ResultCode op'))].
Proof.
  assert (Hrel : heap (releaseCapacity o (set_op o op' s)) = <[o := with_capacityRelease None op']> (heap s) ∧
    ops (releaseCapacity o (set_op o op' s)) = ops s ∧
    events (releaseCapacity o (set_op o op' s)) = events s).
  { unfold releaseCapacity. simpl. rewrite lookup_insert_eq.
    destruct (op_capacityRelease op') as [c|] eqn:Hc.
    - destruct (same_life_call c (set_op o op' s)) as (Eh & Eo & Ee). simpl. rewrite Eh, Eo, Ee. simpl.
      by rewrite insert_insert_eq.
    - simpl. by rewrite with_capacityRelease_id. }
  destruct Hrel as (Eh & Eo & Ee). unfold finish. rewrite Eh, lookup_insert_eq. simpl.
  by rewrite Eh, Eo, Ee, insert_insert_eq.
Qed.

Lemma life_complete o op op' s :
  life_inv s → heap s !! o = Some op → op_CompletedAt op = None →
  op_ID op' = op_ID op → is_Some (op_CompletedAt op') → is_Some (op_ResultCode op') →
  op_State op' ≠ operationRunning → op_terminated op' = op_terminated op →
  op_started op' = op_started op → op_process op' = op_process op →
  life_inv (finish o (releaseCapacity o (set_op o op' s))).
Proof.
  intros [H1 H2 H3] Ho Hct Hid Hct' Hrc Hst Eterm Est Epr.
  destruct (complete_spec o op' s) as (Eh & Eo & Ee).
  set (s' := finish _ _) in *. pose proof (H1 _ _ Ho) as Hok. split.
  - intros o' op''. rewrite Eh, Ee, lookup_insert. case_decide as E.
    + subst o'. intros [= <-]. split; simpl.
      * split; [done|]. intros E. rewrite E in Hct'. by destruct Hct'.
      * done.
      * done.
      * rewrite count_ev_snoc. simpl. rewrite bool_decide_eq_true_2 by done.
        rewrite (ok_audit _ _ _ Hok), Hct. by destruct Hct' as [? ->].
      * rewrite Eterm, Est. apply Hok.
      * rewrite Est, Epr. apply Hok.
    + intros Ho'. apply op_ok_emit; [simpl; by rewrite bool_decide_eq_false_2|auto].
  - intros o' e. rewrite Eh, Ee, lookup_insert. case_decide; [done|].
    intros Ho' [?| ->%list_elem_of_singleton]%elem_of_app; [eauto|]. simpl. by rewrite bool_decide_eq_false_2.
  - rewrite Eo, Eh. intros id o' Hm. destruct (H3 _ _ Hm) as (x & Hx & Hxid).
    rewrite lookup_insert. case_decide; [|eauto]. subst o'. eexists. split; [done|]. simpl. congruence.
Qed.

(** Updates that keep the completion facts keep [op_ok]. *)
Lemma op_ok_update o op op' evs :
  op_ok o op evs → op_State op' = op_State op → op_CompletedAt op' = op_CompletedAt op →
  op_done op' = op_done op → op_ResultCode op' = op_ResultCode op →
  (op_terminated op' = true → op_started op' = false) →
  (op_started op' = false → op_process op' = false) → op_ok o op' evs.
Proof. intros [] E1 E2 E3 E4 H1 H2. split; rewrite ?E1, ?E2, ?E3, ?E4; auto. Qed.

Lemma life_update o op op' s :
  life_inv s → heap s !! o = Some op → op_ID op' = op_ID op →
  op_State op' = op_State op → op_CompletedAt op' = op_CompletedAt op →
  op_done op' = op_done op → op_ResultCode op' = op_ResultCode op →
  (op_terminated op' = true → op_started op' = false) →
  (op_started op' = false → op_process op' = false) → life_inv (set_op o op' s).
Proof.
  intros Hi Ho Hid E1 E2 E3 E4 H1 H2. eapply life_set_op; [done..|].
  eapply op_ok_update; [by apply (li_ops _ Hi)|done..].
Qed.

Lemma life_transfer o r s : life_inv s → life_inv (transfer o r s).
Proof.
  intros Hi. unfold transfer. destruct r as [r|]; [|done].
  destruct (reservations s !! r) as [[c|]|]; [|done..]. destruct (heap s !! o) as [op|] eqn:Ho; [|done].
  eapply (life_same (set_op o (with_capacityRelease (Some c) op) s)); [done|].
  pose proof (li_ops _ Hi _ _ Ho). eapply life_update; [done..|apply H|apply H].
Qed.

Lemma life_step s s' : life_inv s → step s s' → life_inv s'.
Proof.
  intros Hi Hs. pose proof (li_ops _ Hi) as Hops.
  destruct Hs as [sid lid kind|sid b|r|o kind id sid lid now cid Ho|o op r Ho Hct Hcap|o op r Ho Hct Hcap
    |o|o ok now|o d now|o rc ex d now|o reason _|o dl|o kc cid'|o _| |lid|lid b].
  - eapply life_same; [|exact Hi]. unfold reserve. destruct (shutting s); [done|]. destruct (default false _); [done|].
    pose proof (same_life_reserve sid (bool_decide (kind = operationKindBuild)) s) as H.
    by destruct (reserveCapacityLocked _ _ s) as [[r|] s'].
  - eapply life_same; [|exact Hi]. unfold reserveCapacity. pose proof (same_life_reserve sid b s) as H.
    by destruct (reserveCapacityLocked _ _ s) as [r s'].
  - eapply life_same; [apply same_life_Release|done].
  - destruct Hi as [H1 H2 H3]. split; simpl.
    + intros o' op. rewrite lookup_insert. case_decide; [|auto]. subst o'. intros [= <-].
      split; simpl; try (by split); try (split; [done|by intros []]); [done|].
      apply count_ev_none. intros e. by apply H2.
    + intros o' e. rewrite lookup_insert. case_decide; [done|auto].
    + intros id' o' Hm. destruct (H3 _ _ Hm) as (x & Hx & ?). rewrite lookup_insert.
      case_decide; [congruence|eauto].
  - by apply life_transfer.
  - unfold admitReserved. rewrite Ho. destruct (shutting s); [done|]. destruct (default false _); [done|].
    simpl. apply life_transfer. destruct Hi as [H1 H2 H3]. split; simpl; [done..|].
    intros id o'. rewrite lookup_insert. case_decide; [|apply H3]. intros [= <-]. eauto.
  - unfold releaseCapacity. destruct (heap s !! o) as [op|] eqn:Ho; [|done].
    destruct (op_capacityRelease op) as [c|]; [|done].
    destruct (same_life_call c s) as (Eh & Eo & Ee).
    pose proof (Hops _ _ Ho). eapply life_update; [by eapply life_same; [apply same_life_call|]|by rewrite Eh|done..|apply H|apply H].
  - unfold startOperationProcess. destruct (heap s !! o) as [op|] eqn:Ho; [|done].
    destruct (op_terminated op) eqn:Et; [done|].
    assert (life_inv (set_op o (with_start now ok op) s)) as H
      by (eapply life_update; [done..|simpl; congruence|done]).
    destruct ok; [by apply life_emit|done].
  - unfold succeed. destruct (heap s !! o) as [op|] eqn:Ho; [|done].
    destruct (op_CompletedAt op) eqn:Hct; [done|]. simpl. eapply life_complete; try done.
    simpl. by destruct (op_ResultCode op).
  - unfold fail_op. destruct (heap s !! o) as [op|] eqn:Ho; [|done].
    destruct (op_CompletedAt op) eqn:Hct; [done|]. simpl. eapply life_complete; try done.
    simpl. by destruct (op_ResultCode op).
  - unfold mark_op. destruct (heap s !! o) as [op|] eqn:Ho; [|done]. pose proof (Hops _ _ Ho) as Hok.
    destruct (op_started op) eqn:Est; simpl.
    + assert (∀ r, life_inv (set_op o (with_mark r (op_terminated op) op) s)) as H.
      { intros r. eapply life_update; [done..| |]; simpl; [apply Hok|congruence]. }
      destruct (op_process op); [by apply life_emit|done].
    + eapply life_update; [done..| |]; simpl; [done|apply Hok].
  - unfold forceClaim. destruct (heap s !! o) as [op|] eqn:Ho; [|done].
    destruct (op_forceOwned op); [done|]. destruct (op_CompletedAt op) eqn:E; [done|].
    pose proof (Hops _ _ Ho). eapply life_update; [done..|apply H|apply H].
  - unfold forceKill. destruct (heap s !! o) as [op|] eqn:Ho; [|done]. pose proof (Hops _ _ Ho) as Hok.
    eapply life_update; [|by rewrite kill_signals_heap|done..|apply Hok|apply Hok].
    apply kill_signals_ind; [|done]. intros ? e [[c ->]| ->] ?; by apply life_emit.
  - unfold prune_remove. destruct (heap s !! o) as [op|]; [|done]. case_bool_decide; [|done].
    destruct Hi as [H1 H2 H3]. split; simpl; [done..|]. intros id o'. rewrite lookup_delete.
    case_decide; [done|apply H3].
  - by apply (life_same s).
  - by apply (life_same s).
  - unfold setQuiesced. destruct b; by apply (life_same s).
Qed.

Lemma reachable_life s : reachable s → life_inv s.
Proof. apply reachable_inv; [apply life_inv_init|]. intros ????. by apply life_step. Qed.

(** ** What every step keeps of an operation *)

Record op_le (op op' : operation) : Prop := {
  le_id : op_ID op' = op_ID op ∧ op_SessionID op' = op_SessionID op ∧
    op_LauncherID op' = op_LauncherID op ∧ op_Kind op' = op_Kind op;
  le_terminated : op_terminated op = true → op_terminated op' = true;
  le_reason : op_reason op ≠ terminationNone → op_reason op' = op_reason op;
  le_forceOwned : op_forceOwned op = true → op_forceOwned op' = true;
  le_terminal : is_Some (op_CompletedAt op) →
    op_CompletedAt op' = op_CompletedAt op ∧ op_State op' = op_State op ∧
    op_ResultCode op' = op_ResultCode op ∧ op_ExitCode op' = op_ExitCode op ∧
    op_Duration op' = op_Duration op;
}.

#[export] Instance op_le_preorder : PreOrder op_le.
Proof.
  split; [by intros op; split|].
  intros a b c [(I1 & I2 & I3 & I4) T1 R1 F1 C1] [(J1 & J2 & J3 & J4) T2 R2 F2 C2]. split.
  - split_and!; congruence.
  - auto.
  - intros H. rewrite R2; [by apply R1|]. by rewrite R1.
  - auto.
  - intros H. destruct (C1 H) as (E1 & E2 & E3 & E4 & E5).
    destruct C2 as (G1 & G2 & G3 & G4 & G5); [by rewrite E1|]. split_and!; congruence.
Qed.

Definition heap_le (s s' : sup) : Prop :=
  ∀ o op, heap s !! o = Some op → ∃ op', heap s' !! o = Some op' ∧ op_le op op'.

#[export] Instance heap_le_preorder : PreOrder heap_le.
Proof.
  split; [intros s o op Ho; by exists op|].
  intros a b c H1 H2 o op Ho. destruct (H1 _ _ Ho) as (op' & Ho' & L1).
  destruct (H2 _ _ Ho') as (op'' & Ho'' & L2). exists op''. split; [done|by etrans].
Qed.

Lemma heap_le_same s s' : heap s' = heap s → heap_le s s'.
Proof. intros E o op Ho. rewrite E. by exists op. Qed.

Lemma heap_le_insert s s' o op op' :
  heap s !! o = Some op → heap s' = <[o := op']> (heap s) → op_le op op' → heap_le s s'.
Proof.
  intros Ho E Hle o' x Hx. rewrite E, lookup_insert. case_decide; [|by exists x].
  subst o'. exists op'. split; [done|]. congruence.
Qed.

Lemma heap_call c s : heap (call_release c s) = heap s.
Proof. apply same_life_call. Qed.

Lemma heap_le_transfer o r s : heap_le s (transfer o r s).
Proof.
  unfold transfer. destruct r as [r|]; [|done]. destruct (reservations s !! r) as [[c|]|]; [|done..].
  destruct (heap s !! o) as [op|] eqn:Ho; [|done]. by eapply heap_le_insert.
Qed.

Lemma heap_le_complete o op op' s :
  heap s !! o = Some op → op_le op (with_done chan_closed (with_capacityRelease None op')) →
  heap_le s (finish o (releaseCapacity o (set_op o op' s))).
Proof. intros Ho Hle. eapply heap_le_insert; [exact Ho|apply complete_spec|exact Hle]. Qed.

Lemma heap_le_mark o reason s :
  heap_le s (mark_op reason o s).
Proof.
  unfold mark_op. destruct (heap s !! o) as [op|] eqn:Ho; [|done].
  assert (∀ b, (op_terminated op = true → b = true) → op_le op (with_mark
    (if bool_decide (op_reason op = terminationNone) then reason else op_reason op) b op)) as Hle.
  { intros b Hb. split; simpl; try done. intros ?. by rewrite bool_decide_eq_false_2. }
  destruct (op_started op); simpl; [|by eapply heap_le_insert; [..|apply Hle]].
  destruct (op_process op); by eapply heap_le_insert; [..|apply Hle].
Qed.

Lemma heap_le_step s s' : step s s' → heap_le s s'.
Proof.
  intros Hs.
  destruct Hs as [sid lid kind|sid b|r|o kind id sid lid now cid Ho|o op r Ho Hct Hcap|o op r Ho Hct Hcap
    |o|o ok now|o d now|o rc ex d now|o reason _|o dl|o kc cid'|o _| |lid|lid b].
  - apply heap_le_same. unfold reserve, reserveCapacityLocked. by repeat case_match; simplify_eq.
  - apply heap_le_same. unfold reserveCapacity, reserveCapacityLocked. by repeat case_match; simplify_eq.
  - apply heap_le_same. apply same_life_Release.
  - intros o' op Ho'. exists op. split; [|done]. simpl. by rewrite lookup_insert_ne by congruence.
  - apply heap_le_transfer.
  - unfold admitReserved. rewrite Ho. destruct (shutting s); [done|]. destruct (default false _); [done|].
    simpl. etrans; [|apply heap_le_transfer]. by apply heap_le_same.
  - unfold releaseCapacity. destruct (heap s !! o) as [op|] eqn:Ho; [|done].
    destruct (op_capacityRelease op) as [c|]; [|done].
    eapply heap_le_insert; [exact Ho|simpl; by rewrite heap_call|done].
  - unfold startOperationProcess. destruct (heap s !! o) as [op|] eqn:Ho; [|done].
    destruct (op_terminated op) eqn:E; [done|]. destruct ok; (eapply heap_le_insert; [exact Ho|reflexivity|]);
      by split; simpl; rewrite ?E.
  - unfold succeed. destruct (heap s !! o) as [op|] eqn:Ho; [|done].
    destruct (op_CompletedAt op) eqn:Hct; [done|]. simpl. eapply heap_le_complete; [done|].
    split; simpl; try done. rewrite Hct. by intros [].
  - unfold fail_op. destruct (heap s !! o) as [op|] eqn:Ho; [|done].
    destruct (op_CompletedAt op) eqn:Hct; [done|]. simpl. eapply heap_le_complete; [done|].
    split; simpl; try done. rewrite Hct. by intros [].
  - apply heap_le_mark.
  - unfold forceClaim. destruct (heap s !! o) as [op|] eqn:Ho; [|done].
    destruct (op_forceOwned op) eqn:E; [done|]. destruct (op_CompletedAt op) eqn:E'; [done|].
    eapply heap_le_insert; [done..|]. by split.
  - unfold forceKill. destruct (heap s !! o) as [op|] eqn:Ho; [|done].
    eapply heap_le_insert; [exact Ho|simpl; by rewrite kill_signals_heap|by split].
  - unfold prune_remove. destruct (heap s !! o) as [op|]; [|done].
    case_bool_decide; [by apply heap_le_same|done].
  - by apply heap_le_same.
  - by apply heap_le_same.
  - unfold setQuiesced. destruct b; by apply heap_le_same.
Qed.

Lemma heap_le_steps s s' : rtc step s s' → heap_le s s'.
Proof. induction 1; [done|]. etrans; [by eapply heap_le_step|done]. Qed.

(** ** What every step keeps of the registry under shutdown, and of the starts *)

Lemma ops_transfer o r s : ops (transfer o r s) = ops s ∧ shutting (transfer o r s) = shutting s ∧
  events (transfer o r s) = events s.
Proof. unfold transfer. by repeat case_match. Qed.

Lemma call_release_shutting c s : shutting (call_release c s) = shutting s.
Proof. unfold call_release. by repeat case_match. Qed.

Lemma complete_shutting o s : shutting (finish o (releaseCapacity o s)) = shutting s.
Proof.
  unfold finish, releaseCapacity. repeat case_match; simpl; by rewrite ?call_release_shutting.
Qed.

Lemma shutting_step s s' : step s s' → shutting s = true → shutting s' = true ∧ ops s' ⊆ ops s.
Proof.
  intros Hs Hsh.
  destruct Hs as [sid lid kind|sid b|r|o kind id sid lid now cid Ho|o op r Ho Hct Hcap|o op r Ho Hct Hcap
    |o|o ok now|o d now|o rc ex d now|o reason _|o dl|o kc cid'|o _| |lid|lid b].
  - unfold reserve. by rewrite Hsh.
  - unfold reserveCapacity, reserveCapacityLocked. by repeat case_match; simplify_eq.
  - unfold Release. repeat case_match; simpl; try done. rewrite call_release_shutting.
    split; [done|]. by destruct (same_life_call c s) as (_ & -> & _).
  - done.
  - destruct (ops_transfer o r s) as (-> & -> & _). done.
  - unfold admitReserved. by rewrite Ho, Hsh.
  - unfold releaseCapacity. repeat case_match; simpl; try done. rewrite call_release_shutting.
    split; [done|]. by destruct (same_life_call c s) as (_ & -> & _).
  - unfold startOperationProcess. by repeat case_match.
  - unfold succeed. destruct (heap s !! o) as [op|]; [|done]. destruct (op_CompletedAt op); [done|].
    simpl. rewrite complete_shutting. split; [done|]. by rewrite (proj1 (proj2 (complete_spec _ _ _))).
  - unfold fail_op. destruct (heap s !! o) as [op|]; [|done]. destruct (op_CompletedAt op); [done|].
    simpl. rewrite complete_shutting. split; [done|]. by rewrite (proj1 (proj2 (complete_spec _ _ _))).
  - unfold mark_op. by repeat case_match.
  - unfold forceClaim. by repeat case_match.
  - unfold forceKill. destruct (heap s !! o); [|done]. simpl.
    apply (kill_signals_ind (λ x, shutting x = true ∧ ops x ⊆ ops s)); [|done]. by intros ? e [[c ->]| ->].
  - unfold prune_remove. repeat case_match; simpl; try done. split; [done|apply delete_subseteq].
  - done.
  - done.
  - unfold setQuiesced. by destruct b.
Qed.

Lemma starts_step s s' o op :
  step s s' → heap s !! o = Some op → op_terminated op = true →
  count_ev (is_start o) (events s') = count_ev (is_start o) (events s).
Proof.
  intros Hs Ho Ht.
  assert (∀ e l1 l2, l2 = l1 ++ [e] → is_start o e = false →
    count_ev (is_start o) l2 = count_ev (is_start o) l1) as Hemit.
  { intros e s1 s2 -> He. rewrite count_ev_snoc, He. lia. }
  destruct Hs as [sid lid kind|sid b|r|o' kind id sid lid now cid Ho'|o' op' r Ho' Hct Hcap|o' op' r Ho' Hct Hcap
    |o'|o' ok now|o' d now|o' rc ex d now|o' reason _|o' dl|o' kc cid'|o' _| |lid|lid b].
  - unfold reserve, reserveCapacityLocked. by repeat case_match; simplify_eq.
  - unfold reserveCapacity, reserveCapacityLocked. by repeat case_match; simplify_eq.
  - by destruct (same_life_Release r s) as (_ & _ & ->).
  - done.
  - by destruct (ops_transfer o' r s) as (_ & _ & ->).
  - unfold admitReserved. rewrite Ho'. destruct (shutting s); [done|]. destruct (default false _); [done|].
    simpl. by rewrite (proj2 (proj2 (ops_transfer _ _ _))).
  - unfold releaseCapacity. repeat case_match; simpl; try done. f_equal. apply same_life_call.
  - unfold startOperationProcess. destruct (heap s !! o') as [op'|] eqn:Ho'; [|done].
    destruct (op_terminated op') eqn:E; [done|]. destruct ok; [|done].
    eapply Hemit; [done|]. simpl. rewrite bool_decide_eq_false_2; [done|congruence].
  - unfold succeed. destruct (heap s !! o') as [op'|]; [|done]. destruct (op_CompletedAt op'); [done|].
    simpl. eapply Hemit; [apply complete_spec|done].
  - unfold fail_op. destruct (heap s !! o') as [op'|]; [|done]. destruct (op_CompletedAt op'); [done|].
    simpl. eapply Hemit; [apply complete_spec|done].
  - unfold mark_op. repeat case_match; simpl; try done; by eapply Hemit.
  - unfold forceClaim. by repeat case_match.
  - unfold forceKill. destruct (heap s !! o'); [|done]. simpl.
    apply (kill_signals_ind (λ x, count_ev (is_start o) (events x) = _)); [|done].
    intros ? e He <-. eapply Hemit; [done|]. by destruct He as [[c ->]| ->].
  - unfold prune_remove. by repeat case_match.
  - done.
  - done.
  - unfold setQuiesced. by destruct b.
Qed.

(** ** Pruning *)

Lemma prune_remove_lookup s o id o' :
  life_inv s →
  ops (prune_remove s o) !! id = Some o' ↔ ops s !! id = Some o' ∧ o' ≠ o.
Proof.
  intros [_ _ H3]. unfold prune_remove.
  assert (Hne : (∀ id, ops s !! id ≠ Some o) →
    ops s !! id = Some o' ↔ ops s !! id = Some o' ∧ o' ≠ o).
  { intros Hn. split; [|by intros [? _]]. intros Hm. split; [done|]. intros ->. by apply (Hn id). }
  destruct (heap s !! o) as [op|] eqn:Ho.
  - case_bool_decide as Hb; simpl.
    + rewrite lookup_delete_Some. split.
      * intros [Hid Hm]. split; [done|]. intros ->. destruct (H3 _ _ Hm) as (x & Hx & ?). congruence.
      * intros [Hm Hne']. split; [|done]. intros <-. congruence.
    + apply Hne. intros id' Hm. destruct (H3 _ _ Hm) as (x & Hx & Hid). apply Hb. congruence.
  - apply Hne. intros id' Hm. destruct (H3 _ _ Hm) as (x & Hx & _). congruence.
Qed.

Lemma prune_remove_heap s o : heap (prune_remove s o) = heap s ∧ events (prune_remove s o) = events s.
Proof. unfold prune_remove. by repeat case_match. Qed.

Lemma prune_remove_life s o : life_inv s → life_inv (prune_remove s o).
Proof.
  intros Hi. destruct (prune_remove_heap s o) as [Eh Ee]. pose proof Hi as [H1 H2 H3].
  split; rewrite Eh, ?Ee; [done..|]. intros id o' Hm.
  apply prune_remove_lookup in Hm as [Hm _]; [|done]. by apply H3.
Qed.

Lemma prune_fold_lookup vs s :
  life_inv s →
  heap (foldl prune_remove s vs) = heap s ∧
  ∀ id o, ops (foldl prune_remove s vs) !! id = Some o ↔ ops s !! id = Some o ∧ o ∉ vs.
Proof.
  revert s. induction vs as [|v vs IH]; intros s Hi; simpl.
  - split; [done|]. intros id o. split; [by intros; split; [|apply not_elem_of_nil]|by intros [? _]].
  - destruct (IH _ (prune_remove_life s v Hi)) as [Eh El]. split.
    + rewrite Eh. apply prune_remove_heap.
    + intros id o. rewrite El, prune_remove_lookup, not_elem_of_cons by done. naive_solver.
Qed.

Lemma prune_fold_life vs s : life_inv s → life_inv (foldl prune_remove s vs).
Proof. revert s. induction vs; intros s Hi; simpl; auto using prune_remove_life. Qed.

Lemma op_list_elem s o : o ∈ op_list s ↔ ∃ id, ops s !! id = Some o.
Proof.
  unfold op_list. rewrite list_elem_of_fmap. split.
  - intros ([id o'] & -> & Hin). exists id. by apply elem_of_map_to_list in Hin.
  - intros [id Hid]. exists (id, o). split; [done|]. by apply elem_of_map_to_list.
Qed.

Lemma op_list_nodup s : life_inv s → NoDup (op_list s).
Proof.
  intros [_ _ H3]. unfold op_list. apply NoDup_fmap_2_strong; [|apply NoDup_map_to_list].
  intros [id o] [id' o'] Hin Hin' E. simpl in E. subst o'.
  apply elem_of_map_to_list in Hin, Hin'.
  destruct (H3 _ _ Hin) as (x & Hx & ?), (H3 _ _ Hin') as (y & Hy & ?). congruence.
Qed.

Lemma completed_elem s o t :
  (o, t) ∈ completed_ops s ↔
  ∃ id op, ops s !! id = Some o ∧ heap s !! o = Some op ∧ op_State op ≠ operationRunning ∧
    op_CompletedAt op = Some t.
Proof.
  unfold completed_ops. rewrite list_elem_of_omap. split.
  - intros (o' & Hin & Hm). apply op_list_elem in Hin as [id Hid].
    destruct (heap s !! o') as [op|] eqn:Ho; [|done]. case_bool_decide as Hst; [|done].
    destruct (op_CompletedAt op) eqn:Hct; [|done]. simplify_eq/=. naive_solver.
  - intros (id & op & Hid & Ho & Hst & Hct). exists o. split; [apply op_list_elem; eauto|].
    rewrite Ho, bool_decide_eq_true_2 by done. by rewrite Hct.
Qed.

Lemma completed_nodup s : life_inv s → NoDup (completed_ops s).
Proof.
  intros Hi. unfold completed_ops. generalize (op_list_nodup s Hi). generalize (op_list s).
  intros l Hl. set (f := λ o : op_ref, _).
  assert (Hfst : ∀ x p, f x = Some p → p.1 = x).
  { intros x q. unfold f. destruct (heap s !! x) as [op|]; [|done]. case_bool_decide; [|done].
    destruct (op_CompletedAt op); [by intros [= <-]|done]. }
  clearbody f. induction Hl as [|o l Hnin Hnd IH]; simpl; [constructor|].
  destruct (f o) as [p|] eqn:Ef; [|done]. constructor; [|done].
  rewrite list_elem_of_omap. intros (o' & Hin & Ef').
  apply Hfst in Ef, Ef'. congruence.
Qed.

Lemma completed_fst s o t t' : (o, t) ∈ completed_ops s → (o, t') ∈ completed_ops s → t = t'.
Proof. rewrite !completed_elem. naive_solver. Qed.

#[export] Instance older_total : Total older.
Proof. intros a b. unfold older. lia. Qed.
#[export] Instance older_trans : Transitive older.
Proof. intros a b c. unfold older. lia. Qed.

Lemma surplus_split (maxC : nat) (l : list (op_ref * Z)) :
  let surplus := if decide (maxC < length l)%nat
                 then take (length l - maxC) (merge_sort older l) else [] in
  ∃ rest, surplus ++ rest ≡ₚ l ∧ (length rest ≤ maxC)%nat ∧
    ∀ a b, a ∈ surplus → b ∈ rest → older a b.
Proof.
  simpl. case_decide as Hlen.
  - pose proof (merge_sort_Permutation older l) as Hp.
    exists (drop (length l - maxC) (merge_sort older l)). rewrite take_drop. split_and!; [done| |].
    + rewrite length_drop. rewrite Hp. lia.
    + pose proof (StronglySorted_merge_sort older l) as Hs.
      rewrite <-(take_drop (length l - maxC) (merge_sort older l)) in Hs.
      intros a b Ha Hb. by eapply StronglySorted_app_1_elem_of.
  - exists l. split_and!; [done|lia|]. intros a b []%not_elem_of_nil.
Qed.

Lemma prune_victims_spec (now ttl : Z) (maxC : nat) (l : list (op_ref * Z)) :
  NoDup l → (∀ o t t', (o, t) ∈ l → (o, t') ∈ l → t = t') →
  ∃ rest, (length rest ≤ maxC)%nat ∧
    (∀ o t, (o, t) ∈ rest ↔ (o, t) ∈ l ∧ o ∉ prune_victims now ttl maxC l) ∧
    (∀ o t, (o, t) ∈ rest → now - t <= ttl) ∧
    (∀ o t o' t', (o, t) ∈ l → now - t <= ttl → o ∈ prune_victims now ttl maxC l →
      (o', t') ∈ rest → t <= t').
Proof.
  intros Hnd Hfst. unfold prune_victims.
  set (nonE := filter (λ c : op_ref * Z, ¬ _) l). set (exp := filter (λ c : op_ref * Z, now - c.2 > ttl) l).
  destruct (surplus_split maxC nonE) as (rest & Hp & Hlen & Hold).
  set (surplus := if decide _ then _ else _) in *.
  assert (Hne : ∀ x, x ∈ surplus ++ rest ↔ ¬ (now - x.2 > ttl) ∧ x ∈ l).
  { intros x. rewrite Hp. unfold nonE. by rewrite list_elem_of_filter. }
  assert (Hvict : ∀ o, o ∈ exp.*1 ++ surplus.*1 ↔ ∃ t, (o, t) ∈ l ∧ (now - t > ttl ∨ (o, t) ∈ surplus)).
  { intros o. rewrite elem_of_app, !list_elem_of_fmap. split.
    - intros [([o' t] & -> & [Ht Hl]%list_elem_of_filter)|([o' t] & -> & Hs)]; exists t; [by auto|].
      split; [|by right]. apply (Hne (o', t)). apply elem_of_app. by left.
    - intros (t & Hl & [Ht|Hs]); [left|right]; exists (o, t); [|done].
      split; [done|]. by apply list_elem_of_filter. }
  assert (Hdisj : NoDup (surplus ++ rest)) by (rewrite Hp; by apply NoDup_filter).
  exists rest. split_and!; [done|..].
  - intros o t. split.
    + intros Hr. assert (Hl : ¬ (now - t > ttl) ∧ (o, t) ∈ l) by (apply (Hne (o, t)), elem_of_app; by right).
      split; [apply Hl|]. rewrite Hvict. intros (t' & Hl' & Hor).
      assert (t' = t) as -> by (eapply Hfst; [done|apply Hl]). destruct Hor as [?|Hs]; [by apply Hl|].
      apply NoDup_app in Hdisj as (_ & Hd & _). by apply (Hd _ Hs).
    + intros [Hl Hv]. destruct (decide (now - t > ttl)) as [?|Hn]; [exfalso; apply Hv, Hvict; eauto|].
      pose proof (proj2 (Hne (o, t)) (conj Hn Hl)) as Hin. apply elem_of_app in Hin as [Hs|]; [|done].
      exfalso. apply Hv, Hvict. eauto.
  - intros o t Hr. assert (¬ (now - t > ttl) ∧ (o, t) ∈ l) as [? _]
      by (apply (Hne (o, t)), elem_of_app; by right). lia.
  - intros o t o' t' Hl Ht Hv Hr. apply Hvict in Hv as (t2 & Hl2 & Hor).
    assert (t2 = t) as -> by eauto. destruct Hor as [?|Hs]; [lia|]. apply (Hold _ _ Hs Hr).
Qed.
