(* ===== verification/OperationSpec.v ===== *)
(** * OperationSpec: what the operation supervisor guarantees

    Capacity: the counters are exact and within the ceilings, every admitted
    slot has one owner and comes back.  Lifecycle: the terminal transition
    happens once, releases the slot, closes [done] and audits once; a
    terminated operation never starts; shutdown closes the registry.
    Retention: what pruning removes and keeps. *)
From S2P Require Import Prelude Operation OperationTheory.
Local Open Scope Z_scope.

(** ** Capacity *)

(** C38. In every reachable state the three counters count the live release
    closures exactly, stay within the ceilings, and every live closure has
    exactly one holder, a reservation or an operation that is still running. *)
Theorem capacity_exact (s : sup) (Hr : reachable s) :
  globalRunning s = live_count any_closure (closures s) ∧
  globalBuildCount s = live_count cl_build (closures s) ∧
  (∀ sid, session_count s sid = live_count (of_session sid) (closures s)) ∧
  globalRunning s <= 8 ∧ globalBuildCount s <= 2 ∧ (∀ sid, session_count s sid <= 4) ∧
  (∀ c cl, closures s !! c = Some cl → cl_released cl = false →
     ∃ h, holder_of s h = Some c ∧ ∀ h', holder_of s h' = Some c → h' = h) ∧
  (∀ o op, heap s !! o = Some op → is_Some (op_capacityRelease op) → op_State op = operationRunning).
Proof.
  pose proof (reachable_capacity s Hr) as Hi. pose proof (reachable_life s Hr) as Hl.
  destruct (ci_bounds _ Hi) as (B1 & B2 & B3). destruct (ci_max _ Hi) as (M1 & M2 & M3).
  rewrite M2 in B1. rewrite M3 in B2. setoid_rewrite M1 in B3.
  split_and!; try apply Hi; try done.
  - intros c cl Hc Hrel. destruct (ci_holder _ Hi _ _ Hc Hrel) as [h Hh]. exists h. split; [done|].
    intros h' Hh'. by eapply (ci_unique _ Hi).
  - intros o op Ho [c Hc]. apply (ok_state _ _ _ (li_ops _ Hl _ _ Ho)).
    destruct (op_CompletedAt op) eqn:E; [|done]. by rewrite (ci_terminal _ Hi _ _ _ Ho E) in Hc.
Qed.

Definition one_reserved : sup := (reserve "s1" "l1" operationKindBuild newOperationSupervisor).2.

Lemma capacity_exact_witness : globalRunning one_reserved = 1 ∧ globalBuildCount one_reserved <= 2.
Proof.
  assert (Hr : reachable one_reserved) by (eapply rtc_l; [apply step_reserve|apply rtc_refl]).
  split; [vm_compute; reflexivity|apply (capacity_exact one_reserved Hr)].
Defined.

(** The admission decision, branch by branch: shutdown first, then the
    Launcher's quiesce, then the global, Session and build ceilings; a refusal
    changes nothing and an acceptance charges exactly one slot. *)
Theorem reserve_decision (sid lid kind : string) (s : sup) :
  let build := bool_decide (kind = operationKindBuild) in
  let full := (maxGlobal s <=? globalRunning s) || (maxPerSession s <=? session_count s sid)
              || (build && (maxGlobalBuilds s <=? globalBuildCount s)) in
  let '(res, decision, s') := reserve sid lid kind s in
  decision = (if shutting s then admissionRefusedShutdown
              else if default false (quiesced s !! lid) then admissionRefusedQuiesced
              else if full then admissionRefusedCapacity else admissionAccepted) ∧
  (is_Some res ↔ decision = admissionAccepted) ∧
  (decision ≠ admissionAccepted → s' = s) ∧
  (decision = admissionAccepted →
     globalRunning s' = globalRunning s + 1 ∧
     globalBuildCount s' = globalBuildCount s + (if build then 1 else 0) ∧
     (∀ sid', session_count s' sid' = session_count s sid' + if decide (sid = sid') then 1 else 0) ∧
     ops s' = ops s ∧ heap s' = heap s ∧ events s' = events s).
Proof.
  simpl. unfold reserve. destruct (shutting s).
  { by split_and!. }
  destruct (default false (quiesced s !! lid)).
  { by split_and!. }
  unfold reserveCapacityLocked. set (b := bool_decide (kind = operationKindBuild)).
  destruct (maxGlobal s <=? globalRunning s); simpl.
  { by split_and!. }
  destruct (maxPerSession s <=? session_count s sid); simpl.
  { by split_and!. }
  destruct (b && (maxGlobalBuilds s <=? globalBuildCount s)); simpl.
  { by split_and!. }
  split_and!; [done|split; eauto|done|]. intros _. split_and!; try done.
  intros sid'. rewrite <-(session_count_add s sid sid' b). done.
Qed.

(** A reservation that is released leaves the counters as they were: the
    slot returns to the global, Session and build count alike, and releasing
    it a second time changes nothing. *)
Theorem reserve_release_roundtrip (sid lid kind : string) (s s' : sup) (r : reservation_ref)
    (Hr : reachable s) (Hres : reserve sid lid kind s = (Some r, admissionAccepted, s')) :
  let s'' := Release (Some r) s' in
  globalRunning s'' = globalRunning s ∧ globalBuildCount s'' = globalBuildCount s ∧
  sessionRunning s'' = sessionRunning s ∧ Release (Some r) s'' = s''.
Proof.
  pose proof (reachable_capacity s Hr) as Hi.
  unfold reserve in Hres. destruct (shutting s); [done|]. destruct (default false _); [done|].
  unfold reserveCapacityLocked in Hres. set (b := bool_decide (kind = operationKindBuild)) in *.
  destruct (maxGlobal s <=? globalRunning s); [done|].
  destruct (maxPerSession s <=? session_count s sid); [done|].
  destruct (b && (maxGlobalBuilds s <=? globalBuildCount s)); [done|].
  injection Hres as <- <-. simpl. rewrite !lookup_insert_eq. simpl.
  unfold call_release. simpl. rewrite !lookup_insert_eq. simpl.
  assert (0 <= globalRunning s) as Hg by (rewrite (ci_global _ Hi); apply live_nonneg).
  assert (0 <= globalBuildCount s) as Hb by (rewrite (ci_builds _ Hi); apply live_nonneg).
  assert (0 <= session_count s sid) as Hs by (rewrite (ci_session _ Hi); apply live_nonneg).
  split_and!.
  - rewrite (proj2 (Z.ltb_lt _ _)) by lia. lia.
  - destruct b; simpl; [|lia]. rewrite (proj2 (Z.ltb_lt _ _)) by lia. lia.
  - rewrite (proj2 (Z.ltb_lt _ _)) by (unfold session_count at 1; simpl; rewrite lookup_insert_eq; simpl; lia).
    rewrite lookup_insert_eq. simpl. unfold session_count at 1 2 3. simpl. rewrite !lookup_insert_eq. simpl.
    rewrite !insert_insert_eq. unfold session_count in *.
    destruct (sessionRunning s !! sid) as [n|] eqn:E; simpl in *.
    + pose proof (ci_session_key _ Hi _ _ E). rewrite bool_decide_eq_false_2 by lia.
      rewrite lookup_insert_eq. unfold session_count. rewrite E. simpl.
      replace (n + 1 - 1) with n by lia. by apply insert_id.
    + rewrite delete_insert_eq. by rewrite delete_id.
  - done.
Qed.

Lemma reserve_release_roundtrip_witness :
  sessionRunning (Release (Some 0%nat) one_reserved) = sessionRunning newOperationSupervisor.
Proof.
  apply (reserve_release_roundtrip "s1" "l1" operationKindBuild newOperationSupervisor one_reserved 0%nat).
  - apply rtc_refl.
  - vm_compute. reflexivity.
Defined.

(** No slot leaks: once no reservation and no operation holds a release
    closure, every counter is back to zero and an open supervisor admits
    again. *)
Theorem capacity_no_leak (s : sup) (Hr : reachable s)
    (Hnone : ∀ h, holder_of s h = None) :
  globalRunning s = 0 ∧ globalBuildCount s = 0 ∧ sessionRunning s = ∅ ∧
  ∀ sid lid kind, shutting s = false → default false (quiesced s !! lid) = false →
    (reserve sid lid kind s).1.2 = admissionAccepted.
Proof.
  pose proof (reachable_capacity s Hr) as Hi.
  assert (Hz : ∀ P, live_count P (closures s) = 0).
  { intros P. unfold live_count. rewrite (proj2 (map_size_empty_iff _)); [done|].
    apply map_empty. intros c. apply map_lookup_filter_None. right. intros cl Hc [Hrel _]. simpl in Hrel.
    destruct (ci_holder _ Hi _ _ Hc Hrel) as [h Hh]. by rewrite Hnone in Hh. }
  assert (Hg : globalRunning s = 0) by (by rewrite (ci_global _ Hi)).
  assert (Hb : globalBuildCount s = 0) by (by rewrite (ci_builds _ Hi)).
  assert (Hs : ∀ sid, session_count s sid = 0) by (intros; by rewrite (ci_session _ Hi)).
  split_and!; [done..| |].
  - apply map_empty. intros sid. destruct (sessionRunning s !! sid) as [n|] eqn:E; [|done].
    pose proof (ci_session_key _ Hi _ _ E). specialize (Hs sid). unfold session_count in Hs.
    rewrite E in Hs. simpl in Hs. lia.
  - intros sid lid kind Hsh Hq. destruct (ci_max _ Hi) as (M1 & M2 & M3).
    unfold reserve, reserveCapacityLocked. rewrite Hsh, Hq, M1, M2, M3, Hg, Hs, Hb. simpl.
    by rewrite andb_false_r.
Qed.

Lemma capacity_no_leak_witness :
  globalRunning (Release (Some 0%nat) one_reserved) = 0 ∧
  (reserve "s1" "l1" "run" (Release (Some 0%nat) one_reserved)).1.2 = admissionAccepted.
Proof.
  assert (Hr : reachable (Release (Some 0%nat) one_reserved))
    by (eapply rtc_l; [apply step_reserve|eapply rtc_l; [apply step_Release|apply rtc_refl]]).
  assert (Hn : ∀ h, holder_of (Release (Some 0%nat) one_reserved) h = None).
  { assert (E1 : reservations (Release (Some 0%nat) one_reserved) = {[ 0%nat := None ]})
      by (vm_compute; reflexivity).
    intros [r|o]; [|reflexivity]. unfold holder_of. rewrite E1.
    destruct (decide (r = 0%nat)) as [->|Hne]; [reflexivity|].
    rewrite lookup_singleton_ne by congruence. reflexivity. }
  pose proof (capacity_no_leak _ Hr Hn) as (H1 & _ & _ & H2).
  split; [exact H1|]. apply H2; reflexivity.
Defined.

(** ** Lifecycle *)

(** A terminal operation is final: whatever happens later, it keeps its
    state, completion time, result, exit code and duration, a further
    [succeed] or [fail] is refused and changes nothing, its [done] channel is
    closed, it holds no slot, and exactly one finish record was audited. *)
Theorem terminal_is_final (s s' : sup) (o : op_ref) (op : operation)
    (Hr : reachable s) (Ho : heap s !! o = Some op) (Hct : is_Some (op_CompletedAt op))
    (Hs : rtc step s s') :
  ∃ op', heap s' !! o = Some op' ∧
    op_State op' = op_State op ∧ op_State op' ≠ operationRunning ∧
    op_CompletedAt op' = op_CompletedAt op ∧ op_ResultCode op' = op_ResultCode op ∧
    op_ExitCode op' = op_ExitCode op ∧ op_Duration op' = op_Duration op ∧
    op_done op' = chan_closed ∧ op_capacityRelease op' = None ∧
    count_ev (is_audit o) (events s') = 1%nat ∧
    (∀ d now, succeed o d now s' = (false, s')) ∧
    (∀ rc ex d now, fail_op o rc ex d now s' = (false, s')).
Proof.
  assert (Hr' : reachable s') by (unfold reachable in *; by etrans).
  destruct (heap_le_steps _ _ Hs _ _ Ho) as (op' & Ho' & Hle).
  destruct (le_terminal _ _ Hle Hct) as (E1 & E2 & E3 & E4 & E5).
  pose proof (li_ops _ (reachable_life _ Hr') _ _ Ho') as Hok.
  destruct Hct as [t Ht]. rewrite Ht in E1. exists op'. split; [done|]. rewrite Ht.
  split_and!; try done.
  - intros Hrun. apply (ok_state _ _ _ Hok) in Hrun. congruence.
  - apply (ok_done _ _ _ Hok). by rewrite E1.
  - by eapply (ci_terminal _ (reachable_capacity _ Hr')).
  - by rewrite (ok_audit _ _ _ Hok), E1.
  - intros d now. unfold succeed. by rewrite Ho', E1.
  - intros rc ex d now. unfold fail_op. by rewrite Ho', E1.
Qed.

(** A build that is reserved, admitted, started and then fails. *)
Definition life_reserved : sup := one_reserved.
Definition life_created : sup :=
  set_op 0%nat (newBuildOperation "op_1" "s1" "l1" 10) life_reserved.
Definition life_admitted : sup := (admitReserved 0%nat (Some 0%nat) life_created).2.
Definition life_started : sup := (startOperationProcess 0%nat true 11 life_admitted).2.
Definition life_failed : sup := (fail_op 0%nat "build_failed" (Some 1) None 12 life_started).2.

Lemma life_created_reachable : reachable life_created.
Proof.
  eapply rtc_l; [apply (step_reserve _ "s1" "l1" operationKindBuild)|].
  eapply rtc_l; [|apply rtc_refl]. by apply step_new.
Qed.

Lemma life_admitted_reachable : reachable life_admitted.
Proof.
  eapply rtc_r; [apply life_created_reachable|].
  eapply step_admit; [vm_compute; reflexivity|reflexivity|by left].
Qed.

Lemma life_started_reachable : reachable life_started.
Proof. eapply rtc_r; [apply life_admitted_reachable|apply step_start]. Qed.

Lemma life_failed_reachable : reachable life_failed.
Proof. eapply rtc_r; [apply life_started_reachable|apply step_fail]. Qed.


Definition op_at (o : op_ref) (s : sup) : operation :=
  default (newBuildOperation "" "" "" 0) (heap s !! o).

Lemma terminal_is_final_witness :
  (succeed 0%nat None 13 life_failed).1 = false ∧ globalRunning life_failed = 0 ∧
  op_ResultCode (op_at 0%nat life_failed) = Some "build_failed".
Proof.
  split_and!; [|vm_compute; reflexivity..].
  destruct (terminal_is_final life_failed life_failed 0%nat (op_at 0%nat life_failed)) as
    (op' & _ & _ & _ & _ & _ & _ & _ & _ & _ & _ & H & _).
  - apply life_failed_reachable.
  - vm_compute. reflexivity.
  - eexists. vm_compute. reflexivity.
  - apply rtc_refl.
  - by rewrite H.
Defined.

(** The first terminal transition of a running operation wins: it sets
    state, time and result (a result code already recorded, such as a
    cancellation, is kept), gives the operation's slot back exactly once and
    leaves every other operation alone. *)
Theorem first_terminal_wins (s : sup) (o : op_ref) (op : operation) (rc : string)
    (ex : option Z) (d : option string) (now : Z)
    (Hr : reachable s) (Ho : heap s !! o = Some op) (Hrun : op_State op = operationRunning) :
  let '(won, s') := fail_op o rc ex d now s in
  won = true ∧
  (∃ op', heap s' !! o = Some op' ∧ op_State op' = operationFailed ∧
    op_CompletedAt op' = Some now ∧ op_ExitCode op' = ex ∧
    op_ResultCode op' = Some (default rc (op_ResultCode op)) ∧ op_done op' = chan_closed ∧
    op_capacityRelease op' = None) ∧
  globalRunning s' = globalRunning s - (if op_capacityRelease op is Some _ then 1 else 0) ∧
  events s' = events s ++ [EvFinishAudit o (default rc (op_ResultCode op))] ∧
  (∀ o', o' ≠ o → heap s' !! o' = heap s !! o').
Proof.
  pose proof (li_ops _ (reachable_life _ Hr) _ _ Ho) as Hok.
  pose proof (reachable_capacity _ Hr) as Hi.
  unfold fail_op. rewrite Ho. rewrite (proj1 (ok_state _ _ _ Hok) Hrun).
  set (op1 := with_terminal _ _ _ _ _ _).
  destruct (complete_spec o op1 s) as (Eh & _ & Ee).
  assert (Hrc : op_ResultCode op1 = Some (default rc (op_ResultCode op)))
    by (unfold op1; simpl; by destruct (op_ResultCode op)).
  split_and!; [done|..].
  - eexists. rewrite Eh, lookup_insert_eq. split; [done|]. by split_and!.
  - unfold finish. set (s1 := releaseCapacity o (set_op o op1 s)).
    assert (Hg : globalRunning s1 = globalRunning s - if op_capacityRelease op is Some _ then 1 else 0).
    { unfold s1, releaseCapacity. simpl. rewrite lookup_insert_eq. simpl.
      destruct (op_capacityRelease op) as [c|] eqn:Ec; simpl; [|lia].
      destruct (ci_held _ Hi (inr o) c) as (cl & Hc & Hrel); [simpl; by rewrite Ho|].
      rewrite (call_release_live c cl) by done. simpl.
      pose proof (live_pos any_closure _ _ _ Hc Hrel eq_refl) as Pg. rewrite <-(ci_global _ Hi) in Pg.
      by rewrite (proj2 (Z.ltb_lt _ _) Pg). }
    by destruct (heap s1 !! o).
  - by rewrite Ee, Hrc.
  - intros o' Hne. by rewrite Eh, lookup_insert_ne.
Qed.

Lemma first_terminal_wins_witness :
  globalRunning (fail_op 0%nat "build_failed" (Some 1) None 12 life_started).2 = 0.
Proof.
  assert (Ho : heap life_started !! 0%nat = Some (op_at 0%nat life_started)) by (vm_compute; reflexivity).
  assert (Hs : op_State (op_at 0%nat life_started) = operationRunning) by (vm_compute; reflexivity).
  pose proof (first_terminal_wins life_started 0%nat (op_at 0%nat life_started) "build_failed" (Some 1) None 12
    life_started_reachable Ho Hs) as H.
  destruct (fail_op _ _ _ _ _ _) as [won s']. destruct H as (_ & _ & H & _). simpl. rewrite H.
  vm_compute. reflexivity.
Defined.

(** A cancelled or shut-down operation that had not started never starts:
    from the mark on no process of it is ever launched, and
    [startOperationProcess] reports the termination. *)
Theorem terminated_never_starts (s s' : sup) (o : op_ref) (op : operation) (reason : terminationReason)
    (Ho : heap s !! o = Some op) (Hns : op_started op = false)
    (Hs : rtc step (mark_op reason o s) s') :
  count_ev (is_start o) (events s') = count_ev (is_start o) (events s) ∧
  ∀ ok now, startOperationProcess o ok now s' = (startTerminated, s').
Proof.
  unfold mark_op in Hs. rewrite Ho, Hns in Hs. simpl in Hs.
  set (s1 := set_op _ _ s) in Hs. set (op1 := with_mark _ true op) in *.
  assert (H1 : heap s1 !! o = Some op1) by (simpl; by rewrite lookup_insert_eq).
  assert (Ht1 : op_terminated op1 = true) by done.
  change (events s) with (events s1). clearbody s1 op1.
  assert (count_ev (is_start o) (events s') = count_ev (is_start o) (events s1) ∧
    ∃ op', heap s' !! o = Some op' ∧ op_terminated op' = true) as (E & op' & Ho' & Ht').
  { clear Ho. induction Hs as [|x y z Hxy Hyz IH] in op1, H1, Ht1 |- *; [eauto|].
    destruct (heap_le_step _ _ Hxy _ _ H1) as (op2 & H2 & Hle).
    destruct (IH op2 H2 (le_terminated _ _ Hle Ht1)) as (E & ?). split; [|done].
    rewrite E. by eapply starts_step. }
  split; [done|]. intros ok now. unfold startOperationProcess. by rewrite Ho', Ht'.
Qed.

Lemma terminated_never_starts_witness :
  (startOperationProcess 0%nat true 20 (mark_op terminationCancelled 0%nat life_admitted)).1 = startTerminated.
Proof.
  assert (Ho : heap life_admitted !! 0%nat = Some (op_at 0%nat life_admitted)) by (vm_compute; reflexivity).
  assert (Hs : op_started (op_at 0%nat life_admitted) = false) by (vm_compute; reflexivity).
  destruct (terminated_never_starts life_admitted (mark_op terminationCancelled 0%nat life_admitted) 0%nat
    (op_at 0%nat life_admitted) terminationCancelled Ho Hs (rtc_refl _ _)) as [_ H].
  by rewrite H.
Defined.

(** Shutdown closes the registry for good: after [beginShutdown] no step
    registers an operation, and both admission doors refuse with the shutdown
    decision, whatever happens in between. *)
Theorem shutdown_closes_admission (s s' : sup) (Hs : rtc step (beginShutdown s) s') :
  ops s' ⊆ ops s ∧
  (∀ sid lid kind, reserve sid lid kind s' = (None, admissionRefusedShutdown, s')) ∧
  (∀ o op r, heap s' !! o = Some op → admitReserved o r s' = (admissionRefusedShutdown, s')).
Proof.
  assert (shutting s' = true ∧ ops s' ⊆ ops s) as [Hsh Hops].
  { change (ops s) with (ops (beginShutdown s)).
    assert (Hb : shutting (beginShutdown s) = true) by done. revert Hs Hb.
    generalize (beginShutdown s). intros x. induction 1 as [|x y z Hxy Hyz IH]; intros Hx; [done|].
    destruct (shutting_step _ _ Hxy Hx) as [Hy Hsub]. destruct (IH Hy). split; [done|by etrans]. }
  split_and!; [done| |].
  - intros sid lid kind. unfold reserve. by rewrite Hsh.
  - intros o op r Ho. unfold admitReserved. by rewrite Ho, Hsh.
Qed.

Lemma shutdown_closes_admission_witness :
  (reserve "s2" "l1" "run" (beginShutdown life_started)).1.2 = admissionRefusedShutdown.
Proof.
  destruct (shutdown_closes_admission life_started (beginShutdown life_started) (rtc_refl _ _)) as (_ & H & _).
  by rewrite H.
Defined.

(** Cancelling: an unknown operation and a terminal one are refused with
    their own errors and change nothing; a running one is marked cancelled
    unless an earlier reason stands, is signalled if its process runs, and is
    closed to starting otherwise. *)
Theorem cancel_branches (id : string) (s : sup) (Hr : reachable s) :
  match ops s !! id with
  | None => cancel_begin id s = (Some (mkError "operation not found" [ErrOperationNotFound]), s)
  | Some o => ∃ op, heap s !! o = Some op ∧ op_ID op = id ∧
      if decide (op_State op = operationRunning) then
        let '(e, s') := cancel_begin id s in
        e = None ∧ ∃ op', heap s' !! o = Some op' ∧ op_State op' = operationRunning ∧
          op_reason op' = (if decide (op_reason op = terminationNone)
                           then terminationCancelled else op_reason op) ∧
          if op_started op
          then events s' = (if op_process op then events s ++ [EvSignal o] else events s)
          else op_terminated op' = true ∧ events s' = events s
      else cancel_begin id s =
        (Some (mkError "operation already terminal" [ErrOperationAlreadyTerminal]), s)
  end.
Proof.
  pose proof (reachable_life _ Hr) as Hl. unfold cancel_begin, cancel_check.
  destruct (ops s !! id) as [o|] eqn:Hid; [|done].
  destruct (li_map _ Hl _ _ Hid) as (op & Ho & Hop). exists op. rewrite Ho.
  pose proof (li_ops _ Hl _ _ Ho) as Hok. split_and!; [done..|].
  case_decide as Hrun.
  - rewrite (proj1 (ok_state _ _ _ Hok) Hrun). split; [done|].
    unfold terminate_mark, terminate_targets. simpl. unfold mark_op. rewrite Ho.
    case_bool_decide as Hreason; (destruct (op_started op); simpl; [destruct (op_process op); simpl|]);
      rewrite lookup_insert_eq; eexists; (split; [done|]); simpl; by case_decide.
  - destruct (op_CompletedAt op) eqn:Hct; [done|]. exfalso. by apply Hrun, (ok_state _ _ _ Hok).
Qed.

Lemma cancel_branches_witness :
  (cancel_begin "op_1" life_failed).1 = Some (mkError "operation already terminal" [ErrOperationAlreadyTerminal]) ∧
  (cancel_begin "op_2" life_failed).1 = Some (mkError "operation not found" [ErrOperationNotFound]) ∧
  events (cancel_begin "op_1" life_started).2 = [EvStart 0%nat; EvSignal 0%nat].
Proof.
  pose proof (cancel_branches "op_1" life_failed life_failed_reachable) as H1.
  pose proof (cancel_branches "op_2" life_failed life_failed_reachable) as H2.
  assert (E1 : @eq (option op_ref) (ops life_failed !! "op_1") (Some 0%nat)) by (vm_compute; reflexivity).
  assert (E2 : @eq (option op_ref) (ops life_failed !! "op_2") None) by (vm_compute; reflexivity).
  rewrite E1 in H1. rewrite E2 in H2. destruct H1 as (op & Ho & _ & H1).
  assert (Hst : op_State op ≠ operationRunning).
  { assert (Eo : Some op = Some (op_at 0%nat life_failed)) by (rewrite <-Ho; vm_compute; reflexivity).
    injection Eo as ->. vm_compute. discriminate. }
  rewrite decide_False in H1 by exact Hst. rewrite H1, H2.
  split_and!; [reflexivity..|vm_compute; reflexivity].
Defined.

(** The force phase is claimed once: after any path has force-cleaned an
    operation, no later force cleanup of it kills its process or its container
    again, and a terminal operation is never killed. *)
Theorem force_kills_once (s s' : sup) (o : op_ref) (op : operation) (kc : bool) (cid : string) (dl : Z)
    (Hr : reachable s) (Ho : heap s !! o = Some op)
    (Hs : rtc step (forceCleanupOperation o kc cid dl s) s') :
  (op_State op ≠ operationRunning → forceCleanupOperation o kc cid dl s = s) ∧
  (∀ kc' cid' dl' now, forceCleanupOperation o kc' cid' dl' s' = s' ∧
     forceCleanupSequential o kc' cid' now s' = s') ∧
  events (forceCleanupOperation o kc cid dl s) = events s ++
    (if bool_decide (op_State op = operationRunning) && negb (op_forceOwned op) then
       (if bool_decide (op_cidfile op ≠ "") && bool_decide (cid ≠ "") && kc
        then [EvKillContainer o cid] else []) ++
       (if op_process op then [EvKill o] else [])
     else []).
Proof.
  pose proof (li_ops _ (reachable_life _ Hr) _ _ Ho) as Hok.
  assert (Hbool : bool_decide (op_State op = operationRunning) =
    match op_CompletedAt op with None => true | Some _ => false end).
  { destruct (op_CompletedAt op) eqn:E.
    - apply bool_decide_eq_false_2. intros H%(ok_state _ _ _ Hok). congruence.
    - apply bool_decide_eq_true_2. by apply (ok_state _ _ _ Hok). }
  split_and!.
  - intros Hst. rewrite (bool_decide_eq_false_2 _ Hst) in Hbool.
    unfold forceCleanupOperation, forceClaim. rewrite Ho.
    destruct (op_forceOwned op); [done|]. by destruct (op_CompletedAt op).
  - assert (Hown : ∃ op', heap (forceCleanupOperation o kc cid dl s) !! o = Some op' ∧
      (op_forceOwned op' = true ∨ is_Some (op_CompletedAt op'))).
    { unfold forceCleanupOperation, forceClaim. rewrite Ho.
      destruct (op_forceOwned op) eqn:E; [by exists op; auto|].
      destruct (op_CompletedAt op) eqn:Ec; [exists op; eauto|].
      unfold forceKill. simpl. rewrite lookup_insert_eq. simpl. rewrite lookup_insert_eq.
      eexists. split; [done|by left]. }
    destruct Hown as (op1 & H1 & Hown). destruct (heap_le_steps _ _ Hs _ _ H1) as (op2 & H2 & Hle).
    intros kc' cid' dl' now. unfold forceCleanupOperation, forceCleanupSequential, forceClaim. rewrite H2.
    destruct Hown as [Hown|Hc].
    + by rewrite (le_forceOwned _ _ Hle Hown).
    + destruct (le_terminal _ _ Hle Hc) as (E & _). rewrite E. destruct Hc as [t ->].
      by destruct (op_forceOwned op2).
  - rewrite Hbool. unfold forceCleanupOperation, forceClaim. rewrite Ho.
    destruct (op_forceOwned op); [by rewrite andb_false_r, app_nil_r|].
    destruct (op_CompletedAt op); [by rewrite app_nil_r|]. unfold forceKill. simpl.
    rewrite lookup_insert_eq. simpl. unfold kill_signals. simpl.
    destruct (_ && _ && _), (op_process op); simpl; by rewrite ?app_nil_r, <-?app_assoc.
Qed.

Lemma force_kills_once_witness :
  forceCleanupSequential 0%nat true "c1" 50 (forceCleanupOperation 0%nat true "c1" 40 life_started) =
    forceCleanupOperation 0%nat true "c1" 40 life_started ∧
  events (forceCleanupOperation 0%nat true "c1" 40 life_started) = [EvStart 0%nat; EvKill 0%nat].
Proof.
  assert (Ho : heap life_started !! 0%nat = Some (op_at 0%nat life_started)) by (vm_compute; reflexivity).
  destruct (force_kills_once life_started _ 0%nat (op_at 0%nat life_started) true "c1" 40
    life_started_reachable Ho (rtc_refl _ _)) as (_ & H & _).
  split; [apply (proj2 (H true "c1" 40 50))|vm_compute; reflexivity].
Defined.

(** Termination misses nobody: every targeted operation is marked (it had
    not started), or was seen to finish within its wait, or is force-cleaned;
    and no operation is force-cleaned that was marked, nor on a cancel one
    that finished in time. *)
Theorem termination_covers (isShutdown : bool) (grace : option Z) (doneInTime : op_ref → bool)
    (targets : list op_ref) (s : sup) (o : op_ref) :
  let terminated := terminatedSet targets s in
  let forced := force_targets isShutdown grace doneInTime targets terminated in
  (o ∈ targets → o ∈ terminated ∨ doneInTime o = true ∨ o ∈ forced) ∧
  (o ∈ forced → o ∈ targets ∧ o ∉ terminated) ∧
  (o ∈ forced → isShutdown = false → doneInTime o = false) ∧
  (isShutdown = true → grace = None → o ∈ targets → o ∉ terminated → o ∈ forced).
Proof.
  simpl. unfold force_targets. set (terminated := terminatedSet targets s).
  set (waited := filter (λ o, ¬ (o ∈ terminated)) targets).
  assert (Hw : ∀ x, x ∈ waited ↔ ¬ (x ∈ terminated) ∧ x ∈ targets) 
    by (intros x; unfold waited; by rewrite list_elem_of_filter).
  assert (Hg : ∀ l x, x ∈ graceful_completed doneInTime l → doneInTime x = true).
  { induction l as [|y l IH]; simpl; intros x; [by intros ?%not_elem_of_nil|].
    destruct (doneInTime y) eqn:E; [|by intros ?%not_elem_of_nil].
    by intros [->|]%elem_of_cons; [|auto]. }
  set (completed := match grace with None => [] | Some _ => graceful_completed doneInTime waited end).
  assert (Hc : ∀ x, x ∈ completed → doneInTime x = true).
  { intros x. unfold completed. destruct grace; [apply Hg|by intros ?%not_elem_of_nil]. }
  split_and!.
  - intros Ho. destruct (decide (o ∈ terminated)) as [|Ht]; [by left|right].
    destruct (doneInTime o) eqn:E; [by left|right].
    destruct isShutdown; apply list_elem_of_filter; (split; [|by apply Hw]); [|done].
    intros Hin%Hc. congruence.
  - destruct isShutdown; intros [_ [? ?]%Hw]%list_elem_of_filter; done.
  - intros Hf ->. by apply list_elem_of_filter in Hf as [? _].
  - intros -> -> Ho Ht. apply list_elem_of_filter. split; [apply not_elem_of_nil|by apply Hw].
Qed.

(** ** Retention *)

(** Pruning keeps every running operation, drops every completed one whose
    retention has passed, keeps at most [maxCompleted] completed ones, and
    among the unexpired ones drops only operations that completed no later
    than every survivor. *)
Theorem prune_retention (s : sup) (now ttl : Z) (maxC : nat) (Hr : reachable s) :
  let s' := pruneCompleted now ttl maxC s in
  heap s' = heap s ∧
  (∀ id o, ops s' !! id = Some o → ops s !! id = Some o) ∧
  (∀ id o op, ops s !! id = Some o → heap s !! o = Some op →
     op_State op = operationRunning → ops s' !! id = Some o) ∧
  (length (completed_ops s') ≤ maxC)%nat ∧
  (∀ o t, (o, t) ∈ completed_ops s' → now - t <= ttl) ∧
  (∀ o t o' t', (o, t) ∈ completed_ops s → (o, t) ∉ completed_ops s' → now - t <= ttl →
     (o', t') ∈ completed_ops s' → t <= t').
Proof.
  pose proof (reachable_life _ Hr) as Hl. simpl. unfold pruneCompleted.
  destruct (prune_victims_spec now ttl maxC (completed_ops s) (completed_nodup _ Hl) (completed_fst s))
    as (rest & Hlen & Hrest & Hexp & Hold).
  set (vs := prune_victims now ttl maxC (completed_ops s)) in *.
  destruct (prune_fold_lookup vs s Hl) as [Eh El]. set (s' := foldl prune_remove s vs) in *.
  assert (Hc : ∀ o t, (o, t) ∈ completed_ops s' ↔ (o, t) ∈ rest).
  { intros o t. rewrite Hrest, !completed_elem, Eh. setoid_rewrite El. naive_solver. }
  assert (Hl' : life_inv s').
  { by apply prune_fold_life. }
  split_and!.
  - done.
  - intros id o. by rewrite El; intros [? _].
  - intros id o op Hid Ho Hrun. apply El. split; [done|]. intros Hv.
    assert (∃ t, (o, t) ∈ completed_ops s) as [t Ht].
    { unfold vs, prune_victims in Hv. apply elem_of_app in Hv as [Hv|Hv];
        apply list_elem_of_fmap in Hv as ([o' t] & -> & Hv).
      - apply list_elem_of_filter in Hv as [_ ?]. by exists t.
      - case_decide; [|by apply not_elem_of_nil in Hv].
        apply elem_of_take in Hv as (i & Hi & _). apply list_elem_of_lookup_2 in Hi.
        rewrite merge_sort_Permutation in Hi. apply list_elem_of_filter in Hi as [_ ?]. by exists t. }
    apply completed_elem in Ht as (? & op' & _ & Ho' & Hne & _). congruence.
  - etrans; [|exact Hlen]. apply submseteq_length, NoDup_submseteq; [by apply completed_nodup|].
    intros [o t]. apply Hc.
  - intros o t Ho%Hc. by eapply Hexp.
  - intros o t o' t' Hin Hout Ht Hin'%Hc. eapply Hold; [done..| |done].
    destruct (decide (o ∈ vs)); [done|]. exfalso. apply Hout, Hc, Hrest. done.
Qed.

Lemma prune_retention_witness :
  ops (pruneCompleted 1000 100 5 life_failed) !! "op_1" = None ∧
  (length (completed_ops (pruneCompleted 20 100 0 life_failed)) ≤ 0)%nat ∧
  ops (pruneCompleted 20 100 1 life_failed) !! "op_1" = Some 0%nat.
Proof.
  split_and!; [vm_compute; reflexivity| |vm_compute; reflexivity].
  apply (prune_retention life_failed 20 100 0 life_failed_reachable).
Defined.
