(* ===== verification/GoStrings.v ===== *)
(** * GoStrings: Go's strings, strconv and unicode/utf8 packages

    The functions of these packages the program's decisions depend on, executable, on
    byte strings. *)
From S2P Require Import Prelude.
Local Open Scope Z_scope.

(** ** the parts of Go's strconv and strings packages the source uses

    Decimal integers as [strconv.ParseInt(s, 10, 64)] reads and
    [strconv.Itoa] prints them. *)

Definition maxInt64 : Z := 9223372036854775807.

Definition digit_of (c : ascii) : option Z :=
  let n := Z.of_N (N_of_ascii c) in
  if (48 <=? n) && (n <=? 57) then Some (n - 48) else None.

Fixpoint digits_value (acc : Z) (s : string) : option Z :=
  match s with
  | EmptyString => Some acc
  | String c s => d ← digit_of c; digits_value (10 * acc + d) s
  end.

Definition parse_nat10 (s : string) : option Z :=
  match s with EmptyString => None | _ => digits_value 0 s end.

(** [strconv.ParseInt(s, 10, 64)]: an optional sign, then at least one digit,
    the value in the int64 range. *)
Definition ParseInt10 (s : string) : option Z :=
  match s with
  | EmptyString => None
  | String c rest =>
      if bool_decide (c = "-"%char) then
        v ← parse_nat10 rest; if v <=? maxInt64 + 1 then Some (- v) else None
      else
        v ← parse_nat10 (if bool_decide (c = "+"%char) then rest else s);
        if v <=? maxInt64 then Some v else None
  end.

Definition digit_char (d : Z) : ascii := ascii_of_N (Z.to_N (48 + d)).

Fixpoint itoa_fuel (fuel : nat) (n : Z) (acc : string) : string :=
  match fuel with
  | O => acc
  | S fuel =>
      let acc := String (digit_char (n mod 10)) acc in
      if n / 10 =? 0 then acc else itoa_fuel fuel (n / 10) acc
  end.

(** [strconv.Itoa] on a non-negative number; 20 digits cover every int64. *)
Definition Itoa (n : Z) : string := itoa_fuel 20 n "".

Lemma digit_of_char d : 0 <= d < 10 → digit_of (digit_char d) = Some d.
Proof.
  intros Hd. unfold digit_of, digit_char. rewrite N_ascii_embedding by lia.
  rewrite Z2N.id by lia.
  rewrite (proj2 (Z.leb_le _ _)), (proj2 (Z.leb_le _ _)) by lia. simpl. f_equal. lia.
Qed.

Lemma digits_value_app acc s t :
  digits_value acc (s +:+ t) = digits_value acc s ≫= λ v, digits_value v t.
Proof.
  revert acc. induction s as [|c s IH]; intros acc; simpl; [done|].
  destruct (digit_of c); simpl; [apply IH|done].
Qed.

(** The printed digits read back. *)
Lemma itoa_fuel_value fuel n acc :
  0 <= n < 10 ^ Z.of_nat fuel → (0 < fuel)%nat →
  ∃ ds, itoa_fuel fuel n acc = ds +:+ acc ∧ ds ≠ "" ∧ digits_value 0 ds = Some n ∧
    ∃ c r, ds = String c r ∧ is_Some (digit_of c).
Proof.
  revert n acc. induction fuel as [|fuel IH]; intros n acc Hn Hf; [lia|].
  rewrite Nat2Z.inj_succ, Z.pow_succ_r in Hn by lia.
  pose proof (Z.mod_pos_bound n 10 ltac:(lia)) as Hm. pose proof (Z.div_mod n 10 ltac:(lia)) as Hdm.
  simpl. destruct (Z.eqb_spec (n / 10) 0) as [E|E].
  - exists (String (digit_char (n mod 10)) ""). split_and!; [done|done| |].
    + simpl. rewrite digit_of_char by lia. simpl. f_equal. lia.
    + eexists _, _. split; [done|]. rewrite digit_of_char by lia. eauto.
  - assert (0 <= n / 10) by (apply Z.div_pos; lia).
    assert (n / 10 < 10 ^ Z.of_nat fuel) by (apply Z.div_lt_upper_bound; lia).
    destruct fuel as [|fuel]; [simpl in *; lia|].
    destruct (IH (n / 10) (String (digit_char (n mod 10)) acc)) as (ds & E1 & E2 & E3 & c & r & E4 & E5);
      [lia|lia|].
    exists (ds +:+ String (digit_char (n mod 10)) ""). split_and!.
    + rewrite E1. by rewrite str_app_assoc.
    + by rewrite E4.
    + rewrite digits_value_app, E3. simpl. rewrite digit_of_char by lia. simpl. f_equal. lia.
    + rewrite E4. eauto.
Qed.

Lemma digit_not_sign c : is_Some (digit_of c) → c ≠ "-"%char ∧ c ≠ "+"%char.
Proof. intros [d Hd]. split; intros ->; done. Qed.

Lemma ParseInt10_Itoa n : 0 <= n <= maxInt64 → ParseInt10 (Itoa n) = Some n.
Proof.
  intros Hn. unfold Itoa.
  destruct (itoa_fuel_value 20 n "") as (ds & E1 & _ & E3 & c & r & E4 & E5);
    [unfold maxInt64 in Hn; lia|lia|].
  rewrite E1, str_app_nil_r. destruct (digit_not_sign c E5). subst ds. unfold ParseInt10, parse_nat10.
  rewrite !bool_decide_eq_false_2 by done. rewrite E3. simpl. by rewrite (proj2 (Z.leb_le _ _)) by lia.
Qed.

(** ** Go's UTF-8 decoding of strings

    [range s] is the sequence of runes [for _, c := range s] visits, each with
    the bytes it was decoded from (an invalid byte yields RuneError and
    advances by one); [EncodeRune] is [utf8.EncodeRune] (strings.Builder's
    WriteRune) and [ValidString] is [utf8.ValidString]. *)

Definition byte_of (c : ascii) : Z := Z.of_N (N_of_ascii c).
Definition to_byte (z : Z) : ascii := ascii_of_N (Z.to_N z).

Definition RuneError : Z := 65533.
Definition RuneSelf : Z := 128.

Definition in_range (lo hi b : Z) : bool := (lo <=? b) && (b <=? hi).
Definition cont_byte (b : Z) : bool := in_range 128 191 b.

(** The accept ranges of the lead bytes. *)
Definition two_ok (a b : Z) : bool := in_range 194 223 a && cont_byte b.
Definition three_ok (a b c : Z) : bool :=
  in_range 224 239 a && cont_byte c &&
  in_range (if a =? 224 then 160 else 128) (if a =? 237 then 159 else 191) b.
Definition four_ok (a b c d : Z) : bool :=
  in_range 240 244 a && cont_byte c && cont_byte d &&
  in_range (if a =? 240 then 144 else 128) (if a =? 244 then 143 else 191) b.

Definition rune2 (a b : Z) : Z := (a - 192) * 64 + (b - 128).
Definition rune3 (a b c : Z) : Z := (a - 224) * 4096 + (b - 128) * 64 + (c - 128).
Definition rune4 (a b c d : Z) : Z :=
  (a - 240) * 262144 + (b - 128) * 4096 + (c - 128) * 64 + (d - 128).

Definition str1 (a : ascii) : string := String a "".

(** The rune at the front of a string that starts with [a], and the rest. *)
Fixpoint range (s : string) : list (Z * string) :=
  match s with
  | "" => []
  | String a s1 =>
      if byte_of a <? RuneSelf then (byte_of a, str1 a) :: range s1
      else match s1 with
      | "" => (RuneError, str1 a) :: range s1
      | String b s2 =>
          if two_ok (byte_of a) (byte_of b)
          then (rune2 (byte_of a) (byte_of b), String a (str1 b)) :: range s2
          else match s2 with
          | "" => (RuneError, str1 a) :: range s1
          | String c s3 =>
              if three_ok (byte_of a) (byte_of b) (byte_of c)
              then (rune3 (byte_of a) (byte_of b) (byte_of c), String a (String b (str1 c))) :: range s3
              else match s3 with
              | "" => (RuneError, str1 a) :: range s1
              | String d s4 =>
                  if four_ok (byte_of a) (byte_of b) (byte_of c) (byte_of d)
                  then (rune4 (byte_of a) (byte_of b) (byte_of c) (byte_of d),
                        String a (String b (String c (str1 d)))) :: range s4
                  else (RuneError, str1 a) :: range s1
              end
          end
      end
  end.

Definition runes (s : string) : list Z := (range s).*1.

(** An invalid byte is a RuneError of width one. *)
Definition bad_rune (p : Z * string) : bool :=
  bool_decide (p.1 = RuneError ∧ String.length p.2 = 1%nat).

Definition ValidString (s : string) : bool := forallb (λ p, negb (bad_rune p)) (range s).

Definition EncodeRune (r : Z) : string :=
  if in_range 0 127 r then str1 (to_byte r)
  else if in_range 128 2047 r then String (to_byte (192 + r / 64)) (str1 (to_byte (128 + r mod 64)))
  else if negb (in_range 2048 1114111 r) || in_range 55296 57343 r then
    String (to_byte 239) (String (to_byte 191) (str1 (to_byte 189)))
  else if r <=? 65535 then
    String (to_byte (224 + r / 4096)) (String (to_byte (128 + r / 64 mod 64)) (str1 (to_byte (128 + r mod 64))))
  else
    String (to_byte (240 + r / 262144)) (String (to_byte (128 + r / 4096 mod 64))
      (String (to_byte (128 + r / 64 mod 64)) (str1 (to_byte (128 + r mod 64))))).

Fixpoint str_concat (l : list string) : string :=
  match l with [] => "" | w :: l => w +:+ str_concat l end.

(** ** Laws *)

Lemma byte_of_range c : 0 <= byte_of c <= 255.
Proof. unfold byte_of. pose proof (N_ascii_bounded c). lia. Qed.

Lemma to_byte_of c : to_byte (byte_of c) = c.
Proof. unfold to_byte, byte_of. by rewrite N2Z.id, ascii_N_embedding. Qed.

Lemma byte_of_to z : 0 <= z <= 255 → byte_of (to_byte z) = z.
Proof. intros H. unfold to_byte, byte_of. rewrite N_ascii_embedding by lia. lia. Qed.

Lemma to_byte_eq z c : z = byte_of c → to_byte z = c.
Proof. intros ->. apply to_byte_of. Qed.

Lemma in_range_spec lo hi b : in_range lo hi b = true ↔ lo <= b <= hi.
Proof. unfold in_range. rewrite andb_true_iff, !Z.leb_le. done. Qed.

Lemma in_range_false lo hi b : in_range lo hi b = false ↔ ¬ (lo <= b <= hi).
Proof. rewrite <-in_range_spec. by destruct (in_range lo hi b). Qed.

(** Decoding consumes one to four bytes; induction follows it. *)
Lemma range_ind (P : string → list (Z * string) → Prop) :
  P "" [] →
  (∀ a s, byte_of a < 128 → P s (range s) → P (String a s) ((byte_of a, str1 a) :: range s)) →
  (∀ a s, 128 <= byte_of a → P s (range s) → P (String a s) ((RuneError, str1 a) :: range s)) →
  (∀ a b s, two_ok (byte_of a) (byte_of b) = true → P s (range s) →
     P (String a (String b s)) ((rune2 (byte_of a) (byte_of b), String a (str1 b)) :: range s)) →
  (∀ a b c s, three_ok (byte_of a) (byte_of b) (byte_of c) = true → P s (range s) →
     P (String a (String b (String c s)))
       ((rune3 (byte_of a) (byte_of b) (byte_of c), String a (String b (str1 c))) :: range s)) →
  (∀ a b c d s, four_ok (byte_of a) (byte_of b) (byte_of c) (byte_of d) = true → P s (range s) →
     P (String a (String b (String c (String d s))))
       ((rune4 (byte_of a) (byte_of b) (byte_of c) (byte_of d), String a (String b (String c (str1 d))))
          :: range s)) →
  ∀ s, P s (range s).
Proof.
  intros H0 H1 Hb H2 H3 H4 s.
  induction s as [s IH] using (well_founded_induction (well_founded_ltof _ String.length)).
  assert (Hs : ∀ s', (String.length s' < String.length s)%nat → P s' (range s')) by (intros s' Hl; by apply IH).
  clear IH. destruct s as [|a s1]; [done|]. cbn [range].
  destruct (Z.ltb_spec (byte_of a) RuneSelf) as [Ha|Ha]; [apply H1; [done|apply Hs; simpl; lia]|].
  assert (Hbad : P (String a s1) ((RuneError, str1 a) :: range s1)) by (apply Hb; [done|apply Hs; simpl; lia]).
  destruct s1 as [|b s2]; [done|].
  destruct (two_ok (byte_of a) (byte_of b)) eqn:E2; [apply H2; [done|apply Hs; simpl; lia]|].
  destruct s2 as [|c s3]; [done|].
  destruct (three_ok (byte_of a) (byte_of b) (byte_of c)) eqn:E3; [apply H3; [done|apply Hs; simpl; lia]|].
  destruct s3 as [|d s4]; [done|].
  destruct (four_ok (byte_of a) (byte_of b) (byte_of c) (byte_of d)) eqn:E4;
    [apply H4; [done|apply Hs; simpl; lia]|done].
Qed.

(** Iteration visits every byte exactly once, in order. *)
Lemma range_concat s : str_concat (range s).*2 = s.
Proof.
  apply (range_ind (λ s l, str_concat l.*2 = s)); intros; simpl; try done; by f_equal; repeat f_equal.
Qed.

Lemma encode_rune2 a b : two_ok (byte_of a) (byte_of b) = true →
  EncodeRune (rune2 (byte_of a) (byte_of b)) = String a (str1 b).
Proof.
  unfold two_ok, cont_byte. rewrite andb_true_iff, !in_range_spec. intros [Ha Hb].
  unfold EncodeRune, rune2. set (r := _ + _).
  rewrite (proj2 (in_range_false 0 127 r)) by lia. rewrite (proj2 (in_range_spec 128 2047 r)) by lia.
  f_equal; [|f_equal]; apply to_byte_eq; subst r; Z.div_mod_to_equations; lia.
Qed.

Lemma encode_rune3 a b c : three_ok (byte_of a) (byte_of b) (byte_of c) = true →
  EncodeRune (rune3 (byte_of a) (byte_of b) (byte_of c)) = String a (String b (str1 c)).
Proof.
  unfold three_ok, cont_byte. rewrite !andb_true_iff, !in_range_spec. intros [[Ha Hc] Hb].
  assert (H1 : byte_of a = 224 → 160 <= byte_of b) by (intros E; rewrite E in Hb; simpl in Hb; lia).
  assert (H2 : byte_of a = 237 → byte_of b <= 159) by (intros E; rewrite E in Hb; simpl in Hb; lia).
  assert (H3 : 128 <= byte_of b <= 191) by (destruct (byte_of a =? 224), (byte_of a =? 237); lia). clear Hb.
  unfold EncodeRune, rune3. set (r := _ + _).
  rewrite (proj2 (in_range_false 0 127 r)) by lia. rewrite (proj2 (in_range_false 128 2047 r)) by lia.
  rewrite (proj2 (in_range_spec 2048 1114111 r)) by lia. rewrite (proj2 (in_range_false 55296 57343 r)) by lia.
  simpl negb. cbn [orb]. rewrite (proj2 (Z.leb_le r 65535)) by lia.
  f_equal; [|f_equal; [|f_equal]]; apply to_byte_eq; subst r; Z.div_mod_to_equations; lia.
Qed.

Lemma encode_rune4 a b c d : four_ok (byte_of a) (byte_of b) (byte_of c) (byte_of d) = true →
  EncodeRune (rune4 (byte_of a) (byte_of b) (byte_of c) (byte_of d)) = String a (String b (String c (str1 d))).
Proof.
  unfold four_ok, cont_byte. rewrite !andb_true_iff, !in_range_spec. intros [[[Ha Hc] Hd] Hb].
  assert (H1 : byte_of a = 240 → 144 <= byte_of b) by (intros E; rewrite E in Hb; simpl in Hb; lia).
  assert (H2 : byte_of a = 244 → byte_of b <= 143) by (intros E; rewrite E in Hb; simpl in Hb; lia).
  assert (H3 : 128 <= byte_of b <= 191) by (destruct (byte_of a =? 240), (byte_of a =? 244); lia). clear Hb.
  unfold EncodeRune, rune4. set (r := _ + _).
  rewrite (proj2 (in_range_false 0 127 r)) by lia. rewrite (proj2 (in_range_false 128 2047 r)) by lia.
  rewrite (proj2 (in_range_spec 2048 1114111 r)) by lia. rewrite (proj2 (in_range_false 55296 57343 r)) by lia.
  simpl negb. cbn [orb]. rewrite (proj2 (Z.leb_gt r 65535)) by lia.
  f_equal; [|f_equal; [|f_equal; [|f_equal]]]; apply to_byte_eq; subst r; Z.div_mod_to_equations; lia.
Qed.

Lemma encode_ascii a : byte_of a < 128 → EncodeRune (byte_of a) = str1 a.
Proof.
  intros H. pose proof (byte_of_range a). unfold EncodeRune. rewrite (proj2 (in_range_spec 0 127 _)) by lia.
  by rewrite to_byte_of.
Qed.

(** A rune that is no invalid byte: encoding it gives its bytes back, and
    they decode to it alone. *)
Lemma range_good s p : p ∈ range s → bad_rune p = false → EncodeRune p.1 = p.2 ∧ range p.2 = [p].
Proof.
  apply (range_ind (λ s l, p ∈ l → bad_rune p = false → EncodeRune p.1 = p.2 ∧ range p.2 = [p])).
  - by intros ?%not_elem_of_nil.
  - intros a s' Ha IH [->|Hin]%elem_of_cons; [|by auto]. intros _. split; [by apply encode_ascii|].
    cbn [snd range str1]. by rewrite (proj2 (Z.ltb_lt _ _)).
  - intros a s' Ha IH [->|Hin]%elem_of_cons; [|by auto]. unfold bad_rune. by rewrite bool_decide_eq_true_2.
  - intros a b s' H IH [->|Hin]%elem_of_cons; [|by auto]. intros _. split; [by apply encode_rune2|].
    cbn [snd range str1]. rewrite (proj2 (Z.ltb_ge _ _)), H; [done|].
    unfold two_ok in H. rewrite andb_true_iff, in_range_spec in H. unfold RuneSelf. lia.
  - intros a b c s' H IH [->|Hin]%elem_of_cons; [|by auto]. intros _. split; [by apply encode_rune3|].
    cbn [snd range str1]. pose proof H as H'. unfold three_ok in H'. rewrite !andb_true_iff, in_range_spec in H'.
    rewrite (proj2 (Z.ltb_ge _ _)) by (unfold RuneSelf; lia).
    destruct (two_ok (byte_of a) (byte_of b)) eqn:E2; [|by rewrite H].
    unfold two_ok in E2. rewrite andb_true_iff, in_range_spec in E2. lia.
  - intros a b c d s' H IH [->|Hin]%elem_of_cons; [|by auto]. intros _. split; [by apply encode_rune4|].
    cbn [snd range str1]. pose proof H as H'. unfold four_ok in H'. rewrite !andb_true_iff, in_range_spec in H'.
    rewrite (proj2 (Z.ltb_ge _ _)) by (unfold RuneSelf; lia).
    destruct (two_ok (byte_of a) (byte_of b)) eqn:E2;
      [unfold two_ok in E2; rewrite andb_true_iff, in_range_spec in E2; lia|].
    destruct (three_ok (byte_of a) (byte_of b) (byte_of c)) eqn:E3;
      [unfold three_ok in E3; rewrite !andb_true_iff, in_range_spec in E3; lia|].
    by rewrite H.
Qed.

(** Re-encoding the runes of a valid string gives its bytes back. *)
Lemma range_encode s p : ValidString s = true → p ∈ range s → EncodeRune p.1 = p.2.
Proof.
  unfold ValidString. rewrite forallb_forall. intros Hv Hp. apply (range_good s); [done|].
  apply negb_true_iff, Hv. by apply list_elem_of_In.
Qed.

(** A rune below [RuneSelf] is its own byte; the bytes of a wider rune are all
    at least [RuneSelf]. *)
Definition high (s : string) : bool := str_forall (λ c, RuneSelf <=? byte_of c) s.

Lemma range_bytes s p : p ∈ range s →
  (∃ a, p = (byte_of a, str1 a) ∧ byte_of a < 128) ∨ (high p.2 = true ∧ 128 <= p.1).
Proof.
  apply (range_ind (λ s l, p ∈ l → _)).
  - by intros ?%not_elem_of_nil.
  - intros a s' Ha IH [->|Hin]%elem_of_cons; [left; by exists a|auto].
  - intros a s' Ha IH [->|Hin]%elem_of_cons; [right|auto]. unfold high, RuneSelf, RuneError. simpl.
    rewrite (proj2 (Z.leb_le _ _)) by lia. split; [done|lia].
  - intros a b s' H IH [->|Hin]%elem_of_cons; [right|auto].
    unfold two_ok, cont_byte in H. rewrite andb_true_iff, !in_range_spec in H.
    unfold high, RuneSelf, rune2. simpl. rewrite !(proj2 (Z.leb_le _ _)) by lia. split; [done|lia].
  - intros a b c s' H IH [->|Hin]%elem_of_cons; [right|auto].
    unfold three_ok, cont_byte in H. rewrite !andb_true_iff, !in_range_spec in H.
    assert (128 <= byte_of b <= 191 ∧ (byte_of a = 224 → 160 <= byte_of b)) as [].
    { destruct (Z.eqb_spec (byte_of a) 224), (Z.eqb_spec (byte_of a) 237); lia. }
    unfold high, RuneSelf, rune3. simpl. rewrite !(proj2 (Z.leb_le _ _)) by lia. split; [done|lia].
  - intros a b c d s' H IH [->|Hin]%elem_of_cons; [right|auto].
    unfold four_ok, cont_byte in H. rewrite !andb_true_iff, !in_range_spec in H.
    assert (128 <= byte_of b <= 191 ∧ (byte_of a = 240 → 144 <= byte_of b)) as [].
    { destruct (Z.eqb_spec (byte_of a) 240), (Z.eqb_spec (byte_of a) 244); lia. }
    unfold high, RuneSelf, rune4. simpl. rewrite !(proj2 (Z.leb_le _ _)) by lia. split; [done|lia].
Qed.

(** Decoding a valid string does not look past its end. *)
Lemma range_app a b : ValidString a = true → range (a +:+ b) = range a ++ range b.
Proof.
  unfold ValidString.
  apply (range_ind (λ s l, forallb (λ p, negb (bad_rune p)) l = true → range (s +:+ b) = l ++ range b)); [done|..].
  - intros c s Hc IH [_ Hv]%andb_true_iff. cbn [String.append range]. rewrite (proj2 (Z.ltb_lt _ _)) by done.
    by rewrite IH.
  - intros c s Hc IH [Hb _]%andb_true_iff. unfold bad_rune in Hb. by rewrite bool_decide_eq_true_2 in Hb.
  - intros c d s Hc IH [_ Hv]%andb_true_iff. cbn [String.append range].
    rewrite (proj2 (Z.ltb_ge _ _)), Hc; [by rewrite IH|].
    unfold two_ok in Hc. rewrite andb_true_iff, in_range_spec in Hc. unfold RuneSelf. lia.
  - intros c d e s Hc IH [_ Hv]%andb_true_iff. cbn [String.append range].
    pose proof Hc as Hc'. unfold three_ok in Hc'. rewrite !andb_true_iff, in_range_spec in Hc'.
    rewrite (proj2 (Z.ltb_ge _ _)) by (unfold RuneSelf; lia).
    destruct (two_ok (byte_of c) (byte_of d)) eqn:E2; [|by rewrite Hc, IH].
    unfold two_ok in E2. rewrite andb_true_iff, in_range_spec in E2. lia.
  - intros c d e f s Hc IH [_ Hv]%andb_true_iff. cbn [String.append range].
    pose proof Hc as Hc'. unfold four_ok in Hc'. rewrite !andb_true_iff, in_range_spec in Hc'.
    rewrite (proj2 (Z.ltb_ge _ _)) by (unfold RuneSelf; lia).
    destruct (two_ok (byte_of c) (byte_of d)) eqn:E2;
      [unfold two_ok in E2; rewrite andb_true_iff, in_range_spec in E2; lia|].
    destruct (three_ok (byte_of c) (byte_of d) (byte_of e)) eqn:E3;
      [unfold three_ok in E3; rewrite !andb_true_iff, in_range_spec in E3; lia|].
    by rewrite Hc, IH.
Qed.

Lemma valid_app a b : ValidString a = true → ValidString b = true → ValidString (a +:+ b) = true.
Proof. unfold ValidString. intros Ha Hb. rewrite range_app by done. by rewrite forallb_app, Ha, Hb. Qed.

(** Strings of ASCII bytes. *)
Definition all_bytes (P : Z → bool) (s : string) : bool := str_forall (λ c, P (byte_of c)) s.

Lemma all_bytes_weaken (P Q : Z → bool) s :
  (∀ b, P b = true → Q b = true) → all_bytes P s = true → all_bytes Q s = true.
Proof.
  intros H. unfold all_bytes. induction s as [|c s IH]; simpl; [done|]. intros [Hc Hs]%andb_true_iff.
  by rewrite (H _ Hc), IH.
Qed.

Lemma range_ascii s : all_bytes (λ b, b <? 128) s = true →
  range s = (λ c, (byte_of c, str1 c)) <$> String.list_ascii_of_string s.
Proof.
  unfold all_bytes. induction s as [|c s IH]; [done|]. cbn [str_forall]. intros [Hc Hs]%andb_true_iff.
  cbn [range]. unfold RuneSelf. rewrite Hc, IH by done. done.
Qed.

Lemma valid_ascii s : all_bytes (λ b, b <? 128) s = true → ValidString s = true.
Proof.
  intros H. unfold ValidString. rewrite range_ascii by done. rewrite forallb_forall. intros p Hp.
  apply list_elem_of_In, list_elem_of_fmap in Hp as (c & -> & Hc). unfold bad_rune. simpl.
  rewrite bool_decide_eq_false_2; [done|]. intros [E _]. pose proof (byte_of_range c).
  unfold RuneError in E. lia.
Qed.

Example range_euro : range ("a" ++ String (to_byte 226) (String (to_byte 130) (String (to_byte 172) "")))
  = [(97, "a"); (8364, String (to_byte 226) (String (to_byte 130) (String (to_byte 172) "")))].
Proof. reflexivity. Qed.

Example range_bad : runes (String (to_byte 226) "(") = [RuneError; 40].
Proof. reflexivity. Qed.

(** ** the functions of Go's strings package the program uses *)

(** [strings.CutPrefix]. *)
Fixpoint CutPrefix (s prefix : string) {struct prefix} : option string :=
  match prefix, s with
  | "", _ => Some s
  | String a p, String b s => if bool_decide (a = b) then CutPrefix s p else None
  | String _ _, "" => None
  end.

(** [strings.CutSuffix]. *)
Fixpoint CutSuffix (s suffix : string) : option string :=
  if bool_decide (s = suffix) then Some ""
  else match s with
       | "" => None
       | String c s => String c <$> CutSuffix s suffix
       end.

(** [strings.Cut]: the text before and after the first [sep]. *)
Fixpoint Cut (s sep : string) : option (string * string) :=
  match CutPrefix s sep with
  | Some after => Some ("", after)
  | None => match s with
            | "" => None
            | String c s => match Cut s sep with Some (b, a) => Some (String c b, a) | None => None end
            end
  end.

(** What follows the last byte [c]: [s[strings.LastIndexByte(s, c)+1:]]. *)
Fixpoint after_last (c : ascii) (s : string) : string :=
  match s with
  | "" => ""
  | String x r => if bool_decide (str_count c s = 0%nat) then s else after_last c r
  end.

(** [strings.Split] on a byte. *)
Fixpoint split_byte (c : ascii) (s : string) : list string :=
  match s with
  | "" => [""]
  | String x s =>
      if bool_decide (x = c) then "" :: split_byte c s
      else match split_byte c s with
           | [] => [String x ""]
           | w :: ws => String x w :: ws
           end
  end.

(** [unicode.IsSpace]. *)
Definition IsSpace (r : Z) : bool :=
  in_range 9 13 r || (r =? 32) || (r =? 133) || (r =? 160) || (r =? 5760) || in_range 8192 8202 r ||
  (r =? 8232) || (r =? 8233) || (r =? 8239) || (r =? 8287) || (r =? 12288).

Fixpoint drop_space (l : list (Z * string)) : list (Z * string) :=
  match l with
  | [] => []
  | p :: l' => if IsSpace p.1 then drop_space l' else l
  end.

(** [strings.TrimSpace]. *)
Definition TrimSpace (s : string) : string :=
  str_concat (reverse (drop_space (reverse (drop_space (range s))))).*2.

(** [strings.Fields]: the maximal runs of runes that are not spaces. *)
Fixpoint fields_from (l : list (Z * string)) (cur : string) : list string :=
  match l with
  | [] => if bool_decide (cur = "") then [] else [cur]
  | (r, raw) :: l =>
      if IsSpace r then (if bool_decide (cur = "") then [] else [cur]) ++ fields_from l ""
      else fields_from l (cur +:+ raw)
  end.
Definition Fields (s : string) : list string := fields_from (range s) "".

(** ** Laws *)

Lemma CutPrefix_spec s p r : CutPrefix s p = Some r ↔ s = p +:+ r.
Proof.
  revert s. induction p as [|a p IH]; intros s; simpl; [split; [by intros [= ->]|by intros ->]|].
  destruct s as [|b s]; simpl; [split; [done|by intros [=]]|].
  case_bool_decide as E; [subst; rewrite IH; split; [by intros ->|by intros [= ->]]|].
  split; [done|]. intros [=]. congruence.
Qed.

Lemma str_length_app (a b : string) : String.length (a +:+ b) = (String.length a + String.length b)%nat.
Proof. induction a; simpl; [done|]. by f_equal. Qed.

Lemma CutSuffix_spec s suf x : CutSuffix s suf = Some x ↔ s = x +:+ suf.
Proof.
  revert x. induction s as [|c s IH]; intros x; simpl.
  - case_bool_decide as E; [subst|].
    + split; [by intros [= <-]|]. by destruct x.
    + split; [done|]. intros H. destruct x; simpl in H; [by subst|done].
  - case_bool_decide as E; [subst|].
    + split; [by intros [= <-]|]. intros H. destruct x as [|a x]; [done|]. exfalso.
      assert (Hl : String.length (String c s) = String.length (String a x +:+ String c s)) by (by rewrite <-H).
      rewrite str_length_app in Hl. simpl in Hl. lia.
    + split.
      * destruct (CutSuffix s suf) as [y|] eqn:Ey; [|done]. simpl. intros [= <-]. simpl. f_equal. by apply IH.
      * intros H. destruct x as [|a x]; [by subst|]. simpl in H. injection H as -> H.
        rewrite (proj2 (IH x) H). done.
Qed.

Lemma split_byte_none c s : str_count c s = 0%nat → split_byte c s = [s].
Proof.
  induction s as [|x s IH]; simpl; [done|]. destruct (ascii_dec c x) as [->|]; [done|]. intros H.
  rewrite bool_decide_eq_false_2 by congruence. by rewrite IH.
Qed.

Lemma split_byte_app c w s : str_count c w = 0%nat → split_byte c (w +:+ String c s) = w :: split_byte c s.
Proof.
  induction w as [|x w IH]; simpl; [by rewrite bool_decide_eq_true_2|]. destruct (ascii_dec c x) as [->|]; [done|].
  intros H. rewrite bool_decide_eq_false_2 by congruence. by rewrite IH.
Qed.

Lemma drop_space_keep p l : IsSpace p.1 = false → drop_space (p :: l) = p :: l.
Proof. simpl. by intros ->. Qed.

Lemma drop_space_skip l1 l2 : Forall (λ p, IsSpace p.1 = true) l1 → drop_space (l1 ++ l2) = drop_space l2.
Proof. induction 1 as [|p l1 Hp _ IH]; simpl; [done|]. by rewrite Hp. Qed.

(** A text between two runes that are no spaces, with trailing blanks. *)
Definition framed (s : string) : Prop :=
  ValidString s = true ∧ ∃ p q, head (range s) = Some p ∧ last (range s) = Some q ∧
    IsSpace p.1 = false ∧ IsSpace q.1 = false.

Lemma TrimSpace_framed s sp : framed s → all_bytes (Z.eqb 32) sp = true → TrimSpace (s +:+ sp) = s.
Proof.
  intros (Hv & p & q & Hp & Hq & Sp & Sq) Hsp. unfold TrimSpace. rewrite range_app by done.
  destruct (range s) as [|p' l] eqn:E; [done|]. injection Hp as ->. rewrite <-app_comm_cons, drop_space_keep by done.
  rewrite app_comm_cons, reverse_app, drop_space_skip.
  - assert (Hl : drop_space (reverse (p :: l)) = reverse (p :: l)).
    { rewrite <-(head_reverse) in Hq.
      destruct (reverse (p :: l)) as [|q' l']; [done|]. injection Hq as ->. by apply drop_space_keep. }
    rewrite Hl, reverse_involutive, <-E. apply range_concat.
  - apply Forall_reverse. rewrite range_ascii
      by (apply (all_bytes_weaken (Z.eqb 32)); [|done]; intros b Hb%Z.eqb_eq; by subst b).
    apply Forall_fmap. clear -Hsp. induction sp as [|c sp IH]; [constructor|]. unfold all_bytes in Hsp.
    cbn [str_forall] in Hsp. apply andb_true_iff in Hsp as [Hc H]. cbn. constructor; [|by apply IH].
    simpl. apply Z.eqb_eq in Hc. by rewrite <-Hc.
Qed.

Lemma TrimSpace_self s : framed s → TrimSpace s = s.
Proof. intros H. rewrite <-(str_app_nil_r s) at 1. by apply TrimSpace_framed. Qed.

Lemma framed_app a b : framed a → framed b → framed (a +:+ b).
Proof.
  intros (Va & p & _ & Hp & _ & Sp & _) (Vb & _ & q & _ & Hq & _ & Sq). split; [by apply valid_app|].
  exists p, q. rewrite range_app by done. rewrite head_app, last_app, Hp, Hq. by split_and!.
Qed.

Lemma Cut_skip c s sep : CutPrefix (String c s) sep = None →
  Cut (String c s) sep = match Cut s sep with Some (b, a) => Some (String c b, a) | None => None end.
Proof. intros H. cbn [Cut]. by rewrite H. Qed.

Lemma Cut_found s sep : Cut (sep +:+ s) sep = Some ("", s).
Proof.
  destruct (sep +:+ s) as [|c r] eqn:E; cbn [Cut]; rewrite <-E, (proj2 (CutPrefix_spec _ sep s) eq_refl); done.
Qed.

(** A one-byte separator. *)
Lemma Cut_byte c w s : str_count c w = 0%nat → Cut (w +:+ String c s) (String c "") = Some (w, s).
Proof.
  induction w as [|x w IH]; cbn [String.append str_count].
  - intros _. apply (Cut_found s (String c "")).
  - destruct (ascii_dec c x) as [|Hne]; [done|]. intros H. rewrite Cut_skip, IH by (cbn; rewrite ?bool_decide_eq_false_2; done).
    done.
Qed.

Lemma after_last_app c a b : str_count c b = 0%nat → after_last c (a +:+ String c b) = b.
Proof.
  intros Hb. induction a as [|x a IH]; cbn [String.append after_last].
  - rewrite bool_decide_eq_false_2 by (cbn [str_count]; destruct (ascii_dec c c); [lia|done]).
    destruct b as [|y b]; [done|]. cbn [after_last]. by rewrite bool_decide_eq_true_2.
  - rewrite bool_decide_eq_false_2; [done|]. cbn [str_count]. rewrite str_count_app. cbn [str_count].
    destruct (ascii_dec c c); [lia|done].
Qed.
