(* ===== verification/Json.v ===== *)
(** * Json: JSON texts — the encoder and the decoder of encoding/json

    First the decimal numerals; last, Unmarshal inverts Marshal.
    A numeral without a leading zero is the only one of its value; Itoa prints it. *)
From S2P Require Import Prelude GoStrings.
Local Open Scope Z_scope.

Lemma digit_of_range c d : digit_of c = Some d → 0 <= d <= 9 ∧ d = byte_of c - 48.
Proof. unfold digit_of, byte_of. destruct (_ && _) eqn:E; [|done]. intros [= <-]. lia. Qed.

Lemma digits_value_bounds acc s v :
  digits_value acc s = Some v → acc * 10 ^ Z.of_nat (String.length s) <= v < (acc + 1) * 10 ^ Z.of_nat (String.length s).
Proof.
  revert acc. induction s as [|c s IH]; intros acc; cbn [digits_value String.length]; [intros [= ->]; lia|].
  destruct (digit_of c) as [d|] eqn:E; [|done]. cbn. intros H%IH. rewrite Nat2Z.inj_succ, Z.pow_succ_r by lia.
  apply digit_of_range in E as [Hd _]. nia.
Qed.

Lemma digits_value_inj s t acc acc' v :
  String.length s = String.length t → digits_value acc s = Some v → digits_value acc' t = Some v → acc = acc' ∧ s = t.
Proof.
  revert t acc acc'. induction s as [|c s IH]; intros [|c' t] acc acc' Hl; try done; cbn [digits_value]; [intros [= ->] [= ->]; done|].
  destruct (digit_of c) as [d|] eqn:E; [|done]. destruct (digit_of c') as [d'|] eqn:E'; [|done]. cbn. intros H1 H2. injection Hl as Hl.
  destruct (IH t _ _ Hl H1 H2) as [He ->]. apply digit_of_range in E as [Hd Ec], E' as [Hd' Ec']. assert (acc = acc' ∧ d = d') as [-> ->] by lia. split; [done|].
  f_equal. rewrite <-(to_byte_of c), <-(to_byte_of c'). f_equal. lia.
Qed.

(** Decimal digits without a leading zero. *)
Definition canonical_decimal (s : string) : Prop := ∃ c r, s = String c r ∧ (r ≠ "" → c ≠ "0"%char).

Lemma canonical_length s v : canonical_decimal s → digits_value 0 s = Some v →
  v < 10 ^ Z.of_nat (String.length s) ∧ ((1 < String.length s)%nat → 10 ^ (Z.of_nat (String.length s) - 1) <= v).
Proof.
  intros (c & r & -> & Hz) Hv. split; [pose proof (digits_value_bounds _ _ _ Hv); lia|]. cbn [String.length]. intros Hl.
  cbn [digits_value] in Hv. destruct (digit_of c) as [d|] eqn:E; [|done]. cbn in Hv. apply digits_value_bounds in Hv. rewrite Nat2Z.inj_succ.
  replace (Z.succ (Z.of_nat (String.length r)) - 1) with (Z.of_nat (String.length r)) by lia.
  assert (Hc : c ≠ "0"%char) by (apply Hz; intros ->; simpl in Hl; lia). apply digit_of_range in E as [Hd Hb].
  assert (d ≠ 0) by (intros ->; apply Hc; rewrite <-(to_byte_of c); replace (byte_of c) with 48 by lia; done). nia.
Qed.

Lemma canonical_unique s t v : canonical_decimal s → canonical_decimal t → digits_value 0 s = Some v → digits_value 0 t = Some v → s = t.
Proof.
  intros Hs Ht Hvs Hvt. destruct (canonical_length s v Hs Hvs) as [A1 A2], (canonical_length t v Ht Hvt) as [B1 B2].
  assert (Hlen : ∀ x y : nat, (x < y)%nat → v < 10 ^ Z.of_nat x → ((1 < y)%nat → 10 ^ (Z.of_nat y - 1) <= v) → (0 < x)%nat → False).
  { intros x y Hxy H1 H2 H3. specialize (H2 ltac:(lia)). pose proof (Z.pow_le_mono_r 10 (Z.of_nat x) (Z.of_nat y - 1) ltac:(lia) ltac:(lia)). lia. }
  assert (0 < String.length s)%nat by (destruct Hs as (? & ? & -> & _); simpl; lia). assert (0 < String.length t)%nat by (destruct Ht as (? & ? & -> & _); simpl; lia).
  destruct (lt_eq_lt_dec (String.length s) (String.length t)) as [[?|E]|?]; [exfalso; eauto| |exfalso; eauto].
  by destruct (digits_value_inj s t 0 0 v E Hvs Hvt).
Qed.

Lemma itoa_canonical fuel n : 0 <= n < 10 ^ Z.of_nat fuel → (0 < fuel)%nat →
  ∀ acc, ∃ c r, itoa_fuel fuel n acc = String c (r +:+ acc) ∧ (0 < n → c ≠ "0"%char) ∧ (n < 10 → r = "").
Proof.
  revert n. induction fuel as [|fuel IH]; intros n Hn Hf acc; [lia|]. rewrite Nat2Z.inj_succ, Z.pow_succ_r in Hn by lia.
  pose proof (Z.mod_pos_bound n 10 ltac:(lia)). pose proof (Z.div_mod n 10 ltac:(lia)). cbn [itoa_fuel]. destruct (Z.eqb_spec (n / 10) 0) as [E|E].
  - exists (digit_char (n mod 10)), "". split; [done|]. split; [|done]. intros Hp. intros Hc. assert (Hd : digit_of (digit_char (n mod 10)) = Some 0) by by rewrite Hc.
    rewrite digit_of_char in Hd by lia. injection Hd as Hd. lia.
  - assert (0 < n / 10) by (pose proof (Z.div_pos n 10 ltac:(lia) ltac:(lia)); lia). assert (n / 10 < 10 ^ Z.of_nat fuel) by (apply Z.div_lt_upper_bound; lia).
    destruct fuel as [|fuel]; [simpl in *; lia|]. destruct (IH (n / 10) ltac:(lia) ltac:(lia) (String (digit_char (n mod 10)) acc)) as (c & r & E1 & E2 & _).
    exists c, (r +:+ String (digit_char (n mod 10)) ""). rewrite E1. split; [by rewrite str_app_assoc|]. split; [auto|]. intros Hlt. rewrite Z.div_small in E by lia. done.
Qed.

Lemma Itoa_canonical n : 0 <= n <= maxInt64 → canonical_decimal (Itoa n) ∧ digits_value 0 (Itoa n) = Some n.
Proof.
  intros Hn. unfold maxInt64 in Hn. destruct (itoa_canonical 20 n ltac:(lia) ltac:(lia) "") as (c & r & E1 & E2 & E3). split.
  - unfold Itoa. rewrite E1, str_app_nil_r. exists c, r. split; [done|]. intros Hr. apply E2. destruct (decide (n < 10)); [by destruct Hr; auto|lia].
  - destruct (itoa_fuel_value 20 n "" ltac:(lia) ltac:(lia)) as (ds & E & _ & Hv & _). unfold Itoa. by rewrite E, str_app_nil_r.
Qed.

Lemma digits_of_bytes w acc : all_bytes (in_range 48 57) w = true ↔ is_Some (digits_value acc w).
Proof.
  unfold all_bytes. revert acc. induction w as [|c w IH]; intros acc; cbn [str_forall digits_value]; [by split|].
  rewrite andb_true_iff. unfold digit_of, in_range, byte_of in *. destruct ((48 <=? Z.of_N (N_of_ascii c)) && (Z.of_N (N_of_ascii c) <=? 57)); cbn.
  - rewrite (IH (10 * acc + (Z.of_N (N_of_ascii c) - 48))). naive_solver.
  - split; [by intros [? _]|by intros [? ?]].
Qed.

(** ** Encoding/json

    The decoder on text (Unmarshal, Decoder), the values it produces, and the text
    Marshal writes for a string and for a value; the decoder inverts it. *)

(** ** JSON values *)

#[local] Set Warnings "-register-all".
Inductive json :=
  | JNull
  | JBool (b : bool)
  | JNumber (n : option Z)
  | JString (s : string)
  | JArray (l : list json)
  | JObject (members : list (string * json)).

(** [json.Unmarshal] into a string, a bool, an int of [bits] bits and a slice:
    null leaves the zero value. *)
Definition unmarshal_string (v : json) : option string :=
  match v with JString s => Some s | JNull => Some "" | _ => None end.
Definition unmarshal_bool (v : json) : option bool :=
  match v with JBool b => Some b | JNull => Some false | _ => None end.
Definition unmarshal_int (bits : Z) (v : json) : option Z :=
  match v with
  | JNumber (Some n) => if (- 2 ^ (bits - 1) <=? n) && (n <? 2 ^ (bits - 1)) then Some n else None
  | JNull => Some 0
  | _ => None
  end.
Definition unmarshal_slice (v : json) : option (list json) :=
  match v with JArray l => Some l | JNull => Some [] | _ => None end.

(** Into a map: the last of several members of one name stays. *)
Definition unmarshal_map (v : json) : option (gmap string json) :=
  match v with
  | JObject l => Some (foldl (λ m kv, <[kv.1 := kv.2]> m) ∅ l)
  | JNull => Some ∅
  | _ => None
  end.

(** ** Members of a struct *)

(** A member matches the name of a field without regard to case (the long s and the
    Kelvin sign fold too); the last occurrence stays. *)
Definition fold_rune (r : Z) : Z :=
  if in_range 65 90 r then r + 32 else if r =? 383 then 115 else if r =? 8490 then 107 else r.
Definition folds_to (k name : string) : bool := bool_decide (fold_rune <$> runes k = runes name).

Fixpoint struct_member (name : string) (l : list (string * json)) (acc : string) : option string :=
  match l with
  | [] => Some acc
  | (k, v) :: l =>
      if folds_to k name then
        match v with
        | JString s => struct_member name l s
        | JNull => struct_member name l acc
        | _ => None
        end
      else struct_member name l acc
  end.

(** ** Strings *)

(** The escapes of a string, from its opening quote on: a byte, or a code unit of
    [\u].  A control byte and an unknown escape are syntax errors. *)
Definition hex_value (c : ascii) : option Z :=
  let b := byte_of c in
  if in_range 48 57 b then Some (b - 48)
  else if in_range 97 102 b then Some (b - 87)
  else if in_range 65 70 b then Some (b - 55)
  else None.
Definition hex4 (a b c d : ascii) : option Z :=
  x ← hex_value a; y ← hex_value b; z ← hex_value c; w ← hex_value d; Some (x * 4096 + y * 256 + z * 16 + w).

Definition escaped (c : ascii) : option Z :=
  match byte_of c with
  | 34 => Some 34 | 92 => Some 92 | 47 => Some 47
  | 98 => Some 8 | 102 => Some 12 | 110 => Some 10 | 114 => Some 13 | 116 => Some 9
  | _ => None
  end.

Fixpoint string_items (s : string) : option (list (ascii + Z) * string) :=
  match s with
  | "" => None
  | String c s1 =>
      if byte_of c =? 34 then Some ([], s1)
      else if byte_of c =? 92 then
        match s1 with
        | "" => None
        | String e s2 =>
            if byte_of e =? 117 then
              match s2 with
              | String a (String b (String c (String d s3))) =>
                  u ← hex4 a b c d; r ← string_items s3; Some (inr u :: r.1, r.2)
              | _ => None
              end
            else x ← escaped e; r ← string_items s2; Some (inl (to_byte x) :: r.1, r.2)
        end
      else if byte_of c <? 32 then None
      else r ← string_items s1; Some (inl c :: r.1, r.2)
  end.

(** Two code units of a surrogate pair are one rune, a lone one is RuneError. *)
Definition is_surrogate (u : Z) : bool := in_range 55296 57343 u.
Fixpoint join_items (l : list (ascii + Z)) : string :=
  match l with
  | [] => ""
  | inl c :: l => String c (join_items l)
  | inr u :: l1 =>
      if is_surrogate u then
        match l1 with
        | inr v :: l2 =>
            if in_range 55296 56319 u && in_range 56320 57343 v
            then EncodeRune (65536 + (u - 55296) * 1024 + (v - 56320)) +:+ join_items l2
            else EncodeRune RuneError +:+ join_items l1
        | _ => EncodeRune RuneError +:+ join_items l1
        end
      else EncodeRune u +:+ join_items l1
  end.

(** Each invalid byte becomes RuneError. *)
Definition replace_invalid (s : string) : string := str_concat ((λ p, EncodeRune p.1) <$> range s).

Definition unquote (s : string) : option (string * string) :=
  r ← string_items s; Some (replace_invalid (join_items r.1), r.2).

(** ** Numbers *)

Definition is_digit (c : ascii) : bool := in_range 48 57 (byte_of c).
Fixpoint take_digits (s : string) : string * string :=
  match s with
  | String c r => if is_digit c then let p := take_digits r in (String c p.1, p.2) else ("", s)
  | "" => ("", "")
  end.
(** The integer part: a zero stands alone. *)
Definition int_part (s : string) : option (string * string) :=
  match s with
  | String c r =>
      if byte_of c =? 48 then Some ("0", r)
      else let p := take_digits s in if bool_decide (p.1 = "") then None else Some p
  | "" => None
  end.
Definition fraction_part (s : string) : option (bool * string) :=
  match s with
  | String c r =>
      if byte_of c =? 46 then let p := take_digits r in if bool_decide (p.1 = "") then None else Some (true, p.2)
      else Some (false, s)
  | "" => Some (false, "")
  end.
Definition exponent_part (s : string) : option (bool * string) :=
  match s with
  | String c r =>
      if (byte_of c =? 101) || (byte_of c =? 69) then
        let r := match r with String d r' => if (byte_of d =? 43) || (byte_of d =? 45) then r' else r | "" => "" end in
        let p := take_digits r in if bool_decide (p.1 = "") then None else Some (true, p.2)
      else Some (false, s)
  | "" => Some (false, "")
  end.
Definition number (s : string) : option (json * string) :=
  let '(neg, s1) := match s with String c r => if byte_of c =? 45 then (true, r) else (false, s) | "" => (false, "") end in
  i ← int_part s1;
  f ← fraction_part i.2;
  e ← exponent_part f.2;
  let n := digits_value 0 i.1 in
  Some (JNumber (if f.1 || e.1 then None else if neg : bool then Z.opp <$> n else n), e.2).

(** ** Values *)

Definition json_space (c : ascii) : bool := let b := byte_of c in (b =? 32) || (b =? 9) || (b =? 10) || (b =? 13).
Fixpoint skip_space (s : string) : string :=
  match s with String c r => if json_space c then skip_space r else s | "" => "" end.
(** What follows a literal. *)
Fixpoint literal (w s : string) : option string :=
  match w, s with
  | "", _ => Some s
  | String a w, String b s => if bool_decide (a = b) then literal w s else None
  | _, _ => None
  end.

Definition maxNestingDepth : Z := 10000.

(** A value at the front of the text, and the rest. *)
Fixpoint value (fuel : nat) (depth : Z) (s : string) : option (json * string) :=
  match fuel with
  | O => None
  | S fuel =>
      match skip_space s with
      | "" => None
      | String c r as t =>
          let b := byte_of c in
          if b =? 34 then p ← unquote r; Some (JString p.1, p.2)
          else if b =? 123 then
            if maxNestingDepth <=? depth then None
            else match literal "}" (skip_space r) with
                 | Some r => Some (JObject [], r)
                 | None => p ← members fuel (depth + 1) r; Some (JObject p.1, p.2)
                 end
          else if b =? 91 then
            if maxNestingDepth <=? depth then None
            else match literal "]" (skip_space r) with
                 | Some r => Some (JArray [], r)
                 | None => p ← elements fuel (depth + 1) r; Some (JArray p.1, p.2)
                 end
          else if b =? 116 then r ← literal "true" t; Some (JBool true, r)
          else if b =? 102 then r ← literal "false" t; Some (JBool false, r)
          else if b =? 110 then r ← literal "null" t; Some (JNull, r)
          else number t
      end
  end
with elements (fuel : nat) (depth : Z) (s : string) : option (list json * string) :=
  match fuel with
  | O => None
  | S fuel =>
      p ← value fuel depth s;
      match literal "," (skip_space p.2) with
      | Some r => q ← elements fuel depth r; Some (p.1 :: q.1, q.2)
      | None => r ← literal "]" (skip_space p.2); Some ([p.1], r)
      end
  end
with members (fuel : nat) (depth : Z) (s : string) : option (list (string * json) * string) :=
  match fuel with
  | O => None
  | S fuel =>
      r ← literal (String (ascii_of_nat 34) "") (skip_space s);
      k ← unquote r;
      r ← literal ":" (skip_space k.2);
      p ← value fuel depth r;
      match literal "," (skip_space p.2) with
      | Some r => q ← members fuel depth r; Some ((k.1, p.1) :: q.1, q.2)
      | None => r ← literal "}" (skip_space p.2); Some ([(k.1, p.1)], r)
      end
  end.

(** [Decoder.Decode]: the first value and what follows it. *)
Definition decode_first (s : string) : option (json * string) := value (S (S (2 * String.length s))) 0 s.
(** [json.Unmarshal]: one value, then only white space. *)
Definition json_decode (s : string) : option json :=
  p ← decode_first s; if bool_decide (skip_space p.2 = "") then Some p.1 else None.

(** ** What Marshal writes *)

Definition hex_char (n : Z) : ascii := to_byte (if n <? 10 then 48 + n else 87 + n).
Definition backslash (s : string) : string := String (to_byte 92) s.
Definition quote_mark : string := String (to_byte 34) "".

Definition quote_rune (p : Z * string) : string :=
  let '(r, bytes) := p in
  if (r =? 34) || (r =? 92) then backslash bytes
  else if r =? 8 then backslash "b" else if r =? 12 then backslash "f" else if r =? 10 then backslash "n"
  else if r =? 13 then backslash "r" else if r =? 9 then backslash "t"
  else if (r <? 32) || (r =? 60) || (r =? 62) || (r =? 38)
  then backslash (String "u" (String "0" (String "0" (String (hex_char (r / 16)) (str1 (hex_char (r mod 16)))))))
  else if bad_rune p then backslash "ufffd"
  else if (r =? 8232) || (r =? 8233) then backslash ("u202" +:+ str1 (hex_char (r mod 16)))
  else bytes.
Definition marshal_string (s : string) : string := quote_mark +:+ str_concat (quote_rune <$> range s) +:+ quote_mark.

(** A value without numbers that are no integers. *)
Fixpoint join_with (sep : string) (l : list string) : string :=
  match l with [] => "" | [w] => w | w :: l => w +:+ sep +:+ join_with sep l end.
Fixpoint marshal (v : json) : string :=
  match v with
  | JNull => "null"
  | JBool b => if b then "true" else "false"
  | JNumber n => Itoa (default 0 n)
  | JString s => marshal_string s
  | JArray l => "[" +:+ join_with "," (marshal <$> l) +:+ "]"
  | JObject l => "{" +:+ join_with "," ((λ kv, marshal_string kv.1 +:+ ":" +:+ marshal kv.2) <$> l) +:+ "}"
  end.

(** ** Unmarshal inverts Marshal *)

(** ** Strings *)

(** What the decoder reads of an encoded rune. *)
Definition items_of (p : Z * string) : list (ascii + Z) :=
  if (p.1 =? 60) || (p.1 =? 62) || (p.1 =? 38) || (p.1 =? 8232) || (p.1 =? 8233) || (p.1 <? 32) && negb (bool_decide (p.1 ∈ [8; 9; 10; 12; 13]))
  then [inr p.1] else inl <$> String.list_ascii_of_string p.2.

Lemma string_items_plain w t :
  str_forall (λ c, negb (byte_of c =? 34) && negb (byte_of c =? 92) && negb (byte_of c <? 32)) w = true →
  string_items (w +:+ t) = r ← string_items t; Some ((inl <$> String.list_ascii_of_string w) ++ r.1, r.2).
Proof.
  induction w as [|c w IH]; cbn [str_forall String.append].
  - intros _. cbn. by destruct (string_items t) as [[? ?]|].
  - rewrite !andb_true_iff, !negb_true_iff. intros [[[H1 H2] H3] Hw]. cbn [string_items]. rewrite H1, H2, H3, IH by done. by destruct (string_items t) as [[? ?]|].
Qed.

(** The three shapes of an encoded ASCII byte: itself, an escape, a code unit. *)
Definition ascii_shape (a : ascii) : bool :=
  let p := (byte_of a, str1 a) in
  match quote_rune p with
  | String b "" => bool_decide (b = a ∧ items_of p = [inl a]) && negb (byte_of b =? 34) && negb (byte_of b =? 92) && negb (byte_of b <? 32)
  | String b (String e "") => (byte_of b =? 92) && negb (byte_of e =? 117) && bool_decide (escaped e = Some (byte_of a) ∧ items_of p = [inl a])
  | String b (String e (String h1 (String h2 (String h3 (String h4 ""))))) =>
      (byte_of b =? 92) && (byte_of e =? 117) && bool_decide (hex4 h1 h2 h3 h4 = Some (byte_of a) ∧ items_of p = [inr (byte_of a)])
  | _ => false
  end.

Lemma ascii_shape_all a : byte_of a < 128 → ascii_shape a = true.
Proof.
  intros Ha. assert (H : forallb (λ n, ascii_shape (ascii_of_nat n)) (seq 0 128) = true) by (vm_compute; reflexivity).
  rewrite forallb_forall in H. rewrite <-(ascii_nat_embedding a). apply H, in_seq. unfold byte_of in Ha. unfold nat_of_ascii. lia.
Qed.

Lemma bind_id (r : option (list (ascii + Z) * string)) l : (r ≫= λ r, Some (l :: r.1, r.2)) = (r ≫= λ r, Some ([l] ++ r.1, r.2)).
Proof. by destruct r. Qed.

Lemma quote_rune_items p t s : bad_rune p = false → p ∈ range s →
  string_items (quote_rune p +:+ t) = r ← string_items t; Some (items_of p ++ r.1, r.2).
Proof.
  intros Hb Hp. destruct (range_bytes s p Hp) as [(a & -> & Ha)|[Hh Hge]].
  - pose proof (ascii_shape_all a Ha) as H. unfold ascii_shape in H.
    destruct (quote_rune (byte_of a, str1 a)) as [|b [|e [|h1 [|h2 [|h3 [|h4 [|? ?]]]]]]]; try discriminate H; rewrite !andb_true_iff in H.
    + destruct H as [[[[-> ->]%bool_decide_eq_true H1%negb_true_iff] H2%negb_true_iff] H3%negb_true_iff]. cbn [String.append string_items]. by rewrite H1, H2, H3, bind_id.
    + destruct H as [[H1%Z.eqb_eq H2%negb_true_iff] [H3 ->]%bool_decide_eq_true]. cbn [String.append string_items]. rewrite H1, H2, H3. cbn.
      by rewrite to_byte_of, bind_id.
    + destruct H as [[H1%Z.eqb_eq H2] [H3 ->]%bool_decide_eq_true]. cbn [String.append string_items]. rewrite H1, H2, H3. cbn. by rewrite bind_id.
  - destruct p as [r w]. cbn [fst snd] in *. unfold quote_rune, items_of. cbn [fst snd]. rewrite Hb.
    repeat match goal with |- context [r =? ?k] => lazymatch k with 8232 => fail | 8233 => fail | _ => rewrite (proj2 (Z.eqb_neq r k)) by lia end end.
    rewrite (proj2 (Z.ltb_ge r 32)) by lia. cbn [orb andb]. rewrite !orb_false_r.
    destruct ((r =? 8232) || (r =? 8233)) eqn:E.
    + apply orb_true_iff in E as [->%Z.eqb_eq| ->%Z.eqb_eq]; cbn; by destruct (string_items t) as [[? ?]|].
    + apply string_items_plain. unfold high, RuneSelf in Hh. clear -Hh. induction w as [|c w IH]; [done|]. cbn in *. apply andb_true_iff in Hh as [Hc Hh].
      rewrite IH by done. rewrite (proj2 (Z.eqb_neq _ 34)), (proj2 (Z.eqb_neq _ 92)), (proj2 (Z.ltb_ge _ 32)) by lia. done.
Qed.

Lemma join_bytes w l : join_items ((inl <$> String.list_ascii_of_string w) ++ l) = w +:+ join_items l.
Proof. induction w as [|c w IH]; [done|]. cbn. by rewrite IH. Qed.

Lemma items_join p l s : bad_rune p = false → p ∈ range s → join_items (items_of p ++ l) = p.2 +:+ join_items l.
Proof.
  intros Hb Hp. destruct (range_good s p Hp Hb) as [He _]. unfold items_of. destruct (_ || _) eqn:E; [|apply join_bytes].
  assert (Hs : is_surrogate p.1 = false).
  { unfold is_surrogate. apply in_range_false. repeat (apply orb_true_iff in E as [E|E]); [apply Z.eqb_eq in E; lia..|]. apply andb_true_iff in E as [E _]. lia. }
  cbn [app join_items]. by rewrite Hs, He.
Qed.

Lemma replace_valid s : ValidString s = true → replace_invalid s = s.
Proof.
  intros Hv. unfold replace_invalid. rewrite <-(range_concat s) at 2. f_equal. apply list_fmap_ext. intros i p Hi%list_elem_of_lookup_2. by apply (range_encode s).
Qed.

(** An invalid byte is written as the escape of RuneError. *)
Definition sent_items (p : Z * string) : list (ascii + Z) := if bad_rune p then [inr RuneError] else items_of p.

Lemma sent_rune_items p t s : p ∈ range s → string_items (quote_rune p +:+ t) = r ← string_items t; Some (sent_items p ++ r.1, r.2).
Proof.
  intros Hp. unfold sent_items. destruct (bad_rune p) eqn:Hb; [|by apply (quote_rune_items p t s)].
  pose proof Hb as [E _]%bool_decide_eq_true. destruct p as [r w]. cbn [fst snd] in *. subst r. unfold quote_rune. rewrite Hb. cbn.
  by destruct (string_items t) as [[? ?]|].
Qed.

Lemma sent_join p l s : p ∈ range s → join_items (sent_items p ++ l) = EncodeRune p.1 +:+ join_items l.
Proof.
  intros Hp. unfold sent_items. destruct (bad_rune p) eqn:Hb.
  - pose proof Hb as [E _]%bool_decide_eq_true. by rewrite E.
  - rewrite (items_join p l s) by done. by destruct (range_good s p Hp Hb) as [-> _].
Qed.

Lemma encode_valid s p : p ∈ range s → ValidString (EncodeRune p.1) = true.
Proof.
  intros Hp. destruct (bad_rune p) eqn:Hb.
  - pose proof Hb as [E _]%bool_decide_eq_true. by rewrite E.
  - destruct (range_good s p Hp Hb) as [-> Hr]. unfold ValidString. by rewrite Hr; cbn; rewrite Hb.
Qed.

Lemma replace_is_valid s : ValidString (replace_invalid s) = true.
Proof.
  unfold replace_invalid. assert (H : ∀ l, (∀ p, p ∈ l → p ∈ range s) → ValidString (str_concat ((λ p, EncodeRune p.1) <$> l)) = true); [|by apply H].
  induction l as [|p l IH]; intros Hl; [done|]. rewrite fmap_cons. cbn [str_concat]. apply valid_app; [apply (encode_valid s), Hl; by left|].
  apply IH. intros q Hq. apply Hl. by right.
Qed.

(** What the decoder reads of an encoded string. *)
Lemma unquote_sent s t : unquote (str_concat (quote_rune <$> range s) +:+ quote_mark +:+ t) = Some (replace_invalid s, t).
Proof.
  assert (H : ∀ l, (∀ p, p ∈ l → p ∈ range s) → string_items (str_concat (quote_rune <$> l) +:+ quote_mark +:+ t) = Some (concat (sent_items <$> l), t) ∧
    join_items (concat (sent_items <$> l)) = str_concat ((λ p, EncodeRune p.1) <$> l)).
  { induction l as [|p l IH]; intros Hl; [done|]. destruct IH as [E1 E2]; [intros q Hq; apply Hl; by right|]. rewrite !fmap_cons. cbn [str_concat concat].
    rewrite str_app_assoc, (sent_rune_items p _ s), E1 by (apply Hl; by left). split; [done|]. rewrite (sent_join p _ s) by (apply Hl; by left). by rewrite E2. }
  destruct (H (range s)) as [E1 E2]; [done|]. unfold unquote. rewrite E1. cbn [mbind option_bind fst snd]. rewrite E2.
  fold (replace_invalid s). by rewrite replace_valid by apply replace_is_valid.
Qed.

Lemma unquote_marshal s t : ValidString s = true → unquote (str_concat (quote_rune <$> range s) +:+ quote_mark +:+ t) = Some (s, t).
Proof. intros Hv. by rewrite unquote_sent, replace_valid. Qed.

Lemma value_at_string t fuel depth : value (S fuel) depth (quote_mark +:+ t) = p ← unquote t; Some (JString p.1, p.2).
Proof. reflexivity. Qed.

(** A string through the encoder and the decoder: every byte that is no part
    of a rune arrives as RuneError. *)
Lemma decode_marshal_string s : json_decode (marshal (JString s)) = Some (JString (replace_invalid s)).
Proof.
  unfold json_decode, decode_first. cbn [marshal]. unfold marshal_string. rewrite value_at_string.
  pose proof (unquote_sent s "") as Hu. rewrite str_app_nil_r in Hu. by rewrite Hu.
Qed.

(** The text never gets shorter. *)
Lemma replace_length s : (String.length s <= String.length (replace_invalid s))%nat.
Proof.
  rewrite <-(range_concat s) at 1. unfold replace_invalid.
  assert (H : ∀ l, (∀ p, p ∈ l → p ∈ range s) → (String.length (str_concat l.*2) <= String.length (str_concat ((λ p, EncodeRune p.1) <$> l)))%nat); [|by apply H].
  induction l as [|p l IH]; intros Hl; [done|]. rewrite !fmap_cons. cbn [str_concat]. rewrite !str_length_app.
  assert (Hp : p ∈ range s) by (apply Hl; by left). specialize (IH (λ q Hq, Hl q (list_elem_of_further _ _ _ Hq))).
  destruct (bad_rune p) eqn:Hb.
  - pose proof Hb as [E1 E2]%bool_decide_eq_true. rewrite E1, E2. cbn. lia.
  - destruct (range_good s p Hp Hb) as [-> _]. lia.
Qed.

(** ** Numbers *)

(** The text does not go on as a number. *)
Definition number_ends (s : string) : bool :=
  match s with "" => true | String c _ => negb (is_digit c || (byte_of c =? 46) || (byte_of c =? 101) || (byte_of c =? 69)) end.

Lemma take_digits_app w t : all_bytes (in_range 48 57) w = true → number_ends t = true → take_digits (w +:+ t) = (w, t).
Proof.
  intros Hw Ht. induction w as [|c w IH].
  - destruct t as [|c t]; [done|]. cbn in *. destruct (is_digit c); [done|]. done.
  - unfold all_bytes in *. cbn in *. apply andb_true_iff in Hw as [Hc Hw]. unfold is_digit. rewrite Hc, IH by done. done.
Qed.

Lemma number_Itoa n t : 0 <= n <= maxInt64 → number_ends t = true → number (Itoa n +:+ t) = Some (JNumber (Some n), t).
Proof.
  intros Hn Ht. destruct (Itoa_canonical n Hn) as [(c & r & E & Hz) Hv]. rewrite E in *.
  assert (Hd : all_bytes (in_range 48 57) (String c r) = true) by (by apply (digits_of_bytes _ 0); exists n).
  assert (Hc : in_range 48 57 (byte_of c) = true) by (unfold all_bytes in Hd; cbn in Hd; by apply andb_true_iff in Hd as [? _]).
  apply in_range_spec in Hc. unfold number. cbn [String.append]. rewrite (proj2 (Z.eqb_neq _ 45)) by lia.
  assert (Hi : int_part (String c (r +:+ t)) = Some (String c r, t)).
  { unfold int_part. destruct (Z.eqb_spec (byte_of c) 48) as [E0|].
    - assert (r = "") as ->. { destruct r; [done|]. destruct Hz; [done|]. by rewrite <-(to_byte_of c), E0. }
      cbn. by rewrite <-(to_byte_of c), E0.
    - change (String c (r +:+ t)) with (String c r +:+ t). rewrite take_digits_app by done. cbn. by rewrite bool_decide_eq_false_2. }
  rewrite Hi. cbn [mbind option_bind fst snd]. destruct t as [|d t]; [cbn [fraction_part exponent_part mbind option_bind fst snd orb]; by rewrite Hv|].
  cbn [number_ends] in Ht. apply negb_true_iff in Ht. repeat (apply orb_false_iff in Ht as [Ht ?]). cbn [fraction_part]. rewrite H1. cbn [mbind option_bind fst snd exponent_part].
  rewrite H0, H. cbn [orb mbind option_bind fst snd]. by rewrite Hv.
Qed.

(** ** Values *)

(** The values Marshal writes and Unmarshal reads back. *)
Fixpoint plain_json (v : json) : bool :=
  match v with
  | JNull | JBool _ => true
  | JNumber None => false
  | JNumber (Some n) => (0 <=? n) && (n <=? maxInt64)
  | JString s => ValidString s
  | JArray l => forallb plain_json l
  | JObject l => forallb (λ kv, ValidString kv.1 && plain_json kv.2) l
  end.
Fixpoint nesting (v : json) : Z :=
  match v with
  | JArray l => 1 + foldr Z.max 0 (nesting <$> l)
  | JObject l => 1 + foldr Z.max 0 ((λ kv, nesting kv.2) <$> l)
  | _ => 0
  end.

Lemma json_ind' (P : json → Prop) :
  P JNull → (∀ b, P (JBool b)) → (∀ n, P (JNumber n)) → (∀ s, P (JString s)) →
  (∀ l, Forall P l → P (JArray l)) → (∀ l, Forall (λ kv, P kv.2) l → P (JObject l)) → ∀ v, P v.
Proof.
  intros H1 H2 H3 H4 H5 H6. fix IH 1. intros [|b|n|s|l|l]; [exact H1|apply H2|apply H3|apply H4|apply H5|apply H6].
  - induction l; constructor; [apply IH|assumption].
  - induction l as [|[k v] l]; constructor; [apply IH|assumption].
Qed.

Definition reads_back (v : json) : Prop :=
  ∀ fuel depth t, (2 * String.length (marshal v) <= fuel)%nat → depth + nesting v <= maxNestingDepth → plain_json v = true → number_ends t = true →
    value fuel depth (marshal v +:+ t) = Some (v, t).

Lemma marshal_starts v t : plain_json v = true → ∃ c r, marshal v +:+ t = String c r ∧ json_space c = false ∧ c ≠ "]"%char ∧ (1 <= String.length (marshal v))%nat.
Proof.
  destruct v as [|[]|[n|]|s|l|l]; intros Hp; cbn [marshal]; try (eexists _, _; split; [reflexivity|]; split; [done|]; split; [done|cbn; lia]); [|done].
  cbn in Hp. destruct (Itoa_canonical n ltac:(lia)) as [(c & r & E & Hz) Hv]. cbn [default]. unfold id. rewrite E in *. exists c, (r +:+ t). split; [done|].
  cbn in Hv. destruct (digit_of c) as [d|] eqn:Ed; [|done]. apply digit_of_range in Ed as [H1 H2]. split_and!; [|intros ->; vm_compute in H2; lia|cbn; lia].
  unfold json_space. rewrite !(proj2 (Z.eqb_neq _ _)) by lia. done.
Qed.

Lemma skip_space_none c r : json_space c = false → skip_space (String c r) = String c r.
Proof. intros H. cbn. by rewrite H. Qed.

Lemma value_leaf v fuel depth t : (1 <= fuel)%nat → plain_json v = true → number_ends t = true →
  match v with JArray _ | JObject _ => False | _ => True end → value fuel depth (marshal v +:+ t) = Some (v, t).
Proof.
  destruct fuel as [|fuel]; [lia|]. intros _ Hp Ht Hk. destruct (marshal_starts v t Hp) as (c & r & E & Hs & _). cbn [value].
  rewrite E, skip_space_none by done. destruct v as [|[]|[n|]|s|l|l]; try done; cbn [marshal] in E.
  1,2,3: injection E as <- <-; cbn; by destruct t.
  - assert (Hn : 0 <= n <= maxInt64) by (cbn in Hp; lia). pose proof (number_Itoa n t Hn Ht) as Hnum. cbn [default] in E. unfold id in E. rewrite E in Hnum.
    destruct (Itoa_canonical n Hn) as [(c' & r' & E' & _) Hv]. rewrite E' in *. injection E as <- <-. cbn in Hv. destruct (digit_of c') as [d|] eqn:Ed; [|done].
    apply digit_of_range in Ed as [H1 H2]. rewrite !(proj2 (Z.eqb_neq (byte_of c') _)) by lia. done.
  - unfold marshal_string in E. rewrite !str_app_assoc in E. cbn in E. injection E as <- <-. cbn in Hp.
    pose proof (unquote_marshal s t Hp) as Hu. cbn [String.append quote_mark] in Hu. unfold quote_mark in Hu. cbn [String.append] in Hu.
    change (to_byte 34) with "034"%char in Hu. change (byte_of "034" =? 34) with true. cbn [mbind option_bind]. by rewrite Hu.
Qed.

Lemma join_with_cons sep w l : l ≠ [] → join_with sep (w :: l) = w +:+ (sep +:+ join_with sep l).
Proof. by destruct l. Qed.
Lemma comma_follows x : literal "," (skip_space ("," +:+ x)) = Some x.
Proof. reflexivity. Qed.
Lemma foldr_max_cons x l : foldr Z.max 0 (x :: l) = Z.max x (foldr Z.max 0 l).
Proof. reflexivity. Qed.

(** Elements and members, each read back. *)
Lemma elements_marshal l fuel depth t : l ≠ [] → Forall reads_back l → forallb plain_json l = true →
  (2 * String.length (join_with "," (marshal <$> l)) + 1 <= fuel)%nat → depth + foldr Z.max 0 (nesting <$> l) <= maxNestingDepth →
  elements fuel depth (join_with "," (marshal <$> l) +:+ "]" +:+ t) = Some (l, t).
Proof.
  revert fuel. induction l as [|v l IH]; [done|]. intros fuel _ [Hv Hl]%Forall_cons [Hp Hps]%andb_true_iff Hf Hd.
  destruct fuel as [|fuel]; [lia|]. cbn [elements]. rewrite !fmap_cons in *. rewrite foldr_max_cons in Hd. destruct (decide (l = [])) as [->|Hne].
  - cbn [fmap list_fmap join_with] in *. rewrite (Hv fuel depth ("]" +:+ t)) by (done || lia). done.
  - assert (marshal <$> l ≠ []) by by destruct l. rewrite join_with_cons in * by done. rewrite !str_length_app in Hf. cbn [String.length] in Hf. rewrite !str_app_assoc.
    rewrite (Hv fuel depth) by (done || lia). cbn [mbind option_bind fst snd]. rewrite comma_follows, IH by (done || lia). done.
Qed.

Lemma members_marshal l fuel depth t : l ≠ [] → Forall (λ kv, reads_back kv.2) l → forallb (λ kv, ValidString kv.1 && plain_json kv.2) l = true →
  (2 * String.length (join_with "," ((λ kv, marshal_string kv.1 +:+ ":" +:+ marshal kv.2) <$> l)) + 1 <= fuel)%nat →
  depth + foldr Z.max 0 ((λ kv, nesting kv.2) <$> l) <= maxNestingDepth →
  members fuel depth (join_with "," ((λ kv, marshal_string kv.1 +:+ ":" +:+ marshal kv.2) <$> l) +:+ "}" +:+ t) = Some (l, t).
Proof.
  revert fuel. induction l as [|[k v] l IH]; [done|]. intros fuel _ [Hv Hl]%Forall_cons [[Hk Hp]%andb_true_iff Hps]%andb_true_iff Hf Hd.
  destruct fuel as [|fuel]; [lia|]. rewrite !fmap_cons in *. rewrite foldr_max_cons in Hd. cbn [fst snd] in *.
  assert (Hkey : ∀ x, members (S fuel) depth (marshal_string k +:+ ":" +:+ x) =
      p ← value fuel depth x; match literal "," (skip_space p.2) with
        | Some r => q ← members fuel depth r; Some ((k, p.1) :: q.1, q.2)
        | None => r ← literal "}" (skip_space p.2); Some ([(k, p.1)], r) end).
  { intros x. unfold marshal_string. rewrite !str_app_assoc. cbn [members]. change (literal _ (skip_space (quote_mark +:+ ?y))) with (Some y).
    cbn [mbind option_bind]. rewrite unquote_marshal by done. done. }
  destruct (decide (l = [])) as [->|Hne].
  - cbn [fmap list_fmap join_with] in *. rewrite !str_length_app in Hf. cbn [String.length] in Hf. rewrite !str_app_assoc, Hkey, (Hv fuel depth ("}" +:+ t)) by (done || lia). done.
  - match type of Hd with _ + Z.max _ (foldr _ _ (?f <$> l)) <= _ => idtac end. assert ((λ kv, marshal_string kv.1 +:+ ":" +:+ marshal kv.2) <$> l ≠ []) by by destruct l.
    rewrite join_with_cons in * by done. rewrite !str_length_app in Hf. cbn [String.length] in Hf. rewrite !str_app_assoc, Hkey.
    rewrite (Hv fuel depth) by (done || lia). cbn [mbind option_bind fst snd]. rewrite comma_follows, IH by (done || lia). done.
Qed.

Lemma marshal_reads_back v : reads_back v.
Proof.
  induction v as [|b|n|s|l IH|l IH] using json_ind'; intros fuel depth t Hf Hd Hp Ht;
    try (destruct (marshal_starts _ t Hp) as (? & ? & _ & _ & _ & Hl); apply value_leaf; (done || lia)).
  - destruct fuel as [|fuel]; [cbn in Hf; lia|]. cbn [marshal] in *. rewrite !str_length_app in Hf. cbn [String.length] in Hf. rewrite !str_app_assoc.
    cbn [nesting] in Hd. assert (0 <= foldr Z.max 0 (nesting <$> l)) by (clear; induction l; cbn in *; lia).
    cbn [value]. change (skip_space ("[" +:+ ?x)) with (String "[" x). cbn iota. change (byte_of "[") with 91. cbn [Z.eqb Pos.eqb].
    rewrite (proj2 (Z.leb_gt _ _)) by lia. destruct (decide (l = [])) as [->|Hne]; [done|].
    assert (Hh : ∀ x, literal "]" (skip_space (join_with "," (marshal <$> l) +:+ x)) = None).
    { intros x. destruct l as [|w l]; [done|]. cbn [forallb plain_json] in Hp. apply andb_true_iff in Hp as [Hw _].
      destruct (marshal_starts w "" Hw) as (c & r & E & Hs & Hc & _). rewrite str_app_nil_r in E.
      assert (∃ y, join_with "," (marshal <$> w :: l) = marshal w +:+ y) as [y ->].
      { rewrite fmap_cons. destruct (marshal <$> l) as [|z zs]; [exists ""; by rewrite str_app_nil_r|by eexists]. }
      rewrite E. cbn [String.append]. rewrite skip_space_none by done. cbn. by rewrite bool_decide_eq_false_2 by congruence. }
    rewrite Hh, (elements_marshal l fuel (depth + 1) t) by (done || lia). done.
  - destruct fuel as [|fuel]; [cbn in Hf; lia|]. cbn [marshal] in *. rewrite !str_length_app in Hf. cbn [String.length] in Hf. rewrite !str_app_assoc.
    cbn [nesting] in Hd. assert (0 <= foldr Z.max 0 ((λ kv : string * json, nesting kv.2) <$> l)) by (clear; induction l; cbn in *; lia).
    cbn [value]. change (skip_space ("{" +:+ ?x)) with (String "{" x). cbn iota. change (byte_of "{") with 123. cbn [Z.eqb Pos.eqb].
    rewrite (proj2 (Z.leb_gt _ _)) by lia. destruct (decide (l = [])) as [->|Hne]; [done|].
    assert (Hh : ∀ x, literal "}" (skip_space (join_with "," ((λ kv, marshal_string kv.1 +:+ ":" +:+ marshal kv.2) <$> l) +:+ x)) = None).
    { intros x. destruct l as [|[k w] l]; [done|]. rewrite fmap_cons. by destruct ((λ kv : string * json, marshal_string kv.1 +:+ ":" +:+ marshal kv.2) <$> l). }
    rewrite Hh.
    rewrite (members_marshal l fuel (depth + 1) t) by (done || lia). done.
Qed.

(** Unmarshal of what Marshal writes is the value again. *)
Lemma decode_marshal v : plain_json v = true → nesting v <= maxNestingDepth → json_decode (marshal v) = Some v.
Proof.
  intros Hp Hn. unfold json_decode, decode_first. pose proof (marshal_reads_back v (S (S (2 * String.length (marshal v)))) 0 "" ltac:(lia) Hn Hp eq_refl) as H.
  rewrite str_app_nil_r in H. by rewrite H.
Qed.
