(* ===== verification/BoundedBuffer.v ===== *)
(** * BoundedBuffer: the operation log buffer and the chunked log reads

    src/operation.go [boundedBuffer] (Write, ReadFrom, Range), the offset
    parameter of src/build.go and the client's drain loop of src/client.go.
    Specification: the buffer holds the last [maxSize] bytes of everything
    ever written. *)
From S2P Require Import Prelude GoStrings Json.
Local Open Scope Z_scope.

Definition bytes : Type := list ascii.

Record boundedBuffer := mkBuffer {
  buf : bytes;
  maxSize : Z;
  b_offset : Z;
  totalLen : Z;
}.

Definition newBoundedBuffer (maxSize : Z) : boundedBuffer := mkBuffer [] maxSize 0 0.

Definition zlen (p : bytes) : Z := Z.of_nat (length p).

Definition Write (p : bytes) (b : boundedBuffer) : Z * boundedBuffer :=
  let buf' := buf b ++ p in
  let totalLen' := totalLen b + zlen p in
  if maxSize b <? zlen buf' then
    let trim := zlen buf' - maxSize b in
    (zlen p, mkBuffer (drop (Z.to_nat trim) buf') (maxSize b) (b_offset b + trim) totalLen')
  else (zlen p, mkBuffer buf' (maxSize b) (b_offset b) totalLen').

(** What one [r.Read] returned: the bytes, and its error if any. *)
Inductive read_error := io_EOF | read_failed.
Definition read_result : Type := bytes * option read_error.

(** [ReadFrom] over the results the reader gives; [None] when they run out
    before an error, that is while the reader still blocks. *)
Fixpoint ReadFrom (reads : list read_result) (total : Z) (b : boundedBuffer)
    : option (Z * option read_error * boundedBuffer) :=
  match reads with
  | [] => None
  | (p, err) :: reads =>
      let '(total, b) := if 0 <? zlen p then (total + zlen p, (Write p b).2) else (total, b) in
      match err with
      | Some io_EOF => Some (total, None, b)
      | Some read_failed => Some (total, Some read_failed, b)
      | None => ReadFrom reads total b
      end
  end.

Definition logResponseChunkBytes : Z := 262144.
Definition rangeUnbounded : Z := maxInt64.

Definition Range (offset maxBytes : Z) (b : boundedBuffer) : bytes * Z * bool :=
  if totalLen b <=? offset then ([], totalLen b, false)
  else
    let truncated := offset <? b_offset b in
    let start := if truncated then b_offset b else offset in
    let idx := start - b_offset b in
    let idx := if zlen (buf b) <? idx then zlen (buf b) else idx in
    let available := zlen (buf b) - idx in
    let n := if maxBytes <? available then maxBytes else available in
    let n := if n <? 0 then 0 else n in
    (take (Z.to_nat n) (drop (Z.to_nat idx) (buf b)), start + n, truncated).

(** [parseOffset] of the logs handler. *)
Definition parseOffset (s : string) : result Z :=
  if bool_decide (s = "") then Ok 0
  else match ParseInt10 s with
       | None => errorf "strconv.ParseInt" []
       | Some v => if v <? 0 then errorf "negative offset" [] else Ok v
       end.

(** The log bytes of a chunk on their way to the client: [string(data)] in the
    JSON reply of the handler, read back by [json.Unmarshal]. *)
Definition wire (data : bytes) : bytes :=
  match json_decode (marshal (JString (String.string_of_list_ascii data))) with
  | Some (JString logs) => String.list_ascii_of_string logs
  | _ => []
  end.

(** [drainOperationLogs] against one state of the buffer. *)
Fixpoint drainOperationLogs (fuel : nat) (offset : Z) (sawTruncated : bool) (out : bytes)
    (b : boundedBuffer) : option (Z * bool * bytes) :=
  match fuel with
  | O => None
  | S fuel =>
      let '(data, newOffset, truncated) := Range offset logResponseChunkBytes b in
      let logs := wire data in
      let out := out ++ logs in
      let sawTruncated := sawTruncated || truncated in
      if zlen logs <? logResponseChunkBytes then Some (newOffset, sawTruncated, out)
      else if newOffset <=? offset then Some (newOffset, sawTruncated, out)
      else drainOperationLogs fuel newOffset sawTruncated out b
  end.

(** ** The abstract buffer: the history of all bytes written *)

Definition retained_start (max : Z) (hist : bytes) : Z := Z.max 0 (zlen hist - max).

Definition represents (max : Z) (hist : bytes) (b : boundedBuffer) : Prop :=
  0 <= max ∧ maxSize b = max ∧ totalLen b = zlen hist ∧ b_offset b = retained_start max hist ∧
  buf b = drop (Z.to_nat (retained_start max hist)) hist.

(** What the range of [maxBytes] bytes at [offset] of the history is. *)
Definition hist_range (max : Z) (hist : bytes) (offset maxBytes : Z) : bytes :=
  take (Z.to_nat maxBytes) (drop (Z.to_nat (Z.max offset (retained_start max hist))) hist).

Lemma zlen_app p q : zlen (p ++ q) = zlen p + zlen q.
Proof. unfold zlen. rewrite length_app. lia. Qed.

Lemma zlen_drop n p : zlen (drop (Z.to_nat n) p) = Z.max 0 (zlen p - Z.max 0 n).
Proof. unfold zlen. rewrite length_drop. lia. Qed.

Lemma zlen_nonneg p : 0 <= zlen p.
Proof. unfold zlen. lia. Qed.

Lemma represents_new max : 0 <= max → represents max [] (newBoundedBuffer max).
Proof.
  intros H. split_and!; try done; simpl; [|by rewrite drop_nil].
  unfold retained_start, zlen. simpl. lia.
Qed.

Lemma represents_Write max hist b p :
  represents max hist b → represents max (hist ++ p) (Write p b).2.
Proof.
  intros (Hm & E1 & E2 & E3 & E4). unfold Write.
  pose proof (zlen_nonneg hist). pose proof (zlen_nonneg p).
  assert (Hb : zlen (buf b) = zlen hist - retained_start max hist)
    by (rewrite E4, zlen_drop; unfold retained_start; lia).
  assert (Happ : buf b ++ p = drop (Z.to_nat (retained_start max hist)) (hist ++ p)).
  { rewrite E4. symmetry. apply drop_app_le. unfold zlen, retained_start in *. lia. }
  rewrite zlen_app, Hb, E1, E2, E3, Happ, drop_drop.
  destruct (Z.ltb_spec max (zlen hist - retained_start max hist + zlen p)); simpl.
  - assert (Hr : retained_start max (hist ++ p) = retained_start max hist
      + (zlen hist - retained_start max hist + zlen p - max))
      by (unfold retained_start in *; rewrite zlen_app; lia).
    split_and!; simpl; try done; [by rewrite zlen_app|].
    rewrite Hr. f_equal. unfold retained_start in *. lia.
  - assert (Hr : retained_start max (hist ++ p) = retained_start max hist)
      by (unfold retained_start in *; rewrite zlen_app; lia).
    split_and!; simpl; try done; [by rewrite zlen_app|by rewrite Hr].
Qed.

Lemma Range_spec max hist b offset maxBytes :
  represents max hist b → 0 <= offset →
  Range offset maxBytes b =
    if zlen hist <=? offset then ([], zlen hist, false)
    else (hist_range max hist offset maxBytes,
          Z.max offset (retained_start max hist) + zlen (hist_range max hist offset maxBytes),
          offset <? retained_start max hist).
Proof.
  intros (Hm & E1 & E2 & E3 & E4) Ho. unfold Range. rewrite E2, E3.
  destruct (Z.leb_spec (zlen hist) offset); [done|].
  set (st := retained_start max hist) in *.
  assert (Hst : 0 <= st <= zlen hist) by (unfold st, retained_start; pose proof (zlen_nonneg hist); lia).
  set (start := Z.max offset st).
  assert ((if offset <? st then st else offset) = start) as -> by (destruct (Z.ltb_spec offset st); lia).
  assert (Hb : zlen (buf b) = zlen hist - st) by (rewrite E4, zlen_drop; lia).
  assert (Hstart : st <= start <= zlen hist) by lia.
  rewrite Hb. destruct (Z.ltb_spec (zlen hist - st) (start - st)); [lia|].
  replace (zlen hist - st - (start - st)) with (zlen hist - start) by lia.
  assert (Hn0 : (if maxBytes <? zlen hist - start then maxBytes else zlen hist - start)
    = Z.min maxBytes (zlen hist - start)) by (destruct (Z.ltb_spec maxBytes (zlen hist - start)); lia).
  rewrite Hn0. set (n := if Z.min _ _ <? 0 then 0 else _).
  assert (Hn : n = Z.max 0 (Z.min maxBytes (zlen hist - start)))
    by (unfold n; destruct (Z.ltb_spec (Z.min maxBytes (zlen hist - start)) 0); lia).
  clearbody n.
  assert (Hdata : take (Z.to_nat n) (drop (Z.to_nat (start - st)) (buf b)) = hist_range max hist offset maxBytes).
  { unfold hist_range. fold st start. rewrite E4, drop_drop.
    replace (Z.to_nat st + Z.to_nat (start - st))%nat with (Z.to_nat start) by lia.
    assert (Z.to_nat n = Z.to_nat maxBytes ∨
      (Z.to_nat n = length (drop (Z.to_nat start) hist) ∧
       (length (drop (Z.to_nat start) hist) ≤ Z.to_nat maxBytes)%nat)) as [->|[-> Hl]]; [|done|].
    { rewrite length_drop. unfold zlen in *. lia. }
    by rewrite !take_ge by lia. }
  rewrite Hdata. f_equal. f_equal. rewrite <-Hdata.
  unfold zlen. rewrite length_take, length_drop. unfold zlen in *. lia.
Qed.

(** ** Reading into the buffer *)

(** The bytes a reader delivers up to and including its first error. *)
Fixpoint read_data (reads : list read_result) : bytes :=
  match reads with
  | [] => []
  | (p, None) :: reads => p ++ read_data reads
  | (p, Some _) :: _ => p
  end.

Lemma read_step max hist p b :
  represents max hist b →
  represents max (hist ++ p) (if 0 <? zlen p then (Write p b).2 else b).
Proof.
  intros Hb. destruct (Z.ltb_spec 0 (zlen p)); [by apply represents_Write|].
  destruct p; [by rewrite app_nil_r|unfold zlen in *; simpl in *; lia].
Qed.

Lemma ReadFrom_spec max reads hist total b :
  represents max hist b → Exists (λ r, is_Some r.2) reads →
  ∃ err b', ReadFrom reads total b = Some (total + zlen (read_data reads), err, b') ∧
    represents max (hist ++ read_data reads) b'.
Proof.
  revert hist total b. induction reads as [|[p err] reads IH]; intros hist total b Hb Hex.
  { by apply Exists_nil in Hex. }
  pose proof (read_step max hist p b Hb) as Hstep. pose proof (zlen_nonneg p).
  assert ((if 0 <? zlen p then (total + zlen p, (Write p b).2) else (total, b)) =
    (total + zlen p, if 0 <? zlen p then (Write p b).2 else b)) as Estep.
  { destruct (Z.ltb_spec 0 (zlen p)); [done|]. f_equal. lia. }
  cbn [ReadFrom read_data]. rewrite Estep. destruct err as [[|]|]; [eauto..|].
  apply Exists_cons in Hex as [[? ?]|Hex]; [done|].
  destruct (IH (hist ++ p) (total + zlen p) _ Hstep Hex) as (err & b' & -> & Hr).
  exists err, b'. rewrite zlen_app, Z.add_assoc. by rewrite app_assoc.
Qed.

(** C39. The log buffer is the window of the newest [max] bytes of everything
    written: after any writes followed by a reader that ends, it holds exactly
    the last bytes of the history, [offset] and [totalLen] are the window's
    ends, and [ReadFrom] returns the number of bytes the reader delivered. *)
Theorem buffer_keeps_newest (max : Z) (writes : list bytes) (reads : list read_result)
    (Hmax : 0 <= max) (Hend : Exists (λ r, is_Some r.2) reads) :
  let b := foldl (λ b p, (Write p b).2) (newBoundedBuffer max) writes in
  let hist := concat writes ++ read_data reads in
  ∃ err b', ReadFrom reads 0 b = Some (zlen (read_data reads), err, b') ∧
    buf b' = drop (length hist - Z.to_nat max) hist ∧
    zlen (buf b') = Z.min max (zlen hist) ∧
    totalLen b' = zlen hist ∧ b_offset b' + zlen (buf b') = totalLen b'.
Proof.
  simpl. assert (Hw : ∀ hist b, represents max hist b →
    represents max (hist ++ concat writes) (foldl (λ b p, (Write p b).2) b writes)).
  { induction writes as [|p writes IH]; intros hist b Hb; simpl; [by rewrite app_nil_r|].
    rewrite app_assoc. by apply IH, represents_Write. }
  destruct (ReadFrom_spec max reads (concat writes) 0 _ (Hw [] _ (represents_new max Hmax)) Hend)
    as (err & b' & E & Hr).
  exists err, b'. split; [done|]. destruct Hr as (_ & _ & E2 & E3 & E4).
  set (hist := concat writes ++ read_data reads) in *.
  assert (Hz : zlen (buf b') = Z.min max (zlen hist))
    by (rewrite E4, zlen_drop; unfold retained_start; pose proof (zlen_nonneg hist); lia).
  split_and!; [|done..|].
  - rewrite E4. f_equal. unfold retained_start, zlen. lia.
  - rewrite E2, E3, Hz. unfold retained_start. pose proof (zlen_nonneg hist). lia.
Qed.

Definition ascii_bytes (s : string) : bytes := String.list_ascii_of_string s.

Lemma buffer_keeps_newest_witness :
  ∃ err b', ReadFrom [(ascii_bytes "de", None); (ascii_bytes "f", Some io_EOF)] 0
    (foldl (λ b p, (Write p b).2) (newBoundedBuffer 4) [ascii_bytes "ab"; ascii_bytes "c"])
    = Some (3, err, b') ∧ buf b' = ascii_bytes "cdef".
Proof.
  destruct (buffer_keeps_newest 4 [ascii_bytes "ab"; ascii_bytes "c"]
    [(ascii_bytes "de", None); (ascii_bytes "f", Some io_EOF)]) as (err & b' & E & Hb & _).
  - lia.
  - apply Exists_cons_tl, Exists_cons_hd. eexists. reflexivity.
  - exists err, b'. split; [exact E|exact Hb].
Defined.

(** ** Chunked reads *)

(** A range read at a non-negative offset: past the end it returns nothing
    and the total; otherwise at most [maxBytes] bytes of the history starting
    at the later of the offset and the oldest retained byte, the offset just
    after the returned bytes, and [truncated] exactly when the offset predates
    the retained data. *)
Theorem range_reads_history (max : Z) (hist : bytes) (b : boundedBuffer) (offset maxBytes : Z)
    (Hb : represents max hist b) (Ho : 0 <= offset) :
  let '(data, next, truncated) := Range offset maxBytes b in
  let start := Z.max offset (retained_start max hist) in
  (zlen hist <= offset → data = [] ∧ next = zlen hist ∧ truncated = false) ∧
  (offset < zlen hist →
     data = take (Z.to_nat maxBytes) (drop (Z.to_nat start) hist) ∧
     next = start + zlen data ∧ (truncated = true ↔ offset < retained_start max hist)) ∧
  zlen data <= Z.max 0 maxBytes ∧ (data ≠ [] → offset < next).
Proof.
  rewrite (Range_spec _ _ _ _ _ Hb Ho). destruct (Z.leb_spec (zlen hist) offset).
  - split_and!; [done|lia|unfold zlen; simpl; lia|done].
  - split_and!; [lia|intros _; split_and!; [done..|apply Z.ltb_lt]| |].
    + unfold hist_range, zlen. rewrite length_take. lia.
    + intros Hne. assert (0 < zlen (hist_range max hist offset maxBytes)).
      { unfold zlen. destruct (hist_range _ _ _ _); [done|simpl; lia]. }
      lia.
Qed.

Definition abc_buffer : boundedBuffer := (Write (ascii_bytes "abcdef") (newBoundedBuffer 4)).2.

Lemma range_reads_history_witness : Range 0 3 abc_buffer = (ascii_bytes "cde", 5, true).
Proof.
  assert (Hb : represents 4 (ascii_bytes "abcdef") abc_buffer)
    by (apply (represents_Write 4 [] (newBoundedBuffer 4)), represents_new; lia).
  pose proof (range_reads_history 4 _ abc_buffer 0 3 Hb ltac:(lia)) as H.
  destruct (Range 0 3 abc_buffer) as [[data next] tr] eqn:E. vm_compute in E. injection E as <- <- <-.
  destruct H as (_ & H & _). destruct (H ltac:(reflexivity)) as (_ & Hn & _). reflexivity.
Defined.

(** ** The bytes a reply carries *)

Lemma wire_image data : wire data = String.list_ascii_of_string (replace_invalid (String.string_of_list_ascii data)).
Proof. unfold wire. by rewrite decode_marshal_string. Qed.

Lemma wire_valid data : ValidString (String.string_of_list_ascii data) = true → wire data = data.
Proof. intros H. rewrite wire_image, replace_valid by done. apply String.list_ascii_of_string_of_list_ascii. Qed.

Lemma length_ascii s : length (String.list_ascii_of_string s) = String.length s.
Proof. induction s; simpl; [done|]. by f_equal. Qed.

Lemma wire_longer data : zlen data <= zlen (wire data).
Proof.
  rewrite wire_image. unfold zlen. rewrite length_ascii.
  pose proof (replace_length (String.string_of_list_ascii data)) as H. rewrite <-!length_ascii in H.
  rewrite String.list_ascii_of_string_of_list_ascii in H. rewrite length_ascii in H. lia.
Qed.

(** Bytes cut into pieces of the size of a reply. *)
Fixpoint chunks_fuel (fuel : nat) (l : bytes) : list bytes :=
  match fuel, l with
  | S fuel, _ :: _ => take (Z.to_nat logResponseChunkBytes) l :: chunks_fuel fuel (drop (Z.to_nat logResponseChunkBytes) l)
  | _, _ => []
  end.
Definition chunks (l : bytes) : list bytes := chunks_fuel (length l) l.

Lemma chunk_pos : ∃ n, Z.to_nat logResponseChunkBytes = S n.
Proof. exists (Z.to_nat (logResponseChunkBytes - 1)). unfold logResponseChunkBytes. lia. Qed.

Lemma chunks_fuel_ge fuel fuel' l :
  (length l ≤ fuel)%nat → (length l ≤ fuel')%nat → chunks_fuel fuel l = chunks_fuel fuel' l.
Proof.
  destruct chunk_pos as [n En].
  revert fuel' l. induction fuel as [|fuel IH]; intros fuel' [|a l] H1 H2; [by destruct fuel'|simpl in H1; lia|by destruct fuel'|].
  destruct fuel' as [|fuel']; [simpl in H2; lia|]. cbn [chunks_fuel]. f_equal.
  apply IH; rewrite En, length_drop in *; simpl in *; lia.
Qed.

Lemma chunks_cons l :
  l ≠ [] → chunks l = take (Z.to_nat logResponseChunkBytes) l :: chunks (drop (Z.to_nat logResponseChunkBytes) l).
Proof.
  intros Hl. destruct l as [|a l]; [done|]. unfold chunks at 1. cbn [length chunks_fuel]. f_equal.
  destruct chunk_pos as [n En]. apply chunks_fuel_ge; [|done]. rewrite En, length_drop. simpl. lia.
Qed.

Lemma chunks_short l : l ≠ [] → zlen l <= logResponseChunkBytes → chunks l = [l].
Proof. intros Hl Hs. unfold zlen in Hs. rewrite chunks_cons, take_ge, drop_ge by (done || lia). done. Qed.

Lemma chunks_concat l : concat (chunks l) = l.
Proof.
  unfold chunks. assert (H : ∀ fuel k, (length k ≤ fuel)%nat → concat (chunks_fuel fuel k) = k); [|by apply H].
  destruct chunk_pos as [n En]. induction fuel as [|fuel IH]; intros [|a k] Hk; [done|simpl in Hk; lia|done|].
  cbn [chunks_fuel concat]. rewrite IH; [apply take_drop|]. rewrite En, length_drop. simpl in *. lia.
Qed.

Lemma wire_chunks_valid l :
  (∀ c, c ∈ chunks l → ValidString (String.string_of_list_ascii c) = true) → concat (wire <$> chunks l) = l.
Proof.
  intros H. rewrite <-(chunks_concat l) at 2. f_equal. rewrite <-(list_fmap_id (chunks l)) at 2.
  apply list_fmap_ext. intros i c Hc%list_elem_of_lookup_2. apply wire_valid. auto.
Qed.

Lemma nonempty_long l : 0 < zlen l → l ≠ [].
Proof. by intros H ->. Qed.

Lemma rest_of_chunk n (l : bytes) : 0 <= n →
  drop (Z.to_nat (n + logResponseChunkBytes)) l = drop (Z.to_nat logResponseChunkBytes) (drop (Z.to_nat n) l).
Proof. intros Hn. rewrite drop_drop, Z2Nat.inj_add by (done || unfold logResponseChunkBytes; lia). done. Qed.

Section DrainSpec.
Context (max : Z) (hist : bytes) (b : boundedBuffer) (Hb : represents max hist b).

Let start (offset : Z) : Z := Z.max offset (retained_start max hist).

Lemma drain_loop fuel offset tr out :
  0 <= offset → (0 < fuel)%nat →
  (offset < zlen hist → zlen hist - start offset + logResponseChunkBytes < Z.of_nat fuel * logResponseChunkBytes) →
  drainOperationLogs fuel offset tr out b =
    Some (zlen hist,
          tr || ((offset <? zlen hist) && (offset <? retained_start max hist)),
          out ++ concat (wire <$> chunks (drop (Z.to_nat (start offset)) hist))).
Proof.
  revert offset tr out. induction fuel as [|fuel IH]; intros offset tr out Ho Hpos Hfuel; [lia|].
  assert (HN : 0 < logResponseChunkBytes) by done.
  assert (Hr0 : 0 <= retained_start max hist) by (unfold retained_start; lia).
  cbn [drainOperationLogs]. rewrite (Range_spec _ _ _ _ _ Hb Ho).
  destruct (Z.leb_spec (zlen hist) offset) as [Hpast|Hin].
  { change (wire []) with (@nil ascii). simpl. rewrite (proj2 (Z.ltb_ge offset (zlen hist))) by done. simpl.
    rewrite drop_ge; [done|]. unfold start, zlen in *. lia. }
  assert (Hrs : retained_start max hist <= zlen hist) by (unfold retained_start; destruct Hb; pose proof (zlen_nonneg hist); lia).
  unfold hist_range. fold (start offset). set (rest := drop (Z.to_nat (start offset)) hist).
  assert (Hrest : zlen rest = zlen hist - start offset) by (unfold rest, start in *; rewrite zlen_drop; lia).
  pose proof (wire_longer (take (Z.to_nat logResponseChunkBytes) rest)) as Hw.
  assert (Htr : (offset <? zlen hist) = true) by by apply Z.ltb_lt. rewrite Htr. cbn [andb].
  specialize (Hfuel Hin). assert (Hso : 0 <= start offset <= zlen hist ∧ offset <= start offset) by (unfold start; lia).
  assert (Hf : (0 < fuel)%nat) by nia.
  assert (Hnext : ∀ off out', 0 <= off → start offset <= off → offset < off →
    (off < zlen hist → zlen hist - start off + logResponseChunkBytes < Z.of_nat fuel * logResponseChunkBytes) →
    drainOperationLogs fuel off (tr || (offset <? retained_start max hist)) out' b =
      Some (zlen hist, tr || (offset <? retained_start max hist), out' ++ concat (wire <$> chunks (drop (Z.to_nat off) hist)))).
  { intros off out' H0 H1 H2 H3. rewrite IH by done. assert (start off = off) as -> by (unfold start in *; lia).
    rewrite (proj2 (Z.ltb_ge off (retained_start max hist))) by (unfold start in *; lia). by rewrite andb_false_r, orb_false_r. }
  assert (Estart : ∀ off, start offset <= off → start off = off) by (intros off; unfold start; lia).
  destruct (decide (zlen rest < logResponseChunkBytes)) as [Hs|Hs].
  - assert (Hall : take (Z.to_nat logResponseChunkBytes) rest = rest) by (apply take_ge; unfold zlen in *; lia).
    rewrite Hall in *. assert (Eend : start offset + zlen rest = zlen hist) by lia. rewrite Eend.
    assert (Hne : rest = [] ∨ chunks rest = [rest]) by (destruct (decide (rest = [])); [by left|right; apply chunks_short; [done|lia]]).
    assert (Hout : wire rest = concat (wire <$> chunks rest)).
    { destruct Hne as [->| ->]; [done|]. cbn. by rewrite app_nil_r. }
    destruct (zlen (wire rest) <? logResponseChunkBytes); [by rewrite <-Hout|]. rewrite (proj2 (Z.leb_gt _ _)) by done.
    rewrite Hnext; [|lia|lia|done|lia].
    rewrite (drop_ge hist) by (unfold zlen; lia). cbn. by rewrite app_nil_r, Hout.
  - assert (Hl : zlen (take (Z.to_nat logResponseChunkBytes) rest) = logResponseChunkBytes).
    { unfold zlen in *. rewrite length_take. lia. }
    rewrite Hl in *. rewrite (proj2 (Z.ltb_ge _ _)) by done. rewrite (proj2 (Z.leb_gt _ _)) by (unfold start in *; lia).
    rewrite Hnext; [|lia|lia|lia|intros _; rewrite Estart by lia; nia].
    assert (Hne : rest ≠ []) by (apply nonempty_long; lia).
    unfold rest in *. rewrite (chunks_cons _ Hne), fmap_cons, List.concat_cons, (rest_of_chunk _ hist) by lia. by rewrite app_assoc.
Qed.

(** C40. The client's drain requests every retained byte from its offset on,
    exactly once and in order, ends caught up with everything written, and
    reports truncation exactly when retained data was older than asked for; it
    terminates within two requests more than there are full chunks.  It prints
    what the JSON replies make of the chunks of [logResponseChunkBytes] bytes:
    the bytes themselves when every chunk is valid UTF-8 on its own. *)
Theorem drain_prints_retained (fuel : nat) (offset : Z)
    (Ho : 0 <= offset) (Hfuel : zlen hist + logResponseChunkBytes < Z.of_nat fuel * logResponseChunkBytes) :
  let retained := drop (Z.to_nat (Z.max offset (retained_start max hist))) hist in
  ∃ printed, drainOperationLogs fuel offset false [] b =
    Some (zlen hist, (offset <? zlen hist) && (offset <? retained_start max hist), printed) ∧
    printed = concat ((λ c, String.list_ascii_of_string (replace_invalid (String.string_of_list_ascii c))) <$> chunks retained) ∧
    ((∀ c, c ∈ chunks retained → ValidString (String.string_of_list_ascii c) = true) → printed = retained).
Proof.
  intros retained. pose proof (zlen_nonneg hist). assert (0 < logResponseChunkBytes) by done.
  rewrite drain_loop; [|done|destruct fuel; lia|unfold start, retained_start; lia].
  cbn [orb app]. fold (start offset) in retained. fold retained. eexists. split_and!; [done| |by apply wire_chunks_valid].
  f_equal. apply list_fmap_ext. intros. apply wire_image.
Qed.
End DrainSpec.

Lemma drain_prints_retained_witness :
  drainOperationLogs 2 0 false [] abc_buffer = Some (6, true, ascii_bytes "cdef").
Proof.
  assert (Hb : represents 4 (ascii_bytes "abcdef") abc_buffer)
    by (apply (represents_Write 4 [] (newBoundedBuffer 4)), represents_new; lia).
  assert (Hc : chunks (ascii_bytes "cdef") = [ascii_bytes "cdef"]) by (by apply chunks_short).
  destruct (drain_prints_retained 4 (ascii_bytes "abcdef") abc_buffer Hb 2 0) as (printed & -> & _ & H).
  - lia.
  - reflexivity.
  - change (drop _ _) with (ascii_bytes "cdef") in H. rewrite H; [reflexivity|].
    rewrite Hc. by intros c ->%list_elem_of_singleton.
Defined.

(** A rune cut by the end of a chunk is lost: its bytes are printed as RuneError
    each. *)
Example wire_cut_rune : wire (ascii_bytes (String (to_byte 226) (str1 (to_byte 130)))) =
  ascii_bytes (EncodeRune RuneError +:+ EncodeRune RuneError).
Proof. reflexivity. Qed.

(** ** The offset parameter *)

(** The offset a response names is accepted back: printing any int64 offset
    and parsing it as the query parameter gives the offset; an empty parameter
    is zero, and no accepted offset is negative. *)
Theorem offset_roundtrip (n : Z) (s : string) (Hn : 0 <= n <= maxInt64) :
  parseOffset (Itoa n) = Ok n ∧ parseOffset "" = Ok 0 ∧
  match parseOffset s with Ok v => 0 <= v | Err _ => True end.
Proof.
  assert (Hs : ∀ t, match parseOffset t with Ok v => 0 <= v | Err _ => True end).
  { intros t. unfold parseOffset. case_bool_decide; [lia|]. destruct (ParseInt10 t) as [v|]; [|done].
    destruct (Z.ltb_spec v 0); done. }
  split_and!; [|done|apply Hs]. unfold parseOffset. rewrite ParseInt10_Itoa by done.
  case_bool_decide as E; [|by rewrite (proj2 (Z.ltb_ge n 0)) by lia].
  pose proof (ParseInt10_Itoa n Hn) as H. by rewrite E in H.
Qed.

Lemma offset_roundtrip_witness : parseOffset (Itoa 262144) = Ok 262144.
Proof. apply (offset_roundtrip 262144 ""). unfold maxInt64. lia. Defined.
