(* ===== verification/Sha256.v ===== *)
(** * Sha256: Go's crypto/sha256.Sum256 and encoding/hex.EncodeToString

    FIPS 180-4 SHA-256 on byte strings, executable; the standard's test vectors
    evaluate below.  The source uses it for the snapshot digest and for the
    bearer token hash. *)
From S2P Require Import Prelude.
Local Open Scope N_scope.

Definition mask32 (x : N) : N := N.land x 4294967295.
Definition add32 (x y : N) : N := mask32 (x + y).
Definition rotr (n x : N) : N := N.lor (N.shiftr x n) (mask32 (N.shiftl x (32 - n))).
Definition shr (n x : N) : N := N.shiftr x n.
Definition not32 (x : N) : N := N.lxor x 4294967295.

Definition Ch (x y z : N) : N := N.lxor (N.land x y) (N.land (not32 x) z).
Definition Maj (x y z : N) : N := N.lxor (N.lxor (N.land x y) (N.land x z)) (N.land y z).
Definition bsig0 (x : N) : N := N.lxor (N.lxor (rotr 2 x) (rotr 13 x)) (rotr 22 x).
Definition bsig1 (x : N) : N := N.lxor (N.lxor (rotr 6 x) (rotr 11 x)) (rotr 25 x).
Definition ssig0 (x : N) : N := N.lxor (N.lxor (rotr 7 x) (rotr 18 x)) (shr 3 x).
Definition ssig1 (x : N) : N := N.lxor (N.lxor (rotr 17 x) (rotr 19 x)) (shr 10 x).

(** The constants are the first 32 bits of the fractional parts of the roots of
    the first primes (FIPS 180-4, 4.2.2 and 5.3.3): the largest [x] below
    [2^n] whose power does not exceed the scaled prime, bit by bit. *)
Fixpoint root (n : nat) (pow x target : N) : N :=
  match n with
  | O => x
  | S n => let y := x + N.shiftl 1 (N.of_nat n) in root n pow (if y ^ pow <=? target then y else x) target
  end.
Definition is_prime (p : N) : bool :=
  forallb (fun q => negb (p mod N.of_nat q =? 0)) (seq 2 (N.to_nat p - 2)).
Definition primes (n : nat) : list N := take n (List.filter is_prime (N.of_nat <$> seq 2 400)).
Definition root_constant (pow p : N) : N := mask32 (root 40 pow 0 (N.shiftl p (32 * pow))).

Definition K256 : list N := Eval vm_compute in (root_constant 3 <$> primes 64).

Record hash_state := mkHash { ha : N; hb : N; hc : N; hd : N; he : N; hf : N; hg : N; hh : N }.

Definition hash_of (l : list N) : hash_state :=
  let x i := nth i l 0 in mkHash (x 0%nat) (x 1%nat) (x 2%nat) (x 3%nat) (x 4%nat) (x 5%nat) (x 6%nat) (x 7%nat).
Definition H256 : hash_state := Eval vm_compute in hash_of (root_constant 2 <$> primes 8).

(** The message schedule, newest word first: [w] holds W(t-1), W(t-2), ... *)
Fixpoint schedule (n : nat) (w : list N) : list N :=
  match n with
  | O => w
  | S n =>
      let wt := add32 (add32 (ssig1 (nth 1 w 0)) (nth 6 w 0)) (add32 (ssig0 (nth 14 w 0)) (nth 15 w 0)) in
      schedule n (wt :: w)
  end.

Definition round (s : hash_state) (kw : N * N) : hash_state :=
  let t1 := add32 (add32 (add32 (hh s) (bsig1 (he s))) (add32 (Ch (he s) (hf s) (hg s)) kw.1)) kw.2 in
  let t2 := add32 (bsig0 (ha s)) (Maj (ha s) (hb s) (hc s)) in
  mkHash (add32 t1 t2) (ha s) (hb s) (hc s) (add32 (hd s) t1) (he s) (hf s) (hg s).

Definition compress (s : hash_state) (block : list N) : hash_state :=
  let w := reverse (schedule 48 (reverse block)) in
  let r := foldl round s (zip K256 w) in
  mkHash (add32 (ha s) (ha r)) (add32 (hb s) (hb r)) (add32 (hc s) (hc r)) (add32 (hd s) (hd r))
    (add32 (he s) (he r)) (add32 (hf s) (hf r)) (add32 (hg s) (hg r)) (add32 (hh s) (hh r)).

Fixpoint words (l : list N) : list N :=
  match l with
  | a :: b :: c :: d :: l =>
      N.lor (N.lor (N.shiftl a 24) (N.shiftl b 16)) (N.lor (N.shiftl c 8) d) :: words l
  | _ => []
  end.

Fixpoint be_bytes (n : nat) (x : N) (acc : list N) : list N :=
  match n with
  | O => acc
  | S n => be_bytes n (N.shiftr x 8) (N.land x 255 :: acc)
  end.

Definition pad (msg : list N) : list N :=
  let len := length msg in
  let zeros := ((119 - len mod 64) mod 64)%nat in
  msg ++ [128] ++ replicate zeros 0 ++ be_bytes 8 (8 * N.of_nat len) [].

Fixpoint blocks (fuel : nat) (ws : list N) (s : hash_state) : hash_state :=
  match fuel with
  | O => s
  | S fuel =>
      match ws with
      | [] => s
      | _ => blocks fuel (drop 16 ws) (compress s (take 16 ws))
      end
  end.

Definition string_bytes (s : string) : list N := N_of_ascii <$> String.list_ascii_of_string s.

(** [sha256.Sum256]: each block is 64 bytes, so the padded length is enough
    fuel. *)
Definition Sum256 (s : string) : list N :=
  let p := pad (string_bytes s) in
  let h := blocks (length p) (words p) H256 in
  foldr (λ x acc, be_bytes 4 x acc) [] [ha h; hb h; hc h; hd h; he h; hf h; hg h; hh h].

Definition hex_digit (x : N) : ascii := ascii_of_N (if x <? 10 then 48 + x else 87 + x).

Fixpoint EncodeToString (l : list N) : string :=
  match l with
  | [] => ""
  | x :: l => String (hex_digit (N.shiftr x 4)) (String (hex_digit (N.land x 15)) (EncodeToString l))
  end.

Definition sha256_hex (s : string) : string := EncodeToString (Sum256 s).

(** FIPS 180-4 test vectors. *)
Example sha256_empty :
  sha256_hex "" = "e3b0c44298fc1c149afbf4c8996fb92427ae41e4649b934ca495991b7852b855".
Proof. vm_compute. reflexivity. Qed.

Example sha256_abc :
  sha256_hex "abc" = "ba7816bf8f01cfea414140de5dae2223b00361a396177a9cb410ff61f20015ad".
Proof. vm_compute. reflexivity. Qed.

Example sha256_two_blocks :
  sha256_hex "abcdbcdecdefdefgefghfghighijhijkijkljklmklmnlmnomnopnopq" =
  "248d6a61d20638b8e5c026930c3e6039a33ce45964ff2167f6ecedd419db06c1".
Proof. vm_compute. reflexivity. Qed.

(** Simplification and unification never look inside; [vm_compute] still runs. *)
#[global] Opaque Sum256 sha256_hex.
