(* ===== verification/Database.v ===== *)
(** * Database: the SQLite tables and statements the daemon's stores use

    The tables of src/database.go as finite maps keyed by their primary keys,
    with the constraints of the DDL enforced by the insert statements.  SQLite
    itself is outside the source: any statement may fail, which the oracle
    [list bool] decides, one bit per statement, so every theorem holds whatever
    fails.  A transaction that does not commit leaves the tables as they were. *)
From S2P Require Import Prelude Filepath AllowedRoots.
Local Open Scope Z_scope.

(** ** Rows *)

Record principal_row := mkPrincipal {
  p_username : string; p_uid : Z; p_gid : Z; p_home : string; p_enabled : bool }.

Record launcher_row := mkLauncher {
  l_principal_id : Z; l_name : string; l_enabled : bool; l_scope_mode : string; l_created_at : Z }.

Record credential_row := mkCredential {
  c_principal_id : option Z; c_launcher_id : option string; c_name : option string;
  c_token_hash : string; c_created_at : Z; c_revoked_at : option Z }.

Record session_row := mkSession {
  s_token_hash : string; s_workspace : string; s_created_at : Z; s_expires_at : Z;
  s_launcher_id : string }.

Record db := mkDB {
  principals : gmap Z principal_row;
  principal_allowed_roots : gmap (Z * string) string;
  launchers : gmap string launcher_row;
  launcher_allowed_roots : gmap (string * string) string;
  credentials : gmap string credential_row;
  sessions : gmap string session_row;
  snapshot_tables : bool;     (* both snapshot tables exist *)
  snapshot_entries : gmap (string * Z) (string * string);
  snapshot_meta : gmap string (Z * string);
  mac_boundaries : gmap (string * string) (option string);
}.

Definition empty_db : db := mkDB ∅ ∅ ∅ ∅ ∅ ∅ true ∅ ∅ ∅.

Definition set_principals (t : gmap Z principal_row) (d : db) : db :=
  mkDB t (principal_allowed_roots d) (launchers d) (launcher_allowed_roots d) (credentials d)
    (sessions d) (snapshot_tables d) (snapshot_entries d) (snapshot_meta d) (mac_boundaries d).
Definition set_principal_roots (t : gmap (Z * string) string) (d : db) : db :=
  mkDB (principals d) t (launchers d) (launcher_allowed_roots d) (credentials d) (sessions d)
    (snapshot_tables d) (snapshot_entries d) (snapshot_meta d) (mac_boundaries d).
Definition set_launchers (t : gmap string launcher_row) (d : db) : db :=
  mkDB (principals d) (principal_allowed_roots d) t (launcher_allowed_roots d) (credentials d)
    (sessions d) (snapshot_tables d) (snapshot_entries d) (snapshot_meta d) (mac_boundaries d).
Definition set_launcher_roots (t : gmap (string * string) string) (d : db) : db :=
  mkDB (principals d) (principal_allowed_roots d) (launchers d) t (credentials d) (sessions d)
    (snapshot_tables d) (snapshot_entries d) (snapshot_meta d) (mac_boundaries d).
Definition set_credentials (t : gmap string credential_row) (d : db) : db :=
  mkDB (principals d) (principal_allowed_roots d) (launchers d) (launcher_allowed_roots d) t
    (sessions d) (snapshot_tables d) (snapshot_entries d) (snapshot_meta d) (mac_boundaries d).
Definition set_sessions (t : gmap string session_row) (d : db) : db :=
  mkDB (principals d) (principal_allowed_roots d) (launchers d) (launcher_allowed_roots d)
    (credentials d) t (snapshot_tables d) (snapshot_entries d) (snapshot_meta d) (mac_boundaries d).
Definition set_snapshots (tables : bool) (e : gmap (string * Z) (string * string))
    (m : gmap string (Z * string)) (d : db) : db :=
  mkDB (principals d) (principal_allowed_roots d) (launchers d) (launcher_allowed_roots d)
    (credentials d) (sessions d) tables e m (mac_boundaries d).
Definition set_mac (t : gmap (string * string) (option string)) (d : db) : db :=
  mkDB (principals d) (principal_allowed_roots d) (launchers d) (launcher_allowed_roots d)
    (credentials d) (sessions d) (snapshot_tables d) (snapshot_entries d) (snapshot_meta d) t.

(** [DELETE FROM sessions] of the rows [gone] selects, with the cascade into the
    snapshot tables. *)
Definition drop_sessions (gone : string → bool) (d : db) : db :=
  set_snapshots (snapshot_tables d)
    (filter (λ kv : string * Z * (string * string), ¬ Is_true (gone kv.1.1)) (snapshot_entries d))
    (filter (λ kv : string * (Z * string), ¬ Is_true (gone kv.1)) (snapshot_meta d))
    (set_sessions (filter (λ kv : string * session_row, ¬ Is_true (gone kv.1)) (sessions d)) d).

(** ** Statements *)

Definition DB (A : Type) : Type := db → list bool → result A * db * list bool.

#[export] Instance db_ret : MRet DB := λ A a d f, (Ok a, d, f).
#[export] Instance db_bind : MBind DB := λ A B k m d f,
  match m d f with
  | (Ok a, d, f) => k a d f
  | (Err e, d, f) => (Err e, d, f)
  end.

Definition db_fail {A} (text : string) (wraps : list sentinel) : DB A :=
  λ d f, (errorf text wraps, d, f).

(** [fmt.Errorf("text: %w", err)] with further [%w] sentinels. *)
Definition wrap_error (text : string) (wraps : list sentinel) (e : error) : error :=
  mkError text (err_wraps e ++ wraps).

Definition wrapf {A} (text : string) (wraps : list sentinel) (m : DB A) : DB A :=
  λ d f, match m d f with
         | (Err e, d, f) => (Err (wrap_error text wraps e), d, f)
         | r => r
         end.

Definition sqlite_error : error := mkError "sqlite" [].

(** One statement: it fails when the oracle says so, or by its constraints. *)
Definition stmt {A} (body : db → result (A * db)) : DB A :=
  λ d f, match f with
         | true :: f => (Err sqlite_error, d, f)
         | _ => let f := tail f in
                match body d with
                | Ok (a, d) => (Ok a, d, f)
                | Err e => (Err e, d, f)
                end
         end.

Definition query {A} (q : db → A) : DB A := stmt (λ d, Ok (q d, d)).
Definition exec (u : db → option db) : DB unit :=
  stmt (λ d, match u d with Some d => Ok ((), d) | None => Err sqlite_error end).

(** [Begin], the body, [Commit], with the deferred [Rollback]: anything but a
    successful commit restores the tables. *)
Definition transaction {A} (begin_err commit_err : string) (body : DB A) : DB A :=
  λ d f,
    match stmt (λ d, Ok ((), d)) d f with
    | (Err e, _, f) => (Err (wrap_error begin_err [] e), d, f)
    | (Ok _, _, f) =>
        match body d f with
        | (Err e, _, f) => (Err e, d, f)
        | (Ok a, d', f) =>
            match stmt (λ d, Ok ((), d)) d' f with
            | (Err e, _, f) => (Err (wrap_error commit_err [] e), d, f)
            | (Ok _, d', f) => (Ok a, d', f)
            end
        end
    end.

Fixpoint db_iter {A} (body : A → DB unit) (l : list A) : DB unit :=
  match l with
  | [] => mret ()
  | a :: l => _ ← body a; db_iter body l
  end.

(** ** Reasoning about statements *)

(** A computation that leaves the tables alone. *)
Definition reads {A} (m : DB A) : Prop := ∀ d f, (m d f).1.2 = d.

Lemma reads_ret {A} (a : A) : reads (mret a).
Proof. done. Qed.
Lemma reads_fail {A} t w : reads (db_fail (A := A) t w).
Proof. done. Qed.
Lemma reads_query {A} (q : db → A) : reads (query q).
Proof. intros d [|[] f]; done. Qed.
Lemma reads_wrapf {A} t w (m : DB A) : reads m → reads (wrapf t w m).
Proof. intros H d f. specialize (H d f). unfold wrapf. by destruct (m d f) as [[[|] ?] ?]. Qed.
Lemma reads_bind {A B} (m : DB A) (k : A → DB B) :
  reads m → (∀ a, reads (k a)) → reads (m ≫= k).
Proof.
  intros Hm Hk d f. specialize (Hm d f). unfold mbind, db_bind.
  destruct (m d f) as [[[a|e] d'] f']; simpl in *; subst; [apply Hk|done].
Qed.
Lemma reads_iter {A} (body : A → DB unit) l : (∀ a, reads (body a)) → reads (db_iter body l).
Proof. intros H. induction l; simpl; [apply reads_ret|by apply reads_bind]. Qed.

#[export] Hint Resolve reads_ret reads_fail reads_query reads_wrapf reads_bind reads_iter : dh.

(** A transaction is atomic: it commits the body's tables or changes nothing. *)
Lemma transaction_atomic {A} b c (body : DB A) d f :
  match transaction b c body d f with
  | (Ok a, d', _) => ∃ f0 f1, body d f0 = (Ok a, d', f1)
  | (Err _, d', _) => d' = d
  end.
Proof.
  unfold transaction, stmt. destruct f as [|[] f]; simpl; [|done|].
  - destruct (body d []) as [[[a|e] d'] f'] eqn:E; [|done]. destruct f' as [|[] f']; simpl; eauto.
  - destruct (body d f) as [[[a|e] d'] f'] eqn:E; [|done]. destruct f' as [|[] f']; simpl; eauto.
Qed.

Lemma db_bind_ok {A B} (m : DB A) (k : A → DB B) d f b d' f' :
  (m ≫= k) d f = (Ok b, d', f') →
  ∃ a d0 f0, m d f = (Ok a, d0, f0) ∧ k a d0 f0 = (Ok b, d', f').
Proof.
  unfold mbind, db_bind. destruct (m d f) as [[[a|e] d0] f0]; [|done]. eauto 10.
Qed.

Lemma wrapf_ok {A} t w (m : DB A) d f a d' f' :
  wrapf t w m d f = (Ok a, d', f') ↔ m d f = (Ok a, d', f').
Proof. unfold wrapf. by destruct (m d f) as [[[|] ?] ?]. Qed.

Lemma query_ok {A} (q : db → A) d f a d' f' :
  query q d f = (Ok a, d', f') → a = q d ∧ d' = d ∧ f' = tail f.
Proof. unfold query, stmt. destruct f as [|[] f]; simpl; naive_solver. Qed.

Lemma exec_ok u d f a d' f' :
  exec u d f = (Ok a, d', f') → u d = Some d' ∧ f' = tail f.
Proof. unfold exec, stmt. destruct f as [|[] f], (u d); simpl; naive_solver. Qed.

(** The statements of a run that nothing disturbs. *)
Definition calm (f : list bool) : Prop := Forall (λ b, b = false) f.

Lemma calm_tail f : calm f → calm (tail f).
Proof. intros H. destruct H; [constructor|done]. Qed.

Lemma query_calm {A} (q : db → A) d f : calm f → query q d f = (Ok (q d), d, tail f).
Proof. unfold query, stmt. intros H. by destruct H as [|b f -> _]. Qed.

Lemma exec_calm u d f :
  calm f → exec u d f = match u d with Some d' => (Ok (), d', tail f) | None => (Err sqlite_error, d, tail f) end.
Proof. unfold exec, stmt. intros H. destruct H as [|b f -> _]; simpl; by destruct (u d). Qed.

(** ** Statement inversion *)

Lemma stmt_ok {A} (body : db → result (A * db)) d f a d' f' :
  stmt body d f = (Ok a, d', f') → body d = Ok (a, d') ∧ f' = tail f.
Proof. unfold stmt. destruct f as [|[] f]; simpl; destruct (body d) as [[a0 d0]|]; naive_solver. Qed.

Lemma stmt_err {A} (body : db → result (A * db)) d f e d' f' :
  stmt body d f = (Err e, d', f') → d' = d ∧ (e = sqlite_error ∨ body d = Err e).
Proof. unfold stmt. destruct f as [|[] f]; simpl; destruct (body d) as [[a0 d0]|]; naive_solver. Qed.

Lemma stmt_calm {A} (body : db → result (A * db)) d f :
  calm f → stmt body d f = match body d with Ok (a, d') => (Ok a, d', tail f) | Err e => (Err e, d, tail f) end.
Proof. unfold stmt. intros H. destruct H as [|b f -> _]; simpl; by destruct (body d) as [[]|]. Qed.

Lemma query_err {A} (q : db → A) d f e d' f' : query q d f = (Err e, d', f') → e = sqlite_error ∧ d' = d.
Proof. unfold query. intros [-> [->|H]]%stmt_err; done. Qed.

(** A wrapped query: it yields the rows or a database error. *)
Lemma wrapped_query {A B} t (q : db → A) (k : A → DB B) d f :
  (∃ e f', (wrapf t [] (query q) ≫= k) d f = (Err e, d, f') ∧ err_wraps e = [] ∧ ¬ calm f) ∨
  (∃ f', (calm f → calm f') ∧ (wrapf t [] (query q) ≫= k) d f = k (q d) d f').
Proof.
  unfold mbind, db_bind, wrapf. destruct (query q d f) as [[[a|e] d'] f'] eqn:E.
  - apply query_ok in E as (-> & -> & ->). right. exists (tail f). split; [apply calm_tail|done].
  - left. pose proof E as E'. apply query_err in E as [-> ->]. exists (wrap_error t [] sqlite_error), f'.
    split_and!; [done|done|]. intros Hc. by rewrite query_calm in E'.
Qed.

(** Run the wrapped query at the head of the goal: first the database error. *)
Ltac run_query :=
  match goal with |- context [(wrapf ?t [] (query ?q) ≫= ?k) ?d ?f] =>
    let e := fresh "e" in let f' := fresh "f'" in let Hw := fresh "Hw" in let Hc := fresh "Hc" in
    let E := fresh "E" in let Hf := fresh "Hf" in
    destruct (wrapped_query t q k d f) as [(e & f' & E & Hw & Hc)|(f' & Hf & E)]; rewrite E; clear E
  end.
