(* ===== verification/SnapshotStore.v ===== *)
(** * SnapshotStore: src/session_snapshot_store.go — the persisted Session snapshot

    The digest over the issued entries, the transactional insert, the canonical
    loader, the integrity pass and the legacy backfill.  The schema classifier
    is represented by its outcome on the two states a database written by this
    program can have: both tables absent, or both canonical. *)
From S2P Require Import Prelude Filepath AllowedRoots GoStrings Sha256 Database.
Local Open Scope Z_scope.

(** ** The digest *)

Definition nul : string := String "000"%char "".

Definition frame_entry (i : Z) (e : AllowedRootEntry) : string :=
  Itoa i +:+ nul +:+ Path e +:+ nul +:+ Access e +:+ nul.

Fixpoint frame_from (i : Z) (entries : list AllowedRootEntry) : string :=
  match entries with
  | [] => ""
  | e :: entries => frame_entry i e +:+ frame_from (i + 1) entries
  end.

Definition sessionFilesystemSnapshotDigest (entries : list AllowedRootEntry) : string :=
  sha256_hex (frame_from 0 entries).

(** ** Statements on the two tables *)

Definition snapshot_row : Type := Z * (string * string).

Definition row_before (a b : snapshot_row) : Prop := a.1 <= b.1.
#[export] Instance row_before_dec : RelDecision row_before.
Proof. intros a b. unfold row_before. apply _. Defined.

(** [SELECT position, path, access ... WHERE session_id = ? ORDER BY position]. *)
Definition select_entries (sessionID : string) (d : db) : list snapshot_row :=
  merge_sort row_before
    (omap (λ kv, if bool_decide (kv.1.1 = sessionID) then Some (kv.1.2, kv.2) else None)
       (map_to_list (snapshot_entries d))).

(** [INSERT INTO session_filesystem_snapshot_entries] with its constraints. *)
Definition insert_entry (sessionID : string) (position : Z) (e : AllowedRootEntry) (d : db)
    : option db :=
  if negb (snapshot_tables d) then None
  else if bool_decide (sessions d !! sessionID = None) then None
  else if negb (0 <=? position) then None
  else if negb (isValid (Access e)) then None
  else if bool_decide (is_Some (snapshot_entries d !! (sessionID, position))) then None
  else if existsb (λ kv, bool_decide (kv.1.1 = sessionID) && bool_decide (kv.2.1 = Path e))
            (map_to_list (snapshot_entries d)) then None
  else Some (set_snapshots true (<[(sessionID, position) := (Path e, Access e)]> (snapshot_entries d))
               (snapshot_meta d) d).

Definition insert_meta (sessionID : string) (entry_count : Z) (digest : string) (d : db) : option db :=
  if negb (snapshot_tables d) then None
  else if bool_decide (sessions d !! sessionID = None) then None
  else if bool_decide (is_Some (snapshot_meta d !! sessionID)) then None
  else Some (set_snapshots true (snapshot_entries d)
               (<[sessionID := (entry_count, digest)]> (snapshot_meta d)) d).

(** ** Insert and load *)

Definition insertSessionFilesystemSnapshot (sessionID : string) (entries : list AllowedRootEntry)
    : DB unit :=
  _ ← db_iter (λ ie, exec (insert_entry sessionID (Z.of_nat ie.1) ie.2)) (imap pair entries);
  exec (insert_meta sessionID (Z.of_nat (length entries)) (sessionFilesystemSnapshotDigest entries)).

(** The row loop of the loader. *)
Fixpoint scan_entries (n : Z) (rows : list snapshot_row) : result (list AllowedRootEntry) :=
  match rows with
  | [] => Ok []
  | (position, (path, access)) :: rows =>
      if bool_decide (position ≠ n) then
        errorf "filesystem snapshot positions are not exactly 0..N-1" []
      else l ← scan_entries (n + 1) rows; mret (mkEntry path access :: l)
  end.

Definition db_lift {A} (r : result A) : DB A := λ d f, (r, d, f).

Definition check_snapshot (workspace : string) (entryCount : Z) (digest : string)
    (rows : list snapshot_row) : result sessionFilesystemSnapshot :=
  entries ← scan_entries 0 rows;
  if bool_decide (entries = []) then errorf "session has no persisted filesystem snapshot" []
  else if bool_decide (entryCount ≠ Z.of_nat (length entries)) then
    errorf "filesystem snapshot integrity metadata records another entry count" []
  else if bool_decide (digest ≠ sessionFilesystemSnapshotDigest entries) then
    errorf "filesystem snapshot does not match its issued integrity digest" []
  else match newSessionFilesystemSnapshot workspace entries with
       | Ok snapshot => Ok snapshot
       | Err e => Err (mkError "session filesystem snapshot is not canonical" (err_wraps e))
       end.

Definition loadSessionFilesystemSnapshot (sessionID workspace : string)
    : DB sessionFilesystemSnapshot :=
  meta ← wrapf "cannot load session filesystem snapshot integrity metadata" []
           (query (λ d, snapshot_meta d !! sessionID));
  match meta with
  | None => db_fail "filesystem snapshot integrity metadata is missing" []
  | Some (entryCount, digest) =>
      rows ← wrapf "cannot load session filesystem snapshot" [] (query (select_entries sessionID));
      db_lift (check_snapshot workspace entryCount digest rows)
  end.

(** ** The integrity pass *)

Definition snapshot_orphans (d : db) : list string :=
  filter (λ sid, sessions d !! sid = None)
    ((map_to_list (snapshot_entries d)).*1.*1 ++ (map_to_list (snapshot_meta d)).*1).

Definition verify_session (row : string * session_row) : DB unit :=
  wrapf "session filesystem snapshot integrity failure" []
    (_ ← loadSessionFilesystemSnapshot row.1 (s_workspace row.2); mret ()).

Definition verifySessionFilesystemSnapshots : DB unit :=
  orphan ← wrapf "cannot check for orphaned snapshot rows" [] (query (λ d, head (snapshot_orphans d)));
  match orphan with
  | Some _ => db_fail "session filesystem snapshot integrity failure" []
  | None =>
      rows ← wrapf "cannot enumerate sessions for snapshot integrity" []
               (query (λ d, map_to_list (sessions d)));
      db_iter verify_session rows
  end.

Definition verifySessionFilesystemSnapshotIntegrity : DB unit :=
  wrapf "session filesystem snapshot integrity check failed" [] verifySessionFilesystemSnapshots.

(** ** The legacy cutover *)

Inductive sessionSnapshotSchemaClass :=
  | sessionSnapshotSchemaUnsupported | sessionSnapshotSchemaAbsent | sessionSnapshotSchemaCanonical.
#[export] Instance schema_class_eq_dec : EqDecision sessionSnapshotSchemaClass.
Proof. solve_decision. Defined.

(** The table-presence half of the classification: the tables of this model have
    the canonical DDL whenever they exist, and they exist together. *)
Definition classifySessionFilesystemSnapshotSchema : DB sessionSnapshotSchemaClass :=
  wrapf "cannot inspect table presence" []
    (query (λ d, if snapshot_tables d then sessionSnapshotSchemaCanonical
                 else sessionSnapshotSchemaAbsent)).

Definition compat_entry (workspace : string) : AllowedRootEntry :=
  mkEntry workspace AllowedRootAccessReadWrite.

(** [INSERT INTO ... SELECT id, 0, workspace, 'read_write' FROM sessions]. *)
Definition backfill_entries (d : db) : db :=
  set_snapshots true
    (list_to_map ((λ row, ((row.1, 0), (s_workspace row.2, AllowedRootAccessReadWrite)))
                  <$> map_to_list (sessions d)))
    (snapshot_meta d) d.

Definition backfill_meta (row : string * session_row) : DB unit :=
  wrapf "cannot backfill snapshot metadata" []
    (exec (insert_meta row.1 1 (sessionFilesystemSnapshotDigest [compat_entry (s_workspace row.2)]))).

Definition row_id_le (a b : string * session_row) : Prop := str_le a.1 b.1.
#[export] Instance row_id_le_dec : RelDecision row_id_le.
Proof. intros a b. unfold row_id_le. apply _. Defined.

Definition backfill_body : DB Z :=
  _ ← wrapf "cannot create session filesystem snapshot table" []
        (exec (λ d, if snapshot_tables d then None else Some (set_snapshots true ∅ ∅ d)));
  _ ← wrapf "cannot backfill session filesystem snapshots" [] (exec (λ d, Some (backfill_entries d)));
  rows ← wrapf "cannot enumerate sessions for snapshot metadata backfill" []
           (query (λ d, merge_sort row_id_le (map_to_list (sessions d))));
  _ ← db_iter backfill_meta rows;
  sessionCount ← wrapf "cannot count sessions for snapshot migration" []
                   (query (λ d, Z.of_nat (size (sessions d))));
  _ ← wrapf "session filesystem snapshot migration produced an invalid state" []
        verifySessionFilesystemSnapshots;
  entryCount ← wrapf "cannot count backfilled snapshot entries" []
                 (query (λ d, Z.of_nat (size (snapshot_entries d))));
  if bool_decide (entryCount ≠ sessionCount) then
    db_fail "session filesystem snapshot migration backfilled the wrong number of sessions" []
  else mret sessionCount.

Definition backfillSessionFilesystemSnapshots : DB Z :=
  transaction "cannot begin session filesystem snapshot migration"
    "cannot commit session filesystem snapshot migration" backfill_body.

(** [migrateSessionFilesystemSnapshots]: the number of backfilled Sessions. *)
Definition migrateSessionFilesystemSnapshots : DB Z :=
  class ← classifySessionFilesystemSnapshotSchema;
  match class with
  | sessionSnapshotSchemaAbsent => backfillSessionFilesystemSnapshots
  | _ => _ ← verifySessionFilesystemSnapshotIntegrity; mret 0
  end.
