(* ===== verification/SnapshotSpec.v ===== *)
(** * SnapshotSpec: what the persisted Session snapshot guarantees

    Issued snapshots load back exactly; an altered one is refused short of a
    SHA-256 collision; the integrity pass accepts exactly the intact
    databases; the legacy cutover is all or nothing. *)
From S2P Require Import Prelude Filepath AllowedRoots AllowedRootsTheory GoStrings Sha256 Database SnapshotStore.
Local Open Scope Z_scope.

(** ** The framing *)

Definition nul_char : ascii := "000"%char.
Definition nul_free (s : string) : Prop := str_count nul_char s = 0%nat.
Definition entry_nul_free (e : AllowedRootEntry) : Prop := nul_free (Path e) ∧ nul_free (Access e).

Lemma digits_nul_free s acc v : digits_value acc s = Some v → nul_free s.
Proof.
  revert acc. unfold nul_free. induction s as [|c s IH]; simpl; intros acc; [done|].
  destruct (digit_of c) as [d|] eqn:Ed; simpl; [|done]. intros H. rewrite (IH _ H).
  destruct (ascii_dec nul_char c) as [<-|]; [by vm_compute in Ed|done].
Qed.

Lemma Itoa_nul_free i : 0 <= i < 10 ^ 20 → nul_free (Itoa i).
Proof.
  intros Hi. unfold Itoa.
  destruct (itoa_fuel_value 20 i "") as (ds & E1 & _ & E3 & _); [done|lia|].
  rewrite E1, str_app_nil_r. by eapply digits_nul_free.
Qed.

Definition entry_nuls (e : AllowedRootEntry) : nat :=
  (str_count nul_char (Path e) + str_count nul_char (Access e))%nat.

Lemma frame_nuls i l :
  0 <= i → i + Z.of_nat (length l) < 10 ^ 20 →
  str_count nul_char (frame_from i l) = (3 * length l + sum_list (entry_nuls <$> l))%nat.
Proof.
  revert i. induction l as [|e l IH]; intros i Hi Hl; simpl; [done|].
  simpl in Hl. unfold frame_entry. rewrite !str_count_app. rewrite IH by lia.
  rewrite (Itoa_nul_free i) by lia. unfold entry_nuls at 2.
  change (str_count nul_char nul) with 1%nat.
  change (list_fmap AllowedRootEntry nat entry_nuls l) with (entry_nuls <$> l). lia.
Qed.

Lemma nul_split a b r r' : nul_free a → nul_free b →
  a +:+ nul +:+ r = b +:+ nul +:+ r' → a = b ∧ r = r'.
Proof.
  unfold nul_free. revert b. induction a as [|x a IH]; intros [|y b]; simpl; intros Ha Hb E.
  - by injection E.
  - injection E as <- _. destruct (ascii_dec nul_char "000"%char) as [|n]; [done|by destruct n].
  - injection E as -> _. destruct (ascii_dec nul_char "000"%char) as [|n]; [done|by destruct n].
  - injection E as <- E. destruct (ascii_dec nul_char x); [done|].
    destruct (IH b) as [-> ->]; [lia..|done|done].
Qed.

Lemma frame_inj_nul_free i l l' :
  Forall entry_nul_free l → Forall entry_nul_free l' → length l = length l' →
  frame_from i l = frame_from i l' → l = l'.
Proof.
  revert i l'. induction l as [|e l IH]; intros i [|e' l'] Hl Hl' Hlen; try done. simpl.
  unfold frame_entry. rewrite !str_app_assoc. intros E%str_app_inj_l.
  apply Forall_cons in Hl as [[Hp Ha] Hl], Hl' as [[Hp' Ha'] Hl'].
  assert (E' : Path e +:+ nul +:+ Access e +:+ nul +:+ frame_from (i + 1) l =
    Path e' +:+ nul +:+ Access e' +:+ nul +:+ frame_from (i + 1) l') by (by simplify_eq/=).
  apply nul_split in E' as [E1 E']; [|done..]. apply nul_split in E' as [E2 E']; [|done..].
  f_equal; [destruct e, e'; simpl in *; congruence|]. apply (IH (i + 1)); [done..|by simpl in Hlen; lia|done].
Qed.

Lemma sum_zero l : sum_list (entry_nuls <$> l) = 0%nat → Forall entry_nul_free l.
Proof.
  induction l as [|e l IH]; intros H; [constructor|].
  change ((entry_nuls e + sum_list (entry_nuls <$> l))%nat = 0%nat) in H. constructor.
  - unfold entry_nuls in H. split; unfold nul_free; lia.
  - apply IH. lia.
Qed.

Lemma nul_free_sum l : Forall entry_nul_free l → sum_list (entry_nuls <$> l) = 0%nat.
Proof.
  induction 1 as [|e l [H1 H2] _ IH]; [done|].
  change ((entry_nuls e + sum_list (entry_nuls <$> l))%nat = 0%nat).
  rewrite IH. unfold entry_nuls, nul_free in *. lia.
Qed.

(** Equal frames of equally many entries: one NUL-free side suffices. *)
Lemma frame_inj l l' :
  Forall entry_nul_free l → length l = length l' → Z.of_nat (length l) < 10 ^ 20 →
  frame_from 0 l = frame_from 0 l' → l = l'.
Proof.
  intros Hl Hlen Hb E. apply (frame_inj_nul_free 0); [done| |done|done].
  apply sum_zero. pose proof (frame_nuls 0 l ltac:(lia) ltac:(lia)) as H1.
  pose proof (frame_nuls 0 l' ltac:(lia) ltac:(lia)) as H2. rewrite nul_free_sum in H1 by done.
  rewrite E in H1. lia.
Qed.

(** ** The rows an insert writes *)

Fixpoint rows_from (i : Z) (entries : list AllowedRootEntry) : list snapshot_row :=
  match entries with
  | [] => []
  | e :: entries => (i, (Path e, Access e)) :: rows_from (i + 1) entries
  end.

Lemma rows_from_pos i l r : r ∈ rows_from i l → i <= r.1.
Proof.
  revert i. induction l as [|e l IH]; intros i; simpl; [by intros ?%not_elem_of_nil|].
  intros [->|H]%elem_of_cons; [done|]. apply IH in H. lia.
Qed.

Lemma rows_from_sorted i l : StronglySorted row_before (rows_from i l).
Proof.
  revert i. induction l as [|e l IH]; intros i; simpl; constructor; [done|].
  apply Forall_forall. intros r Hr%rows_from_pos. unfold row_before. simpl. lia.
Qed.

Lemma scan_rows_from i l : scan_entries i (rows_from i l) = Ok l.
Proof.
  revert i. induction l as [|[p a] l IH]; intros i; simpl; [done|].
  rewrite bool_decide_eq_false_2 by (intros H; by apply H). by rewrite IH.
Qed.

Lemma scan_entries_length n rows l : scan_entries n rows = Ok l → length l = length rows.
Proof.
  revert n l. induction rows as [|[pos [p a]] rows IH]; simpl; intros n l; [by intros [= <-]|].
  case_bool_decide; [done|]. destruct (scan_entries (n + 1) rows) as [l'|] eqn:E; [|done].
  intros [= <-]. simpl. f_equal. by eapply IH.
Qed.

Definition row_of (sid : string) (kv : (string * Z) * (string * string)) : option snapshot_row :=
  if bool_decide (kv.1.1 = sid) then Some (kv.1.2, kv.2) else None.

Lemma elem_of_raw_rows sid d pos pa :
  (pos, pa) ∈ omap (row_of sid) (map_to_list (snapshot_entries d)) ↔
  snapshot_entries d !! (sid, pos) = Some pa.
Proof.
  rewrite list_elem_of_omap. split.
  - intros ([[s p] v] & Hin & Hr). unfold row_of in Hr. simpl in Hr. case_bool_decide; [|done].
    simplify_eq/=. by apply elem_of_map_to_list in Hin.
  - intros H. exists ((sid, pos), pa). split; [by apply elem_of_map_to_list|].
    unfold row_of. simpl. by rewrite bool_decide_eq_true_2.
Qed.

Lemma raw_rows_nodup sid d : NoDup (omap (row_of sid) (map_to_list (snapshot_entries d))).
Proof.
  generalize (NoDup_map_to_list (snapshot_entries d)). generalize (map_to_list (snapshot_entries d)).
  induction 1 as [|x l Hx Hl IH]; simpl; [constructor|].
  destruct (row_of sid x) as [r|] eqn:Er; [|done]. constructor; [|done].
  rewrite list_elem_of_omap. intros (y & Hy & Ey). unfold row_of in Er, Ey.
  case_bool_decide; [|done]. case_bool_decide; [|done]. destruct x as [[s p] v], y as [[s' p'] v'].
  simplify_eq/=. done.
Qed.

Lemma rows_from_nodup i l : NoDup (rows_from i l).
Proof.
  revert i. induction l as [|e l IH]; intros i; simpl; constructor; [|done].
  intros H. apply rows_from_pos in H. simpl in H. lia.
Qed.

#[export] Instance row_before_total : Total row_before.
Proof. intros a b. unfold row_before. lia. Qed.
#[export] Instance row_before_trans : Transitive row_before.
Proof. intros a b c. unfold row_before. lia. Qed.

(** The rows of one Session, when the table holds exactly these rows of it. *)
Lemma select_entries_exact sid d l :
  (∀ pos pa, snapshot_entries d !! (sid, pos) = Some pa ↔ (pos, pa) ∈ rows_from 0 l) →
  select_entries sid d = rows_from 0 l.
Proof.
  intros H. unfold select_entries. fold (row_of sid).
  change (λ kv : string * Z * (string * string), _) with (row_of sid).
  apply (StronglySorted_unique_strong row_before).
  - intros [p1 v1] [p2 v2] H1 H2 L1 L2. rewrite merge_sort_Permutation in H1.
    apply elem_of_raw_rows in H1. apply H in H2. unfold row_before in *. simpl in *.
    assert (p1 = p2) as -> by lia. congruence.
  - apply (StronglySorted_merge_sort row_before).
  - apply rows_from_sorted.
  - rewrite merge_sort_Permutation. apply NoDup_Permutation; [apply raw_rows_nodup|apply rows_from_nodup|].
    intros [p v]. by rewrite elem_of_raw_rows, H.
Qed.

Lemma select_entries_ext sid d d' :
  (∀ pos, snapshot_entries d !! (sid, pos) = snapshot_entries d' !! (sid, pos)) →
  select_entries sid d' = select_entries sid d.
Proof.
  intros Eo. change (merge_sort row_before (omap (row_of sid) (map_to_list (snapshot_entries d'))) =
    merge_sort row_before (omap (row_of sid) (map_to_list (snapshot_entries d)))).
  apply (StronglySorted_unique_strong row_before).
  - intros [p1 v1] [p2 v2] H1 H2 L1 L2. rewrite merge_sort_Permutation in H1, H2.
    apply elem_of_raw_rows in H1, H2. unfold row_before in *. simpl in *.
    assert (p1 = p2) as -> by lia. rewrite <-Eo in H1. congruence.
  - apply (StronglySorted_merge_sort row_before).
  - apply (StronglySorted_merge_sort row_before).
  - rewrite !merge_sort_Permutation. apply NoDup_Permutation; [apply raw_rows_nodup..|].
    intros [p v]. by rewrite !elem_of_raw_rows, Eo.
Qed.

(** ** Inserting *)

Definition other_tables_same (d d' : db) : Prop :=
  principals d' = principals d ∧ principal_allowed_roots d' = principal_allowed_roots d ∧
  launchers d' = launchers d ∧ launcher_allowed_roots d' = launcher_allowed_roots d ∧
  credentials d' = credentials d ∧ sessions d' = sessions d ∧ mac_boundaries d' = mac_boundaries d.

#[export] Instance other_tables_preorder : PreOrder other_tables_same.
Proof.
  split; [done|]. intros a b c (?&?&?&?&?&?&?) (?&?&?&?&?&?&?). unfold other_tables_same.
  split_and!; congruence.
Qed.

Lemma insert_entry_inv sid pos e d d' :
  insert_entry sid pos e d = Some d' →
  other_tables_same d d' ∧ snapshot_meta d' = snapshot_meta d ∧
  snapshot_entries d' = <[(sid, pos) := (Path e, Access e)]> (snapshot_entries d) ∧
  snapshot_entries d !! (sid, pos) = None.
Proof.
  unfold insert_entry. destruct (snapshot_tables d); [|done]. simpl.
  case_bool_decide; [done|]. destruct (0 <=? pos); [|done]. destruct (isValid (Access e)); [|done]. simpl.
  case_bool_decide as Hk; [done|]. destruct (existsb _ _); [done|]. intros [= <-]. simpl.
  split_and!; try done. by apply eq_None_not_Some.
Qed.

Definition indexed (k : nat) (l : list AllowedRootEntry) : list (nat * AllowedRootEntry) :=
  imap (λ n e, ((k + n)%nat, e)) l.

Lemma indexed_cons k e l : indexed k (e :: l) = (k, e) :: indexed (S k) l.
Proof.
  unfold indexed. rewrite imap_cons. f_equal; [f_equal; lia|].
  apply imap_ext. intros i x _. simpl. f_equal. lia.
Qed.

Lemma imap_pair_indexed l : imap pair l = indexed 0 l.
Proof. done. Qed.

Definition insert_all (sid : string) (k : nat) (l : list AllowedRootEntry) : DB unit :=
  db_iter (λ ie, exec (insert_entry sid (Z.of_nat ie.1) ie.2)) (indexed k l).

Lemma insert_all_ok sid k l d f u d' f' :
  insert_all sid k l d f = (Ok u, d', f') →
  other_tables_same d d' ∧ snapshot_meta d' = snapshot_meta d ∧
  ∀ s pos pa, snapshot_entries d' !! (s, pos) = Some pa ↔
    snapshot_entries d !! (s, pos) = Some pa ∨ (s = sid ∧ (pos, pa) ∈ rows_from (Z.of_nat k) l).
Proof.
  revert k d f. induction l as [|e l IH]; intros k d f.
  - unfold insert_all. simpl. intros [= <- <- <-]. split_and!; [done..|]. intros s pos pa.
    split; [by left|]. intros [?|[_ ?%not_elem_of_nil]]; done.
  - unfold insert_all. rewrite indexed_cons. simpl. intros (v & d1 & f1 & H1 & H2)%db_bind_ok.
    apply exec_ok in H1 as [H1 _]. apply insert_entry_inv in H1 as (O1 & M1 & E1 & N1).
    apply IH in H2 as (O2 & M2 & E2). split_and!; [by etrans|congruence|].
    intros s pos pa. rewrite E2, E1, lookup_insert_Some, elem_of_cons.
    replace (Z.of_nat (S k)) with (Z.of_nat k + 1) by lia. split.
    + intros [[[[= <- <-] <-]|[_ ?]]|[-> ?]]; [|by left|]; right; (split; [done|]); [by left|by right].
    + intros [H|[-> [[= -> ->]|?]]]; [|by left; left|by right].
      left. right. split; [|done]. intros [= <- <-]. congruence.
Qed.

(** The rows of [sid] are exactly those of the entries [prev]. *)
Definition rows_are (sid : string) (prev : list AllowedRootEntry) (d : db) : Prop :=
  ∀ pos pa, snapshot_entries d !! (sid, pos) = Some pa ↔ (pos, pa) ∈ rows_from 0 prev.

Lemma rows_from_app i l k :
  rows_from i (l ++ k) = rows_from i l ++ rows_from (i + Z.of_nat (length l)) k.
Proof.
  revert i. induction l as [|e l IH]; intros i; simpl; [by rewrite Z.add_0_r|].
  f_equal. rewrite IH. f_equal. f_equal. lia.
Qed.

Lemma rows_from_bound i l r : r ∈ rows_from i l → i <= r.1 < i + Z.of_nat (length l) ∧ r.2.1 ∈ Path <$> l.
Proof.
  revert i. induction l as [|e l IH]; intros i; simpl; [by intros ?%not_elem_of_nil|].
  intros [->|H]%elem_of_cons; simpl; [split; [lia|by left]|].
  apply IH in H as [? ?]. split; [lia|by right].
Qed.

Lemma insert_entry_next sid prev e d :
  snapshot_tables d = true → is_Some (sessions d !! sid) → rows_are sid prev d →
  isValid (Access e) = true → Path e ∉ Path <$> prev →
  insert_entry sid (Z.of_nat (length prev)) e d =
    Some (set_snapshots true (<[(sid, Z.of_nat (length prev)) := (Path e, Access e)]> (snapshot_entries d))
            (snapshot_meta d) d).
Proof.
  intros Ht Hs Hrows Hv Hp. unfold insert_entry. rewrite Ht. simpl.
  rewrite bool_decide_eq_false_2 by (intros E; rewrite E in Hs; by destruct Hs).
  rewrite (proj2 (Z.leb_le _ _)) by lia. rewrite Hv. simpl.
  rewrite bool_decide_eq_false_2.
  2: { intros [pa Hpa]. apply Hrows, rows_from_bound in Hpa as [? _]. simpl in *. lia. }
  destruct (existsb _ _) eqn:E; [|done]. exfalso.
  apply existsb_exists in E as ([[s pos] [p a]] & Hin & Hb). simpl in Hb.
  apply andb_true_iff in Hb as [->%bool_decide_eq_true ->%bool_decide_eq_true].
  apply list_elem_of_In, elem_of_map_to_list, Hrows, rows_from_bound in Hin as [_ ?]. done.
Qed.

Lemma insert_all_calm sid prev l d f :
  calm f → snapshot_tables d = true → is_Some (sessions d !! sid) → rows_are sid prev d →
  Forall (λ e, isValid (Access e) = true) l → NoDup (Path <$> (prev ++ l)) →
  ∃ d' f', insert_all sid (length prev) l d f = (Ok (), d', f') ∧ calm f' ∧ snapshot_tables d' = true.
Proof.
  revert prev d f. induction l as [|e l IH]; intros prev d f Hf Ht Hs Hrows Hv Hnd.
  { by exists d, f. }
  unfold insert_all. rewrite indexed_cons. simpl. apply Forall_cons in Hv as [Hve Hv].
  assert (Hp : Path e ∉ Path <$> prev).
  { rewrite fmap_app in Hnd. apply NoDup_app in Hnd as (_ & Hd & _). intros Hin. apply (Hd _ Hin). by left. }
  unfold mbind, db_bind. rewrite exec_calm, (insert_entry_next sid prev) by done.
  destruct (IH (prev ++ [e]) (set_snapshots true
    (<[(sid, Z.of_nat (length prev)) := (Path e, Access e)]> (snapshot_entries d)) (snapshot_meta d) d) (tail f))
    as (d' & f' & E & Hf' & Ht'); try done.
  - by apply calm_tail.
  - intros pos pa. simpl. rewrite lookup_insert_Some, rows_from_app, elem_of_app, (Hrows pos pa). simpl.
    rewrite list_elem_of_singleton. split.
    + intros [[[= <-] <-]|[_ ?]]; [by right|by left].
    + intros [H|[= -> ->]]; [|by left]. right. split; [|done]. intros [= <-].
      apply rows_from_bound in H as [? _]. simpl in *. lia.
  - by rewrite <-app_assoc.
  - exists d', f'. split; [|done]. rewrite <-E. unfold insert_all. rewrite length_app. simpl. by rewrite Nat.add_1_r.
Qed.

(** What a committed insert leaves: the rows and the metadata of the Session. *)
Lemma insert_snapshot_ok sid entries d f u d' f' :
  rows_are sid [] d → insertSessionFilesystemSnapshot sid entries d f = (Ok u, d', f') →
  other_tables_same d d' ∧ rows_are sid entries d' ∧
  snapshot_meta d' = <[sid := (Z.of_nat (length entries), sessionFilesystemSnapshotDigest entries)]> (snapshot_meta d) ∧
  (∀ sid' pos, sid' ≠ sid → snapshot_entries d' !! (sid', pos) = snapshot_entries d !! (sid', pos)).
Proof.
  intros Hrows H. unfold insertSessionFilesystemSnapshot in H. rewrite imap_pair_indexed in H.
  apply db_bind_ok in H as (v & d1 & f1 & H1 & H2).
  apply (insert_all_ok sid 0 entries) in H1 as (O1 & M1 & E1).
  apply exec_ok in H2 as [H2 _]. unfold insert_meta in H2. destruct (snapshot_tables d1); [|done]. simpl in H2.
  case_bool_decide; [done|]. case_bool_decide; [done|]. injection H2 as <-. simpl. split_and!; [|..].
  - etrans; [exact O1|]. done.
  - intros pos pa. simpl. rewrite E1. rewrite (Hrows pos pa). simpl. rewrite elem_of_nil. naive_solver.
  - by rewrite M1.
  - intros sid' pos Hne. apply option_eq. intros pa. rewrite E1. naive_solver.
Qed.

Lemma insert_snapshot_calm sid entries d f :
  calm f → snapshot_tables d = true → is_Some (sessions d !! sid) → rows_are sid [] d →
  snapshot_meta d !! sid = None →
  Forall (λ e, isValid (Access e) = true) entries → NoDup (Path <$> entries) →
  ∃ d' f', insertSessionFilesystemSnapshot sid entries d f = (Ok (), d', f').
Proof.
  intros Hf Ht Hs Hrows Hm Hv Hnd. unfold insertSessionFilesystemSnapshot. rewrite imap_pair_indexed.
  destruct (insert_all_calm sid [] entries d f) as (d1 & f1 & E & Hf1 & Ht1); [done..|].
  pose proof (insert_all_ok _ _ _ _ _ _ _ _ E) as (O1 & M1 & _).
  change (db_iter _ (indexed 0 entries)) with (insert_all sid (length ([] : list AllowedRootEntry)) entries).
  unfold mbind, db_bind. rewrite E, exec_calm by done. unfold insert_meta. rewrite Ht1. simpl.
  destruct O1 as (_&_&_&_&_&Es&_). rewrite Es.
  rewrite bool_decide_eq_false_2 by (intros E'; rewrite E' in Hs; by destruct Hs).
  rewrite M1, Hm. rewrite bool_decide_eq_false_2 by (by intros []). eauto.
Qed.

(** ** Loading *)

Lemma load_ok sid ws d f snap d' f' :
  loadSessionFilesystemSnapshot sid ws d f = (Ok snap, d', f') →
  d' = d ∧ ∃ n dig, snapshot_meta d !! sid = Some (n, dig) ∧
    check_snapshot ws n dig (select_entries sid d) = Ok snap.
Proof.
  unfold loadSessionFilesystemSnapshot. intros (m & d1 & f1 & H1 & H2)%db_bind_ok.
  apply wrapf_ok, query_ok in H1 as (-> & -> & _).
  destruct (snapshot_meta d !! sid) as [[n dig]|] eqn:Em; [|done].
  apply db_bind_ok in H2 as (rows & d2 & f2 & H2 & H3).
  apply wrapf_ok, query_ok in H2 as (-> & -> & _). unfold db_lift in H3. injection H3 as Hc <- _. eauto.
Qed.

Lemma load_calm sid ws d f :
  calm f → (loadSessionFilesystemSnapshot sid ws d f).1 =
    (match snapshot_meta d !! sid with
     | None => errorf "filesystem snapshot integrity metadata is missing" []
     | Some (n, dig) => check_snapshot ws n dig (select_entries sid d)
     end, d).
Proof.
  intros Hf. unfold loadSessionFilesystemSnapshot, mbind, db_bind, wrapf. rewrite query_calm by done.
  destruct (snapshot_meta d !! sid) as [[n dig]|]; [|done].
  rewrite query_calm by (by apply calm_tail). done.
Qed.

Lemma check_snapshot_ok ws n dig rows snap :
  check_snapshot ws n dig rows = Ok snap →
  ∃ entries, scan_entries 0 rows = Ok entries ∧ n = Z.of_nat (length entries) ∧
    dig = sessionFilesystemSnapshotDigest entries ∧
    newSessionFilesystemSnapshot ws entries = Ok snap ∧ Entries snap = entries.
Proof.
  unfold check_snapshot. destruct (scan_entries 0 rows) as [l|] eqn:Es; [|done]. simpl.
  case_bool_decide; [done|]. case_bool_decide as Hn; [done|]. case_bool_decide as Hd; [done|].
  destruct (newSessionFilesystemSnapshot ws l) as [s|] eqn:Ens; [|done]. intros [= <-].
  exists l. split_and!; try done. unfold newSessionFilesystemSnapshot in Ens.
  destruct (validateCanonicalAllowedRootEntries l); [|done]. simpl in Ens.
  destruct (_ || _); [done|]. case_bool_decide; [done|]. destruct (lookupAllowedRootAccess l ws); [|done].
  case_bool_decide; [done|]. by injection Ens as <-.
Qed.

(** The loader accepts the rows and metadata of a canonical snapshot. *)
Lemma check_snapshot_rows ws l snap :
  newSessionFilesystemSnapshot ws l = Ok snap → l ≠ [] →
  check_snapshot ws (Z.of_nat (length l)) (sessionFilesystemSnapshotDigest l) (rows_from 0 l) = Ok snap.
Proof.
  intros Hnew Hne. unfold check_snapshot. rewrite scan_rows_from. cbn [mbind result_bind].
  rewrite !bool_decide_eq_false_2 by (done || (intros H; by apply H)). by rewrite Hnew.
Qed.

(** ** The legacy backfill *)

Lemma new_snapshot_single ws :
  canonical ws = true → newSessionFilesystemSnapshot ws [compat_entry ws] = Ok (mkSnapshot ws [compat_entry ws]).
Proof.
  intros Hc. pose proof (proj1 (canonical_unfold ws) Hc) as Hc'.
  assert (Hv : validateCanonicalAllowedRootEntries [compat_entry ws] = Ok tt).
  { apply validate_ok. split; [intros e ->%list_elem_of_singleton; done..|]. apply NoDup_singleton. }
  unfold newSessionFilesystemSnapshot. rewrite Hv. simpl. rewrite Hc'.
  unfold lookupAllowedRootAccess, lookup_entry. simpl. unfold lookup_step. simpl.
  rewrite (pathWithin_refl ws). simpl. by rewrite bool_decide_eq_false_2 by (intros H; by apply H).
Qed.

Lemma verify_iter_ok rows d f u d' f' :
  db_iter verify_session rows d f = (Ok u, d', f') →
  d' = d ∧ ∀ row, row ∈ rows → ∃ n dig snap, snapshot_meta d !! row.1 = Some (n, dig) ∧
    check_snapshot (s_workspace row.2) n dig (select_entries row.1 d) = Ok snap.
Proof.
  revert f. induction rows as [|row rows IH]; intros f; simpl.
  - intros [= _ <- _]. split; [done|]. by intros ? ?%not_elem_of_nil.
  - intros (v & d1 & f1 & H1 & H2)%db_bind_ok. apply wrapf_ok in H1.
    apply db_bind_ok in H1 as (snap & d2 & f2 & H1 & H3). injection H3 as _ -> ->.
    apply load_ok in H1 as (-> & n & dig & Em & Hc). apply IH in H2 as (-> & H2).
    split; [done|]. intros r [->|Hr]%elem_of_cons; [eauto|by apply H2].
Qed.

Lemma verify_ok d f u d' f' :
  verifySessionFilesystemSnapshots d f = (Ok u, d', f') →
  d' = d ∧ ∀ sid row, sessions d !! sid = Some row → ∃ n dig snap, snapshot_meta d !! sid = Some (n, dig) ∧
    check_snapshot (s_workspace row) n dig (select_entries sid d) = Ok snap.
Proof.
  unfold verifySessionFilesystemSnapshots. intros (o & d1 & f1 & H1 & H2)%db_bind_ok.
  apply wrapf_ok, query_ok in H1 as (-> & -> & _). destruct (head (snapshot_orphans d)); [done|].
  apply db_bind_ok in H2 as (rows & d2 & f2 & H2 & H3). apply wrapf_ok, query_ok in H2 as (-> & -> & _).
  apply verify_iter_ok in H3 as (-> & H3). split; [done|]. intros sid row Hrow.
  apply (H3 (sid, row)). by apply elem_of_map_to_list.
Qed.

Lemma insert_meta_inv sid n dig d d' :
  insert_meta sid n dig d = Some d' →
  sessions d' = sessions d ∧ snapshot_entries d' = snapshot_entries d ∧ snapshot_tables d' = true ∧
  snapshot_meta d' = <[sid := (n, dig)]> (snapshot_meta d) ∧ other_tables_same d d'.
Proof.
  unfold insert_meta. destruct (snapshot_tables d); [|done]. simpl. case_bool_decide; [done|].
  case_bool_decide; [done|]. by intros [= <-].
Qed.

Lemma backfill_meta_ok rows d f u d' f' :
  db_iter backfill_meta rows d f = (Ok u, d', f') →
  snapshot_entries d' = snapshot_entries d ∧ (snapshot_tables d = true → snapshot_tables d' = true) ∧
  other_tables_same d d'.
Proof.
  revert d f. induction rows as [|row rows IH]; intros d f; simpl.
  - by intros [= _ <- _].
  - intros (v & d1 & f1 & H1 & H2)%db_bind_ok. apply wrapf_ok, exec_ok in H1 as [H1 _].
    apply insert_meta_inv in H1 as (_ & E1 & T1 & _ & O1). apply IH in H2 as (E2 & T2 & O2).
    split_and!; [congruence|auto|by etrans].
Qed.

Lemma backfill_entries_lookup d sid pos pa :
  snapshot_entries (backfill_entries d) !! (sid, pos) = Some pa ↔
  pos = 0 ∧ ∃ row, sessions d !! sid = Some row ∧ pa = (s_workspace row, AllowedRootAccessReadWrite).
Proof.
  unfold backfill_entries. simpl. set (g := λ row : string * session_row, _).
  assert (Hnd : NoDup ((g <$> map_to_list (sessions d)).*1)).
  { rewrite <-list_fmap_compose. apply NoDup_fmap_2_strong; [|apply NoDup_map_to_list].
    intros [s r] [s' r'] H1 H2 [= ->]. apply elem_of_map_to_list in H1, H2. congruence. }
  rewrite <-elem_of_list_to_map by done. rewrite list_elem_of_fmap. split.
  - intros ([s row] & [= -> -> ->] & Hin). apply elem_of_map_to_list in Hin. eauto.
  - intros (-> & row & Hrow & ->). exists (sid, row). split; [done|]. by apply elem_of_map_to_list.
Qed.

Lemma backfill_rows_are d sid row :
  sessions d !! sid = Some row → rows_are sid [compat_entry (s_workspace row)] (backfill_entries d).
Proof.
  intros Hrow pos pa. rewrite backfill_entries_lookup. simpl. rewrite list_elem_of_singleton. split.
  - intros (-> & row' & Hrow' & ->). by simplify_eq.
  - intros [= -> ->]. eauto.
Qed.

Lemma backfill_body_ok d f n d' f' :
  backfill_body d f = (Ok n, d', f') →
  n = Z.of_nat (size (sessions d)) ∧ snapshot_tables d' = true ∧ other_tables_same d d' ∧
  ∀ sid row, sessions d !! sid = Some row →
    rows_are sid [compat_entry (s_workspace row)] d' ∧
    ∃ k dig snap, snapshot_meta d' !! sid = Some (k, dig) ∧
      check_snapshot (s_workspace row) k dig (select_entries sid d') = Ok snap.
Proof.
  unfold backfill_body. intros (u1 & d1 & f1 & H1 & H)%db_bind_ok.
  apply wrapf_ok, exec_ok in H1 as [H1 _]. destruct (snapshot_tables d); [done|]. injection H1 as <-.
  apply db_bind_ok in H as (u2 & d2 & f2 & H2 & H). apply wrapf_ok, exec_ok in H2 as [H2 _].
  injection H2 as <-. apply db_bind_ok in H as (rows & d3 & f3 & H3 & H).
  apply wrapf_ok, query_ok in H3 as (_ & -> & _).
  apply db_bind_ok in H as (u4 & d4 & f4 & H4 & H). apply backfill_meta_ok in H4 as (E4 & T4 & O4).
  apply db_bind_ok in H as (cnt & d5 & f5 & H5 & H). apply wrapf_ok, query_ok in H5 as (-> & -> & _).
  apply db_bind_ok in H as (u6 & d6 & f6 & H6 & H). apply wrapf_ok in H6. apply verify_ok in H6 as (-> & H6).
  apply db_bind_ok in H as (cnt' & d7 & f7 & H7 & H). apply wrapf_ok, query_ok in H7 as (-> & -> & _).
  case_bool_decide; [done|]. injection H as <- <- _.
  assert (Es : sessions d4 = sessions d) by (destruct O4 as (_&_&_&_&_&Es&_); by rewrite Es).
  split_and!; [by rewrite Es|by apply T4|done|].
  intros sid row Hrow. split; [|apply H6; by rewrite Es].
  intros pos pa. rewrite E4. by apply backfill_rows_are.
Qed.

(** The metadata loop succeeds on Sessions that exist and have none yet. *)
Lemma backfill_meta_calm rows d f :
  calm f → snapshot_tables d = true → NoDup rows.*1 →
  (∀ row, row ∈ rows → sessions d !! row.1 = Some row.2 ∧ snapshot_meta d !! row.1 = None) →
  ∃ d' f', db_iter backfill_meta rows d f = (Ok (), d', f') ∧ calm f' ∧
    snapshot_tables d' = true ∧ snapshot_entries d' = snapshot_entries d ∧ other_tables_same d d' ∧
    ∀ sid, snapshot_meta d' !! sid =
      match list_to_map (M := gmap string session_row) rows !! sid with
      | Some row => Some (1, sessionFilesystemSnapshotDigest [compat_entry (s_workspace row)])
      | None => snapshot_meta d !! sid
      end.
Proof.
  revert d f. induction rows as [|[sid row] rows IH]; intros d f Hf Ht Hnd Hrows.
  { exists d, f. by split_and!. }
  cbn [db_iter]. unfold mbind, db_bind. unfold backfill_meta at 1, wrapf. rewrite exec_calm by done.
  apply NoDup_cons in Hnd as [Hnin Hnd].
  destruct (Hrows (sid, row) ltac:(left)) as [Hs Hm]. simpl in Hs, Hm.
  set (dig := sessionFilesystemSnapshotDigest _).
  assert (Hins : insert_meta sid 1 dig d =
    Some (set_snapshots true (snapshot_entries d) (<[sid := (1, dig)]> (snapshot_meta d)) d)).
  { unfold insert_meta. by rewrite Ht, Hs, Hm. }
  simpl. rewrite Hins. simpl.
  destruct (IH (set_snapshots true (snapshot_entries d) (<[sid := (1, dig)]> (snapshot_meta d)) d) (tail f))
    as (d' & f' & E & Hf' & Ht' & Ee & Ho & Hmeta); [by apply calm_tail|done|done| |].
  - intros r Hr. simpl. destruct (Hrows r ltac:(by right)) as [Hs' Hm']. split; [done|].
    rewrite lookup_insert_ne; [done|]. intros E. apply Hnin. apply list_elem_of_fmap. by exists r.
  - exists d', f'. rewrite E. split_and!; try done. intros s. rewrite Hmeta. simpl.
    rewrite !lookup_insert. case_decide as Es; [|done]. subst s.
    by rewrite (proj1 (not_elem_of_list_to_map rows sid)).
Qed.

(** The calm integrity pass over Sessions that all load. *)
Lemma verify_session_calm row d f :
  calm f → is_ok (loadSessionFilesystemSnapshot row.1 (s_workspace row.2) d []).1.1 = true →
  ∃ f', verify_session row d f = (Ok (), d, f') ∧ calm f'.
Proof.
  intros Hf Hok. pose proof (load_calm row.1 (s_workspace row.2) d [] (Forall_nil_2 _)) as H2.
  destruct (loadSessionFilesystemSnapshot row.1 (s_workspace row.2) d []) as [[r d2] f2].
  simpl in *. injection H2 as -> _.
  unfold verify_session, loadSessionFilesystemSnapshot, wrapf, mbind, db_bind. rewrite query_calm by done.
  destruct (snapshot_meta d !! row.1) as [[n dig]|]; [|done]. rewrite query_calm by (by apply calm_tail).
  unfold db_lift. destruct (check_snapshot _ _ _ _); [|done]. eexists. split; [done|]. by repeat apply calm_tail.
Qed.

Lemma verify_sessions_calm rows d f :
  calm f → (∀ row, row ∈ rows → is_ok (loadSessionFilesystemSnapshot row.1 (s_workspace row.2) d []).1.1 = true) →
  ∃ f', db_iter verify_session rows d f = (Ok (), d, f') ∧ calm f'.
Proof.
  revert f. induction rows as [|row rows IH]; intros f Hf Hrows; [by exists f|].
  cbn [db_iter]. unfold mbind, db_bind.
  destruct (verify_session_calm row d f Hf) as (f1 & -> & Hf1); [apply Hrows; by left|].
  apply IH; [done|]. intros r Hr. apply Hrows. by right.
Qed.


(** An issued snapshot persists: inserting the canonical entries of a new
    Session succeeds when no statement fails, and after any successful insert
    the loader returns exactly the issued snapshot, leaving every other
    Session's snapshot as it was. *)
Theorem snapshot_roundtrip (sid ws : string) (snap : sessionFilesystemSnapshot) (d : db) (f g : list bool)
    (Hsnap : newSessionFilesystemSnapshot ws (Entries snap) = Ok snap)
    (Htables : snapshot_tables d = true) (Hsession : is_Some (sessions d !! sid))
    (Hfresh : rows_are sid [] d) (Hmeta : snapshot_meta d !! sid = None) (Hg : calm g) :
  (calm f → ∃ d' f', insertSessionFilesystemSnapshot sid (Entries snap) d f = (Ok (), d', f')) ∧
  ∀ u d' f', insertSessionFilesystemSnapshot sid (Entries snap) d f = (Ok u, d', f') →
    (loadSessionFilesystemSnapshot sid ws d' g).1 = (Ok snap, d') ∧
    ∀ sid' ws' h, sid' ≠ sid → calm h →
      (loadSessionFilesystemSnapshot sid' ws' d' h).1.1 = (loadSessionFilesystemSnapshot sid' ws' d h).1.1.
Proof.
  assert (Hv : valid_entries (Entries snap)).
  { apply validate_ok. unfold newSessionFilesystemSnapshot in Hsnap.
    by destruct (validateCanonicalAllowedRootEntries (Entries snap)) as [[]|]. }
  split.
  - intros Hf. apply insert_snapshot_calm; try done; [|apply Hv].
    apply Forall_forall, Hv.
  - intros u d' f' Hins. destruct (insert_snapshot_ok _ _ _ _ _ _ _ Hfresh Hins) as (_ & Hrows & Em & Eo).
    split.
    + rewrite load_calm by done. rewrite Em, lookup_insert_eq, (select_entries_exact sid d' (Entries snap)) by done.
      rewrite (check_snapshot_rows _ _ snap); [done|done|]. intros E. rewrite E in Hsnap.
      unfold newSessionFilesystemSnapshot in Hsnap. simpl in Hsnap. by destruct (_ || _).
    + intros sid' ws' h Hne Hh. rewrite !load_calm by done. rewrite Em, lookup_insert_ne by done.
      rewrite (select_entries_ext sid' d d'); [done|]. intros pos. symmetry. by apply Eo.
Qed.

Definition example_snapshot : sessionFilesystemSnapshot :=
  mkSnapshot "/srv/app" [mkEntry "/srv/app" "read_write"; mkEntry "/srv/app/keys" "read_only"].

Definition example_session_db : db :=
  set_sessions {[ "dhs_1" := mkSession "h" "/srv/app" 0 100 "dhl_1" ]} empty_db.

Lemma example_fresh : rows_are "dhs_1" [] example_session_db.
Proof. intros pos pa. simpl. rewrite lookup_empty, elem_of_nil. by split. Qed.

Lemma snapshot_roundtrip_witness :
  ∃ d' f', insertSessionFilesystemSnapshot "dhs_1" (Entries example_snapshot) example_session_db [] = (Ok (), d', f') ∧
    (loadSessionFilesystemSnapshot "dhs_1" "/srv/app" d' []).1 = (Ok example_snapshot, d').
Proof.
  assert (H1 : newSessionFilesystemSnapshot "/srv/app" (Entries example_snapshot) = Ok example_snapshot)
    by (vm_compute; reflexivity).
  assert (H2 : is_Some (sessions example_session_db !! "dhs_1")) by (eexists; vm_compute; reflexivity).
  destruct (snapshot_roundtrip "dhs_1" "/srv/app" example_snapshot example_session_db [] [] H1 eq_refl H2
    example_fresh eq_refl (Forall_nil_2 _)) as [Hi Hl].
  destruct (Hi (Forall_nil_2 _)) as (d' & f' & E). exists d', f'. split; [exact E|]. apply (Hl _ _ _ E).
Defined.

(** C36. The entries of a snapshot are tamper evident under its metadata: if the
    metadata row of a Session (count and digest) is the one its issue wrote, then
    whatever the entry rows have become, the loader either returns exactly the
    issued entries or fails, unless the changed entries exhibit a SHA-256 collision
    on two different framings.  The digest has no key, so nothing is said of a
    change of the metadata row itself.  Paths of issued entries carry no NUL; the
    tampered ones may. *)
Theorem snapshot_tamper_evident (sid ws : string) (issued : list AllowedRootEntry)
    (snap : sessionFilesystemSnapshot) (d d' : db) (f f' : list bool)
    (Hmeta : snapshot_meta d !! sid =
       Some (Z.of_nat (length issued), sessionFilesystemSnapshotDigest issued))
    (Hnul : Forall entry_nul_free issued) (Hlen : Z.of_nat (length issued) < 10 ^ 20)
    (Hload : loadSessionFilesystemSnapshot sid ws d f = (Ok snap, d', f')) :
  Entries snap = issued ∨
  (frame_from 0 (Entries snap) ≠ frame_from 0 issued ∧
   sha256_hex (frame_from 0 (Entries snap)) = sha256_hex (frame_from 0 issued)).
Proof.
  apply load_ok in Hload as (-> & n & dig & Em & Hc). rewrite Hmeta in Em. injection Em as <- <-.
  apply check_snapshot_ok in Hc as (entries & _ & Hn & Hdig & _ & ->).
  apply Nat2Z.inj in Hn. unfold sessionFilesystemSnapshotDigest in Hdig.
  destruct (decide (frame_from 0 entries = frame_from 0 issued)) as [E|E].
  - left. symmetry. by apply frame_inj.
  - right. by rewrite Hdig.
Qed.

Definition issued_db : db :=
  (insertSessionFilesystemSnapshot "dhs_1" (Entries example_snapshot) example_session_db []).1.2.

Lemma snapshot_tamper_evident_witness :
  Entries example_snapshot = [mkEntry "/srv/app" "read_write"; mkEntry "/srv/app/keys" "read_only"] ∨
  (frame_from 0 (Entries example_snapshot) ≠
     frame_from 0 [mkEntry "/srv/app" "read_write"; mkEntry "/srv/app/keys" "read_only"] ∧
   sha256_hex (frame_from 0 (Entries example_snapshot)) =
     sha256_hex (frame_from 0 [mkEntry "/srv/app" "read_write"; mkEntry "/srv/app/keys" "read_only"])).
Proof.
  apply (snapshot_tamper_evident "dhs_1" "/srv/app"
    [mkEntry "/srv/app" "read_write"; mkEntry "/srv/app/keys" "read_only"] example_snapshot issued_db issued_db [] []).
  - vm_compute. reflexivity.
  - decide_goal.
  - reflexivity.
  - vm_compute. reflexivity.
Defined.

(** ** The integrity pass *)

Lemma orphans_none d :
  snapshot_orphans d = [] ↔
  (∀ sid pos, is_Some (snapshot_entries d !! (sid, pos)) → is_Some (sessions d !! sid)) ∧
  (∀ sid, is_Some (snapshot_meta d !! sid) → is_Some (sessions d !! sid)).
Proof.
  unfold snapshot_orphans.
  set (l := (map_to_list (snapshot_entries d)).*1.*1 ++ (map_to_list (snapshot_meta d)).*1).
  assert (Hl : ∀ sid, sid ∈ l ↔ (∃ pos, is_Some (snapshot_entries d !! (sid, pos))) ∨ is_Some (snapshot_meta d !! sid)).
  { intros sid. unfold l. rewrite elem_of_app, !list_elem_of_fmap. split.
    - intros [([s pos] & -> & Hin)|([s v] & -> & Hin)].
      + apply list_elem_of_fmap in Hin as ([[s' pos'] v] & [= <- <-] & Hin). left. exists pos.
        apply elem_of_map_to_list in Hin. eauto.
      + right. apply elem_of_map_to_list in Hin. eauto.
    - intros [[pos [v Hv]]|[v Hv]]; [left|right].
      + exists (sid, pos). split; [done|]. apply list_elem_of_fmap. exists ((sid, pos), v).
        split; [done|]. by apply elem_of_map_to_list.
      + exists (sid, v). split; [done|]. by apply elem_of_map_to_list. }
  assert (Hf : filter (λ sid, sessions d !! sid = None) l = [] ↔ ∀ sid, sid ∈ l → is_Some (sessions d !! sid)).
  { split.
    - intros E sid Hin. destruct (sessions d !! sid) eqn:Es; [eauto|]. exfalso.
      assert (sid ∈ filter (λ sid, sessions d !! sid = None) l) as Hx by (by apply list_elem_of_filter).
      rewrite E in Hx. by apply not_elem_of_nil in Hx.
    - intros H. destruct (filter _ l) as [|s k] eqn:E; [done|]. exfalso.
      assert (s ∈ filter (λ sid, sessions d !! sid = None) l) as Hx by (rewrite E; by left).
      apply list_elem_of_filter in Hx as [Hn Hin]. apply H in Hin. rewrite Hn in Hin. by destruct Hin. }
  rewrite Hf. setoid_rewrite Hl. naive_solver.
Qed.

Lemma verify_iter d f rows :
  calm f →
  is_ok (db_iter verify_session rows d f).1.1 =
    forallb (λ row, is_ok (loadSessionFilesystemSnapshot row.1 (s_workspace row.2) d []).1.1) rows.
Proof.
  revert f. induction rows as [|row rows IH]; intros f Hf; simpl; [done|].
  unfold mbind, db_bind at 1. unfold verify_session at 1, wrapf, mbind, db_bind.
  pose proof (load_calm row.1 (s_workspace row.2) d f Hf) as H1.
  pose proof (load_calm row.1 (s_workspace row.2) d [] (Forall_nil_2 _)) as H2. rewrite <-H1 in H2. clear H1.
  destruct (loadSessionFilesystemSnapshot row.1 (s_workspace row.2) d f) as [[r d1] f1] eqn:E.
  destruct (loadSessionFilesystemSnapshot row.1 (s_workspace row.2) d []) as [[r' d2] f2].
  simpl in H2. injection H2 as -> ->.
  assert (d1 = d ∧ calm f1) as (-> & Hf1).
  { unfold loadSessionFilesystemSnapshot, mbind, db_bind, wrapf in E. rewrite query_calm in E by done.
    destruct (snapshot_meta d !! row.1) as [[n dig]|]; [|injection E as _ <- <-; by split; [|apply calm_tail]].
    rewrite query_calm in E by (by apply calm_tail). injection E as _ <- <-.
    split; [done|]. by apply calm_tail, calm_tail. }
  destruct r as [s|e]; simpl; [by apply IH|done].
Qed.

(** The startup integrity pass, when no statement fails, accepts exactly
    the intact databases: every Session's snapshot loads and no snapshot or
    metadata row belongs to a Session that does not exist. *)
Theorem integrity_pass_exact (d : db) (f : list bool) (Hf : calm f) :
  is_ok (verifySessionFilesystemSnapshotIntegrity d f).1.1 = true ↔
  (∀ sid row, sessions d !! sid = Some row →
     is_ok (loadSessionFilesystemSnapshot sid (s_workspace row) d []).1.1 = true) ∧
  (∀ sid pos, is_Some (snapshot_entries d !! (sid, pos)) → is_Some (sessions d !! sid)) ∧
  (∀ sid, is_Some (snapshot_meta d !! sid) → is_Some (sessions d !! sid)).
Proof.
  rewrite <-(orphans_none d).
  assert (E : is_ok (verifySessionFilesystemSnapshotIntegrity d f).1.1 =
    match snapshot_orphans d with
    | [] => forallb (λ row, is_ok (loadSessionFilesystemSnapshot row.1 (s_workspace row.2) d []).1.1)
              (map_to_list (sessions d))
    | _ => false
    end).
  { unfold verifySessionFilesystemSnapshotIntegrity, verifySessionFilesystemSnapshots, wrapf, mbind, db_bind.
    rewrite query_calm by done. destruct (snapshot_orphans d) as [|o l]; [|done]. simpl.
    rewrite query_calm by (by apply calm_tail).
    rewrite <-(verify_iter d (tail (tail f))) by (by apply calm_tail, calm_tail).
    by destruct (db_iter verify_session _ _ _) as [[[|] ?] ?]. }
  rewrite E. destruct (snapshot_orphans d) as [|o l]; [|naive_solver].
  rewrite forallb_forall. split.
  - intros H. split; [|done]. intros sid row Hrow. apply (H (sid, row)).
    by apply list_elem_of_In, elem_of_map_to_list.
  - intros [H _] [sid row] Hin. apply list_elem_of_In, elem_of_map_to_list in Hin. by apply H.
Qed.

Lemma integrity_pass_exact_witness :
  is_ok (loadSessionFilesystemSnapshot "dhs_1" "/srv/app" issued_db []).1.1 = true.
Proof.
  assert (Hok : is_ok (verifySessionFilesystemSnapshotIntegrity issued_db []).1.1 = true)
    by (vm_compute; reflexivity).
  destruct (proj1 (integrity_pass_exact issued_db [] (Forall_nil_2 _)) Hok) as [H _].
  apply (H "dhs_1" (mkSession "h" "/srv/app" 0 100 "dhl_1")). vm_compute. reflexivity.
Defined.

(** ** The legacy cutover *)

(** The cutover is all or nothing and grants exactly the issued authority:
    when it succeeds every Session loads as its workspace read_write and
    nothing else changed; when any statement fails the database is untouched,
    so the next startup repeats it; and with no failing statement it succeeds
    whenever every stored workspace is a canonical path. *)
Theorem backfill_atomic (d : db) (f : list bool) (Habsent : snapshot_tables d = false) :
  match migrateSessionFilesystemSnapshots d f with
  | (Ok n, d', _) =>
      n = Z.of_nat (size (sessions d)) ∧ snapshot_tables d' = true ∧ other_tables_same d d' ∧
      ∀ sid row, sessions d !! sid = Some row →
        (loadSessionFilesystemSnapshot sid (s_workspace row) d' []).1.1 =
          Ok (mkSnapshot (s_workspace row) [compat_entry (s_workspace row)])
  | (Err _, d', _) => d' = d
  end.
Proof.
  unfold migrateSessionFilesystemSnapshots, mbind, db_bind.
  destruct (classifySessionFilesystemSnapshotSchema d f) as [[[c|e] d1] f1] eqn:Ec.
  2: { pose proof (reads_wrapf "cannot inspect table presence" [] _
         (reads_query (λ d, if snapshot_tables d then sessionSnapshotSchemaCanonical
                            else sessionSnapshotSchemaAbsent)) d f) as H.
       unfold classifySessionFilesystemSnapshotSchema in Ec. rewrite Ec in H. done. }
  apply wrapf_ok, query_ok in Ec as (-> & -> & _). rewrite Habsent.
  pose proof (transaction_atomic "cannot begin session filesystem snapshot migration"
    "cannot commit session filesystem snapshot migration" backfill_body d f1) as H.
  unfold backfillSessionFilesystemSnapshots.
  destruct (transaction _ _ backfill_body d f1) as [[[n|e] d'] f']; [|done].
  destruct H as (f0 & f2 & H). apply backfill_body_ok in H as (Hn & Ht & Ho & Hrows).
  split_and!; [done..|]. intros sid row Hrow. destruct (Hrows sid row Hrow) as (Hr & k & dig & snap & Em & Hc).
  pose proof (load_calm sid (s_workspace row) d' [] (Forall_nil_2 _)) as Hl. rewrite Em in Hl.
  destruct (loadSessionFilesystemSnapshot sid (s_workspace row) d' []) as [[r d2] f3]. simpl in *.
  injection Hl as -> _. rewrite Hc. f_equal.
  rewrite (select_entries_exact _ _ _ Hr) in Hc.
  apply check_snapshot_ok in Hc as (entries & Es & _ & _ & Hnew & _).
  rewrite scan_rows_from in Es. injection Es as <-.
  unfold newSessionFilesystemSnapshot in Hnew.
  destruct (validateCanonicalAllowedRootEntries _); [|done]. simpl in Hnew.
  destruct (_ || _); [done|]. destruct (lookupAllowedRootAccess _ _); [|done].
  case_bool_decide; [done|]. by injection Hnew as <-.
Qed.

Definition legacy_db : db :=
  set_snapshots false ∅ ∅
    (set_sessions {[ "dhs_1" := mkSession "h1" "/srv/app" 0 100 "dhl_1" ]} empty_db).

Lemma backfill_atomic_witness :
  (loadSessionFilesystemSnapshot "dhs_1" "/srv/app" (migrateSessionFilesystemSnapshots legacy_db []).1.2 []).1.1 =
    Ok (mkSnapshot "/srv/app" [compat_entry "/srv/app"]) ∧
  (migrateSessionFilesystemSnapshots legacy_db [false; false; true]).1.2 = legacy_db.
Proof.
  split.
  - assert (Hok : is_ok (migrateSessionFilesystemSnapshots legacy_db []).1.1 = true) by (vm_compute; reflexivity).
    pose proof (backfill_atomic legacy_db [] eq_refl) as H.
    destruct (migrateSessionFilesystemSnapshots legacy_db []) as [[[n|e] d'] f']; [|discriminate Hok].
    destruct H as (_ & _ & _ & H). apply (H "dhs_1" (mkSession "h1" "/srv/app" 0 100 "dhl_1")).
    vm_compute. reflexivity.
  - assert (Hok : is_ok (migrateSessionFilesystemSnapshots legacy_db [false; false; true]).1.1 = false)
      by (vm_compute; reflexivity).
    pose proof (backfill_atomic legacy_db [false; false; true] eq_refl) as H.
    destruct (migrateSessionFilesystemSnapshots legacy_db [false; false; true]) as [[[n|e] d'] f']; [discriminate Hok|].
    exact H.
Defined.

(** With no failing statement the cutover of a database whose stored
    workspaces are canonical paths succeeds. *)
Theorem backfill_succeeds (d : db) (f : list bool) (Hf : calm f) (Habsent : snapshot_tables d = false)
    (Hws : ∀ sid row, sessions d !! sid = Some row → canonical (s_workspace row) = true) :
  is_ok (migrateSessionFilesystemSnapshots d f).1.1 = true.
Proof.
  unfold migrateSessionFilesystemSnapshots, classifySessionFilesystemSnapshotSchema, mbind, db_bind, wrapf.
  rewrite query_calm by done. rewrite Habsent. unfold backfillSessionFilesystemSnapshots.
  assert (Hbody : ∀ g, calm g → ∃ n d' g', backfill_body d g = (Ok n, d', g') ∧ calm g').
  { intros g Hg. unfold backfill_body, mbind, db_bind, wrapf. rewrite exec_calm by done. rewrite Habsent.
    rewrite exec_calm by (by apply calm_tail). rewrite query_calm by (by repeat apply calm_tail).
    set (d2 := backfill_entries _). set (rows := merge_sort row_id_le _).
    assert (Hrows : rows ≡ₚ map_to_list (sessions d)) by apply merge_sort_Permutation.
    destruct (backfill_meta_calm rows d2 (tail (tail (tail g)))) as (d3 & g3 & E & Hg3 & Ht3 & Ee & Ho & Hm).
    - by repeat apply calm_tail.
    - done.
    - rewrite Hrows. apply NoDup_fst_map_to_list.
    - intros [sid row] Hin. rewrite Hrows in Hin. apply elem_of_map_to_list in Hin. by split.
    - rewrite E. rewrite query_calm by done.
      assert (Es : sessions d3 = sessions d) by (destruct Ho as (_&_&_&_&_&Es&_); by rewrite Es).
      assert (Hsize : size (snapshot_entries d3) = size (sessions d3)).
      { rewrite Ee, Es, <-!length_map_to_list. unfold d2, backfill_entries. simpl.
        rewrite map_to_list_to_map.
        - by rewrite length_fmap.
        - rewrite <-list_fmap_compose. apply NoDup_fmap_2_strong; [|apply NoDup_map_to_list].
          intros [s r] [s' r'] H1 H2 [= ->]. apply elem_of_map_to_list in H1, H2. congruence. }
      assert (Hload : ∀ sid row, sessions d3 !! sid = Some row →
        is_ok (loadSessionFilesystemSnapshot sid (s_workspace row) d3 []).1.1 = true).
      { intros sid row Hrow. rewrite Es in Hrow.
        pose proof (load_calm sid (s_workspace row) d3 [] (Forall_nil_2 _)) as Hl.
        rewrite Hm in Hl. rewrite (proj1 (elem_of_list_to_map rows sid row ltac:(rewrite Hrows; apply NoDup_fst_map_to_list))) in Hl
          by (rewrite Hrows; by apply elem_of_map_to_list).
        rewrite (select_entries_exact sid d3 [compat_entry (s_workspace row)]) in Hl
          by (intros pos pa; rewrite Ee; by apply (backfill_rows_are _ sid row)).
        destruct (loadSessionFilesystemSnapshot sid (s_workspace row) d3 []) as [[r d4] f4]. cbn [fst] in *.
        pose proof (check_snapshot_rows _ _ _ (new_snapshot_single _ (Hws _ _ Hrow)) ltac:(done)) as Hcs.
        apply (f_equal fst) in Hl. cbn [fst] in Hl. rewrite Hl. change (Z.of_nat _) with 1 in Hcs. by rewrite Hcs. }
      assert (Horph : snapshot_orphans d3 = []).
      { apply orphans_none. rewrite Ee, Es. split.
        - intros sid pos [pa Hpa]. apply backfill_entries_lookup in Hpa as (_ & row & Hrow & _). eauto.
        - intros sid. rewrite Hm. destruct (list_to_map rows !! sid) as [row|] eqn:El.
          + intros _. apply elem_of_list_to_map_2 in El. rewrite Hrows in El.
            apply elem_of_map_to_list in El. eauto.
          + simpl. rewrite lookup_empty. by intros []. }
      unfold verifySessionFilesystemSnapshots, mbind, db_bind, wrapf.
      rewrite query_calm by (by apply calm_tail). rewrite Horph. simpl.
      rewrite query_calm by (by repeat apply calm_tail).
      destruct (verify_sessions_calm (map_to_list (sessions d3)) d3 (tail (tail (tail g3))))
        as (g4 & -> & Hg4); [by repeat apply calm_tail| |].
      { intros [sid row] Hin. apply elem_of_map_to_list in Hin. by apply Hload. }
      rewrite query_calm by done. rewrite Hsize. rewrite bool_decide_eq_false_2 by (intros H; by apply H).
      eexists _, _, _. split; [done|]. by apply calm_tail. }
  unfold transaction, stmt. pose proof (calm_tail f Hf) as Hf1.
  destruct Hf1 as [|b f1 -> Hf1]; simpl.
  - destruct (Hbody [] (Forall_nil_2 _)) as (n & d' & g' & -> & Hg'). by destruct Hg' as [|b g' -> _].
  - destruct (Hbody f1 Hf1) as (n & d' & g' & -> & Hg'). by destruct Hg' as [|b g' -> _].
Qed.

Lemma backfill_succeeds_witness : is_ok (migrateSessionFilesystemSnapshots legacy_db []).1.1 = true.
Proof.
  apply (backfill_succeeds legacy_db [] (Forall_nil_2 _) eq_refl).
  intros sid row. unfold legacy_db. simpl. intros [<- <-]%lookup_singleton_Some. vm_compute. reflexivity.
Defined.
