(* ===== verification/MacLifecycle.v ===== *)
(** * MacLifecycle: src/mac_lifecycle.go — the Session MAC coordinator

    The coordinator owns the Session bindings, the per-boundary consumer
    counts, the deferred boundaries and the operation leases; the backend is
    reached through the driver interface, a typeclass over the host's MAC state
    [W] (the drivers are in ApparmorManager and SelinuxManager).  The coordinator's mutex is
    held by every exported method, so each is one function on the state. *)
From S2P Require Import Prelude Filepath AllowedRoots GoStrings Database SnapshotStore.
Local Open Scope Z_scope.

(** ** Boundary kinds *)

Inductive macBoundaryKind :=
  | macBoundaryUnknown | macBoundaryDirectory | macBoundaryRegularFile | macBoundaryMissing.
#[export] Instance macBoundaryKind_eq_dec : EqDecision macBoundaryKind.
Proof. solve_decision. Defined.

Definition macBoundaryKindDirectoryValue : string := "directory".
Definition macBoundaryKindRegularFileValue : string := "regular-file".

Definition macBoundaryKindName (kind : macBoundaryKind) : string :=
  match kind with
  | macBoundaryDirectory => "directory"
  | macBoundaryRegularFile => "regular file"
  | macBoundaryMissing => "missing"
  | macBoundaryUnknown => "unclassifiable"
  end.

Definition macBoundaryKindValue (kind : macBoundaryKind) : result string :=
  match kind with
  | macBoundaryDirectory => Ok macBoundaryKindDirectoryValue
  | macBoundaryRegularFile => Ok macBoundaryKindRegularFileValue
  | _ => errorf "boundary kind has no persisted value" []
  end.

Definition parseMacBoundaryKindValue (s : string) : result macBoundaryKind :=
  if bool_decide (s = macBoundaryKindDirectoryValue) then Ok macBoundaryDirectory
  else if bool_decide (s = macBoundaryKindRegularFileValue) then Ok macBoundaryRegularFile
  else errorf "unknown persisted MAC boundary kind" [].

(** [os.Lstat] of a path, as [macBoundaryKindFor] distinguishes it. *)
Inductive lstat_result :=
  | lstat_not_exist | lstat_error | lstat_dir | lstat_regular | lstat_other.

Definition macBoundaryKindFor (lstat : string → lstat_result) (path : string)
    : result macBoundaryKind :=
  match lstat path with
  | lstat_not_exist => Ok macBoundaryMissing
  | lstat_error => errorf "cannot stat issued tree" []
  | lstat_dir => Ok macBoundaryDirectory
  | lstat_regular => Ok macBoundaryRegularFile
  | lstat_other => errorf "issued tree is neither a directory nor a regular file" []
  end.

(** ** The driver interface *)

Record sessionMACCoverage := mkCoverage {
  Boundary : string;
  HelperOwned : bool;
  Kind : macBoundaryKind;
}.
#[export] Instance sessionMACCoverage_eq_dec : EqDecision sessionMACCoverage.
Proof. solve_decision. Defined.

Class sessionMACDriver (W : Type) := {
  ensureCoverage : string → W → result (sessionMACCoverage * bool) * W;
  verifyCoverage : string → W → result sessionMACCoverage * W;
  removeBoundary : string → macBoundaryKind → W → result unit * W;
  discoverHelperOwnedBoundaries : W → result (list (string * macBoundaryKind));
  proveOwnedKind : string → W → result (option macBoundaryKind) * W;
  backend : string;
}.

(** ** The coordinator's state *)

Record mac (W : Type) := mkMac {
  world : W;
  m_db : db;
  m_faults : list bool;
  sessionBindings : gmap string (list sessionMACCoverage);
  boundaryConsumerCounts : gmap string Z;
  deferredBoundaries : gset string;
  sessionUseLeases : gmap string (list sessionMACCoverage);
  releasedOnce : gset string;                (* the leases whose [sync.Once] fired *)
  pendingWorkloadSessions : option (list string);
}.
Arguments mkMac {W}.
Arguments world {W}. Arguments m_db {W}. Arguments m_faults {W}. Arguments sessionBindings {W}.
Arguments boundaryConsumerCounts {W}. Arguments deferredBoundaries {W}.
Arguments sessionUseLeases {W}. Arguments releasedOnce {W}. Arguments pendingWorkloadSessions {W}.

Section coordinator.
Context {W : Type} `{!sessionMACDriver W}.

Definition newSessionMACCoordinator (w : W) (d : db) (faults : list bool) : mac W :=
  mkMac w d faults ∅ ∅ ∅ ∅ ∅ None.

Definition with_world (w : W) (s : mac W) : mac W :=
  mkMac w (m_db s) (m_faults s) (sessionBindings s) (boundaryConsumerCounts s) (deferredBoundaries s)
    (sessionUseLeases s) (releasedOnce s) (pendingWorkloadSessions s).
Definition with_db (d : db) (f : list bool) (s : mac W) : mac W :=
  mkMac (world s) d f (sessionBindings s) (boundaryConsumerCounts s) (deferredBoundaries s)
    (sessionUseLeases s) (releasedOnce s) (pendingWorkloadSessions s).
Definition with_bindings (b : gmap string (list sessionMACCoverage)) (s : mac W) : mac W :=
  mkMac (world s) (m_db s) (m_faults s) b (boundaryConsumerCounts s) (deferredBoundaries s)
    (sessionUseLeases s) (releasedOnce s) (pendingWorkloadSessions s).
Definition with_counts (c : gmap string Z) (s : mac W) : mac W :=
  mkMac (world s) (m_db s) (m_faults s) (sessionBindings s) c (deferredBoundaries s)
    (sessionUseLeases s) (releasedOnce s) (pendingWorkloadSessions s).
Definition with_deferred (d : gset string) (s : mac W) : mac W :=
  mkMac (world s) (m_db s) (m_faults s) (sessionBindings s) (boundaryConsumerCounts s) d
    (sessionUseLeases s) (releasedOnce s) (pendingWorkloadSessions s).
Definition with_leases (l : gmap string (list sessionMACCoverage)) (once : gset string) (s : mac W) : mac W :=
  mkMac (world s) (m_db s) (m_faults s) (sessionBindings s) (boundaryConsumerCounts s)
    (deferredBoundaries s) l once (pendingWorkloadSessions s).

(** A coordinator step that may fail. *)
Definition MAC (A : Type) : Type := mac W → result A * mac W.

#[local] Instance mac_ret : MRet MAC := λ A a s, (Ok a, s).
#[local] Instance mac_bind : MBind MAC := λ A B k m s,
  match m s with
  | (Ok a, s) => k a s
  | (Err e, s) => (Err e, s)
  end.

Definition mac_fail {A} (text : string) (wraps : list sentinel) : MAC A :=
  λ s, (errorf text wraps, s).
Definition mac_wrapf {A} (text : string) (wraps : list sentinel) (m : MAC A) : MAC A :=
  λ s, match m s with
       | (Err e, s) => (Err (wrap_error text wraps e), s)
       | r => r
       end.
Definition mac_lift {A} (r : result A) : MAC A := λ s, (r, s).
Definition mac_do (f : mac W → mac W) : MAC unit := λ s, (Ok (), f s).
Definition on_driver {A} (op : W → result A * W) : MAC A :=
  λ s, let '(r, w) := op (world s) in (r, with_world w s).
Definition on_db {A} (m : DB A) : MAC A :=
  λ s, let '(r, d, f) := m (m_db s) (m_faults s) in (r, with_db d f s).

Definition count_of (b : string) (s : mac W) : Z := default 0 (boundaryConsumerCounts s !! b).

Definition incr_counts (covs : list sessionMACCoverage) (s : mac W) : mac W :=
  foldl (λ s c, with_counts (<[Boundary c := count_of (Boundary c) s + 1]> (boundaryConsumerCounts s)) s)
    s covs.

(** ** Ownership metadata (the mac_boundaries table) *)

Definition recordBoundaryOwnership (boundary : string) (kind : macBoundaryKind) : MAC unit :=
  let write (v : option string) : MAC unit :=
    on_db (exec (λ d, Some (set_mac (<[(backend, boundary) := v]> (mac_boundaries d)) d))) in
  if bool_decide (kind = macBoundaryUnknown) then write None
  else match macBoundaryKindValue kind with
       | Err e => mac_lift (Err e)
       | Ok v => write (Some v)
       end.

Definition boundaryOwnedKind (boundary : string) : MAC macBoundaryKind :=
  row ← on_db (query (λ d, mac_boundaries d !! (backend, boundary)));
  match row with
  | None => mret macBoundaryUnknown
  | Some None => mret macBoundaryUnknown
  | Some (Some v) =>
      if bool_decide (v = "") then mret macBoundaryUnknown
      else mac_lift (parseMacBoundaryKindValue v)
  end.

Definition ownedBoundaryRemovalKind (boundary : string) : MAC macBoundaryKind :=
  mac_wrapf "cannot read the durable kind of owned boundary" [] (boundaryOwnedKind boundary).

Definition isBoundaryOwnedByHelper (boundary : string) : MAC bool :=
  on_db (query (λ d, bool_decide (is_Some (mac_boundaries d !! (backend, boundary))))).

Definition forgetBoundaryOwnership (boundary : string) : MAC unit :=
  on_db (exec (λ d, Some (set_mac (delete (backend, boundary) (mac_boundaries d)) d))).

Definition listOwnedBoundaries : MAC (list string) :=
  on_db (query (λ d, omap (λ kv, if bool_decide (kv.1.1 = backend) then Some kv.1.2 else None)
                       (map_to_list (mac_boundaries d)))).

(** ** What still needs a boundary *)

Definition isBoundaryStillNeeded (boundary : string) (s : mac W) : bool :=
  existsb (λ kv, existsb (λ c, macBoundaryOverlap boundary (Boundary c)) kv.2)
    (map_to_list (sessionBindings s)) ||
  existsb (λ kv, existsb (λ c, macBoundaryOverlap boundary (Boundary c)) kv.2)
    (map_to_list (sessionUseLeases s)).

(** [sessionBoundCoverageRoots]: the issued boundary set of a persisted
    Session, expired rows included. *)
Definition sessionBoundCoverageRoots (sessionID : string) : MAC (list string) :=
  row ← mac_wrapf "session row for pending workload state cannot be resolved" []
          (on_db (query (λ d, sessions d !! sessionID)));
  match row with
  | None => mac_fail "session row for pending workload state cannot be resolved" []
  | Some row =>
      snapshot ← mac_wrapf "session persisted snapshot cannot be loaded" []
                   (on_db (loadSessionFilesystemSnapshot sessionID (s_workspace row)));
      mret (sessionMACBoundaries snapshot)
  end.

Fixpoint pending_loop (sessionIDs : list string) (roots : gset string) (deferAll : bool) (s : mac W)
    : gset string * bool * mac W :=
  match sessionIDs with
  | [] => (roots, deferAll, s)
  | sid :: rest =>
      match sessionBoundCoverageRoots sid s with
      | (Err _, s) => pending_loop rest roots true s
      | (Ok rs, s) => pending_loop rest (list_to_set rs ∪ roots) deferAll s
      end
  end.

Definition pendingWorkloadCoverage (s : mac W) : gset string * bool * mac W :=
  match pendingWorkloadSessions s with
  | None => (∅, false, s)
  | Some sids => pending_loop sids ∅ false s
  end.

Definition boundaryCoversPendingWorkload (boundary : string) (pendingRoots : gset string) : bool :=
  existsb (λ root, boundaryCoversTree boundary root) (elements pendingRoots).

Definition boundaryMayBeRemoved (boundary : string) (pendingRoots : gset string) (deferAll : bool)
    (s : mac W) : bool :=
  if 0 <? count_of boundary s then false
  else if isBoundaryStillNeeded boundary s then false
  else if deferAll then false
  else negb (boundaryCoversPendingWorkload boundary pendingRoots).

(** ** Removal *)

Definition convergeLegacyOwnedKind (boundary : string) : MAC macBoundaryKind :=
  proven ← mac_wrapf "cannot prove the owned shape of legacy boundary" []
             (on_driver (proveOwnedKind boundary));
  match proven with
  | None => mret macBoundaryUnknown
  | Some kind =>
      _ ← mac_wrapf "cannot converge legacy boundary into durable-kind ownership" []
            (recordBoundaryOwnership boundary kind);
      mret kind
  end.

Definition removal_kind (boundary : string) : MAC macBoundaryKind :=
  kind ← ownedBoundaryRemovalKind boundary;
  if bool_decide (kind = macBoundaryUnknown) then convergeLegacyOwnedKind boundary else mret kind.

Definition removeOwnedBoundary (boundary : string) : MAC unit :=
  kind ← removal_kind boundary;
  _ ← on_driver (removeBoundary boundary kind);
  mac_do (λ s, let s := (forgetBoundaryOwnership boundary s).2 in
               with_deferred (deferredBoundaries s ∖ {[boundary]}) s).

(** One boundary of a removal pass: removed when nothing needs it, otherwise
    [blocked] says what is recorded. *)
Definition rollback_one (pendingRoots : gset string) (deferAll : bool) (s : mac W) (boundary : string)
    : mac W :=
  if negb (boundaryMayBeRemoved boundary pendingRoots deferAll s)
  then with_deferred ({[boundary]} ∪ deferredBoundaries s) s
  else (removeOwnedBoundary boundary s).2.

Definition rollbackPreparedBoundaries (prepared : list string) (s : mac W) : mac W :=
  match prepared with
  | [] => s
  | _ =>
      let '(pendingRoots, deferAll, s) := pendingWorkloadCoverage s in
      foldl (rollback_one pendingRoots deferAll) s (reverse prepared)
  end.

Definition conditionalReleaseBoundary (s : mac W) (c : sessionMACCoverage) : mac W :=
  let count := count_of (Boundary c) s in
  if count <=? 1 then
    let s := with_counts (delete (Boundary c) (boundaryConsumerCounts s)) s in
    let '(pendingRoots, deferAll, s) := pendingWorkloadCoverage s in
    if negb (boundaryMayBeRemoved (Boundary c) pendingRoots deferAll s) then
      if HelperOwned c then with_deferred ({[Boundary c]} ∪ deferredBoundaries s) s else s
    else if HelperOwned c then (removeOwnedBoundary (Boundary c) s).2 else s
  else with_counts (<[Boundary c := count - 1]> (boundaryConsumerCounts s)) s.

Definition retry_one (pendingRoots : gset string) (deferAll : bool) (s : mac W) (boundary : string)
    : mac W :=
  if negb (boundaryMayBeRemoved boundary pendingRoots deferAll s) then s
  else match isBoundaryOwnedByHelper boundary s with
       | (Err _, s) => s
       | (Ok false, s) => with_deferred (deferredBoundaries s ∖ {[boundary]}) s
       | (Ok true, s) => (removeOwnedBoundary boundary s).2
       end.

Definition retryDeferredBoundaries (s : mac W) : mac W :=
  let '(pendingRoots, deferAll, s) := pendingWorkloadCoverage s in
  foldl (retry_one pendingRoots deferAll) s (elements (deferredBoundaries s)).

(** ** Preparation *)

Definition with_owned (owned : bool) (c : sessionMACCoverage) : sessionMACCoverage :=
  mkCoverage (Boundary c) owned (Kind c).

Definition ensureBoundaryWithOwnership (tree : string) : MAC (sessionMACCoverage * bool) := λ s,
  match on_driver (ensureCoverage tree) s with
  | (Err e, s) => (Err (wrap_error "MAC preparation" [ErrMACPreparation] e), s)
  | (Ok (coverage, true), s) =>
      let coverage := with_owned true coverage in
      match recordBoundaryOwnership (Boundary coverage) (Kind coverage) s with
      | (Err e, s) =>
          let s := (on_driver (removeBoundary (Boundary coverage) (Kind coverage)) s).2 in
          (Err (wrap_error "MAC preparation" [ErrMACPreparation] e), s)
      | (Ok _, s) => (Ok (coverage, true), s)
      end
  | (Ok (coverage, false), s) =>
      match isBoundaryOwnedByHelper (Boundary coverage) s with
      | (Err e, s) => (Err (wrap_error "MAC preparation" [ErrMACPreparation] e), s)
      | (Ok owned, s) => (Ok (with_owned owned coverage, false), s)
      end
  end.

(** The dedup map of the resolved coverages keeps the first one. *)
Definition resolve_into (resolved : gmap string sessionMACCoverage) (c : sessionMACCoverage) :=
  match resolved !! Boundary c with
  | Some _ => resolved
  | None => <[Boundary c := c]> resolved
  end.

Definition normalize_step (resolved : gmap string sessionMACCoverage)
    (kept : list sessionMACCoverage) (boundary : string) : list sessionMACCoverage :=
  if existsb (λ c, boundaryCoversTree (Boundary c) boundary) kept then kept
  else match resolved !! boundary with Some c => kept ++ [c] | None => kept end.

Definition normalizeCoverageSet (resolved : gmap string sessionMACCoverage)
    : list sessionMACCoverage :=
  foldl (normalize_step resolved) [] (merge_sort str_le (elements (dom resolved))).

Fixpoint coverage_loop (trees : list string) (resolved : gmap string sessionMACCoverage)
    (prepared : list string) (s : mac W)
    : result (list sessionMACCoverage * list string) * mac W :=
  match trees with
  | [] => (Ok (normalizeCoverageSet resolved, prepared), s)
  | tree :: trees =>
      match ensureBoundaryWithOwnership tree s with
      | (Err e, s) => (Err e, rollbackPreparedBoundaries prepared s)
      | (Ok (coverage, newlyCreated), s) =>
          coverage_loop trees (resolve_into resolved coverage)
            (if newlyCreated then prepared ++ [Boundary coverage] else prepared) s
      end
  end.

Definition ensureSessionCoverage (trees : list string) : MAC (list sessionMACCoverage * list string) :=
  coverage_loop trees ∅ [].

(** ** The exported methods *)

Definition CreateSessionBinding (sessionID : string) (boundaries : list string)
    (insertFn : list sessionMACCoverage → DB unit) : MAC (list sessionMACCoverage) := λ s,
  match ensureSessionCoverage boundaries s with
  | (Err e, s) => (Err e, s)
  | (Ok (coverageSet, prepared), s) =>
      match on_db (insertFn coverageSet) s with
      | (Err e, s) => (Err e, rollbackPreparedBoundaries prepared s)
      | (Ok _, s) =>
          (Ok coverageSet,
           incr_counts coverageSet (with_bindings (<[sessionID := coverageSet]> (sessionBindings s)) s))
      end
  end.

Definition ReleaseSessionBinding (sessionID : string) (s : mac W) : mac W :=
  match sessionBindings s !! sessionID with
  | None => s
  | Some coverageSet =>
      let s := with_bindings (delete sessionID (sessionBindings s)) s in
      retryDeferredBoundaries (foldl conditionalReleaseBoundary s coverageSet)
  end.

(** [sessionExistsExact] at time [now]. *)
Definition sessionExistsExact (sessionID workspace : string) (now : Z) : MAC bool :=
  on_db (query (λ d, match sessions d !! sessionID with
                     | Some row => bool_decide (s_workspace row = workspace) && (now <? s_expires_at row)
                     | None => false
                     end)).

(** [leaseKey] is the key [generateLeaseKey] drew. *)
Definition AcquireSessionUse (sessionID workspace leaseKey : string) (now : Z) : MAC string := λ s,
  match sessionBindings s !! sessionID with
  | None => (errorf "no MAC binding for session" [], s)
  | Some coverageSet =>
      match sessionExistsExact sessionID workspace now s with
      | (Err e, s) => (Err (wrap_error "cannot verify session liveness" [] e), s)
      | (Ok false, s) => (errorf "session is no longer live" [], s)
      | (Ok true, s) =>
          let s := incr_counts coverageSet s in
          (Ok leaseKey, with_leases (<[leaseKey := coverageSet]> (sessionUseLeases s)) (releasedOnce s) s)
      end
  end.

(** The release function of a lease, guarded by its [sync.Once]. *)
Definition releaseLease (leaseKey : string) (s : mac W) : mac W :=
  if decide (leaseKey ∈ releasedOnce s) then s
  else
    let s := with_leases (sessionUseLeases s) ({[leaseKey]} ∪ releasedOnce s) s in
    match sessionUseLeases s !! leaseKey with
    | None => s
    | Some coverage =>
        let s := with_leases (delete leaseKey (sessionUseLeases s)) (releasedOnce s) s in
        retryDeferredBoundaries (foldl conditionalReleaseBoundary s coverage)
    end.

(** ** Startup *)

Fixpoint import_loop (l : list (string * macBoundaryKind)) (s : mac W) : mac W :=
  match l with
  | [] => s
  | (b, k) :: l => import_loop l (recordBoundaryOwnership b k s).2
  end.

Definition importHelperOwnedBoundaries : MAC unit := λ s,
  match discoverHelperOwnedBoundaries (world s) with
  | Err e => (Err e, s)
  | Ok l => (Ok (), import_loop l s)
  end.

Definition stale_one (pendingRoots : gset string) (deferAll : bool) (s : mac W) (boundary : string)
    : mac W :=
  if 0 <? count_of boundary s then s
  else if negb (boundaryMayBeRemoved boundary pendingRoots deferAll s)
  then with_deferred ({[boundary]} ∪ deferredBoundaries s) s
  else (removeOwnedBoundary boundary s).2.

Definition cleanupStaleBoundaries : MAC unit := λ s,
  match listOwnedBoundaries s with
  | (Err e, s) => (Err e, s)
  | (Ok boundaries, s) =>
      let '(pendingRoots, deferAll, s) := pendingWorkloadCoverage s in
      (Ok (), foldl (stale_one pendingRoots deferAll) s boundaries)
  end.

Definition listLiveSessionsWithIDs (now : Z) : MAC (list (string * string)) :=
  on_db (query (λ d, omap (λ kv, if now <? s_expires_at kv.2 then Some (kv.1, s_workspace kv.2) else None)
                       (map_to_list (sessions d)))).

(** Verification or repair of one issued tree of a live Session. *)
Definition reconcile_tree (tree : string) : MAC sessionMACCoverage := λ s,
  match on_driver (verifyCoverage tree) s with
  | (Err _, s) =>
      match ensureBoundaryWithOwnership tree s with
      | (Err e, s) => (Err (wrap_error "MAC state for tree cannot be repaired" [] e), s)
      | (Ok (coverage, _), s) => (Ok coverage, s)
      end
  | (Ok coverage, s) =>
      match isBoundaryOwnedByHelper (Boundary coverage) s with
      | (Err e, s) => (Err (wrap_error "cannot verify boundary ownership for session" [] e), s)
      | (Ok owned, s) => (Ok (with_owned owned coverage), s)
      end
  end.

Fixpoint reconcile_trees (trees : list string) (resolved : gmap string sessionMACCoverage)
    : MAC (gmap string sessionMACCoverage) := λ s,
  match trees with
  | [] => (Ok resolved, s)
  | tree :: trees =>
      match reconcile_tree tree s with
      | (Err e, s) => (Err e, s)
      | (Ok coverage, s) => reconcile_trees trees (resolve_into resolved coverage) s
      end
  end.

Definition reconcile_session (sid ws : string) : MAC unit := λ s,
  match on_db (loadSessionFilesystemSnapshot sid ws) s with
  | (Err e, s) => (Err (wrap_error "MAC state cannot be reconciled: persisted snapshot integrity" [] e), s)
  | (Ok snapshot, s) =>
      match reconcile_trees (sessionMACBoundaries snapshot) ∅ s with
      | (Err e, s) => (Err e, s)
      | (Ok resolved, s) =>
          let covs := normalizeCoverageSet resolved in
          (Ok (), incr_counts covs (with_bindings (<[sid := covs]> (sessionBindings s)) s))
      end
  end.

Fixpoint reconcile_sessions (l : list (string * string)) : MAC unit := λ s,
  match l with
  | [] => (Ok (), s)
  | (sid, ws) :: l =>
      match reconcile_session sid ws s with
      | (Err e, s) => (Err e, s)
      | (Ok _, s) => reconcile_sessions l s
      end
  end.

Definition ReconcileLiveSessions (now : Z) : MAC unit :=
  _ ← mac_wrapf "cannot import helper-owned MAC boundaries" [] importHelperOwnedBoundaries;
  live ← mac_wrapf "cannot list live sessions for MAC reconciliation" [] (listLiveSessionsWithIDs now);
  _ ← reconcile_sessions live;
  mac_do (λ s, (cleanupStaleBoundaries s).2).

End coordinator.
