(* ===== verification/MacTheory.v ===== *)
(** * MacTheory: the coordinator's steps keep what live Sessions need

    The driver contract as a typeclass of laws, the frame of every helper of
    the coordinator, and the invariants its exported methods preserve. *)
From S2P Require Import Prelude Filepath AllowedRoots AllowedRootsTheory GoStrings Database SnapshotStore SnapshotSpec MacLifecycle.
Local Open Scope Z_scope.

(** ** The contract of a driver

    [present w b]: the boundary [b] is in force on the host; [operator_owned b]:
    the operator provides [b], so the backend never attributes it to the
    daemon. *)
Class macDriverLaws (W : Type) `{!sessionMACDriver W} := {
  present : W → string → Prop;
  operator_owned : string → Prop;
  law_ensure_covers t w c new w' : ensureCoverage t w = (Ok (c, new), w') →
    present w' (Boundary c) ∧ boundaryCoversTree (Boundary c) t = true;
  law_ensure_keeps t w r w' b : ensureCoverage t w = (r, w') → present w b → present w' b;
  law_ensure_created t w c w' : ensureCoverage t w = (Ok (c, true), w') →
    ¬ present w (Boundary c) ∧ ¬ operator_owned (Boundary c);
  law_verify_covers t w c w' : verifyCoverage t w = (Ok c, w') →
    present w' (Boundary c) ∧ boundaryCoversTree (Boundary c) t = true;
  law_verify_keeps t w r w' b : verifyCoverage t w = (r, w') → present w b → present w' b;
  law_remove_frame b k w r w' b' : removeBoundary b k w = (r, w') → ¬ operator_owned b → b' ≠ b →
    present w b' → present w' b';
  law_prove_keeps b w r w' b' : proveOwnedKind b w = (r, w') → present w b' → present w' b';
  law_discover w l b k : discoverHelperOwnedBoundaries w = Ok l → (b, k) ∈ l → ¬ operator_owned b;
}.

Section theory.
Context {W : Type} `{!sessionMACDriver W, !macDriverLaws W}.
Implicit Types s : mac W.

(** ** Frames *)

(** Only the ownership table of the database changed. *)
Definition db_frame (d d' : db) : Prop := d' = set_mac (mac_boundaries d') d.

#[export] Instance db_frame_preorder : PreOrder db_frame.
Proof.
  split.
  - intros []. done.
  - unfold db_frame. intros a b c H1 H2. rewrite H2, H1. done.
Qed.

(** [s'] differs from [s] in the deferred set, the ownership table and the
    world, in which every boundary of [P] stays present. *)
Record frame (P : string → Prop) s s' : Prop := {
  fr_bindings : sessionBindings s' = sessionBindings s;
  fr_counts : boundaryConsumerCounts s' = boundaryConsumerCounts s;
  fr_leases : sessionUseLeases s' = sessionUseLeases s;
  fr_once : releasedOnce s' = releasedOnce s;
  fr_pending : pendingWorkloadSessions s' = pendingWorkloadSessions s;
  fr_db : db_frame (m_db s) (m_db s');
  fr_present : ∀ b, P b → present (world s) b → present (world s') b;
  fr_rows : ∀ b, operator_owned b → mac_boundaries (m_db s) !! (backend, b) = None →
    mac_boundaries (m_db s') !! (backend, b) = None;
}.

Lemma frame_refl P s : frame P s s.
Proof. by split. Qed.

Lemma frame_trans P s1 s2 s3 : frame P s1 s2 → frame P s2 s3 → frame P s1 s3.
Proof. intros [] []. split; try congruence; [by etrans|auto..]. Qed.

Lemma frame_weaken (P Q : string → Prop) s s' : (∀ b, P b → Q b) → frame Q s s' → frame P s s'.
Proof. intros H []. split; auto. Qed.

Lemma frame_deferred P d s : frame P s (with_deferred d s).
Proof. by split. Qed.

Lemma frame_faults P f s : frame P s (with_db (m_db s) f s).
Proof. by split. Qed.

(** ** Database reads *)

Lemma on_db_reads {A} (m : DB A) s :
  reads m → ∃ f, (on_db m s).2 = with_db (m_db s) f s.
Proof.
  intros H. specialize (H (m_db s) (m_faults s)). unfold on_db.
  destruct (m (m_db s) (m_faults s)) as [[r d] f]. simpl in *. subst. eauto.
Qed.

Lemma isOwned_reads b s r s' : isBoundaryOwnedByHelper b s = (r, s') →
  (∃ f, s' = with_db (m_db s) f s) ∧
  (∀ o, r = Ok o → o = bool_decide (is_Some (mac_boundaries (m_db s) !! (backend, b)))).
Proof.
  unfold isBoundaryOwnedByHelper, on_db.
  destruct (query _ (m_db s) (m_faults s)) as [[r' d] f] eqn:E. intros [= <- <-]. split.
  - pose proof (reads_query (λ d, bool_decide (is_Some (mac_boundaries d !! (backend, b)))) (m_db s) (m_faults s)) as H.
    rewrite E in H. simpl in H. subst. eauto.
  - intros o ->. by apply query_ok in E as (-> & _).
Qed.

Lemma load_reads sid ws : reads (loadSessionFilesystemSnapshot sid ws).
Proof.
  unfold loadSessionFilesystemSnapshot. apply reads_bind; [auto with dh|].
  intros [[n dig]|]; [|auto with dh]. apply reads_bind; [auto with dh|]. by intros a d f.
Qed.

(** ** The pending workload roots *)

(** The issued roots of a persisted Session, [None] when they cannot be
    resolved. *)
Definition resolved_roots (d : db) (sid : string) : option (list string) :=
  match sessions d !! sid with
  | None => None
  | Some row =>
      match (loadSessionFilesystemSnapshot sid (s_workspace row) d []).1.1 with
      | Ok snap => Some (sessionMACBoundaries snap)
      | Err _ => None
      end
  end.

Definition pending_needs s (b : string) : Prop :=
  ∃ sids sid, pendingWorkloadSessions s = Some sids ∧ sid ∈ sids ∧
    match resolved_roots (m_db s) sid with
    | None => True
    | Some roots => ∃ r, r ∈ roots ∧ boundaryCoversTree b r = true
    end.

Lemma roots_resolve sid s rs s' :
  sessionBoundCoverageRoots sid s = (Ok rs, s') → resolved_roots (m_db s) sid = Some rs.
Proof.
  unfold sessionBoundCoverageRoots, mbind, mac_bind, mac_wrapf, on_db, resolved_roots.
  destruct (query (λ d, sessions d !! sid) (m_db s) (m_faults s)) as [[[row|e] d] f] eqn:E; [|done].
  apply query_ok in E as (-> & -> & _). destruct (sessions (m_db s) !! sid) as [row|]; [|done]. simpl.
  destruct (loadSessionFilesystemSnapshot sid (s_workspace row) (m_db s) f) as [[[snap|e] d] f'] eqn:El; [|done].
  intros [= <- _]. apply load_ok in El as (_ & n & dig & Em & Hc).
  pose proof (load_calm sid (s_workspace row) (m_db s) [] (Forall_nil_2 _)) as Hl. rewrite Em, Hc in Hl.
  destruct (loadSessionFilesystemSnapshot sid (s_workspace row) (m_db s) []) as [[r d2] f2].
  simpl in *. by injection Hl as -> _.
Qed.

Lemma roots_reads sid s : ∃ f, (sessionBoundCoverageRoots sid s).2 = with_db (m_db s) f s.
Proof.
  unfold sessionBoundCoverageRoots, mbind, mac_bind, mac_wrapf.
  destruct (on_db_reads (query (λ d, sessions d !! sid)) s (reads_query _)) as [f1 E1].
  destruct (on_db (query (λ d, sessions d !! sid)) s) as [[[row|]|e] s1]; simpl in E1; subst s1; [|simpl; eauto..].
  destruct (on_db_reads (loadSessionFilesystemSnapshot sid (s_workspace row)) (with_db (m_db s) f1 s) (load_reads _ _))
    as [f2 E2].
  destruct (on_db _ (with_db (m_db s) f1 s)) as [[snap|e] s2]; simpl in E2; subst s2; simpl; eauto.
Qed.

Definition pending_done (sids : list string) (roots : gset string) s : Prop :=
  ∀ sid, sid ∈ sids → ∃ rs, resolved_roots (m_db s) sid = Some rs ∧ ∀ r, r ∈ rs → r ∈ roots.

Lemma pending_loop_spec sids roots dA s roots' dA' s' :
  pending_loop sids roots dA s = (roots', dA', s') →
  (∃ f, s' = with_db (m_db s) f s) ∧
  (dA' = false → dA = false ∧ roots ⊆ roots' ∧ pending_done sids roots' s).
Proof.
  revert roots dA s. induction sids as [|sid sids IH]; intros roots dA s; simpl.
  { intros [= -> -> <-]. split; [exists (m_faults s); by destruct s|]. intros ->. split_and!; try done.
    by intros ? ?%not_elem_of_nil. }
  destruct (roots_reads sid s) as [f Ef].
  destruct (sessionBoundCoverageRoots sid s) as [[rs|e] s1] eqn:E; simpl in Ef; subst s1; intros H.
  - apply roots_resolve in E. apply IH in H as ([f' ->] & H). split; [by exists f'|].
    intros Hd. destruct (H Hd) as (-> & Hsub & Hdone). split_and!; [done|set_solver|].
    intros x [->|Hx]%elem_of_cons; [|by apply Hdone]. exists rs. split; [done|set_solver].
  - apply IH in H as ([f' ->] & H). split; [by exists f'|]. intros Hd. by destruct (H Hd).
Qed.

(** What the coverage pass knows about the state it was taken in. *)
Definition pending_known (roots : gset string) (dA : bool) s : Prop :=
  dA = false → ∀ sids, pendingWorkloadSessions s = Some sids → pending_done sids roots s.

Lemma pendingWorkloadCoverage_spec s roots dA s' :
  pendingWorkloadCoverage s = (roots, dA, s') →
  (∃ f, s' = with_db (m_db s) f s) ∧ pending_known roots dA s'.
Proof.
  unfold pendingWorkloadCoverage. destruct (pendingWorkloadSessions s) as [sids|] eqn:E.
  - intros H. apply pending_loop_spec in H as ([f ->] & H). split; [by exists f|].
    intros Hd sids' E'. apply H in Hd as (_ & _ & Hd). simpl in E'. rewrite E in E'. by injection E' as <-.
  - intros [= <- <- <-]. split; [exists (m_faults s); by destruct s|]. intros _ sids E'. congruence.
Qed.

(** The snapshot tables decide [resolved_roots]. *)
Lemma resolved_roots_frame d d' sid : db_frame d d' → resolved_roots d' sid = resolved_roots d sid.
Proof.
  intros E. rewrite E. unfold resolved_roots. simpl. destruct (sessions d !! sid) as [row|]; [|done].
  pose proof (load_calm sid (s_workspace row) d [] (Forall_nil_2 _)) as H1.
  pose proof (load_calm sid (s_workspace row) (set_mac (mac_boundaries d') d) [] (Forall_nil_2 _)) as H2.
  apply (f_equal fst) in H1, H2. rewrite H1, H2. done.
Qed.

Lemma pending_known_frame P roots dA s s' : frame P s s' → pending_known roots dA s → pending_known roots dA s'.
Proof.
  intros Hf Hk Hd sids. rewrite (fr_pending _ _ _ Hf). intros E sid Hin.
  rewrite (resolved_roots_frame _ _ _ (fr_db _ _ _ Hf)). by apply (Hk Hd sids E).
Qed.

(** ** What is protected *)

Definition bound s (b : string) : Prop :=
  (∃ sid covs c, sessionBindings s !! sid = Some covs ∧ c ∈ covs ∧ Boundary c = b) ∨
  (∃ key covs c, sessionUseLeases s !! key = Some covs ∧ c ∈ covs ∧ Boundary c = b).

Definition protected s (b : string) : Prop :=
  (∃ b', bound s b' ∧ macBoundaryOverlap b b' = true) ∨ pending_needs s b.

Lemma overlap_refl b : macBoundaryOverlap b b = true.
Proof. unfold macBoundaryOverlap, pathOverlap. by rewrite bool_decide_eq_true_2. Qed.

Lemma bound_protected s b : bound s b → protected s b.
Proof. intros H. left. exists b. split; [done|apply overlap_refl]. Qed.

Lemma bound_frame P s s' b : frame P s s' → bound s' b ↔ bound s b.
Proof. intros Hf. unfold bound. by rewrite (fr_bindings _ _ _ Hf), (fr_leases _ _ _ Hf). Qed.

Lemma protected_frame P s s' b : frame P s s' → protected s' b ↔ protected s b.
Proof.
  intros Hf. unfold protected, pending_needs. setoid_rewrite (bound_frame P s s' _ Hf).
  rewrite (fr_pending _ _ _ Hf). setoid_rewrite (resolved_roots_frame _ _ _ (fr_db _ _ _ Hf)). done.
Qed.

(** What no pass may remove. *)
Definition keep s (b : string) : Prop := protected s b ∨ operator_owned b.

Lemma keep_frame P s s' b : frame P s s' → keep s' b ↔ keep s b.
Proof. intros Hf. unfold keep. by rewrite (protected_frame _ _ _ _ Hf). Qed.

Lemma needed_spec b s :
  isBoundaryStillNeeded b s = false → ¬ ∃ b', bound s b' ∧ macBoundaryOverlap b b' = true.
Proof.
  unfold isBoundaryStillNeeded. rewrite orb_false_iff. intros [H1 H2] (b' & Hb & Ho).
  assert (Hex : ∀ m : gmap string (list sessionMACCoverage),
    existsb (λ kv, existsb (λ c, macBoundaryOverlap b (Boundary c)) kv.2) (map_to_list m) = false →
    ∀ k covs c, m !! k = Some covs → c ∈ covs → Boundary c ≠ b').
  { intros m Hm k covs c Hk Hc <-. apply elem_of_map_to_list in Hk.
    pose proof (existsb_false_in _ _ _ Hm Hk) as Hk'. simpl in Hk'.
    pose proof (existsb_false_in _ _ _ Hk' Hc) as Hc'. simpl in Hc'. congruence. }
  destruct Hb as [(k & covs & c & Hk & Hc & E)|(k & covs & c & Hk & Hc & E)].
  - by apply (Hex _ H1 _ _ _ Hk Hc).
  - by apply (Hex _ H2 _ _ _ Hk Hc).
Qed.

(** The canonical removal decision never allows removing what is protected. *)
Lemma mayBeRemoved_unprotected b roots dA s :
  pending_known roots dA s → boundaryMayBeRemoved b roots dA s = true →
  ¬ protected s b ∧ count_of b s <= 0.
Proof.
  intros Hk. unfold boundaryMayBeRemoved. destruct (Z.ltb_spec 0 (count_of b s)); [done|].
  destruct (isBoundaryStillNeeded b s) eqn:En; [done|]. destruct dA; [done|].
  intros Hc%negb_true_iff. split; [|done].
  intros [Hb|(sids & sid & Es & Hin & Hr)]; [by eapply needed_spec|].
  destruct (Hk eq_refl sids Es sid Hin) as (rs & E & Hsub). rewrite E in Hr. destruct Hr as (r & Hr & Hcov).
  unfold boundaryCoversPendingWorkload in Hc.
  pose proof (existsb_false_in _ _ r Hc (proj2 (elem_of_elements roots r) (Hsub _ Hr))) as Hx. simpl in Hx. congruence.
Qed.

(** ** Frames of the helpers *)

Lemma on_db_exec_frame P u s :
  (∀ d d', u d = Some d' → db_frame d d' ∧
     ∀ b, operator_owned b → mac_boundaries d !! (backend, b) = None → mac_boundaries d' !! (backend, b) = None) →
  frame P s (on_db (exec u) s).2.
Proof.
  intros Hu. unfold on_db, exec, stmt.
  destruct (m_faults s) as [|[] f]; simpl; [|by split|];
    (destruct (u (m_db s)) as [d'|] eqn:E; [|by split]); destruct (Hu _ _ E); by split.
Qed.

Lemma record_frame P b k s : ¬ operator_owned b → frame P s (recordBoundaryOwnership b k s).2.
Proof.
  intros Hop. unfold recordBoundaryOwnership.
  assert (∀ v, frame P s (on_db (exec (λ d, Some (set_mac (<[(backend, b) := v]> (mac_boundaries d)) d))) s).2) as H.
  { intros v. apply on_db_exec_frame. intros d d' [= <-]. split; [done|].
    intros b' Hb' Hn. simpl. rewrite lookup_insert_ne by congruence. done. }
  case_bool_decide; [apply H|]. destruct (macBoundaryKindValue k); [apply H|by split].
Qed.

Lemma forget_frame P b s : frame P s (forgetBoundaryOwnership b s).2.
Proof.
  apply on_db_exec_frame. intros d d' [= <-]. split; [done|]. intros b' _ Hn. simpl.
  rewrite lookup_delete_None. auto.
Qed.

Lemma on_driver_frame {A} (P : string → Prop) (op : W → result A * W) s :
  (∀ b, P b → present (world s) b → present (op (world s)).2 b) → frame P s (on_driver op s).2.
Proof. intros H. unfold on_driver. destruct (op (world s)) as [r w]. by split. Qed.

(** [frame] through the error monad. *)
Lemma frame_bind {A B} P (m : MAC A) (k : A → MAC B) s :
  frame P s (m s).2 → (∀ a s', m s = (Ok a, s') → frame P s' (k a s').2) →
  frame P s (mac_bind _ _ k m s).2.
Proof.
  unfold mac_bind. destruct (m s) as [[a|e] s'] eqn:E; simpl; [|done].
  intros H1 H2. eapply frame_trans; [exact H1|by apply H2].
Qed.

Lemma frame_wrapf {A} P t w (m : MAC A) s : frame P s (m s).2 → frame P s (mac_wrapf t w m s).2.
Proof. unfold mac_wrapf. by destruct (m s) as [[|] ?]. Qed.

Lemma on_db_reads_frame {A} P (m : DB A) s : reads m → frame P s (on_db m s).2.
Proof. intros H. destruct (on_db_reads m s H) as [f ->]. apply frame_faults. Qed.

(** A boundary the operator owns has no ownership row. *)
Definition rows_ok s : Prop := ∀ b, operator_owned b → mac_boundaries (m_db s) !! (backend, b) = None.

Lemma rows_ok_frame P s s' : frame P s s' → rows_ok s → rows_ok s'.
Proof. intros Hf H b Hb. apply (fr_rows _ _ _ Hf); auto. Qed.

Lemma removal_kind_frame P b s : ¬ operator_owned b → frame P s (removal_kind b s).2.
Proof.
  intros Hop. unfold removal_kind. apply frame_bind.
  - apply frame_wrapf. unfold boundaryOwnedKind. apply frame_bind.
    + apply on_db_reads_frame, reads_query.
    + intros [[v|]|] s' _; [|apply frame_refl..]. case_bool_decide; apply frame_refl.
  - intros k s1 _. case_bool_decide; [|apply frame_refl]. unfold convergeLegacyOwnedKind. apply frame_bind.
    + apply frame_wrapf. apply on_driver_frame. intros b' _ Hp.
      destruct (proveOwnedKind b (world s1)) as [r w] eqn:E. by eapply law_prove_keeps.
    + intros [k'|] s2 _; [|apply frame_refl]. apply frame_bind; [by apply frame_wrapf, record_frame|].
      intros ? ? _. apply frame_refl.
Qed.

(** Removing one owned boundary keeps every other boundary present. *)
Lemma removeOwned_frame (P : string → Prop) b s :
  ¬ operator_owned b → (∀ b', P b' → b' ≠ b) → frame P s (removeOwnedBoundary b s).2.
Proof.
  intros Hop HP. unfold removeOwnedBoundary. apply frame_bind; [by apply removal_kind_frame|].
  intros k s1 _. apply frame_bind.
  - apply on_driver_frame. intros b' Hb' Hp. destruct (removeBoundary b k (world s1)) as [r w] eqn:E.
    eapply law_remove_frame; eauto.
  - intros ? s2 _. unfold mac_do. simpl. eapply frame_trans; [apply forget_frame|apply frame_deferred].
Qed.

(** ** Removal passes *)

Section pass.
Context (roots : gset string) (dA : bool).

(** A step of a pass: decided by [boundaryMayBeRemoved] on the state it runs
    in, it removes at most an unprotected boundary that is not the operator's. *)
Definition pass_step (f : mac W → string → mac W) (ok : string → Prop) : Prop :=
  ∀ s b, ok b → rows_ok s → pending_known roots dA s → frame (keep s) s (f s b).

Lemma pass_frame f ok l s :
  pass_step f ok → Forall ok l → rows_ok s → pending_known roots dA s →
  frame (keep s) s (foldl f s l).
Proof.
  intros Hf Hok. revert s. induction Hok as [|b l Hb _ IH]; intros s Hrows Hk; simpl; [apply frame_refl|].
  pose proof (Hf s b Hb Hrows Hk) as H1. eapply frame_trans; [exact H1|].
  eapply frame_weaken; [|apply IH; [by eapply rows_ok_frame|by eapply pending_known_frame]].
  intros b' Hb'. by apply (keep_frame _ _ _ _ H1).
Qed.

Lemma guarded_remove s b :
  ¬ operator_owned b → pending_known roots dA s → boundaryMayBeRemoved b roots dA s = true →
  frame (keep s) s (removeOwnedBoundary b s).2.
Proof.
  intros Hop Hk Hm. apply removeOwned_frame; [done|]. intros b' [Hb'|Hb'] ->; [|done].
  by destruct (mayBeRemoved_unprotected _ _ _ _ Hk Hm).
Qed.

Lemma rollback_pass : pass_step (rollback_one roots dA) (λ b, ¬ operator_owned b).
Proof.
  intros s b Hb _ Hk. unfold rollback_one. destruct (boundaryMayBeRemoved b roots dA s) eqn:E; simpl.
  - by apply guarded_remove.
  - apply frame_deferred.
Qed.

Lemma stale_pass : pass_step (stale_one roots dA) (λ b, ¬ operator_owned b).
Proof.
  intros s b Hb _ Hk. unfold stale_one. destruct (0 <? count_of b s); [apply frame_refl|].
  destruct (boundaryMayBeRemoved b roots dA s) eqn:E; simpl.
  - by apply guarded_remove.
  - apply frame_deferred.
Qed.

Lemma retry_pass : pass_step (retry_one roots dA) (λ _, True).
Proof.
  intros s b _ Hrows Hk. unfold retry_one. destruct (boundaryMayBeRemoved b roots dA s) eqn:E; simpl; [|apply frame_refl].
  destruct (isBoundaryOwnedByHelper b s) as [r s1] eqn:Eo. apply isOwned_reads in Eo as ([f ->] & Ho).
  destruct r as [[|]|]; [|eapply frame_trans; [apply frame_faults|apply frame_deferred]|apply frame_faults].
  specialize (Ho true eq_refl). symmetry in Ho. apply bool_decide_eq_true in Ho.
  eapply frame_trans; [apply frame_faults|].
  apply (frame_weaken _ (keep (with_db (m_db s) f s))); [done|]. apply guarded_remove; [|done|done].
  intros Hop. rewrite (Hrows b Hop) in Ho. by destruct Ho.
Qed.
End pass.

Lemma pass_from s (k : gset string → bool → mac W → mac W) :
  (∀ roots dA f, pending_known roots dA (with_db (m_db s) f s) →
     frame (keep s) (with_db (m_db s) f s) (k roots dA (with_db (m_db s) f s))) →
  frame (keep s) s (let '(roots, dA, s1) := pendingWorkloadCoverage s in k roots dA s1).
Proof.
  intros H. destruct (pendingWorkloadCoverage s) as [[roots dA] s1] eqn:E.
  apply pendingWorkloadCoverage_spec in E as ([f ->] & Hk).
  eapply frame_trans; [apply frame_faults|by apply H].
Qed.

Lemma rollback_frame prepared s :
  rows_ok s → Forall (λ b, ¬ operator_owned b) prepared →
  frame (keep s) s (rollbackPreparedBoundaries prepared s).
Proof.
  intros Hrows Hp. unfold rollbackPreparedBoundaries. destruct prepared as [|b l] eqn:E; [apply frame_refl|].
  rewrite <-E in *. clear E b l.
  apply (pass_from s (λ roots dA s1, foldl (rollback_one roots dA) s1 (reverse prepared))).
  intros roots dA f Hk. apply (frame_weaken _ (keep (with_db (m_db s) f s))); [done|].
  apply (pass_frame roots dA _ (λ b, ¬ operator_owned b)); [apply rollback_pass| |done|done].
  by apply Forall_reverse.
Qed.

Lemma retry_frame s : rows_ok s → frame (keep s) s (retryDeferredBoundaries s).
Proof.
  intros Hrows. unfold retryDeferredBoundaries.
  apply (pass_from s (λ roots dA s1, foldl (retry_one roots dA) s1 (elements (deferredBoundaries s1)))).
  intros roots dA f Hk. apply (frame_weaken _ (keep (with_db (m_db s) f s))); [done|].
  apply (pass_frame roots dA _ (λ _, True)); [apply retry_pass| |done|done].
  by apply Forall_forall.
Qed.

(** ** Preparation *)

Lemma on_driver_result {A} (op : W → result A * W) s r s1 :
  on_driver op s = (r, s1) → op (world s) = (r, world s1) ∧ s1 = with_world (world s1) s.
Proof. unfold on_driver. destruct (op (world s)) as [r' w] eqn:E. by intros [= <- <-]. Qed.

Lemma ensure_frame tree s r s1 :
  ensureBoundaryWithOwnership tree s = (r, s1) → frame (λ _, True) s s1.
Proof.
  unfold ensureBoundaryWithOwnership.
  destruct (on_driver (ensureCoverage tree) s) as [[[c new]|e] s0] eqn:E.
  - apply on_driver_result in E as [E ->]. set (s0' := with_world (world s0) s) in *.
    assert (H0 : frame (λ _, True) s s0').
    { split; try done. intros b _ Hb. by eapply law_ensure_keeps. }
    destruct new.
    + apply law_ensure_created in E as [Hnew Hop].
      pose proof (record_frame (λ _, True) (Boundary c) (Kind c) s0' Hop) as H1. simpl.
      destruct (recordBoundaryOwnership (Boundary c) (Kind c) s0') as [[u|e] s2] eqn:Er; simpl in H1.
      * intros [= <- <-]. by eapply frame_trans.
      * destruct (on_driver (removeBoundary (Boundary c) (Kind c)) s2) as [r' s3] eqn:Ed. simpl.
        intros [= <- <-]. apply on_driver_result in Ed as [Ed ->].
        pose proof (frame_trans _ _ _ _ H0 H1) as H2. destruct H2. split; try done.
        intros b _ Hb. simpl. eapply law_remove_frame; [exact Ed|done| |by apply fr_present0].
        intros ->. done.
    + destruct (isBoundaryOwnedByHelper (Boundary c) s0') as [[o|e] s2] eqn:Eo;
        apply isOwned_reads in Eo as ([f ->] & _); intros [= <- <-];
        (eapply frame_trans; [exact H0|apply (frame_faults _ f s0')]).
  - apply on_driver_result in E as [E ->]. intros [= <- <-]. split; try done.
    intros b _ Hb. by eapply law_ensure_keeps.
Qed.

(** A coverage that may be bound: in force, and flagged as the helper's only
    when it is not the operator's. *)
Definition coverage_ok s (c : sessionMACCoverage) : Prop :=
  present (world s) (Boundary c) ∧ (operator_owned (Boundary c) → HelperOwned c = false).

Lemma coverage_ok_frame s s' c : frame (λ _, True) s s' → coverage_ok s c → coverage_ok s' c.
Proof. intros Hf [H1 H2]. split; [by apply (fr_present _ _ _ Hf)|done]. Qed.

Lemma owned_flag s s1 b o :
  rows_ok s → isBoundaryOwnedByHelper b s = (Ok o, s1) → operator_owned b → o = false.
Proof.
  intros Hrows E Hop. apply isOwned_reads in E as (_ & Ho). rewrite (Ho o eq_refl), (Hrows b Hop).
  apply bool_decide_eq_false_2. by intros [].
Qed.

Lemma ensure_ok tree s c new s1 :
  rows_ok s → ensureBoundaryWithOwnership tree s = (Ok (c, new), s1) →
  coverage_ok s1 c ∧ boundaryCoversTree (Boundary c) tree = true ∧
  (new = true → ¬ operator_owned (Boundary c)).
Proof.
  intros Hrows. unfold ensureBoundaryWithOwnership.
  destruct (on_driver (ensureCoverage tree) s) as [[[c0 n]|e] s0] eqn:E; [|done].
  apply on_driver_result in E as [E ->]. set (s0' := with_world (world s0) s) in *.
  pose proof (law_ensure_covers _ _ _ _ _ E) as [Hp Hc]. destruct n.
  - apply law_ensure_created in E as [_ Hop]. simpl.
    pose proof (record_frame (λ _, True) (Boundary c0) (Kind c0) s0' Hop) as H1.
    destruct (recordBoundaryOwnership (Boundary c0) (Kind c0) s0') as [[u|e] s2]; [|done].
    intros [= <- <- <-]. simpl in *. split_and!; [|done|done].
    split; simpl; [|done]. by apply (fr_present _ _ _ H1).
  - destruct (isBoundaryOwnedByHelper (Boundary c0) s0') as [[o|e] s2] eqn:Eo; [|done].
    intros [= <- <- <-]. split_and!; [|done|done]. split; simpl.
    + apply isOwned_reads in Eo as ([f ->] & _). done.
    + intros Hop. by eapply (owned_flag s0').
Qed.

(** ** The minimal covering set *)

Definition resolved_ok (P : sessionMACCoverage → Prop) (resolved : gmap string sessionMACCoverage) : Prop :=
  ∀ b c, resolved !! b = Some c → Boundary c = b ∧ P c.

Lemma resolve_into_ok P resolved c :
  resolved_ok P resolved → P c → resolved_ok P (resolve_into resolved c).
Proof.
  intros H Hc b c'. unfold resolve_into. destruct (resolved !! Boundary c) eqn:E; [apply H|].
  rewrite lookup_insert. case_decide; [by intros [= <-]|apply H].
Qed.

Lemma resolve_into_mono resolved c b : is_Some (resolved !! b) → is_Some (resolve_into resolved c !! b).
Proof.
  intros H. unfold resolve_into. destruct (resolved !! Boundary c) eqn:E; [done|].
  rewrite lookup_insert. by case_decide.
Qed.

Lemma resolve_into_self resolved c : is_Some (resolve_into resolved c !! Boundary c).
Proof. unfold resolve_into. destruct (resolved !! Boundary c) eqn:E; [eauto|]. by rewrite lookup_insert_eq. Qed.

Section normalize.
Context (P : sessionMACCoverage → Prop) (resolved : gmap string sessionMACCoverage).
Context (Hres : resolved_ok P resolved).

Lemma normalize_fold kept l :
  (∀ c, c ∈ kept → resolved !! Boundary c = Some c) →
  let out := foldl (normalize_step resolved) kept l in
  (∀ c, c ∈ out → resolved !! Boundary c = Some c) ∧
  (∀ c, c ∈ kept → c ∈ out) ∧
  (NoDup (Boundary <$> kept) → NoDup (Boundary <$> out)) ∧
  (∀ b, b ∈ l → is_Some (resolved !! b) → ∃ c, c ∈ out ∧ boundaryCoversTree (Boundary c) b = true).
Proof.
  revert kept. induction l as [|b l IH]; intros kept Hk; simpl.
  { split_and!; [done..|]. by intros ? ?%not_elem_of_nil. }
  remember (normalize_step resolved kept b) as kept' eqn:Ek. unfold normalize_step in Ek.
  destruct (existsb _ kept) eqn:Eex; [subst kept'|].
  - destruct (IH kept Hk) as (H1 & H2 & H3 & H4). split_and!; [done..|].
    intros b' [->|Hb']%elem_of_cons Hs; [|by apply H4].
    apply existsb_exists in Eex as (c & Hc & Hcov). exists c. split; [|done]. apply H2. by apply list_elem_of_In.
  - destruct (resolved !! b) as [c|] eqn:Ec; subst kept'.
    + destruct (Hres _ _ Ec) as [Eb Pc].
      destruct (IH (kept ++ [c])) as (H1 & H2 & H3 & H4).
      { intros c' [?| ->%list_elem_of_singleton]%elem_of_app; [by apply Hk|by rewrite Eb]. }
      split_and!; [done| | |].
      * intros c' Hc'. apply H2, elem_of_app. by left.
      * intros Hnd. apply H3. rewrite fmap_app. apply NoDup_app. split_and!; [done| |apply NoDup_singleton].
        intros b' Hb'. apply list_elem_of_fmap in Hb' as (c' & -> & Hc').
        intros E%list_elem_of_singleton.
        pose proof (existsb_false_in _ _ _ Eex Hc') as Hx. simpl in Hx. rewrite E, Eb in Hx.
        unfold boundaryCoversTree in Hx. by rewrite pathWithin_refl in Hx.
      * intros b' [->|Hb']%elem_of_cons Hs; [|by apply H4]. exists c.
        split; [apply H2, elem_of_app; right; by left|]. rewrite Eb. apply pathWithin_refl.
    + destruct (IH kept Hk) as (H1 & H2 & H3 & H4). split_and!; [done..|].
      intros b' [->|Hb']%elem_of_cons Hs; [|by apply H4]. rewrite Ec in Hs. by destruct Hs.
Qed.

Lemma normalize_spec :
  let out := normalizeCoverageSet resolved in
  (∀ c, c ∈ out → resolved !! Boundary c = Some c ∧ P c) ∧
  NoDup (Boundary <$> out) ∧
  (∀ b, is_Some (resolved !! b) → ∃ c, c ∈ out ∧ boundaryCoversTree (Boundary c) b = true).
Proof.
  destruct (normalize_fold [] (merge_sort str_le (elements (dom resolved)))) as (H1 & _ & H3 & H4).
  { by intros ? ?%not_elem_of_nil. }
  unfold normalizeCoverageSet. split_and!.
  - intros c Hc. split; [by apply H1|]. by apply (Hres _ _ (H1 c Hc)).
  - apply H3. constructor.
  - intros b Hb. apply H4; [|done]. rewrite merge_sort_Permutation. apply elem_of_elements, elem_of_dom, Hb.
Qed.
End normalize.

(** ** Covering a tree list *)

Definition covered_by (resolved : gmap string sessionMACCoverage) (tree : string) : Prop :=
  ∃ b, is_Some (resolved !! b) ∧ boundaryCoversTree b tree = true.

Lemma covered_by_mono resolved c tree :
  covered_by resolved tree → covered_by (resolve_into resolved c) tree.
Proof. intros (b & Hb & Hc). exists b. split; [by apply resolve_into_mono|done]. Qed.

Lemma coverage_loop_spec trees resolved prepared s r s' :
  coverage_loop trees resolved prepared s = (r, s') →
  rows_ok s → Forall (λ b, ¬ operator_owned b) prepared →
  resolved_ok (coverage_ok s) resolved →
  match r with
  | Err _ => frame (keep s) s s'
  | Ok (covs, prepared') => frame (λ _, True) s s' ∧ Forall (λ b, ¬ operator_owned b) prepared' ∧
      ∃ resolved', covs = normalizeCoverageSet resolved' ∧ resolved_ok (coverage_ok s') resolved' ∧
        (∀ tree, tree ∈ trees ∨ covered_by resolved tree → covered_by resolved' tree)
  end.
Proof.
  revert resolved prepared s. induction trees as [|tree trees IH]; intros resolved prepared s; simpl.
  - intros [= <- <-] Hrows Hp Hres. split_and!; [apply frame_refl|done|]. exists resolved.
    split_and!; [done..|]. intros tree [?%not_elem_of_nil|?]; done.
  - destruct (ensureBoundaryWithOwnership tree s) as [[[c new]|e] s1] eqn:E; intros H Hrows Hp Hres.
    + pose proof (ensure_frame _ _ _ _ E) as Hf.
      destruct (ensure_ok _ _ _ _ _ Hrows E) as (Hc & Hcov & Hnew).
      assert (Hrows1 : rows_ok s1) by (by eapply rows_ok_frame).
      assert (Hres1 : resolved_ok (coverage_ok s1) (resolve_into resolved c)).
      { apply resolve_into_ok; [|done]. intros b c' Hb. destruct (Hres _ _ Hb) as [? Hok]. split; [done|].
        by eapply coverage_ok_frame. }
      assert (Hp1 : Forall (λ b, ¬ operator_owned b) (if new then prepared ++ [Boundary c] else prepared)).
      { destruct new; [|done]. apply Forall_app_2; [done|]. apply Forall_singleton. auto. }
      specialize (IH _ _ _ H Hrows1 Hp1 Hres1). destruct r as [[covs prepared']|e].
      * destruct IH as (Hf' & Hp' & resolved' & Ec & Hr' & Hcov'). split_and!; [by eapply frame_trans|done|].
        exists resolved'. split_and!; [done..|]. intros t Ht. apply Hcov'.
        destruct Ht as [[->|Ht]%elem_of_cons|Ht]; [right|by left|right; by apply covered_by_mono].
        exists (Boundary c). split; [apply resolve_into_self|done].
      * eapply frame_trans; [by apply (frame_weaken _ (λ _, True))|].
        eapply frame_weaken; [|exact IH]. intros b. apply (keep_frame _ _ _ _ Hf).
    + pose proof (ensure_frame _ _ _ _ E) as Hf. injection H as <- <-.
      eapply frame_trans; [by apply (frame_weaken _ (λ _, True))|].
      eapply frame_weaken; [|apply rollback_frame; [by eapply rows_ok_frame|done]].
      intros b. apply (keep_frame _ _ _ _ Hf).
Qed.

(** ** Counting consumers *)

Definition uses (m : gmap string (list sessionMACCoverage)) (b : string) : Z :=
  Z.of_nat (length (filter (λ kv, b ∈ Boundary <$> kv.2) (map_to_list m))).

Definition ind (b : string) (covs : list sessionMACCoverage) : Z :=
  if decide (b ∈ Boundary <$> covs) then 1 else 0.

Lemma uses_insert m k covs b : m !! k = None → uses (<[k := covs]> m) b = uses m b + ind b covs.
Proof.
  intros Hk. unfold uses, ind. rewrite map_to_list_insert by done.
  rewrite filter_cons. simpl. case_decide; simpl; lia.
Qed.

Lemma uses_delete m k covs b : m !! k = Some covs → uses m b = uses (delete k m) b + ind b covs.
Proof.
  intros Hk. rewrite <-(uses_insert (delete k m) k covs b) by apply lookup_delete_eq.
  by rewrite insert_delete_id.
Qed.

Lemma uses_empty b : uses ∅ b = 0.
Proof. unfold uses. by rewrite map_to_list_empty. Qed.

Lemma uses_nonneg m b : 0 <= uses m b.
Proof. unfold uses. lia. Qed.

Lemma uses_pos m b k covs c : m !! k = Some covs → c ∈ covs → Boundary c = b → 0 < uses m b.
Proof.
  intros Hk Hc Hb. rewrite (uses_delete m k covs b Hk). pose proof (uses_nonneg (delete k m) b).
  unfold ind. rewrite decide_True; [lia|]. apply list_elem_of_fmap. by exists c.
Qed.

Lemma uses_zero m b : uses m b <= 0 → ∀ k covs c, m !! k = Some covs → c ∈ covs → Boundary c ≠ b.
Proof. intros H k covs c Hk Hc Hb. pose proof (uses_pos m b k covs c Hk Hc Hb). lia. Qed.

Lemma count_incr covs s b :
  NoDup (Boundary <$> covs) → count_of b (incr_counts covs s) = count_of b s + ind b covs.
Proof.
  unfold incr_counts. revert s. induction covs as [|c covs IH]; intros s Hnd; simpl.
  { unfold ind. rewrite decide_False by (simpl; apply not_elem_of_nil). lia. }
  rewrite fmap_cons in Hnd. apply NoDup_cons in Hnd as [Hnin Hnd]. rewrite IH by done.
  unfold count_of at 1. simpl. unfold ind. rewrite fmap_cons.
  rewrite lookup_insert. case_decide as E; simpl.
  - subst. rewrite decide_False by done. rewrite decide_True by left. lia.
  - fold (count_of b s). destruct (decide (b ∈ Boundary <$> covs)) as [Hin|Hin].
    + rewrite decide_True by (by right). lia.
    + rewrite decide_False; [lia|]. intros [?|?]%elem_of_cons; [congruence|done].
Qed.

Lemma incr_counts_with covs s : ∃ cm, incr_counts covs s = with_counts cm s.
Proof.
  unfold incr_counts. revert s. induction covs as [|c covs IH]; intros s; simpl.
  - exists (boundaryConsumerCounts s). by destruct s.
  - destruct (IH (with_counts (<[Boundary c := count_of (Boundary c) s + 1]> (boundaryConsumerCounts s)) s)) as [cm E].
    exists cm. by rewrite E.
Qed.

(** ** The invariant *)

Record mac_inv s : Prop := {
  mi_present : ∀ b, bound s b → present (world s) b;
  mi_count : ∀ b, count_of b s = uses (sessionBindings s) b + uses (sessionUseLeases s) b;
  mi_nodup : (∀ k covs, sessionBindings s !! k = Some covs → NoDup (Boundary <$> covs)) ∧
             (∀ k covs, sessionUseLeases s !! k = Some covs → NoDup (Boundary <$> covs));
  mi_rows : rows_ok s;
  mi_flags : (∀ k covs c, sessionBindings s !! k = Some covs → c ∈ covs → coverage_ok s c) ∧
             (∀ k covs c, sessionUseLeases s !! k = Some covs → c ∈ covs → coverage_ok s c);
  mi_once : ∀ key, key ∈ releasedOnce s → sessionUseLeases s !! key = None;
}.

Lemma inv_frame P s s' : (∀ b, bound s b → P b) → frame P s s' → mac_inv s → mac_inv s'.
Proof.
  intros HP Hf [H1 H2 [H3 H3'] H4 [H5 H5'] H6]. pose proof Hf as [Eb Ec El Eo Ep Ed Hpres Hr].
  assert (Hc : ∀ c, bound s (Boundary c) → coverage_ok s c → coverage_ok s' c).
  { intros c Hb [Hp Hop]. split; [apply Hpres; auto|done]. }
  split.
  - intros b Hb. apply (bound_frame P s s' b Hf) in Hb. apply Hpres; auto.
  - intros b. unfold count_of. rewrite Ec, Eb, El. apply H2.
  - rewrite Eb, El. by split.
  - by eapply rows_ok_frame.
  - rewrite Eb, El. split; intros k covs c Hk Hin; (apply Hc; [|by eauto]); [left|right]; eauto 10.
  - rewrite Eo, El. done.
Qed.

(** ** Releasing *)

Lemma frame_counts P s s' cm cm' :
  frame P (with_counts cm s) s' → frame P (with_counts cm' s) (with_counts cm' s').
Proof. intros []. by split. Qed.

Lemma with_counts_id s : with_counts (boundaryConsumerCounts s) s = s.
Proof. by destruct s. Qed.

Lemma cond_release_spec c s :
  rows_ok s → (operator_owned (Boundary c) → HelperOwned c = false) → 1 <= count_of (Boundary c) s →
  ∃ cm, frame (keep s) (with_counts cm s) (conditionalReleaseBoundary s c) ∧
    ∀ b, default 0 (cm !! b) = count_of b s - (if decide (b = Boundary c) then 1 else 0).
Proof.
  intros Hrows Hflag Hcnt. unfold conditionalReleaseBoundary.
  destruct (Z.leb_spec (count_of (Boundary c) s) 1) as [Hle|Hgt].
  - set (cm := delete (Boundary c) (boundaryConsumerCounts s)). exists cm. set (s0 := with_counts cm s).
    split.
    2: { intros b. unfold cm. rewrite lookup_delete. case_decide; simpl.
         - subst. rewrite decide_True by done. lia.
         - rewrite decide_False by congruence. unfold count_of. lia. }
    change (keep s) with (keep s0).
    apply (pass_from s0 (λ roots dA s1,
      if negb (boundaryMayBeRemoved (Boundary c) roots dA s1)
      then if HelperOwned c then with_deferred ({[Boundary c]} ∪ deferredBoundaries s1) s1 else s1
      else if HelperOwned c then (removeOwnedBoundary (Boundary c) s1).2 else s1)).
    intros roots dA f Hk. destruct (boundaryMayBeRemoved _ _ _ _) eqn:Em; simpl.
    + destruct (HelperOwned c) eqn:Eh; [|apply frame_refl].
      apply (frame_weaken _ (keep (with_db (m_db s0) f s0))); [done|]. eapply guarded_remove; [|exact Hk|exact Em].
      intros Hop. by specialize (Hflag Hop).
    + destruct (HelperOwned c); [apply frame_deferred|apply frame_refl].
  - exists (<[Boundary c := count_of (Boundary c) s - 1]> (boundaryConsumerCounts s)). split; [apply frame_refl|].
    intros b. rewrite lookup_insert. case_decide as E; simpl.
    + subst. by rewrite decide_True.
    + rewrite decide_False by congruence. unfold count_of. lia.
Qed.

Lemma release_fold covs s :
  rows_ok s → (∀ c, c ∈ covs → operator_owned (Boundary c) → HelperOwned c = false) →
  NoDup (Boundary <$> covs) → (∀ c, c ∈ covs → 1 <= count_of (Boundary c) s) →
  ∃ cm, frame (keep s) (with_counts cm s) (foldl conditionalReleaseBoundary s covs) ∧
    ∀ b, default 0 (cm !! b) = count_of b s - ind b covs.
Proof.
  revert s. induction covs as [|c covs IH]; intros s Hrows Hflag Hnd Hcnt; simpl.
  { exists (boundaryConsumerCounts s). rewrite with_counts_id. split; [apply frame_refl|].
    intros b. unfold ind. rewrite decide_False by (simpl; apply not_elem_of_nil). unfold count_of. lia. }
  rewrite fmap_cons in Hnd. apply NoDup_cons in Hnd as [Hnin Hnd].
  destruct (cond_release_spec c s Hrows) as (cm1 & Hf1 & Hcm1); [apply Hflag; by left|apply Hcnt; by left|].
  set (s1 := conditionalReleaseBoundary s c) in *.
  assert (Hcount1 : ∀ b, count_of b s1 = count_of b s - if decide (b = Boundary c) then 1 else 0).
  { intros b. unfold count_of at 1. rewrite (fr_counts _ _ _ Hf1). simpl. apply Hcm1. }
  destruct (IH s1) as (cm2 & Hf2 & Hcm2).
  - apply (rows_ok_frame _ _ _ Hf1). exact Hrows.
  - intros c' Hc'. apply Hflag. by right.
  - done.
  - intros c' Hc'. rewrite Hcount1. rewrite decide_False; [specialize (Hcnt c' ltac:(by right)); lia|].
    intros E. apply Hnin. rewrite <-E. apply list_elem_of_fmap. eauto.
  - exists cm2. split.
    + eapply frame_trans; [by eapply frame_counts|].
      eapply frame_weaken; [|exact Hf2]. intros b Hb. apply (keep_frame _ _ _ _ Hf1). exact Hb.
    + intros b. rewrite Hcm2, Hcount1. unfold ind. rewrite fmap_cons.
      destruct (decide (b = Boundary c)) as [->|Hne].
      * rewrite decide_False by done. rewrite decide_True by left. lia.
      * destruct (decide (b ∈ Boundary <$> covs)) as [Hin|Hin].
        -- rewrite decide_True by (by right). lia.
        -- rewrite decide_False; [lia|]. intros [?|?]%elem_of_cons; done.
Qed.

(** Giving up one coverage set: the binding or lease is already gone from the
    state, its consumers are still counted. *)
Lemma release_covs_spec covs s0 :
  (∀ b, bound s0 b → present (world s0) b) →
  (∀ b, count_of b s0 = uses (sessionBindings s0) b + uses (sessionUseLeases s0) b + ind b covs) →
  NoDup (Boundary <$> covs) → (∀ c, c ∈ covs → coverage_ok s0 c) →
  (∀ k covs, sessionBindings s0 !! k = Some covs → NoDup (Boundary <$> covs)) →
  (∀ k covs, sessionUseLeases s0 !! k = Some covs → NoDup (Boundary <$> covs)) →
  (∀ k covs c, sessionBindings s0 !! k = Some covs → c ∈ covs → coverage_ok s0 c) →
  (∀ k covs c, sessionUseLeases s0 !! k = Some covs → c ∈ covs → coverage_ok s0 c) →
  rows_ok s0 → (∀ key, key ∈ releasedOnce s0 → sessionUseLeases s0 !! key = None) →
  let s' := retryDeferredBoundaries (foldl conditionalReleaseBoundary s0 covs) in
  mac_inv s' ∧ ∃ cm, frame (keep s0) (with_counts cm s0) s'.
Proof.
  intros Hpres Hcnt Hnd Hok Hn1 Hn2 Hk1 Hk2 Hrows Honce. simpl.
  destruct (release_fold covs s0) as (cm & Hf & Hcm).
  - done.
  - intros c Hc. by apply Hok.
  - done.
  - intros c Hc. rewrite Hcnt. unfold ind. rewrite decide_True by (apply list_elem_of_fmap; eauto).
    pose proof (uses_nonneg (sessionBindings s0) (Boundary c)).
    pose proof (uses_nonneg (sessionUseLeases s0) (Boundary c)). lia.
  - set (s1 := foldl conditionalReleaseBoundary s0 covs) in *.
    assert (Hi0 : mac_inv (with_counts cm s0)).
    { split; simpl; try done. intros b. unfold count_of. simpl. rewrite Hcm, Hcnt. lia. }
    assert (Hi1 : mac_inv s1).
    { eapply inv_frame; [|exact Hf|exact Hi0]. intros b Hb. left. apply bound_protected, Hb. }
    pose proof (retry_frame s1 (mi_rows _ Hi1)) as Hf2. split.
    + eapply inv_frame; [|exact Hf2|exact Hi1]. intros b Hb. left. by apply bound_protected.
    + exists cm. eapply frame_trans; [exact Hf|]. eapply frame_weaken; [|exact Hf2].
      intros b Hb. apply (keep_frame _ _ _ _ Hf). exact Hb.
Qed.

(** ** The exported methods as steps *)

(** The create transaction: it commits without touching the ownership table or
    changes nothing. *)
Definition insert_ok (ins : list sessionMACCoverage → DB unit) : Prop :=
  ∀ covs d f, match ins covs d f with
              | (Ok _, d', _) => mac_boundaries d' = mac_boundaries d
              | (Err _, d', _) => d' = d
              end.

(** A Session starts unbound and a lease key is drawn fresh; startup
    reconciliation runs on an empty coordinator.  Other components change the
    rest of the database and the pending workloads at any time, and [faults]
    decides which statements fail. *)
Inductive mac_step s : mac W → Prop :=
  | mac_create sid trees ins : sessionBindings s !! sid = None → insert_ok ins →
      mac_step s (CreateSessionBinding sid trees ins s).2
  | mac_release sid : mac_step s (ReleaseSessionBinding sid s)
  | mac_acquire sid ws key now : sessionUseLeases s !! key = None → key ∉ releasedOnce s →
      mac_step s (AcquireSessionUse sid ws key now s).2
  | mac_release_lease key : mac_step s (releaseLease key s)
  | mac_reconcile now : sessionBindings s = ∅ → sessionUseLeases s = ∅ → boundaryConsumerCounts s = ∅ →
      mac_step s (ReconcileLiveSessions now s).2
  | mac_db d f : mac_boundaries d = mac_boundaries (m_db s) → mac_step s (with_db d f s)
  | mac_pending l : mac_step s
      (mkMac (world s) (m_db s) (m_faults s) (sessionBindings s) (boundaryConsumerCounts s)
         (deferredBoundaries s) (sessionUseLeases s) (releasedOnce s) l).

(** Binding a Session to a coverage set that is in force. *)
Lemma bind_inv sid covs s :
  mac_inv s → sessionBindings s !! sid = None → NoDup (Boundary <$> covs) →
  (∀ c, c ∈ covs → coverage_ok s c) →
  mac_inv (incr_counts covs (with_bindings (<[sid := covs]> (sessionBindings s)) s)).
Proof.
  intros Hi Hsid Hnd Hok. pose proof Hi as [H1 H2 [H3 H3'] H4 [H5 H5'] H6].
  set (s1 := with_bindings _ s).
  pose proof (count_incr covs s1) as Hcount. destruct (incr_counts_with covs s1) as [cm Ecm]. rewrite Ecm in *.
  split; simpl.
  - intros b [(k & cs & c & Hk & Hc & Hb)|Hl]; simpl in *.
    + rewrite lookup_insert in Hk. case_decide; [simplify_eq; by apply Hok|]. apply H1. left. eauto 10.
    + apply H1. by right.
  - intros b. rewrite Hcount by done. unfold count_of. simpl. fold (count_of b s).
    rewrite H2, (uses_insert _ _ _ _ Hsid). lia.
  - split; [|done]. intros k cs. rewrite lookup_insert. case_decide; [by intros [= <-]|apply H3].
  - done.
  - split; [|done]. intros k cs c. rewrite lookup_insert. case_decide; [intros [= <-]; apply Hok|apply H5].
  - done.
Qed.

Lemma reconcile_tree_spec tree s r s1 :
  rows_ok s → reconcile_tree tree s = (r, s1) →
  frame (λ _, True) s s1 ∧
  ∀ c, r = Ok c → coverage_ok s1 c ∧ boundaryCoversTree (Boundary c) tree = true.
Proof.
  intros Hrows. unfold reconcile_tree.
  destruct (on_driver (verifyCoverage tree) s) as [[c|e] s0] eqn:E; apply on_driver_result in E as [E ->];
    set (s0' := with_world (world s0) s) in *;
    (assert (H0 : frame (λ _, True) s s0') by (split; try done; intros b _ Hb; by eapply law_verify_keeps)).
  - apply law_verify_covers in E as [Hp Hc].
    destruct (isBoundaryOwnedByHelper (Boundary c) s0') as [[o|e] s2] eqn:Eo; intros [= <- <-];
      pose proof Eo as Eo'; apply isOwned_reads in Eo' as ([f ->] & _);
      (split; [eapply frame_trans; [exact H0|apply (frame_faults _ f s0')]|]); [|done].
    intros ? [= <-]. split; [|done]. split; [done|]. simpl. intros Hop. by eapply (owned_flag s0').
  - assert (Hr0 : rows_ok s0') by (by eapply rows_ok_frame).
    destruct (ensureBoundaryWithOwnership tree s0') as [[[c new]|e'] s2] eqn:Ee; intros [= <- <-];
      (split; [eapply frame_trans; [exact H0|by eapply ensure_frame]|]); [|done].
    intros ? [= <-]. by destruct (ensure_ok _ _ _ _ _ Hr0 Ee) as (? & ? & _).
Qed.

Lemma reconcile_trees_spec trees resolved s r s1 :
  rows_ok s → resolved_ok (coverage_ok s) resolved → reconcile_trees trees resolved s = (r, s1) →
  frame (λ _, True) s s1 ∧
  ∀ resolved', r = Ok resolved' → resolved_ok (coverage_ok s1) resolved' ∧
    ∀ tree, tree ∈ trees ∨ covered_by resolved tree → covered_by resolved' tree.
Proof.
  revert resolved s. induction trees as [|tree trees IH]; intros resolved s Hrows Hres; simpl.
  - intros [= <- <-]. split; [apply frame_refl|]. intros ? [= <-]. split; [done|].
    intros t [?%not_elem_of_nil|?]; done.
  - destruct (reconcile_tree tree s) as [[c|e] s2] eqn:E; apply reconcile_tree_spec in E as [Hf Hc]; [|done| |done].
    + destruct (Hc c eq_refl) as [Hok Hcov]. intros H.
      apply IH in H as [Hf2 H]; [|by eapply rows_ok_frame|].
      * split; [by eapply frame_trans|]. intros resolved' E'. destruct (H _ E') as [H1 H2]. split; [done|].
        intros t Ht. apply H2.
        destruct Ht as [[->|Ht]%elem_of_cons|Ht]; [right|by left|right; by apply covered_by_mono].
        exists (Boundary c). split; [apply resolve_into_self|done].
      * apply resolve_into_ok; [|done]. intros b c' Hb. destruct (Hres _ _ Hb). split; [done|].
        by eapply coverage_ok_frame.
    + intros [= <- <-]. by split.
Qed.

Definition grows s s' : Prop := ∀ b, present (world s) b → present (world s') b.

Lemma frame_grows s s' : frame (λ _, True) s s' → grows s s'.
Proof. intros Hf b. by apply (fr_present _ _ _ Hf). Qed.

(** The issued trees of a Session are covered by what it is bound to. *)
Definition trees_covered s (sid : string) (trees : list string) : Prop :=
  ∃ covs, sessionBindings s !! sid = Some covs ∧
    ∀ tree, tree ∈ trees → ∃ b c, c ∈ covs ∧ boundaryCoversTree (Boundary c) b = true ∧
      boundaryCoversTree b tree = true.

Lemma inv_true s s' : frame (λ _, True) s s' → mac_inv s → mac_inv s'.
Proof. intros Hf. by apply (inv_frame (λ _, True) s s'). Qed.

Lemma reconcile_session_spec sid ws s r s1 :
  mac_inv s → sessionBindings s !! sid = None → reconcile_session sid ws s = (r, s1) →
  mac_inv s1 ∧ grows s s1 ∧ db_frame (m_db s) (m_db s1) ∧
  pendingWorkloadSessions s1 = pendingWorkloadSessions s ∧
  (∀ k, k ≠ sid → sessionBindings s1 !! k = sessionBindings s !! k) ∧
  (r = Ok () → ∃ snap f d f', loadSessionFilesystemSnapshot sid ws (m_db s) f = (Ok snap, d, f') ∧
     trees_covered s1 sid (sessionMACBoundaries snap)).
Proof.
  intros Hi Hsid. unfold reconcile_session.
  destruct (on_db_reads (loadSessionFilesystemSnapshot sid ws) s (load_reads _ _)) as [f Ef].
  destruct (on_db (loadSessionFilesystemSnapshot sid ws) s) as [[snap|e] s0] eqn:El; simpl in Ef; subst s0.
  2: { intros [= <- <-]. split; [by eapply inv_true; [apply frame_faults|]|]. split; [by intros b|].
       by split_and!. }
  set (s0 := with_db (m_db s) f s) in *.
  assert (Hi0 : mac_inv s0) by (eapply inv_true; [apply frame_faults|done]).
  destruct (reconcile_trees (sessionMACBoundaries snap) ∅ s0) as [[resolved|e] s2] eqn:E;
    apply reconcile_trees_spec in E as [Hf Hr];
    try apply (mi_rows _ Hi0); try (by intros b c; rewrite lookup_empty).
  2: { intros [= <- <-]. split_and!; try done.
       - by apply (inv_true s0).
       - by apply frame_grows in Hf.
       - apply (fr_db _ _ _ Hf).
       - apply (fr_pending _ _ _ Hf).
       - intros k _. by rewrite (fr_bindings _ _ _ Hf). }
  destruct (Hr _ eq_refl) as [Hres Hcov]. intros [= <- <-].
  destruct (normalize_spec _ resolved Hres) as (Hn1 & Hn2 & Hn3).
  set (covs := normalizeCoverageSet resolved) in *.
  assert (Hi2 : mac_inv s2) by (by apply (inv_true s0)).
  assert (Hsid2 : sessionBindings s2 !! sid = None) by (by rewrite (fr_bindings _ _ _ Hf)).
  pose proof (bind_inv sid covs s2 Hi2 Hsid2 Hn2 (λ c Hc, proj2 (Hn1 c Hc))) as Hb.
  destruct (incr_counts_with covs (with_bindings (<[sid := covs]> (sessionBindings s2)) s2)) as [cm Ecm].
  rewrite Ecm in *. split_and!.
  - done.
  - by apply frame_grows in Hf.
  - apply (fr_db _ _ _ Hf).
  - apply (fr_pending _ _ _ Hf).
  - intros k Hk. simpl. rewrite lookup_insert_ne by done. by rewrite (fr_bindings _ _ _ Hf).
  - intros _. unfold on_db in El.
    destruct (loadSessionFilesystemSnapshot sid ws (m_db s) (m_faults s)) as [[r' d] f'] eqn:E'.
    injection El as -> _ _. exists snap, (m_faults s), d, f'. split; [done|].
    exists covs. simpl. rewrite lookup_insert_eq. split; [done|]. intros tree Ht.
    destruct (Hcov tree ltac:(by left)) as (b & Hb' & Hc). destruct (Hn3 b Hb') as (c & Hin & Hcb). eauto.
Qed.

Lemma trees_covered_other s s' sid trees :
  sessionBindings s' !! sid = sessionBindings s !! sid → trees_covered s sid trees → trees_covered s' sid trees.
Proof. intros E (covs & Hb & H). exists covs. by rewrite E. Qed.

Lemma reconcile_sessions_spec l s r s1 :
  mac_inv s → NoDup l.*1 → (∀ sid, sid ∈ l.*1 → sessionBindings s !! sid = None) →
  reconcile_sessions l s = (r, s1) →
  mac_inv s1 ∧ grows s s1 ∧ db_frame (m_db s) (m_db s1) ∧
  (∀ k, k ∉ l.*1 → sessionBindings s1 !! k = sessionBindings s !! k) ∧
  (r = Ok () → ∀ sid ws, (sid, ws) ∈ l → ∃ snap d f d' f', db_frame (m_db s) d ∧
     loadSessionFilesystemSnapshot sid ws d f = (Ok snap, d', f') ∧
     trees_covered s1 sid (sessionMACBoundaries snap)).
Proof.
  revert s. induction l as [|[sid ws] l IH]; intros s Hi Hnd Hfresh; simpl.
  { intros [= <- <-]. split_and!; try done; [by intros b|]. intros _ sid ws ?%not_elem_of_nil. done. }
  apply NoDup_cons in Hnd as [Hnin Hnd]. simpl in Hnin.
  destruct (reconcile_session sid ws s) as [[[]|e] s2] eqn:E;
    apply reconcile_session_spec in E as (Hi2 & Hg & Hd & _ & Hb & Hok);
    try done; try (apply Hfresh; by left).
  2: { intros [= <- <-]. split_and!; try done. intros k Hk. apply Hb. intros ->. apply Hk. by left. }
  intros H. apply IH in H as (Hi3 & Hg3 & Hd3 & Hb3 & Hok3); [|done|done|].
  2: { intros sid' Hin. rewrite Hb by (intros ->; done). apply Hfresh. by right. }
  split_and!; [done| |by etrans| |].
  - intros b Hp. by apply Hg3, Hg.
  - intros k [Hk1 Hk2]%not_elem_of_cons. by rewrite Hb3, Hb.
  - intros Hr sid' ws' [[= -> ->]|Hin]%elem_of_cons.
    + destruct (Hok eq_refl) as (snap & f & d & f' & Hl & Ht). exists snap, (m_db s), f, d, f'.
      split_and!; [done..|]. eapply trees_covered_other; [|exact Ht]. by apply Hb3.
    + destruct (Hok3 Hr sid' ws' Hin) as (snap & d & f & d' & f' & Hd' & Hl & Ht).
      exists snap, d, f, d', f'. split_and!; [by etrans|done..].
Qed.

Lemma import_frame l s :
  (∀ b k, (b, k) ∈ l → ¬ operator_owned b) → frame (λ _, True) s (import_loop l s).
Proof.
  revert s. induction l as [|[b k] l IH]; intros s Hl; simpl; [apply frame_refl|].
  eapply frame_trans; [apply record_frame; eapply Hl; by left|]. apply IH. intros b' k' ?. eapply Hl. by right.
Qed.

Lemma importHelper_frame s : frame (λ _, True) s (importHelperOwnedBoundaries s).2.
Proof.
  unfold importHelperOwnedBoundaries. destruct (discoverHelperOwnedBoundaries (world s)) as [l|e] eqn:E;
    [|apply frame_refl]. simpl. apply import_frame. intros b k Hin. by eapply law_discover.
Qed.

Lemma stale_frame s : rows_ok s → frame (keep s) s (cleanupStaleBoundaries s).2.
Proof.
  intros Hrows. unfold cleanupStaleBoundaries, listOwnedBoundaries.
  set (q := λ d : db, omap _ _).
  destruct (on_db_reads (query q) s (reads_query q)) as [f Ef].
  destruct (on_db (query q) s) as [[bs|e] s1] eqn:E; simpl in Ef; subst s1; [|apply frame_faults].
  assert (Hbs : bs = q (m_db s)).
  { unfold on_db in E. destruct (query q (m_db s) (m_faults s)) as [[r d] f'] eqn:Eq.
    injection E as -> _ _. by apply query_ok in Eq as (-> & _). }
  set (s0 := with_db (m_db s) f s).
  assert (H : frame (keep s0) s0 (let '(roots, dA, s1) := pendingWorkloadCoverage s0 in
                                  foldl (stale_one roots dA) s1 bs)).
  { apply (pass_from s0 (λ roots dA s1, foldl (stale_one roots dA) s1 bs)). intros roots dA f' Hk.
    apply (frame_weaken _ (keep (with_db (m_db s0) f' s0))); [done|].
    apply (pass_frame roots dA _ (λ b, ¬ operator_owned b)); [apply stale_pass| |done|done].
    apply Forall_forall. intros b Hb Hop. rewrite Hbs in Hb. unfold q in Hb.
    apply list_elem_of_omap in Hb as ([[be b'] v] & Hin & Hr). simpl in Hr. case_bool_decide as Ebe; [|done].
    injection Hr as ->. subst be. apply elem_of_map_to_list in Hin. rewrite (Hrows b Hop) in Hin. done. }
  destruct (pendingWorkloadCoverage s0) as [[roots dA] s1]. simpl.
  eapply frame_trans; [apply frame_faults|exact H].
Qed.

(** What a step that removes nothing needed does to the host. *)
Definition keeps s s' : Prop := ∀ b, keep s' b → present (world s) b → present (world s') b.

Lemma grows_keeps s s' : grows s s' → keeps s s'.
Proof. intros H b _. apply H. Qed.

Lemma frame_keeps s s' : frame (keep s) s s' → keeps s s'.
Proof. intros Hf b Hb. apply (fr_present _ _ _ Hf). by apply (keep_frame _ _ _ _ Hf). Qed.

Lemma inv_with_db d f s : mac_boundaries d = mac_boundaries (m_db s) → mac_inv s → mac_inv (with_db d f s).
Proof.
  intros Hd [H1 H2 H3 H4 H5 H6]. split; try done. intros b Hop. simpl. rewrite Hd. by apply H4.
Qed.

Lemma keep_bound s b : bound s b → keep s b.
Proof. intros H. left. by apply bound_protected. Qed.

Lemma release_keeps cm s0 s s' :
  world s0 = world s → frame (keep s0) (with_counts cm s0) s' → keeps s s'.
Proof.
  intros Hw Hf b Hb. rewrite <- Hw. apply (fr_present _ _ _ Hf). by apply (keep_frame _ _ _ _ Hf) in Hb.
Qed.

Lemma release_session_spec sid s :
  mac_inv s → mac_inv (ReleaseSessionBinding sid s) ∧ keeps s (ReleaseSessionBinding sid s).
Proof.
  intros Hi. unfold ReleaseSessionBinding.
  destruct (sessionBindings s !! sid) as [covs|] eqn:E; [|split; [done|by intros b _]].
  pose proof Hi as [H1 H2 [H3 H3'] H4 [H5 H5'] H6].
  assert (Hdel : ∀ k cs, delete sid (sessionBindings s) !! k = Some cs → sessionBindings s !! k = Some cs).
  { intros k cs. by intros [_ ?]%lookup_delete_Some. }
  destruct (release_covs_spec covs (with_bindings (delete sid (sessionBindings s)) s)) as (Hi' & cm & Hf); simpl; eauto.
  - intros b [(k & cs & c & Hk & Hc & Hb)|Hl]; apply H1; [left; eauto 10|by right].
  - intros b. unfold count_of. simpl. fold (count_of b s). rewrite H2, (uses_delete _ _ _ b E). lia.
  - split; [done|]. by apply (release_keeps cm (with_bindings (delete sid (sessionBindings s)) s)).
Qed.

Lemma release_lease_spec key s :
  mac_inv s → mac_inv (releaseLease key s) ∧ keeps s (releaseLease key s).
Proof.
  intros Hi. unfold releaseLease. pose proof Hi as [H1 H2 [H3 H3'] H4 [H5 H5'] H6].
  case_decide as Eo; [split; [done|by intros b _]|]. simpl.
  destruct (sessionUseLeases s !! key) as [covs|] eqn:E.
  2: { split; [|by intros b _]. split; try done. simpl. intros k [->%elem_of_singleton|Hk]%elem_of_union; [done|by apply H6]. }
  assert (Hdel : ∀ k cs, delete key (sessionUseLeases s) !! k = Some cs → sessionUseLeases s !! k = Some cs).
  { intros k cs. by intros [_ ?]%lookup_delete_Some. }
  destruct (release_covs_spec covs (with_leases (delete key (sessionUseLeases s)) ({[key]} ∪ releasedOnce s) s))
    as (Hi' & cm & Hf); simpl; eauto.
  - intros b [Hl|(k & cs & c & Hk & Hc & Hb)]; apply H1; [by left|right; eauto 10].
  - intros b. unfold count_of. simpl. fold (count_of b s). rewrite H2, (uses_delete _ _ _ b E). lia.
  - intros k [->%elem_of_singleton|Hk]%elem_of_union; apply lookup_delete_None; [by left|right; by apply H6].
  - split; [done|]. by apply (release_keeps cm
      (with_leases (delete key (sessionUseLeases s)) ({[key]} ∪ releasedOnce s) s)).
Qed.

Lemma create_ok sid trees ins s covs s' :
  mac_inv s → sessionBindings s !! sid = None → insert_ok ins →
  CreateSessionBinding sid trees ins s = (Ok covs, s') →
  mac_inv s' ∧ grows s s' ∧ NoDup (Boundary <$> covs) ∧
  sessionBindings s' = <[sid := covs]> (sessionBindings s) ∧
  (∀ c, c ∈ covs → present (world s') (Boundary c)) ∧ trees_covered s' sid trees.
Proof.
  intros Hi Hsid Hins. unfold CreateSessionBinding, ensureSessionCoverage.
  destruct (coverage_loop trees ∅ [] s) as [[[covs' prepared]|e] s1] eqn:E; [|done].
  apply coverage_loop_spec in E as (Hf & _ & resolved & -> & Hres & Hcov);
    [|apply (mi_rows _ Hi)|done|by intros b c; rewrite lookup_empty].
  destruct (normalize_spec _ resolved Hres) as (Hn1 & Hn2 & Hn3).
  set (cs := normalizeCoverageSet resolved) in *.
  specialize (Hins cs (m_db s1) (m_faults s1)). unfold on_db.
  destruct (ins cs (m_db s1) (m_faults s1)) as [[[[]|e] d] f]; [|done]. intros [= <- <-].
  assert (Hi1 : mac_inv (with_db d f s1)) by (apply inv_with_db; [done|by apply (inv_true s)]).
  assert (Hsid1 : sessionBindings (with_db d f s1) !! sid = None) by (simpl; by rewrite (fr_bindings _ _ _ Hf)).
  pose proof (bind_inv sid cs _ Hi1 Hsid1 Hn2 (λ c Hc, proj2 (Hn1 c Hc))) as Hb.
  destruct (incr_counts_with cs (with_bindings (<[sid := cs]> (sessionBindings (with_db d f s1))) (with_db d f s1)))
    as [cm Ecm]. rewrite Ecm in Hb. simpl in Ecm. rewrite Ecm. split_and!; [done|by apply frame_grows in Hf|done| | |].
  - simpl. by rewrite (fr_bindings _ _ _ Hf).
  - intros c Hc. apply (Hn1 c Hc).
  - exists cs. simpl. rewrite lookup_insert_eq. split; [done|]. intros tree Ht.
    destruct (Hcov tree ltac:(by left)) as (b & Hb' & Hc). destruct (Hn3 b Hb') as (c & Hin & Hcb). eauto.
Qed.

Lemma create_leases sid trees ins s covs s' :
  mac_inv s → CreateSessionBinding sid trees ins s = (Ok covs, s') → sessionUseLeases s' = sessionUseLeases s.
Proof.
  intros Hi. unfold CreateSessionBinding, ensureSessionCoverage.
  destruct (coverage_loop trees ∅ [] s) as [[[covs' prepared]|e] s1] eqn:E; [|done].
  apply coverage_loop_spec in E as (Hf & _); [|apply (mi_rows _ Hi)|done|by intros b c; rewrite lookup_empty].
  unfold on_db. destruct (ins covs' (m_db s1) (m_faults s1)) as [[[[]|e] d] f]; [|done]. intros [= <- <-].
  destruct (incr_counts_with covs' (with_bindings (<[sid := covs']> (sessionBindings (with_db d f s1))) (with_db d f s1)))
    as [cm Ecm]. simpl in Ecm. rewrite Ecm. simpl. apply (fr_leases _ _ _ Hf).
Qed.

Lemma create_err sid trees ins s e s' :
  mac_inv s → insert_ok ins → CreateSessionBinding sid trees ins s = (Err e, s') → frame (keep s) s s'.
Proof.
  intros Hi Hins. unfold CreateSessionBinding, ensureSessionCoverage.
  destruct (coverage_loop trees ∅ [] s) as [[[covs prepared]|e'] s1] eqn:E;
    apply coverage_loop_spec in E;
    try apply (mi_rows _ Hi); try done; try (by intros b c; rewrite lookup_empty).
  2: { by intros [= _ <-]. }
  destruct E as (Hf & Hp & _). specialize (Hins covs (m_db s1) (m_faults s1)). unfold on_db.
  destruct (ins covs (m_db s1) (m_faults s1)) as [[[[]|e''] d] f]; [done|]. subst d. intros [= _ <-].
  eapply frame_trans; [by apply (frame_weaken _ (λ _, True))|].
  eapply frame_trans; [apply (frame_faults _ f)|].
  eapply frame_weaken; [|apply rollback_frame; [|done]].
  - intros b Hb. apply (keep_frame _ _ _ _ (frame_faults (λ _, True) f s1)).
    by apply (keep_frame _ _ _ _ Hf).
  - by eapply (rows_ok_frame _ s1), rows_ok_frame, (mi_rows _ Hi); [apply (frame_faults (λ _, True))|].
Qed.

Lemma acquire_spec sid ws key now s :
  mac_inv s → sessionUseLeases s !! key = None → key ∉ releasedOnce s →
  mac_inv (AcquireSessionUse sid ws key now s).2 ∧
  world (AcquireSessionUse sid ws key now s).2 = world s.
Proof.
  intros Hi Hkey Honce. unfold AcquireSessionUse.
  destruct (sessionBindings s !! sid) as [covs|] eqn:Eb; [|done]. unfold sessionExistsExact.
  set (q := λ d : db, _). destruct (on_db_reads (query q) s (reads_query q)) as [f Ef].
  destruct (on_db (query q) s) as [[[]|e] s1]; simpl in Ef; subst s1;
    try (split; [by apply inv_with_db|done]).
  set (s1 := with_db (m_db s) f s). assert (Hi1 : mac_inv s1) by (by apply inv_with_db).
  pose proof Hi1 as [H1 H2 [H3 H3'] H4 [H5 H5'] H6].
  pose proof (count_incr covs s1) as Hcount. destruct (incr_counts_with covs s1) as [cm Ecm].
  rewrite Ecm in *. split; [|done]. split; simpl.
  - intros b [Hl|(k & cs & c & Hk & Hc & Hb)]; simpl in *; [apply H1; by left|].
    rewrite lookup_insert in Hk. case_decide; simplify_eq; apply H1; [left; eauto 10|right; eauto 10].
  - intros b. rewrite (uses_insert _ _ _ _ Hkey). change (count_of b _) with (count_of b (with_counts cm s1)).
    rewrite Hcount by (by eapply H3). rewrite H2. simpl. lia.
  - split; [done|]. intros k cs. rewrite lookup_insert. case_decide; [intros [= <-]; by eapply H3|apply H3'].
  - done.
  - split; [done|]. intros k cs c. rewrite lookup_insert. case_decide; [intros [= <-]; by eapply H5|apply H5'].
  - intros k Hk. rewrite lookup_insert_ne; [by apply H6|]. by intros ->.
Qed.

Lemma live_rows now s l s' :
  listLiveSessionsWithIDs now s = (Ok l, s') →
  (∃ f, s' = with_db (m_db s) f s) ∧ NoDup l.*1 ∧
  ∀ sid ws, (sid, ws) ∈ l ↔ ∃ row, sessions (m_db s) !! sid = Some row ∧ s_workspace row = ws ∧ now < s_expires_at row.
Proof.
  unfold listLiveSessionsWithIDs, on_db. set (q := λ d : db, _).
  destruct (query q (m_db s) (m_faults s)) as [[r d] f] eqn:E. intros [= -> <-].
  apply query_ok in E as (-> & -> & _). split; [by exists f|]. subst q. simpl. split.
  - pose proof (NoDup_fst_map_to_list (sessions (m_db s))) as Hnd. revert Hnd.
    generalize (map_to_list (sessions (m_db s))) as kvs. induction kvs as [|[k row] kvs IH]; simpl; [done|].
    intros [Hk Hnd]%NoDup_cons. destruct (now <? s_expires_at row); [|by apply IH]. simpl.
    apply NoDup_cons. split; [|by apply IH]. intros Hin. apply Hk.
    apply list_elem_of_fmap in Hin as ([k' w] & -> & Hin). apply list_elem_of_omap in Hin as ([k2 row2] & Hin & Hr).
    simpl in Hr. destruct (now <? s_expires_at row2); simplify_eq. apply list_elem_of_fmap. by exists (k', row2).
  - intros sid ws. rewrite list_elem_of_omap. split.
    + intros ([k row] & Hin%elem_of_map_to_list & Hr). simpl in Hr.
      destruct (Z.ltb_spec now (s_expires_at row)); simplify_eq. eauto.
    + intros (row & Hrow & <- & Hlt). exists (sid, row). split; [by apply elem_of_map_to_list|].
      simpl. by apply Z.ltb_lt in Hlt as ->.
Qed.

Lemma reconcile_spec now s r s' :
  mac_inv s → sessionBindings s = ∅ → ReconcileLiveSessions now s = (r, s') →
  mac_inv s' ∧ keeps s s' ∧
  (r = Ok () → ∀ sid row, sessions (m_db s) !! sid = Some row → now < s_expires_at row →
     ∃ snap d f d' f', db_frame (m_db s) d ∧
       loadSessionFilesystemSnapshot sid (s_workspace row) d f = (Ok snap, d', f') ∧
       trees_covered s' sid (sessionMACBoundaries snap)).
Proof.
  intros Hi Hempty. unfold ReconcileLiveSessions, mbind, mac_bind, mac_wrapf.
  pose proof (importHelper_frame s) as Hf1.
  destruct (importHelperOwnedBoundaries s) as [[[]|e] s1]; simpl in Hf1.
  2: { intros [= <- <-]. split_and!; [by apply (inv_true s)|by apply grows_keeps, frame_grows|done]. }
  assert (Hi1 : mac_inv s1) by (by apply (inv_true s)).
  destruct (listLiveSessionsWithIDs now s1) as [[live|e] s2] eqn:El.
  2: { intros [= <- <-]. unfold listLiveSessionsWithIDs in El.
       set (q := λ d : db, _) in El. destruct (on_db_reads (query q) s1 (reads_query q)) as [f Ef].
       rewrite El in Ef. simpl in Ef. subst s2.
       split_and!; [by apply inv_with_db|apply grows_keeps; by apply frame_grows in Hf1|done]. }
  apply live_rows in El as ([f ->] & Hnd & Hlive). set (s2 := with_db (m_db s1) f s1) in *.
  assert (Hi2 : mac_inv s2) by (by apply inv_with_db).
  destruct (reconcile_sessions live s2) as [[[]|e] s3] eqn:Er;
    apply reconcile_sessions_spec in Er as (Hi3 & Hg3 & Hd3 & _ & Hok); try done;
    try (intros sid _; simpl; by rewrite (fr_bindings _ _ _ Hf1), Hempty).
  2: { intros [= <- <-]. split_and!; [done| |done]. apply grows_keeps. intros b Hp. apply Hg3. simpl.
       by apply (frame_grows _ _ Hf1). }
  intros [= <- <-]. pose proof (stale_frame s3 (mi_rows _ Hi3)) as Hf4. split_and!.
  - eapply inv_frame; [|exact Hf4|done]. intros b. apply keep_bound.
  - intros b Hb Hp. apply (frame_keeps _ _ Hf4 b Hb). apply Hg3. simpl. by apply (frame_grows _ _ Hf1).
  - intros _ sid row Hrow Hlt. pose proof (fr_db _ _ _ Hf1) as Hd1.
    destruct (Hok eq_refl sid (s_workspace row)) as (snap & d & f' & d' & f'' & Hd & Hl & Ht).
    + apply Hlive. exists row. rewrite Hd1. by split_and!.
    + exists snap, d, f', d', f''. split_and!; [by etrans|done|].
      eapply trees_covered_other; [|exact Ht]. by rewrite (fr_bindings _ _ _ Hf4).
Qed.

(** Every step preserves the invariant and removes nothing that is needed. *)
Lemma mac_step_spec s s' : mac_step s s' → mac_inv s → mac_inv s' ∧ keeps s s'.
Proof.
  intros Hs Hi. inversion_clear Hs as [sid trees ins Hsid Hins|sid|sid ws key now Hk Ho|key|now Hb Hl Hc|d f Hd|l].
  - destruct (CreateSessionBinding sid trees ins s) as [[covs|e] s1] eqn:E; simpl.
    + apply create_ok in E as (? & ? & _); [|done..]. split; [done|by apply grows_keeps].
    + apply create_err in E; [|done..]. split; [|by apply frame_keeps].
      eapply inv_frame; [|exact E|done]. intros b. apply keep_bound.
  - by apply release_session_spec.
  - destruct (acquire_spec sid ws key now s Hi Hk Ho) as [H Hw]. split; [done|]. intros b _. by rewrite Hw.
  - by apply release_lease_spec.
  - destruct (ReconcileLiveSessions now s) as [r s1] eqn:E. simpl. by apply reconcile_spec in E as (? & ? & _).
  - split; [by apply inv_with_db|by intros b _].
  - split; [|by intros b _]. by destruct Hi as [H1 H2 H3 H4 H5 H6].
Qed.

Lemma init_inv w d f :
  (∀ b, operator_owned b → mac_boundaries d !! (backend, b) = None) → mac_inv (newSessionMACCoordinator w d f).
Proof.
  intros Hr. split; simpl; try done.
  intros b [(k & cs & c & Hk & _)|(k & cs & c & Hk & _)]; simpl in Hk; by rewrite lookup_empty in Hk.
Qed.

Inductive mac_reach s : mac W → Prop :=
  | mac_reach_refl : mac_reach s s
  | mac_reach_step s1 s2 : mac_reach s s1 → mac_step s1 s2 → mac_reach s s2.

Lemma reach_inv s s' : mac_reach s s' → mac_inv s → mac_inv s'.
Proof. induction 1 as [|s1 s2 _ IH Hs]; [done|]. intros Hi. by eapply mac_step_spec, IH. Qed.

End theory.
