(* ===== verification/WorkspacePolicy.v ===== *)
(** * WorkspacePolicy: src/workspace_path_policy.go, src/fs_probe.go

    The host-path text grammar, the workspace-path policy and the
    canonicalisation of allowed roots and issued trees.  The host file system
    is a snapshot: what [os.Stat] and [filepath.EvalSymlinks] answer. *)
From S2P Require Import Prelude Filepath GoStrings.
Local Open Scope Z_scope.

(** ** The host *)

Inductive probe_error := not_exist | permission | other_errno.
#[export] Instance probe_error_eq_dec : EqDecision probe_error.
Proof. solve_decision. Defined.

Inductive file_mode := is_dir | is_regular | is_other.
#[export] Instance file_mode_eq_dec : EqDecision file_mode.
Proof. solve_decision. Defined.

Record host := mkHost {
  osStatFn : string → file_mode + probe_error;
  evalSymlinksFn : string → string + probe_error;
  getwd : option string;
  UserHomeDir : option string;
  EffectiveUID : Z;
}.

(** [filepath.Abs]. *)
Definition Abs (h : host) (p : string) : option string :=
  if IsAbs p then Some (Clean p)
  else match getwd h with Some wd => Some (Join [wd; p]) | None => None end.

(** [p[2:]] of a string that starts with "~/". *)
Definition drop2 (p : string) : string :=
  match p with String _ (String _ r) => r | _ => "" end.

(** src/config.go *)
Definition expandTilde (h : host) (path : string) : string :=
  if negb (String.prefix "~/" path) && bool_decide (path ≠ "~") then path
  else match UserHomeDir h with
       | None => path
       | Some home => if bool_decide (path = "~") then home else Join [home; drop2 path]
       end.

(** ** Probe diagnosis *)

Inductive admittedPathDiagnosis :=
  | admittedPathDoesNotExist | admittedPathDenied | admittedPathUnresolvable.

Definition diagnoseAdmittedPath (probeErr : probe_error) : admittedPathDiagnosis :=
  match probeErr with
  | not_exist => admittedPathDoesNotExist
  | permission => admittedPathDenied
  | other_errno => admittedPathUnresolvable
  end.

(** ** The text grammar *)

(** [unicode.IsControl]: the category Cc. *)
Definition IsControl (r : Z) : bool := in_range 0 31 r || in_range 127 159 r.

Definition validateHostPathText (path : string) : result unit :=
  if existsb (λ c, c =? 0) (runes path) then errorf "host path contains NUL" []
  else if existsb IsControl (runes path) then errorf "host path contains control character" []
  else Ok ().

(** ** The safety policy *)

Definition forbiddenSystemTrees : list string :=
  ["/bin"; "/boot"; "/dev"; "/etc"; "/lib"; "/lib32"; "/lib64"; "/libx32"; "/proc"; "/root";
   "/run"; "/sbin"; "/sys"; "/usr"; "/var"].

Definition forbiddenWideNamespaces : list string :=
  ["/home"; "/opt"; "/srv"; "/mnt"; "/media"; "/tmp"].

Definition adminWideNamespaceOverrides : list string := ["/home"; "/opt"].

Definition isAdminWideNamespaceOverride (ns : string) : bool :=
  existsb (λ allowed, bool_decide (ns = allowed)) adminWideNamespaceOverrides.

Fixpoint tree_check (trees : list string) (canonical : string) : result unit :=
  match trees with
  | [] => Ok ()
  | tree :: trees =>
      if bool_decide (canonical = tree) then errorf "workspace root is a forbidden system directory" []
      else if String.prefix (tree +:+ "/") canonical
      then errorf "workspace root is under forbidden system directory" []
      else tree_check trees canonical
  end.

Fixpoint namespace_check (uid : Z) (nss : list string) (canonical : string) : result unit :=
  match nss with
  | [] => Ok ()
  | ns :: nss =>
      if bool_decide (canonical = ns) then
        if (uid =? 0) && isAdminWideNamespaceOverride ns then namespace_check uid nss canonical
        else errorf "workspace root is too broad" []
      else namespace_check uid nss canonical
  end.

Definition validateWorkspacePathSafety (uid : Z) (canonical : string) : result unit :=
  _ ← validateHostPathText canonical;
  if bool_decide (canonical = "/") then errorf "workspace root cannot be the filesystem root /" []
  else
    _ ← tree_check forbiddenSystemTrees canonical;
    namespace_check uid forbiddenWideNamespaces canonical.

Definition validateWorkspacePathPolicy (uid : Z) (canonical : string) : result unit :=
  if bool_decide (canonical = "") then errorf "workspace root must be a non-empty path" []
  else
    _ ← validateHostPathText canonical;
    if negb (IsAbs canonical) then errorf "workspace root must be an absolute path" []
    else validateWorkspacePathSafety uid canonical.

(** ** Canonicalisation *)

Definition canonicalizeWorkspacePathForAdd (h : host) (path : string) : result string :=
  if bool_decide (path = "") then errorf "workspace root must be a non-empty path" []
  else
    _ ← validateHostPathText path;
    match Abs h (expandTilde h path) with
    | None => errorf "cannot resolve workspace root to absolute path" []
    | Some abs =>
        match osStatFn h abs with
        | inr not_exist => errorf "workspace root does not exist" []
        | inr _ => errorf "cannot stat workspace root" []
        | inl is_dir =>
            match evalSymlinksFn h abs with
            | inr _ => errorf "cannot resolve workspace root symlinks" []
            | inl canonical => _ ← validateWorkspacePathSafety (EffectiveUID h) canonical; Ok canonical
            end
        | inl _ => errorf "workspace root is not a directory" []
        end
    end.

Definition canonicalizeIssuedTreePathForAdd (h : host) (path : string) : result string :=
  if bool_decide (path = "") then errorf "issued tree must be a non-empty path" []
  else
    _ ← validateHostPathText path;
    if negb (IsAbs path) then errorf "issued tree is not an absolute host path" []
    else match osStatFn h path with
         | inr not_exist => errorf "issued tree does not exist" []
         | inr _ => errorf "cannot stat issued tree" []
         | inl is_other => errorf "issued tree is not a directory or regular file" []
         | inl _ =>
             match evalSymlinksFn h path with
             | inr _ => errorf "cannot resolve issued tree symlinks" []
             | inl canonical => _ ← validateWorkspacePathSafety (EffectiveUID h) canonical; Ok canonical
             end
         end.

(** ** Laws *)

(** No rune of the path is a control character. *)
Definition plain_text (path : string) : Prop := ∀ r, r ∈ runes path → IsControl r = false.

Lemma existsb_false {A} (f : A → bool) l : existsb f l = false ↔ ∀ x, x ∈ l → f x = false.
Proof.
  induction l as [|y l IH]; simpl; [split; [by intros _ x ?%not_elem_of_nil|done]|].
  rewrite orb_false_iff, IH. split.
  - intros [H1 H2] x [->|Hx]%elem_of_cons; auto.
  - intros H. split; [apply H; by left|intros x Hx; apply H; by right].
Qed.

Lemma text_ok path : validateHostPathText path = Ok () ↔ plain_text path.
Proof.
  unfold validateHostPathText, plain_text.
  destruct (existsb (λ c, c =? 0) (runes path)) eqn:E0.
  - split; [done|]. intros H. apply existsb_exists in E0 as (c & Hc & E).
    apply Z.eqb_eq in E as ->. apply list_elem_of_In in Hc. by apply H in Hc.
  - destruct (existsb IsControl (runes path)) eqn:E; [split; [done|]|].
    + intros H. apply existsb_exists in E as (c & Hc & E). apply list_elem_of_In in Hc.
      by rewrite (H c Hc) in E.
    + by rewrite <-existsb_false.
Qed.

(** A single proper component below the root: every forbidden tree and
    namespace is one. *)
Definition top_level (t : string) : Prop := ∃ w, proper w ∧ t = render [w].

Definition top_levelb (t : string) : bool :=
  match t with
  | String c w => bool_decide (c = Separator) && no_sep w &&
                  bool_decide (w ≠ "" ∧ w ≠ "." ∧ w ≠ "..")
  | _ => false
  end.

Lemma top_levelb_true t : top_levelb t = true → top_level t.
Proof.
  destruct t as [|c w]; simpl; [done|]. intros [[->%bool_decide_eq_true_1 Hw]%andb_true_iff (?&?&?)%bool_decide_eq_true_1]%andb_true_iff.
  exists w. by split_and!.
Qed.

Lemma join_sep_cons2 w l : l ≠ [] → join_sep (w :: l) = w +:+ String Separator (join_sep l).
Proof. by destruct l. Qed.

Lemma no_sep_prefix w s t : no_sep w = true → String.prefix (w +:+ "/") (s +:+ t) = true →
  no_sep s = true → (t = "" ∨ ∃ t', t = String Separator t') → s = w ∧ t ≠ "".
Proof.
  revert s. induction w as [|a w IH]; intros [|b s]; cbn.
  - intros _ H _ [->|[t' ->]]; [done|]. by split.
  - intros _. destruct (ascii_dec "/" b) as [<-|]; [|done]. intros _ H _.
    unfold no_sep in H. simpl in H. done.
  - intros Hw H _ [->|[t' ->]]; [done|]. cbn in H. destruct (ascii_dec a Separator) as [->|]; [|done]. done.
  - destruct (ascii_dec a b) as [->|]; [|done]. unfold no_sep. simpl.
    intros [_ Hw]%andb_true_iff H [_ Hs]%andb_true_iff Ht. destruct (IH s Hw H Hs Ht) as [-> ?]. done.
Qed.

(** On canonical paths the code's string test is component containment. *)
Lemma tree_prefix_within t p :
  top_level t → canonical p = true →
  (p = t ∨ String.prefix (t +:+ "/") p = true) ↔ pathWithin t p = true.
Proof.
  intros (w & Hw & ->) Hp. destruct (canonical_inv p Hp) as [Ep Hpr].
  assert (Hfw : Forall proper [w]) by (by apply Forall_singleton).
  rewrite pathWithin_spec by (done || by apply canonical_render).
  rewrite bool_decide_eq_true, comps_render by done.
  rewrite Ep at 1 2. set (l := comps p) in *. clearbody l. clear Hp Ep. split.
  - intros [H|H].
    + apply render_inj in H; [|done|done]. by rewrite H.
    + unfold render in H. simpl in H. destruct l as [|x l].
      { simpl in H. destruct w as [|a w]; [by destruct Hw as (_ & ? & _)|]. done. }
      apply Forall_cons in Hpr as [Hx Hl].
      destruct (no_sep_prefix w x (match l with [] => "" | _ => String Separator (join_sep l) end)) as [-> Hne].
      * apply Hw.
      * destruct l; simpl in *; [by rewrite str_app_nil_r|done].
      * apply Hx.
      * destruct l; [by left|right; eauto].
      * by exists l.
  - intros [k ->]. destruct k as [|y k]; [by left|right].
    change ([w] ++ y :: k) with (w :: y :: k). unfold render. rewrite (join_sep_cons2 w (y :: k)) by discriminate. cbn.
    apply str_prefix_spec. exists (join_sep (y :: k)). rewrite str_app_assoc. done.
Qed.

Lemma forbidden_top_level : Forall top_level forbiddenSystemTrees.
Proof. apply Forall_forall. intros t Ht. apply top_levelb_true. revert t Ht. apply Forall_forall. by vm_compute; repeat constructor. Qed.

Lemma tree_check_ok trees p :
  Forall top_level trees → canonical p = true →
  tree_check trees p = Ok () ↔ ∀ t, t ∈ trees → pathWithin t p = false.
Proof.
  intros Ht Hp. induction trees as [|t trees IH]; simpl; [split; [by intros _ t ?%not_elem_of_nil|done]|].
  apply Forall_cons in Ht as [Ht Hts]. specialize (IH Hts). pose proof (tree_prefix_within t p Ht Hp) as Hw.
  case_bool_decide as E.
  { split; [done|]. intros H. specialize (H t ltac:(by left)). destruct Hw as [Hw _]. rewrite Hw in H by auto. done. }
  destruct (String.prefix (t +:+ "/") p) eqn:Ep.
  { split; [done|]. intros H. specialize (H t ltac:(by left)). destruct Hw as [Hw _]. rewrite Hw in H by auto. done. }
  rewrite IH. split.
  - intros H u [->|Hu]%elem_of_cons; [|auto]. apply not_true_is_false. intros H'. apply Hw in H' as [|]; congruence.
  - intros H u Hu. apply H. by right.
Qed.

Lemma namespace_check_ok uid nss p :
  namespace_check uid nss p = Ok () ↔ (p ∈ nss → uid = 0 ∧ isAdminWideNamespaceOverride p = true).
Proof.
  induction nss as [|ns nss IH]; simpl; [split; [by intros _ ?%not_elem_of_nil|done]|].
  rewrite elem_of_cons. case_bool_decide as E.
  - subst ns. destruct (Z.eqb_spec uid 0), (isAdminWideNamespaceOverride p) eqn:Eo; simpl;
      try (split; [done|]; intros H; destruct H as [? ?]; by auto).
    rewrite IH. split; [by auto|]. intros _ _. done.
  - rewrite IH. split; [intros H [?|?]; [done|auto]|auto].
Qed.
