(* ===== verification/Credential.v ===== *)
(** * Credential: bearer credentials and the operator authority

    src/credential.go, src/launcher_credential.go, src/credential_rotation.go
    and src/operator_auth.go: issue, authenticate, revoke, delete and the
    two-phase rotation whose commit follows the delivery of the new bearer.
    The random draws are arguments ([None] is a failing [rand.Read]); times
    are Unix seconds. *)
From S2P Require Import Prelude Filepath AllowedRoots Sha256 Database.
Local Open Scope Z_scope.

(** [SELECT ... LIMIT 1] over a keyed table, by a predicate. *)
Definition find_row {A} (P : string → A → bool) (t : gmap string A) : option (string * A) :=
  head (filter (λ kv : string * A, Is_true (P kv.1 kv.2)) (map_to_list t)).

Definition hashCredentialToken (token : string) : string := sha256_hex token.

Definition credentialTokenPrefix : string := "dhc_".

(** [generateCredentialToken] from 32 random bytes, hex encoded. *)
Definition generateCredentialToken (draw : option string) : result string :=
  match draw with
  | None => errorf "cannot generate random bytes" []
  | Some hex => Ok (credentialTokenPrefix +:+ hex)
  end.

Definition generateCredentialID (draw : option string) : result string :=
  match draw with
  | None => errorf "cannot generate random bytes" []
  | Some hex => Ok ("dhcr_" +:+ hex)
  end.

Definition db_result {A} (r : result A) : DB A := λ d f, (r, d, f).

(** ** The credentials table *)

Definition unique_error : error := mkError "UNIQUE constraint failed" [].
Definition constraint_error : error := mkError "constraint failed" [].

(** [isSQLiteUniqueError]. *)
Definition isSQLiteUniqueError (e : error) : bool := bool_decide (err_text e = "UNIQUE constraint failed").

Definition token_hash_taken (h : string) (t : gmap string credential_row) : bool :=
  existsb (λ kv, bool_decide (c_token_hash kv.2 = h)) (map_to_list t).

(** The concrete-owner CHECK of the table. *)
Definition owner_check (r : credential_row) : bool :=
  match c_principal_id r, c_launcher_id r, c_name r with
  | Some _, None, Some _ => true
  | None, Some _, None => true
  | _, _, _ => false
  end.

Definition active_name_taken (r : credential_row) (t : gmap string credential_row) : bool :=
  existsb (λ kv, bool_decide (c_principal_id kv.2 = c_principal_id r ∧ is_Some (c_principal_id r) ∧
                              c_name kv.2 = c_name r ∧ c_revoked_at kv.2 = None)) (map_to_list t).

Definition launcher_taken (r : credential_row) (t : gmap string credential_row) : bool :=
  existsb (λ kv, bool_decide (c_launcher_id kv.2 = c_launcher_id r ∧ is_Some (c_launcher_id r)))
    (map_to_list t).

(** [INSERT INTO credentials] with the constraints of the DDL. *)
Definition insert_credential (id : string) (r : credential_row) : DB unit :=
  stmt (λ d,
    let t := credentials d in
    if negb (owner_check r) then Err constraint_error
    else if bool_decide (is_Some (t !! id)) || token_hash_taken (c_token_hash r) t
            || active_name_taken r t || launcher_taken r t then Err unique_error
    else if match c_principal_id r with Some p => bool_decide (principals d !! p = None) | None => false end
         then Err constraint_error
    else if match c_launcher_id r with Some l => bool_decide (launchers d !! l = None) | None => false end
         then Err constraint_error
    else Ok ((), set_credentials (<[id := r]> t) d)).

(** ** Projections *)

Record PrincipalCredential := mkPrincipalCredential {
  pc_ID : string; pc_PrincipalName : string; pc_Name : string; pc_CreatedAt : Z; pc_RevokedAt : option Z }.

Record launcherCredential := mkLauncherCredential {
  lc_ID : string; lc_CreatedAt : Z; lc_RevokedAt : option Z }.

(** ** Principal credentials *)

Definition insertPrincipalCredentialInTx (token_draw id_draw : option string) (now : Z)
    (principalID : Z) (principalName name : string) : DB (PrincipalCredential * string) :=
  if bool_decide (name = "") then db_fail "credential name is required" [ErrInvalidPrincipalCredentialName]
  else
    token ← db_result (generateCredentialToken token_draw);
    credID ← db_result (generateCredentialID id_draw);
    _ ← (λ d f, match insert_credential credID
                        (mkCredential (Some principalID) None (Some name) (hashCredentialToken token) now None) d f with
                | (Err e, d, f) =>
                    ((if isSQLiteUniqueError e
                      then errorf "credential already exists for principal" [ErrPrincipalCredentialExists]
                      else Err (wrap_error "cannot create credential" [] e)), d, f)
                | r => r
                end) : DB unit;
    mret (mkPrincipalCredential credID principalName name now None, token).

Definition findPrincipalIDByUsernameInTx (username : string) : DB Z :=
  row ← wrapf "cannot find principal" []
          (query (λ d, head (filter (λ kv : Z * principal_row, p_username kv.2 = username)
                               (map_to_list (principals d)))));
  match row with
  | None => db_fail "principal not found" [ErrPrincipalNotFound]
  | Some (id, _) => mret id
  end.

Definition findPrincipalIDByUsername (username : string) : DB Z :=
  if bool_decide (username = "") then db_fail "username is required" [ErrPrincipalNotFound]
  else findPrincipalIDByUsernameInTx username.

Definition createPrincipalCredential (token_draw id_draw : option string) (now : Z)
    (username name : string) : DB (PrincipalCredential * string) :=
  transaction "cannot begin transaction" "cannot commit credential creation"
    (principalID ← findPrincipalIDByUsernameInTx username;
     insertPrincipalCredentialInTx token_draw id_draw now principalID username name).

Definition set_revoked (now : Z) (r : credential_row) : credential_row :=
  mkCredential (c_principal_id r) (c_launcher_id r) (c_name r) (c_token_hash r) (c_created_at r) (Some now).

(** One [UPDATE credentials SET ... WHERE id = ? AND P], with its row count. *)
Definition update_credential (id : string) (P : credential_row → bool)
    (u : credential_row → credential_row) : DB bool :=
  stmt (λ d, match credentials d !! id with
             | Some r =>
                 if P r then
                   if bool_decide (c_token_hash (u r) ≠ c_token_hash r) && token_hash_taken (c_token_hash (u r)) (credentials d)
                   then Err unique_error
                   else Ok (true, set_credentials (<[id := u r]> (credentials d)) d)
                 else Ok (false, d)
             | None => Ok (false, d)
             end).

Definition is_active (r : credential_row) : bool := bool_decide (c_revoked_at r = None).
Definition is_principal_owned (r : credential_row) : bool := bool_decide (is_Some (c_principal_id r)).

Definition revokePrincipalCredential (now : Z) (id : string) : DB bool :=
  if bool_decide (id = "") then db_fail "credential id is required" [ErrCredentialNotFound]
  else
    affected ← wrapf "cannot revoke credential" []
                 (update_credential id (λ r, is_active r && is_principal_owned r) (set_revoked now));
    if affected : bool then mret true
    else
      exists_ ← wrapf "cannot check credential existence" []
                  (query (λ d, match credentials d !! id with Some r => is_principal_owned r | None => false end));
      if exists_ : bool then mret false else db_fail "credential not found" [ErrCredentialNotFound].

(** ** Rotation *)

(** The active Principal credential of a name, and its current hash. *)
Definition principal_target (principalID : Z) (name : string) (active : bool) (d : db)
    : option (string * credential_row) :=
  find_row (λ _ r, bool_decide (c_principal_id r = Some principalID ∧ c_name r = Some name ∧
                                c_launcher_id r = None ∧ is_Some (principals d !! principalID)) &&
                   (negb active || is_active r)) (credentials d).

Definition preparePrincipalCredentialRotation (token_draw : option string) (principalID : Z) (name : string)
    : DB (PrincipalCredential * string * string * string) :=
  row ← wrapf "cannot find credential" []
          (query (λ d, match principal_target principalID name true d with
                       | Some (id, r) => Some (id, r, default "" (p_username <$> principals d !! principalID))
                       | None => None
                       end));
  match row with
  | None =>
      history ← wrapf "cannot check credential history" []
                  (query (λ d, bool_decide (is_Some (principal_target principalID name false d))));
      if history : bool then db_fail "credential is revoked" [ErrCredentialRevoked]
      else db_fail "credential not found for principal" [ErrCredentialNotFound]
  | Some (credID, r, principalName) =>
      token ← db_result (generateCredentialToken token_draw);
      mret (mkPrincipalCredential credID principalName name (c_created_at r) None,
            c_token_hash r, token, hashCredentialToken token)
  end.

Definition set_hash (h : string) (r : credential_row) : credential_row :=
  mkCredential (c_principal_id r) (c_launcher_id r) (c_name r) h (c_created_at r) (c_revoked_at r).

Definition replacePrincipalCredentialTokenHashInTx (credentialID : string) (principalID : Z)
    (expectedHash newHash : string) : DB unit :=
  affected ← wrapf "cannot rotate credential" []
    (update_credential credentialID
       (λ r, bool_decide (c_principal_id r = Some principalID ∧ c_launcher_id r = None) && is_active r &&
             bool_decide (c_token_hash r = expectedHash))
       (set_hash newHash));
  if affected : bool then mret ()
  else db_fail "credential changed during rotation" [ErrCredentialRotationConflict].

(** The shared rotation transaction.  [deliver] says whether writing the
    serialized response succeeded; the result pairs the outcome with whether
    the response was written.  A commit that fails is reported as unknown: it
    may have taken effect or not, which the next bit of the oracle decides. *)
Definition commitCredentialRotationAfterDelivery (replace : DB unit) (deliver : bool)
    : db → list bool → (result unit * bool) * db * list bool := λ d f,
  match stmt (λ d, Ok ((), d)) d f with
  | (Err e, _, f) => ((Err (wrap_error "cannot begin credential rotation transaction" [] e), false), d, f)
  | (Ok _, _, f) =>
      match replace d f with
      | (Err e, _, f) => ((Err e, false), d, f)
      | (Ok _, d', f) =>
          if negb deliver then
            ((errorf "credential rotation response delivery failed" [ErrCredentialRotationDelivery], false), d, f)
          else match stmt (λ d, Ok ((), d)) d' f with
               | (Err _, _, f) =>
                   let landed := match f with true :: _ => true | _ => false end in
                   ((errorf "credential rotation commit outcome unknown" [ErrCredentialRotationCommitUnknown], true),
                    (if landed then d' else d), tail f)
               | (Ok _, d', f) => ((Ok (), true), d', f)
               end
      end
  end.

Definition commitPrincipalCredentialRotationAfterDelivery (credentialID : string) (principalID : Z)
    (expectedHash newHash : string) (deliver : bool) :=
  commitCredentialRotationAfterDelivery
    (replacePrincipalCredentialTokenHashInTx credentialID principalID expectedHash newHash) deliver.

(** A rotation outside HTTP: the delivery step does nothing. *)
Definition rotate_no_delivery (commit : db → list bool → (result unit * bool) * db * list bool) : DB unit :=
  λ d f, let '(r, _, d, f) := commit d f in (r, d, f).

Definition rotatePrincipalCredential (token_draw : option string) (principalID : Z) (name : string)
    : DB (PrincipalCredential * string) :=
  prepared ← preparePrincipalCredentialRotation token_draw principalID name;
  let '(cred, expectedHash, token, newHash) := prepared in
  _ ← rotate_no_delivery
        (commitPrincipalCredentialRotationAfterDelivery (pc_ID cred) principalID expectedHash newHash true);
  mret (cred, token).

(** ** Launcher credentials *)

Definition issueLauncherCredentialInTx (token_draw id_draw : option string) (now : Z) (launcherID : string)
    : DB (launcherCredential * string) :=
  token ← db_result (generateCredentialToken token_draw);
  credID ← db_result (generateCredentialID id_draw);
  _ ← (λ d f, match insert_credential credID
                      (mkCredential None (Some launcherID) None (hashCredentialToken token) now None) d f with
              | (Err e, d, f) =>
                  ((if isSQLiteUniqueError e
                    then errorf "launcher already has a credential" [ErrLauncherCredentialExists]
                    else Err (wrap_error "cannot issue launcher credential" [] e)), d, f)
              | r => r
              end) : DB unit;
  mret (mkLauncherCredential credID now None, token).

Definition issueLauncherCredential (token_draw id_draw : option string) (now : Z) (launcherID : string)
    : DB (launcherCredential * string) :=
  transaction "cannot begin transaction" "cannot commit launcher credential issue"
    (found ← wrapf "cannot check launcher" [] (query (λ d, bool_decide (is_Some (launchers d !! launcherID))));
     if found : bool then issueLauncherCredentialInTx token_draw id_draw now launcherID
     else db_fail "launcher not found" [ErrLauncherNotFound]).

Definition launcher_target (launcherID : string) (d : db) : option (string * credential_row) :=
  find_row (λ _ r, bool_decide (c_launcher_id r = Some launcherID)) (credentials d).

Definition launcher_projection (row : string * credential_row) : launcherCredential :=
  mkLauncherCredential row.1 (c_created_at row.2) (c_revoked_at row.2).

Definition scanLauncherCredential (row : option (string * credential_row)) : DB launcherCredential :=
  match row with
  | None => db_fail "launcher credential not found" [ErrLauncherCredentialNotFound]
  | Some row => mret (launcher_projection row)
  end.

Definition findLauncherCredential (launcherID : string) : DB launcherCredential :=
  row ← wrapf "cannot find launcher credential" [] (query (launcher_target launcherID));
  scanLauncherCredential row.

Definition prepareLauncherCredentialRotation (token_draw : option string)
    (launcherID expectedCredentialID : string) : DB (launcherCredential * string * string * string) :=
  row ← wrapf "cannot find launcher credential" []
    (query (λ d, if bool_decide (expectedCredentialID = "") then launcher_target launcherID d
                 else match credentials d !! expectedCredentialID with
                      | Some r => if bool_decide (c_launcher_id r = Some launcherID)
                                  then Some (expectedCredentialID, r) else None
                      | None => None
                      end));
  match row with
  | None => db_fail "launcher credential not found" [ErrLauncherCredentialNotFound]
  | Some (credID, r) =>
      token ← db_result (generateCredentialToken token_draw);
      mret (launcher_projection (credID, r), c_token_hash r, token, hashCredentialToken token)
  end.

Definition replaceLauncherCredentialTokenHashInTx (launcherID credentialID expectedHash newHash : string)
    : DB unit :=
  affected ← wrapf "cannot rotate launcher credential" []
    (update_credential credentialID
       (λ r, bool_decide (c_launcher_id r = Some launcherID) && is_active r &&
             bool_decide (c_token_hash r = expectedHash))
       (set_hash newHash));
  if affected : bool then mret ()
  else db_fail "launcher credential changed during rotation" [ErrCredentialRotationConflict].

Definition commitLauncherCredentialRotationAfterDelivery (launcherID credentialID expectedHash newHash : string)
    (deliver : bool) :=
  commitCredentialRotationAfterDelivery
    (replaceLauncherCredentialTokenHashInTx launcherID credentialID expectedHash newHash) deliver.

Definition rotateLauncherCredentialTargeted (token_draw : option string) (launcherID expectedCredentialID : string)
    : DB (launcherCredential * string) :=
  prepared ← prepareLauncherCredentialRotation token_draw launcherID expectedCredentialID;
  let '(cred, expectedHash, token, newHash) := prepared in
  _ ← rotate_no_delivery
        (commitLauncherCredentialRotationAfterDelivery launcherID (lc_ID cred) expectedHash newHash true);
  mret (cred, token).

Definition rotateLauncherCredential (token_draw : option string) (launcherID : string) :=
  rotateLauncherCredentialTargeted token_draw launcherID "".
Definition rotateLauncherCredentialExact (token_draw : option string) (launcherID expectedCredentialID : string) :=
  rotateLauncherCredentialTargeted token_draw launcherID expectedCredentialID.

Definition deleteLauncherCredential (launcherID : string) : DB launcherCredential :=
  transaction "cannot begin transaction" "cannot commit launcher credential delete"
    (row ← query (launcher_target launcherID);
     cred ← scanLauncherCredential row;
     affected ← wrapf "cannot delete launcher credential" []
       (stmt (λ d, Ok (bool_decide (is_Some (launcher_target launcherID d)),
                       set_credentials (filter (λ kv : string * credential_row, c_launcher_id kv.2 ≠ Some launcherID)
                                          (credentials d)) d)));
     if affected : bool then mret cred
     else db_fail "launcher credential not found" [ErrLauncherCredentialNotFound]).

(** ** Authentication *)

Record PrincipalCredentialAuth := mkPrincipalAuth {
  pa_PrincipalID : Z; pa_PrincipalName : string; pa_CredentialID : string }.
Record LauncherCredentialAuth := mkLauncherAuth {
  la_LauncherID : string; la_CredentialID : string; la_PrincipalID : Z;
  la_PrincipalName : string; la_LauncherName : string }.

Record credentialAuthResult := mkAuthResult {
  ar_Principal : option PrincipalCredentialAuth;
  ar_Launcher : option LauncherCredentialAuth }.

Definition authenticatePrincipalCredentialOwner (credID : string) (principalID : Z) : DB credentialAuthResult :=
  row ← wrapf "cannot authenticate credential" [] (query (λ d, principals d !! principalID));
  match row with
  | None => db_fail "principal not found" [ErrCredentialNotFound]
  | Some p =>
      if negb (p_enabled p) then db_fail "principal disabled" [ErrPrincipalDisabled]
      else mret (mkAuthResult (Some (mkPrincipalAuth principalID (p_username p) credID)) None)
  end.

(** A Launcher joined with its Principal. *)
Definition launcher_join (launcherID : string) (d : db) : option (launcher_row * principal_row) :=
  match launchers d !! launcherID with
  | Some l => match principals d !! l_principal_id l with Some p => Some (l, p) | None => None end
  | None => None
  end.

Definition authenticateLauncherCredentialOwner (credID launcherID : string) : DB credentialAuthResult :=
  row ← wrapf "cannot authenticate credential" [] (query (launcher_join launcherID));
  match row with
  | None => db_fail "credential not found" [ErrCredentialNotFound]
  | Some (l, p) =>
      if negb (l_enabled l) then db_fail "launcher disabled" [ErrLauncherDisabled]
      else if negb (p_enabled p) then db_fail "principal disabled" [ErrPrincipalDisabled]
      else mret (mkAuthResult None
                   (Some (mkLauncherAuth launcherID credID (l_principal_id l) (p_username p) (l_name l))))
  end.

Definition credential_by_token (token : string) (d : db) : option (string * credential_row) :=
  find_row (λ _ r, bool_decide (c_token_hash r = hashCredentialToken token)) (credentials d).

Definition authenticateCredential (token : string) : DB credentialAuthResult :=
  row ← wrapf "cannot authenticate credential" [] (query (credential_by_token token));
  match row with
  | None => db_fail "credential not found" [ErrCredentialNotFound]
  | Some (credID, r) =>
      match c_revoked_at r with
      | Some _ => db_fail "credential revoked" [ErrCredentialRevoked]
      | None =>
          match c_launcher_id r, c_principal_id r with
          | Some l, _ => authenticateLauncherCredentialOwner credID l
          | None, None => db_fail "credential not found" [ErrCredentialNotFound]
          | None, Some p => authenticatePrincipalCredentialOwner credID p
          end
      end
  end.

(** ** The operator authority (src/operator_auth.go) *)

Inductive operatorAuthorityClass :=
  | operatorAuthorityInvalid | operatorAuthorityAdmin | operatorAuthorityPrincipal | operatorAuthorityLauncher.
#[export] Instance operatorAuthorityClass_eq_dec : EqDecision operatorAuthorityClass.
Proof. solve_decision. Defined.

Record operatorAuthority := mkAuthority {
  auth_class : operatorAuthorityClass;
  auth_principal : option PrincipalCredentialAuth;
  auth_launcher : option LauncherCredentialAuth }.

(** [validate]; [None] is the nil authority. *)
Definition validate (a : option operatorAuthority) : result unit :=
  match a with
  | None => errorf "nil operator authority" []
  | Some a =>
      match auth_class a with
      | operatorAuthorityAdmin =>
          if bool_decide (is_Some (auth_principal a)) || bool_decide (is_Some (auth_launcher a))
          then errorf "admin authority carries an owner projection" [] else Ok ()
      | operatorAuthorityPrincipal =>
          if negb (bool_decide (is_Some (auth_principal a))) then errorf "principal authority carries no principal owner" []
          else if bool_decide (is_Some (auth_launcher a)) then errorf "principal authority carries a launcher owner" []
          else Ok ()
      | operatorAuthorityLauncher =>
          if negb (bool_decide (is_Some (auth_launcher a))) then errorf "launcher authority carries no launcher owner" []
          else if bool_decide (is_Some (auth_principal a)) then errorf "launcher authority carries a principal owner" []
          else Ok ()
      | operatorAuthorityInvalid => errorf "unknown operator authority class" []
      end
  end.

(** [matchAdminToken] against the current admin token hash. *)
Definition matchAdminToken (currentHash token : string) : bool := bool_decide (sha256_hex token = currentHash).

Inductive credentialAuthFailure :=
  | credentialAuthNotFound | credentialAuthRevoked | credentialAuthPrincipalDisabled
  | credentialAuthLauncherDisabled | credentialAuthDatabaseError.
#[export] Instance credentialAuthFailure_eq_dec : EqDecision credentialAuthFailure.
Proof. solve_decision. Defined.

Definition classifyCredentialAuthFailure (e : error) : credentialAuthFailure :=
  if errors_is e ErrCredentialNotFound then credentialAuthNotFound
  else if errors_is e ErrCredentialRevoked then credentialAuthRevoked
  else if errors_is e ErrPrincipalDisabled then credentialAuthPrincipalDisabled
  else if errors_is e ErrLauncherDisabled then credentialAuthLauncherDisabled
  else credentialAuthDatabaseError.

Definition isExpectedAuthFailure (f : credentialAuthFailure) : bool :=
  bool_decide (f ≠ credentialAuthDatabaseError).

Definition checked (a : operatorAuthority) : DB operatorAuthority :=
  _ ← db_result (validate (Some a)); mret a.

Definition authenticateOperatorToken (adminHash token : string) : DB operatorAuthority :=
  if matchAdminToken adminHash token then checked (mkAuthority operatorAuthorityAdmin None None)
  else
    res ← authenticateCredential token;
    match ar_Principal res, ar_Launcher res with
    | Some p, _ => checked (mkAuthority operatorAuthorityPrincipal (Some p) None)
    | None, Some l => checked (mkAuthority operatorAuthorityLauncher None (Some l))
    | None, None => db_fail "credential authentication returned no concrete owner" []
    end.

(** ** lemmas on keyed tables

    What the row lookup by a predicate finds, and the existence tests over a
    table. *)

(** ** Row lookup *)

Lemma find_row_Some {A} (P : string → A → bool) t i a :
  find_row P t = Some (i, a) → t !! i = Some a ∧ P i a = true.
Proof.
  unfold find_row. destruct (filter _ _) as [|x l] eqn:E; [done|]. intros [= ->].
  assert (H : (i, a) ∈ filter (λ kv : string * A, Is_true (P kv.1 kv.2)) (map_to_list t)) by (rewrite E; by left).
  apply list_elem_of_filter in H as [HP Hin]. apply elem_of_map_to_list in Hin. split; [done|].
  by apply Is_true_true in HP.
Qed.

Lemma find_row_None {A} (P : string → A → bool) t i a :
  find_row P t = None → t !! i = Some a → P i a = false.
Proof.
  unfold find_row. destruct (filter _ _) as [|x l] eqn:E; [|done]. intros _ Hi.
  destruct (P i a) eqn:HP; [|done]. assert (H : (i, a) ∈ ([] : list (string * A))); [|by apply not_elem_of_nil in H].
  rewrite <-E. apply list_elem_of_filter. simpl. rewrite HP. split; [done|]. by apply elem_of_map_to_list.
Qed.

Lemma find_row_unique {A} (P : string → A → bool) t i a :
  t !! i = Some a → P i a = true → (∀ j b, t !! j = Some b → P j b = true → j = i) → find_row P t = Some (i, a).
Proof.
  intros Hi HP Hu. destruct (find_row P t) as [[j b]|] eqn:E.
  - apply find_row_Some in E as [Hj HPj]. pose proof (Hu _ _ Hj HPj) as ->. by simplify_eq.
  - by rewrite (find_row_None _ _ _ _ E Hi) in HP.
Qed.

Lemma existsb_rows {A} (P : string * A → bool) (t : gmap string A) :
  existsb P (map_to_list t) = true ↔ ∃ i a, t !! i = Some a ∧ P (i, a) = true.
Proof.
  rewrite existsb_exists. split.
  - intros ([i a] & Hin & HP). apply list_elem_of_In, elem_of_map_to_list in Hin. eauto.
  - intros (i & a & Hi & HP). exists (i, a). split; [|done]. by apply list_elem_of_In, elem_of_map_to_list.
Qed.

Lemma existsb_rows_false {A} (P : string * A → bool) (t : gmap string A) :
  existsb P (map_to_list t) = false ↔ ∀ i a, t !! i = Some a → P (i, a) = false.
Proof.
  rewrite <-not_true_iff_false, existsb_rows. split.
  - intros H i a Hi. apply not_true_iff_false. intros HP. apply H. eauto.
  - intros H (i & a & Hi & HP). by rewrite (H _ _ Hi) in HP.
Qed.
