(* ===== verification/CredentialSpec.v ===== *)
(** * CredentialSpec: what the credential store promises

    A bearer authenticates exactly the active credential that stores its hash
    and only while its owner is enabled; a rotation that commits moves
    authentication from the old bearer to the delivered one and one that fails
    changes nothing; of two rotations prepared from one state at most one
    commits. *)
From S2P Require Import Prelude Filepath AllowedRoots AllowedRootsTheory Sha256 Database Credential.
Local Open Scope Z_scope.

Implicit Types (d : db) (f : list bool) (r : credential_row).

(** ** The invariant of the table *)

Record cred_wf (t : gmap string credential_row) : Prop := {
  cw_hash : ∀ i j r r', t !! i = Some r → t !! j = Some r' → c_token_hash r = c_token_hash r' → i = j;
  cw_owner : ∀ i r, t !! i = Some r → owner_check r = true;
  cw_launcher : ∀ i j r r' l, t !! i = Some r → t !! j = Some r' →
    c_launcher_id r = Some l → c_launcher_id r' = Some l → i = j;
}.

Lemma owner_check_inv r : owner_check r = true →
  (∃ p n, c_principal_id r = Some p ∧ c_launcher_id r = None ∧ c_name r = Some n) ∨
  (∃ l, c_principal_id r = None ∧ c_launcher_id r = Some l ∧ c_name r = None).
Proof. unfold owner_check. destruct (c_principal_id r), (c_launcher_id r), (c_name r); naive_solver. Qed.

(** ** Authentication *)

(** The owner a token proves in a database state. *)
Definition credential_owner (d : db) (token : string) (res : credentialAuthResult) : Prop :=
  ∃ id r, credentials d !! id = Some r ∧ c_token_hash r = hashCredentialToken token ∧ c_revoked_at r = None ∧
  ((∃ pid p, c_launcher_id r = None ∧ c_principal_id r = Some pid ∧ principals d !! pid = Some p ∧
      p_enabled p = true ∧ res = mkAuthResult (Some (mkPrincipalAuth pid (p_username p) id)) None) ∨
   (∃ lid l p, c_launcher_id r = Some lid ∧ launchers d !! lid = Some l ∧ l_enabled l = true ∧
      principals d !! l_principal_id l = Some p ∧ p_enabled p = true ∧
      res = mkAuthResult None (Some (mkLauncherAuth lid id (l_principal_id l) (p_username p) (l_name l))))).

(** The row that stores the hash of a token. *)
Definition token_row (d : db) (token : string) (id : string) (r : credential_row) : Prop :=
  credentials d !! id = Some r ∧ c_token_hash r = hashCredentialToken token.

(** Why a token proves no owner. *)
Definition refusal_cause (d : db) (token : string) (c : credentialAuthFailure) : Prop :=
  match c with
  | credentialAuthNotFound =>
      (∀ id r, ¬ token_row d token id r) ∨
      ∃ id r, token_row d token id r ∧ c_revoked_at r = None ∧
        match c_launcher_id r, c_principal_id r with
        | Some lid, _ => launcher_join lid d = None
        | None, Some pid => principals d !! pid = None
        | None, None => True
        end
  | credentialAuthRevoked => ∃ id r, token_row d token id r ∧ is_Some (c_revoked_at r)
  | credentialAuthLauncherDisabled =>
      ∃ id r lid l p, token_row d token id r ∧ c_revoked_at r = None ∧ c_launcher_id r = Some lid ∧
        launcher_join lid d = Some (l, p) ∧ l_enabled l = false
  | credentialAuthPrincipalDisabled =>
      ∃ id r p, token_row d token id r ∧ c_revoked_at r = None ∧ p_enabled p = false ∧
        match c_launcher_id r, c_principal_id r with
        | Some lid, _ => ∃ l, launcher_join lid d = Some (l, p) ∧ l_enabled l = true
        | None, Some pid => principals d !! pid = Some p
        | None, None => False
        end
  | credentialAuthDatabaseError => False
  end.

Lemma cause_no_owner d token c res : cred_wf (credentials d) → refusal_cause d token c → ¬ credential_owner d token res.
Proof.
  intros Hwf Hc (j & r' & Hj & Hh' & Hr' & Ho).
  assert (Hrow : ∀ id r, token_row d token id r → r = r').
  { intros id r [Hi Hh]. assert (id = j) as -> by (eapply (cw_hash _ Hwf); [done..|congruence]). congruence. }
  assert (Hjoin : ∀ lid l p, launchers d !! lid = Some l → principals d !! l_principal_id l = Some p → launcher_join lid d = Some (l, p))
    by (intros lid l p H1 H2; unfold launcher_join; by rewrite H1, H2).
  assert (Hown : match c_launcher_id r', c_principal_id r' with
    | Some lid, _ => ∃ l p, launcher_join lid d = Some (l, p) ∧ l_enabled l = true ∧ p_enabled p = true
    | None, Some pid => ∃ p, principals d !! pid = Some p ∧ p_enabled p = true | None, None => False end).
  { destruct Ho as [(pid & p & -> & -> & ? & ? & _)|(lid & l & p & -> & ? & ? & ? & ? & _)]; eauto 10. }
  destruct c; simpl in Hc.
  - destruct Hc as [Hc|(id & r & ->%Hrow & _ & Hc)]; [by eapply Hc|].
    destruct (c_launcher_id r'), (c_principal_id r'); naive_solver congruence.
  - destruct Hc as (id & r & ->%Hrow & [? ?]). congruence.
  - destruct Hc as (id & r & p & ->%Hrow & _ & Hp & Hc).
    destruct (c_launcher_id r'), (c_principal_id r'); naive_solver congruence.
  - destruct Hc as (id & r & lid & l & p & ->%Hrow & _ & E & Hl & Hd). rewrite E in Hown. naive_solver congruence.
  - done.
Qed.

(** A token has one cause of refusal. *)
Lemma cause_unique d token c c' :
  cred_wf (credentials d) → refusal_cause d token c → refusal_cause d token c' → c = c'.
Proof.
  intros Hwf H H'. assert (Hrow : ∀ i r j r', token_row d token i r → token_row d token j r' → r = r').
  { intros i r j r' [Hi Hh] [Hj Hh']. assert (i = j) as -> by (eapply (cw_hash _ Hwf); [done..|congruence]). congruence. }
  destruct c, c'; try done; simpl in H, H';
    repeat match goal with
    | H : _ ∨ _ |- _ => destruct H | H : ∃ _, _ |- _ => destruct H | H : _ ∧ _ |- _ => destruct H
    | H : is_Some _ |- _ => destruct H
    | H : ∀ id r, ¬ token_row _ _ id r, H' : token_row _ _ ?i ?r |- _ => by destruct (H i r)
    | H : token_row _ _ ?i ?r, H' : token_row _ _ ?j ?r' |- _ =>
        lazymatch r with r' => fail | _ => pose proof (Hrow _ _ _ _ H H'); subst r' end
    end;
    repeat case_match; repeat match goal with H : ∃ _, _ |- _ => destruct H | H : _ ∧ _ |- _ => destruct H end; naive_solver congruence.
Qed.

Definition auth_outcome (d : db) (token : string) (calm_run : Prop) (out : result credentialAuthResult * db * list bool) : Prop :=
  out.1.2 = d ∧
  match out.1.1 with
  | Ok res => credential_owner d token res
  | Err e => (classifyCredentialAuthFailure e = credentialAuthDatabaseError ∧ ¬ calm_run) ∨
             ((∀ c, refusal_cause d token c ↔ c = classifyCredentialAuthFailure e) ∧
              isExpectedAuthFailure (classifyCredentialAuthFailure e) = true ∧ ∀ res, ¬ credential_owner d token res)
  end.

Lemma refused d token C e f :
  cred_wf (credentials d) → refusal_cause d token (classifyCredentialAuthFailure e) →
  auth_outcome d token C (Err e, d, f).
Proof.
  intros Hwf H. split; [done|]. right. split_and!.
  - intros c. split; [intros Hc; by eapply cause_unique|by intros ->].
  - unfold isExpectedAuthFailure. apply bool_decide_eq_true. intros E. by rewrite E in H.
  - intros res. by eapply cause_no_owner.
Qed.

Lemma find_by_token d token : cred_wf (credentials d) →
  match credential_by_token token d with
  | Some (i, r) => credentials d !! i = Some r ∧ c_token_hash r = hashCredentialToken token ∧
      ∀ j r', credentials d !! j = Some r' → c_token_hash r' = hashCredentialToken token → j = i
  | None => ∀ j r', credentials d !! j = Some r' → c_token_hash r' ≠ hashCredentialToken token
  end.
Proof.
  intros Hwf. unfold credential_by_token. destruct (find_row _ _) as [[i r]|] eqn:E.
  - apply find_row_Some in E as [Hi Hh%bool_decide_eq_true_1]. split_and!; [done..|].
    intros j r' Hj Hh'. eapply cw_hash; [done..|]. congruence.
  - intros j r' Hj Hh. pose proof (find_row_None _ _ _ _ E Hj) as HP. simpl in HP.
    by apply bool_decide_eq_false_1 in HP.
Qed.

Lemma principal_owner_outcome d f token i r pid (C : Prop) :
  cred_wf (credentials d) → (C → calm f) → token_row d token i r →
  c_revoked_at r = None → c_launcher_id r = None → c_principal_id r = Some pid →
  auth_outcome d token C (authenticatePrincipalCredentialOwner i pid d f).
Proof.
  intros Hwf HC Hrow Hr Hl Hp. pose proof Hrow as [Hi Hh]. unfold authenticatePrincipalCredentialOwner.
  run_query.
  { split; [done|]. left. split; [unfold classifyCredentialAuthFailure, errors_is; by rewrite Hw|auto]. }
  destruct (principals d !! pid) as [p|] eqn:Epr; [destruct (p_enabled p) eqn:Een|]; simpl.
  - split; [done|]. exists i, r. split_and!; [done..|]. left. eauto 10.
  - apply refused; [done|]. exists i, r, p. by rewrite Hl, Hp.
  - apply refused; [done|]. right. exists i, r. by rewrite Hl, Hp.
Qed.

Lemma launcher_owner_outcome d f token i r lid (C : Prop) :
  cred_wf (credentials d) → (C → calm f) → token_row d token i r →
  c_revoked_at r = None → c_launcher_id r = Some lid →
  auth_outcome d token C (authenticateLauncherCredentialOwner i lid d f).
Proof.
  intros Hwf HC Hrow Hr Hl. pose proof Hrow as [Hi Hh]. unfold authenticateLauncherCredentialOwner.
  run_query.
  { split; [done|]. left. split; [unfold classifyCredentialAuthFailure, errors_is; by rewrite Hw|auto]. }
  destruct (launcher_join lid d) as [[l p]|] eqn:Ej; [destruct (l_enabled l) eqn:El; [destruct (p_enabled p) eqn:Ep|]|]; simpl.
  - split; [done|]. exists i, r. split_and!; [done..|]. right. unfold launcher_join in Ej.
    destruct (launchers d !! lid) as [l'|] eqn:E1; [|done]. destruct (principals d !! l_principal_id l') as [p'|] eqn:E2; [|done].
    simplify_eq. exists lid, l, p. by split_and!.
  - apply refused; [done|]. exists i, r, p. rewrite Hl. split_and!; [done..|]. by exists l.
  - apply refused; [done|]. by exists i, r, lid, l, p.
  - apply refused; [done|]. right. exists i, r. by rewrite Hl.
Qed.

(** C33. Authentication is exact: whatever statements fail, a success names the
    owner of the one active credential that stores the token's hash, whose
    Principal (and Launcher) are enabled; a refusal is either a database error
    of a run with a failing statement, or the token proves no owner and the
    failure names the one cause: not found when no row stores the hash or the
    owner of the active row is gone, revoked when the row is revoked, and the
    disabled Launcher or Principal of the active row (the Launcher first).  The
    database is only read. *)
Theorem authenticate_exact (token : string) (d : db) (f : list bool) (Hwf : cred_wf (credentials d)) :
  auth_outcome d token (calm f) (authenticateCredential token d f).
Proof.
  unfold authenticateCredential.
  run_query.
  { split; [done|]. left. split; [unfold classifyCredentialAuthFailure, errors_is; by rewrite Hw|auto]. }
  pose proof (find_by_token d token Hwf) as Hfind.
  destruct (credential_by_token token d) as [[i r]|].
  2: { apply refused; [done|]. left. intros j r' [Hj Hh]. by apply (Hfind _ _ Hj). }
  destruct Hfind as (Hi & Hh & _). destruct (c_revoked_at r) as [t|] eqn:Er.
  { apply refused; [done|]. exists i, r. by split; [|eexists]. }
  destruct (c_launcher_id r) as [lid|] eqn:El; [by apply (launcher_owner_outcome _ _ _ _ r)|].
  destruct (c_principal_id r) as [pid|] eqn:Ep; [by apply (principal_owner_outcome _ _ _ _ r)|].
  pose proof (cw_owner _ Hwf _ _ Hi) as Ho. unfold owner_check in Ho. by rewrite El, Ep in Ho.
Qed.

Definition example_row (h : string) : credential_row := mkCredential (Some 1) None (Some "main") h 5 None.

Definition example_creds (token : string) : db :=
  set_credentials {[ "dhcr_1" := example_row (hashCredentialToken token) ]}
    (mkDB {[ 1 := mkPrincipal "ada" 1000 1000 "/home/ada" true ]} ∅ ∅ ∅ ∅ ∅ true ∅ ∅ ∅).

Lemma single_wf i r : owner_check r = true → cred_wf {[ i := r ]}.
Proof.
  intros Ho. split.
  - intros j k r1 r2 [-> <-]%lookup_singleton_Some [-> <-]%lookup_singleton_Some. done.
  - intros j r1 [-> <-]%lookup_singleton_Some. done.
  - intros j k r1 r2 l [-> <-]%lookup_singleton_Some [-> <-]%lookup_singleton_Some. done.
Qed.

Lemma example_creds_wf token : cred_wf (credentials (example_creds token)).
Proof. by apply (single_wf "dhcr_1" (example_row (hashCredentialToken token))). Qed.

Lemma authenticate_exact_witness :
  credential_owner (example_creds "dhc_k") "dhc_k" (mkAuthResult (Some (mkPrincipalAuth 1 "ada" "dhcr_1")) None).
Proof.
  pose proof (authenticate_exact "dhc_k" (example_creds "dhc_k") [] (example_creds_wf _)) as [_ H].
  assert ((authenticateCredential "dhc_k" (example_creds "dhc_k") []).1.1 =
    Ok (mkAuthResult (Some (mkPrincipalAuth 1 "ada" "dhcr_1")) None)) as E by (vm_compute; reflexivity).
  rewrite E in H. exact H.
Defined.

(** ** Updates *)

Lemma update_ok id P u d f b d' f' :
  update_credential id P u d f = (Ok b, d', f') →
  f' = tail f ∧
  if b : bool
  then ∃ r, credentials d !! id = Some r ∧ P r = true ∧ d' = set_credentials (<[id := u r]> (credentials d)) d ∧
       (c_token_hash (u r) = c_token_hash r ∨ token_hash_taken (c_token_hash (u r)) (credentials d) = false)
  else d' = d ∧ ∀ r, credentials d !! id = Some r → P r = false.
Proof.
  intros [H ->]%stmt_ok. split; [done|]. destruct (credentials d !! id) as [r|] eqn:Er; [|by simplify_eq].
  destruct (P r) eqn:EP; [|injection H as <- <-; split; [done|]; intros r' [= <-]; done].
  destruct (bool_decide _ && _) eqn:Ec; [done|]. injection H as <- <-. exists r. split_and!; [done..|].
  apply andb_false_iff in Ec as [Ec|Ec]; [left|by right]. apply bool_decide_eq_false_1 in Ec.
  by destruct (decide (c_token_hash (u r) = c_token_hash r)).
Qed.

Lemma update_err id P u d f e d' f' :
  update_credential id P u d f = (Err e, d', f') → d' = d ∧ (e = sqlite_error ∨ e = unique_error).
Proof.
  intros [-> H]%stmt_err. split; [done|]. destruct H as [->|H]; [by left|right].
  destruct (credentials d !! id) as [r|]; [|done]. destruct (P r); [|done].
  by destruct (bool_decide _ && _); simplify_eq.
Qed.

Lemma hash_not_taken h t : token_hash_taken h t = false ↔ ∀ i r, t !! i = Some r → c_token_hash r ≠ h.
Proof.
  unfold token_hash_taken. rewrite existsb_rows_false. split; intros H i r Hi.
  - specialize (H i r Hi). simpl in H. by apply bool_decide_eq_false_1 in H.
  - simpl. apply bool_decide_eq_false_2. by eapply H.
Qed.

Lemma wf_update t id r r' :
  cred_wf t → t !! id = Some r → c_principal_id r' = c_principal_id r → c_launcher_id r' = c_launcher_id r →
  c_name r' = c_name r → (c_token_hash r' = c_token_hash r ∨ token_hash_taken (c_token_hash r') t = false) →
  cred_wf (<[id := r']> t).
Proof.
  intros [H1 H2 H3] Hid Ep El En Hh. rewrite hash_not_taken in Hh.
  assert (Hne : ∀ j s, t !! j = Some s → c_token_hash s = c_token_hash r' → j = id).
  { intros j s Hj E. destruct Hh as [Hh|Hh]; [|by destruct (Hh _ _ Hj)]. eapply H1; [done..|]. congruence. }
  split.
  - intros i j s s'. rewrite !lookup_insert. repeat case_decide; intros; simplify_eq; try done.
    + symmetry. by eapply Hne.
    + by eapply Hne.
    + by eapply H1.
  - intros i s. rewrite lookup_insert. case_decide; [|apply H2]. intros [= <-].
    unfold owner_check. rewrite Ep, El, En. by apply (H2 id).
  - intros i j s s' l. rewrite !lookup_insert. repeat case_decide; intros; simplify_eq; try done.
    + eapply (H3 _ _ r s' l); [done..| |done]. congruence.
    + eapply (H3 _ _ s r l); [done..|]. congruence.
    + by eapply (H3 _ _ s s' l).
Qed.

(** The owner proof only looks at the row that stores the hash. *)
Lemma owner_other d d' token res :
  principals d' = principals d → launchers d' = launchers d →
  (∀ i r, c_token_hash r = hashCredentialToken token → c_revoked_at r = None →
     credentials d !! i = Some r → credentials d' !! i = Some r) →
  credential_owner d token res → credential_owner d' token res.
Proof. intros Ep El H (i & r & Hi & Hh & Hr & Ho). exists i, r. rewrite Ep, El. split_and!; auto. Qed.

(** ** Rotation *)

(** A compare-and-swap on one credential's hash. *)
Definition hash_cas (replace : DB unit) (id : string) (P : credential_row → Prop) (expectedHash newHash : string)
    : Prop := ∀ d f,
  match replace d f with
  | (Ok _, d', _) => ∃ r, credentials d !! id = Some r ∧ P r ∧ c_revoked_at r = None ∧ c_token_hash r = expectedHash ∧
      d' = set_credentials (<[id := set_hash newHash r]> (credentials d)) d ∧
      (newHash = expectedHash ∨ token_hash_taken newHash (credentials d) = false)
  | (Err e, d', _) => d' = d ∧ errors_is e ErrCredentialRotationCommitUnknown = false ∧
      errors_is e ErrCredentialRotationDelivery = false ∧
      (errors_is e ErrCredentialRotationConflict = true →
       ∀ r, credentials d !! id = Some r → c_revoked_at r = None → P r → c_token_hash r ≠ expectedHash)
  end.

Lemma cas_of_update id Pb P t1 t2 expectedHash newHash :
  (∀ r, Pb r = true ↔ P r ∧ c_revoked_at r = None ∧ c_token_hash r = expectedHash) →
  hash_cas (affected ← wrapf t1 [] (update_credential id Pb (set_hash newHash));
            if affected : bool then mret () else db_fail t2 [ErrCredentialRotationConflict]) id P expectedHash newHash.
Proof.
  intros HP d f. unfold mbind, db_bind, wrapf.
  destruct (update_credential id Pb (set_hash newHash) d f) as [[[[]|e] d'] f'] eqn:E.
  - apply update_ok in E as (_ & r & Hr & HPr & -> & Hh). apply HP in HPr as (? & ? & Hexp). simpl.
    exists r. split_and!; try done. destruct Hh as [Hh|Hh]; [left|by right]. simpl in Hh. congruence.
  - apply update_ok in E as (_ & -> & Hno). simpl. split_and!; [done..|]. intros _ r Hr Hact HPr Heq.
    specialize (Hno r Hr). assert (Pb r = true) by (apply HP; by split_and!). congruence.
  - apply update_err in E as [-> He]. simpl. by destruct He as [->| ->].
Qed.

Lemma principal_cas id pid expectedHash newHash :
  hash_cas (replacePrincipalCredentialTokenHashInTx id pid expectedHash newHash) id
    (λ r, c_principal_id r = Some pid ∧ c_launcher_id r = None) expectedHash newHash.
Proof.
  apply cas_of_update. intros r. unfold is_active. rewrite !andb_true_iff, !bool_decide_eq_true. naive_solver.
Qed.

Lemma launcher_cas id lid expectedHash newHash :
  hash_cas (replaceLauncherCredentialTokenHashInTx lid id expectedHash newHash) id
    (λ r, c_launcher_id r = Some lid) expectedHash newHash.
Proof.
  apply cas_of_update. intros r. unfold is_active. rewrite !andb_true_iff, !bool_decide_eq_true. naive_solver.
Qed.

(** The database after the hash of the one prepared row was swapped. *)
Definition rotated (d : db) (id : string) (P : credential_row → Prop) (expectedHash newHash : string) (d' : db) : Prop :=
  ∃ row, credentials d !! id = Some row ∧ P row ∧ c_revoked_at row = None ∧ c_token_hash row = expectedHash ∧
    d' = set_credentials (<[id := set_hash newHash row]> (credentials d)) d ∧
    (newHash = expectedHash ∨ token_hash_taken newHash (credentials d) = false).

(** What the shared rotation transaction does with a compare-and-swap: after a
    failed commit the swap may have taken effect. *)
Definition rotation_outcome (d : db) (id : string) (P : credential_row → Prop) (expectedHash newHash : string)
    (deliver : bool) (out : (result unit * bool) * db * list bool) : Prop :=
  let '(r, written, d', _) := out in
  match r with
  | Ok _ => written = true ∧ deliver = true ∧ rotated d id P expectedHash newHash d'
  | Err e => (written = true ↔ errors_is e ErrCredentialRotationCommitUnknown = true) ∧
      (d' = d ∨ written = true ∧ deliver = true ∧ rotated d id P expectedHash newHash d') ∧
      (errors_is e ErrCredentialRotationDelivery = true → deliver = false) ∧
      (errors_is e ErrCredentialRotationConflict = true →
       ∀ row, credentials d !! id = Some row → c_revoked_at row = None → P row → c_token_hash row ≠ expectedHash)
  end.

Lemma rotation_transaction replace id P expectedHash newHash deliver d f :
  hash_cas replace id P expectedHash newHash →
  rotation_outcome d id P expectedHash newHash deliver (commitCredentialRotationAfterDelivery replace deliver d f).
Proof.
  intros Hcas. unfold commitCredentialRotationAfterDelivery, rotation_outcome.
  destruct (stmt (λ d, Ok ((), d)) d f) as [[[[]|e] d0] f0] eqn:E0.
  2: { apply stmt_err in E0 as [_ [->|?]]; [|done]. split_and!; [done|by left|done..]. }
  specialize (Hcas d f0). destruct (replace d f0) as [[[[]|e] d1] f1].
  2: { destruct Hcas as (_ & Hu & Hd & Hc). rewrite Hu, Hd. split_and!; [done|by left|done..]. }
  destruct deliver; simpl; [|split_and!; [done|by left|done..]].
  destruct (stmt (λ d, Ok ((), d)) d1 f1) as [[[[]|e] d2] f2] eqn:E2.
  2: { split_and!; [done| |done..]. destruct (match f2 with true :: _ => true | _ => false end); [right|by left]. by split_and!. }
  apply stmt_ok in E2 as [[= <-] _]. by split_and!.
Qed.

(** C34. The rotation transaction writes the replacement to the client only
    after the compare-and-swap applied: a success was delivered and swapped
    exactly the prepared row's hash; the response was written exactly when the
    outcome is a success or an unknown commit; after an unknown commit the
    database is as it was or has exactly that swap, and every other failure
    leaves it as it was. *)
Theorem rotation_after_delivery (id : string) (pid : Z) (expectedHash newHash : string) (deliver : bool)
    (d : db) (f : list bool) :
  rotation_outcome d id (λ r, c_principal_id r = Some pid ∧ c_launcher_id r = None) expectedHash newHash deliver
    (commitPrincipalCredentialRotationAfterDelivery id pid expectedHash newHash deliver d f).
Proof. apply rotation_transaction, principal_cas. Qed.

(** Of two Launcher rotations prepared against the same bearer at most one
    commits: once one did, the other is refused as a conflict, writes no
    response and changes nothing, whatever happens in between to the rest of
    the database. *)
Theorem rotation_conflict (lid id expectedHash newHash1 newHash2 : string) (deliver1 deliver2 : bool)
    (d d1 d2 : db) (f f1 : list bool) (g : list bool)
    (H1 : commitLauncherCredentialRotationAfterDelivery lid id expectedHash newHash1 deliver1 d f = (Ok (), true, d1, f1))
    (Hsame : credentials d2 = credentials d1) (Hnew : newHash1 ≠ expectedHash) (Hg : calm g) :
  ∃ e g', commitLauncherCredentialRotationAfterDelivery lid id expectedHash newHash2 deliver2 d2 g = (Err e, false, d2, g') ∧
    errors_is e ErrCredentialRotationConflict = true.
Proof.
  pose proof (rotation_transaction _ _ _ _ _ deliver1 d f (launcher_cas id lid expectedHash newHash1)) as H.
  unfold commitLauncherCredentialRotationAfterDelivery in H1. rewrite H1 in H.
  destruct H as (_ & _ & row & Hr & Hl & Hact & Hh & -> & _). simpl in Hsame.
  unfold commitLauncherCredentialRotationAfterDelivery, commitCredentialRotationAfterDelivery.
  rewrite stmt_calm by done. unfold replaceLauncherCredentialTokenHashInTx, mbind, db_bind, wrapf, update_credential.
  rewrite stmt_calm by (by apply calm_tail). rewrite Hsame, lookup_insert_eq. simpl.
  rewrite (bool_decide_eq_false_2 (newHash1 = expectedHash)) by done. rewrite andb_false_r. simpl. eauto.
Qed.

Definition example_launcher_creds : db :=
  set_credentials {[ "dhcr_1" := mkCredential None (Some "dhl_1") None "h0" 5 None ]} empty_db.

Lemma rotation_conflict_witness :
  ∃ e g', commitLauncherCredentialRotationAfterDelivery "dhl_1" "dhcr_1" "h0" "h2" true
    (set_credentials {[ "dhcr_1" := mkCredential None (Some "dhl_1") None "h1" 5 None ]} empty_db) [] = (Err e, false,
      set_credentials {[ "dhcr_1" := mkCredential None (Some "dhl_1") None "h1" 5 None ]} empty_db, g') ∧
    errors_is e ErrCredentialRotationConflict = true.
Proof.
  apply (rotation_conflict "dhl_1" "dhcr_1" "h0" "h1" "h2" true true example_launcher_creds
           (set_credentials {[ "dhcr_1" := mkCredential None (Some "dhl_1") None "h1" 5 None ]} empty_db) _ [] [] []).
  - vm_compute. reflexivity.
  - reflexivity.
  - discriminate.
  - constructor.
Defined.

(** Changing one active row's hash moves exactly its authentication. *)
Lemma swap_moves d d' id row newHash :
  cred_wf (credentials d) → credentials d !! id = Some row →
  (newHash = c_token_hash row ∨ token_hash_taken newHash (credentials d) = false) →
  d' = set_credentials (<[id := set_hash newHash row]> (credentials d)) d →
  cred_wf (credentials d') ∧
  (∀ t told res, hashCredentialToken t = newHash → hashCredentialToken told = c_token_hash row →
     credential_owner d told res → credential_owner d' t res) ∧
  (∀ t res, hashCredentialToken t ≠ newHash →
     (credential_owner d' t res ↔ credential_owner d t res ∧ hashCredentialToken t ≠ c_token_hash row)).
Proof.
  intros Hwf Hrow Hh ->. split_and!.
  - by eapply (wf_update _ _ row).
  - intros t told res Ht Htold (i & r & Hi & Hhr & Hr & Ho).
    assert (i = id) as -> by (eapply cw_hash; [done..|]; congruence). simplify_eq.
    exists id, (set_hash (hashCredentialToken t) row). simpl. rewrite lookup_insert_eq. by split_and!.
  - intros t res Ht. split.
    + intros (i & r & Hi & Hhr & Hr & Ho). simpl in *. rewrite lookup_insert in Hi. case_decide as E.
      * subst i. injection Hi as <-. simpl in Hhr. congruence.
      * split; [by exists i, r|]. intros E'. apply E. symmetry. eapply cw_hash; [done..|]. congruence.
    + intros [(i & r & Hi & Hhr & Hr & Ho) Hne]. exists i, r. simpl. split_and!; try done.
      rewrite lookup_insert_ne; [done|]. intros ->. simplify_eq.
Qed.

Lemma principal_target_Some pid name active d id r :
  principal_target pid name active d = Some (id, r) →
  credentials d !! id = Some r ∧ c_principal_id r = Some pid ∧ c_name r = Some name ∧ c_launcher_id r = None ∧
  is_Some (principals d !! pid) ∧ (active = true → c_revoked_at r = None).
Proof.
  intros [Hid [(Hp & Hn & Hl & Hs)%bool_decide_eq_true_1 Ha]%andb_true_iff]%find_row_Some.
  split_and!; try done. intros ->. simpl in Ha. by apply bool_decide_eq_true_1 in Ha.
Qed.

Lemma prepare_principal_ok draw pid name d f cred exp tok new d' f' :
  preparePrincipalCredentialRotation draw pid name d f = (Ok (cred, exp, tok, new), d', f') →
  d' = d ∧ new = hashCredentialToken tok ∧
  ∃ row p, credentials d !! pc_ID cred = Some row ∧ c_principal_id row = Some pid ∧ c_name row = Some name ∧
    c_launcher_id row = None ∧ c_revoked_at row = None ∧ c_token_hash row = exp ∧
    principals d !! pid = Some p ∧ pc_PrincipalName cred = p_username p.
Proof.
  unfold preparePrincipalCredentialRotation. intros H.
  apply db_bind_ok in H as (row & d0 & f0 & Hq & H). apply wrapf_ok, query_ok in Hq as (Hq & -> & ->).
  destruct (principal_target pid name true d) as [[id r]|] eqn:Et; subst row.
  2: { apply db_bind_ok in H as (h & d1 & f1 & Hh & H). by destruct h. }
  apply principal_target_Some in Et as (Hid & Hp & Hn & Hl & [p Hpr] & Hact).
  apply db_bind_ok in H as (tok' & d1 & f1 & Ht & H). injection Ht as Ht <- <-. injection H as <- <- <- <- <- _.
  split_and!; [done..|]. exists r, p. simpl. rewrite Hpr. split_and!; auto.
Qed.

(** A Principal rotation that succeeds moves authentication: the delivered
    bearer proves what the replaced one proved, the replaced bearer proves
    nothing any more, and every other bearer proves what it did. *)
Theorem rotation_moves_authentication (draw : option string) (pid : Z) (name : string) (d d' : db)
    (f f' : list bool) (cred : PrincipalCredential) (token : string) (Hwf : cred_wf (credentials d))
    (H : rotatePrincipalCredential draw pid name d f = (Ok (cred, token), d', f')) :
  cred_wf (credentials d') ∧
  ∃ row, credentials d !! pc_ID cred = Some row ∧ c_principal_id row = Some pid ∧ c_name row = Some name ∧
    (∀ told res, hashCredentialToken told = c_token_hash row → credential_owner d told res →
       credential_owner d' token res ∧ (hashCredentialToken told ≠ hashCredentialToken token → ∀ res', ¬ credential_owner d' told res')) ∧
    (∀ t res, hashCredentialToken t ≠ c_token_hash row → hashCredentialToken t ≠ hashCredentialToken token →
       credential_owner d' t res ↔ credential_owner d t res).
Proof.
  unfold rotatePrincipalCredential in H.
  apply db_bind_ok in H as ([[[cred' exp] tok] new] & d0 & f0 & Hprep & H).
  apply prepare_principal_ok in Hprep as (-> & -> & row & p & Hrow & Hp & Hn & Hl & Hact & Hexp & _).
  apply db_bind_ok in H as ([] & d1 & f1 & Hrot & H). injection H as -> -> -> ->.
  pose proof (rotation_transaction _ _ _ _ _ true d f0
    (principal_cas (pc_ID cred) pid exp (hashCredentialToken token))) as Ho.
  unfold rotate_no_delivery, commitPrincipalCredentialRotationAfterDelivery in Hrot.
  destruct (commitCredentialRotationAfterDelivery _ true d f0) as [[[[[]|e] w] d2] f2]; [|done].
  injection Hrot as -> ->. destruct Ho as (_ & _ & row' & Hrow' & _ & _ & Hh & Hd' & Hnew). simplify_eq.
  destruct (swap_moves d _ (pc_ID cred) row _ Hwf Hrow Hnew eq_refl) as (Hwf' & Hmove & Hother).
  split; [done|]. exists row. split_and!; [done..| |].
  - intros told res Ht Ho. split; [by eapply Hmove|]. intros Hne res' Ho'. apply (Hother told) in Ho'; [|done].
    by destruct Ho'.
  - intros t res H1 H2. rewrite (Hother t res H2). naive_solver.
Qed.

Lemma rotation_moves_authentication_witness :
  match rotatePrincipalCredential (Some "n") 1 "main" (example_creds "dhc_k") [] with
  | (Ok (_, token), d', _) => token = "dhc_n" ∧
      credential_owner d' "dhc_n" (mkAuthResult (Some (mkPrincipalAuth 1 "ada" "dhcr_1")) None) ∧
      ∀ res', ¬ credential_owner d' "dhc_k" res'
  | _ => False
  end.
Proof.
  assert (Hw : cred_wf (credentials (example_creds "dhc_k"))) by apply example_creds_wf.
  pose proof (rotation_moves_authentication (Some "n") 1 "main" (example_creds "dhc_k")) as Hm.
  destruct (rotatePrincipalCredential (Some "n") 1 "main" (example_creds "dhc_k") []) as [[[[cred token]|e] d'] f'] eqn:E.
  - assert (E2 : (rotatePrincipalCredential (Some "n") 1 "main" (example_creds "dhc_k") []).1.1 =
      Ok (mkPrincipalCredential "dhcr_1" "ada" "main" 5 None, "dhc_n")) by (vm_compute; reflexivity).
    rewrite E in E2. injection E2 as -> ->. split; [done|].
    destruct (Hm d' [] f' _ _ Hw E) as (_ & row & Hrow & _ & _ & Hmove & _).
    simpl in Hrow. injection Hrow as <-.
    destruct (Hmove "dhc_k" (mkAuthResult (Some (mkPrincipalAuth 1 "ada" "dhcr_1")) None) eq_refl) as [H1 H2].
    + exists "dhcr_1", (example_row (hashCredentialToken "dhc_k")). split_and!; [reflexivity..|].
      left. exists 1, (mkPrincipal "ada" 1000 1000 "/home/ada" true). by split_and!.
    + split; [exact H1|]. apply H2. vm_compute. discriminate.
  - assert (E2 : is_ok (rotatePrincipalCredential (Some "n") 1 "main" (example_creds "dhc_k") []).1.1 = true)
      by (vm_compute; reflexivity). rewrite E in E2. discriminate.
Defined.

(** ** Revocation *)

(** Revocation is final for the bearer and confined to Principal
    credentials: after a successful call the credential's bearer proves no
    owner, every other bearer proves what it did, a Launcher credential is
    refused as unknown, and a repeated call changes nothing. *)
Theorem revoke_exact (now : Z) (id : string) (d : db) (f : list bool) (Hwf : cred_wf (credentials d)) :
  match revokePrincipalCredential now id d f with
  | (Ok changed, d', _) =>
      cred_wf (credentials d') ∧ (changed = false → d' = d) ∧
      ∃ row, credentials d !! id = Some row ∧ is_Some (c_principal_id row) ∧
        (∀ t res, credential_owner d' t res ↔ credential_owner d t res ∧ hashCredentialToken t ≠ c_token_hash row)
  | (Err e, d', _) => d' = d ∧
      (errors_is e ErrCredentialNotFound = true →
       ∀ row, credentials d !! id = Some row → c_principal_id row = None ∨ id = "")
  end.
Proof.
  unfold revokePrincipalCredential. case_bool_decide as Eid; [by split; [|auto]|].
  unfold mbind, db_bind, wrapf.
  destruct (update_credential id _ (set_revoked now) d f) as [[[[]|e] d'] f'] eqn:E.
  - apply update_ok in E as (_ & row & Hrow & [Ha Ho]%andb_true_iff & -> & Hh).
    apply bool_decide_eq_true_1 in Ha, Ho. simpl. split_and!; [by eapply (wf_update _ _ row)|done|].
    exists row. split_and!; [done..|]. intros t res. split.
    + intros (i & r & Hi & Hhr & Hr & Hw). simpl in *. rewrite lookup_insert in Hi. case_decide as Ei.
      * subst i. by injection Hi as <-.
      * split; [by exists i, r|]. intros E'. apply Ei. symmetry. eapply cw_hash; [done..|]. congruence.
    + intros [(i & r & Hi & Hhr & Hr & Hw) Hne]. exists i, r. simpl. split_and!; try done.
      rewrite lookup_insert_ne; [done|]. intros ->. simplify_eq.
  - apply update_ok in E as (-> & -> & Hno). destruct (query _ d (tail f)) as [[[b|e] d2] f2] eqn:Eq.
    2: { apply query_err in Eq as [-> ->]. done. }
    apply query_ok in Eq as (-> & -> & ->). destruct (credentials d !! id) as [row|] eqn:Hrow.
    2: { split; [done|]. intros _ row Hr. congruence. }
    specialize (Hno _ eq_refl). destruct (is_principal_owned row) eqn:Ep; simpl.
    + split_and!; [done..|]. exists row. split_and!; [done|by apply bool_decide_eq_true_1 in Ep|].
      rewrite andb_true_r in Hno. apply bool_decide_eq_false_1 in Hno. intros t res. split; [|naive_solver].
      intros Hw. split; [done|]. destruct Hw as (i & r & Hi & Hhr & Hr & _). intros E'.
      assert (i = id) as -> by (eapply cw_hash; [done..|]; congruence). congruence.
    + split; [done|]. intros _ r Hr. left. simplify_eq. apply bool_decide_eq_false_1 in Ep.
      by apply eq_None_not_Some.
  - apply update_err in E as [-> He]. simpl. split; [done|]. by destruct He as [->| ->].
Qed.

Lemma revoke_exact_witness :
  match revokePrincipalCredential 9 "dhcr_1" (example_creds "dhc_k") [] with
  | (Ok changed, d', _) => changed = true ∧ ∀ res, ¬ credential_owner d' "dhc_k" res
  | _ => False
  end.
Proof.
  pose proof (revoke_exact 9 "dhcr_1" (example_creds "dhc_k") [] (example_creds_wf _)) as H.
  assert (E : (revokePrincipalCredential 9 "dhcr_1" (example_creds "dhc_k") []).1.1 = Ok true) by (vm_compute; reflexivity).
  destruct (revokePrincipalCredential 9 "dhcr_1" (example_creds "dhc_k") []) as [[[c|e] d'] f']; [|discriminate].
  injection E as ->. destruct H as (_ & _ & row & Hrow & _ & Hex). split; [done|].
  simpl in Hrow. injection Hrow as <-. intros res [_ Hne]%Hex. by apply Hne.
Defined.
