(* ===== verification/Launcher.v ===== *)
(** * Launcher: src/launcher.go and src/ownership.go — Launcher lookups

    The name grammar, the ID selectors, the scoped lookups and the resolution of
    a Principal-control target (src/principal_control_auth.go). *)
From S2P Require Import Prelude Filepath AllowedRoots Database GoStrings Credential.
Local Open Scope Z_scope.

Record LauncherWithPrincipal := mkLauncherP {
  lp_ID : string; lp_PrincipalID : Z; lp_PrincipalName : string; lp_Name : string;
  lp_Enabled : bool; lp_ScopeMode : string; lp_AllowedRoots : list AllowedRootEntry; lp_CreatedAt : Z }.

(** ** Names and identifiers *)

Definition lower_or_digit (c : ascii) : bool :=
  in_range 97 122 (byte_of c) || in_range 48 57 (byte_of c).

Definition launcherNameMaxLength : nat := 63.
Definition defaultLauncherName : string := "default".

(** The byte loop: [i] is the position of the first byte of [rest]. *)
Fixpoint name_loop (len i : nat) (rest : string) : bool :=
  match rest with
  | "" => true
  | String c rest =>
      if lower_or_digit c then name_loop len (S i) rest
      else if bool_decide (c = "-"%char) then
        if bool_decide (i = 0%nat ∨ i = (len - 1)%nat) then false else name_loop len (S i) rest
      else false
  end.

Definition validateLauncherName (name : string) : result string :=
  if bool_decide (String.length name = 0%nat) || bool_decide (launcherNameMaxLength < String.length name)%nat
  then errorf "invalid launcher name" [ErrInvalidLauncherName]
  else if name_loop (String.length name) 0 name then Ok name
  else errorf "invalid launcher name" [ErrInvalidLauncherName].

Definition launcherIDPrefix : string := "dhl_".
Definition launcherIDEntropyBytes : nat := 16.

Definition lower_hex (c : ascii) : bool := in_range 48 57 (byte_of c) || in_range 97 102 (byte_of c).

Definition isLauncherIDSelector (selector : string) : bool :=
  match CutPrefix selector launcherIDPrefix with
  | None => false
  | Some rest => bool_decide (String.length rest = (launcherIDEntropyBytes * 2)%nat) && str_forall lower_hex rest
  end.

(** ** Root sets *)

(** [SELECT root_path, access ... ORDER BY root_path]. *)
Definition roots_of {K} `{EqDecision K} (owner : K) (t : list (K * string * string)) : list AllowedRootEntry :=
  sortAllowedRootEntriesCanonical
    (omap (λ kv, if bool_decide (kv.1.1 = owner) then Some (mkEntry kv.1.2 kv.2) else None) t).

Definition readLauncherAllowedRoots (launcherID : string) : DB (list AllowedRootEntry) :=
  wrapf "cannot query launcher allowed roots" []
    (query (λ d, roots_of launcherID (map_to_list (launcher_allowed_roots d)))).

Definition readPrincipalAllowedRoots (principalID : Z) : DB (list AllowedRootEntry) :=
  wrapf "cannot query principal allowed roots" []
    (query (λ d, roots_of principalID (map_to_list (principal_allowed_roots d)))).

(** ** Lookups *)

Definition launcherFromRow (q : db → option (string * launcher_row * principal_row)) : DB LauncherWithPrincipal :=
  row ← wrapf "cannot find launcher" [] (query q);
  match row with
  | None => db_fail "launcher not found" [ErrLauncherNotFound]
  | Some (id, l, p) =>
      roots ← readLauncherAllowedRoots id;
      mret (mkLauncherP id (l_principal_id l) (p_username p) (l_name l) (l_enabled l) (l_scope_mode l)
              roots (l_created_at l))
  end.

(** [launcherSelect] with a predicate on the row. *)
Definition launcher_select (P : string → launcher_row → bool) (d : db)
    : option (string * launcher_row * principal_row) :=
  match find_row P (launchers d) with
  | Some (id, l) => match principals d !! l_principal_id l with Some p => Some (id, l, p) | None => None end
  | None => None
  end.

Definition findLauncherByID (id : string) : DB LauncherWithPrincipal :=
  if bool_decide (id = "") then db_fail "launcher not found" [ErrLauncherNotFound]
  else launcherFromRow (launcher_select (λ i _, bool_decide (i = id))).

Definition findLauncherByIDUnderPrincipal (principalID : Z) (id : string) : DB LauncherWithPrincipal :=
  launcherFromRow (launcher_select (λ i l, bool_decide (i = id ∧ l_principal_id l = principalID))).

Definition findLauncherByNameUnderPrincipal (principalID : Z) (name : string) : DB LauncherWithPrincipal :=
  launcherFromRow (launcher_select (λ _ l, bool_decide (l_principal_id l = principalID ∧ l_name l = name))).

Definition findLauncherForPrincipal (principalID : Z) (selector : string) : DB LauncherWithPrincipal :=
  if isLauncherIDSelector selector then findLauncherByIDUnderPrincipal principalID selector
  else match validateLauncherName selector with
       | Err _ => db_fail "launcher not found" [ErrLauncherNotFound]
       | Ok _ => findLauncherByNameUnderPrincipal principalID selector
       end.

Definition resolveLauncherSelector (principalID : option Z) (selector : string) : DB LauncherWithPrincipal :=
  match principalID with
  | Some p => findLauncherForPrincipal p selector
  | None =>
      if isLauncherIDSelector selector then findLauncherByID selector
      else db_fail "launcher name requires principal context" [ErrLauncherNameRequiresPrincipal]
  end.

(** [findDefaultLauncher] (src/ownership.go). *)
Definition findDefaultLauncher (principalID : Z) : DB string :=
  row ← query (λ d, find_row (λ _ l, bool_decide (l_principal_id l = principalID ∧ l_name l = defaultLauncherName))
                      (launchers d));
  match row with
  | None => db_fail "launcher not found" [ErrLauncherNotFound]
  | Some (id, _) => mret id
  end.

(** ** Principal-control targets (src/principal_control_auth.go) *)

Record principalControlTarget := mkTarget { pt_ID : Z; pt_Name : string }.

Definition resolvePrincipalControlTarget (auth : option operatorAuthority) (username : string)
    : DB principalControlTarget :=
  if bool_decide (username = "") then db_fail "username is required" [ErrPrincipalNotFound]
  else match auth with
  | Some a =>
      match auth_class a, auth_principal a with
      | operatorAuthorityAdmin, _ =>
          id ← findPrincipalIDByUsername username;
          mret (mkTarget id username)
      | operatorAuthorityPrincipal, Some pa =>
          if bool_decide (username ≠ pa_PrincipalName pa) then db_fail "principal not found" [ErrPrincipalNotFound]
          else
            row ← wrapf "cannot find principal" [] (query (λ d, p_username <$> principals d !! pa_PrincipalID pa));
            match row with
            | None => db_fail "principal not found" [ErrPrincipalNotFound]
            | Some name =>
                if bool_decide (name ≠ pa_PrincipalName pa) then db_fail "principal not found" [ErrPrincipalNotFound]
                else mret (mkTarget (pa_PrincipalID pa) name)
            end
      | _, _ => db_fail "invalid operator authority" [errInvalidControlAuthority]
      end
  | None => db_fail "invalid operator authority" [errInvalidControlAuthority]
  end.

(** The authorized scope of a scope-first list query. *)
Record listQueryScope := mkListScope { ls_all : bool; ls_principal : option principalControlTarget }.

(** [resolveListScope] without its HTTP responses: the error is the lookup's. *)
Definition resolveListScope (auth : option operatorAuthority) (filter : string) : DB listQueryScope :=
  match auth with
  | Some a =>
      match auth_class a, auth_principal a with
      | operatorAuthorityAdmin, _ =>
          if bool_decide (filter = "") then mret (mkListScope true None)
          else target ← resolvePrincipalControlTarget auth filter; mret (mkListScope false (Some target))
      | operatorAuthorityPrincipal, Some pa =>
          if bool_decide (filter ≠ "" ∧ filter ≠ pa_PrincipalName pa)
          then db_fail "principal not found" [ErrPrincipalNotFound]
          else target ← resolvePrincipalControlTarget auth (pa_PrincipalName pa); mret (mkListScope false (Some target))
      | _, _ => db_fail "invalid operator authority" [errInvalidControlAuthority]
      end
  | None => db_fail "invalid operator authority" [errInvalidControlAuthority]
  end.

(** ** what the Launcher and Principal lookups find

    A lookup changes no table and answers with a row of the scope it was asked
    for. *)

Lemma default_launcher_ok pid d f lid d' f' :
  findDefaultLauncher pid d f = (Ok lid, d', f') →
  d' = d ∧ ∃ l, launchers d !! lid = Some l ∧ l_principal_id l = pid ∧ l_name l = defaultLauncherName.
Proof.
  unfold findDefaultLauncher. intros (row & d1 & f1 & Hq & H)%db_bind_ok. apply query_ok in Hq as (-> & -> & _).
  destruct (find_row _ _) as [[i l]|] eqn:E; [|done]. injection H as <- <- _.
  apply find_row_Some in E as [Hi [? ?]%bool_decide_eq_true_1]. split; [done|]. by exists l.
Qed.

Lemma principal_id_ok name d f pid d' f' :
  findPrincipalIDByUsername name d f = (Ok pid, d', f') →
  d' = d ∧ ∃ p, principals d !! pid = Some p ∧ p_username p = name.
Proof.
  unfold findPrincipalIDByUsername. case_bool_decide as En; [done|].
  intros (row & d1 & f1 & Hq & H)%db_bind_ok. apply wrapf_ok, query_ok in Hq as (-> & -> & _).
  destruct (head _) as [[i p]|] eqn:E; [|done]. injection H as <- <- _. split; [done|]. exists p.
  apply head_Some_elem_of, list_elem_of_filter in E as [Hn Hin]. by apply elem_of_map_to_list in Hin.
Qed.

Lemma launcher_row_ok P d f l d' f' :
  launcherFromRow (launcher_select P) d f = (Ok l, d', f') →
  d' = d ∧ ∃ row, launchers d !! lp_ID l = Some row ∧ P (lp_ID l) row = true ∧ lp_PrincipalID l = l_principal_id row.
Proof.
  unfold launcherFromRow. intros (row & d1 & f1 & Hq & H)%db_bind_ok. apply wrapf_ok, query_ok in Hq as (-> & -> & _).
  destruct (launcher_select P d) as [[[i r] p]|] eqn:E; [|done].
  apply db_bind_ok in H as (roots & d2 & f2 & Hq & H). apply wrapf_ok, query_ok in Hq as (_ & -> & _).
  injection H as <- <- _. split; [done|]. unfold launcher_select in E.
  destruct (find_row P (launchers d)) as [[i' r']|] eqn:Ef; [|done].
  destruct (principals d !! l_principal_id r') as [p'|]; [|done]. injection E as -> -> ->.
  apply find_row_Some in Ef as [Hi HP]. by exists r.
Qed.

Lemma launcher_for_principal_ok pid sel d f l d' f' :
  findLauncherForPrincipal pid sel d f = (Ok l, d', f') →
  d' = d ∧ ∃ row, launchers d !! lp_ID l = Some row ∧ l_principal_id row = pid.
Proof.
  unfold findLauncherForPrincipal. destruct (isLauncherIDSelector sel).
  - intros (-> & row & Hr & [_ Hp]%bool_decide_eq_true_1 & _)%launcher_row_ok. by split; [|exists row].
  - destruct (validateLauncherName sel); [|done].
    intros (-> & row & Hr & [Hp _]%bool_decide_eq_true_1 & _)%launcher_row_ok. by split; [|exists row].
Qed.
