(* ===== verification/Session.v ===== *)
(** * Session: src/session.go and src/session_control.go

    Session creation under the lifecycle serialization — authority and target
    resolution, the lexical admission that precedes every host probe, the
    policy derivation, the MAC binding and the conditional insert that
    re-proves the authority at the commit — and the scoped list, find and
    delete operations.  Probes of the host are recorded in a log. *)
From S2P Require Import Prelude Filepath AllowedRoots GoStrings WorkspacePolicy Sha256 Database SnapshotStore Credential Launcher MacLifecycle.
Local Open Scope Z_scope.

(** ** Host probes *)

Inductive probe := EvalSymlinks (path : string) | Stat (path : string).
#[export] Instance probe_eq_dec : EqDecision probe.
Proof. solve_decision. Defined.

(** A host computation: it may fail and records what it probed. *)
Definition HP (A : Type) : Type := list probe → result A * list probe.
#[local] Instance hp_ret : MRet HP := λ A a l, (Ok a, l).
#[local] Instance hp_bind : MBind HP := λ A B k m l,
  match m l with (Ok a, l) => k a l | (Err e, l) => (Err e, l) end.

Definition hp_fail {A} (text : string) (wraps : list sentinel) : HP A := λ l, (errorf text wraps, l).
Definition hp_lift {A} (r : result A) : HP A := λ l, (r, l).
(** A pure check whose failure is re-wrapped. *)
Definition hp_check (text : string) (wraps : list sentinel) (r : result unit) : HP unit :=
  match r with Ok _ => mret () | Err _ => hp_fail text wraps end.

(** ** The resolved create policy *)

Record sessionFilesystemRootEntry := mkRootEntry { re_Path : string; re_Access : string }.

Record sessionCreateCredentialAuthority := mkCreateCredential {
  cc_credentialID : string; cc_principalID : Z; cc_launcherID : string }.

Record sessionCreatePolicy := mkCreatePolicy {
  cp_Workspace : string;
  cp_EffectiveAllowedRoots : list AllowedRootEntry;
  cp_EffectiveAllowedRootPaths : list string;
  cp_FilesystemRoots : list sessionFilesystemRootEntry;
  cp_LauncherID : string;
  cp_LauncherName : string;
  cp_PrincipalName : string;
  cp_Credential : option sessionCreateCredentialAuthority }.

Record Session := mkSess {
  ss_ID : string; ss_Workspace : string; ss_CreatedAt : Z; ss_ExpiresAt : Z;
  ss_LauncherID : string; ss_LauncherName : string; ss_PrincipalName : string }.

Record CreatedSession := mkCreated {
  cs_Session : Session; cs_Token : string; cs_FilesystemSnapshot : sessionFilesystemSnapshot }.

Definition classifyCreateSessionError (e : error) : string :=
  if errors_is e ErrInvalidWorkspace then "invalid_workspace"
  else if errors_is e ErrInvalidSessionFilesystemPolicy then "invalid_filesystem_policy"
  else if errors_is e ErrLifecycleBusy then "lifecycle_busy"
  else if errors_is e ErrDatabase then "database_error"
  else if errors_is e ErrSystem then "system_error"
  else if errors_is e ErrMAC then "mac_preparation_failed"
  else "unknown_error".

(** ** Admission *)

(** [workspacePathResolutionFailure]: the error carries the public message. *)
Definition workspacePathResolutionFailure (internalPhrase : string) (probeErr : probe_error) : error :=
  mkError match diagnoseAdmittedPath probeErr with
          | admittedPathDoesNotExist => "workspace path does not exist"
          | admittedPathDenied => "workspace must be inside an allowed root"
          | admittedPathUnresolvable => internalPhrase
          end [ErrInvalidWorkspace].

(** [sessionFilesystemRootResolutionFailure]: a denied probe stays the plain
    policy refusal, any other is marked by its own text. *)
Definition sessionFilesystemRootResolutionFailure (internal : string) (probeErr : probe_error) : error :=
  mkError match diagnoseAdmittedPath probeErr with
          | admittedPathDenied => internal
          | _ => "filesystem root path resolution: " +:+ internal
          end [ErrInvalidSessionFilesystemPolicy].

Section admission.
Context (h : host).

Definition resolve_link (fail : probe_error → error) (path : string) : HP string := λ l,
  (match evalSymlinksFn h path with inl p => Ok p | inr e => Err (fail e) end, l ++ [EvalSymlinks path]).
Definition stat_path (fail : probe_error → error) (path : string) : HP file_mode := λ l,
  (match osStatFn h path with inl m => Ok m | inr e => Err (fail e) end, l ++ [Stat path]).

(** One requested filesystem root. *)
Definition canonicalize_root (ceilingPaths : list string) (root : sessionFilesystemRootEntry)
    : HP AllowedRootEntry :=
  let refuse {A} (text : string) : HP A := hp_fail text [ErrInvalidSessionFilesystemPolicy] in
  if bool_decide (re_Path root = "") || negb (IsAbs (re_Path root)) then
    refuse "filesystem root is not an absolute host path"
  else match parseAllowedRootAccess (re_Access root) with
  | Err _ => refuse "filesystem root access"
  | Ok access =>
      let cleaned := Clean (re_Path root) in
      if negb (isWithinAnyAllowedRoot cleaned ceilingPaths) then
        refuse "filesystem root is outside the effective launcher policy"
      else
        _ ← hp_check "filesystem root" [ErrInvalidSessionFilesystemPolicy] (validateHostPathText cleaned);
        resolved ← resolve_link (sessionFilesystemRootResolutionFailure "filesystem root cannot be resolved") cleaned;
        info ← stat_path (sessionFilesystemRootResolutionFailure "filesystem root cannot be accessed") resolved;
        if bool_decide (info = is_other) then refuse "filesystem root is not a directory or regular file"
        else
          _ ← hp_check "filesystem root" [ErrInvalidSessionFilesystemPolicy] (validateHostPathText resolved);
          mret (mkEntry resolved access)
  end.

Fixpoint canonicalize_roots (ceilingPaths : list string) (roots : list sessionFilesystemRootEntry)
    : HP (list AllowedRootEntry) :=
  match roots with
  | [] => mret []
  | root :: roots =>
      e ← canonicalize_root ceilingPaths root;
      es ← canonicalize_roots ceilingPaths roots;
      mret (e :: es)
  end.

Definition canonicalizeSessionFilesystemRoots (roots : list sessionFilesystemRootEntry)
    (ceilingPaths : list string) : HP (list AllowedRootEntry) :=
  canonical ← canonicalize_roots ceilingPaths roots;
  _ ← hp_check "session filesystem roots" [ErrInvalidSessionFilesystemPolicy]
        (validateCanonicalAllowedRootEntries canonical);
  mret canonical.

(** The workspace half of [createSessionWithPolicyLocked]: the canonical
    workspace of an admitted spelling. *)
Definition admit_workspace (p : sessionCreatePolicy) : HP string :=
  if bool_decide (cp_Workspace p = "") then hp_fail "workspace is required" [ErrInvalidWorkspace]
  else if bool_decide (cp_LauncherID p = "") then hp_fail "launcher is required" [ErrInvalidWorkspace]
  else match Abs h (cp_Workspace p) with
  | None => hp_fail "cannot resolve workspace path" [ErrInvalidWorkspace]
  | Some absWorkspace =>
      if bool_decide (cp_EffectiveAllowedRootPaths p = []) then
        hp_fail "no allowed roots configured" [ErrInvalidWorkspace]
      else
        let rawSpelling := Clean absWorkspace in
        if negb (isWithinAnyAllowedRoot rawSpelling (cp_EffectiveAllowedRootPaths p)) then
          hp_fail "workspace must be inside an allowed root" [ErrInvalidWorkspace]
        else
          _ ← hp_check "workspace" [ErrInvalidWorkspace] (validateHostPathText rawSpelling);
          resolved ← resolve_link (workspacePathResolutionFailure "cannot resolve workspace symlinks") absWorkspace;
          info ← stat_path (workspacePathResolutionFailure "cannot access workspace") resolved;
          if negb (bool_decide (info = is_dir)) then hp_fail "workspace is not a directory" [ErrInvalidWorkspace]
          else
            _ ← hp_check "workspace" [ErrInvalidWorkspace] (validateHostPathText resolved);
            if existsb (λ root, bool_decide (resolved ≠ root) && pathWithin root resolved)
                 (cp_EffectiveAllowedRootPaths p)
            then mret resolved
            else hp_fail "workspace must be inside an allowed root" [ErrInvalidWorkspace]
  end.

(** The policy half: the entries of the snapshot to issue. *)
Definition snapshot_entries_for (p : sessionCreatePolicy) (absWorkspace : string) : HP (list AllowedRootEntry) :=
  if bool_decide (cp_FilesystemRoots p ≠ []) then
    requested ← canonicalizeSessionFilesystemRoots (cp_FilesystemRoots p) (cp_EffectiveAllowedRootPaths p);
    hp_lift (narrowSessionFilesystemPolicy (cp_EffectiveAllowedRoots p) absWorkspace requested)
  else
    hp_lift match deriveSessionFilesystemSnapshot (cp_EffectiveAllowedRoots p) absWorkspace with
            | Ok derived => Ok (Entries derived)
            | Err e => Err (wrap_error "cannot derive session filesystem snapshot" [] e)
            end.

Definition admit_session (p : sessionCreatePolicy) : HP sessionFilesystemSnapshot :=
  absWorkspace ← admit_workspace p;
  entries ← snapshot_entries_for p absWorkspace;
  hp_lift match newSessionFilesystemSnapshot absWorkspace entries with
          | Ok snapshot => Ok snapshot
          | Err e => Err (wrap_error "cannot construct session filesystem snapshot" [] e)
          end.

End admission.

(** ** The conditional insert *)

Definition sessionIDPrefix : string := "dhs_".

(** [generateSessionToken]: [None] is a failing [rand.Read]. *)
Definition generateSessionToken (draw : option string) : result string :=
  match draw with
  | None => errorf "cannot generate random bytes" []
  | Some hex => Ok ("dht_" +:+ hex)
  end.

(** [l.id = ? AND l.enabled = 1 AND p.enabled = 1] over the join. *)
Definition launcher_available (launcherID : string) (d : db) : bool :=
  match launcher_join launcherID d with
  | Some (l, p) => l_enabled l && p_enabled p
  | None => false
  end.

(** The row of the credential clause: exact ID and exact owner. *)
Definition create_credential_row (a : sessionCreateCredentialAuthority) (d : db) : option credential_row :=
  match credentials d !! cc_credentialID a with
  | Some r =>
      if bool_decide (cc_launcherID a ≠ "") then
        if bool_decide (c_launcher_id r = Some (cc_launcherID a)) then Some r else None
      else if bool_decide (c_principal_id r = Some (cc_principalID a) ∧ c_launcher_id r = None) then Some r
      else None
  | None => None
  end.

Definition credential_clause (c : option sessionCreateCredentialAuthority) (d : db) : bool :=
  match c with
  | None => true
  | Some a => match create_credential_row a d with Some r => is_active r | None => false end
  end.

(** [INSERT INTO sessions ... SELECT ... WHERE]: how many rows it inserted. *)
Definition insert_session_row (id : string) (row : session_row) (c : option sessionCreateCredentialAuthority)
    : DB bool :=
  stmt (λ d,
    if launcher_available (s_launcher_id row) d && credential_clause c d then
      if bool_decide (is_Some (sessions d !! id)) ||
         existsb (λ kv, bool_decide (s_token_hash kv.2 = s_token_hash row)) (map_to_list (sessions d))
      then Err unique_error
      else Ok (true, set_sessions (<[id := row]> (sessions d)) d)
    else Ok (false, d)).

(** The classification always is an error. *)
Definition classifyStaleSessionCreateAuthority (launcherID : string)
    (c : option sessionCreateCredentialAuthority) : DB unit :=
  available ← wrapf "cannot recheck launcher availability" [] (query (launcher_available launcherID));
  if negb available then db_fail "launcher unavailable" [ErrLauncherUnavailable]
  else match c with
  | None => db_fail "session insert recheck inconsistency" [ErrDatabase]
  | Some a =>
      row ← wrapf "cannot recheck credential authority" [] (query (create_credential_row a));
      match row with
      | None => db_fail "authorizing credential no longer exists for the authenticated owner" [ErrCredentialNotFound]
      | Some r =>
          if is_active r then db_fail "session insert recheck inconsistency" [ErrDatabase]
          else db_fail "authorizing credential is revoked" [ErrCredentialRevoked]
      end
  end.

Definition insertSession (id : string) (row : session_row) (c : option sessionCreateCredentialAuthority)
    (snapshot : sessionFilesystemSnapshot) : DB unit :=
  transaction "cannot begin session creation transaction" "commit"
    (inserted ← insert_session_row id row c;
     if negb inserted then
       wrapf "session create stale-authority rejection" []
         (classifyStaleSessionCreateAuthority (s_launcher_id row) c)
     else
       wrapf "cannot persist session filesystem snapshot" []
         (insertSessionFilesystemSnapshot id (Entries snapshot))).

(** ** Creation *)

Definition second : Z := 1000000000.

(** The random draws, the clock (nanoseconds) and the configured TTL. *)
Record create_env := mkCreateEnv {
  ce_id : option string; ce_token : option string; ce_now : Z; ce_ttl : Z }.

Definition stale_authority (e : error) : bool :=
  errors_is e ErrLauncherUnavailable || errors_is e ErrCredentialRevoked || errors_is e ErrCredentialNotFound.

Section create.
Context {W : Type} `{!sessionMACDriver W}.

(** [hasMAC] is false when no coordinator is configured. *)
Definition createSessionWithPolicyLocked (h : host) (env : create_env) (hasMAC : bool) (p : sessionCreatePolicy)
    (s : mac W) : result CreatedSession * list probe * mac W :=
  match admit_session h p [] with
  | (Err e, l) => (Err e, l, s)
  | (Ok snapshot, l) =>
      match ce_id env, generateSessionToken (ce_token env) with
      | None, _ => (errorf "cannot generate session ID" [ErrSystem], l, s)
      | Some _, Err e => (Err (wrap_error "cannot generate session token" [ErrSystem] e), l, s)
      | Some hex, Ok token =>
          let sessionID := sessionIDPrefix +:+ hex in
          let now := ce_now env in
          let expiresAt := now + ce_ttl env in
          let row := mkSession (sha256_hex token) (Workspace snapshot) (now / second) (expiresAt / second)
                       (cp_LauncherID p) in
          let insert := insertSession sessionID row (cp_Credential p) snapshot in
          let created := mkCreated
            (mkSess sessionID (Workspace snapshot) now expiresAt (cp_LauncherID p) (cp_LauncherName p)
               (cp_PrincipalName p)) token snapshot in
          let fail (e : error) : result CreatedSession :=
            Err (wrap_error "cannot create session"
                   (if stale_authority e then []
                    else if hasMAC && errors_is e ErrMACPreparation then [ErrMAC] else [ErrDatabase]) e) in
          if hasMAC then
            match CreateSessionBinding sessionID (sessionMACBoundaries snapshot) (λ _, insert) s with
            | (Err e, s) => (fail e, l, s)
            | (Ok _, s) => (Ok created, l, s)
            end
          else
            match on_db insert s with
            | (Err e, s) => (fail e, l, s)
            | (Ok _, s) => (Ok created, l, s)
            end
      end
  end.

End create.

(** ** Session control scopes (src/session_control.go) *)

Record sessionControlScope := mkScope { sc_admin : bool; sc_principalID : Z; sc_launcherID : string }.

Definition resolveSessionControlScope (auth : option operatorAuthority) : result sessionControlScope :=
  match auth with
  | None => errorf "session control authorization missing" []
  | Some a =>
      match auth_class a, auth_principal a, auth_launcher a with
      | operatorAuthorityAdmin, _, _ => Ok (mkScope true 0 "")
      | operatorAuthorityLauncher, _, Some la => Ok (mkScope false 0 (la_LauncherID la))
      | operatorAuthorityPrincipal, Some pa, _ => Ok (mkScope false (pa_PrincipalID pa) "")
      | _, _, _ => errorf "session control authorization has no scope" []
      end
  end.

Definition narrowSessionScopeToLauncher (principalID : Z) (launcherSel : string) : DB sessionControlScope :=
  l ← resolveLauncherSelector (if bool_decide (principalID ≠ 0) then Some principalID else None) launcherSel;
  mret (mkScope false 0 (lp_ID l)).

Definition resolveSessionListScope (auth : option operatorAuthority) (principalSel launcherSel : string)
    : DB sessionControlScope :=
  base ← db_result (resolveSessionControlScope auth);
  if bool_decide (sc_launcherID base ≠ "") then
    if bool_decide (principalSel ≠ "" ∨ launcherSel ≠ "") then db_fail "invalid session selector" [ErrInvalidSelector]
    else mret base
  else if bool_decide (sc_principalID base ≠ 0) then
    if bool_decide (principalSel ≠ "") then db_fail "invalid session selector" [ErrInvalidSelector]
    else if bool_decide (launcherSel = "") then mret base
    else narrowSessionScopeToLauncher (sc_principalID base) launcherSel
  else if sc_admin base then
    principalID ← (if bool_decide (principalSel ≠ "") then
                     target ← resolvePrincipalControlTarget auth principalSel; mret (pt_ID target)
                   else mret 0 : DB Z);
    if bool_decide (launcherSel = "") then
      mret (if bool_decide (principalID ≠ 0) then mkScope false principalID "" else base)
    else narrowSessionScopeToLauncher principalID launcherSel
  else db_fail "session list authorization has no scope" [].

(** ** The ownership queries *)

(** [sessionOwnershipProjection]: the Session joined with its owners. *)
Definition session_projection (id : string) (row : session_row) (d : db) : option Session :=
  match launcher_join (s_launcher_id row) d with
  | Some (l, p) =>
      Some (mkSess id (s_workspace row) (s_created_at row) (s_expires_at row) (s_launcher_id row) (l_name l) (p_username p))
  | None => None
  end.

(** The predicate over the joined row. *)
Definition sessionScopePredicate (scope : sessionControlScope) (row : session_row) (l : launcher_row) : bool :=
  if sc_admin scope then true
  else if bool_decide (sc_launcherID scope ≠ "") then bool_decide (s_launcher_id row = sc_launcherID scope)
  else if bool_decide (sc_principalID scope ≠ 0) then bool_decide (l_principal_id l = sc_principalID scope)
  else false.

(** The predicate of the standalone DELETE, through a subquery. *)
Definition sessionDeletePredicate (scope : sessionControlScope) (row : session_row) (d : db) : bool :=
  if sc_admin scope then true
  else if bool_decide (sc_launcherID scope ≠ "") then bool_decide (s_launcher_id row = sc_launcherID scope)
  else if bool_decide (sc_principalID scope ≠ 0) then
    match launchers d !! s_launcher_id row with
    | Some l => bool_decide (l_principal_id l = sc_principalID scope)
    | None => false
    end
  else false.

(** One row of a scoped ownership query. *)
Definition scoped_session (scope : sessionControlScope) (d : db) (kv : string * session_row) : option Session :=
  match launcher_join (s_launcher_id kv.2) d with
  | Some (l, _) => if sessionScopePredicate scope kv.2 l then session_projection kv.1 kv.2 d else None
  | None => None
  end.

Definition created_before (a b : Session) : Prop := ss_CreatedAt a <= ss_CreatedAt b.
#[export] Instance created_before_dec : RelDecision created_before.
Proof. intros a b. unfold created_before. apply _. Defined.

Definition listSessionsInScope (now : Z) (scope : sessionControlScope) : DB (list Session) :=
  wrapf "cannot list sessions" []
    (query (λ d, merge_sort created_before
       (omap (λ kv, if now <? s_expires_at kv.2 then scoped_session scope d kv else None)
          (map_to_list (sessions d))))).

Definition find_scoped (id : string) (scope : sessionControlScope) (d : db) : option Session :=
  match sessions d !! id with Some row => scoped_session scope d (id, row) | None => None end.

Definition findSessionInScope (id : string) (scope : sessionControlScope) : DB Session :=
  row ← wrapf "cannot find session" [ErrDatabase] (query (find_scoped id scope));
  match row with
  | None => db_fail "session not found" [ErrSessionNotFound]
  | Some s => mret s
  end.

(** [DELETE FROM sessions WHERE id = ?] with the snapshot cascade. *)
Definition delete_session_row (id : string) (scope : sessionControlScope) : DB bool :=
  stmt (λ d, match sessions d !! id with
             | Some row =>
                 if sessionDeletePredicate scope row d then
                   Ok (true, set_snapshots (snapshot_tables d)
                               (filter (λ kv : string * Z * (string * string), kv.1.1 ≠ id) (snapshot_entries d))
                               (delete id (snapshot_meta d))
                               (set_sessions (delete id (sessions d)) d))
                 else Ok (false, d)
             | None => Ok (false, d)
             end).

(** The database half of [deleteSessionScoped]: the metadata may accompany a
    failure. *)
Definition delete_session_db (id : string) (scope : sessionControlScope) : DB Session :=
  s ← findSessionInScope id scope;
  affected ← wrapf "cannot delete session" [ErrDatabase] (delete_session_row id scope);
  if affected : bool then mret s else db_fail "session not found" [ErrSessionNotFound].

(** [DELETE FROM sessions WHERE expires_at <= ?] with the snapshot cascade: how
    many rows went. *)
Definition expired (now : Z) (d : db) (id : string) : bool :=
  match sessions d !! id with Some row => s_expires_at row <=? now | None => false end.

Definition cleanupExpiredSessions (now : Z) : DB nat :=
  wrapf "cannot clean up expired sessions" []
    (stmt (λ d,
       Ok (size (filter (λ kv : string * session_row, Is_true (expired now d kv.1)) (sessions d)),
           drop_sessions (expired now d) d))).

(** [findSessionByTokenQuerier] at time [now]. *)
Definition findSessionByToken (token : string) (now : Z) : DB Session :=
  row ← wrapf "cannot find session by token" []
    (query (λ d, match find_row (λ _ row, bool_decide (s_token_hash row = sha256_hex token) &&
                                          (now <? s_expires_at row) && launcher_available (s_launcher_id row) d)
                       (sessions d) with
                 | Some (id, row) => session_projection id row d
                 | None => None
                 end));
  match row with
  | None => db_fail "session not found" [ErrSessionNotFound]
  | Some s => mret s
  end.

Definition resolveSessionExecutionIdentity (s : Session) : DB (Z * Z) :=
  row ← wrapf "cannot lookup launcher principal identity" [] (query (launcher_join (ss_LauncherID s)));
  match row with
  | None => db_fail "launcher principal not found" [ErrDatabase]
  | Some (_, p) => mret (p_uid p, p_gid p)
  end.

(** ** Create authorization *)

Record createSelector := mkSelector { sel_launcherID : string; sel_principal : string }.

Definition resolveLauncherWithinPrincipal (launcherID : string) (principalID : Z) : DB string :=
  row ← wrapf "cannot check launcher ownership" [] (query (λ d, l_principal_id <$> launchers d !! launcherID));
  match row with
  | None => db_fail "launcher not found" [ErrLauncherNotFound]
  | Some owner =>
      if bool_decide (owner ≠ principalID) then db_fail "launcher not found" [ErrLauncherNotFound]
      else mret launcherID
  end.

Definition resolveCreateLauncher (auth : option operatorAuthority) (sel : createSelector) : DB string :=
  if bool_decide (sel_launcherID sel ≠ "" ∧ sel_principal sel ≠ "")
  then db_fail "conflicting session selectors" [ErrConflictingSelectors]
  else match auth with
  | None => db_fail "invalid session selector" [ErrInvalidSelector]
  | Some a =>
      match auth_class a, auth_principal a, auth_launcher a with
      | operatorAuthorityAdmin, _, _ =>
          if bool_decide (sel_launcherID sel ≠ "") then mret (sel_launcherID sel)
          else if bool_decide (sel_principal sel ≠ "") then
            pid ← (λ d f, match findPrincipalIDByUsername (sel_principal sel) d f with
                          | (Err e, d, f) =>
                              ((if errors_is e ErrPrincipalNotFound
                                then errorf "launcher not found" [ErrLauncherNotFound] else Err e), d, f)
                          | r => r
                          end) : DB Z;
            findDefaultLauncher pid
          else db_fail "missing launcher selector" [ErrMissingLauncherSelector]
      | operatorAuthorityLauncher, _, Some la =>
          if bool_decide (sel_principal sel ≠ "") then db_fail "invalid session selector" [ErrInvalidSelector]
          else if bool_decide (sel_launcherID sel ≠ "" ∧ sel_launcherID sel ≠ la_LauncherID la)
          then db_fail "launcher not found" [ErrLauncherNotFound]
          else mret (la_LauncherID la)
      | operatorAuthorityPrincipal, Some pa, _ =>
          if bool_decide (sel_principal sel ≠ "") then db_fail "invalid session selector" [ErrInvalidSelector]
          else if bool_decide (sel_launcherID sel ≠ "")
          then resolveLauncherWithinPrincipal (sel_launcherID sel) (pa_PrincipalID pa)
          else findDefaultLauncher (pa_PrincipalID pa)
      | _, _, _ => db_fail "invalid session selector" [ErrInvalidSelector]
      end
  end.

(** The one-transaction ownership snapshot (with the names and flags). *)
Record ownership_facts := mkFacts {
  of_launcherID : string; of_launcherName : string; of_launcherEnabled : bool;
  of_principalName : string; of_principalEnabled : bool; of_policy : sessionOwnershipSnapshot }.

Definition loadSessionOwnershipSnapshot (launcherID : string) : DB ownership_facts :=
  row ← wrapf "cannot find launcher" [] (query (launcher_join launcherID));
  match row with
  | None => db_fail "launcher not found" [ErrLauncherNotFound]
  | Some (l, p) =>
      launcherRoots ← (if bool_decide (l_scope_mode l = LauncherScopeRestricted)
                       then readLauncherAllowedRoots launcherID else mret []);
      principalRoots ← readPrincipalAllowedRoots (l_principal_id l);
      mret (mkFacts launcherID (l_name l) (l_enabled l) (p_username p) (p_enabled p)
              (mkOwnership (l_principal_id l) principalRoots (l_scope_mode l) launcherRoots))
  end.

Definition resolveSessionOwnershipSnapshot (launcherID : string) : DB ownership_facts :=
  transaction "cannot begin ownership snapshot" "cannot commit ownership snapshot"
    (loadSessionOwnershipSnapshot launcherID).

(** [resolveAllowedRootEntries]: any unresolvable root fails closed. *)
Fixpoint resolveAllowedRootEntries (h : host) (entries : list AllowedRootEntry) : result (list AllowedRootEntry) :=
  match entries with
  | [] => Ok []
  | e :: entries =>
      match evalSymlinksFn h (Path e) with
      | inr _ => errorf "cannot resolve allowed root" [ErrSystem]
      | inl resolved => l ← resolveAllowedRootEntries h entries; mret (mkEntry resolved (Access e) :: l)
      end
  end.

Definition sessionCreateCredentialAuthorityOf (auth : option operatorAuthority)
    : option sessionCreateCredentialAuthority :=
  match auth with
  | Some a =>
      match auth_class a, auth_principal a, auth_launcher a with
      | operatorAuthorityPrincipal, Some pa, _ => Some (mkCreateCredential (pa_CredentialID pa) (pa_PrincipalID pa) "")
      | operatorAuthorityLauncher, _, Some la => Some (mkCreateCredential (la_CredentialID la) 0 (la_LauncherID la))
      | _, _, _ => None
      end
  | None => None
  end.

(** [globals] is the configured list of global allowed roots. *)
Definition resolveCreatePolicy (h : host) (globals : list AllowedRootEntry) (auth : option operatorAuthority)
    (sel : createSelector) (workspace : string) (filesystemRoots : list sessionFilesystemRootEntry)
    : DB sessionCreatePolicy :=
  launcherID ← resolveCreateLauncher auth sel;
  snap ← resolveSessionOwnershipSnapshot launcherID;
  if negb (of_launcherEnabled snap) || negb (of_principalEnabled snap)
  then db_fail "launcher unavailable" [ErrLauncherUnavailable]
  else
    globalEntries ← db_result (match resolveAllowedRootEntries h globals with
                               | Ok l => Ok l
                               | Err _ => errorf "system error" [ErrSystem]
                               end);
    effectiveEntries ← db_result (effectiveLauncherAllowedRoots globalEntries (of_policy snap));
    mret (mkCreatePolicy workspace effectiveEntries (allowedRootPaths effectiveEntries) filesystemRoots
            (of_launcherID snap) (of_launcherName snap) (of_principalName snap)
            (sessionCreateCredentialAuthorityOf auth)).

Section lifecycle.
Context {W : Type} `{!sessionMACDriver W}.

(** [lifecycleFree] says whether [lifecycleMu.TryLock] succeeds. *)
Definition createSessionAuthorized (h : host) (globals : list AllowedRootEntry) (env : create_env) (hasMAC : bool)
    (lifecycleFree : bool) (auth : option operatorAuthority) (sel : createSelector) (workspace : string)
    (filesystemRoots : list sessionFilesystemRootEntry) (s : mac W)
    : result CreatedSession * list probe * mac W :=
  if negb lifecycleFree then (errorf "lifecycle coordination is busy" [ErrLifecycleBusy], [], s)
  else match on_db (resolveCreatePolicy h globals auth sel workspace filesystemRoots) s with
       | (Err e, s) => (Err e, [], s)
       | (Ok policy, s) => createSessionWithPolicyLocked h env hasMAC policy s
       end.

Definition deleteSessionScoped (hasMAC : bool) (id : string) (scope : sessionControlScope) (s : mac W)
    : result Session * mac W :=
  match on_db (delete_session_db id scope) s with
  | (Err e, s) => (Err e, s)
  | (Ok sess, s) => (Ok sess, if hasMAC then ReleaseSessionBinding id s else s)
  end.

End lifecycle.
