(* ===== verification/SessionTheory.v ===== *)
(** * SessionTheory: lemmas on Session admission, creation and scopes *)
From S2P Require Import Prelude Filepath AllowedRoots AllowedRootsTheory GoStrings WorkspacePolicy Sha256 Database SnapshotStore SnapshotSpec Credential Launcher MacLifecycle MacTheory Session.
Local Open Scope Z_scope.

(** ** The probe log *)

Section probes.
Context (h : host) (ok : string → Prop).

(** Every resolved spelling is [ok], and a stat runs only on what a recorded
    resolution answered. *)
Definition admitted_by (l : list probe) : Prop :=
  (∀ q, EvalSymlinks q ∈ l → ok q) ∧
  (∀ q, Stat q ∈ l → ∃ q0, EvalSymlinks q0 ∈ l ∧ evalSymlinksFn h q0 = inl q).

(** A computation that only adds admitted probes. *)
Definition admits {A} (m : HP A) : Prop := ∀ l, admitted_by l → admitted_by (m l).2.

Lemma admits_ret {A} (r : result A) : admits (hp_lift r).
Proof. by intros l Hl. Qed.

Lemma admits_bind {A B} (m : HP A) (k : A → HP B) :
  admits m → (∀ a, admits (k a)) → admits (hp_bind A B k m).
Proof.
  intros Hm Hk l Hl. unfold hp_bind. specialize (Hm l Hl). destruct (m l) as [[a|e] l']; [by apply Hk|done].
Qed.

Lemma admits_check {A} t w (r : result unit) (k : unit → HP A) :
  (r = Ok () → admits (k ())) → admits (hp_bind unit A k (hp_check t w r)).
Proof. intros H l Hl. unfold hp_bind, hp_check. destruct r as [[]|]; [by apply H|done]. Qed.

Lemma admitted_link l q : admitted_by l → ok q → admitted_by (l ++ [EvalSymlinks q]).
Proof.
  intros [H1 H2] Hq. split.
  - intros q' [?|[= ->]%list_elem_of_singleton]%elem_of_app; auto.
  - intros q' [(q0 & ? & ?)%H2|?%list_elem_of_singleton]%elem_of_app; [|done]. exists q0. split; [set_solver|done].
Qed.

Lemma admitted_stat l q r : admitted_by l → EvalSymlinks q ∈ l → evalSymlinksFn h q = inl r → admitted_by (l ++ [Stat r]).
Proof.
  intros [H1 H2] Hq Er. split.
  - intros q' [?|?%list_elem_of_singleton]%elem_of_app; [auto|done].
  - intros q' [(q0 & ? & ?)%H2|[= ->]%list_elem_of_singleton]%elem_of_app; [exists q0|exists q]; split; set_solver.
Qed.

(** A resolution followed by the stat of its answer. *)
Lemma admits_resolve {A} fail1 fail2 q (k : string → file_mode → HP A) :
  ok q → (∀ r i, admits (k r i)) →
  admits (hp_bind _ _ (λ r, hp_bind _ _ (λ i, k r i) (stat_path h fail2 r)) (resolve_link h fail1 q)).
Proof.
  intros Hq Hk l Hl. unfold hp_bind, resolve_link, stat_path. simpl. apply (admitted_link _ q) in Hl; [|done].
  destruct (evalSymlinksFn h q) as [r|e] eqn:Er; [|exact Hl]. simpl.
  apply (admitted_stat _ q r) in Hl; [|set_solver|done]. destruct (osStatFn h r) as [i|e]; [by apply Hk|exact Hl].
Qed.

End probes.

(** The resolution runs on a spelling inside the ceiling whose text the grammar
    accepts. *)
Definition spelling_admitted (paths : list string) (q : string) : Prop :=
  isWithinAnyAllowedRoot (Clean q) paths = true ∧ plain_text (Clean q).
Definition admitted_log (h : host) (paths : list string) : list probe → Prop := admitted_by h (spelling_admitted paths).

Lemma Clean_idem p : IsAbs p = true → Clean (Clean p) = Clean p.
Proof. intros Ha. apply Clean_canonical in Ha. unfold canonical in Ha. by apply andb_true_iff in Ha as [_ ?%bool_decide_eq_true_1]. Qed.

Section roots.
Context (h : host) (paths : list string).

Lemma canonicalize_root_admits root : admits h (spelling_admitted paths) (canonicalize_root h paths root).
Proof.
  unfold canonicalize_root, mbind. destruct (_ || _) eqn:Eabs; [apply admits_ret|].
  apply orb_false_iff in Eabs as [_ Habs%negb_false_iff].
  destruct (parseAllowedRootAccess (re_Access root)) as [a|]; [|apply admits_ret].
  destruct (isWithinAnyAllowedRoot (Clean (re_Path root)) paths) eqn:Ew; [|apply admits_ret]. simpl negb. cbn iota.
  apply admits_check. intros Ht. apply text_ok in Ht. apply admits_resolve; [split; by rewrite Clean_idem|].
  intros r i. case_bool_decide; [apply admits_ret|]. apply admits_check. intros _. apply admits_ret.
Qed.

Lemma canonicalize_roots_admits roots : admits h (spelling_admitted paths) (canonicalize_roots h paths roots).
Proof.
  induction roots as [|r roots IH]; simpl; [apply admits_ret|].
  apply admits_bind; [apply canonicalize_root_admits|]. intros e. apply admits_bind; [exact IH|]. intros es. apply admits_ret.
Qed.

End roots.

Lemma admit_session_admits h p : admits h (spelling_admitted (cp_EffectiveAllowedRootPaths p)) (admit_session h p).
Proof.
  unfold admit_session, mbind. apply admits_bind.
  - unfold admit_workspace, mbind. case_bool_decide; [apply admits_ret|]. case_bool_decide; [apply admits_ret|].
    destruct (Abs h (cp_Workspace p)) as [aw|]; [|apply admits_ret]. case_bool_decide; [apply admits_ret|].
    destruct (isWithinAnyAllowedRoot (Clean aw) _) eqn:Ew; [|apply admits_ret]. simpl negb. cbn iota.
    apply admits_check. intros Ht. apply text_ok in Ht. apply admits_resolve; [done..|].
    intros r i. destruct (negb _); [apply admits_ret|]. apply admits_check. intros _.
    destruct (existsb _ _); apply admits_ret.
  - intros aw. apply admits_bind; [|intros entries; apply admits_ret].
    unfold snapshot_entries_for, mbind. case_bool_decide; [|apply admits_ret].
    apply admits_bind; [|intros r; apply admits_ret]. unfold canonicalizeSessionFilesystemRoots, mbind.
    apply admits_bind; [apply canonicalize_roots_admits|]. intros c. apply admits_check. intros _. apply admits_ret.
Qed.

(** ** What an admitted snapshot is *)

Lemma hp_bind_ok {A B} (m : HP A) (k : A → HP B) l b l' :
  hp_bind A B k m l = (Ok b, l') → ∃ a l0, m l = (Ok a, l0) ∧ k a l0 = (Ok b, l').
Proof. unfold hp_bind. destruct (m l) as [[a|e] l0]; [|done]. eauto. Qed.

Lemma hp_check_ok t w r l u l' : hp_check t w r l = (Ok u, l') → r = Ok () ∧ l' = l.
Proof. unfold hp_check. destruct r as [[]|]; [|done]. by intros [= _ <-]. Qed.

Lemma admit_workspace_ok h p l ws l' :
  admit_workspace h p l = (Ok ws, l') →
  cp_LauncherID p ≠ "" ∧ osStatFn h ws = inl is_dir ∧ plain_text ws ∧
  ∃ root, root ∈ cp_EffectiveAllowedRootPaths p ∧ ws ≠ root ∧ pathWithin root ws = true.
Proof.
  unfold admit_workspace, mbind. case_bool_decide as E1; [done|]. case_bool_decide as El; [done|].
  destruct (Abs h (cp_Workspace p)) as [aw|]; [|done]. case_bool_decide as E2; [done|].
  destruct (isWithinAnyAllowedRoot (Clean aw) _); [|done]. simpl negb. cbn iota.
  intros (u1 & l1 & [_ ->]%hp_check_ok & H)%hp_bind_ok. apply hp_bind_ok in H as (r & l2 & Hr & H).
  apply hp_bind_ok in H as (i & l3 & Hi & H). unfold resolve_link in Hr. unfold stat_path in Hi.
  destruct (osStatFn h r) as [i'|] eqn:Es; [|done]. injection Hi as <- <-.
  case_bool_decide as Ed; [|done]. subst i'. simpl negb in H. cbn iota in H.
  apply hp_bind_ok in H as (u2 & l4 & [Ht ->]%hp_check_ok & H). apply text_ok in Ht.
  destruct (existsb _ _) eqn:Ex; [|done]. injection H as <- _.
  apply existsb_exists in Ex as (root & Hroot & [Hne%bool_decide_eq_true_1 Hw]%andb_true_iff).
  split_and!; [done..|]. exists root. split_and!; [by apply list_elem_of_In|done|done].
Qed.

Lemma narrow_authority c ws req composed :
  valid_entries c → canonical ws = true → narrowSessionFilesystemPolicy c ws req = Ok composed →
  ∀ source, canonical source = true → is_Some (lookupAllowedRootAccess composed source) →
    is_Some (lookupAllowedRootAccess c source).
Proof.
  intros Hc Hw. unfold narrowSessionFilesystemPolicy. case_bool_decide; [done|].
  destruct (validateCanonicalAllowedRootEntries req) as [[]|] eqn:Hr; [|done].
  apply validate_ok in Hr. destruct (narrow_check c req) as [[]|e]; [|done]. simpl.
  destruct (lookupAllowedRootAccess c ws) as [implicit|] eqn:Hi; [|done].
  assert (Hiv : isValid implicit = true) by by apply (valid_lookup_access c ws).
  pose proof (narrow_scope_valid ws implicit req Hr Hw Hiv) as Hsv.
  case_bool_decide; [done|]. intros [= <-] source Hs Hsome.
  apply compose_authorizes in Hsome; [|done..]. unfold meet_lookup in Hsome.
  by destruct (lookupAllowedRootAccess c source); [|destruct Hsome].
Qed.

Lemma derive_authority eff ws snap :
  deriveSessionFilesystemSnapshot eff ws = Ok snap →
  ∀ source, canonical source = true → is_Some (lookupAllowedRootAccess (Entries snap) source) →
    is_Some (lookupAllowedRootAccess eff source).
Proof.
  unfold deriveSessionFilesystemSnapshot.
  destruct (validateCanonicalAllowedRootEntries eff) as [[]|] eqn:Hv; [|done]. simpl.
  apply validate_ok in Hv. destruct (negb _ || _) eqn:Hw; [done|]. apply canonical_unfold in Hw.
  destruct (lookupAllowedRootAccess eff ws) as [mode|] eqn:Hm; [|done].
  rewrite derive_candidates_ok by done. simpl. fold (derive_raw eff ws mode).
  intros (-> & _)%new_snapshot_ok source Hs Hsome. simpl in Hsome.
  assert (Hmv : isValid mode = true) by by apply (valid_lookup_access eff ws).
  assert (Hraw : is_Some (lookupAllowedRootAccess (derive_raw eff ws mode) source)).
  { unfold lookupAllowedRootAccess in *. rewrite fmap_is_Some in *.
    apply normalize_authorizes; [by apply derive_raw_valid|done|done]. }
  rewrite derive_raw_lookup in Hraw by done. destruct (pathWithin ws source); [done|]. by destruct Hraw.
Qed.

(** The snapshot of an admitted request. *)
Definition admitted_snapshot (h : host) (p : sessionCreatePolicy) (snap : sessionFilesystemSnapshot) : Prop :=
  cp_LauncherID p ≠ "" ∧ snapshot_wf snap ∧ osStatFn h (Workspace snap) = inl is_dir ∧ plain_text (Workspace snap) ∧
  (∃ root, root ∈ cp_EffectiveAllowedRootPaths p ∧ Workspace snap ≠ root ∧ pathWithin root (Workspace snap) = true) ∧
  (∀ source, canonical source = true → is_Some (LookupAccess snap source) →
     is_Some (lookupAllowedRootAccess (cp_EffectiveAllowedRoots p) source)).

Lemma admit_session_ok h p l snap l' :
  valid_entries (cp_EffectiveAllowedRoots p) → admit_session h p l = (Ok snap, l') → admitted_snapshot h p snap.
Proof.
  intros Hv. unfold admit_session, mbind. intros (ws & l1 & Hws & H)%hp_bind_ok.
  apply admit_workspace_ok in Hws as (Hl & Hs & Ht & Hr).
  apply hp_bind_ok in H as (entries & l2 & Hent & H). unfold hp_lift in H.
  destruct (newSessionFilesystemSnapshot ws entries) as [snap'|] eqn:En; [|done]. injection H as -> _.
  pose proof (new_snapshot_wf _ _ _ En) as Hwf. apply new_snapshot_ok in En as (-> & Hve & Hcw & _).
  split_and!; try done. intros source Hsrc Hsome. unfold LookupAccess in Hsome. simpl in Hsome.
  unfold snapshot_entries_for, mbind in Hent. case_bool_decide.
  - apply hp_bind_ok in Hent as (req & l3 & _ & Hent). injection Hent as Hn _.
    by eapply (narrow_authority _ ws req entries).
  - injection Hent as Hd _. destruct (deriveSessionFilesystemSnapshot _ ws) as [dv|] eqn:Ed; [|done].
    injection Hd as <-. by eapply derive_authority.
Qed.

(** ** The conditional insert *)

Lemma insert_row_ok id row c d f b d' f' :
  insert_session_row id row c d f = (Ok b, d', f') →
  if b : bool
  then launcher_available (s_launcher_id row) d = true ∧ credential_clause c d = true ∧ sessions d !! id = None ∧
       (∀ k r, sessions d !! k = Some r → s_token_hash r ≠ s_token_hash row) ∧
       d' = set_sessions (<[id := row]> (sessions d)) d
  else d' = d ∧ (launcher_available (s_launcher_id row) d && credential_clause c d) = false.
Proof.
  intros [H _]%stmt_ok. destruct (launcher_available _ _ && credential_clause c d) eqn:Ea.
  - apply andb_true_iff in Ea as [Hl Hc]. destruct (bool_decide _ || _) eqn:Eu; [done|]. injection H as <- <-.
    apply orb_false_iff in Eu as [Hi%bool_decide_eq_false_1 Hh]. split_and!; [done|done| | |done].
    + by apply eq_None_not_Some.
    + intros k r Hk. rewrite existsb_rows_false in Hh. specialize (Hh k r Hk). simpl in Hh.
      by apply bool_decide_eq_false_1 in Hh.
  - by injection H as <- <-.
Qed.

Lemma transaction_ok {A} b c (body : DB A) d f a d' f' :
  transaction b c body d f = (Ok a, d', f') → ∃ f0 f1, body d f0 = (Ok a, d', f1).
Proof. intros H. pose proof (transaction_atomic b c body d f) as Ht. by rewrite H in Ht. Qed.

Lemma transaction_err {A} b c (body : DB A) d f e d' f' :
  transaction b c body d f = (Err e, d', f') → d' = d.
Proof. intros H. pose proof (transaction_atomic b c body d f) as Ht. by rewrite H in Ht. Qed.

Lemma classify_stale_err lid c d f u d' f' : classifyStaleSessionCreateAuthority lid c d f ≠ (Ok u, d', f').
Proof.
  unfold classifyStaleSessionCreateAuthority. intros (av & d1 & f1 & _ & H)%db_bind_ok.
  destruct (negb av); [done|]. destruct c as [a|]; [|done].
  apply db_bind_ok in H as (r & d2 & f2 & _ & H). destruct r as [r|]; [|done]. by destruct (is_active r).
Qed.

(** What a committed create leaves in the database. *)
Lemma insertSession_ok id row c snap d f u d' f' :
  rows_are id [] d → insertSession id row c snap d f = (Ok u, d', f') →
  launcher_available (s_launcher_id row) d = true ∧ credential_clause c d = true ∧ sessions d !! id = None ∧
  (∀ k r, sessions d !! k = Some r → s_token_hash r ≠ s_token_hash row) ∧
  sessions d' = <[id := row]> (sessions d) ∧ mac_boundaries d' = mac_boundaries d ∧
  principals d' = principals d ∧ launchers d' = launchers d ∧ credentials d' = credentials d ∧
  rows_are id (Entries snap) d' ∧
  snapshot_meta d' = <[id := (Z.of_nat (length (Entries snap)), sessionFilesystemSnapshotDigest (Entries snap))]>
                       (snapshot_meta d).
Proof.
  intros Hrows (f0 & f1 & H)%transaction_ok. apply db_bind_ok in H as (ins & d1 & f2 & Hi & H).
  apply insert_row_ok in Hi. destruct ins; simpl in H.
  - destruct Hi as (Hl & Hc & Hn & Hh & ->). apply wrapf_ok in H.
    apply insert_snapshot_ok in H as ((Hp & _ & Hla & _ & Hcr & Hs & Hm) & Hr & Hmeta & _); [|done].
    split_and!; done.
  - by apply wrapf_ok, classify_stale_err in H.
Qed.

Lemma insertSession_insert_ok id row c snap : insert_ok (λ _, insertSession id row c snap).
Proof.
  intros covs d f. destruct (insertSession id row c snap d f) as [[[u|e] d'] f'] eqn:E.
  - apply transaction_ok in E as (f0 & f1 & H). apply db_bind_ok in H as (ins & d1 & f2 & Hi & H).
    apply insert_row_ok in Hi. destruct ins; simpl in H; [|by apply wrapf_ok, classify_stale_err in H].
    destruct Hi as (_ & _ & _ & _ & ->). apply wrapf_ok in H. unfold insertSessionFilesystemSnapshot in H.
    rewrite imap_pair_indexed in H. apply db_bind_ok in H as (v & d2 & f3 & H1 & H2).
    apply (insert_all_ok id 0 (Entries snap)) in H1 as ((_&_&_&_&_&_&Hm) & _).
    apply exec_ok in H2 as [H2 _]. unfold insert_meta in H2. destruct (snapshot_tables d2); [|done]. simpl in H2.
    case_bool_decide; [done|]. case_bool_decide; [done|]. injection H2 as <-. exact Hm.
  - by eapply transaction_err.
Qed.

(** The refusal of a create whose authority went stale, when no statement
    fails. *)
Lemma insertSession_stale id row c snap d f :
  calm f → (launcher_available (s_launcher_id row) d && credential_clause c d) = false →
  ∃ e f', insertSession id row c snap d f = (Err e, d, f') ∧
    if launcher_available (s_launcher_id row) d
    then match c with
         | None => False
         | Some a => match create_credential_row a d with
                     | None => errors_is e ErrCredentialNotFound = true
                     | Some r => errors_is e ErrCredentialRevoked = true
                     end
         end
    else errors_is e ErrLauncherUnavailable = true.
Proof.
  intros Hf Hs. unfold insertSession, transaction. rewrite stmt_calm by done.
  unfold mbind at 1, db_bind at 1, insert_session_row. rewrite stmt_calm by (by apply calm_tail). rewrite Hs. cbn [negb].
  unfold classifyStaleSessionCreateAuthority, wrapf at 1, mbind, db_bind, wrapf. simpl.
  rewrite query_calm by (by do 2 apply calm_tail). simpl.
  destruct (launcher_available (s_launcher_id row) d); simpl; [|by eauto]. simpl in Hs. destruct c as [a|]; [|done]. simpl in Hs.
  rewrite query_calm by (by do 3 apply calm_tail). simpl.
  destruct (create_credential_row a d) as [r|]; [|by eauto]. destruct (is_active r); [done|]. eauto.
Qed.
