(* ===== verification/SelinuxManager.v ===== *)
(** * SelinuxManager: src/selinux_fcontext.go — the file-context manager

    First the pure half: escaping a path into a fcontext
    pattern and classifying patterns back, the grammar of the records semanage
    prints, the mount points of /proc/self/mountinfo, the relabel guard and the
    overlap checks. *)
From S2P Require Import Prelude Filepath AllowedRoots GoStrings Database SnapshotStore MacLifecycle.
Local Open Scope Z_scope.

Definition selinuxWorkspaceType : string := "docker_helper_workspace_t".

Definition isUnderHome (canonical : string) : bool :=
  if bool_decide (canonical = "/home") then true else String.prefix "/home/" canonical.

Definition selinuxFcontextBoundaryAllowed (canonical : string) : bool := bool_decide (canonical ≠ "/opt").

(** ** Patterns *)

Definition backslash : ascii := "\"%char.

Definition meta_bytes : list ascii :=
  ["\"; "^"; "$"; "*"; "+"; "?"; "("; ")"; "["; "]"; "{"; "}"; "|"; "."]%char.
Definition is_meta (c : ascii) : bool := bool_decide (c ∈ meta_bytes).
Definition meta_rune (r : Z) : bool := existsb (λ c, byte_of c =? r) meta_bytes.

Definition escape_rune (r : Z) : string :=
  if meta_rune r then String backslash (EncodeRune r) else EncodeRune r.

Definition escapeFcontextPath (path : string) : string := str_concat (escape_rune <$> runes path).

Definition descendants : string := "(/.*)?".

Definition fcontextPatternFor (boundary : string) (kind : macBoundaryKind) : string :=
  let escaped := escapeFcontextPath boundary in
  if bool_decide (kind = macBoundaryRegularFile) then escaped else escaped +:+ descendants.

(** The byte loop of [unescapeFcontextPath]; [None] is an unknown escape. *)
Fixpoint unescapeFcontextPath (s : string) : option string :=
  match s with
  | "" => Some ""
  | String c r =>
      if bool_decide (c = backslash) then
        match r with
        | String next r' => if is_meta next then String next <$> unescapeFcontextPath r' else None
        | "" => Some (String c "")
        end
      else String c <$> unescapeFcontextPath r
  end.

Definition fcontextStem (pattern : string) : string :=
  match CutSuffix pattern descendants with
  | Some escaped =>
      match unescapeFcontextPath escaped with
      | None => ""
      | Some literal => if bool_decide (escapeFcontextPath literal ≠ escaped) then "" else literal
      end
  | None =>
      match unescapeFcontextPath pattern with
      | None => ""
      | Some literal =>
          if negb (String.prefix "/" literal) then ""
          else if bool_decide (escapeFcontextPath literal ≠ pattern) then "" else literal
      end
  end.

(** ** The rule inventory *)

Record fcontextRule := mkRule {
  pattern : string; fileType : string; isEquivalence : bool;
  equivalenceDest : string; equivalenceSource : string }.

Definition literal_meta : list ascii :=
  ["\"; "^"; "$"; "*"; "+"; "?"; "("; ")"; "["; "]"; "{"; "}"; "|"]%char.

Definition isLiteralAbsPath (s : string) : bool :=
  String.prefix "/" s && negb (existsb (λ r, existsb (λ c, byte_of c =? r) literal_meta) (runes s)).

Definition parseEquivalenceRedirect (line : string) : option fcontextRule :=
  match Cut line " = " with
  | None => None
  | Some (before, after) =>
      if bool_decide (before = "") then None
      else
        let dest := TrimSpace before in
        let source := TrimSpace after in
        if bool_decide (dest = "" ∨ source = "") then None
        else if negb (isLiteralAbsPath dest) || negb (isLiteralAbsPath source) then None
        else Some (mkRule line "" true dest source)
  end.

Definition context_type (ctxPart : string) : string :=
  match Cut ctxPart "object_r:" with
  | None => ""
  | Some (_, rest) => match Cut rest ":" with Some (typ, _) => typ | None => rest end
  end.

Definition parseFcontextLine (line0 : string) : option fcontextRule :=
  let line := TrimSpace line0 in
  match parseEquivalenceRedirect line with
  | Some eq => Some eq
  | None =>
      match Cut line " " with
      | None => None
      | Some (pat, _) =>
          let ctxPart := after_last " " line in
          if bool_decide (pat = "" ∨ ctxPart = "") then None
          else if bool_decide (ctxPart = "<<None>>") then Some (mkRule pat "" true "" "")
          else if bool_decide (context_type ctxPart = "") then None
          else Some (mkRule pat (context_type ctxPart) false "" "")
      end
  end.

Definition newline : ascii := "010"%char.

(** The line loop of [listLocalFcontextRules]. *)
Fixpoint parse_lines (lines : list string) : result (list fcontextRule) :=
  match lines with
  | [] => Ok []
  | line :: lines =>
      if bool_decide (TrimSpace line = "") then parse_lines lines
      else match parseFcontextLine (TrimSpace line) with
           | Some rule => rules ← parse_lines lines; mret (rule :: rules)
           | None => errorf "unparseable local fcontext customization; cannot safely determine overlap" []
           end
  end.

Definition parse_output (out : string) : result (list fcontextRule) := parse_lines (split_byte newline out).

Definition fcontextRulePresent (rules : list fcontextRule) (pat typ : string) : bool :=
  existsb (λ rule, bool_decide (pattern rule = pat) && bool_decide (fileType rule = typ)) rules.

Definition sameStemWorkspacePatterns (rules : list fcontextRule) (boundary : string) : list string :=
  omap (λ rule,
    if isEquivalence rule || bool_decide (fileType rule ≠ selinuxWorkspaceType) then None
    else if bool_decide (fcontextStem (pattern rule) ≠ boundary) then None
    else Some (pattern rule)) rules.

(** The decision of [proveOwnedFcontextShape] on a listed inventory. *)
Definition prove_shape (rules : list fcontextRule) (boundary : string) : result (option macBoundaryKind) :=
  match sameStemWorkspacePatterns rules boundary with
  | [] => Ok None
  | [pat] =>
      if bool_decide (pat = fcontextPatternFor boundary macBoundaryRegularFile) then Ok (Some macBoundaryRegularFile)
      else if bool_decide (pat = fcontextPatternFor boundary macBoundaryDirectory) then Ok (Some macBoundaryDirectory)
      else errorf "boundary has an unclassifiable same-stem workspace fcontext pattern" []
  | _ => errorf "boundary has several same-stem workspace fcontext rules" []
  end.

(** ** Overlap *)

Definition checkEquivalenceOverlap (boundary : string) (rule : fcontextRule) : result unit :=
  let overlaps p := bool_decide (p = boundary) || pathStrictlyWithin boundary p || pathStrictlyWithin p boundary in
  if bool_decide (equivalenceDest rule ≠ "") && overlaps (equivalenceDest rule)
  then errorf "SELinux fcontext equivalence destination overlaps" []
  else if bool_decide (equivalenceSource rule ≠ "") && overlaps (equivalenceSource rule)
  then errorf "SELinux fcontext equivalence source overlaps" []
  else Ok ().

(** One rule of [checkOverlap]. *)
Definition check_rule (boundary ourPattern : string) (rule : fcontextRule) : result unit :=
  if bool_decide (pattern rule = ourPattern) then Ok ()
  else if isEquivalence rule then
    if bool_decide (equivalenceDest rule ≠ "" ∨ equivalenceSource rule ≠ "")
    then checkEquivalenceOverlap boundary rule
    else errorf "unclassifiable SELinux fcontext equivalence record may overlap" []
  else if bool_decide (fileType rule = selinuxWorkspaceType) then Ok ()
  else
    let ruleStem := fcontextStem (pattern rule) in
    if bool_decide (ruleStem = "") then errorf "unclassifiable SELinux fcontext pattern may overlap" []
    else if pathStrictlyWithin boundary ruleStem then errorf "operator-local fcontext rule would be overridden" []
    else if pathStrictlyWithin ruleStem boundary then errorf "operator-local fcontext rule is an ancestor" []
    else Ok ().

Fixpoint checkOverlap (boundary ourPattern : string) (existing : list fcontextRule) : result unit :=
  match existing with
  | [] => Ok ()
  | rule :: existing => _ ← check_rule boundary ourPattern rule; checkOverlap boundary ourPattern existing
  end.

(** ** Mount points *)

Definition octal_digit (c : ascii) : option Z :=
  if in_range 48 55 (byte_of c) then Some (byte_of c - 48) else None.

(** [decodeMountinfoOctal] of three bytes; the result is truncated to a byte. *)
Definition decodeMountinfoOctal (a b c : ascii) : option Z :=
  match octal_digit a, octal_digit b, octal_digit c with
  | Some x, Some y, Some z => Some (((x * 8 + y) * 8 + z) mod 256)
  | _, _, _ => None
  end.

Fixpoint unescapeMountinfoPath (s : string) : string :=
  match s with
  | "" => ""
  | String c r =>
      if bool_decide (c = backslash) then
        match r with
        | String x (String y (String z r')) =>
            match decodeMountinfoOctal x y z with
            | Some v => String (to_byte v) (unescapeMountinfoPath r')
            | None => String c (unescapeMountinfoPath r)
            end
        | _ => String c (unescapeMountinfoPath r)
        end
      else String c (unescapeMountinfoPath r)
  end.

Fixpoint parse_mount_lines (lines : list string) : result (list string) :=
  match lines with
  | [] => Ok []
  | line :: lines =>
      if bool_decide (TrimSpace line = "") then parse_mount_lines lines
      else match Cut line " - " with
           | None => errorf "unparseable mountinfo line: missing field separator" []
           | Some (before, _) =>
               match Fields before !! 4%nat with
               | None => errorf "unparseable mountinfo line: fewer than five fields before separator" []
               | Some mp => mps ← parse_mount_lines lines; mret (unescapeMountinfoPath mp :: mps)
               end
           end
  end.

Definition parseMountinfoMountPoints (data : string) : result (list string) :=
  parse_mount_lines (split_byte newline data).

(** The mount-point loop of [checkTreeRelabelBoundary]. *)
Fixpoint mount_guard (ws : string) (mountPoints : list string) : result unit :=
  match mountPoints with
  | [] => Ok ()
  | mp :: mountPoints =>
      let cleanMP := Clean mp in
      if bool_decide (cleanMP = ws) then errorf "refusing recursive workspace relabel: workspace is itself a mount point" []
      else if pathWithin cleanMP ws then mount_guard ws mountPoints
      else if pathStrictlyWithin ws cleanMP then
        errorf "refusing recursive workspace relabel: mount point exists beneath workspace" []
      else mount_guard ws mountPoints
  end.

(** [checkTreeRelabelBoundary] on what reading the mount info returned. *)
Definition checkTreeRelabelBoundary (mountinfo : result string) (workspace : string) : result unit :=
  match mountinfo with
  | Err e => Err (wrap_error "cannot read mount info for workspace relabel safety" [] e)
  | Ok data =>
      match parseMountinfoMountPoints data with
      | Err e => Err (wrap_error "cannot parse mount info for workspace relabel safety" [] e)
      | Ok mountPoints => mount_guard (Clean workspace) mountPoints
      end
  end.

(** ** src/selinux_fcontext.go — the fcontext transitions

    The manager over the host's SELinux state [W]: the external commands
    (semanage, restorecon), the label reader, the kernel status, mount info and
    the file classifier are the operations of [selinuxHost], each of which may
    fail and change the host. *)

Class selinuxHost (W : Type) := {
  semanage_list : W → result string * W;               (* semanage fcontext -l -C -n *)
  semanage_add : string → string → W → result unit * W;    (* -a -t TYPE PATTERN *)
  semanage_delete : string → W → result unit * W;          (* -d PATTERN *)
  restorecon : bool → string → W → result unit * W;        (* recursive, path *)
  readPathCon : W → string → result string;
  selinuxActive : W → result (bool * bool);
  readMountinfo : W → result string;
  treeKind : W → string → result macBoundaryKind;
  acquireLock : W → result unit;
  procfsUsable : W → result unit;
}.

Section manager.
Context {W : Type} `{!selinuxHost W}.

(** A transition of the host that may fail. *)
Definition HM (A : Type) : Type := W → result A * W.
#[local] Instance hm_ret : MRet HM := λ A a w, (Ok a, w).
#[local] Instance hm_bind : MBind HM := λ A B k m w,
  match m w with (Ok a, w) => k a w | (Err e, w) => (Err e, w) end.
Definition hm_fail {A} (text : string) : HM A := λ w, (errorf text [], w).
Definition hm_wrapf {A} (text : string) (m : HM A) : HM A := λ w,
  match m w with (Err e, w) => (Err (wrap_error text [] e), w) | r => r end.
(** A read of the host. *)
Definition hm_get {A} (g : W → result A) : HM A := λ w, (g w, w).

Definition checkBoundary (tree : string) : HM unit := hm_get (λ w, checkTreeRelabelBoundary (readMountinfo w) tree).

Definition listLocalFcontextRules : HM (list fcontextRule) :=
  out ← hm_wrapf "semanage fcontext -l -C -n" semanage_list;
  hm_get (λ _, parse_output out).

Definition addFcontextRule (pat typ : string) : HM unit := hm_wrapf "semanage fcontext -a" (semanage_add typ pat).
Definition removeFcontextRule (pat : string) : HM unit := hm_wrapf "semanage fcontext -d" (semanage_delete pat).

Definition verifyActualType (path : string) : HM unit :=
  actual ← hm_wrapf "cannot verify SELinux type" (hm_get (λ w, readPathCon w path));
  if bool_decide (actual ≠ selinuxWorkspaceType) then hm_fail "SELinux type is not the expected one after restorecon"
  else mret ().

Definition restoreconTree (path : string) (kind : macBoundaryKind) : HM unit :=
  _ ← checkBoundary path;
  if bool_decide (kind = macBoundaryRegularFile) then hm_wrapf "restorecon -m" (restorecon false path)
  else
    _ ← hm_wrapf "refusing recursive workspace relabel" (hm_get procfsUsable);
    hm_wrapf "restorecon -R -m -x" (restorecon true path).

(** The relabel step of a removal, on the boundary's current kind. *)
Definition relabel_current (boundary : string) : HM unit :=
  currentKind ← hm_wrapf "cannot classify boundary for the removal relabel" (hm_get (λ w, treeKind w boundary));
  if bool_decide (currentKind ≠ macBoundaryMissing)
  then hm_wrapf "restorecon rollback after rule removal" (restoreconTree boundary currentKind)
  else mret ().

Definition delete_owned (boundary : string) (kind : macBoundaryKind) (existing : list fcontextRule) : HM unit :=
  match kind with
  | macBoundaryDirectory | macBoundaryRegularFile =>
      let pat := fcontextPatternFor boundary kind in
      if fcontextRulePresent existing pat selinuxWorkspaceType
      then hm_wrapf "cannot remove fcontext rule" (removeFcontextRule pat)
      else mret ()
  | _ =>
      if bool_decide (sameStemWorkspacePatterns existing boundary ≠ [])
      then hm_fail "boundary has same-stem workspace fcontext rules; the owned shape cannot be proven"
      else mret ()
  end.

Definition removeFcontextBoundary (boundary : string) (kind : macBoundaryKind) : HM unit :=
  _ ← checkBoundary boundary;
  existing ← hm_wrapf "cannot list local fcontext rules" listLocalFcontextRules;
  _ ← delete_owned boundary kind existing;
  relabel_current boundary.

Definition proveOwnedFcontextShape (boundary : string) : HM (option macBoundaryKind) :=
  existing ← hm_wrapf "cannot list local fcontext rules" listLocalFcontextRules;
  hm_get (λ _, prove_shape existing boundary).

Definition listCoveringFcontexts (workspace : string) : HM (list string) :=
  rules ← listLocalFcontextRules;
  mret (omap (λ rule,
          if bool_decide (fileType rule ≠ selinuxWorkspaceType) then None
          else if bool_decide (fcontextStem (pattern rule) = "") then None
          else if boundaryCoversTree (fcontextStem (pattern rule)) workspace
          then Some (fcontextStem (pattern rule)) else None) rules).

(** The internal rollback of a failed preparation; the result is an error
    either way: [fail], or both errors when the rollback failed too. *)
Definition rollback_setup (text : string) (boundary : string) (kind : macBoundaryKind) (e fail : error)
    : HM bool := λ w,
  match removeFcontextBoundary boundary kind w with
  | (Err rb, w) => (Err (mkError text (err_wraps e ++ err_wraps rb)), w)
  | (Ok _, w) => (Err fail, w)
  end.

(** The first local rule with our exact pattern. *)
Definition our_rule (pat : string) (existing : list fcontextRule) : option fcontextRule :=
  head (filter (λ rule, pattern rule = pat) existing).

Definition ensure_existing (tree : string) (kind : macBoundaryKind) (rule : fcontextRule) : HM bool :=
  if isEquivalence rule then hm_fail "unclassifiable SELinux fcontext equivalence record may overlap"
  else if bool_decide (fileType rule = selinuxWorkspaceType) then
    _ ← hm_wrapf "restorecon failed for existing mapping" (restoreconTree tree kind);
    _ ← verifyActualType tree;
    mret false
  else hm_fail "conflicting SELinux fcontext rule exists".

(** What follows the added rule: relabel, verify, roll back on a failure. *)
Definition finish_new (tree : string) (kind : macBoundaryKind) : HM bool := λ w,
  match restoreconTree tree kind w with
  | (Err e, w) =>
      rollback_setup "restorecon failed; rollback also failed" tree kind e (wrap_error "restorecon failed" [] e) w
  | (Ok _, w) =>
      match verifyActualType tree w with
      | (Err e, w) => rollback_setup "verification failed; rollback also failed" tree kind e e w
      | (Ok _, w) => (Ok true, w)
      end
  end.

Definition ensure_new (tree : string) (kind : macBoundaryKind) (pat : string) : HM bool :=
  _ ← hm_wrapf "cannot add fcontext rule" (addFcontextRule pat selinuxWorkspaceType);
  finish_new tree kind.

Definition ensureTreeFcontext (tree : string) (kind : macBoundaryKind) : HM bool :=
  status ← hm_wrapf "cannot determine SELinux status" (hm_get selinuxActive);
  if negb status.1 || negb status.2 then mret false
  else
    _ ← checkBoundary tree;
    _ ← hm_wrapf "refusing workspace fcontext setup" (hm_get procfsUsable);
    _ ← hm_wrapf "cannot acquire SELinux workspace lock" (hm_get acquireLock);
    let pat := fcontextPatternFor tree kind in
    existing ← hm_wrapf "cannot list local fcontext rules" listLocalFcontextRules;
    _ ← hm_get (λ _, checkOverlap tree pat existing);
    match our_rule pat existing with
    | Some rule => ensure_existing tree kind rule
    | None => ensure_new tree kind pat
    end.

End manager.
