(* ===== verification/FcontextSpec.v ===== *)
(** * FcontextSpec: the pattern classification and the relabel guard

    Patterns classify back to the boundary they were made from and nothing
    else does; the same-stem proof is never ambiguous about a shape; the
    relabel guard accepts exactly the trees without a mount point at or below
    them; what the overlap check lets through. *)
From S2P Require Import Prelude Filepath GoStrings AllowedRoots Database SnapshotStore MacLifecycle SelinuxManager.
Local Open Scope Z_scope.

(** ** Escaping on valid strings is byte-wise *)

Fixpoint escape_bytes (s : string) : string :=
  match s with
  | "" => ""
  | String c s => if is_meta c then String backslash (String c (escape_bytes s)) else String c (escape_bytes s)
  end.

Lemma escape_bytes_app a b : escape_bytes (a +:+ b) = escape_bytes a +:+ escape_bytes b.
Proof. induction a as [|c a IH]; simpl; [done|]. destruct (is_meta c); simpl; by rewrite IH. Qed.

Lemma meta_low c : is_meta c = true → byte_of c < 128.
Proof.
  unfold is_meta. intros H%bool_decide_eq_true_1. revert c H. apply Forall_forall. unfold meta_bytes.
  repeat constructor.
Qed.

Lemma meta_rune_byte c : meta_rune (byte_of c) = is_meta c.
Proof.
  apply eq_true_iff_eq. unfold meta_rune, is_meta. rewrite existsb_exists, bool_decide_eq_true. split.
  - intros (m & Hm & E%Z.eqb_eq). apply list_elem_of_In in Hm. rewrite <-(to_byte_of c), <-E, to_byte_of. done.
  - intros H. exists c. rewrite Z.eqb_refl. by apply list_elem_of_In in H.
Qed.

Lemma meta_rune_low r : meta_rune r = true → r < 128.
Proof.
  unfold meta_rune. rewrite existsb_exists. intros (m & Hm & E%Z.eqb_eq). subst r. apply meta_low.
  unfold is_meta. apply bool_decide_eq_true_2. by apply list_elem_of_In.
Qed.

Lemma high_escape raw : high raw = true → escape_bytes raw = raw.
Proof.
  unfold high. induction raw as [|c raw IH]; simpl; [done|]. intros [Hc Hr]%andb_true_iff.
  destruct (is_meta c) eqn:E; [apply meta_low in E; apply Z.leb_le in Hc; unfold RuneSelf in Hc; lia|].
  by rewrite IH.
Qed.

Lemma escape_valid s : ValidString s = true → escapeFcontextPath s = escape_bytes s.
Proof.
  intros Hv. rewrite <-(range_concat s) at 2. unfold escapeFcontextPath, runes.
  assert (H : ∀ p, p ∈ range s → escape_rune p.1 = escape_bytes p.2).
  { intros p Hp. pose proof (range_encode s p Hv Hp) as He. unfold escape_rune. rewrite He.
    apply range_bytes in Hp as [(a & -> & Ha)|[Hh Hr]]; simpl in *.
    - rewrite meta_rune_byte. by destruct (is_meta a).
    - destruct (meta_rune p.1) eqn:E; [apply meta_rune_low in E; lia|]. by rewrite high_escape. }
  induction (range s) as [|p l IH]; simpl; [done|]. rewrite escape_bytes_app, H by (by left). f_equal.
  apply IH. intros q Hq. apply H. by right.
Qed.

Lemma unescape_escape s : unescapeFcontextPath (escape_bytes s) = Some s.
Proof.
  induction s as [|c s IH]; simpl; [done|]. destruct (is_meta c) eqn:E; cbn.
  - by rewrite E, IH.
  - rewrite bool_decide_eq_false_2 by (intros ->; done). by rewrite IH.
Qed.

(** An escaped path never ends like the descendant suffix: there its last
    byte would be an unescaped metacharacter. *)
Lemma escape_head s c r : escape_bytes s = String c r →
  (c = backslash ∧ ∃ m s', is_meta m = true ∧ r = String m (escape_bytes s')) ∨
  (is_meta c = false ∧ ∃ s', r = escape_bytes s').
Proof.
  destruct s as [|x s]; simpl; [done|]. destruct (is_meta x) eqn:E; intros [= <- <-]; [left|right]; eauto.
Qed.

Lemma escape_not_suffix s x : escape_bytes s ≠ x +:+ descendants.
Proof.
  revert s. induction x as [x IH] using (well_founded_induction (well_founded_ltof _ String.length)).
  intros s H. destruct x as [|a x].
  - apply escape_head in H as [[? _]|[? _]]; done.
  - simpl in H. apply escape_head in H as [(-> & m & s' & Hm & H)|(_ & s' & H)].
    + destruct x as [|b x]; simpl in H.
      * injection H as <- H. symmetry in H. apply escape_head in H as [[? _]|(_ & s2 & H)]; [done|].
        symmetry in H. apply escape_head in H as [[? _]|[? _]]; done.
      * injection H as <- H. symmetry in H. apply (IH x) in H; [done|]. unfold ltof. simpl. lia.
    + symmetry in H. apply (IH x) in H; [done|]. unfold ltof. simpl. lia.
Qed.

(** Classification inverts pattern making: the fcontext pattern of a valid
    absolute path, for a directory or a regular-file boundary, classifies back
    to exactly that path. *)
Theorem stem_of_pattern (boundary : string) (kind : macBoundaryKind)
    (Hv : ValidString boundary = true) (Ha : IsAbs boundary = true) :
  fcontextStem (fcontextPatternFor boundary kind) = boundary.
Proof.
  unfold fcontextPatternFor, fcontextStem. rewrite (escape_valid _ Hv). case_bool_decide.
  - destruct (CutSuffix (escape_bytes boundary) descendants) as [x|] eqn:E.
    { apply CutSuffix_spec in E. by apply escape_not_suffix in E. }
    rewrite unescape_escape. unfold IsAbs in Ha. rewrite Ha. simpl.
    rewrite (escape_valid _ Hv). by rewrite bool_decide_eq_false_2 by (intros H'; by apply H').
  - rewrite (proj2 (CutSuffix_spec _ descendants (escape_bytes boundary)) eq_refl), unescape_escape.
    rewrite (escape_valid _ Hv). by rewrite bool_decide_eq_false_2 by (intros H'; by apply H').
Qed.

Lemma stem_of_pattern_witness :
  fcontextPatternFor "/srv/a.b (1)" macBoundaryDirectory = "/srv/a\.b \(1\)(/.*)?" ∧
  fcontextStem (fcontextPatternFor "/srv/a.b (1)" macBoundaryDirectory) = "/srv/a.b (1)".
Proof. split; [reflexivity|]. apply (stem_of_pattern "/srv/a.b (1)" macBoundaryDirectory); reflexivity. Defined.

Lemma stem_sound p : fcontextStem p ≠ "" →
  p = fcontextPatternFor (fcontextStem p) macBoundaryDirectory ∨
  p = fcontextPatternFor (fcontextStem p) macBoundaryRegularFile.
Proof.
  unfold fcontextStem, fcontextPatternFor. destruct (CutSuffix p descendants) as [e|] eqn:E.
  - destruct (unescapeFcontextPath e) as [l|]; [|done]. case_bool_decide as Er; [done|]. intros _. left.
    simpl. rewrite Er. by apply CutSuffix_spec.
  - destruct (unescapeFcontextPath p) as [l|]; [|done]. destruct (negb _); [done|].
    case_bool_decide as Er; [done|]. intros _. right. simpl. by rewrite Er.
Qed.

(** The ownership proof of a legacy boundary is exact: it succeeds with a
    shape exactly when one workspace rule carries the boundary's stem, and the
    shape is that rule's; without such a rule it reports absence, and only
    several same-stem workspace rules make it fail. *)
Theorem prove_shape_exact (rules : list fcontextRule) (boundary : string) (Hne : boundary ≠ "") :
  match prove_shape rules boundary with
  | Ok None => ∀ r, r ∈ rules → isEquivalence r = false → fileType r = selinuxWorkspaceType →
                 fcontextStem (pattern r) ≠ boundary
  | Ok (Some kind) =>
      (kind = macBoundaryDirectory ∨ kind = macBoundaryRegularFile) ∧
      sameStemWorkspacePatterns rules boundary = [fcontextPatternFor boundary kind]
  | Err _ => (2 <= length (sameStemWorkspacePatterns rules boundary))%nat
  end.
Proof.
  unfold prove_shape.
  assert (Hsame : ∀ pat, pat ∈ sameStemWorkspacePatterns rules boundary ↔
    ∃ r, r ∈ rules ∧ isEquivalence r = false ∧ fileType r = selinuxWorkspaceType ∧
         fcontextStem (pattern r) = boundary ∧ pattern r = pat).
  { intros pat. unfold sameStemWorkspacePatterns. rewrite list_elem_of_omap. split.
    - intros (r & Hr & H). destruct (isEquivalence r) eqn:Eq; [done|]. simpl in H. case_bool_decide as Et; [done|].
      case_bool_decide as Es; [done|]. injection H as <-. eauto 10.
    - intros (r & Hr & Eq & Et & Es & <-). exists r. split; [done|]. rewrite Eq. simpl.
      rewrite !bool_decide_eq_false_2 by (by intros H'; apply H'). done. }
  destruct (sameStemWorkspacePatterns rules boundary) as [|pat [|pat2 l]] eqn:E; [| |simpl; lia].
  - intros r Hr Eq Et Es. assert (H : pattern r ∈ ([] : list string)) by (apply Hsame; eauto 10).
    by apply not_elem_of_nil in H.
  - destruct (proj1 (Hsame pat) ltac:(by left)) as (r & _ & _ & _ & Es & <-).
    case_bool_decide as E1; [split; [by right|by rewrite <-E1]|].
    case_bool_decide as E2; [split; [by left|by rewrite <-E2]|]. exfalso.
    destruct (stem_sound (pattern r)) as [H|H]; [by rewrite Es| |]; rewrite Es in H; congruence.
Qed.

Lemma prove_shape_exact_witness :
  prove_shape [mkRule "/srv/a(/.*)?" "docker_helper_workspace_t" false "" ""] "/srv/a" = Ok (Some macBoundaryDirectory) ∧
  sameStemWorkspacePatterns [mkRule "/srv/a(/.*)?" "docker_helper_workspace_t" false "" ""] "/srv/a" =
    [fcontextPatternFor "/srv/a" macBoundaryDirectory].
Proof.
  assert (E : prove_shape [mkRule "/srv/a(/.*)?" "docker_helper_workspace_t" false "" ""] "/srv/a" =
    Ok (Some macBoundaryDirectory)) by (vm_compute; reflexivity).
  split; [exact E|].
  pose proof (prove_shape_exact [mkRule "/srv/a(/.*)?" "docker_helper_workspace_t" false "" ""] "/srv/a") as H.
  rewrite E in H. apply H. discriminate.
Defined.

(** ** The relabel guard *)

Lemma mount_guard_ok ws mps : canonical ws = true → Forall (λ mp, IsAbs mp = true) mps →
  mount_guard ws mps = Ok () ↔ ∀ mp, mp ∈ mps → pathWithin ws (Clean mp) = false.
Proof.
  intros Hws. induction mps as [|mp mps IH]; simpl; [split; [by intros _ ? ?%not_elem_of_nil|done]|].
  intros [Hmp Hmps]%Forall_cons. specialize (IH Hmps). pose proof (Clean_canonical _ Hmp) as Hc.
  assert (Hall : ∀ P : Prop, (P ↔ mount_guard ws mps = Ok ()) → pathWithin ws (Clean mp) = false →
    (P ↔ ∀ m, m ∈ mp :: mps → pathWithin ws (Clean m) = false)).
  { intros P -> Hf. rewrite IH. split; [by intros H m [->|?]%elem_of_cons; auto|].
    intros H m Hm. apply H. by right. }
  case_bool_decide as E.
  { split; [done|]. intros H. specialize (H mp ltac:(by left)). by rewrite E, pathWithin_refl in H. }
  destruct (pathWithin (Clean mp) ws) eqn:Ew.
  { apply Hall; [done|]. destruct (pathWithin ws (Clean mp)) eqn:Ew'; [|done].
    destruct E. by apply (pathWithin_antisym (Clean mp) ws). }
  destruct (pathStrictlyWithin ws (Clean mp)) eqn:Es.
  - split; [done|]. intros H. specialize (H mp ltac:(by left)).
    rewrite pathStrictlyWithin_spec, bool_decide_eq_true in Es by done.
    rewrite pathWithin_spec, bool_decide_eq_false in H by done. by destruct Es.
  - apply Hall; [done|]. rewrite pathStrictlyWithin_spec, bool_decide_eq_false in Es by done.
    rewrite pathWithin_spec by done. apply bool_decide_eq_false_2. intros H. apply Es. split; [done|congruence].
Qed.

(** The relabel guard is exact: with the mount points of the namespace read,
    it admits a tree exactly when no mount point is the tree or lies beneath
    it (an ancestor mount or a sibling is allowed), and any unreadable or
    unparseable mount info refuses the relabel. *)
Theorem relabel_guard_exact (mountinfo : result string) (workspace : string) (Hw : IsAbs workspace = true) :
  match mountinfo with
  | Err _ => is_ok (checkTreeRelabelBoundary mountinfo workspace) = false
  | Ok data =>
      match parseMountinfoMountPoints data with
      | Err _ => is_ok (checkTreeRelabelBoundary mountinfo workspace) = false
      | Ok mps => Forall (λ mp, IsAbs mp = true) mps →
          (checkTreeRelabelBoundary mountinfo workspace = Ok () ↔
           ∀ mp, mp ∈ mps → pathWithin (Clean workspace) (Clean mp) = false)
      end
  end.
Proof.
  destruct mountinfo as [data|e]; simpl; [|done]. destruct (parseMountinfoMountPoints data) as [mps|e] eqn:E; simpl; [|done].
  intros Hall. apply mount_guard_ok; [by apply Clean_canonical|done].
Qed.

Definition example_mountinfo : string :=
  "22 1 8:1 / / rw - ext4 /dev/sda1 rw" +:+ String newline ("36 22 8:2 / /srv/my\040data rw - ext4 /dev/sdb rw" +:+ String newline "").

Lemma relabel_guard_exact_witness :
  parseMountinfoMountPoints example_mountinfo = Ok ["/"; "/srv/my data"] ∧
  checkTreeRelabelBoundary (Ok example_mountinfo) "/srv/app" = Ok () ∧
  checkTreeRelabelBoundary (Ok example_mountinfo) "/srv" ≠ Ok ().
Proof.
  assert (E : parseMountinfoMountPoints example_mountinfo = Ok ["/"; "/srv/my data"]) by (vm_compute; reflexivity).
  split; [exact E|]. split.
  - pose proof (relabel_guard_exact (Ok example_mountinfo) "/srv/app" eq_refl) as H. cbv beta iota in H. rewrite E in H.
    apply H; [by repeat constructor|]. intros mp Hmp. revert mp Hmp. apply Forall_forall. repeat constructor.
  - pose proof (relabel_guard_exact (Ok example_mountinfo) "/srv" eq_refl) as H. cbv beta iota in H. rewrite E in H.
    rewrite H by (by repeat constructor). intros Hn. specialize (Hn "/srv/my data" ltac:(set_solver)).
    by vm_compute in Hn.
Defined.

(** The kernel's escaping of a path field of /proc/self/mountinfo (proc(5)). *)
Fixpoint kernel_escape (s : string) : string :=
  match s with
  | "" => ""
  | String c s =>
      if bool_decide (c = " "%char) then "\040" +:+ kernel_escape s
      else if bool_decide (c = "009"%char) then "\011" +:+ kernel_escape s
      else if bool_decide (c = "010"%char) then "\012" +:+ kernel_escape s
      else if bool_decide (c = backslash) then "\134" +:+ kernel_escape s
      else String c (kernel_escape s)
  end.

Lemma unescape_octal x y z r c : to_byte <$> decodeMountinfoOctal x y z = Some c →
  unescapeMountinfoPath (String backslash (String x (String y (String z r)))) = String c (unescapeMountinfoPath r).
Proof.
  intros H. cbn [unescapeMountinfoPath]. rewrite bool_decide_eq_true_2 by done.
  destruct (decodeMountinfoOctal x y z); [|done]. by injection H as ->.
Qed.

(** Every path the kernel escapes into a mount-info field is decoded back
    to itself. *)
Theorem mountinfo_unescape_roundtrip (path : string) : unescapeMountinfoPath (kernel_escape path) = path.
Proof.
  induction path as [|c s IH]; [done|]. cbn [kernel_escape].
  case_bool_decide as E1; [subst c; cbn [String.append]; rewrite (unescape_octal "0" "4" "0" _ " "), IH; done|].
  case_bool_decide as E2; [subst c; cbn [String.append]; rewrite (unescape_octal "0" "1" "1" _ "009"), IH; done|].
  case_bool_decide as E3; [subst c; cbn [String.append]; rewrite (unescape_octal "0" "1" "2" _ "010"), IH; done|].
  case_bool_decide as E4; [subst c; cbn [String.append]; rewrite (unescape_octal "1" "3" "4" _ "\"), IH; done|].
  cbn [unescapeMountinfoPath]. rewrite bool_decide_eq_false_2 by done. by rewrite IH.
Qed.

(** ** Overlap *)

Lemma checkOverlap_ok b p rules :
  checkOverlap b p rules = Ok () ↔ ∀ r, r ∈ rules → check_rule b p r = Ok ().
Proof.
  induction rules as [|r rules IH]; simpl; [split; [by intros _ ? ?%not_elem_of_nil|done]|].
  destruct (check_rule b p r) as [[]|e] eqn:E; simpl.
  - rewrite IH. split; [by intros H r' [->|?]%elem_of_cons; auto|]. intros H r' Hr. apply H. by right.
  - split; [done|]. intros H. rewrite H in E by (by left). done.
Qed.

(** What the overlap check lets through: once it accepts a boundary, every
    operator rule of another type has a classifiable stem that is the boundary
    itself or disjoint from it, every redirect keeps clear of it on both sides,
    and no other equivalence record is left. *)
Theorem overlap_fails_closed (boundary ourPattern : string) (rules : list fcontextRule)
    (H : checkOverlap boundary ourPattern rules = Ok ()) :
  ∀ r, r ∈ rules → pattern r ≠ ourPattern →
  if isEquivalence r then
    (equivalenceDest r ≠ "" ∨ equivalenceSource r ≠ "") ∧
    ∀ p, p ≠ "" → p = equivalenceDest r ∨ p = equivalenceSource r →
      p ≠ boundary ∧ pathStrictlyWithin boundary p = false ∧ pathStrictlyWithin p boundary = false
  else fileType r ≠ selinuxWorkspaceType →
    fcontextStem (pattern r) ≠ "" ∧
    pathStrictlyWithin boundary (fcontextStem (pattern r)) = false ∧
    pathStrictlyWithin (fcontextStem (pattern r)) boundary = false.
Proof.
  intros r Hr Hne. rewrite checkOverlap_ok in H. specialize (H r Hr). unfold check_rule in H.
  rewrite bool_decide_eq_false_2 in H by done. destruct (isEquivalence r) eqn:Eq.
  - case_bool_decide as Ed; [|done]. split; [done|]. unfold checkEquivalenceOverlap in H.
    destruct (bool_decide (equivalenceDest r ≠ "") && _) eqn:E1; [done|].
    destruct (bool_decide (equivalenceSource r ≠ "") && _) eqn:E2; [done|].
    intros p Hp [->| ->].
    + rewrite bool_decide_eq_true_2 in E1 by done. simpl in E1.
      apply orb_false_iff in E1 as [[?%bool_decide_eq_false_1 ?]%orb_false_iff ?]. done.
    + rewrite bool_decide_eq_true_2 in E2 by done. simpl in E2.
      apply orb_false_iff in E2 as [[?%bool_decide_eq_false_1 ?]%orb_false_iff ?]. done.
  - intros Ht. rewrite bool_decide_eq_false_2 in H by done. case_bool_decide as Es; [done|].
    destruct (pathStrictlyWithin boundary _) eqn:E1; [done|]. by destruct (pathStrictlyWithin _ boundary) eqn:E2.
Qed.

Lemma overlap_fails_closed_witness :
  checkOverlap "/srv/a" "/srv/a(/.*)?" [mkRule "/srv/b(/.*)?" "var_t" false "" ""] = Ok () ∧
  pathStrictlyWithin "/srv/a" (fcontextStem "/srv/b(/.*)?") = false.
Proof.
  assert (H : checkOverlap "/srv/a" "/srv/a(/.*)?" [mkRule "/srv/b(/.*)?" "var_t" false "" ""] = Ok ())
    by (vm_compute; reflexivity).
  split; [exact H|].
  apply (overlap_fails_closed "/srv/a" "/srv/a(/.*)?" _ H (mkRule "/srv/b(/.*)?" "var_t" false "" ""));
    [by left|discriminate|discriminate].
Defined.

(** An operator rule with the boundary's own stem and the other shape is not
    seen by the overlap check: its target is not disjoint from the boundary,
    yet a directory boundary is admitted over an exact-path operator rule of
    another type. *)
Theorem overlap_same_stem_admitted :
  let operator_rule := mkRule "/srv/a" "httpd_sys_content_t" false "" "" in
  fcontextStem (pattern operator_rule) = "/srv/a" ∧
  fileType operator_rule ≠ selinuxWorkspaceType ∧
  checkOverlap "/srv/a" (fcontextPatternFor "/srv/a" macBoundaryDirectory) [operator_rule] = Ok ().
Proof. split_and!; [reflexivity|discriminate|reflexivity]. Qed.
