(* ===== verification/SelinuxSpec.v ===== *)
(** * SelinuxSpec: the inventory parser and the fcontext transitions

    The grammar of what semanage prints, which the parser inverts; the laws of
    the external commands; and what preparing and removing a boundary leave in
    the local rules, on success and on failure. *)
From S2P Require Import Prelude Filepath GoStrings AllowedRoots Database SnapshotStore MacLifecycle SelinuxManager FcontextSpec.
Local Open Scope Z_scope.

(** ** The producer's grammar *)

Definition space : ascii := " "%char.
Definition graphic (b : Z) : bool := in_range 33 126 b.
(** Column text: lower-case words and padding. *)
Definition column_byte (b : Z) : bool := (b =? 32) || in_range 97 122 b.
(** Bytes of a name in a context: graphic, neither [:] nor [=]. *)
Definition name_byte (b : Z) : bool := graphic b && negb (b =? 58) && negb (b =? 61).

Definition record_pattern (p : string) : Prop :=
  ValidString p = true ∧ String.prefix "/" p = true ∧ str_count space p = 0%nat ∧ str_count newline p = 0%nat.

Definition literal_path (p : string) : Prop :=
  framed p ∧ isLiteralAbsPath p = true ∧ str_count space p = 0%nat ∧ str_count newline p = 0%nat.

(** One record without its trailing padding. *)
Inductive record_line : fcontextRule → string → Prop :=
  | line_context p col user typ range :
      record_pattern p → all_bytes column_byte col = true →
      all_bytes name_byte user = true → CutSuffix user "object_r" = None →
      typ ≠ "" → all_bytes name_byte typ = true →
      (range = "" ∨ ∃ r, range = ":" +:+ r ∧ all_bytes graphic r = true) →
      record_line (mkRule p typ false "" "")
        (p +:+ String space (col +:+ String space (user +:+ ":object_r:" +:+ typ +:+ range)))
  | line_none p col :
      record_pattern p → all_bytes column_byte col = true →
      record_line (mkRule p "" true "" "") (p +:+ String space (col +:+ String space "<<None>>"))
  | line_redirect dest source :
      literal_path dest → literal_path source →
      record_line (mkRule (dest +:+ " = " +:+ source) "" true dest source) (dest +:+ " = " +:+ source).

Inductive produces : list fcontextRule → string → Prop :=
  | produces_end : produces [] ""
  | produces_line rule line rules out pad :
      record_line rule line → all_bytes (Z.eqb 32) pad = true → produces rules out →
      produces (rule :: rules) ((line +:+ pad) +:+ String newline out)
  | produces_blank rules out : produces rules out → produces rules (String newline out).

(** ** The parser inverts the grammar *)

Lemma count_free (P : Z → bool) (c : ascii) s : P (byte_of c) = false → all_bytes P s = true → str_count c s = 0%nat.
Proof.
  intros Hc. unfold all_bytes. induction s as [|x s IH]; simpl; [done|]. intros [Hx Hs]%andb_true_iff.
  destruct (ascii_dec c x) as [->|]; [congruence|]. by rewrite IH.
Qed.

Lemma all_bytes_app P a b : all_bytes P (a +:+ b) = all_bytes P a && all_bytes P b.
Proof. unfold all_bytes. induction a as [|c a IH]; simpl; [done|]. by rewrite IH, andb_assoc. Qed.

Lemma graphic_not_space b : graphic b = true → IsSpace b = false.
Proof.
  intros H%in_range_spec. unfold IsSpace. rewrite !(proj2 (in_range_false _ _ _)) by lia.
  repeat rewrite (proj2 (Z.eqb_neq _ _)) by lia. done.
Qed.

Lemma ascii_graphic s : all_bytes graphic s = true → all_bytes (λ b, b <? 128) s = true.
Proof. apply all_bytes_weaken. intros b H%in_range_spec. lia. Qed.

Lemma last_byte s : s ≠ "" → ∃ a c, s = a +:+ String c "".
Proof.
  induction s as [|x s IH]; [done|]. intros _. destruct s as [|y s]; [by exists "", x|].
  destruct IH as (a & c & E); [done|]. rewrite E. by exists (String x a), c.
Qed.

(** A graphic tail ends a text that starts with [/]. *)
Lemma framed_slash p mid t : ValidString p = true → String.prefix "/" p = true →
  all_bytes (λ b, b <? 128) mid = true → t ≠ "" → all_bytes graphic t = true → framed (p +:+ mid +:+ t).
Proof.
  intros Hv Hp Hm Hne Ht. destruct p as [|c p]; [done|]. apply str_prefix_spec in Hp as [k Hk].
  injection Hk as -> Hk. destruct (last_byte t Hne) as (t' & d & ->).
  assert (Hd : graphic (byte_of d) = true) by (rewrite all_bytes_app in Ht; apply andb_true_iff in Ht as [_ Ht];
    unfold all_bytes in Ht; simpl in Ht; by rewrite andb_true_r in Ht).
  assert (Ha : all_bytes (λ b, b <? 128) (mid +:+ t' +:+ String d "") = true)
    by (rewrite all_bytes_app, Hm; by apply ascii_graphic).
  split; [apply valid_app; [done|by apply valid_ascii]|].
  exists (47, str1 "/"), (byte_of d, str1 d). rewrite range_app by done. split_and!; [done| |done|by apply graphic_not_space].
  rewrite (range_ascii _ Ha), last_app, <-str_app_assoc.
  assert (E : ∀ u, last ((λ c, (byte_of c, str1 c)) <$> String.list_ascii_of_string (u +:+ String d "")) = Some (byte_of d, str1 d)).
  { intros u. induction u as [|x u IH]; [done|]. simpl. destruct u; [done|]. exact IH. }
  by rewrite E.
Qed.

Lemma cut_eq_free w t : str_count space w = 0%nat → Cut t " = " = None → Cut (w +:+ t) " = " = None.
Proof.
  intros Hw Ht. induction w as [|c w IH]; [done|]. cbn [str_count] in Hw.
  destruct (ascii_dec space c) as [|Hne]; [done|]. cbn [String.append]. rewrite Cut_skip, IH; [done..|].
  cbn [CutPrefix]. by rewrite bool_decide_eq_false_2.
Qed.

Lemma cut_eq_column col t : all_bytes column_byte col = true → str_count space t = 0%nat →
  String.prefix "=" t = false → Cut (String space (col +:+ String space t)) " = " = None.
Proof.
  intros Hc Ht Heq.
  assert (Hend : Cut (String space t) " = " = None).
  { destruct t as [|x t]; [done|]. rewrite Cut_skip.
    - by rewrite <-(str_app_nil_r (String x t)), cut_eq_free.
    - cbn [CutPrefix]. rewrite bool_decide_eq_true_2 by done. cbn [CutPrefix]. rewrite bool_decide_eq_false_2; [done|].
      intros <-. by destruct t; vm_compute in Heq. }
  assert (H : ∀ c col, (c = space ∨ c ≠ space) → all_bytes column_byte col = true →
            Cut (String c (col +:+ String space t)) " = " = None); [|by apply H; [left|]].
  clear Hc col. intros c col _ Hc. revert c. induction col as [|x col IH]; intros c.
  - cbn [String.append]. rewrite Cut_skip; [by rewrite Hend|]. cbn [CutPrefix]. case_bool_decide; [|done]. by cbn.
  - unfold all_bytes in Hc. cbn [str_forall] in Hc. apply andb_true_iff in Hc as [Hx Hc].
    cbn [String.append]. rewrite Cut_skip; [by rewrite IH|]. cbn [CutPrefix]. case_bool_decide; [|done].
    cbn [CutPrefix]. rewrite bool_decide_eq_false_2; [done|]. intros <-. by vm_compute in Hx.
Qed.

Lemma first_byte c a b x y : str_count c a = 0%nat → str_count c b = 0%nat →
  a +:+ String c x = b +:+ String c y → a = b ∧ x = y.
Proof.
  revert b. induction a as [|z a IH]; intros [|w b]; simpl; intros Ha Hb E.
  - by injection E.
  - injection E as -> _. by destruct (ascii_dec w w).
  - injection E as <- _. by destruct (ascii_dec z z).
  - injection E as <- E. destruct (ascii_dec c z); [done|]. destruct (IH b) as [-> ->]; done.
Qed.

Lemma context_type_of user typ range :
  all_bytes name_byte user = true → CutSuffix user "object_r" = None → all_bytes name_byte typ = true →
  (range = "" ∨ ∃ r, range = ":" +:+ r) → context_type (user +:+ ":object_r:" +:+ typ +:+ range) = typ.
Proof.
  intros Hu Hs Ht Hr. pose (colon := ":"%char).
  assert (Hu' : str_count colon user = 0%nat) by (by apply (count_free name_byte)).
  assert (Ht' : str_count colon typ = 0%nat) by (by apply (count_free name_byte)).
  assert (Hcut : Cut (user +:+ ":object_r:" +:+ typ +:+ range) "object_r:" = Some (user +:+ ":", typ +:+ range)).
  { clear Hu. induction user as [|c user IH].
    - cbn [String.append]. rewrite Cut_skip by done. pose proof (Cut_found (typ +:+ range) "object_r:") as E.
      cbn [String.append] in E. by rewrite E.
    - cbn [str_count] in Hu'. destruct (ascii_dec colon c) as [|Hne]; [done|].
      change (Cut (String c (user +:+ ":object_r:" +:+ typ +:+ range)) "object_r:" = Some (String c user +:+ ":", typ +:+ range)).
      rewrite Cut_skip; [rewrite IH; [done| |done]|].
      + destruct (CutSuffix user "object_r") as [x|] eqn:E; [|done]. cbn in Hs. case_bool_decide; [done|].
        by rewrite E in Hs.
      + destruct (CutPrefix _ "object_r:") as [r|] eqn:E; [|done]. apply CutPrefix_spec in E. exfalso.
        change ("object_r:" +:+ r) with ("object_r" +:+ String colon r) in E.
        change (String c (user +:+ ":object_r:" +:+ typ +:+ range)) with
          (String c user +:+ String colon ("object_r:" +:+ typ +:+ range)) in E.
        apply first_byte in E as [E _]; [|cbn [str_count]; by destruct (ascii_dec colon c)|done].
        rewrite E in Hs. by vm_compute in Hs. }
  unfold context_type. rewrite Hcut. destruct Hr as [->|[r ->]].
  - rewrite str_app_nil_r. assert (Hn : Cut typ ":" = None); [|by rewrite Hn].
    clear -Ht'. induction typ as [|c typ IH]; [done|]. cbn [str_count] in Ht'.
    destruct (ascii_dec colon c); [done|]. rewrite Cut_skip, IH; [done..|]. cbn. by rewrite bool_decide_eq_false_2.
  - change (typ +:+ ":" +:+ r) with (typ +:+ String colon r). by rewrite (Cut_byte colon).
Qed.

Lemma no_redirect line : Cut line " = " = None → parseEquivalenceRedirect line = None.
Proof. unfold parseEquivalenceRedirect. by intros ->. Qed.

(** An ordinary record line splits at its first and last blank. *)
Lemma parse_columns p col t : record_pattern p → all_bytes column_byte col = true →
  all_bytes graphic t = true → t ≠ "" → String.prefix "=" t = false →
  let line := p +:+ String space (col +:+ String space t) in
  framed line ∧
  parseFcontextLine line =
    if bool_decide (t = "<<None>>") then Some (mkRule p "" true "" "")
    else if bool_decide (context_type t = "") then None else Some (mkRule p (context_type t) false "" "").
Proof.
  intros (Hv & Hp & Hs & Hn) Hc Ht Hne Heq line.
  assert (Hts : str_count space t = 0%nat) by (by apply (count_free graphic)).
  assert (Hmid : all_bytes (λ b, b <? 128) (String space (col +:+ String space "")) = true).
  { change (String space (col +:+ String space "")) with (" " +:+ col +:+ " "). rewrite !all_bytes_app.
    rewrite (all_bytes_weaken column_byte (λ b, b <? 128) col); [done| |done].
    intros b [->%Z.eqb_eq|H%in_range_spec]%orb_true_iff; [done|lia]. }
  assert (Hf : framed line).
  { unfold line. replace (String space (col +:+ String space t)) with (String space (col +:+ String space "") +:+ t)
      by (cbn [String.append]; by rewrite str_app_assoc).
    by apply framed_slash. }
  split; [done|]. unfold parseFcontextLine.
  rewrite !(TrimSpace_self _ Hf).
  rewrite no_redirect by (unfold line; apply cut_eq_free; [done|by apply cut_eq_column]).
  pose proof (Cut_byte space p (col +:+ String space t) Hs) as Ec. fold line in Ec.
  change (String space "") with " " in Ec. rewrite Ec.
  assert (Ea : after_last " " line = t).
  { unfold line. replace (p +:+ String space (col +:+ String space t)) with ((p +:+ " " +:+ col) +:+ String space t)
      by (by rewrite !str_app_assoc).
    by apply after_last_app. }
  rewrite Ea. rewrite bool_decide_eq_false_2; [done|].
  intros [->|?]; [|done]. by vm_compute in Hp.
Qed.

Lemma name_graphic s : all_bytes name_byte s = true → all_bytes graphic s = true.
Proof. apply all_bytes_weaken. intros b H. unfold name_byte in H. by destruct (graphic b). Qed.

(** Every record line is framed and parses to its rule. *)
Lemma parse_record rule line : record_line rule line →
  framed line ∧ parseFcontextLine line = Some rule ∧ str_count newline line = 0%nat.
Proof.
  intros Hl. inversion_clear Hl as [p col user typ range Hp Hc Hu Hs Hne Ht Hr|p col Hp Hc|dest source Hd Hso].
  - assert (Hr' : range = "" ∨ ∃ r, range = ":" +:+ r) by (destruct Hr as [?|(r & ? & _)]; eauto).
    assert (Hg : all_bytes graphic (user +:+ ":object_r:" +:+ typ +:+ range) = true).
    { rewrite !all_bytes_app. rewrite (name_graphic user), (name_graphic typ) by done.
      destruct Hr as [->|(r & -> & Hr)]; [done|]. by rewrite all_bytes_app, Hr. }
    destruct (parse_columns p col (user +:+ ":object_r:" +:+ typ +:+ range)) as [Hf E]; try done.
    { by destruct user. }
    { destruct user as [|c user]; [done|]. unfold all_bytes in Hu. cbn in Hu. apply andb_true_iff in Hu as [Hu _].
      apply not_true_iff_false. intros [k Hk]%str_prefix_spec. injection Hk as -> _. by vm_compute in Hu. }
    rewrite E, context_type_of by done. rewrite !bool_decide_eq_false_2; [| done|].
    + split_and!; [done..|]. destruct Hp as (_ & _ & _ & Hn). rewrite str_count_app, Hn. cbn [str_count].
      rewrite str_count_app, (count_free column_byte newline col) by done. cbn [str_count].
      by rewrite (count_free graphic newline) by done.
    + intros Heq. apply (f_equal (str_count ":"%char)) in Heq. rewrite !str_count_app in Heq.
      change (str_count ":" ":object_r:") with 2%nat in Heq. change (str_count ":" "<<None>>") with 0%nat in Heq. lia.
  - destruct (parse_columns p col "<<None>>") as [Hf E]; try done. rewrite E, bool_decide_eq_true_2 by done.
    split_and!; [done..|]. destruct Hp as (_ & _ & _ & Hn). rewrite str_count_app, Hn. cbn [str_count].
    by rewrite str_count_app, (count_free column_byte newline col).
  - destruct Hd as (Hfd & Hld & Hsd & Hnd), Hso as (Hfs & Hls & Hss & Hns).
    assert (Hf : framed (dest +:+ " = " +:+ source)).
    { destruct Hfd as (Vd & p & _ & Hp & _ & Sp & _), Hfs as (Vs & _ & q & _ & Hq & _ & Sq).
      split; [apply valid_app; [done|by apply (valid_app " = ")]|]. exists p, q.
      rewrite range_app by done. rewrite (range_app " = ") by done. rewrite head_app, !last_app, Hp, Hq. by split_and!. }
    split_and!; [done| |by rewrite !str_count_app, Hnd, Hns].
    unfold parseFcontextLine. rewrite !(TrimSpace_self _ Hf).
    assert (Hcut : Cut (dest +:+ " = " +:+ source) " = " = Some (dest, source)).
    { clear -Hsd. induction dest as [|c dest IH]; [apply (Cut_found source " = ")|]. cbn [str_count] in Hsd.
      destruct (ascii_dec space c) as [|Hne]; [done|].
      change (Cut (String c (dest +:+ " = " +:+ source)) " = " = Some (String c dest, source)).
      rewrite Cut_skip; [by rewrite IH|]. cbn [CutPrefix]. by rewrite bool_decide_eq_false_2. }
    unfold parseEquivalenceRedirect. rewrite Hcut.
    assert (Hdne : dest ≠ "") by (by intros ->).
    assert (Hsne : source ≠ "") by (by intros ->).
    rewrite bool_decide_eq_false_2 by done.
    rewrite !TrimSpace_self by done.
    rewrite bool_decide_eq_false_2 by naive_solver. by rewrite Hld, Hls.
Qed.

Lemma produced_parse rules out : produces rules out → parse_output out = Ok rules.
Proof.
  intros Hout. unfold parse_output. induction Hout as [|rule line rules out pad Hl Hpad _ IH|rules out _ IH]; [done| |].
  - apply parse_record in Hl as (Hf & Hp & Hn).
    assert (Hn' : str_count newline (line +:+ pad) = 0%nat)
      by (rewrite str_count_app, Hn; by apply (count_free (Z.eqb 32))).
    rewrite split_byte_app by done. cbn [parse_lines]. rewrite (TrimSpace_framed _ _ Hf) by done.
    rewrite bool_decide_eq_false_2 by (intros ->; destruct Hf as (_ & ? & ? & ? & _); done).
    by rewrite Hp, IH.
  - cbn [split_byte]. rewrite bool_decide_eq_true_2 by done. cbn [parse_lines].
    by rewrite (bool_decide_eq_true_2 (TrimSpace "" = "")) by done.
Qed.

(** The inventory parser inverts the grammar of the real producer: whatever
    the padding, for every context record, every <<None>> record and every
    equivalence redirect, with blank lines anywhere, the parsed rules are
    exactly the printed ones, in order. *)
Theorem parse_producer (rules : list fcontextRule) (out : string) (Hout : produces rules out) :
  parse_output out = Ok rules.
Proof. by apply produced_parse. Qed.

Definition sample_rules : list fcontextRule :=
  [mkRule "/srv/a\.b(/.*)?" "docker_helper_workspace_t" false "" ""; mkRule "/srv/none" "" true "" "";
   mkRule "/srv/d = /srv/s" "" true "/srv/d" "/srv/s"].
Definition sample_output : string :=
  "/srv/a\.b(/.*)?      all files          system_u:object_r:docker_helper_workspace_t:s0 " +:+ String newline
  ("/srv/none all files          <<None>> " +:+ String newline (String newline
  ("/srv/d = /srv/s" +:+ String newline ""))).

Lemma parse_producer_witness : produces sample_rules sample_output ∧ parse_output sample_output = Ok sample_rules.
Proof.
  assert (H : produces sample_rules sample_output); [|split; [exact H|by apply (parse_producer sample_rules sample_output)]].
  apply (produces_line _
    ("/srv/a\.b(/.*)?" +:+ String space ("     all files         " +:+ String space
       ("system_u" +:+ ":object_r:" +:+ "docker_helper_workspace_t" +:+ ":s0"))) _ _ " ").
  - apply line_context; [by split_and!|done|done|done|done|done|]. right. by exists "s0".
  - done.
  - apply (produces_line _ ("/srv/none" +:+ String space ("all files         " +:+ String space "<<None>>")) _ _ " ").
    + apply line_none; [by split_and!|done].
    + done.
    + apply produces_blank. apply (produces_line _ ("/srv/d" +:+ " = " +:+ "/srv/s") _ _ "").
      * apply (line_redirect "/srv/d" "/srv/s"); (split_and!; [|done..]); (split; [done|]); eexists _, _; by split_and!.
      * done.
      * apply produces_end.
Defined.

(** ** The external commands *)

(** What semanage and restorecon document: a listing prints the local records
    and changes none; adding and deleting are transactions on one record;
    relabelling does not touch the records. *)
Class selinuxLaws (W : Type) `{!selinuxHost W} := {
  records : W → list fcontextRule;
  law_list w r w' : semanage_list w = (r, w') →
    records w' = records w ∧ ∀ out, r = Ok out → produces (records w) out;
  law_add typ pat w r w' : semanage_add typ pat w = (r, w') →
    match r with
    | Ok _ => records w' ≡ₚ mkRule pat typ false "" "" :: records w
    | Err _ => records w' = records w
    end;
  law_delete pat w r w' : semanage_delete pat w = (r, w') →
    match r with
    | Ok _ => ∃ rule, pattern rule = pat ∧ records w ≡ₚ rule :: records w'
    | Err _ => records w' = records w
    end;
  law_restorecon recursive path w r w' : restorecon recursive path w = (r, w') → records w' = records w;
}.

Section transitions.
Context {W : Type} `{!selinuxHost W, !selinuxLaws W}.

(** A transition that changes no record. *)
Definition quiet {A} (m : HM A) : Prop := ∀ w, records (m w).2 = records w.

Lemma quiet_get {A} (g : W → result A) : quiet (hm_get g).
Proof. done. Qed.
Lemma quiet_fail {A} t : quiet (hm_fail (A := A) t).
Proof. done. Qed.
Lemma quiet_ret {A} (a : A) : quiet (@mret _ (@hm_ret W) A a).
Proof. done. Qed.
Lemma quiet_wrapf {A} t (m : HM A) : quiet m → quiet (hm_wrapf t m).
Proof. intros H w. unfold hm_wrapf. specialize (H w). by destruct (m w) as [[]]. Qed.
Lemma quiet_bind {A B} (m : HM A) (k : A → HM B) : quiet m → (∀ a, quiet (k a)) → quiet (hm_bind _ _ k m).
Proof. intros H Hk w. unfold hm_bind. specialize (H w). destruct (m w) as [[a|e] w']; [|done]. simpl in *. by rewrite Hk. Qed.
Lemma quiet_restore r p : quiet (restorecon r p).
Proof. intros w. destruct (restorecon r p w) as [x w'] eqn:E. by eapply law_restorecon. Qed.

Hint Resolve quiet_get quiet_fail quiet_ret quiet_wrapf quiet_restore : dh.

Lemma quiet_verify p : quiet (verifyActualType p).
Proof.
  apply quiet_bind; [auto with dh|]. intros a. case_bool_decide; [apply quiet_fail|apply quiet_ret].
Qed.

Lemma quiet_restoreconTree p k : quiet (restoreconTree p k).
Proof.
  apply quiet_bind; [apply quiet_get|]. intros _. case_bool_decide; [auto with dh|].
  apply quiet_bind; [auto with dh|]. intros _. auto with dh.
Qed.

Lemma quiet_relabel b : quiet (relabel_current b).
Proof.
  apply quiet_bind; [auto with dh|]. intros k.
  case_bool_decide; [apply quiet_wrapf, quiet_restoreconTree|apply quiet_ret].
Qed.

Lemma list_spec w r w' : listLocalFcontextRules w = (r, w') →
  records w' = records w ∧ ∀ rules, r = Ok rules → rules = records w.
Proof.
  unfold listLocalFcontextRules, mbind, hm_bind, hm_wrapf, hm_get.
  destruct (semanage_list w) as [[out|e] w1] eqn:E; apply law_list in E as [Hr Ho]; intros [= <- <-]; (split; [done|]); [|done].
  intros rules. rewrite (produced_parse _ _ (Ho out eq_refl)). by intros [= ->].
Qed.

Lemma hm_bind_inv {A B} (m : HM A) (k : A → HM B) (w : W) r w' : hm_bind _ _ k m w = (r, w') →
  (∃ e, m w = (Err e, w') ∧ r = Err e) ∨ ∃ a w1, m w = (Ok a, w1) ∧ k a w1 = (r, w').
Proof. unfold hm_bind. destruct (m w) as [[a|e] w1]; [eauto|]. intros [= <- <-]. eauto. Qed.

Lemma wrapf_inv {A} t (m : HM A) (w : W) r w' : hm_wrapf t m w = (r, w') →
  (∃ a, m w = (Ok a, w') ∧ r = Ok a) ∨ (∃ e, m w = (Err e, w') ∧ r = Err (wrap_error t [] e)).
Proof. unfold hm_wrapf. destruct (m w) as [[a|e] w1]; intros [= <- <-]; eauto. Qed.

Lemma wrap_bind_inv {A B} t (m : HM A) (k : A → HM B) (w : W) r w' : hm_bind _ _ k (hm_wrapf t m) w = (r, w') →
  (∃ e, m w = (Err e, w') ∧ r = Err (wrap_error t [] e)) ∨ ∃ a w1, m w = (Ok a, w1) ∧ k a w1 = (r, w').
Proof. unfold hm_bind, hm_wrapf. destruct (m w) as [[a|e] w1]; [eauto|]. intros [= <- <-]. eauto. Qed.

Lemma get_inv {A} (g : W → result A) w r w' : hm_get g w = (r, w') → g w = r ∧ w' = w.
Proof. by intros [= <- <-]. Qed.

Lemma delete_spec pat w r w' : removeFcontextRule pat w = (r, w') →
  match r with
  | Ok _ => ∃ rule, pattern rule = pat ∧ records w ≡ₚ rule :: records w'
  | Err _ => records w' = records w
  end.
Proof. intros [(a & E & ->)|(e & E & ->)]%wrapf_inv; by apply law_delete in E. Qed.

Lemma add_spec pat typ w r w' : addFcontextRule pat typ w = (r, w') →
  match r with
  | Ok _ => records w' ≡ₚ mkRule pat typ false "" "" :: records w
  | Err _ => records w' = records w
  end.
Proof. intros [(a & E & ->)|(e & E & ->)]%wrapf_inv; by apply law_add in E. Qed.

(** The kinds a boundary is created with. *)
Definition created_kind (k : macBoundaryKind) : Prop := k = macBoundaryDirectory ∨ k = macBoundaryRegularFile.

(** The step that may delete a record. *)
Lemma delete_owned_spec b k w r w' : delete_owned b k (records w) w = (r, w') →
  (∃ rule, created_kind k ∧ pattern rule = fcontextPatternFor b k ∧ records w ≡ₚ rule :: records w' ∧ r = Ok ()) ∨
  (records w' = records w ∧
   (r = Ok () → if decide (created_kind k) then fcontextRulePresent (records w) (fcontextPatternFor b k) selinuxWorkspaceType = false
                else sameStemWorkspacePatterns (records w) b = [])).
Proof.
  unfold delete_owned. destruct (decide (created_kind k)) as [Hk|Hk].
  - assert (Hb : match k with
                 | macBoundaryDirectory | macBoundaryRegularFile => True | _ => False end) by (by destruct Hk as [-> | ->]).
    destruct k; try done.
    all: destruct (fcontextRulePresent _ _ _) eqn:Ep; [|intros [= <- <-]; right; by split].
    all: intros [(a & E & ->)|(e & E & ->)]%wrapf_inv; apply delete_spec in E; [|by right].
    all: left; destruct E as (rule & Hp & Hr); destruct a; by exists rule.
  - assert (Hb : match k with
                 | macBoundaryDirectory | macBoundaryRegularFile => False | _ => True end)
      by (destruct k; try done; apply Hk; [by left|by right]).
    destruct k; try done.
    all: case_bool_decide as E; intros [= <- <-]; right; (split; [done|]); [done|]; intros _; done.
Qed.

Lemma remove_spec b k w r w' : removeFcontextBoundary b k w = (r, w') →
  (∃ rule, created_kind k ∧ pattern rule = fcontextPatternFor b k ∧ records w ≡ₚ rule :: records w') ∨
  (records w' = records w ∧
   (r = Ok () → if decide (created_kind k) then fcontextRulePresent (records w) (fcontextPatternFor b k) selinuxWorkspaceType = false
                else sameStemWorkspacePatterns (records w) b = [])).
Proof.
  intros [(e & E & ->)|([] & w1 & E & H)]%hm_bind_inv; apply get_inv in E as [_ ->]; [by right|].
  apply wrap_bind_inv in H as [(e & E & ->)|(existing & w1 & E & H)]; apply list_spec in E as [Er El]; [by right|].
  rewrite (El existing eq_refl) in H. rewrite <-Er in *. clear El existing.
  apply hm_bind_inv in H as [(e & E & ->)|([] & w2 & E & H)]; apply delete_owned_spec in E.
  - destruct E as [(rule & ? & ? & ? & ?)|[? _]]; [done|by right].
  - pose proof (quiet_relabel b w2) as Hq. rewrite H in Hq. simpl in Hq. rewrite Hq.
    destruct E as [(rule & Hk & Hp & Hr & _)|[Hr Hn]]; [left; eauto|right; split; [done|by intros _; apply Hn]].
Qed.

(** Removing one of the records with a fresh pattern removes the added one. *)
Lemma perm_remove_fresh (rule ours : fcontextRule) (l l' l0 : list fcontextRule) :
  l ≡ₚ ours :: l0 → l ≡ₚ rule :: l' → pattern rule = pattern ours →
  (∀ x, x ∈ l0 → pattern x ≠ pattern ours) → l' ≡ₚ l0.
Proof.
  intros H1 H2 Hp Hf. assert (Hin : rule ∈ ours :: l0) by (rewrite <-H1, H2; by left).
  apply elem_of_cons in Hin as [->|Hin]; [|by destruct (Hf rule Hin)].
  apply (Permutation_cons_inv (a := ours)). by rewrite <-H2, <-H1.
Qed.

Definition rollback_reported (e : error) : Prop :=
  err_text e = "restorecon failed; rollback also failed" ∨ err_text e = "verification failed; rollback also failed".

Lemma rollback_spec text b k e0 fail w r w' (rules : list fcontextRule) :
  rollback_setup text b k e0 fail w = (r, w') → created_kind k →
  records w ≡ₚ mkRule (fcontextPatternFor b k) selinuxWorkspaceType false "" "" :: rules →
  (∀ x, x ∈ rules → pattern x ≠ fcontextPatternFor b k) →
  ∃ e, r = Err e ∧ (records w' ≡ₚ rules ∨
    (records w' ≡ₚ mkRule (fcontextPatternFor b k) selinuxWorkspaceType false "" "" :: rules ∧ err_text e = text)).
Proof.
  intros H Hk Hw Hf. unfold rollback_setup in H. destruct (removeFcontextBoundary b k w) as [r1 w1] eqn:E.
  assert (Hw' : w' = w1) by (destruct r1; by injection H). subst w1.
  assert (Hr : ∃ e, r = Err e ∧ (r1 = Ok () ∨ err_text e = text)).
  { destruct r1 as [[]|e]; injection H as <-; eauto. }
  destruct Hr as (e & -> & Hr). exists e. split; [done|].
  apply remove_spec in E as [(rule & _ & Hp & Hr')|[Hr' Hn]].
  - left. by eapply (perm_remove_fresh rule).
  - destruct Hr as [->|Ht]; [|right; by rewrite Hr']. specialize (Hn eq_refl). rewrite decide_True in Hn by done.
    exfalso. apply not_true_iff_false in Hn. apply Hn. unfold fcontextRulePresent. apply existsb_exists.
    eexists. split; [apply list_elem_of_In; rewrite Hw; by left|]. simpl. by rewrite !bool_decide_eq_true_2.
Qed.

Lemma verified_type p w w' : verifyActualType p w = (Ok (), w') → readPathCon w' p = Ok selinuxWorkspaceType.
Proof.
  intros [(e & _ & ?)|(a & w1 & E & H)]%hm_bind_inv; [done|].
  apply wrapf_inv in E as [(a' & E & Ea)|(? & _ & ?)]; [|done]. injection Ea as <-. apply get_inv in E as [E ->].
  revert H. case_bool_decide as Ec; intros [= <-]. by rewrite E, Ec.
Qed.

Lemma our_rule_none pat rules : our_rule pat rules = None → ∀ x, x ∈ rules → pattern x ≠ pat.
Proof.
  unfold our_rule. intros H x Hin Hp. destruct (filter _ rules) eqn:E; [|done].
  assert (Hx : x ∈ filter (λ rule, pattern rule = pat) rules) by (by apply list_elem_of_filter). rewrite E in Hx.
  by apply not_elem_of_nil in Hx.
Qed.

Lemma our_rule_some pat rules rule : our_rule pat rules = Some rule → rule ∈ rules ∧ pattern rule = pat.
Proof. unfold our_rule. intros H%head_Some_elem_of. apply list_elem_of_filter in H. naive_solver. Qed.

Definition our_record (tree : string) (kind : macBoundaryKind) : fcontextRule :=
  mkRule (fcontextPatternFor tree kind) selinuxWorkspaceType false "" "".

Lemma ensure_new_spec tree k w r w' : created_kind k → (∀ x, x ∈ records w → pattern x ≠ fcontextPatternFor tree k) →
  ensure_new tree k (fcontextPatternFor tree k) w = (r, w') →
  (r = Ok true ∧ records w' ≡ₚ our_record tree k :: records w ∧ readPathCon w' tree = Ok selinuxWorkspaceType) ∨
  ∃ e, r = Err e ∧ (records w' ≡ₚ records w ∨ (records w' ≡ₚ our_record tree k :: records w ∧ rollback_reported e)).
Proof.
  intros Hk Hf [(e & E & ->)|([] & w1 & E & H)]%hm_bind_inv; apply wrapf_inv in E as [(a & E & Ea)|(? & E & Ea)]; try done;
    apply add_spec in E; [right; eexists; split; [done|left; by rewrite E]|].
  unfold finish_new in H. pose proof (quiet_restoreconTree tree k w1) as Hq.
  destruct (restoreconTree tree k w1) as [[[]|e] w2]; simpl in Hq.
  2: { destruct (rollback_spec _ _ _ _ _ _ _ _ (records w) H Hk) as (e' & -> & Hr); [by rewrite Hq|done|].
       right. exists e'. split; [done|]. destruct Hr as [?|[? ?]]; [by left|right]. split; [done|by left]. }
  pose proof (quiet_verify tree w2) as Hq2.
  destruct (verifyActualType tree w2) as [[[]|e] w3] eqn:Ev; simpl in Hq2.
  2: { destruct (rollback_spec _ _ _ _ _ _ _ _ (records w) H Hk) as (e' & -> & Hr); [by rewrite Hq2, Hq|done|].
       right. exists e'. split; [done|]. destruct Hr as [?|[? ?]]; [by left|right]. split; [done|by right]. }
  injection H as <- <-. left. split_and!; [done|by rewrite Hq2, Hq|by eapply verified_type].
Qed.

Lemma ensure_existing_spec tree k rule w r w' : ensure_existing tree k rule w = (r, w') →
  records w' = records w ∧ r ≠ Ok true ∧
  (r = Ok false → isEquivalence rule = false ∧ fileType rule = selinuxWorkspaceType ∧
     readPathCon w' tree = Ok selinuxWorkspaceType).
Proof.
  unfold ensure_existing. destruct (isEquivalence rule); [by intros [= <- <-]|].
  case_bool_decide as Et; [|by intros [= <- <-]].
  intros [(e & E & ->)|([] & w1 & E & H)]%wrap_bind_inv;
    pose proof (quiet_restoreconTree tree k w) as Hq; rewrite E in Hq; simpl in Hq; [by rewrite Hq|].
  pose proof (quiet_verify tree w1) as Hq2.
  apply hm_bind_inv in H as [(e & E2 & ->)|([] & w2 & E2 & H)]; rewrite E2 in Hq2; simpl in Hq2.
  - split_and!; [by rewrite Hq2|done|done].
  - injection H as <- <-. split_and!; [by rewrite Hq2|done|]. intros _. split_and!; [done..|by eapply verified_type].
Qed.

(** Preparing a boundary is transactional on the local rules: [Ok true]
    says the host enforces, no rule had our pattern, nothing overlapped, and
    exactly our record was added and the tree verified; [Ok false] changed no
    rule, and either SELinux is not enforcing or the exact record was there and
    the tree verified; a failure left the rules as they were, except when the
    rollback failed too, which the error says, and then only our own record is
    left. *)
Theorem ensure_outcome (tree : string) (k : macBoundaryKind) (w w' : W) (r : result bool)
    (Hk : created_kind k) (Hr : ensureTreeFcontext tree k w = (r, w')) :
  let pat := fcontextPatternFor tree k in
  match r with
  | Ok true =>
      selinuxActive w = Ok (true, true) ∧ (∀ x, x ∈ records w → pattern x ≠ pat) ∧
      checkOverlap tree pat (records w) = Ok () ∧
      records w' ≡ₚ our_record tree k :: records w ∧ readPathCon w' tree = Ok selinuxWorkspaceType
  | Ok false =>
      records w' = records w ∧
      ((∃ active enforcing, selinuxActive w = Ok (active, enforcing) ∧ active && enforcing = false) ∨
       (∃ x, x ∈ records w ∧ pattern x = pat ∧ fileType x = selinuxWorkspaceType ∧
          readPathCon w' tree = Ok selinuxWorkspaceType))
  | Err e =>
      records w' ≡ₚ records w ∨ (records w' ≡ₚ our_record tree k :: records w ∧ rollback_reported e)
  end.
Proof.
  simpl. apply wrap_bind_inv in Hr as [(e & E & ->)|([active enforcing] & w1 & E & H)];
    apply get_inv in E as [E ->]; [by left|]. simpl in H.
  destruct (negb active || negb enforcing) eqn:Ea.
  { injection H as <- <-. split; [done|]. left. exists active, enforcing. split; [done|]. by destruct active, enforcing. }
  apply hm_bind_inv in H as [(e & E1 & ->)|(? & w1 & E1 & H)]; apply get_inv in E1 as [_ ->]; [by left|].
  apply wrap_bind_inv in H as [(e & E1 & ->)|(? & w1 & E1 & H)]; apply get_inv in E1 as [_ ->]; [by left|].
  apply wrap_bind_inv in H as [(e & E1 & ->)|(? & w1 & E1 & H)]; apply get_inv in E1 as [_ ->]; [by left|].
  apply wrap_bind_inv in H as [(e & E1 & ->)|(existing & w1 & E1 & H)]; apply list_spec in E1 as [Er El];
    [left; by rewrite Er|].
  rewrite (El existing eq_refl) in H. rewrite <-Er in *. clear El existing.
  apply hm_bind_inv in H as [(e & E1 & ->)|([] & w2 & E1 & H)]; apply get_inv in E1 as [Eo ->]; [by left|].
  destruct (our_rule _ _) as [rule|] eqn:Eu.
  - apply our_rule_some in Eu as [Hin Hp]. apply ensure_existing_spec in H as (Hq & Hnt & Hf).
    destruct r as [[]|e]; [done| |left; by rewrite Hq]. split; [done|]. right. exists rule.
    destruct (Hf eq_refl) as (_ & ? & ?). by split_and!.
  - pose proof (our_rule_none _ _ Eu) as Hfresh.
    apply ensure_new_spec in H as [(-> & Hr & Hv)|(e & -> & He)]; [|done..].
    destruct active, enforcing; by split_and!.
Qed.

(** Removal deletes nothing but one record of the owned pattern: every rule
    with another pattern survives whatever happens; a success with a
    creation-proven kind leaves that record deleted or found it already gone (a
    resumed removal); a row without a kind never deletes a rule and succeeds
    only when no same-stem rule is left. *)
Theorem remove_outcome (b : string) (k : macBoundaryKind) (w w' : W) (r : result ())
    (Hr : removeFcontextBoundary b k w = (r, w')) :
  let pat := fcontextPatternFor b k in
  (∀ x, pattern x ≠ pat ∨ ¬ created_kind k → x ∈ records w ↔ x ∈ records w') ∧
  (length (records w) <= S (length (records w')))%nat ∧
  (r = Ok () →
     (created_kind k → (∃ x, pattern x = pat ∧ records w ≡ₚ x :: records w') ∨
        (records w' = records w ∧ fcontextRulePresent (records w) pat selinuxWorkspaceType = false)) ∧
     (¬ created_kind k → sameStemWorkspacePatterns (records w) b = [])).
Proof.
  simpl. apply remove_spec in Hr as [(x & Hk & Hp & Hr)|[Hr Hn]].
  - split_and!.
    + intros y [Hy|?]; [|done]. rewrite Hr, elem_of_cons. split; [intros [->|?]; done|by right].
    + by rewrite Hr.
    + intros _. split; [eauto|done].
  - rewrite Hr. split_and!; [done|lia|]. intros Hok. specialize (Hn Hok).
    split; intros Hk; [rewrite decide_True in Hn by done; by right|by rewrite decide_False in Hn].
Qed.

End transitions.

(** ** A concrete host

    The local records as (pattern, type) pairs, printed in the producer's
    grammar; every tree below a record carries its type. *)
Module Store.


Definition good (x : string * string) : bool :=
  ValidString x.1 && String.prefix "/" x.1 && (str_count space x.1 =? 0)%nat && (str_count newline x.1 =? 0)%nat &&
  negb (bool_decide (x.2 = "")) && all_bytes name_byte x.2.

Definition to_rule (x : string * string) : fcontextRule := mkRule x.1 x.2 false "" "".
Definition print_line (x : string * string) : string :=
  x.1 +:+ String space ("   all files    " +:+ String space ("system_u" +:+ ":object_r:" +:+ x.2 +:+ ":s0")).
Fixpoint print (w : list (string * string)) : string :=
  match w with
  | [] => ""
  | x :: w => if good x then (print_line x +:+ " ") +:+ String newline (print w) else print w
  end.
Fixpoint del (pat : string) (w : list (string * string)) : option (list (string * string)) :=
  match w with
  | [] => None
  | x :: w => if good x && bool_decide (x.1 = pat) then Some w else (x ::.) <$> del pat w
  end.

#[export] Instance host : selinuxHost (list (string * string)) := {|
  semanage_list w := (Ok (print w), w);
  semanage_add typ pat w := if good (pat, typ) then (Ok (), (pat, typ) :: w) else (errorf "invalid record" [], w);
  semanage_delete pat w := match del pat w with Some w' => (Ok (), w') | None => (errorf "no such record" [], w) end;
  restorecon _ _ w := (Ok (), w);
  readPathCon w p := Ok (if existsb (λ x, boundaryCoversTree (fcontextStem x.1) p) w
                         then selinuxWorkspaceType else "var_t");
  selinuxActive w := Ok (true, true);
  readMountinfo w := Ok "";
  treeKind w p := Ok macBoundaryDirectory;
  acquireLock w := Ok ();
  procfsUsable w := Ok () |}.

Definition stored (w : list (string * string)) : list fcontextRule := to_rule <$> filter (λ x, good x = true) w.

Lemma good_spec x : good x = true ↔ record_pattern x.1 ∧ x.2 ≠ "" ∧ all_bytes name_byte x.2 = true.
Proof.
  unfold good, record_pattern. rewrite !andb_true_iff, !Nat.eqb_eq, negb_true_iff, bool_decide_eq_false. naive_solver.
Qed.

Lemma print_produces w : produces (stored w) (print w).
Proof.
  induction w as [|x w IH]; simpl; [constructor|]. unfold stored. rewrite filter_cons.
  destruct (good x) eqn:E; [|by rewrite decide_False]. rewrite decide_True by done. cbn [fmap list_fmap].
  apply good_spec in E as (Hp & Hne & Ht). apply produces_line; [|done|done].
  apply line_context; try done. right. by exists "s0".
Qed.

Lemma del_spec pat w w' : del pat w = Some w' → ∃ x, x.1 = pat ∧ stored w ≡ₚ to_rule x :: stored w'.
Proof.
  revert w'. induction w as [|x w IH]; intros w'; simpl; [done|].
  destruct (good x) eqn:E; simpl; [case_bool_decide as Ep|].
  - intros [= <-]. exists x. unfold stored. by rewrite filter_cons, decide_True.
  - destruct (del pat w) as [w0|]; [|done]. intros [= <-]. destruct (IH _ eq_refl) as (y & Hy & Hr). exists y. split; [done|].
    unfold stored in *. rewrite !filter_cons, !decide_True by done. cbn [fmap list_fmap]. rewrite Hr. constructor.
  - destruct (del pat w) as [w0|]; [|done]. intros [= <-]. destruct (IH _ eq_refl) as (y & Hy & Hr). exists y. split; [done|].
    unfold stored in *. by rewrite !filter_cons, !(decide_False (P := good x = true)) by congruence.
Qed.

#[export] Instance laws : selinuxLaws (list (string * string)).
Proof.
  refine {| records := stored |}; simpl.
  - intros w r w' [= <- <-]. split; [done|]. intros out [= <-]. apply print_produces.
  - intros typ pat w r w'. destruct (good (pat, typ)) eqn:E; intros [= <- <-]; [|done].
    unfold stored. by rewrite filter_cons, decide_True.
  - intros pat w r w'. destruct (del pat w) as [w0|] eqn:E; intros [= <- <-]; [|done].
    apply del_spec in E as (x & Hx & Hr). by exists (to_rule x).
  - by intros recursive path w r w' [= <- <-].
Defined.

Definition operator : list (string * string) := [("/srv/data(/.*)?", "httpd_sys_content_t")].
Definition prepared : list (string * string) := [("/srv/app(/.*)?", "docker_helper_workspace_t"); ("/srv/data(/.*)?", "httpd_sys_content_t")].

End Store.

#[local] Existing Instances Store.host Store.laws.

Lemma ensure_outcome_witness :
  ensureTreeFcontext "/srv/app" macBoundaryDirectory Store.operator = (Ok true, Store.prepared) ∧
  checkOverlap "/srv/app" "/srv/app(/.*)?" (records Store.operator) = Ok ().
Proof.
  assert (H : ensureTreeFcontext "/srv/app" macBoundaryDirectory Store.operator = (Ok true, Store.prepared))
    by (vm_compute; reflexivity).
  split; [exact H|].
  exact (proj1 (proj2 (proj2 (ensure_outcome "/srv/app" macBoundaryDirectory Store.operator Store.prepared (Ok true)
    (or_introl eq_refl) H)))).
Defined.

Lemma remove_outcome_witness :
  removeFcontextBoundary "/srv/app" macBoundaryDirectory Store.prepared = (Ok (), Store.operator) ∧
  (mkRule "/srv/data(/.*)?" "httpd_sys_content_t" false "" "" ∈ records Store.prepared ↔
   mkRule "/srv/data(/.*)?" "httpd_sys_content_t" false "" "" ∈ records Store.operator).
Proof.
  assert (H : removeFcontextBoundary "/srv/app" macBoundaryDirectory Store.prepared = (Ok (), Store.operator))
    by (vm_compute; reflexivity).
  split; [exact H|].
  apply (remove_outcome "/srv/app" macBoundaryDirectory Store.prepared Store.operator (Ok ()) H). left.
  vm_compute. discriminate.
Defined.
