(* ===== verification/MacSpec.v ===== *)
(** * MacSpec: what the Session MAC coordinator promises

    Over any driver that keeps the contract [macDriverLaws]: the boundary every
    Session or lease is bound to stays in force, consumer counts are exact, no
    transition removes what is still needed, and the outcome of preparing,
    reconciling and removing on both branches. *)
From S2P Require Import Prelude Filepath AllowedRoots AllowedRootsTheory GoStrings Database SnapshotStore SnapshotSpec MacLifecycle MacTheory.
Local Open Scope Z_scope.

(** ** A small driver

    A host whose MAC state is the list of its boundaries; the witnesses run the
    coordinator on it. *)
Module Example.

Definition covering (t : string) (w : list string) : option string := head (filter (λ b, boundaryCoversTree b t = true) w).

#[export] Instance driver : sessionMACDriver (list string) := {|
  ensureCoverage t w :=
    match covering t w with
    | Some b => (Ok (mkCoverage b false macBoundaryDirectory, false), w)
    | None => (Ok (mkCoverage t true macBoundaryDirectory, true), t :: w)
    end;
  verifyCoverage t w :=
    match covering t w with
    | Some b => (Ok (mkCoverage b false macBoundaryDirectory), w)
    | None => (errorf "not covered" [], w)
    end;
  removeBoundary b k w := (Ok (), filter (λ b', b' ≠ b) w);
  discoverHelperOwnedBoundaries w := Ok [];
  proveOwnedKind b w := (Ok None, w);
  backend := "example" |}.

Lemma covering_spec t w b : covering t w = Some b → b ∈ w ∧ boundaryCoversTree b t = true.
Proof.
  unfold covering. intros H%head_Some_elem_of. apply list_elem_of_filter in H. naive_solver.
Qed.

Lemma covers_self t : boundaryCoversTree t t = true.
Proof. apply pathWithin_refl. Qed.

Lemma covering_none t w : covering t w = None → t ∉ w.
Proof.
  unfold covering. intros H Hin. destruct (filter _ w) eqn:E; [|done].
  assert (Hf : t ∈ filter (λ b, boundaryCoversTree b t = true) w) by (apply list_elem_of_filter; split; [apply covers_self|done]).
  rewrite E in Hf. by apply not_elem_of_nil in Hf.
Qed.

#[export] Instance laws : macDriverLaws (list string).
Proof.
  refine {| present w b := b ∈ w; operator_owned b := False |}; simpl.
  - intros t w c new w'. destruct (covering t w) as [b|] eqn:E; intros [= <- <- <-]; simpl.
    + by apply covering_spec.
    + split; [by left|apply covers_self].
  - intros t w r w' b. destruct (covering t w); intros [= <- <-] ?; [done|by right].
  - intros t w c w'. destruct (covering t w) eqn:E; intros [= <- <-]. split; [by apply covering_none|tauto].
  - intros t w c w'. destruct (covering t w) as [b|] eqn:E; intros [= <- <-]. by apply covering_spec.
  - intros t w r w' b. by destruct (covering t w); intros [= <- <-].
  - intros b k w r w' b' [= <- <-] _ Hne Hb. by apply list_elem_of_filter.
  - by intros b w r w' b' [= <- <-].
  - intros w l b k [= <-] H. by apply not_elem_of_nil in H.
Defined.

Definition start : mac (list string) := newSessionMACCoordinator ["/opt/shared"] empty_db [].
(** Two trees are prepared, one of them under the boundary of the operator. *)
Definition trees : list string := ["/opt/shared/a"; "/srv/app"].
Definition no_insert (covs : list sessionMACCoverage) : DB unit := mret ().
Definition bound_state : mac (list string) := (CreateSessionBinding "dhs_1" trees no_insert start).2.

Lemma no_insert_ok : insert_ok no_insert.
Proof. by intros covs d f. Qed.

Lemma reached : mac_reach start bound_state.
Proof. eapply mac_reach_step; [apply mac_reach_refl|]. apply mac_create; [done|apply no_insert_ok]. Qed.

End Example.

Section spec.
Context {W : Type} `{!sessionMACDriver W, !macDriverLaws W}.
Implicit Types s : mac W.

(** A coordinator reachable from a start whose ownership table attributes no
    boundary of the operator to the daemon. *)
Definition reachable s : Prop :=
  ∃ w d f, (∀ b, operator_owned b → mac_boundaries d !! (backend, b) = None) ∧
    mac_reach (newSessionMACCoordinator w d f) s.

Lemma coordinator_inv s : reachable s → mac_inv s.
Proof. intros (w & d & f & Hd & Hr). eapply reach_inv; [exact Hr|by apply init_inv]. Qed.

(** C23. Whatever fails and in whatever order Sessions are created and released,
    leases are taken and returned, workloads become pending and other
    components write the database: every boundary a Session or a lease is bound
    to is in force on the host, the consumer count of a boundary is exactly the
    number of bindings and leases that name it, no boundary the operator
    provides is ever recorded or flagged as the daemon's, and a lease that was
    returned is gone. *)
Theorem coordinator_invariant s (Hs : reachable s) :
  (∀ b, bound s b → present (world s) b) ∧
  (∀ b, count_of b s = uses (sessionBindings s) b + uses (sessionUseLeases s) b) ∧
  (∀ b, operator_owned b → mac_boundaries (m_db s) !! (backend, b) = None) ∧
  (∀ sid covs c, sessionBindings s !! sid = Some covs → c ∈ covs → HelperOwned c = true →
     ¬ operator_owned (Boundary c)) ∧
  (∀ key, key ∈ releasedOnce s → sessionUseLeases s !! key = None).
Proof.
  apply coordinator_inv in Hs. destruct Hs as [H1 H2 [H3 H3'] H4 [H5 H5'] H6].
  split_and!; [done..| |done]. intros sid covs c Hk Hc Ho Hop. destruct (H5 _ _ _ Hk Hc) as [_ H]. rewrite (H Hop) in Ho. done.
Qed.

(** No transition takes away what is still needed: a boundary in force
    before a step is in force after it whenever, in the state the step leaves,
    it overlaps a boundary some Session or lease is bound to, covers an issued
    tree of a Session with a pending workload (or such a Session whose trees
    cannot be resolved exists), or is the operator's. *)
Theorem needed_boundary_kept s s' (b : string) (Hs : reachable s) (Hstep : mac_step s s')
    (Hneed : (∃ b', bound s' b' ∧ macBoundaryOverlap b b' = true) ∨ pending_needs s' b ∨ operator_owned b)
    (Hp : present (world s) b) :
  present (world s') b.
Proof.
  apply coordinator_inv in Hs. apply (mac_step_spec s s') in Hs as [_ Hk]; [|done]. apply Hk; [|done].
  unfold keep, protected. tauto.
Qed.

(** Binding a Session is all or nothing: a success binds the Session to
    boundaries that are in force and cover every issued tree, charges exactly
    one consumer to each, and left the other bindings and leases alone; a
    failure leaves bindings, counts, leases and every table but the ownership
    metadata unchanged and takes no needed boundary away. *)
Theorem create_binding_outcome s s' (sid : string) (trees : list string)
    (ins : list sessionMACCoverage → DB unit) (r : result (list sessionMACCoverage))
    (Hs : reachable s) (Hsid : sessionBindings s !! sid = None) (Hins : insert_ok ins)
    (Hr : CreateSessionBinding sid trees ins s = (r, s')) :
  match r with
  | Ok covs =>
      sessionBindings s' = <[sid := covs]> (sessionBindings s) ∧
      sessionUseLeases s' = sessionUseLeases s ∧
      (∀ c, c ∈ covs → present (world s') (Boundary c)) ∧
      trees_covered s' sid trees ∧
      (∀ b, count_of b s' = count_of b s + if decide (b ∈ Boundary <$> covs) then 1 else 0)
  | Err _ =>
      sessionBindings s' = sessionBindings s ∧ sessionUseLeases s' = sessionUseLeases s ∧
      boundaryConsumerCounts s' = boundaryConsumerCounts s ∧ db_frame (m_db s) (m_db s') ∧
      (∀ b, keep s b → present (world s) b → present (world s') b)
  end.
Proof.
  apply coordinator_inv in Hs. destruct r as [covs|e].
  - destruct (create_ok _ _ _ _ _ _ Hs Hsid Hins Hr) as (Hi' & _ & Hnd & Eb & Hp & Hc).
    assert (El : sessionUseLeases s' = sessionUseLeases s) by (by eapply create_leases).
    split_and!; [done..|]. intros b. rewrite (mi_count _ Hi'), (mi_count _ Hs), Eb, El, uses_insert by done.
    unfold ind. lia.
  - destruct (create_err _ _ _ _ _ _ Hs Hins Hr). by split_and!.
Qed.

(** After a successful startup reconciliation every live Session's
    persisted snapshot loaded and all its issued trees are covered by
    boundaries in force; a boundary in force that is still needed survived
    whether it succeeded or not. *)
Theorem reconcile_covers_live s s' (now : Z) (r : result ()) (Hs : reachable s)
    (Hempty : sessionBindings s = ∅) (Hr : ReconcileLiveSessions now s = (r, s')) :
  (∀ b, keep s' b → present (world s) b → present (world s') b) ∧
  (r = Ok () → ∀ sid row, sessions (m_db s) !! sid = Some row → now < s_expires_at row →
     ∃ snap d f d' f', db_frame (m_db s) d ∧
       loadSessionFilesystemSnapshot sid (s_workspace row) d f = (Ok snap, d', f') ∧
       trees_covered s' sid (sessionMACBoundaries snap)).
Proof. apply coordinator_inv in Hs. by destruct (reconcile_spec _ _ _ _ Hs Hempty Hr) as (_ & ? & ?). Qed.

(** Nothing but the world, the faults and other ownership rows changed. *)
Definition untouched (b : string) s s' : Prop :=
  sessionBindings s' = sessionBindings s ∧ boundaryConsumerCounts s' = boundaryConsumerCounts s ∧
  sessionUseLeases s' = sessionUseLeases s ∧ deferredBoundaries s' = deferredBoundaries s ∧
  (is_Some (mac_boundaries (m_db s) !! (backend, b)) → is_Some (mac_boundaries (m_db s') !! (backend, b))).

Lemma untouched_trans b s1 s2 s3 : untouched b s1 s2 → untouched b s2 s3 → untouched b s1 s3.
Proof. unfold untouched. intros (->&->&->&->&?) (->&->&->&->&?). split_and!; auto. Qed.

Lemma untouched_db b s d f : mac_boundaries d = mac_boundaries (m_db s) → untouched b s (with_db d f s).
Proof. intros H. split_and!; [done..|]. simpl. by rewrite H. Qed.

Lemma record_untouched b k s : untouched b s (recordBoundaryOwnership b k s).2.
Proof.
  unfold recordBoundaryOwnership.
  assert (∀ v, untouched b s (on_db (exec (λ d, Some (set_mac (<[(backend, b) := v]> (mac_boundaries d)) d))) s).2) as H.
  { intros v. unfold on_db, exec, stmt. destruct (m_faults s) as [|[] f]; simpl;
      [|by apply untouched_db|]; (split_and!; [done..|]); simpl; by rewrite lookup_insert_eq. }
  case_bool_decide; [apply H|]. destruct (macBoundaryKindValue k); [apply H|by split_and!].
Qed.

Lemma removal_kind_spec b s r s1 : removal_kind b s = (r, s1) →
  untouched b s s1 ∧ ∀ k, r = Ok k →
    ∀ v, mac_boundaries (m_db s) !! (backend, b) = Some (Some v) → v ≠ "" → parseMacBoundaryKindValue v = Ok k.
Proof.
  unfold removal_kind, ownedBoundaryRemovalKind, boundaryOwnedKind, mbind, mac_bind, mac_wrapf, on_db.
  destruct (query _ (m_db s) (m_faults s)) as [[[row|e] d] f] eqn:Eq.
  2: { intros [= <- <-]. pose proof (reads_query (λ d, mac_boundaries d !! (backend, b)) (m_db s) (m_faults s)) as Hr.
       rewrite Eq in Hr. simpl in Hr. subst d. split; [by apply untouched_db|done]. }
  apply query_ok in Eq as (-> & -> & _).
  assert (H0 : untouched b s (with_db (m_db s) f s)) by (by apply untouched_db).
  set (s0 := with_db (m_db s) f s) in *.
  assert (Hconv : ∀ r s1, convergeLegacyOwnedKind b s0 = (r, s1) → untouched b s s1).
  { clear r s1. intros r s1. unfold convergeLegacyOwnedKind, mbind, mac_bind, mac_wrapf.
    destruct (on_driver (proveOwnedKind b) s0) as [[[k|]|e] s2] eqn:Ep;
      (assert (H2 : untouched b s s2) by (apply on_driver_result in Ep as [_ ->]; exact H0)).
    - pose proof (record_untouched b k s2) as H3.
      destruct (recordBoundaryOwnership b k s2) as [[u|e] s3]; simpl in H3; intros [= <- <-];
        by eapply untouched_trans.
    - by intros [= <- <-].
    - by intros [= <- <-]. }
  destruct (mac_boundaries (m_db s) !! (backend, b)) as [[v|]|] eqn:Erow; cbn -[convergeLegacyOwnedKind].
  - case_bool_decide as Ev; cbn -[convergeLegacyOwnedKind].
    + intros H. split; [by eapply Hconv|]. intros k _ v' [= <-]. done.
    + unfold mac_lift. destruct (parseMacBoundaryKindValue v) as [k|e] eqn:Ek.
      * case_bool_decide as Eu; [|intros [= <- <-]; split; [done|]; intros ? [= <-] ? [= <-]; done].
        exfalso. revert Ek. unfold parseMacBoundaryKindValue, errorf. repeat case_bool_decide; congruence.
      * by intros [= <- <-].
  - intros H. split; [by eapply Hconv|done].
  - intros H. split; [by eapply Hconv|done].
Qed.

(** A removal that fails never loses the ownership record: the daemon still
    owns the boundary, keeps it deferred if it was, and bindings, counts and
    leases are untouched, so a later pass retries.  A removal that succeeds ran
    the driver's removal of exactly that boundary with the kind its row
    records, or the proven one when the row records none, and drops the
    deferral. *)
Theorem removal_outcome s s' (b : string) (r : result ())
    (Hr : removeOwnedBoundary b s = (r, s')) :
  sessionBindings s' = sessionBindings s ∧ boundaryConsumerCounts s' = boundaryConsumerCounts s ∧
  sessionUseLeases s' = sessionUseLeases s ∧
  match r with
  | Err _ => deferredBoundaries s' = deferredBoundaries s ∧
      (is_Some (mac_boundaries (m_db s) !! (backend, b)) → is_Some (mac_boundaries (m_db s') !! (backend, b)))
  | Ok _ => (b ∉ deferredBoundaries s') ∧
      ∃ k s1, removal_kind b s = (Ok k, s1) ∧ removeBoundary b k (world s1) = (Ok (), world s') ∧
        (∀ v, mac_boundaries (m_db s) !! (backend, b) = Some (Some v) → v ≠ "" → parseMacBoundaryKindValue v = Ok k)
  end.
Proof.
  revert Hr. unfold removeOwnedBoundary, mbind, mac_bind.
  destruct (removal_kind b s) as [[k|e] s1] eqn:Ek; pose proof Ek as Ek'; apply removal_kind_spec in Ek as [(Eb & Ec & El & Ed & Hrow) Hk].
  2: { intros [= <- <-]. by split_and!. }
  destruct (on_driver (removeBoundary b k) s1) as [[[]|e] s2] eqn:Er; apply on_driver_result in Er as [Er ->].
  2: { intros [= <- <-]. by split_and!. }
  set (s2' := with_world (world s2) s1). pose proof (forget_frame (λ _, True) b s2') as Hf.
  unfold mac_do. cbn -[forgetBoundaryOwnership].
  set (s3 := (forgetBoundaryOwnership b s2').2) in *. intros [= <- <-]. destruct Hf. simpl.
  simpl in *. split_and!; [by etrans; [|exact Eb]|by etrans; [|exact Ec]|by etrans; [|exact El]|set_solver|].
  exists k, s1.
  assert (Hw : world s3 = world s2) by (unfold s3, forgetBoundaryOwnership, on_db, exec, stmt;
    by destruct (m_faults s2') as [|[] ?]).
  rewrite Hw. split_and!; [done..|]. by apply Hk.
Qed.

End spec.

(** ** Witnesses *)

#[local] Existing Instances Example.driver Example.laws.

Lemma example_reachable : reachable Example.bound_state.
Proof. exists ["/opt/shared"], empty_db, []. split; [done|]. apply Example.reached. Qed.

Lemma start_reachable : reachable Example.start.
Proof. exists ["/opt/shared"], empty_db, []. split; [done|]. apply mac_reach_refl. Qed.

(** The bound example: the operator's boundary and the prepared one are in
    force, each with one consumer. *)
Lemma coordinator_invariant_witness :
  present (world Example.bound_state) "/srv/app" ∧ count_of "/srv/app" Example.bound_state = 1 ∧
  uses (sessionBindings Example.bound_state) "/srv/app" + uses (sessionUseLeases Example.bound_state) "/srv/app" = 1.
Proof.
  destruct (coordinator_invariant Example.bound_state example_reachable) as (H1 & H2 & _).
  split_and!; [|vm_compute; reflexivity|by rewrite <-H2; vm_compute].
  apply H1. left. exists "dhs_1", [mkCoverage "/opt/shared" false macBoundaryDirectory; mkCoverage "/srv/app" true macBoundaryDirectory],
    (mkCoverage "/srv/app" true macBoundaryDirectory).
  split_and!; [vm_compute; reflexivity|by right; left|reflexivity].
Defined.

(** Releasing the Session removes the prepared boundary; the one a second
    Session is bound to is kept. *)
Definition second_state : mac (list string) :=
  (CreateSessionBinding "dhs_2" ["/srv/app/sub"] Example.no_insert Example.bound_state).2.

Lemma second_reachable : reachable second_state.
Proof.
  destruct example_reachable as (w & d & f & Hd & Hr). exists w, d, f. split; [done|].
  eapply mac_reach_step; [exact Hr|]. apply mac_create; [vm_compute; reflexivity|apply Example.no_insert_ok].
Qed.

Lemma needed_boundary_kept_witness :
  present (world (ReleaseSessionBinding "dhs_1" second_state)) "/srv/app" ∧
  world (ReleaseSessionBinding "dhs_2" (ReleaseSessionBinding "dhs_1" second_state)) = ["/opt/shared"].
Proof.
  split; [|vm_compute; reflexivity].
  apply (needed_boundary_kept second_state (ReleaseSessionBinding "dhs_1" second_state) "/srv/app" second_reachable).
  - apply mac_release.
  - left. exists "/srv/app". split; [|vm_compute; reflexivity]. left.
    exists "dhs_2", [mkCoverage "/srv/app" true macBoundaryDirectory], (mkCoverage "/srv/app" true macBoundaryDirectory).
    split_and!; [vm_compute; reflexivity|by left|reflexivity].
  - apply (bool_decide_eq_true_1 (("/srv/app" : string) ∈ world second_state)). vm_compute. reflexivity.
Defined.

Lemma create_binding_outcome_witness :
  is_ok (CreateSessionBinding "dhs_1" Example.trees Example.no_insert Example.start).1 = true ∧
  (∀ c, c ∈ [mkCoverage "/opt/shared" false macBoundaryDirectory; mkCoverage "/srv/app" true macBoundaryDirectory] →
     present (world Example.bound_state) (Boundary c)).
Proof.
  split; [vm_compute; reflexivity|].
  pose proof (create_binding_outcome Example.start Example.bound_state "dhs_1" Example.trees Example.no_insert
    (Ok [mkCoverage "/opt/shared" false macBoundaryDirectory; mkCoverage "/srv/app" true macBoundaryDirectory])
    start_reachable) as H.
  apply H; [vm_compute; reflexivity|apply Example.no_insert_ok|vm_compute; reflexivity].
Defined.

(** A live Session with the snapshot [/srv/app]; reconciliation prepares it. *)
Definition live_db : db :=
  let e := [mkEntry "/srv/app" AllowedRootAccessReadWrite] in
  mkDB ∅ ∅ ∅ ∅ ∅ {[ "dhs_1" := mkSession "h" "/srv/app" 0 10 "dhl_1" ]} true
    {[ ("dhs_1", 0) := ("/srv/app", AllowedRootAccessReadWrite) ]}
    {[ "dhs_1" := (1, sessionFilesystemSnapshotDigest e) ]} ∅.

Lemma reconcile_covers_live_witness :
  ∃ s', ReconcileLiveSessions 5 (newSessionMACCoordinator [] live_db []) = (Ok (), s') ∧
    ∃ covs, sessionBindings s' !! "dhs_1" = Some covs.
Proof.
  set (s0 := newSessionMACCoordinator [] live_db [] : mac (list string)).
  destruct (ReconcileLiveSessions 5 s0) as [r s'] eqn:E.
  assert (Hr : r = Ok ()) by (change r with ((r, s').1); rewrite <- E; vm_compute; reflexivity).
  subst r. exists s'. split; [done|].
  assert (Hs0 : reachable s0).
  { exists [], live_db, []. split; [done|apply mac_reach_refl]. }
  destruct (reconcile_covers_live s0 s' 5 (Ok ()) Hs0 eq_refl E) as [_ H].
  destruct (H eq_refl "dhs_1" (mkSession "h" "/srv/app" 0 10 "dhl_1")) as (snap & _ & _ & _ & _ & _ & _ & covs & Hc & _);
    [vm_compute; reflexivity|reflexivity|]. by exists covs.
Defined.

(** Removing the prepared boundary of the example. *)
Lemma removal_outcome_witness :
  ∃ s', removeOwnedBoundary "/srv/app" Example.bound_state = (Ok (), s') ∧ "/srv/app" ∉ deferredBoundaries s'.
Proof.
  destruct (removeOwnedBoundary "/srv/app" Example.bound_state) as [r s'] eqn:E.
  assert (Hr : r = Ok ()) by (change r with ((r, s').1); rewrite <- E; vm_compute; reflexivity).
  subst r. exists s'. split; [done|].
  destruct (removal_outcome Example.bound_state s' "/srv/app" (Ok ()) E) as (_ & _ & _ & H & _). exact H.
Defined.
