(* ===== verification/SessionSpec.v ===== *)
(** * SessionSpec: what Session creation and the scoped operations promise

    No host probe before lexical admission, the outcome of a create on both
    branches (authority re-proved at the commit, the snapshot within its
    ceiling and persisted, every issued tree covered), the refusal classes of a
    stale authority, exactness of the bearer lookup, isolation of the scopes and
    of the Launcher a create may target. *)
From S2P Require Import Prelude Filepath AllowedRoots AllowedRootsTheory GoStrings WorkspacePolicy Sha256 Database SnapshotStore SnapshotSpec Credential Launcher MacLifecycle MacTheory MacSpec Session SessionTheory.
Local Open Scope Z_scope.

(** ** Creation *)

Section creation.
Context {W : Type} `{!sessionMACDriver W}.
Implicit Types s : mac W.

(** No privileged probe before admission: in every create, whatever its
    outcome, a symlink is resolved only for a spelling that is lexically inside
    the effective ceiling and has no control character, and a stat runs only on
    the answer of such a resolution. *)
Theorem admission_before_probe (h : host) (env : create_env) (hasMAC : bool) (p : sessionCreatePolicy) s :
  admitted_log h (cp_EffectiveAllowedRootPaths p) (createSessionWithPolicyLocked h env hasMAC p s).1.2.
Proof.
  unfold createSessionWithPolicyLocked. pose proof (admit_session_admits h p []) as H.
  assert (Hnil : admitted_log h (cp_EffectiveAllowedRootPaths p) []) by (split; intros q Hq; by apply not_elem_of_nil in Hq).
  specialize (H Hnil). destruct (admit_session h p []) as [[snap|e] l]; [|exact H]. simpl in H.
  destruct (ce_id env); [|exact H]. destruct (generateSessionToken (ce_token env)); [|exact H]. cbv zeta.
  destruct hasMAC.
  - destruct (CreateSessionBinding _ _ _ s) as [[]]; exact H.
  - destruct (on_db _ s) as [[]]; exact H.
Qed.

(** The row a create commits. *)
Definition issued_row (env : create_env) (p : sessionCreatePolicy) (created : CreatedSession) : session_row :=
  mkSession (sha256_hex (cs_Token created)) (Workspace (cs_FilesystemSnapshot created)) (ce_now env / second)
    ((ce_now env + ce_ttl env) / second) (cp_LauncherID p).

Definition issued (p : sessionCreatePolicy) (created : CreatedSession) (hex token : string) : Prop :=
  ss_ID (cs_Session created) = sessionIDPrefix +:+ hex ∧ cs_Token created = token ∧
  ss_Workspace (cs_Session created) = Workspace (cs_FilesystemSnapshot created) ∧
  ss_LauncherID (cs_Session created) = cp_LauncherID p.

(** A successful create, step by step. *)
Lemma create_steps (h : host) (env : create_env) (p : sessionCreatePolicy) s created l s' :
  createSessionWithPolicyLocked h env true p s = (Ok created, l, s') →
  ∃ hex token covs,
    admit_session h p [] = (Ok (cs_FilesystemSnapshot created), l) ∧
    ce_id env = Some hex ∧ issued p created hex token ∧
    CreateSessionBinding (sessionIDPrefix +:+ hex) (sessionMACBoundaries (cs_FilesystemSnapshot created))
      (λ _, insertSession (sessionIDPrefix +:+ hex) (issued_row env p created) (cp_Credential p)
              (cs_FilesystemSnapshot created)) s = (Ok covs, s').
Proof.
  unfold createSessionWithPolicyLocked. destruct (admit_session h p []) as [[snap|e] l0]; [|done].
  destruct (ce_id env) as [hex|]; [|done]. destruct (generateSessionToken (ce_token env)) as [token|]; [|done].
  cbv zeta. destruct (CreateSessionBinding _ _ _ s) as [[covs|e] s1] eqn:E; [|done]. intros [= <- <- <-].
  by exists hex, token, covs.
Qed.

Lemma launcher_available_frame lid d d' : db_frame d d' → launcher_available lid d' = launcher_available lid d.
Proof. by intros ->. Qed.

Lemma credential_clause_frame c d d' : db_frame d d' → credential_clause c d' = credential_clause c d.
Proof. by intros ->. Qed.

Context `{!macDriverLaws W}.

(** The insert a successful binding ran, on a database that differs in
    ownership metadata only. *)
Lemma binding_insert sid trees ins s covs s' :
  mac_inv s → CreateSessionBinding sid trees (λ _, ins) s = (Ok covs, s') →
  ∃ d f, db_frame (m_db s) d ∧ ins d f = (Ok (), m_db s', m_faults s').
Proof.
  intros Hi. unfold CreateSessionBinding, ensureSessionCoverage.
  destruct (coverage_loop trees ∅ [] s) as [[[covs' prepared]|e] s1] eqn:E; [|done].
  apply coverage_loop_spec in E as (Hf & _); [|apply (mi_rows _ Hi)|done|by intros b c; rewrite lookup_empty].
  unfold on_db. destruct (ins (m_db s1) (m_faults s1)) as [[[[]|e] d] f] eqn:Ei; [|done]. intros [= <- <-].
  exists (m_db s1), (m_faults s1). split; [apply (fr_db _ _ _ Hf)|]. rewrite Ei.
  destruct (incr_counts_with covs' (with_bindings (<[sid := covs']> (sessionBindings (with_db d f s1))) (with_db d f s1)))
    as [cm Ecm]. simpl in Ecm. by rewrite Ecm.
Qed.

(** C32. The outcome of creating a Session.  On success the request was
    admitted (a directory strictly inside an effective root, nothing outside
    the effective policy authorized), its Launcher, Principal and authorizing
    credential were live at the commit, exactly one fresh row holding the
    digest of the returned bearer was added, the persisted snapshot loads back
    as returned and every issued tree is covered by a boundary in force.  On
    failure no table but the ownership metadata changed and no binding, lease or
    consumer count did. *)
Theorem create_session_outcome (h : host) (env : create_env) (p : sessionCreatePolicy) s s'
    (r : result CreatedSession) (l : list probe)
    (Hs : reachable s) (Hv : valid_entries (cp_EffectiveAllowedRoots p))
    (Hfresh : ∀ hex, ce_id env = Some hex → sessionBindings s !! (sessionIDPrefix +:+ hex) = None ∧
                 rows_are (sessionIDPrefix +:+ hex) [] (m_db s))
    (Hr : createSessionWithPolicyLocked h env true p s = (r, l, s')) :
  match r with
  | Ok created =>
      let snap := cs_FilesystemSnapshot created in
      let sid := ss_ID (cs_Session created) in
      admitted_snapshot h p snap ∧
      launcher_available (cp_LauncherID p) (m_db s) = true ∧ credential_clause (cp_Credential p) (m_db s) = true ∧
      sessions (m_db s) !! sid = None ∧
      sessions (m_db s') = <[sid := issued_row env p created]> (sessions (m_db s)) ∧
      (loadSessionFilesystemSnapshot sid (Workspace snap) (m_db s') []).1.1 = Ok snap ∧
      trees_covered s' sid (sessionMACBoundaries snap) ∧
      (∀ b, bound s' b → present (world s') b)
  | Err _ =>
      db_frame (m_db s) (m_db s') ∧ sessionBindings s' = sessionBindings s ∧
      boundaryConsumerCounts s' = boundaryConsumerCounts s ∧ sessionUseLeases s' = sessionUseLeases s
  end.
Proof.
  apply coordinator_inv in Hs. destruct r as [created|e].
  - apply create_steps in Hr as (hex & token & covs & Ha & Hid & (Esid & _ & _ & _) & Hb).
    rewrite Esid. clear Esid. destruct (Hfresh hex Hid) as [Hsid Hrows].
    destruct (create_ok _ _ _ _ _ _ Hs Hsid (insertSession_insert_ok _ _ _ _) Hb) as (Hi' & _ & _ & _ & _ & Hcov).
    destruct (binding_insert _ _ _ _ _ _ Hs Hb) as (d & f & Hd & Hins).
    pose proof (admit_session_ok _ _ _ _ _ Hv Ha) as Hadm. pose proof Hadm as (_ & Hwf & _).
    apply insertSession_ok in Hins as (Hl & Hc & Hn & _ & Es & _ & _ & _ & _ & Hrows' & Em); [|by rewrite Hd].
    rewrite (launcher_available_frame _ _ _ Hd) in Hl. rewrite (credential_clause_frame _ _ _ Hd) in Hc.
    rewrite Hd in Hn, Es. split_and!; try done; [|by destruct Hi'].
    rewrite load_calm by constructor. rewrite Em, lookup_insert_eq, (select_entries_exact _ _ _ Hrows'). simpl.
    apply check_snapshot_rows; [exact Hwf|]. intros E. apply snapshot_wf_inv in Hwf as (_ & _ & [a Ha'] & _).
    unfold LookupAccess in Ha'. by rewrite E in Ha'.
  - revert Hr. unfold createSessionWithPolicyLocked.
    assert (Hsame : db_frame (m_db s) (m_db s) ∧ sessionBindings s = sessionBindings s ∧
      boundaryConsumerCounts s = boundaryConsumerCounts s ∧ sessionUseLeases s = sessionUseLeases s) by done.
    destruct (admit_session h p []) as [[snap|e0] l0]; [|by intros [= _ _ <-]].
    destruct (ce_id env) as [hex|]; [|by intros [= _ _ <-]].
    destruct (generateSessionToken (ce_token env)) as [token|]; [|by intros [= _ _ <-]]. cbv zeta.
    destruct (CreateSessionBinding _ _ _ s) as [[covs|e1] s1] eqn:E; [done|]. intros [= _ _ <-].
    apply create_err in E; [|done|apply insertSession_insert_ok]. destruct E. by split_and!.
Qed.

End creation.

(** ** The commit-time revalidation *)

(** The commit re-proves the authority: when no statement fails, a create
    whose Launcher, Principal or authorizing credential went stale between
    authentication and the insert commits nothing and is refused with the class
    of the first cause (Launcher or Principal gone or disabled; credential row
    no longer the owner's; credential revoked). *)
Theorem commit_refuses_stale (id : string) (row : session_row) (c : option sessionCreateCredentialAuthority)
    (snap : sessionFilesystemSnapshot) (d : db) (f : list bool) (Hf : calm f)
    (Hstale : launcher_available (s_launcher_id row) d && credential_clause c d = false) :
  ∃ e f', insertSession id row c snap d f = (Err e, d, f') ∧ stale_authority e = true ∧
    if launcher_available (s_launcher_id row) d
    then match c with
         | None => False
         | Some a => match create_credential_row a d with
                     | None => errors_is e ErrCredentialNotFound = true
                     | Some r => c_revoked_at r ≠ None ∧ errors_is e ErrCredentialRevoked = true
                     end
         end
    else errors_is e ErrLauncherUnavailable = true.
Proof.
  destruct (insertSession_stale id row c snap d f Hf Hstale) as (e & f' & E & H). exists e, f'. split; [done|].
  destruct (launcher_available _ d); [|unfold stale_authority; by rewrite H].
  destruct c as [a|]; [|done]. unfold credential_clause in Hstale. simpl in Hstale.
  destruct (create_credential_row a d) as [r|]; unfold stale_authority; rewrite H, ?orb_true_r; [|done].
  split_and!; [done| |done]. intros Hr. unfold is_active in Hstale. by rewrite bool_decide_eq_true_2 in Hstale.
Qed.

(** ** The bearer lookup *)

Definition session_hashes_unique (d : db) : Prop :=
  ∀ i j r r', sessions d !! i = Some r → sessions d !! j = Some r' → s_token_hash r = s_token_hash r' → i = j.

(** The row a bearer stands for. *)
Definition bearer_of (token : string) (now : Z) (d : db) (s : Session) : Prop :=
  ∃ row, sessions d !! ss_ID s = Some row ∧ s_token_hash row = sha256_hex token ∧ now < s_expires_at row ∧
    launcher_available (s_launcher_id row) d = true ∧ session_projection (ss_ID s) row d = Some s.

Lemma projection_id id row d s : session_projection id row d = Some s → ss_ID s = id.
Proof. unfold session_projection. destruct (launcher_join _ d) as [[l p]|]; [|done]. by intros [= <-]. Qed.

Lemma available_projection id row d :
  launcher_available (s_launcher_id row) d = true → ∃ s, session_projection id row d = Some s.
Proof. unfold launcher_available, session_projection. destruct (launcher_join _ d) as [[l p]|]; [eauto|done]. Qed.

(** The bearer lookup is exact: whatever statements fail, a Session is
    returned only for the bearer whose digest its row stores, before its
    expiry and while its Launcher and Principal are enabled; when none fails,
    it is returned exactly then, and every refusal is the one not-found
    error. *)
Theorem token_lookup_exact (token : string) (now : Z) (d : db) (f : list bool) (Hu : session_hashes_unique d) :
  (∀ s d' f', findSessionByToken token now d f = (Ok s, d', f') → d' = d ∧ bearer_of token now d s) ∧
  (calm f → ∀ s, bearer_of token now d s → (findSessionByToken token now d f).1 = (Ok s, d)) ∧
  (calm f → ∀ e d' f', findSessionByToken token now d f = (Err e, d', f') → d' = d ∧ err_wraps e = [ErrSessionNotFound]).
Proof.
  unfold findSessionByToken. set (P := λ (_ : string) row, bool_decide (s_token_hash row = sha256_hex token) &&
                                    (now <? s_expires_at row) && launcher_available (s_launcher_id row) d).
  assert (HP : ∀ id row, P id row = true ↔ s_token_hash row = sha256_hex token ∧ now < s_expires_at row ∧
                 launcher_available (s_launcher_id row) d = true).
  { intros id row. unfold P. rewrite !andb_true_iff, bool_decide_eq_true, Z.ltb_lt. tauto. }
  split_and!.
  - intros s d' f' (row & d1 & f1 & Hq & H)%db_bind_ok. apply wrapf_ok, query_ok in Hq as (-> & -> & _). fold P in H.
    destruct (find_row P (sessions d)) as [[id row]|] eqn:E; [|done].
    destruct (session_projection id row d) as [s'|] eqn:Ep; [|done]. injection H as <- <- _. split; [done|].
    apply find_row_Some in E as [Hi Hp]. apply HP in Hp as (? & ? & ?). pose proof (projection_id _ _ _ _ Ep) as <-.
    by exists row.
  - intros Hf s (row & Hi & Hh & Hn & Hl & Hp).
    assert (E : find_row P (sessions d) = Some (ss_ID s, row)).
    { apply find_row_unique; [done|by apply HP|]. intros j b Hj (Hb & _)%HP. apply (Hu _ _ _ _ Hj Hi). congruence. }
    unfold mbind, db_bind, wrapf. rewrite query_calm by done. fold P. by rewrite E, Hp.
  - intros Hf e d' f'. unfold mbind, db_bind, wrapf. rewrite query_calm by done. fold P.
    destruct (find_row P (sessions d)) as [[id row]|] eqn:E; [|by intros [= <- <- _]].
    apply find_row_Some in E as [_ Hp]. apply HP in Hp as (_ & _ & Hl).
    by destruct (available_projection id row d Hl) as [s ->].
Qed.

(** ** Scopes *)

Lemma predicates_agree scope row d l p :
  launcher_join (s_launcher_id row) d = Some (l, p) → sessionDeletePredicate scope row d = sessionScopePredicate scope row l.
Proof.
  unfold launcher_join. destruct (launchers d !! s_launcher_id row) as [l'|] eqn:El; [|done].
  destruct (principals d !! l_principal_id l') as [p'|]; [|done]. intros [= <- <-].
  unfold sessionDeletePredicate, sessionScopePredicate. by rewrite El.
Qed.

(** Deletion stays inside the caller's scope and discloses nothing outside
    it: a success removed exactly the addressed row, which the scope selects,
    with its snapshot and no other Session's; a failure changed no table; and
    a Session outside the scope gets, when no statement fails, the very answer
    an absent one gets. *)
Theorem delete_scope_isolated (id : string) (scope : sessionControlScope) (d : db) (f : list bool) :
  match delete_session_db id scope d f with
  | (Ok s, d', _) =>
      ∃ row, sessions d !! id = Some row ∧ scoped_session scope d (id, row) = Some s ∧
        sessions d' = delete id (sessions d) ∧
        (∀ pos, snapshot_entries d' !! (id, pos) = None) ∧ snapshot_meta d' !! id = None ∧
        (∀ id' pos, id' ≠ id → snapshot_entries d' !! (id', pos) = snapshot_entries d !! (id', pos)) ∧
        (∀ id', id' ≠ id → snapshot_meta d' !! id' = snapshot_meta d !! id')
  | (Err e, d', _) => d' = d ∧
      (calm f → find_scoped id scope d = None → e = mkError "session not found" [ErrSessionNotFound])
  end.
Proof.
  destruct (delete_session_db id scope d f) as [[[s|e] d'] f'] eqn:E; revert E; unfold delete_session_db.
  - intros (s1 & d1 & f1 & Hfind & H)%db_bind_ok. apply db_bind_ok in Hfind as (o & d2 & f2 & Hq & Hs).
    apply wrapf_ok, query_ok in Hq as (-> & -> & _). destruct (find_scoped id scope d) as [s2|] eqn:Es; [|done].
    injection Hs as <- <- <-. apply db_bind_ok in H as (aff & d3 & f3 & Hdel & H).
    apply wrapf_ok, stmt_ok in Hdel as [Hdel _]. unfold find_scoped in Es.
    destruct (sessions d !! id) as [row|] eqn:Er; [|done].
    destruct (sessionDeletePredicate scope row d); [|by injection Hdel as <- <-].
    injection Hdel as <- <-. injection H as <- <- _. exists row. simpl. split_and!; try done.
    + intros pos. apply map_lookup_filter_None. right. intros x _ Hne. by apply Hne.
    + apply lookup_delete_eq.
    + intros id' pos Hne. apply option_eq. intros x. rewrite map_lookup_filter_Some. simpl. naive_solver.
    + intros id' Hne. by apply lookup_delete_ne.
  - unfold mbind, db_bind, findSessionInScope, wrapf.
    destruct (query (find_scoped id scope) d f) as [[[o|e1] d1] f1] eqn:Eq; unfold mbind, db_bind; rewrite Eq.
    2: { apply query_err in Eq as Hq. destruct Hq as [_ ->]. intros [= <- <- _]. split; [done|]. intros Hf.
         rewrite query_calm in Eq by done. done. }
    apply query_ok in Eq as (-> & -> & _). destruct (find_scoped id scope d) as [s1|] eqn:Es;
      [|intros [= <- <- _]; by split]. simpl.
    destruct (delete_session_row id scope d f1) as [[[[]|e2] d2] f2] eqn:Ed; [done| |].
    + intros [= <- <- _]. split; [|done]. apply stmt_ok in Ed as [Ed _].
      destruct (sessions d !! id) as [row|]; [destruct (sessionDeletePredicate scope row d)|]; by injection Ed.
    + apply stmt_err in Ed as [-> _]. by intros [= <- <- _].
Qed.

(** The Launcher a create targets, per authority class. *)
Definition create_target_ok (auth : option operatorAuthority) (sel : createSelector) (d : db) (lid : string) : Prop :=
  match auth with
  | None => False
  | Some a =>
      match auth_class a, auth_principal a, auth_launcher a with
      | operatorAuthorityAdmin, _, _ =>
          lid = sel_launcherID sel ∨
          ∃ pid p l, principals d !! pid = Some p ∧ p_username p = sel_principal sel ∧
            launchers d !! lid = Some l ∧ l_principal_id l = pid ∧ l_name l = defaultLauncherName
      | operatorAuthorityLauncher, _, Some la => lid = la_LauncherID la
      | operatorAuthorityPrincipal, Some pa, _ =>
          ∃ l, launchers d !! lid = Some l ∧ l_principal_id l = pa_PrincipalID pa
      | _, _, _ => False
      end
  end.

(** A create never reaches another owner's Launcher: a Launcher credential
    gets its own, a Principal credential one of its Principal's, the admin the
    one it named or the default Launcher of the Principal it named, and every
    other combination of authority and selectors is refused. *)
Theorem create_target_within_authority (auth : option operatorAuthority) (sel : createSelector) (d d' : db)
    (f f' : list bool) (lid : string) (Hr : resolveCreateLauncher auth sel d f = (Ok lid, d', f')) :
  create_target_ok auth sel d lid ∧ d' = d ∧ (sel_launcherID sel = "" ∨ sel_principal sel = "").
Proof.
  revert Hr. unfold resolveCreateLauncher. case_bool_decide as Ec; [done|].
  assert (Hsel : sel_launcherID sel = "" ∨ sel_principal sel = "").
  { destruct (decide (sel_launcherID sel = "")); [by left|]. destruct (decide (sel_principal sel = "")); [by right|tauto]. }
  destruct auth as [a|]; [|done]. unfold create_target_ok. destruct (auth_class a).
  - done.
  - case_bool_decide as E1; [intros [= <- <- _]; auto|]. case_bool_decide as E2; [|done].
    intros (pid & d1 & f1 & Hp & H)%db_bind_ok.
    destruct (findPrincipalIDByUsername (sel_principal sel) d f) as [[[pid'|e] d2] f2] eqn:Ep;
      [|by destruct (errors_is e ErrPrincipalNotFound)].
    injection Hp as -> -> ->. apply principal_id_ok in Ep as (-> & p & Hp & Hn).
    apply default_launcher_ok in H as (-> & l & Hl & Hlp & Hln). split_and!; [|done|done]. right. by exists pid, p, l.
  - destruct (auth_principal a) as [pa|]; [|done]. case_bool_decide; [done|]. case_bool_decide as E2.
    + intros (owner & d1 & f1 & Hq & Hown)%db_bind_ok. apply wrapf_ok, query_ok in Hq as (-> & -> & _).
      destruct (launchers d !! sel_launcherID sel) as [l|] eqn:El; [|done]. simpl in Hown.
      case_bool_decide as Eo; [done|]. injection Hown as <- <- _. split_and!; [by exists l|done|done].
    + intros (-> & l & Hl & Hlp & _)%default_launcher_ok. split_and!; [by exists l|done|done].
  - destruct (auth_launcher a) as [la|]; [|by destruct (auth_principal a)].
    destruct (auth_principal a); (case_bool_decide; [done|]); (case_bool_decide; [done|]); by intros [= <- <- _].
Qed.

Lemma narrow_ok pid sel d f sc d' f' :
  narrowSessionScopeToLauncher pid sel d f = (Ok sc, d', f') →
  d' = d ∧ ∃ lid row, sc = mkScope false 0 lid ∧ launchers d !! lid = Some row ∧ (pid ≠ 0 → l_principal_id row = pid).
Proof.
  unfold narrowSessionScopeToLauncher. intros (l & d1 & f1 & Hl & H)%db_bind_ok. injection H as <- <- _.
  unfold resolveLauncherSelector in Hl. case_bool_decide.
  - apply launcher_for_principal_ok in Hl as (-> & row & Hr & Hp). split; [done|]. by exists (lp_ID l), row.
  - destruct (isLauncherIDSelector sel); [|done]. unfold findLauncherByID in Hl. case_bool_decide; [done|].
    apply launcher_row_ok in Hl as (-> & row & Hr & _). split; [done|]. by exists (lp_ID l), row.
Qed.

Lemma control_target_reads auth name d f t d' f' :
  resolvePrincipalControlTarget auth name d f = (Ok t, d', f') → d' = d.
Proof.
  unfold resolvePrincipalControlTarget. case_bool_decide; [done|]. destruct auth as [a|]; [|done].
  destruct (auth_class a), (auth_principal a) as [pa|]; try done.
  1-2: intros (id & d1 & f1 & Hq & Hm)%db_bind_ok; apply principal_id_ok in Hq as [-> _]; by injection Hm.
  case_bool_decide; [done|]. intros (row & d1 & f1 & Hq & Hm)%db_bind_ok. apply wrapf_ok, query_ok in Hq as (_ & -> & _).
  destruct row as [n|]; [|done]. case_bool_decide; [done|]. by injection Hm.
Qed.

(** A list filter only narrows: whatever selectors a request carries, every
    Session the resolved scope selects is one the caller's own scope selects;
    reading never changes a table. *)
Theorem list_scope_narrows (auth : option operatorAuthority) (principalSel launcherSel : string) (d d' : db)
    (f f' : list bool) (scope : sessionControlScope)
    (Hr : resolveSessionListScope auth principalSel launcherSel d f = (Ok scope, d', f')) :
  d' = d ∧ ∃ base, resolveSessionControlScope auth = Ok base ∧
    ∀ row l p, launcher_join (s_launcher_id row) d = Some (l, p) →
      sessionScopePredicate scope row l = true → sessionScopePredicate base row l = true.
Proof.
  apply db_bind_ok in Hr as (base & d1 & f1 & Hb & H). unfold db_result in Hb. injection Hb as Hb <- <-.
  assert (Hnarrow : ∀ pid sc d0 f0 f2, narrowSessionScopeToLauncher pid launcherSel d f0 = (Ok sc, d0, f2) →
     (pid ≠ 0 → pid = sc_principalID base) → (pid = 0 → sc_admin base = true) → sc_launcherID base = "" →
     d0 = d ∧ ∀ row l p, launcher_join (s_launcher_id row) d = Some (l, p) →
       sessionScopePredicate sc row l = true → sessionScopePredicate base row l = true).
  { intros pid sc d0 f0 f2 (-> & lid & lrow & -> & Hl & Hp)%narrow_ok Hpid Hadm Hbl. split; [done|].
    intros row l p Hj. unfold sessionScopePredicate. simpl.
    rewrite (bool_decide_eq_false_2 (sc_launcherID base ≠ "")) by (intros Hn; by apply Hn).
    destruct (bool_decide (lid ≠ "")); [|done].
    intros Hid%bool_decide_eq_true_1. destruct (sc_admin base) eqn:Ea; [done|].
    destruct (decide (pid = 0)) as [E0|Hne]; [by specialize (Hadm E0)|].
    rewrite <-(Hpid Hne), (bool_decide_eq_true_2 (pid ≠ 0)) by done. apply bool_decide_eq_true_2.
    unfold launcher_join in Hj. rewrite Hid, Hl in Hj. destruct (principals d !! l_principal_id lrow); [|done].
    injection Hj as <- _. auto. }
  case_bool_decide as E1.
  { case_bool_decide; [done|]. injection H as <- <- _. split; [done|]. by exists base. }
  assert (Hbl : sc_launcherID base = "") by done. clear E1.
  case_bool_decide as E2.
  { case_bool_decide; [done|]. case_bool_decide; [injection H as <- <- _; split; [done|]; by exists base|].
    apply Hnarrow in H as [-> H]; [|done..]. split; [done|]. by exists base. }
  destruct (sc_admin base) eqn:Ea; [|done].
  assert (Hall : ∀ row l, sessionScopePredicate base row l = true) by (intros; unfold sessionScopePredicate; by rewrite Ea).
  apply db_bind_ok in H as (pid & d2 & f2 & Hp & H).
  assert (Hd : d2 = d).
  { destruct (bool_decide (principalSel ≠ "")); [|by injection Hp]. apply db_bind_ok in Hp as (t & d3 & f3 & Ht & Hm).
    apply control_target_reads in Ht as ->. by injection Hm. }
  subst d2. destruct (bool_decide (launcherSel = "")).
  - injection H as _ <- _. split; [done|]. exists base. split; [done|]. intros; apply Hall.
  - apply narrow_ok in H as (-> & _). split; [done|]. exists base. split; [done|]. intros; apply Hall.
Qed.

(** ** Witnesses *)

Module Example.

(** One Principal with its default Launcher and a live Session. *)
Definition alice : principal_row := mkPrincipal "alice" 1000 1000 "/home/alice" true.
Definition default_launcher : launcher_row := mkLauncher 1 "default" true "inherit" 0.
Definition stored : session_row := mkSession (sha256_hex "dht_x") "/srv/app" 0 100 "dhl_1".
Definition base_db : db :=
  mkDB {[ 1 := alice ]} ∅ {[ "dhl_1" := default_launcher ]} ∅ ∅ ∅ true ∅ ∅ ∅.
Definition live_db : db := set_sessions {[ "dhs_1" := stored ]} base_db.

(** A host where every path is a directory of its own. *)
Definition host0 : host := mkHost (λ _, inl is_dir) inl (Some "/") None 0.
Definition env0 : create_env := mkCreateEnv (Some "a1") (Some "b2") 0 (60 * second).
Definition policy0 : sessionCreatePolicy :=
  mkCreatePolicy "/srv/app" [mkEntry "/srv" AllowedRootAccessReadWrite] ["/srv"] [] "dhl_1" "default" "alice" None.

Definition launcher_auth : operatorAuthority :=
  mkAuthority operatorAuthorityLauncher None (Some (mkLauncherAuth "dhl_1" "dhcr_1" 1 "alice" "default")).
Definition principal_auth : operatorAuthority :=
  mkAuthority operatorAuthorityPrincipal (Some (mkPrincipalAuth 1 "alice" "dhcr_2")) None.

Lemma live_unique : session_hashes_unique live_db.
Proof. intros i j r r'. simpl. intros [<- _]%lookup_singleton_Some [<- _]%lookup_singleton_Some _. done. Qed.

End Example.

#[local] Existing Instances MacSpec.Example.driver MacSpec.Example.laws.

Lemma no_rows sid d : snapshot_entries d = ∅ → rows_are sid [] d.
Proof. intros E pos pa. by rewrite E, lookup_empty, elem_of_nil. Qed.

Lemma create_session_outcome_witness :
  ∃ created l s', createSessionWithPolicyLocked Example.host0 Example.env0 true Example.policy0
      (newSessionMACCoordinator ["/opt/shared"] Example.base_db [] : mac (list string)) = (Ok created, l, s') ∧
    sessions (m_db s') !! "dhs_a1" = Some (issued_row Example.env0 Example.policy0 created).
Proof.
  set (s0 := newSessionMACCoordinator ["/opt/shared"] Example.base_db [] : mac (list string)).
  destruct (createSessionWithPolicyLocked Example.host0 Example.env0 true Example.policy0 s0) as [[r l] s'] eqn:E.
  assert (Hr : is_ok r = true) by (change r with ((r, l, s').1.1); rewrite <- E; vm_compute; reflexivity).
  destruct r as [created|]; [|discriminate Hr]. exists created, l, s'. split; [reflexivity|].
  assert (Hid : ss_ID (cs_Session created) = "dhs_a1").
  { assert (Hid : match (Ok created, l, s').1.1 with Ok c => ss_ID (cs_Session c) | Err _ => "" end = "dhs_a1")
      by (rewrite <- E; vm_compute; reflexivity). exact Hid. }
  assert (Hs0 : reachable s0) by (exists ["/opt/shared"], Example.base_db, []; split; [done|apply mac_reach_refl]).
  assert (Hv : valid_entries (cp_EffectiveAllowedRoots Example.policy0)) by (apply validate_ok; vm_compute; reflexivity).
  assert (Hf : ∀ hex, ce_id Example.env0 = Some hex → sessionBindings s0 !! (sessionIDPrefix +:+ hex) = None ∧
                 rows_are (sessionIDPrefix +:+ hex) [] (m_db s0)).
  { intros hex [= <-]. split; [reflexivity|]. apply no_rows. reflexivity. }
  destruct (create_session_outcome Example.host0 Example.env0 Example.policy0 s0 s' (Ok created) l Hs0 Hv Hf E)
    as (_ & _ & _ & _ & H & _). rewrite H, Hid. reflexivity.
Defined.

(** The Launcher was disabled after authentication. *)
Lemma commit_refuses_stale_witness :
  launcher_available "dhl_1" (set_launchers {[ "dhl_1" := mkLauncher 1 "default" false "inherit" 0 ]} Example.base_db) = false ∧
  (insertSession "dhs_2" Example.stored None (mkSnapshot "/srv/app" [])
     (set_launchers {[ "dhl_1" := mkLauncher 1 "default" false "inherit" 0 ]} Example.base_db) []).1.2 =
    set_launchers {[ "dhl_1" := mkLauncher 1 "default" false "inherit" 0 ]} Example.base_db.
Proof.
  set (d := set_launchers {[ "dhl_1" := mkLauncher 1 "default" false "inherit" 0 ]} Example.base_db).
  split; [vm_compute; reflexivity|].
  assert (Hstale : launcher_available (s_launcher_id Example.stored) d && credential_clause None d = false)
    by (vm_compute; reflexivity).
  destruct (commit_refuses_stale "dhs_2" Example.stored None (mkSnapshot "/srv/app" []) d [] (Forall_nil_2 _) Hstale)
    as (e & f' & E & _). rewrite E. reflexivity.
Defined.

Lemma token_lookup_exact_witness :
  (findSessionByToken "dht_x" 5 Example.live_db []).1 =
    (Ok (mkSess "dhs_1" "/srv/app" 0 100 "dhl_1" "default" "alice"), Example.live_db) ∧
  is_ok (findSessionByToken "dht_x" 100 Example.live_db []).1.1 = false.
Proof.
  destruct (token_lookup_exact "dht_x" 5 Example.live_db [] Example.live_unique) as (_ & H & _).
  split; [|vm_compute; reflexivity].
  apply H; [constructor|]. exists Example.stored. split_and!; vm_compute; reflexivity.
Defined.

Lemma create_target_within_authority_witness :
  create_target_ok (Some Example.principal_auth) (mkSelector "" "") Example.base_db "dhl_1" ∧
  is_ok (resolveCreateLauncher (Some Example.launcher_auth) (mkSelector "dhl_2" "") Example.base_db []).1.1 = false.
Proof.
  split; [|vm_compute; reflexivity].
  assert (E : resolveCreateLauncher (Some Example.principal_auth) (mkSelector "" "") Example.base_db [] =
    (Ok "dhl_1", Example.base_db, [])) by (vm_compute; reflexivity).
  apply (create_target_within_authority (Some Example.principal_auth) (mkSelector "" "") _ _ _ _ _ E).
Defined.

Lemma list_scope_narrows_witness :
  sessionScopePredicate (mkScope false 1 "") Example.stored Example.default_launcher = true.
Proof.
  assert (E : resolveSessionListScope (Some Example.principal_auth) "" "default" Example.base_db [] =
    (Ok (mkScope false 0 "dhl_1"), Example.base_db, [])) by (vm_compute; reflexivity).
  destruct (list_scope_narrows (Some Example.principal_auth) "" "default" _ _ _ _ _ E) as (_ & base & Hb & H).
  injection Hb as <-. apply (H Example.stored Example.default_launcher Example.alice); vm_compute; reflexivity.
Defined.
