(* ===== verification/PrincipalStore.v ===== *)
(** * PrincipalStore: src/principal.go, src/ownership.go, src/allowed_root_cascade.go

    Creating and deleting Principals, their enabled transition, their stored
    allowed roots, the default Launcher, and the reconciliation that deletes
    the stored descendants a narrowed ceiling no longer contains.  The random
    draws, the clock and the row id SQLite assigns are arguments. *)
From S2P Require Import Prelude Filepath AllowedRoots GoStrings WorkspacePolicy Database Credential Launcher Session.
Local Open Scope Z_scope.

(** ** Data *)

Record Principal := mkPrincipalFacts {
  pr_ID : Z; pr_Username : string; pr_UID : Z; pr_GID : Z; pr_Home : string; pr_Enabled : bool }.

Record PrincipalWithRoots := mkPrincipalRoots { pwr_Principal : Principal; pwr_AllowedRoots : list AllowedRootEntry }.

Record launcherAdmission := mkAdmission { la_Launcher : string; la_Closed : bool }.

Record principalEnabledChangeResult := mkPrincipalChange {
  pec_Changed : bool; pec_RevokedSessionIDs : list string; pec_LauncherAdmissions : list launcherAdmission }.

Record storedRootCascadeResult := mkCascade {
  PrincipalRoots : list (Z * string); LauncherRoots : list (string * string) }.

(** ** Validation *)

Definition validatePrincipalUsername (username : string) : result unit :=
  if bool_decide (username = "") then errorf "username is required" [ErrInvalidPrincipalUsername]
  else if existsb IsControl (runes username)
  then errorf "username contains a control character" [ErrInvalidPrincipalUsername]
  else Ok ().

(** The answer of the OS account resolver: uid, gid and home, as text. *)
Definition os_users : Type := string → option (string * string * string).

Definition resolveOSUser (OSUserLookup : os_users) (username : string) : result (Z * Z * string) :=
  match OSUserLookup username with
  | None => errorf "OS user not found" [ErrOSUserNotFound]
  | Some (uStr, gStr, homeDir) =>
      match ParseInt10 uStr with
      | None => errorf "invalid UID" [ErrOSUserNotFound]
      | Some uid =>
          match ParseInt10 gStr with
          | None => errorf "invalid GID" [ErrOSUserNotFound]
          | Some gid => Ok (uid, gid, homeDir)
          end
      end
  end.

Definition validatePrincipalAllowedRootForAdd (h : host) (path : string) : result string :=
  if bool_decide (path = "") then errorf "path is required" [ErrInvalidAllowedRoot]
  else if negb (IsAbs path) then errorf "path must be absolute" [ErrInvalidAllowedRoot]
  else if bool_decide (1 < String.length path)%nat && String.prefix "~" path
  then errorf "tilde expansion not supported; use absolute path" [ErrInvalidAllowedRoot]
  else match canonicalizeWorkspacePathForAdd h path with
       | Ok cleaned => Ok cleaned
       | Err e => errorf (err_text e) [ErrInvalidAllowedRoot]
       end.

(** src/allowed_root.go: the stored identity a mutation targets. *)
Definition resolveAllowedRootIdentity (h : host) (path : string) : result string :=
  match Abs h path with
  | None => errorf "cannot resolve path" [ErrInvalidAllowedRoot]
  | Some abs =>
      match evalSymlinksFn h abs with
      | inl canonical => Ok canonical
      | inr not_exist => Ok (Clean abs)
      | inr _ => errorf "cannot resolve allowed-root identity" [ErrInvalidAllowedRoot]
      end
  end.

(** ** Lookups *)

Definition findPrincipalByID (id : Z) : DB Principal :=
  row ← wrapf "cannot find principal" [] (query (λ d, principals d !! id));
  match row with
  | None => db_fail "principal not found" [ErrPrincipalNotFound]
  | Some p => mret (mkPrincipalFacts id (p_username p) (p_uid p) (p_gid p) (p_home p) (p_enabled p))
  end.

Definition findPrincipalByUsername (username : string) : DB PrincipalWithRoots :=
  if bool_decide (username = "") then db_fail "username is required" [ErrPrincipalNotFound]
  else
    id ← findPrincipalIDByUsername username;
    p ← findPrincipalByID id;
    roots ← readPrincipalAllowedRoots id;
    mret (mkPrincipalRoots p roots).

Definition username_le (a b : Principal) : Prop := str_le (pr_Username a) (pr_Username b).
#[export] Instance username_le_dec : RelDecision username_le.
Proof. intros a b. unfold username_le. apply _. Defined.

(** The rows of GET /principals, in username order. *)
Definition listPrincipalSummaries : DB (list Principal) :=
  wrapf "cannot list principals" []
    (query (λ d, merge_sort username_le
       ((λ kv : Z * principal_row,
           mkPrincipalFacts kv.1 (p_username kv.2) (p_uid kv.2) (p_gid kv.2) (p_home kv.2) (p_enabled kv.2))
        <$> map_to_list (principals d)))).

(** ** The default Launcher (src/ownership.go) *)

Definition generateLauncherID (draw : option string) : result string :=
  match draw with
  | None => errorf "cannot generate random bytes" []
  | Some hex => Ok (launcherIDPrefix +:+ hex)
  end.

(** The CHECK constraints of the launchers table. *)
Definition name_char (c : ascii) : bool := lower_or_digit c || bool_decide (c = "-"%char).

Fixpoint ends_with_hyphen (s : string) : bool :=
  match s with
  | "" => false
  | String c "" => bool_decide (c = "-"%char)
  | String _ s => ends_with_hyphen s
  end.

Definition launcher_name_check (name : string) : bool :=
  bool_decide (1 <= String.length name <= 63)%nat && str_forall name_char name &&
  negb (String.prefix "-" name) && negb (ends_with_hyphen name).

Definition launcher_check (r : launcher_row) : bool :=
  bool_decide (l_scope_mode r = LauncherScopeInherit ∨ l_scope_mode r = LauncherScopeRestricted) &&
  launcher_name_check (l_name r).

Definition launcher_name_taken (r : launcher_row) (t : gmap string launcher_row) : bool :=
  existsb (λ kv, bool_decide (l_principal_id kv.2 = l_principal_id r ∧ l_name kv.2 = l_name r)) (map_to_list t).

(** [INSERT INTO launchers] and its [OR IGNORE] form: a foreign key violation
    is an error in both. *)
Definition insert_launcher (or_ignore : bool) (id : string) (r : launcher_row) : DB unit :=
  stmt (λ d,
    if negb (launcher_check r) then (if or_ignore then Ok ((), d) else Err constraint_error)
    else if bool_decide (is_Some (launchers d !! id)) || launcher_name_taken r (launchers d)
    then (if or_ignore then Ok ((), d) else Err unique_error)
    else if bool_decide (principals d !! l_principal_id r = None) then Err constraint_error
    else Ok ((), set_launchers (<[id := r]> (launchers d)) d)).

Definition default_launcher_row (principalID : Z) (d : db) : option string :=
  fst <$> find_row (λ _ l, bool_decide (l_principal_id l = principalID ∧ l_name l = defaultLauncherName)) (launchers d).

Definition ensureDefaultLauncher (draw : option string) (now : Z) (principalID : Z) : DB string :=
  row ← query (default_launcher_row principalID);
  match row with
  | Some id => mret id
  | None =>
      _ ← db_result (match validateLauncherName defaultLauncherName with
                     | Ok _ => Ok ()
                     | Err e => Err (wrap_error "default Launcher name rejected by the launcher-name grammar" [] e)
                     end);
      newID ← db_result (generateLauncherID draw);
      _ ← insert_launcher true newID (mkLauncher principalID "default" true "inherit" now);
      row ← query (default_launcher_row principalID);
      match row with
      | Some id => mret id
      | None => db_fail "sql: no rows in result set" [ErrNoRows]
      end
  end.

(** [migrateDefaultLaunchers]: each missing default is backfilled on its own. *)
Fixpoint backfill_defaults (draws : list (option string)) (now : Z) (pids : list Z) (created : nat) : DB nat :=
  match pids with
  | [] => mret created
  | pid :: pids => λ d f,
      match findDefaultLauncher pid d f with
      | (Ok _, d, f) => backfill_defaults draws now pids created d f
      | (Err e, d, f) =>
          if negb (errors_is e ErrLauncherNotFound)
          then (Err (wrap_error "cannot resolve default Launcher for principal" [] e), d, f)
          else match wrapf "cannot provision default Launcher for principal" []
                       (ensureDefaultLauncher (default None (head draws)) now pid) d f with
               | (Ok _, d, f) => backfill_defaults (tail draws) now pids (S created) d f
               | (Err e, d, f) => (Err e, d, f)
               end
      end
  end.

Definition migrateDefaultLaunchers (draws : list (option string)) (now : Z) : DB nat :=
  pids ← wrapf "cannot enumerate principals" [] (query (λ d, (map_to_list (principals d)).*1));
  backfill_defaults draws now pids 0.

(** ** Creation *)

(** [INSERT INTO principals]; [newID] is the row id SQLite assigns. *)
Definition insert_principal (newID : Z) (r : principal_row) : DB Z :=
  stmt (λ d,
    if bool_decide (is_Some (principals d !! newID)) ||
       existsb (λ kv, bool_decide (p_username kv.2 = p_username r)) (map_to_list (principals d))
    then Err unique_error
    else Ok (newID, set_principals (<[newID := r]> (principals d)) d)).

(** [INSERT [OR IGNORE] INTO principal_allowed_roots]: whether a row was
    inserted. *)
Definition insert_principal_root (or_ignore : bool) (pid : Z) (path access : string) : DB bool :=
  stmt (λ d,
    if negb (isValid access) then (if or_ignore then Ok (false, d) else Err constraint_error)
    else if bool_decide (is_Some (principal_allowed_roots d !! (pid, path)))
    then (if or_ignore then Ok (false, d) else Err unique_error)
    else if bool_decide (principals d !! pid = None) then Err constraint_error
    else Ok (true, set_principal_roots (<[(pid, path) := access]> (principal_allowed_roots d)) d)).

Record create_draws := mkDraws {
  dr_launcher : option string; dr_token : option string; dr_credential : option string }.

Definition createPrincipalWithOptionalCredential (h : host) (OSUserLookup : os_users) (draws : create_draws)
    (now newID : Z) (username : string) (globalAllowedRoots : list AllowedRootEntry) (issueCredential : bool)
    : DB (PrincipalWithRoots * option (PrincipalCredential * string)) :=
  _ ← db_result (validatePrincipalUsername username);
  os ← db_result (resolveOSUser OSUserLookup username);
  let '(uid, gid, home) := os in
  if bool_decide (home = "") || negb (IsAbs home) then db_fail "OS user has invalid home" []
  else
    canonicalHome ← db_result match canonicalizeWorkspacePathForAdd h home with
                              | Ok c => Ok c
                              | Err _ => errorf "OS user home directory is not a valid workspace root" []
                              end;
    if negb (isWithinAnyAllowedRoot canonicalHome (allowedRootPaths globalAllowedRoots))
    then db_fail "OS user home directory is not under any global allowed root" [ErrPrincipalRootOutsideGlobal]
    else
      transaction "cannot begin transaction" "cannot commit principal creation"
        (principalID ← (λ d f, match insert_principal newID (mkPrincipal username uid gid home true) d f with
                               | (Err e, d, f) =>
                                   ((if isSQLiteUniqueError e then errorf "principal already exists" [ErrPrincipalExists]
                                     else Err (wrap_error "cannot create principal" [] e)), d, f)
                               | r => r
                               end) : DB Z;
         _ ← wrapf "cannot add default allowed root" []
               (insert_principal_root false principalID canonicalHome AllowedRootAccessReadWrite);
         _ ← wrapf "cannot provision default Launcher" [] (ensureDefaultLauncher (dr_launcher draws) now principalID);
         cred ← (if issueCredential
                 then c ← insertPrincipalCredentialInTx (dr_token draws) (dr_credential draws) now principalID username
                            "default"; mret (Some c)
                 else mret None : DB (option (PrincipalCredential * string)));
         mret (mkPrincipalRoots (mkPrincipalFacts principalID username uid gid home true) [allowedRootEntry canonicalHome],
               cred)).

(** ** The enabled transition *)

(** A transaction whose body says whether to commit; a rollback returns its
    value too. *)
Definition transaction_if {A} (begin_err commit_err : string) (body : DB (A * bool)) : DB A := λ d f,
  match stmt (λ d, Ok ((), d)) d f with
  | (Err e, _, f) => (Err (wrap_error begin_err [] e), d, f)
  | (Ok _, _, f) =>
      match body d f with
      | (Err e, _, f) => (Err e, d, f)
      | (Ok (a, false), _, f) => (Ok a, d, f)
      | (Ok (a, true), d', f) =>
          match stmt (λ d, Ok ((), d)) d' f with
          | (Err e, _, f) => (Err (wrap_error commit_err [] e), d, f)
          | (Ok _, d', f) => (Ok a, d', f)
          end
      end
  end.

Definition launcherAdmissionsInTx (principalID : Z) (principalEnabled : bool) : DB (list launcherAdmission) :=
  wrapf "cannot query principal launchers" []
    (query (λ d, omap (λ kv, if bool_decide (l_principal_id kv.2 = principalID)
                             then Some (mkAdmission kv.1 (negb principalEnabled || negb (l_enabled kv.2))) else None)
                   (map_to_list (launchers d)))).

(** The Launcher of a Session row belongs to the Principal. *)
Definition session_of_principal (principalID : Z) (d : db) (id : string) : bool :=
  match sessions d !! id with
  | Some row => match launchers d !! s_launcher_id row with
                | Some l => bool_decide (l_principal_id l = principalID)
                | None => false
                end
  | None => false
  end.

Definition principal_session_ids (principalID : Z) : DB (list string) :=
  wrapf "cannot query principal sessions" []
    (query (λ d, filter (λ id, Is_true (session_of_principal principalID d id)) (map_to_list (sessions d)).*1)).

Definition delete_principal_sessions (principalID : Z) : DB unit :=
  wrapf "cannot delete principal sessions" []
    (stmt (λ d, Ok ((), drop_sessions (session_of_principal principalID d) d))).

Definition set_enabled (b : bool) (r : principal_row) : principal_row :=
  mkPrincipal (p_username r) (p_uid r) (p_gid r) (p_home r) b.

Definition persistPrincipalEnabledChange (username : string) (enabled : bool) : DB principalEnabledChangeResult :=
  if bool_decide (username = "") then db_fail "username is required" [ErrPrincipalNotFound]
  else transaction_if "cannot begin transaction" "cannot commit enabled change"
    (principalID ← findPrincipalIDByUsernameInTx username;
     current ← wrapf "cannot read principal enabled state" []
       (stmt (λ d, match principals d !! principalID with
                   | Some p => Ok (p_enabled p, d)
                   | None => Err (mkError "sql: no rows in result set" [ErrNoRows])
                   end));
     if bool_decide (current = enabled) then
       admissions ← launcherAdmissionsInTx principalID enabled;
       mret (mkPrincipalChange false [] admissions, false)
     else
       _ ← wrapf "cannot update principal enabled" []
             (exec (λ d, Some (set_principals (alter (set_enabled enabled) principalID (principals d)) d)));
       sessionIDs ← (if enabled then mret []
                     else ids ← principal_session_ids principalID;
                          _ ← delete_principal_sessions principalID; mret ids : DB (list string));
       admissions ← launcherAdmissionsInTx principalID enabled;
       mret (mkPrincipalChange true sessionIDs admissions, true)).

(** ** Deletion *)

(** The rows that go with a deleted Launcher, and with a deleted Principal. *)
Definition credential_goes (gone : string → bool) (r : credential_row) : bool :=
  match c_launcher_id r with Some l => gone l | None => false end.

Definition cascade_launchers (gone : string → bool) (d : db) : db :=
  set_credentials (filter (λ kv : string * credential_row, ¬ Is_true (credential_goes gone kv.2)) (credentials d))
    (set_launcher_roots (filter (λ kv : string * string * string, ¬ Is_true (gone kv.1.1)) (launcher_allowed_roots d))
      (set_launchers (filter (λ kv : string * launcher_row, ¬ Is_true (gone kv.1)) (launchers d)) d)).

(** No Session row references a Launcher that goes. *)
Definition sessions_allow (gone : string → bool) (d : db) : bool :=
  negb (existsb (λ kv, gone (s_launcher_id kv.2)) (map_to_list (sessions d))).

Definition launcher_of_principal (principalID : Z) (d : db) (id : string) : bool :=
  match launchers d !! id with Some l => bool_decide (l_principal_id l = principalID) | None => false end.

Definition delete_principal_row (principalID : Z) : DB unit :=
  stmt (λ d,
    let gone := launcher_of_principal principalID d in
    if negb (sessions_allow gone d) then Err constraint_error
    else
      let d := cascade_launchers gone d in
      Ok ((), set_credentials (filter (λ kv : string * credential_row, c_principal_id kv.2 ≠ Some principalID) (credentials d))
                (set_principal_roots (filter (λ kv : Z * string * string, kv.1.1 ≠ principalID) (principal_allowed_roots d))
                   (set_principals (delete principalID (principals d)) d)))).

Definition deletePrincipal (username : string) : DB (list string) :=
  transaction "cannot begin transaction" "cannot commit deletion"
    (principalID ← findPrincipalIDByUsernameInTx username;
     ids ← principal_session_ids principalID;
     _ ← delete_principal_sessions principalID;
     _ ← wrapf "cannot delete principal" [] (delete_principal_row principalID);
     mret ids).

(** ** Stored roots *)

Definition storedPrincipalAllowedRootAccess (principalID : Z) (canonicalPath : string) : DB string :=
  wrapf "cannot read stored allowed root" []
    (stmt (λ d, match principal_allowed_roots d !! (principalID, canonicalPath) with
                | Some access => Ok (access, d)
                | None => Err (mkError "sql: no rows in result set" [ErrNoRows])
                end)).

Definition addPrincipalAllowedRoot (h : host) (username rootPath access : string) (globalAllowedRoots : list string)
    : DB (bool * AllowedRootEntry) :=
  if bool_decide (username = "") then db_fail "username is required" [ErrPrincipalNotFound]
  else if negb (isValid access) then db_fail "access must be read_write or read_only" [ErrInvalidAllowedRootAccess]
  else
    resolved ← db_result (validatePrincipalAllowedRootForAdd h rootPath);
    if negb (isWithinAnyAllowedRoot resolved globalAllowedRoots)
    then db_fail "path is not under any global allowed root" [ErrPrincipalRootOutsideGlobal]
    else
      principalID ← findPrincipalIDByUsername username;
      affected ← wrapf "cannot add allowed root" [] (insert_principal_root true principalID resolved access);
      if affected : bool then mret (true, mkEntry resolved access)
      else
        stored ← storedPrincipalAllowedRootAccess principalID resolved;
        mret (false, mkEntry resolved stored).

(** Reading the stored access: a missing row is the typed refusal. *)
Definition stored_or_not_found (read : DB string) : DB string := λ d f,
  match read d f with
  | (Err e, d, f) => ((if errors_is e ErrNoRows then errorf "allowed root not found" [ErrAllowedRootNotFound] else Err e), d, f)
  | r => r
  end.

(** [UPDATE ... SET access]: whether a row was changed. *)
Definition update_principal_root (pid : Z) (path access : string) : DB bool :=
  stmt (λ d, if bool_decide (is_Some (principal_allowed_roots d !! (pid, path))) then
               if isValid access
               then Ok (true, set_principal_roots (<[(pid, path) := access]> (principal_allowed_roots d)) d)
               else Err constraint_error
             else Ok (false, d)).

Definition setPrincipalAllowedRootAccess (h : host) (username rootPath access : string) : DB (bool * AllowedRootEntry) :=
  if bool_decide (username = "") then db_fail "username is required" [ErrPrincipalNotFound]
  else if negb (isValid access) then db_fail "access must be read_write or read_only" [ErrInvalidAllowedRootAccess]
  else if bool_decide (rootPath = "") then db_fail "path is required" [ErrInvalidAllowedRoot]
  else if negb (IsAbs rootPath) then db_fail "path must be absolute" [ErrInvalidAllowedRoot]
  else
    resolved ← db_result (resolveAllowedRootIdentity h rootPath);
    principalID ← findPrincipalIDByUsername username;
    stored ← stored_or_not_found (storedPrincipalAllowedRootAccess principalID resolved);
    if bool_decide (stored = access) then mret (false, mkEntry resolved stored)
    else
      affected ← wrapf "cannot change allowed root access" [] (update_principal_root principalID resolved access);
      if affected : bool then mret (true, mkEntry resolved access)
      else db_fail "allowed root not found" [ErrAllowedRootNotFound].

(** ** The reconciliation (src/allowed_root_cascade.go) *)

Definition delete_principal_root (pid : Z) (path : string) : DB bool :=
  stmt (λ d, Ok (bool_decide (is_Some (principal_allowed_roots d !! (pid, path))),
                 set_principal_roots (delete (pid, path) (principal_allowed_roots d)) d)).

Definition delete_launcher_root (lid path : string) : DB bool :=
  stmt (λ d, Ok (bool_decide (is_Some (launcher_allowed_roots d !! (lid, path))),
                 set_launcher_roots (delete (lid, path) (launcher_allowed_roots d)) d)).

(** The rows of one stored set: those the ceiling no longer contains are
    deleted, the others survive in order. *)
Fixpoint prune_roots (del : string → DB bool) (text : string) (ceilingPaths : list string)
    (stored : list AllowedRootEntry) : DB (list AllowedRootEntry * list string) :=
  match stored with
  | [] => mret ([], [])
  | root :: stored =>
      if isWithinAnyAllowedRoot (Path root) ceilingPaths then
        r ← prune_roots del text ceilingPaths stored;
        mret (root :: r.1, r.2)
      else
        _ ← wrapf text [] (del (Path root));
        r ← prune_roots del text ceilingPaths stored;
        mret (r.1, Path root :: r.2)
  end.

(** [SELECT id FROM launchers WHERE principal_id = ? AND scope_mode = ? ORDER BY id]. *)
Definition restricted_launchers (principalID : Z) (d : db) : list string :=
  merge_sort str_le (omap (λ kv, if bool_decide (l_principal_id kv.2 = principalID ∧ l_scope_mode kv.2 = LauncherScopeRestricted)
                                 then Some kv.1 else None) (map_to_list (launchers d))).

Fixpoint prune_launchers (ceilingPaths : list string) (lids : list string) : DB (list (string * string)) :=
  match lids with
  | [] => mret []
  | lid :: lids =>
      roots ← readLauncherAllowedRoots lid;
      r ← prune_roots (delete_launcher_root lid) "cannot prune launcher allowed root" ceilingPaths roots;
      rest ← prune_launchers ceilingPaths lids;
      mret ((pair lid <$> r.2) ++ rest)
  end.

Definition prunePrincipalStoredRootsToCeiling (globalEntries : list AllowedRootEntry) (principalID : Z)
    (globalScopePrune : bool) : DB storedRootCascadeResult :=
  stored ← readPrincipalAllowedRoots principalID;
  r ← (if globalScopePrune
       then prune_roots (delete_principal_root principalID) "cannot prune principal allowed root"
              (allowedRootPaths globalEntries) stored
       else mret (stored, []) : DB (list AllowedRootEntry * list string));
  let ceilingPaths := allowedRootPaths (effectivePrincipalAllowedRoots globalEntries r.1 principalID) in
  lids ← wrapf "cannot enumerate restricted launchers for allowed-root reconciliation" []
           (query (restricted_launchers principalID));
  gone ← prune_launchers ceilingPaths lids;
  mret (mkCascade (pair principalID <$> r.2) gone).

Fixpoint prune_principals (globalEntries : list AllowedRootEntry) (globalScopePrune : bool) (pids : list Z)
    : DB storedRootCascadeResult :=
  match pids with
  | [] => mret (mkCascade [] [])
  | pid :: pids =>
      r ← prunePrincipalStoredRootsToCeiling globalEntries pid globalScopePrune;
      rest ← prune_principals globalEntries globalScopePrune pids;
      mret (mkCascade (PrincipalRoots r ++ PrincipalRoots rest) (LauncherRoots r ++ LauncherRoots rest))
  end.

Definition pruneStoredAllowedRootsToCeilings (globalEntries : list AllowedRootEntry) (principalID : Z)
    : DB storedRootCascadeResult :=
  if bool_decide (principalID = 0) then
    pids ← wrapf "cannot enumerate principals for allowed-root reconciliation" []
             (query (λ d, merge_sort Z.le (map_to_list (principals d)).*1));
    prune_principals globalEntries true pids
  else prune_principals globalEntries false [principalID].

Definition reconcileStoredAllowedRootsToGlobalCeiling (h : host) (globalEntries : list AllowedRootEntry)
    : DB storedRootCascadeResult :=
  resolved ← db_result (resolveAllowedRootEntries h globalEntries);
  transaction "cannot begin allowed-root reconciliation" "cannot commit allowed-root reconciliation"
    (pruneStoredAllowedRootsToCeilings resolved 0).

Definition removePrincipalAllowedRootCascaded (h : host) (username rootPath : string)
    (globalEntries : list AllowedRootEntry) : DB (bool * string * storedRootCascadeResult) :=
  if bool_decide (username = "") then db_fail "username is required" [ErrPrincipalNotFound]
  else if bool_decide (rootPath = "") then db_fail "path is required" [ErrInvalidAllowedRoot]
  else if negb (IsAbs rootPath) then db_fail "path must be absolute" [ErrInvalidAllowedRoot]
  else
    resolved ← db_result (resolveAllowedRootIdentity h rootPath);
    principalID ← findPrincipalIDByUsername username;
    transaction "cannot begin allowed-root removal" "cannot commit allowed-root removal"
      (affected ← wrapf "cannot remove allowed root" [] (delete_principal_root principalID resolved);
       pruned ← (if affected : bool then pruneStoredAllowedRootsToCeilings globalEntries principalID
                 else mret (mkCascade [] []) : DB storedRootCascadeResult);
       mret (affected, resolved, pruned)).
