(* ===== verification/LauncherStore.v ===== *)
(** * LauncherStore: src/launcher.go (mutations) and src/lifecycle_owner.go

    Launcher lists, creation, scope replacement and the stored-root mutations,
    with the wrappers that resolve the ceiling under the lifecycle lock. *)
From S2P Require Import Prelude Filepath AllowedRoots GoStrings WorkspacePolicy Database Credential Launcher Session PrincipalStore.
Local Open Scope Z_scope.

(** ** Lists *)

Definition by_owner_and_name (a b : string * launcher_row * principal_row) : Prop :=
  str_ltb (p_username a.2) (p_username b.2) = true ∨
  (p_username a.2 = p_username b.2 ∧ str_le (l_name a.1.2) (l_name b.1.2)).
#[export] Instance by_owner_and_name_dec : RelDecision by_owner_and_name.
Proof. intros a b. unfold by_owner_and_name. apply _. Defined.

Definition scope_rows (principalID : option Z) (d : db) : list (string * launcher_row * principal_row) :=
  merge_sort by_owner_and_name
    (omap (λ kv, match principals d !! l_principal_id kv.2 with
                 | Some p => if match principalID with None => true | Some id => bool_decide (l_principal_id kv.2 = id) end
                             then Some (kv, p) else None
                 | None => None
                 end) (map_to_list (launchers d))).

Definition launcher_projection_of (row : string * launcher_row * principal_row) (roots : list AllowedRootEntry)
    : LauncherWithPrincipal :=
  let '(id, l, p) := row in
  mkLauncherP id (l_principal_id l) (p_username p) (l_name l) (l_enabled l) (l_scope_mode l) roots (l_created_at l).

Fixpoint load_roots_of (rows : list (string * launcher_row * principal_row)) : DB (list LauncherWithPrincipal) :=
  match rows with
  | [] => mret []
  | row :: rows =>
      roots ← readLauncherAllowedRoots row.1.1;
      l ← load_roots_of rows;
      mret (launcher_projection_of row roots :: l)
  end.

Definition listLaunchersForScope (principalID : option Z) : DB (list LauncherWithPrincipal) :=
  rows ← wrapf "cannot list launchers" [] (query (scope_rows principalID));
  load_roots_of rows.

Definition queryLaunchersForScope (principalID : option Z) (launcherSelector : string) : DB (list LauncherWithPrincipal) :=
  if bool_decide (launcherSelector = "") then listLaunchersForScope principalID
  else l ← resolveLauncherSelector principalID launcherSelector; mret [l].

(** ** The ceiling *)

Section app.
Context (h : host) (globals : list AllowedRootEntry).

(** [globals] is the configured list of global roots. *)
Definition resolveEffectivePrincipalRootEntries (principalID : Z) : DB (list AllowedRootEntry) :=
  globalRoots ← db_result (resolveAllowedRootEntries h globals);
  stored ← readPrincipalAllowedRoots principalID;
  mret (effectivePrincipalAllowedRoots globalRoots stored principalID).

Definition resolveEffectivePrincipalRoots (principalID : Z) : DB (list string) :=
  entries ← resolveEffectivePrincipalRootEntries principalID;
  mret (allowedRootPaths entries).

Record principalEffectiveRootsSnapshot := mkEffectiveSnapshot {
  es_Principal : string; es_AllowedRootPaths : list string; es_AllowedRoots : list AllowedRootEntry }.

Definition resolvePrincipalEffectiveRootsSnapshot (auth : option operatorAuthority) (username : string)
    : DB principalEffectiveRootsSnapshot :=
  target ← resolvePrincipalControlTarget auth username;
  roots ← resolveEffectivePrincipalRootEntries (pt_ID target);
  mret (mkEffectiveSnapshot (pt_Name target) (allowedRootPaths roots) roots).

(** ** Validation of a requested root set *)

(** [seen] maps the canonical paths so far to their access. *)
Fixpoint validate_entries (effectivePrincipalRoots : list string) (seen : gmap string string)
    (entries : list AllowedRootEntry) : result (list AllowedRootEntry) :=
  match entries with
  | [] => Ok []
  | e :: entries =>
      if negb (isValid (Access e)) then errorf "access must be read_write or read_only" [ErrInvalidAllowedRootAccess]
      else
        resolved ← validatePrincipalAllowedRootForAdd h (Path e);
        if negb (isWithinAnyAllowedRoot resolved effectivePrincipalRoots)
        then errorf "path is not under the effective principal roots" [ErrLauncherRootOutsidePrincipal]
        else match seen !! resolved with
             | Some prev =>
                 if bool_decide (prev ≠ Access e) then errorf "conflicting allowed-root entries" [ErrInvalidAllowedRoots]
                 else validate_entries effectivePrincipalRoots seen entries
             | None =>
                 l ← validate_entries effectivePrincipalRoots (<[resolved := Access e]> seen) entries;
                 mret (mkEntry resolved (Access e) :: l)
             end
  end.

Definition validateLauncherAllowedRootEntries (entries : list AllowedRootEntry) (effectivePrincipalRoots : list string)
    : result (list AllowedRootEntry) :=
  if bool_decide (entries = []) then errorf "restricted scope requires at least one allowed root" [ErrInvalidAllowedRoots]
  else
    canonical ← validate_entries effectivePrincipalRoots ∅ entries;
    Ok (sortAllowedRootEntriesCanonical canonical).

Definition validateLauncherAllowedRoots (roots : list string) (effectivePrincipalRoots : list string) :=
  validateLauncherAllowedRootEntries (allowedRootEntriesForPaths roots) effectivePrincipalRoots.

(** ** Creation *)

(** [INSERT [OR IGNORE] INTO launcher_allowed_roots]: whether a row was
    inserted. *)
Definition insert_launcher_root (or_ignore : bool) (lid path access : string) : DB bool :=
  stmt (λ d,
    if negb (isValid access) then (if or_ignore then Ok (false, d) else Err constraint_error)
    else if bool_decide (is_Some (launcher_allowed_roots d !! (lid, path)))
    then (if or_ignore then Ok (false, d) else Err unique_error)
    else if bool_decide (launchers d !! lid = None) then Err constraint_error
    else Ok (true, set_launcher_roots (<[(lid, path) := access]> (launcher_allowed_roots d)) d)).

Definition insert_roots (lid : string) (roots : list AllowedRootEntry) : DB unit :=
  db_iter (λ root, _ ← wrapf "cannot add launcher allowed root" [] (insert_launcher_root false lid (Path root) (Access root));
                   mret ()) roots.

Definition createLauncher (draws : create_draws) (now : Z) (principalID : Z) (name scope : string)
    (allowedRoots : list string) (effectivePrincipalRoots : list string) (issueCredential : bool)
    : DB (LauncherWithPrincipal * option (launcherCredential * string)) :=
  name ← db_result (validateLauncherName name);
  if bool_decide (scope ≠ LauncherScopeInherit ∧ scope ≠ LauncherScopeRestricted)
  then db_fail "unknown scope" [ErrInvalidScope]
  else
    owner ← findPrincipalByID principalID;
    canonicalRoots ← db_result
      (if bool_decide (scope = LauncherScopeRestricted) then
         if bool_decide (allowedRoots = [])
         then errorf "restricted scope requires at least one allowed root" [ErrInvalidAllowedRoots]
         else validateLauncherAllowedRoots allowedRoots effectivePrincipalRoots
       else if bool_decide (allowedRoots ≠ []) then errorf "inherit scope cannot carry allowed roots" [ErrInvalidAllowedRoots]
       else Ok []);
    id ← db_result (generateLauncherID (dr_launcher draws));
    transaction "cannot begin transaction" "cannot commit launcher creation"
      (_ ← (λ d f, match insert_launcher false id (mkLauncher principalID name true scope now) d f with
                   | (Err e, d, f) =>
                       ((if isSQLiteUniqueError e then errorf "launcher already exists for principal" [ErrLauncherExists]
                         else Err (wrap_error "cannot create launcher" [] e)), d, f)
                   | r => r
                   end) : DB unit;
       _ ← (if bool_decide (scope = LauncherScopeRestricted) then insert_roots id canonicalRoots else mret () : DB unit);
       cred ← (if issueCredential
               then c ← issueLauncherCredentialInTx (dr_token draws) (dr_credential draws) now id; mret (Some c)
               else mret None : DB (option (launcherCredential * string)));
       mret (mkLauncherP id principalID (pr_Username owner) name true scope canonicalRoots now, cred)).

(** ** Scope replacement *)

Definition set_scope (scope : string) (r : launcher_row) : launcher_row :=
  mkLauncher (l_principal_id r) (l_name r) (l_enabled r) scope (l_created_at r).

(** [UPDATE launchers SET scope_mode = ?]: the CHECK applies to a changed row. *)
Definition update_scope (lid scope : string) : DB unit :=
  stmt (λ d, match launchers d !! lid with
             | Some r =>
                 if launcher_check (set_scope scope r)
                 then Ok ((), set_launchers (<[lid := set_scope scope r]> (launchers d)) d)
                 else Err constraint_error
             | None => Ok ((), d)
             end).

Definition clear_launcher_roots (lid : string) : DB unit :=
  exec (λ d, Some (set_launcher_roots (filter (λ kv : string * string * string, kv.1.1 ≠ lid) (launcher_allowed_roots d)) d)).

Definition with_scope (scope : string) (roots : list AllowedRootEntry) (l : LauncherWithPrincipal) : LauncherWithPrincipal :=
  mkLauncherP (lp_ID l) (lp_PrincipalID l) (lp_PrincipalName l) (lp_Name l) (lp_Enabled l) scope roots (lp_CreatedAt l).

Definition replaceLauncherScope (current : LauncherWithPrincipal) (scope : string)
    (allowedRootEntries : list AllowedRootEntry) (effectivePrincipalRoots : list string) : DB LauncherWithPrincipal :=
  if bool_decide (scope ≠ LauncherScopeInherit ∧ scope ≠ LauncherScopeRestricted)
  then db_fail "unknown scope" [ErrInvalidScope]
  else
    canonicalRoots ← db_result
      (if bool_decide (scope = LauncherScopeRestricted) then
         if bool_decide (allowedRootEntries = [])
         then errorf "restricted scope requires at least one allowed root" [ErrInvalidAllowedRoots]
         else validateLauncherAllowedRootEntries allowedRootEntries effectivePrincipalRoots
       else if bool_decide (allowedRootEntries ≠ [])
       then errorf "inherit scope cannot carry allowed roots" [ErrInvalidAllowedRoots]
       else Ok []);
    transaction "cannot begin transaction" "cannot commit launcher scope replacement"
      (_ ← wrapf "cannot update launcher scope" [] (update_scope (lp_ID current) scope);
       _ ← wrapf "cannot clear launcher allowed roots" [] (clear_launcher_roots (lp_ID current));
       _ ← insert_roots (lp_ID current) canonicalRoots;
       mret (with_scope scope canonicalRoots current)).

(** ** Stored roots *)

Definition stored_launcher_access (lid path : string) : DB string :=
  stmt (λ d, match launcher_allowed_roots d !! (lid, path) with
             | Some access => Ok (access, d)
             | None => Err (mkError "sql: no rows in result set" [ErrNoRows])
             end).

(** The committed projection, whether a row was added, and the entry. *)
Definition addLauncherAllowedRoot (current : LauncherWithPrincipal) (rootPath access : string)
    (effectivePrincipalRoots : list string) : DB (LauncherWithPrincipal * bool * AllowedRootEntry) :=
  if negb (isValid access) then db_fail "access must be read_write or read_only" [ErrInvalidAllowedRootAccess]
  else
    resolved ← db_result (validatePrincipalAllowedRootForAdd h rootPath);
    if negb (isWithinAnyAllowedRoot resolved effectivePrincipalRoots)
    then db_fail "path is not under the effective principal roots" [ErrLauncherRootOutsidePrincipal]
    else
      affected ← transaction "cannot begin transaction" "cannot commit launcher allowed root"
        (affected ← wrapf "cannot add launcher allowed root" [] (insert_launcher_root true (lp_ID current) resolved access);
         _ ← (if affected : bool then wrapf "cannot narrow launcher scope" [] (update_scope (lp_ID current) LauncherScopeRestricted)
              else mret () : DB unit);
         mret affected);
      if affected : bool then
        mret (with_scope LauncherScopeRestricted
                (sortAllowedRootEntriesCanonical (lp_AllowedRoots current ++ [mkEntry resolved access])) current,
              true, mkEntry resolved access)
      else
        stored ← wrapf "cannot read stored launcher allowed root" [] (stored_launcher_access (lp_ID current) resolved);
        mret (current, false, mkEntry resolved stored).

Definition removeLauncherAllowedRoot (lid rootPath : string) : DB (bool * string) :=
  if bool_decide (rootPath = "") then db_fail "path is required" [ErrInvalidAllowedRoot]
  else if negb (IsAbs rootPath) then db_fail "path must be absolute" [ErrInvalidAllowedRoot]
  else
    resolved ← db_result (resolveAllowedRootIdentity h rootPath);
    affected ← wrapf "cannot remove launcher allowed root" [] (delete_launcher_root lid resolved);
    mret (affected, resolved).

Definition update_launcher_root (lid path access : string) : DB bool :=
  stmt (λ d, if bool_decide (is_Some (launcher_allowed_roots d !! (lid, path))) then
               if isValid access
               then Ok (true, set_launcher_roots (<[(lid, path) := access]> (launcher_allowed_roots d)) d)
               else Err constraint_error
             else Ok (false, d)).

Definition setLauncherAllowedRootAccess (lid rootPath access : string) : DB (bool * AllowedRootEntry) :=
  if negb (isValid access) then db_fail "access must be read_write or read_only" [ErrInvalidAllowedRootAccess]
  else if bool_decide (rootPath = "") then db_fail "path is required" [ErrInvalidAllowedRoot]
  else if negb (IsAbs rootPath) then db_fail "path must be absolute" [ErrInvalidAllowedRoot]
  else
    resolved ← db_result (resolveAllowedRootIdentity h rootPath);
    stored ← stored_or_not_found (wrapf "cannot read stored launcher allowed root" [] (stored_launcher_access lid resolved));
    if bool_decide (stored = access) then mret (false, mkEntry resolved stored)
    else
      affected ← wrapf "cannot change launcher allowed root access" [] (update_launcher_root lid resolved access);
      if affected : bool then mret (true, mkEntry resolved access)
      else db_fail "allowed root not found" [ErrAllowedRootNotFound].

(** ** Under the lifecycle lock *)

Fixpoint resolveAllowedRootPaths (roots : list string) : result (list string) :=
  match roots with
  | [] => Ok []
  | r :: roots =>
      match evalSymlinksFn h r with
      | inr _ => errorf "cannot resolve allowed root" [ErrSystem]
      | inl resolved => l ← resolveAllowedRootPaths roots; mret (resolved :: l)
      end
  end.

Definition addPrincipalAllowedRootWithLifecycle (username rootPath access : string) : DB (bool * AllowedRootEntry) :=
  globalRoots ← db_result (resolveAllowedRootPaths (allowedRootPaths globals));
  addPrincipalAllowedRoot h username rootPath access globalRoots.

Definition removePrincipalAllowedRootWithLifecycle (username rootPath : string) : DB (bool * string * storedRootCascadeResult) :=
  globalEntries ← db_result (resolveAllowedRootEntries h globals);
  removePrincipalAllowedRootCascaded h username rootPath globalEntries.

Definition setPrincipalAllowedRootAccessWithLifecycle := setPrincipalAllowedRootAccess h.

Definition createPrincipalWithLifecycle (OSUserLookup : os_users) (draws : create_draws) (now newID : Z)
    (username : string) (issueCredential : bool) :=
  globalRoots ← db_result (resolveAllowedRootEntries h globals);
  createPrincipalWithOptionalCredential h OSUserLookup draws now newID username globalRoots issueCredential.

Definition createLauncherWithLifecycle (draws : create_draws) (now : Z) (principalID : Z) (name scope : string)
    (allowedRoots : list string) (issueCredential : bool) :=
  ceiling ← resolveEffectivePrincipalRoots principalID;
  createLauncher draws now principalID name scope allowedRoots ceiling issueCredential.

Definition replaceLauncherScopeWithLifecycle (lid scope : string) (entries : list AllowedRootEntry) : DB LauncherWithPrincipal :=
  cur ← findLauncherByID lid;
  ceiling ← resolveEffectivePrincipalRoots (lp_PrincipalID cur);
  replaceLauncherScope cur scope entries ceiling.

Definition addLauncherAllowedRootWithLifecycle (lid rootPath access : string)
    : DB (LauncherWithPrincipal * bool * AllowedRootEntry) :=
  cur ← findLauncherByID lid;
  ceiling ← resolveEffectivePrincipalRoots (lp_PrincipalID cur);
  addLauncherAllowedRoot cur rootPath access ceiling.

Definition removeLauncherAllowedRootWithLifecycle (lid rootPath : string) : DB (bool * string) :=
  _ ← findLauncherByID lid;
  removeLauncherAllowedRoot lid rootPath.

Definition setLauncherAllowedRootAccessWithLifecycle (lid rootPath access : string) : DB (bool * AllowedRootEntry) :=
  _ ← findLauncherByID lid;
  setLauncherAllowedRootAccess lid rootPath access.

End app.
