(* ===== verification/DbHoare.v ===== *)
(** * DbHoare: a small program logic for database computations

    [triple E P m Q]: from tables that satisfy [P], a success of [m] leaves
    tables that satisfy [Q] of its value and a failure leaves tables that
    satisfy [E], whatever statements the oracle makes fail. *)
From S2P Require Import Prelude Database Credential PrincipalStore.

Definition triple {A} (E P : db → Prop) (m : DB A) (Q : A → db → Prop) : Prop :=
  ∀ d f, P d → match m d f with (Ok a, d', _) => Q a d' | (Err _, d', _) => E d' end.

(** A computation that keeps a property of the tables, successful or not. *)
Definition preserves {A} (P : db → Prop) (m : DB A) : Prop := triple P P m (λ _, P).

Section rules.
Context {A B : Type} (E P : db → Prop).
Implicit Types (m : DB A) (Q : A → db → Prop) (R : B → db → Prop).

Lemma triple_ret a Q : (∀ d, P d → Q a d) → triple E P (mret a) Q.
Proof. intros H d f. apply H. Qed.

Lemma triple_fail text wraps Q : (∀ d, P d → E d) → triple E P (db_fail text wraps : DB A) Q.
Proof. intros H d f. apply H. Qed.

Lemma triple_result (r : result A) Q :
  (∀ d, P d → match r with Ok a => Q a d | Err _ => E d end) → triple E P (db_result r) Q.
Proof. intros H d f Hp. specialize (H d Hp). unfold db_result. by destruct r. Qed.

Lemma triple_bind m (k : A → DB B) Q R :
  triple E P m Q → (∀ a, triple E (Q a) (k a) R) → triple E P (m ≫= k) R.
Proof.
  intros Hm Hk d f Hp. specialize (Hm d f Hp). unfold mbind, db_bind.
  destruct (m d f) as [[[a|e] d'] f']; [by apply Hk|done].
Qed.

Lemma triple_wrapf text wraps m Q : triple E P m Q → triple E P (wrapf text wraps m) Q.
Proof. intros H d f Hp. specialize (H d f Hp). unfold wrapf. by destruct (m d f) as [[[]]]. Qed.

Lemma triple_stmt (body : db → result (A * db)) Q :
  (∀ d, P d → E d) → (∀ d a d', P d → body d = Ok (a, d') → Q a d') → triple E P (stmt body) Q.
Proof.
  intros He H d f Hp. destruct (stmt body d f) as [[[a|e] d'] f'] eqn:Es.
  - apply stmt_ok in Es as [Es _]. eauto.
  - apply stmt_err in Es as [-> _]. auto.
Qed.

Lemma triple_query (q : db → A) Q : (∀ d, P d → E d) → (∀ d, P d → Q (q d) d) → triple E P (query q) Q.
Proof. intros He H. apply triple_stmt; [done|]. intros d a d' Hp [= <- <-]. auto. Qed.

(** A failing transaction restores the tables. *)
Lemma triple_transaction b c m Q :
  triple (λ _, True) P m Q → triple P P (transaction b c m) Q.
Proof.
  intros H d f Hp. pose proof (transaction_atomic b c m d f) as Ht.
  destruct (transaction b c m d f) as [[[a|e] d'] f']; [|by subst].
  destruct Ht as (f0 & f1 & Em). specialize (H d f0 Hp). by rewrite Em in H.
Qed.

Lemma triple_weaken (E' P' : db → Prop) m Q Q' :
  triple E' P' m Q' → (∀ d, P d → P' d) → (∀ d, E' d → E d) → (∀ a d, Q' a d → Q a d) → triple E P m Q.
Proof.
  intros H H1 H2 H3 d f Hp. specialize (H d f (H1 _ Hp)). destruct (m d f) as [[[a|e] d'] f']; auto.
Qed.

Lemma triple_case (b : bool) m m' Q : triple E P m Q → triple E P m' Q → triple E P (if b then m else m') Q.
Proof. by destruct b. Qed.

(** A triple can use what holds of the tables before. *)
Lemma triple_pure (F : Prop) m Q : (∀ d, P d → F) → (F → triple E P m Q) → triple E P m Q.
Proof. intros H Hm d f Hp. apply Hm; eauto. Qed.

Lemma reads_triple m Q :
  reads m → (∀ d, P d → E d) → (∀ d f a d' f', P d → m d f = (Ok a, d', f') → Q a d) → triple E P m Q.
Proof.
  intros Hr He H d f Hp. pose proof (Hr d f) as Hd. destruct (m d f) as [[[a|e] d'] f'] eqn:Em; simpl in Hd; subst; eauto.
Qed.

End rules.

Lemma exec_triple (E P : db → Prop) u (Q : unit → db → Prop) :
  (∀ d, P d → E d) → (∀ d d', P d → u d = Some d' → Q () d') → triple E P (exec u) Q.
Proof.
  intros He H. apply triple_stmt; [done|]. intros d [] d' Hp. destruct (u d) as [d0|] eqn:Eu; [|done].
  intros [= <-]. eauto.
Qed.

(** Mapping the error of a statement. *)
Lemma triple_map_error {A} (E P : db → Prop) (m : DB A) (g : error → result A) Q :
  triple E P m Q → (∀ e, ∃ e', g e = Err e') →
  triple E P (λ d f, match m d f with (Err e, d, f) => (g e, d, f) | r => r end) Q.
Proof.
  intros H Hg d f Hp. specialize (H d f Hp). destruct (m d f) as [[[a|e] d'] f']; [done|].
  by destruct (Hg e) as [e' ->].
Qed.

Lemma preserves_reads {A} (P : db → Prop) (m : DB A) : reads m → preserves P m.
Proof. intros Hr. apply reads_triple; auto. Qed.

Lemma preserves_bind {A B} (P : db → Prop) (m : DB A) (k : A → DB B) :
  preserves P m → (∀ a, preserves P (k a)) → preserves P (m ≫= k).
Proof. intros. by eapply triple_bind. Qed.

(** A pure step: the continuation may use its success. *)
Lemma triple_result_bind {A B} (E P : db → Prop) (r : result A) (k : A → DB B) Q :
  (∀ d, P d → E d) → (∀ a, r = Ok a → triple E P (k a) Q) → triple E P (db_result r ≫= k) Q.
Proof.
  intros He H d f Hp. unfold mbind, db_bind, db_result. destruct r as [a|e]; [by apply H|]. by apply He.
Qed.

Lemma preserves_result_bind {A B} (P : db → Prop) (r : result A) (k : A → DB B) :
  (∀ a, r = Ok a → preserves P (k a)) → preserves P (db_result r ≫= k).
Proof. intros H. by apply triple_result_bind. Qed.

(** A read: the continuation may use what was read, as long as the tables are
    the ones read. *)
Lemma triple_read_bind {A B} (E P : db → Prop) (m : DB A) (k : A → DB B) (F : A → db → Prop) Q :
  reads m → (∀ d, P d → E d) → (∀ d f a d' f', P d → m d f = (Ok a, d', f') → F a d) →
  (∀ a, triple E (λ d, P d ∧ F a d) (k a) Q) → triple E P (m ≫= k) Q.
Proof.
  intros Hr He HF Hk. apply triple_bind with (Q := λ a d, P d ∧ F a d); [|done].
  apply reads_triple; [done|done|]. eauto.
Qed.

Lemma preserves_transaction {A} (P : db → Prop) b c (m : DB A) : preserves P m → preserves P (transaction b c m).
Proof. intros H. apply triple_transaction. eapply triple_weaken; [exact H|done..]. Qed.

Lemma preserves_stmt {A} (P : db → Prop) (body : db → result (A * db)) :
  (∀ d a d', P d → body d = Ok (a, d') → P d') → preserves P (stmt body).
Proof. intros. by apply triple_stmt. Qed.

Lemma preserves_result {A} (P : db → Prop) (r : result A) : preserves P (db_result r).
Proof. apply triple_result. by destruct r. Qed.

Lemma preserves_ret {A} (P : db → Prop) (a : A) : preserves P (mret a).
Proof. by apply triple_ret. Qed.

Lemma preserves_fail {A} (P : db → Prop) t w : preserves P (db_fail (A := A) t w).
Proof. by apply triple_fail. Qed.

Lemma preserves_query {A} (P : db → Prop) (q : db → A) : preserves P (query q).
Proof. by apply triple_query. Qed.

Lemma preserves_wrapf {A} (P : db → Prop) t w (m : DB A) : preserves P m → preserves P (wrapf t w m).
Proof. apply triple_wrapf. Qed.

Lemma preserves_iter {A} (P : db → Prop) (body : A → DB unit) l :
  (∀ a, a ∈ l → preserves P (body a)) → preserves P (db_iter body l).
Proof.
  induction l as [|a l IH]; intros H; simpl; [apply preserves_ret|].
  apply preserves_bind; [apply H; by left|]. intros _. apply IH. intros b Hb. apply H. by right.
Qed.

Lemma transaction_if_triple {A} (P : db → Prop) b c (m : DB (A * bool)) (Q : A → db → Prop) :
  triple (λ _, True) P m (λ r d, if r.2 then Q r.1 d else True) →
  triple P P (transaction_if b c m) (λ a d, P d ∨ Q a d).
Proof.
  intros H d f Hp. unfold transaction_if.
  destruct (stmt (λ d, Ok ((), d)) d f) as [[[[]|e] d0] f0]; [|done].
  specialize (H d f0 Hp). destruct (m d f0) as [[[[a []]|e] d1] f1]; simpl in H; [|by left|done].
  destruct (stmt (λ d, Ok ((), d)) d1 f1) as [[[[]|e] d2] f2] eqn:Es; [|done].
  apply stmt_ok in Es as [[= <-] _]. by right.
Qed.

#[export] Hint Resolve preserves_ret preserves_fail preserves_query preserves_wrapf preserves_result
  preserves_bind preserves_transaction : dh.
