(* ===== verification/OwnershipTheory.v ===== *)
(** * OwnershipTheory: the state invariant of the ownership tables

    Referential integrity, every stored Launcher root inside a stored root of
    its Principal and every stored Principal root inside the global ceiling, no
    root under an inherit scope, no Session under a disabled owner — and that
    every ownership operation keeps it, whatever statement fails. *)
From S2P Require Import Prelude Filepath AllowedRoots AllowedRootsTheory GoStrings WorkspacePolicy Database Credential Launcher Session PrincipalStore LauncherStore DbHoare.
Local Open Scope Z_scope.

(** ** Stored root sets *)

Section roots.
Context {K : Type} `{Countable K}.
Implicit Types t : gmap (K * string) string.

Lemma elem_of_roots_of o t p a : mkEntry p a ∈ roots_of o (map_to_list t) ↔ t !! (o, p) = Some a.
Proof.
  unfold roots_of. rewrite sort_perm, list_elem_of_omap. split.
  - intros ([[o' p'] a'] & Hin & He). simpl in He. case_bool_decide; [|done]. simplify_eq. by apply elem_of_map_to_list.
  - intros Ht. exists ((o, p), a). split; [by apply elem_of_map_to_list|]. simpl. by rewrite bool_decide_eq_true_2.
Qed.

Lemma roots_of_paths o t (l : list (K * string * string)) :
  NoDup l.*1 → NoDup (Path <$> omap (λ kv, if bool_decide (kv.1.1 = o) then Some (mkEntry kv.1.2 kv.2) else None) l).
Proof.
  induction l as [|[[k p] a] l IH]; simpl; [constructor|]. intros [Hn Hl]%NoDup_cons.
  case_bool_decide; [|by apply IH]. subst. simpl. apply NoDup_cons. split; [|by apply IH].
  intros ([p' a'] & -> & Hin)%list_elem_of_fmap. apply list_elem_of_omap in Hin as ([[k' q] b] & Hin & He).
  simpl in He. case_bool_decide; [|done]. simplify_eq. apply Hn. apply list_elem_of_fmap. by exists ((o, p'), a').
Qed.

Lemma roots_of_valid o t :
  (∀ p a, t !! (o, p) = Some a → canonical p = true ∧ isValid a = true) → valid_entries (roots_of o (map_to_list t)).
Proof.
  intros Ht. split.
  - intros [p a] He%elem_of_roots_of. by destruct (Ht _ _ He).
  - intros [p a] He%elem_of_roots_of. by destruct (Ht _ _ He).
  - unfold roots_of. rewrite sort_perm. apply (roots_of_paths o t), NoDup_fst_map_to_list.
Qed.
End roots.

Lemma within_paths p l : isWithinAnyAllowedRoot p (allowedRootPaths l) = true ↔ ∃ e, e ∈ l ∧ pathWithin (Path e) p = true.
Proof.
  unfold isWithinAnyAllowedRoot, allowedRootPaths. rewrite existsb_exists. split.
  - intros (q & Hq & Hw). apply list_elem_of_In, list_elem_of_fmap in Hq as (e & -> & He). exists e. split; [done|].
    apply orb_true_iff in Hw as [->%bool_decide_eq_true_1|?]; [apply pathWithin_refl|done].
  - intros (e & He & Hw). exists (Path e). split; [|by rewrite Hw, orb_true_r].
    apply list_elem_of_In, list_elem_of_fmap. eauto.
Qed.

(** The ceiling of a Principal contains what both the global ceiling and a
    stored root contain. *)
Lemma ceiling_within G stored pid p :
  valid_entries G → valid_entries stored → canonical p = true →
  isWithinAnyAllowedRoot p (allowedRootPaths (effectivePrincipalAllowedRoots G stored pid)) = true ↔
  isWithinAnyAllowedRoot p (allowedRootPaths G) = true ∧ isWithinAnyAllowedRoot p (allowedRootPaths stored) = true.
Proof.
  intros HG Hs Hp. unfold effectivePrincipalAllowedRoots. rewrite !within_paths.
  rewrite <-!lookup_entry_is_Some by auto using compose_valid.
  pose proof (compose_authorizes G stored HG Hs p Hp) as Hc. unfold meet_lookup, lookupAllowedRootAccess in Hc.
  rewrite fmap_is_Some in Hc. rewrite Hc.
  destruct (lookup_entry G p), (lookup_entry stored p); simpl;
    (split; [intros [? ?]; by eauto|by intros [[] []]; eauto]).
Qed.

(** ** The invariant *)

Definition stored_within (d : db) (pid : Z) (p : string) : Prop :=
  ∃ q a, principal_allowed_roots d !! (pid, q) = Some a ∧ pathWithin q p = true.

Definition in_ceiling (G : list AllowedRootEntry) (p : string) : Prop :=
  isWithinAnyAllowedRoot p (allowedRootPaths G) = true.

Record policy_inv (G : list AllowedRootEntry) (d : db) : Prop := {
  pi_pos : ∀ pid r, principals d !! pid = Some r → 0 < pid;
  pi_proots : ∀ pid p a, principal_allowed_roots d !! (pid, p) = Some a →
    is_Some (principals d !! pid) ∧ canonical p = true ∧ isValid a = true ∧ in_ceiling G p;
  pi_launchers : ∀ lid l, launchers d !! lid = Some l →
    is_Some (principals d !! l_principal_id l) ∧ launcher_check l = true;
  pi_lroots : ∀ lid p a, launcher_allowed_roots d !! (lid, p) = Some a →
    canonical p = true ∧ isValid a = true ∧
    ∃ l, launchers d !! lid = Some l ∧ l_scope_mode l = LauncherScopeRestricted ∧ stored_within d (l_principal_id l) p;
  pi_sessions : ∀ sid row, sessions d !! sid = Some row → launcher_available (s_launcher_id row) d = true }.

(** The invariant reads five tables. *)
Lemma policy_inv_ext G d d' :
  principals d' = principals d → principal_allowed_roots d' = principal_allowed_roots d →
  launchers d' = launchers d → launcher_allowed_roots d' = launcher_allowed_roots d → sessions d' = sessions d →
  policy_inv G d → policy_inv G d'.
Proof.
  intros E1 E2 E3 E4 E5 [H1 H2 H3 H4 H5]. split; unfold stored_within, launcher_available, launcher_join in *.
  - by rewrite E1.
  - by rewrite E1, E2.
  - by rewrite E1, E3.
  - by rewrite E2, E3, E4.
  - by rewrite E1, E3, E5.
Qed.

Lemma empty_inv G : policy_inv G empty_db.
Proof. by split; simpl; intros *; rewrite lookup_empty. Qed.

Section inv.
Context (G : list AllowedRootEntry) (HG : valid_entries G).
Implicit Types d : db.

Lemma stored_valid d pid : policy_inv G d → valid_entries (roots_of pid (map_to_list (principal_allowed_roots d))).
Proof. intros Hi. apply roots_of_valid. intros p a Hp. by apply (pi_proots _ _ Hi) in Hp as (_ & ? & ? & _). Qed.

Lemma stored_within_roots d pid p :
  stored_within d pid p ↔
  isWithinAnyAllowedRoot p (allowedRootPaths (roots_of pid (map_to_list (principal_allowed_roots d)))) = true.
Proof.
  rewrite within_paths. split.
  - intros (q & a & Hq & Hw). exists (mkEntry q a). split; [by apply elem_of_roots_of|done].
  - intros ([q a] & Hq%elem_of_roots_of & Hw). by exists q, a.
Qed.

Lemma in_ceiling_trans d pid p :
  policy_inv G d → canonical p = true → stored_within d pid p → in_ceiling G p.
Proof.
  intros Hi Hp (q & a & Hq & Hw). apply (pi_proots _ _ Hi) in Hq as (_ & Hqc & _ & Hg).
  unfold in_ceiling in *. rewrite within_paths in *. destruct Hg as (e & He & Hwe). exists e. split; [done|].
  eapply (pathWithin_trans _ q); [exact (valid_canonical _ HG _ He)|done..].
Qed.

(** Being inside a stored root of the Principal is being inside its effective
    ceiling. *)
Lemma stored_within_ceiling d pid p :
  policy_inv G d → canonical p = true →
  stored_within d pid p ↔
  isWithinAnyAllowedRoot p (allowedRootPaths (effectivePrincipalAllowedRoots G
    (roots_of pid (map_to_list (principal_allowed_roots d))) pid)) = true.
Proof.
  intros Hi Hp. rewrite ceiling_within by auto using stored_valid. rewrite <-stored_within_roots.
  split; [|by intros [_ ?]]. intros H. split; [by eapply in_ceiling_trans|done].
Qed.

Lemma stored_within_mono d d' pid p :
  principal_allowed_roots d ⊆ principal_allowed_roots d' → stored_within d pid p → stored_within d' pid p.
Proof. intros Hs (q & a & Hq & Hw). exists q, a. split; [by eapply lookup_weaken|done]. Qed.

(** ** Statements that keep it *)

Lemma keep_insert_principal newID r : 0 < newID → preserves (policy_inv G) (insert_principal newID r).
Proof.
  intros Hpos. apply preserves_stmt. intros d a d' [H1 H2 H3 H4 H5].
  destruct (_ || _) eqn:E; [done|]. intros [= <- <-]. apply orb_false_iff in E as [Hn%bool_decide_eq_false_1 _].
  assert (Hm : ∀ pid r', principals d !! pid = Some r' → <[newID:=r]> (principals d) !! pid = Some r').
  { intros pid r' Hp. rewrite lookup_insert_ne; [done|]. intros ->. by apply Hn. }
  split; simpl; unfold stored_within, launcher_available, launcher_join in *; simpl in *.
  - intros pid r' [[<- <-]|[_ Hp]]%lookup_insert_Some; [done|eauto].
  - intros pid p a' Hp. apply H2 in Hp as ([r' Hr] & ?). split; [|done]. eauto.
  - intros lid l Hl. apply H3 in Hl as [[r' Hr] ?]. eauto.
  - done.
  - intros sid row Hs. specialize (H5 _ _ Hs). destruct (launchers d !! s_launcher_id row) as [l|]; [|done].
    destruct (principals d !! l_principal_id l) as [p|] eqn:Ep; [|done]. by rewrite (Hm _ _ Ep).
Qed.

Lemma keep_insert_principal_root ign pid p a :
  canonical p = true → in_ceiling G p → preserves (policy_inv G) (insert_principal_root ign pid p a).
Proof.
  intros Hc Hg. apply preserves_stmt. intros d b d' Hi.
  destruct (isValid a) eqn:Hv; simpl; [|destruct ign; [by intros [= _ <-]|done]].
  case_bool_decide as Ex; [destruct ign; [by intros [= _ <-]|done]|].
  case_bool_decide as Ep; [done|]. intros [= _ <-]. destruct Hi as [H1 H2 H3 H4 H5].
  split; simpl; [done| |done| |done].
  - intros pid' p' a' [[[= <- <-] <-]|[_ Hp]]%lookup_insert_Some; [|by eapply H2].
    split_and!; [|done..]. by destruct (principals d !! pid).
  - intros lid p' a' Hl. destruct (H4 _ _ _ Hl) as (? & ? & l & ? & ? & Hw). split_and!; [done..|].
    exists l. split_and!; [done..|]. eapply stored_within_mono; [|done]. simpl. apply insert_subseteq.
    destruct (principal_allowed_roots d !! (pid, p)) eqn:E; [|done]. by destruct Ex.
Qed.

Lemma keep_update_principal_root pid p a : preserves (policy_inv G) (update_principal_root pid p a).
Proof.
  apply preserves_stmt. intros d b d' Hi. case_bool_decide as Ex; [|by intros [= _ <-]].
  destruct (isValid a) eqn:Hv; [|done]. intros [= _ <-]. destruct Ex as [a0 Ha], Hi as [H1 H2 H3 H4 H5].
  split; simpl; [done| |done| |done].
  - intros pid' p' a' [[[= <- <-] <-]|[_ Hp]]%lookup_insert_Some; [|by eapply H2].
    destruct (H2 _ _ _ Ha) as (? & ? & _ & ?). by split_and!.
  - intros lid p' a' Hl. destruct (H4 _ _ _ Hl) as (? & ? & l & ? & ? & q & b' & Hq & Hw). split_and!; [done..|].
    exists l. split_and!; [done..|]. unfold stored_within; simpl.
    destruct (decide ((pid, p) = (l_principal_id l, q))) as [[= -> ->]|Hne].
    + exists q, a. by rewrite lookup_insert_eq.
    + exists q, b'. by rewrite lookup_insert_ne.
Qed.

Lemma keep_insert_launcher ign id r : preserves (policy_inv G) (insert_launcher ign id r).
Proof.
  apply preserves_stmt. intros d b d' Hi.
  destruct (launcher_check r) eqn:Hv; simpl; [|destruct ign; [by intros [= _ <-]|done]].
  destruct (_ || _) eqn:Ex; [destruct ign; [by intros [= _ <-]|done]|].
  apply orb_false_iff in Ex as [Hn%bool_decide_eq_false_1 _].
  case_bool_decide as Ep; [done|]. intros [= _ <-]. destruct Hi as [H1 H2 H3 H4 H5].
  assert (Hm : ∀ lid l, launchers d !! lid = Some l → <[id:=r]> (launchers d) !! lid = Some l).
  { intros lid l Hl. rewrite lookup_insert_ne; [done|]. intros ->. by apply Hn. }
  split; simpl; [done|done| | |].
  - intros lid l [[<- <-]|[_ Hl]]%lookup_insert_Some; [|by eapply H3].
    split; [|done]. by destruct (principals d !! l_principal_id r).
  - intros lid p a Hl. destruct (H4 _ _ _ Hl) as (? & ? & l & ? & ?). eauto 10.
  - intros sid row Hs. specialize (H5 _ _ Hs). unfold launcher_available, launcher_join in *. simpl.
    destruct (launchers d !! s_launcher_id row) as [l|] eqn:El; [|done]. by rewrite (Hm _ _ El).
Qed.

(** Statements that leave the five tables. *)
Lemma keep_credentials {A} (body : db → result (A * db)) :
  (∀ d a d', body d = Ok (a, d') → ∃ t, d' = set_credentials t d) → preserves (policy_inv G) (stmt body).
Proof. intros H. apply preserves_stmt. intros d a d' Hi Hb. apply H in Hb as [t ->]. by apply (policy_inv_ext G d). Qed.

Lemma keep_insert_credential id r : preserves (policy_inv G) (insert_credential id r).
Proof. apply keep_credentials. intros d a d'. cbv zeta; repeat case_match; intros ?; simplify_eq; by eexists. Qed.

Lemma keep_update_launcher_root lid p a : preserves (policy_inv G) (update_launcher_root lid p a).
Proof.
  apply preserves_stmt. intros d b d' Hi. case_bool_decide as Ex; [|by intros [= _ <-]].
  destruct (isValid a) eqn:Hv; [|done]. intros [= _ <-]. destruct Ex as [a0 Ha], Hi as [H1 H2 H3 H4 H5].
  split; simpl; [done..| |done].
  intros lid' p' a' [[[= <- <-] <-]|[_ Hp]]%lookup_insert_Some; [|by eapply H4].
  destruct (H4 _ _ _ Ha) as (? & _ & ?). by split_and!.
Qed.

Lemma keep_delete_launcher_root lid p : preserves (policy_inv G) (delete_launcher_root lid p).
Proof.
  apply preserves_stmt. intros d b d' [H1 H2 H3 H4 H5] [= _ <-]. split; simpl; [done..| |done].
  intros lid' p' a' [_ Hp]%lookup_delete_Some. by eapply H4.
Qed.

Lemma insert_launcher_root_inv lid p a d l :
  policy_inv G d → canonical p = true → launchers d !! lid = Some l →
  l_scope_mode l = LauncherScopeRestricted → stored_within d (l_principal_id l) p → isValid a = true →
  policy_inv G (set_launcher_roots (<[(lid, p) := a]> (launcher_allowed_roots d)) d).
Proof.
  intros [H1 H2 H3 H4 H5] Hc Hl Hs Hw Hv. split; simpl; [done..| |done].
  intros lid' p' a' [[[= <- <-] <-]|[_ Hp]]%lookup_insert_Some; [|by eapply H4]. split_and!; [done..|]. by exists l.
Qed.

Lemma drop_sessions_inv gone d : policy_inv G d → policy_inv G (drop_sessions gone d).
Proof.
  intros [H1 H2 H3 H4 H5]. split; simpl; [done..|].
  intros sid row [Hs _]%map_lookup_filter_Some. by apply (H5 sid).
Qed.

Lemma keep_drop_sessions {A} (a : db → A) (gone : db → string → bool) :
  preserves (policy_inv G) (stmt (λ d, Ok (a d, drop_sessions (gone d) d))).
Proof. apply preserves_stmt. intros d b d' Hi [= _ <-]. by apply drop_sessions_inv. Qed.

(** ** Reads *)

Lemma reads_principal_roots pid : reads (readPrincipalAllowedRoots pid).
Proof. apply reads_wrapf, reads_query. Qed.
Lemma reads_launcher_roots lid : reads (readLauncherAllowedRoots lid).
Proof. apply reads_wrapf, reads_query. Qed.

Lemma read_principal_roots_ok pid d f r d' f' :
  readPrincipalAllowedRoots pid d f = (Ok r, d', f') → r = roots_of pid (map_to_list (principal_allowed_roots d)) ∧ d' = d.
Proof. unfold readPrincipalAllowedRoots. by intros (-> & -> & _)%wrapf_ok%query_ok. Qed.

Lemma read_launcher_roots_ok lid d f r d' f' :
  readLauncherAllowedRoots lid d f = (Ok r, d', f') → r = roots_of lid (map_to_list (launcher_allowed_roots d)) ∧ d' = d.
Proof. unfold readLauncherAllowedRoots. by intros (-> & -> & _)%wrapf_ok%query_ok. Qed.

Lemma reads_principal_id name : reads (findPrincipalIDByUsername name).
Proof.
  unfold findPrincipalIDByUsername. case_bool_decide; [apply reads_fail|].
  apply reads_bind; [apply reads_wrapf, reads_query|]. intros [[]|]; [apply reads_ret|apply reads_fail].
Qed.

Lemma reads_principal_id_tx name : reads (findPrincipalIDByUsernameInTx name).
Proof.
  unfold findPrincipalIDByUsernameInTx. apply reads_bind; [apply reads_wrapf, reads_query|].
  intros [[]|]; [apply reads_ret|apply reads_fail].
Qed.

(** ** Principal operations *)

(** The path facts an accepted root carries. *)
Definition host_ok (h : host) : Prop := ∀ p q, evalSymlinksFn h p = inl q → canonical q = true.

Lemma workspace_canonical h p q : host_ok h → canonicalizeWorkspacePathForAdd h p = Ok q → canonical q = true.
Proof.
  intros Hh. unfold canonicalizeWorkspacePathForAdd. case_bool_decide; [done|].
  destruct (validateHostPathText p); [|done]. simpl. destruct (Abs h (expandTilde h p)) as [ab|]; [|done].
  destruct (osStatFn h ab) as [[| |]|[]]; try done. destruct (evalSymlinksFn h ab) as [c|] eqn:E; [|done].
  destruct (validateWorkspacePathSafety (EffectiveUID h) c); [|done]. simpl. intros [= <-]. by eapply Hh.
Qed.

Lemma add_root_canonical h p q : host_ok h → validatePrincipalAllowedRootForAdd h p = Ok q → canonical q = true.
Proof.
  intros Hh. unfold validatePrincipalAllowedRootForAdd. case_bool_decide; [done|]. destruct (negb _); [done|].
  destruct (_ && _); [done|]. destruct (canonicalizeWorkspacePathForAdd h p) eqn:E; [|done].
  intros [= ->]. by eapply workspace_canonical.
Qed.

Lemma keep_default_launcher draw now pid : preserves (policy_inv G) (ensureDefaultLauncher draw now pid).
Proof.
  unfold ensureDefaultLauncher. apply preserves_bind; [apply preserves_query|]. intros [id|]; [apply preserves_ret|].
  apply preserves_bind; [apply preserves_result|]. intros _. apply preserves_bind; [apply preserves_result|]. intros newID.
  apply preserves_bind; [apply keep_insert_launcher|]. intros _. apply preserves_bind; [apply preserves_query|].
  intros [id|]; [apply preserves_ret|apply preserves_fail].
Qed.

Lemma keep_principal_credential td idd now pid name cn :
  preserves (policy_inv G) (insertPrincipalCredentialInTx td idd now pid name cn).
Proof.
  unfold insertPrincipalCredentialInTx. case_bool_decide; [apply preserves_fail|].
  apply preserves_bind; [apply preserves_result|]. intros tok. apply preserves_bind; [apply preserves_result|]. intros cid.
  apply preserves_bind; [|intros []; apply preserves_ret].
  apply (triple_map_error (policy_inv G) (policy_inv G)); [apply keep_insert_credential|].
  intros e. destruct (isSQLiteUniqueError e); eexists; reflexivity.
Qed.

Lemma keep_launcher_credential td idd now lid :
  preserves (policy_inv G) (issueLauncherCredentialInTx td idd now lid).
Proof.
  unfold issueLauncherCredentialInTx.
  apply preserves_bind; [apply preserves_result|]. intros tok. apply preserves_bind; [apply preserves_result|]. intros cid.
  apply preserves_bind; [|intros []; apply preserves_ret].
  apply (triple_map_error (policy_inv G) (policy_inv G)); [apply keep_insert_credential|].
  intros e. destruct (isSQLiteUniqueError e); eexists; reflexivity.
Qed.

Lemma keep_create_principal h os draws now newID name issue :
  host_ok h → 0 < newID →
  preserves (policy_inv G) (createPrincipalWithOptionalCredential h os draws now newID name G issue).
Proof.
  intros Hh Hpos. unfold createPrincipalWithOptionalCredential.
  apply preserves_bind; [apply preserves_result|]. intros _. apply preserves_bind; [apply preserves_result|].
  intros [[uid gid] home]. destruct (_ || _); [apply preserves_fail|].
  apply preserves_result_bind. intros c Hc.
  destruct (canonicalizeWorkspacePathForAdd h home) as [c'|e] eqn:Ec; [|done]. injection Hc as ->.
  destruct (isWithinAnyAllowedRoot c (allowedRootPaths G)) eqn:Ew; [|apply preserves_fail]. simpl.
  apply preserves_transaction, preserves_bind.
  { apply (triple_map_error (policy_inv G) (policy_inv G)); [by apply keep_insert_principal|].
    intros e. destruct (isSQLiteUniqueError e); eexists; reflexivity. }
  intros pid. apply preserves_bind.
  { apply preserves_wrapf, keep_insert_principal_root; [by eapply workspace_canonical|done]. }
  intros _. apply preserves_bind; [apply preserves_wrapf, keep_default_launcher|]. intros _.
  apply preserves_bind; [|intros; apply preserves_ret]. destruct issue; [|apply preserves_ret].
  apply preserves_bind; [apply keep_principal_credential|]. intros ?; apply preserves_ret.
Qed.

Lemma keep_add_principal_root h name p a :
  host_ok h → preserves (policy_inv G) (addPrincipalAllowedRoot h name p a (allowedRootPaths G)).
Proof.
  intros Hh. unfold addPrincipalAllowedRoot. case_bool_decide; [apply preserves_fail|].
  destruct (negb (isValid a)); [apply preserves_fail|]. apply preserves_result_bind. intros q Hq.
  destruct (isWithinAnyAllowedRoot q (allowedRootPaths G)) eqn:Ew; [|apply preserves_fail]. simpl.
  apply preserves_bind; [apply preserves_reads, reads_principal_id|]. intros pid.
  apply preserves_bind. { apply preserves_wrapf, keep_insert_principal_root; [by eapply add_root_canonical|done]. }
  intros []; [apply preserves_ret|]. apply preserves_bind; [|intros; apply preserves_ret].
  apply preserves_wrapf, preserves_stmt. intros d b d' Hi. by destruct (_ !! _); intros [= _ <-].
Qed.

Lemma keep_stored_or_not_found (m : DB string) :
  preserves (policy_inv G) m → preserves (policy_inv G) (stored_or_not_found m).
Proof.
  intros H. apply (triple_map_error (policy_inv G) (policy_inv G)); [done|].
  intros e. destruct (errors_is e ErrNoRows); eexists; reflexivity.
Qed.

Lemma keep_set_principal_access h name p a : preserves (policy_inv G) (setPrincipalAllowedRootAccess h name p a).
Proof.
  unfold setPrincipalAllowedRootAccess. repeat (apply triple_case; [apply preserves_fail|]).
  apply preserves_bind; [apply preserves_result|]. intros q.
  apply preserves_bind; [apply preserves_reads, reads_principal_id|]. intros pid.
  apply preserves_bind.
  { apply keep_stored_or_not_found, preserves_wrapf, preserves_stmt. intros d b d' Hi. by destruct (_ !! _); intros [= _ <-]. }
  intros stored. apply triple_case; [apply preserves_ret|].
  apply preserves_bind; [apply preserves_wrapf, keep_update_principal_root|]. intros []; [apply preserves_ret|apply preserves_fail].
Qed.

(** Disabling: the flag goes with every Session below it. *)
Lemma keep_enabled_change name b : preserves (policy_inv G) (persistPrincipalEnabledChange name b).
Proof.
  unfold persistPrincipalEnabledChange. apply triple_case; [apply preserves_fail|].
  eapply triple_weaken; [apply (transaction_if_triple (policy_inv G) _ _ _ (λ _, policy_inv G))|done|done|by intros ?? []].
  apply triple_bind with (Q := λ pid d, policy_inv G d).
  { apply reads_triple; [apply reads_principal_id_tx|done|]. done. }
  intros pid. apply triple_bind with (Q := λ cur d, policy_inv G d).
  { apply triple_wrapf, triple_stmt; [done|]. intros d cur d' Hi. by destruct (principals d !! pid); intros [= _ <-]. }
  intros cur. destruct (bool_decide (cur = b)).
  { apply triple_bind with (Q := λ _ _, True); [by apply triple_wrapf, triple_query|].
    intros ad. by apply triple_ret. }
  (* the flag is written first *)
  set (mid := λ d, ∃ d0, policy_inv G d0 ∧ d = set_principals (alter (set_enabled b) pid (principals d0)) d0).
  apply triple_bind with (Q := λ _, mid).
  { apply triple_wrapf, exec_triple; [done|]. intros d d' Hi [= <-]. by exists d. }
  intros _. set (fin := λ d, policy_inv G d). apply triple_bind with (Q := λ _, fin).
  2: { intros ids. apply triple_bind with (Q := λ _, fin); [by apply triple_wrapf, triple_query|].
       intros ad. by apply triple_ret. }
  assert (Hbase : ∀ d gone, mid d →
    (∀ sid row l, sessions d !! sid = Some row → gone sid = false → launchers d !! s_launcher_id row = Some l →
       l_principal_id l = pid → b = true) →
    policy_inv G (drop_sessions gone d)).
  { intros d gone (d0 & [H1 H2 H3 H4 H5] & ->) Hgone. split; simpl.
    - intros pid' r. destruct (decide (pid' = pid)) as [->|Hne].
      + rewrite lookup_alter_eq. intros (r0 & Hr & _)%fmap_Some. eauto.
      + rewrite lookup_alter_ne by done. eauto.
    - intros pid' p a Hp. destruct (H2 _ _ _ Hp) as (? & ?). split; [|done]. by apply lookup_alter_is_Some.
    - intros lid l Hl. destruct (H3 _ _ Hl) as (? & ?). split; [|done]. by apply lookup_alter_is_Some.
    - done.
    - intros sid row [Hs Hg]%map_lookup_filter_Some. simpl in Hg. specialize (H5 _ _ Hs).
      unfold launcher_available, launcher_join in *. simpl.
      destruct (launchers d0 !! s_launcher_id row) as [l|] eqn:El; [|done].
      destruct (decide (l_principal_id l = pid)) as [E|Hne]; [|by rewrite lookup_alter_ne].
      specialize (Hgone sid row l Hs). simpl in Hgone. rewrite Hgone in * by (done || by destruct (gone sid)).
      rewrite E, lookup_alter_eq. rewrite E in H5. destruct (principals d0 !! pid) as [r|]; [|done]. simpl.
      apply andb_true_iff in H5 as [-> _]. done. }
  destruct b.
  - apply triple_ret. intros d Hm. specialize (Hbase d (λ _, false) Hm). unfold fin.
    eapply policy_inv_ext; [..|apply Hbase]; simpl; try done.
    rewrite map_filter_id; [done|]. simpl. by intros ? ? ? [].
  - apply triple_bind with (Q := λ _, mid); [by apply triple_wrapf, triple_query|]. intros ids.
    apply triple_bind with (Q := λ _, fin); [|intros; by apply triple_ret].
    apply triple_wrapf, triple_stmt; [done|]. intros d [] d' Hm [= <-]. apply Hbase; [done|].
    intros sid row l Hs Hg Hl Hp. unfold session_of_principal in Hg. by rewrite Hs, Hl, Hp, bool_decide_eq_true_2 in Hg.
Qed.

(** Deleting a Principal: its rows go in cascade. *)
Lemma keep_delete_principal_row pid : preserves (policy_inv G) (delete_principal_row pid).
Proof.
  apply preserves_stmt. intros d [] d' [H1 H2 H3 H4 H5]. unfold sessions_allow.
  destruct (existsb _ _) eqn:Ee; [done|]. simpl. intros [= <-].
  rewrite existsb_rows_false in Ee. unfold launcher_of_principal in *.
  split; simpl; unfold stored_within; simpl.
  - intros pid' r [_ Hp]%lookup_delete_Some. eauto.
  - intros pid' p a [Hp Hne]%map_lookup_filter_Some. simpl in Hne. destruct (H2 _ _ _ Hp) as (? & ?). split; [|done].
    by rewrite lookup_delete_ne.
  - intros lid l [Hl Hg]%map_lookup_filter_Some. simpl in Hg. rewrite Hl in Hg. destruct (H3 _ _ Hl) as (? & ?).
    split; [|done]. rewrite lookup_delete_ne; [done|]. intros ->. apply Hg. by rewrite bool_decide_eq_true_2.
  - intros lid p a [Hl Hg]%map_lookup_filter_Some. simpl in Hg.
    destruct (H4 _ _ _ Hl) as (? & ? & l & El & ? & q & b & Hq & ?). split_and!; [done..|]. rewrite El in Hg.
    assert (l_principal_id l ≠ pid) by (intros E; apply Hg; by rewrite bool_decide_eq_true_2).
    exists l. split_and!; [|done|].
    + apply map_lookup_filter_Some. split; [done|]. simpl. rewrite El, bool_decide_eq_false_2 by done. by intros [].
    + exists q, b. split; [|done]. apply map_lookup_filter_Some. done.
  - intros sid row Hs. specialize (H5 _ _ Hs). specialize (Ee _ _ Hs). simpl in Ee.
    unfold launcher_available, launcher_join in *. simpl.
    destruct (launchers d !! s_launcher_id row) as [l|] eqn:El; [|done].
    apply bool_decide_eq_false_1 in Ee. rewrite (map_lookup_filter_Some_2 _ _ _ l); [|done|simpl; rewrite El, bool_decide_eq_false_2 by done; by intros []].
    by rewrite lookup_delete_ne.
Qed.

Lemma keep_delete_principal name : preserves (policy_inv G) (deletePrincipal name).
Proof.
  unfold deletePrincipal. apply preserves_transaction.
  apply preserves_bind; [apply preserves_reads, reads_principal_id_tx|]. intros pid.
  apply preserves_bind; [apply preserves_wrapf, preserves_query|]. intros ids.
  apply preserves_bind; [apply preserves_wrapf, keep_drop_sessions|]. intros _.
  apply preserves_bind; [apply preserves_wrapf, keep_delete_principal_row|]. intros _. apply preserves_ret.
Qed.

End inv.

(** ** The reconciliation *)

(** One stored set, over either of the two root tables. *)
Section prune.
Context {K : Type} `{Countable K}.
Context (get : db → gmap (K * string) string) (set : gmap (K * string) string → db → db).
Context (get_set : ∀ t d, get (set t d) = t) (set_set : ∀ t t' d, set t (set t' d) = set t d) (set_get : ∀ d, set (get d) d = d).
Context (del : K → string → DB bool).
Context (del_ok : ∀ o p d f b d' f', del o p d f = (Ok b, d', f') → d' = set (delete (o, p) (get d)) d).

Lemma prune_roots_spec o text C stored d f r d' f' :
  prune_roots (del o) text C stored d f = (Ok r, d', f') →
  r.1 = filter (λ e, isWithinAnyAllowedRoot (Path e) C = true) stored ∧
  r.2 = Path <$> filter (λ e, isWithinAnyAllowedRoot (Path e) C = false) stored ∧
  d' = set (filter (λ kv : K * string * string, ¬ (kv.1.1 = o ∧ kv.1.2 ∈ r.2)) (get d)) d.
Proof.
  revert d f r. induction stored as [|e stored IH]; intros d f r; simpl.
  { intros [= <- <- _]. split_and!; [done..|]. rewrite map_filter_id; [done|]. simpl. by intros ?? _ [_ ?%not_elem_of_nil]. }
  destruct (isWithinAnyAllowedRoot (Path e) C) eqn:Ew.
  - intros (r' & d1 & f1 & Hr & Hm)%db_bind_ok. injection Hm as <- <- <-.
    apply IH in Hr as (E1 & E2 & ->). rewrite !filter_cons. simpl. rewrite Ew, E1, E2. simpl. by split_and!.
  - intros (b & d1 & f1 & Hd & Hr)%db_bind_ok. apply wrapf_ok, del_ok in Hd as ->.
    apply db_bind_ok in Hr as (r' & d2 & f2 & Hr & Hm). injection Hm as <- <- <-.
    apply IH in Hr as (E1 & E2 & ->). rewrite !filter_cons. simpl. rewrite Ew. simpl.
    split_and!; [done|by rewrite E2|]. rewrite get_set, set_set. f_equal. apply map_eq. intros [k p].
    apply option_eq. intros a. rewrite !map_lookup_filter_Some, lookup_delete_Some, elem_of_cons. simpl. naive_solver.
Qed.

Lemma prune_stored_spec o text C d f r d' f' :
  prune_roots (del o) text C (roots_of o (map_to_list (get d))) d f = (Ok r, d', f') →
  r.1 = filter (λ e, isWithinAnyAllowedRoot (Path e) C = true) (roots_of o (map_to_list (get d))) ∧
  (∀ p, p ∈ r.2 ↔ is_Some (get d !! (o, p)) ∧ isWithinAnyAllowedRoot p C = false) ∧
  d' = set (filter (λ kv : K * string * string, ¬ (kv.1.1 = o ∧ isWithinAnyAllowedRoot kv.1.2 C = false)) (get d)) d.
Proof.
  intros (E1 & E2 & ->)%prune_roots_spec. split; [done|].
  assert (Hr : ∀ p, p ∈ r.2 ↔ is_Some (get d !! (o, p)) ∧ isWithinAnyAllowedRoot p C = false).
  { intros p. rewrite E2, list_elem_of_fmap. split.
    - intros ([q a] & -> & [Hw Hin]%list_elem_of_filter). apply elem_of_roots_of in Hin. simpl in *. split; [by eexists|done].
    - intros [[a Ha] Hw]. exists (mkEntry p a). split; [done|]. apply list_elem_of_filter. split; [done|]. by apply elem_of_roots_of. }
  split; [done|]. f_equal. apply map_eq. intros [k p]. apply option_eq. intros a. rewrite !map_lookup_filter_Some. simpl.
  split; intros [Ha Hn]; (split; [done|]); intros [-> Hw]; apply Hn; (split; [done|]); apply Hr in Hw || apply Hr; naive_solver.
Qed.
End prune.

Lemma delete_principal_root_ok o p d f b d' f' :
  delete_principal_root o p d f = (Ok b, d', f') → d' = set_principal_roots (delete (o, p) (principal_allowed_roots d)) d.
Proof. by intros ([= _ <-] & _)%stmt_ok. Qed.
Lemma delete_launcher_root_ok o p d f b d' f' :
  delete_launcher_root o p d f = (Ok b, d', f') → d' = set_launcher_roots (delete (o, p) (launcher_allowed_roots d)) d.
Proof. by intros ([= _ <-] & _)%stmt_ok. Qed.

Lemma set_launcher_roots_twice t t' d : set_launcher_roots t (set_launcher_roots t' d) = set_launcher_roots t d.
Proof. done. Qed.

(** What a pruned Launcher table keeps. *)
Definition keep_launcher_root (C : list string) (lids : list string) (kv : string * string * string) : Prop :=
  ¬ (kv.1.1 ∈ lids ∧ isWithinAnyAllowedRoot kv.1.2 C = false).

Lemma prune_launchers_spec C lids d f r d' f' :
  prune_launchers C lids d f = (Ok r, d', f') →
  d' = set_launcher_roots (filter (keep_launcher_root C lids) (launcher_allowed_roots d)) d ∧
  (∀ lid p, NoDup lids → (lid, p) ∈ r ↔ lid ∈ lids ∧ is_Some (launcher_allowed_roots d !! (lid, p)) ∧ isWithinAnyAllowedRoot p C = false).
Proof.
  revert d f r. induction lids as [|lid lids IH]; intros d f r; simpl.
  { intros [= <- <- _]. rewrite map_filter_id by (intros ?? _ [?%not_elem_of_nil _]; done). split; [by destruct d|].
    intros ? ? _. rewrite !elem_of_nil. tauto. }
  intros (roots & d1 & f1 & Hr & H)%db_bind_ok. apply read_launcher_roots_ok in Hr as [-> ->].
  apply db_bind_ok in H as (r1 & d2 & f2 & Hp & H).
  apply (prune_stored_spec launcher_allowed_roots set_launcher_roots) in Hp as (_ & Hr1 & ->);
    [|done|done|by intros []|apply delete_launcher_root_ok].
  apply db_bind_ok in H as (rest & d3 & f3 & Hrest & Hm). injection Hm as <- <- <-.
  apply IH in Hrest as [-> Hrest]. simpl. split.
  - rewrite set_launcher_roots_twice. f_equal. apply map_eq. intros [k p]. apply option_eq. intros a.
    rewrite !map_lookup_filter_Some. unfold keep_launcher_root. simpl. rewrite elem_of_cons. naive_solver.
  - intros lid' p [Hn Hnd]%NoDup_cons. rewrite elem_of_app, list_elem_of_fmap, elem_of_cons, Hrest by done. simpl. split.
    + intros [(q & [= -> ->] & Hq)|(Hin & Hs & Hw)]; [apply Hr1 in Hq; tauto|]. split_and!; [by right| |done].
      destruct Hs as [a Ha]. apply map_lookup_filter_Some in Ha as [Ha _]. by eexists.
    + intros ([->|Hin] & Hs & Hw); [left; exists p; split; [done|]; by apply Hr1|]. right. split_and!; [done| |done].
      destruct Hs as [a Ha]. exists a. apply map_lookup_filter_Some. split; [done|]. simpl. naive_solver.
Qed.

Lemma elem_of_restricted pid d lid :
  lid ∈ restricted_launchers pid d ↔ ∃ l, launchers d !! lid = Some l ∧ l_principal_id l = pid ∧ l_scope_mode l = LauncherScopeRestricted.
Proof.
  unfold restricted_launchers. rewrite merge_sort_Permutation, list_elem_of_omap. split.
  - intros ([i l] & Hin & He). simpl in He. case_bool_decide as Eb; [|done]. injection He as <-.
    apply elem_of_map_to_list in Hin. exists l. tauto.
  - intros (l & Hl & Hb). exists (lid, l). split; [by apply elem_of_map_to_list|]. simpl. by rewrite bool_decide_eq_true_2.
Qed.

(** What does not depend on a ceiling. *)
Record base_inv (d : db) : Prop := {
  bi_pos : ∀ pid r, principals d !! pid = Some r → 0 < pid;
  bi_proots : ∀ pid p a, principal_allowed_roots d !! (pid, p) = Some a →
    is_Some (principals d !! pid) ∧ canonical p = true ∧ isValid a = true;
  bi_launchers : ∀ lid l, launchers d !! lid = Some l →
    is_Some (principals d !! l_principal_id l) ∧ launcher_check l = true;
  bi_lroots : ∀ lid p a, launcher_allowed_roots d !! (lid, p) = Some a →
    canonical p = true ∧ isValid a = true ∧
    ∃ l, launchers d !! lid = Some l ∧ l_scope_mode l = LauncherScopeRestricted;
  bi_sessions : ∀ sid row, sessions d !! sid = Some row → launcher_available (s_launcher_id row) d = true }.

Definition clean (G : list AllowedRootEntry) (d : db) : Prop :=
  (∀ pid p a, principal_allowed_roots d !! (pid, p) = Some a → in_ceiling G p) ∧
  (∀ lid l p a, launchers d !! lid = Some l → launcher_allowed_roots d !! (lid, p) = Some a →
     stored_within d (l_principal_id l) p).

Lemma inv_split G d : policy_inv G d ↔ base_inv d ∧ clean G d.
Proof.
  split.
  - intros [H1 H2 H3 H4 H5]. split; split; try done.
    + intros pid p a Hp. by destruct (H2 _ _ _ Hp) as (? & ? & ? & _).
    + intros lid p a Hl. destruct (H4 _ _ _ Hl) as (? & ? & l & ? & ? & _). eauto.
    + intros pid p a Hp. by destruct (H2 _ _ _ Hp) as (_ & _ & _ & ?).
    + intros lid l p a Hl Hr. destruct (H4 _ _ _ Hr) as (_ & _ & l' & ? & _ & ?). by simplify_eq.
  - intros [[H1 H2 H3 H4 H5] [H6 H7]]. split; try done.
    + intros pid p a Hp. destruct (H2 _ _ _ Hp) as (? & ? & ?). split_and!; eauto.
    + intros lid p a Hl. destruct (H4 _ _ _ Hl) as (? & ? & l & ? & ?). split_and!; [done..|]. exists l. eauto.
Qed.

(** The tables after pruning the Principals [pids]: exactly the rows outside
    are gone, and no other table changed. *)
Record pruned (scope : bool) (G : list AllowedRootEntry) (pids : list Z) (d d' : db) : Prop := {
  pn_frame : d' = set_launcher_roots (launcher_allowed_roots d') (set_principal_roots (principal_allowed_roots d') d);
  pn_proots : ∀ pid p a, principal_allowed_roots d' !! (pid, p) = Some a ↔
    principal_allowed_roots d !! (pid, p) = Some a ∧ (scope = true → pid ∈ pids → in_ceiling G p);
  pn_lroots : ∀ lid p a, launcher_allowed_roots d' !! (lid, p) = Some a ↔
    launcher_allowed_roots d !! (lid, p) = Some a ∧
    ∀ l, launchers d !! lid = Some l → l_principal_id l ∈ pids → stored_within d' (l_principal_id l) p }.

Lemma pruned_tables scope G pids d d' : pruned scope G pids d d' →
  principals d' = principals d ∧ launchers d' = launchers d ∧ sessions d' = sessions d.
Proof. intros [-> _ _]. done. Qed.

Lemma pruned_base scope G pids d d' : pruned scope G pids d d' → base_inv d → base_inv d'.
Proof.
  intros Hp [H1 H2 H3 H4 H5]. destruct (pruned_tables _ _ _ _ _ Hp) as (E1 & E2 & E3).
  split; unfold launcher_available, launcher_join; rewrite ?E1, ?E2, ?E3; [done| |done| |done].
  - intros pid p a [? _]%(pn_proots _ _ _ _ _ Hp). eauto.
  - intros lid p a [? _]%(pn_lroots _ _ _ _ _ Hp). eauto.
Qed.

Section reconcile.
Context (G : list AllowedRootEntry) (HG : valid_entries G).

Lemma base_stored_valid d pid : base_inv d → valid_entries (roots_of pid (map_to_list (principal_allowed_roots d))).
Proof. intros Hi. apply roots_of_valid. intros p a Hp. by apply (bi_proots _ Hi) in Hp as (_ & ? & ?). Qed.

Lemma prune_principal_spec scope pid d f r d' f' :
  base_inv d → (scope = false → ∀ p a, principal_allowed_roots d !! (pid, p) = Some a → in_ceiling G p) →
  prunePrincipalStoredRootsToCeiling G pid scope d f = (Ok r, d', f') → pruned scope G [pid] d d'.
Proof.
  intros Hi Hin. unfold prunePrincipalStoredRootsToCeiling.
  intros (stored & d0 & f0 & Hr & H)%db_bind_ok. apply read_principal_roots_ok in Hr as [-> ->].
  apply db_bind_ok in H as (rp & d1 & f1 & Hp & H).
  apply db_bind_ok in H as (lids & d2 & f2 & Hq & H). apply wrapf_ok, query_ok in Hq as (-> & -> & _).
  apply db_bind_ok in H as (gone & d3 & f3 & Hl & Hm). injection Hm as _ <- _.
  set (stored := roots_of pid (map_to_list (principal_allowed_roots d))) in *.
  assert (Hrp : (rp.1 `sublist_of` stored ∧ ∀ e, e ∈ rp.1 ↔ e ∈ stored ∧ (scope = true → in_ceiling G (Path e))) ∧
    ∃ tp, d1 = set_principal_roots tp d ∧ ∀ pid' p a, tp !! (pid', p) = Some a ↔
      principal_allowed_roots d !! (pid', p) = Some a ∧ (scope = true → pid' ∈ [pid] → in_ceiling G p)).
  { destruct scope.
    - apply (prune_stored_spec principal_allowed_roots set_principal_roots) in Hp as (E & _ & ->);
        [|done|done|by intros []|apply delete_principal_root_ok]. split.
      + rewrite E. split; [apply sublist_filter|]. intros e. rewrite list_elem_of_filter. unfold in_ceiling. naive_solver.
      + eexists. split; [done|]. intros pid' p a. rewrite map_lookup_filter_Some. simpl. unfold in_ceiling.
        rewrite list_elem_of_singleton. destruct (isWithinAnyAllowedRoot p (allowedRootPaths G)); naive_solver.
    - injection Hp as <- <- <-. simpl. split.
      + split; [done|]. naive_solver.
      + exists (principal_allowed_roots d). split; [by destruct d|]. naive_solver. }
  destruct Hrp as ([Hsub Erp] & tp & -> & Htp). apply prune_launchers_spec in Hl as [-> _]. simpl.
  assert (Hsw : ∀ d0 p, principal_allowed_roots d0 = tp → canonical p = true →
    stored_within d0 pid p ↔ isWithinAnyAllowedRoot p (allowedRootPaths (effectivePrincipalAllowedRoots G rp.1 pid)) = true).
  { intros d0 p Ed Hc. assert (Hv : valid_entries rp.1).
    { eapply valid_sublist; [exact Hsub|]. by apply base_stored_valid. }
    rewrite ceiling_within by done. rewrite (within_paths p rp.1). unfold stored_within. rewrite Ed. split.
    - intros (q & a & Hq & Hw). apply Htp in Hq as [Hq Hs].
      assert (Hg : in_ceiling G q).
      { destruct scope; [apply Hs; [done|by left]|by eapply Hin]. }
      destruct (bi_proots _ Hi _ _ _ Hq) as (_ & Hqc & _). split.
      + unfold in_ceiling in Hg. rewrite within_paths in *. destruct Hg as (e & He & Hwe). exists e. split; [done|].
        eapply (pathWithin_trans _ q); [exact (valid_canonical _ HG _ He)|done..].
      + exists (mkEntry q a). split; [|done]. apply Erp. split; [by apply elem_of_roots_of|by intros _].
    - intros (_ & [q a] & Hin' & Hw). apply Erp in Hin' as [Hq%elem_of_roots_of Hs].
      exists q, a. split; [|done]. apply Htp. split; [done|]. intros E _. by apply Hs. }
  split; simpl; [done|done|]. intros lid p a. rewrite map_lookup_filter_Some. unfold keep_launcher_root. simpl.
  split; intros [Hl Hk]; (split; [done|]); destruct (bi_lroots _ Hi _ _ _ Hl) as (Hc & _ & l & El & Er).
  - intros l' El' E%list_elem_of_singleton. assert (l' = l) as -> by congruence. rewrite E, Hsw by done.
    apply not_false_is_true. intros Hf. apply Hk. split; [|done]. apply elem_of_restricted. by exists l.
  - intros [(l' & El' & Ep & _)%elem_of_restricted Hf]. simpl in El'. assert (l' = l) as -> by congruence.
    specialize (Hk _ El). rewrite Ep, list_elem_of_singleton in Hk. specialize (Hk eq_refl).
    rewrite (Hsw _ p) in Hk; [|done|done]. congruence.
Qed.

Lemma pruned_trans scope pid pids d d1 d2 :
  pid ∉ pids → pruned scope G [pid] d d1 → pruned scope G pids d1 d2 → pruned scope G (pid :: pids) d d2.
Proof.
  intros Hn H1 H2. destruct (pruned_tables _ _ _ _ _ H1) as (_ & El & _).
  assert (Hw : ∀ p, stored_within d2 pid p ↔ stored_within d1 pid p).
  { intros p. unfold stored_within. split; intros (q & a & Hq & ?); exists q, a; (split; [|done]); revert Hq;
      rewrite (pn_proots _ _ _ _ _ H2); naive_solver. }
  split.
  - rewrite (pn_frame _ _ _ _ _ H2) at 1. by rewrite (pn_frame _ _ _ _ _ H1).
  - intros pid' p a. rewrite (pn_proots _ _ _ _ _ H2), (pn_proots _ _ _ _ _ H1), list_elem_of_singleton, elem_of_cons. naive_solver.
  - intros lid p a. rewrite (pn_lroots _ _ _ _ _ H2), (pn_lroots _ _ _ _ _ H1), El. split.
    + intros [[Hl Hk1] Hk2]. split; [done|]. intros l Hll [E|Hin]%elem_of_cons; [|eauto].
      specialize (Hk1 l Hll). rewrite E, list_elem_of_singleton in Hk1. rewrite E. by apply Hw, Hk1.
    + intros [Hl Hk]. split; [split; [done|]|].
      * intros l Hll Hp%list_elem_of_singleton. rewrite Hp. apply Hw. rewrite <-Hp. apply Hk; [done|]. rewrite Hp. by left.
      * intros l Hll Hin. apply Hk; [done|by right].
Qed.

Lemma prune_principals_spec scope pids d f r d' f' :
  NoDup pids → base_inv d →
  (scope = false → ∀ pid p a, pid ∈ pids → principal_allowed_roots d !! (pid, p) = Some a → in_ceiling G p) →
  prune_principals G scope pids d f = (Ok r, d', f') → pruned scope G pids d d'.
Proof.
  revert d f r. induction pids as [|pid pids IH]; intros d f r; simpl.
  { intros _ _ _ [= <- <- _]. split; [by destruct d|..].
    - intros pid p a. split; [|by intros [? _]]. intros ?. split; [done|]. by intros _ ?%not_elem_of_nil.
    - intros lid p a. split; [|by intros [? _]]. intros ?. split; [done|]. by intros l _ ?%not_elem_of_nil. }
  intros [Hn Hnd]%NoDup_cons Hi Hin. intros (r1 & d1 & f1 & H1 & H)%db_bind_ok.
  apply db_bind_ok in H as (r2 & d2 & f2 & H2 & Hm). injection Hm as _ <- <-.
  apply prune_principal_spec in H1; [|done|intros Hs p a; apply Hin; [done|by left]].
  apply IH in H2; [by eapply pruned_trans|done|by eapply pruned_base|].
  intros Hs pid' p a Hp' [Hq _]%(pn_proots _ _ _ _ _ H1). eapply Hin; [done|by right|done].
Qed.

(** The resulting state of a reconciliation of every Principal. *)
Lemma prune_all_spec d f r d' f' :
  base_inv d → pruneStoredAllowedRootsToCeilings G 0 d f = (Ok r, d', f') →
  pruned true G (merge_sort Z.le (map_to_list (principals d)).*1) d d' ∧ policy_inv G d'.
Proof.
  intros Hi. unfold pruneStoredAllowedRootsToCeilings. rewrite bool_decide_eq_true_2 by done.
  intros (pids & d0 & f0 & Hq & H)%db_bind_ok. apply wrapf_ok, query_ok in Hq as (-> & -> & _).
  apply prune_principals_spec in H as Hp; [| |done|done].
  2: { rewrite merge_sort_Permutation. apply NoDup_fst_map_to_list. }
  split; [done|]. apply inv_split. split; [by eapply pruned_base|].
  assert (Hall : ∀ pid, is_Some (principals d !! pid) → pid ∈ merge_sort Z.le (map_to_list (principals d)).*1).
  { intros pid [r0 Hr]. rewrite merge_sort_Permutation. apply list_elem_of_fmap. exists (pid, r0). split; [done|]. by apply elem_of_map_to_list. }
  destruct (pruned_tables _ _ _ _ _ Hp) as (E1 & E2 & _). split.
  - intros pid p a [Hpr Hs]%(pn_proots _ _ _ _ _ Hp). apply Hs; [done|]. apply Hall. by apply (bi_proots _ Hi) in Hpr as [? _].
  - intros lid l p a Hl [Hlr Hk]%(pn_lroots _ _ _ _ _ Hp). rewrite E2 in Hl. apply Hk; [done|].
    apply Hall. by apply (bi_launchers _ Hi) in Hl as [? _].
Qed.

(** The cascade of one removed stored root restores the invariant. *)
Lemma keep_remove_principal_root h name p :
  preserves (policy_inv G) (removePrincipalAllowedRootCascaded h name p G).
Proof.
  unfold removePrincipalAllowedRootCascaded. repeat (apply triple_case; [apply preserves_fail|]).
  apply preserves_result_bind. intros q _.
  apply triple_read_bind with (F := λ pid d, is_Some (principals d !! pid)); [apply reads_principal_id|done| |].
  { intros d f pid d' f' _. unfold findPrincipalIDByUsername. case_bool_decide; [done|].
    intros (row & d1 & f1 & Hq & H1)%db_bind_ok. apply wrapf_ok, query_ok in Hq as (-> & -> & _).
    destruct (head _) as [[i r]|] eqn:E; [|done]. injection H1 as <- _ _.
    apply head_Some_elem_of, list_elem_of_filter in E as [_ Hin]. apply elem_of_map_to_list in Hin. by eexists. }
  intros pid. set (P := λ d, policy_inv G d ∧ is_Some (principals d !! pid)).
  apply triple_weaken with (E' := P) (P' := P) (Q' := λ _ d, policy_inv G d); [|done|by intros d []|done].
  apply triple_transaction.
  intros d f [Hi [r0 Hr0]]. assert (Hne : pid ≠ 0) by (pose proof (pi_pos _ _ Hi _ _ Hr0); lia).
  match goal with |- match ?x with _ => _ end => destruct x as [[[res|e] d'] f'] eqn:E; [|done] end.
  apply db_bind_ok in E as (aff & d1 & f1 & Hd & H). apply wrapf_ok, stmt_ok in Hd as [[= <- <-] ->].
  apply db_bind_ok in H as (pr & d2 & f2 & Hp & Hm). injection Hm as _ <- _.
  pose proof (proj1 (inv_split G d) Hi) as [Hb [Hc1 Hc2]]. case_bool_decide as Ex.
  2: { injection Hp as _ <- _. eapply policy_inv_ext; [..|exact Hi]; simpl; try done.
       apply delete_id. by apply eq_None_not_Some. }
  unfold pruneStoredAllowedRootsToCeilings in Hp. rewrite bool_decide_eq_false_2 in Hp by done.
  set (d1 := set_principal_roots (delete (pid, q) (principal_allowed_roots d)) d) in *.
  assert (Hb1 : base_inv d1).
  { destruct Hb as [H1 H2 H3 H4 H5]. split; simpl; [done| |done..]. intros pid' p' a' [_ ?]%lookup_delete_Some. eauto. }
  assert (Hc1' : ∀ pid p a, principal_allowed_roots d1 !! (pid, p) = Some a → in_ceiling G p).
  { intros pid' p' a'. unfold d1. simpl. intros [_ ?]%lookup_delete_Some. eauto. }
  apply prune_principals_spec in Hp; [|apply NoDup_singleton|done|eauto].
  apply inv_split. split; [by eapply pruned_base|]. destruct (pruned_tables _ _ _ _ _ Hp) as (E1 & E2 & _). split.
  - intros pid' p' a' [? _]%(pn_proots _ _ _ _ _ Hp). eauto.
  - intros lid l p' a' Hl [Hlr Hk]%(pn_lroots _ _ _ _ _ Hp). rewrite E2 in Hl.
    destruct (decide (l_principal_id l = pid)) as [Ep|Hnp].
    + apply Hk; [done|]. rewrite Ep. by left.
    + destruct (Hc2 lid l p' a' Hl Hlr) as (q' & b & Hq & Hw). exists q', b. split; [|done].
      apply (pn_proots _ _ _ _ _ Hp). split; [|done]. simpl. rewrite lookup_delete_ne; [done|]. congruence.
Qed.

End reconcile.

(** The base of the invariant does not depend on the ceiling: a new one is
    reached by reconciling. *)
Lemma reconcile_inv h G G' globals d f r d' f' :
  valid_entries G' → resolveAllowedRootEntries h globals = Ok G' → policy_inv G d →
  reconcileStoredAllowedRootsToGlobalCeiling h globals d f = (Ok r, d', f') →
  policy_inv G' d' ∧ pruned true G' (merge_sort Z.le (map_to_list (principals d)).*1) d d'.
Proof.
  intros HG Hg [Hb _]%inv_split. unfold reconcileStoredAllowedRootsToGlobalCeiling. rewrite Hg.
  intros (e & d0 & f0 & He & H)%db_bind_ok. injection He as <- <- <-.
  pose proof (transaction_atomic "cannot begin allowed-root reconciliation" "cannot commit allowed-root reconciliation"
    (pruneStoredAllowedRootsToCeilings G' 0) d f) as Ht. rewrite H in Ht. destruct Ht as (f1 & f2 & Hp).
  apply prune_all_spec in Hp as [??]; done.
Qed.
