(* ===== verification/Config.v ===== *)
(** * Config: src/config.go — the configuration document

    First time.ParseDuration.
    Durations are int64 nanoseconds; the intermediate sums are uint64 and wrap.
    A fractional part goes through float64 in Go: its rounding is the argument
    [fraction], of the digits after the point, the unit and the power of ten. *)
From S2P Require Import Prelude Filepath AllowedRoots GoStrings WorkspacePolicy PrincipalStore Json.
Local Open Scope Z_scope.

Definition two63 : Z := 2 ^ 63.
Definition two64 : Z := 2 ^ 64.

Definition nanosecond : Z := 1.
Definition microsecond : Z := 1000.
Definition millisecond : Z := 1000000.
Definition time_second : Z := 1000000000.
Definition minute : Z := 60000000000.
Definition hour : Z := 3600000000000.

Definition unitMap (u : string) : option Z :=
  if bool_decide (u = "ns") then Some nanosecond
  else if bool_decide (u = "us" ∨ u = "µs" ∨ u = "μs") then Some microsecond
  else if bool_decide (u = "ms") then Some millisecond
  else if bool_decide (u = "s") then Some time_second
  else if bool_decide (u = "m") then Some minute
  else if bool_decide (u = "h") then Some hour
  else None.

(** The leading digits: [None] past 2^63; how many digits were consumed. *)
Fixpoint leadingInt (x : Z) (n : nat) (s : string) : option (Z * nat * string) :=
  match s with
  | "" => Some (x, n, "")
  | String c rest =>
      match digit_of c with
      | None => Some (x, n, s)
      | Some d =>
          if two63 / 10 <? x then None
          else if two63 <? x * 10 + d then None
          else leadingInt (x * 10 + d) (S n) rest
      end
  end.

(** The digits after the point: what does not fit is dropped. *)
Fixpoint leadingFraction (x scale : Z) (n : nat) (overflow : bool) (s : string) : Z * Z * nat * string :=
  match s with
  | "" => (x, scale, n, "")
  | String c rest =>
      match digit_of c with
      | None => (x, scale, n, s)
      | Some d =>
          if overflow then leadingFraction x scale (S n) true rest
          else if (two63 - 1) / 10 <? x then leadingFraction x scale (S n) true rest
          else if two63 <? x * 10 + d then leadingFraction x scale (S n) true rest
          else leadingFraction (x * 10 + d) (scale * 10) (S n) false rest
      end
  end.

(** The unit: up to the next digit or point. *)
Fixpoint leading_unit (s : string) : string * string :=
  match s with
  | "" => ("", "")
  | String c rest =>
      if bool_decide (c = "."%char) || bool_decide (is_Some (digit_of c)) then ("", s)
      else let '(u, r) := leading_unit rest in (String c u, r)
  end.

Section duration.
Context (fraction : Z → Z → Z → Z).

(** One number with its unit, as nanoseconds, and the rest. *)
Definition duration_term (s : string) : option (Z * string) :=
  match s with
  | "" => None
  | String c _ =>
      if negb (bool_decide (c = "."%char) || bool_decide (is_Some (digit_of c))) then None
      else
        '(v, pre, s) ← leadingInt 0 0 s;
        let '(f, scale, post, s) :=
          match s with
          | String "." rest => leadingFraction 0 1 0 false rest
          | _ => (0, 1, 0%nat, s)
          end in
        if bool_decide (pre = 0%nat ∧ post = 0%nat) then None
        else
          let '(u, s) := leading_unit s in
          if bool_decide (u = "") then None
          else
            unit ← unitMap u;
            if two63 / unit <? v then None
            else
              let v := v * unit in
              let v := if 0 <? f then (v + fraction f unit scale) mod two64 else v in
              if (0 <? f) && (two63 <? v) then None else Some (v, s)
  end.

(** Every term consumes a character: [fuel] is the length of the text. *)
Fixpoint duration_terms (fuel : nat) (d : Z) (s : string) : option Z :=
  match s with
  | "" => Some d
  | _ =>
      match fuel with
      | O => None
      | S fuel =>
          '(v, s) ← duration_term s;
          let d := (d + v) mod two64 in
          if two63 <? d then None else duration_terms fuel d s
      end
  end.

Definition ParseDuration (s : string) : option Z :=
  let '(neg, s) := match s with
                   | String "-" r => (true, r)
                   | String "+" r => (false, r)
                   | _ => (false, s)
                   end in
  if bool_decide (s = "0") then Some 0
  else if bool_decide (s = "") then None
  else
    d ← duration_terms (String.length s) 0 s;
    if neg : bool then Some (- d)
    else if two63 - 1 <? d then None else Some d.

End duration.

Example parse_hour : ParseDuration (λ _ _ _, 0) "1h30m" = Some 5400000000000.
Proof. vm_compute. reflexivity. Qed.

(** ** src/config.go — the configuration document

    The member-name grammar, the validation of the raw document and the
    projections of its global allowed roots.  A document is the value
    encoding/json decodes: numbers keep their integer when they have one, an
    object keeps its members in order, duplicates included. *)

(** ** The fields *)

Record configFieldSpec := mkField { cf_name : string; cf_writable : bool; cf_required : bool }.

Definition configFields : list configFieldSpec :=
  [mkField "allowed_roots" true true; mkField "allowed_root" false false; mkField "session_ttl" true true;
   mkField "log_level" true false; mkField "audit_enabled" true false; mkField "shutdown_timeout" true false;
   mkField "operation_retention_ttl" true false; mkField "operation_max_completed" true false;
   mkField "operation_log_max_bytes" true false; mkField "trusted_ca_path" true false;
   mkField "trusted_ca_injection" true false; mkField "http_address" true false;
   mkField "audit_enabled_source" false false; mkField "config_path" false false; mkField "config_dir" false false;
   mkField "runtime_dir" false false; mkField "socket_path" false false; mkField "lock_path" false false;
   mkField "state_dir" false false; mkField "database_path" false false; mkField "admin_token_path" false false;
   mkField "admin_token" false false].

Definition lookupConfigField (name : string) : option configFieldSpec :=
  head (filter (λ f, cf_name f = name) configFields).

Definition isKnownField (name : string) : bool := bool_decide (is_Some (lookupConfigField name)).
Definition isReadOnlyField (name : string) : bool :=
  match lookupConfigField name with Some f => negb (cf_writable f) | None => false end.
Definition isRequiredField (name : string) : bool :=
  match lookupConfigField name with Some f => cf_required f | None => false end.

Definition configShowFields : list string :=
  merge_sort str_le (cf_name <$> filter (λ f, cf_name f ≠ "allowed_root") configFields).

Definition showFieldAccepted (field : string) : bool := existsb (λ f, bool_decide (f = field)) configShowFields.

Definition configSetFields : list string :=
  merge_sort str_le
    (cf_name <$> filter (λ f, cf_writable f = true ∧ cf_name f ≠ "allowed_roots" ∧ cf_name f ≠ "allowed_root") configFields).

Definition configUnsetFields : list string :=
  merge_sort str_le
    (cf_name <$> filter (λ f, cf_writable f = true ∧ cf_required f = false ∧
                              cf_name f ≠ "allowed_roots" ∧ cf_name f ≠ "allowed_root") configFields).

Definition deprecatedConfigFields : list (string * string) := [("build_log_max_bytes", "operation_log_max_bytes")].
Definition retiredConfigFields : list string := ["allowed_root_entries"; "effective_allowed_root_entries"].

Definition raw_config : Type := gmap string json.

Definition validateNoDeprecatedRawFields (raw : raw_config) : result unit :=
  if existsb (λ kv, bool_decide (is_Some (raw !! kv.1))) deprecatedConfigFields then errorf "was renamed" []
  else if existsb (λ f, bool_decide (is_Some (raw !! f))) retiredConfigFields
  then errorf "is a retired field and is not a valid configuration field" []
  else Ok ().

(** The loops range over a map: which offending member is named is not
    specified, that there is one is. *)
Definition validateConfigMemberGrammar (raw : raw_config) : result unit :=
  if existsb (λ kv, bool_decide (kv.1 ≠ "allowed_root") && isReadOnlyField kv.1) (map_to_list raw)
  then errorf "is computed and cannot be configured" []
  else
    _ ← validateNoDeprecatedRawFields raw;
    if forallb (λ kv, isKnownField kv.1) (map_to_list raw) then Ok ()
    else errorf "unknown configuration field" [].

(** ** The strict decode *)

(** What the decoder reads: a syntax error, or one value and whether anything
    follows it. *)
Definition document : Type := option (json * bool).

Fixpoint collect_members (raw : raw_config) (l : list (string * json)) : result raw_config :=
  match l with
  | [] => Ok raw
  | (name, v) :: l =>
      if bool_decide (is_Some (raw !! name)) then errorf "duplicate configuration key" []
      else collect_members (<[name := v]> raw) l
  end.

Definition decodeStrictConfigDocument (data : document) : result raw_config :=
  match data with
  | None => errorf "cannot parse config" []
  | Some (JObject l, trailing) =>
      raw ← collect_members ∅ l;
      if trailing : bool then errorf "trailing data after the configuration object" [] else Ok raw
  | Some (_, _) => errorf "configuration is not a JSON object" []
  end.

(** ** Values *)

Section values.
Context (h : host) (fraction : Z → Z → Z → Z).

Definition parseLogLevel (s : string) : result string :=
  if bool_decide (s = "debug" ∨ s = "info" ∨ s = "warn" ∨ s = "error") then Ok s else errorf "invalid log_level" [].

Definition parseDurationPositive (s : string) : result Z :=
  match ParseDuration fraction s with
  | None => errorf "cannot parse duration" []
  | Some d => if d <=? 0 then errorf "must be a positive duration" [] else Ok d
  end.

Definition parseSessionTTL (s : string) : result Z := parseDurationPositive s.

Definition validateAllowedRootValue (s : string) : result unit :=
  if bool_decide (s = "") then errorf "allowed_root must be a non-empty absolute path" []
  else if negb (IsAbs s) then errorf "allowed_root must be a non-empty absolute path" []
  else validateWorkspacePathPolicy (EffectiveUID h) (Clean s).

Definition validateAllowedRootEntryValue (er : json) : result unit :=
  match unmarshal_string er with
  | Some path => validateAllowedRootValue path
  | None =>
      match unmarshal_map er with
      | None => errorf "allowed_roots entry must be a path string or an object" []
      | Some fields =>
          if bool_decide (size fields ≠ 2%nat) then errorf "allowed_roots entry must contain exactly path and access" []
          else match fields !! "path", fields !! "access" with
          | Some pathRaw, Some accessRaw =>
              match unmarshal_string pathRaw with
              | None => errorf "allowed_roots entry path must be a JSON string" []
              | Some path =>
                  match unmarshal_string accessRaw with
                  | Some access =>
                      if isValid access then
                        match validateAllowedRootValue path with
                        | Ok _ => Ok ()
                        | Err e => errorf "invalid allowed_roots entry path" (err_wraps e)
                        end
                      else errorf "allowed_roots entry access must be read_write or read_only" []
                  | None => errorf "allowed_roots entry access must be read_write or read_only" []
                  end
              end
          | _, _ => errorf "allowed_roots entry must contain exactly path and access" []
          end
      end
  end.

(** One optional member. *)
Definition check_member (raw : raw_config) (name : string) (check : json → result unit) : result unit :=
  match raw !! name with Some v => check v | None => Ok () end.

Definition check_string (text : string) (check : string → result unit) (v : json) : result unit :=
  match unmarshal_string v with Some s => check s | None => errorf text [] end.

Definition check_positive_int (text text' : string) (v : json) : result unit :=
  match unmarshal_int 64 v with
  | None => errorf text []
  | Some n => if n <=? 0 then errorf text' [] else Ok ()
  end.

Fixpoint check_entries (l : list json) : result unit :=
  match l with
  | [] => Ok ()
  | er :: l => _ ← validateAllowedRootEntryValue er; check_entries l
  end.

Definition validate_roots_members (raw : raw_config) : result unit :=
  match raw !! "allowed_roots", raw !! "allowed_root" with
  | Some _, Some _ => errorf "ambiguous configuration: both allowed_root and allowed_roots are present" []
  | Some v, None =>
      match unmarshal_slice v with
      | None => errorf "allowed_roots must be a JSON array" []
      | Some [] => errorf "allowed_roots must contain at least one entry" []
      | Some entries => check_entries entries
      end
  | None, Some v => check_string "allowed_root must be a JSON string" validateAllowedRootValue v
  | None, None => errorf "allowed_roots is required" []
  end.

Definition validate_ca_members (raw : raw_config) : result unit :=
  _ ← check_member raw "trusted_ca_injection"
        (check_string "trusted_ca_injection must be a JSON string" (λ s,
           if bool_decide (s ≠ "disabled" ∧ s ≠ "auto") then errorf "trusted_ca_injection must be disabled or auto" []
           else if bool_decide (s = "auto") then
             match raw !! "trusted_ca_path" with
             | None => errorf "trusted_ca_path is required when trusted_ca_injection is auto" []
             | Some pv =>
                 check_string "trusted_ca_path must be a JSON string" (λ p,
                   if bool_decide (p = "") then errorf "trusted_ca_path is required when trusted_ca_injection is auto" []
                   else if negb (IsAbs p) then errorf "trusted_ca_path must be an absolute path" []
                   else Ok ()) pv
             end
           else Ok ()));
  check_member raw "trusted_ca_path"
    (check_string "trusted_ca_path must be a JSON string" (λ p,
       if bool_decide (p ≠ "") && negb (IsAbs p) then errorf "trusted_ca_path must be an absolute path" [] else Ok ())).

Definition duration_ok (s : string) : result unit := _ ← parseDurationPositive s; Ok ().

Definition validateRawConfig (raw : raw_config) : result unit :=
  _ ← validateConfigMemberGrammar raw;
  _ ← validate_roots_members raw;
  _ ← match raw !! "session_ttl" with
      | Some v => check_string "session_ttl must be a JSON string" (λ s, _ ← parseSessionTTL s; Ok ()) v
      | None => errorf "session_ttl is required" []
      end;
  _ ← check_member raw "log_level"
        (check_string "log_level must be a JSON string" (λ s, _ ← parseLogLevel s; Ok ()));
  _ ← check_member raw "audit_enabled"
        (λ v, match unmarshal_bool v with Some _ => Ok () | None => errorf "audit_enabled must be a JSON boolean" [] end);
  _ ← check_member raw "shutdown_timeout" (check_string "shutdown_timeout must be a JSON string" duration_ok);
  _ ← check_member raw "operation_retention_ttl" (check_string "operation_retention_ttl must be a JSON string" duration_ok);
  _ ← check_member raw "operation_max_completed"
        (check_positive_int "operation_max_completed must be a JSON integer" "operation_max_completed must be a positive integer");
  _ ← check_member raw "operation_log_max_bytes"
        (check_positive_int "operation_log_max_bytes must be a JSON integer" "operation_log_max_bytes must be a positive integer");
  validate_ca_members raw.

(** ** The global allowed roots *)

(** [AllowedRootEntry.UnmarshalJSON]. *)
Definition UnmarshalEntry (v : json) : result AllowedRootEntry :=
  match unmarshal_string v with
  | Some path => Ok (allowedRootEntry path)
  | None =>
      match v with
      | JObject l =>
          match struct_member "path" l "", struct_member "access" l "" with
          | Some path, Some access =>
              if isValid access then Ok (mkEntry path access) else errorf "unknown allowed_roots access" []
          | _, _ => errorf "allowed_roots entry must be a path string or an object" []
          end
      | _ => errorf "allowed_roots entry must be a path string or an object" []
      end
  end.

(** The two root fields of [fileConfig]. *)
Record fileConfigRoots := mkFileRoots { fc_AllowedRoots : list AllowedRootEntry; fc_AllowedRootLegacy : string }.

Fixpoint unmarshal_entries (l : list json) : result (list AllowedRootEntry) :=
  match l with
  | [] => Ok []
  | v :: l => e ← UnmarshalEntry v; es ← unmarshal_entries l; mret (e :: es)
  end.

Definition decode_roots (raw : raw_config) : result fileConfigRoots :=
  roots ← match raw !! "allowed_roots" with
          | None => Ok []
          | Some v => match unmarshal_slice v with Some l => unmarshal_entries l | None => errorf "json" [] end
          end;
  legacy ← match raw !! "allowed_root" with
           | None => Ok ""
           | Some v => match unmarshal_string v with Some s => Ok s | None => errorf "json" [] end
           end;
  mret (mkFileRoots roots legacy).

Definition storedAllowedRootEntries (raw : raw_config) (fc : fileConfigRoots) : result (list AllowedRootEntry) :=
  let hasLegacy := bool_decide (is_Some (raw !! "allowed_root")) in
  let hasNew := bool_decide (is_Some (raw !! "allowed_roots")) in
  if hasLegacy && hasNew then errorf "ambiguous configuration: both allowed_root and allowed_roots are present" []
  else
    entries ← (if hasNew then Ok (fc_AllowedRoots fc)
               else if hasLegacy then Ok [allowedRootEntry (fc_AllowedRootLegacy fc)]
               else errorf "allowed_roots is required" []);
    if bool_decide (entries = []) then errorf "allowed_roots must contain at least one entry" [] else Ok entries.

(** The loop of [resolveAllowedRoots]. *)
Fixpoint resolve_roots (seen : gmap string string) (entries : list AllowedRootEntry) : result (list AllowedRootEntry) :=
  match entries with
  | [] => Ok []
  | e :: entries =>
      if bool_decide (Path e = "") then errorf "allowed_roots contains an empty entry" []
      else if negb (IsAbs (Path e)) then errorf "allowed_roots entry is not an absolute path" []
      else match canonicalizeWorkspacePathForAdd h (Path e) with
      | Err er => errorf "invalid allowed_roots entry" (err_wraps er)
      | Ok canon =>
          match seen !! canon with
          | Some prev =>
              if bool_decide (prev ≠ Access e) then errorf "conflicting allowed_roots entries" []
              else resolve_roots seen entries
          | None =>
              l ← resolve_roots (<[canon := Access e]> seen) entries;
              mret (mkEntry canon (Access e) :: l)
          end
      end
  end.

Definition resolveAllowedRoots (raw : raw_config) (fc : fileConfigRoots) : result (list AllowedRootEntry) :=
  entries ← storedAllowedRootEntries raw fc;
  l ← resolve_roots ∅ entries;
  if bool_decide (l = []) then errorf "allowed_roots must contain at least one entry" [] else Ok l.

(** The stored spelling, first occurrences. *)
Fixpoint show_roots (seen : list string) (entries : list AllowedRootEntry) : result (list AllowedRootEntry) :=
  match entries with
  | [] => Ok []
  | e :: entries =>
      if bool_decide (Path e = "") then errorf "allowed_roots contains an empty entry" []
      else if negb (IsAbs (Path e)) then errorf "allowed_roots entry is not an absolute path" []
      else if bool_decide (Path e ∈ seen) then show_roots seen entries
      else l ← show_roots (Path e :: seen) entries; mret (e :: l)
  end.

Definition resolveAllowedRootsForShow (raw : raw_config) (fc : fileConfigRoots) : result (list AllowedRootEntry) :=
  entries ← storedAllowedRootEntries raw fc;
  l ← show_roots [] entries;
  if bool_decide (l = []) then errorf "allowed_roots must contain at least one entry" [] else Ok l.

(** The stored identities, first occurrences. *)
Fixpoint stored_identities (seen : list string) (entries : list AllowedRootEntry) : result (list AllowedRootEntry) :=
  match entries with
  | [] => Ok []
  | e :: entries =>
      if bool_decide (Path e = "") then errorf "allowed_roots contains an empty entry" []
      else if negb (IsAbs (Path e)) then errorf "allowed_roots entry is not an absolute path" []
      else match resolveAllowedRootIdentity h (Path e) with
      | Err er => errorf "invalid allowed_roots entry" (err_wraps er)
      | Ok ident =>
          if bool_decide (ident ∈ seen) then stored_identities seen entries
          else l ← stored_identities (ident :: seen) entries; mret (mkEntry ident (Access e) :: l)
      end
  end.

Definition resolveStoredAllowedRoots (raw : raw_config) (fc : fileConfigRoots) : result (list AllowedRootEntry) :=
  entries ← storedAllowedRootEntries raw fc;
  stored_identities [] entries.

(** The root part of [decodeAndValidateConfigDocument] followed by the load
    projection. *)
Definition load_allowed_roots (data : document) : result (list AllowedRootEntry) :=
  raw ← decodeStrictConfigDocument data;
  _ ← validateRawConfig raw;
  fc ← decode_roots raw;
  resolveAllowedRoots raw fc.

End values.
