(* ===== verification/ConfigTheory.v ===== *)
(** * ConfigTheory: the resolved global roots are a valid policy *)
From S2P Require Import Prelude Filepath AllowedRoots AllowedRootsTheory GoStrings WorkspacePolicy PrincipalStore Session OwnershipTheory Config Json.
Local Open Scope Z_scope.

(** A resolved path has no symlink left. *)
Definition host_links (h : host) : Prop := ∀ p q, evalSymlinksFn h p = inl q → evalSymlinksFn h q = inl q.

Lemma workspace_resolved h p q : canonicalizeWorkspacePathForAdd h p = Ok q → ∃ p0, evalSymlinksFn h p0 = inl q.
Proof.
  unfold canonicalizeWorkspacePathForAdd. case_bool_decide; [done|].
  destruct (validateHostPathText p); [|done]. simpl. destruct (Abs h (expandTilde h p)) as [ab|]; [|done].
  destruct (osStatFn h ab) as [[| |]|[]]; try done. destruct (evalSymlinksFn h ab) as [c|] eqn:E; [|done].
  destruct (validateWorkspacePathSafety (EffectiveUID h) c); [|done]. simpl. intros [= <-]. eauto.
Qed.

Lemma workspace_safe h p q :
  canonicalizeWorkspacePathForAdd h p = Ok q → validateWorkspacePathSafety (EffectiveUID h) q = Ok ().
Proof.
  unfold canonicalizeWorkspacePathForAdd. case_bool_decide; [done|].
  destruct (validateHostPathText p); [|done]. simpl. destruct (Abs h (expandTilde h p)) as [ab|]; [|done].
  destruct (osStatFn h ab) as [[| |]|[]]; try done. destruct (evalSymlinksFn h ab) as [c|]; [|done].
  destruct (validateWorkspacePathSafety (EffectiveUID h) c) as [[]|] eqn:E; [|done]. simpl. by intros [= <-].
Qed.

(** The accepted entries: canonical paths of the safety policy, pairwise
    different and not met before, with the stored access. *)
Lemma resolve_roots_ok h seen l k :
  resolve_roots h seen l = Ok k →
  NoDup (Path <$> k) ∧
  ∀ e, e ∈ k → seen !! Path e = None ∧ ∃ e0, e0 ∈ l ∧ canonicalizeWorkspacePathForAdd h (Path e0) = Ok (Path e) ∧
    Access e = Access e0.
Proof.
  revert seen k. induction l as [|e0 l IH]; intros seen k; simpl.
  { intros [= <-]. split; [constructor|]. by intros e ?%not_elem_of_nil. }
  case_bool_decide; [done|]. destruct (negb _); [done|].
  destruct (canonicalizeWorkspacePathForAdd h (Path e0)) as [c|] eqn:Ec; [|done].
  destruct (seen !! c) as [prev|] eqn:Es.
  - case_bool_decide; [done|]. intros (Hn & He)%IH. split; [done|]. intros e (? & e1 & ? & ?)%He.
    split; [done|]. exists e1. split; [by right|done].
  - destruct (resolve_roots h _ l) as [k'|] eqn:E; [|done]. simpl. intros [= <-].
    apply IH in E as [Hn He]. split.
    + simpl. apply NoDup_cons. split; [|done]. intros (e & Ee & Hin)%list_elem_of_fmap.
      destruct (He _ Hin) as [Hs _]. rewrite <-Ee, lookup_insert_eq in Hs. done.
    + intros e [->|Hin]%elem_of_cons.
      * split; [done|]. exists e0. split_and!; [by left|done..].
      * destruct (He _ Hin) as (Hs & e1 & ? & ?). apply lookup_insert_None in Hs as [? _].
        split; [done|]. exists e1. split; [by right|done].
Qed.

Lemma stored_entries_ok raw fc l :
  storedAllowedRootEntries raw fc = Ok l → Forall (λ e, isValid (Access e) = true) (fc_AllowedRoots fc) →
  Forall (λ e, isValid (Access e) = true) l.
Proof.
  unfold storedAllowedRootEntries. intros H Hv. destruct (_ && _); [done|].
  destruct (bool_decide (is_Some (raw !! "allowed_roots"))); simpl in H.
  - case_bool_decide; [done|]. by simplify_eq.
  - destruct (bool_decide (is_Some (raw !! "allowed_root"))); [|done]. simpl in H. simplify_eq. by repeat constructor.
Qed.

(** The decoder hands over only the two access values. *)
Lemma unmarshal_entries_ok l k : unmarshal_entries l = Ok k → Forall (λ e, isValid (Access e) = true) k.
Proof.
  revert k. induction l as [|v l IH]; intros k; simpl; [intros [= <-]; constructor|].
  destruct (UnmarshalEntry v) as [e|] eqn:Ee; [|done]. simpl.
  destruct (unmarshal_entries l) as [es|] eqn:E; [|done]. simpl. intros [= <-]. constructor; [|by apply IH].
  clear -Ee. unfold UnmarshalEntry in Ee. destruct (unmarshal_string v); [by injection Ee as <-|].
  destruct v; try done. destruct (struct_member "path" members ""); [|done].
  destruct (struct_member "access" members "") as [a|]; [|done]. destruct (isValid a) eqn:Hv; [|done]. by injection Ee as <-.
Qed.

Lemma decode_roots_ok raw fc : decode_roots raw = Ok fc → Forall (λ e, isValid (Access e) = true) (fc_AllowedRoots fc).
Proof.
  unfold decode_roots. intros H.
  destruct (raw !! "allowed_roots") as [v|]; simpl in H.
  - destruct (unmarshal_slice v) as [l|]; [|done]. destruct (unmarshal_entries l) as [es|] eqn:E; [|done]. simpl in H.
    destruct (match raw !! "allowed_root" with Some _ => _ | None => _ end) as [lg|]; [|done]. simpl in H.
    injection H as <-. simpl. by eapply unmarshal_entries_ok.
  - destruct (match raw !! "allowed_root" with Some _ => _ | None => _ end) as [lg|]; [|done]. simpl in H.
    injection H as <-. constructor.
Qed.

(** The loaded roots are a valid scope of resolved, safe paths. *)
Lemma load_roots_ok h fr data G :
  host_ok h → load_allowed_roots h fr data = Ok G →
  valid_entries G ∧ G ≠ [] ∧
  ∀ e, e ∈ G → (∃ p, evalSymlinksFn h p = inl (Path e)) ∧ validateWorkspacePathSafety (EffectiveUID h) (Path e) = Ok ().
Proof.
  intros Hh. unfold load_allowed_roots, resolveAllowedRoots.
  destruct (decodeStrictConfigDocument data) as [raw|]; [|done]. simpl.
  destruct (validateRawConfig h fr raw); [|done]. simpl.
  destruct (decode_roots raw) as [fc|] eqn:Ed; [|done]. simpl.
  destruct (storedAllowedRootEntries raw fc) as [l|] eqn:Es; [|done]. simpl.
  destruct (resolve_roots h ∅ l) as [k|] eqn:Er; [|done]. simpl. case_bool_decide; [done|]. intros [= <-].
  apply decode_roots_ok in Ed. apply stored_entries_ok in Es; [|done]. rewrite Forall_forall in Es.
  apply resolve_roots_ok in Er as [Hn He]. split_and!; [split|done|].
  - intros e Hin. destruct (He e Hin) as (_ & e0 & _ & Hc & _). by eapply workspace_canonical.
  - intros e Hin. destruct (He e Hin) as (_ & e0 & Hin0 & _ & ->). by apply Es.
  - done.
  - intros e Hin. destruct (He e Hin) as (_ & e0 & _ & Hc & _). split; [by eapply workspace_resolved|by eapply workspace_safe].
Qed.

(** Resolving resolved entries again changes nothing. *)
Lemma resolve_entries_fixed h l :
  host_links h → (∀ e, e ∈ l → ∃ p, evalSymlinksFn h p = inl (Path e)) → resolveAllowedRootEntries h l = Ok l.
Proof.
  intros Hh. induction l as [|[p a] l IH]; intros Hl; simpl; [done|].
  destruct (Hl (mkEntry p a)) as [p0 Hp]; [by left|]. simpl in Hp. rewrite (Hh _ _ Hp).
  rewrite IH by (intros; apply Hl; by right). done.
Qed.
