(* ===== verification/Proc.v ===== *)
(** * Proc: interleaved procedures over a shared state

    A procedure is a tree of atomic actions; between two of them the other
    goroutines may step.  [run] executes one alone.  [wp I R m Q s] says that
    [m], started in [s] beside an environment that takes [R]-steps, keeps the
    invariant [I] at every one of its actions and ends where [Q] of its value
    holds.  [acts G m] says that every action of [m] takes a [G]-step; procedures
    whose actions are steps of each other's environment keep the invariant in
    every interleaving. *)
From S2P Require Import Prelude.

Inductive proc (S A : Type) : Type :=
  | PRet (a : A)
  | PAtom (f : S → S) (k : S → proc S A).   (* the continuation reads the state before *)
Arguments PRet {S A} a.
Arguments PAtom {S A} f k.

#[export] Instance proc_ret {S} : MRet (proc S) := λ A a, PRet a.
Fixpoint proc_bind_ {S A B} (k : A → proc S B) (m : proc S A) : proc S B :=
  match m with
  | PRet a => k a
  | PAtom f m => PAtom f (λ s, proc_bind_ k (m s))
  end.
#[export] Instance proc_bind {S} : MBind (proc S) := λ A B k m, proc_bind_ k m.

(** One atomic action with a value. *)
Definition atom {S A} (f : S → A * S) : proc S A := PAtom (λ s, (f s).2) (λ s, PRet (f s).1).

Fixpoint run {S A} (m : proc S A) (s : S) : A * S :=
  match m with
  | PRet a => (a, s)
  | PAtom f k => run (k s) (f s)
  end.

Fixpoint proc_iter {S A} (body : A → proc S ()) (l : list A) : proc S () :=
  match l with
  | [] => mret ()
  | a :: l => _ ← body a; proc_iter body l
  end.

Lemma run_bind {S A B} (m : proc S A) (k : A → proc S B) s :
  run (m ≫= k) s = let '(a, s') := run m s in run (k a) s'.
Proof. unfold mbind, proc_bind. revert s. induction m as [a|f m IH]; intros s; simpl; [done|apply IH]. Qed.

Lemma run_atom {S A} (f : S → A * S) s : run (atom f) s = f s.
Proof. simpl. by destruct (f s). Qed.

Lemma run_iter {S A} (body : A → proc S ()) l s :
  (run (proc_iter body l) s).2 = foldl (λ s a, (run (body a) s).2) s l.
Proof.
  revert s. induction l as [|a l IH]; intros s; simpl; [done|]. rewrite run_bind.
  destruct (run (body a) s) as [[] s']. apply IH.
Qed.

(** ** Rely-guarantee reasoning *)

Section wp.
Context {S : Type} (I : S → Prop) (R : S → S → Prop) (RI : ∀ s s', I s → R s s' → I s').

Fixpoint wp {A} (m : proc S A) (Q : A → S → Prop) (s : S) : Prop :=
  match m with
  | PRet a => Q a s
  | PAtom f k => ∀ s', rtc R s s' → I s' → I (f s') ∧ wp (k s') Q (f s')
  end.

Definition rg {A} (P : S → Prop) (m : proc S A) (Q : A → S → Prop) : Prop := ∀ s, I s → P s → wp m Q s.

(** What the environment leaves, where the invariant holds. *)
Definition stable (P : S → Prop) : Prop := ∀ s s', I s → P s → R s s' → P s'.

Lemma env_rtc s s' : rtc R s s' → I s → I s'.
Proof. induction 1 as [|x y z Hxy _ IH]; [done|]. intros Hi. by apply IH, (RI x y). Qed.

Lemma stable_rtc P s s' : stable P → rtc R s s' → I s → P s → P s'.
Proof.
  intros HP Hr. induction Hr as [|a b c Hab _ IH]; [done|]. intros Hi Ha.
  apply IH; [by eapply RI|by eapply (HP a b)].
Qed.

Lemma stable_and P P' : stable P → stable P' → stable (λ s, P s ∧ P' s).
Proof. intros H1 H2 s s' Hi [? ?] ?. split; [by eapply (H1 s)|by eapply (H2 s)]. Qed.

Lemma stable_const (F : Prop) : stable (λ _, F).
Proof. by intros s s' _ H _. Qed.

Lemma stable_forall {B} (D : B → Prop) (P : B → S → Prop) :
  (∀ b, stable (P b)) → stable (λ s, ∀ b, D b → P b s).
Proof. intros H s s' Hi Hp Hr b Hb. eapply (H b s); eauto. Qed.

Lemma wp_mono {A} (m : proc S A) Q Q' s : wp m Q s → (∀ a s, Q a s → Q' a s) → wp m Q' s.
Proof.
  intros H HQ. revert s H. induction m as [a|f k IH]; intros s; simpl; [apply HQ|].
  intros H s' Hr Hi. destruct (H s' Hr Hi) as [? ?]. split; [done|]. by apply IH.
Qed.

Lemma wp_bind {A B} (m : proc S A) (k : A → proc S B) Q s :
  wp m (λ a s, wp (k a) Q s) s → wp (m ≫= k) Q s.
Proof.
  unfold mbind, proc_bind. revert s. induction m as [a|f m IH]; intros s; simpl; [done|].
  intros H s' Hr Hi. destruct (H s' Hr Hi) as [? ?]. split; [done|]. by apply IH.
Qed.

(** The invariant survives up to the end. *)
Lemma wp_inv {A} (m : proc S A) Q s : I s → wp m Q s → wp m (λ a s, I s ∧ Q a s) s.
Proof.
  revert s. induction m as [a|f k IH]; intros s Hi; simpl; [done|].
  intros H s' Hr Hi'. destruct (H s' Hr Hi') as [? ?]. split; [done|]. by apply IH.
Qed.

Lemma rg_bind {A B} P (m : proc S A) (k : A → proc S B) Q T :
  rg P m Q → (∀ a, rg (Q a) (k a) T) → rg P (m ≫= k) T.
Proof.
  intros Hm Hk s Hi Hp. apply wp_bind. eapply wp_mono; [apply wp_inv, Hm; done|].
  intros a s' [Hi' Hq]. by apply Hk.
Qed.

Lemma rg_ret {A} (a : A) P Q : (∀ s, I s → P s → Q a s) → rg P (mret a) Q.
Proof. done. Qed.

Lemma rg_weaken {A} P P' (m : proc S A) Q Q' :
  rg P' m Q' → (∀ s, I s → P s → P' s) → (∀ a s, Q' a s → Q a s) → rg P m Q.
Proof. intros H H1 H2 s Hi Hp. eapply wp_mono; [apply H; auto|done]. Qed.

Lemma rg_atom {A} (f : S → A * S) P Q :
  stable P → (∀ s, I s → P s → I (f s).2 ∧ Q (f s).1 (f s).2) → rg P (atom f) Q.
Proof. intros HP H s Hi Hp s' Hr Hi'. apply H; [done|]. by eapply stable_rtc. Qed.

Lemma rg_case {A} (b : bool) P (m m' : proc S A) Q :
  (b = true → rg P m Q) → (b = false → rg P m' Q) → rg P (if b then m else m') Q.
Proof. destruct b; auto. Qed.

Lemma rg_iter {A} (body : A → proc S ()) P l :
  (∀ a, a ∈ l → rg P (body a) (λ _, P)) → rg P (proc_iter body l) (λ _, P).
Proof.
  induction l as [|a l IH]; intros H; cbn [proc_iter]; [by apply rg_ret|].
  apply rg_bind with (Q := λ _, P); [apply H; by left|]. intros []. apply IH. intros b Hb. apply H. by right.
Qed.

Lemma wp_run {A} (m : proc S A) Q s : I s → wp m Q s → I (run m s).2 ∧ Q (run m s).1 (run m s).2.
Proof.
  revert s. induction m as [a|f k IH]; intros s Hi; simpl; [done|]. intros H. destruct (H s (rtc_refl _ _) Hi) as [Hi' Hk]. by apply IH.
Qed.

Lemma rg_pure {A} (F : Prop) (P : S → Prop) (m : proc S A) Q : (∀ s, P s → F) → (F → rg P m Q) → rg P m Q.
Proof. intros HF Hm s Hi Hp. exact (Hm (HF s Hp) s Hi Hp). Qed.

End wp.

Lemma wp_env {S A} (I : S → Prop) (R R' : S → S → Prop) (m : proc S A) Q s :
  (∀ s s', R' s s' → rtc R s s') → wp I R m Q s → wp I R' m Q s.
Proof.
  intros HR. revert s. induction m as [a|f k IH]; intros s; simpl; [done|]. intros H s' Hr Hi.
  assert (Hr' : rtc R s s') by (clear H Hi; induction Hr as [|x y z Hxy _ IHr]; [done|]; etrans; [by apply HR|done]).
  destruct (H s' Hr' Hi) as [? ?]. split; [done|]. by apply IH.
Qed.

(** ** Guarantees *)

Section acts.
Context {S : Type} (G : S → S → Prop).

Fixpoint acts {A} (m : proc S A) : Prop :=
  match m with
  | PRet _ => True
  | PAtom f k => ∀ s, G s (f s) ∧ acts (k s)
  end.

Lemma acts_ret {A} (a : A) : acts (mret a).
Proof. done. Qed.

Lemma acts_bind {A B} (m : proc S A) (k : A → proc S B) : acts m → (∀ a, acts (k a)) → acts (m ≫= k).
Proof.
  intros Hm Hk. unfold mbind, proc_bind. induction m as [a|f m IH]; simpl; [apply Hk|]. intros s. destruct (Hm s) as [? ?]. split; [done|]. by apply IH.
Qed.

Lemma acts_atom {A} (f : S → A * S) : (∀ s, G s (f s).2) → acts (atom f).
Proof. intros H s. split; [apply H|done]. Qed.

Lemma acts_case {A} (b : bool) (m m' : proc S A) : acts m → acts m' → acts (if b then m else m').
Proof. by destruct b. Qed.

Lemma acts_iter {A} (body : A → proc S ()) l : (∀ a, acts (body a)) → acts (proc_iter body l).
Proof. intros H. induction l as [|a l IH]; cbn [proc_iter]; [apply acts_ret|]. apply acts_bind; [done|]. intros []. apply IH. Qed.
End acts.

Lemma acts_mono {S A} (G G' : S → S → Prop) (m : proc S A) : (∀ s s', G s s' → G' s s') → acts G m → acts G' m.
Proof. intros H. induction m as [a|f m IH]; simpl; [done|]. intros Hm s. destruct (Hm s). split; [by apply H|]. by apply IH. Qed.

(** A procedure run alone takes steps of its guarantee. *)
Lemma acts_run {S A} (G : S → S → Prop) (m : proc S A) s : acts G m → rtc G s (run m s).2.
Proof. revert s. induction m as [a|f m IH]; intros s; simpl; [done|]. intros Hm. destruct (Hm s) as [H Hk]. eapply rtc_l; [exact H|]. by apply IH. Qed.

(** ** A procedure on a part of the state *)

Section lift.
Context {S T : Type} (get : T → S) (put : S → T → T) (get_put : ∀ s t, get (put s t) = s).

Fixpoint lift {A} (m : proc S A) : proc T A :=
  match m with
  | PRet a => PRet a
  | PAtom f k => PAtom (λ t, put (f (get t)) t) (λ t, lift (k (get t)))
  end.

Lemma acts_lift {A} (G : S → S → Prop) (G' : T → T → Prop) (m : proc S A) :
  acts G m → (∀ s t, G (get t) s → G' t (put s t)) → acts G' (lift m).
Proof. intros Hm HG. induction m as [a|f k IH]; simpl; [done|]. intros t. destruct (Hm (get t)) as [? ?]. split; [by apply HG|by apply IH]. Qed.

(** The invariant and the rely of the part come from those of the whole; [P]
    is about the rest. *)
Lemma wp_lift {A} (I : S → Prop) (R G : S → S → Prop) (I' P : T → Prop) (R' : T → T → Prop) (m : proc S A) Q t :
  (∀ t, I' t → I (get t)) → (∀ t t', I' t → R' t t' → R (get t) (get t')) → (∀ t t', I' t → R' t t' → I' t') →
  (∀ t t', I' t → P t → R' t t' → P t') →
  (∀ s t, I' t → P t → I s → G (get t) s → I' (put s t) ∧ P (put s t)) →
  I' t → P t → acts G m → wp I R m Q (get t) → wp I' R' (lift m) (λ a t, P t ∧ Q a (get t)) t.
Proof.
  intros HI HR HRI HRP HG Hi Hp Ha Hw. revert t Hi Hp Ha Hw. induction m as [a|f k IH]; intros t Hi Hp Ha Hw; simpl; [done|].
  intros t' Hr Hi'. assert (Hr' : rtc R (get t) (get t') ∧ P t').
  { clear Hw Ha. induction Hr as [|x y z Hxy Hyz IHr]; [done|]. pose proof (HRI _ _ Hi Hxy) as Hy.
    destruct (IHr Hy (HRP _ _ Hi Hp Hxy) Hi') as [? ?]. split; [|done]. eapply rtc_l; [by apply HR|done]. }
  destruct Hr' as [Hr' Hp']. destruct (Hw _ Hr' (HI _ Hi')) as [Hif Hwk]. destruct (Ha (get t')) as [Hg Hak].
  destruct (HG _ _ Hi' Hp' Hif Hg) as [Hi'' Hp'']. split; [done|]. apply IH; [done..|]. by rewrite get_put.
Qed.

Lemma run_lift {A} (m : proc S A) t :
  (∀ s s' t, put s (put s' t) = put s t) → (∀ t, put (get t) t = t) → run (lift m) t = let '(a, s) := run m (get t) in (a, put s t).
Proof.
  intros Hpp Hpg. revert t. induction m as [a|f k IH]; intros t; simpl; [by rewrite Hpg|]. rewrite IH, get_put.
  destruct (run (k (get t)) (f (get t))) as [a s]. by rewrite Hpp.
Qed.
End lift.

(** ** Interleavings *)

Section pool.
Context {S A : Type} (I : S → Prop) (R G : nat → S → S → Prop).
Context (GR : ∀ i j s s', i ≠ j → I s → I s' → G i s s' → R j s s').

(** One procedure of the pool takes its next action. *)
Inductive pool_step : list (proc S A) * S → list (proc S A) * S → Prop :=
  | pool_act i f k p s : p !! i = Some (PAtom f k) → pool_step (p, s) (<[i := k s]> p, f s).

Lemma wp_rely {B} (R' : S → S → Prop) (m : proc S B) s s' : R' s s' → wp I R' m (λ _ _, True) s → wp I R' m (λ _ _, True) s'.
Proof. destruct m as [a|f k]; simpl; [done|]. intros Hs Hw s'' Hr Hi. apply Hw; [by eapply rtc_l|done]. Qed.

Definition pool_ok (ps : list (proc S A) * S) : Prop :=
  I ps.2 ∧ ∀ i m, ps.1 !! i = Some m → acts (G i) m ∧ wp I (R i) m (λ _ _, True) ps.2.

Lemma pool_step_ok ps ps' : pool_ok ps → pool_step ps ps' → pool_ok ps'.
Proof.
  intros [Hi Hp] Hstep. destruct Hstep as [i f k p s Hm]. cbn [fst snd] in *. destruct (Hp i _ Hm) as [Ha Hw]. simpl in Ha, Hw.
  destruct (Hw s (rtc_refl _ _) Hi) as [Hi' Hwk]. destruct (Ha s) as [Hg Hak]. split; [done|]. intros j m Hj. cbn [fst snd] in *.
  destruct (decide (i = j)) as [<-|Hij].
  - rewrite list_lookup_insert_eq in Hj; [|by eapply lookup_lt_Some]. injection Hj as <-. done.
  - rewrite list_lookup_insert_ne in Hj by done. destruct (Hp j m Hj) as [Haj Hwj]. split; [done|].
    eapply wp_rely; [|exact Hwj]. by eapply GR.
Qed.

(** The invariant holds at every moment of every interleaving. *)
Lemma pool_inv ps ps' : pool_ok ps → rtc pool_step ps ps' → I ps'.2.
Proof. intros H Hr. induction Hr as [|x y z Hxy _ IH]; [apply H|]. apply IH. by eapply pool_step_ok. Qed.
End pool.
