(* ===== verification/Lifecycle.v ===== *)
(** * Lifecycle: src/launcher_lifecycle.go and the lifecycle methods of src/app.go

    The enabled transitions and the checked deletions of Launchers and
    Principals.  They hold lifecycleMu, but the data plane (operations) runs
    beside them: every call that takes the database, the supervisor's or the
    coordinator's mutex, and every docker command, is one atomic action of a
    procedure over the daemon's state. *)
From S2P Require Import Prelude Filepath AllowedRoots GoStrings WorkspacePolicy Database Credential Launcher MacLifecycle Session PrincipalStore Operation Proc.
Local Open Scope Z_scope.

(** ** Helper containers *)

Record helperContainer := mkContainer { hc_ID : string; hc_State : string }.

Inductive helperContainerState := helperStateStale | helperStateActive | helperStateUnknown.
#[export] Instance helperContainerState_eq_dec : EqDecision helperContainerState.
Proof. solve_decision. Defined.

Definition classifyHelperContainerState (state : string) : helperContainerState :=
  if bool_decide (state = "created" ∨ state = "exited" ∨ state = "dead") then helperStateStale
  else if bool_decide (state = "running" ∨ state = "paused" ∨ state = "restarting" ∨ state = "removing")
  then helperStateActive
  else helperStateUnknown.

(** The lines of [docker ps --format "{{.ID}} {{.State}}"]. *)
Fixpoint parse_ps_lines (lines : list string) : result (list helperContainer) :=
  match lines with
  | [] => Ok []
  | line :: lines =>
      if bool_decide (TrimSpace line = "") then parse_ps_lines lines
      else match Fields line with
      | [id; state] => l ← parse_ps_lines lines; mret (mkContainer id state :: l)
      | _ => errorf "unexpected docker ps output" []
      end
  end.

Definition parse_ps (out : string) : result (list helperContainer) :=
  let trimmed := TrimSpace out in
  if bool_decide (trimmed = "") then Ok [] else parse_ps_lines (split_byte "010"%char trimmed).

(** ** The durable transition of a Launcher *)

Record launcherEnabledChangeResult := mkLauncherChange {
  lec_Changed : bool; lec_RevokedSessionIDs : list string; lec_AdmissionClosed : option bool }.

Definition set_name (name : string) (r : launcher_row) : launcher_row :=
  mkLauncher (l_principal_id r) name (l_enabled r) (l_scope_mode r) (l_created_at r).
Definition set_launcher_enabled (b : bool) (r : launcher_row) : launcher_row :=
  mkLauncher (l_principal_id r) (l_name r) b (l_scope_mode r) (l_created_at r).

(** [UPDATE launchers SET name = ?]. *)
Definition update_launcher_name (lid name : string) : DB unit :=
  stmt (λ d, match launchers d !! lid with
             | Some r =>
                 if negb (launcher_check (set_name name r)) then Err constraint_error
                 else if launcher_name_taken (set_name name r) (delete lid (launchers d)) then Err unique_error
                 else Ok ((), set_launchers (<[lid := set_name name r]> (launchers d)) d)
             | None => Ok ((), d)
             end).

(** [UPDATE launchers SET enabled = ?]. *)
Definition update_launcher_enabled (lid : string) (b : bool) : DB unit :=
  stmt (λ d, match launchers d !! lid with
             | Some r =>
                 if launcher_check (set_launcher_enabled b r)
                 then Ok ((), set_launchers (<[lid := set_launcher_enabled b r]> (launchers d)) d)
                 else Err constraint_error
             | None => Ok ((), d)
             end).

Definition session_of_launcher (lid : string) (d : db) (id : string) : bool :=
  match sessions d !! id with Some row => bool_decide (s_launcher_id row = lid) | None => false end.

Definition launcher_session_ids (lid : string) : DB (list string) :=
  wrapf "cannot query launcher sessions" []
    (query (λ d, filter (λ id, Is_true (session_of_launcher lid d id)) (map_to_list (sessions d)).*1)).

Definition delete_launcher_sessions (lid : string) : DB unit :=
  wrapf "cannot delete launcher sessions" []
    (stmt (λ d, Ok ((), drop_sessions (session_of_launcher lid d) d))).

(** The requested rename. *)
Definition rename_step (lid : string) (name : option string) : DB unit := λ d f,
  match name with
  | None => (Ok (), d, f)
  | Some n =>
      match update_launcher_name lid n d f with
      | (Err e, d, f) =>
          ((if isSQLiteUniqueError e then errorf "launcher already exists for principal" [ErrLauncherExists]
            else Err (wrap_error "cannot update launcher name" [] e)), d, f)
      | r => r
      end
  end.

(** The requested enabled state, with the rows read before. *)
Definition enabled_step (lid : string) (cur : bool) (principalEnabled : bool) (enabled : option bool)
    : DB launcherEnabledChangeResult :=
  match enabled with
  | None => mret (mkLauncherChange false [] None)
  | Some b =>
      let changed := negb (bool_decide (cur = b)) in
      ids ← (if b then mret []
             else ids ← launcher_session_ids lid; _ ← delete_launcher_sessions lid; mret ids : DB (list string));
      _ ← (if changed then wrapf "cannot update launcher enabled" [] (update_launcher_enabled lid b) else mret () : DB unit);
      mret (mkLauncherChange changed ids (Some (negb principalEnabled || negb b)))
  end.

Definition persistLauncherChange (launcherID : string) (name : option string) (enabled : option bool)
    : DB launcherEnabledChangeResult :=
  if bool_decide (launcherID = "") then db_fail "launcher not found" [ErrLauncherNotFound]
  else
    _ ← db_result (match name with
                   | Some n => _ ← validateLauncherName n; Ok ()
                   | None => Ok ()
                   end);
    transaction "cannot begin transaction" "cannot commit launcher change"
      (row ← wrapf "cannot read launcher enabled state" [] (query (launcher_join launcherID));
       match row with
       | None => db_fail "launcher not found" [ErrLauncherNotFound]
       | Some (l, p) =>
           _ ← rename_step launcherID name;
           enabled_step launcherID (l_enabled l) (p_enabled p) enabled
       end).

(** [DELETE FROM launchers WHERE id = ?] in its transaction; the commit error
    is returned bare. *)
Definition delete_launcher_stmt (lid : string) : DB unit :=
  stmt (λ d, if negb (sessions_allow (λ l, bool_decide (l = lid)) d) then Err constraint_error
             else Ok ((), cascade_launchers (λ l, bool_decide (l = lid)) d)).

Definition deleteLauncherRow (launcherID : string) : DB unit :=
  transaction "cannot begin transaction" "sqlite"
    (ex ← wrapf "cannot check launcher" [] (query (λ d, bool_decide (is_Some (launchers d !! launcherID))));
     if ex : bool then wrapf "cannot delete launcher" [] (delete_launcher_stmt launcherID)
     else db_fail "launcher not found" [ErrLauncherNotFound]).

Definition effective_closed (lid : string) (d : db) : bool :=
  match launcher_join lid d with Some (l, p) => negb (p_enabled p) || negb (l_enabled l) | None => true end.

Definition effectiveLauncherClosed (launcherID : string) : DB bool :=
  wrapf "cannot read launcher authorities" [] (query (effective_closed launcherID)).

Definition principalLaunchers (principalID : Z) : DB (list string) :=
  wrapf "cannot query principal launchers" []
    (query (λ d, omap (λ kv, if bool_decide (l_principal_id kv.2 = principalID) then Some kv.1 else None)
                   (map_to_list (launchers d)))).

Definition principalLaunchersByUsername (username : string) : DB (list string) :=
  principalID ← findPrincipalIDByUsername username;
  principalLaunchers principalID.

(** ** The daemon's state *)

(** [a_removed] lists the containers [docker rm -f] removed, [a_requests] the
    Launcher of the Session each data-plane request in flight has resolved. *)
Record app (W : Type) := mkApp {
  a_mac : mac W; a_sup : sup; a_removed : list string; a_requests : list string }.
Arguments mkApp {W}. Arguments a_mac {W}. Arguments a_sup {W}. Arguments a_removed {W}. Arguments a_requests {W}.

(** What the docker CLI answers: the output of [docker ps] filtered on a
    Launcher's label, and whether [docker rm -f] of a container succeeds. *)
Record docker := mkDocker { docker_ps : string → option string; docker_rm : string → bool }.

Section app.
Context {W : Type} `{!sessionMACDriver W} (dk : docker).
Abbreviation P A := (proc (app W) A).

Definition a_db (a : app W) : db := m_db (a_mac a).

Definition on_mac {A} (f : mac W → A * mac W) : P A :=
  atom (λ a, let '(r, m) := f (a_mac a) in (r, mkApp m (a_sup a) (a_removed a) (a_requests a))).
Definition call_db {A} (m : DB A) : P (result A) := on_mac (on_db m).
Definition on_sup (f : sup → sup) : P unit :=
  atom (λ a, ((), mkApp (a_mac a) (f (a_sup a)) (a_removed a) (a_requests a))).
Definition get_sup {A} (q : sup → A) : P A := atom (λ a, (q (a_sup a), a)).

(** Early return on an error. *)
Definition p_try {A B} (m : P (result A)) (fail : error → P B) (k : A → P B) : P B :=
  r ← m; match r with Ok a => k a | Err e => fail e end.
Definition p_fail {A} (e : error) : P (result A) := mret (Err e).

(** ** Bindings and admission *)

Definition releaseSessionBindings (sessionIDs : list string) : P unit :=
  proc_iter (λ id, on_mac (λ m, ((), ReleaseSessionBinding id m))) sessionIDs.

Definition quiesce (lid : string) : P unit := on_sup (quiesceLauncher lid).

(** A failed re-read is logged and leaves the admission as it is. *)
Definition syncLauncherAdmission (launcherID : string) : P (result unit) :=
  p_try (call_db (effectiveLauncherClosed launcherID)) p_fail
    (λ closed, _ ← on_sup (setQuiesced launcherID closed); mret (Ok ())).

Definition restoreLauncherAdmissionAfterRefusal (launcherID : string) : P unit :=
  _ ← syncLauncherAdmission launcherID; mret ().

Definition restoreLauncherAdmissionAfterPrincipalRefusal (launchers : list string) : P unit :=
  proc_iter restoreLauncherAdmissionAfterRefusal launchers.

(** ** The enabled transition of a Launcher *)

Definition applyLauncherEnabledChange (launcherID : string) (enabled : bool) : P (result launcherEnabledChangeResult) :=
  p_try (call_db (persistLauncherChange launcherID None (Some enabled))) p_fail
    (λ r, _ ← releaseSessionBindings (lec_RevokedSessionIDs r); mret (Ok r)).

Definition with_change (name : option string) (enabled : option bool) (l : LauncherWithPrincipal) : LauncherWithPrincipal :=
  mkLauncherP (lp_ID l) (lp_PrincipalID l) (lp_PrincipalName l) (default (lp_Name l) name) (default (lp_Enabled l) enabled)
    (lp_ScopeMode l) (lp_AllowedRoots l) (lp_CreatedAt l).

Definition updateLauncherWithLifecycleLocked (launcherID : string) (name : option string) (enabled : option bool)
    : P (result (LauncherWithPrincipal * list string)) :=
  p_try (call_db (findLauncherByID launcherID)) p_fail (λ cur,
  let disabling := bool_decide (enabled = Some false) in
  _ ← (if disabling then quiesce launcherID else mret ());
  p_try (call_db (persistLauncherChange launcherID name enabled))
    (λ e, _ ← (if disabling then restoreLauncherAdmissionAfterRefusal launcherID else mret ()); p_fail e)
    (λ r,
     _ ← releaseSessionBindings (lec_RevokedSessionIDs r);
     _ ← (if bool_decide (enabled = Some true)
          then on_sup (setQuiesced launcherID (default false (lec_AdmissionClosed r))) else mret ());
     mret (Ok (with_change name enabled cur, lec_RevokedSessionIDs r)))).

(** ** Inspection *)

Definition inspectHelperContainersForLauncher (launcherID : string) : result (list helperContainer) :=
  match docker_ps dk launcherID with
  | None => errorf "cannot inspect helper containers" []
  | Some out => parse_ps out
  end.

Record launcherRuntimeInspection := mkInspection { li_containers : list helperContainer; li_active : bool }.

(** The first container that is not stale decides. *)
Fixpoint classify_containers (containers : list helperContainer) : result bool :=
  match containers with
  | [] => Ok false
  | c :: containers =>
      match classifyHelperContainerState (hc_State c) with
      | helperStateActive => Ok true
      | helperStateUnknown => errorf "cannot classify helper container state" []
      | helperStateStale => classify_containers containers
      end
  end.

(** [hasRunningForLauncher] reads the registry under the supervisor's mutex and
    then each candidate under its own. *)
Definition candidates (launcherID : string) (s : sup) : list op_ref :=
  filter (λ o, match heap s !! o with
               | Some op => bool_decide (op_LauncherID op = launcherID)
               | None => false
               end = true) (op_list s).
Definition op_running (o : op_ref) (s : sup) : bool :=
  match heap s !! o with Some op => bool_decide (op_State op = operationRunning) | None => false end.

Fixpoint any_running (l : list op_ref) : P bool :=
  match l with
  | [] => mret false
  | o :: l => running ← get_sup (op_running o); if running : bool then mret true else any_running l
  end.

Definition has_running (launcherID : string) : P bool :=
  l ← get_sup (candidates launcherID);
  any_running l.

Definition inspectLauncherRuntime (launcherID : string) : P (result launcherRuntimeInspection) :=
  running ← has_running launcherID;
  if running : bool then mret (Ok (mkInspection [] true))
  else mret (containers ← inspectHelperContainersForLauncher launcherID;
             active ← classify_containers containers;
             Ok (mkInspection containers active)).

Definition rm_container (id : string) : P bool :=
  atom (λ a, if docker_rm dk id then (true, mkApp (a_mac a) (a_sup a) (a_removed a ++ [id]) (a_requests a)) else (false, a)).

Fixpoint removeStaleHelperContainers (containers : list helperContainer) : P (result unit) :=
  match containers with
  | [] => mret (Ok ())
  | c :: containers =>
      if bool_decide (classifyHelperContainerState (hc_State c) ≠ helperStateStale)
      then mret (errorf "helper container is not in a removable state" [])
      else
        ok ← rm_container (hc_ID c);
        if ok : bool then removeStaleHelperContainers containers
        else mret (errorf "cannot remove stale helper container" [])
  end.

(** ** The checked deletion of a Launcher *)

Definition disableLauncherLocked (launcherID : string) : P (result (list string)) :=
  _ ← quiesce launcherID;
  p_try (applyLauncherEnabledChange launcherID false)
    (λ e, _ ← restoreLauncherAdmissionAfterRefusal launcherID; p_fail e)
    (λ r, mret (Ok (lec_RevokedSessionIDs r))).

(** Both results of the Go function are meaningful. *)
Definition refuse_delete (launchers : list string) (e : error) : P (list string * option error) :=
  _ ← restoreLauncherAdmissionAfterPrincipalRefusal launchers; mret ([], Some e).

Definition errLauncherRuntimeActive : error := mkError "launcher runtime active" [ErrLauncherRuntimeActive].

Definition deleteLauncherCheckedLocked (launcherID : string) : P (list string * option error) :=
  _ ← quiesce launcherID;
  p_try (inspectLauncherRuntime launcherID)
    (λ e, refuse_delete [launcherID] (wrap_error "cannot inspect launcher runtime" [] e)) (λ inspection,
  if li_active inspection then refuse_delete [launcherID] errLauncherRuntimeActive
  else
    p_try (removeStaleHelperContainers (li_containers inspection)) (refuse_delete [launcherID]) (λ _,
    p_try (disableLauncherLocked launcherID) (λ e, mret ([], Some e)) (λ revoked,
    p_try (call_db (deleteLauncherRow launcherID)) (λ e, mret (revoked, Some e)) (λ _,
    mret (revoked, None))))).

(** ** The transitions of a Principal *)

Definition applyPrincipalEnabledChange (username : string) (enabled : bool) : P (result principalEnabledChangeResult) :=
  p_try (call_db (persistPrincipalEnabledChange username enabled)) p_fail
    (λ r, _ ← (if pec_Changed r then releaseSessionBindings (pec_RevokedSessionIDs r) else mret ()); mret (Ok r)).

Definition deletePrincipalWithMAC (username : string) : P (result (list string)) :=
  p_try (call_db (deletePrincipal username)) p_fail
    (λ ids, _ ← releaseSessionBindings ids; mret (Ok ids)).

(** The check phase: the inspections in order, or the refusal. *)
Fixpoint inspect_launchers (all launchers : list string)
    : P (list (string * launcherRuntimeInspection) + error) :=
  match launchers with
  | [] => mret (inl [])
  | lid :: launchers =>
      p_try (inspectLauncherRuntime lid)
        (λ e, _ ← restoreLauncherAdmissionAfterPrincipalRefusal all;
              mret (inr (wrap_error "cannot inspect principal runtime" [] e))) (λ inspection,
      if li_active inspection then
        _ ← restoreLauncherAdmissionAfterPrincipalRefusal all; mret (inr errLauncherRuntimeActive)
      else
        rest ← inspect_launchers all launchers;
        mret (match rest with inl l => inl ((lid, inspection) :: l) | inr e => inr e end))
  end.

Fixpoint remove_stale_all (all : list string) (l : list (string * launcherRuntimeInspection)) : P (option error) :=
  match l with
  | [] => mret None
  | (_, inspection) :: l =>
      p_try (removeStaleHelperContainers (li_containers inspection))
        (λ e, _ ← restoreLauncherAdmissionAfterPrincipalRefusal all; mret (Some e))
        (λ _, remove_stale_all all l)
  end.

(** The durable disables: the revoked Sessions so far accompany a failure. *)
Fixpoint disable_all (launchers : list string) (revokedAll : list string) : P (list string * option error) :=
  match launchers with
  | [] => mret (revokedAll, None)
  | lid :: launchers =>
      p_try (disableLauncherLocked lid)
        (λ e, _ ← restoreLauncherAdmissionAfterPrincipalRefusal launchers; mret (revokedAll, Some e))
        (λ revoked, disable_all launchers (revokedAll ++ revoked))
  end.

Definition deletePrincipalCheckedLocked (username : string) : P (list string * option error) :=
  p_try (call_db (findPrincipalIDByUsername username)) (λ e, mret ([], Some e)) (λ principalID,
  p_try (call_db (principalLaunchers principalID)) (λ e, mret ([], Some e)) (λ launchers,
  _ ← proc_iter quiesce launchers;
  inspections ← inspect_launchers launchers launchers;
  match inspections with
  | inr e => mret ([], Some e)
  | inl l =>
      removed ← remove_stale_all launchers l;
      match removed with
      | Some e => mret ([], Some e)
      | None =>
          r ← disable_all launchers [];
          match r with
          | (revokedAll, Some e) => mret (revokedAll, Some e)
          | (revokedAll, None) =>
              p_try (deletePrincipalWithMAC username) (λ e, mret (revokedAll, Some e)) (λ _, mret (revokedAll, None))
          end
      end
  end)).

Definition disablePrincipalLaunchersLocked (username : string) : P (result principalEnabledChangeResult) :=
  p_try (call_db (principalLaunchersByUsername username)) p_fail (λ launchers,
  _ ← proc_iter quiesce launchers;
  p_try (applyPrincipalEnabledChange username false)
    (λ e, _ ← restoreLauncherAdmissionAfterPrincipalRefusal launchers; p_fail e)
    (λ r, mret (Ok r))).

Definition enablePrincipalLaunchersLocked (username : string) : P (result principalEnabledChangeResult) :=
  p_try (applyPrincipalEnabledChange username true) p_fail (λ r,
  _ ← proc_iter (λ la, on_sup (setQuiesced (la_Launcher la) (la_Closed la))) (pec_LauncherAdmissions r);
  mret (Ok r)).

End app.
