(* ===== verification/LifecyclePolicy.v ===== *)
(** * LifecyclePolicy: the Launcher operations keep the ownership invariant

    Row updates, the validation of a requested root set and the mutations of
    src/launcher.go under the lifecycle lock. *)
From S2P Require Import Prelude Filepath AllowedRoots AllowedRootsTheory Database SnapshotStore GoStrings WorkspacePolicy Credential Launcher Session PrincipalStore LauncherStore DbHoare OwnershipTheory Lifecycle.
Local Open Scope Z_scope.

Section inv.
Context (G : list AllowedRootEntry) (HG : valid_entries G).
Implicit Types d : db.

(** Replacing a Launcher row under the same Principal. *)
Lemma update_launcher_inv d lid r r' :
  policy_inv G d → launchers d !! lid = Some r → l_principal_id r' = l_principal_id r → launcher_check r' = true →
  (l_scope_mode r' = LauncherScopeRestricted ∨ ∀ p, launcher_allowed_roots d !! (lid, p) = None) →
  ((l_enabled r = true → l_enabled r' = true) ∨ ∀ sid row, sessions d !! sid = Some row → s_launcher_id row ≠ lid) →
  policy_inv G (set_launchers (<[lid := r']> (launchers d)) d).
Proof.
  intros [H1 H2 H3 H4 H5] Hr Hp Hc Hs He. split; simpl; [done|done| | |].
  - intros lid' l [[<- <-]|[_ Hl]]%lookup_insert_Some; [|eauto]. rewrite Hp. split; [by eapply H3|done].
  - intros lid' p a Hl. destruct (H4 _ _ _ Hl) as (? & ? & l & El & Er & Hw). split_and!; [done..|].
    destruct (decide (lid = lid')) as [<-|Hne]; [|exists l; by rewrite lookup_insert_ne].
    exists r'. rewrite lookup_insert_eq. assert (l = r) as -> by congruence. split_and!; [done| |by rewrite Hp].
    destruct Hs as [?|Hs]; [done|]. by rewrite Hs in Hl.
  - intros sid row Hrow. specialize (H5 _ _ Hrow). unfold launcher_available, launcher_join in *. simpl.
    destruct (decide (lid = s_launcher_id row)) as [E|Hne]; [|by rewrite lookup_insert_ne].
    rewrite <-E, lookup_insert_eq, Hp. rewrite <-E, Hr in H5. destruct (principals d !! l_principal_id r); [|done].
    apply andb_true_iff in H5 as [Hl ->]. destruct He as [He|He]; [by rewrite He|]. by destruct (He _ _ Hrow).
Qed.

Lemma clear_roots_inv d lid :
  policy_inv G d →
  policy_inv G (set_launcher_roots (filter (λ kv : string * string * string, kv.1.1 ≠ lid) (launcher_allowed_roots d)) d).
Proof.
  intros [H1 H2 H3 H4 H5]. split; simpl; [done..| |done].
  intros lid' p a [Hl _]%map_lookup_filter_Some. by apply (H4 lid').
Qed.

(** ** A requested root set *)

(** What every accepted entry satisfies. *)
Definition accepted_entry (C : list string) (e : AllowedRootEntry) : Prop :=
  canonical (Path e) = true ∧ isValid (Access e) = true ∧ isWithinAnyAllowedRoot (Path e) C = true.

Lemma validate_entries_ok h C seen l k : host_ok h → validate_entries h C seen l = Ok k → Forall (accepted_entry C) k.
Proof.
  intros Hh. revert seen k. induction l as [|e l IH]; intros seen k; simpl; [intros [= <-]; constructor|].
  destruct (isValid (Access e)) eqn:Hv; [|done]. simpl.
  destruct (validatePrincipalAllowedRootForAdd h (Path e)) as [q|] eqn:Hq; [|done]. simpl.
  destruct (isWithinAnyAllowedRoot q C) eqn:Hw; [|done]. simpl. destruct (seen !! q).
  - case_bool_decide; [done|]. apply IH.
  - destruct (validate_entries h C _ l) as [k'|] eqn:E; [|done]. intros [= <-].
    constructor; [|by eapply IH]. split_and!; [|done..]. by eapply add_root_canonical.
Qed.

Lemma validated_roots_ok h C l k : host_ok h → validateLauncherAllowedRootEntries h l C = Ok k → Forall (accepted_entry C) k.
Proof.
  intros Hh. unfold validateLauncherAllowedRootEntries. case_bool_decide; [done|].
  destruct (validate_entries h C ∅ l) as [k'|] eqn:E; [|done]. simpl. intros [= <-].
  rewrite sort_perm. by eapply validate_entries_ok.
Qed.

(** The ceiling [C] of the Principal [pid] in the tables. *)
Definition ceiling_of (pid : Z) (C : list string) (d : db) : Prop :=
  ∀ p, canonical p = true → isWithinAnyAllowedRoot p C = true → stored_within d pid p.

Definition scoped (pid : Z) (C : list string) (lid : string) (r : launcher_row) (d : db) : Prop :=
  policy_inv G d ∧ ceiling_of pid C d ∧ launchers d !! lid = Some r ∧ l_principal_id r = pid.

Lemma insert_roots_triple pid C lid r roots :
  l_scope_mode r = LauncherScopeRestricted ∨ roots = [] → Forall (accepted_entry C) roots →
  triple (λ _, True) (scoped pid C lid r) (insert_roots lid roots) (λ _, scoped pid C lid r).
Proof.
  intros Hs Ha. unfold insert_roots. induction Ha as [|e roots (Hc & Hv & Hw) Ha IH]; simpl; [by apply triple_ret|].
  destruct Hs as [Hs|]; [|done]. apply triple_bind with (Q := λ _, scoped pid C lid r); [|intros; apply IH; by left].
  apply triple_bind with (Q := λ _, scoped pid C lid r); [|intros; by apply triple_ret].
  apply triple_wrapf, triple_stmt; [done|]. intros d b d' (Hi & Hcl & Hl & Hp). rewrite Hv. simpl.
  case_bool_decide; [done|]. case_bool_decide; [done|]. intros [= _ <-]. split_and!; [|done..].
  eapply insert_launcher_root_inv; [done..| |done]. rewrite Hp. by apply Hcl.
Qed.

Lemma found_launcher_triple lid :
  triple (policy_inv G) (policy_inv G) (findLauncherByID lid)
    (λ cur d, policy_inv G d ∧ ∃ r, launchers d !! lp_ID cur = Some r ∧ l_principal_id r = lp_PrincipalID cur).
Proof.
  intros d f Hi. unfold findLauncherByID. case_bool_decide; [done|].
  destruct (launcherFromRow _ d f) as [[[cur|e] d'] f'] eqn:E.
  - revert E. unfold launcherFromRow. intros (row & d1 & f1 & Hq & H1)%db_bind_ok.
    apply wrapf_ok, query_ok in Hq as (-> & -> & _).
    destruct (launcher_select _ d) as [[[i r] p]|] eqn:E; [|done].
    apply db_bind_ok in H1 as (roots & d2 & f2 & Hq & H1). apply wrapf_ok, query_ok in Hq as (_ & -> & _).
    injection H1 as <- <- _. split; [done|]. exists r. simpl. split; [|done]. unfold launcher_select in E.
    destruct (find_row _ (launchers d)) as [[i' r']|] eqn:Ef; [|done].
    destruct (principals d !! l_principal_id r'); [|done]. injection E as -> -> ->. by apply find_row_Some in Ef as [? _].
  - revert E. unfold launcherFromRow, mbind, db_bind.
    pose proof (reads_wrapf "cannot find launcher" [] _ (reads_query (launcher_select (λ i _, bool_decide (i = lid)))) d f) as Hr.
    destruct (wrapf _ _ (query _) d f) as [[[row|e1] d1] f1]; simpl in Hr; subst; [|by intros [= _ <- _]].
    destruct row as [[[i l] p]|]; [|by intros [= _ <- _]].
    pose proof (reads_launcher_roots i d f1) as Hr2. destruct (readLauncherAllowedRoots i d f1) as [[[rs|e2] d2] f2]; simpl in Hr2; subst.
    + done.
    + by intros [= _ <- _].
Qed.

Lemma ceiling_triple h globals pid (F : db → Prop) :
  resolveAllowedRootEntries h globals = Ok G →
  triple (policy_inv G) (λ d, policy_inv G d ∧ F d) (resolveEffectivePrincipalRoots h globals pid)
    (λ C d, policy_inv G d ∧ F d ∧ ceiling_of pid C d).
Proof.
  intros Hg. unfold resolveEffectivePrincipalRoots, resolveEffectivePrincipalRootEntries. rewrite Hg.
  intros d f [Hi HF]. unfold mbind, db_bind, db_result.
  pose proof (reads_principal_roots pid d f) as Hr.
  destruct (readPrincipalAllowedRoots pid d f) as [[[stored|e] d'] f'] eqn:E; simpl in *; subst; [|done].
  apply read_principal_roots_ok in E as [-> _]. split_and!; [done|done|]. intros p Hp Hw. by apply (stored_within_ceiling G).
Qed.

(** ** The mutations *)

Lemma keep_create_launcher h globals draws now pid name scope roots issue :
  host_ok h → resolveAllowedRootEntries h globals = Ok G →
  preserves (policy_inv G) (createLauncherWithLifecycle h globals draws now pid name scope roots issue).
Proof.
  intros Hh Hg. unfold createLauncherWithLifecycle.
  apply triple_bind with (Q := λ C d, policy_inv G d ∧ True ∧ ceiling_of pid C d).
  { eapply triple_weaken; [apply (ceiling_triple h globals pid (λ _, True) Hg)|done|done|done]. }
  intros C. set (P := λ d, policy_inv G d ∧ True ∧ ceiling_of pid C d). unfold createLauncher.
  apply triple_result_bind; [by intros d []|]. intros n _. apply triple_case; [by apply triple_fail; intros d []|].
  apply triple_bind with (Q := λ _, P).
  { apply reads_triple; [|by intros d []|done]. unfold findPrincipalByID.
    apply reads_bind; [apply reads_wrapf, reads_query|]. intros []; [apply reads_ret|apply reads_fail]. }
  intros owner. apply triple_result_bind; [by intros d []|]. intros canon Hcanon.
  apply triple_result_bind; [by intros d []|]. intros id _.
  assert (Hacc : (scope = LauncherScopeRestricted ∨ canon = []) ∧ Forall (accepted_entry C) canon).
  { case_bool_decide as Es; case_bool_decide; try done.
    - split; [by left|]. by eapply validated_roots_ok.
    - injection Hcanon as <-. split; [by right|constructor]. }
  apply triple_weaken with (E' := P) (P' := P) (Q' := λ _, policy_inv G); [|done|by intros d []|done].
  apply triple_transaction. set (row := mkLauncher pid n true scope now).
  apply triple_bind with (Q := λ _, scoped pid C id row).
  { apply (triple_map_error (λ _, True) P).
    - intros d f (Hi & _ & Hc). pose proof (keep_insert_launcher G false id row d f Hi) as Hk.
      destruct (insert_launcher false id row d f) as [[[[]|e] d'] f'] eqn:E; [|done].
      apply stmt_ok in E as [E _]. destruct (launcher_check row); simpl in E; [|done].
      destruct (_ || _); simpl in E; [done|]. case_bool_decide; [done|]. injection E as <-.
      split_and!; [done|done| |done]. simpl. by rewrite lookup_insert_eq.
    - intros e. destruct (isSQLiteUniqueError e); eexists; reflexivity. }
  intros _. apply triple_bind with (Q := λ _, scoped pid C id row).
  { destruct Hacc as [Hs Ha]. case_bool_decide; [|by apply triple_ret]. by apply insert_roots_triple. }
  intros _. eapply triple_weaken with (E' := policy_inv G) (P' := policy_inv G) (Q' := λ _, policy_inv G); [|by intros d []|done|done].
  apply preserves_bind; [|intros; apply preserves_ret]. destruct issue; [|apply preserves_ret].
  apply preserves_bind; [apply keep_launcher_credential|]. intros ?; apply preserves_ret.
Qed.

Lemma update_scope_ok lid scope d f u d' f' r :
  launchers d !! lid = Some r → update_scope lid scope d f = (Ok u, d', f') →
  launcher_check (set_scope scope r) = true ∧ d' = set_launchers (<[lid := set_scope scope r]> (launchers d)) d.
Proof. intros Hr [E _]%stmt_ok. rewrite Hr in E. destruct (launcher_check _); [|done]. by injection E as _ <-. Qed.

Lemma keep_replace_scope h globals lid scope entries :
  host_ok h → resolveAllowedRootEntries h globals = Ok G →
  preserves (policy_inv G) (replaceLauncherScopeWithLifecycle h globals lid scope entries).
Proof.
  intros Hh Hg. unfold replaceLauncherScopeWithLifecycle. eapply triple_bind; [apply found_launcher_triple|].
  intros cur. set (F := λ d, ∃ r, launchers d !! lp_ID cur = Some r ∧ l_principal_id r = lp_PrincipalID cur).
  eapply triple_bind; [apply (ceiling_triple h globals (lp_PrincipalID cur) F Hg)|].
  intros C. set (P := λ d, policy_inv G d ∧ F d ∧ ceiling_of (lp_PrincipalID cur) C d).
  unfold replaceLauncherScope. apply triple_case; [by apply triple_fail; intros d []|].
  apply triple_result_bind; [by intros d []|]. intros canon Hcanon.
  assert (Hacc : (scope = LauncherScopeRestricted ∨ canon = []) ∧ Forall (accepted_entry C) canon).
  { case_bool_decide as Es; case_bool_decide; try done.
    - split; [by left|]. by eapply validated_roots_ok.
    - injection Hcanon as <-. split; [by right|constructor]. }
  apply triple_weaken with (E' := P) (P' := P) (Q' := λ _, policy_inv G); [|done|by intros d []|done].
  apply triple_transaction.
  intros d f (Hi & (r & Hr & Hp) & Hc).
  match goal with |- match ?x with _ => _ end => destruct x as [[[res|e] d'] f'] eqn:E; [|done] end.
  apply db_bind_ok in E as (u1 & d1 & f1 & H1 & E). apply wrapf_ok in H1.
  apply (update_scope_ok _ _ _ _ _ _ _ r Hr) in H1 as [Hck ->].
  apply db_bind_ok in E as (u2 & d2 & f2 & H2 & E). apply wrapf_ok, exec_ok in H2 as [[= <-] _].
  apply db_bind_ok in E as (u3 & d3 & f3 & H3 & E). injection E as _ <- _.
  destruct Hacc as [Hs Ha].
  pose proof (insert_roots_triple (lp_PrincipalID cur) C (lp_ID cur) (set_scope scope r) canon Hs Ha) as Ht.
  match type of H3 with insert_roots _ _ ?d0 _ = _ => specialize (Ht d0 f2) end. rewrite H3 in Ht. apply Ht.
  split_and!; [|done|simpl; by rewrite lookup_insert_eq|done].
  pose proof (update_launcher_inv (set_launcher_roots (filter (λ kv : string * string * string, kv.1.1 ≠ lp_ID cur)
           (launcher_allowed_roots d)) d) (lp_ID cur) r (set_scope scope r)) as Hu.
  apply Hu; [by apply clear_roots_inv|done|done|done| |by left].
  right. intros p. apply map_lookup_filter_None. right. simpl. naive_solver.
Qed.

Lemma keep_add_launcher_root h globals lid p a :
  host_ok h → resolveAllowedRootEntries h globals = Ok G →
  preserves (policy_inv G) (addLauncherAllowedRootWithLifecycle h globals lid p a).
Proof.
  intros Hh Hg. unfold addLauncherAllowedRootWithLifecycle. eapply triple_bind; [apply found_launcher_triple|].
  intros cur. set (F := λ d, ∃ r, launchers d !! lp_ID cur = Some r ∧ l_principal_id r = lp_PrincipalID cur).
  eapply triple_bind; [apply (ceiling_triple h globals (lp_PrincipalID cur) F Hg)|].
  intros C. set (P := λ d, policy_inv G d ∧ F d ∧ ceiling_of (lp_PrincipalID cur) C d).
  unfold addLauncherAllowedRoot. apply triple_case; [by apply triple_fail; intros d []|].
  apply triple_result_bind; [by intros d []|]. intros q Hq.
  destruct (isWithinAnyAllowedRoot q C) eqn:Ew; [|by apply triple_fail; intros d []]. simpl.
  apply triple_bind with (Q := λ _, policy_inv G).
  2: { intros []; [by apply triple_ret|]. apply preserves_bind; [|intros; apply preserves_ret].
       apply preserves_wrapf, preserves_stmt. intros d b d' Hi. by destruct (_ !! _); intros [= _ <-]. }
  apply triple_weaken with (E' := P) (P' := P) (Q' := λ _, policy_inv G); [|done|by intros d []|done].
  apply triple_transaction. intros d f (Hi & (r & Hr & Hp) & Hc).
  match goal with |- match ?x with _ => _ end => destruct x as [[[res|e] d'] f'] eqn:E; [|done] end.
  apply db_bind_ok in E as (aff & d1 & f1 & H1 & E). apply wrapf_ok, stmt_ok in H1 as [H1 _].
  apply db_bind_ok in E as (u2 & d2 & f2 & H2 & E). injection E as _ <- _.
  destruct (isValid a) eqn:Hv; simpl in H1; [|injection H1 as <- <-; by injection H2 as _ <- _].
  case_bool_decide; [injection H1 as <- <-; by injection H2 as _ <- _|].
  case_bool_decide; [done|]. injection H1 as <- <-. apply wrapf_ok in H2.
  apply (update_scope_ok _ _ _ _ _ _ _ r) in H2 as [Hck ->]; [|done].
  pose proof (update_launcher_inv d (lp_ID cur) r (set_scope LauncherScopeRestricted r) Hi Hr eq_refl Hck
    (or_introl eq_refl) (or_introl (λ H, H))) as Hi1.
  apply (insert_launcher_root_inv G (lp_ID cur) q a _ (set_scope LauncherScopeRestricted r)) in Hi1;
    [exact Hi1|by eapply add_root_canonical|simpl; by rewrite lookup_insert_eq|done| |done].
  simpl. rewrite Hp. apply Hc; [by eapply add_root_canonical|done].
Qed.

Lemma keep_found {A} lid (m : DB A) : preserves (policy_inv G) m → preserves (policy_inv G) (_ ← findLauncherByID lid; m).
Proof.
  intros Hm. apply preserves_bind; [|done].
  eapply triple_weaken; [apply found_launcher_triple|done|done|by intros ?? []].
Qed.

Lemma keep_remove_launcher_root h lid p : preserves (policy_inv G) (removeLauncherAllowedRootWithLifecycle h lid p).
Proof.
  apply keep_found. unfold removeLauncherAllowedRoot. repeat (apply triple_case; [apply preserves_fail|]).
  apply preserves_bind; [apply preserves_result|]. intros q.
  apply preserves_bind; [apply preserves_wrapf, keep_delete_launcher_root|]. intros b. apply preserves_ret.
Qed.

Lemma keep_set_launcher_access h lid p a : preserves (policy_inv G) (setLauncherAllowedRootAccessWithLifecycle h lid p a).
Proof.
  apply keep_found. unfold setLauncherAllowedRootAccess. repeat (apply triple_case; [apply preserves_fail|]).
  apply preserves_bind; [apply preserves_result|]. intros q. apply preserves_bind.
  { apply keep_stored_or_not_found, preserves_wrapf, preserves_stmt. intros d b d' Hi. by destruct (_ !! _); intros [= _ <-]. }
  intros stored. apply triple_case; [apply preserves_ret|].
  apply preserves_bind; [apply preserves_wrapf, keep_update_launcher_root|]. intros []; [apply preserves_ret|apply preserves_fail].
Qed.

(** ** The Session statements *)

Lemma keep_insert_session id row c snap : preserves (policy_inv G) (insertSession id row c snap).
Proof.
  apply preserves_transaction. apply preserves_bind.
  { apply preserves_stmt. intros d b d' [H1 H2 H3 H4 H5]. destruct (launcher_available _ d) eqn:Ea; simpl; [|by intros [= _ <-]].
    destruct (credential_clause c d); [|by intros [= _ <-]]. destruct (_ || _); [done|]. intros [= _ <-].
    split; simpl; [done..|]. intros sid row' [[<- <-]|[_ Hs]]%lookup_insert_Some; [exact Ea|by apply (H5 sid)]. }
  intros [].
  - apply preserves_wrapf. unfold insertSessionFilesystemSnapshot. apply preserves_bind.
    + apply preserves_iter. intros [i e] _. apply exec_triple; [done|].
      intros d d' Hi Hd. unfold insert_entry in Hd. repeat case_match; try done. injection Hd as <-. by apply (policy_inv_ext G d).
    + intros _. apply exec_triple; [done|]. intros d d' Hi Hd. unfold insert_meta in Hd.
      repeat case_match; try done. injection Hd as <-. by apply (policy_inv_ext G d).
  - apply preserves_wrapf. unfold classifyStaleSessionCreateAuthority.
    apply preserves_bind; [apply preserves_wrapf, preserves_query|]. intros b. destruct (negb b); [apply preserves_fail|].
    destruct c as [ca|]; [|apply preserves_fail]. apply preserves_bind; [apply preserves_wrapf, preserves_query|].
    intros [r|]; [|apply preserves_fail]. destruct (is_active r); apply preserves_fail.
Qed.

Lemma keep_delete_session id scope : preserves (policy_inv G) (delete_session_db id scope).
Proof.
  unfold delete_session_db. apply preserves_bind.
  { unfold findSessionInScope. apply preserves_bind; [apply preserves_wrapf, preserves_query|].
    intros []; [apply preserves_ret|apply preserves_fail]. }
  intros s. apply preserves_bind; [|intros []; [apply preserves_ret|apply preserves_fail]].
  apply preserves_wrapf, preserves_stmt. intros d b d' [H1 H2 H3 H4 H5].
  destruct (sessions d !! id); [|by intros [= _ <-]]. destruct (sessionDeletePredicate scope _ d); [|by intros [= _ <-]].
  intros [= _ <-]. split; simpl; [done..|]. intros sid row [_ Hs]%lookup_delete_Some. by apply (H5 sid).
Qed.

Lemma keep_cleanup_expired now : preserves (policy_inv G) (cleanupExpiredSessions now).
Proof.
  apply preserves_wrapf. apply (keep_drop_sessions G (λ d, size (filter (λ kv : string * session_row, Is_true (expired now d kv.1)) (sessions d)))
    (expired now)).
Qed.

End inv.

(** ** The lifecycle statements keep the ownership invariant *)

Section inv.
Context (G : list AllowedRootEntry).
Implicit Types d : db.

(** No Session of the Launcher. *)
Definition no_sessions (lid : string) (d : db) : Prop :=
  ∀ sid row, sessions d !! sid = Some row → s_launcher_id row ≠ lid.

Lemma drop_launcher_sessions lid d : no_sessions lid (drop_sessions (session_of_launcher lid d) d).
Proof.
  intros sid row [Hs Hg]%map_lookup_filter_Some. simpl in Hg. unfold session_of_launcher in Hg. rewrite Hs in Hg.
  intros E. apply Hg. by rewrite bool_decide_eq_true_2.
Qed.

Lemma keep_update_name lid n : preserves (policy_inv G) (update_launcher_name lid n).
Proof.
  apply preserves_stmt. intros d [] d' Hi. destruct (launchers d !! lid) as [r|] eqn:Hr; [|by intros [= <-]].
  destruct (launcher_check (set_name n r)) eqn:Hc; [|done]. simpl.
  destruct (launcher_name_taken _ _); [done|]. intros [= <-].
  eapply update_launcher_inv; [done..| |by left].
  destruct (decide (l_scope_mode r = LauncherScopeRestricted)) as [E|E]; [by left|right].
  intros p. destruct (launcher_allowed_roots d !! (lid, p)) as [a|] eqn:El; [|done].
  apply (pi_lroots _ _ Hi) in El as (_ & _ & l & ? & ? & _). congruence.
Qed.

Lemma rename_triple lid name : preserves (policy_inv G) (rename_step lid name).
Proof.
  unfold rename_step. destruct name as [n|]; [|apply preserves_ret].
  apply (triple_map_error (policy_inv G) (policy_inv G)); [apply keep_update_name|].
  intros e. destruct (isSQLiteUniqueError e); eexists; reflexivity.
Qed.

Lemma update_enabled_inv lid b d d' :
  policy_inv G d → (b = true ∨ no_sessions lid d) →
  match launchers d !! lid with
  | Some r => if launcher_check (set_launcher_enabled b r)
              then Ok ((), set_launchers (<[lid := set_launcher_enabled b r]> (launchers d)) d) else Err constraint_error
  | None => Ok ((), d)
  end = Ok ((), d') → policy_inv G d'.
Proof.
  intros Hi Hs. destruct (launchers d !! lid) as [r|] eqn:Hr; [|by intros [= <-]].
  destruct (launcher_check _) eqn:Hc; [|done]. intros [= <-].
  eapply update_launcher_inv; [done..| |].
  - destruct (decide (l_scope_mode r = LauncherScopeRestricted)) as [E|E]; [by left|right].
    intros p. destruct (launcher_allowed_roots d !! (lid, p)) as [a|] eqn:El; [|done].
    apply (pi_lroots _ _ Hi) in El as (_ & _ & l & ? & ? & _). congruence.
  - destruct Hs as [->|Hs]; [by left|by right].
Qed.

Lemma keep_enabled_step lid cur pe en : preserves (policy_inv G) (enabled_step lid cur pe en).
Proof.
  unfold enabled_step. destruct en as [b|]; [|apply preserves_ret].
  apply triple_bind with (Q := λ _ d, policy_inv G d ∧ (b = true ∨ no_sessions lid d)).
  { destruct b; [apply triple_ret; auto|]. apply triple_bind with (Q := λ _, policy_inv G); [apply preserves_wrapf, preserves_query|].
    intros ids. apply triple_bind with (Q := λ _ d, policy_inv G d ∧ (false = true ∨ no_sessions lid d)); [|intros []; by apply triple_ret].
    apply triple_wrapf, triple_stmt; [done|]. intros d [] d' Hi [= <-]. split; [by apply drop_sessions_inv|].
    right. apply drop_launcher_sessions. }
  intros ids. apply triple_bind with (Q := λ _, policy_inv G); [|intros; by apply triple_ret].
  destruct (negb _); [|by apply triple_ret; intros d []].
  apply triple_wrapf, triple_stmt; [by intros d []|]. intros d [] d' [Hi Hs]. by apply update_enabled_inv.
Qed.

Lemma keep_persist_launcher_change lid name en : preserves (policy_inv G) (persistLauncherChange lid name en).
Proof.
  unfold persistLauncherChange. apply triple_case; [apply preserves_fail|].
  apply preserves_bind; [apply preserves_result|]. intros [].
  apply preserves_transaction, preserves_bind; [apply preserves_wrapf, preserves_query|].
  intros [[l p]|]; [|apply preserves_fail]. apply preserves_bind; [apply rename_triple|]. intros []. apply keep_enabled_step.
Qed.

Lemma keep_delete_launcher_stmt lid : preserves (policy_inv G) (delete_launcher_stmt lid).
Proof.
  apply preserves_stmt. intros d [] d' [H1 H2 H3 H4 H5]. unfold sessions_allow.
  destruct (existsb _ _) eqn:Ee; [done|]. simpl. intros [= <-]. rewrite existsb_rows_false in Ee.
  assert (Hk : ∀ l r, launchers d !! l = Some r → l ≠ lid →
    filter (λ kv : string * launcher_row, ¬ Is_true (bool_decide (kv.1 = lid))) (launchers d) !! l = Some r).
  { intros l r Hl Hne. apply map_lookup_filter_Some. split; [done|]. simpl.
    rewrite bool_decide_eq_false_2 by done. by intros []. }
  split; simpl; [done|done| | |].
  - intros l r [Hl _]%map_lookup_filter_Some. eauto.
  - intros l p a [Hl Hg]%map_lookup_filter_Some. simpl in Hg. destruct (H4 _ _ _ Hl) as (? & ? & r & Hr & ?).
    split_and!; [done..|]. exists r. split; [|done]. apply Hk; [done|]. intros ->. apply Hg. by rewrite bool_decide_eq_true_2.
  - intros sid row Hs. specialize (H5 _ _ Hs). specialize (Ee _ _ Hs). simpl in Ee. apply bool_decide_eq_false_1 in Ee.
    unfold launcher_available, launcher_join in *. simpl.
    destruct (launchers d !! s_launcher_id row) as [r|] eqn:El; [|done]. by rewrite (Hk _ _ El).
Qed.

Lemma keep_delete_launcher_row lid : preserves (policy_inv G) (deleteLauncherRow lid).
Proof.
  unfold deleteLauncherRow. apply preserves_transaction, preserves_bind; [apply preserves_wrapf, preserves_query|].
  intros []; [apply preserves_wrapf, keep_delete_launcher_stmt|apply preserves_fail].
Qed.

End inv.
