(* ===== verification/OwnershipSpec.v ===== *)
(** * OwnershipSpec: the ownership policy as a state machine

    The configured global roots and the tables, stepped by every operation of
    the ownership control plane, by the Session statements and by loading a
    configuration (startup or reload), whatever statement fails.  The file
    system may differ from step to step, as long as the configured roots do not
    resolve elsewhere. *)
From S2P Require Import Prelude Filepath AllowedRoots AllowedRootsTheory GoStrings WorkspacePolicy Database Credential Launcher Session PrincipalStore LauncherStore CredentialSpec SnapshotStore DbHoare OwnershipTheory LifecyclePolicy Config Json ConfigTheory Lifecycle.
Local Open Scope Z_scope.

(** ** The operations *)

Inductive policy_op (h : host) (G : list AllowedRootEntry) : ∀ {A : Type}, DB A → Prop :=
  | op_create_principal os draws now newID name issue :
      0 < newID → policy_op h G (createPrincipalWithLifecycle h G os draws now newID name issue)
  | op_add_principal_root name p a : policy_op h G (addPrincipalAllowedRootWithLifecycle h G name p a)
  | op_remove_principal_root name p : policy_op h G (removePrincipalAllowedRootWithLifecycle h G name p)
  | op_set_principal_access name p a : policy_op h G (setPrincipalAllowedRootAccessWithLifecycle h name p a)
  | op_principal_enabled name b : policy_op h G (persistPrincipalEnabledChange name b)
  | op_delete_principal name : policy_op h G (deletePrincipal name)
  | op_create_launcher draws now pid name scope roots issue :
      policy_op h G (createLauncherWithLifecycle h G draws now pid name scope roots issue)
  | op_replace_scope lid scope entries : policy_op h G (replaceLauncherScopeWithLifecycle h G lid scope entries)
  | op_add_launcher_root lid p a : policy_op h G (addLauncherAllowedRootWithLifecycle h G lid p a)
  | op_remove_launcher_root lid p : policy_op h G (removeLauncherAllowedRootWithLifecycle h lid p)
  | op_set_launcher_access lid p a : policy_op h G (setLauncherAllowedRootAccessWithLifecycle h lid p a)
  | op_launcher_change lid name enabled : policy_op h G (persistLauncherChange lid name enabled)
  | op_delete_launcher lid : policy_op h G (deleteLauncherRow lid)
  | op_default_launchers draws now : policy_op h G (migrateDefaultLaunchers draws now)
  | op_create_credential td idd now name cn : policy_op h G (createPrincipalCredential td idd now name cn)
  | op_revoke_credential now id : policy_op h G (revokePrincipalCredential now id)
  | op_rotate_credential td pid name : policy_op h G (rotatePrincipalCredential td pid name)
  | op_rotate_launcher_credential td lid cid : policy_op h G (rotateLauncherCredentialTargeted td lid cid)
  | op_issue_credential td idd now lid : policy_op h G (issueLauncherCredential td idd now lid)
  | op_delete_credential lid : policy_op h G (deleteLauncherCredential lid)
  | op_insert_session id row c snap : policy_op h G (insertSession id row c snap)
  | op_delete_session id scope : policy_op h G (delete_session_db id scope)
  | op_cleanup_sessions now : policy_op h G (cleanupExpiredSessions now).

Record policy := mkPolicy { globals : list AllowedRootEntry; tables : db }.

(** The configured roots resolve to themselves or not at all. *)
Definition same_roots (h : host) (G : list AllowedRootEntry) : Prop :=
  ∀ r, resolveAllowedRootEntries h G = Ok r → r = G.

Inductive policy_step : policy → policy → Prop :=
  | step_op h A (m : DB A) G d f r d' f' :
      host_ok h → same_roots h G → policy_op h G m → m d f = (r, d', f') →
      policy_step (mkPolicy G d) (mkPolicy G d')
  | step_load h fraction data G G' d f r d' f' :
      host_ok h → host_links h → load_allowed_roots h fraction data = Ok G' →
      reconcileStoredAllowedRootsToGlobalCeiling h G' d f = (r, d', f') →
      policy_step (mkPolicy G d) (mkPolicy (if is_ok r then G' else G) d').

(** No configuration and no rows before the first startup. *)
Definition policy_reachable : policy → Prop := rtc policy_step (mkPolicy [] empty_db).

(** ** Every step keeps the invariant *)

Lemma triple_false {A} (E : db → Prop) (m : DB A) Q : triple E (λ _, False) m Q.
Proof. by intros d f. Qed.

Lemma ceiling_fails {P : db → Prop} h globals pid e :
  resolveAllowedRootEntries h globals = Err e →
  triple P P (resolveEffectivePrincipalRoots h globals pid) (λ _ _, False).
Proof.
  intros He. unfold resolveEffectivePrincipalRoots, resolveEffectivePrincipalRootEntries. rewrite He. by intros d f.
Qed.

Lemma resolve_paths_entries h l :
  resolveAllowedRootPaths h (allowedRootPaths l) =
  match resolveAllowedRootEntries h l with Ok r => Ok (allowedRootPaths r) | Err e => Err e end.
Proof.
  induction l as [|e l IH]; simpl; [done|]. destruct (evalSymlinksFn h (Path e)) as [q|]; [|done].
  fold (allowedRootPaths l). rewrite IH. by destruct (resolveAllowedRootEntries h l).
Qed.

(** The swap of a rotation is kept or undone, whatever the commit says. *)
Lemma preserves_rotation (P : db → Prop) replace deliver :
  preserves P replace → preserves P (rotate_no_delivery (commitCredentialRotationAfterDelivery replace deliver)).
Proof.
  intros Hr d f Hi. unfold rotate_no_delivery, commitCredentialRotationAfterDelivery.
  destruct (stmt (λ d, Ok ((), d)) d f) as [[[[]|e] d0] f0] eqn:Eb; [|by apply stmt_err in Eb as [-> _]].
  apply stmt_ok in Eb as [[= <-] _].
  specialize (Hr d f0 Hi). destruct (replace d f0) as [[[[]|e] d1] f1]; [|done].
  destruct (negb deliver); [done|]. destruct (stmt (λ d, Ok ((), d)) d1 f1) as [[[[]|e] d2] f2] eqn:Es;
    [|by destruct (match f2 with true :: _ => true | _ => false end)].
  by apply stmt_ok in Es as [[= <-] _].
Qed.

Section keep.
Context (G : list AllowedRootEntry) (HG : valid_entries G).

Lemma keep_update_credential id P u : preserves (policy_inv G) (update_credential id P u).
Proof. apply keep_credentials. intros d a d'. intros Hb. exists (credentials d'). revert Hb. repeat case_match; intros [= _ <-]; by destruct d. Qed.

Lemma keep_delete_credential lid : preserves (policy_inv G) (deleteLauncherCredential lid).
Proof.
  apply preserves_transaction, preserves_bind; [apply preserves_query|]. intros row.
  apply preserves_bind; [destruct row; [apply preserves_ret|apply preserves_fail]|]. intros cred.
  apply preserves_bind; [|intros []; [apply preserves_ret|apply preserves_fail]].
  apply preserves_wrapf, keep_credentials. intros d a d' [= _ <-]. by eexists.
Qed.

Lemma keep_replace_hash {A} id P u (k : bool → DB A) t :
  (∀ b, preserves (policy_inv G) (k b)) → preserves (policy_inv G) (b ← wrapf t [] (update_credential id P u); k b).
Proof. intros Hk. apply preserves_bind; [apply preserves_wrapf, keep_update_credential|done]. Qed.

Lemma keep_rotate_principal td pid name : preserves (policy_inv G) (rotatePrincipalCredential td pid name).
Proof.
  unfold rotatePrincipalCredential. apply preserves_bind.
  { apply preserves_reads. unfold preparePrincipalCredentialRotation.
    repeat first [apply reads_wrapf | apply reads_query | apply reads_ret | apply reads_fail
      | (apply reads_bind; [|intros ?]) | (by intros ??) | case_match]. }
  intros [[[cred eh] tok] nh]. apply preserves_bind; [|intros; apply preserves_ret].
  apply preserves_rotation, keep_replace_hash. intros []; [apply preserves_ret|apply preserves_fail].
Qed.

Lemma keep_rotate_launcher td lid cid : preserves (policy_inv G) (rotateLauncherCredentialTargeted td lid cid).
Proof.
  unfold rotateLauncherCredentialTargeted. apply preserves_bind.
  { apply preserves_reads. unfold prepareLauncherCredentialRotation.
    repeat first [apply reads_wrapf | apply reads_query | apply reads_ret | apply reads_fail
      | (apply reads_bind; [|intros ?]) | (by intros ??) | case_match]. }
  intros [[[cred eh] tok] nh]. apply preserves_bind; [|intros; apply preserves_ret].
  apply preserves_rotation, keep_replace_hash. intros []; [apply preserves_ret|apply preserves_fail].
Qed.

Lemma keep_revoke_credential now id : preserves (policy_inv G) (revokePrincipalCredential now id).
Proof.
  unfold revokePrincipalCredential. repeat first
    [apply keep_update_credential | apply preserves_transaction | apply preserves_wrapf | apply preserves_query
    | apply preserves_ret | apply preserves_fail | (apply preserves_bind; [|intros ?]) | case_match].
Qed.

Lemma keep_backfill draws now pids n : preserves (policy_inv G) (backfill_defaults draws now pids n).
Proof.
  revert draws n. induction pids as [|pid pids IH]; intros draws n; cbn [backfill_defaults]; [apply preserves_ret|].
  intros d f Hi. pose proof (reads_bind _ _ (reads_query (λ d, find_row (λ _ l, bool_decide (l_principal_id l = pid ∧
    l_name l = defaultLauncherName)) (launchers d))) (λ row, match row as r return reads (match r with
      | None => db_fail "launcher not found" [ErrLauncherNotFound] | Some (id, _) => mret id end) with
      | None => reads_fail _ _ | Some (id, _) => reads_ret id end) d f) as Hr.
  change ((findDefaultLauncher pid d f).1.2 = d) in Hr.
  destruct (findDefaultLauncher pid d f) as [[[id|e] d1] f1]; simpl in Hr; subst d1; [by apply IH|].
  destruct (negb _); [done|].
  pose proof (preserves_wrapf (policy_inv G) "cannot provision default Launcher for principal" [] _
    (keep_default_launcher G (default None (head draws)) now pid) d f1 Hi) as Hk.
  destruct (wrapf _ _ _ d f1) as [[[id|e2] d2] f2]; [by apply IH|done].
Qed.

Lemma keep_policy_op h A (m : DB A) :
  host_ok h → same_roots h G → policy_op h G m → preserves (policy_inv G) m.
Proof.
  intros Hh Hs Hop. unfold same_roots in Hs.
  assert (Hr : resolveAllowedRootEntries h G = Ok G ∨ ∃ e, resolveAllowedRootEntries h G = Err e).
  { destruct (resolveAllowedRootEntries h G) as [r|e]; [left; by rewrite (Hs r)|by right; exists e]. }
  assert (Hfound : ∀ lid, triple (policy_inv G) (policy_inv G) (findLauncherByID lid) (λ _, policy_inv G)).
  { intros lid. eapply triple_weaken; [apply found_launcher_triple|done|done|by intros ?? []]. }
  destruct Hop.
  - unfold createPrincipalWithLifecycle. apply preserves_result_bind. intros r E. apply Hs in E as ->. by apply keep_create_principal.
  - unfold addPrincipalAllowedRootWithLifecycle. rewrite resolve_paths_entries.
    apply preserves_result_bind. intros r E. destruct Hr as [Hr|[e Hr]]; rewrite Hr in E; [|done]. injection E as <-.
    by apply keep_add_principal_root.
  - unfold removePrincipalAllowedRootWithLifecycle. apply preserves_result_bind. intros r E. apply Hs in E as ->.
    by apply keep_remove_principal_root.
  - apply keep_set_principal_access.
  - apply keep_enabled_change.
  - apply keep_delete_principal.
  - destruct Hr as [Hr|[e Hr]]; [by apply keep_create_launcher|]. unfold createLauncherWithLifecycle.
    eapply triple_bind; [by eapply ceiling_fails|]. intros C. apply triple_false.
  - destruct Hr as [Hr|[e Hr]]; [by apply keep_replace_scope|]. unfold replaceLauncherScopeWithLifecycle.
    eapply triple_bind; [apply Hfound|]. intros cur. eapply triple_bind; [by eapply ceiling_fails|]. intros C. apply triple_false.
  - destruct Hr as [Hr|[e Hr]]; [by apply keep_add_launcher_root|]. unfold addLauncherAllowedRootWithLifecycle.
    eapply triple_bind; [apply Hfound|]. intros cur. eapply triple_bind; [by eapply ceiling_fails|]. intros C. apply triple_false.
  - apply keep_remove_launcher_root.
  - apply keep_set_launcher_access.
  - apply keep_persist_launcher_change.
  - apply keep_delete_launcher_row.
  - unfold migrateDefaultLaunchers. apply preserves_bind; [apply preserves_wrapf, preserves_query|]. intros pids. apply keep_backfill.
  - unfold createPrincipalCredential. apply preserves_transaction, preserves_bind; [apply preserves_reads, reads_principal_id_tx|].
    intros pid. apply keep_principal_credential.
  - apply keep_revoke_credential.
  - apply keep_rotate_principal.
  - apply keep_rotate_launcher.
  - unfold issueLauncherCredential. apply preserves_transaction, preserves_bind; [apply preserves_wrapf, preserves_query|].
    intros []; [apply keep_launcher_credential|apply preserves_fail].
  - apply keep_delete_credential.
  - apply keep_insert_session.
  - apply keep_delete_session.
  - apply keep_cleanup_expired.
Qed.

End keep.

Lemma policy_step_inv s s' :
  valid_entries (globals s) ∧ policy_inv (globals s) (tables s) → policy_step s s' →
  valid_entries (globals s') ∧ policy_inv (globals s') (tables s').
Proof.
  intros [HG Hi] Hs. destruct Hs as [h A m G d f r d' f' Hh Hsame Hop Hm|h fr data G G' d f r d' f' Hh Hlinks Hl Hm]; simpl in *.
  - split; [done|]. pose proof (keep_policy_op G HG h A m Hh Hsame Hop d f Hi) as Hk. rewrite Hm in Hk. by destruct r.
  - apply load_roots_ok in Hl as (HG' & _ & Hres); [|done].
    assert (HE : resolveAllowedRootEntries h G' = Ok G').
    { apply resolve_entries_fixed; [done|]. intros e He. by apply Hres. }
    destruct r as [c|e]; simpl.
    + split; [done|]. by eapply (reconcile_inv h G G' G').
    + split; [done|]. revert Hm. unfold reconcileStoredAllowedRootsToGlobalCeiling. rewrite HE.
      unfold mbind at 1, db_bind at 1, db_result at 1. intros Hm.
      pose proof (transaction_atomic "cannot begin allowed-root reconciliation" "cannot commit allowed-root reconciliation"
        (pruneStoredAllowedRootsToCeilings G' 0) d f) as Ht. rewrite Hm in Ht. by subst.
Qed.

Lemma policy_reachable_inv s : policy_reachable s → valid_entries (globals s) ∧ policy_inv (globals s) (tables s).
Proof.
  unfold policy_reachable. intros Hr. remember (mkPolicy [] empty_db) as s0 eqn:E0.
  assert (H0 : valid_entries (globals s0) ∧ policy_inv (globals s0) (tables s0)).
  { subst s0. split; [|apply empty_inv]. split; [by intros ? ?%not_elem_of_nil..|constructor]. }
  clear E0. induction Hr as [|x y z Hxy _ IH]; [done|]. by apply IH, (policy_step_inv x).
Qed.

(** ** The rows that refer to owners and Sessions

    The foreign keys of the credentials and of the snapshot tables, kept by
    every statement. *)

(** A credential has one owner, which exists. *)
Definition owned (d : db) (r : credential_row) : Prop :=
  (∃ pid n, c_principal_id r = Some pid ∧ c_launcher_id r = None ∧ c_name r = Some n ∧ is_Some (principals d !! pid)) ∨
  (∃ lid, c_principal_id r = None ∧ c_launcher_id r = Some lid ∧ c_name r = None ∧ is_Some (launchers d !! lid)).

Record rows_refer (d : db) : Prop := {
  rr_credentials : ∀ id r, credentials d !! id = Some r → owned d r;
  rr_entries : ∀ sid n e, snapshot_entries d !! (sid, n) = Some e → is_Some (sessions d !! sid);
  rr_meta : ∀ sid m, snapshot_meta d !! sid = Some m → is_Some (sessions d !! sid) }.

Definition same_owner (r r' : credential_row) : Prop :=
  c_principal_id r = c_principal_id r' ∧ c_launcher_id r = c_launcher_id r' ∧ c_name r = c_name r'.

(** Keys may come, and no row but of known owners and Sessions. *)
Lemma rows_mono d d' :
  (∀ pid, is_Some (principals d !! pid) → is_Some (principals d' !! pid)) →
  (∀ lid, is_Some (launchers d !! lid) → is_Some (launchers d' !! lid)) →
  (∀ id r, credentials d' !! id = Some r → ∃ i r0, credentials d !! i = Some r0 ∧ same_owner r r0) →
  snapshot_entries d' = snapshot_entries d → snapshot_meta d' = snapshot_meta d →
  (∀ sid, is_Some (sessions d !! sid) → is_Some (sessions d' !! sid)) →
  rows_refer d → rows_refer d'.
Proof.
  intros Hp Hl Hc He Hm Hs [H1 H2 H3]. split; [|rewrite He; eauto|rewrite Hm; eauto].
  intros id r (i & r0 & Hi & E1 & E2 & E3)%Hc. unfold owned. rewrite E1, E2, E3. destruct (H1 _ _ Hi) as [Ho|Ho]; [left|right]; naive_solver.
Qed.

Lemma rows_mono_same d d' :
  (∀ pid, is_Some (principals d !! pid) → is_Some (principals d' !! pid)) →
  (∀ lid, is_Some (launchers d !! lid) → is_Some (launchers d' !! lid)) →
  credentials d' = credentials d → snapshot_entries d' = snapshot_entries d → snapshot_meta d' = snapshot_meta d →
  sessions d' = sessions d → rows_refer d → rows_refer d'.
Proof.
  intros Hp Hl Hc He Hm Hs. apply rows_mono; [done..| |done|done|by rewrite Hs].
  rewrite Hc. intros id r Hr. by exists id, r.
Qed.

Lemma insert_keeps {K A} `{Countable K} (m : gmap K A) i x j : is_Some (m !! j) → is_Some (<[i := x]> m !! j).
Proof. intros Hj. rewrite lookup_insert. by case_decide. Qed.

(** A statement that writes a row of a table nothing here reads, or adds a key. *)
Ltac refer_stmt :=
  apply preserves_stmt; intros d ? d' Hi; cbv zeta; repeat case_match; intros ?; simplify_eq; try exact Hi;
  apply (rows_mono_same d); simpl; try done; intros ?; first [done | apply insert_keeps | idtac].

Lemma refer_insert_principal n r : preserves rows_refer (insert_principal n r).
Proof. unfold insert_principal. refer_stmt. Qed.
Lemma refer_insert_principal_root i pid p a : preserves rows_refer (insert_principal_root i pid p a).
Proof. unfold insert_principal_root. refer_stmt. Qed.
Lemma refer_update_principal_root pid p a : preserves rows_refer (update_principal_root pid p a).
Proof. unfold update_principal_root. refer_stmt. Qed.
Lemma refer_delete_principal_root pid p : preserves rows_refer (delete_principal_root pid p).
Proof. unfold delete_principal_root. refer_stmt. Qed.
Lemma refer_insert_launcher i id r : preserves rows_refer (insert_launcher i id r).
Proof. unfold insert_launcher. refer_stmt. Qed.
Lemma refer_insert_launcher_root i lid p a : preserves rows_refer (insert_launcher_root i lid p a).
Proof. unfold insert_launcher_root. refer_stmt. Qed.
Lemma refer_update_launcher_root lid p a : preserves rows_refer (update_launcher_root lid p a).
Proof. unfold update_launcher_root. refer_stmt. Qed.
Lemma refer_delete_launcher_root lid p : preserves rows_refer (delete_launcher_root lid p).
Proof. unfold delete_launcher_root. refer_stmt. Qed.
Lemma refer_clear_launcher_roots lid : preserves rows_refer (clear_launcher_roots lid).
Proof. unfold clear_launcher_roots, exec. refer_stmt. Qed.
Lemma refer_update_scope lid scope : preserves rows_refer (update_scope lid scope).
Proof. unfold update_scope. refer_stmt. Qed.
Lemma refer_update_name lid name : preserves rows_refer (update_launcher_name lid name).
Proof. unfold update_launcher_name. refer_stmt. Qed.
Lemma refer_update_enabled lid b : preserves rows_refer (update_launcher_enabled lid b).
Proof. unfold update_launcher_enabled. refer_stmt. Qed.
Lemma refer_set_enabled pid b :
  preserves rows_refer (exec (λ d, Some (set_principals (alter (set_enabled b) pid (principals d)) d))).
Proof. unfold exec. refer_stmt. by apply lookup_alter_is_Some. Qed.
Lemma refer_insert_session_row id row c : preserves rows_refer (insert_session_row id row c).
Proof.
  unfold insert_session_row. apply preserves_stmt. intros d b d' Hi. repeat case_match; intros ?; simplify_eq; [|done].
  apply (rows_mono d); simpl; try done; [|intros sid; apply insert_keeps]. intros i r Hr. by exists i, r.
Qed.

(** Removed Sessions take their snapshot rows with them. *)
Lemma refer_drop {A} (a : db → A) (gone : db → string → bool) :
  preserves rows_refer (stmt (λ d, Ok (a d, drop_sessions (gone d) d))).
Proof.
  apply preserves_stmt. intros d b d' [H1 H2 H3] [= _ <-]. split; simpl; [exact H1|..].
  - intros sid n e [He Hg]%map_lookup_filter_Some. simpl in Hg. destruct (H2 _ _ _ He) as [row Hr].
    exists row. by apply map_lookup_filter_Some.
  - intros sid m [Hm Hg]%map_lookup_filter_Some. simpl in Hg. destruct (H3 _ _ Hm) as [row Hr].
    exists row. by apply map_lookup_filter_Some.
Qed.

Lemma refer_delete_session_row id scope : preserves rows_refer (delete_session_row id scope).
Proof.
  unfold delete_session_row. apply preserves_stmt. intros d b d' Hi. repeat case_match; intros ?; simplify_eq; try exact Hi.
  destruct Hi as [H1 H2 H3]. split; simpl; [exact H1|..].
  - intros sid n e [He Hg]%map_lookup_filter_Some. simpl in Hg. rewrite lookup_delete_ne by done. by eapply H2.
  - intros sid m [Hne Hm]%lookup_delete_Some. rewrite lookup_delete_ne by done. by eapply H3.
Qed.

Lemma refer_insert_entry sid n e : preserves rows_refer (exec (insert_entry sid n e)).
Proof.
  apply exec_triple; [done|]. intros d d' [H1 H2 H3]. unfold insert_entry.
  destruct (negb _); [done|]. case_bool_decide as Es; [done|]. repeat (destruct (_ : bool); [done|]). intros [= <-].
  split; simpl; [exact H1| |exact H3]. intros sid' n' e' [[[= <- <-] _]|[_ He]]%lookup_insert_Some; [|by eapply H2].
  by apply not_eq_None_Some.
Qed.

Lemma refer_insert_meta sid n digest : preserves rows_refer (exec (insert_meta sid n digest)).
Proof.
  apply exec_triple; [done|]. intros d d' [H1 H2 H3]. unfold insert_meta.
  destruct (negb _); [done|]. case_bool_decide as Es; [done|]. case_bool_decide; [done|]. intros [= <-].
  split; simpl; [exact H1|exact H2|]. intros sid' m [[<- _]|[_ Hm]]%lookup_insert_Some; [|by eapply H3].
  by apply not_eq_None_Some.
Qed.

(** Credentials: written for an owner that exists, updated under the same one. *)
Lemma refer_insert_credential id r : preserves rows_refer (insert_credential id r).
Proof.
  unfold insert_credential. apply preserves_stmt. intros d a d' [H1 H2 H3]. cbv zeta.
  destruct (owner_check r) eqn:Ho; [|done]. cbn [negb]. destruct (_ || _); [done|].
  destruct (match c_principal_id r with Some p => _ | None => _ end) eqn:Ep; [done|].
  destruct (match c_launcher_id r with Some l => _ | None => _ end) eqn:El; [done|]. intros [= _ <-].
  split; simpl; [|exact H2|exact H3]. intros i r' [[_ <-]|[_ Hr]]%lookup_insert_Some; [|exact (H1 _ _ Hr)].
  apply owner_check_inv in Ho as [(pid & n & E1 & E2 & E3)|(lid & E1 & E2 & E3)].
  - left. exists pid, n. split_and!; try done. rewrite E1 in Ep. by apply bool_decide_eq_false, not_eq_None_Some in Ep.
  - right. exists lid. split_and!; try done. rewrite E2 in El. by apply bool_decide_eq_false, not_eq_None_Some in El.
Qed.

Lemma refer_update_credential id P u :
  (∀ r, same_owner (u r) r) → preserves rows_refer (update_credential id P u).
Proof.
  intros Hu. unfold update_credential. apply preserves_stmt. intros d a d' Hi. destruct (credentials d !! id) as [r|] eqn:Hr; [|by intros [= _ <-]].
  destruct (P r); [|by intros [= _ <-]]. destruct (_ && _); [done|]. intros [= _ <-].
  apply (rows_mono d); simpl; try done. intros i r' [[<- <-]|[_ Hr']]%lookup_insert_Some; [by exists id, r|by exists i, r'].
Qed.

Lemma refer_delete_credential lid :
  preserves rows_refer (stmt (λ d, Ok (bool_decide (is_Some (launcher_target lid d)),
    set_credentials (filter (λ kv : string * credential_row, c_launcher_id kv.2 ≠ Some lid) (credentials d)) d))).
Proof.
  apply preserves_stmt. intros d a d' Hi [= _ <-]. apply (rows_mono d); simpl; try done.
  intros i r [Hr _]%map_lookup_filter_Some. by exists i, r.
Qed.

(** Deleted owners take their credentials with them. *)
Lemma cascade_refer gone d : rows_refer d → rows_refer (cascade_launchers gone d).
Proof.
  intros [H1 H2 H3]. split; simpl; [|exact H2|exact H3]. intros id r [Hr Hg]%map_lookup_filter_Some. simpl in Hg.
  destruct (H1 _ _ Hr) as [Ho|(lid & E1 & E2 & E3 & [l Hl])]; [by left|right].
  exists lid. split_and!; try done. exists l. apply map_lookup_filter_Some. split; [done|]. simpl.
  unfold credential_goes in Hg. by rewrite E2 in Hg.
Qed.

Lemma refer_delete_launcher_stmt lid : preserves rows_refer (delete_launcher_stmt lid).
Proof.
  unfold delete_launcher_stmt. apply preserves_stmt. intros d a d' Hi. destruct (negb _); [done|]. intros [= _ <-]. by apply cascade_refer.
Qed.

Lemma refer_delete_principal_row pid : preserves rows_refer (delete_principal_row pid).
Proof.
  unfold delete_principal_row. apply preserves_stmt. intros d a d' Hi. cbv zeta. destruct (negb _); [done|]. intros [= _ <-].
  destruct (cascade_refer (launcher_of_principal pid d) d Hi) as [H1 H2 H3]. split; [|exact H2|exact H3].
  intros id r [Hr Hg]%map_lookup_filter_Some. simpl in Hg. destruct (H1 _ _ Hr) as [(pid' & n & E1 & E2 & E3 & Hp)|Ho]; [left|by right].
  exists pid', n. split_and!; try done. cbn [principals set_credentials set_principal_roots set_principals].
  rewrite lookup_delete_ne; [exact Hp|]. intros <-. by apply Hg.
Qed.

Lemma refer_map_error {A} (m : DB A) (g : error → result A) :
  (∀ e, ∃ e', g e = Err e') → preserves rows_refer m →
  preserves rows_refer (λ d f, match m d f with (Err e, d, f) => (g e, d, f) | r => r end).
Proof. intros Hg Hm. by apply (triple_map_error rows_refer rows_refer). Qed.

Lemma refer_transaction_if {A} b c (m : DB (A * bool)) : preserves rows_refer m → preserves rows_refer (transaction_if b c m).
Proof.
  intros H. eapply triple_weaken; [apply (transaction_if_triple rows_refer b c m (λ _, rows_refer))|done|done|by intros ?? []].
  eapply triple_weaken; [exact H|done|done|]. intros [a []] d Hd; [exact Hd|done].
Qed.

Create HintDb refer.
#[local] Hint Resolve refer_insert_principal refer_insert_principal_root refer_update_principal_root refer_delete_principal_root
  refer_insert_launcher refer_insert_launcher_root refer_update_launcher_root refer_delete_launcher_root
  refer_clear_launcher_roots refer_update_scope refer_update_name refer_update_enabled refer_set_enabled
  refer_insert_session_row refer_drop refer_delete_session_row refer_insert_entry refer_insert_meta
  refer_insert_credential refer_delete_credential refer_delete_launcher_stmt refer_delete_principal_row : refer.

Ltac refer_ops :=
  repeat first
    [ solve [trivial with refer]
    | apply preserves_ret | apply preserves_fail | apply preserves_query | apply preserves_result
    | apply preserves_wrapf | apply preserves_transaction | apply refer_transaction_if
    | (apply preserves_bind; [|intros ?])
    | (apply refer_map_error; [intros ?; case_match; by eexists|])
    | (apply preserves_stmt; intros ? ? ? ?; repeat case_match; intros ?; by simplify_eq)
    | case_match ].

Lemma refer_default_launcher draw now pid : preserves rows_refer (ensureDefaultLauncher draw now pid).
Proof. unfold ensureDefaultLauncher. refer_ops. Qed.
Lemma refer_principal_credential td idd now pid name cn : preserves rows_refer (insertPrincipalCredentialInTx td idd now pid name cn).
Proof. unfold insertPrincipalCredentialInTx. refer_ops. Qed.
Lemma refer_launcher_credential td idd now lid : preserves rows_refer (issueLauncherCredentialInTx td idd now lid).
Proof. unfold issueLauncherCredentialInTx. refer_ops. Qed.
Lemma refer_principal_id name : preserves rows_refer (findPrincipalIDByUsername name).
Proof. apply preserves_reads, reads_principal_id. Qed.
Lemma refer_principal_id_tx name : preserves rows_refer (findPrincipalIDByUsernameInTx name).
Proof. apply preserves_reads, reads_principal_id_tx. Qed.
Lemma refer_find_launcher lid : preserves rows_refer (findLauncherByID lid).
Proof. unfold findLauncherByID, launcherFromRow, readLauncherAllowedRoots. refer_ops. Qed.
Lemma refer_ceiling h G pid : preserves rows_refer (resolveEffectivePrincipalRoots h G pid).
Proof. unfold resolveEffectivePrincipalRoots, resolveEffectivePrincipalRootEntries, readPrincipalAllowedRoots. refer_ops. Qed.
Lemma refer_insert_roots lid roots : preserves rows_refer (insert_roots lid roots).
Proof. unfold insert_roots. apply preserves_iter. intros root _. refer_ops. Qed.
#[local] Hint Resolve refer_default_launcher refer_principal_credential refer_launcher_credential refer_principal_id
  refer_principal_id_tx refer_find_launcher refer_ceiling refer_insert_roots : refer.

Lemma refer_prune_roots del text C stored :
  (∀ p, preserves rows_refer (del p)) → preserves rows_refer (prune_roots del text C stored).
Proof. intros Hd. induction stored as [|root stored IH]; cbn [prune_roots]; [apply preserves_ret|]. refer_ops; auto. Qed.
Lemma refer_prune_launchers C lids : preserves rows_refer (prune_launchers C lids).
Proof.
  induction lids as [|lid lids IH]; cbn [prune_launchers]; [apply preserves_ret|]. unfold readLauncherAllowedRoots.
  refer_ops. apply refer_prune_roots. intros; apply refer_delete_launcher_root.
Qed.
Lemma refer_prune_principal G pid b : preserves rows_refer (prunePrincipalStoredRootsToCeiling G pid b).
Proof.
  unfold prunePrincipalStoredRootsToCeiling, readPrincipalAllowedRoots. refer_ops; [|apply refer_prune_launchers..].
  apply refer_prune_roots. intros; apply refer_delete_principal_root.
Qed.
#[local] Hint Resolve refer_prune_principal : refer.
Lemma refer_prune_principals G b pids : preserves rows_refer (prune_principals G b pids).
Proof. induction pids as [|pid pids IH]; cbn [prune_principals]; [apply preserves_ret|]. refer_ops. Qed.
Lemma refer_prune_all G pid : preserves rows_refer (pruneStoredAllowedRootsToCeilings G pid).
Proof. unfold pruneStoredAllowedRootsToCeilings. refer_ops; apply refer_prune_principals. Qed.
Lemma refer_insert_snapshot sid l : preserves rows_refer (insertSessionFilesystemSnapshot sid l).
Proof. unfold insertSessionFilesystemSnapshot. apply preserves_bind; [|intros _; refer_ops]. apply preserves_iter. intros e _. refer_ops. Qed.
Lemma refer_rotate_principal td pid name : preserves rows_refer (rotatePrincipalCredential td pid name).
Proof.
  unfold rotatePrincipalCredential, preparePrincipalCredentialRotation. refer_ops.
  apply preserves_rotation. unfold replacePrincipalCredentialTokenHashInTx. refer_ops. by apply refer_update_credential.
Qed.
Lemma refer_rotate_launcher td lid cid : preserves rows_refer (rotateLauncherCredentialTargeted td lid cid).
Proof.
  unfold rotateLauncherCredentialTargeted, prepareLauncherCredentialRotation. refer_ops.
  apply preserves_rotation. unfold replaceLauncherCredentialTokenHashInTx. refer_ops. by apply refer_update_credential.
Qed.

#[local] Hint Resolve refer_prune_all refer_insert_snapshot refer_rotate_principal refer_rotate_launcher : refer.

Lemma refer_rename lid name : preserves rows_refer (rename_step lid name).
Proof.
  destruct name as [n|]; [|apply preserves_ret]. unfold rename_step.
  apply (refer_map_error (update_launcher_name lid n)); [intros e; case_match; by eexists|apply refer_update_name].
Qed.

Lemma refer_backfill draws now pids n : preserves rows_refer (backfill_defaults draws now pids n).
Proof.
  revert draws n. induction pids as [|pid pids IH]; intros draws n; cbn [backfill_defaults]; [apply preserves_ret|].
  intros d f Hi. assert (Hf : preserves rows_refer (findDefaultLauncher pid)) by (unfold findDefaultLauncher; refer_ops).
  specialize (Hf d f Hi). destruct (findDefaultLauncher pid d f) as [[[id|e] d1] f1]; [by apply IH|].
  destruct (negb _); [done|].
  pose proof (preserves_wrapf rows_refer "cannot provision default Launcher for principal" [] _
    (refer_default_launcher (default None (head draws)) now pid) d1 f1 Hf) as Hk.
  destruct (wrapf _ _ _ d1 f1) as [[[id|e2] d2] f2]; [by apply IH|done].
Qed.

Lemma refer_policy_op h G A (m : DB A) : policy_op h G m → preserves rows_refer m.
Proof.
  intros [].
  - unfold createPrincipalWithLifecycle, createPrincipalWithOptionalCredential. refer_ops.
  - unfold addPrincipalAllowedRootWithLifecycle, addPrincipalAllowedRoot, storedPrincipalAllowedRootAccess. refer_ops.
  - unfold removePrincipalAllowedRootWithLifecycle, removePrincipalAllowedRootCascaded. refer_ops.
  - unfold setPrincipalAllowedRootAccessWithLifecycle, setPrincipalAllowedRootAccess, storedPrincipalAllowedRootAccess.
    refer_ops.
  - unfold persistPrincipalEnabledChange, launcherAdmissionsInTx, principal_session_ids, delete_principal_sessions. refer_ops.
  - unfold deletePrincipal, principal_session_ids, delete_principal_sessions. refer_ops.
  - unfold createLauncherWithLifecycle, createLauncher, findPrincipalByID. refer_ops.
  - unfold replaceLauncherScopeWithLifecycle, replaceLauncherScope. refer_ops.
  - unfold addLauncherAllowedRootWithLifecycle, addLauncherAllowedRoot, stored_launcher_access. refer_ops.
  - unfold removeLauncherAllowedRootWithLifecycle, removeLauncherAllowedRoot. refer_ops.
  - unfold setLauncherAllowedRootAccessWithLifecycle, setLauncherAllowedRootAccess, stored_launcher_access.
    refer_ops.
  - unfold persistLauncherChange, enabled_step, launcher_session_ids, delete_launcher_sessions. refer_ops; apply refer_rename.
  - unfold deleteLauncherRow. refer_ops.
  - unfold migrateDefaultLaunchers. refer_ops. apply refer_backfill.
  - unfold createPrincipalCredential. refer_ops.
  - unfold revokePrincipalCredential. refer_ops. by apply refer_update_credential.
  - trivial with refer.
  - trivial with refer.
  - unfold issueLauncherCredential. refer_ops.
  - unfold deleteLauncherCredential, scanLauncherCredential. refer_ops.
  - unfold insertSession, classifyStaleSessionCreateAuthority. refer_ops.
  - unfold delete_session_db, findSessionInScope. refer_ops.
  - unfold cleanupExpiredSessions. refer_ops.
Qed.

Lemma policy_reachable_refer s : policy_reachable s → rows_refer (tables s).
Proof.
  unfold policy_reachable. intros Hr. remember (mkPolicy [] empty_db) as s0 eqn:E0.
  assert (H0 : rows_refer (tables s0)) by (subst s0; by split).
  clear E0. induction Hr as [|x y z Hxy _ IH]; [done|]. apply IH. clear IH.
  destruct Hxy as [h A m G d f r d' f' Hh Hsame Hop Hm|h fr data G G' d f r d' f' Hh Hlinks Hl Hm]; simpl in *.
  - pose proof (refer_policy_op h G A m Hop d f H0) as Hk. rewrite Hm in Hk. by destruct r.
  - assert (Hrec : preserves rows_refer (reconcileStoredAllowedRootsToGlobalCeiling h G'))
      by (unfold reconcileStoredAllowedRootsToGlobalCeiling; refer_ops).
    specialize (Hrec d f H0). rewrite Hm in Hrec. by destruct r.
Qed.

(** ** The Launcher name grammar *)

Lemma name_loop_spec len i rest :
  (i + String.length rest)%nat = len →
  name_loop len i rest =
  str_forall name_char rest && negb (bool_decide (i = 0%nat) && String.prefix "-" rest) && negb (ends_with_hyphen rest).
Proof.
  revert i. induction rest as [|c rest IH]; intros i Hl; [by destruct (bool_decide (i = 0%nat))|].
  cbn [name_loop str_forall String.length] in *. unfold name_char at 1.
  assert (IH' := IH (S i) ltac:(lia)). rewrite (bool_decide_eq_false_2 (S i = 0%nat)) in IH' by done. simpl in IH'.
  rewrite andb_true_r in IH'.
  destruct (lower_or_digit c) eqn:Ed.
  - assert (Hne : c ≠ "-"%char) by (intros ->; vm_compute in Ed; done).
    rewrite IH'. cbn [String.prefix]. destruct (ascii_dec "-" c); [congruence|]. rewrite andb_false_r. simpl.
    rewrite andb_true_r. f_equal. destruct rest; [|done]. simpl. by rewrite bool_decide_eq_false_2.
  - case_bool_decide as Eh; [subst c|done]. cbn [String.prefix]. destruct (ascii_dec "-" "-"); [|done]. simpl.
    destruct rest as [|c' rest'].
    + simpl in *. rewrite !bool_decide_eq_true_2 by (done || lia). by rewrite andb_false_r.
    + simpl in Hl. rewrite IH'. destruct (decide (i = 0%nat)) as [->|Hi].
      * rewrite !bool_decide_eq_true_2 by (done || lia). simpl. by rewrite andb_false_r.
      * rewrite !bool_decide_eq_false_2 by (simpl; lia). simpl. by rewrite andb_true_r.
Qed.

Lemma name_grammar name : launcher_name_check name = is_ok (validateLauncherName name).
Proof.
  unfold launcher_name_check, validateLauncherName, launcherNameMaxLength.
  rewrite (name_loop_spec (String.length name) 0 name) by done. rewrite (bool_decide_eq_true_2 (0%nat = 0%nat)) by done.
  destruct (decide (String.length name = 0%nat)) as [E|E].
  { rewrite bool_decide_eq_false_2 by lia. by rewrite (bool_decide_eq_true_2 _ E). }
  rewrite (bool_decide_eq_false_2 _ E). simpl.
  destruct (decide (63 < String.length name)%nat) as [E'|E'].
  { rewrite bool_decide_eq_false_2 by lia. by rewrite (bool_decide_eq_true_2 _ E'). }
  rewrite (bool_decide_eq_false_2 _ E'), bool_decide_eq_true_2 by lia. simpl.
  by destruct (str_forall name_char name), (String.prefix "-" name), (ends_with_hyphen name).
Qed.

(** The name grammar of the code and the CHECK constraints of the table accept
    the same names, and an accepted name is stored as given. *)
Theorem name_check_equivalent (name : string) :
  launcher_name_check name = is_ok (validateLauncherName name) ∧
  (is_ok (validateLauncherName name) = true → validateLauncherName name = Ok name).
Proof.
  split; [apply name_grammar|]. unfold validateLauncherName. destruct (_ || _); [done|]. by destruct (name_loop _ _ _).
Qed.

Lemma name_check_equivalent_witness : validateLauncherName "ci-runner" = Ok "ci-runner".
Proof. apply (name_check_equivalent "ci-runner"). vm_compute. reflexivity. Defined.

(** ** A reachable state *)

(** A host where every canonical path is an existing directory without links. *)
Definition ex_host : host :=
  mkHost (λ p, inl is_dir) (λ p, if canonical p then inl p else inr not_exist) (Some "/") None 0.

Lemma ex_host_ok : host_ok ex_host.
Proof. intros p q. simpl. destruct (canonical p) eqn:E; [|done]. by intros [= <-]. Qed.
Lemma ex_host_links : host_links ex_host.
Proof. intros p q. simpl. destruct (canonical p) eqn:E; [|done]. intros [= <-]. simpl. by rewrite E. Qed.

Definition ex_document : document :=
  Some (JObject [("allowed_roots", JArray [JString "/srv/data"]); ("session_ttl", JString "1h")], false).
Definition ex_roots : list AllowedRootEntry := [mkEntry "/srv/data" "read_write"].
Definition ex_os : os_users := λ u, if bool_decide (u = "alice") then Some ("1000", "1000", "/srv/data/alice") else None.

Definition ex_create : DB _ :=
  createPrincipalWithLifecycle ex_host ex_roots ex_os (mkDraws (Some "00112233445566778899aabbccddeeff") None None) 5 1
    "alice" false.
Definition ex_launcher : string := "dhl_00112233445566778899aabbccddeeff".
Definition ex_scope : DB _ :=
  replaceLauncherScopeWithLifecycle ex_host ex_roots ex_launcher "restricted" [mkEntry "/srv/data/alice/work" "read_only"].
Definition ex_session : DB unit :=
  insertSession "dhs_1" (mkSession "hash" "/srv/data/alice/work" 5 100 ex_launcher) None
    (mkSnapshot "/srv/data/alice/work" [mkEntry "/srv/data/alice/work" "read_only"]).

Definition ex_db1 : db := (ex_create empty_db []).1.2.
Definition ex_db2 : db := (ex_scope ex_db1 []).1.2.
Definition ex_db : db := (ex_session ex_db2 []).1.2.

Lemma ex_reachable : policy_reachable (mkPolicy ex_roots ex_db).
Proof.
  assert (Hs : same_roots ex_host ex_roots) by (intros r; vm_compute; by intros [= <-]).
  apply rtc_l with (y := mkPolicy ex_roots empty_db).
  { eapply (step_load ex_host (λ _ _ _, 0) ex_document [] ex_roots empty_db [] (Ok (mkCascade [] [])) empty_db []);
      [apply ex_host_ok|apply ex_host_links|vm_compute; reflexivity..]. }
  apply rtc_l with (y := mkPolicy ex_roots ex_db1).
  { eapply (step_op ex_host _ ex_create ex_roots empty_db [] (ex_create empty_db []).1.1 ex_db1 (ex_create empty_db []).2);
      [apply ex_host_ok|exact Hs|by constructor|]. unfold ex_db1. by destruct (ex_create empty_db []) as [[]]. }
  apply rtc_l with (y := mkPolicy ex_roots ex_db2).
  { eapply (step_op ex_host _ ex_scope ex_roots ex_db1 [] (ex_scope ex_db1 []).1.1 ex_db2 (ex_scope ex_db1 []).2);
      [apply ex_host_ok|exact Hs|by constructor|]. unfold ex_db2. by destruct (ex_scope ex_db1 []) as [[]]. }
  apply rtc_once.
  eapply (step_op ex_host _ ex_session ex_roots ex_db2 [] (ex_session ex_db2 []).1.1 ex_db (ex_session ex_db2 []).2);
    [apply ex_host_ok|exact Hs|by constructor|]. unfold ex_db. by destruct (ex_session ex_db2 []) as [[]].
Qed.

(** ** The properties of every reachable state *)

(** C29. Every row is well-typed and refers to rows that exist: the accesses, the
    scope modes and the Launcher names are of their vocabularies, the root
    paths are canonical, only a restricted Launcher has stored roots, a
    credential has exactly one owner, a Session a Launcher, and the rows of a
    snapshot their Session. *)
Theorem ownership_wellformed (s : policy) (Hr : policy_reachable s) :
  let d := tables s in
  (∀ pid p a, principal_allowed_roots d !! (pid, p) = Some a →
     is_Some (principals d !! pid) ∧ canonical p = true ∧ isValid a = true) ∧
  (∀ lid l, launchers d !! lid = Some l →
     is_Some (principals d !! l_principal_id l) ∧ validateLauncherName (l_name l) = Ok (l_name l) ∧
     (l_scope_mode l = LauncherScopeInherit ∨ l_scope_mode l = LauncherScopeRestricted)) ∧
  (∀ lid p a, launcher_allowed_roots d !! (lid, p) = Some a →
     canonical p = true ∧ isValid a = true ∧
     ∃ l, launchers d !! lid = Some l ∧ l_scope_mode l = LauncherScopeRestricted) ∧
  (∀ sid row, sessions d !! sid = Some row → is_Some (launchers d !! s_launcher_id row)) ∧
  (∀ id r, credentials d !! id = Some r →
     (∃ pid n, c_principal_id r = Some pid ∧ c_launcher_id r = None ∧ c_name r = Some n ∧ is_Some (principals d !! pid)) ∨
     (∃ lid, c_principal_id r = None ∧ c_launcher_id r = Some lid ∧ c_name r = None ∧ is_Some (launchers d !! lid))) ∧
  (∀ sid n e, snapshot_entries d !! (sid, n) = Some e → is_Some (sessions d !! sid)) ∧
  (∀ sid m, snapshot_meta d !! sid = Some m → is_Some (sessions d !! sid)).
Proof.
  destruct (policy_reachable_inv s Hr) as [_ Hi]. destruct (policy_reachable_refer s Hr) as [Hrc Hre Hrm].
  simpl. split_and!; [| | | |exact Hrc|exact Hre|exact Hrm].
  - intros pid p a Hp. by apply (pi_proots _ _ Hi) in Hp as (? & ? & ? & _).
  - intros lid l Hl. apply (pi_launchers _ _ Hi) in Hl as [Hp Hc]. unfold launcher_check in Hc.
    apply andb_true_iff in Hc as [Hs%bool_decide_eq_true_1 Hn]. rewrite name_grammar in Hn. split_and!; [done| |done].
    unfold validateLauncherName in *. destruct (_ || _); [done|]. by destruct (name_loop _ _ _).
  - intros lid p a Hl. apply (pi_lroots _ _ Hi) in Hl as (? & ? & l & ? & ? & _). eauto 10.
  - intros sid row Hs. apply (pi_sessions _ _ Hi) in Hs. unfold launcher_available, launcher_join in Hs.
    by destruct (launchers (tables s) !! s_launcher_id row).
Qed.

Lemma ownership_wellformed_witness : is_Some (launchers ex_db !! ex_launcher).
Proof.
  apply (ownership_wellformed (mkPolicy ex_roots ex_db) ex_reachable) with (sid := "dhs_1")
    (row := mkSession "hash" "/srv/data/alice/work" 5 100 ex_launcher). vm_compute. reflexivity.
Defined.

(** C21. The stored roots are nested: a Principal's root lies in the global ceiling,
    a Launcher's root in a stored root of its Principal, whatever was
    reconfigured, removed or narrowed in between. *)
Theorem roots_nested (s : policy) (Hr : policy_reachable s) :
  (∀ pid p a, principal_allowed_roots (tables s) !! (pid, p) = Some a →
     isWithinAnyAllowedRoot p (allowedRootPaths (globals s)) = true) ∧
  (∀ lid l p a, launchers (tables s) !! lid = Some l → launcher_allowed_roots (tables s) !! (lid, p) = Some a →
     ∃ q b, principal_allowed_roots (tables s) !! (l_principal_id l, q) = Some b ∧ pathWithin q p = true).
Proof.
  destruct (policy_reachable_inv s Hr) as [_ Hi]. split.
  - intros pid p a Hp. by apply (pi_proots _ _ Hi) in Hp as (_ & _ & _ & ?).
  - intros lid l p a Hl Hlr. apply (pi_lroots _ _ Hi) in Hlr as (_ & _ & l' & ? & _ & Hw). by simplify_eq.
Qed.

Lemma roots_nested_witness :
  isWithinAnyAllowedRoot "/srv/data/alice" (allowedRootPaths ex_roots) = true.
Proof.
  apply (roots_nested (mkPolicy ex_roots ex_db) ex_reachable) with (pid := 1) (a := "read_write"). vm_compute. reflexivity.
Defined.

(** C9. A Session row exists only below an enabled Launcher of an enabled
    Principal. *)
Theorem sessions_under_enabled_owners (s : policy) (Hr : policy_reachable s) (sid : string) (row : session_row)
    (Hs : sessions (tables s) !! sid = Some row) :
  ∃ l p, launchers (tables s) !! s_launcher_id row = Some l ∧ principals (tables s) !! l_principal_id l = Some p ∧
    l_enabled l = true ∧ p_enabled p = true.
Proof.
  destruct (policy_reachable_inv s Hr) as [_ Hi]. apply (pi_sessions _ _ Hi) in Hs.
  unfold launcher_available, launcher_join in Hs.
  destruct (launchers (tables s) !! s_launcher_id row) as [l|]; [|done].
  destruct (principals (tables s) !! l_principal_id l) as [p|] eqn:Ep; [|done]. apply andb_true_iff in Hs as [? ?]. eauto 10.
Qed.

Lemma sessions_under_enabled_owners_witness :
  ∃ l p, launchers ex_db !! ex_launcher = Some l ∧ principals ex_db !! l_principal_id l = Some p ∧
    l_enabled l = true ∧ p_enabled p = true.
Proof.
  apply (sessions_under_enabled_owners (mkPolicy ex_roots ex_db) ex_reachable "dhs_1"
    (mkSession "hash" "/srv/data/alice/work" 5 100 ex_launcher)). vm_compute. reflexivity.
Defined.

(** The access the stored policy of a Launcher gives a path: the meet of what
    the global roots, its Principal's stored roots and, when it is restricted,
    its own stored roots give it. *)
Definition stored_authority (s : policy) (lid : string) (l : launcher_row) (p : string) : option string :=
  let stored := roots_of (l_principal_id l) (map_to_list (principal_allowed_roots (tables s))) in
  let own := roots_of lid (map_to_list (launcher_allowed_roots (tables s))) in
  match lookupAllowedRootAccess (globals s) p, lookupAllowedRootAccess stored p with
  | Some g, Some a =>
      if bool_decide (l_scope_mode l = LauncherScopeRestricted)
      then meetAllowedRootAccess (meetAllowedRootAccess g a) <$> lookupAllowedRootAccess own p
      else Some (meetAllowedRootAccess g a)
  | _, _ => None
  end.

(** No path of the composed policies of a Launcher sorts byte-wise between a
    path and a descendant of it. *)
Definition authority_safe (s : policy) (lid : string) (l : launcher_row) : Prop :=
  let stored := roots_of (l_principal_id l) (map_to_list (principal_allowed_roots (tables s))) in
  sibling_safe (composed_raw (globals s) stored) ∧
  (l_scope_mode l = LauncherScopeRestricted →
   sibling_safe (composed_raw (composeAllowedRootScopes (globals s) stored)
     (roots_of lid (map_to_list (launcher_allowed_roots (tables s)))))).

(** C3. The authority of a Launcher is always defined on a reachable state — its
    stored roots never contradict the ceilings — and reaches exactly the paths
    inside a global root, a stored root of its Principal and, when restricted, a
    stored root of its own; where no sibling sorts between the paths
    ([authority_safe]), the access of every path is the meet of the accesses
    those three policies store for it. *)
Theorem launcher_authority_exact (s : policy) (Hr : policy_reachable s) (lid : string) (f f' : list bool)
    (facts : ownership_facts) (d' : db) (l : launcher_row) (Hl : launchers (tables s) !! lid = Some l)
    (Hf : loadSessionOwnershipSnapshot lid (tables s) f = (Ok facts, d', f')) :
  ∃ entries, effectiveLauncherAllowedRoots (globals s) (of_policy facts) = Ok entries ∧
    (∀ p, canonical p = true →
      is_Some (lookupAllowedRootAccess entries p) ↔
      isWithinAnyAllowedRoot p (allowedRootPaths (globals s)) = true ∧
      (∃ q a, principal_allowed_roots (tables s) !! (l_principal_id l, q) = Some a ∧ pathWithin q p = true) ∧
      (l_scope_mode l = LauncherScopeRestricted →
       ∃ q a, launcher_allowed_roots (tables s) !! (lid, q) = Some a ∧ pathWithin q p = true)) ∧
    (authority_safe s lid l →
     ∀ p, canonical p = true → lookupAllowedRootAccess entries p = stored_authority s lid l p).
Proof.
  destruct (policy_reachable_inv s Hr) as [HG Hi]. set (G := globals s) in *. set (d := tables s) in *.
  unfold loadSessionOwnershipSnapshot in Hf. apply db_bind_ok in Hf as (row & d1 & f1 & Hq & Hf).
  apply wrapf_ok, query_ok in Hq as (-> & -> & _). unfold launcher_join in Hf. rewrite Hl in Hf.
  destruct (principals d !! l_principal_id l) as [p|] eqn:Ep; [|done].
  apply db_bind_ok in Hf as (lr & d2 & f2 & Hlr & Hf). apply db_bind_ok in Hf as (pr & d3 & f3 & Hpr & Hf).
  assert (Hlr' : (l_scope_mode l = LauncherScopeRestricted → lr = roots_of lid (map_to_list (launcher_allowed_roots d))) ∧ d2 = d).
  { case_bool_decide; [apply read_launcher_roots_ok in Hlr as [-> ->]; by split|]. injection Hlr as <- <- _. by split. }
  destruct Hlr' as [Elr ->]. apply read_principal_roots_ok in Hpr as [-> _]. injection Hf as <- _ _.
  set (stored := roots_of (l_principal_id l) (map_to_list (principal_allowed_roots d))) in *.
  assert (Hvs : valid_entries stored) by (by eapply stored_valid).
  set (C := effectivePrincipalAllowedRoots G stored (l_principal_id l)).
  assert (HC : ∀ p, canonical p = true → is_Some (lookupAllowedRootAccess C p) ↔
    isWithinAnyAllowedRoot p (allowedRootPaths G) = true ∧ stored_within d (l_principal_id l) p).
  { intros q Hq. unfold lookupAllowedRootAccess. rewrite fmap_is_Some, lookup_entry_is_Some by (auto; by apply compose_valid).
    rewrite <-within_paths. unfold C. rewrite ceiling_within by done. by rewrite stored_within_roots. }
  unfold effectiveLauncherAllowedRoots, of_policy. simpl. fold C.
  destruct (pi_launchers _ _ Hi _ _ Hl) as [_ Hck]. unfold launcher_check in Hck.
  apply andb_true_iff in Hck as [Hsc%bool_decide_eq_true_1 _]. destruct Hsc as [Es|Es]; rewrite Es.
  - rewrite bool_decide_eq_true_2 by done. exists C. split_and!; [done| |].
    + intros q Hq. rewrite HC by done. split; [intros [H1 H2]; split_and!; [exact H1|exact H2|done]|intros (H1 & H2 & _); by split].
    + intros [Hsafe _] q Hq. unfold stored_authority. rewrite (bool_decide_eq_false_2 (l_scope_mode l = _)) by (by rewrite Es).
      unfold C, effectivePrincipalAllowedRoots. by rewrite compose_lookup.
  - rewrite bool_decide_eq_false_2, bool_decide_eq_true_2 by done. rewrite Elr by done.
    set (own := roots_of lid (map_to_list (launcher_allowed_roots d))) in *.
    assert (Hvo : valid_entries own).
    { apply roots_of_valid. intros q a Hq. by apply (pi_lroots _ _ Hi) in Hq as (? & ? & _). }
    assert (Hno : existsb (λ e, negb (isWithinAnyAllowedRoot (Path e) (allowedRootPaths C))) own = false).
    { apply not_true_iff_false. rewrite existsb_exists. intros ([q a] & Hin & Hn). apply list_elem_of_In, elem_of_roots_of in Hin.
      apply negb_true_iff in Hn. destruct (pi_lroots _ _ Hi _ _ _ Hin) as (Hc & _ & l' & ? & _ & Hw). simplify_eq.
      apply (stored_within_ceiling G HG) in Hw; [|done|done]. simpl in Hn. unfold C, stored in Hn. congruence. }
    rewrite Hno. eexists. split_and!; [done| |].
    2:{ intros [Hsafe Hsafe'] q Hq. unfold stored_authority. rewrite (bool_decide_eq_true_2 (l_scope_mode l = _)) by done.
        rewrite compose_lookup; [|by apply compose_valid|done|by apply Hsafe'|done]. unfold meet_lookup.
        unfold C at 1, effectivePrincipalAllowedRoots. rewrite compose_lookup by done. unfold meet_lookup. fold G d. fold stored own.
        by destruct (lookupAllowedRootAccess G q), (lookupAllowedRootAccess stored q), (lookupAllowedRootAccess own q). }
    intros q Hq.
    pose proof (compose_authorizes C own (compose_valid _ _ HG Hvs) Hvo q Hq) as Hca. unfold meet_lookup, lookupAllowedRootAccess in *.
    rewrite Hca. specialize (HC q Hq). unfold lookupAllowedRootAccess in HC.
    assert (Hown : is_Some (Access <$> lookup_entry own q) ↔
      ∃ q' a, launcher_allowed_roots d !! (lid, q') = Some a ∧ pathWithin q' q = true).
    { rewrite fmap_is_Some, lookup_entry_is_Some by auto. split.
      - intros ([q' a] & Hin%elem_of_roots_of & Hw). by exists q', a.
      - intros (q' & a & Hin & Hw). exists (mkEntry q' a). split; [by apply elem_of_roots_of|done]. }
    split.
    + intros [x Hx]. destruct (Access <$> lookup_entry C q) eqn:E1; [|done].
      destruct (Access <$> lookup_entry own q) eqn:E2; [|done].
      destruct (proj1 HC) as [? ?]; [done|]. split_and!; [done|done|]. intros _. by apply Hown.
    + intros (H1 & H2 & H3). destruct (proj2 HC) as [x ->]; [done|].
      destruct (proj2 Hown) as [y ->]; [by apply H3|]. by eexists.
Qed.

Lemma launcher_authority_exact_witness :
  ∃ facts entries, (loadSessionOwnershipSnapshot ex_launcher ex_db []).1.1 = Ok facts ∧
    effectiveLauncherAllowedRoots ex_roots (of_policy facts) = Ok entries.
Proof.
  assert (Hl : launchers ex_db !! ex_launcher = Some (mkLauncher 1 "default" true "restricted" 5)) by (vm_compute; reflexivity).
  destruct (loadSessionOwnershipSnapshot ex_launcher ex_db []) as [[[facts|e] d'] f'] eqn:E; [|vm_compute in E; discriminate].
  destruct (launcher_authority_exact (mkPolicy ex_roots ex_db) ex_reachable ex_launcher [] f' facts d' _ Hl E) as (entries & He & _).
  exists facts, entries. split; [reflexivity|exact He].
Defined.

(** C22. Reconciling to a new ceiling deletes exactly the stored rows it no longer
    contains: a Principal's roots outside the ceiling, and a Launcher's roots
    outside what its Principal keeps; nothing else changes, and a failure of
    any statement changes nothing. *)
Theorem reconcile_exact (s : policy) (Hr : policy_reachable s) (h : host) (configured G' : list AllowedRootEntry)
    (f : list bool) (Hg : resolveAllowedRootEntries h configured = Ok G') (HG' : valid_entries G') :
  let d := tables s in
  match reconcileStoredAllowedRootsToGlobalCeiling h configured d f with
  | (Ok _, d', _) =>
      (∀ pid p a, principal_allowed_roots d' !! (pid, p) = Some a ↔
         principal_allowed_roots d !! (pid, p) = Some a ∧ isWithinAnyAllowedRoot p (allowedRootPaths G') = true) ∧
      (∀ lid p a, launcher_allowed_roots d' !! (lid, p) = Some a ↔
         launcher_allowed_roots d !! (lid, p) = Some a ∧
         ∃ l q b, launchers d !! lid = Some l ∧ principal_allowed_roots d' !! (l_principal_id l, q) = Some b ∧
           pathWithin q p = true) ∧
      d' = set_launcher_roots (launcher_allowed_roots d') (set_principal_roots (principal_allowed_roots d') d)
  | (Err _, d', _) => d' = d
  end.
Proof.
  destruct (policy_reachable_inv s Hr) as [_ Hi]. simpl. set (d := tables s) in *.
  destruct (reconcileStoredAllowedRootsToGlobalCeiling h configured d f) as [[[c|e] d'] f'] eqn:E.
  - apply (reconcile_inv h (globals s) G') in E as [_ Hp]; [|done..].
    assert (Hall : ∀ pid, is_Some (principals d !! pid) → pid ∈ merge_sort Z.le (map_to_list (principals d)).*1).
    { intros pid [r0 Hr0]. rewrite merge_sort_Permutation. apply list_elem_of_fmap. exists (pid, r0).
      split; [done|]. by apply elem_of_map_to_list. }
    split_and!; [| |apply Hp].
    + intros pid p a. rewrite (pn_proots _ _ _ _ _ Hp). split.
      * intros [Hq Hs]. split; [done|]. apply Hs; [done|]. apply Hall. by apply (pi_proots _ _ Hi) in Hq as [? _].
      * intros [Hq Hs]. split; [done|]. by intros _ _.
    + intros lid p a. rewrite (pn_lroots _ _ _ _ _ Hp). split.
      * intros [Hq Hs]. split; [done|]. destruct (pi_lroots _ _ Hi _ _ _ Hq) as (_ & _ & l & Hl & _).
        destruct (Hs l Hl) as (q & b & ? & ?); [|by exists l, q, b].
        apply Hall. by apply (pi_launchers _ _ Hi) in Hl as [? _].
      * intros [Hq (l & q & b & Hl & ? & ?)]. split; [done|]. intros l' Hl' _. simplify_eq. by exists q, b.
  - revert E. unfold reconcileStoredAllowedRootsToGlobalCeiling. rewrite Hg.
    unfold mbind at 1, db_bind at 1, db_result at 1. intros E.
    pose proof (transaction_atomic "cannot begin allowed-root reconciliation" "cannot commit allowed-root reconciliation"
      (pruneStoredAllowedRootsToCeilings G' 0) d f) as Ht. by rewrite E in Ht.
Qed.

Definition ex_narrowed : list AllowedRootEntry := [mkEntry "/srv/data/bob" "read_write"].

Lemma reconcile_exact_witness :
  is_ok (reconcileStoredAllowedRootsToGlobalCeiling ex_host ex_narrowed ex_db []).1.1 = true ∧
  principal_allowed_roots (reconcileStoredAllowedRootsToGlobalCeiling ex_host ex_narrowed ex_db []).1.2
    !! (1, "/srv/data/alice") = None.
Proof.
  assert (Hv : valid_entries ex_narrowed).
  { split; [by intros e ->%list_elem_of_singleton|by intros e ->%list_elem_of_singleton|apply NoDup_singleton]. }
  assert (Hg : resolveAllowedRootEntries ex_host ex_narrowed = Ok ex_narrowed) by (vm_compute; reflexivity).
  assert (Hok : is_ok (reconcileStoredAllowedRootsToGlobalCeiling ex_host ex_narrowed ex_db []).1.1 = true)
    by (vm_compute; reflexivity).
  pose proof (reconcile_exact (mkPolicy ex_roots ex_db) ex_reachable ex_host ex_narrowed ex_narrowed [] Hg Hv) as H.
  cbn [tables] in H. split; [exact Hok|].
  destruct (reconcileStoredAllowedRootsToGlobalCeiling ex_host ex_narrowed ex_db []) as [[[c|e] d'] f']; [|discriminate Hok].
  destruct H as (H & _). apply eq_None_not_Some. intros [a Ha]. apply H in Ha as [_ Hw]. vm_compute in Hw. discriminate.
Defined.
