(* ===== verification/LifecycleTheory.v ===== *)
(** * LifecycleTheory: what the data plane and the coordinator leave alone

    Releasing bindings changes no table but the ownership of boundaries; the
    data plane never changes a Launcher, a Principal or the quiesce map, and
    registers an operation only where its Launcher is not quiesced. *)
From S2P Require Import Prelude Filepath AllowedRoots Database SnapshotStore SnapshotSpec Credential Launcher MacLifecycle MacTheory Session PrincipalStore DbHoare OwnershipTheory Operation OperationTheory Proc Lifecycle.
Local Open Scope Z_scope.

(** ** The coordinator *)

Section coordinator.
Context {W : Type} `{!sessionMACDriver W}.
Implicit Types m : mac W.

(** The ownership of boundaries apart, the tables are as before; and so are
    the bindings and the leases. *)
Definition mac_frame m m' : Prop := db_frame (m_db m) (m_db m') ∧ sessionBindings m' = sessionBindings m ∧ sessionUseLeases m' = sessionUseLeases m.
Definition quiet {A} (f : mac W → A * mac W) : Prop := ∀ m, mac_frame m (f m).2.

Lemma db_frame_refl d : db_frame d d.
Proof. by destruct d. Qed.

#[local] Instance mac_frame_preorder : PreOrder mac_frame.
Proof.
  split; [intros m; split_and!; [apply db_frame_refl|done..]|]. intros m1 m2 m3 (H1 & E1 & F1) (H2 & E2 & F2). split_and!; [by etrans|congruence..].
Qed.
Lemma mac_frame_db m m' :
  db_frame (m_db m) (m_db m') → sessionBindings m' = sessionBindings m ∧ sessionUseLeases m' = sessionUseLeases m → mac_frame m m'.
Proof. by split. Qed.

Lemma mac_frame_bind {A B} (f : MAC A) (k : A → MAC B) : quiet f → (∀ a, quiet (k a)) → quiet (mac_bind _ _ k f).
Proof.
  intros Hf Hk m. unfold mac_bind. specialize (Hf m). destruct (f m) as [[a|e] m1]; simpl in *; [|done].
  etrans; [exact Hf|apply Hk].
Qed.
Lemma mac_frame_wrapf {A} t w (f : MAC A) : quiet f → quiet (mac_wrapf t w f).
Proof. intros Hf m. specialize (Hf m). unfold mac_wrapf. by destruct (f m) as [[a|e] m1]. Qed.
Lemma quiet_reads {A} (q : DB A) : reads q → quiet (on_db q).
Proof. intros Hq m. destruct (on_db_reads q m Hq) as [f ->]. apply mac_frame_db; [apply db_frame_refl|done]. Qed.
Lemma quiet_lift {A} (r : result A) : quiet (mac_lift (W := W) r).
Proof. by intros m. Qed.
Lemma quiet_driver {A} (op : W → result A * W) : quiet (on_driver op).
Proof. intros m. unfold on_driver. destruct (op (world m)). apply mac_frame_db; [apply db_frame_refl|done]. Qed.
Lemma quiet_set_mac t : quiet (on_db (exec (λ d, Some (set_mac (t d) d)))).
Proof. intros m. unfold on_db, exec, stmt. destruct (m_faults m) as [|[] f]; apply mac_frame_db; (done || apply db_frame_refl). Qed.

Lemma quiet_record b k : quiet (recordBoundaryOwnership b k).
Proof.
  unfold recordBoundaryOwnership. case_bool_decide; [apply quiet_set_mac|].
  destruct (macBoundaryKindValue k); [apply quiet_set_mac|apply quiet_lift].
Qed.

Lemma quiet_remove b : quiet (removeOwnedBoundary b).
Proof.
  unfold removeOwnedBoundary, removal_kind, ownedBoundaryRemovalKind, boundaryOwnedKind, convergeLegacyOwnedKind.
  apply mac_frame_bind.
  { apply mac_frame_bind.
    - apply mac_frame_wrapf, mac_frame_bind; [apply quiet_reads, reads_query|]. intros [[v|]|]; [|apply quiet_lift..].
      case_bool_decide; [apply (quiet_lift (Ok _))|apply quiet_lift].
    - intros kind. case_bool_decide; [|apply (quiet_lift (Ok _))].
      apply mac_frame_bind; [apply mac_frame_wrapf, quiet_driver|]. intros [k|]; [|apply (quiet_lift (Ok _))].
      apply mac_frame_bind; [apply mac_frame_wrapf, quiet_record|]. intros []. apply (quiet_lift (Ok _)). }
  intros kind. apply mac_frame_bind; [apply quiet_driver|]. intros [] m. unfold mac_do. simpl.
  apply (quiet_set_mac (λ d, delete (backend, b) (mac_boundaries d))).
Qed.

Lemma quiet_pending m : mac_frame m (pendingWorkloadCoverage m).2.
Proof.
  destruct (pendingWorkloadCoverage m) as [[roots dA] m'] eqn:E.
  apply pendingWorkloadCoverage_spec in E as [[f ->] _]. apply mac_frame_db; [apply db_frame_refl|done].
Qed.

Lemma quiet_foldl {B} (step : mac W → B → mac W) l m :
  (∀ m b, mac_frame m (step m b)) → mac_frame m (foldl step m l).
Proof.
  intros H. revert m. induction l as [|b l IH]; intros m; simpl; [done|].
  etrans; [apply (H m b)|apply IH].
Qed.

Lemma quiet_conditional m c : mac_frame m (conditionalReleaseBoundary m c).
Proof.
  unfold conditionalReleaseBoundary. destruct (_ <=? 1); [|done].
  set (m0 := with_counts _ m). pose proof (quiet_pending m0) as Hp.
  destruct (pendingWorkloadCoverage m0) as [[roots dA] m1]. simpl in Hp. change (mac_frame m m1) in Hp.
  destruct (negb _).
  - destruct (HelperOwned c); done.
  - destruct (HelperOwned c); [|done]. etrans; [exact Hp|apply quiet_remove].
Qed.

Lemma quiet_retry m : mac_frame m (retryDeferredBoundaries m).
Proof.
  unfold retryDeferredBoundaries. pose proof (quiet_pending m) as Hp.
  destruct (pendingWorkloadCoverage m) as [[roots dA] m1]. simpl in Hp. etrans; [exact Hp|].
  apply quiet_foldl. intros m2 b. unfold retry_one. destruct (negb _); [done|].
  pose proof (quiet_reads (query (λ d, bool_decide (is_Some (mac_boundaries d !! (backend, b))))) (reads_query _) m2) as Hq.
  change (on_db _ m2) with (isBoundaryOwnedByHelper b m2) in Hq.
  destruct (isBoundaryOwnedByHelper b m2) as [[[]|e] m3]; simpl in Hq; [|done..].
  etrans; [exact Hq|apply quiet_remove].
Qed.

Lemma quiet_release id m :
  db_frame (m_db m) (m_db (ReleaseSessionBinding id m)) ∧
  sessionBindings (ReleaseSessionBinding id m) = delete id (sessionBindings m).
Proof.
  unfold ReleaseSessionBinding. destruct (sessionBindings m !! id) as [covs|] eqn:E.
  2: { split; [apply db_frame_refl|]. by rewrite delete_id. }
  set (m0 := with_bindings _ m). cut (mac_frame m0 (retryDeferredBoundaries (foldl conditionalReleaseBoundary m0 covs))).
  { intros (H1 & H2 & _). by split. }
  etrans; [|apply quiet_retry]. apply quiet_foldl, quiet_conditional.
Qed.

(** A lease whose release function has not run yet is given back whole. *)
Lemma quiet_lease key m : key ∉ releasedOnce m →
  db_frame (m_db m) (m_db (releaseLease key m)) ∧ sessionBindings (releaseLease key m) = sessionBindings m ∧
  sessionUseLeases (releaseLease key m) = delete key (sessionUseLeases m).
Proof.
  intros Hk. unfold releaseLease. rewrite decide_False by done. cbv zeta. simpl.
  destruct (sessionUseLeases m !! key) as [covs|] eqn:E.
  2: { split_and!; [apply db_frame_refl|done|]. simpl. by rewrite delete_id. }
  match goal with |- context [retryDeferredBoundaries (foldl _ ?m1 _)] => set (m0 := m1) end.
  cut (mac_frame m0 (retryDeferredBoundaries (foldl conditionalReleaseBoundary m0 covs))); [done|].
  etrans; [|apply quiet_retry]. apply quiet_foldl, quiet_conditional.
Qed.
End coordinator.

(** ** Operations *)

(** A supervisor step of the data plane: no quiesce, and a new operation only
    for a Launcher some request has resolved. *)
Definition data_step (requests : list string) (s s' : sup) : Prop :=
  step s s' ∧ quiesced s' = quiesced s ∧
  ∀ o op, heap s' !! o = Some op → heap s !! o = None → op_LauncherID op ∈ requests.

Definition quiesced_for (lid : string) (s : sup) : bool := default false (quiesced s !! lid).

Definition registered_running (s : sup) (o : op_ref) (lid : string) : Prop :=
  o ∈ op_list s ∧ op_running o s = true ∧ ∃ op, heap s !! o = Some op ∧ op_LauncherID op = lid.

Lemma op_le_running op op' : op_le op op' → op_State op' = operationRunning → is_Some (op_CompletedAt op) → op_State op = operationRunning.
Proof. intros [_ _ _ _ Ht] Hr Hc. destruct (Ht Hc) as (_ & E & _). congruence. Qed.

(** The registry grows only by an admission, past the quiesce check. *)
Lemma ops_step (s s' : sup) : step s s' →
  ops s' ⊆ ops s ∨ ∃ o op, heap s !! o = Some op ∧ quiesced_for (op_LauncherID op) s = false ∧
    ops s' = <[op_ID op := o]> (ops s).
Proof.
  intros Hs.
  assert (Hcomplete : ∀ o op, ops (finish o (releaseCapacity o (set_op o op s))) = ops s).
  { intros o op. by rewrite (proj1 (proj2 (complete_spec o op s))). }
  destruct Hs as [sid lid kind|sid b|r|o kind id sid lid now cid Ho|o op r Ho Hct Hcap|o op r Ho Hct Hcap
    |o|o ok now|o d now|o rc ex d now|o reason _|o dl|o kc cid'|o _| |lid|lid b].
  - left. unfold reserve, reserveCapacityLocked. by repeat case_match; simplify_eq.
  - left. unfold reserveCapacity, reserveCapacityLocked. by repeat case_match; simplify_eq.
  - left. unfold Release. repeat case_match; simpl; try done. by destruct (same_life_call c s) as (_ & -> & _).
  - by left.
  - left. by destruct (ops_transfer o r s) as (-> & _).
  - unfold admitReserved. rewrite Ho. destruct (shutting s); [by left|].
    destruct (default false (quiesced s !! op_LauncherID op)) eqn:Eq; [by left|]. simpl. right.
    exists o, op. split_and!; [done|done|]. by rewrite (proj1 (ops_transfer _ _ _)).
  - left. unfold releaseCapacity. repeat case_match; simpl; try done. by destruct (same_life_call c s) as (_ & -> & _).
  - left. unfold startOperationProcess. by repeat case_match.
  - left. unfold succeed. destruct (heap s !! o) as [op|]; [|done]. destruct (op_CompletedAt op); [done|]. simpl. by rewrite Hcomplete.
  - left. unfold fail_op. destruct (heap s !! o) as [op|]; [|done]. destruct (op_CompletedAt op); [done|]. simpl. by rewrite Hcomplete.
  - left. unfold mark_op. by repeat case_match.
  - left. unfold forceClaim. by repeat case_match.
  - left. unfold forceKill. destruct (heap s !! o); [|done]. simpl.
    apply (kill_signals_ind (λ x, ops x ⊆ ops s)); [|done]. by intros ? e [[c ->]| ->].
  - left. unfold prune_remove. repeat case_match; simpl; try done. apply delete_subseteq.
  - by left.
  - by left.
  - left. unfold setQuiesced. by destruct b.
Qed.

Lemma op_running_back (s : sup) o op op' :
  life_inv s → heap s !! o = Some op → op_le op op' → op_State op' = operationRunning → op_State op = operationRunning.
Proof.
  intros Hl Ho Hle Hr. pose proof (ok_state _ _ _ (li_ops _ Hl _ _ Ho)) as Hst. apply Hst.
  apply eq_None_not_Some. intros Hc. destruct (le_terminal _ _ Hle Hc) as (_ & Es & _).
  rewrite Hr in Es. destruct Hc as [t Ht]. by rewrite (proj1 Hst) in Ht.
Qed.

(** A registered running operation was one before, unless its Launcher was
    open to admission. *)
Lemma step_registered (s s' : sup) o lid :
  life_inv s → step s s' → registered_running s' o lid → registered_running s o lid ∨ quiesced_for lid s = false.
Proof.
  intros Hl Hs (Hreg & Hrun & op' & Ho' & Elid). unfold op_running in Hrun. rewrite Ho' in Hrun.
  apply bool_decide_eq_true_1 in Hrun. apply op_list_elem in Hreg as [id Hid].
  pose proof (heap_le_step s s' Hs) as Hle.
  assert (Hback : ∀ op, heap s !! o = Some op → op_State op = operationRunning ∧ op_LauncherID op = lid).
  { intros op Ho. destruct (Hle _ _ Ho) as (op1 & Ho1 & L). assert (op1 = op') as -> by congruence.
    split; [by eapply op_running_back|]. destruct (le_id _ _ L) as (_ & _ & E & _). congruence. }
  destruct (ops_step s s' Hs) as [Hsub|(o1 & op1 & Ho1 & Hq & E)].
  - left. eapply lookup_weaken in Hid; [|done]. destruct (li_map _ Hl _ _ Hid) as (op & Ho & _).
    destruct (Hback op Ho) as [Hr E]. split_and!; [apply op_list_elem; by exists id| |by exists op].
    unfold op_running. rewrite Ho. by apply bool_decide_eq_true_2.
  - rewrite E in Hid. apply lookup_insert_Some in Hid as [[_ <-]|[_ Hid]].
    + right. destruct (Hback op1 Ho1) as [_ <-]. done.
    + left. destruct (li_map _ Hl _ _ Hid) as (op & Ho & _).
      destruct (Hback op Ho) as [Hr E']. split_and!; [apply op_list_elem; by exists id| |by exists op].
      unfold op_running. rewrite Ho. by apply bool_decide_eq_true_2.
Qed.

(** ** The interleaved daemon *)

Section daemon.
Context {W : Type} `{!sessionMACDriver W}.
Implicit Types a : app W.

Definition has_launcher (lid : string) a : Prop := is_Some (launchers (a_db a) !! lid).
Definition open_or_present (lid : string) a : Prop := has_launcher lid a ∨ quiesced_for lid (a_sup a) = true.

(** What runs beside a lifecycle operation: the supervisor's data plane, a
    request resolving its bearer or ending, and whatever the coordinator and the
    unlocked handlers do to the tables other than Principals and Launchers. *)
Definition same_owners (d d' : db) : Prop := launchers d' = launchers d ∧ principals d' = principals d.

Inductive env a : app W → Prop :=
  | env_operation s' : data_step (a_requests a) (a_sup a) s' → env a (mkApp (a_mac a) s' (a_removed a) (a_requests a))
  | env_resolve token now sess d f :
      findSessionByToken token now (a_db a) (m_faults (a_mac a)) = (Ok sess, d, f) →
      env a (mkApp (with_db d f (a_mac a)) (a_sup a) (a_removed a) (ss_LauncherID sess :: a_requests a))
  | env_finish l : l ⊆ a_requests a → env a (mkApp (a_mac a) (a_sup a) (a_removed a) l)
  | env_tables m : same_owners (a_db a) (m_db m) → env a (mkApp m (a_sup a) (a_removed a) (a_requests a)).

Record life_ok a : Prop := {
  lo_sup : reachable (a_sup a);
  lo_requests : ∀ lid, lid ∈ a_requests a → open_or_present lid a;
  lo_ops : ∀ o op, heap (a_sup a) !! o = Some op → open_or_present (op_LauncherID op) a;
  lo_running : ∀ o lid, registered_running (a_sup a) o lid → has_launcher lid a }.

(** The tables may change as long as no Launcher that matters goes. *)
Lemma life_tables a m rm :
  life_ok a →
  (∀ lid, has_launcher lid a → is_Some (launchers (m_db m) !! lid) ∨
     (quiesced_for lid (a_sup a) = true ∧ ∀ o, ¬ registered_running (a_sup a) o lid)) →
  life_ok (mkApp m (a_sup a) rm (a_requests a)).
Proof.
  intros [H1 H2 H3 H4] Hk. unfold open_or_present, has_launcher in *.
  assert (Hop : ∀ lid, is_Some (launchers (a_db a) !! lid) ∨ quiesced_for lid (a_sup a) = true →
    is_Some (launchers (m_db m) !! lid) ∨ quiesced_for lid (a_sup a) = true).
  { intros lid [Hl|Hl]; [|by right]. destruct (Hk lid Hl) as [?|[? _]]; [by left|by right]. }
  split; simpl; unfold open_or_present, has_launcher; simpl; [done|auto|eauto|].
  intros o lid Hr. destruct (Hk lid (H4 _ _ Hr)) as [?|[_ Hn]]; [done|]. by destruct (Hn o).
Qed.

Lemma life_same_tables a m rm : life_ok a → same_owners (a_db a) (m_db m) → life_ok (mkApp m (a_sup a) rm (a_requests a)).
Proof. intros Hi [E _]. apply life_tables; [done|]. intros lid Hl. left. by rewrite E. Qed.

Lemma life_env a a' : life_ok a → env a a' → life_ok a'.
Proof.
  intros Hi He. pose proof Hi as [H1 H2 H3 H4]. destruct He as [s' (Hs & Hq & Hn)|token now sess d f Hf|l Hl|m Hm].
  - assert (Hq' : ∀ lid, quiesced_for lid s' = quiesced_for lid (a_sup a)) by (intros lid; unfold quiesced_for; by rewrite Hq).
    assert (Hops : ∀ o op, heap s' !! o = Some op → open_or_present (op_LauncherID op) a).
    { intros o op Ho. destruct (heap (a_sup a) !! o) as [op0|] eqn:Ho0; [|eauto].
      destruct (heap_le_step _ _ Hs _ _ Ho0) as (op1 & Ho1 & L). simplify_eq.
      destruct (le_id _ _ L) as (_ & _ & -> & _). eauto. }
    split; simpl; unfold open_or_present, has_launcher in *; simpl.
    + eapply rtc_r; [exact H1|exact Hs].
    + intros lid Hlid. rewrite Hq'. by apply H2.
    + intros o op Ho. rewrite Hq'. eauto.
    + intros o lid Hr. destruct (step_registered _ _ _ _ (reachable_life _ H1) Hs Hr) as [?|Hf]; [eauto|].
      destruct Hr as (_ & _ & op & Ho & <-). destruct (Hops _ _ Ho) as [?|?]; [done|congruence].
  - unfold findSessionByToken in Hf. apply db_bind_ok in Hf as (row & d1 & f1 & Hq & Hf).
    apply wrapf_ok, query_ok in Hq as (-> & -> & _).
    destruct (find_row _ (sessions (a_db a))) as [[sid row]|] eqn:Ef; [|done].
    unfold session_projection in Hf. destruct (launcher_join (s_launcher_id row) (a_db a)) as [[l p]|] eqn:Ej; [|done].
    injection Hf as <- <- _. simpl.
    assert (Hl : is_Some (launchers (a_db a) !! s_launcher_id row)).
    { unfold launcher_join in Ej. by destruct (launchers (a_db a) !! s_launcher_id row). }
    split; simpl; unfold open_or_present, has_launcher in *; simpl; [done| |done|done].
    intros lid [->|Hlid]%elem_of_cons; [by left|by apply H2].
  - split; simpl; [done|intros lid Hlid; by apply H2, Hl|done|done].
  - by apply life_same_tables.
Qed.

(** ** Assertions the data plane leaves alone *)

Definition quiet_launcher (lid : string) a : Prop := quiesced_for lid (a_sup a) = true.
Definition idle_launcher (lid : string) a : Prop :=
  quiet_launcher lid a ∧ ∀ o, ¬ registered_running (a_sup a) o lid.

(** An assertion on the owner tables. *)
Definition on_owners (F : gmap string launcher_row → gmap Z principal_row → Prop) a : Prop :=
  F (launchers (a_db a)) (principals (a_db a)).

Lemma env_owners a a' : env a a' → same_owners (a_db a) (a_db a').
Proof.
  intros [s' _|token now sess d f Hf|l _|m Hm]; [done| |done|done].
  unfold findSessionByToken in Hf. apply db_bind_ok in Hf as (row & d1 & f1 & Hq & Hf).
  apply wrapf_ok, query_ok in Hq as (-> & -> & _).
  destruct (match find_row _ _ with Some _ => _ | None => _ end); [|done]. by injection Hf as _ <- _.
Qed.

Lemma stable_owners F : stable life_ok env (on_owners F).
Proof. intros a a' _ H He. destruct (env_owners _ _ He) as [E1 E2]. unfold on_owners in *. by rewrite E1, E2. Qed.

Lemma env_quiesced a a' : env a a' → quiesced (a_sup a') = quiesced (a_sup a).
Proof. by intros [s' (_ & Hq & _)|token now sess d f Hf|l _|m Hm]. Qed.

Lemma stable_quiet lid : stable life_ok env (quiet_launcher lid).
Proof. intros a a' _ H He. unfold quiet_launcher, quiesced_for in *. by rewrite (env_quiesced _ _ He). Qed.

(** No admission reaches a quiesced Launcher. *)
Lemma stable_idle lid : stable life_ok env (idle_launcher lid).
Proof.
  intros a a' Hi [Hq Hn] He. split; [by eapply stable_quiet|].
  intros o Hr. destruct He as [s' (Hs & _)|token now sess d f Hf|l _|m Hm]; simpl in Hr; try by eapply Hn.
  destruct (step_registered _ _ _ _ (reachable_life _ (lo_sup _ Hi)) Hs Hr) as [H|H]; [by eapply Hn|].
  unfold quiet_launcher in Hq. congruence.
Qed.

End daemon.
