(* ===== verification/LifecycleRules.v ===== *)
(** * LifecycleRules: the lifecycle operations beside a running data plane *)
From S2P Require Import Prelude Filepath AllowedRoots Database SnapshotStore Credential Launcher MacLifecycle MacTheory Session PrincipalStore DbHoare OwnershipTheory Operation OperationTheory Proc Lifecycle LifecyclePolicy LifecycleTheory.
Local Open Scope Z_scope.

Section daemon.
Context {W : Type} `{!sessionMACDriver W} (dk : docker).
Implicit Types a : app W.
Abbreviation RG := (rg (S := app W) life_ok env).

(** ** Atomic actions *)

Lemma rg_call_db {A} (m : DB A) P Q :
  stable life_ok env P →
  (∀ a r d f, life_ok a → P a → m (a_db a) (m_faults (a_mac a)) = (r, d, f) →
     let a' := mkApp (with_db d f (a_mac a)) (a_sup a) (a_removed a) (a_requests a) in life_ok a' ∧ Q r a') →
  RG P (call_db m) Q.
Proof.
  intros HP H. apply rg_atom; [apply life_env|done|]. intros a Hi Hp. unfold on_db, a_db in *.
  specialize (H a). destruct (m (m_db (a_mac a)) (m_faults (a_mac a))) as [[r d] f]. by apply H.
Qed.

(** A read of the tables. *)
Lemma rg_read {A} (m : DB A) P (F : result A → gmap string launcher_row → gmap Z principal_row → Prop) :
  stable life_ok env P → reads m →
  (∀ a a', a_sup a' = a_sup a → same_owners (a_db a) (a_db a') → P a → P a') →
  (∀ d f r d' f', m d f = (r, d', f') → F r (launchers d) (principals d)) →
  RG P (call_db m) (λ r a, P a ∧ on_owners (F r) a).
Proof.
  intros HP Hm Hfr HF. apply rg_call_db; [done|]. intros a r d f Hi Hp Em.
  pose proof (Hm (a_db a) (m_faults (a_mac a))) as Hd. rewrite Em in Hd. simpl in Hd. subst d. simpl.
  split; [by apply life_same_tables|]. split; [by eapply (Hfr a)|]. by eapply HF.
Qed.

Lemma rg_on_sup f P Q :
  stable life_ok env P →
  (∀ a, life_ok a → P a → let a' := mkApp (a_mac a) (f (a_sup a)) (a_removed a) (a_requests a) in life_ok a' ∧ Q a') →
  RG P (on_sup f) (λ _, Q).
Proof. intros HP H. by apply rg_atom; [apply life_env|..]. Qed.

Lemma rg_get_sup {A} (q : sup → A) P Q :
  stable life_ok env P → (∀ a, life_ok a → P a → Q (q (a_sup a)) a) → RG P (get_sup q) Q.
Proof. intros HP H. apply rg_atom; [apply life_env|done|]. intros a Hi Hp. split; [done|]. by apply H. Qed.

Lemma rg_try {A B} P (m : proc (app W) (result A)) (fail : error → proc (app W) B) k Q T :
  RG P m Q → (∀ e, RG (Q (Err e)) (fail e) T) → (∀ x, RG (Q (Ok x)) (k x) T) → RG P (p_try m fail k) T.
Proof.
  intros Hm Hf Hk. unfold p_try. eapply rg_bind; [exact Hm|]. intros [x|e]; [apply Hk|apply Hf].
Qed.

(** ** The assertions of a lifecycle operation *)

(** The Launchers of [q] are quiesced, those of [l] idle, and [F] holds of the
    owner tables. *)
Record held (q l : list string) (F : gmap string launcher_row → gmap Z principal_row → Prop) a : Prop := {
  h_quiet : ∀ lid, lid ∈ q → quiet_launcher lid a;
  h_idle : ∀ lid, lid ∈ l → idle_launcher lid a;
  h_owners : on_owners F a }.

Lemma stable_held q l F : stable life_ok env (held q l F).
Proof.
  intros a a' Hi [H1 H2 H3] He. split.
  - intros lid Hl. eapply stable_quiet; eauto.
  - intros lid Hl. eapply stable_idle; eauto.
  - eapply stable_owners; eauto.
Qed.

Lemma held_frame q l F a a' :
  a_sup a' = a_sup a → same_owners (a_db a) (a_db a') → held q l F a → held q l F a'.
Proof.
  intros Es [E1 E2] [H1 H2 H3]. split; unfold idle_launcher, quiet_launcher, on_owners in *; by rewrite ?Es, ?E1, ?E2.
Qed.

Lemma held_mono q q' l l' (F F' : gmap string launcher_row → gmap Z principal_row → Prop) a :
  q' ⊆ q → l' ⊆ l → (∀ ls ps, F ls ps → F' ls ps) → held q l F a → held q' l' F' a.
Proof. intros Hq Hl HF [H1 H2 H3]. split; [auto..|]. by apply HF. Qed.

Lemma launcher_open lid s s' : registered_running s' = registered_running s → ∀ o, registered_running s' o lid ↔ registered_running s o lid.
Proof. by intros ->. Qed.

Lemma held_quiesce lid q l F a :
  held q l F a → held (lid :: q) l F (mkApp (a_mac a) (quiesceLauncher lid (a_sup a)) (a_removed a) (a_requests a)).
Proof.
  intros [H1 H2 H3]. assert (Hq : ∀ lid', quiet_launcher lid' a ∨ lid' = lid →
    quiet_launcher lid' (mkApp (a_mac a) (quiesceLauncher lid (a_sup a)) (a_removed a) (a_requests a))).
  { intros lid' H. unfold quiet_launcher, quiesced_for in *. simpl. rewrite lookup_insert. case_decide; [done|].
    destruct H as [H|E]; [done|by subst]. }
  split; [| |done].
  - intros lid' [->|Hin]%elem_of_cons; apply Hq; [by right|left; auto].
  - intros lid' Hin. destruct (H2 _ Hin) as [? Hn]. split; [apply Hq; by left|]. exact Hn.
Qed.

Lemma life_quiesce lid a :
  life_ok a → life_ok (mkApp (a_mac a) (quiesceLauncher lid (a_sup a)) (a_removed a) (a_requests a)).
Proof.
  intros [H1 H2 H3 H4].
  assert (Hop : ∀ lid', open_or_present lid' a →
    open_or_present lid' (mkApp (a_mac a) (quiesceLauncher lid (a_sup a)) (a_removed a) (a_requests a))).
  { intros lid' [H|H]; [by left|right]. unfold quiesced_for in *. simpl. rewrite lookup_insert. by case_decide. }
  split; simpl; [|auto|eauto|exact H4]. eapply rtc_r; [exact H1|constructor].
Qed.

(** Re-opening is sound for a Launcher that exists. *)
Lemma life_open lid a : life_ok a → has_launcher lid a →
  life_ok (mkApp (a_mac a) (setQuiesced lid false (a_sup a)) (a_removed a) (a_requests a)).
Proof.
  intros [H1 H2 H3 H4] Hl.
  assert (Hop : ∀ lid', open_or_present lid' a →
    open_or_present lid' (mkApp (a_mac a) (setQuiesced lid false (a_sup a)) (a_removed a) (a_requests a))).
  { intros lid' [H|H]; [by left|]. destruct (decide (lid = lid')) as [<-|Hne]; [by left|right].
    unfold quiesced_for in *. simpl. by rewrite lookup_delete_ne. }
  split; simpl; [|auto|eauto|exact H4]. eapply rtc_r; [exact H1|apply (step_setQuiesced _ lid false)].
Qed.

Lemma life_setQuiesced lid b a : life_ok a → (b = false → has_launcher lid a) →
  life_ok (mkApp (a_mac a) (setQuiesced lid b (a_sup a)) (a_removed a) (a_requests a)).
Proof. intros Hi Hb. destruct b; [by apply life_quiesce|]. by apply life_open, Hb. Qed.

(** ** The shared steps *)

Lemma quiesce_rg lid q l F : RG (held q l F) (quiesce lid) (λ _, held (lid :: q) l F).
Proof. apply rg_on_sup; [apply stable_held|]. intros a Hi Hh. split; [by apply life_quiesce|by apply held_quiesce]. Qed.

Lemma quiesce_all_rg lids q l F : RG (held q l F) (proc_iter quiesce lids) (λ _, held (lids ++ q) l F).
Proof.
  revert q. induction lids as [|lid lids IH]; intros q; cbn [proc_iter]; [by apply rg_ret|].
  eapply rg_bind; [apply quiesce_rg|]. intros []. eapply rg_weaken; [apply IH|done|].
  intros [] a. apply held_mono; [|done..]. set_solver.
Qed.

Lemma release_rg ids q l F : RG (held q l F) (releaseSessionBindings ids) (λ _, held q l F).
Proof.
  apply rg_iter. intros id _. apply rg_atom; [apply life_env|apply stable_held|].
  intros a Hi Hh. simpl. assert (same_owners (a_db a) (m_db (ReleaseSessionBinding id (a_mac a)))) as Hs.
  { destruct (quiet_release id (a_mac a)) as [E _]. unfold db_frame in E. rewrite E. done. }
  split; [by apply life_same_tables|]. by eapply held_frame; [..|exact Hh].
Qed.

Lemma restore_rg lid P : RG P (restoreLauncherAdmissionAfterRefusal lid) (λ _ _, True).
Proof.
  eapply rg_weaken with (P' := λ _, True); [|done|done].
  unfold restoreLauncherAdmissionAfterRefusal, syncLauncherAdmission.
  eapply rg_bind; [|intros r; by apply rg_ret with (Q := λ _ _, True)].
  eapply rg_try with (Q := λ r a, on_owners (λ ls ps, match r with
    | Ok closed => closed = false → is_Some (ls !! lid) | Err _ => True end) a).
  - eapply rg_weaken; [apply (rg_read _ (λ _, True)) with (F := λ r ls ps, match r with
      | Ok closed => closed = false → is_Some (ls !! lid) | Err _ => True end)|done|by intros r a []].
    + apply stable_const.
    + apply reads_wrapf, reads_query.
    + done.
    + intros d f [c|e] d' f' H; [|done]. apply wrapf_ok, query_ok in H as (-> & _ & _).
      unfold effective_closed, launcher_join. by destruct (launchers d !! lid).
  - intros e. by apply rg_ret with (Q := λ _ _, True).
  - intros closed. eapply rg_bind with (Q := λ _ _, True); [|intros []; by apply rg_ret].
    apply rg_on_sup; [apply stable_owners|]. intros a Hi Ho. split; [|done]. by apply life_setQuiesced.
Qed.

Lemma restore_all_rg lids P : RG P (restoreLauncherAdmissionAfterPrincipalRefusal lids) (λ _ _, True).
Proof.
  eapply rg_weaken with (P' := λ _, True); [|done|done]. apply rg_iter. intros lid _. apply restore_rg.
Qed.

(** ** What the lifecycle statements do to the owner tables *)

(** The same Launchers under the same Principals. *)
Definition same_keys (d0 d : db) : Prop :=
  principals d = principals d0 ∧ ∀ l, l_principal_id <$> launchers d !! l = l_principal_id <$> launchers d0 !! l.

Lemma same_keys_insert d0 d lid r r' :
  same_keys d0 d → launchers d !! lid = Some r → l_principal_id r' = l_principal_id r →
  same_keys d0 (set_launchers (<[lid := r']> (launchers d)) d).
Proof.
  intros [H1 H2] Hr E. split; [done|]. intros l. simpl. rewrite <-H2, lookup_insert. case_decide; [|done]. subst.
  rewrite Hr. simpl. by rewrite E.
Qed.

Lemma keys_rename d0 lid name : preserves (same_keys d0) (rename_step lid name).
Proof.
  unfold rename_step. destruct name as [n|]; [|apply preserves_ret].
  apply (triple_map_error (same_keys d0) (same_keys d0)).
  - apply preserves_stmt. intros d [] d' Hk. destruct (launchers d !! lid) as [r|] eqn:Hr; [|by intros [= <-]].
    destruct (negb _); [done|]. destruct (launcher_name_taken _ _); [done|]. intros [= <-]. by eapply same_keys_insert.
  - intros e. destruct (isSQLiteUniqueError e); eexists; reflexivity.
Qed.

Lemma keys_enabled d0 lid cur pe en : preserves (same_keys d0) (enabled_step lid cur pe en).
Proof.
  unfold enabled_step. destruct en as [b|]; [|apply preserves_ret].
  apply preserves_bind.
  { destruct b; [apply preserves_ret|]. apply preserves_bind; [apply preserves_wrapf, preserves_query|]. intros ids.
    apply preserves_bind; [|intros; apply preserves_ret]. apply preserves_wrapf, preserves_stmt. by intros d [] d' Hk [= <-]. }
  intros ids. apply preserves_bind; [|intros; apply preserves_ret].
  destruct (negb _); [|apply preserves_ret]. apply preserves_wrapf, preserves_stmt. intros d [] d' Hk.
  destruct (launchers d !! lid) as [r|] eqn:Hr; [|by intros [= <-]]. destruct (launcher_check _); [|done].
  intros [= <-]. by eapply same_keys_insert.
Qed.

Lemma persist_owners lid name en d f r d' f' :
  persistLauncherChange lid name en d f = (r, d', f') →
  same_keys d d' ∧ ∀ res, r = Ok res → is_Some (launchers d !! lid).
Proof.
  intros H. split.
  - assert (Hk : preserves (same_keys d) (persistLauncherChange lid name en)).
    { unfold persistLauncherChange. apply triple_case; [apply preserves_fail|].
      apply preserves_bind; [apply preserves_result|]. intros [].
      apply preserves_transaction, preserves_bind; [apply preserves_wrapf, preserves_query|].
      intros [[l p]|]; [|apply preserves_fail]. apply preserves_bind; [apply keys_rename|]. intros []. apply keys_enabled. }
    specialize (Hk d f). rewrite H in Hk. by destruct r; apply Hk.
  - intros res ->. unfold persistLauncherChange in H. case_bool_decide; [done|].
    apply db_bind_ok in H as ([] & d1 & f1 & Hn & H). injection Hn as _ <- _.
    pose proof (transaction_atomic "cannot begin transaction" "cannot commit launcher change"
      (row ← wrapf "cannot read launcher enabled state" [] (query (launcher_join lid));
       match row with
       | None => db_fail "launcher not found" [ErrLauncherNotFound]
       | Some (l, p) => _ ← rename_step lid name; enabled_step lid (l_enabled l) (p_enabled p) en
       end) d f1) as Ht. rewrite H in Ht. destruct Ht as (f2 & f3 & Ht).
    apply db_bind_ok in Ht as (row & d2 & f4 & Hq & Ht). apply wrapf_ok, query_ok in Hq as (-> & -> & _).
    unfold launcher_join in Ht. by destruct (launchers d !! lid).
Qed.

Lemma delete_row_owners lid d f r d' f' :
  deleteLauncherRow lid d f = (r, d', f') → ∀ l, l ≠ lid → launchers d' !! l = launchers d !! l.
Proof.
  intros H. assert (Hk : preserves (λ d', ∀ l, l ≠ lid → launchers d' !! l = launchers d !! l) (deleteLauncherRow lid)).
  { unfold deleteLauncherRow. apply preserves_transaction, preserves_bind; [apply preserves_wrapf, preserves_query|].
    intros []; [|apply preserves_fail]. apply preserves_wrapf, preserves_stmt. intros d1 [] d2 Hd.
    destruct (negb _); [done|]. intros [= <-] l Hl. rewrite <-Hd by done. simpl.
    apply option_eq. intros x. rewrite map_lookup_filter_Some. simpl. rewrite bool_decide_eq_false_2 by done.
    split; [by intros [? _]|]. intros ?. split; [done|by intros []]. }
  specialize (Hk d f). rewrite H in Hk. by destruct r; apply Hk.
Qed.

(** The Principal a name resolves to. *)
Definition principal_named (name : string) (ps : gmap Z principal_row) : option Z :=
  fst <$> head (filter (λ kv : Z * principal_row, p_username kv.2 = name) (map_to_list ps)).

Lemma named_tx name d f pid d' f' :
  findPrincipalIDByUsernameInTx name d f = (Ok pid, d', f') → principal_named name (principals d) = Some pid ∧ d' = d.
Proof.
  unfold findPrincipalIDByUsernameInTx, principal_named. intros (row & d1 & f1 & Hq & H)%db_bind_ok.
  apply wrapf_ok, query_ok in Hq as (-> & -> & _). destruct (head _) as [[i p]|]; [|done]. by injection H as <- <- _.
Qed.

Lemma named name d f pid d' f' :
  findPrincipalIDByUsername name d f = (Ok pid, d', f') → principal_named name (principals d) = Some pid ∧ d' = d.
Proof. unfold findPrincipalIDByUsername. case_bool_decide; [done|]. apply named_tx. Qed.

(** Only the Launchers of the named Principal go. *)
Lemma delete_principal_owners name d f r d' f' :
  deletePrincipal name d f = (r, d', f') →
  ∀ l row, launchers d !! l = Some row → principal_named name (principals d) ≠ Some (l_principal_id row) →
    launchers d' !! l = Some row.
Proof.
  intros H l row Hl Hne. unfold deletePrincipal in H.
  match type of H with transaction ?b ?c ?body _ _ = _ => pose proof (transaction_atomic b c body d f) as Ht end.
  rewrite H in Ht. destruct r as [ids|e]; [|by subst]. destruct Ht as (f0 & f1 & Ht).
  apply db_bind_ok in Ht as (pid & d1 & f2 & Hp & Ht). apply named_tx in Hp as [Hp ->].
  apply db_bind_ok in Ht as (ids' & d2 & f3 & Hq & Ht). apply wrapf_ok, query_ok in Hq as (_ & -> & _).
  apply db_bind_ok in Ht as (u & d3 & f4 & Hs & Ht). apply wrapf_ok, stmt_ok in Hs as [[= _ <-] _].
  apply db_bind_ok in Ht as (u2 & d4 & f5 & Hs & Ht). apply wrapf_ok, stmt_ok in Hs as [Hs _]. injection Ht as _ <- _.
  cbv zeta in Hs. destruct (negb _); [done|]. injection Hs as _ <-. simpl. apply map_lookup_filter_Some. split; [done|]. simpl.
  unfold launcher_of_principal. simpl. rewrite Hl. rewrite bool_decide_eq_false_2; [by intros []|]. congruence.
Qed.

Lemma transaction_if_spec {A} b c (m : DB (A * bool)) d f r d' f' :
  transaction_if b c m d f = (r, d', f') →
  match r with
  | Ok x => ∃ commit f0 d1 f1, m d f0 = (Ok (x, commit), d1, f1) ∧ (d' = d ∨ d' = d1)
  | Err _ => d' = d
  end.
Proof.
  unfold transaction_if. destruct (stmt (λ d, Ok ((), d)) d f) as [[[[]|e] d0] f0]; [|by intros [= <- <- _]].
  destruct (m d f0) as [[[[x []]|e] d1] f1] eqn:E; [|intros [= <- <- _]; eauto 10|by intros [= <- <- _]].
  destruct (stmt (λ d, Ok ((), d)) d1 f1) as [[[[]|e] d2] f2] eqn:Es; [|by intros [= <- <- _]].
  apply stmt_ok in Es as [[= <-] _]. intros [= <- <- _]. eauto 10.
Qed.

Lemma admissions_ok pid b d f l d' f' :
  launcherAdmissionsInTx pid b d f = (Ok l, d', f') →
  d' = d ∧ ∀ la, la ∈ l → is_Some (launchers d !! la_Launcher la).
Proof.
  unfold launcherAdmissionsInTx. intros (-> & -> & _)%wrapf_ok%query_ok. split; [done|].
  intros la ([lid row] & Hin & He)%list_elem_of_omap. simpl in He. case_bool_decide; [|done]. injection He as <-.
  apply elem_of_map_to_list in Hin. by eexists.
Qed.

Lemma enabled_change_owners name b d f r d' f' :
  persistPrincipalEnabledChange name b d f = (r, d', f') →
  launchers d' = launchers d ∧
  ∀ res, r = Ok res → ∀ la, la ∈ pec_LauncherAdmissions res → is_Some (launchers d !! la_Launcher la).
Proof.
  unfold persistPrincipalEnabledChange. case_bool_decide; [by intros [= <- <- _]|].
  intros Ht%transaction_if_spec. destruct r as [res|e]; [|by subst].
  destruct Ht as (commit & f0 & d1 & f1 & Hm & Hd).
  cut (launchers d1 = launchers d ∧ ∀ la, la ∈ pec_LauncherAdmissions res → is_Some (launchers d !! la_Launcher la)).
  { intros [E Hla]. split; [destruct Hd as [->| ->]; done|]. by intros ? [= <-]. }
  clear Hd. apply db_bind_ok in Hm as (pid & d2 & f2 & Hp & Hm). apply named_tx in Hp as [_ ->].
  apply db_bind_ok in Hm as (cur & d3 & f3 & Hc & Hm). apply wrapf_ok, stmt_ok in Hc as [Hc _].
  destruct (principals d !! pid); [|done]. injection Hc as _ <-. case_bool_decide.
  - apply db_bind_ok in Hm as (ad & d4 & f4 & Ha & Hm). apply admissions_ok in Ha as [-> Ha]. by injection Hm as <- _ <- _.
  - apply db_bind_ok in Hm as (u & d4 & f4 & Hu & Hm). apply wrapf_ok, exec_ok in Hu as [[= <-] _].
    apply db_bind_ok in Hm as (ids & d5 & f5 & Hs & Hm).
    assert (launchers d5 = launchers d) as E5.
    { destruct b; [by injection Hs as _ <- _|]. apply db_bind_ok in Hs as (ids' & d6 & f6 & Hq & Hs).
      apply wrapf_ok, query_ok in Hq as (_ & -> & _). apply db_bind_ok in Hs as (u' & d7 & f7 & Hq & Hs).
      apply wrapf_ok, stmt_ok in Hq as [[= _ <-] _]. by injection Hs as _ <- _. }
    apply db_bind_ok in Hm as (ad & d6 & f6 & Ha & Hm). apply admissions_ok in Ha as [-> Ha]. injection Hm as <- _ <- _.
    simpl. by rewrite <-E5.
Qed.

(** ** The procedures *)

(** A condition on the owner tables that looks at keys and owners only. *)
Definition keyed (F : gmap string launcher_row → gmap Z principal_row → Prop) : Prop :=
  ∀ d d', same_keys d d' → F (launchers d) (principals d) → F (launchers d') (principals d').

Lemma held_keys q l F a (m : mac W) :
  keyed F → same_keys (a_db a) (m_db m) → held q l F a → held q l F (mkApp m (a_sup a) (a_removed a) (a_requests a)).
Proof. intros HF Hk [H1 H2 H3]. split; [done|done|]. by eapply HF. Qed.

Lemma life_keys a (m : mac W) rm : life_ok a → same_keys (a_db a) (m_db m) → life_ok (mkApp m (a_sup a) rm (a_requests a)).
Proof.
  intros Hi [_ Hk]. apply life_tables; [done|]. intros lid [r Hr]. left. unfold a_db in *. specialize (Hk lid).
  rewrite Hr in Hk. by destruct (launchers (m_db m) !! lid).
Qed.

Lemma persist_rg lid name en q l F : keyed F →
  RG (held q l F) (call_db (persistLauncherChange lid name en))
    (λ r a, held q l (λ ls ps, F ls ps ∧ (is_ok r = true → is_Some (ls !! lid))) a).
Proof.
  intros HF. apply rg_call_db; [apply stable_held|]. intros a r d f Hi Hh Em. apply persist_owners in Em as [Hk Hr].
  simpl. split; [by apply life_keys|].
  pose proof (held_keys q l F a (with_db d f (a_mac a)) HF Hk Hh) as [H1 H2 H3].
  split; [done|done|]. split; [exact H3|]. intros Hok. destruct r as [res|]; [|done]. destruct Hk as [_ Hk].
  destruct (Hr _ eq_refl) as [row Hrow]. specialize (Hk lid). rewrite Hrow in Hk. unfold a_db in *. simpl.
  by destruct (launchers d !! lid).
Qed.

Lemma any_running_rg lid (cs : list op_ref) q l F :
  lid ∈ q →
  RG (λ a, held q l F a ∧ ∀ o, registered_running (a_sup a) o lid → o ∈ cs) (any_running cs)
    (λ b a, held q (if b then l else lid :: l) F a).
Proof.
  intros Hq.
  assert (Hst : ∀ cs : list op_ref, stable life_ok env (λ a, held q l F a ∧ ∀ o, registered_running (a_sup a) o lid → o ∈ cs)).
  { intros cs' a a' Hi [Hh Hc] He. split; [by eapply stable_held|]. intros o Hr. apply Hc.
    destruct He as [s' (Hs & _)|token now sess d f Hf|l' _|m Hm]; [|done..]. simpl in Hr.
    destruct (step_registered _ _ _ _ (reachable_life _ (lo_sup _ Hi)) Hs Hr) as [H|H]; [done|].
    pose proof (h_quiet _ _ _ _ Hh _ Hq) as Hql. unfold quiet_launcher in Hql. congruence. }
  induction cs as [|o cs IH]; cbn [any_running].
  - apply rg_ret. intros a _ [[H1 H2 H3] Hc]. split; [done| |done]. intros lid' [->|Hin]%elem_of_cons; [|auto].
    split; [by apply H1|]. intros o Hr. by apply Hc, not_elem_of_nil in Hr.
  - eapply rg_bind.
    { apply rg_get_sup with (Q := λ (b : bool) (a : app W), held q l F a ∧ if b then True else ∀ o, registered_running (a_sup a) o lid → o ∈ cs);
        [apply Hst|]. intros a Hi [Hh Hc]. split; [done|]. destruct (op_running o (a_sup a)) eqn:Er; [done|].
      intros o' Hr. destruct (elem_of_cons cs o' o) as [Hin _]. destruct (Hin (Hc _ Hr)) as [->|?]; [|done].
      destruct Hr as (_ & Hr & _). congruence. }
    intros []; [by apply rg_ret; intros a _ [? _]|exact IH].
Qed.

Lemma has_running_rg lid q l F :
  lid ∈ q → RG (held q l F) (has_running lid) (λ b a, held q (if b then l else lid :: l) F a).
Proof.
  intros Hq. eapply rg_bind.
  - apply rg_get_sup with (Q := λ (cs : list op_ref) (a : app W), held q l F a ∧ ∀ o, registered_running (a_sup a) o lid → o ∈ cs); [apply stable_held|].
    intros a Hi Hh. split; [done|]. intros o (Hin & _ & op & Ho & E). unfold candidates. apply list_elem_of_filter.
    split; [|done]. rewrite Ho. by apply bool_decide_eq_true_2.
  - intros cs. by apply any_running_rg.
Qed.

Lemma inspect_rg lid q l F :
  lid ∈ q → RG (held q l F) (inspectLauncherRuntime dk lid)
    (λ r a, match r with Ok i => held q (if li_active i then l else lid :: l) F a | Err _ => True end).
Proof.
  intros Hq. eapply rg_bind; [by apply has_running_rg|]. intros []; [by apply rg_ret|]. apply rg_ret. intros a _ Hh.
  destruct (inspectHelperContainersForLauncher dk lid) as [cs|]; [|done]. simpl.
  destruct (classify_containers cs) as [[]|]; [|done..]. simpl. eapply held_mono; [..|exact Hh]; [done|set_solver|done].
Qed.

Lemma remove_stale_rg cs q l F : RG (held q l F) (removeStaleHelperContainers dk cs) (λ _, held q l F).
Proof.
  induction cs as [|c cs IH]; cbn [removeStaleHelperContainers]; [by apply rg_ret|].
  apply rg_case; intros _; [by apply rg_ret|]. eapply rg_bind with (Q := λ _, held q l F).
  - apply rg_atom; [apply life_env|apply stable_held|]. intros a Hi Hh. destruct (docker_rm dk (hc_ID c)); simpl; [|done].
    split; [by apply life_same_tables|]. by eapply held_frame; [..|exact Hh].
  - intros []; [exact IH|by apply rg_ret].
Qed.

Lemma disable_rg lid q l F : keyed F →
  RG (held q l F) (disableLauncherLocked lid) (λ r a, match r with Ok _ => held q l F a | Err _ => True end).
Proof.
  intros HF. unfold disableLauncherLocked, applyLauncherEnabledChange.
  eapply rg_bind; [apply quiesce_rg|]. intros [].
  eapply rg_try with (Q := λ r a, match r with Ok _ => held (lid :: q) l F a | Err _ => True end).
  - eapply rg_try; [by apply persist_rg|..].
    + intros e. by apply rg_ret.
    + intros res. eapply rg_bind; [apply release_rg|]. intros []. apply rg_ret. intros a _. apply held_mono; [done..|]. by intros ls ps [? _].
  - intros e. eapply rg_bind; [apply restore_rg|]. intros []. by apply rg_ret.
  - intros res. apply rg_ret. intros a _. apply held_mono; [set_solver|done|done].
Qed.

Definition anything (_ : gmap string launcher_row) (_ : gmap Z principal_row) : Prop := True.

Lemma delete_launcher_rg lid : RG (λ _, True) (deleteLauncherCheckedLocked dk lid) (λ _ _, True).
Proof.
  eapply rg_weaken with (P' := held [] [] anything) (Q' := λ _ _, True); [|intros a _ _; split; [by intros ? ?%not_elem_of_nil..|done]|done].
  unfold deleteLauncherCheckedLocked, refuse_delete.
  assert (Hrefuse : ∀ (P : app W → Prop) (e : error), RG P (_ ← restoreLauncherAdmissionAfterPrincipalRefusal [lid]; mret ([] : list string, Some e)) (λ _ _, True)).
  { intros P e. eapply rg_bind; [apply restore_all_rg|]. intros []. by apply rg_ret. }
  eapply rg_bind; [apply quiesce_rg|]. intros []. eapply rg_try; [apply inspect_rg; by left|intros; apply Hrefuse|].
  intros i. destruct (li_active i) eqn:Ea; [apply Hrefuse|].
  eapply rg_try; [apply remove_stale_rg|intros; apply Hrefuse|]. intros [].
  eapply rg_try; [by apply disable_rg|by intros; apply rg_ret|]. intros revoked.
  eapply rg_try with (Q := λ _ _, True); [|by intros; apply rg_ret|by intros; apply rg_ret].
  apply rg_call_db; [apply stable_held|]. intros a r d f Hi Hh Em. pose proof (delete_row_owners _ _ _ _ _ _ Em) as Hd.
  rewrite Ea in Hh. simpl. split; [|done]. apply life_tables; [done|]. intros l Hl. destruct (decide (l = lid)) as [->|Hne].
  - right. destruct (h_idle _ _ _ _ Hh lid) as [? ?]; [by left|]. done.
  - left. simpl. rewrite (Hd l Hne). exact Hl.
Qed.

Lemma update_launcher_rg lid name en : RG (λ _, True) (updateLauncherWithLifecycleLocked lid name en) (λ _ _, True).
Proof.
  eapply rg_weaken with (P' := held [] [] anything) (Q' := λ _ _, True); [|intros a _ _; split; [by intros ? ?%not_elem_of_nil..|done]|done].
  unfold updateLauncherWithLifecycleLocked. eapply rg_try with (Q := λ _, held [] [] anything).
  - eapply rg_weaken; [apply (rg_read _ (held [] [] anything)) with (F := λ _ _ _, True)|done|by intros r a [? _]].
    + apply stable_held.
    + intros d f. unfold findLauncherByID. case_bool_decide; [done|]. unfold launcherFromRow.
      apply (reads_bind (wrapf _ _ (query _))); [apply reads_wrapf, reads_query|]. intros [[[i l] p]|]; [|apply reads_fail].
      apply reads_bind; [apply reads_launcher_roots|intros; apply reads_ret].
    + intros a a'. apply held_frame.
    + done.
  - intros e. by apply rg_ret.
  - intros cur. eapply rg_bind with (Q := λ _, held [] [] anything).
    { case_bool_decide; [|by apply rg_ret]. eapply rg_weaken; [apply quiesce_rg|done|]. intros [] a. apply held_mono; [set_solver|done|done]. }
    intros []. eapply rg_try; [by apply persist_rg|..].
    + intros e. eapply rg_bind with (Q := λ _ _, True).
      { case_bool_decide; [apply restore_rg|by apply rg_ret]. }
      intros []. by apply rg_ret.
    + intros res. eapply rg_bind; [apply release_rg|]. intros []. eapply rg_bind with (Q := λ _ _, True).
      { case_bool_decide; [|by apply rg_ret]. apply rg_on_sup; [apply stable_held|]. intros a Hi Hh. split; [|done].
        apply life_setQuiesced; [done|]. intros _. destruct (h_owners _ _ _ _ Hh) as [_ Hl]. by apply Hl. }
      intros []. by apply rg_ret.
Qed.


Lemma held_nothing a : held [] [] anything a.
Proof. split; [by intros ? ?%not_elem_of_nil..|done]. Qed.

(** The enabled transition of a Principal leaves every Launcher row. *)
Lemma apply_principal_rg name b :
  RG (held [] [] anything) (applyPrincipalEnabledChange name b)
    (λ r a, match r with
            | Ok res => on_owners (λ ls _, ∀ la, la ∈ pec_LauncherAdmissions res → is_Some (ls !! la_Launcher la)) a
            | Err _ => True end).
Proof.
  unfold applyPrincipalEnabledChange.
  eapply rg_try with (Q := λ r a, match r with
    | Ok res => held [] [] (λ ls _, ∀ la, la ∈ pec_LauncherAdmissions res → is_Some (ls !! la_Launcher la)) a
    | Err _ => True end).
  - apply rg_call_db; [apply stable_held|]. intros a r d f Hi Hh Em. apply enabled_change_owners in Em as [E Hla].
    simpl. split.
    + apply life_tables; [done|]. intros lid Hl. left. simpl. rewrite E. exact Hl.
    + destruct r as [res|]; [|done]. split; [by intros ? ?%not_elem_of_nil..|]. unfold on_owners, a_db. simpl. rewrite E. by apply Hla.
  - intros e. by apply rg_ret.
  - intros res. eapply rg_bind with (Q := λ _, held [] [] (λ ls _, ∀ la, la ∈ pec_LauncherAdmissions res → is_Some (ls !! la_Launcher la))).
    { destruct (pec_Changed res); [apply release_rg|by apply rg_ret]. }
    intros []. apply rg_ret. intros a _ Hh. apply Hh.
Qed.

Lemma enable_principal_rg name : RG (λ _, True) (enablePrincipalLaunchersLocked name) (λ _ _, True).
Proof.
  eapply rg_weaken with (P' := held [] [] anything) (Q' := λ _ _, True); [|intros; apply held_nothing|done].
  unfold enablePrincipalLaunchersLocked. eapply rg_try; [apply apply_principal_rg|by intros; apply rg_ret|].
  intros res. eapply rg_bind; [|intros []; by apply rg_ret with (Q := λ _ _, True)].
  apply rg_iter. intros la Hin. apply rg_on_sup; [apply stable_owners|]. intros a Hi Ho. split; [|exact Ho].
  apply life_setQuiesced; [done|]. intros _. by apply Ho.
Qed.

Lemma read_launchers_rg {A} (m : DB A) (F : result A → gmap string launcher_row → gmap Z principal_row → Prop) G :
  reads m → (∀ d f r d' f', m d f = (r, d', f') → F r (launchers d) (principals d)) →
  RG (held [] [] G) (call_db m) (λ r, held [] [] (λ ls ps, G ls ps ∧ F r ls ps)).
Proof.
  intros Hm HF. eapply rg_weaken; [apply (rg_read m (held [] [] G) F); [apply stable_held|done| |done]|done|].
  - intros a a'. apply held_frame.
  - intros r a [[H1 H2 H3] H4]. by split.
Qed.

Lemma disable_principal_rg name : RG (λ _, True) (disablePrincipalLaunchersLocked name) (λ _ _, True).
Proof.
  eapply rg_weaken with (P' := held [] [] anything) (Q' := λ _ _, True); [|intros; apply held_nothing|done].
  unfold disablePrincipalLaunchersLocked.
  eapply rg_try; [apply read_launchers_rg with (F := λ _ _ _, True); [|done]|by intros; apply rg_ret|].
  { apply reads_bind; [apply reads_principal_id|]. intros pid. apply reads_wrapf, reads_query. }
  intros lids. eapply rg_bind; [apply quiesce_all_rg|]. intros []. eapply rg_try.
  - eapply rg_weaken; [apply apply_principal_rg|intros; apply held_nothing|]. intros r a H. exact H.
  - intros e. eapply rg_bind; [apply restore_all_rg|]. intros []. by apply rg_ret.
  - intros res. by apply rg_ret.
Qed.

(** ** The checked deletion of a Principal *)

Lemma inspect_all_rg all lids q l F : lids ⊆ q →
  RG (held q l F) (inspect_launchers dk all lids)
    (λ r a, match r with inl _ => held q (lids ++ l) F a | inr _ => True end).
Proof.
  revert l. induction lids as [|lid lids IH]; intros l Hsub; cbn [inspect_launchers]; [by apply rg_ret|].
  eapply rg_try; [apply (inspect_rg lid q l F); set_solver|..].
  - intros e. eapply rg_bind; [apply restore_all_rg|]. intros []. by apply rg_ret.
  - intros i. destruct (li_active i) eqn:Ea.
    + eapply rg_bind; [apply restore_all_rg|]. intros []. by apply rg_ret.
    + eapply rg_bind; [apply IH; set_solver|]. intros [r|e]; apply rg_ret; [|done].
      intros a _. rewrite Ea. apply held_mono; [done|set_solver|done].
Qed.

Lemma remove_all_rg all l0 q l F :
  RG (held q l F) (remove_stale_all dk all l0) (λ r a, match r with None => held q l F a | Some _ => True end).
Proof.
  induction l0 as [|[lid i] l0 IH]; cbn [remove_stale_all]; [by apply rg_ret|].
  eapply rg_try; [apply remove_stale_rg|..].
  - intros e. eapply rg_bind; [apply restore_all_rg|]. intros []. by apply rg_ret.
  - intros []. exact IH.
Qed.

Lemma disable_all_rg lids acc q l F : keyed F →
  RG (held q l F) (disable_all lids acc) (λ r a, match r.2 with None => held q l F a | Some _ => True end).
Proof.
  intros HF. revert acc. induction lids as [|lid lids IH]; intros acc; cbn [disable_all]; [by apply rg_ret|].
  eapply rg_try; [by apply disable_rg|..].
  - intros e. eapply rg_bind; [apply restore_all_rg|]. intros []. by apply rg_ret.
  - intros revoked. apply IH.
Qed.

(** The named Principal's Launchers are among [lids]. *)
Definition named_launchers (name : string) (lids : list string) (ls : gmap string launcher_row) (ps : gmap Z principal_row) : Prop :=
  ∀ lid row, ls !! lid = Some row → principal_named name ps = Some (l_principal_id row) → lid ∈ lids.

Lemma named_launchers_keyed name lids : keyed (named_launchers name lids).
Proof.
  intros d d' [E Hk] H lid row Hr Hn. rewrite E in Hn. specialize (Hk lid). rewrite Hr in Hk. simpl in Hk.
  destruct (launchers d !! lid) as [row0|] eqn:E0; [|done]. simpl in Hk. injection Hk as Hk. apply (H lid row0); [done|].
  by rewrite <-Hk.
Qed.

Lemma delete_principal_rg name : RG (λ _, True) (deletePrincipalCheckedLocked dk name) (λ _ _, True).
Proof.
  eapply rg_weaken with (P' := held [] [] anything) (Q' := λ _ _, True); [|intros; apply held_nothing|done].
  unfold deletePrincipalCheckedLocked.
  eapply rg_try; [apply read_launchers_rg with (F := λ r _ ps, match r with
    | Ok pid => principal_named name ps = Some pid | Err _ => True end); [apply reads_principal_id|]|by intros; apply rg_ret|].
  { intros d f [pid|e] d' f' H; [|done]. by apply named in H as [H _]. }
  intros pid. eapply rg_try; [apply read_launchers_rg with (F := λ r ls _, match r with
    | Ok lids => ∀ lid row, ls !! lid = Some row → l_principal_id row = pid → lid ∈ lids | Err _ => True end)|by intros; apply rg_ret|].
  { apply reads_wrapf, reads_query. }
  { intros d f [lids|e] d' f' H; [|done]. apply wrapf_ok, query_ok in H as (-> & _ & _). intros lid row Hr E.
    apply list_elem_of_omap. exists (lid, row). split; [by apply elem_of_map_to_list|]. simpl. by rewrite bool_decide_eq_true_2. }
  intros lids. set (F := named_launchers name lids).
  eapply rg_weaken with (P' := held [] [] F) (Q' := λ _ _, True); [| |done].
  2: { intros a _. apply held_mono; [done..|]. intros ls ps [[_ Hp] Hl] lid row Hr Hn. eapply Hl; [done|]. congruence. }
  assert (HF : keyed F) by apply named_launchers_keyed.
  eapply rg_bind; [apply quiesce_all_rg|]. intros []. eapply rg_bind; [apply (inspect_all_rg lids lids); set_solver|].
  intros [ins|e]; [|by apply rg_ret]. eapply rg_bind; [apply remove_all_rg|]. intros [e|]; [by apply rg_ret|].
  eapply rg_bind; [by apply disable_all_rg|]. intros [revoked [e|]]; [by apply rg_ret|]. simpl.
  eapply rg_try with (Q := λ _ _, True); [|by intros; apply rg_ret|by intros; apply rg_ret].
  unfold deletePrincipalWithMAC. eapply rg_try with (Q := λ _, held [] [] anything).
  - apply rg_call_db; [apply stable_held|]. intros a r d f Hi Hh Em. pose proof (delete_principal_owners _ _ _ _ _ _ Em) as Hd.
    simpl. split; [|apply held_nothing]. apply life_tables; [done|]. intros lid [row Hr].
    destruct (decide (principal_named name (principals (a_db a)) = Some (l_principal_id row))) as [E|E].
    + right. destruct (h_idle _ _ _ _ Hh lid) as [? ?]; [|done]. rewrite app_nil_r. by eapply (h_owners _ _ _ _ Hh).
    + left. simpl. rewrite (Hd lid row Hr E). by eexists.
  - intros e. by apply rg_ret.
  - intros ids. eapply rg_bind; [apply release_rg|]. intros []. by apply rg_ret.
Qed.

End daemon.
