(* ===== verification/LifecycleSpec.v ===== *)
(** * LifecycleSpec: the properties of the lifecycle operations *)
From S2P Require Import Prelude Filepath AllowedRoots Sha256 Database SnapshotStore Credential Launcher MacLifecycle MacTheory MacSpec Session SessionSpec PrincipalStore DbHoare OwnershipTheory Operation OperationTheory OperationSpec Proc Lifecycle LifecyclePolicy LifecycleTheory LifecycleRules.
Local Open Scope Z_scope.

(** ** The daemon: one critical section beside the data plane *)

Section system.
Context {W : Type} `{!sessionMACDriver W} (dk : docker).
Implicit Types a : app W.

Definition ignore {A} (m : proc (app W) A) : proc (app W) unit := _ ← m; mret ().

(** The critical sections of src/launcher_lifecycle.go. *)
Inductive lifecycle_op : proc (app W) unit → Prop :=
  | run_update lid name enabled : lifecycle_op (ignore (updateLauncherWithLifecycleLocked lid name enabled))
  | run_delete_launcher lid : lifecycle_op (ignore (deleteLauncherCheckedLocked dk lid))
  | run_delete_principal name : lifecycle_op (ignore (deletePrincipalCheckedLocked dk name))
  | run_disable_principal name : lifecycle_op (ignore (disablePrincipalLaunchersLocked name))
  | run_enable_principal name : lifecycle_op (ignore (enablePrincipalLaunchersLocked name)).

(** lifecycleMu is free ([None]) or its holder still has to run the procedure.
    The other holders of the lock (creations, root policy, reload) are one
    step each: they add Launchers and change rows, and delete none. *)
Inductive daemon_step : option (proc (app W) unit) * app W → option (proc (app W) unit) * app W → Prop :=
  | daemon_env t a a' : env a a' → daemon_step (t, a) (t, a')
  | daemon_lock p a : lifecycle_op p → daemon_step (None, a) (Some p, a)
  | daemon_atom f k a : daemon_step (Some (PAtom f k), a) (Some (k a), f a)
  | daemon_unlock a : daemon_step (Some (PRet ()), a) (None, a)
  | daemon_policy m a :
      (∀ lid, is_Some (launchers (a_db a) !! lid) → is_Some (launchers (m_db m) !! lid)) →
      daemon_step (None, a) (None, mkApp m (a_sup a) (a_removed a) (a_requests a)).

Definition daemon_reachable (s : option (proc (app W) unit) * app W) : Prop :=
  ∃ m removed, rtc daemon_step (None, mkApp m newOperationSupervisor removed []) s.

Abbreviation RG := (rg (S := app W) life_ok env).

Lemma ignore_rg {A} (m : proc (app W) A) : RG (λ _, True) m (λ _ _, True) → RG (λ _, True) (ignore m) (λ _ _, True).
Proof. intros H. eapply rg_bind; [exact H|]. intros x. by apply rg_ret. Qed.

Lemma lifecycle_op_rg p : lifecycle_op p → RG (λ _, True) p (λ _ _, True).
Proof.
  intros []; apply ignore_rg; [apply update_launcher_rg|apply delete_launcher_rg|apply delete_principal_rg|
    apply disable_principal_rg|apply enable_principal_rg].
Qed.

Definition daemon_ok (s : option (proc (app W) unit) * app W) : Prop :=
  life_ok s.2 ∧ match s.1 with Some p => wp life_ok env p (λ _ _, True) s.2 | None => True end.

Lemma wp_env_step {A} (m : proc (app W) A) a a' :
  wp life_ok env m (λ _ _, True) a → env a a' → wp life_ok env m (λ _ _, True) a'.
Proof. destruct m as [x|f k]; [done|]. intros H He s' Hr. apply H. by eapply rtc_l. Qed.

Lemma daemon_ok_step s s' : daemon_ok s → daemon_step s s' → daemon_ok s'.
Proof.
  intros [Hl Hw] Hs. destruct Hs as [t a a' He|p a Hp|f k a|a|m a Hm]; simpl in *.
  - split; simpl; [by eapply life_env|]. destruct t; [by eapply wp_env_step|done].
  - split; [done|]. by apply (lifecycle_op_rg p Hp).
  - by apply Hw.
  - done.
  - split; [|done]. apply life_tables; [done|]. intros lid H. left. by apply Hm.
Qed.

Lemma daemon_reachable_ok s : daemon_reachable s → daemon_ok s.
Proof.
  intros (m & removed & Hr). apply (rtc_ind_r daemon_ok (None, mkApp m newOperationSupervisor removed [])) in Hr; [done| |].
  - split; [|done]. split; simpl; [apply rtc_refl|set_solver|done|].
    intros o lid (Ho & _). apply op_list_elem in Ho as [id Hid]. done.
  - intros x y _ Hxy Hx. by eapply daemon_ok_step.
Qed.

(** ** Running operations *)

(** C7. In every reachable state of the daemon, whatever is interleaved with a
    deletion (the admission of an operation by a request that resolved its
    bearer before, another operation ending), a registered running operation
    belongs to a Launcher whose row exists. *)
Theorem running_keeps_owner t a (Hr : daemon_reachable (t, a)) (o : op_ref) (lid : string)
    (Hrun : registered_running (a_sup a) o lid) :
  is_Some (launchers (a_db a) !! lid).
Proof. destruct (daemon_reachable_ok _ Hr) as [[_ _ _ H] _]. by apply (H o). Qed.
End system.

(** ** The checked deletion of a Launcher, alone *)

Section outcome.
Context {W : Type} `{!sessionMACDriver W} (dk : docker).
Implicit Types a : app W.

Lemma run_try {A B} (m : proc (app W) (result A)) (fail : error → proc (app W) B) k a :
  run (p_try m fail k) a = let '(r, a') := run m a in match r with Ok x => run (k x) a' | Err e => run (fail e) a' end.
Proof. unfold p_try. rewrite run_bind. by destruct (run m a) as [[x|e] a']. Qed.

Lemma run_fail {A} e a : run (p_fail (A := A) e) a = (Err e, a).
Proof. done. Qed.

Lemma run_call_db {A} (m : DB A) a :
  run (call_db m) a = let '(r, d, f) := m (a_db a) (m_faults (a_mac a)) in
    (r, mkApp (with_db d f (a_mac a)) (a_sup a) (a_removed a) (a_requests a)).
Proof.
  unfold call_db, on_mac. rewrite run_atom. unfold on_db, a_db. by destruct (m _ _) as [[r d] f].
Qed.

Lemma run_any_running l a : run (any_running l) a = (existsb (λ o, op_running o (a_sup a)) l, a).
Proof.
  induction l as [|o l IH]; cbn [any_running existsb]; [done|]. rewrite run_bind. unfold get_sup at 1. rewrite run_atom.
  by destruct (op_running o (a_sup a)).
Qed.

(** Alone, the scan is the supervisor's answer. *)
Lemma run_has_running lid a : run (has_running lid) a = (hasRunningForLauncher lid (a_sup a), a).
Proof.
  unfold has_running. rewrite run_bind. unfold get_sup at 1. rewrite run_atom, run_any_running. f_equal.
  unfold hasRunningForLauncher, candidates. induction (op_list (a_sup a)) as [|o l IH]; [done|].
  rewrite filter_cons. cbn [existsb]. destruct (heap (a_sup a) !! o) as [op|] eqn:Ho.
  - destruct (bool_decide (op_LauncherID op = lid)).
    + rewrite decide_True by done. cbn [existsb andb]. rewrite IH. unfold op_running at 1. by rewrite Ho.
    + rewrite decide_False by done. apply IH.
  - rewrite decide_False by done. apply IH.
Qed.

Lemma classify_stale cs : classify_containers cs = Ok false → Forall (λ c, classifyHelperContainerState (hc_State c) = helperStateStale) cs.
Proof.
  induction cs as [|c cs IH]; simpl; [constructor|]. destruct (classifyHelperContainerState (hc_State c)) eqn:E; [|done..].
  intros H. constructor; [done|]. by apply IH.
Qed.

Lemma run_inspect lid a r a' :
  run (inspectLauncherRuntime dk lid) a = (r, a') →
  a' = a ∧ (hasRunningForLauncher lid (a_sup a) = true → r = Ok (mkInspection [] true)) ∧
  ∀ i, r = Ok i → li_active i = false →
    hasRunningForLauncher lid (a_sup a) = false ∧ inspectHelperContainersForLauncher dk lid = Ok (li_containers i) ∧
    Forall (λ c, classifyHelperContainerState (hc_State c) = helperStateStale) (li_containers i).
Proof.
  unfold inspectLauncherRuntime. rewrite run_bind, run_has_running. destruct (hasRunningForLauncher lid (a_sup a)).
  - intros [= <- <-]. split_and!; [done..|]. by intros i [= <-].
  - intros [= <- <-]. split_and!; [done..|]. intros i H Hi.
    destruct (inspectHelperContainersForLauncher dk lid) as [cs|]; [|done]. simpl in H.
    destruct (classify_containers cs) as [b|] eqn:E; [|done]. injection H as <-. simpl in *. subst b.
    split_and!; [done..|]. by apply classify_stale.
Qed.

Lemma run_remove cs a r a' :
  run (removeStaleHelperContainers dk cs) a = (r, a') →
  ∃ l, a' = mkApp (a_mac a) (a_sup a) (a_removed a ++ l) (a_requests a) ∧ (r = Ok () → l = hc_ID <$> cs).
Proof.
  assert (H0 : ∀ a, a = mkApp (a_mac a) (a_sup a) (a_removed a ++ []) (a_requests a)).
  { intros []. simpl. by rewrite app_nil_r. }
  revert a. induction cs as [|c cs IH]; intros a; cbn [removeStaleHelperContainers].
  - intros [= <- <-]. by exists [].
  - case_bool_decide; [intros [= <- <-]; by exists []|]. rewrite run_bind. unfold rm_container. rewrite run_atom.
    destruct (docker_rm dk (hc_ID c)); simpl.
    + intros (l & -> & Hl)%IH. exists (hc_ID c :: l). simpl. rewrite <-app_assoc. split; [done|]. intros E. by rewrite Hl.
    + intros [= <- <-]. by exists [].
Qed.

(** A restore touches the admission of its Launcher alone. *)
Lemma run_restore lid a :
  let a' := (run (restoreLauncherAdmissionAfterRefusal lid) a).2 in
  a_db a' = a_db a ∧ a_removed a' = a_removed a ∧
  (a_sup a' = a_sup a ∨ a_sup a' = setQuiesced lid (effective_closed lid (a_db a)) (a_sup a)).
Proof.
  unfold restoreLauncherAdmissionAfterRefusal, syncLauncherAdmission. cbv zeta. rewrite run_bind, run_try, run_call_db.
  pose proof (reads_wrapf "cannot read launcher authorities" [] _ (reads_query (effective_closed lid)) (a_db a) (m_faults (a_mac a))) as Hd.
  change (wrapf _ _ _) with (effectiveLauncherClosed lid) in Hd.
  destruct (effectiveLauncherClosed lid (a_db a) (m_faults (a_mac a))) as [[[c|e] d] f] eqn:E; simpl in Hd; subst d; simpl.
  - apply wrapf_ok, query_ok in E as (-> & _ & _). split_and!; [done..|]. by right.
  - split_and!; [done..|]. by left.
Qed.

Lemma run_release ids a :
  let a' := (run (releaseSessionBindings ids) a).2 in
  db_frame (a_db a) (a_db a') ∧ a_removed a' = a_removed a ∧ a_sup a' = a_sup a ∧
  ∀ id, sessionBindings (a_mac a') !! id = if bool_decide (id ∈ ids) then None else sessionBindings (a_mac a) !! id.
Proof.
  unfold releaseSessionBindings. cbv zeta. rewrite run_iter. revert a. induction ids as [|x ids IH]; intros a; cbn [foldl].
  - split_and!; [apply db_frame_refl|done..].
  - unfold on_mac at 2 4 6 8. rewrite run_atom. simpl.
    destruct (IH (mkApp (ReleaseSessionBinding x (a_mac a)) (a_sup a) (a_removed a) (a_requests a))) as (H1 & H2 & H3 & H4).
    destruct (quiet_release x (a_mac a)) as [Hd Hb]. split_and!; [by etrans; [exact Hd|exact H1]|done..|].
    intros id. rewrite H4. simpl. rewrite Hb. case_bool_decide as E1.
    + rewrite bool_decide_eq_true_2; [done|by right].
    + rewrite lookup_delete. case_decide as E2; [subst; by rewrite bool_decide_eq_true_2 by left|].
      rewrite bool_decide_eq_false_2; [done|]. intros [->|?]%elem_of_cons; done.
Qed.

(** The durable disable of a Launcher. *)
Lemma persist_disable_ok lid d f r d' f' :
  persistLauncherChange lid None (Some false) d f = (Ok r, d', f') →
  ∃ row, launchers d !! lid = Some row ∧ launchers d' = <[lid := set_launcher_enabled false row]> (launchers d) ∧
    sessions d' = sessions (drop_sessions (session_of_launcher lid d) d) ∧
    lec_RevokedSessionIDs r = filter (λ id, Is_true (session_of_launcher lid d id)) (map_to_list (sessions d)).*1.
Proof.
  unfold persistLauncherChange. case_bool_decide as Hlid; [done|]. intros ([] & d0 & f00 & Hn & H)%db_bind_ok. injection Hn as <- <-.
  match type of H with transaction ?b ?c ?body _ _ = _ => pose proof (transaction_atomic b c body d f) as Ht end.
  rewrite H in Ht. destruct Ht as (f0 & f1 & (row & d1 & f2 & Hq & Ht)%db_bind_ok).
  apply wrapf_ok, query_ok in Hq as (-> & -> & _). unfold launcher_join in Ht.
  destruct (launchers d !! lid) as [l|] eqn:El; [|done]. destruct (principals d !! l_principal_id l) as [p|]; [|done].
  apply db_bind_ok in Ht as ([] & d2 & f3 & Hn & Ht). injection Hn as <- <-. unfold enabled_step in Ht.
  apply db_bind_ok in Ht as (ids & d3 & f4 & Hi & Ht). apply db_bind_ok in Hi as (ids' & d4 & f5 & Hids & Hi).
  apply wrapf_ok, query_ok in Hids as (-> & -> & _). apply db_bind_ok in Hi as ([] & d5 & f6 & Hdel & Hi).
  apply wrapf_ok, stmt_ok in Hdel as [[= <-] _]. injection Hi as <- <- _.
  apply db_bind_ok in Ht as ([] & d6 & f7 & Hu & Ht). injection Ht as <- <- _. exists l. split; [done|].
  destruct (negb _) eqn:Ech in Hu.
  - apply wrapf_ok, stmt_ok in Hu as [Hu _]. simpl in Hu. rewrite El in Hu. destruct (launcher_check _); [|done].
    by injection Hu as <-.
  - injection Hu as <- _. split_and!; [|done..]. apply negb_false_iff, bool_decide_eq_true_1 in Ech. simpl.
    rewrite insert_id; [done|]. rewrite El. f_equal. destruct l. simpl in *. by subst.
Qed.

Lemma delete_row_ok lid d f d' f' :
  deleteLauncherRow lid d f = (Ok (), d', f') → is_Some (launchers d !! lid) ∧ launchers d' = delete lid (launchers d) ∧ sessions d' = sessions d.
Proof.
  unfold deleteLauncherRow. intros H.
  match type of H with transaction ?b ?c ?body _ _ = _ => pose proof (transaction_atomic b c body d f) as Ht end.
  rewrite H in Ht. destruct Ht as (f0 & f1 & (ex & d1 & f2 & Hq & Ht)%db_bind_ok).
  apply wrapf_ok, query_ok in Hq as (-> & -> & _). case_bool_decide as Hex; [|done].
  apply wrapf_ok, stmt_ok in Ht as [Ht _]. destruct (negb _); [done|]. injection Ht as <-. split_and!; [done| |done].
  apply map_eq. intros l. simpl. rewrite lookup_delete. case_decide as E.
  - subst. apply map_lookup_filter_None. right. intros x _ Hn. apply Hn. simpl. by rewrite bool_decide_eq_true_2.
  - apply option_eq. intros x. rewrite map_lookup_filter_Some. simpl. rewrite bool_decide_eq_false_2 by done. naive_solver.
Qed.

Lemma persist_failed lid name en d f e d' f' : persistLauncherChange lid name en d f = (Err e, d', f') → d' = d.
Proof.
  unfold persistLauncherChange. case_bool_decide as Hid; [by intros [= _ <- _]|]. unfold mbind at 1, db_bind at 1, db_result.
  destruct (match name with Some _ => _ | None => _ end) as [[]|]; [|by intros [= _ <- _]]. intros H.
  match type of H with transaction ?b ?c ?body _ _ = _ => pose proof (transaction_atomic b c body d f) as Ht end.
  by rewrite H in Ht.
Qed.

Lemma delete_row_failed lid d f e d' f' : deleteLauncherRow lid d f = (Err e, d', f') → d' = d.
Proof.
  unfold deleteLauncherRow. intros H.
  match type of H with transaction ?b ?c ?body _ _ = _ => pose proof (transaction_atomic b c body d f) as Ht end.
  by rewrite H in Ht.
Qed.

(** The Sessions of a Launcher, and the tables once it is disabled. *)
Definition owned_sessions (lid : string) (d : db) : list string :=
  filter (λ id, Is_true (session_of_launcher lid d id)) (map_to_list (sessions d)).*1.

Definition disabled_in (lid : string) (d d' : db) : Prop :=
  ∃ row, launchers d !! lid = Some row ∧ launchers d' = <[lid := set_launcher_enabled false row]> (launchers d) ∧
    ∀ sid srow, sessions d' !! sid = Some srow ↔ sessions d !! sid = Some srow ∧ s_launcher_id srow ≠ lid.

Lemma run_disable lid a r a' :
  run (disableLauncherLocked lid) a = (r, a') →
  a_removed a' = a_removed a ∧
  match r with
  | Ok revoked =>
      revoked = owned_sessions lid (a_db a) ∧ disabled_in lid (a_db a) (a_db a') ∧ quiesced_for lid (a_sup a') = true ∧
      ∀ id, sessionBindings (a_mac a') !! id = if bool_decide (id ∈ revoked) then None else sessionBindings (a_mac a) !! id
  | Err _ => a_db a' = a_db a
  end.
Proof.
  unfold disableLauncherLocked. rewrite run_bind. unfold quiesce, on_sup. rewrite run_atom, run_try.
  unfold applyLauncherEnabledChange. rewrite run_try, run_call_db.
  destruct (persistLauncherChange lid None (Some false) _ _) as [[[res|e] d] f] eqn:Ep; unfold a_db in Ep; simpl in Ep.
  - rewrite run_bind.
    match goal with |- context [run (releaseSessionBindings ?ids) ?a1] => pose proof (run_release ids a1) as Hr; destruct (run (releaseSessionBindings ids) a1) as [[] a2] end.
    simpl in Hr. destruct Hr as (Hf & Hrm & Hs & Hb). intros [= <- <-]. split; [done|].
    apply persist_disable_ok in Ep as (row & Hrow & Hl & Hss & Hids). unfold db_frame in Hf.
    split_and!; [exact Hids| | |exact Hb].
    + exists row. rewrite Hf. split_and!; [done..|]. intros sid srow. simpl. unfold a_db. simpl. rewrite Hss. simpl.
      rewrite map_lookup_filter_Some. simpl. unfold session_of_launcher.
      split; intros [H Hn]; (split; [done|]); rewrite H in *; [intros E; apply Hn|]; case_bool_decide; naive_solver.
    + unfold quiesced_for. rewrite Hs. simpl. rewrite lookup_insert. by rewrite decide_True.
  - rewrite run_fail, run_bind.
    match goal with |- context [run (restoreLauncherAdmissionAfterRefusal ?l) ?a1] => pose proof (run_restore l a1) as Hr; destruct (run (restoreLauncherAdmissionAfterRefusal l) a1) as [[] a2] end.
    simpl in Hr. destruct Hr as (Hd & Hrm & _). intros [= <- <-]. split; [done|]. rewrite Hd. simpl. by eapply persist_failed.
Qed.

Lemma run_refuse lid e a r a' :
  run (refuse_delete [lid] e) a = (r, a') → r = ([], Some e) ∧ a_db a' = a_db a ∧ a_removed a' = a_removed a.
Proof.
  unfold refuse_delete, restoreLauncherAdmissionAfterPrincipalRefusal. cbn [proc_iter]. rewrite !run_bind.
  pose proof (run_restore lid a) as Hr. destruct (run (restoreLauncherAdmissionAfterRefusal lid) a) as [[] a1].
  destruct Hr as (Hd & Hrm & _). by intros [= <- <-].
Qed.

(** The checked deletion, alone.  On success no operation was running, every
    container carrying the Launcher's label was stale and has been removed, the
    row and exactly its Sessions are gone, their coverage is released and the
    admission stays closed.  A failure never leaves a half-deleted Launcher:
    the tables are as before, or the row is disabled and its Sessions revoked;
    a running operation refuses it before anything is touched. *)
Theorem delete_launcher_outcome (lid : string) a a' (revoked : list string) (oe : option error)
    (Hrun : run (deleteLauncherCheckedLocked dk lid) a = ((revoked, oe), a')) :
  let running := hasRunningForLauncher lid (a_sup a) in
  match oe with
  | None =>
      running = false ∧ launchers (a_db a') = delete lid (launchers (a_db a)) ∧
      (∀ sid row, sessions (a_db a') !! sid = Some row ↔ sessions (a_db a) !! sid = Some row ∧ s_launcher_id row ≠ lid) ∧
      revoked = owned_sessions lid (a_db a) ∧ (∀ id, id ∈ revoked → sessionBindings (a_mac a') !! id = None) ∧
      quiesced_for lid (a_sup a') = true ∧
      ∃ cs, inspectHelperContainersForLauncher dk lid = Ok cs ∧
        Forall (λ c, classifyHelperContainerState (hc_State c) = helperStateStale) cs ∧
        a_removed a' = a_removed a ++ (hc_ID <$> cs)
  | Some e =>
      ((a_db a' = a_db a ∧ revoked = []) ∨ (disabled_in lid (a_db a) (a_db a') ∧ revoked = owned_sessions lid (a_db a))) ∧
      (running = true → e = errLauncherRuntimeActive ∧ a_db a' = a_db a ∧ a_removed a' = a_removed a)
  end.
Proof.
  cbv zeta. unfold deleteLauncherCheckedLocked in Hrun. rewrite run_bind in Hrun. unfold quiesce, on_sup in Hrun.
  rewrite run_atom, run_try in Hrun. set (a0 := mkApp _ (quiesceLauncher lid _) _ _) in Hrun.
  change (a_db a) with (a_db a0). change (a_removed a) with (a_removed a0).
  change (hasRunningForLauncher lid (a_sup a)) with (hasRunningForLauncher lid (a_sup a0)). clearbody a0. clear a.
  destruct (run (inspectLauncherRuntime dk lid) a0) as [r a1] eqn:Ei. apply run_inspect in Ei as (-> & Hact & Hi).
  assert (Hrefuse : ∀ e, run (refuse_delete [lid] e) a0 = ((revoked, oe), a') →
    oe = Some e ∧ revoked = [] ∧ a_db a' = a_db a0 ∧ a_removed a' = a_removed a0).
  { intros e ([= -> ->] & H1 & H2)%run_refuse. by split_and!. }
  destruct r as [i|e].
  2: { apply Hrefuse in Hrun as (-> & -> & Hd & Hrm). split; [by left|]. intros H. by specialize (Hact H). }
  destruct (li_active i) eqn:Ea.
  { apply Hrefuse in Hrun as (-> & -> & Hd & Hrm). split; [by left|]. intros H. by split_and!. }
  destruct (Hi i eq_refl Ea) as (Hnr & Hcs & Hstale). clear Hi Hact Hrefuse. rewrite run_try in Hrun.
  destruct (run (removeStaleHelperContainers dk (li_containers i)) a0) as [r a1] eqn:Er. apply run_remove in Er as (l & -> & Hl).
  destruct r as [[]|e].
  2: { apply run_refuse in Hrun as ([= -> ->] & Hd & _). split; [left; by split|]. intros; congruence. }
  rewrite Hl in Hrun by done. clear Hl l. rewrite run_try in Hrun.
  match type of Hrun with context [run (disableLauncherLocked lid) ?x] => destruct (run (disableLauncherLocked lid) x) as [r a1] eqn:Ed end.
  apply run_disable in Ed as (Hrm & Hd). destruct r as [ids|e].
  2: { injection Hrun as -> <- <-. split; [left; by split|]. intros; congruence. }
  destruct Hd as (-> & Hdis & Hq & Hb). rewrite run_try, run_call_db in Hrun.
  destruct (deleteLauncherRow lid (a_db a1) (m_faults (a_mac a1))) as [[[[]|e] d] f] eqn:El.
  - injection Hrun as <- <- <-. destruct Hdis as (row & Hrow & Hls & Hss). apply delete_row_ok in El as (_ & El & Es).
    unfold a_db at 1 3 4 5. simpl. rewrite El, Es, Hls. split_and!; [done|by rewrite delete_insert_eq|exact Hss|done| |exact Hq|].
    + intros id Hid. by rewrite Hb, bool_decide_eq_true_2.
    + exists (li_containers i). by split_and!.
  - injection Hrun as <- <- <-. apply delete_row_failed in El as ->. split; [right; split; [exact Hdis|done]|]. intros; congruence.
Qed.

End outcome.

(** ** A reachable state *)

#[local] Existing Instances MacSpec.Example.driver.

(** The Session "s1" of the Launcher "l1" is live; its request has started a
    build when an administrator deletes the Launcher. *)
Definition ex_rows : db :=
  set_sessions {[ "s1" := mkSession (sha256_hex "dht_x") "/srv/app" 0 100 "l1" ]}
    (mkDB {[ 1 := SessionSpec.Example.alice ]} ∅ {[ "l1" := SessionSpec.Example.default_launcher ]} ∅ ∅ ∅ true ∅ ∅ ∅).
Definition ex_mac : mac (list string) := newSessionMACCoordinator [] ex_rows [].
Definition ex_docker : docker := mkDocker (λ _, Some "") (λ _, true).
Definition ex_app (s : sup) : app (list string) := mkApp ex_mac s [] ["l1"].

Lemma data_step_by (s s' : sup) l :
  step s s' → quiesced s' = quiesced s → map_Forall (λ o op, heap s !! o = None → op_LauncherID op ∈ l) (heap s') →
  data_step l s s'.
Proof. intros H1 H2 H3. split_and!; [done..|]. intros o op Ho Hn. by apply (H3 o op). Qed.

Lemma ex_running : daemon_reachable ex_docker (None, ex_app life_admitted).
Proof.
  exists ex_mac, []. eapply rtc_l.
  { apply daemon_env. eapply (env_resolve _ "dht_x" 5). vm_compute. reflexivity. }
  assert (Hstep : ∀ s s', step s s' → quiesced s' = quiesced s →
    map_Forall (λ o op, heap s !! o = None → op_LauncherID op ∈ ["l1"]) (heap s') →
    daemon_step ex_docker (None, ex_app s) (None, ex_app s')).
  { intros s s' H1 H2 H3. apply daemon_env, (env_operation (ex_app s)). by apply data_step_by. }
  eapply rtc_l; [apply (Hstep _ life_reserved); [apply step_reserve|done|by apply (bool_decide_unpack _)]|].
  eapply rtc_l; [apply (Hstep _ life_created); [by apply step_new|done|by apply (bool_decide_unpack _)]|].
  apply rtc_once, Hstep; [eapply step_admit; [vm_compute; reflexivity|reflexivity|by left]|done|by apply (bool_decide_unpack _)].
Qed.

(** The first action of the deletion. *)
Lemma delete_starts (dk : docker) lid : ∃ k,
  ignore (W := list string) (deleteLauncherCheckedLocked dk lid) =
  PAtom (λ a, mkApp (a_mac a) (quiesceLauncher lid (a_sup a)) (a_removed a) (a_requests a)) k.
Proof. eexists. reflexivity. Qed.

(** The deletion has closed the Launcher's admission; the build still has its
    owner, and the inspection will refuse. *)
Lemma running_keeps_owner_witness :
  let a := mkApp ex_mac (quiesceLauncher "l1" life_admitted) [] ["l1"] in
  is_Some (launchers (a_db a) !! "l1") ∧
  (run (deleteLauncherCheckedLocked ex_docker "l1") (ex_app life_admitted)).1 = ([], Some errLauncherRuntimeActive).
Proof.
  split; [|vm_compute; reflexivity].
  assert (Hr : ∃ t, daemon_reachable ex_docker (t, mkApp ex_mac (quiesceLauncher "l1" life_admitted) [] ["l1"])).
  { destruct ex_running as (m & removed & Hr). destruct (delete_starts ex_docker "l1") as [k Ek].
    exists (Some (k (ex_app life_admitted))), m, removed. eapply rtc_r; [eapply rtc_r; [exact Hr|apply daemon_lock, (run_delete_launcher ex_docker "l1")]|].
    rewrite Ek. exact (daemon_atom ex_docker
      (λ a, mkApp (a_mac a) (quiesceLauncher "l1" (a_sup a)) (a_removed a) (a_requests a)) k (ex_app life_admitted)). }
  destruct Hr as [t Hr]. apply (running_keeps_owner ex_docker _ _ Hr 0%nat).
  split; [apply (bool_decide_unpack _); vm_compute; exact I|]. split; [vm_compute; reflexivity|].
  eexists. split; vm_compute; reflexivity.
Defined.

(** An idle Launcher with two stale containers. *)
Definition ex_stale : docker :=
  mkDocker (λ _, Some ("c1 exited" +:+ String "010" "c2 created")) (λ _, true).
Definition ex_deleted : app (list string) :=
  (run (deleteLauncherCheckedLocked ex_stale "l1") (ex_app newOperationSupervisor)).2.

Lemma delete_launcher_outcome_witness :
  launchers (a_db ex_deleted) !! "l1" = None ∧ sessions (a_db ex_deleted) !! "s1" = None ∧
  a_removed ex_deleted = ["c1"; "c2"].
Proof.
  assert (Hrun : run (deleteLauncherCheckedLocked ex_stale "l1") (ex_app newOperationSupervisor) = ((["s1"], None), ex_deleted))
    by (vm_compute; reflexivity).
  destruct (delete_launcher_outcome ex_stale "l1" (ex_app newOperationSupervisor) ex_deleted ["s1"] None Hrun)
    as (_ & Hl & Hs & _ & _ & _ & cs & Hcs & _ & Hr).
  split_and!; [by rewrite Hl, lookup_delete_eq| |].
  - destruct (sessions (a_db ex_deleted) !! "s1") as [row|] eqn:E; [|done].
    apply Hs in E as [E Hn]. vm_compute in E. injection E as <-. by destruct Hn.
  - rewrite Hr. vm_compute in Hcs. injection Hcs as <-. reflexivity.
Defined.
