(* ===== verification/Http.v ===== *)
(** * Http: src/response.go, src/principal_control_auth.go, src/auth_handler.go

    A request and its reply, the strict body decoder, and the handler monad: a
    handler is a procedure over the daemon's state (Proc) that records the audit
    records it writes and the runtime directories it removes, and ends at the
    first reply.  The wrappers that authenticate a request come first in every
    handler.  An audit record holds the non-empty members it is written with; the
    request id, the time and the duration are left out. *)
From S2P Require Import Prelude Filepath AllowedRoots GoStrings Json Sha256 Database SnapshotStore Credential Launcher MacLifecycle Session Operation Proc Lifecycle.
Local Open Scope Z_scope.

(** ** Requests *)

(** [rq_auth] is the Authorization header, [rq_body] the body ([None] when it cannot
    be read to its end), [rq_value] and [rq_query] the path values and the query
    parameters; [rq_deliver] says whether writing and flushing the serialized reply of
    a rotation succeeds. *)
Record request := mkRequest {
  rq_Method : string; rq_Path : string; rq_auth : string; rq_body : option string;
  rq_value : string → string; rq_query : string → string; rq_deliver : bool }.

Definition maxRequestBody : Z := 16 * 1024.

Fixpoint contains_byte (b : Z) (s : string) : bool :=
  match s with "" => false | String c s => (byte_of c =? b) || contains_byte b s end.

Definition parseBearerToken (r : request) : option string :=
  let auth := rq_auth r in
  if bool_decide (auth = "") then None
  else if bool_decide (String.length auth < 8)%nat then None
  else match CutPrefix auth "Bearer " with
  | None => None
  | Some token =>
      if bool_decide (token = "") || contains_byte 32 token || contains_byte 9 token then None else Some token
  end.

(** ** Decoding the body *)

(** The fields of a struct: a member of no field is refused, a later member of the
    same field is decoded over the value so far. *)
Fixpoint decode_members {A} (fields : list (string * (json → A → option A))) (l : list (string * json)) (a : A)
    : option A :=
  match l with
  | [] => Some a
  | (k, v) :: l =>
      match find (λ f, folds_to k f.1) fields with
      | Some (_, set) => a ← set v a; decode_members fields l a
      | None => None
      end
  end.
Definition decode_struct {A} (fields : list (string * (json → A → option A))) (zero : A) (v : json) : option A :=
  match v with JObject l => decode_members fields l zero | JNull => Some zero | _ => None end.

(** A string or bool field keeps its value on null, a pointer becomes nil. *)
Definition into_string (v : json) (old : string) : option string :=
  match v with JString s => Some s | JNull => Some old | _ => None end.
Definition into_bool (v : json) (old : bool) : option bool :=
  match v with JBool b => Some b | JNull => Some old | _ => None end.
Definition into_string_ptr (v : json) : option (option string) :=
  match v with JString s => Some (Some s) | JNull => Some None | _ => None end.
Definition into_bool_ptr (v : json) : option (option bool) :=
  match v with JBool b => Some (Some b) | JNull => Some None | _ => None end.

(** A [[]string] with the elements of its array beyond its length: a null element
    keeps what the array held there. *)
Definition string_slice : Type := list string * list string.
Fixpoint into_strings (l : list json) (old : list string) : option string_slice :=
  match l with
  | [] => Some ([], old)
  | v :: l =>
      s ← into_string v (default "" (head old));
      r ← into_strings l (tail old);
      Some (s :: r.1, r.2)
  end.
Definition into_string_slice (v : json) (old : string_slice) : option string_slice :=
  match v with
  | JNull | JArray [] => Some ([], [])
  | JArray l => into_strings l (old.1 ++ old.2)
  | _ => None
  end.

(** [decodeJSONRequest]: one value of at most [maxRequestBody] bytes, then white space. *)
Definition decodeJSONRequest {A} (target : json → option A) (r : request) : option A :=
  body ← rq_body r;
  if maxRequestBody <? Z.of_nat (String.length body) then None
  else
    p ← decode_first body;
    a ← target p.1;
    if bool_decide (skip_space p.2 = "") then Some a else None.

(** ** Replies *)

(** [Undelivered] is a body whose write or flush failed.  A message built by Sprintf is
    the literal of its format. *)
Inductive payload := NoBody | Body (v : json) | Undelivered (v : json).
(** [rp_challenge] is the header [WWW-Authenticate: Bearer]. *)
Record reply := mkReply { rp_status : Z; rp_challenge : bool; rp_body : payload }.

(** [omitempty] *)
Definition member (k s : string) : list (string * json) := if bool_decide (s = "") then [] else [(k, JString s)].

Definition writeJSONRaw (status : Z) (v : json) : reply := mkReply status false (Body v).
Definition error_body (code message : string) : json :=
  JObject (("ok", JBool false) :: member "code" code ++ member "message" message).
Definition writeError (status : Z) (code message : string) : reply := writeJSONRaw status (error_body code message).
Definition no_content : reply := mkReply 204 false NoBody.
(** What the server sends for a handler that writes nothing. *)
Definition empty_reply : reply := mkReply 200 false NoBody.

Definition internal_error : reply := writeError 500 "internal_error" "internal server error".
Definition invalid_json : reply := writeError 400 "invalid_json" "invalid JSON request".
Definition writeUnauthorized (message : string) : reply := mkReply 401 true (Body (error_body "unauthorized" message)).
Definition unauthorizedAdmin : string := "Administrative authentication required.".
Definition unauthorizedSessionCapability : string := "Session authentication required.".
Definition unauthorizedSessionControl : string := "Authentication required for session management.".
Definition unauthorizedAuth : string := "Authentication required.".
Definition controlUnauthorizedMessage (auditScope : string) : string :=
  if bool_decide (auditScope = "launcher") then "Authentication required for launcher management."
  else if bool_decide (auditScope = "principal") then "Authentication required for Principal management."
  else "Authentication required for credential management.".

(** The first class of the table the error belongs to. *)
Fixpoint by_class {A} (table : list (sentinel * A)) (default : A) (e : error) : A :=
  match table with
  | [] => default
  | (s, a) :: table => if errors_is e s then a else by_class table default e
  end.
Definition reply_by (table : list (sentinel * reply)) : error → reply := by_class table internal_error.

(** ** Audit records *)

Definition auditRecord : Type := gmap string string.
Definition field (k : string) (rec : auditRecord) : string := default "" (rec !! k).
Definition set_field (k v : string) (rec : auditRecord) : auditRecord :=
  if bool_decide (v = "") then delete k rec else <[k := v]> rec.
Definition audit (fields : list (string * string)) : auditRecord := foldl (λ rec kv, set_field kv.1 kv.2 rec) ∅ fields.
(** Set where it is empty. *)
Definition fill_field (k v : string) (rec : auditRecord) : auditRecord :=
  if bool_decide (field k rec = "") then set_field k v rec else rec.
Definition bool_text (b : bool) : string := if b then "true" else "false".

(** An audit record, the removal of a runtime directory, a docker command with its
    standard input. *)
Inductive event := Audit (rec : auditRecord) | RemoveRuntimeDir (sessionID : string) | Docker (args : list string) (stdin : string).

(** ** The handler monad *)

Section handlers.
Context {W : Type} `{!sessionMACDriver W}.

Definition H (A : Type) : Type := proc (app W) (list event * (reply + A)).
#[local] Instance h_ret : MRet H := λ A a, PRet ([], inr a).
#[local] Instance h_bind : MBind H := λ A B k m,
  proc_bind_ (λ r, match r with
                   | (l, inl rep) => PRet (l, inl rep)
                   | (l, inr a) => proc_bind_ (λ r', PRet (l ++ r'.1, r'.2)) (k a)
                   end) m.

Definition h_proc {A} (p : proc (app W) A) : H A := proc_bind_ (λ a, PRet ([], inr a)) p.
Definition h_db {A} (m : DB A) : H (result A) := h_proc (call_db m).
Definition respond {A} (rep : reply) : H A := PRet ([], inl rep).
Definition emit (e : event) : H unit := PRet ([e], inr ()).
Definition writeAudit (rec : auditRecord) : H unit := emit (Audit rec).

Fixpoint cleanupSessionRuntimeDirs (ids : list string) : H unit :=
  match ids with
  | [] => mret ()
  | id :: ids => _ ← emit (RemoveRuntimeDir id); cleanupSessionRuntimeDirs ids
  end.

(** What one request does: the events and the reply. *)
Definition serve_alone (m : H unit) (a : app W) : list event * reply * app W :=
  let '((l, o), a') := run m a in (l, match o with inl rep => rep | inr _ => empty_reply end, a').

(** ** Authentication *)

(** [adminHash] is the current admin token hash. *)
Context (adminHash : string).

Definition writeAuthFailure (r : request) (res : string) : H unit :=
  writeAudit (audit [("event", "auth.failure"); ("method", rq_Method r); ("path", rq_Path r); ("result", res)]).

(** A failed request wrapper: one audit record and the reply. *)
Definition refuse {A} (r : request) (res : string) (rep : reply) : H A :=
  _ ← writeAuthFailure r res; respond rep.

Definition requireAdmin (r : request) : H unit :=
  match parseBearerToken r with
  | None => refuse r "admin.parse_failed" (writeUnauthorized unauthorizedAdmin)
  | Some token =>
      if matchAdminToken adminHash token then mret ()
      else refuse r "admin.wrong_token" (writeUnauthorized unauthorizedAdmin)
  end.

Definition writeInvalidOperatorAuthority {A} (r : request) (auditScope : string) : H A :=
  refuse r (auditScope +:+ ".database_error") internal_error.

Definition session_auth_result (e : error) : string :=
  match classifyCredentialAuthFailure e with
  | credentialAuthRevoked => "credential.revoked"
  | credentialAuthPrincipalDisabled => "principal.disabled"
  | credentialAuthLauncherDisabled => "launcher.disabled"
  | _ => "credential.not_found"
  end.

(** src/sessions.go *)
Definition authenticateSessionControlRequest (r : request) : H operatorAuthority :=
  match parseBearerToken r with
  | None => refuse r "parse_failed" (writeUnauthorized unauthorizedSessionControl)
  | Some token =>
      res ← h_db (authenticateOperatorToken adminHash token);
      match res with
      | Ok authority =>
          if bool_decide (auth_class authority = operatorAuthorityInvalid)
          then writeInvalidOperatorAuthority r "credential" else mret authority
      | Err e =>
          if negb (isExpectedAuthFailure (classifyCredentialAuthFailure e))
          then refuse r "credential.database_error" internal_error
          else refuse r (session_auth_result e) (writeUnauthorized unauthorizedSessionControl)
      end
  end.

(** src/principal_control_auth.go *)
Definition authenticatePrincipalControlRequest (r : request) (auditScope : string) : H operatorAuthority :=
  let unauthorized := writeUnauthorized (controlUnauthorizedMessage auditScope) in
  match parseBearerToken r with
  | None => refuse r (auditScope +:+ ".parse_failed") unauthorized
  | Some token =>
      res ← h_db (authenticateOperatorToken adminHash token);
      match res with
      | Ok authority =>
          match auth_class authority with
          | operatorAuthorityAdmin | operatorAuthorityPrincipal => mret authority
          | operatorAuthorityLauncher => refuse r (auditScope +:+ ".unauthorized") unauthorized
          | operatorAuthorityInvalid => writeInvalidOperatorAuthority r auditScope
          end
      | Err e =>
          if negb (isExpectedAuthFailure (classifyCredentialAuthFailure e))
          then refuse r (auditScope +:+ ".database_error") internal_error
          else refuse r (auditScope +:+ ".unauthorized") unauthorized
      end
  end.

(** ** GET /auth *)

Definition auth_response (a : operatorAuthority) : option json :=
  match auth_class a, auth_principal a, auth_launcher a with
  | operatorAuthorityAdmin, _, _ => Some (JObject [("authority", JString "admin")])
  | operatorAuthorityPrincipal, Some p, _ =>
      Some (JObject (("authority", JString "principal") :: member "principal" (pa_PrincipalName p)))
  | operatorAuthorityLauncher, _, Some l =>
      Some (JObject (("authority", JString "launcher") :: member "principal" (la_PrincipalName l) ++
                     member "launcher_id" (la_LauncherID l)))
  | _, _, _ => None
  end.

Definition handleAuth (r : request) : H unit :=
  match parseBearerToken r with
  | None => refuse r "auth.parse_failed" (writeUnauthorized unauthorizedAuth)
  | Some token =>
      res ← h_db (authenticateOperatorToken adminHash token);
      match res with
      | Ok authority =>
          match auth_response authority with
          | Some v => respond (writeJSONRaw 200 v)
          | None => writeInvalidOperatorAuthority r "auth"
          end
      | Err e =>
          if isExpectedAuthFailure (classifyCredentialAuthFailure e)
          then refuse r "auth.unauthorized" (writeUnauthorized unauthorizedAuth)
          else refuse r "auth.database_error" internal_error
      end
  end.

(** ** Session bearers *)

Definition requireSessionCapability (now : Z) (r : request) : H Session :=
  match parseBearerToken r with
  | None => refuse r "session.parse_failed" (writeUnauthorized unauthorizedSessionCapability)
  | Some token =>
      res ← h_db (findSessionByToken token now);
      match res with
      | Ok s => mret s
      | Err e =>
          if errors_is e ErrSessionNotFound
          then refuse r "session.not_found" (writeUnauthorized unauthorizedSessionCapability)
          else refuse r "session.database_error" internal_error
      end
  end.

Record sessionFilesystemAuthority := mkFsAuthority { fa_Session : Session; fa_Snapshot : sessionFilesystemSnapshot }.

Inductive sessionAuthorityCaptureClass :=
  | sessionAuthorityCaptureNotFound | sessionAuthorityCaptureLookupDB | sessionAuthorityCaptureIntegrity
  | sessionAuthorityCaptureBegin | sessionAuthorityCaptureCommit.

Record sessionAuthorityCaptureError := mkCaptureError {
  ce_class : sessionAuthorityCaptureClass; ce_session : option Session }.

(** One short read transaction: its three failure points are told apart. *)
Definition captureSessionFilesystemAuthority (token : string) (now : Z)
    : db → list bool → (sessionFilesystemAuthority + sessionAuthorityCaptureError) * db * list bool := λ d f,
  match stmt (λ d, Ok ((), d)) d f with
  | (Err _, _, f) => (inr (mkCaptureError sessionAuthorityCaptureBegin None), d, f)
  | (Ok _, _, f) =>
      match findSessionByToken token now d f with
      | (Err e, _, f) =>
          (inr (mkCaptureError (if errors_is e ErrSessionNotFound then sessionAuthorityCaptureNotFound
                                else sessionAuthorityCaptureLookupDB) None), d, f)
      | (Ok s, _, f) =>
          match loadSessionFilesystemSnapshot (ss_ID s) (ss_Workspace s) d f with
          | (Err _, _, f) => (inr (mkCaptureError sessionAuthorityCaptureIntegrity (Some s)), d, f)
          | (Ok snapshot, _, f) =>
              match stmt (λ d, Ok ((), d)) d f with
              | (Err _, _, f) => (inr (mkCaptureError sessionAuthorityCaptureCommit (Some s)), d, f)
              | (Ok _, _, f) => (inl (mkFsAuthority s snapshot), d, f)
              end
          end
      end
  end.
Definition call_capture (token : string) (now : Z) : H (sessionFilesystemAuthority + sessionAuthorityCaptureError) :=
  h_proc (on_mac (λ m, let '(r, d, f) := captureSessionFilesystemAuthority token now (m_db m) (m_faults m) in
                       (r, with_db d f m))).

(** src/logging.go *)
Definition writeSessionFilesystemAuthorityRejected {A} (kind : string) (s : option Session) : H A :=
  _ ← writeAudit (audit ([("event", kind +:+ ".rejected"); ("result", "internal_error")] ++
        match s with
        | Some s => [("session_id", ss_ID s); ("principal_name", ss_PrincipalName s);
                     ("launcher_id", ss_LauncherID s); ("launcher_name", ss_LauncherName s)]
        | None => []
        end));
  respond internal_error.

Definition requireSessionFilesystemCapability (now : Z) (r : request) (kind : string) : H sessionFilesystemAuthority :=
  match parseBearerToken r with
  | None => refuse r "session.parse_failed" (writeUnauthorized unauthorizedSessionCapability)
  | Some token =>
      res ← call_capture token now;
      match res with
      | inl authority => mret authority
      | inr e =>
          match ce_class e with
          | sessionAuthorityCaptureNotFound =>
              refuse r "session.not_found" (writeUnauthorized unauthorizedSessionCapability)
          | sessionAuthorityCaptureIntegrity => writeSessionFilesystemAuthorityRejected kind (ce_session e)
          | _ => refuse r "session.database_error" internal_error
          end
      end
  end.

(** ** Control audit provenance (src/launcher_handler.go) *)

Definition applyControlAuditProvenance (auth : operatorAuthority) (rec : auditRecord) : auditRecord :=
  match auth_class auth, auth_principal auth, auth_launcher auth with
  | operatorAuthorityPrincipal, Some p, _ =>
      fill_field "credential_id" (pa_CredentialID p)
        (fill_field "initiator_credential_id" (pa_CredentialID p)
           (fill_field "principal_name" (pa_PrincipalName p) rec))
  | operatorAuthorityLauncher, _, Some l =>
      fill_field "credential_id" (la_CredentialID l)
        (fill_field "initiator_credential_id" (la_CredentialID l)
           (fill_field "principal_name" (la_PrincipalName l)
              (fill_field "launcher_id" (la_LauncherID l) rec)))
  | _, _, _ => rec
  end.

Definition writeControlAudit (auth : operatorAuthority) (rec : auditRecord) : H unit :=
  writeAudit (applyControlAuditProvenance auth rec).

Definition writePrincipalControlLookupError {A} (e : error) : H A :=
  respond (if errors_is e errInvalidControlAuthority then internal_error
           else if errors_is e ErrPrincipalNotFound then writeError 404 "principal_not_found" "principal not found"
           else internal_error).

(** The target Principal of a nested route. *)
Definition resolveControlPrincipal (auth : operatorAuthority) (username : string) : H principalControlTarget :=
  res ← h_db (resolvePrincipalControlTarget (Some auth) username);
  match res with Ok target => mret target | Err e => writePrincipalControlLookupError e end.

(** [resolveListScope] with its replies: a foreign filter is the lookup's refusal. *)
Definition requireListScope (auth : operatorAuthority) (filter : string) : H listQueryScope :=
  res ← h_db (resolveListScope (Some auth) filter);
  match res with Ok scope => mret scope | Err e => writePrincipalControlLookupError e end.

End handlers.
