(* ===== verification/SessionHandlers.v ===== *)
(** * SessionHandlers: src/sessions.go

    The wire forms of the Session control plane and its four handlers: create, list,
    delete and show.  [format_time] writes a Unix time in the daemon's time zone. *)
From S2P Require Import Prelude Filepath AllowedRoots GoStrings Json Sha256 WorkspacePolicy Database SnapshotStore Credential Launcher MacLifecycle Session Operation Proc Lifecycle Http.
Local Open Scope Z_scope.

(** ** The create request *)

Record sessionSelectorField := mkSelectorField { sf_present : bool; sf_invalid : bool; sf_value : string }.

(** [UnmarshalJSON]: a value that is no string keeps the value so far. *)
Definition into_selector (v : json) (s : sessionSelectorField) : option sessionSelectorField :=
  Some match v with
       | JString t => mkSelectorField true false t
       | _ => mkSelectorField true true (sf_value s)
       end.

Record sessionFilesystemRootsRequest := mkRootsRequest {
  fr_present : bool; fr_malformed : bool; fr_roots : list sessionFilesystemRootEntry }.

Definition decode_root_entry : json → option sessionFilesystemRootEntry :=
  decode_struct
    [("path", λ v e, p ← into_string v (re_Path e); Some (mkRootEntry p (re_Access e)));
     ("access", λ v e, a ← into_string v (re_Access e); Some (mkRootEntry (re_Path e) a))]
    (mkRootEntry "" "").

(** Elements are appended until one is malformed. *)
Fixpoint append_roots (l : list json) (r : sessionFilesystemRootsRequest) : sessionFilesystemRootsRequest :=
  match l with
  | [] => r
  | v :: l =>
      match decode_root_entry v with
      | Some e => append_roots l (mkRootsRequest true (fr_malformed r) (fr_roots r ++ [e]))
      | None => mkRootsRequest true true (fr_roots r)
      end
  end.
Definition into_roots (v : json) (r : sessionFilesystemRootsRequest) : option sessionFilesystemRootsRequest :=
  Some match v with
       | JArray l => append_roots l (mkRootsRequest true (fr_malformed r) (fr_roots r))
       | _ => mkRootsRequest true true (fr_roots r)
       end.

Record sessionRequest := mkSessionRequest {
  sq_Workspace : string; sq_LauncherID : sessionSelectorField; sq_Principal : sessionSelectorField;
  sq_FilesystemRoots : sessionFilesystemRootsRequest }.

Definition decode_session_request : json → option sessionRequest :=
  decode_struct
    [("workspace", λ v q, w ← into_string v (sq_Workspace q);
        Some (mkSessionRequest w (sq_LauncherID q) (sq_Principal q) (sq_FilesystemRoots q)));
     ("launcher_id", λ v q, s ← into_selector v (sq_LauncherID q);
        Some (mkSessionRequest (sq_Workspace q) s (sq_Principal q) (sq_FilesystemRoots q)));
     ("principal", λ v q, s ← into_selector v (sq_Principal q);
        Some (mkSessionRequest (sq_Workspace q) (sq_LauncherID q) s (sq_FilesystemRoots q)));
     ("filesystem_roots", λ v q, f ← into_roots v (sq_FilesystemRoots q);
        Some (mkSessionRequest (sq_Workspace q) (sq_LauncherID q) (sq_Principal q) f))]
    (mkSessionRequest "" (mkSelectorField false false "") (mkSelectorField false false "") (mkRootsRequest false false [])).

(** A refused create target: status, code and message. *)
Record createTargetError := mkTargetError { te_status : Z; te_code : string; te_msg : string }.
Definition te_reply (te : createTargetError) : reply := writeError (te_status te) (te_code te) (te_msg te).

Definition conflicting_selectors : createTargetError :=
  mkTargetError 400 "conflicting_selectors" "launcher_id and principal selectors cannot both be provided".
Definition invalid_selector : createTargetError := mkTargetError 400 "invalid_selector" "invalid session selector".

Definition selector_malformed (s : sessionSelectorField) : bool :=
  sf_present s && (sf_invalid s || bool_decide (sf_value s = "")).

Definition validateCreateSelector (q : sessionRequest) : createSelector + createTargetError :=
  if sf_present (sq_LauncherID q) && sf_present (sq_Principal q) then inr conflicting_selectors
  else if selector_malformed (sq_LauncherID q) then inr invalid_selector
  else if selector_malformed (sq_Principal q) then inr invalid_selector
  else inl (mkSelector (sf_value (sq_LauncherID q)) (sf_value (sq_Principal q))).

Definition suppliedRoots (f : sessionFilesystemRootsRequest) : list sessionFilesystemRootEntry :=
  if fr_present f then fr_roots f else [].

Definition classifyCreateTargetError (e : error) : option createTargetError :=
  if errors_is e ErrConflictingSelectors then Some conflicting_selectors
  else if errors_is e ErrInvalidSelector then Some invalid_selector
  else if errors_is e ErrMissingLauncherSelector
  then Some (mkTargetError 400 "missing_launcher_selector" "a launcher selector is required")
  else if errors_is e ErrLauncherNotFound then Some (mkTargetError 404 "launcher_not_found" "launcher not found")
  else if errors_is e ErrLauncherUnavailable
  then Some (mkTargetError 422 "launcher_unavailable" "launcher is not available")
  else None.

(** The text of a workspace refusal without its [ErrInvalidWorkspace] suffix; a failed
    probe has its public message as text. *)
Definition workspaceErrorMessage (e : error) : string := err_text e.

Definition sessionFilesystemPolicyMessage : string := "invalid session filesystem policy".
Definition sessionFilesystemResolutionMessage : string :=
  "requested filesystem root does not exist or cannot be resolved".

(** The resolution family is marked by its text ([sessionFilesystemRootResolutionFailure]). *)
Definition policy_message (e : error) : string :=
  if String.prefix "filesystem root path resolution: " (err_text e) then sessionFilesystemResolutionMessage
  else sessionFilesystemPolicyMessage.

(** The reply to a failed create that is no stale credential and no target error. *)
Definition create_failure_reply (e : error) : reply :=
  if errors_is e ErrInvalidWorkspace then writeError 400 "invalid_workspace" (workspaceErrorMessage e)
  else if errors_is e ErrInvalidSessionFilesystemPolicy then writeError 400 "invalid_filesystem_policy" (policy_message e)
  else if errors_is e ErrLifecycleBusy then writeError 503 "lifecycle_busy" "lifecycle coordination is busy"
  else if errors_is e ErrMAC then writeError 500 "mac_preparation_failed" "internal server error"
  else internal_error.

(** ** The replies *)

Definition session_fields (created expires : string) (s : Session) : list (string * json) :=
  [("id", JString (ss_ID s)); ("workspace", JString (ss_Workspace s)); ("created_at", JString created);
   ("expires_at", JString expires); ("launcher_id", JString (ss_LauncherID s))] ++
  member "launcher" (ss_LauncherName s) ++ member "principal" (ss_PrincipalName s).

Definition entry_json (e : AllowedRootEntry) : json :=
  JObject [("path", JString (Path e)); ("access", JString (Access e))].
Definition entries_json (l : list AllowedRootEntry) : json := JArray (entry_json <$> l).

Section handlers.
Context {W : Type} `{!sessionMACDriver W}.
Context (adminHash : string) (h : host) (globals : list AllowedRootEntry) (hasMAC : bool) (format_time : Z → string).
#[local] Existing Instance h_ret.
#[local] Existing Instance h_bind.
Abbreviation H A := (H (W := W) A).

(** A stored Session has its times in seconds. *)
Definition sessionToJSON (s : Session) : list (string * json) :=
  session_fields (format_time (ss_CreatedAt s)) (format_time (ss_ExpiresAt s)) s.
Definition sessionShowToJSON (s : Session) (snapshot : sessionFilesystemSnapshot) : json :=
  JObject (sessionToJSON s ++ [("filesystem_snapshot", JObject [("entries", entries_json (Entries snapshot))])]).
(** The created one has them in nanoseconds. *)
Definition createSessionResponse (c : CreatedSession) : json :=
  let s := cs_Session c in
  JObject [("ok", JBool true);
           ("session", JObject (session_fields (format_time (ss_CreatedAt s / second)) (format_time (ss_ExpiresAt s / second)) s));
           ("token", JString (cs_Token c))].
Definition listSessionsResponse (l : list Session) : json :=
  JObject [("ok", JBool true); ("sessions", JArray ((λ s, JObject (sessionToJSON s)) <$> l))].

Definition populateSessionAudit (auth : operatorAuthority) (rec : auditRecord) : auditRecord :=
  match auth_class auth, auth_principal auth, auth_launcher auth with
  | operatorAuthorityLauncher, _, Some l =>
      set_field "credential_id" (la_CredentialID l)
        (set_field "launcher_name" (la_LauncherName l)
           (set_field "launcher_id" (la_LauncherID l) (set_field "principal_name" (la_PrincipalName l) rec)))
  | operatorAuthorityPrincipal, Some p, _ =>
      set_field "credential_id" (pa_CredentialID p) (set_field "principal_name" (pa_PrincipalName p) rec)
  | _, _, _ => rec
  end.
Definition writeSessionAudit (auth : operatorAuthority) (fields : list (string * string)) : H unit :=
  writeAudit (populateSessionAudit auth (audit fields)).
Definition owner_fields (s : Session) : list (string * string) :=
  [("workspace", ss_Workspace s); ("launcher_id", ss_LauncherID s); ("launcher_name", ss_LauncherName s);
   ("principal_name", ss_PrincipalName s)].

(** ** POST /sessions *)

(** A refused create: its audit record and its reply. *)
Definition refuse_create {A} (auth : operatorAuthority) (workspace code : string) (rep : reply) : H A :=
  _ ← writeSessionAudit auth [("event", "session.create"); ("workspace", workspace); ("result", code)];
  respond rep.

Definition create_failed {A} (r : request) (auth : operatorAuthority) (workspace : string) (e : error) : H A :=
  if errors_is e ErrCredentialRevoked || errors_is e ErrCredentialNotFound then
    refuse r (if errors_is e ErrCredentialNotFound then "credential.not_found" else "credential.revoked")
      (writeUnauthorized unauthorizedSessionControl)
  else match classifyCreateTargetError e with
  | Some te => refuse_create auth workspace (te_code te) (te_reply te)
  | None => refuse_create auth workspace (classifyCreateSessionError e) (create_failure_reply e)
  end.

(** The create holds lifecycleMu: one action. *)
Definition create_action (env : create_env) (lifecycleFree : bool) (auth : operatorAuthority) (sel : createSelector)
    (workspace : string) (roots : list sessionFilesystemRootEntry) : H (result CreatedSession) :=
  h_proc (on_mac (λ m,
    let '(r, _, m) := createSessionAuthorized h globals env hasMAC lifecycleFree (Some auth) sel workspace roots m in
    (r, m))).

Definition handleCreateSession (env : create_env) (lifecycleFree : bool) (r : request) : H unit :=
  auth ← authenticateSessionControlRequest adminHash r;
  match decodeJSONRequest decode_session_request r with
  | None =>
      _ ← writeAudit (audit [("event", "session.create"); ("result", "invalid_json")]);
      respond invalid_json
  | Some q =>
      match validateCreateSelector q with
      | inr te => refuse_create auth (sq_Workspace q) (te_code te) (te_reply te)
      | inl sel =>
          if fr_present (sq_FilesystemRoots q) && fr_malformed (sq_FilesystemRoots q) then
            refuse_create auth (sq_Workspace q) "invalid_filesystem_policy"
              (writeError 400 "invalid_filesystem_policy"
                 "filesystem_roots must be omitted, an empty array, or a well-formed array of {path, access} objects")
          else
            res ← create_action env lifecycleFree auth sel (sq_Workspace q) (suppliedRoots (sq_FilesystemRoots q));
            match res with
            | Err e => create_failed r auth (sq_Workspace q) e
            | Ok c =>
                _ ← writeSessionAudit auth
                      (("event", "session.create") :: ("session_id", ss_ID (cs_Session c)) ::
                       owner_fields (cs_Session c) ++ [("result", "success")]);
                respond (writeJSONRaw 201 (createSessionResponse c))
            end
      end
  end.

(** ** GET /sessions *)

Definition list_failure (e : error) : string * reply :=
  if errors_is e ErrPrincipalNotFound then
    ("principal_not_found", writeError 404 "principal_not_found" "principal not found")
  else if errors_is e ErrLauncherNotFound then
    ("launcher_not_found", writeError 404 "launcher_not_found" "launcher not found")
  else if errors_is e ErrLauncherNameRequiresPrincipal then
    ("launcher_name_requires_principal",
     writeError 400 "launcher_name_requires_principal"
       "launcher name filter requires --principal; without a Principal use a Launcher ID")
  else if errors_is e ErrInvalidSelector then ("invalid_selector", writeError 400 "invalid_selector" "invalid session selector")
  else ("database_error", internal_error).

Definition list_audit (auth : operatorAuthority) (res : string) : H unit :=
  writeSessionAudit auth [("event", "session.list"); ("result", res)].

Definition handleListSessions (now : Z) (r : request) : H unit :=
  auth ← authenticateSessionControlRequest adminHash r;
  scope ← h_db (resolveSessionListScope (Some auth) (rq_query r "principal") (rq_query r "launcher"));
  match scope with
  | Err e => _ ← list_audit auth (list_failure e).1; respond (list_failure e).2
  | Ok scope =>
      sessions ← h_db (listSessionsInScope now scope);
      match sessions with
      | Err e => _ ← list_audit auth "database_error"; respond internal_error
      | Ok l => _ ← list_audit auth "success"; respond (writeJSONRaw 200 (listSessionsResponse l))
      end
  end.

(** ** DELETE /sessions/{id} and GET /sessions/{id} *)

(** [deleteSessionScoped]: the lookup, the DELETE and the release are separate
    actions; the metadata accompanies a failure of the DELETE. *)
Definition delete_session_steps (id : string) (scope : sessionControlScope)
    : proc (app W) (option Session * option error) :=
  p_try (call_db (findSessionInScope id scope)) (λ e, PRet (None, Some e)) (λ s,
  p_try (call_db (wrapf "cannot delete session" [ErrDatabase] (delete_session_row id scope)))
    (λ e, PRet (Some s, Some e)) (λ affected,
  if affected : bool then
    proc_bind_ (λ _, PRet (Some s, None))
      (if hasMAC then on_mac (λ m, ((), ReleaseSessionBinding id m)) else PRet ())
  else PRet (None, Some (mkError "session not found" [ErrSessionNotFound])))).

(** The refusals both handlers share. *)
Definition session_route {A} (event : string) (auth : operatorAuthority) (id : string)
    (k : sessionControlScope → H A) : H A :=
  if bool_decide (id = "") then
    _ ← writeAudit (audit [("event", event); ("result", "invalid_session_id")]);
    respond (writeError 400 "invalid_session_id" "session id is required")
  else match resolveSessionControlScope (Some auth) with
  | Err _ =>
      _ ← writeAudit (audit [("event", event); ("session_id", id); ("result", "database_error")]);
      respond internal_error
  | Ok scope => k scope
  end.

Definition lookup_result (e : error) : string :=
  if errors_is e ErrSessionNotFound then "not_found"
  else if errors_is e ErrDatabase then "database_error" else "unknown_error".
Definition lookup_reply (e : error) : reply :=
  if errors_is e ErrSessionNotFound then writeError 404 "session_not_found" "session not found" else internal_error.

Definition lookup_failed {A} (event : string) (auth : operatorAuthority) (id : string) (s : option Session) (e : error) : H A :=
  _ ← writeSessionAudit auth
        ([("event", event); ("session_id", id); ("result", lookup_result e)] ++
         match s with Some s => owner_fields s | None => [] end);
  respond (lookup_reply e).

Definition handleDeleteSession (r : request) : H unit :=
  auth ← authenticateSessionControlRequest adminHash r;
  let id := rq_value r "id" in
  session_route "session.delete" auth id (λ scope,
    res ← h_proc (delete_session_steps id scope);
    match res with
    | (s, Some e) => lookup_failed "session.delete" auth id s e
    | (s, None) =>
        _ ← writeSessionAudit auth
              ([("event", "session.delete"); ("session_id", id); ("result", "success")] ++
               match s with Some s => owner_fields s | None => [] end);
        _ ← emit (RemoveRuntimeDir id);
        respond no_content
    end).

Definition handleGetSession (r : request) : H unit :=
  auth ← authenticateSessionControlRequest adminHash r;
  let id := rq_value r "id" in
  session_route "session.show" auth id (λ scope,
    res ← h_db (findSessionInScope id scope);
    match res with
    | Err e => lookup_failed "session.show" auth id None e
    | Ok s =>
        snapshot ← h_db (loadSessionFilesystemSnapshot (ss_ID s) (ss_Workspace s));
        let record (res : string) :=
          writeSessionAudit auth
            (("event", "session.show") :: ("session_id", ss_ID s) :: owner_fields s ++ [("result", res)]) in
        match snapshot with
        | Err _ => _ ← record "database_error"; respond internal_error
        | Ok snapshot => _ ← record "success"; respond (writeJSONRaw 200 (sessionShowToJSON s snapshot))
        end
    end).

End handlers.
