(* ===== verification/LauncherHandlers.v ===== *)
(** * LauncherHandlers: src/launcher_handler.go

    The Launcher control plane: creation, lists, update, the stored roots, deletion and
    the Launcher credential with the self-rotation of a Launcher bearer. *)
From S2P Require Import Prelude Filepath AllowedRoots GoStrings Json WorkspacePolicy Database SnapshotStore Credential Launcher MacLifecycle Session PrincipalStore LauncherStore Operation Proc Lifecycle Http SessionHandlers.
Local Open Scope Z_scope.

(** ** Requests *)

(** A field that tells occurrence and value apart; null keeps the value so far. *)
Record present_string := mkPresent { ps_present : bool; ps_value : string }.
Definition absent : present_string := mkPresent false "".
Definition into_present (v : json) (n : present_string) : option present_string :=
  s ← into_string v (ps_value n); Some (mkPresent true s).

Record createLauncherRequest := mkCreateLauncher {
  cl_Name : present_string; cl_Scope : string; cl_AllowedRoots : string_slice; cl_IssueCredential : bool }.
Definition decode_create_launcher : json → option createLauncherRequest :=
  decode_struct
    [("name", λ v q, n ← into_present v (cl_Name q);
        Some (mkCreateLauncher n (cl_Scope q) (cl_AllowedRoots q) (cl_IssueCredential q)));
     ("scope", λ v q, s ← into_string v (cl_Scope q);
        Some (mkCreateLauncher (cl_Name q) s (cl_AllowedRoots q) (cl_IssueCredential q)));
     ("allowed_roots", λ v q, l ← into_string_slice v (cl_AllowedRoots q);
        Some (mkCreateLauncher (cl_Name q) (cl_Scope q) l (cl_IssueCredential q)));
     ("issue_credential", λ v q, b ← into_bool v (cl_IssueCredential q);
        Some (mkCreateLauncher (cl_Name q) (cl_Scope q) (cl_AllowedRoots q) b))]
    (mkCreateLauncher absent "" ([], []) false).

Record patchLauncherRequest := mkPatchLauncher { pl_Name : option string; pl_Enabled : option bool }.
Definition decode_patch_launcher : json → option patchLauncherRequest :=
  decode_struct
    [("name", λ v q, n ← into_string_ptr v; Some (mkPatchLauncher n (pl_Enabled q)));
     ("enabled", λ v q, b ← into_bool_ptr v; Some (mkPatchLauncher (pl_Name q) b))]
    (mkPatchLauncher None None).

(** [launcherAllowedRootsSlice]: an element is a path or an entry object, null is the
    empty path, and a null field keeps the value so far. *)
Record launcherAllowedRootsSlice := mkRootsSlice { rs_present : bool; rs_value : list AllowedRootEntry }.

Definition decode_root_object : json → option AllowedRootEntry :=
  decode_struct
    [("path", λ v e, p ← into_string v (Path e); Some (mkEntry p (Access e)));
     ("access", λ v e, a ← into_string v (Access e); Some (mkEntry (Path e) a))]
    (mkEntry "" "").
Definition decode_root_element (v : json) : option AllowedRootEntry :=
  match into_string v "" with
  | Some path => Some (allowedRootEntry path)
  | None => decode_root_object v
  end.
Fixpoint decode_root_elements (l : list json) : option (list AllowedRootEntry) :=
  match l with
  | [] => Some []
  | v :: l => e ← decode_root_element v; r ← decode_root_elements l; Some (e :: r)
  end.
Definition into_roots_slice (v : json) (s : launcherAllowedRootsSlice) : option launcherAllowedRootsSlice :=
  match v with
  | JNull => Some (mkRootsSlice true (rs_value s))
  | JArray l => r ← decode_root_elements l; Some (mkRootsSlice true r)
  | _ => None
  end.

Record allowedRootsReplaceRequest := mkReplaceRequest { rr_Scope : string; rr_AllowedRoots : launcherAllowedRootsSlice }.
Definition decode_replace : json → option allowedRootsReplaceRequest :=
  decode_struct
    [("scope", λ v q, s ← into_string v (rr_Scope q); Some (mkReplaceRequest s (rr_AllowedRoots q)));
     ("allowed_roots", λ v q, s ← into_roots_slice v (rr_AllowedRoots q); Some (mkReplaceRequest (rr_Scope q) s))]
    (mkReplaceRequest "" (mkRootsSlice false [])).

(** The per-root requests (src/principal_handler.go). *)
Record allowedRootRequest := mkRootRequest { ar_Path : string; ar_Access : option string }.
Definition decode_root_request : json → option allowedRootRequest :=
  decode_struct
    [("path", λ v q, p ← into_string v (ar_Path q); Some (mkRootRequest p (ar_Access q)));
     ("access", λ v q, a ← into_string_ptr v; Some (mkRootRequest (ar_Path q) a))]
    (mkRootRequest "" None).

Record allowedRootAddRequest := mkRootAdd { aa_Path : string; aa_Access : present_string }.
Definition decode_root_add : json → option allowedRootAddRequest :=
  decode_struct
    [("path", λ v q, p ← into_string v (aa_Path q); Some (mkRootAdd p (aa_Access q)));
     ("access", λ v q, a ← into_present v (aa_Access q); Some (mkRootAdd (aa_Path q) a))]
    (mkRootAdd "" absent).

Record allowedRootSetAccessRequest := mkRootSetAccess { as_Path : string; as_Access : string }.
Definition decode_root_set_access : json → option allowedRootSetAccessRequest :=
  decode_struct
    [("path", λ v q, p ← into_string v (as_Path q); Some (mkRootSetAccess p (as_Access q)));
     ("access", λ v q, a ← into_string v (as_Access q); Some (mkRootSetAccess (as_Path q) a))]
    (mkRootSetAccess "" "").

(** ** Refusals *)

Definition launcher_not_found : reply := writeError 404 "launcher_not_found" "launcher not found".
Definition principal_not_found : reply := writeError 404 "principal_not_found" "principal not found".
Definition missing_username : reply := writeError 400 "missing_username" "username is required".
Definition missing_path : reply := writeError 400 "missing_path" "path is required".
Definition invalid_scope : reply := writeError 400 "invalid_scope" "invalid scope".
Definition invalid_launcher_name : reply := writeError 400 "invalid_launcher_name" "invalid launcher name".
Definition invalid_allowed_roots : reply := writeError 400 "invalid_allowed_roots" "invalid allowed roots".
Definition invalid_allowed_root : reply := writeError 400 "invalid_allowed_root" "invalid allowed root".
Definition invalid_root_access : reply := writeError 400 "invalid_allowed_root_access" "access must be read_write or read_only".
Definition allowed_root_not_found : reply := writeError 404 "allowed_root_not_found" "allowed root not found".
Definition outside_principal_root : reply :=
  writeError 400 "outside_principal_root" "launcher root is not under the effective principal roots".
Definition launcher_exists : reply := writeError 409 "launcher_exists" "launcher %q already exists for principal %q".
Definition launcher_credential_exists : reply := writeError 409 "launcher_credential_exists" "launcher already has a credential".
Definition launcher_credential_not_found : reply :=
  writeError 404 "launcher_credential_not_found" "launcher credential not found".
Definition rotation_conflict : reply := writeError 409 "credential_rotation_conflict" "credential changed during rotation".
Definition inherit_carries_roots : reply := writeError 400 "invalid_allowed_roots" "inherit scope cannot carry allowed roots".
Definition restricted_without_roots : reply :=
  writeError 400 "invalid_allowed_roots" "restricted scope requires at least one allowed root".
Definition name_requires_principal : reply :=
  writeError 400 "launcher_name_requires_principal"
    "launcher name filter requires --principal; without a Principal use a Launcher ID".

Definition create_launcher_reply : error → reply :=
  reply_by [(ErrPrincipalNotFound, principal_not_found); (ErrLauncherExists, launcher_exists);
            (ErrInvalidLauncherName, invalid_launcher_name); (ErrInvalidScope, invalid_scope);
            (ErrInvalidAllowedRoots, invalid_allowed_roots); (ErrInvalidAllowedRoot, invalid_allowed_roots);
            (ErrLauncherRootOutsidePrincipal, outside_principal_root);
            (ErrLauncherCredentialExists, launcher_credential_exists)].
Definition update_launcher_reply : error → reply :=
  reply_by [(ErrLauncherNotFound, launcher_not_found); (ErrLauncherExists, launcher_exists);
            (ErrInvalidLauncherName, invalid_launcher_name)].
Definition replace_scope_reply : error → reply :=
  reply_by [(ErrLauncherNotFound, launcher_not_found); (ErrInvalidScope, invalid_scope);
            (ErrInvalidAllowedRoots, invalid_allowed_roots); (ErrInvalidAllowedRoot, invalid_allowed_roots);
            (ErrInvalidAllowedRootAccess, invalid_root_access);
            (ErrLauncherRootOutsidePrincipal, outside_principal_root)].
Definition add_root_reply : error → reply :=
  reply_by [(ErrLauncherNotFound, launcher_not_found); (ErrInvalidAllowedRoot, invalid_allowed_root);
            (ErrInvalidAllowedRootAccess, invalid_root_access);
            (ErrLauncherRootOutsidePrincipal, outside_principal_root)].
Definition remove_root_reply : error → reply :=
  reply_by [(ErrLauncherNotFound, launcher_not_found); (ErrInvalidAllowedRoot, invalid_allowed_root)].
Definition set_access_reply : error → reply :=
  reply_by [(ErrLauncherNotFound, launcher_not_found); (ErrInvalidAllowedRoot, invalid_allowed_root);
            (ErrInvalidAllowedRootAccess, invalid_root_access); (ErrAllowedRootNotFound, allowed_root_not_found)].
Definition delete_launcher_reply : error → reply :=
  reply_by [(ErrLauncherNotFound, launcher_not_found);
            (ErrLauncherRuntimeActive, writeError 409 "launcher_runtime_active" "launcher has active runtime")].
Definition credential_lookup_reply : error → reply :=
  reply_by [(ErrLauncherCredentialNotFound, launcher_credential_not_found)].

Definition launcherAllowedRootAuditResult : error → string :=
  by_class [(ErrLauncherNotFound, "launcher_not_found"); (ErrInvalidAllowedRoot, "invalid_allowed_root");
            (ErrAllowedRootNotFound, "allowed_root_not_found");
            (ErrInvalidAllowedRootAccess, "invalid_allowed_root_access");
            (ErrLauncherRootOutsidePrincipal, "outside_principal_root")] "error".
Definition launcherScopeReplaceAuditResult : error → string :=
  by_class [(ErrLauncherNotFound, "launcher_not_found"); (ErrInvalidScope, "invalid_scope");
            (ErrInvalidAllowedRoots, "invalid_allowed_roots"); (ErrInvalidAllowedRoot, "invalid_allowed_roots");
            (ErrInvalidAllowedRootAccess, "invalid_allowed_root_access");
            (ErrLauncherRootOutsidePrincipal, "outside_principal_root")] "error".

(** [errors.As] with [allowedRootNotFoundError]: its path is the resolved identity. *)
Definition not_found_path (h : host) (path : string) (e : error) : string :=
  if errors_is e ErrAllowedRootNotFound
  then match resolveAllowedRootIdentity h path with Ok p => p | Err _ => "" end else "".

(** ** Handlers *)

Section handlers.
Context {W : Type} `{!sessionMACDriver W} (dk : docker).
Context (adminHash : string) (h : host) (globals : list AllowedRootEntry) (format_time : Z → string).
#[local] Existing Instance h_ret.
#[local] Existing Instance h_bind.
Abbreviation H A := (H (W := W) A).

Definition launcherToJSON (l : LauncherWithPrincipal) : json :=
  JObject [("id", JString (lp_ID l)); ("principal", JString (lp_PrincipalName l)); ("name", JString (lp_Name l));
           ("enabled", JBool (lp_Enabled l)); ("scope", JString (lp_ScopeMode l));
           ("allowed_roots", entries_json (lp_AllowedRoots l)); ("created_at", JString (format_time (lp_CreatedAt l)))].
Definition revoked_json (revoked : option Z) : json :=
  match revoked with Some t => JString (format_time t) | None => JNull end.
Definition launcherCredentialToJSON (c : launcherCredential) : json :=
  JObject [("id", JString (lc_ID c)); ("created_at", JString (format_time (lc_CreatedAt c)));
           ("revoked_at", revoked_json (lc_RevokedAt c))].
Definition launcherCredentialResponse (c : launcherCredential) (token : string) : json :=
  JObject ([("ok", JBool true); ("credential", launcherCredentialToJSON c)] ++ member "token" token).
Definition createLauncherResponse (l : LauncherWithPrincipal) (cred : option (launcherCredential * string)) : json :=
  JObject ([("ok", JBool true); ("launcher", launcherToJSON l)] ++
           match cred with
           | Some (c, token) => ("credential", launcherCredentialToJSON c) :: member "token" token
           | None => []
           end).
Definition listLaunchersResponse (l : list LauncherWithPrincipal) : json :=
  JObject [("ok", JBool true); ("launchers", JArray (launcherToJSON <$> l))].
(** [launcherAllowedRootResponseOf] *)
Definition launcherAllowedRootResponseOf (lid : string) (entry : AllowedRootEntry) (changed : bool) : json :=
  JObject ([("ok", JBool true); ("launcher_id", JString lid); ("field", JString "allowed_roots"); ("changed", JBool changed)] ++
           member "path" (Path entry) ++ member "access" (Access entry) ++ member "message" (if changed then "" else "unchanged")).

Definition applyLauncherTargetProvenance (l : option LauncherWithPrincipal) (rec : auditRecord) : auditRecord :=
  match l with
  | None => rec
  | Some l =>
      set_field "launcher_enabled" (bool_text (lp_Enabled l))
        (set_field "launcher_scope" (lp_ScopeMode l)
           (set_field "launcher_name" (lp_Name l)
              (set_field "launcher_id" (lp_ID l) (set_field "principal_name" (lp_PrincipalName l) rec))))
  end.
Definition writeLauncherControlAudit (fields : list (string * string)) (auth : operatorAuthority)
    (l : option LauncherWithPrincipal) : H unit :=
  writeAudit (applyControlAuditProvenance auth (applyLauncherTargetProvenance l (audit fields))).

(** A refused Launcher request: its audit record and its reply. *)
Definition refuse_launcher {A} (event : string) (fields : list (string * string)) (auth : operatorAuthority)
    (l : option LauncherWithPrincipal) (rep : reply) : H A :=
  _ ← writeLauncherControlAudit (("event", event) :: fields) auth l; respond rep.

Definition requireScopedLauncher (auth : operatorAuthority) (r : request) : H LauncherWithPrincipal :=
  target ← resolveControlPrincipal auth (rq_value r "username");
  res ← h_db (findLauncherForPrincipal (pt_ID target) (rq_value r "launcher"));
  match res with
  | Ok l => mret l
  | Err e => respond (if errors_is e ErrLauncherNotFound then launcher_not_found else internal_error)
  end.

(** The Launcher a nested route names, under its authority. *)
Definition launcher_route {A} (r : request) (k : operatorAuthority → LauncherWithPrincipal → H A) : H A :=
  auth ← authenticatePrincipalControlRequest adminHash r "launcher";
  l ← requireScopedLauncher auth r;
  k auth l.

(** *** Creation and lists *)

Definition handleCreateLauncher (draws : create_draws) (now : Z) (r : request) : H unit :=
  auth ← authenticatePrincipalControlRequest adminHash r "launcher";
  let event := "launcher.create" in
  let username := rq_value r "username" in
  if bool_decide (username = "") then refuse_launcher event [("result", "missing_username")] auth None missing_username
  else match decodeJSONRequest decode_create_launcher r with
  | None => refuse_launcher event [("result", "invalid_json")] auth None invalid_json
  | Some q =>
      target ← resolveControlPrincipal auth username;
      let name := if ps_present (cl_Name q) then ps_value (cl_Name q) else defaultLauncherName in
      let scope := if bool_decide (cl_Scope q = "") then LauncherScopeInherit else cl_Scope q in
      let roots := (cl_AllowedRoots q).1 in
      if bool_decide (scope ≠ LauncherScopeInherit ∧ scope ≠ LauncherScopeRestricted) then
        refuse_launcher event [("principal_name", username); ("result", "invalid_scope")] auth None invalid_scope
      else if bool_decide (scope = LauncherScopeInherit ∧ roots ≠ []) then
        refuse_launcher event [("principal_name", username); ("result", "invalid_allowed_roots")] auth None
          inherit_carries_roots
      else
        res ← h_db (createLauncherWithLifecycle h globals draws now (pt_ID target) name scope roots (cl_IssueCredential q));
        match res with
        | Err e =>
            refuse_launcher event [("principal_name", username); ("result", "error")] auth None (create_launcher_reply e)
        | Ok (l, cred) =>
            _ ← writeLauncherControlAudit [("event", event); ("result", "success")] auth (Some l);
            respond (writeJSONRaw 201 (createLauncherResponse l cred))
        end
  end.

Definition serveLauncherListQuery (auth : operatorAuthority) (principalFilter launcherFilter : string) : H unit :=
  scope ← requireListScope auth principalFilter;
  let principalID := if ls_all scope then None else pt_ID <$> ls_principal scope in
  let principalName := if ls_all scope then "" else default "" (pt_Name <$> ls_principal scope) in
  res ← h_db (queryLaunchersForScope principalID launcherFilter);
  match res with
  | Err e =>
      refuse_launcher "launcher.list"
        [("principal_name", principalName);
         ("result", by_class [(ErrLauncherNotFound, "launcher_not_found");
                              (ErrLauncherNameRequiresPrincipal, "launcher_name_requires_principal")] "error" e)]
        auth None
        (reply_by [(ErrLauncherNotFound, launcher_not_found); (ErrLauncherNameRequiresPrincipal, name_requires_principal)] e)
  | Ok launchers =>
      _ ← writeLauncherControlAudit
            [("event", "launcher.list"); ("principal_name", principalName); ("result", "success")] auth
            (if bool_decide (launcherFilter = "") then None else head launchers);
      respond (writeJSONRaw 200 (listLaunchersResponse launchers))
  end.

Definition handleListLaunchersQuery (r : request) : H unit :=
  auth ← authenticatePrincipalControlRequest adminHash r "launcher";
  serveLauncherListQuery auth (rq_query r "principal") (rq_query r "launcher").

Definition handleListLaunchers (r : request) : H unit :=
  auth ← authenticatePrincipalControlRequest adminHash r "launcher";
  if bool_decide (rq_value r "username" = "") then respond missing_username
  else serveLauncherListQuery auth (rq_value r "username") "".

Definition handleShowLauncher (r : request) : H unit :=
  launcher_route r (λ _ l, respond (writeJSONRaw 200 (launcherToJSON l))).

(** *** Update and scope *)

Definition handlePatchLauncher (r : request) : H unit :=
  launcher_route r (λ auth l,
    let failed (res : string) (rep : reply) : H unit :=
      refuse_launcher "launcher.update" [("launcher_id", lp_ID l); ("result", res)] auth None rep in
    match decodeJSONRequest decode_patch_launcher r with
    | None => failed "invalid_json" invalid_json
    | Some q =>
        if bool_decide (pl_Name q = None ∧ pl_Enabled q = None)
        then failed "missing_field" (writeError 400 "missing_field" "name or enabled is required")
        else
          res ← h_proc (updateLauncherWithLifecycleLocked (lp_ID l) (pl_Name q) (pl_Enabled q));
          match res with
          | Err e => failed "error" (update_launcher_reply e)
          | Ok (updated, revoked) =>
              _ ← cleanupSessionRuntimeDirs revoked;
              _ ← writeLauncherControlAudit [("event", "launcher.update"); ("result", "success")] auth (Some updated);
              respond (writeJSONRaw 200 (launcherToJSON updated))
          end
    end).

(** The requested entries: every access parses. *)
Fixpoint parse_entries (l : list AllowedRootEntry) : option (list AllowedRootEntry) :=
  match l with
  | [] => Some []
  | e :: l =>
      match parseAllowedRootAccess (Access e) with
      | Ok a => r ← parse_entries l; Some (mkEntry (Path e) a :: r)
      | Err _ => None
      end
  end.

Definition handleReplaceLauncherAllowedRoots (r : request) : H unit :=
  launcher_route r (λ auth l,
    let failed {A} (res : string) (rep : reply) : H A :=
      refuse_launcher "launcher.scope_replace" [("launcher_id", lp_ID l); ("result", res)] auth (Some l) rep in
    match decodeJSONRequest decode_replace r with
    | None => failed "invalid_json" invalid_json
    | Some q =>
        let scope := rr_Scope q in
        let roots := rr_AllowedRoots q in
        if bool_decide (scope ≠ LauncherScopeInherit ∧ scope ≠ LauncherScopeRestricted)
        then failed "invalid_scope" invalid_scope
        else
          entries ← (if rs_present roots && bool_decide (scope = LauncherScopeInherit) then
                       if bool_decide (rs_value roots = []) then mret []
                       else failed "invalid_allowed_roots" inherit_carries_roots
                     else if rs_present roots then
                       if bool_decide (rs_value roots = []) then failed "invalid_allowed_roots" restricted_without_roots
                       else match parse_entries (rs_value roots) with
                            | Some entries => mret entries
                            | None => failed "invalid_access" invalid_root_access
                            end
                     else if bool_decide (scope = LauncherScopeRestricted)
                     then failed "invalid_allowed_roots" restricted_without_roots
                     else mret [] : H (list AllowedRootEntry));
          res ← h_db (replaceLauncherScopeWithLifecycle h globals (lp_ID l) scope entries);
          match res with
          | Err e => failed (launcherScopeReplaceAuditResult e) (replace_scope_reply e)
          | Ok updated =>
              _ ← writeLauncherControlAudit [("event", "launcher.scope_replace"); ("result", "success")] auth (Some updated);
              respond (writeJSONRaw 200 (launcherToJSON updated))
          end
    end).

(** *** Stored roots *)

(** The access an add requests: read_write where the field is absent. *)
Definition requested_access (a : present_string) : result string :=
  if ps_present a then parseAllowedRootAccess (ps_value a) else Ok AllowedRootAccessReadWrite.

Definition handleAddLauncherAllowedRoot (r : request) : H unit :=
  let event := "launcher.allowed_root_add" in
  launcher_route r (λ auth l,
    let failed (fields : list (string * string)) (rep : reply) : H unit :=
      refuse_launcher event (("launcher_id", lp_ID l) :: fields) auth (Some l) rep in
    match decodeJSONRequest decode_root_add r with
    | None => failed [("result", "invalid_json")] invalid_json
    | Some q =>
        if bool_decide (aa_Path q = "") then failed [("result", "missing_path")] missing_path
        else match requested_access (aa_Access q) with
        | Err _ => failed [("result", "invalid_access")] invalid_root_access
        | Ok access =>
            res ← h_db (addLauncherAllowedRootWithLifecycle h globals (lp_ID l) (aa_Path q) access);
            match res with
            | Err e => failed [("requested_access", access); ("result", launcherAllowedRootAuditResult e)] (add_root_reply e)
            | Ok (committed, changed, entry) =>
                _ ← writeLauncherControlAudit
                      [("event", event); ("launcher_path", Path entry); ("requested_access", access);
                       ("stored_access", Access entry); ("result", "success")] auth (Some committed);
                respond (writeJSONRaw 200 (launcherAllowedRootResponseOf (lp_ID committed) entry changed))
            end
        end
    end).

Definition handleRemoveLauncherAllowedRoot (r : request) : H unit :=
  let event := "launcher.allowed_root_remove" in
  launcher_route r (λ auth l,
    let failed (res : string) (rep : reply) : H unit :=
      refuse_launcher event [("launcher_id", lp_ID l); ("result", res)] auth (Some l) rep in
    match decodeJSONRequest decode_root_request r with
    | None => failed "invalid_json" invalid_json
    | Some q =>
        if bool_decide (ar_Path q = "") then failed "missing_path" missing_path
        else
          res ← h_db (removeLauncherAllowedRootWithLifecycle h (lp_ID l) (ar_Path q));
          match res with
          | Err e => failed (launcherAllowedRootAuditResult e) (remove_root_reply e)
          | Ok (changed, path) =>
              _ ← writeLauncherControlAudit [("event", event); ("launcher_path", path); ("result", "success")] auth (Some l);
              respond (writeJSONRaw 200 (launcherAllowedRootResponseOf (lp_ID l) (mkEntry path "") changed))
          end
    end).

Definition handleSetLauncherAllowedRootAccess (r : request) : H unit :=
  let event := "launcher.allowed_root_set_access" in
  launcher_route r (λ auth l,
    let failed (fields : list (string * string)) (rep : reply) : H unit :=
      refuse_launcher event (("launcher_id", lp_ID l) :: fields) auth (Some l) rep in
    match decodeJSONRequest decode_root_set_access r with
    | None => failed [("result", "invalid_json")] invalid_json
    | Some q =>
        if bool_decide (as_Path q = "") then failed [("result", "missing_path")] missing_path
        else match parseAllowedRootAccess (as_Access q) with
        | Err _ =>
            if bool_decide (as_Access q = "") then
              failed [("result", "missing_access")] (writeError 400 "missing_access" "access must be read_write or read_only")
            else failed [("result", "invalid_access")] invalid_root_access
        | Ok access =>
            res ← h_db (setLauncherAllowedRootAccessWithLifecycle h (lp_ID l) (as_Path q) access);
            match res with
            | Err e =>
                failed [("requested_access", access); ("result", launcherAllowedRootAuditResult e);
                        ("launcher_path", not_found_path h (as_Path q) e)] (set_access_reply e)
            | Ok (changed, entry) =>
                _ ← writeLauncherControlAudit
                      [("event", event); ("launcher_path", Path entry); ("requested_access", access);
                       ("stored_access", Access entry); ("result", "success")] auth (Some l);
                respond (writeJSONRaw 200 (launcherAllowedRootResponseOf (lp_ID l) entry changed))
            end
        end
    end).

(** *** Deletion *)

Definition handleDeleteLauncher (r : request) : H unit :=
  launcher_route r (λ auth l,
    res ← h_proc (deleteLauncherCheckedLocked dk (lp_ID l));
    _ ← cleanupSessionRuntimeDirs res.1;
    match res.2 with
    | Some e =>
        refuse_launcher "launcher.delete" [("launcher_id", lp_ID l); ("result", "error")] auth None (delete_launcher_reply e)
    | None =>
        _ ← writeLauncherControlAudit [("event", "launcher.delete"); ("result", "success")] auth (Some l);
        respond no_content
    end).

(** *** The Launcher credential *)

Definition handleIssueLauncherCredential (draws : create_draws) (now : Z) (r : request) : H unit :=
  launcher_route r (λ auth l,
    res ← h_db (issueLauncherCredential (dr_token draws) (dr_credential draws) now (lp_ID l));
    match res with
    | Err e =>
        refuse_launcher "launcher.credential_issue" [("launcher_id", lp_ID l); ("result", "error")] auth None
          (reply_by [(ErrLauncherNotFound, launcher_not_found); (ErrLauncherCredentialExists, launcher_credential_exists)] e)
    | Ok (cred, token) =>
        _ ← writeLauncherControlAudit
              [("event", "launcher.credential_issue"); ("credential_id", lc_ID cred); ("result", "success")] auth (Some l);
        respond (writeJSONRaw 201 (launcherCredentialResponse cred token))
    end).

Definition handleGetLauncherCredential (r : request) : H unit :=
  launcher_route r (λ _ l,
    res ← h_db (findLauncherCredential (lp_ID l));
    respond match res with
            | Err e => credential_lookup_reply e
            | Ok cred => writeJSONRaw 200 (launcherCredentialResponse cred "")
            end).

(** The rotation transaction writes the reply itself; the marshalling of a reply
    does not fail. *)
Definition h_commit (commit : db → list bool → (result unit * bool) * db * list bool) : H (result unit) :=
  h_proc (on_mac (λ m, let '(r, d, f) := commit (m_db m) (m_faults m) in (r.1, with_db d f m))).

Definition finish_rotation (record : string → H unit) (body : json) (outcome : result unit) : H unit :=
  match outcome with
  | Ok _ => _ ← record "success"; respond (writeJSONRaw 200 body)
  | Err e =>
      if errors_is e ErrCredentialRotationConflict then _ ← record "conflict"; respond rotation_conflict
      else if errors_is e ErrCredentialRotationDelivery
      then _ ← record "delivery_failed"; respond (mkReply 200 false (Undelivered body))
      else if errors_is e ErrCredentialRotationCommitUnknown
      then _ ← record "commit_unknown"; respond (writeJSONRaw 200 body)
      else _ ← record "error"; respond internal_error
  end.

Definition rotate_event : string := "launcher.credential_rotate".

(** The self-rotation of an authenticated Launcher bearer: the path must name it. *)
Definition launcher_self_rotate (draw : option string) (r : request) (token : string) (auth : operatorAuthority)
    (la : LauncherCredentialAuth) : H unit :=
  let record (fields : list (string * string)) : H unit :=
    writeLauncherControlAudit (("event", rotate_event) :: ("launcher_id", la_LauncherID la) :: fields) auth None in
  let selector := rq_value r "launcher" in
  if bool_decide (rq_value r "username" ≠ la_PrincipalName la ∨
                  (selector ≠ la_LauncherID la ∧ selector ≠ la_LauncherName la)) then
    _ ← record [("result", "launcher_not_found")]; respond launcher_not_found
  else
    prepared ← h_db (prepareLauncherCredentialRotation draw (la_LauncherID la) (la_CredentialID la));
    match prepared with
    | Err e => _ ← record [("result", "error")]; respond (credential_lookup_reply e)
    | Ok (cred, currentHash, newToken, newHash) =>
        if bool_decide (currentHash ≠ hashCredentialToken token) then
          _ ← record [("credential_id", la_CredentialID la); ("result", "conflict")]; respond rotation_conflict
        else
          outcome ← h_commit (commitLauncherCredentialRotationAfterDelivery (la_LauncherID la) (lc_ID cred)
                                (hashCredentialToken token) newHash (rq_deliver r));
          finish_rotation (λ res, record [("credential_id", lc_ID cred); ("result", res)])
            (launcherCredentialResponse cred newToken) outcome
    end.

(** [tryLauncherCredentialSelfRotate]: [None] leaves the request to the control
    authenticator. *)
Definition tryLauncherCredentialSelfRotate (r : request)
    : H (option (string * operatorAuthority * LauncherCredentialAuth)) :=
  match parseBearerToken r with
  | None => mret None
  | Some token =>
      res ← h_db (authenticateOperatorToken adminHash token);
      mret match res with
           | Ok authority =>
               match auth_class authority, auth_launcher authority with
               | operatorAuthorityLauncher, Some la => Some (token, authority, la)
               | _, _ => None
               end
           | Err _ => None
           end
  end.

Definition handleRotateLauncherCredential (draw : option string) (r : request) : H unit :=
  self ← tryLauncherCredentialSelfRotate r;
  match self with
  | Some (token, auth, la) => launcher_self_rotate draw r token auth la
  | None =>
      launcher_route r (λ auth l,
        prepared ← h_db (prepareLauncherCredentialRotation draw (lp_ID l) "");
        match prepared with
        | Err e =>
            refuse_launcher rotate_event [("launcher_id", lp_ID l); ("result", "error")] auth None (credential_lookup_reply e)
        | Ok (cred, expectedHash, token, newHash) =>
            outcome ← h_commit (commitLauncherCredentialRotationAfterDelivery (lp_ID l) (lc_ID cred) expectedHash newHash
                                  (rq_deliver r));
            finish_rotation (λ res, writeLauncherControlAudit
                               [("event", rotate_event); ("credential_id", lc_ID cred); ("result", res)] auth (Some l))
              (launcherCredentialResponse cred token) outcome
        end)
  end.

Definition handleDeleteLauncherCredential (r : request) : H unit :=
  launcher_route r (λ auth l,
    res ← h_db (deleteLauncherCredential (lp_ID l));
    match res with
    | Err e =>
        refuse_launcher "launcher.credential_delete" [("launcher_id", lp_ID l); ("result", "error")] auth None
          (credential_lookup_reply e)
    | Ok deleted =>
        _ ← writeLauncherControlAudit
              [("event", "launcher.credential_delete"); ("credential_id", lc_ID deleted); ("result", "success")] auth (Some l);
        respond no_content
    end).

End handlers.
