(* ===== verification/PrincipalHandlers.v ===== *)
(** * PrincipalHandlers: src/principal_handler.go, src/principal_credential_handler.go,
    src/policy_introspection.go and src/self_handler.go

    The Principal control plane, the Principal credentials, and the read-only
    introspection of a policy and of the caller. *)
From S2P Require Import Prelude Filepath AllowedRoots GoStrings Json WorkspacePolicy Database SnapshotStore Credential Launcher MacLifecycle Session PrincipalStore LauncherStore Operation Proc Lifecycle Http SessionHandlers LauncherHandlers.
Local Open Scope Z_scope.

(** ** Credential queries (src/credential.go) *)

Definition credential_projection (id : string) (c : credential_row) (p : principal_row) : PrincipalCredential :=
  mkPrincipalCredential id (p_username p) (default "" (c_name c)) (c_created_at c) (c_revoked_at c).

(** A credential joined with its Principal. *)
Definition credential_join (d : db) (id : string) (c : credential_row) : option PrincipalCredential :=
  match c_principal_id c with
  | Some pid => credential_projection id c <$> principals d !! pid
  | None => None
  end.

Definition credential_before (a b : PrincipalCredential) : Prop :=
  str_ltb (pc_PrincipalName a) (pc_PrincipalName b) = true ∨
  (pc_PrincipalName a = pc_PrincipalName b ∧ pc_CreatedAt a <= pc_CreatedAt b).
#[export] Instance credential_before_dec : RelDecision credential_before.
Proof. intros a b. unfold credential_before. apply _. Defined.

Definition listPrincipalCredentialsForScope (principalID : option Z) : DB (list PrincipalCredential) :=
  wrapf "cannot query credentials" []
    (query (λ d, merge_sort credential_before
       (omap (λ kv, if match principalID with
                       | None => true
                       | Some pid => bool_decide (c_principal_id kv.2 = Some pid)
                       end then credential_join d kv.1 kv.2 else None) (map_to_list (credentials d))))).

Definition findPrincipalCredentialByID (id : string) : DB PrincipalCredential :=
  if bool_decide (id = "") then db_fail "credential id is required" [ErrCredentialNotFound]
  else
    row ← wrapf "cannot find credential" [] (query (λ d, credentials d !! id ≫= credential_join d id));
    match row with
    | None => db_fail "credential not found" [ErrCredentialNotFound]
    | Some c => mret c
    end.

(** ** Requests *)

Record createPrincipalRequest := mkCreatePrincipal { cp_Username : string; cp_IssueCredential : bool }.
Definition decode_create_principal : json → option createPrincipalRequest :=
  decode_struct
    [("username", λ v q, u ← into_string v (cp_Username q); Some (mkCreatePrincipal u (cp_IssueCredential q)));
     ("issue_credential", λ v q, b ← into_bool v (cp_IssueCredential q); Some (mkCreatePrincipal (cp_Username q) b))]
    (mkCreatePrincipal "" false).
(** [setPrincipalRequest] *)
Definition decode_set_principal : json → option (option bool) :=
  decode_struct [("enabled", λ v _, into_bool_ptr v)] None.
(** [createPrincipalCredentialRequest] *)
Definition decode_create_credential : json → option string := decode_struct [("name", into_string)] "".

(** ** Refusals *)

Definition credential_not_found : reply := writeError 404 "credential_not_found" "credential not found".
Definition outside_global_root (message : string) : reply := writeError 400 "outside_global_root" message.

Definition create_principal_reply : error → reply :=
  reply_by [(ErrInvalidPrincipalUsername, writeError 400 "invalid_username" "invalid username");
            (ErrOSUserNotFound, writeError 400 "os_user_not_found" "OS user not found");
            (ErrPrincipalExists, writeError 409 "principal_exists" "principal already exists");
            (ErrPrincipalRootOutsideGlobal, outside_global_root "principal home is not under any global allowed root")].
Definition principal_lookup_reply : error → reply := reply_by [(ErrPrincipalNotFound, principal_not_found)].
Definition add_principal_root_reply : error → reply :=
  reply_by [(ErrPrincipalNotFound, principal_not_found); (ErrInvalidAllowedRoot, invalid_allowed_root);
            (ErrInvalidAllowedRootAccess, invalid_root_access);
            (ErrPrincipalRootOutsideGlobal, outside_global_root "path is not under any global allowed root")].
Definition remove_principal_root_reply : error → reply :=
  reply_by [(ErrPrincipalNotFound, principal_not_found); (ErrInvalidAllowedRoot, invalid_allowed_root)].
Definition set_principal_access_reply : error → reply :=
  reply_by [(ErrPrincipalNotFound, principal_not_found); (ErrInvalidAllowedRoot, invalid_allowed_root);
            (ErrInvalidAllowedRootAccess, invalid_root_access); (ErrAllowedRootNotFound, allowed_root_not_found)].

Definition principalAllowedRootAuditResult : error → string :=
  by_class [(ErrPrincipalNotFound, "principal_not_found"); (ErrInvalidAllowedRoot, "invalid_allowed_root");
            (ErrAllowedRootNotFound, "allowed_root_not_found");
            (ErrPrincipalRootOutsideGlobal, "outside_global_root")] "error".

(** ** Handlers *)

Section handlers.
Context {W : Type} `{!sessionMACDriver W} (dk : docker).
Context (adminHash : string) (h : host) (globals : list AllowedRootEntry) (format_time : Z → string).
#[local] Existing Instance h_ret.
#[local] Existing Instance h_bind.
Abbreviation H A := (H (W := W) A).

Definition principalToResponse (p : PrincipalWithRoots) (extra : list (string * json)) : json :=
  let f := pwr_Principal p in
  JObject ([("ok", JBool true); ("username", JString (pr_Username f)); ("uid", JNumber (Some (pr_UID f)));
            ("gid", JNumber (Some (pr_GID f))); ("home", JString (pr_Home f)); ("enabled", JBool (pr_Enabled f));
            ("allowed_roots", entries_json (pwr_AllowedRoots p))] ++ extra).
Definition principalCredentialToJSON (c : PrincipalCredential) : json :=
  JObject [("id", JString (pc_ID c)); ("principal", JString (pc_PrincipalName c)); ("name", JString (pc_Name c));
           ("created_at", JString (format_time (pc_CreatedAt c))); ("revoked_at", revoked_json format_time (pc_RevokedAt c))].
Definition principalCredentialTokenResponse (c : PrincipalCredential) (token : string) : json :=
  JObject [("ok", JBool true); ("credential", principalCredentialToJSON c); ("token", JString token)].
Definition principalChangedResponse (username fld : string) (changed : bool) (path access : string) : json :=
  JObject ([("ok", JBool true); ("username", JString username); ("field", JString fld); ("changed", JBool changed)] ++
           member "path" path ++ member "access" access ++ member "message" (if changed then "" else "unchanged")).
(** [principalSummary] *)
Definition principal_summary (p : Principal) : json :=
  JObject [("username", JString (pr_Username p)); ("uid", JNumber (Some (pr_UID p))); ("gid", JNumber (Some (pr_GID p)));
           ("home", JString (pr_Home p)); ("enabled", JBool (pr_Enabled p))].

(** A refused request: its audit record and its reply. *)
Definition refuse_principal {A} (event : string) (fields : list (string * string)) (rep : reply) : H A :=
  _ ← writeAudit (audit (("event", event) :: fields)); respond rep.

(** The admin routes under a Principal: the username is required. *)
Definition principal_route {A} (event : string) (r : request) (k : string → H A) : H A :=
  _ ← requireAdmin adminHash r;
  let username := rq_value r "username" in
  if bool_decide (username = "") then refuse_principal event [("result", "missing_username")] missing_username
  else k username.

(** *** Creation, show and list *)

Definition handleCreatePrincipal (OSUserLookup : os_users) (draws : create_draws) (now newID : Z) (r : request) : H unit :=
  _ ← requireAdmin adminHash r;
  let event := "principal.create" in
  match decodeJSONRequest decode_create_principal r with
  | None => refuse_principal event [("result", "invalid_json")] invalid_json
  | Some q =>
      let username := cp_Username q in
      if bool_decide (username = "") then refuse_principal event [("result", "missing_username")] missing_username
      else
        res ← h_db (createPrincipalWithLifecycle h globals OSUserLookup draws now newID username (cp_IssueCredential q));
        match res with
        | Err e =>
            refuse_principal event
              [("principal_name", username);
               ("result", if errors_is e ErrInvalidPrincipalUsername then "invalid_username" else "error")]
              (create_principal_reply e)
        | Ok (p, cred) =>
            _ ← writeAudit (audit [("event", event); ("principal_name", pr_Username (pwr_Principal p)); ("result", "success")]);
            respond (writeJSONRaw 201 (principalToResponse p
              match cred with
              | Some (c, token) => ("credential", principalCredentialToJSON c) :: member "token" token
              | None => []
              end))
        end
  end.

Definition handleShowPrincipal (r : request) : H unit :=
  auth ← authenticatePrincipalControlRequest adminHash r "principal";
  if bool_decide (rq_value r "username" = "") then respond missing_username
  else
    target ← resolveControlPrincipal auth (rq_value r "username");
    p ← h_db (findPrincipalByID (pt_ID target));
    match p with
    | Err e => respond (principal_lookup_reply e)
    | Ok p =>
        roots ← h_db (readPrincipalAllowedRoots (pt_ID target));
        respond match roots with
                | Err _ => internal_error
                | Ok roots => writeJSONRaw 200 (principalToResponse (mkPrincipalRoots p roots) [])
                end
    end.

Definition handleListPrincipals (r : request) : H unit :=
  _ ← requireAdmin adminHash r;
  res ← h_db listPrincipalSummaries;
  respond match res with
          | Err _ => internal_error
          | Ok l => writeJSONRaw 200 (JObject [("ok", JBool true); ("principals", JArray (principal_summary <$> l))])
          end.

(** *** The enabled transition and deletion *)

Definition handleSetPrincipal (r : request) : H unit :=
  let event := "principal.enabled_change" in
  principal_route event r (λ username,
    match decodeJSONRequest decode_set_principal r with
    | None => refuse_principal event [("principal_name", username); ("result", "invalid_json")] invalid_json
    | Some None =>
        refuse_principal event [("principal_name", username); ("result", "missing_enabled")]
          (writeError 400 "missing_enabled" "enabled field is required")
    | Some (Some enabled) =>
        res ← h_proc (if enabled : bool then enablePrincipalLaunchersLocked username
                      else disablePrincipalLaunchersLocked username);
        match res with
        | Err e => refuse_principal event [("principal_name", username); ("result", "error")] (principal_lookup_reply e)
        | Ok change =>
            _ ← (if enabled then mret () else cleanupSessionRuntimeDirs (pec_RevokedSessionIDs change) : H unit);
            _ ← writeAudit (audit [("event", event); ("principal_name", username);
                                   ("principal_enabled", bool_text enabled); ("result", "success")]);
            respond (writeJSONRaw 200 (principalChangedResponse username "enabled" (pec_Changed change) "" ""))
        end
    end).

Definition handleDeletePrincipal (r : request) : H unit :=
  let event := "principal.delete" in
  principal_route event r (λ username,
    res ← h_proc (deletePrincipalCheckedLocked dk username);
    _ ← cleanupSessionRuntimeDirs res.1;
    match res.2 with
    | Some e =>
        refuse_principal event
          [("principal_name", username);
           ("result", by_class [(ErrPrincipalNotFound, "not_found"); (ErrLauncherRuntimeActive, "launcher_runtime_active")]
                        "database_error" e)]
          (reply_by [(ErrPrincipalNotFound, principal_not_found);
                     (ErrLauncherRuntimeActive, writeError 409 "launcher_runtime_active" "principal has active launcher runtime")] e)
    | None =>
        _ ← writeAudit (audit [("event", event); ("principal_name", username); ("result", "success")]);
        respond no_content
    end).

(** *** Stored roots *)

Definition handleAddPrincipalAllowedRoot (r : request) : H unit :=
  let event := "principal.allowed_root_add" in
  principal_route event r (λ username,
    let failed (fields : list (string * string)) (rep : reply) : H unit :=
      refuse_principal event (("principal_name", username) :: fields) rep in
    match decodeJSONRequest decode_root_add r with
    | None => failed [("result", "invalid_json")] invalid_json
    | Some q =>
        if bool_decide (aa_Path q = "") then failed [("result", "missing_path")] missing_path
        else match requested_access (aa_Access q) with
        | Err _ => failed [("result", "invalid_access")] invalid_root_access
        | Ok access =>
            res ← h_db (addPrincipalAllowedRootWithLifecycle h globals username (aa_Path q) access);
            match res with
            | Err e => failed [("requested_access", access); ("result", principalAllowedRootAuditResult e)] (add_principal_root_reply e)
            | Ok (changed, entry) =>
                _ ← writeAudit (audit [("event", event); ("principal_name", username); ("principal_path", Path entry);
                                       ("requested_access", access); ("stored_access", Access entry); ("result", "success")]);
                respond (writeJSONRaw 200 (principalChangedResponse username "allowed_roots" changed (Path entry) (Access entry)))
            end
        end
    end).

Definition handleRemovePrincipalAllowedRoot (r : request) : H unit :=
  let event := "principal.allowed_root_remove" in
  principal_route event r (λ username,
    let failed (res : string) (rep : reply) : H unit :=
      refuse_principal event [("principal_name", username); ("result", res)] rep in
    match decodeJSONRequest decode_root_request r with
    | None => failed "invalid_json" invalid_json
    | Some q =>
        if bool_decide (ar_Path q = "") then failed "missing_path" missing_path
        else
          res ← h_db (removePrincipalAllowedRootWithLifecycle h globals username (ar_Path q));
          match res with
          | Err e => failed (principalAllowedRootAuditResult e) (remove_principal_root_reply e)
          | Ok (changed, path, _) =>
              _ ← writeAudit (audit [("event", event); ("principal_name", username); ("principal_path", path); ("result", "success")]);
              respond (writeJSONRaw 200 (principalChangedResponse username "allowed_roots" changed "" ""))
          end
    end).

Definition handleSetPrincipalAllowedRootAccess (r : request) : H unit :=
  let event := "principal.allowed_root_set_access" in
  principal_route event r (λ username,
    let failed (fields : list (string * string)) (rep : reply) : H unit :=
      refuse_principal event (("principal_name", username) :: fields) rep in
    match decodeJSONRequest decode_root_set_access r with
    | None => failed [("result", "invalid_json")] invalid_json
    | Some q =>
        if bool_decide (as_Path q = "") then failed [("result", "missing_path")] missing_path
        else match parseAllowedRootAccess (as_Access q) with
        | Err _ =>
            if bool_decide (as_Access q = "") then
              failed [("result", "missing_access")] (writeError 400 "missing_access" "access must be read_write or read_only")
            else failed [("result", "invalid_access")] invalid_root_access
        | Ok access =>
            res ← h_db (setPrincipalAllowedRootAccessWithLifecycle h username (as_Path q) access);
            match res with
            | Err e =>
                failed [("requested_access", access); ("result", principalAllowedRootAuditResult e);
                        ("principal_path", not_found_path h (as_Path q) e)] (set_principal_access_reply e)
            | Ok (changed, entry) =>
                _ ← writeAudit (audit [("event", event); ("principal_name", username); ("principal_path", Path entry);
                                       ("requested_access", access); ("stored_access", Access entry); ("result", "success")]);
                respond (writeJSONRaw 200 (principalChangedResponse username "allowed_roots" changed (Path entry) (Access entry)))
            end
        end
    end).

(** *** Principal credentials *)

Definition handleCreatePrincipalCredential (draws : create_draws) (now : Z) (r : request) : H unit :=
  let event := "principal.credential_create" in
  principal_route event r (λ username,
    match decodeJSONRequest decode_create_credential r with
    | None => refuse_principal event [("principal_name", username); ("result", "invalid_json")] invalid_json
    | Some name =>
        if bool_decide (name = "") then
          refuse_principal event [("principal_name", username); ("result", "invalid_credential_name")]
            (writeError 400 "invalid_credential_name" "credential name is required")
        else
          res ← h_db (createPrincipalCredential (dr_token draws) (dr_credential draws) now username name);
          match res with
          | Err e =>
              refuse_principal event [("principal_name", username); ("credential_name", name); ("result", "error")]
                (reply_by [(ErrPrincipalNotFound, principal_not_found);
                           (ErrPrincipalCredentialExists, writeError 409 "credential_exists" "credential already exists")] e)
          | Ok (c, token) =>
              _ ← writeAudit (audit [("event", event); ("principal_name", pc_PrincipalName c); ("credential_id", pc_ID c);
                                     ("credential_name", pc_Name c); ("result", "success")]);
              respond (writeJSONRaw 201 (principalCredentialTokenResponse c token))
          end
    end).

Definition servePrincipalCredentialList (auth : operatorAuthority) (principalFilter : string) : H unit :=
  scope ← requireListScope auth principalFilter;
  let principalID := if ls_all scope then None else pt_ID <$> ls_principal scope in
  let principalName := if ls_all scope then "" else default "" (pt_Name <$> ls_principal scope) in
  res ← h_db (listPrincipalCredentialsForScope principalID);
  let record (res : string) : H unit :=
    writeControlAudit auth (audit [("event", "principal.credential_list"); ("principal_name", principalName); ("result", res)]) in
  match res with
  | Err _ => _ ← record "error"; respond internal_error
  | Ok l =>
      _ ← record "success";
      respond (writeJSONRaw 200 (JObject [("ok", JBool true); ("credentials", JArray (principalCredentialToJSON <$> l))]))
  end.

Definition handleListPrincipalCredentials (r : request) : H unit :=
  auth ← authenticatePrincipalControlRequest adminHash r "credential";
  if bool_decide (rq_value r "username" = "") then respond missing_username
  else servePrincipalCredentialList auth (rq_value r "username").

Definition handleListPrincipalCredentialsForAuthority (r : request) : H unit :=
  auth ← authenticatePrincipalControlRequest adminHash r "credential";
  servePrincipalCredentialList auth (rq_query r "principal").

(** The hash the commit compares, or the refusal: a Principal credential that rotates
    itself is bound to the bearer of the request. *)
Definition rotation_hash (auth : operatorAuthority) (r : request) (c : PrincipalCredential) (expectedHash : string)
    : string + (string * reply) :=
  match auth_class auth, auth_principal auth with
  | operatorAuthorityPrincipal, Some p =>
      if bool_decide (pc_ID c = pa_CredentialID p) then
        match parseBearerToken r with
        | None => inr ("error", internal_error)
        | Some bearer =>
            if bool_decide (expectedHash ≠ hashCredentialToken bearer) then inr ("conflict", rotation_conflict)
            else inl (hashCredentialToken bearer)
        end
      else inl expectedHash
  | _, _ => inl expectedHash
  end.

Definition handleRotatePrincipalCredential (draw : option string) (r : request) : H unit :=
  auth ← authenticatePrincipalControlRequest adminHash r "credential";
  let record (fields : list (string * string)) : H unit :=
    writeControlAudit auth (audit (("event", "principal.credential_rotate") :: fields)) in
  let username := rq_value r "username" in
  let name := rq_value r "name" in
  if bool_decide (username = "") then _ ← record [("result", "missing_username")]; respond missing_username
  else if bool_decide (name = "") then
    _ ← record [("principal_name", username); ("result", "missing_credential_name")];
    respond (writeError 400 "missing_credential_name" "credential name is required")
  else
    target ← resolveControlPrincipal auth username;
    prepared ← h_db (preparePrincipalCredentialRotation draw (pt_ID target) name);
    match prepared with
    | Err e =>
        _ ← record [("principal_name", pt_Name target); ("credential_name", name); ("result", "error")];
        respond (reply_by [(ErrCredentialNotFound, credential_not_found);
                           (ErrCredentialRevoked, writeError 409 "credential_revoked" "credential is revoked")] e)
    | Ok (c, expectedHash, token, newHash) =>
        let record_credential (res : string) : H unit :=
          record [("principal_name", pc_PrincipalName c); ("credential_id", pc_ID c); ("credential_name", pc_Name c);
                  ("result", res)] in
        match rotation_hash auth r c expectedHash with
        | inr (res, rep) => _ ← record_credential res; respond rep
        | inl expected =>
            outcome ← h_commit (commitPrincipalCredentialRotationAfterDelivery (pc_ID c) (pt_ID target) expected newHash
                                  (rq_deliver r));
            finish_rotation record_credential (principalCredentialTokenResponse c token) outcome
        end
    end.

Definition handleRevokePrincipalCredential (now : Z) (r : request) : H unit :=
  _ ← requireAdmin adminHash r;
  let event := "principal.credential_revoke" in
  let id := rq_value r "id" in
  if bool_decide (id = "") then
    refuse_principal event [("result", "missing_id")] (writeError 400 "missing_id" "credential id is required")
  else
    found ← h_db (findPrincipalCredentialByID id);
    match found with
    | Err e =>
        refuse_principal event [("result", by_class [(ErrCredentialNotFound, "credential_not_found")] "error" e)]
          (reply_by [(ErrCredentialNotFound, credential_not_found)] e)
    | Ok c =>
        changed ← h_db (revokePrincipalCredential now id);
        let fields := [("principal_name", pc_PrincipalName c); ("credential_id", pc_ID c); ("credential_name", pc_Name c)] in
        match changed with
        | Err _ => refuse_principal event (fields ++ [("result", "error")]) internal_error
        | Ok changed =>
            _ ← writeAudit (audit (("event", event) :: fields ++ [("credential_changed", bool_text changed); ("result", "success")]));
            respond (writeJSONRaw 200 (JObject ([("ok", JBool true); ("id", JString id); ("changed", JBool changed)] ++
                                               member "message" (if changed then "" else "unchanged"))))
        end
    end.

(** *** Policy introspection *)

Definition handlePrincipalEffectiveRoots (r : request) : H unit :=
  auth ← authenticatePrincipalControlRequest adminHash r "principal";
  res ← h_db (resolvePrincipalEffectiveRootsSnapshot h globals (Some auth) (rq_value r "username"));
  respond match res with
          | Err e => principal_lookup_reply e
          | Ok s => writeJSONRaw 200 (JObject [("ok", JBool true); ("principal", JString (es_Principal s));
                                               ("allowed_roots", entries_json (es_AllowedRoots s))])
          end.

(** The create selector the query parameters name. *)
Definition create_policy_selector (auth : operatorAuthority) (principal launcher : string) : H createSelector :=
  let direct := mkSelector launcher principal in
  let resolve (principalCtx : option Z) : H createSelector :=
    l ← h_db (resolveLauncherSelector principalCtx launcher);
    match l with
    | Ok l => mret (mkSelector (lp_ID l) "")
    | Err e => respond (reply_by [(ErrLauncherNotFound, launcher_not_found);
                                  (ErrLauncherNameRequiresPrincipal, launcher_not_found)] e)
    end in
  if bool_decide (launcher = "") then mret direct
  else match auth_class auth, auth_principal auth with
  | operatorAuthorityLauncher, _ => mret direct
  | operatorAuthorityPrincipal, Some p =>
      if bool_decide (principal ≠ "") then mret direct else resolve (Some (pa_PrincipalID p))
  | _, _ =>
      if bool_decide (principal ≠ "") then
        target ← h_db (resolvePrincipalControlTarget (Some auth) principal);
        match target with
        | Ok target => resolve (Some (pt_ID target))
        | Err e => respond (reply_by [(ErrPrincipalNotFound, launcher_not_found)] e)
        end
      else resolve None
  end.

Definition handleSessionCreatePolicy (r : request) : H unit :=
  auth ← authenticateSessionControlRequest adminHash r;
  sel ← create_policy_selector auth (rq_query r "principal") (rq_query r "launcher");
  res ← h_db (resolveCreatePolicy h globals (Some auth) sel "" []);
  respond match res with
          | Err e => match classifyCreateTargetError e with Some te => te_reply te | None => internal_error end
          | Ok p => writeJSONRaw 200 (JObject [("ok", JBool true); ("principal", JString (cp_PrincipalName p));
                                               ("launcher_id", JString (cp_LauncherID p)); ("launcher", JString (cp_LauncherName p));
                                               ("allowed_roots", entries_json (cp_EffectiveAllowedRoots p))])
          end.

(** *** GET /self *)

Record principalSelfSnapshot := mkPrincipalSelf {
  self_Principal : Principal; self_Stored : list AllowedRootEntry; self_Effective : list AllowedRootEntry }.
Definition resolvePrincipalSelfSnapshot (principalID : Z) : DB principalSelfSnapshot :=
  p ← findPrincipalByID principalID;
  stored ← readPrincipalAllowedRoots (pr_ID p);
  effective ← resolveEffectivePrincipalRootEntries h globals (pr_ID p);
  mret (mkPrincipalSelf p stored effective).

Definition resolveLauncherSelfSnapshot (launcherID : string) : DB (ownership_facts * list AllowedRootEntry) :=
  snap ← resolveSessionOwnershipSnapshot launcherID;
  globalEntries ← db_result (resolveAllowedRootEntries h globals);
  effective ← db_result (effectiveLauncherAllowedRoots globalEntries (of_policy snap));
  mret (snap, effective).

Definition self_response (t : string) (resource : list (string * json)) : reply :=
  writeJSONRaw 200 (JObject [("ok", JBool true); ("type", JString t); ("resource", JObject resource)]).
(** [writeSelfResult] *)
Definition writeSelfResult (t : string) (resource : list (string * json)) (provenance : list (string * string)) : H unit :=
  _ ← writeAudit (audit (("event", "self.show") :: ("result", "success") :: ("self_type", t) :: provenance));
  respond (self_response t resource).

Definition self_not_available : H unit :=
  _ ← writeAudit (audit [("event", "self.show"); ("result", "self_not_available")]);
  respond (writeError 404 "self_not_available" "no self resource for this authority").

Definition self_unauthorized (r : request) : H unit := refuse r "self.unauthorized" (writeUnauthorized unauthorizedAuth).

Definition self_of_principal (r : request) (p : PrincipalCredentialAuth) : H unit :=
  snap ← h_db (resolvePrincipalSelfSnapshot (pa_PrincipalID p));
  match snap with
  | Err e => if errors_is e ErrPrincipalNotFound then self_unauthorized r else respond internal_error
  | Ok s =>
      let f := self_Principal s in
      writeSelfResult "principal"
        [("username", JString (pr_Username f)); ("uid", JNumber (Some (pr_UID f))); ("gid", JNumber (Some (pr_GID f)));
         ("home", JString (pr_Home f)); ("enabled", JBool (pr_Enabled f)); ("allowed_roots", entries_json (self_Stored s));
         ("effective_allowed_roots", entries_json (self_Effective s))]
        [("principal_name", pr_Username f)]
  end.

Definition self_of_launcher (r : request) (l : LauncherCredentialAuth) : H unit :=
  snap ← h_db (resolveLauncherSelfSnapshot (la_LauncherID l));
  match snap with
  | Err e => if errors_is e ErrLauncherNotFound then self_unauthorized r else respond internal_error
  | Ok (o, effective) =>
      writeSelfResult "launcher"
        [("id", JString (of_launcherID o)); ("name", JString (of_launcherName o)); ("principal", JString (of_principalName o));
         ("enabled", JBool (of_launcherEnabled o)); ("scope", JString (launcherScope (of_policy o)));
         ("allowed_roots", entries_json (launcherRoots (of_policy o))); ("effective_allowed_roots", entries_json effective)]
        [("launcher_id", of_launcherID o); ("launcher_name", of_launcherName o); ("principal_name", of_principalName o)]
  end.

Definition self_of_operator (r : request) (token : string) : H unit :=
  res ← h_db (authenticateOperatorToken adminHash token);
  match res with
  | Err e =>
      if isExpectedAuthFailure (classifyCredentialAuthFailure e) then self_unauthorized r
      else refuse r "self.database_error" internal_error
  | Ok authority =>
      match auth_class authority, auth_principal authority, auth_launcher authority with
      | operatorAuthorityAdmin, _, _ => self_not_available
      | operatorAuthorityPrincipal, Some p, _ => self_of_principal r p
      | operatorAuthorityLauncher, _, Some l => self_of_launcher r l
      | _, _, _ => writeInvalidOperatorAuthority r "self"
      end
  end.

Definition handleSelf (now : Z) (r : request) : H unit :=
  match parseBearerToken r with
  | None => refuse r "self.parse_failed" (writeUnauthorized unauthorizedAuth)
  | Some token =>
      if matchAdminToken adminHash token then self_not_available
      else
        captured ← call_capture token now;
        match captured with
        | inl a =>
            let s := fa_Session a in
            match sessionShowToJSON format_time s (fa_Snapshot a) with
            | JObject resource => writeSelfResult "session" resource (("session_id", ss_ID s) :: owner_fields s)
            | _ => respond internal_error
            end
        | inr e =>
            match ce_class e with
            | sessionAuthorityCaptureNotFound => self_of_operator r token
            | sessionAuthorityCaptureIntegrity => writeSessionFilesystemAuthorityRejected "self" (ce_session e)
            | _ => refuse r "self.database_error" internal_error
            end
        end
  end.

End handlers.
