(* ===== verification/Routes.v ===== *)
(** * Routes: the control-plane routes of src/main.go

    [serve] is the handler of a matched route; the path values are the request's.
    [gate_of] is the request wrapper the handler starts with. *)
From S2P Require Import Prelude Filepath AllowedRoots GoStrings WorkspacePolicy Database SnapshotStore Credential Launcher MacLifecycle Session PrincipalStore Operation Proc Lifecycle Http SessionHandlers LauncherHandlers PrincipalHandlers.
Local Open Scope Z_scope.

Inductive endpoint :=
  | CreateSession | ListSessions | GetSession | DeleteSession | SessionCreatePolicy
  | CreatePrincipal | ListPrincipals | ShowPrincipal | SetPrincipal | DeletePrincipal
  | AddPrincipalAllowedRoot | RemovePrincipalAllowedRoot | SetPrincipalAllowedRootAccess
  | CreatePrincipalCredential | ListPrincipalCredentials | ListPrincipalCredentialsForAuthority
  | PrincipalEffectiveRoots | RotatePrincipalCredential | RevokePrincipalCredential
  | CreateLauncher | ListLaunchers | ListLaunchersQuery | ShowLauncher | PatchLauncher
  | ReplaceLauncherAllowedRoots | AddLauncherAllowedRoot | RemoveLauncherAllowedRoot | SetLauncherAllowedRootAccess
  | DeleteLauncher | IssueLauncherCredential | GetLauncherCredential | RotateLauncherCredential
  | DeleteLauncherCredential
  | Auth | Self.

(** What a request draws and finds: the clock, the random draws, the id SQLite assigns,
    the OS accounts and whether the lifecycle lock is free. *)
Record serve_env := mkServeEnv {
  se_create : create_env; se_draws : create_draws; se_now : Z; se_newID : Z; se_users : os_users; se_lifecycleFree : bool }.

(** The request wrappers. *)
Inductive gate := GateAdmin | GateSessionControl | GateControl (auditScope : string) | GateRotate | GateAuth | GateSelf.

Definition gate_of (e : endpoint) : gate :=
  match e with
  | CreateSession | ListSessions | GetSession | DeleteSession | SessionCreatePolicy => GateSessionControl
  | CreatePrincipal | ListPrincipals | SetPrincipal | DeletePrincipal
  | AddPrincipalAllowedRoot | RemovePrincipalAllowedRoot | SetPrincipalAllowedRootAccess
  | CreatePrincipalCredential | RevokePrincipalCredential => GateAdmin
  | ShowPrincipal | PrincipalEffectiveRoots => GateControl "principal"
  | ListPrincipalCredentials | ListPrincipalCredentialsForAuthority | RotatePrincipalCredential => GateControl "credential"
  | RotateLauncherCredential => GateRotate
  | Auth => GateAuth
  | Self => GateSelf
  | _ => GateControl "launcher"
  end.

(** The message of its 401. *)
Definition gate_message (g : gate) : string :=
  match g with
  | GateAdmin => unauthorizedAdmin
  | GateSessionControl => unauthorizedSessionControl
  | GateControl auditScope => controlUnauthorizedMessage auditScope
  | GateRotate => controlUnauthorizedMessage "launcher"
  | GateAuth | GateSelf => unauthorizedAuth
  end.

(** The authority classes it lets through. *)
Definition gate_allows (g : gate) (c : operatorAuthorityClass) : bool :=
  match g, c with
  | GateAdmin, operatorAuthorityAdmin => true
  | GateAdmin, _ => false
  | GateControl _, operatorAuthorityLauncher => false
  | _, operatorAuthorityInvalid => false
  | _, _ => true
  end.

Section serve.
Context {W : Type} `{!sessionMACDriver W} (dk : docker).
Context (adminHash : string) (h : host) (globals : list AllowedRootEntry) (hasMAC : bool) (format_time : Z → string).

(** [registerRoutes] *)
Definition serve (e : endpoint) (env : serve_env) (r : request) : H (W := W) unit :=
  match e with
  | CreateSession => handleCreateSession adminHash h globals hasMAC format_time (se_create env) (se_lifecycleFree env) r
  | ListSessions => handleListSessions adminHash format_time (se_now env) r
  | GetSession => handleGetSession adminHash format_time r
  | DeleteSession => handleDeleteSession adminHash hasMAC r
  | SessionCreatePolicy => handleSessionCreatePolicy adminHash h globals r
  | CreatePrincipal =>
      handleCreatePrincipal adminHash h globals format_time (se_users env) (se_draws env) (se_now env) (se_newID env) r
  | ListPrincipals => handleListPrincipals adminHash r
  | ShowPrincipal => handleShowPrincipal adminHash r
  | SetPrincipal => handleSetPrincipal adminHash r
  | DeletePrincipal => handleDeletePrincipal dk adminHash r
  | AddPrincipalAllowedRoot => handleAddPrincipalAllowedRoot adminHash h globals r
  | RemovePrincipalAllowedRoot => handleRemovePrincipalAllowedRoot adminHash h globals r
  | SetPrincipalAllowedRootAccess => handleSetPrincipalAllowedRootAccess adminHash h r
  | CreatePrincipalCredential => handleCreatePrincipalCredential adminHash format_time (se_draws env) (se_now env) r
  | ListPrincipalCredentials => handleListPrincipalCredentials adminHash format_time r
  | ListPrincipalCredentialsForAuthority => handleListPrincipalCredentialsForAuthority adminHash format_time r
  | PrincipalEffectiveRoots => handlePrincipalEffectiveRoots adminHash h globals r
  | RotatePrincipalCredential => handleRotatePrincipalCredential adminHash format_time (dr_token (se_draws env)) r
  | RevokePrincipalCredential => handleRevokePrincipalCredential adminHash (se_now env) r
  | CreateLauncher => handleCreateLauncher adminHash h globals format_time (se_draws env) (se_now env) r
  | ListLaunchers => handleListLaunchers adminHash format_time r
  | ListLaunchersQuery => handleListLaunchersQuery adminHash format_time r
  | ShowLauncher => handleShowLauncher adminHash format_time r
  | PatchLauncher => handlePatchLauncher adminHash format_time r
  | ReplaceLauncherAllowedRoots => handleReplaceLauncherAllowedRoots adminHash h globals format_time r
  | AddLauncherAllowedRoot => handleAddLauncherAllowedRoot adminHash h globals r
  | RemoveLauncherAllowedRoot => handleRemoveLauncherAllowedRoot adminHash h r
  | SetLauncherAllowedRootAccess => handleSetLauncherAllowedRootAccess adminHash h r
  | DeleteLauncher => handleDeleteLauncher dk adminHash r
  | IssueLauncherCredential => handleIssueLauncherCredential adminHash format_time (se_draws env) (se_now env) r
  | GetLauncherCredential => handleGetLauncherCredential adminHash format_time r
  | RotateLauncherCredential => handleRotateLauncherCredential adminHash format_time (dr_token (se_draws env)) r
  | DeleteLauncherCredential => handleDeleteLauncherCredential adminHash r
  | Auth => handleAuth adminHash r
  | Self => handleSelf adminHash h globals format_time (se_now env) r
  end.

(** ** Running a handler alone *)

Definition h_run {A} (m : H (W := W) A) (a : app W) : list event * (reply + A) * app W := run m a.

End serve.

Section laws.
Context {W : Type} `{!sessionMACDriver W}.
#[local] Existing Instance h_ret.
#[local] Existing Instance h_bind.
Implicit Types a : app W.

Lemma run_proc_bind {S A B} (m : proc S A) (k : A → proc S B) (s : S) :
  run (proc_bind_ k m) s = run (k (run m s).1) (run m s).2.
Proof. pose proof (run_bind m k s) as E. unfold mbind, proc_bind in E. rewrite E. by destruct (run m s). Qed.

Lemma h_run_bind {A B} (m : H (W := W) A) (k : A → H B) a :
  h_run (m ≫= k) a =
  match h_run m a with
  | (l, inl rep, a') => (l, inl rep, a')
  | (l, inr x, a') => let '(l', o, a'') := h_run (k x) a' in (l ++ l', o, a'')
  end.
Proof.
  unfold h_run, mbind, h_bind. rewrite run_proc_bind. destruct (run m a) as [[l [rep|x]] a']; simpl; [done|].
  rewrite run_proc_bind. by destruct (run (k x) a') as [[l' o] a''].
Qed.

Lemma h_run_proc {A} (p : proc (app W) A) a : h_run (h_proc p) a = ([], inr (run p a).1, (run p a).2).
Proof. unfold h_run, h_proc. by rewrite run_proc_bind. Qed.

Lemma h_run_respond {A} rep a : h_run (A := A) (respond rep) a = ([], inl rep, a).
Proof. done. Qed.

Lemma h_run_emit e a : h_run (emit e) a = ([e], inr (), a).
Proof. done. Qed.

Lemma h_run_audit rec a : h_run (writeAudit rec) a = ([Audit rec], inr (), a).
Proof. done. Qed.

(** The reply of a bound handler whose first part already replied. *)
Lemma h_run_stop {A B} (m : H (W := W) A) (k : A → H B) a l rep a' :
  h_run m a = (l, inl rep, a') → h_run (m ≫= k) a = (l, inl rep, a').
Proof. intros E. by rewrite h_run_bind, E. Qed.

Lemma h_run_refuse {A} r res rep a :
  h_run (A := A) (refuse r res rep) a =
  ([Audit (audit [("event", "auth.failure"); ("method", rq_Method r); ("path", rq_Path r); ("result", res)])], inl rep, a).
Proof. done. Qed.

End laws.

#[export] Hint Rewrite @h_run_bind @h_run_proc @h_run_respond @h_run_emit @h_run_audit @h_run_refuse : h_run.
