(* ===== verification/HttpSpec.v ===== *)
(** * HttpSpec: what the control plane shows and does to whom

    No control-plane route acts for a request without an authority; a Session outside
    the scope of the caller cannot be told from none. *)
From S2P Require Import Prelude Filepath AllowedRoots Operation Sha256 Database SnapshotStore MacLifecycle GoStrings WorkspacePolicy Credential Launcher Session PrincipalStore DbHoare Proc Lifecycle LifecycleSpec Http SessionHandlers LauncherHandlers PrincipalHandlers Routes.
Local Open Scope Z_scope.

Lemma reads_operator_token adminHash token : reads (authenticateOperatorToken adminHash token).
Proof.
  unfold authenticateOperatorToken. destruct (matchAdminToken _ _); [by intros d f|].
  assert (Hc : reads (authenticateCredential token)).
  { unfold authenticateCredential. apply reads_bind; [auto with dh|]. intros [[id c]|]; [|auto with dh].
    destruct (c_revoked_at c); [auto with dh|].
    unfold authenticateLauncherCredentialOwner, authenticatePrincipalCredentialOwner.
    destruct (c_launcher_id c), (c_principal_id c); auto with dh; apply reads_bind; auto with dh;
      intros [[]|]; auto with dh; repeat case_match; auto with dh. }
  apply reads_bind; [exact Hc|]. intros res. unfold checked.
  destruct (ar_Principal res), (ar_Launcher res); auto with dh; intros d f; unfold mbind, db_bind, db_result; by destruct (validate _).
Qed.

Section gate.
Context {W : Type} `{!sessionMACDriver W} (dk : docker).
Context (adminHash : string) (h : host) (globals : list AllowedRootEntry) (hasMAC : bool) (format_time : Z → string).
#[local] Existing Instance h_ret.
#[local] Existing Instance h_bind.
Implicit Types a : app W.

(** Only statements were consumed. *)
Definition same_tables a a' : Prop :=
  ∃ f, a' = mkApp (with_db (a_db a) f (a_mac a)) (a_sup a) (a_removed a) (a_requests a).

Lemma with_db_same (m : mac W) : with_db (m_db m) (m_faults m) m = m.
Proof. by destruct m. Qed.

Lemma same_tables_refl a : same_tables a a.
Proof. exists (m_faults (a_mac a)). unfold a_db. rewrite with_db_same. by destruct a. Qed.

Lemma same_tables_trans a1 a2 a3 : same_tables a1 a2 → same_tables a2 a3 → same_tables a1 a3.
Proof. intros [f ->] [f' ->]. by exists f'. Qed.

Lemma same_tables_db a a' : same_tables a a' → a_db a' = a_db a.
Proof. by intros [f ->]. Qed.

Lemma run_reads {A} (m : DB A) a :
  reads m → ∃ f', run (call_db m) a =
    ((m (a_db a) (m_faults (a_mac a))).1.1, mkApp (with_db (a_db a) f' (a_mac a)) (a_sup a) (a_removed a) (a_requests a)).
Proof.
  intros Hr. specialize (Hr (a_db a) (m_faults (a_mac a))). rewrite run_call_db.
  destruct (m _ _) as [[res d] f]. simpl in *. subst. by exists f.
Qed.

(** The bearer of the request authenticates as an operator, in a run in which the
    statements it needs succeed. *)
Definition bearer (d : db) (r : request) (au : operatorAuthority) : Prop :=
  ∃ token f d' f', parseBearerToken r = Some token ∧ authenticateOperatorToken adminHash token d f = (Ok au, d', f').

Definition session_bearer (now : Z) (d : db) (r : request) : Prop :=
  ∃ token f s d' f', parseBearerToken r = Some token ∧ findSessionByToken token now d f = (Ok s, d', f').

(** The gate lets the request through. *)
Definition admits (now : Z) (g : gate) (d : db) (r : request) : Prop :=
  (∃ au, bearer d r au ∧ gate_allows g (auth_class au) = true) ∨ (g = GateSelf ∧ session_bearer now d r).

(** What a refused request does. *)
Definition refused_by {A} (g : gate) (r : request) a (o : list event * (reply + A) * app W) : Prop :=
  ∃ res rep a', o = ([Audit (audit [("event", "auth.failure"); ("method", rq_Method r); ("path", rq_Path r); ("result", res)])],
                     inl rep, a') ∧
    (rep = writeUnauthorized (gate_message g) ∨ rep = internal_error) ∧ same_tables a a'.

Lemma refused_refuse {A} g r a a' res rep :
  (rep = writeUnauthorized (gate_message g) ∨ rep = internal_error) → same_tables a a' →
  refused_by (A := A) g r a (h_run (refuse r res rep) a').
Proof. intros Hrep Hs. by exists res, rep, a'. Qed.

(** The rest of the handler is not reached. *)
Lemma refused_bind {A B} g r a a0 (m : H A) (k : A → H B) :
  refused_by g r a (h_run m a0) → refused_by g r a (h_run (m ≫= k) a0).
Proof. intros (res & rep & a' & E & H). exists res, rep, a'. split; [by apply h_run_stop|done]. Qed.

Lemma refused_silent {A B} g r a a0 a1 (m : H A) (k : A → H B) x :
  h_run m a0 = ([], inr x, a1) → refused_by g r a (h_run (k x) a1) → refused_by g r a (h_run (m ≫= k) a0).
Proof. intros E (res & rep & a' & E' & H). exists res, rep, a'. by rewrite h_run_bind, E, E'. Qed.

Lemma matched_bearer d r token :
  parseBearerToken r = Some token → matchAdminToken adminHash token = true →
  bearer d r (mkAuthority operatorAuthorityAdmin None None).
Proof. intros Hp Hm. exists token, [], d, []. split; [done|]. unfold authenticateOperatorToken. by rewrite Hm. Qed.

(** The authentication step both request wrappers and the introspection share. *)
Lemma refused_operator {B} g r a a0 token (k : result operatorAuthority → H B) :
  same_tables a a0 → parseBearerToken r = Some token → ¬ (∃ au, bearer (a_db a) r au ∧ gate_allows g (auth_class au) = true) →
  (∀ res a', same_tables a a' → (∀ au, res = Ok au → gate_allows g (auth_class au) = false) →
    refused_by g r a (h_run (k res) a')) →
  refused_by g r a (h_run (h_db (authenticateOperatorToken adminHash token) ≫= k) a0).
Proof.
  intros Hs Hp Hno Hk. rewrite h_run_bind. unfold h_db. rewrite h_run_proc.
  destruct (run_reads (authenticateOperatorToken adminHash token) a0 (reads_operator_token _ _)) as [f Ef]. rewrite Ef. simpl.
  rewrite (same_tables_db _ _ Hs) in *.
  edestruct (Hk (authenticateOperatorToken adminHash token (a_db a) (m_faults (a_mac a0))).1.1) as (res & rep & a' & E & H).
  - eapply same_tables_trans; [exact Hs|]. exists f. by rewrite (same_tables_db _ _ Hs).
  - intros au Hau. destruct (gate_allows g (auth_class au)) eqn:Eg; [|done]. destruct Hno. exists au. split; [|done].
    destruct (authenticateOperatorToken adminHash token (a_db a) (m_faults (a_mac a0))) as [[x d'] f'] eqn:Ea. simpl in Hau. subst x.
    by exists token, (m_faults (a_mac a0)), d', f'.
  - exists res, rep, a'. by rewrite E.
Qed.

Lemma admin_refused r a : ¬ (∃ au, bearer (a_db a) r au ∧ gate_allows GateAdmin (auth_class au) = true) →
  refused_by GateAdmin r a (h_run (requireAdmin adminHash r) a).
Proof.
  intros Hno. unfold requireAdmin. destruct (parseBearerToken r) as [token|] eqn:Hp.
  2: { apply refused_refuse; [by left|apply same_tables_refl]. }
  destruct (matchAdminToken adminHash token) eqn:Em.
  - destruct Hno. eexists. by split; [eapply matched_bearer|].
  - apply refused_refuse; [by left|apply same_tables_refl].
Qed.

Lemma control_refused g auditScope r a a0 :
  gate_message g = controlUnauthorizedMessage auditScope →
  (∀ c, gate_allows (GateControl auditScope) c = true → gate_allows g c = true) → same_tables a a0 →
  ¬ (∃ au, bearer (a_db a) r au ∧ gate_allows g (auth_class au) = true) →
  refused_by g r a (h_run (authenticatePrincipalControlRequest adminHash r auditScope) a0).
Proof.
  intros Hm Hg Hs Hno. unfold authenticatePrincipalControlRequest. rewrite <-Hm. cbv zeta.
  destruct (parseBearerToken r) as [token|] eqn:Hp; [|apply refused_refuse; auto].
  apply refused_operator; [done..|]. intros [au|e] a' Hs' Hau.
  - specialize (Hau au eq_refl). destruct (auth_class au) eqn:Ec.
    + apply refused_refuse; auto.
    + specialize (Hg operatorAuthorityAdmin eq_refl). congruence.
    + specialize (Hg operatorAuthorityPrincipal eq_refl). congruence.
    + apply refused_refuse; auto.
  - destruct (negb _); apply refused_refuse; auto.
Qed.

Lemma session_refused r a : ¬ (∃ au, bearer (a_db a) r au ∧ gate_allows GateSessionControl (auth_class au) = true) →
  refused_by GateSessionControl r a (h_run (authenticateSessionControlRequest adminHash r) a).
Proof.
  intros Hno. unfold authenticateSessionControlRequest.
  destruct (parseBearerToken r) as [token|] eqn:Hp; [|apply refused_refuse; [by left|apply same_tables_refl]].
  apply refused_operator; [apply same_tables_refl|done..|]. intros [au|e] a' Hs' Hau.
  - specialize (Hau au eq_refl). destruct (auth_class au) eqn:Ec; try done. apply refused_refuse; auto.
  - destruct (negb _); apply refused_refuse; auto.
Qed.

Lemma auth_refused r a : ¬ (∃ au, bearer (a_db a) r au ∧ gate_allows GateAuth (auth_class au) = true) →
  refused_by GateAuth r a (h_run (handleAuth adminHash r) a).
Proof.
  intros Hno. unfold handleAuth.
  destruct (parseBearerToken r) as [token|] eqn:Hp; [|apply refused_refuse; [by left|apply same_tables_refl]].
  apply refused_operator; [apply same_tables_refl|done..|]. intros [au|e] a' Hs' Hau.
  - specialize (Hau au eq_refl). destruct (auth_response au) eqn:Er; [|apply refused_refuse; auto].
    unfold auth_response in Er. by destruct (auth_class au).
  - destruct (isExpectedAuthFailure _); apply refused_refuse; auto.
Qed.

Lemma rotate_refused draw r a : ¬ (∃ au, bearer (a_db a) r au ∧ gate_allows GateRotate (auth_class au) = true) →
  refused_by GateRotate r a (h_run (handleRotateLauncherCredential adminHash format_time draw r) a).
Proof.
  intros Hno.
  assert (Hc : ∀ a', same_tables a a' → ∀ k : operatorAuthority → LauncherWithPrincipal → H unit,
    refused_by GateRotate r a (h_run (launcher_route adminHash r k) a')).
  { intros a' Hs k. unfold launcher_route. apply refused_bind. apply (control_refused _ "launcher"); [done| |done..]. by intros []. }
  unfold handleRotateLauncherCredential, tryLauncherCredentialSelfRotate.
  destruct (parseBearerToken r) as [token|] eqn:Hp.
  2: { eapply refused_silent; [done|]. apply Hc, same_tables_refl. }
  destruct (run_reads (authenticateOperatorToken adminHash token) a (reads_operator_token _ _)) as [f Ef].
  eapply refused_silent.
  { rewrite h_run_bind. unfold h_db. rewrite h_run_proc, Ef. reflexivity. }
  assert (Ho : ∀ au, (authenticateOperatorToken adminHash token (a_db a) (m_faults (a_mac a))).1.1 = Ok au → auth_class au ≠ operatorAuthorityLauncher).
  { intros au Hau Ec. destruct Hno. exists au. split; [|by rewrite Ec].
    destruct (authenticateOperatorToken adminHash token (a_db a) (m_faults (a_mac a))) as [[x d'] f'] eqn:Ea. simpl in Hau. subst x.
    by exists token, (m_faults (a_mac a)), d', f'. }
  simpl. destruct ((authenticateOperatorToken adminHash token (a_db a) (m_faults (a_mac a))).1.1) as [au|e]; [|apply Hc; by exists f].
  specialize (Ho au eq_refl). destruct (auth_class au); try done; apply Hc; by exists f.
Qed.

Lemma reads_session_token token now : reads (findSessionByToken token now).
Proof. unfold findSessionByToken. apply reads_bind; [auto with dh|]. intros []; auto with dh. Qed.

(** The capture leaves the tables, and fails before the snapshot without a live Session. *)
Lemma capture_reads token now d f :
  let '(res, d', f') := captureSessionFilesystemAuthority token now d f in
  d' = d ∧ ((∀ f0 s d0 f1, findSessionByToken token now d f0 ≠ (Ok s, d0, f1)) →
    ∃ e, res = inr e ∧ ce_class e ≠ sessionAuthorityCaptureIntegrity).
Proof.
  unfold captureSessionFilesystemAuthority. destruct (stmt _ d f) as [[[u|e] d0] f0]; [|split; [done|]; intros _; by eexists].
  destruct (findSessionByToken token now d f0) as [[[s|e] d1] f1] eqn:E.
  2: { split; [done|]. intros _. eexists. split; [done|]. simpl. by destruct (errors_is e ErrSessionNotFound). }
  destruct (loadSessionFilesystemSnapshot _ _ d f1) as [[[sn|e] d2] f2]; [|split; [done|]; intros H; by destruct (H _ _ _ _ E)].
  destruct (stmt _ d f2) as [[[u'|e] d3] f3]; (split; [done|]); intros H; by destruct (H _ _ _ _ E).
Qed.

Lemma self_refused now r a :
  ¬ (∃ au, bearer (a_db a) r au ∧ gate_allows GateSelf (auth_class au) = true) → ¬ session_bearer now (a_db a) r →
  refused_by GateSelf r a (h_run (handleSelf adminHash h globals format_time now r) a).
Proof.
  intros Hno Hse. unfold handleSelf.
  destruct (parseBearerToken r) as [token|] eqn:Hp; [|apply refused_refuse; [by left|apply same_tables_refl]].
  destruct (matchAdminToken adminHash token) eqn:Em.
  { destruct Hno. eexists. by split; [eapply matched_bearer|]. }
  pose proof (capture_reads token now (a_db a) (m_faults (a_mac a))) as Hcap.
  destruct (captureSessionFilesystemAuthority token now (a_db a) (m_faults (a_mac a))) as [[res d'] f'] eqn:Ec.
  destruct Hcap as [-> Hres]. destruct Hres as (e & -> & He).
  { intros f0 s d0 f1 Hf. apply Hse. by exists token, f0, s, d0, f1. }
  eapply refused_silent.
  { unfold call_capture. rewrite h_run_proc. unfold on_mac. rewrite run_atom. fold (a_db a). rewrite Ec. reflexivity. }
  simpl. assert (Hs : same_tables a (mkApp (with_db (a_db a) f' (a_mac a)) (a_sup a) (a_removed a) (a_requests a))) by (by exists f').
  destruct (ce_class e); try done; try (apply refused_refuse; solve [by right|done]).
  unfold self_of_operator. apply refused_operator; [done..|]. intros [au|e'] a' Hs' Hau.
  - specialize (Hau au eq_refl). destruct (auth_class au); try done. apply refused_refuse; auto.
  - destruct (isExpectedAuthFailure _); apply refused_refuse; auto.
Qed.

(** C10. Unauthenticated requests are inert.  A request on any route of the control plane
    whose bearer is not an operator credential the route accepts (nor, for
    introspection, the bearer of a live Session) changes nothing, whatever its body,
    path values and query say and whatever statements fail: the reply is the route's
    fixed 401, or the fixed 500 of a failing database, and one auth.failure record
    naming the method and the path is written. *)
Theorem unauthenticated_inert (e : endpoint) (env : serve_env) (r : request) a a' (l : list event) (rep : reply)
    (Hno : ¬ admits (se_now env) (gate_of e) (a_db a) r)
    (Hr : serve_alone (serve dk adminHash h globals hasMAC format_time e env r) a = (l, rep, a')) :
  same_tables a a' ∧ (rep = writeUnauthorized (gate_message (gate_of e)) ∨ rep = internal_error) ∧
  ∃ res, l = [Audit (audit [("event", "auth.failure"); ("method", rq_Method r); ("path", rq_Path r); ("result", res)])].
Proof.
  assert (Hg : refused_by (gate_of e) r a (h_run (serve dk adminHash h globals hasMAC format_time e env r) a)).
  { unfold admits in Hno. assert (Hop : ¬ (∃ au, bearer (a_db a) r au ∧ gate_allows (gate_of e) (auth_class au) = true)) by tauto.
    assert (Hse : gate_of e = GateSelf → ¬ session_bearer (se_now env) (a_db a) r) by tauto. clear Hno Hr.
    destruct e; simpl in *;
      first [ apply self_refused; auto | by apply auth_refused | by apply rotate_refused
            | apply refused_bind, session_refused; exact Hop
            | unfold principal_route; apply refused_bind, admin_refused; exact Hop
            | apply refused_bind, refused_bind, admin_refused; exact Hop
            | apply refused_bind; eapply control_refused; [reflexivity|done|apply same_tables_refl|exact Hop] ]. }
  destruct Hg as (res & rep' & a1 & E & Hrep & Hs). unfold serve_alone in Hr. unfold h_run in E. rewrite E in Hr.
  injection Hr as <- <- <-. eauto.
Qed.

End gate.

(** The bearer of the live Session "s1", which is no operator credential, asks for the
    deletion of its own Launcher: a 401, and the Launcher and the Session stay. *)
#[local] Existing Instances MacSpec.Example.driver.

Definition ex_bearer (auth : string) : request :=
  mkRequest "DELETE" "/principals/alice/launchers/default" auth None
    (λ k, if bool_decide (k = "username") then "alice" else if bool_decide (k = "launcher") then "default" else "")
    (λ _, "") true.
Definition ex_request : request := ex_bearer "Bearer dht_x".
Definition ex_env : serve_env :=
  mkServeEnv (mkCreateEnv (Some "a1") (Some "b2") 0 (60 * second)) (mkDraws None None None) 5 2 (λ _, None) true.
Definition ex_serve (e : endpoint) (r : request) : app (list string) → list event * reply * app (list string) :=
  serve_alone (serve ex_docker (sha256_hex "admin") SessionSpec.Example.host0 [] false (λ _, "") e ex_env r).

Lemma unauthenticated_inert_witness :
  let o := ex_serve DeleteLauncher ex_request (ex_app newOperationSupervisor) in
  rp_status o.1.2 = 401 ∧ a_db o.2 = ex_rows ∧
  rp_status (ex_serve DeleteLauncher (ex_bearer "Bearer admin") (ex_app newOperationSupervisor)).1.2 = 204.
Proof.
  set (a := ex_app newOperationSupervisor).
  assert (Hno : ¬ admits (sha256_hex "admin") (se_now ex_env) (gate_of DeleteLauncher) (a_db a) ex_request).
  { intros [(au & (token & f & d' & f' & Hp & Ha) & _)|[Hg _]]; [|discriminate Hg].
    vm_compute in Hp. injection Hp as <-. destruct f as [|[] f]; vm_compute in Ha; discriminate Ha. }
  destruct (ex_serve DeleteLauncher ex_request a) as [[l rep] a'] eqn:Hr.
  pose proof Hr as Hr'. unfold ex_serve in Hr'.
  destruct (unauthenticated_inert ex_docker (sha256_hex "admin") SessionSpec.Example.host0 [] false (λ _, "")
    DeleteLauncher ex_env ex_request a a' l rep Hno Hr') as (Hs & _).
  cbv zeta. split; [|split; [exact (same_tables_db a a' Hs)|vm_compute; reflexivity]].
  change rep with (l, rep, a').1.2. rewrite <-Hr. vm_compute. reflexivity.
Defined.

(** ** a Session outside the caller's scope cannot be told from none *)

(** ** Computations that see a part of the tables *)

(** From tables related by [V] both runs answer the same, consume the same statements
    and leave related tables. *)
Definition sees {A} (V : db → db → Prop) (m : DB A) : Prop :=
  ∀ d1 d2 f, V d1 d2 →
    (m d1 f).1.1 = (m d2 f).1.1 ∧ (m d1 f).2 = (m d2 f).2 ∧ V (m d1 f).1.2 (m d2 f).1.2.

Lemma sees_ret {A} V (x : A) : sees V (mret x).
Proof. done. Qed.
Lemma sees_fail {A} V t w : sees V (db_fail (A := A) t w).
Proof. done. Qed.
Lemma sees_result {A} V (r : result A) : sees V (db_result r).
Proof. done. Qed.
Lemma sees_query {A} V (q : db → A) : (∀ d1 d2, V d1 d2 → q d1 = q d2) → sees V (query q).
Proof. intros Hq d1 d2 [|[] f] HV; unfold query, stmt; simpl; rewrite ?(Hq _ _ HV); done. Qed.
Lemma sees_wrapf {A} V t w (m : DB A) : sees V m → sees V (wrapf t w m).
Proof.
  intros H d1 d2 f HV. destruct (H d1 d2 f HV) as (H1 & H2 & H3). unfold wrapf.
  destruct (m d1 f) as [[[x|e] d1'] f1], (m d2 f) as [[[y|e'] d2'] f2]; simpl in *; naive_solver.
Qed.
Lemma sees_bind {A B} V (m : DB A) (k : A → DB B) : sees V m → (∀ x, sees V (k x)) → sees V (m ≫= k).
Proof.
  intros H Hk d1 d2 f HV. destruct (H d1 d2 f HV) as (H1 & H2 & H3). unfold mbind, db_bind.
  destruct (m d1 f) as [[[x|e] d1'] f1], (m d2 f) as [[[y|e'] d2'] f2]; simpl in *; try done; injection H1 as ->; subst f2;
    [by apply Hk|done].
Qed.

Create HintDb sees.
#[export] Hint Resolve sees_ret sees_fail sees_result sees_query sees_wrapf sees_bind : sees.

(** The tables of the owners. *)
Definition same_owners (d1 d2 : db) : Prop :=
  principals d1 = principals d2 ∧ launchers d1 = launchers d2 ∧ credentials d1 = credentials d2.

Lemma sees_operator_token adminHash token : sees same_owners (authenticateOperatorToken adminHash token).
Proof.
  unfold authenticateOperatorToken. assert (Hc : ∀ au, sees same_owners (checked au)) by (intros au; unfold checked; auto with sees).
  destruct (matchAdminToken _ _); [apply Hc|].
  apply sees_bind; [|intros res; destruct (ar_Principal res), (ar_Launcher res); auto with sees].
  unfold authenticateCredential. apply sees_bind.
  { apply sees_wrapf, sees_query. intros d1 d2 (_ & _ & E). unfold credential_by_token. by rewrite E. }
  intros [[id c]|]; [|auto with sees]. destruct (c_revoked_at c); [auto with sees|].
  unfold authenticateLauncherCredentialOwner, authenticatePrincipalCredentialOwner.
  destruct (c_launcher_id c) as [lid|], (c_principal_id c) as [pid|]; auto with sees; apply sees_bind;
    try (apply sees_wrapf, sees_query; intros d1 d2 (Ep & El & _); unfold launcher_join; by rewrite ?Ep, ?El);
    intros [[]|]; auto with sees; repeat case_match; auto with sees.
Qed.

(** ** The hidden Session *)

Section hidden.
Context {W : Type} `{!sessionMACDriver W} (dk : docker).
Context (adminHash : string) (h : host) (globals : list AllowedRootEntry) (hasMAC : bool) (format_time : Z → string).
#[local] Existing Instance h_ret.
#[local] Existing Instance h_bind.
Implicit Types a : app W.

(** The tables without a Session and its snapshot. *)
Definition forget_session (id : string) (d : db) : db :=
  set_snapshots (snapshot_tables d) (filter (λ kv : string * Z * (string * string), kv.1.1 ≠ id) (snapshot_entries d))
    (delete id (snapshot_meta d)) (set_sessions (delete id (sessions d)) d).
Definition forget (id : string) a : app W :=
  mkApp (with_db (forget_session id (a_db a)) (m_faults (a_mac a)) (a_mac a)) (a_sup a) (a_removed a) (a_requests a).

Lemma forget_db id a : a_db (forget id a) = forget_session id (a_db a).
Proof. done. Qed.

Lemma forget_owners id d : same_owners d (forget_session id d).
Proof. done. Qed.

Lemma forget_hides id scope d : find_scoped id scope (forget_session id d) = None.
Proof. unfold find_scoped. simpl. by rewrite lookup_delete_eq. Qed.

(** Two runs of a handler that tell the same: same events and reply, related states. *)
Definition tells {A} (id : string) (m : H A) a (Q : A → app W → Prop) : Prop :=
  ∃ l o a', h_run m a = (l, o, a') ∧ h_run m (forget id a) = (l, o, forget id a') ∧ same_tables a a' ∧
    match o with inl _ => True | inr x => Q x a' end.

Lemma tells_respond {A} id rep a Q : tells (A := A) id (respond rep) a Q.
Proof. exists [], (inl rep), a. split_and!; [done..|apply same_tables_refl|done]. Qed.

Lemma tells_emit id e a : tells id (emit e) a (λ _ a', a' = a).
Proof. exists [e], (inr ()), a. split_and!; [done..|apply same_tables_refl|done]. Qed.

Lemma tells_bind {A B} id (m : H A) (k : A → H B) a Q R :
  tells id m a Q → (∀ x a', same_tables a a' → Q x a' → tells id (k x) a' R) → tells id (m ≫= k) a R.
Proof.
  intros (l & o & a1 & E1 & E2 & Hs & Ho) Hk. destruct o as [rep|x].
  - exists l, (inl rep), a1. by rewrite (h_run_stop _ _ _ _ _ _ E1), (h_run_stop _ _ _ _ _ _ E2).
  - destruct (Hk x a1 Hs Ho) as (l' & o' & a2 & E1' & E2' & Hs' & Ho'). exists (l ++ l'), o', a2.
    rewrite !h_run_bind, E1, E2, E1', E2'. split_and!; [done..|by eapply same_tables_trans|done].
Qed.

Lemma tells_refuse {A} id r res rep a Q : tells (A := A) id (refuse r res rep) a Q.
Proof. eapply tells_bind; [apply tells_emit|]. intros x a' _ _. apply tells_respond. Qed.

(** A read that sees the same tables with and without the Session. *)
Lemma tells_db {A} id (m : DB A) a (V : db → db → Prop) :
  sees V m → reads m → V (a_db a) (forget_session id (a_db a)) →
  tells id (h_db m) a (λ x a', x = (m (a_db a) (m_faults (a_mac a))).1.1).
Proof.
  intros Hv Hr HV. destruct (Hv _ _ (m_faults (a_mac a)) HV) as (E1 & E2 & _).
  pose proof (Hr (a_db a) (m_faults (a_mac a))) as Hd. pose proof (Hr (forget_session id (a_db a)) (m_faults (a_mac a))) as Hd'.
  exists [], (inr (m (a_db a) (m_faults (a_mac a))).1.1),
    (mkApp (with_db (a_db a) (m (a_db a) (m_faults (a_mac a))).2 (a_mac a)) (a_sup a) (a_removed a) (a_requests a)).
  unfold h_db. rewrite !h_run_proc, !run_call_db. rewrite forget_db. change (m_faults (a_mac (forget id a))) with (m_faults (a_mac a)).
  destruct (m (a_db a) (m_faults (a_mac a))) as [[x d] f], (m (forget_session id (a_db a)) (m_faults (a_mac a))) as [[y d'] f'].
  cbn in E1, E2, Hd, Hd'. subst x f d d'. split_and!; [done|done|by exists f'|done].
Qed.

Lemma tells_operator id token a :
  tells id (h_db (authenticateOperatorToken adminHash token)) a
    (λ x a', x = (authenticateOperatorToken adminHash token (a_db a) (m_faults (a_mac a))).1.1).
Proof. apply (tells_db id _ a same_owners); [apply sees_operator_token|apply reads_operator_token|apply forget_owners]. Qed.

Lemma tells_session_control id r a :
  tells id (authenticateSessionControlRequest adminHash r) a (λ au _, bearer adminHash (a_db a) r au).
Proof.
  unfold authenticateSessionControlRequest. destruct (parseBearerToken r) as [token|] eqn:Hp; [|apply tells_refuse].
  eapply tells_bind; [apply tells_operator|]. intros x a' Hs Hx. destruct x as [au|e].
  - case_bool_decide; [apply tells_refuse|]. exists [], (inr au), a'. split_and!; [done..|apply same_tables_refl|].
    destruct (authenticateOperatorToken adminHash token (a_db a) (m_faults (a_mac a))) as [[y d'] f'] eqn:Ea. simpl in Hx. subst y.
    by exists token, (m_faults (a_mac a)), d', f'.
  - destruct (negb _); apply tells_refuse.
Qed.

(** The scoped lookup of a hidden Session. *)
Definition hidden_in (id : string) (scope : sessionControlScope) (d1 d2 : db) : Prop :=
  find_scoped id scope d1 = None ∧ find_scoped id scope d2 = None.

Lemma sees_hidden id scope : sees (hidden_in id scope) (findSessionInScope id scope).
Proof.
  unfold findSessionInScope. apply sees_bind; [|intros []; auto with sees].
  apply sees_wrapf, sees_query. by intros d1 d2 [-> ->].
Qed.
Lemma reads_find id scope : reads (findSessionInScope id scope).
Proof. unfold findSessionInScope. apply reads_bind; [auto with dh|]. intros []; auto with dh. Qed.

Lemma hidden_fails id scope d f : find_scoped id scope d = None → ∃ e, (findSessionInScope id scope d f).1.1 = Err e.
Proof.
  intros Hn. unfold findSessionInScope, mbind, db_bind, wrapf, query, stmt. destruct f as [|[] f]; simpl; rewrite ?Hn; by eexists.
Qed.

Lemma tells_audit id auth fields a : tells id (writeSessionAudit auth fields) a (λ _ a', a' = a).
Proof. apply tells_emit. Qed.

(** A refused lookup of the hidden Session. *)
Lemma tells_failed id event auth sid s e a Q : tells (A := unit) id (lookup_failed event auth sid s e) a Q.
Proof. eapply tells_bind; [apply tells_audit|]. intros x a' _ _. apply tells_respond. Qed.

Lemma tells_find id scope a : find_scoped id scope (a_db a) = None →
  tells id (h_db (findSessionInScope id scope)) a (λ x _, ∃ e, x = Err e).
Proof.
  intros Hn. destruct (tells_db id (findSessionInScope id scope) a (hidden_in id scope)) as (l & o & a' & E1 & E2 & Hs & Ho).
  - apply sees_hidden.
  - apply reads_find.
  - split; [done|apply forget_hides].
  - exists l, o, a'. split_and!; [done..|]. destruct o as [|x]; [done|]. rewrite Ho. by apply hidden_fails.
Qed.

Lemma tells_proc {A} id (p : proc (app W) A) a Q :
  tells id (h_proc p) a Q ↔
  (run p (forget id a)).1 = (run p a).1 ∧ (run p (forget id a)).2 = forget id (run p a).2 ∧ same_tables a (run p a).2 ∧
  Q (run p a).1 (run p a).2.
Proof.
  unfold tells. rewrite !h_run_proc. split.
  - intros (l & o & a' & [= <- <- <-] & [= E1 E2] & Hs & Ho). by split_and!.
  - intros (E1 & E2 & Hs & Ho). exists [], (inr (run p a).1), (run p a).2. by rewrite E1, E2.
Qed.

(** The deletion of the hidden Session ends at its lookup. *)
Lemma hidden_delete id scope a : find_scoped id scope (a_db a) = None →
  tells id (h_proc (delete_session_steps hasMAC id scope)) a (λ x _, ∃ e, x = (None, Some e)).
Proof.
  intros Hn. pose proof (tells_find id scope a Hn) as Hf. apply tells_proc in Hf as (E1 & E2 & Hs & e & He).
  set (p := call_db (findSessionInScope id scope)) in *.
  assert (Hd : ∀ a0, (run p a0).1 = Err e → run (delete_session_steps hasMAC id scope) a0 = ((None, Some e), (run p a0).2)).
  { intros a0 H0. unfold delete_session_steps. rewrite run_try. fold p. destruct (run p a0) as [x b]. by simpl in *; subst. }
  apply tells_proc. rewrite (Hd a He), (Hd (forget id a)) by congruence. split_and!; [done..|by exists e].
Qed.

Lemma tells_route id event auth a (k : sessionControlScope → H unit) Q :
  (∀ scope, resolveSessionControlScope (Some auth) = Ok scope → tells id (k scope) a Q) →
  tells id (session_route event auth id k) a Q.
Proof.
  intros Hk. unfold session_route. case_bool_decide.
  - eapply tells_bind; [apply tells_emit|]. intros x a' _ _. apply tells_respond.
  - destruct (resolveSessionControlScope (Some auth)) as [scope|e]; [by apply Hk|].
    eapply tells_bind; [apply tells_emit|]. intros x a' _ _. apply tells_respond.
Qed.

Lemma tells_requests e env r a : e = GetSession ∨ e = DeleteSession →
  let id := rq_value r "id" in
  (∀ au scope, bearer adminHash (a_db a) r au → resolveSessionControlScope (Some au) = Ok scope →
     find_scoped id scope (a_db a) = None) →
  tells id (serve dk adminHash h globals hasMAC format_time e env r) a (λ _ _, True).
Proof.
  intros He id Hhid. destruct He as [->| ->]; simpl; fold id.
  - eapply tells_bind; [apply tells_session_control|]. intros au a1 Hs Hb. cbv zeta. apply tells_route. intros scope Hsc.
    assert (Hn : find_scoped id scope (a_db a1) = None) by (rewrite (same_tables_db _ _ Hs); exact (Hhid au scope Hb Hsc)).
    eapply tells_bind; [by apply tells_find|]. intros x a2 _ [err ->]. apply tells_failed.
  - eapply tells_bind; [apply tells_session_control|]. intros au a1 Hs Hb. cbv zeta. apply tells_route. intros scope Hsc.
    assert (Hn : find_scoped id scope (a_db a1) = None) by (rewrite (same_tables_db _ _ Hs); exact (Hhid au scope Hb Hsc)).
    eapply tells_bind; [by apply hidden_delete|]. intros x a2 _ [err ->]. apply tells_failed.
Qed.

(** C11. A foreign Session cannot be told from none.  Where the Session a GET or DELETE
    /sessions/{id} names lies outside the scope of the request's bearer, the reply, the
    audit records and the directories removed are those of the same request in a daemon
    that never had that Session, and nothing changes. *)
Theorem foreign_session_hidden (e : endpoint) (env : serve_env) (r : request) a
    (He : e = GetSession ∨ e = DeleteSession)
    (Hhid : ∀ au scope, bearer adminHash (a_db a) r au → resolveSessionControlScope (Some au) = Ok scope →
              find_scoped (rq_value r "id") scope (a_db a) = None) :
  let o := serve_alone (serve dk adminHash h globals hasMAC format_time e env r) in
  (o a).1 = (o (forget (rq_value r "id") a)).1 ∧ same_tables a (o a).2.
Proof.
  destruct (tells_requests e env r a He Hhid) as (l & out & a' & E1 & E2 & Hs & _). unfold h_run in E1, E2.
  unfold serve_alone. rewrite E1, E2. by split.
Qed.

End hidden.

(** Bob's Principal credential names Alice's live Session: the reply is that of a daemon
    without it, and it stays. *)
#[local] Existing Instances MacSpec.Example.driver.

Definition ex_two : db :=
  set_credentials {[ "dhcr_b" := mkCredential (Some 2) None (Some "main") (sha256_hex "bob") 5 None ]}
    (set_sessions (sessions ex_rows)
       (mkDB {[ 1 := SessionSpec.Example.alice; 2 := mkPrincipal "bob" 1001 1001 "/home/bob" true ]} ∅
             (launchers ex_rows) ∅ ∅ ∅ true ∅ ∅ ∅)).
Definition ex_two_app : app (list string) :=
  mkApp (newSessionMACCoordinator [] ex_two []) newOperationSupervisor [] ["l1"].
Definition ex_delete (auth : string) : request :=
  mkRequest "DELETE" "/sessions/s1" auth None (λ k, if bool_decide (k = "id") then "s1" else "") (λ _, "") true.

Lemma foreign_session_hidden_witness :
  (ex_serve DeleteSession (ex_delete "Bearer bob") ex_two_app).1 = (ex_serve DeleteSession (ex_delete "Bearer bob") (forget "s1" ex_two_app)).1 ∧
  is_Some (sessions (a_db (ex_serve DeleteSession (ex_delete "Bearer bob") ex_two_app).2) !! "s1") ∧
  sessions (a_db (ex_serve DeleteSession (ex_delete "Bearer admin") ex_two_app).2) !! "s1" = None.
Proof.
  assert (Hh : ∀ au scope, bearer (sha256_hex "admin") (a_db ex_two_app) (ex_delete "Bearer bob") au →
    resolveSessionControlScope (Some au) = Ok scope →
    find_scoped (rq_value (ex_delete "Bearer bob") "id") scope (a_db ex_two_app) = None).
  { intros au scope (token & f & d' & f' & Hp & Ha) Hsc. vm_compute in Hp. injection Hp as <-.
    destruct f as [|[] [|[] f]]; vm_compute in Ha; try discriminate Ha; injection Ha as <- _ _;
      vm_compute in Hsc; injection Hsc as <-; vm_compute; reflexivity. }
  destruct (foreign_session_hidden ex_docker (sha256_hex "admin") SessionSpec.Example.host0 [] false (λ _, "")
    DeleteSession ex_env (ex_delete "Bearer bob") ex_two_app (or_intror eq_refl) Hh) as [H1 H2].
  split; [exact H1|split; [|vm_compute; reflexivity]].
  unfold ex_serve. rewrite (same_tables_db _ _ H2). by eexists.
Defined.
