(* ===== verification/DockerMount.v ===== *)
(** * DockerMount: src/docker_mount_spec.go — the --mount argument

    Go's encoding/csv writer of one record, the representability check and the
    serializer of a bind mount; Go's encoding/csv reader of one record, which
    the docker CLI applies to the argument, and the round trip. *)
From S2P Require Import Prelude GoStrings Database.
Local Open Scope Z_scope.

Definition comma : ascii := ",".
Definition quote : ascii := "034".
Definition CR : ascii := "013".
Definition LF : ascii := "010".

(** ** encoding/csv *)

Fixpoint contains_byte (P : ascii → bool) (s : string) : bool :=
  match s with "" => false | String c s => P c || contains_byte P s end.

(** [Writer.fieldNeedsQuotes] with the comma separator. *)
Definition fieldNeedsQuotes (field : string) : bool :=
  if bool_decide (field = "") then false
  else if bool_decide (field = String "092" ".") then true
  else contains_byte (λ c, bool_decide (c = LF ∨ c = CR ∨ c = quote ∨ c = comma)) field ||
       match range field with (r, _) :: _ => IsSpace r | [] => false end.

(** The quoted form, without its delimiters: every quote is doubled. *)
Fixpoint csv_escape (s : string) : string :=
  match s with
  | "" => ""
  | String c s => if bool_decide (c = quote) then String quote (String quote (csv_escape s)) else String c (csv_escape s)
  end.

Definition csv_field (field : string) : string :=
  if fieldNeedsQuotes field then String quote (csv_escape field +:+ String quote "") else field.

(** [Writer.Write] of one record, without the final newline. *)
Fixpoint csv_record (fields : list string) : string :=
  match fields with
  | [] => ""
  | [f] => csv_field f
  | f :: fields => csv_field f +:+ String comma (csv_record fields)
  end.

(** The lines the reader sees: CRLF is one newline, and a carriage return that
    ends the input is dropped. *)
Fixpoint csv_lines (s : string) : string :=
  match s with
  | "" => ""
  | String c r =>
      if bool_decide (c = CR) then
        match r with
        | "" => ""
        | String d _ => if bool_decide (d = LF) then csv_lines r else String c (csv_lines r)
        end
      else String c (csv_lines r)
  end.

Fixpoint skip_blank (s : string) : string :=
  match s with String c r => if bool_decide (c = LF) then skip_blank r else s | "" => "" end.

Inductive csv_state := csv_start | csv_bare (field : string) | csv_quoted (field : string) | csv_closing (field : string).

Definition snoc (s : string) (c : ascii) : string := s +:+ String c "".

(** [Reader.readRecord], not lazy: a quote inside a bare field and a stray
    character after a closing quote are errors. *)
Fixpoint csv_parse (st : csv_state) (s : string) : option (list string) :=
  match s with
  | "" =>
      match st with
      | csv_start => Some [""]
      | csv_bare f | csv_closing f => Some [f]
      | csv_quoted _ => None
      end
  | String c s =>
      match st with
      | csv_quoted f => if bool_decide (c = quote) then csv_parse (csv_closing f) s else csv_parse (csv_quoted (snoc f c)) s
      | csv_closing f =>
          if bool_decide (c = quote) then csv_parse (csv_quoted (snoc f quote)) s
          else if bool_decide (c = comma) then cons f <$> csv_parse csv_start s
          else if bool_decide (c = LF) then Some [f]
          else None
      | csv_start | csv_bare _ =>
          let f := match st with csv_bare f => f | _ => "" end in
          if bool_decide (c = quote) then match st with csv_start => csv_parse (csv_quoted "") s | _ => None end
          else if bool_decide (c = comma) then cons f <$> csv_parse csv_start s
          else if bool_decide (c = LF) then Some [f]
          else csv_parse (csv_bare (snoc f c)) s
      end
  end.

(** [Reader.Read]: [None] is an error, the end of the input among them. *)
Definition csv_read (s : string) : option (list string) :=
  match skip_blank (csv_lines s) with "" => None | s => csv_parse csv_start s end.

(** ** The bind mount *)

Record dockerBindMount := mkBind { bm_Source : string; bm_Target : string; bm_ReadOnly : bool }.

Fixpoint has_crlf (s : string) : bool :=
  match s with
  | "" => false
  | String c r => (bool_decide (c = CR) && match r with String d _ => bool_decide (d = LF) | "" => false end) || has_crlf r
  end.

Definition dockerMountFieldRepresentable (field : string) : result unit :=
  if bool_decide (field = "") then errorf "docker mount field is empty" []
  else if contains_byte (λ c, bool_decide (c = "000"%char)) field
  then errorf "docker mount field contains a NUL byte that exec argv cannot carry" []
  else if has_crlf field
  then errorf "docker mount field contains a CRLF sequence" []
  else if bool_decide (TrimSpace field ≠ field ∨ TrimSpace field = "")
  then errorf "docker mount field is empty after trim or carries leading/trailing whitespace" []
  else Ok ().

Definition mount_fields (m : dockerBindMount) : list string :=
  ["type=bind"; "source=" +:+ bm_Source m; "target=" +:+ bm_Target m] ++ (if bm_ReadOnly m then ["readonly"] else []).

(** The writer into memory does not fail; [TrimSuffix] removes the newline that
    ends the record. *)
Definition dockerBindMountSpec (m : dockerBindMount) : result string :=
  match dockerMountFieldRepresentable (bm_Source m) with
  | Err e => Err (wrap_error "bind mount source" [] e)
  | Ok _ =>
      match dockerMountFieldRepresentable (bm_Target m) with
      | Err e => Err (wrap_error "bind mount target" [] e)
      | Ok _ => let buf := csv_record (mount_fields m) +:+ String LF "" in Ok (default buf (CutSuffix buf (String LF "")))
      end
  end.

Example spec_example :
  dockerBindMountSpec (mkBind "/srv/a,b" "/data" true) = Ok ("type=bind," +:+ String quote ("source=/srv/a,b" +:+ String quote ",target=/data,readonly")).
Proof. reflexivity. Qed.
Example read_example : csv_read ("type=bind," +:+ String quote ("source=/srv/a,b" +:+ String quote ",target=/data,readonly")) = Some ["type=bind"; "source=/srv/a,b"; "target=/data"; "readonly"].
Proof. reflexivity. Qed.

(** ** Reading what was written *)

Lemma snoc_app g c s : snoc g c +:+ s = g +:+ String c s.
Proof. unfold snoc. by rewrite str_app_assoc. Qed.

Lemma parse_quoted f g rest :
  csv_parse (csv_quoted g) (csv_escape f +:+ String quote rest) = csv_parse (csv_closing (g +:+ f)) rest.
Proof.
  revert g. induction f as [|c f IH]; intros g; [simpl; by rewrite str_app_nil_r|]. cbn [csv_escape].
  case_bool_decide as E.
  - subst c. cbn [String.append csv_parse]. rewrite !bool_decide_eq_true_2 by done. rewrite IH. by rewrite snoc_app.
  - cbn [String.append csv_parse]. rewrite bool_decide_eq_false_2 by done. rewrite IH. by rewrite snoc_app.
Qed.

Definition plain (c : ascii) : Prop := c ≠ LF ∧ c ≠ CR ∧ c ≠ quote ∧ c ≠ comma.

Lemma plain_field f : fieldNeedsQuotes f = false → str_forall (λ c, bool_decide (plain c)) f = true.
Proof.
  unfold fieldNeedsQuotes. case_bool_decide as E1; [by subst|]. case_bool_decide as E2; [done|]. intros [H _]%orb_false_iff. clear -H.
  induction f as [|c f IH]; [done|]. simpl in *. apply orb_false_iff in H as [Hc Hf].
  apply bool_decide_eq_false_1 in Hc. rewrite IH, andb_true_r by done. apply bool_decide_eq_true_2. unfold plain. naive_solver.
Qed.

Lemma parse_bare f g rest :
  str_forall (λ c, bool_decide (plain c)) f = true → csv_parse (csv_bare g) (f +:+ rest) = csv_parse (csv_bare (g +:+ f)) rest.
Proof.
  revert g. induction f as [|c f IH]; intros g; simpl; [by rewrite str_app_nil_r|].
  intros [(HL & HC & Hq & Hc)%bool_decide_eq_true_1 Hf]%andb_true_iff. rewrite !bool_decide_eq_false_2 by done.
  rewrite IH by done. by rewrite snoc_app.
Qed.

Definition closed (rest : string) (f : string) (r : option (list string)) : Prop :=
  (rest = "" ∧ r = Some [f]) ∨ (∃ rest', rest = String comma rest' ∧ r = cons f <$> csv_parse csv_start rest').

Lemma parse_field f rest :
  (rest = "" ∨ ∃ rest', rest = String comma rest') → closed rest f (csv_parse csv_start (csv_field f +:+ rest)).
Proof.
  intros Hr. unfold csv_field. destruct (fieldNeedsQuotes f) eqn:En.
  - cbn [String.append csv_parse]. rewrite bool_decide_eq_true_2 by done. rewrite str_app_assoc. cbn [String.append].
    rewrite parse_quoted. destruct Hr as [->|[r ->]]; [by left|right]. exists r. split; [done|]. reflexivity.
  - apply plain_field in En. destruct f as [|c f].
    + destruct Hr as [->|[r ->]]; [by left|right]. by exists r.
    + simpl in En. apply andb_true_iff in En as [(HL & HC & Hq & Hc)%bool_decide_eq_true_1 Hf].
      cbn [String.append csv_parse]. rewrite !bool_decide_eq_false_2 by done. rewrite parse_bare by done. cbn [snoc String.append].
      destruct Hr as [->|[r ->]]; [by left|right]. by exists r.
Qed.

Lemma csv_record_cons f f2 fields : csv_record (f :: f2 :: fields) = csv_field f +:+ String comma (csv_record (f2 :: fields)).
Proof. done. Qed.

Lemma csv_parse_record fields : fields ≠ [] → csv_parse csv_start (csv_record fields) = Some fields.
Proof.
  induction fields as [|f fields IH]; intros Hne; [done|]. destruct fields as [|f2 fields].
  - destruct (parse_field f "") as [[_ H]|(r & H & _)]; [by left| |done]. rewrite str_app_nil_r in H. exact H.
  - rewrite csv_record_cons. destruct (parse_field f (String comma (csv_record (f2 :: fields)))) as [[H _]|(r & H & Hp)]; [by right; eexists|done|].
    assert (r = csv_record (f2 :: fields)) as -> by congruence. by rewrite Hp, IH.
Qed.

(** ** Newlines *)

Fixpoint ends_cr (s : string) : bool :=
  match s with "" => false | String c "" => bool_decide (c = CR) | String _ s => ends_cr s end.

Lemma csv_lines_id s : has_crlf s = false → ends_cr s = false → csv_lines s = s.
Proof.
  induction s as [|c s IH]; [done|]. cbn [has_crlf csv_lines]. intros [H1 H2]%orb_false_iff He.
  destruct s as [|d s].
  - simpl in He. by rewrite He.
  - rewrite IH by done. case_bool_decide; [|done]. simpl in H1. by rewrite H1.
Qed.

Lemma ends_cr_app a c b : ends_cr (a +:+ String c b) = ends_cr (String c b).
Proof. induction a as [|x a IH]; [done|]. destruct a as [|y a]; [done|]. exact IH. Qed.

Lemma has_crlf_app a c b : c ≠ LF → has_crlf (a +:+ String c b) = has_crlf a || has_crlf (String c b).
Proof.
  intros Hc. induction a as [|x a IH]; [done|]. cbn [String.append has_crlf]. rewrite IH, orb_assoc. f_equal. f_equal. f_equal.
  destruct a; [|done]. simpl. by rewrite bool_decide_eq_false_2.
Qed.

Lemma has_crlf_not_cr c s : c ≠ CR → has_crlf (String c s) = has_crlf s.
Proof. intros Hc. simpl. by rewrite bool_decide_eq_false_2. Qed.

Lemma escape_crlf s : has_crlf s = false → has_crlf (csv_escape s) = false.
Proof.
  induction s as [|c s IH]; [done|]. intros H. cbn [has_crlf] in H. apply orb_false_iff in H as [H1 H2]. cbn [csv_escape].
  destruct (decide (c = quote)) as [->|E].
  - rewrite bool_decide_eq_true_2, !has_crlf_not_cr by done. auto.
  - rewrite bool_decide_eq_false_2 by done. cbn [has_crlf]. rewrite IH, orb_false_r by done. destruct s as [|d s]; [done|]. cbn [csv_escape].
    destruct (decide (d = quote)) as [->|Ed].
    + rewrite (bool_decide_eq_true_2 (quote = quote)) by done. apply andb_false_iff. by right.
    + rewrite (bool_decide_eq_false_2 (d = quote)) by done. exact H1.
Qed.

Lemma field_crlf f : has_crlf f = false → has_crlf (csv_field f) = false.
Proof.
  intros H. unfold csv_field. destruct (fieldNeedsQuotes f); [|done]. rewrite has_crlf_not_cr by done.
  rewrite has_crlf_app by done. rewrite escape_crlf by done. done.
Qed.

Lemma field_ends f : ends_cr (csv_field f) = false.
Proof.
  unfold csv_field. destruct (fieldNeedsQuotes f) eqn:E.
  - change (String quote (csv_escape f +:+ String quote "")) with (String quote (csv_escape f) +:+ String quote ""). by rewrite ends_cr_app.
  - apply plain_field in E. induction f as [|c f IH]; [done|]. simpl in *. apply andb_true_iff in E as [(?&?&?&?)%bool_decide_eq_true_1 Hf].
    destruct f; [by rewrite bool_decide_eq_false_2|]. by apply IH.
Qed.

Lemma record_lines fields :
  Forall (λ f, has_crlf f = false) fields → has_crlf (csv_record fields) = false ∧ ends_cr (csv_record fields) = false.
Proof.
  induction 1 as [|f fields Hf Hfs [IH1 IH2]]; [done|]. destruct fields as [|f2 fields].
  - split; [by apply field_crlf|apply field_ends].
  - rewrite csv_record_cons. rewrite has_crlf_app, has_crlf_not_cr, ends_cr_app by done. rewrite field_crlf by done.
    split; [exact IH1|]. change (ends_cr (String comma (csv_record (f2 :: fields))) = false).
    destruct (csv_record (f2 :: fields)) eqn:E; [done|exact IH2].
Qed.

Lemma contains_app P a b : contains_byte P (a +:+ b) = contains_byte P a || contains_byte P b.
Proof. induction a as [|c a IH]; [done|]. simpl. by rewrite IH, orb_assoc. Qed.

Lemma field_contains P f : P quote = false → contains_byte P f = false → contains_byte P (csv_field f) = false.
Proof.
  intros Hq Hf. assert (He : contains_byte P (csv_escape f) = false).
  { induction f as [|c f IH]; [done|]. simpl in *. apply orb_false_iff in Hf as [Hc Hf].
    case_bool_decide as E; simpl; by rewrite ?Hq, ?Hc, ?IH. }
  unfold csv_field. destruct (fieldNeedsQuotes f); [|done]. simpl. by rewrite contains_app, He, Hq; simpl; rewrite Hq.
Qed.

Lemma record_contains P fields :
  P quote = false → P comma = false → Forall (λ f, contains_byte P f = false) fields → contains_byte P (csv_record fields) = false.
Proof.
  intros Hq Hc. induction 1 as [|f fields Hf Hfs IH]; [done|]. destruct fields as [|f2 fields]; [by apply field_contains|].
  rewrite csv_record_cons, contains_app, field_contains by done. simpl. by rewrite Hc.
Qed.

Lemma representable_iff f :
  dockerMountFieldRepresentable f = Ok () ↔
  f ≠ "" ∧ contains_byte (λ c, bool_decide (c = "000"%char)) f = false ∧ has_crlf f = false ∧ TrimSpace f = f.
Proof.
  unfold dockerMountFieldRepresentable. case_bool_decide; [naive_solver|]. destruct (contains_byte _ f); [naive_solver|].
  destruct (has_crlf f); [naive_solver|]. case_bool_decide as E; split.
  - done.
  - intros (_ & _ & _ & Ht). rewrite Ht in E. by destruct E.
  - intros _. split_and!; [done..|]. destruct (decide (TrimSpace f = f)); [done|]. by destruct E; left.
  - done.
Qed.

Lemma prefix_crlf (p f : string) : str_forall (λ c, bool_decide (c ≠ CR)) p = true → has_crlf f = false → has_crlf (p +:+ f) = false.
Proof.
  intros Hp Hf. induction p as [|c p IH]; [done|]. simpl in Hp. apply andb_true_iff in Hp as [Hc%bool_decide_eq_true_1 Hp].
  cbn [String.append]. rewrite has_crlf_not_cr by done. auto.
Qed.

Lemma mount_fields_inj m m' : mount_fields m = mount_fields m' → m = m'.
Proof.
  destruct m as [s t ro], m' as [s' t' ro']. unfold mount_fields. cbn [bm_Source bm_Target bm_ReadOnly app]. intros H.
  injection H as Hs Ht Hr. subst. by destruct ro, ro'.
Qed.

Lemma TrimSuffix_LF s : default (s +:+ String LF "") (CutSuffix (s +:+ String LF "") (String LF "")) = s.
Proof. by rewrite (proj2 (CutSuffix_spec _ _ s)). Qed.

(** C37. The serializer accepts exactly the mounts whose two paths are not empty,
    carry no NUL byte, no CRLF pair and no surrounding white space; and the
    argument then decodes, by the CSV reader and the first '=' of each field, to
    that mount and nothing else: no byte of a path adds, drops or alters an
    option, and no other mount has the same argument. *)
Theorem mount_spec_roundtrip (m : dockerBindMount) :
  let text f := f ≠ "" ∧ contains_byte (λ c, bool_decide (c = "000"%char)) f = false ∧ has_crlf f = false ∧ TrimSpace f = f in
  match dockerBindMountSpec m with
  | Ok spec =>
      text (bm_Source m) ∧ text (bm_Target m) ∧
      csv_read spec = Some (["type=bind"; "source=" +:+ bm_Source m; "target=" +:+ bm_Target m] ++ (if bm_ReadOnly m then ["readonly"] else [])) ∧
      (λ f, Cut f "=") <$> ["source=" +:+ bm_Source m; "target=" +:+ bm_Target m] = [Some ("source", bm_Source m); Some ("target", bm_Target m)] ∧
      contains_byte (λ c, bool_decide (c = "000"%char)) spec = false ∧
      ∀ m', dockerBindMountSpec m' = Ok spec → m' = m
  | Err _ => ¬ (text (bm_Source m) ∧ text (bm_Target m))
  end.
Proof.
  cbv zeta.
  assert (Hread : ∀ m, dockerMountFieldRepresentable (bm_Source m) = Ok () → dockerMountFieldRepresentable (bm_Target m) = Ok () →
    csv_read (csv_record (mount_fields m)) = Some (mount_fields m) ∧
    contains_byte (λ c, bool_decide (c = "000"%char)) (csv_record (mount_fields m)) = false).
  { intros m0 (_ & Hn & Hc & _)%representable_iff (_ & Hn' & Hc' & _)%representable_iff.
    assert (Hcr : Forall (λ f, has_crlf f = false) (mount_fields m0)).
    { unfold mount_fields. repeat constructor; [by apply prefix_crlf..|]. destruct (bm_ReadOnly m0); by repeat constructor. }
    apply record_lines in Hcr as [H1 H2]. split.
    - unfold csv_read. rewrite csv_lines_id by done. change (skip_blank (csv_record (mount_fields m0))) with (csv_record (mount_fields m0)).
      rewrite <-(csv_parse_record (mount_fields m0)) by done. reflexivity.
    - apply record_contains; [done..|]. unfold mount_fields. repeat constructor; [by rewrite contains_app..|].
      destruct (bm_ReadOnly m0); by repeat constructor. }
  assert (Hspec : ∀ m spec, dockerBindMountSpec m = Ok spec →
    dockerMountFieldRepresentable (bm_Source m) = Ok () ∧ dockerMountFieldRepresentable (bm_Target m) = Ok () ∧ spec = csv_record (mount_fields m)).
  { intros m0 spec. unfold dockerBindMountSpec. destruct (dockerMountFieldRepresentable (bm_Source m0)) as [[]|]; [|done].
    destruct (dockerMountFieldRepresentable (bm_Target m0)) as [[]|]; [|done]. cbv zeta. rewrite TrimSuffix_LF. by intros [= <-]. }
  destruct (dockerBindMountSpec m) as [spec|e] eqn:E.
  - apply Hspec in E as (Hs & Ht & ->). destruct (Hread m Hs Ht) as [Hr Hn].
    split_and!; [by apply representable_iff..|exact Hr|reflexivity|exact Hn|].
    intros m' (Hs' & Ht' & Heq)%Hspec. destruct (Hread m' Hs' Ht') as [Hr' _]. apply mount_fields_inj. congruence.
  - intros [Hs%representable_iff Ht%representable_iff]. unfold dockerBindMountSpec in E. by rewrite Hs, Ht in E.
Qed.
