(* ===== verification/RunRequest.v ===== *)
(** * RunRequest: the request half of src/run.go

    The checks of a run request, the resolution of its mounts under the Session's
    snapshot, the exposure plan, the environment and the docker argument list. *)
From S2P Require Import Prelude Filepath AllowedRoots GoStrings WorkspacePolicy Database SnapshotStore MacLifecycle Session DockerMount.
Local Open Scope Z_scope.

(** ** The request *)

Record mountRequest := mkMount { mr_Source : string; mr_Target : string; mr_ReadOnly : bool }.
Record runRequest := mkRun {
  rr_Image : string; rr_Entrypoint : string; rr_Workdir : string; rr_Command : list string;
  rr_Environment : gmap string string; rr_Mounts : list mountRequest; rr_ShmSize : string; rr_HelperSocket : bool }.

(** A refusal carries its public code. *)
Definition code_error (code : string) : error := mkError code [].

(** ** The size of /dev/shm *)

Definition maxUint64 : Z := 18446744073709551615.
Definition maxShmSize : Z := 2 * 1024 * 1024 * 1024.

(** [strconv.ParseUint(s, 10, 64)]. *)
Definition ParseUint10 (s : string) : option Z := v ← parse_nat10 s; if v <=? maxUint64 then Some v else None.

Definition is_letter (c : ascii) : bool :=
  let n := byte_of c in in_range 97 122 n || in_range 65 90 n.
Definition is_digit (c : ascii) : bool := in_range 48 57 (byte_of c).

(** The last byte and the text before it. *)
Fixpoint split_last (s : string) : option (string * ascii) :=
  match s with
  | "" => None
  | String c "" => Some ("", c)
  | String c s => match split_last s with Some (b, l) => Some (String c b, l) | None => None end
  end.

(** [strings.ToLower] of one ASCII letter. *)
Definition lower_letter (c : ascii) : ascii := if in_range 65 90 (byte_of c) then to_byte (byte_of c + 32) else c.

Definition unit_multiplier (unit : option ascii) : option Z :=
  match unit with
  | None => Some 1
  | Some u =>
      if bool_decide (u = "k"%char) then Some 1024
      else if bool_decide (u = "m"%char) then Some (1024 * 1024)
      else if bool_decide (u = "g"%char) then Some (1024 * 1024 * 1024)
      else None
  end.

(** The number and the lower-cased unit; a single byte is a number. *)
Definition split_unit (raw : string) : string * option ascii :=
  match split_last raw with
  | Some (num, u) => if bool_decide (num ≠ "") && is_letter u then (num, Some (lower_letter u)) else (raw, None)
  | None => (raw, None)
  end.

(** The product is computed in uint64. *)
Definition validateShmSize (raw : string) : result Z :=
  match raw with
  | "" => Ok 0
  | String c _ =>
      if negb (is_digit c) then Err (code_error "invalid shm size")
      else
        let '(numStr, unit) := split_unit raw in
        if bool_decide (numStr = "") then Err (code_error "invalid shm size")
        else match ParseUint10 numStr with
        | None => Err (code_error "invalid shm size")
        | Some num =>
            match unit_multiplier unit with
            | None => Err (code_error "invalid shm size")
            | Some multiplier =>
                if (0 <? multiplier) && (maxUint64 / multiplier <? num) then Err (code_error "invalid shm size")
                else
                  let total := (num * multiplier) mod 2 ^ 64 in
                  if total =? 0 then Err (code_error "invalid shm size")
                  else if maxShmSize <? total then Err (code_error "invalid shm size")
                  else Ok total
            end
        end
  end.

(** ** Names and targets *)

(** [^[A-Za-z_][A-Za-z0-9_]*$]. *)
Definition envNamePattern (name : string) : bool :=
  match name with
  | "" => false
  | String c s =>
      (is_letter c || bool_decide (c = "_"%char)) &&
      str_forall (λ c, is_letter c || is_digit c || bool_decide (c = "_"%char)) s
  end.

Definition helperSocketContainerDir : string := "/run/docker-helper".
Definition helperSocketLocatorEnv : string := "DOCKER_HELPER_SOCKET_PATH".
Definition helperSocketLocatorEnvValue : string := helperSocketContainerDir +:+ "/docker-helper.sock".

Definition isHelperSocketMountOverlap (target : string) : bool :=
  match pathOverlap (Clean target) helperSocketContainerDir with pathDisjoint => false | _ => true end.

Definition trustedCAContainerDir : string := "/run/docker-helper/trusted-ca".
Definition trustedCAEnvSSLDir : string := "SSL_CERT_DIR".
Definition trustedCAEnvNodeExtra : string := "NODE_EXTRA_CA_CERTS".
Definition trustedCAEnvSSLDirValue : string := "/run/docker-helper/trusted-ca:/etc/ssl/certs:/etc/pki/tls/certs".
Definition trustedCAEnvNodeExtraValue : string := "/run/docker-helper/trusted-ca/ca.pem".

(** The relative path stays inside its base. *)
Definition rel_inside (rel : string) : bool := bool_decide (rel ≠ "..") && negb (String.prefix "../" rel).

Definition isTrustedCAMountOverlap (target : string) : bool :=
  let cleaned := Clean target in
  if bool_decide (cleaned = trustedCAContainerDir) then true
  else match Rel trustedCAContainerDir cleaned with
  | None => false
  | Some rel =>
      if rel_inside rel then true
      else match Rel cleaned trustedCAContainerDir with
      | None => false
      | Some rel2 => rel_inside rel2
      end
  end.

(** ** Mounts *)

#[export] Existing Instances hp_ret hp_bind.

Record resolvedMount := mkResolved { rm_SourcePath : string; rm_Target : string; rm_ReadOnly : bool }.

Section host.
Context (h : host).

(** The lexical admission of the source spelling. *)
Definition admit_source (mount : mountRequest) (workspace : string) (snapshot : sessionFilesystemSnapshot) : result string :=
  if negb (IsAbs (mr_Source mount)) then
    match Abs h (Join [workspace; mr_Source mount]) with
    | None => errorf "cannot resolve mount source" []
    | Some abs => if negb (pathWithin workspace abs) then errorf "mount source escapes workspace" [] else Ok abs
    end
  else
    let rawSource := Clean (mr_Source mount) in
    if negb (isWithinAnyAllowedRoot rawSource (allowedRootPaths (Entries snapshot)))
    then errorf "mount source is outside the issued session filesystem snapshot" []
    else Ok rawSource.

Definition resolveMount (mount : mountRequest) (workspace : string) (snapshot : sessionFilesystemSnapshot) : HP resolvedMount :=
  if bool_decide (mr_Source mount = "") then hp_fail "mount source is required" []
  else if bool_decide (mr_Target mount = "") then hp_fail "mount target is required" []
  else if negb (IsAbs (mr_Target mount)) then hp_fail "mount target must be absolute" []
  else
    let cleaned := Clean (mr_Target mount) in
    if bool_decide (cleaned = "." ∨ cleaned = "..") then hp_fail "mount target is invalid" []
    else
      admitted ← hp_lift (admit_source mount workspace snapshot);
      sourcePath ← resolve_link h (λ _, code_error "cannot resolve mount source") admitted;
      if negb (IsAbs sourcePath) then hp_fail "mount source is not absolute" []
      else if negb (IsAbs (mr_Source mount)) && negb (pathWithin workspace sourcePath)
      then hp_fail "mount source escapes workspace" []
      else
        info ← stat_path h (λ _, code_error "cannot access mount source") sourcePath;
        if bool_decide (info = is_other) then hp_fail "mount source is not a directory or regular file" []
        else mret (mkResolved sourcePath cleaned (mr_ReadOnly mount)).

(** The mounts in order: each target must be representable and new. *)
Fixpoint resolve_mounts (workspace : string) (snapshot : sessionFilesystemSnapshot) (targetSeen : list string)
    (mounts : list mountRequest) : HP (list resolvedMount) :=
  match mounts with
  | [] => mret []
  | mount :: mounts =>
      resolved ← resolveMount mount workspace snapshot;
      _ ← hp_lift (dockerMountFieldRepresentable (rm_Target resolved));
      if bool_decide (rm_Target resolved ∈ targetSeen) then hp_fail "duplicate mount target" []
      else
        l ← resolve_mounts workspace snapshot (rm_Target resolved :: targetSeen) mounts;
        mret (resolved :: l)
  end.
End host.

(** The exposure plan, or the refusal's public code. *)
Fixpoint exposure_plan (snapshot : sessionFilesystemSnapshot) (mounts : list resolvedMount)
    : result (list sessionFilesystemExposure) :=
  match mounts with
  | [] => Ok []
  | m :: mounts =>
      match resolveSessionFilesystemExposure snapshot (rm_SourcePath m) (rm_Target m) (rm_ReadOnly m) with
      | (_, Some e) =>
          Err (code_error (if errors_is e ErrReadOnlyRoot then "read_only_root"
                           else if errors_is e ErrOutsideSessionSnapshot then "invalid_mount"
                           else "internal_error"))
      | (exposure, None) => l ← exposure_plan snapshot mounts; Ok (exposure :: l)
      end
  end.

(** ** The checks before any reservation *)

Definition maxRunMounts : nat := 16.

(** The validated size of /dev/shm. *)
Definition check_request (req : runRequest) : result Z :=
  if bool_decide (rr_Image req = "") then Err (code_error "invalid_image")
  else if String.prefix "-" (rr_Image req) then Err (code_error "invalid_image")
  else if bool_decide (rr_Workdir req ≠ "") && negb (IsAbs (rr_Workdir req)) then Err (code_error "invalid_workdir")
  else if negb (forallb (λ kv : string * string, envNamePattern kv.1) (map_to_list (rr_Environment req)))
  then Err (code_error "invalid_environment")
  else match validateShmSize (rr_ShmSize req) with
  | Err _ => Err (code_error "invalid_shm_size")
  | Ok shmSizeBytes =>
      if rr_HelperSocket req &&
         match rr_Environment req !! helperSocketLocatorEnv with
         | Some v => bool_decide (v ≠ helperSocketLocatorEnvValue)
         | None => false
         end
      then Err (code_error "invalid_helper_socket")
      else if bool_decide (maxRunMounts < length (rr_Mounts req))%nat then Err (code_error "too_many_mounts")
      else Ok shmSizeBytes
  end.

(** ** Overlap with the mounts the server owns *)

Definition overlap_refused (injection : string) (req : runRequest) : bool :=
  (bool_decide (injection = "auto") && existsb (λ m, isTrustedCAMountOverlap (mr_Target m)) (rr_Mounts req)) ||
  (rr_HelperSocket req && existsb (λ m, isHelperSocketMountOverlap (mr_Target m)) (rr_Mounts req)).

(** ** The environment of the container *)

Definition add_absent (k v : string) (m : gmap string string) : gmap string string :=
  if bool_decide (is_Some (m !! k)) then m else <[k := v]> m.

Definition all_env (req : runRequest) (trustedCAInjected : bool) : gmap string string :=
  let m := rr_Environment req in
  let m := if trustedCAInjected
           then add_absent trustedCAEnvNodeExtra trustedCAEnvNodeExtraValue (add_absent trustedCAEnvSSLDir trustedCAEnvSSLDirValue m)
           else m in
  if rr_HelperSocket req then add_absent helperSocketLocatorEnv helperSocketLocatorEnvValue m else m.

Definition sorted_names (m : gmap string string) : list string := merge_sort str_le (map_to_list m).*1.

(** ** Labels and the privilege floor *)

Definition runtimeLabelsFor (s : Session) : list string :=
  ["com.dockerhelper.schema=1"; "com.dockerhelper.session.id=" +:+ ss_ID s;
   "com.dockerhelper.launcher.id=" +:+ ss_LauncherID s; "com.dockerhelper.principal.name=" +:+ ss_PrincipalName s].
Definition runtimeLabelsForRun (s : Session) (operationID : string) : list string :=
  runtimeLabelsFor s ++ ["com.dockerhelper.operation.id=" +:+ operationID].

Definition workloadPrivilegeFloor : list string := ["--cap-drop"; "ALL"; "--security-opt"; "no-new-privileges:true"].

(** ** The argument list *)

Definition flag (name value : string) : list string := [name; value].
Definition flags (name : string) (values : list string) : list string := mjoin (flag name <$> values).

(** [%d]. *)
Definition print_int (z : Z) : string := if z <? 0 then "-" +:+ Itoa (- z) else Itoa z.

(** The configuration the handler reads. *)
Record run_config := mkRunConfig {
  rc_RuntimeDir : string; rc_TrustedCAInjection : string; rc_TrustedCAPreparedDir : string;
  rc_RetentionTTL : Z; rc_MaxCompleted : nat }.

Definition trusted_ca_injected (cfg : run_config) : bool :=
  bool_decide (rc_TrustedCAInjection cfg = "auto") && bool_decide (rc_TrustedCAPreparedDir cfg ≠ "").

(** What the workload MAC backend prepared: the security options and the bind
    sources, parallel to the plan. *)
Record preparedWorkloadMAC := mkPreparedMAC { pm_SecurityOpts : list string; pm_MountSources : list string }.

Fixpoint mount_specs (binds : list dockerBindMount) : result (list string) :=
  match binds with
  | [] => Ok []
  | b :: binds => spec ← dockerBindMountSpec b; l ← mount_specs binds; Ok (spec :: l)
  end.

(** The binds in order: the trusted CA, the helper socket, the user's mounts. *)
Definition run_binds (cfg : run_config) (req : runRequest) (plan : list sessionFilesystemExposure) (prepared : preparedWorkloadMAC)
    : list dockerBindMount :=
  (if trusted_ca_injected cfg then [mkBind (rc_TrustedCAPreparedDir cfg) trustedCAContainerDir true] else []) ++
  (if rr_HelperSocket req then [mkBind (rc_RuntimeDir cfg) helperSocketContainerDir true] else []) ++
  zip_with (λ source exposure, mkBind source (Target exposure) (RequestedReadOnly exposure)) (pm_MountSources prepared) plan.

Definition run_argv (cfg : run_config) (req : runRequest) (session : Session) (operationID cidfile dockerDir : string)
    (identity : Z * Z) (shmSizeBytes : Z) (plan : list sessionFilesystemExposure) (prepared : preparedWorkloadMAC)
    : result (list string) :=
  specs ← mount_specs (run_binds cfg req plan prepared);
  let env := all_env req (trusted_ca_injected cfg) in
  Ok (["--config"; dockerDir; "run"; "--rm"; "--user"; print_int identity.1 +:+ ":" +:+ print_int identity.2] ++
      workloadPrivilegeFloor ++
      flags "--security-opt" (pm_SecurityOpts prepared) ++
      flags "--label" (runtimeLabelsForRun session operationID) ++
      (if bool_decide (cidfile ≠ "") then flag "--cidfile" cidfile else []) ++
      (if bool_decide (rr_Entrypoint req ≠ "") then flag "--entrypoint" (rr_Entrypoint req) else []) ++
      (if bool_decide (rr_Workdir req ≠ "") then flag "--workdir" (rr_Workdir req) else []) ++
      flags "--env" ((λ name, name +:+ "=" +:+ default "" (env !! name)) <$> sorted_names env) ++
      flags "--mount" specs ++
      (if 0 <? shmSizeBytes then flag "--shm-size" (Itoa shmSizeBytes) else []) ++
      [rr_Image req] ++ rr_Command req).
