(* ===== verification/RunRequestTheory.v ===== *)
(** * RunRequestTheory: lemmas on the request half of the run handler

    Resolved mounts and the probes made for them, the exposure plan, overlap
    with the server's directories, the shape of the docker argument list. *)
From S2P Require Import Prelude Filepath AllowedRoots AllowedRootsTheory GoStrings Database SnapshotStore MacLifecycle WorkspacePolicy Session SessionTheory OwnershipTheory DockerMount RunRequest.
Local Open Scope Z_scope.

(** ** Resolved mounts *)

Section mounts.
Context (h : host) (workspace : string) (snapshot : sessionFilesystemSnapshot).

Record mount_resolved (m : mountRequest) (r : resolvedMount) : Prop := {
  mr_target : IsAbs (mr_Target m) = true ∧ rm_Target r = Clean (mr_Target m);
  mr_mode : rm_ReadOnly r = mr_ReadOnly m;
  mr_source : ∃ spelling, admit_source h m workspace snapshot = Ok spelling ∧ evalSymlinksFn h spelling = inl (rm_SourcePath r);
  mr_regular : osStatFn h (rm_SourcePath r) = inl is_dir ∨ osStatFn h (rm_SourcePath r) = inl is_regular;
  mr_relative : IsAbs (mr_Source m) = false → pathWithin workspace (rm_SourcePath r) = true }.

Lemma resolveMount_ok m l r l' : resolveMount h m workspace snapshot l = (Ok r, l') → mount_resolved m r.
Proof.
  unfold resolveMount. case_bool_decide; [done|]. case_bool_decide; [done|].
  destruct (IsAbs (mr_Target m)) eqn:Ht; [|done]. simpl negb. cbv zeta iota. case_bool_decide; [done|].
  unfold mbind. intros (a & l1 & Hadm & Ha)%hp_bind_ok. injection Hadm as Hadm _. apply hp_bind_ok in Ha as (src & l2 & Hl & Hb).
  unfold resolve_link in Hl. destruct (evalSymlinksFn h a) as [q|] eqn:Eq; [|done]. injection Hl as -> _.
  destruct (IsAbs src); [|done]. simpl negb in Hb. cbv iota in Hb.
  destruct (negb (IsAbs (mr_Source m)) && negb (pathWithin workspace src)) eqn:Ew; [done|].
  apply hp_bind_ok in Hb as (i & l3 & Hs & Hc). unfold stat_path in Hs. destruct (osStatFn h src) as [j|] eqn:Es; [|done].
  injection Hs as -> _. case_bool_decide as Hi; [done|]. injection Hc as <- _. split; simpl; [done..|by exists a| |].
  - rewrite Es. destruct i; naive_solver.
  - intros Ha. rewrite Ha in Ew. simpl in Ew. by apply negb_false_iff in Ew.
Qed.

Lemma resolve_mounts_ok seen mounts l res l' :
  resolve_mounts h workspace snapshot seen mounts l = (Ok res, l') →
  Forall2 mount_resolved mounts res ∧ NoDup (rm_Target <$> res) ∧ Forall (λ t, t ∉ seen) (rm_Target <$> res).
Proof.
  revert seen l res l'. induction mounts as [|m mounts IH]; intros seen l res l'; simpl.
  { intros [= <- _]. split; [constructor|]. by split; constructor. }
  unfold mbind. intros (r & l1 & Hr & H1)%hp_bind_ok. apply resolveMount_ok in Hr.
  apply hp_bind_ok in H1 as (u & l2 & _ & H2). case_bool_decide as Hseen; [done|].
  apply hp_bind_ok in H2 as (rs & l3 & Hrs & H3). injection H3 as <- _.
  apply IH in Hrs as (Hf & Hnd & Hs). split_and!.
  - by constructor.
  - simpl. constructor; [|done]. intros Hin. rewrite Forall_forall in Hs. apply (Hs _ Hin). by left.
  - simpl. constructor; [done|]. eapply Forall_impl; [exact Hs|]. intros t Ht Hin. apply Ht. by right.
Qed.

(** Every spelling resolved for a mount is granted by the snapshot. *)
Context (Hwf : snapshot_wf snapshot) (Hws : workspace = Workspace snapshot).

Definition granted (q : string) : Prop := canonical q = true ∧ is_Some (LookupAccess snapshot q).

Lemma within_granted q : canonical q = true → isWithinAnyAllowedRoot q (allowedRootPaths (Entries snapshot)) = true → granted q.
Proof.
  intros Hq Hin. split; [done|]. destruct (snapshot_wf_inv _ Hwf) as (Hv & _). exact (proj1 (authorized_by_path _ _ Hv Hq) Hin).
Qed.

Lemma workspace_granted q : canonical q = true → pathWithin workspace q = true → granted q.
Proof.
  intros Hq Hw. split; [done|]. apply snapshot_wf_inv in Hwf as (Hv & Hc & Hl & _). rewrite <-Hws in Hc, Hl.
  unfold LookupAccess, lookupAllowedRootAccess in *. rewrite fmap_is_Some in *.
  apply lookup_entry_is_Some in Hl as (e & He & Hin); [|done..]. apply lookup_entry_is_Some; [done..|]. exists e. split; [done|].
  apply (pathWithin_trans _ workspace); [by apply (valid_canonical _ Hv)|done..].
Qed.

Lemma Join_canonical ws p : IsAbs ws = true → canonical (Join [ws; p]) = true.
Proof.
  intros Ha. destruct ws as [|c ws]; [done|]. unfold Join. rewrite filter_cons_True by done.
  assert (c = "/"%char) as -> by (unfold IsAbs in Ha; cbn [String.prefix] in Ha; by destruct (ascii_dec "/" c)).
  apply Clean_canonical. destruct (filter _ [p]); apply IsAbs_cons_sep.
Qed.
Lemma Join_abs ws p : IsAbs ws = true → IsAbs (Join [ws; p]) = true.
Proof. intros Ha. by apply (Join_canonical ws p), andb_true_iff in Ha as [? _]. Qed.

Lemma admit_source_granted m q : admit_source h m workspace snapshot = Ok q → granted q.
Proof.
  unfold admit_source. destruct (IsAbs (mr_Source m)) eqn:Ea; simpl negb; cbv iota zeta.
  - destruct (isWithinAnyAllowedRoot _ _) eqn:Ew; [|done]. intros [= <-]. apply within_granted; [by apply Clean_canonical|done].
  - assert (Hws' : IsAbs workspace = true).
    { apply snapshot_wf_inv in Hwf as (_ & Hc & _). rewrite <-Hws in Hc. by apply andb_true_iff in Hc as [? _]. }
    unfold Abs. rewrite Join_abs by done. destruct (negb _) eqn:Ew; [done|]. apply negb_false_iff in Ew. intros [= <-].
    apply workspace_granted; [by apply Clean_canonical, Join_abs|done].
Qed.

Lemma resolveMount_admits m : admits h granted (resolveMount h m workspace snapshot).
Proof.
  unfold resolveMount. case_bool_decide; [apply admits_ret|]. case_bool_decide; [apply admits_ret|].
  destruct (negb (IsAbs (mr_Target m))); [apply admits_ret|]. cbv zeta. case_bool_decide; [apply admits_ret|]. unfold mbind.
  destruct (admit_source h m workspace snapshot) as [q|e] eqn:E; [|intros l Hl; exact Hl].
  apply admit_source_granted in E. intros l Hl. unfold hp_bind at 1, hp_lift.
  assert (Hl1 : admitted_by h granted (l ++ [EvalSymlinks q])) by (by apply admitted_link).
  unfold hp_bind at 1, resolve_link. destruct (evalSymlinksFn h q) as [src|] eqn:Eq; [|exact Hl1].
  destruct (negb (IsAbs src)); [exact Hl1|]. destruct (_ && _); [exact Hl1|].
  assert (Hl2 : admitted_by h granted ((l ++ [EvalSymlinks q]) ++ [Stat src])) by (apply (admitted_stat _ _ _ q); [exact Hl1|set_solver|done]).
  unfold hp_bind, stat_path. destruct (osStatFn h src) as [i|]; [|exact Hl2]. by case_bool_decide.
Qed.

Lemma resolve_mounts_admits seen mounts : admits h granted (resolve_mounts h workspace snapshot seen mounts).
Proof.
  revert seen. induction mounts as [|m mounts IH]; intros seen; simpl; [apply admits_ret|]. unfold mbind.
  apply admits_bind; [apply resolveMount_admits|]. intros r. apply admits_bind; [apply admits_ret|]. intros u.
  case_bool_decide; [apply admits_ret|]. apply admits_bind; [apply IH|]. intros l. apply admits_ret.
Qed.

End mounts.

(** ** The exposure plan *)

Lemma exposure_plan_ok snapshot mounts plan :
  exposure_plan snapshot mounts = Ok plan →
  Forall2 (λ m e, resolveSessionFilesystemExposure snapshot (rm_SourcePath m) (rm_Target m) (rm_ReadOnly m) = (e, None)) mounts plan.
Proof.
  revert plan. induction mounts as [|m mounts IH]; intros plan; simpl; [by intros [= <-]|].
  destruct (resolveSessionFilesystemExposure _ _ _ _) as [e [err|]] eqn:E; [done|].
  destruct (exposure_plan snapshot mounts) as [l|]; [|done]. intros [= <-]. constructor; [done|]. by apply IH.
Qed.

Lemma exposure_source snapshot p t ro e : resolveSessionFilesystemExposure snapshot p t ro = (e, None) → SourcePath e = p.
Proof.
  unfold resolveSessionFilesystemExposure. destruct (LookupAccess snapshot p); [|done].
  destruct ro; [by intros [= <-]|]. destruct (CanExposeWritable snapshot p); [by intros [= <-]|done].
Qed.

(** ** Overlap with the server's directories *)

Definition overlaps (a b : string) : bool := match pathOverlap a b with pathDisjoint => false | _ => true end.

Lemma overlaps_false a b : overlaps a b = false → a ≠ b ∧ pathWithin a b = false ∧ pathWithin b a = false.
Proof. unfold overlaps, pathOverlap. case_bool_decide; [done|]. by destruct (pathWithin a b), (pathWithin b a). Qed.

(** The two spellings of the overlap test decide the same relation. *)
Lemma trusted_ca_overlap t : IsAbs t = true → isTrustedCAMountOverlap t = overlaps (Clean t) trustedCAContainerDir.
Proof.
  intros Ha. apply Clean_canonical in Ha. unfold isTrustedCAMountOverlap, overlaps, pathOverlap. cbv zeta.
  assert (Hd : canonical trustedCAContainerDir = true) by reflexivity.
  case_bool_decide as E; [done|].
  pose proof (within_rel trustedCAContainerDir (Clean t) Hd Ha (not_eq_sym E)) as H1.
  pose proof (within_rel (Clean t) trustedCAContainerDir Ha Hd E) as H2.
  rewrite !pathWithin_spec by done. rewrite <-H1, <-H2. unfold rel_inside.
  pose proof (Rel_canonical trustedCAContainerDir (Clean t) Hd Ha (not_eq_sym E)) as ->.
  pose proof (Rel_canonical (Clean t) trustedCAContainerDir Ha Hd E) as ->.
  by repeat case_match.
Qed.

(** ** The argument list *)

Lemma mount_specs_ok binds specs : mount_specs binds = Ok specs → Forall2 (λ b s, dockerBindMountSpec b = Ok s) binds specs.
Proof.
  revert specs. induction binds as [|b binds IH]; intros specs; simpl; [by intros [= <-]|].
  destruct (dockerBindMountSpec b) as [s|] eqn:E; [|done]. simpl. destruct (mount_specs binds) as [l|]; [|done].
  intros [= <-]. constructor; [done|]. by apply IH.
Qed.

(** A list of flags each followed by its value. *)
Definition flag_pairs (pairs : list (string * string)) : list string := mjoin ((λ p, flag p.1 p.2) <$> pairs).

Lemma flag_pairs_app a b : flag_pairs (a ++ b) = flag_pairs a ++ flag_pairs b.
Proof. unfold flag_pairs. by rewrite fmap_app, join_app. Qed.

Lemma flags_pairs name values : flags name values = flag_pairs ((λ v, (name, v)) <$> values).
Proof. unfold flags, flag_pairs. by rewrite <-list_fmap_compose. Qed.


(** The flags of a run between the privilege floor and the image. *)
Definition run_pairs (cfg : run_config) (req : runRequest) (session : Session) (operationID cidfile : string) (shmSizeBytes : Z)
    (prepared : preparedWorkloadMAC) (specs : list string) : list (string * string) :=
  let env := all_env req (trusted_ca_injected cfg) in
  ((λ v, ("--security-opt", v)) <$> pm_SecurityOpts prepared) ++
  ((λ v, ("--label", v)) <$> runtimeLabelsForRun session operationID) ++
  (if bool_decide (cidfile ≠ "") then [("--cidfile", cidfile)] else []) ++
  (if bool_decide (rr_Entrypoint req ≠ "") then [("--entrypoint", rr_Entrypoint req)] else []) ++
  (if bool_decide (rr_Workdir req ≠ "") then [("--workdir", rr_Workdir req)] else []) ++
  ((λ v, ("--env", v)) <$> ((λ name, name +:+ "=" +:+ default "" (env !! name)) <$> sorted_names env)) ++
  ((λ v, ("--mount", v)) <$> specs) ++
  (if 0 <? shmSizeBytes then [("--shm-size", Itoa shmSizeBytes)] else []).

Lemma run_argv_ok cfg req session operationID cidfile dockerDir identity shm plan prepared args :
  run_argv cfg req session operationID cidfile dockerDir identity shm plan prepared = Ok args →
  ∃ specs, Forall2 (λ b s, dockerBindMountSpec b = Ok s) (run_binds cfg req plan prepared) specs ∧
    args = ["--config"; dockerDir; "run"; "--rm"; "--user"; print_int identity.1 +:+ ":" +:+ print_int identity.2] ++
           workloadPrivilegeFloor ++ flag_pairs (run_pairs cfg req session operationID cidfile shm prepared specs) ++
           rr_Image req :: rr_Command req.
Proof.
  unfold run_argv. destruct (mount_specs _) as [specs|] eqn:E; [|done]. cbn [mbind result_bind]. intros [= <-]. exists specs.
  split; [by apply mount_specs_ok|]. unfold run_pairs. rewrite !flag_pairs_app, !flags_pairs.
  assert (H : ∀ (b : bool) n v, flag_pairs (if b then [(n, v)] else []) = if b then flag n v else []) by (by intros []).
  rewrite !H, <-!app_assoc. reflexivity.
Qed.

Definition run_flags : list string :=
  ["--security-opt"; "--label"; "--cidfile"; "--entrypoint"; "--workdir"; "--env"; "--mount"; "--shm-size"].

Lemma run_pairs_flags cfg req session operationID cidfile shm prepared specs :
  Forall (λ p, p.1 ∈ run_flags) (run_pairs cfg req session operationID cidfile shm prepared specs).
Proof.
  assert (Hm : ∀ n (l : list string), n ∈ run_flags → Forall (λ p : string * string, p.1 ∈ run_flags) ((λ v, (n, v)) <$> l)).
  { intros n l Hn. apply Forall_fmap, Forall_true. done. }
  assert (Ho : ∀ (b : bool) n v, n ∈ run_flags → Forall (λ p : string * string, p.1 ∈ run_flags) (if b then [(n, v)] else [])).
  { intros [] n v Hn; [by apply Forall_singleton|by apply Forall_nil]. }
  unfold run_pairs. cbv zeta. rewrite !Forall_app. split_and!; first [apply Hm|apply Ho]; unfold run_flags; set_solver.
Qed.

(** Only the mounts carry "--mount". *)
Lemma run_pairs_mount cfg req session operationID cidfile shm prepared specs v :
  ("--mount", v) ∈ run_pairs cfg req session operationID cidfile shm prepared specs ↔ v ∈ specs.
Proof.
  assert (Hm : ∀ n (l : list string), n ≠ "--mount" → ("--mount", v) ∉ (λ v : string, (n, v)) <$> l).
  { intros n l Hn Hin. apply list_elem_of_fmap in Hin as (x & [=] & _). congruence. }
  assert (Ho : ∀ (b : bool) n x, n ≠ "--mount" → ("--mount", v) ∉ if b then [(n, x) : string * string] else []).
  { intros [] n x Hn Hin; [|by apply not_elem_of_nil in Hin]. apply list_elem_of_singleton in Hin. congruence. }
  assert (Hs : ("--mount", v) ∈ (λ v : string, ("--mount", v)) <$> specs ↔ v ∈ specs).
  { rewrite list_elem_of_fmap. naive_solver. }
  unfold run_pairs. cbv zeta. rewrite !elem_of_app, Hs. split; [|tauto].
  intros [H|[H|[H|[H|[H|[H|[H|H]]]]]]]; try done; exfalso; revert H; first [by apply Hm|by apply Ho].
Qed.

(** ** The binds *)

Lemma run_binds_elem cfg req plan prepared b :
  b ∈ run_binds cfg req plan prepared →
  (bm_ReadOnly b = true ∧
   ((trusted_ca_injected cfg = true ∧ bm_Source b = rc_TrustedCAPreparedDir cfg ∧ bm_Target b = trustedCAContainerDir) ∨
    (rr_HelperSocket req = true ∧ bm_Source b = rc_RuntimeDir cfg ∧ bm_Target b = helperSocketContainerDir))) ∨
  ∃ i source e, pm_MountSources prepared !! i = Some source ∧ plan !! i = Some e ∧
    b = mkBind source (Target e) (RequestedReadOnly e).
Proof.
  unfold run_binds. intros [H|[H|H]%elem_of_app]%elem_of_app.
  - left. destruct (trusted_ca_injected cfg); [|by apply not_elem_of_nil in H]. apply list_elem_of_singleton in H as ->. auto.
  - left. destruct (rr_HelperSocket req); [|by apply not_elem_of_nil in H]. apply list_elem_of_singleton in H as ->. auto 6.
  - right. apply elem_of_lookup_zip_with in H as (i & s & e & -> & Hs & He). by exists i, s, e.
Qed.

(** ** the size of /dev/shm against exact arithmetic

    The parser of src/run.go accepts exactly a number and a unit whose product,
    without wrap-around, is positive and at most two gibibytes. *)

Definition unit_value (unit : string) : option Z :=
  match unit with
  | "" => Some 1
  | "k" | "K" => Some 1024
  | "m" | "M" => Some (1024 * 1024)
  | "g" | "G" => Some (1024 * 1024 * 1024)
  | _ => None
  end.

(** [raw] is a decimal number and a unit, with the exact product [v]. *)
Definition shm_value (raw : string) (v : Z) : Prop :=
  ∃ num unit n k, raw = num +:+ unit ∧ num ≠ "" ∧ digits_value 0 num = Some n ∧ unit_value unit = Some k ∧ v = n * k.

Lemma split_last_snoc b l : split_last (b +:+ String l "") = Some (b, l).
Proof. induction b as [|c b IH]; [done|]. simpl. rewrite IH. by destruct b. Qed.

Lemma split_last_inv s b l : split_last s = Some (b, l) → s = b +:+ String l "".
Proof.
  revert b. induction s as [|c s IH]; intros b; [done|]. simpl. destruct s as [|d s]; [by intros [= <- <-]|].
  destruct (split_last (String d s)) as [[b' l']|]; [|done]. intros [= <- <-]. simpl. by rewrite (IH b').
Qed.

Lemma split_last_some s : s ≠ "" → is_Some (split_last s).
Proof. induction s as [|c s IH]; [done|]. intros _. simpl. destruct s; [done|]. destruct IH as [[] ->]; done. Qed.

Lemma digit_not_letter c d : digit_of c = Some d → is_letter c = false ∧ is_digit c = true ∧ 0 <= d.
Proof. by destruct c as [[] [] [] [] [] [] [] []]; intros [= <-]. Qed.

Lemma digits_value_chars acc s n : digits_value acc s = Some n → ∀ b l, s = b +:+ String l "" → ∃ d, digit_of l = Some d.
Proof.
  intros Hn b l ->. rewrite digits_value_app in Hn. destruct (digits_value acc b) as [a|]; [|done]. simpl in Hn.
  destruct (digit_of l); [by eexists|done].
Qed.

Lemma digits_value_nonneg acc s n : 0 <= acc → digits_value acc s = Some n → acc <= n.
Proof.
  revert acc. induction s as [|c s IH]; intros acc Ha; simpl; [intros [= ->]; lia|].
  destruct (digit_of c) as [d|] eqn:E; [|done]. apply digit_not_letter in E as (_ & _ & Hd). intros H%IH; lia.
Qed.

Lemma unit_multiplier_letter l : unit_multiplier (Some (lower_letter l)) = if is_letter l then unit_value (String l "") else unit_multiplier (Some l).
Proof. by destruct l as [[] [] [] [] [] [] [] []]; vm_compute. Qed.

Lemma unit_value_shape unit k : unit_value unit = Some k → unit = "" ∨ ∃ l, unit = String l "" ∧ is_letter l = true.
Proof.
  destruct unit as [|l [|l' u]]; [by left| |].
  - intros H. right. exists l. split; [done|]. by destruct l as [[] [] [] [] [] [] [] []].
  - by destruct l as [[] [] [] [] [] [] [] []].
Qed.

(** The split of the parser finds the number and the unit, when there are any. *)
Lemma shm_value_split raw v :
  raw ≠ "" →
  shm_value raw v ↔
  ∃ n k, digits_value 0 (split_unit raw).1 = Some n ∧ unit_multiplier (split_unit raw).2 = Some k ∧ v = n * k.
Proof.
  intros Hraw. destruct (split_last_some raw Hraw) as [[b l] Hl]. unfold split_unit. rewrite Hl.
  pose proof (split_last_inv _ _ _ Hl) as Eraw. split.
  - intros (num & unit & n & k & E & Hne & Hn & Hk & ->). destruct (unit_value_shape _ _ Hk) as [->|(u & -> & Hu)].
    + rewrite str_app_nil_r in E. subst num. destruct (digits_value_chars _ _ _ Hn _ _ Eraw) as [d Hd].
      apply digit_not_letter in Hd as (-> & _ & _). rewrite andb_false_r. exists n, k. by split_and!.
    + rewrite E, split_last_snoc in Hl. injection Hl as <- <-. rewrite bool_decide_true, Hu by done.
      exists n, k. simpl. split_and!; [done| |done]. pose proof (unit_multiplier_letter u) as Hm. by rewrite Hu, Hk in Hm.
  - intros (n & k & Hn & Hk & ->). destruct (bool_decide (b ≠ "") && is_letter l) eqn:E; cbn [fst snd] in *.
    + apply andb_true_iff in E as [Hb%bool_decide_eq_true_1 Hlt]. exists b, (String l ""), n, k. split_and!; [done..| |done].
      by rewrite unit_multiplier_letter, Hlt in Hk.
    + exists raw, "", n, k. rewrite str_app_nil_r. by split_and!.
Qed.

Lemma unit_multiplier_bounds unit k : unit_multiplier unit = Some k → 1 <= k <= 1024 * 1024 * 1024.
Proof. unfold unit_multiplier. destruct unit; repeat case_bool_decide; intros [= <-]; lia. Qed.

(** The size of /dev/shm is exact.  The empty text is no size; any other text is
    accepted exactly when it is a decimal number followed by nothing, or by one
    of k, m, g in either case, and the exact product — computed without any
    wrap-around, although the code multiplies in 64 bits — is positive and at
    most 2 GiB; and that product is the size. *)
Theorem shm_size_exact (raw : string) :
  match validateShmSize raw with
  | Ok v => (raw = "" ∧ v = 0) ∨ (shm_value raw v ∧ 0 < v <= maxShmSize)
  | Err _ => raw ≠ "" ∧ ∀ v, shm_value raw v → ¬ (0 < v <= maxShmSize)
  end.
Proof.
  unfold validateShmSize. destruct raw as [|c r]; [by left|]. set (raw := String c r).
  pose proof (λ v, shm_value_split raw v ltac:(done)) as Hsp.
  destruct (is_digit c) eqn:Hd; simpl negb; cbv iota.
  2: { split; [done|]. intros v (num & unit & n & k & E & Hne & Hn & _) _. destruct num as [|c' num]; [done|]. injection E as <- _.
       simpl in Hn. destruct (digit_of c) eqn:Hc; [|done]. apply digit_not_letter in Hc as (_ & ? & _). congruence. }
  destruct (split_unit raw) as [num unit]. cbn [fst snd] in Hsp.
  destruct (decide (num = "")) as [->|Hnum].
  { split; [done|]. intros v (n & k & [= <-] & _ & ->)%Hsp. lia. }
  rewrite bool_decide_false by done. unfold ParseUint10, parse_nat10. destruct num as [|d num]; [done|].
  destruct (digits_value 0 (String d num)) as [n|] eqn:Hn.
  2: { split; [done|]. by intros v (n & k & ? & _)%Hsp. }
  pose proof (digits_value_nonneg _ _ _ ltac:(done) Hn) as Hn0. simpl.
  destruct (unit_multiplier unit) as [k|] eqn:Hk.
  2: { destruct (n <=? maxUint64); (split; [done|]; by intros v (n' & k & _ & ? & _)%Hsp). }
  apply unit_multiplier_bounds in Hk as Hkb.
  assert (Hv : ∀ v, shm_value raw v ↔ v = n * k) by (intros v; rewrite Hsp; split; [intros (n' & k' & ? & ? & ->); by simplify_eq|intros ->; by exists n, k]).
  unfold maxUint64, maxShmSize in *. destruct (Z.leb_spec n 18446744073709551615) as [Hle|Hgt].
  2: { split; [done|]. intros v ->%Hv. nia. }
  rewrite (proj2 (Z.ltb_lt 0 k)) by lia. cbn [andb]. destruct (Z.ltb_spec (18446744073709551615 / k) n) as [Hov|Hfit].
  { split; [done|]. intros v ->%Hv. assert (k * (18446744073709551615 / k + 1) > 18446744073709551615) by (pose proof (Z.mul_succ_div_gt 18446744073709551615 k); lia). nia. }
  assert (Hmul : n * k <= 18446744073709551615) by (pose proof (Z.mul_div_le 18446744073709551615 k); nia).
  rewrite Z.mod_small by (change (2 ^ 64) with 18446744073709551616; nia).
  destruct (Z.eqb_spec (n * k) 0) as [Hz|Hz]; [split; [done|]; intros v ->%Hv; lia|].
  destruct (Z.ltb_spec (2 * 1024 * 1024 * 1024) (n * k)) as [Hbig|Hok]; [split; [done|]; intros v ->%Hv; lia|].
  right. split; [by apply Hv|nia].
Qed.
