(* ===== verification/Run.v ===== *)
(** * Run: src/run.go and src/run_cleanup.go — the run handler

    The run request from the captured authority to the started docker process,
    every early return with what it releases, and the ordered cleanup.  What the
    host and the MAC backend answer is the record [run_world]. *)
From S2P Require Import Prelude Filepath AllowedRoots GoStrings WorkspacePolicy Database SnapshotStore Credential Launcher MacLifecycle Session Operation PrincipalStore Proc Lifecycle DockerMount RunRequest.
Local Open Scope Z_scope.

(** ** The cleanup sequence *)

Inductive workloadCleanupStageName :=
  | cleanupStageContainerProof | cleanupStageCapacity | cleanupStageWorkloadMAC | cleanupStageSourcePins
  | cleanupStageOwnershipState | cleanupStageWorkspaceLease | cleanupStageCidfile.
#[export] Instance workloadCleanupStageName_eq_dec : EqDecision workloadCleanupStageName.
Proof. solve_decision. Defined.

Definition canonicalWorkloadCleanupOrder : list workloadCleanupStageName :=
  [cleanupStageCapacity; cleanupStageContainerProof; cleanupStageWorkloadMAC; cleanupStageSourcePins;
   cleanupStageOwnershipState; cleanupStageWorkspaceLease; cleanupStageCidfile].

Fixpoint index_of (n : workloadCleanupStageName) (l : list workloadCleanupStageName) : option nat :=
  match l with
  | [] => None
  | x :: l => if bool_decide (x = n) then Some 0%nat else S <$> index_of n l
  end.
Definition stage_position (n : workloadCleanupStageName) : option nat := index_of n canonicalWorkloadCleanupOrder.

(** A stage and its operation; [None] skips it. *)
Record cleanupStage (M : Type) := mkStage { cs_name : workloadCleanupStageName; cs_run : option M }.
Arguments mkStage {M}. Arguments cs_name {M}. Arguments cs_run {M}.

(** The stages past position [last]; [None] is the panic. *)
Fixpoint stages_in_order {M} (last : option nat) (stages : list (cleanupStage M)) : bool :=
  match stages with
  | [] => true
  | st :: stages =>
      match stage_position (cs_name st) with
      | None => false
      | Some p => match last with
                  | Some l => bool_decide (l < p)%nat
                  | None => true
                  end && stages_in_order (Some p) stages
      end
  end.
Definition newRunCleanupSequence {M} (stages : list (cleanupStage M)) : option (list (cleanupStage M)) :=
  if stages_in_order None stages then Some stages else None.

(** The stage that failed, if any. *)
Fixpoint run_sequence {S} (stages : list (cleanupStage (S → bool * S))) (s : S) : option workloadCleanupStageName * S :=
  match stages with
  | [] => (None, s)
  | st :: stages =>
      match cs_run st with
      | None => run_sequence stages s
      | Some f => let '(ok, s) := f s in if ok : bool then run_sequence stages s else (Some (cs_name st), s)
      end
  end.

(** ** The proof that a run's container is gone *)

Inductive remove_answer := removed | removal_in_progress | remove_failed.

(** The inspections of the settle loop, up to its deadline. *)
Fixpoint settle (after : list (result (list helperContainer))) : result unit :=
  match after with
  | [] => errorf "correlated container removal could not be verified" []
  | Err e :: _ => Err (wrap_error "cannot verify correlated container removal" [] e)
  | Ok [] :: _ => Ok ()
  | Ok _ :: after => settle after
  end.

(** [inspect] answers the first query, [after] the later ones. *)
Record containerProvenance := mkProvenance {
  cp_inspect : result (list helperContainer); cp_remove : string → remove_answer; cp_after : list (result (list helperContainer)) }.

Definition proveOperationContainerAbsent (prov : containerProvenance) : result unit :=
  match cp_inspect prov with
  | Err e => Err (wrap_error "correlated container state is ambiguous" [] e)
  | Ok [] => Ok ()
  | Ok [container] =>
      if bool_decide (classifyHelperContainerState (hc_State container) = helperStateUnknown)
      then errorf "correlated container state is unclassifiable; refusing removal" []
      else match cp_remove prov (hc_ID container) with
      | remove_failed => errorf "cannot remove proven-owned correlated container" []
      | _ => settle (cp_after prov)
      end
  | Ok _ => errorf "correlated containers claim one operation; refusing to guess" []
  end.

(** ** The handler's state and its host *)

(** A failed preparation was rolled back; [recorded] when its ownership record
    still awaits the caller's rollback. *)
Inductive prepare_answer := prepare_ok (prepared : preparedWorkloadMAC) | prepare_failed (recorded : bool) | prepare_retained.

(** What one request draws and is answered: the identities, the clock, whether
    the docker directory could be made, the pin of a mount (its index and source
    path), the MAC backend, the cleanups,
    a cancellation or shutdown that marks the operation before it starts, and
    whether the process started. *)
Record run_world := mkWorld {
  w_operationID : string; w_leaseKey : string; w_now : Z;
  w_docker_dir : bool;
  w_pin : nat → string → option string; w_unpin : nat → bool;
  w_prepare : list sessionFilesystemExposure → list string → prepare_answer;
  w_mac_cleanup : bool; w_remove_state : bool;
  w_marked : option terminationReason;
  w_start : bool }.

(** [rs_pins] are the pins in force, [rs_wmac] the operations with workload MAC
    state in the kernel, [rs_owned] those with a durable ownership record,
    [rs_docker] the docker processes started. *)
Record run_state (W : Type) := mkRunState {
  rs_mac : mac W; rs_sup : sup; rs_probes : list probe;
  rs_pins : gset (string * nat); rs_wmac : gset string; rs_owned : gset string;
  rs_docker : list (op_ref * list string) }.
Arguments mkRunState {W}. Arguments rs_mac {W}. Arguments rs_sup {W}. Arguments rs_probes {W}.
Arguments rs_pins {W}. Arguments rs_wmac {W}. Arguments rs_owned {W}. Arguments rs_docker {W}.

Inductive run_response := run_rejected (code : string) | run_created (o : op_ref).

(** A handler over the state [S]; [inr] is the response already written. *)
Definition HR (S A : Type) : Type := S → (A + run_response) * S.
#[export] Instance hr_ret {S} : MRet (HR S) := λ A a s, (inl a, s).
#[export] Instance hr_bind {S} : MBind (HR S) := λ A B k m s,
  match m s with (inl a, s) => k a s | (inr r, s) => (inr r, s) end.
Definition reject {S A} (code : string) : HR S A := λ s, (inr (run_rejected code), s).
Definition on_result {S A} (r : result A) : HR S A := match r with Ok a => mret a | Err e => reject (err_text e) end.

Section handler.
Context {W : Type} `{!sessionMACDriver W} (h : host) (cfg : run_config) (w : run_world).
Implicit Types s : run_state W.

Definition with_mac (m : mac W) s : run_state W :=
  mkRunState m (rs_sup s) (rs_probes s) (rs_pins s) (rs_wmac s) (rs_owned s) (rs_docker s).
Definition with_sup (x : sup) s : run_state W :=
  mkRunState (rs_mac s) x (rs_probes s) (rs_pins s) (rs_wmac s) (rs_owned s) (rs_docker s).
Definition with_probes (l : list probe) s : run_state W :=
  mkRunState (rs_mac s) (rs_sup s) l (rs_pins s) (rs_wmac s) (rs_owned s) (rs_docker s).
Definition with_pins (p : gset (string * nat)) s : run_state W :=
  mkRunState (rs_mac s) (rs_sup s) (rs_probes s) p (rs_wmac s) (rs_owned s) (rs_docker s).
Definition with_workload (k o : gset string) s : run_state W :=
  mkRunState (rs_mac s) (rs_sup s) (rs_probes s) (rs_pins s) k o (rs_docker s).
Definition with_docker (l : list (op_ref * list string)) s : run_state W :=
  mkRunState (rs_mac s) (rs_sup s) (rs_probes s) (rs_pins s) (rs_wmac s) (rs_owned s) l.

(** ** Cleanup *)

(** Every pin is attempted, in reverse order. *)
Definition cleanupPinnedMounts (opID : string) (pinned : list nat) s : bool * run_state W :=
  (forallb (w_unpin w) pinned,
   with_pins (rs_pins s ∖ list_to_set ((λ i, (opID, i)) <$> filter (λ i, Is_true (w_unpin w i)) (reverse pinned))) s).

Definition mac_cleanup_stage (opID : string) s : bool * run_state W :=
  if w_mac_cleanup w then (true, with_workload (rs_wmac s ∖ {[opID]}) (rs_owned s) s) else (false, s).

Definition removeWorkloadMACState (opID : string) s : bool * run_state W :=
  if w_remove_state w then (true, with_workload (rs_wmac s) (rs_owned s ∖ {[opID]}) s) else (false, s).

Definition release_lease_stage (leaseKey : string) s : bool * run_state W := (true, with_mac (releaseLease leaseKey (rs_mac s)) s).
Definition release_capacity_stage (o : op_ref) s : bool * run_state W := (true, with_sup (releaseCapacity o (rs_sup s)) s).
(** The cidfile is docker's; removing it cannot fail. *)
Definition cidfile_stage s : bool * run_state W := (true, s).

(** What the operation holds: its MAC state when it was prepared, its pins, its
    lease. *)
Record run_op := mkRunOp { ro_ref : op_ref; ro_id : string; ro_prepared : bool; ro_pins : list nat; ro_lease : string }.

Definition rollback_stages (op : run_op) : list (cleanupStage (run_state W → bool * run_state W)) :=
  [mkStage cleanupStageCapacity (Some (release_capacity_stage (ro_ref op)));
   mkStage cleanupStageWorkloadMAC (Some (λ s, if ro_prepared op then mac_cleanup_stage (ro_id op) s else (true, s)));
   mkStage cleanupStageSourcePins (Some (cleanupPinnedMounts (ro_id op) (ro_pins op)));
   mkStage cleanupStageOwnershipState (Some (removeWorkloadMACState (ro_id op)));
   mkStage cleanupStageWorkspaceLease (Some (release_lease_stage (ro_lease op)));
   mkStage cleanupStageCidfile (Some cidfile_stage)].

(** [None] is a panic of the constructor. *)
Definition run_stages (stages : list (cleanupStage (run_state W → bool * run_state W))) s : option (option workloadCleanupStageName * run_state W) :=
  (λ l, run_sequence l s) <$> newRunCleanupSequence stages.

Definition rollbackRunPreparation (op : run_op) s : run_state W :=
  match run_stages (rollback_stages op) s with Some (_, s) => s | None => s end.

Definition after_process_stages (prov : containerProvenance) (op : run_op) : list (cleanupStage (run_state W → bool * run_state W)) :=
  [mkStage cleanupStageContainerProof (Some (λ s, (is_ok (proveOperationContainerAbsent prov), s)));
   mkStage cleanupStageWorkloadMAC (Some (mac_cleanup_stage (ro_id op)));
   mkStage cleanupStageSourcePins (Some (cleanupPinnedMounts (ro_id op) (ro_pins op)));
   mkStage cleanupStageOwnershipState (Some (removeWorkloadMACState (ro_id op)));
   mkStage cleanupStageWorkspaceLease (Some (release_lease_stage (ro_lease op)));
   mkStage cleanupStageCidfile (Some cidfile_stage)].

Definition cleanupAfterRunProcess (prov : containerProvenance) (op : run_op) s : run_state W :=
  match run_stages (after_process_stages prov op) s with Some (_, s) => s | None => s end.

(** ** Early returns *)

Definition upd (f : run_state W → run_state W) : HR (run_state W) () := λ s, (inl (), f s).

(** The release before the operation exists: the lease, then the capacity. *)
Definition releasePreparation (r : option reservation_ref) s : run_state W :=
  with_sup (Release r (rs_sup s)) (with_mac (releaseLease (w_leaseKey w) (rs_mac s)) s).

(** A step that gives everything back when it fails. *)
Definition preparing {A} (r : option reservation_ref) (code : error → string) (m : HP A) : HR (run_state W) A := λ s,
  match m (rs_probes s) with
  | (Ok a, l) => (inl a, with_probes l s)
  | (Err e, l) => (inr (run_rejected (code e)), releasePreparation r (with_probes l s))
  end.

Definition refusal_code (d : admissionDecision) : string :=
  match d with
  | admissionRefusedShutdown => "shutting_down"
  | admissionRefusedQuiesced => "launcher_unavailable"
  | admissionRefusedCapacity => "capacity_unavailable"
  | admissionAccepted => "internal_error"
  end.

(** ** The handler *)

(** The pins so far are with the operation when one fails. *)
Fixpoint pin_sources (op : run_op) (i : nat) (mounts : list resolvedMount) : HR (run_state W) (run_op * list string) :=
  match mounts with
  | [] => mret (op, [])
  | m :: mounts =>
      match w_pin w i (rm_SourcePath m) with
      | None => λ s, (inr (run_rejected "internal_error"), rollbackRunPreparation op s)
      | Some pinned =>
          _ ← upd (λ s, with_pins ({[(ro_id op, i)]} ∪ rs_pins s) s);
          r ← pin_sources (mkRunOp (ro_ref op) (ro_id op) (ro_prepared op) (ro_pins op ++ [i]) (ro_lease op)) (S i) mounts;
          mret (r.1, pinned :: r.2)
      end
  end.

(** The backend's answer: a failure was rolled back, unless it is retained. *)
Definition prepare_workload (op : run_op) (plan : list sessionFilesystemExposure) (pinned : list string)
    : HR (run_state W) (run_op * preparedWorkloadMAC) := λ s,
  let held := with_workload ({[ro_id op]} ∪ rs_wmac s) ({[ro_id op]} ∪ rs_owned s) s in
  match w_prepare w plan pinned with
  | prepare_ok prepared =>
      (inl (mkRunOp (ro_ref op) (ro_id op) true (ro_pins op) (ro_lease op), prepared), held)
  | prepare_failed recorded =>
      let s := if recorded : bool then with_workload (rs_wmac s) ({[ro_id op]} ∪ rs_owned s) s else s in
      (inr (run_rejected "internal_error"), rollbackRunPreparation op s)
  | prepare_retained =>
      (inr (run_rejected "internal_error"), with_sup (releaseCapacity (ro_ref op) (rs_sup held)) held)
  end.

(** The policy half, under the reservation and the lease: the resolved mounts,
    their exposures and the execution identity. *)
Definition resolve_plan (r : option reservation_ref) (req : runRequest) (session : Session) (snapshot : sessionFilesystemSnapshot)
    : HR (run_state W) (list resolvedMount * list sessionFilesystemExposure) :=
  resolved ← preparing r (λ _, "invalid_mount") (resolve_mounts h (ss_Workspace session) snapshot [] (rr_Mounts req));
  _ ← preparing r (λ _, "invalid_mount")
        (hp_lift (if overlap_refused (rc_TrustedCAInjection cfg) req then Err (code_error "invalid_mount") else Ok ()));
  plan ← preparing r err_text (hp_lift (exposure_plan snapshot resolved));
  mret (resolved, plan).

Definition resolve_identity (r : option reservation_ref) (session : Session) : HR (run_state W) (Z * Z) := λ s,
  match on_db (resolveSessionExecutionIdentity session) (rs_mac s) with
  | (Ok identity, m) => (inl identity, with_mac m s)
  | (Err _, m) => (inr (run_rejected "internal_error"), releasePreparation r (with_mac m s))
  end.

(** The operation takes the capacity and the lease. *)
Definition new_run_operation (r : option reservation_ref) (session : Session) : HR (run_state W) run_op := λ s,
  let o := fresh (dom (heap (rs_sup s))) in
  let cid := if bool_decide (rc_RuntimeDir cfg ≠ "") then Join [rc_RuntimeDir cfg; w_operationID w +:+ ".cid"] else "" in
  let op := newOperation operationKindRun (w_operationID w) (ss_ID session) (ss_LauncherID session) (w_now w) cid in
  (inl (mkRunOp o (w_operationID w) false [] (w_leaseKey w)), with_sup (transfer o r (set_op o op (rs_sup s))) s).

Definition docker_dir (session : Session) : string := Join [rc_RuntimeDir cfg; "sessions"; ss_ID session; "docker"].

Definition admit_operation (op : run_op) (r : option reservation_ref) : HR (run_state W) () := λ s,
  let '(decision, x) := admitReserved (ro_ref op) r (rs_sup s) in
  if bool_decide (decision = admissionAccepted)
  then (inl (), with_sup (pruneCompleted (w_now w) (rc_RetentionTTL cfg) (rc_MaxCompleted cfg) x) s)
  else (inr (run_rejected (refusal_code decision)), rollbackRunPreparation op (with_sup x s)).

(** The start: a marked operation never starts, and a failure rolls back. *)
Definition start_operation (op : run_op) (args : list string) : HR (run_state W) run_op := λ s,
  let s := match w_marked w with Some reason => with_sup (mark_op reason (ro_ref op) (rs_sup s)) s | None => s end in
  let '(res, x) := startOperationProcess (ro_ref op) (w_start w) (w_now w) (rs_sup s) in
  let s := with_sup x s in
  let failed code s := with_sup (fail_op (ro_ref op) code None None (w_now w) (rs_sup s)).2 s in
  match res with
  | startTerminated =>
      let code := if bool_decide (w_marked w = Some terminationCancelled) then resultCancelled else "docker_run_failed" in
      (inr (run_created (ro_ref op)), failed code (rollbackRunPreparation op s))
  | startErr => (inr (run_created (ro_ref op)), failed "docker_run_failed" (rollbackRunPreparation op s))
  | startOk => (inl op, with_docker (rs_docker s ++ [(ro_ref op, args)]) s)
  end.

Definition handleRun (session : Session) (snapshot : sessionFilesystemSnapshot) (req : runRequest) : HR (run_state W) run_op :=
  shmSizeBytes ← on_result (check_request req);
  r ← (λ s, match reserve (ss_ID session) (ss_LauncherID session) operationKindRun (rs_sup s) with
            | (r, admissionAccepted, x) => (inl r, with_sup x s)
            | (_, decision, x) => (inr (run_rejected (refusal_code decision)), with_sup x s)
            end) : HR (run_state W) (option reservation_ref);
  _ ← (λ s, match AcquireSessionUse (ss_ID session) (ss_Workspace session) (w_leaseKey w) (w_now w) (rs_mac s) with
            | (Ok _, m) => (inl (), with_mac m s)
            | (Err _, m) => (inr (run_rejected "internal_error"), with_sup (Release r (rs_sup s)) (with_mac m s))
            end) : HR (run_state W) ();
  '(resolved, plan) ← resolve_plan r req session snapshot;
  identity ← resolve_identity r session;
  _ ← preparing r (λ _, "internal_error") (hp_lift (if w_docker_dir w then Ok () else Err (code_error "internal_error")));
  op ← new_run_operation r session;
  '(op, pinned) ← pin_sources op 0 resolved;
  '(op, prepared) ← prepare_workload op plan pinned;
  let cid := if bool_decide (rc_RuntimeDir cfg ≠ "") then Join [rc_RuntimeDir cfg; w_operationID w +:+ ".cid"] else "" in
  args ← (λ s, match run_argv cfg req session (w_operationID w) cid (docker_dir session) identity shmSizeBytes plan prepared with
               | Ok args => (inl args, s)
               | Err _ => (inr (run_rejected "internal_error"), rollbackRunPreparation op s)
               end) : HR (run_state W) (list string);
  _ ← admit_operation op r;
  start_operation op args.

(** The completion of the process: the cleanup, then the terminal state. *)
Definition waitRunCompletion (prov : containerProvenance) (op : run_op) (exit : option (option Z)) (duration : string) s : run_state W :=
  let s := cleanupAfterRunProcess prov op s in
  let wasCancelled := match heap (rs_sup s) !! ro_ref op with
                      | Some x => bool_decide (op_reason x = terminationCancelled) | None => false end in
  match exit with
  | None => with_sup (succeed (ro_ref op) (Some duration) (w_now w) (rs_sup s)).2 s
  | Some exitCode =>
      let code := if wasCancelled then resultCancelled
                  else match exitCode with
                       | Some c => if c =? 125 then "docker_run_failed" else "container_exit_nonzero"
                       | None => "docker_run_failed"
                       end in
      with_sup (fail_op (ro_ref op) code exitCode (Some duration) (w_now w) (rs_sup s)).2 s
  end.

End handler.
