(* ===== verification/RunTheory.v ===== *)
(** * RunTheory: what the run handler owes at each of its steps

    A small logic for handlers with early returns, and the ledger of a run: its
    capacity slot, its lease, its pins and its workload MAC state. *)
From S2P Require Import Prelude Filepath AllowedRoots WorkspacePolicy Database SnapshotStore Credential Launcher MacLifecycle MacTheory Session Operation OperationTheory Proc Lifecycle LifecycleTheory DockerMount RunRequest Run.
Local Open Scope Z_scope.

(** ** The capacity slot *)

(** [c] is the run's slot, charged on top of [x0]. *)
Definition slot (b : bool) (x0 : sup) (sid : string) (c : closure_ref) (x : sup) : Prop :=
  capacity_inv x ∧ closures x0 !! c = None ∧ closures x = <[c := mkClosure sid b false]> (closures x0).

Definition freed (x0 x : sup) : Prop :=
  capacity_inv x ∧ ∀ P, live_count P (closures x) = live_count P (closures x0).

Lemma freed_counts x0 x : capacity_inv x0 → freed x0 x →
  globalRunning x = globalRunning x0 ∧ globalBuildCount x = globalBuildCount x0 ∧ ∀ sid, session_count x sid = session_count x0 sid.
Proof.
  intros H0 [Hi Hl]. rewrite (ci_global _ Hi), (ci_global _ H0), (ci_builds _ Hi), (ci_builds _ H0), !Hl. split_and!; [done..|].
  intros sid. by rewrite (ci_session _ Hi), (ci_session _ H0), Hl.
Qed.

Lemma slot_counts b x0 sid c x : capacity_inv x0 → slot b x0 sid c x →
  globalRunning x = globalRunning x0 + 1 ∧ globalBuildCount x = globalBuildCount x0 + (if b then 1 else 0) ∧
  ∀ sid', session_count x sid' = session_count x0 sid' + if decide (sid = sid') then 1 else 0.
Proof.
  intros H0 (Hi & Hc & Ec). rewrite (ci_global _ Hi), (ci_global _ H0), (ci_builds _ Hi), (ci_builds _ H0), Ec, !live_insert by done.
  split_and!; [simpl; lia|simpl; destruct b; lia|]. intros sid'. rewrite (ci_session _ Hi), (ci_session _ H0), Ec, live_insert by done.
  unfold of_session. simpl. case_bool_decide; case_decide; try done; lia.
Qed.

Lemma slot_released b x0 sid c x x' :
  slot b x0 sid c x → capacity_inv x' → closures x' = <[c := mkClosure sid b true]> (closures x) → freed x0 x'.
Proof.
  intros (_ & Hc & Ec) Hi Ex'. split; [done|]. intros P. rewrite Ex', Ec.
  pose proof (live_released P (<[c := mkClosure sid b false]> (closures x0)) c (mkClosure sid b false)) as H.
  rewrite live_insert in H by done. specialize (H (lookup_insert_eq _ _ _) eq_refl). simpl in H. lia.
Qed.

Lemma release_slot b x0 sid c r x :
  slot b x0 sid c x → reservations x !! r = Some (Some c) →
  freed x0 (Release (Some r) x) ∧ ops (Release (Some r) x) = ops x.
Proof.
  intros Hs Hr. pose proof Hs as (Hi & Hc & Ec).
  assert (Hcl : closures x !! c = Some (mkClosure sid b false)) by (rewrite Ec; apply lookup_insert_eq).
  split; [eapply slot_released; [exact Hs|by apply capacity_inv_Release|]|]; simpl; rewrite Hr;
    by rewrite (call_release_live _ _ _ Hcl).
Qed.

Lemma slot_view b x0 sid c x x' : slot b x0 sid c x → capacity_inv x' → closures x' = closures x → slot b x0 sid c x'.
Proof. intros (_ & ? & E) Hi Ec. split_and!; [done..|]. by rewrite Ec. Qed.

Lemma release_op_slot b x0 sid c o op x :
  slot b x0 sid c x → heap x !! o = Some op → op_capacityRelease op = Some c →
  freed x0 (releaseCapacity o x) ∧ ops (releaseCapacity o x) = ops x ∧
  heap (releaseCapacity o x) = <[o := with_capacityRelease None op]> (heap x).
Proof.
  intros Hs Ho Hop. pose proof Hs as (Hi & Hc & Ec).
  assert (Hcl : closures x !! c = Some (mkClosure sid b false)) by (rewrite Ec; apply lookup_insert_eq).
  pose proof (capacity_inv_releaseCapacity o x Hi) as Hi'.
  unfold releaseCapacity in *. rewrite Ho, Hop, (call_release_live _ _ _ Hcl eq_refl) in Hi'.
  rewrite Ho, Hop, (call_release_live _ _ _ Hcl eq_refl). split; [|done]. by eapply slot_released.
Qed.

(** A reservation charges one fresh slot. *)
Lemma reserve_slot sid lid kind x r x' :
  capacity_inv x → reserve sid lid kind x = (r, admissionAccepted, x') →
  ∃ c r0, r = Some r0 ∧ slot (bool_decide (kind = operationKindBuild)) x sid c x' ∧ reservations x' !! r0 = Some (Some c) ∧ ops x' = ops x ∧ heap x' = heap x ∧
    shutting x' = shutting x ∧ quiesced x' = quiesced x.
Proof.
  intros Hi Hr. pose proof (capacity_inv_step x _ Hi (step_reserve x sid lid kind)) as Hi'. rewrite Hr in Hi'. simpl in Hi'.
  unfold reserve in Hr. destruct (shutting x) eqn:Esh; [done|]. destruct (default false _); [done|]. unfold reserveCapacityLocked in Hr.
  destruct (_ <=? _); [done|]. destruct (_ <=? _); [done|]. destruct (_ && _); [done|]. simpl in Hr. injection Hr as <- <-.
  exists (fresh (dom (closures x))), (fresh (dom (reservations x))). split; [done|].
  split; [split; [exact Hi'|split; [|done]]; apply not_elem_of_dom, is_fresh|]. split; [apply lookup_insert_eq|by split_and!].
Qed.

Lemma reserve_refused sid lid kind x r d x' : reserve sid lid kind x = (r, d, x') → d ≠ admissionAccepted → x' = x.
Proof.
  unfold reserve, reserveCapacityLocked. intros H Hd. by repeat case_match; simplify_eq.
Qed.

(** ** Pruning and failing *)

Lemma prune_set_ops now ttl n x : ∃ m, pruneCompleted now ttl n x = set_ops m x.
Proof.
  unfold pruneCompleted. generalize (prune_victims now ttl n (completed_ops x)). intros vs.
  assert (H : ∀ m, ∃ m', foldl prune_remove (set_ops m x) vs = set_ops m' x).
  { induction vs as [|v vs IH]; intros m; [by exists m|]. simpl.
    assert (∃ m2, prune_remove (set_ops m x) v = set_ops m2 x) as [m2 ->]; [|apply IH].
    unfold prune_remove. destruct (heap (set_ops m x) !! v) as [op|]; [|by exists m].
    case_bool_decide; [by eexists|by exists m]. }
  specialize (H (ops x)). by destruct x.
Qed.

(** Pruning keeps a running operation registered. *)
Lemma prune_keeps now ttl n x id o op :
  ops x !! id = Some o → heap x !! o = Some op → op_State op = operationRunning → ops (pruneCompleted now ttl n x) !! id = Some o.
Proof.
  intros Hid Ho Hrun. unfold pruneCompleted.
  assert (Hv : o ∉ prune_victims now ttl n (completed_ops x)).
  { intros Hv. assert (∃ t, (o, t) ∈ completed_ops x) as [t Ht].
    { unfold prune_victims in Hv. apply elem_of_app in Hv as [Hv|Hv]; apply list_elem_of_fmap in Hv as ([o' t] & -> & Hv); exists t.
      - by apply list_elem_of_filter in Hv as [_ ?].
      - case_decide; [|by apply not_elem_of_nil in Hv]. apply elem_of_take in Hv as (i & Hi & _). apply list_elem_of_lookup_2 in Hi.
        rewrite merge_sort_Permutation in Hi. by apply list_elem_of_filter in Hi as [_ ?]. }
    apply list_elem_of_omap in Ht as (o' & _ & Ht). destruct (heap x !! o') as [op'|] eqn:E; [|done].
    destruct (decide (op_State op' ≠ operationRunning)) as [Hd|Hd]; [rewrite bool_decide_true in Ht by done|by rewrite bool_decide_false in Ht].
    destruct (op_CompletedAt op'); simplify_eq/=. }
  revert Hv. generalize (prune_victims now ttl n (completed_ops x)). intros vs. revert x Hid Ho.
  induction vs as [|v vs IH]; intros x Hid Ho Hv; [done|]. simpl.
  apply not_elem_of_cons in Hv as [Hne Hv].
  apply IH; [| |done]; unfold prune_remove; destruct (heap x !! v) as [opv|]; [|done| |done].
  - case_bool_decide as Hm; [|done]. simpl. rewrite lookup_delete_ne; [done|]. intros E. rewrite E in Hm. congruence.
  - by case_bool_decide.
Qed.

Lemma fail_freed x0 x o op code ex d now :
  freed x0 x → heap x !! o = Some op → op_capacityRelease op = None → op_CompletedAt op = None → op_ResultCode op = None →
  let x' := (fail_op o code ex d now x).2 in
  freed x0 x' ∧ ops x' = ops x ∧
  ∃ op', heap x' !! o = Some op' ∧ op_State op' = operationFailed ∧ op_ResultCode op' = Some code ∧
         op_done op' = chan_closed ∧ op_CompletedAt op' = Some now.
Proof.
  intros [Hi Hl] Ho Hc Hct Hrc. pose proof (fail_inv o code ex d now x Hi) as Hi'. revert Hi'.
  unfold fail_op. rewrite Ho, Hct, Hrc. cbn [snd]. set (op' := with_terminal _ _ _ _ _ op). intros Hi'.
  destruct (complete_spec o op' x) as (Eh & Eo & _). split_and!.
  - split; [done|]. intros P. rewrite <-Hl. f_equal. unfold finish, releaseCapacity. simpl. rewrite lookup_insert_eq. simpl. rewrite Hc.
    simpl. by rewrite lookup_insert_eq.
  - done.
  - rewrite Eh. eexists. split; [apply lookup_insert_eq|]. by split_and!.
Qed.

(** The terminal transition of an operation that holds the slot. *)
Lemma complete_slot b x0 sid c o op op' x :
  slot b x0 sid c x → heap x !! o = Some op → op_capacityRelease op = Some c → op_capacityRelease op' = Some c →
  let x' := finish o (releaseCapacity o (set_op o op' x)) in
  freed x0 x' ∧ ops x' = ops x ∧ heap x' !! o = Some (with_done chan_closed (with_capacityRelease None op')).
Proof.
  intros Hs Ho Hc Hc' x'. destruct (complete_spec o op' x) as (Eh & Eo & _). fold x' in Eh, Eo. split_and!.
  - pose proof Hs as (Hi & _ & Ec). eapply slot_released; [exact Hs|eapply capacity_inv_complete; [exact Hi|exact Ho|by rewrite Hc]|].
    assert (Hcl : closures x !! c = Some (mkClosure sid b false)) by (rewrite Ec; apply lookup_insert_eq).
    unfold x', finish, releaseCapacity. simpl. rewrite lookup_insert_eq, Hc'.
    rewrite (call_release_live c (mkClosure sid b false)) by done. simpl. by rewrite lookup_insert_eq.
  - done.
  - rewrite Eh. apply lookup_insert_eq.
Qed.

(** ** Handlers with early returns *)

Section logic.
Context {S : Type}.
Implicit Types s : S.

Definition hr {A} (P : S → Prop) (m : HR S A) (Q : A → S → Prop) (E : run_response → S → Prop) : Prop :=
  ∀ s, P s → match m s with (inl a, s') => Q a s' | (inr r, s') => E r s' end.

Lemma hr_ret_ {A} (a : A) P (Q : A → S → Prop) E : (∀ s, P s → Q a s) → hr P (mret a) Q E.
Proof. intros H s Hs. by apply H. Qed.

Lemma hr_bind_ {A B} P (m : HR S A) (k : A → HR S B) Q T E :
  hr P m Q E → (∀ a, hr (Q a) (k a) T E) → hr P (m ≫= k) T E.
Proof.
  intros Hm Hk s Hs. specialize (Hm s Hs). unfold mbind, hr_bind. destruct (m s) as [[a|r] s']; [|done]. by apply Hk.
Qed.

Lemma hr_pre {A} (P P' : S → Prop) (m : HR S A) Q E : hr P' m Q E → (∀ s, P s → P' s) → hr P m Q E.
Proof. intros H HP s Hs. by apply H, HP. Qed.

Lemma hr_pure {A} (F : Prop) (P : S → Prop) (m : HR S A) Q E : (∀ s, P s → F) → (F → hr P m Q E) → hr P m Q E.
Proof. intros HF Hm s Hs. by apply Hm; [eapply HF|]. Qed.

Lemma hr_ex {A X} (P : X → S → Prop) (m : HR S A) Q E : (∀ x, hr (P x) m Q E) → hr (λ s, ∃ x, P x s) m Q E.
Proof. intros Hm s [x Hs]. by eapply Hm. Qed.

Lemma hr_conseq {A} P (m : HR S A) (Q Q' : A → S → Prop) E E' :
  hr P m Q E → (∀ a s, Q a s → Q' a s) → (∀ r s, E r s → E' r s) → hr P m Q' E'.
Proof. intros H HQ HE s Hs. specialize (H s Hs). destruct (m s) as [[a|r] s']; auto. Qed.

End logic.

(** ** The ledger *)

Section ledger.
Context {W : Type} `{!sessionMACDriver W} (h : host) (cfg : run_config) (w : run_world).
Implicit Types s : run_state W.

(** What the request draws is new. *)
Record fresh_run (s0 : run_state W) : Prop := {
  fr_capacity : capacity_inv (rs_sup s0);
  fr_lease : sessionUseLeases (rs_mac s0) !! w_leaseKey w = None;
  fr_once : w_leaseKey w ∉ releasedOnce (rs_mac s0);
  fr_pins : ∀ i, (w_operationID w, i) ∉ rs_pins s0;
  fr_wmac : w_operationID w ∉ rs_wmac s0;
  fr_owned : w_operationID w ∉ rs_owned s0 }.

Context (s0 : run_state W) (Hfresh : fresh_run s0).

Definition resources_kept s : Prop :=
  rs_pins s = rs_pins s0 ∧ rs_wmac s = rs_wmac s0 ∧ rs_owned s = rs_owned s0 ∧
  sessionUseLeases (rs_mac s) = sessionUseLeases (rs_mac s0).

(** A cleanup stage failed, or the backend retained its state. *)
Definition incomplete : Prop :=
  w_mac_cleanup w = false ∨ w_remove_state w = false ∨ (∃ i, w_unpin w i = false) ∨
  ∃ plan pinned, w_prepare w plan pinned = prepare_retained.

(** The refusal gave everything back; or the lease of the Session, on which
    what is left depends, is still held. *)
Definition given_back s : Prop :=
  rs_docker s = rs_docker s0 ∧ freed (rs_sup s0) (rs_sup s) ∧
  (resources_kept s ∨ (is_Some (sessionUseLeases (rs_mac s) !! w_leaseKey w) ∧ incomplete)).

(** A refusal registers nothing. *)
Definition refused (resp : run_response) s : Prop :=
  (∃ code, resp = run_rejected code) ∧ given_back s ∧ ops (rs_sup s) = ops (rs_sup s0).

Lemma untouched_refused code s :
  rs_docker s = rs_docker s0 → rs_sup s = rs_sup s0 → resources_kept s → refused (run_rejected code) s.
Proof.
  intros Hd Hs Hk. split; [by eexists|]. rewrite Hs. split; [|done]. split; [done|]. split; [|by left].
  rewrite Hs. split; [apply Hfresh|done].
Qed.

Record leased sid c r (cov : list sessionMACCoverage) s : Prop := {
  ls_docker : rs_docker s = rs_docker s0;
  ls_slot : slot false (rs_sup s0) sid c (rs_sup s);
  ls_reservation : reservations (rs_sup s) !! r = Some (Some c);
  ls_ops : ops (rs_sup s) = ops (rs_sup s0);
  ls_leases : sessionUseLeases (rs_mac s) = <[w_leaseKey w := cov]> (sessionUseLeases (rs_mac s0));
  ls_once : w_leaseKey w ∉ releasedOnce (rs_mac s);
  ls_db : m_db (rs_mac s) = m_db (rs_mac s0);
  ls_rest : rs_pins s = rs_pins s0 ∧ rs_wmac s = rs_wmac s0 ∧ rs_owned s = rs_owned s0 }.

Definition own_pins (l : list nat) : gset (string * nat) := list_to_set ((λ i, (w_operationID w, i)) <$> l).
Definition own_id (b : bool) : gset string := if b then {[w_operationID w]} else ∅.

(** What the operation holds besides its slot. *)
Record holding (cov : list sessionMACCoverage) (op : run_op) s : Prop := {
  ho_leases : sessionUseLeases (rs_mac s) = <[w_leaseKey w := cov]> (sessionUseLeases (rs_mac s0));
  ho_once : w_leaseKey w ∉ releasedOnce (rs_mac s);
  ho_id : ro_id op = w_operationID w ∧ ro_lease op = w_leaseKey w;
  ho_pins : rs_pins s = own_pins (ro_pins op) ∪ rs_pins s0;
  ho_mac : rs_wmac s = own_id (ro_prepared op) ∪ rs_wmac s0 ∧ ∃ b, rs_owned s = own_id b ∪ rs_owned s0 }.

Record prepared sid c cov (op : run_op) s : Prop := {
  pr_docker : rs_docker s = rs_docker s0;
  pr_slot : slot false (rs_sup s0) sid c (rs_sup s);
  pr_op : ∃ x, heap (rs_sup s) !! ro_ref op = Some x ∧ op_capacityRelease x = Some c ∧ op_CompletedAt x = None;
  pr_holding : holding cov op s }.

Lemma lease_freed cov m : 
  sessionUseLeases m = <[w_leaseKey w := cov]> (sessionUseLeases (rs_mac s0)) → w_leaseKey w ∉ releasedOnce m →
  sessionUseLeases (releaseLease (w_leaseKey w) m) = sessionUseLeases (rs_mac s0).
Proof.
  intros El Ho. destruct (quiet_lease (w_leaseKey w) m Ho) as (_ & _ & ->). rewrite El, delete_insert_id; [done|apply Hfresh].
Qed.

Lemma release_preparation_back sid c r cov code s : leased sid c r cov s → refused (run_rejected code) (releasePreparation w (Some r) s).
Proof.
  intros [H1 H2 H3 H4 H5 H6 _ (H7 & H8 & H9)]. unfold releasePreparation. split; [by eexists|]. split; [split; [|split]|].
  - done.
  - by eapply release_slot.
  - left. split_and!; [done..|]. simpl. by eapply lease_freed.
  - cbn [rs_sup with_sup]. by rewrite (proj2 (release_slot _ _ _ _ _ _ H2 H3)).
Qed.

Lemma preparing_hr {A} sid c r cov code (m : HP A) :
  hr (leased sid c r cov) (preparing w (Some r) code m) (λ a s, leased sid c r cov s ∧ ∃ l l', m l = (Ok a, l')) refused.
Proof.
  intros s Hs. unfold preparing. destruct (m (rs_probes s)) as [[a|e] l] eqn:E.
  - split; [|by eauto]. by destruct Hs.
  - eapply release_preparation_back with (s := with_probes l s). by destruct Hs.
Qed.

(** The identity is that of the Principal who owns the Session's Launcher. *)
Lemma identity_hr sid c r cov session :
  hr (leased sid c r cov) (resolve_identity w (Some r) session)
    (λ identity s, leased sid c r cov s ∧ ∃ l p, launcher_join (ss_LauncherID session) (m_db (rs_mac s0)) = Some (l, p) ∧ identity = (p_uid p, p_gid p))
    refused.
Proof.
  intros s Hs. pose proof (ls_db _ _ _ _ _ Hs) as Hd.
  unfold resolve_identity, on_db, resolveSessionExecutionIdentity, wrapf, mbind, db_bind.
  destruct (query (launcher_join (ss_LauncherID session)) (m_db (rs_mac s)) (m_faults (rs_mac s))) as [[[row|e] d] f] eqn:E.
  - apply query_ok in E as (-> & -> & ->). destruct (launcher_join _ _) as [[l p]|] eqn:Ej.
    + cbn. split; [by destruct Hs|]. exists l, p. by rewrite <-Hd.
    + eapply release_preparation_back with (s := with_mac _ s). by destruct Hs.
  - assert (Ed : d = m_db (rs_mac s)) by (pose proof (reads_query (launcher_join (ss_LauncherID session)) (m_db (rs_mac s)) (m_faults (rs_mac s))) as Hq; by rewrite E in Hq).
    subst d. eapply release_preparation_back with (s := with_mac _ s). by destruct Hs.
Qed.

(** ** The rollback *)

Lemma own_pins_gone l : own_pins l ∪ rs_pins s0 ∖ own_pins l = own_pins l ∪ rs_pins s0.
Proof. apply set_eq. intros x. destruct (decide (x ∈ own_pins l)); set_solver. Qed.

Lemma pins_back l : (∀ i, i ∈ l → w_unpin w i = true) →
  (own_pins l ∪ rs_pins s0) ∖ list_to_set ((λ i, (w_operationID w, i)) <$> filter (λ i, Is_true (w_unpin w i)) (reverse l)) = rs_pins s0.
Proof.
  intros Hall. apply set_eq. intros [x i]. unfold own_pins. rewrite elem_of_difference, elem_of_union, !elem_of_list_to_set.
  split.
  - intros [[Hx|Hx] Hn]; [|done]. exfalso. apply Hn. apply list_elem_of_fmap in Hx as (j & [= -> ->] & Hj).
    apply list_elem_of_fmap. exists j. split; [done|]. apply list_elem_of_filter. split; [by rewrite Hall|]. by apply elem_of_reverse.
  - intros Hx. split; [by right|]. intros (j & [= -> ->] & _)%list_elem_of_fmap. by apply (fr_pins _ Hfresh j).
Qed.

Lemma ids_back b (X : gset string) : w_operationID w ∉ X → (own_id b ∪ X) ∖ {[w_operationID w]} = X.
Proof. intros Hn. destruct b; simpl; apply set_eq; intros x; set_solver. Qed.

(** The stages that follow the capacity or the container proof. *)
Definition tail_stages (op : run_op) : list (cleanupStage (run_state W → bool * run_state W)) := tail (rollback_stages w op).

Lemma tail_back cov op s :
  holding cov op s →
  let '(failed, s') := run_sequence (tail_stages op) s in
  rs_docker s' = rs_docker s ∧ rs_sup s' = rs_sup s ∧
  match failed with
  | None => resources_kept s' ∧ (ro_prepared op = true → w_mac_cleanup w = true) ∧
            (∀ i, i ∈ ro_pins op → w_unpin w i = true) ∧ w_remove_state w = true
  | Some _ => sessionUseLeases (rs_mac s') = sessionUseLeases (rs_mac s) ∧
              ((ro_prepared op = true ∧ w_mac_cleanup w = false) ∨ (∃ i, i ∈ ro_pins op ∧ w_unpin w i = false) ∨ w_remove_state w = false)
  end.
Proof.
  intros [H5 H6 [Hid Hkey] H7 [H8 [b H9]]]. unfold tail_stages, rollback_stages. cbn [tail run_sequence cs_run cs_name].
  destruct (if ro_prepared op then mac_cleanup_stage w (ro_id op) s else (true, s)) as [ok s2] eqn:E2.
  assert (Hs2 : rs_docker s2 = rs_docker s ∧ rs_sup s2 = rs_sup s ∧ rs_mac s2 = rs_mac s ∧ rs_pins s2 = rs_pins s ∧ rs_owned s2 = rs_owned s ∧
     if ok then rs_wmac s2 = rs_wmac s0 ∧ (ro_prepared op = true → w_mac_cleanup w = true) else ro_prepared op = true ∧ w_mac_cleanup w = false).
  { rewrite Hid in E2. destruct (ro_prepared op) eqn:Ep.
    - unfold mac_cleanup_stage in E2. destruct (w_mac_cleanup w); injection E2 as <- <-; [|done].
      split_and!; [done..| |done]. simpl. rewrite H8. by apply ids_back, Hfresh.
    - injection E2 as <- <-. split_and!; [done..| |done]. simpl. rewrite H8. simpl. by rewrite union_empty_l_L. }
  destruct Hs2 as (D2 & S2 & M2 & P2 & O2 & K2). destruct ok; [destruct K2 as [K2 K2']|by rewrite M2; auto].
  destruct (cleanupPinnedMounts w (ro_id op) (ro_pins op) s2) as [ok s3] eqn:E3. unfold cleanupPinnedMounts in E3. injection E3 as Eok <-.
  destruct ok.
  2: { split_and!; [done..|by simpl; rewrite M2|right; left]. apply not_true_iff_false in Eok. rewrite forallb_forall in Eok.
       destruct (decide (Forall (λ i, w_unpin w i = true) (ro_pins op))) as [Hf|Hf].
       - destruct Eok. intros i Hi. rewrite Forall_forall in Hf. apply Hf. by apply list_elem_of_In.
       - apply not_Forall_Exists in Hf; [|solve_decision]. apply Exists_exists in Hf as (i & Hin & Hi). exists i. split; [done|]. by apply not_true_iff_false. }
  rewrite forallb_forall in Eok. assert (Hun : ∀ i, i ∈ ro_pins op → w_unpin w i = true) by (intros i Hi; by apply Eok, list_elem_of_In).
  set (s3 := with_pins _ s2). unfold removeWorkloadMACState. destruct (w_remove_state w) eqn:Erm.
  2: { split_and!; [done..|by simpl; rewrite M2|by right; right]. }
  cbn [release_lease_stage cidfile_stage]. split_and!; [done..| |done|done|done].
  split_and!; simpl.
  - rewrite P2, H7, Hid. by apply pins_back.
  - exact K2.
  - rewrite O2, H9, Hid. by apply ids_back, Hfresh.
  - rewrite M2, Hkey. by eapply lease_freed.
Qed.

Lemma rollback_eq op s :
  rollbackRunPreparation w op s = (run_sequence (tail_stages op) (with_sup (releaseCapacity (ro_ref op) (rs_sup s)) s)).2.
Proof.
  unfold rollbackRunPreparation.
  assert (E : run_stages (rollback_stages w op) s = Some (run_sequence (tail_stages op) (with_sup (releaseCapacity (ro_ref op) (rs_sup s)) s))) by reflexivity.
  rewrite E. by destruct (run_sequence _ _).
Qed.

Lemma rollback_back sid c cov op s :
  prepared sid c cov op s →
  given_back (rollbackRunPreparation w op s) ∧ ops (rs_sup (rollbackRunPreparation w op s)) = ops (rs_sup s) ∧
  ∃ x, heap (rs_sup s) !! ro_ref op = Some x ∧ heap (rs_sup (rollbackRunPreparation w op s)) !! ro_ref op = Some (with_capacityRelease None x).
Proof.
  intros [H1 H2 (x & Hx & Hcap & Hct) Hh]. rewrite rollback_eq.
  destruct (release_op_slot _ _ _ _ _ _ _ H2 Hx Hcap) as (Hfr & Hops & Hheap).
  set (x1 := releaseCapacity (ro_ref op) (rs_sup s)) in *.
  assert (Hh' : holding cov op (with_sup x1 s)) by (by destruct Hh). pose proof (ho_leases _ _ _ Hh) as Hl.
  pose proof (tail_back cov op _ Hh') as Ht. destruct (run_sequence _ _) as [failed s']. cbn [snd].
  destruct Ht as (Hd & Hs & Hf). cbn [rs_sup with_sup] in Hs. rewrite Hs. split; [split; [|split]|split].
  - by rewrite Hd.
  - by rewrite Hs.
  - destruct failed; [right|left; apply Hf]. destruct Hf as [Hm Hinc]. cbn [rs_mac with_sup] in Hm. rewrite Hm, Hl, lookup_insert_eq.
    split; [done|]. destruct Hinc as [[_ ?]|[(i & _ & ?)|?]]; [by left|right; right; left; by exists i|by right; left].
  - done.
  - exists x. split; [done|]. rewrite Hheap. apply lookup_insert_eq.
Qed.

(** ** The steps up to the admission *)

(** An operation that no one has marked, started or completed. *)
Definition waiting (x : operation) : Prop :=
  op_State x = operationRunning ∧ op_ID x = w_operationID w ∧ op_terminated x = false ∧ op_started x = false ∧
  op_reason x = terminationNone ∧ op_ResultCode x = None ∧ op_CompletedAt x = None.

Definition unadmitted (o : op_ref) (r : reservation_ref) s : Prop :=
  ops (rs_sup s) = ops (rs_sup s0) ∧ reservations (rs_sup s) !! r = Some None ∧
  ∃ x, heap (rs_sup s) !! o = Some x ∧ waiting x.

Lemma new_operation_hr sid c r cov (session : Session) :
  hr (leased sid c r cov) (new_run_operation cfg w (Some r) session)
    (λ op s, prepared sid c cov op s ∧ unadmitted (ro_ref op) r s ∧ ro_prepared op = false) refused.
Proof.
  intros s [H1 (Hi & Hc & Ec) H3 H4 H5 H6 _ (H7 & H8 & H9)]. unfold new_run_operation.
  set (o := fresh (dom (heap (rs_sup s)))). set (op := newOperation _ _ _ _ _ _).
  assert (Ho : heap (rs_sup s) !! o = None) by apply not_elem_of_dom, is_fresh.
  set (x1 := set_op o op (rs_sup s)).
  assert (Hi1 : capacity_inv x1) by (eapply capacity_inv_step; [exact Hi|by apply step_new]).
  assert (Hx1 : heap x1 !! o = Some op) by apply lookup_insert_eq.
  assert (Hi2 : capacity_inv (transfer o (Some r) x1)) by (eapply capacity_inv_step; [exact Hi1|by eapply step_transfer]).
  assert (Et : transfer o (Some r) x1 = set_reservations (<[r := None]> (reservations x1)) (set_op o (with_capacityRelease (Some c) op) x1)).
  { unfold transfer. change (reservations x1) with (reservations (rs_sup s)). rewrite H3. by rewrite Hx1. }
  assert (Hx2 : heap (transfer o (Some r) x1) !! o = Some (with_capacityRelease (Some c) op)) by (rewrite Et; apply lookup_insert_eq).
  assert (Hcl : closures (transfer o (Some r) x1) = closures (rs_sup s)) by (by rewrite Et).
  assert (Hop : ops (transfer o (Some r) x1) = ops (rs_sup s)) by (by rewrite Et).
  assert (Hre : reservations (transfer o (Some r) x1) !! r = Some None) by (rewrite Et; apply lookup_insert_eq).
  clear Et. change (set_op o op (rs_sup s)) with x1. set (x2 := transfer o (Some r) x1) in *. clearbody x2.
  split_and!; [|split_and!|done].
  - split; [exact H1|split; [done|split; [done|by simpl; rewrite Hcl]]|by eexists|]. split; simpl; [exact H5|exact H6|done| |].
    + rewrite H7. unfold own_pins. simpl. by rewrite union_empty_l_L.
    + rewrite H8, H9. unfold own_id. simpl. split; [by rewrite union_empty_l_L|exists false; simpl; by rewrite union_empty_l_L].
  - simpl. by rewrite Hop.
  - done.
  - eexists. split; [exact Hx2|]. by split_and!.
Qed.

Lemma pin_sources_hr sid c r cov op i mounts :
  hr (λ s, prepared sid c cov op s ∧ unadmitted (ro_ref op) r s ∧ ro_prepared op = false) (pin_sources w op i mounts)
    (λ res s, prepared sid c cov res.1 s ∧ unadmitted (ro_ref res.1) r s ∧ ro_prepared res.1 = false ∧ ro_ref res.1 = ro_ref op ∧
       length res.2 = length mounts ∧
       ∀ j p, res.2 !! j = Some p → ∃ m, mounts !! j = Some m ∧ w_pin w (i + j) (rm_SourcePath m) = Some p) refused.
Proof.
  revert op i. induction mounts as [|m mounts IH]; intros op i; cbn [pin_sources].
  { apply hr_ret_. intros s (H1 & H2 & H3). split_and!; [done..|]. intros j p. simpl. by rewrite lookup_nil. }
  destruct (w_pin w i (rm_SourcePath m)) as [pinned|] eqn:Epin.
  2: { intros s (Hp & (Hops & _) & _). destruct (rollback_back _ _ _ _ _ Hp) as (Hg & Ho & _). split_and!; [by eexists|done|]. by rewrite Ho. }
  set (op' := mkRunOp (ro_ref op) (ro_id op) (ro_prepared op) (ro_pins op ++ [i]) (ro_lease op)).
  eapply hr_bind_ with (Q := λ _ s, prepared sid c cov op' s ∧ unadmitted (ro_ref op') r s ∧ ro_prepared op' = false).
  - intros s (Hp & Hu & Hn). split_and!; [|exact Hu|done]. destruct Hp as [A1 A2 A3 [A4 A5 [A6 A6'] A7 A8]].
    split; [done..|]. split; simpl; [done..| |done]. rewrite A7, A6. unfold own_pins. rewrite fmap_app, list_to_set_app_L. simpl. set_solver.
  - intros []. eapply hr_bind_; [apply IH|]. intros [op2 l]. apply hr_ret_. simpl.
    intros s (H1 & H2 & H3 & H4 & H5 & H6). split_and!; [done..|by rewrite H5|].
    intros [|j] p; simpl; [intros [= <-]; exists m; by rewrite Nat.add_0_r|]. intros Hj. rewrite Nat.add_succ_r. by apply H6.
Qed.

Lemma prepare_hr sid c r cov op plan pinned :
  hr (λ s, prepared sid c cov op s ∧ unadmitted (ro_ref op) r s ∧ ro_prepared op = false) (prepare_workload w op plan pinned)
    (λ res s, prepared sid c cov res.1 s ∧ unadmitted (ro_ref res.1) r s ∧ ro_prepared res.1 = true ∧
       w_prepare w plan pinned = prepare_ok res.2) refused.
Proof.
  intros s (Hp & Hu & Hn). unfold prepare_workload.
  pose proof Hp as [A1 A2 A3 [A4 A5 [A6 A6'] A7 [A8 [b A9]]]].
  assert (Hold : ∀ b' : bool, own_id b' ∪ rs_owned s = own_id (b' || b) ∪ rs_owned s0).
  { intros b'. rewrite A9. destruct b', b; simpl; set_solver. }
  destruct (w_prepare w plan pinned) as [pr|recorded|] eqn:E; cbv zeta.
  - split_and!; [|exact Hu|done..]. split; [done..|]. split; simpl; [done..|]. rewrite A8, Hn, A6. simpl.
    split; [by rewrite union_empty_l_L|]. exists true. apply (Hold true).
  - assert (Hp' : prepared sid c cov op (if recorded then with_workload (rs_wmac s) ({[ro_id op]} ∪ rs_owned s) s else s)).
    { destruct recorded; [|done]. split; [done..|]. split; simpl; [done..|]. split; [done|]. exists true. rewrite A6. apply (Hold true). }
    assert (Ho' : ops (rs_sup (if recorded then with_workload (rs_wmac s) ({[ro_id op]} ∪ rs_owned s) s else s)) = ops (rs_sup s)) by (by destruct recorded).
    destruct (rollback_back _ _ _ _ _ Hp') as (Hg & Ho & _). split; [by eexists|]. split; [done|]. by rewrite Ho, Ho', (proj1 Hu).
  - destruct A3 as (x & Hx & Hcap & _).
    destruct (release_op_slot _ _ _ _ _ _ _ A2 Hx Hcap) as (Hfr & Hops & _). split; [by eexists|]. split; [split_and!|simpl; by rewrite Hops, (proj1 Hu)].
    + done.
    + done.
    + right. simpl. rewrite A4, lookup_insert_eq. split; [done|]. right; right; right. by eexists _, _.
Qed.

(** ** Admission and start *)

Definition admitted (o : op_ref) s : Prop :=
  ops (rs_sup s) !! w_operationID w = Some o ∧ ∃ x, heap (rs_sup s) !! o = Some x ∧ waiting x.

Lemma prepared_sup sid c cov op s x :
  prepared sid c cov op s → capacity_inv x → closures x = closures (rs_sup s) →
  (∃ y, heap x !! ro_ref op = Some y ∧ op_capacityRelease y = Some c ∧ op_CompletedAt y = None) → prepared sid c cov op (with_sup x s).
Proof. intros [A1 A2 A3 A4] Hi Ec Hy. split; [done|by eapply slot_view|done|by destruct A4]. Qed.

Lemma admit_hr sid c r cov op :
  hr (λ s, prepared sid c cov op s ∧ unadmitted (ro_ref op) r s) (admit_operation cfg w op (Some r))
    (λ _ s, prepared sid c cov op s ∧ admitted (ro_ref op) s) refused.
Proof.
  intros s [Hp (Hops & Hr & x & Hx & Hw)]. unfold admit_operation, admitReserved. rewrite Hx.
  assert (Hrej : ∀ code, refused (run_rejected code) (rollbackRunPreparation w op (with_sup (rs_sup s) s))).
  { assert (Hp' : prepared sid c cov op (with_sup (rs_sup s) s)) by (by destruct Hp as [??? []]).
    destruct (rollback_back _ _ _ _ _ Hp') as (Hg & Ho & _). intros code. split; [by eexists|]. split; [done|]. rewrite Ho. exact Hops. }
  destruct (shutting _); [apply Hrej|]. destruct (default _ _); [apply Hrej|].
  set (x1 := set_ops (<[op_ID x := ro_ref op]> (ops (rs_sup s))) (rs_sup s)).
  assert (Et : transfer (ro_ref op) (Some r) x1 = x1) by (unfold transfer; change (reservations x1) with (reservations (rs_sup s)); by rewrite Hr).
  rewrite Et. cbv beta iota zeta. rewrite bool_decide_true by done.
  assert (Hi1 : capacity_inv x1) by (apply capacity_inv_set_ops, Hp).
  destruct (prune_set_ops (w_now w) (rc_RetentionTTL cfg) (rc_MaxCompleted cfg) x1) as [m Em].
  assert (Hin : ops (pruneCompleted (w_now w) (rc_RetentionTTL cfg) (rc_MaxCompleted cfg) x1) !! w_operationID w = Some (ro_ref op)).
  { eapply prune_keeps; [|exact Hx|apply Hw]. destruct Hw as (_ & Hid & _). simpl. rewrite Hid. apply lookup_insert_eq. }
  rewrite Em in *. split.
  - eapply prepared_sup; [exact Hp|by apply capacity_inv_set_ops|done|]. apply (pr_op _ _ _ _ _ Hp).
  - split; [exact Hin|]. by exists x.
Qed.

(** The process runs: the slot, the lease, the pins and the MAC state are the
    operation's. *)
Record process_running sid c cov (op : run_op) (args : list string) s : Prop := {
  rn_docker : rs_docker s = rs_docker s0 ++ [(ro_ref op, args)];
  rn_slot : slot false (rs_sup s0) sid c (rs_sup s);
  rn_listed : ops (rs_sup s) !! w_operationID w = Some (ro_ref op);
  rn_op : ∃ x, heap (rs_sup s) !! ro_ref op = Some x ∧ op_State x = operationRunning ∧ op_started x = true ∧
    op_reason x = terminationNone ∧ op_ResultCode x = None ∧ op_CompletedAt x = None ∧ op_capacityRelease x = Some c;
  rn_prepared : ro_prepared op = true;
  rn_holding : holding cov op s }.

(** The operation was registered and is terminal. *)
Definition created (resp : run_response) s : Prop :=
  ∃ o x, resp = run_created o ∧ given_back s ∧ ops (rs_sup s) !! w_operationID w = Some o ∧ heap (rs_sup s) !! o = Some x ∧
         op_State x = operationFailed ∧ is_Some (op_ResultCode x) ∧ op_done x = chan_closed.

Lemma abandon_created sid c cov op s code x :
  prepared sid c cov op s → ops (rs_sup s) !! w_operationID w = Some (ro_ref op) →
  heap (rs_sup s) !! ro_ref op = Some x → op_CompletedAt x = None → op_ResultCode x = None →
  let s' := rollbackRunPreparation w op s in
  created (run_created (ro_ref op)) (with_sup (fail_op (ro_ref op) code None None (w_now w) (rs_sup s')).2 s').
Proof.
  intros Hp Hid Hx Hct Hrc s'. destruct (rollback_back _ _ _ _ _ Hp) as ((Hd & Hf & Hres) & Ho & y & Hy & Hy').
  rewrite Hx in Hy. injection Hy as <-. fold s' in Hd, Hf, Hres, Ho, Hy'.
  destruct (fail_freed _ _ _ _ code None None (w_now w) Hf Hy' eq_refl Hct Hrc) as (Hf' & Ho' & z & Hz & Hst & Hzc & Hzd & _).
  exists (ro_ref op), z. split_and!; [done| |by simpl; rewrite Ho', Ho|done..|by rewrite Hzc|done]. by split_and!.
Qed.

Lemma start_hr sid c cov op args :
  ro_prepared op = true →
  hr (λ s, prepared sid c cov op s ∧ admitted (ro_ref op) s) (start_operation w op args)
    (λ op s, process_running sid c cov op args s) created.
Proof.
  intros Hpr s [Hp (Hid & x & Hx & Hw)]. pose proof Hw as (Hst & _ & Hter & Hstd & Hre & Hrc & Hct).
  destruct (pr_op _ _ _ _ _ Hp) as (y & Hy & Hcap & _). rewrite Hx in Hy. injection Hy as <-.
  pose proof (proj1 (pr_slot _ _ _ _ _ Hp)) as Hi. unfold start_operation. destruct (w_marked w) as [reason|].
  - unfold mark_op. rewrite Hx, Hstd, Hre. cbn [negb]. rewrite (bool_decide_true (terminationNone = terminationNone)) by done.
    set (x1 := set_op _ _ _). assert (Hx1 : heap x1 !! ro_ref op = Some (with_mark reason true x)) by apply lookup_insert_eq.
    unfold startOperationProcess. change (rs_sup (with_sup x1 s)) with x1. rewrite Hx1. cbn [op_terminated with_mark].
    cbv beta iota zeta. assert (Hi1 : capacity_inv x1) by (eapply capacity_inv_set_op; [done|exact Hx|done|by left]).
    eapply abandon_created; [|exact Hid|exact Hx1|done..].
    eapply (prepared_sup _ _ _ _ (with_sup x1 s)); [eapply prepared_sup; [exact Hp|done..|]|done..|]; by eexists.
  - unfold startOperationProcess. rewrite Hx, Hter. cbv zeta. set (x1 := set_op _ _ _).
    assert (Hx1 : heap x1 !! ro_ref op = Some (with_start (w_now w) (w_start w) x)) by apply lookup_insert_eq.
    assert (Hi1 : capacity_inv x1) by (eapply capacity_inv_set_op; [done|exact Hx|done|by left]).
    destruct (w_start w) eqn:Es.
    + destruct Hp as [A1 A2 A3 A4]. split; [by simpl; rewrite A1| |exact Hid| |done|by destruct A4].
      * eapply slot_view; [exact A2|by apply capacity_inv_emit|done].
      * eexists. split; [exact Hx1|]. by split_and!.
    + eapply abandon_created; [|exact Hid|exact Hx1|done..]. eapply prepared_sup; [exact Hp|done..|]. by eexists.
Qed.

(** ** Completion *)

Lemma after_eq prov op s : ro_prepared op = true →
  cleanupAfterRunProcess w prov op s =
  if is_ok (proveOperationContainerAbsent prov) then (run_sequence (tail_stages op) s).2 else s.
Proof.
  intros Hp. unfold cleanupAfterRunProcess.
  assert (E : run_stages (after_process_stages w prov op) s =
    Some (if is_ok (proveOperationContainerAbsent prov) then run_sequence (tail_stages op) s else (Some cleanupStageContainerProof, s))).
  { unfold tail_stages, rollback_stages. rewrite Hp. unfold run_stages. simpl. by destruct (is_ok _). }
  rewrite E. destruct (is_ok _); [|done]. by destruct (run_sequence _ _).
Qed.

End ledger.

(** ** The container proof *)

(** No container answers for the operation: there was none, or the only one was
    classified, its removal did not fail, and a later inspection saw none. *)
Definition container_absent (prov : containerProvenance) : Prop :=
  cp_inspect prov = Ok [] ∨
  ∃ container k, cp_inspect prov = Ok [container] ∧ classifyHelperContainerState (hc_State container) ≠ helperStateUnknown ∧
    cp_remove prov (hc_ID container) ≠ remove_failed ∧ cp_after prov !! k = Some (Ok []) ∧
    ∀ j, (j < k)%nat → ∃ l, cp_after prov !! j = Some (Ok l).

Lemma settle_ok l : is_ok (settle l) = true ↔ ∃ k, l !! k = Some (Ok []) ∧ ∀ j, (j < k)%nat → ∃ r, l !! j = Some (Ok r).
Proof.
  induction l as [|[[|c cs]|e] l IH]; simpl.
  - split; [done|]. intros (k & Hk & _). by rewrite lookup_nil in Hk.
  - split; [|done]. intros _. exists 0%nat. split; [done|]. lia.
  - rewrite IH. split.
    + intros (k & Hk & Hj). exists (S k). split; [done|]. intros [|j] Hjk; [by eexists|]. apply Hj. lia.
    + intros ([|k] & Hk & Hj); [done|]. exists k. split; [done|]. intros j Hjk. apply (Hj (S j)). lia.
  - split; [done|]. intros ([|k] & Hk & Hj); [done|]. destruct (Hj 0%nat) as [r Hr]; [lia|]. done.
Qed.

Lemma prove_absent prov : is_ok (proveOperationContainerAbsent prov) = true ↔ container_absent prov.
Proof.
  unfold proveOperationContainerAbsent, container_absent. destruct (cp_inspect prov) as [[|ct [|ct2 cts]]|e]; [naive_solver| |naive_solver..].
  case_bool_decide as Hst; [naive_solver|]. assert (Hs : is_ok (settle (cp_after prov)) = true ∧ cp_remove prov (hc_ID ct) ≠ remove_failed ↔
    Ok [ct] = Ok [] ∨ ∃ container k, Ok [ct] = Ok [container] ∧ classifyHelperContainerState (hc_State container) ≠ helperStateUnknown ∧
      cp_remove prov (hc_ID container) ≠ remove_failed ∧ cp_after prov !! k = Some (Ok []) ∧
      ∀ j, (j < k)%nat → ∃ l, cp_after prov !! j = Some (Ok l)).
  { rewrite settle_ok. split; [intros [(k & Hk & Hj) Hr]; right; by exists ct, k|].
    intros [?|(ct' & k & [= <-] & _ & Hr & Hk & Hj)]; [done|]. split; [by exists k|done]. }
  rewrite <-Hs. destruct (cp_remove prov (hc_ID ct)); simpl; intuition congruence.
Qed.
