(* ===== verification/RunSpec.v ===== *)
(** * RunSpec: what the run handler guarantees

    The composition of the handler's steps, what a refusal gives back, and the
    argument list of a started run. *)
From S2P Require Import Prelude Filepath AllowedRoots AllowedRootsTheory WorkspacePolicy Database SnapshotStore Credential Launcher MacLifecycle MacTheory MacSpec Session SessionTheory SessionSpec Operation OperationTheory OwnershipTheory Proc Lifecycle LifecycleTheory DockerMount RunRequest RunRequestTheory Run RunTheory.
Local Open Scope Z_scope.

Section handler.
Context {W : Type} `{!sessionMACDriver W} (h : host) (cfg : run_config) (w : run_world).
Context (session : Session) (snapshot : sessionFilesystemSnapshot) (req : runRequest).
Implicit Types s : run_state W.

Lemma acquire_outcome sid ws key now (m : mac W) :
  match AcquireSessionUse sid ws key now m with
  | (Ok _, m') => (∃ cov, sessionUseLeases m' = <[key := cov]> (sessionUseLeases m)) ∧ releasedOnce m' = releasedOnce m ∧ m_db m' = m_db m
  | (Err _, m') => sessionUseLeases m' = sessionUseLeases m ∧ releasedOnce m' = releasedOnce m
  end.
Proof.
  unfold AcquireSessionUse. destruct (sessionBindings m !! sid) as [covs|]; [|done]. unfold sessionExistsExact.
  set (q := λ d : db, _). destruct (on_db_reads (query q) m (reads_query q)) as [f Ef].
  destruct (on_db (query q) m) as [[[]|e] m1]; simpl in Ef; subst m1; try done.
  destruct (incr_counts_with covs (with_db (m_db m) f m)) as [cm ->]. by split; [exists covs|].
Qed.

(** What the start of the process was decided on. *)
Record run_decided (s0 : run_state W) (args : list string) (resolved : list resolvedMount) (plan : list sessionFilesystemExposure)
    (pinned : list string) (prepared : preparedWorkloadMAC) : Prop := {
  rd_resolved : ∃ l l', resolve_mounts h (ss_Workspace session) snapshot [] (rr_Mounts req) l = (Ok resolved, l');
  rd_overlap : overlap_refused (rc_TrustedCAInjection cfg) req = false;
  rd_plan : exposure_plan snapshot resolved = Ok plan;
  rd_pinned : length pinned = length resolved ∧
    ∀ i p, pinned !! i = Some p → ∃ m, resolved !! i = Some m ∧ w_pin w i (rm_SourcePath m) = Some p;
  rd_prepared : w_prepare w plan pinned = prepare_ok prepared;
  rd_args : ∃ cidfile identity shm l p, check_request req = Ok shm ∧
    launcher_join (ss_LauncherID session) (m_db (rs_mac s0)) = Some (l, p) ∧ identity = (p_uid p, p_gid p) ∧
    run_argv cfg req session (w_operationID w) cidfile (docker_dir cfg session) identity shm plan prepared = Ok args }.

Lemma resolve_plan_hr s0 sid c r cov :
  fresh_run w s0 →
  hr (leased w s0 sid c r cov) (resolve_plan h cfg w (Some r) req session snapshot)
    (λ res s, leased w s0 sid c r cov s ∧ (∃ l l', resolve_mounts h (ss_Workspace session) snapshot [] (rr_Mounts req) l = (Ok res.1, l')) ∧
       overlap_refused (rc_TrustedCAInjection cfg) req = false ∧ exposure_plan snapshot res.1 = Ok res.2)
    (refused w s0).
Proof.
  intros Hf. unfold resolve_plan. eapply hr_bind_; [by apply preparing_hr|]. intros resolved.
  apply (hr_pure (∃ l l', resolve_mounts h (ss_Workspace session) snapshot [] (rr_Mounts req) l = (Ok resolved, l'))); [by intros s [_ ?]|].
  intros Hres. eapply hr_bind_; [eapply hr_pre; [by apply preparing_hr|by intros s [? _]]|]. intros u.
  apply (hr_pure (overlap_refused (rc_TrustedCAInjection cfg) req = false)).
  { intros s [_ (l & l' & E)]. unfold hp_lift in E. by destruct (overlap_refused _ _). }
  intros Hov. eapply hr_bind_; [eapply hr_pre; [by apply preparing_hr|by intros s [? _]]|]. intros plan.
  apply hr_ret_. intros s [Hs (l & l' & E)]. injection E as E _. by split_and!.
Qed.

Lemma handle_run_hr s0 :
  fresh_run w s0 →
  hr (λ s, s = s0) (handleRun h cfg w session snapshot req)
    (λ op s, ∃ c cov args resolved plan pinned prepared,
       process_running w s0 (ss_ID session) c cov op args s ∧ run_decided s0 args resolved plan pinned prepared)
    (λ resp s, refused w s0 resp s ∨ created w s0 resp s).
Proof.
  intros Hf. unfold handleRun. eapply hr_bind_ with (Q := λ shm s, s = s0 ∧ check_request req = Ok shm).
  { intros s ->. destruct (check_request req) as [shm|e]; [done|]. left. by apply untouched_refused. }
  intros shm. apply (hr_pure (check_request req = Ok shm)); [by intros s [_ ?]|]. intros Hshm.
  eapply hr_bind_ with (Q := λ r s, ∃ c r0, r = Some r0 ∧ rs_docker s = rs_docker s0 ∧ rs_mac s = rs_mac s0 ∧
     slot false (rs_sup s0) (ss_ID session) c (rs_sup s) ∧ reservations (rs_sup s) !! r0 = Some (Some c) ∧ ops (rs_sup s) = ops (rs_sup s0) ∧
     rs_pins s = rs_pins s0 ∧ rs_wmac s = rs_wmac s0 ∧ rs_owned s = rs_owned s0).
  { intros s [-> _]. destruct (reserve (ss_ID session) (ss_LauncherID session) operationKindRun (rs_sup s0)) as [[r d] x] eqn:E.
    destruct (decide (d = admissionAccepted)) as [->|Hd].
    - apply reserve_slot in E as (c & r0 & -> & Hs & Hr & Ho & _); [|apply Hf]. by exists c, r0.
    - pose proof (reserve_refused _ _ _ _ _ _ _ E Hd) as ->.
      destruct d; [done|left; by apply untouched_refused..]. }
  intros r. apply (hr_pure (∃ c r0, r = Some r0 ∧ closures (rs_sup s0) !! c = None)).
  { intros s (c & r0 & -> & _ & _ & (_ & Hc & _) & _). by eauto. }
  intros (_ & r0 & -> & _). 
  eapply hr_bind_ with (Q := λ _ s, ∃ c cov, leased w s0 (ss_ID session) c r0 cov s).
  { intros s (c & ? & [= <-] & Hd & Hm & Hs & Hr & Ho & Hp & Hk & Hw). rewrite Hm.
    pose proof (acquire_outcome (ss_ID session) (ss_Workspace session) (w_leaseKey w) (w_now w) (rs_mac s0)) as Ha.
    destruct (AcquireSessionUse _ _ _ _ _) as [[l|e] m].
    - destruct Ha as ([cov Ha] & Hon & Hdb). exists c, cov. split; simpl; try done. rewrite Hon. apply Hf.
    - destruct Ha as [Ha Hon]. left. split; [by eexists|]. cbn [rs_sup with_sup]. destruct (release_slot _ _ _ _ _ _ Hs Hr) as [Hfr Hops].
      split; [|by rewrite Hops]. split; [done|]. split; [done|]. left. by split_and!. }
  intros []. 
  apply (hr_ex (λ c s, ∃ cov, leased w s0 (ss_ID session) c r0 cov s)). intros c.
  apply (hr_ex (λ cov s, leased w s0 (ss_ID session) c r0 cov s)). intros cov.
  eapply hr_bind_; [eapply hr_conseq; [by apply resolve_plan_hr|done|by left]|]. intros [resolved plan].
  apply (hr_pure _ _ _ _ _ (λ s H, proj2 H)). intros ((l & l' & Hres) & Hov & Hplan). cbn [fst snd] in *.
  eapply hr_bind_; [eapply hr_conseq; [eapply hr_pre; [by apply identity_hr|by intros s [? _]]|done|by left]|]. intros identity.
  apply (hr_pure _ _ _ _ _ (λ s H, proj2 H)). intros (la & pa & Hjoin & Hidn).
  eapply hr_bind_; [eapply hr_conseq; [eapply hr_pre; [by apply preparing_hr|by intros s [? _]]|done|by left]|]. intros [].
  eapply hr_bind_; [eapply hr_conseq; [eapply hr_pre; [by apply new_operation_hr|by intros s [? _]]|done|by left]|]. intros op.
  eapply hr_bind_; [eapply hr_conseq; [by apply pin_sources_hr|done|by left]|]. intros [op1 pinned]. cbn [fst snd].
  apply (hr_pure (length pinned = length resolved ∧
    ∀ i p, pinned !! i = Some p → ∃ m, resolved !! i = Some m ∧ w_pin w i (rm_SourcePath m) = Some p)).
  { intros s (_ & _ & _ & _ & H). exact H. }
  intros Hpin.
  eapply hr_bind_; [eapply hr_conseq; [eapply hr_pre; [by apply prepare_hr|]|done|by left]|].
  { intros s (H1 & H2 & H3 & _). split; [exact H1|]. by split. }
  intros [op2 prep]. cbn [fst snd].
  apply (hr_pure (ro_prepared op2 = true ∧ w_prepare w plan pinned = prepare_ok prep)); [by intros s (_ & _ & H)|].
  intros [Hpr Hprep].
  set (cid := if bool_decide _ then _ else _). cbv zeta.
  eapply hr_bind_ with (Q := λ args s, (prepared w s0 (ss_ID session) c cov op2 s ∧ unadmitted w s0 (ro_ref op2) r0 s) ∧
     run_argv cfg req session (w_operationID w) cid (docker_dir cfg session) identity shm plan prep = Ok args).
  { intros s (Hp & Hu & _). destruct (run_argv _ _ _ _ _ _ _ _ _ _) as [args|e]; [done|]. left.
    destruct (rollback_back w s0 Hf _ _ _ _ _ Hp) as (Hg & Ho & _). split; [by eexists|]. split; [done|]. by rewrite Ho, (proj1 Hu). }
  intros args. apply (hr_pure _ _ _ _ _ (λ s H, proj2 H)). intros Hargs.
  eapply hr_bind_; [eapply hr_conseq; [eapply hr_pre; [by apply admit_hr|by intros s [? _]]|done|by left]|]. intros [].
  eapply hr_conseq; [by apply start_hr| |by right].
  intros op3 s Hrun. exists c, cov, args, resolved, plan, pinned, prep. split; [done|]. split; try done; [by eauto|]. by exists cid, identity, shm, la, pa.
Qed.

(** C5. A run that does not start takes nothing.  Whatever step refuses it — a
    check, the capacity, the lease, a mount, the policy, the identity, a pin, the
    MAC backend, the argument list, the admission, a mark or the start itself —
    no docker process was started, every capacity counter is what it was, and the
    pins, the workload MAC state, the ownership records and the leases are what
    they were; only when a cleanup itself failed (or the backend retained its
    state) is something left, and then the Session's lease is still held.  A
    rejection registers nothing; a run refused after its admission is listed as
    failed, with a result code and closed.  A run that starts has one process, one
    more slot of its Session, its lease, and is listed as running. *)
Theorem run_refusal_gives_back (s0 : run_state W) (Hf : fresh_run w s0) :
  let counts x x' n := globalRunning x' = globalRunning x + n ∧ globalBuildCount x' = globalBuildCount x ∧
    ∀ sid, session_count x' sid = session_count x sid + if decide (ss_ID session = sid) then n else 0 in
  match handleRun h cfg w session snapshot req s0 with
  | (inr resp, s) =>
      rs_docker s = rs_docker s0 ∧ counts (rs_sup s0) (rs_sup s) 0 ∧
      (resources_kept s0 s ∨ (is_Some (sessionUseLeases (rs_mac s) !! w_leaseKey w) ∧ incomplete w)) ∧
      match resp with
      | run_rejected _ => ops (rs_sup s) = ops (rs_sup s0)
      | run_created o => ∃ x, ops (rs_sup s) !! w_operationID w = Some o ∧ heap (rs_sup s) !! o = Some x ∧
          op_State x = operationFailed ∧ is_Some (op_ResultCode x) ∧ op_done x = chan_closed
      end
  | (inl op, s) =>
      (∃ args, rs_docker s = rs_docker s0 ++ [(ro_ref op, args)]) ∧ counts (rs_sup s0) (rs_sup s) 1 ∧
      is_Some (sessionUseLeases (rs_mac s) !! w_leaseKey w) ∧
      ∃ x, ops (rs_sup s) !! w_operationID w = Some (ro_ref op) ∧ heap (rs_sup s) !! ro_ref op = Some x ∧
        op_State x = operationRunning ∧ op_started x = true
  end.
Proof.
  intros counts. pose proof (fr_capacity _ _ Hf) as H0. pose proof (handle_run_hr s0 Hf s0 eq_refl) as H.
  assert (Hfreed : ∀ x, freed (rs_sup s0) x → counts (rs_sup s0) x 0).
  { intros x Hx. destruct (freed_counts _ _ H0 Hx) as (H1 & H2 & H3). unfold counts. rewrite H1, H2, Z.add_0_r.
    split_and!; [done..|]. intros sid. rewrite H3. case_decide; lia. }
  destruct (handleRun h cfg w session snapshot req s0) as [[op|resp] s].
  - destruct H as (c & cov & args & _ & _ & _ & _ & [H1 H2 H3 (x & Hx & Hst & Hsd & _) _ H4] & _). split_and!.
    + by exists args.
    + destruct (slot_counts _ _ _ _ _ H0 H2) as (A1 & A2 & A3). split_and!; [done|by rewrite A2, Z.add_0_r|done].
    + rewrite (ho_leases _ _ _ _ _ H4), lookup_insert_eq. done.
    + by exists x.
  - destruct H as [((code & ->) & (H1 & H2 & H3) & H4)|(o & x & -> & (H1 & H2 & H3) & H4 & H5 & H6 & H7 & H8)].
    + by split_and!; [|apply Hfreed| |].
    + split_and!; [done|by apply Hfreed|done|by exists x].
Qed.

(** ** The probes of a run *)

Definition probes_kept {A} (l : list probe) (m : HR (run_state W) A) : Prop := hr (λ s, rs_probes s = l) m (λ _ s, rs_probes s = l) (λ _ s, rs_probes s = l).

Lemma kept_bind {A B} l (m : HR (run_state W) A) (k : A → HR (run_state W) B) :
  probes_kept l m → (∀ a, probes_kept l (k a)) → probes_kept l (m ≫= k).
Proof. intros Hm Hk. by eapply hr_bind_. Qed.

Lemma kept_any {A} (Q : list probe → Prop) (m : HR (run_state W) A) :
  (∀ l, probes_kept l m) → hr (λ s, Q (rs_probes s)) m (λ _ s, Q (rs_probes s)) (λ _ s, Q (rs_probes s)).
Proof. intros Hm s Hs. specialize (Hm _ s eq_refl). by destruct (m s) as [[a|r] s']; rewrite Hm. Qed.

Lemma run_sequence_inv {S} (P : S → Prop) (stages : list (cleanupStage (S → bool * S))) x :
  Forall (λ st, ∀ f y, cs_run st = Some f → P y → P (f y).2) stages → P x → P (run_sequence stages x).2.
Proof.
  intros Hf. revert x. induction Hf as [|st stages Hst _ IH]; intros x Hx; [done|]. simpl.
  destruct (cs_run st) as [f|] eqn:E; [|by apply IH]. specialize (Hst f x eq_refl Hx). destruct (f x) as [[] y]; [by apply IH|done].
Qed.

Lemma rollback_probes op s : rs_probes (rollbackRunPreparation w op s) = rs_probes s.
Proof.
  rewrite rollback_eq. apply (run_sequence_inv (λ s', rs_probes s' = rs_probes s)); [|done].
  unfold tail_stages, rollback_stages. cbn [tail]. repeat constructor; intros f y [= <-] Hy.
  - destruct (ro_prepared op); [|done]. unfold mac_cleanup_stage. by destruct (w_mac_cleanup w).
  - done.
  - unfold removeWorkloadMACState. by destruct (w_remove_state w).
  - done.
  - done.
Qed.

Lemma on_result_kept {A} l (r : result A) : probes_kept l (on_result r).
Proof. intros s Hs. by destruct r. Qed.

Lemma pin_sources_kept l op i mounts : probes_kept l (pin_sources w op i mounts).
Proof.
  revert op i. induction mounts as [|m mounts IH]; intros op i; cbn [pin_sources]; [by apply hr_ret_|].
  destruct (w_pin w i (rm_SourcePath m)) as [pinned|]; [|by intros s <-; apply rollback_probes].
  apply kept_bind; [intros s Hs; exact Hs|]. intros []. apply kept_bind; [apply IH|]. intros r. by apply hr_ret_.
Qed.

(** Once the plan is resolved, the host is not asked again. *)
Lemma after_plan_kept l r resolved plan shm : probes_kept l (
  identity ← resolve_identity w r session;
  _ ← preparing w r (λ _, "internal_error") (hp_lift (if w_docker_dir w then Ok () else Err (code_error "internal_error")));
  op ← new_run_operation cfg w r session;
  '(op, pinned) ← pin_sources w op 0 resolved;
  '(op, prepared) ← prepare_workload w op plan pinned;
  let cid := if bool_decide (rc_RuntimeDir cfg ≠ "") then Join [rc_RuntimeDir cfg; w_operationID w +:+ ".cid"] else "" in
  args ← (λ s, match run_argv cfg req session (w_operationID w) cid (docker_dir cfg session) identity shm plan prepared with
               | Ok args => (inl args, s)
               | Err _ => (inr (run_rejected "internal_error"), rollbackRunPreparation w op s)
               end) : HR (run_state W) (list string);
  _ ← admit_operation cfg w op r;
  start_operation w op args).
Proof.
  apply kept_bind; [|intros identity].
  { intros s Hs. unfold resolve_identity. by destruct (on_db _ _) as [[i|e] m]. }
  apply kept_bind; [|intros []].
  { intros s Hs. unfold preparing, hp_lift. by destruct (w_docker_dir w). }
  apply kept_bind; [intros s Hs; exact Hs|intros op].
  apply kept_bind; [apply pin_sources_kept|intros [op1 pinned]].
  apply kept_bind; [|intros [op2 prepared]].
  { intros s Hs. unfold prepare_workload. destruct (w_prepare w plan pinned) as [|[]|]; rewrite ?rollback_probes; done. }
  cbv zeta. apply kept_bind; [|intros args].
  { intros s Hs. destruct (run_argv _ _ _ _ _ _ _ _ _ _); [done|by rewrite rollback_probes]. }
  apply kept_bind; [|intros []].
  { intros s Hs. unfold admit_operation. destruct (admitReserved _ _ _) as [d x]. case_bool_decide; [done|by rewrite rollback_probes]. }
  intros s <-. unfold start_operation. destruct (w_marked w).
  all: cbn zeta; destruct (startOperationProcess _ _ _ _) as [[] x]; cbn; rewrite ?rollback_probes; done.
Qed.

(** No privileged probe before admission: in every run, whatever its outcome, the
    host resolves only spellings that the issued snapshot of the Session grants,
    and stats only what such a resolution answered. *)
Theorem run_probes_granted (s0 : run_state W)
    (Hwf : snapshot_wf snapshot) (Hws : ss_Workspace session = Workspace snapshot) (Hnone : rs_probes s0 = []) :
  let s := (handleRun h cfg w session snapshot req s0).2 in
  (∀ q, EvalSymlinks q ∈ rs_probes s → canonical q = true ∧ is_Some (LookupAccess snapshot q)) ∧
  (∀ q, Stat q ∈ rs_probes s → ∃ q0, EvalSymlinks q0 ∈ rs_probes s ∧ evalSymlinksFn h q0 = inl q).
Proof.
  set (P := λ s : run_state W, admitted_by h (granted snapshot) (rs_probes s)).
  assert (H : hr P (handleRun h cfg w session snapshot req) (λ _, P) (λ _, P)).
  { unfold handleRun. eapply hr_bind_ with (Q := λ _, P); [by intros s Hs; destruct (check_request req)|intros shm].
    eapply hr_bind_ with (Q := λ _, P); [intros s Hs; by destruct (reserve _ _ _ _) as [[r []] x]|intros r].
    eapply hr_bind_ with (Q := λ _, P); [intros s Hs; by destruct (AcquireSessionUse _ _ _ _ _) as [[] m]|intros []].
    assert (Hprep : ∀ A code (m : HP A), admits h (granted snapshot) m → hr P (preparing w r code m) (λ _, P) (λ _, P)).
    { intros A code m Hm s Hs. unfold preparing, P in *. specialize (Hm _ Hs). by destruct (m (rs_probes s)) as [[] l]. }
    eapply hr_bind_ with (Q := λ _, P).
    { unfold resolve_plan. eapply hr_bind_; [by apply Hprep, resolve_mounts_admits|intros res].
      eapply hr_bind_; [by apply Hprep, admits_ret|intros []]. eapply hr_bind_; [by apply Hprep, admits_ret|intros plan]. by apply hr_ret_. }
    intros [resolved plan]. apply kept_any. intros l. apply after_plan_kept. }
  assert (Hs0 : P s0) by (unfold P; rewrite Hnone; split; intros q Hq; by apply not_elem_of_nil in Hq).
  specialize (H s0 Hs0). destruct (handleRun _ _ _ _ _ _ s0) as [[a|resp] s]; exact H.
Qed.

(** ** The argument list *)

(** The server's own mounts are read-only. *)
Definition server_bind (b : dockerBindMount) : Prop :=
  bm_ReadOnly b = true ∧
  ((trusted_ca_injected cfg = true ∧ bm_Source b = rc_TrustedCAPreparedDir cfg ∧ bm_Target b = trustedCAContainerDir) ∨
   (rr_HelperSocket req = true ∧ bm_Source b = rc_RuntimeDir cfg ∧ bm_Target b = helperSocketContainerDir)).

Definition disjoint_paths (a b : string) : Prop := pathWithin a b = false ∧ pathWithin b a = false.

(** A mount of the request, by its position: the bind's source is what the MAC
    backend prepared for it; its source path is what the admitted spelling of
    the request resolves to, is granted by the snapshot,
    writable only when the whole tree below it is, and its target leaves the
    server's directories alone. *)
Definition granted_bind (plan : list sessionFilesystemExposure) (prepared : preparedWorkloadMAC) (b : dockerBindMount) : Prop :=
  ∃ i m e, rr_Mounts req !! i = Some m ∧ plan !! i = Some e ∧ pm_MountSources prepared !! i = Some (bm_Source b) ∧
    bm_Target b = Clean (mr_Target m) ∧ bm_ReadOnly b = mr_ReadOnly m ∧
    (∃ spelling, admit_source h m (ss_Workspace session) snapshot = Ok spelling ∧
       evalSymlinksFn h spelling = inl (SourcePath e)) ∧
    canonical (SourcePath e) = true ∧ is_Some (LookupAccess snapshot (SourcePath e)) ∧
    (bm_ReadOnly b = false → ∀ t, canonical t = true → pathWithin (SourcePath e) t = true →
       LookupAccess snapshot t = Some AllowedRootAccessReadWrite) ∧
    (IsAbs (mr_Source m) = false → pathWithin (ss_Workspace session) (SourcePath e) = true) ∧
    (trusted_ca_injected cfg = true → disjoint_paths trustedCAContainerDir (bm_Target b)) ∧
    (rr_HelperSocket req = true → disjoint_paths helperSocketContainerDir (bm_Target b)).

Lemma not_overlapping m :
  overlap_refused (rc_TrustedCAInjection cfg) req = false → m ∈ rr_Mounts req → IsAbs (mr_Target m) = true →
  (trusted_ca_injected cfg = true → disjoint_paths trustedCAContainerDir (Clean (mr_Target m))) ∧
  (rr_HelperSocket req = true → disjoint_paths helperSocketContainerDir (Clean (mr_Target m))).
Proof.
  intros [H1 H2]%orb_false_iff Hm Ha. split.
  - intros [Hi _]%andb_true_iff. rewrite Hi in H1. simpl in H1. pose proof (existsb_false_in _ _ _ H1 Hm) as Ho. cbn beta in Ho.
    rewrite trusted_ca_overlap in Ho by done. apply overlaps_false in Ho as (_ & ? & ?). by split.
  - intros Hs. rewrite Hs in H2. simpl in H2. pose proof (existsb_false_in _ _ _ H2 Hm) as Ho. cbn beta in Ho.
    unfold isHelperSocketMountOverlap in Ho. apply overlaps_false in Ho as (_ & ? & ?). by split.
Qed.

Lemma bind_granted resolved plan prepared i source e l l' :
  snapshot_wf snapshot → host_ok h →
  resolve_mounts h (ss_Workspace session) snapshot [] (rr_Mounts req) l = (Ok resolved, l') →
  overlap_refused (rc_TrustedCAInjection cfg) req = false → exposure_plan snapshot resolved = Ok plan →
  pm_MountSources prepared !! i = Some source → plan !! i = Some e →
  granted_bind plan prepared (mkBind source (Target e) (RequestedReadOnly e)).
Proof.
  intros Hwf Hh Hres Hov Hplan Hs He. apply resolve_mounts_ok in Hres as (Hf & _). apply exposure_plan_ok in Hplan.
  destruct (Forall2_lookup_r _ _ _ _ _ Hplan He) as (r & Hr & Hex). destruct (Forall2_lookup_r _ _ _ _ _ Hf Hr) as (m & Hm & Hmr).
  destruct Hmr as [[Hta Ht] Hro (sp & Hadm & Hsp) _ Hrel].
  assert (Hc : canonical (rm_SourcePath r) = true) by (by eapply Hh).
  destruct (not_overlapping m Hov ltac:(by eapply list_elem_of_lookup_2) Hta) as [Hd1 Hd2].
  unfold resolveSessionFilesystemExposure in Hex. destruct (LookupAccess snapshot (rm_SourcePath r)) as [acc|] eqn:Ea; [|done].
  pose proof (CanExposeWritable_spec snapshot (rm_SourcePath r) Hwf Hc) as Hcw. unfold granted_bind. cbn [bm_Source bm_Target bm_ReadOnly].
  rewrite <-Ht in Hd1, Hd2. exists i, m, e. destruct (rm_ReadOnly r).
  - injection Hex as <-. simpl in *. rewrite Ea, <-Ht, <-Hro. split_and!; try done. by exists sp.
  - destruct (CanExposeWritable snapshot (rm_SourcePath r)); [|done]. injection Hex as <-. simpl in *. rewrite Ea, <-Ht, <-Hro.
    split_and!; try done; [by exists sp|]. intros _. by apply Hcw.
Qed.

(** C4. The container a run starts is confined.  Its docker command is the fixed
    prefix (the Session's own docker directory, the uid and gid of the Principal
    who owns the Session's Launcher, all capabilities dropped, no new
    privileges), then only flags of a closed list with their values, then the
    image, which cannot be read as a flag, and the command.  The plan holds, in
    the order of the request, the exposures of the resolved mounts; each is
    pinned at its source path, and the MAC backend is given the plan and those
    pins.  Every mount is either one of the server's, read-only, or one of the
    request: its source is what the backend answered for the exposure at its
    position, whose path is granted by the issued snapshot, writable only when
    every path below it reads as read_write there, and in the workspace for a
    relative spelling; its target is outside, and not above, the directories the
    server mounts. *)
Theorem run_argv_confined (s0 : run_state W) (Hf : fresh_run w s0) (Hwf : snapshot_wf snapshot) (Hh : host_ok h)
    (op : run_op) (s : run_state W) (Hrun : handleRun h cfg w session snapshot req s0 = (inl op, s)) :
  ∃ launcher owner pairs resolved plan pinned prepared,
    (∃ l l', resolve_mounts h (ss_Workspace session) snapshot [] (rr_Mounts req) l = (Ok resolved, l')) ∧
    exposure_plan snapshot resolved = Ok plan ∧
    length plan = length (rr_Mounts req) ∧ length pinned = length plan ∧
    (∀ i e p, plan !! i = Some e → pinned !! i = Some p → w_pin w i (SourcePath e) = Some p) ∧
    w_prepare w plan pinned = prepare_ok prepared ∧
    launcher_join (ss_LauncherID session) (m_db (rs_mac s0)) = Some (launcher, owner) ∧
    rs_docker s = rs_docker s0 ++
      [(ro_ref op, ["--config"; docker_dir cfg session; "run"; "--rm"; "--user"; print_int (p_uid owner) +:+ ":" +:+ print_int (p_gid owner);
                    "--cap-drop"; "ALL"; "--security-opt"; "no-new-privileges:true"] ++
                   flag_pairs pairs ++ rr_Image req :: rr_Command req)] ∧
    Forall (λ q, q.1 ∈ run_flags) pairs ∧
    rr_Image req ≠ "" ∧ String.prefix "-" (rr_Image req) = false ∧
    ∀ spec, ("--mount", spec) ∈ pairs →
      ∃ b, dockerBindMountSpec b = Ok spec ∧ (server_bind b ∨ granted_bind plan prepared b).
Proof.
  pose proof (handle_run_hr s0 Hf s0 eq_refl) as H. rewrite Hrun in H.
  destruct H as (c & cov & args & resolved & plan & pinned & prepared & Hr & [(l & l' & Hres) Hov Hplan [Hlen Hpin] Hprep Hargs]).
  destruct Hargs as (cid & identity & shm & la & p & Hchk & Hjoin & -> & Hargs).
  apply run_argv_ok in Hargs as (specs & Hspecs & ->).
  exists la, p, (run_pairs cfg req session (w_operationID w) cid shm prepared specs), resolved, plan, pinned, prepared.
  split; [by exists l, l'|]. split; [exact Hplan|]. pose proof (exposure_plan_ok _ _ _ Hplan) as Hpl.
  pose proof (resolve_mounts_ok _ _ _ _ _ _ _ _ Hres) as (Hrs & _).
  split; [by rewrite <-(Forall2_length _ _ _ Hpl), (Forall2_length _ _ _ Hrs)|].
  split; [by rewrite Hlen, (Forall2_length _ _ _ Hpl)|]. split.
  { intros i e p' He (m & Hm & Hp)%Hpin. destruct (Forall2_lookup_r _ _ _ _ _ Hpl He) as (m' & Hm' & Hex). simplify_eq.
    by rewrite (exposure_source _ _ _ _ _ Hex). }
  split; [exact Hprep|]. split; [exact Hjoin|]. split; [by rewrite (rn_docker _ _ _ _ _ _ _ _ Hr)|]. split; [apply run_pairs_flags|].
  unfold check_request in Hchk. destruct (decide (rr_Image req = "")) as [Hi|Hi]; [by rewrite bool_decide_true in Hchk|].
  rewrite bool_decide_false in Hchk by done. destruct (String.prefix "-" (rr_Image req)) eqn:Hpre; [done|].
  split_and!; [done..|]. intros spec (i & Hspec)%run_pairs_mount%list_elem_of_lookup.
  destruct (Forall2_lookup_r _ _ _ _ _ Hspecs Hspec) as (b & Hb & Hbs). exists b. split; [done|].
  apply list_elem_of_lookup_2, run_binds_elem in Hb as [Hb|(j & src & e & Hsrc & He & ->)]; [by left|right].
  by eapply bind_granted.
Qed.

(** ** The completion *)

(** The world of a started run when its process ends. *)
Definition at_completion (now : Z) (unpin : nat → bool) (mac_cleanup remove_state : bool) : run_world :=
  mkWorld (w_operationID w) (w_leaseKey w) now (w_docker_dir w) (w_pin w) unpin (w_prepare w) mac_cleanup remove_state
    (w_marked w) (w_start w).

Lemma completion_cleanup s0 sid c cov op args s prov now unpin mc rs :
  fresh_run w s0 → process_running w s0 sid c cov op args s →
  let s' := cleanupAfterRunProcess (at_completion now unpin mc rs) prov op s in
  let complete := container_absent prov ∧ mc = true ∧ (∀ i, i ∈ ro_pins op → unpin i = true) ∧ rs = true in
  rs_docker s' = rs_docker s ∧ rs_sup s' = rs_sup s ∧
  ((resources_kept s0 s' ∧ complete) ∨ (is_Some (sessionUseLeases (rs_mac s') !! w_leaseKey w) ∧ ¬ complete)).
Proof.
  intros Hf [_ _ _ _ Hpr Hh]. cbv zeta. set (w' := at_completion now unpin mc rs). rewrite after_eq by done.
  assert (Hf' : fresh_run w' s0) by (by destruct Hf). assert (Hh' : holding w' s0 cov op s) by (by destruct Hh).
  pose proof (ho_leases _ _ _ _ _ Hh) as Hl. pose proof (tail_back w' s0 Hf' cov op s Hh') as Ht. rewrite Hpr in Ht.
  pose proof (prove_absent prov) as Ha. destruct (is_ok (proveOperationContainerAbsent prov)).
  2: { split_and!; [done..|right]. rewrite Hl, lookup_insert_eq. split; [done|]. intros [?%Ha _]. done. }
  destruct (run_sequence _ _) as [failed s'] eqn:E. cbn [snd]. destruct Ht as (Hd & Hs & Hfl). split_and!; [done..|].
  destruct failed.
  - right. destruct Hfl as [-> Hinc]. rewrite Hl, lookup_insert_eq. split; [done|]. intros (_ & Hm & Hu & Hr).
    destruct Hinc as [[_ Hm']|[(i & Hi & Hu')|Hr']]; simpl in *; [congruence|rewrite Hu in Hu'; done|congruence].
  - left. destruct Hfl as (Hk & Hm & Hu & Hr). split; [exact Hk|]. split_and!; [by apply Ha|by apply Hm|exact Hu|exact Hr].
Qed.

(** A started run ends where it began.  However its process ends, its
    completion leaves the operation listed, closed and terminal with the result
    code of the exit — succeeded, or failed with docker's own failure (exit 125,
    or no exit status) told apart from the container's — and its capacity slot is
    returned whether the cleanup succeeded or not.  The pins, the workload MAC
    state, the ownership record and the Session's lease are given back exactly
    when the container is proven absent and every cleanup stage succeeded;
    otherwise the lease of the Session is still held. *)
Theorem run_completion (s0 : run_state W) (Hf : fresh_run w s0) (op : run_op) (s : run_state W)
    (Hrun : handleRun h cfg w session snapshot req s0 = (inl op, s))
    (prov : containerProvenance) (exit : option (option Z)) (duration : string) (now : Z) (unpin : nat → bool) (mc rs : bool) :
  let s' := waitRunCompletion (at_completion now unpin mc rs) prov op exit duration s in
  let complete := container_absent prov ∧ mc = true ∧ (∀ i, i ∈ ro_pins op → unpin i = true) ∧ rs = true in
  (globalRunning (rs_sup s') = globalRunning (rs_sup s0) ∧ globalBuildCount (rs_sup s') = globalBuildCount (rs_sup s0) ∧
   ∀ sid, session_count (rs_sup s') sid = session_count (rs_sup s0) sid) ∧
  rs_docker s' = rs_docker s ∧
  ((resources_kept s0 s' ∧ complete) ∨ (is_Some (sessionUseLeases (rs_mac s') !! w_leaseKey w) ∧ ¬ complete)) ∧
  ∃ x, ops (rs_sup s') !! w_operationID w = Some (ro_ref op) ∧ heap (rs_sup s') !! ro_ref op = Some x ∧
    op_done x = chan_closed ∧
    (op_State x, op_ResultCode x) = match exit with
                                   | None => (operationSucceeded, Some "succeeded")
                                   | Some (Some 125) | Some None => (operationFailed, Some "docker_run_failed")
                                   | Some (Some _) => (operationFailed, Some "container_exit_nonzero")
                                   end.
Proof.
  intros s' complete. pose proof (handle_run_hr s0 Hf s0 eq_refl) as H. rewrite Hrun in H.
  destruct H as (c & cov & args & _ & _ & _ & _ & Hpr & _).
  destruct (completion_cleanup _ _ _ _ _ _ _ prov now unpin mc rs Hf Hpr) as (Hd & Hs & Hres).
  destruct Hpr as [_ Hslot Hid (x & Hx & Hst & _ & Hre & Hrc & Hct & Hcap) _ _].
  assert (Hdone : ∀ st ex d rc, let y := with_terminal st now d ex rc x in
    let x' := finish (ro_ref op) (releaseCapacity (ro_ref op) (set_op (ro_ref op) y (rs_sup s))) in
    freed (rs_sup s0) x' ∧ ops x' = ops (rs_sup s) ∧
    heap x' !! ro_ref op = Some (with_done chan_closed (with_capacityRelease None y))) by (intros; by eapply complete_slot).
  assert (Hend : ∃ st ex d rc, s' = with_sup (finish (ro_ref op) (releaseCapacity (ro_ref op)
      (set_op (ro_ref op) (with_terminal st now d ex rc x) (rs_sup s)))) (cleanupAfterRunProcess (at_completion now unpin mc rs) prov op s) ∧
    (st, rc) = match exit with
               | None => (operationSucceeded, Some "succeeded")
               | Some (Some 125) | Some None => (operationFailed, Some "docker_run_failed")
               | Some (Some _) => (operationFailed, Some "container_exit_nonzero")
               end).
  { unfold s', waitRunCompletion. rewrite Hs. destruct exit as [ex|].
    - unfold fail_op. rewrite Hx, Hct, Hrc, Hre. rewrite bool_decide_false by done. cbv zeta. cbn [snd].
      do 4 eexists. split; [reflexivity|]. destruct ex as [z|]; [|done]. destruct (Z.eqb_spec z 125) as [->|Hz]; [done|].
      destruct z as [|p|p]; [done| |done]. do 7 (destruct p as [p|p|]; try done).
    - unfold succeed. rewrite Hx, Hct, Hrc. cbv zeta. cbn [snd]. by do 4 eexists. }
  destruct Hend as (st & ex & d & rc & -> & Hcode). destruct (Hdone st ex d rc) as (Hfr & Ho & Hh').
  split_and!; try (by apply (freed_counts _ _ (fr_capacity _ _ Hf) Hfr)); [done|exact Hres|].
  eexists. simpl. rewrite Ho, Hh'. split_and!; [done..|exact Hcode].
Qed.

End handler.

(** ** A concrete run *)

#[local] Existing Instances MacSpec.Example.driver.

Module Example.

Definition session : Session := mkSess "dhs_1" "/srv/app" 0 100 "dhl_1" "default" "alice".
Definition snapshot : sessionFilesystemSnapshot := mkSnapshot "/srv/app" [mkEntry "/srv/app" "read_write"].
Definition request : runRequest :=
  mkRun "alpine" "" "" ["ls"] {[ "HOME" := "/tmp" ]} [mkMount "data" "/data" false; mkMount "/srv/app/conf" "/conf" true] "64m" true.
Definition cfg : run_config := mkRunConfig "/run/dh" "off" "" 100 10.
Definition start : run_state (list string) :=
  mkRunState (with_bindings {[ "dhs_1" := [mkCoverage "/srv/app" false macBoundaryDirectory] ]}
                (newSessionMACCoordinator [] SessionSpec.Example.live_db []))
    newOperationSupervisor [] ∅ ∅ ∅ [].
(** Everything succeeds, but for the process when [started] is false. *)
Definition world (started : bool) : run_world :=
  mkWorld "op_1" "lease_1" 10 true (λ i _, Some ("/run/dh/pin/" +:+ print_int (Z.of_nat i))) (λ _, true)
    (λ _ pinned, prepare_ok (mkPreparedMAC ["label=type:t"] pinned)) true true None started.

(** A host without links: every absolute path is a directory of its own. *)
Definition host0 : host :=
  mkHost (λ _, inl is_dir) (λ p, if IsAbs p then inl (Clean p) else inr not_exist) (Some "/") None 0.

Definition run (started : bool) : (run_op + run_response) * run_state (list string) :=
  handleRun host0 cfg (world started) session snapshot request start.

Lemma start_fresh started : fresh_run (world started) start.
Proof.
  split; simpl; [apply capacity_inv_init|by rewrite lookup_empty|set_solver|set_solver|set_solver|set_solver].
Qed.

Lemma host0_ok : host_ok host0.
Proof. intros p q. simpl. destruct (IsAbs p) eqn:E; [|done]. intros [= <-]. by apply Clean_canonical. Qed.

Lemma snapshot_ok : snapshot_wf snapshot.
Proof. vm_compute. reflexivity. Qed.

End Example.

(** The docker process does not start. *)
Lemma run_refusal_gives_back_witness :
  (Example.run false).1 = inr (run_created 0%nat) ∧ rs_docker (Example.run false).2 = [] ∧
  globalRunning (rs_sup (Example.run false).2) = 0.
Proof.
  pose proof (run_refusal_gives_back Example.host0 Example.cfg (Example.world false) Example.session Example.snapshot Example.request
    Example.start (Example.start_fresh false)) as H.
  change (handleRun _ _ _ _ _ _ Example.start) with (Example.run false) in H.
  destruct (Example.run false) as [res s] eqn:E.
  assert (Hres : res = inr (run_created 0%nat)) by (change res with ((res, s).1); rewrite <- E; vm_compute; reflexivity).
  subst res. destruct H as (Hd & (Hg & _) & _). split; [reflexivity|]. split; [exact Hd|]. cbn [snd]. rewrite Hg. reflexivity.
Defined.

Lemma run_probes_granted_witness :
  EvalSymlinks "/srv/app/data" ∈ rs_probes (Example.run true).2 ∧
  is_Some (LookupAccess Example.snapshot "/srv/app/data").
Proof.
  pose proof (run_probes_granted Example.host0 Example.cfg (Example.world true) Example.session Example.snapshot Example.request
    Example.start Example.snapshot_ok eq_refl eq_refl) as [H _].
  change (handleRun _ _ _ _ _ _ Example.start) with (Example.run true) in H.
  assert (Hin : EvalSymlinks "/srv/app/data" ∈ rs_probes (Example.run true).2).
  { assert (E : rs_probes (Example.run true).2 = [EvalSymlinks "/srv/app/data"; Stat "/srv/app/data"; EvalSymlinks "/srv/app/conf"; Stat "/srv/app/conf"])
      by (vm_compute; reflexivity). rewrite E. by left. }
  split; [exact Hin|]. apply (H _ Hin).
Defined.

Lemma run_argv_confined_witness :
  ∃ op s pairs, Example.run true = (inl op, s) ∧
    rs_docker s = [(ro_ref op, ["--config"; "/run/dh/sessions/dhs_1/docker"; "run"; "--rm"; "--user"; "1000:1000";
      "--cap-drop"; "ALL"; "--security-opt"; "no-new-privileges:true"] ++ flag_pairs pairs ++ ["alpine"; "ls"])].
Proof.
  destruct (Example.run true) as [res s] eqn:E.
  assert (Hres : match res with inl _ => true | inr _ => false end = true)
    by (change res with ((res, s).1); rewrite <- E; vm_compute; reflexivity).
  destruct res as [op|]; [|discriminate Hres]. exists op, s. pose proof E as E'. unfold Example.run in E'.
  destruct (run_argv_confined Example.host0 Example.cfg (Example.world true) Example.session Example.snapshot Example.request
    Example.start (Example.start_fresh true) Example.snapshot_ok Example.host0_ok op s E') as (l & p & pairs & _ & _ & _ & _ & _ & _ & _ & _ & _ & _ & Hj & Hd & _).
  exists pairs. split; [reflexivity|]. rewrite Hd. vm_compute in Hj. injection Hj as _ <-. reflexivity.
Defined.

(** The container is gone but its workload MAC state could not be removed. *)
Lemma run_completion_witness :
  ∃ op s, Example.run true = (inl op, s) ∧
    let s' := waitRunCompletion (at_completion (Example.world true) 20 (λ _, true) false true) (mkProvenance (Ok []) (λ _, removed) [])
                op (Some (Some 3)) "1s" s in
    globalRunning (rs_sup s') = 0 ∧ is_Some (sessionUseLeases (rs_mac s') !! "lease_1").
Proof.
  destruct (Example.run true) as [res s] eqn:E.
  assert (Hres : match res with inl _ => true | inr _ => false end = true)
    by (change res with ((res, s).1); rewrite <- E; vm_compute; reflexivity).
  destruct res as [op|]; [|discriminate Hres]. exists op, s. split; [reflexivity|]. unfold Example.run in E.
  destruct (run_completion Example.host0 Example.cfg (Example.world true) Example.session Example.snapshot Example.request
    Example.start (Example.start_fresh true) op s E (mkProvenance (Ok []) (λ _, removed) []) (Some (Some 3)) "1s" 20 (λ _, true) false true)
    as ((Hg & _) & _ & Hres' & _).
  split; [rewrite Hg; reflexivity|]. destruct Hres' as [(_ & _ & Hm & _)|[Hl _]]; [discriminate Hm|exact Hl].
Defined.
