(* ===== verification/Staging.v ===== *)
(** * Staging: src/staging.go and src/staging_linux.go — the copy of a build context

    The docker CLI never reads the caller's directory: the build context is copied,
    entry by entry, into a directory of the helper.  The source directory belongs to
    the caller, who may change it during the walk, so it is modelled by what the walk is
    told: a tree of answers, one node per entry the walk opens.  The destination is the
    helper's alone: a finite map from paths to nodes, with the inodes of its regular
    files.  Every call on it, and every check for a cancelled request, may fail
    ([ws_faults]).  File times are left out. *)
From S2P Require Import Prelude Filepath Operation.
Local Open Scope Z_scope.

(** ** Ceilings and the budget *)

Record buildStagingCeilings := mkCeilings { MaxBytes : Z; MaxEntries : Z; MaxDepth : Z }.

Definition productionBuildStagingCeilings : buildStagingCeilings := mkCeilings (128 * 1024 * 1024) 50000 64.

(** The typed refusals; any other failure is one text. *)
Inductive staging_error :=
  | buildStagingCeilingError (Resource : string) (Ceiling Attempted : Z)
  | errBuildStagingSymlinkOutsideContext
  | staging_failed (what : string).

Record buildStagingBudget := mkBudget { ceilings : buildStagingCeilings; bytesRemaining : Z; entriesRemaining : Z }.

Definition newBuildStagingBudget (c : buildStagingCeilings) : buildStagingBudget := mkBudget c (MaxBytes c) (MaxEntries c).

Definition reserveBytes (size : Z) (b : buildStagingBudget) : buildStagingBudget + staging_error :=
  if (size <? 0) || (bytesRemaining b <? size)
  then inr (buildStagingCeilingError "bytes" (MaxBytes (ceilings b)) size)
  else inl (mkBudget (ceilings b) (bytesRemaining b - size) (entriesRemaining b)).

Definition checkDepth (depth : Z) (b : buildStagingBudget) : buildStagingBudget + staging_error :=
  if MaxDepth (ceilings b) <? depth
  then inr (buildStagingCeilingError "depth" (MaxDepth (ceilings b)) depth)
  else inl b.

Definition admitEnumeration (b : buildStagingBudget) : buildStagingBudget + staging_error :=
  if entriesRemaining b <? 1
  then inr (buildStagingCeilingError "entries" (MaxEntries (ceilings b)) (MaxEntries (ceilings b) + 1))
  else inl (mkBudget (ceilings b) (bytesRemaining b) (entriesRemaining b - 1)).

(** ** Link text *)

Fixpoint dotdot_after_name (seenName : bool) (parts : list string) : bool :=
  match parts with
  | [] => false
  | part :: parts =>
      if bool_decide (part = "" ∨ part = ".") then dotdot_after_name seenName parts
      else if bool_decide (part = "..") then seenName || dotdot_after_name seenName parts
      else dotdot_after_name true parts
  end.

Definition symlinkTargetWithinStagedContext (relDir target : string) : bool :=
  if bool_decide (target = "") || IsAbs target then false
  else if dotdot_after_name false (split_sep target) then false
  else let resolved := Clean (Join [relDir; target]) in
       bool_decide (resolved ≠ "..") && negb (String.prefix "../" resolved).

(** ** What the walk is told of the source *)

Definition S_IFMT : Z := 61440.   (* 0o170000 *)
Definition S_IFLNK : Z := 40960.  (* 0o120000 *)
Definition S_IFREG : Z := 32768.  (* 0o100000 *)
Definition S_IFDIR : Z := 16384.  (* 0o040000 *)
Definition S_ISUID : Z := 2048.   (* 0o4000 *)
Definition S_ISGID : Z := 1024.   (* 0o2000 *)

Record stat := mkStat { st_Dev : Z; st_Ino : Z; st_Mode : Z; st_Size : Z }.

(** One entry: the stat of its O_PATH descriptor, the target of its link, the stat of
    the reopened descriptor, the answers of the reads, the listing and whether the
    listing was read to its end; [None] where a call failed. *)
Inductive source :=
  Source (pin : option stat) (link : option string) (reopened : option stat) (reads : list (option string))
    (entries : list (string * source)) (listed : bool).

(** ** The destination *)

(** An empty path is the context root. *)
Inductive snode := NDir (mode : Z) | NLink (target : string) | NFile (i : nat).
Record inode := mkInode { in_mode : Z; in_data : string }.

Record walk_state := mkWalk {
  ws_tree : gmap (list string) snode; ws_inodes : gmap nat inode; ws_hardlinks : gmap (Z * Z) string;
  ws_budget : buildStagingBudget; ws_faults : list bool }.

Definition with_tree (t : gmap (list string) snode) (s : walk_state) : walk_state :=
  mkWalk t (ws_inodes s) (ws_hardlinks s) (ws_budget s) (ws_faults s).
Definition with_inodes (m : gmap nat inode) (s : walk_state) : walk_state :=
  mkWalk (ws_tree s) m (ws_hardlinks s) (ws_budget s) (ws_faults s).
Definition with_hardlinks (m : gmap (Z * Z) string) (s : walk_state) : walk_state :=
  mkWalk (ws_tree s) (ws_inodes s) m (ws_budget s) (ws_faults s).
Definition with_budget (b : buildStagingBudget) (s : walk_state) : walk_state :=
  mkWalk (ws_tree s) (ws_inodes s) (ws_hardlinks s) b (ws_faults s).
Definition with_faults (f : list bool) (s : walk_state) : walk_state :=
  mkWalk (ws_tree s) (ws_inodes s) (ws_hardlinks s) (ws_budget s) f.

Definition SM (A : Type) : Type := walk_state → (A + staging_error) * walk_state.
#[export] Instance sm_ret : MRet SM := λ A a s, (inl a, s).
#[export] Instance sm_bind : MBind SM := λ A B k m s,
  match m s with (inl a, s) => k a s | (inr e, s) => (inr e, s) end.

Definition throw {A} (e : staging_error) : SM A := λ s, (inr e, s).
Definition failed {A} (what : string) : SM A := throw (staging_failed what).
Definition get {A} (f : walk_state → A) : SM A := λ s, (inl (f s), s).
Definition modify (f : walk_state → walk_state) : SM () := λ s, (inl (), f s).
Definition spend (f : buildStagingBudget → buildStagingBudget + staging_error) : SM () := λ s,
  match f (ws_budget s) with inl b => (inl (), with_budget b s) | inr e => (inr e, s) end.

(** A call that may fail. *)
Definition call (what : string) : SM () := λ s,
  match ws_faults s with
  | true :: f => (inr (staging_failed what), with_faults f s)
  | false :: f => (inl (), with_faults f s)
  | [] => (inl (), s)
  end.

(** A check of the request's context. *)
Definition check_cancelled : SM () := call "context canceled".

(** [undo] when [m] fails; its own failure is ignored. *)
Definition or_undo {A} (m : SM A) (undo : SM ()) : SM A := λ s,
  match m s with
  | (inl a, s) => (inl a, s)
  | (inr e, s) => (inr e, (undo s).2)
  end.

(** Creation fails where the name exists. *)
Definition create (what : string) (path : list string) (n : snode) : SM () :=
  _ ← call what;
  t ← get ws_tree;
  match t !! path with Some _ => failed what | None => modify (λ s, with_tree (<[path := n]> (ws_tree s)) s) end.

Definition unlink (path : list string) : SM () :=
  _ ← call "cannot unlink";
  modify (λ s, with_tree (delete path (ws_tree s)) s).

(** A directory is removed when it is empty. *)
Definition remove_dir (path : list string) : SM () :=
  _ ← call "cannot remove directory";
  t ← get ws_tree;
  if bool_decide (map_Forall (λ p _, ¬ (path `prefix_of` p ∧ p ≠ path)) t)
  then modify (λ s, with_tree (delete path (ws_tree s)) s) else failed "directory not empty".

Definition chmod_dir (path : list string) (mode : Z) : SM () :=
  modify (λ s, with_tree (alter (λ n, match n with NDir _ => NDir mode | n => n end) path (ws_tree s)) s).

Definition write_inode (i : nat) (f : inode → inode) : SM () :=
  modify (λ s, with_inodes (alter f i (ws_inodes s)) s).

(** ** Files *)

Definition copyChunkSize : Z := 128 * 1024.

Fixpoint copyFileContents (reads : list (option string)) (i : nat) (off size : Z) : SM () :=
  if size <=? off then mret () else
  _ ← check_cancelled;
  let chunk := Z.min copyChunkSize (size - off) in
  match reads with
  | [] => failed "unexpected EOF"
  | None :: _ => failed "cannot read"
  | Some b :: reads =>
      let buf := String.substring 0 (Z.to_nat chunk) b in
      if bool_decide (buf = "") then failed "unexpected EOF" else
      _ ← call "cannot write";
      _ ← write_inode i (λ n, mkInode (in_mode n) (in_data n +:+ buf));
      copyFileContents reads i (off + Z.of_nat (String.length buf)) size
  end.

(** A new inode with its first name. *)
Definition create_file (path : list string) : SM nat :=
  i ← get (λ s, fresh (dom (ws_inodes s)));
  _ ← create "cannot create" path (NFile i);
  _ ← modify (λ s, with_inodes (<[i := mkInode 0 ""]> (ws_inodes s)) s);
  mret i.

(** The hardlink map's path names the first copy. *)
Definition link_file (relPath : string) (path : list string) : SM () :=
  t ← get ws_tree;
  match t !! filter (λ w, w ≠ "") (split_sep relPath) with
  | Some (NFile i) => create "cannot create hardlink" path (NFile i)
  | _ => failed "cannot create hardlink"
  end.

Definition same_identity (a b : stat) : bool :=
  (st_Dev a =? st_Dev b) && (st_Ino a =? st_Ino b) && (Z.land (st_Mode a) S_IFMT =? Z.land (st_Mode b) S_IFMT).

Definition reopen (what : string) (st : stat) (reopened : option stat) : SM () :=
  match reopened with
  | None => failed what
  | Some rst => if same_identity rst st then mret () else failed "identity mismatch"
  end.

(** The permission bits without the two privilege bits. *)
Definition file_mode_of (mode : Z) : Z := Z.ldiff (Z.land mode 4095) (Z.lor S_ISUID S_ISGID).

Definition copy_link (link : option string) (path : list string) (relPrefix : string) : SM () :=
  match link with
  | None => failed "cannot read symlink"
  | Some target =>
      if negb (symlinkTargetWithinStagedContext relPrefix target) then throw errBuildStagingSymlinkOutsideContext
      else
        _ ← spend (reserveBytes (Z.of_nat (String.length target)));
        _ ← create "cannot create symlink" path (NLink target);
        or_undo (call "cannot set symlink times") (unlink path)
  end.

Definition copy_file (st : stat) (reopened : option stat) (reads : list (option string)) (path : list string)
    (relPath : string) : SM () :=
  hardlinks ← get ws_hardlinks;
  match hardlinks !! (st_Dev st, st_Ino st) with
  | Some first => link_file first path
  | None =>
      _ ← reopen "cannot open for reading" st reopened;
      _ ← spend (reserveBytes (st_Size st));
      i ← create_file path;
      _ ← or_undo (copyFileContents reads i 0 (st_Size st)) (unlink path);
      _ ← or_undo (call "cannot chmod") (unlink path);
      _ ← write_inode i (λ n, mkInode (file_mode_of (st_Mode st)) (in_data n));
      _ ← or_undo (call "cannot set file times") (unlink path);
      modify (λ s, with_hardlinks (<[(st_Dev st, st_Ino st) := relPath]> (ws_hardlinks s)) s)
  end.

(** ** The walk *)

Definition is_dot (name : string) : bool := bool_decide (name = "." ∨ name = "..").

(** [readDirectoryEntries]: every name is admitted before any of them is copied. *)
Fixpoint admit_entries (entries : list (string * source)) (listed : bool) : SM () :=
  match entries with
  | [] => if listed then mret () else failed "cannot read directory"
  | (name, _) :: entries =>
      _ ← (if is_dot name then mret () else spend admitEnumeration);
      admit_entries entries listed
  end.

Section each.
Context (copy : string → source → SM ()).
Fixpoint copy_each (entries : list (string * source)) : SM () :=
  match entries with
  | [] => mret ()
  | (name, src) :: entries =>
      _ ← (if is_dot name then mret () else _ ← check_cancelled; copy name src);
      copy_each entries
  end.
End each.

(** [copyEntry]; the recursion of a directory is [walkAndCopy].  [dir] is the staged
    directory of the entry, [relPrefix] its path as the walk carries it. *)
Fixpoint copyEntry (src : source) (name : string) (dir : list string) (relPrefix : string) (depth : Z) : SM () :=
  let 'Source pin link reopened reads entries listed := src in
  let path := dir ++ [name] in
  match pin with
  | None => failed "cannot O_PATH open"
  | Some st =>
      let kind := Z.land (st_Mode st) S_IFMT in
      if kind =? S_IFLNK then copy_link link path relPrefix
      else if kind =? S_IFREG then copy_file st reopened reads path (Join [relPrefix; name])
      else if kind =? S_IFDIR then
        _ ← reopen "cannot open directory for reading" st reopened;
        _ ← spend (checkDepth depth);
        _ ← create "cannot create directory" path (NDir 448);
        _ ← or_undo (call "cannot open destination directory") (remove_dir path);
        _ ← or_undo
              (_ ← check_cancelled;
               _ ← admit_entries entries listed;
               copy_each (λ n s, copyEntry s n path (Join [relPrefix; name]) (depth + 1)) entries) (remove_dir path);
        _ ← or_undo (call "cannot chmod directory") (remove_dir path);
        _ ← chmod_dir path (Z.land (st_Mode st) 4095);
        or_undo (call "cannot set directory times") (remove_dir path)
      else failed "unsupported file type"
  end.

Definition walkAndCopy (entries : list (string * source)) (listed : bool) (dir : list string) (relPrefix : string)
    (dirDepth : Z) : SM () :=
  _ ← check_cancelled;
  _ ← admit_entries entries listed;
  copy_each (λ n s, copyEntry s n dir relPrefix (dirDepth + 1)) entries.

(** ** The staged context *)

Record stagedBuildContext := mkStaged { ContextPath : string; DockerfilePath : string; cleanupPath : string }.

(** [filepath.IsLocal] *)
Definition IsLocal (path : string) : bool :=
  if IsAbs path || bool_decide (path = "") then false
  else
    let path := if existsb (λ w, is_dot w) (split_sep path) then Clean path else path in
    bool_decide (path ≠ "..") && negb (String.prefix "../" path).

Definition isValidDockerfileRel (path : string) : bool :=
  if bool_decide (path = "" ∨ path = ".") then false
  else if IsAbs path then false
  else if negb (IsLocal path) then false
  else bool_decide (Clean path = path).

(** What openat2 reaches beneath [cur] without following a link. *)
Fixpoint open_beneath (t : gmap (list string) snode) (cur parts : list string) : option (list string) :=
  match parts with
  | [] => Some cur
  | w :: parts =>
      if bool_decide (w = "" ∨ w = ".") then open_beneath t cur parts
      else if bool_decide (w = "..") then
        match cur with [] => None | _ => open_beneath t (take (pred (length cur)) cur) parts end
      else match t !! (cur ++ [w]) with
           | Some (NDir _) => open_beneath t (cur ++ [w]) parts
           | Some (NFile _) => if bool_decide (parts = []) then Some (cur ++ [w]) else None
           | _ => None
           end
  end.

(** The operation directories below <runtime>/builds, with the staged tree of each. *)
Abbreviation staging_dirs := (gmap string (gmap (list string) snode * gmap nat inode)).

Definition staged_paths (runtimeDir operationID dockerfileRel : string) : stagedBuildContext :=
  let cleanupPath := Join [runtimeDir; "builds"; operationID] in
  let stagingPath := Join [cleanupPath; "context"] in
  mkStaged stagingPath (Join [stagingPath; dockerfileRel]) cleanupPath.

(** The context root is open and empty. *)
Definition walk_start (c : buildStagingCeilings) (faults : list bool) : walk_state :=
  mkWalk {[ [] := NDir 448 ]} ∅ ∅ (newBuildStagingBudget c) faults.

(** The walk and the verification of the Dockerfile in the staged copy. *)
Definition stage_walk (entries : list (string * source)) (listed : bool) (dockerfileRel : string) : SM () :=
  _ ← walkAndCopy entries listed [] "" 0;
  _ ← call "cannot open staging for verification";
  _ ← call "Dockerfile not found in staging";
  t ← get ws_tree;
  match open_beneath t [] (split_sep dockerfileRel) with
  | Some path => match t !! path with Some (NFile _) => mret () | _ => failed "Dockerfile is not a regular file" end
  | None => failed "Dockerfile not found in staging"
  end.

(** A recursive removal of an operation directory: complete, or what it leaves. *)
Definition remove_all (left : option (list string → bool)) (operationID : string) (staged : gmap (list string) snode * gmap nat inode)
    (dirs : staging_dirs) : staging_dirs :=
  match left with
  | None => delete operationID dirs
  | Some keep => <[operationID := (filter (λ e : list string * snode, keep (fst e) = true) (fst staged), snd staged)]> dirs
  end.

(** [pinned] tells whether the workspace, the context, the runtime and the builds
    directory could be opened without following a link; [faults] are the calls that fail
    after the operation directory was made (its own opening and the making of the context
    directory first); [left] is what the recursive removal leaves. *)
Definition stageBuildContextInternal (c : buildStagingCeilings) (workspace contextPath dockerfileRel runtimeDir operationID : string)
    (pinned : bool) (entries : list (string * source)) (listed : bool) (faults : list bool) (left : option (list string → bool)) (dirs : staging_dirs)
    : (stagedBuildContext + staging_error) * staging_dirs :=
  let refuse what := (inr (staging_failed what), dirs) in
  if negb (IsAbs workspace) then refuse "workspace must be absolute"
  else if negb (IsAbs contextPath) then refuse "context path must be absolute"
  else if negb (IsAbs runtimeDir) then refuse "runtime dir must be absolute"
  else if negb (isOperationIDSafe operationID) then refuse "invalid operation ID"
  else if negb (isValidDockerfileRel dockerfileRel) then refuse "invalid dockerfile relative path"
  else if negb (pathWithin workspace contextPath) then refuse "context path escapes workspace"
  else if negb pinned then refuse "cannot pin"
  else match dirs !! operationID with
  | Some _ => refuse "operation directory already exists"
  | None =>
      let m := _ ← call "cannot open operation directory"; _ ← call "cannot create staging directory";
               _ ← call "cannot open staging directory"; stage_walk entries listed dockerfileRel in
      match m (walk_start c faults) with
      | (inl _, s) => (inl (staged_paths runtimeDir operationID dockerfileRel), <[operationID := (ws_tree s, ws_inodes s)]> dirs)
      | (inr e, s) => (inr e, remove_all left operationID (ws_tree s, ws_inodes s) dirs)
      end
  end.

Definition StageBuildContext := stageBuildContextInternal productionBuildStagingCeilings.

(** [Cleanup]: the whole operation directory; a later call returns the first answer. *)
Definition Cleanup (operationID : string) (left : option (list string → bool)) (dirs : staging_dirs) : bool * staging_dirs :=
  match dirs !! operationID with
  | Some staged => (match left with None => true | Some _ => false end, remove_all left operationID staged dirs)
  | None => (true, dirs)
  end.
