(* ===== verification/StagingTheory.v ===== *)
(** * StagingTheory: link text, resolution in a staged copy, and the logic of the walk *)
From S2P Require Import Prelude Filepath Operation Staging.
Local Open Scope Z_scope.

(** ** Link text *)

(** The [..] components before the first name. *)
Fixpoint ups (parts : list string) : nat :=
  match parts with
  | [] => 0
  | w :: parts => if bool_decide (w = "" ∨ w = ".") then ups parts
                  else if bool_decide (w = "..") then S (ups parts) else 0
  end.

(** It climbs at most [n] directories, before its first name only. *)
Definition climbs (n : nat) (parts : list string) : Prop := dotdot_after_name false parts = false ∧ (ups parts ≤ n)%nat.

Lemma skip_or (w : string) : {w = "" ∨ w = "."} + {w = ".."} + {w ≠ "" ∧ w ≠ "." ∧ w ≠ ".."}.
Proof. destruct (decide (w = "" ∨ w = ".")); [by left; left|]. destruct (decide (w = "..")); [by left; right|]. right. tauto. Qed.

(** One component of [Clean] on a relative path. *)
Lemma step_skip out w : w = "" ∨ w = "." → clean_step false out w = out.
Proof. intros H. unfold clean_step. by rewrite bool_decide_eq_true_2. Qed.
Lemma step_up out : clean_step false out ".." = match out with [] => [".."] | top :: rest => if bool_decide (top = "..") then ".." :: out else rest end.
Proof. done. Qed.

Lemma dda_skip b w parts : w = "" ∨ w = "." → dotdot_after_name b (w :: parts) = dotdot_after_name b parts.
Proof. intros H. simpl. by rewrite bool_decide_eq_true_2. Qed.
Lemma dda_name b w parts : w ≠ "" ∧ w ≠ "." ∧ w ≠ ".." → dotdot_after_name b (w :: parts) = dotdot_after_name true parts.
Proof. intros (? & ? & ?). simpl. rewrite !bool_decide_eq_false_2; tauto. Qed.
Lemma ups_skip w parts : w = "" ∨ w = "." → ups (w :: parts) = ups parts.
Proof. intros H. simpl. by rewrite bool_decide_eq_true_2. Qed.
Lemma ups_name w parts : w ≠ "" ∧ w ≠ "." ∧ w ≠ ".." → ups (w :: parts) = 0%nat.
Proof. intros (? & ? & ?). simpl. rewrite !bool_decide_eq_false_2; tauto. Qed.

Lemma dda_true_false parts : dotdot_after_name true parts = false → dotdot_after_name false parts = false ∧ ups parts = 0%nat.
Proof.
  induction parts as [|w parts IH]; [done|]. destruct (skip_or w) as [[Hs| ->]|Hn].
  - rewrite !dda_skip, ups_skip by done. done.
  - done.
  - rewrite !dda_name, ups_name by done. done.
Qed.

Lemma dda_app b a rest : dotdot_after_name true rest = false → dotdot_after_name b (a ++ rest) = dotdot_after_name b a.
Proof.
  intros Hr. revert b. induction a as [|w a IH]; intros b.
  - destruct b; [done|]. by apply dda_true_false.
  - simpl app. destruct (skip_or w) as [[Hs| ->]|Hn].
    + by rewrite !dda_skip by done.
    + simpl. by rewrite IH.
    + by rewrite !dda_name by done.
Qed.

Lemma ups_app a rest : dotdot_after_name true rest = false → ups (a ++ rest) = ups a.
Proof.
  intros Hr. induction a as [|w a IH]; [by apply dda_true_false|]. simpl app. destruct (skip_or w) as [[Hs| ->]|Hn].
  - by rewrite !ups_skip.
  - simpl. by rewrite IH.
  - by rewrite !ups_name.
Qed.

Lemma step_pop top rest : proper top → clean_step false (top :: rest) ".." = rest.
Proof. intros (_ & _ & _ & H). rewrite step_up. by rewrite bool_decide_eq_false_2. Qed.

(** Once the output starts with [..] it keeps starting with it. *)
Lemma clean_stuck out parts : last out = Some ".." → last (foldl (clean_step false) out parts) = Some "..".
Proof.
  revert out. induction parts as [|w parts IH]; intros out H; [done|]. simpl. apply IH. clear IH.
  destruct (skip_or w) as [[Hs| ->]|(? & ? & ?)].
  - by rewrite step_skip.
  - rewrite step_up. destruct out as [|top rest]; [done|]. case_bool_decide as E; [by rewrite last_cons, H|].
    rewrite last_cons in H. destruct (last rest) eqn:El; [done|]. congruence.
  - unfold clean_step. rewrite !bool_decide_eq_false_2 by tauto. rewrite last_cons, H. done.
Qed.

Lemma clean_climb (p parts : list string) :
  Forall proper p → dotdot_after_name false parts = false → (length p < ups parts)%nat →
  last (foldl (clean_step false) (reverse p) parts) = Some "..".
Proof.
  revert p. induction parts as [|w parts IH]; intros p Hp Hd Hu; [simpl in Hu; lia|]. destruct (skip_or w) as [[Hs| ->]|Hn].
  - simpl. rewrite step_skip by done. rewrite dda_skip in Hd by done. rewrite ups_skip in Hu by done. by apply IH.
  - simpl. destruct p as [|x p] using rev_ind; [by apply clean_stuck|]. rewrite reverse_snoc.
    apply Forall_app in Hp as [Hp [Hx _]%Forall_cons]. rewrite (step_pop x _ Hx).
    apply IH; [done|done|]. simpl in Hu. rewrite length_app in Hu. simpl in Hu. lia.
  - rewrite ups_name in Hu by done. lia.
Qed.

Lemma clean_stays (p parts : list string) :
  Forall proper p → Forall (λ w, no_sep w = true) parts → climbs (length p) parts →
  Forall proper (foldl (clean_step false) (reverse p) parts).
Proof.
  revert p. induction parts as [|w parts IH]; intros p Hp Hs [Hd Hu]; [by apply Forall_reverse|].
  apply Forall_cons in Hs as [Hw Hs]. destruct (skip_or w) as [[Hk| ->]|Hn].
  - simpl. rewrite step_skip by done. rewrite dda_skip in Hd by done. rewrite ups_skip in Hu by done. by apply IH.
  - simpl. destruct p as [|x p] using rev_ind; [simpl in Hu; lia|]. rewrite reverse_snoc.
    apply Forall_app in Hp as [Hp [Hx _]%Forall_cons]. rewrite (step_pop x _ Hx).
    apply IH; [done..|]. split; [done|]. simpl in Hu. rewrite length_app in Hu. simpl in Hu. lia.
  - simpl foldl. rewrite clean_step_proper by (split; [done|tauto]). change (w :: reverse p) with (reverse [w] ++ reverse p).
    rewrite <-reverse_app. apply IH; [|done|].
    + apply Forall_app. split; [done|]. repeat constructor; tauto.
    + rewrite dda_name in Hd by done. apply dda_true_false in Hd as [Hd Hz]. split; [done|lia].
Qed.

Lemma relative_head (l : list string) : Forall proper l → l ≠ [] → IsAbs (join_sep l) = false.
Proof.
  intros Hl Hne. destruct l as [|w l]; [done|]. apply Forall_cons in Hl as [(Hs & Hw & _) _].
  destruct w as [|c w]; [done|]. simpl in Hs. apply andb_true_iff in Hs as [Hc _].
  assert (c ≠ Separator) by (intros ->; by rewrite bool_decide_eq_true_2 in Hc).
  destruct l; simpl; unfold IsAbs; simpl; destruct (ascii_dec _ _) as [<-|]; done.
Qed.

(** The path of a staged directory followed by a link's text. *)
Lemma joined_comps (p : list string) (t : string) :
  Forall proper p → t ≠ "" → IsAbs t = false →
  IsAbs (join_sep (filter (λ e, e ≠ "") [join_sep p; t])) = false ∧
  split_sep (join_sep (filter (λ e, e ≠ "") [join_sep p; t])) = p ++ split_sep t.
Proof.
  intros Hp Ht Ha. destruct p as [|x p'] eqn:E.
  - simpl. rewrite filter_cons_False by (by intros []). rewrite filter_cons_True by done. by rewrite filter_nil.
  - assert (Hne : join_sep (x :: p') ≠ "").
    { apply Forall_cons in Hp as [(_ & Hx & _) _]. destruct x; [done|]. by destruct p'. }
    rewrite !filter_cons_True by done. rewrite filter_nil. rewrite <-E in *. clear E.
    change (join_sep [join_sep p; t]) with (join_sep p +:+ String Separator t).
    assert (Hsplit : ∀ q, Forall proper q → q ≠ [] → split_sep (join_sep q +:+ String Separator t) = q ++ split_sep t).
    { clear. intros q Hq. induction q as [|w q IH]; [done|]. intros _. apply Forall_cons in Hq as [[Hw _] Hq].
      destruct q as [|v q]; [simpl; by rewrite split_sep_app|].
      change (join_sep (w :: v :: q)) with (w +:+ String Separator (join_sep (v :: q))).
      rewrite str_app_assoc.
      change (String Separator (join_sep (v :: q)) +:+ String Separator t) with (String Separator (join_sep (v :: q) +:+ String Separator t)).
      rewrite split_sep_app by done. by rewrite IH. }
    assert (p ≠ []) by (by intros ->). split; [|by apply Hsplit].
    pose proof (relative_head p Hp H). destruct (join_sep p) as [|c s]; [done|]. unfold IsAbs in *. simpl in *. destruct (ascii_dec _ _); [by destruct s|done].
Qed.

Lemma join_head (w : string) l : no_sep w = true → (join_sep (w :: l) = ".." ∨ String.prefix "../" (join_sep (w :: l)) = true) → w = "..".
Proof.
  intros Hw H. assert (E : ∃ r, split_sep (join_sep (w :: l)) = w :: r).
  { destruct l; simpl; [rewrite split_sep_no_sep by done|rewrite split_sep_app by done]; by eexists. }
  destruct E as [r E]. destruct H as [H|H].
  - rewrite H in E. simpl in E. congruence.
  - apply str_prefix_spec in H as [s H]. rewrite H in E. simpl in E. congruence.
Qed.

Lemma head_join l : hd_error l = Some ".." → join_sep l = ".." ∨ String.prefix "../" (join_sep l) = true.
Proof. destruct l as [|w [|v l]]; simpl; [done|intros [= ->]; by left|intros [= ->]; right; apply str_prefix_spec; by eexists]. Qed.

Lemma hd_reverse (l : list string) x : last l = Some x → hd_error (reverse l) = Some x.
Proof. destruct l as [|y l] using rev_ind; [done|]. rewrite last_snoc, reverse_snoc. done. Qed.

(** The guard of the copy accepts exactly the relative texts that climb, before their
    first name only, at most to the context root. *)
Lemma link_text_spec (p : list string) (t : string) :
  Forall proper p →
  symlinkTargetWithinStagedContext (join_sep p) t = true ↔ t ≠ "" ∧ IsAbs t = false ∧ climbs (length p) (split_sep t).
Proof.
  intros Hp. unfold symlinkTargetWithinStagedContext.
  destruct (decide (t = "")) as [->|Ht]; [simpl; split; [done|]; by intros [? _]|]. rewrite (bool_decide_eq_false_2 (t = "")) by done.
  destruct (IsAbs t) eqn:Ha; [simpl; split; [done|]; by intros (_ & ? & _)|]. cbn [orb].
  destruct (dotdot_after_name false (split_sep t)) eqn:Hd; [split; [done|]; intros (_ & _ & H & _); congruence|]. unfold climbs. rewrite Hd.
  destruct (joined_comps p t Hp Ht Ha) as [Hab Hsp]. unfold Join.
  destruct (filter (λ e, e ≠ "") [join_sep p; t]) as [|e0 es] eqn:Ef.
  { exfalso. assert (Hin : t ∈ filter (λ e, e ≠ "") [join_sep p; t]).
    { apply list_elem_of_filter. split; [done|]. apply list_elem_of_lookup. by exists 1%nat. }
    rewrite Ef in Hin. by apply not_elem_of_nil in Hin. }
  set (x := join_sep (e0 :: es)) in *. clearbody x. clear Ef e0 es.
  set (out := foldl (clean_step false) (reverse p) (split_sep t)).
  assert (Ecx : clean_comps x = reverse out).
  { unfold clean_comps. rewrite Hab, Hsp, foldl_app. unfold out. f_equal. f_equal.
    pose proof (foldl_clean_proper false [] p Hp) as E. rewrite E. by rewrite app_nil_r. }
  assert (Hns : Forall (λ w, no_sep w = true) (reverse out)).
  { rewrite <-Ecx. unfold clean_comps. apply Forall_reverse. rewrite Hab.
    assert (Hg : ∀ l o, Forall (λ w, no_sep w = true) o → Forall (λ w, no_sep w = true) l → Forall (λ w, no_sep w = true) (foldl (clean_step false) o l)).
    { clear. induction l as [|w l IH]; intros o Ho Hl; [done|]. apply Forall_cons in Hl as [Hw Hl]. simpl. apply IH; [|done].
      destruct (skip_or w) as [[Hs| ->]|(? & ? & ?)]; [by rewrite step_skip| |].
      - rewrite step_up. destruct o as [|top rest]; [repeat constructor|]. case_bool_decide; [by constructor|by apply Forall_cons in Ho as [_ ?]].
      - unfold clean_step. rewrite !bool_decide_eq_false_2 by tauto. by constructor. }
    apply Hg; [constructor|]. apply split_sep_no_sep_all. }
  destruct (decide (ups (split_sep t) ≤ length p)%nat) as [Hu|Hu].
  - split; [intros _; by split_and!|]. intros _.
    assert (Hpr : Forall proper (reverse out)).
    { apply Forall_reverse. apply clean_stays; [done|apply split_sep_no_sep_all|by split]. }
    assert (Hc : ∃ l, Forall proper l ∧ clean_comps (Clean x) = l ∧ IsAbs (Clean x) = false).
    { unfold Clean. rewrite Hab, Ecx. destruct (reverse out) as [|w l]; [by exists []|]. exists (w :: l). split; [done|].
      pose proof (relative_head _ Hpr ltac:(done)) as Hr. split; [|done]. unfold clean_comps. rewrite Hr, split_join by (try done; by apply proper_no_sep).
      rewrite foldl_clean_proper by done. by rewrite app_nil_r, reverse_involutive. }
    destruct Hc as (l & Hl & El & Hr).
    assert (EC : Clean (Clean x) = match l with [] => "." | _ => join_sep l end) by (unfold Clean at 1; rewrite Hr, El; by destruct l).
    rewrite EC. clear EC. destruct l as [|w l]; [done|].
    apply Forall_cons in Hl as [(Hw & _ & _ & Hw') _]. apply andb_true_iff. split.
    + apply bool_decide_eq_true_2. intros E. apply Hw'. eapply join_head; [done|by left].
    + apply negb_true_iff. destruct (String.prefix _ _) eqn:E; [|done]. destruct Hw'. eapply join_head; [done|by right].
  - split; [|intros (_ & _ & _ & ?); lia]. intros H. exfalso.
    pose proof (clean_climb p (split_sep t) Hp Hd ltac:(lia)) as Hlast. fold out in Hlast.
    pose proof (hd_reverse _ _ Hlast) as Hh. destruct (reverse out) as [|w l] eqn:Ero; [done|]. injection Hh as ->.
    assert (Ex : Clean x = join_sep (".." :: l)) by (unfold Clean; by rewrite Hab, Ecx).
    rewrite Ex in H. assert (Hr : IsAbs (join_sep (".." :: l)) = false) by (by destruct l).
    assert (Hhd : hd_error (clean_comps (join_sep (".." :: l))) = Some "..").
    { unfold clean_comps. rewrite Hr, split_join by done. apply hd_reverse. simpl. by apply clean_stuck. }
    unfold Clean in H. rewrite Hr in H. destruct (clean_comps (join_sep (".." :: l))) as [|w l'] eqn:Ec; [done|].
    injection Hhd as ->. apply andb_true_iff in H as [H1 H2]. apply bool_decide_eq_true_1 in H1. apply negb_true_iff in H2.
    destruct (head_join (".." :: l') eq_refl); congruence.
Qed.

(** ** Resolution in a staged copy *)

(** Path resolution from the staged directory [cur], links followed where they stand;
    [Escaped] is a step above the context root or through an absolute link. *)
Inductive resolution := Escaped | Reached (path : list string) | Stuck.

Fixpoint resolve (fuel : nat) (t : gmap (list string) snode) (cur pending : list string) : resolution :=
  match fuel with
  | O => Stuck
  | S fuel =>
      match pending with
      | [] => Reached cur
      | w :: pending =>
          if bool_decide (w = "" ∨ w = ".") then resolve fuel t cur pending
          else if bool_decide (w = "..") then
            match cur with [] => Escaped | _ => resolve fuel t (take (pred (length cur)) cur) pending end
          else match t !! (cur ++ [w]) with
               | Some (NDir _) => resolve fuel t (cur ++ [w]) pending
               | Some (NLink target) => if IsAbs target then Escaped else resolve fuel t cur (split_sep target ++ pending)
               | Some (NFile _) => if bool_decide (pending = []) then Reached (cur ++ [w]) else Stuck
               | None => Stuck
               end
      end
  end.

(** Every link passed the guard where it stands. *)
Definition links_ok (t : gmap (list string) snode) : Prop :=
  ∀ p n target, t !! (p ++ [n]) = Some (NLink target) →
    Forall proper p ∧ symlinkTargetWithinStagedContext (join_sep p) target = true.

Lemma links_ok_weaken t' t : t ⊆ t' → links_ok t' → links_ok t.
Proof. intros Ht Hl p n target Hp. apply (Hl p n). by eapply lookup_weaken. Qed.

Lemma resolve_stays fuel t cur pending :
  links_ok t → climbs (length cur) pending → resolve fuel t cur pending ≠ Escaped.
Proof.
  intros Hl. revert cur pending. induction fuel as [|fuel IH]; intros cur pending [Hd Hu]; [done|].
  destruct pending as [|w pending]; [done|]. simpl. destruct (skip_or w) as [[Hs| ->]|Hn].
  - rewrite bool_decide_eq_true_2 by done. rewrite dda_skip in Hd by done. rewrite ups_skip in Hu by done. by apply IH.
  - simpl in Hu. destruct cur as [|x cur]; [simpl in Hu; lia|]. apply IH. split; [done|]. rewrite length_take. simpl in *. lia.
  - rewrite dda_name in Hd by done. pose proof (dda_true_false _ Hd) as [Hd' Hz]. destruct Hn as (H1 & H2 & H3). rewrite !bool_decide_eq_false_2 by tauto.
    destruct (t !! (cur ++ [w])) as [[m|target|i]|] eqn:Et; [| |by case_bool_decide|done].
    + apply IH. split; [done|]. lia.
    + apply Hl in Et as [Hp Ht]. apply link_text_spec in Ht as (_ & -> & Hc & Hup); [|done]. apply IH.
      split; [by rewrite dda_app|by rewrite ups_app].
Qed.

(** ** The logic of the walk *)

(** A relation between the states before and after, whatever the outcome. *)
Definition rel {A} (R : walk_state → walk_state → Prop) (m : SM A) : Prop := ∀ s, R s (m s).2.

Section rel.
Context (R : walk_state → walk_state → Prop) `{!PreOrder R}.

Lemma rel_ret {A} (a : A) : rel R (mret a).
Proof. by intros s. Qed.
Lemma rel_throw {A} e : rel R (throw (A := A) e).
Proof. by intros s. Qed.
Lemma rel_failed {A} e : rel R (failed (A := A) e).
Proof. by intros s. Qed.
Lemma rel_get {A} (f : walk_state → A) : rel R (get f).
Proof. by intros s. Qed.
Lemma rel_bind {A B} (m : SM A) (k : A → SM B) : rel R m → (∀ a, rel R (k a)) → rel R (m ≫= k).
Proof.
  intros Hm Hk s. specialize (Hm s). unfold mbind, sm_bind. destruct (m s) as [[a|e] s']; [|done]. etrans; [exact Hm|]. apply Hk.
Qed.
Lemma rel_or_undo {A} (m : SM A) undo : rel R m → rel R undo → rel R (or_undo m undo).
Proof. intros Hm Hu s. specialize (Hm s). unfold or_undo. destruct (m s) as [[a|e] s']; [done|]. etrans; [exact Hm|]. apply Hu. Qed.
Lemma rel_call what : (∀ s f, R s (with_faults f s)) → rel R (call what).
Proof. intros H s. unfold call. destruct (ws_faults s) as [|[] f] eqn:E; [done|apply H..]. Qed.
Lemma rel_spend f : (∀ s b, f (ws_budget s) = inl b → R s (with_budget b s)) → rel R (spend f).
Proof. intros H s. unfold spend. destruct (f (ws_budget s)) eqn:E; [by apply H|done]. Qed.

End rel.

Create HintDb walk.
#[export] Hint Resolve rel_ret rel_throw rel_failed rel_get rel_bind rel_or_undo rel_call : walk.

(** Induction on the answers, through the entries of a directory. *)
Lemma source_ind' (P : source → Prop)
    (H : ∀ pin link reopened reads entries listed, Forall (λ e, P e.2) entries → P (Source pin link reopened reads entries listed)) src : P src.
Proof.
  revert src. fix IH 1. intros [pin link reopened reads entries listed]. apply H.
  induction entries as [|[n s] entries IHe]; constructor; [apply IH|exact IHe].
Qed.

(** The names the kernel lists. *)
Definition entry_name (n : string) : Prop := no_sep n = true ∧ n ≠ "".
Inductive names_ok : source → Prop :=
  names_ok_intro pin link reopened reads entries listed :
    Forall (λ e, entry_name e.1 ∧ names_ok e.2) entries → names_ok (Source pin link reopened reads entries listed).

Lemma entry_proper n : entry_name n → is_dot n = false → proper n.
Proof. intros [H1 H2] H%bool_decide_eq_false. by split_and!; [| |intros ->; apply H; left|intros ->; apply H; right]. Qed.

Lemma proper_snoc p n : Forall proper p → proper n → Forall proper (p ++ [n]).
Proof. intros Hp Hn. apply Forall_app. split; [done|]. by constructor. Qed.

Lemma join_prefix (p : list string) n : Forall proper p → proper n → Join [join_sep p; n] = join_sep (p ++ [n]).
Proof.
  intros Hp Hn. assert (Hne : n ≠ "" ∧ IsAbs n = false).
  { split; [by destruct Hn as (_ & ? & _)|]. apply (relative_head [n]); [by constructor|done]. }
  destruct Hne as [Hne Ha]. destruct (joined_comps p n Hp Hne Ha) as [Hab Hsp]. unfold Join.
  destruct (filter (λ e, e ≠ "") [join_sep p; n]) as [|e0 es] eqn:Ef.
  { exfalso. assert (Hin : n ∈ filter (λ e, e ≠ "") [join_sep p; n]).
    { apply list_elem_of_filter. split; [done|]. apply list_elem_of_lookup. by exists 1%nat. }
    rewrite Ef in Hin. by apply not_elem_of_nil in Hin. }
  set (x := join_sep (e0 :: es)) in *. clearbody x. unfold Clean, clean_comps. rewrite Hab, Hsp.
  rewrite split_sep_no_sep by apply Hn. rewrite foldl_clean_proper by (by apply proper_snoc).
  rewrite app_nil_r, reverse_involutive. by destruct p.
Qed.

(** A relation kept by every step of the walk is kept by the walk. *)
Section walk.
Context (c : buildStagingCeilings) (R : walk_state → walk_state → Prop) `{!PreOrder R}.
Context (Hceil : ∀ s s', R s s' → ceilings (ws_budget s') = ceilings (ws_budget s)).
Context (Hfaults : ∀ s f, R s (with_faults f s)).
Context (Hlink : ∀ link dir name, Forall proper dir → proper name → (Z.of_nat (length dir) ≤ MaxDepth c) →
  ∀ s, ceilings (ws_budget s) = c → R s (copy_link link (dir ++ [name]) (join_sep dir) s).2).
Context (Hfile : ∀ st reopened reads dir name, Forall proper dir → proper name → (Z.of_nat (length dir) ≤ MaxDepth c) →
  ∀ s, ceilings (ws_budget s) = c → R s (copy_file st reopened reads (dir ++ [name]) (join_sep (dir ++ [name])) s).2).
Context (Hmkdir : ∀ dir name, Forall proper dir → proper name → (Z.of_nat (length (dir ++ [name])) ≤ MaxDepth c) →
  ∀ s, ceilings (ws_budget s) = c → R s (create "cannot create directory" (dir ++ [name]) (NDir 448) s).2).
Context (Hrmdir : ∀ path, rel R (remove_dir path)) (Hchmod : ∀ path mode, rel R (chmod_dir path mode)).
Context (Hadmit : ∀ s b, admitEnumeration (ws_budget s) = inl b → R s (with_budget b s)).

(** From a state with these ceilings. *)
Definition walks {A} (m : SM A) : Prop := ∀ s, ceilings (ws_budget s) = c → R s (m s).2.

Lemma walks_rel {A} (m : SM A) : rel R m → walks m.
Proof. intros H s _. apply H. Qed.
Lemma walks_bind {A B} (m : SM A) (k : A → SM B) : walks m → (∀ a, walks (k a)) → walks (m ≫= k).
Proof.
  intros Hm Hk s Hs. specialize (Hm s Hs). unfold mbind, sm_bind. destruct (m s) as [[a|e] s']; [|done]. simpl in Hm.
  etrans; [exact Hm|]. apply Hk. by rewrite (Hceil _ _ Hm).
Qed.
Lemma walks_undo {A} (m : SM A) undo : walks m → rel R undo → walks (or_undo m undo).
Proof. intros Hm Hu s Hs. specialize (Hm s Hs). unfold or_undo. destruct (m s) as [[a|e] s']; [done|]. etrans; [exact Hm|]. apply Hu. Qed.

Lemma walks_admit entries listed : walks (admit_entries entries listed).
Proof.
  apply walks_rel. induction entries as [|[n s] entries IH]; simpl; [destruct listed; auto with walk|].
  apply rel_bind; [done| |done]. destruct (is_dot n); auto with walk. by apply rel_spend.
Qed.

Lemma walks_each copy entries :
  Forall (λ e, is_dot e.1 = false → walks (copy e.1 e.2)) entries → walks (copy_each copy entries).
Proof.
  induction 1 as [|[n s] entries He _ IH]; simpl; [apply walks_rel; auto with walk|].
  apply walks_bind; [|done]. destruct (is_dot n) eqn:E; [apply walks_rel; auto with walk|].
  apply walks_bind; [apply walks_rel; unfold check_cancelled; auto with walk|]. intros _. by apply He.
Qed.

Lemma walks_entry src name dir depth :
  names_ok src → Forall proper dir → proper name → depth = Z.of_nat (length dir) + 1 → Z.of_nat (length dir) ≤ MaxDepth c →
  walks (copyEntry src name dir (join_sep dir) depth).
Proof.
  revert name dir depth. induction src as [pin link ro reads entries listed IH] using source_ind'.
  intros name dir depth Hn Hd Hna Hdep Hmax. inversion_clear Hn as [?????? Hent]. cbn [copyEntry].
  destruct pin as [st|]; [|apply walks_rel; auto with walk]. rewrite join_prefix by done.
  destruct (_ =? S_IFLNK); [intros s Hs; by apply Hlink|]. destruct (_ =? S_IFREG); [intros s Hs; by apply Hfile|].
  destruct (_ =? S_IFDIR); [|apply walks_rel; auto with walk].
  apply walks_bind. { apply walks_rel. unfold reopen. destruct ro; [case_match|]; auto with walk. } intros _ s Hs.
  unfold mbind at 1, sm_bind at 1, spend, checkDepth. rewrite Hs. destruct (Z.ltb_spec (MaxDepth c) depth) as [Hlt|Hle]; [done|].
  assert (Ews : with_budget (ws_budget s) s = s) by (by destruct s). rewrite Ews. clear Ews.
  assert (Hlen : Z.of_nat (length (dir ++ [name])) ≤ MaxDepth c) by (rewrite length_app; simpl; lia).
  revert s Hs. apply walks_bind; [intros s Hs; by apply Hmkdir|]. intros _.
  apply walks_bind; [apply walks_rel; auto with walk|]. intros _.
  apply walks_bind.
  { apply walks_undo; [|done]. apply walks_bind; [apply walks_rel; unfold check_cancelled; auto with walk|]. intros _.
    apply walks_bind; [apply walks_admit|]. intros _. apply walks_each.
    rewrite Forall_forall in IH, Hent |- *. intros [n src] He Hdot. destruct (Hent _ He) as [Hen Hok]. simpl in *.
    apply (IH (n, src) He); [done| |by apply entry_proper| |done].
    - by apply proper_snoc.
    - rewrite length_app. simpl. lia. }
  intros _. apply walks_bind; [apply walks_rel; auto with walk|]. intros _.
  apply walks_bind; [by apply walks_rel|]. intros _. apply walks_rel; auto with walk.
Qed.

Lemma walks_walk entries listed :
  Forall (λ e, entry_name e.1 ∧ names_ok e.2) entries → 0 ≤ MaxDepth c → walks (walkAndCopy entries listed [] "" 0).
Proof.
  intros Hent H0. unfold walkAndCopy. apply walks_bind; [apply walks_rel; unfold check_cancelled; auto with walk|]. intros _.
  apply walks_bind; [apply walks_admit|]. intros _. apply walks_each. rewrite Forall_forall in Hent |- *.
  intros [n src] He Hdot. destruct (Hent _ He) as [Hen Hok]. simpl in *. apply (walks_entry src n []); [done..|by apply entry_proper|done|simpl; lia].
Qed.

End walk.
