(* ===== verification/StagingSpec.v ===== *)
(** * StagingSpec: what a staged build context guarantees

    Its links stay inside, it is within the ceilings at every moment, a refusal leaves
    nothing, and a success is a copy of what the walk was told. *)
From S2P Require Import Prelude Filepath GoStrings Operation Staging StagingTheory.
Local Open Scope Z_scope.

(** ** Sums over finite maps *)

Section sums.
Context {K V : Type} `{Countable K} (f : V → Z).

Definition sum_of (m : gmap K V) : Z := map_fold (λ _ v acc, f v + acc) 0 m.

Lemma sum_insert m k v : m !! k = None → sum_of (<[k := v]> m) = f v + sum_of m.
Proof. intros Hk. unfold sum_of. rewrite map_fold_insert_L; [done| |done]. intros. lia. Qed.
Lemma sum_delete m k v : m !! k = Some v → sum_of m = f v + sum_of (delete k m).
Proof. intros Hk. rewrite <-(insert_delete_id m k v) at 1 by done. apply sum_insert, lookup_delete_eq. Qed.
Lemma sum_alter m k g : (∀ v, m !! k = Some v → f (g v) = f v) → sum_of (alter g k m) = sum_of m.
Proof.
  intros Hg. destruct (m !! k) as [v|] eqn:E; [|by rewrite alter_id by congruence].
  rewrite (sum_delete m k v E), (sum_delete (alter g k m) k (g v)) by (by rewrite lookup_alter_eq, E).
  rewrite Hg by done. by rewrite delete_alter_eq.
Qed.
Lemma sum_nonneg m : (∀ v, 0 ≤ f v) → 0 ≤ sum_of m.
Proof. intros Hf. unfold sum_of. apply (map_fold_weak_ind (λ r _, 0 ≤ r)); [done|]. intros k v m' r _ Hr. specialize (Hf v). lia. Qed.
Lemma sum_subseteq m m' : (∀ v, 0 ≤ f v) → m ⊆ m' → sum_of m ≤ sum_of m'.
Proof.
  intros Hf. revert m'. induction m as [|k v m Hk IH] using map_ind; intros m' Hm; [by apply sum_nonneg|].
  assert (Hv : m' !! k = Some v) by (eapply lookup_weaken; [apply lookup_insert_eq|done]).
  rewrite sum_insert, (sum_delete m' k v Hv) by done. enough (m ⊆ delete k m') as H1 by (apply IH in H1; lia).
  apply map_subseteq_spec. intros j x Hj. assert (k ≠ j) by congruence. rewrite lookup_delete_ne by done.
  eapply lookup_weaken; [|exact Hm]. by rewrite lookup_insert_ne.
Qed.
Lemma sum_delete_le m k : (∀ v, 0 ≤ f v) → sum_of (delete k m) ≤ sum_of m.
Proof.
  intros Hf. destruct (m !! k) as [v|] eqn:E; [|by rewrite delete_id]. rewrite (sum_delete m k v E). specialize (Hf v). lia.
Qed.
End sums.

Definition link_len (n : snode) : Z := match n with NLink target => Z.of_nat (String.length target) | _ => 0 end.
Definition data_len (n : inode) : Z := Z.of_nat (String.length (in_data n)).

(** The bytes written: the targets of the links and the data of every file made. *)
Definition written (t : gmap (list string) snode) (m : gmap nat inode) : Z := sum_of link_len t + sum_of data_len m.

(** ** The primitive steps *)

Lemma create_cases what path n s :
  ∃ f, create what path n s = (inr (staging_failed what), with_faults f s) ∨
  (ws_tree s !! path = None ∧ create what path n s = (inl (), with_tree (<[path := n]> (ws_tree s)) (with_faults f s))).
Proof.
  unfold create, mbind, sm_bind, call, get, modify. destruct (ws_faults s) as [|[] f] eqn:Ef.
  - exists []. destruct (ws_tree s !! path) eqn:E; [left|right]; simpl; rewrite ?E; destruct s; simpl in *; by subst.
  - exists f. by left.
  - exists f. simpl. destruct (ws_tree s !! path) eqn:E; [by left|by right].
Qed.

Lemma call_cases what s : ∃ f r, call what s = (r, with_faults f s).
Proof. unfold call. destruct (ws_faults s) as [|[] f] eqn:E; [exists []|exists f..]; eexists; [|done..]. destruct s; simpl in *; by subst. Qed.

Lemma unlink_cases path s : ∃ f, (unlink path s).2 = with_faults f s ∨ (unlink path s).2 = with_tree (delete path (ws_tree s)) (with_faults f s).
Proof.
  unfold unlink, mbind, sm_bind. destruct (call_cases "cannot unlink" s) as (f & [u|e] & ->); exists f; [by right|by left].
Qed.

Lemma remove_dir_cases path s :
  ∃ f, (remove_dir path s).2 = with_faults f s ∨ (remove_dir path s).2 = with_tree (delete path (ws_tree s)) (with_faults f s).
Proof.
  unfold remove_dir, mbind, sm_bind. destruct (call_cases "cannot remove directory" s) as (f & [u|e] & ->); exists f; [|by left].
  simpl. case_bool_decide; [by right|by left].
Qed.

(** The contents of one file: nothing else changes, and it grows by at most [k]. *)
Record grown (i : nat) (k : Z) (s s' : walk_state) : Prop := {
  gr_tree : ws_tree s' = ws_tree s; gr_links : ws_hardlinks s' = ws_hardlinks s; gr_budget : ws_budget s' = ws_budget s;
  gr_others : ∀ j, j ≠ i → ws_inodes s' !! j = ws_inodes s !! j;
  gr_bytes : sum_of data_len (ws_inodes s') ≤ sum_of data_len (ws_inodes s) + k }.

Lemma grown_faults i k f s s' : 0 ≤ k → s' = with_faults f s → grown i k s s'.
Proof. intros Hk ->. split; [done..|]. simpl. lia. Qed.

Lemma grown_trans i k k' s1 s2 s3 : grown i k s1 s2 → grown i k' s2 s3 → grown i (k + k') s1 s3.
Proof.
  intros [A1 A2 A3 A4 A5] [B1 B2 B3 B4 B5]. split; [congruence..| |lia]. intros j Hj. by rewrite B4, A4.
Qed.

Lemma grown_write i buf s :
  grown i (Z.of_nat (String.length buf)) s (write_inode i (λ n, mkInode (in_mode n) (in_data n +:+ buf)) s).2.
Proof.
  unfold write_inode, modify. set (g := λ n : inode, _). split; [done..| |].
  - intros j Hj. simpl. by rewrite lookup_alter_ne.
  - simpl. destruct (ws_inodes s !! i) as [nd|] eqn:E; [|rewrite alter_id by (intros ? ?; congruence); lia].
    rewrite (sum_delete _ _ i nd E), (sum_delete _ (alter g i _) i (g nd)) by (by rewrite lookup_alter_eq, E).
    rewrite delete_alter_eq. unfold data_len, g. simpl. rewrite str_length_app. lia.
Qed.

Lemma substring_le n x : (String.length (String.substring 0 n x) ≤ n)%nat.
Proof. revert n. induction x as [|a x IH]; intros [|n]; simpl; [lia..|]. specialize (IH n). lia. Qed.

Lemma bind_snd {A B} (m : SM A) (k : A → SM B) s :
  (m ≫= k) s = match (m s).1 with inl a => k a (m s).2 | inr e => (inr e, (m s).2) end.
Proof. unfold mbind, sm_bind. by destruct (m s) as [[a|e] s']. Qed.

Lemma copy_contents reads i off size s : off ≤ size → grown i (size - off) s (copyFileContents reads i off size s).2.
Proof.
  revert off s. induction reads as [|r reads IH]; intros off s Hoff; simpl.
  all: destruct (Z.leb_spec size off); [by apply (grown_faults i (size - off) (ws_faults s)); [lia|destruct s]|].
  all: rewrite bind_snd; unfold check_cancelled; destruct (call_cases "context canceled" s) as (f & [u|e] & ->);
    [|by apply (grown_faults i (size - off) f); [lia|]]; cbn [fst snd].
  { by apply (grown_faults i (size - off) f); [lia|]. }
  destruct r as [b|]; [|by apply (grown_faults i (size - off) f); [lia|]].
  set (buf := String.substring _ _ b). case_bool_decide as Hb; [by apply (grown_faults i (size - off) f); [lia|]|].
  rewrite bind_snd. destruct (call_cases "cannot write" (with_faults f s)) as (f' & [u'|e] & ->); cbn [fst snd];
    [|by apply (grown_faults i (size - off) f'); [lia|]].
  rewrite bind_snd. change ((write_inode i (λ n, mkInode (in_mode n) (in_data n +:+ buf)) (with_faults f' (with_faults f s))).1) with (inl (A := ()) (B := staging_error) ()).
  assert (Hlen : Z.of_nat (String.length buf) ≤ size - off).
  { unfold buf. pose proof (substring_le (Z.to_nat (Z.min copyChunkSize (size - off))) b). unfold copyChunkSize in *. lia. }
  replace (size - off) with (0 + (Z.of_nat (String.length buf) + (size - (off + Z.of_nat (String.length buf))))) by lia.
  eapply grown_trans; [apply (grown_faults i 0 f'); [lia|]|]; [reflexivity|].
  eapply grown_trans; [apply grown_write|]. apply IH. lia.
Qed.

(** ** The steps of the walk *)

(** The ceilings are those of the start; [J] is kept. *)
Definition kept (J : walk_state → Prop) (s s' : walk_state) : Prop :=
  ceilings (ws_budget s') = ceilings (ws_budget s) ∧ (J s → J s').

#[local] Instance kept_preorder J : PreOrder (kept J).
Proof. split; [by intros s|]. intros s1 s2 s3 [H1 H2] [H3 H4]. split; [congruence|auto]. Qed.

(** What one entry may do to the destination. *)
Inductive moved (path : list string) (n : option snode) (s s' : walk_state) : Prop :=
  | moved_none : ws_tree s' = ws_tree s → moved path n s s'
  | moved_gone : ws_tree s' = delete path (ws_tree s) → moved path n s s'
  | moved_made m : n = Some m → ws_tree s !! path = None → ws_tree s' = <[path := m]> (ws_tree s) → moved path n s s'.

Lemma moved_undo path n s s' s'' f :
  moved path n s s' → s'' = with_faults f s' ∨ s'' = with_tree (delete path (ws_tree s')) (with_faults f s') → moved path n s s''.
Proof.
  intros H [->| ->]; simpl; [destruct H; [by apply moved_none|by apply moved_gone|by eapply moved_made]|].
  destruct H as [E|E|m _ Hn E].
  - apply moved_gone. simpl. by rewrite E.
  - apply moved_gone. simpl. by rewrite E, delete_delete_eq.
  - apply moved_none. simpl. by rewrite E, delete_insert_id.
Qed.

Lemma or_undo_snd {A} (m : SM A) undo s :
  (or_undo m undo s).2 = match (m s).1 with inl _ => (m s).2 | inr _ => (undo (m s).2).2 end.
Proof. unfold or_undo. by destruct (m s) as [[a|e] s']. Qed.

Lemma bind_eq {A B} (m : SM A) (k : A → SM B) s :
  (m ≫= k) s = match m s with (inl a, s') => k a s' | (inr e, s') => (inr e, s') end.
Proof. done. Qed.
Lemma or_undo_eq {A} (m : SM A) undo s :
  or_undo m undo s = match m s with (inl a, s') => (inl a, s') | (inr e, s') => (inr e, (undo s').2) end.
Proof. done. Qed.

Lemma spend_cases f s : (spend f s = (inl (), with_budget (match f (ws_budget s) with inl b => b | inr _ => ws_budget s end) s)
    ∧ ∃ b, f (ws_budget s) = inl b) ∨ ∃ e, spend f s = (inr e, s).
Proof. unfold spend. destruct (f (ws_budget s)); [left; eauto|right; eauto]. Qed.

(** A staged link is guarded, and pays for its target. *)
Lemma link_step link path rel s :
  let s' := (copy_link link path rel s).2 in
  ws_inodes s' = ws_inodes s ∧ ws_hardlinks s' = ws_hardlinks s ∧
  ((moved path None s s' ∧ ws_budget s' = ws_budget s) ∨
   ∃ target b, link = Some target ∧ symlinkTargetWithinStagedContext rel target = true ∧
     reserveBytes (Z.of_nat (String.length target)) (ws_budget s) = inl b ∧ ws_budget s' = b ∧ moved path (Some (NLink target)) s s').
Proof.
  unfold copy_link. destruct link as [target|]; [|cbv zeta; split_and!; [done..|]; left; split; [by apply moved_none|done]].
  destruct (symlinkTargetWithinStagedContext rel target) eqn:Et; [|cbv zeta; split_and!; [done..|]; left; split; [by apply moved_none|done]].
  cbn [negb]. rewrite bind_snd. destruct (spend_cases (reserveBytes (Z.of_nat (String.length target))) s) as [[-> [b Hb]]|[e ->]].
  2: { cbn [fst snd]. cbv zeta. split_and!; [done..|]. left; split; [by apply moved_none|done]. }
  rewrite Hb. cbn [fst snd]. rewrite bind_snd.
  destruct (create_cases "cannot create symlink" path (NLink target) (with_budget b s)) as (f & [E|[Hn E]]); rewrite E; cbn [fst snd].
  { cbv zeta. split_and!; [done..|]. right. exists target, b. split_and!; [done..|]. by apply moved_none. }
  rewrite or_undo_snd. set (s1 := with_tree _ _).
  assert (Hm : moved path (Some (NLink target)) s s1) by (by eapply moved_made).
  destruct (call_cases "cannot set symlink times" s1) as (f' & [u|e] & ->); cbn [fst snd].
  { cbv zeta. split_and!; [done..|]. right. exists target, b. split_and!; [done..|].
    eapply (moved_undo _ _ _ s1); [exact Hm|by left]. }
  destruct (unlink_cases path (with_faults f' s1)) as (f2 & [Eu|Eu]); rewrite Eu; cbv zeta; (split_and!; [done..|]);
    right; exists target, b; (split_and!; [done..|]); (eapply (moved_undo _ _ _ s1 _ f2); [exact Hm|]); [by left|by right].
Qed.

(** The data of a new file: unlinked again when a later step fails. *)
Lemma file_made path st reopened reads rel s :
  let m := (_ ← or_undo (copyFileContents reads reopened 0 (st_Size st)) (unlink path);
            _ ← or_undo (call "cannot chmod") (unlink path);
            _ ← write_inode reopened (λ n, mkInode (file_mode_of (st_Mode st)) (in_data n));
            _ ← or_undo (call "cannot set file times") (unlink path);
            modify (λ s, with_hardlinks (<[(st_Dev st, st_Ino st) := rel]> (ws_hardlinks s)) s)) : SM () in
  0 ≤ st_Size st →
  let s' := (m s).2 in
  (ws_tree s' = ws_tree s ∨ ws_tree s' = delete path (ws_tree s)) ∧ ws_budget s' = ws_budget s ∧
  sum_of data_len (ws_inodes s') ≤ sum_of data_len (ws_inodes s) + st_Size st.
Proof.
  intros m Hsz. unfold m. cbv zeta.
  pose proof (copy_contents reads reopened 0 (st_Size st) s Hsz) as [Ht _ Hb _ Hd]. rewrite Z.sub_0_r in Hd.
  set (s1 := (copyFileContents reads reopened 0 (st_Size st) s).2) in *.
  assert (Hun : ∀ x, ws_tree x = ws_tree s → ws_budget x = ws_budget s → sum_of data_len (ws_inodes x) = sum_of data_len (ws_inodes s1) →
    let s' := (unlink path x).2 in (ws_tree s' = ws_tree s ∨ ws_tree s' = delete path (ws_tree s)) ∧ ws_budget s' = ws_budget s ∧
    sum_of data_len (ws_inodes s') ≤ sum_of data_len (ws_inodes s) + st_Size st).
  { intros x H1 H2 H3. destruct (unlink_cases path x) as (f & [->| ->]); cbv zeta; simpl; rewrite H1, H2, H3; auto. }
  rewrite bind_eq, or_undo_eq. unfold s1 in *. clear s1.
  destruct (copyFileContents reads reopened 0 (st_Size st) s) as [[u|e] s0]; cbn [fst snd] in *; [|by apply Hun].
  rewrite bind_eq, or_undo_eq. destruct (call_cases "cannot chmod" s0) as (f & [u1|e] & ->); [|by apply Hun].
  rewrite bind_eq. unfold write_inode, modify. set (s2 := with_inodes _ _).
  assert (Hs2 : sum_of data_len (ws_inodes s2) = sum_of data_len (ws_inodes s0)) by (by apply sum_alter).
  rewrite bind_eq, or_undo_eq. destruct (call_cases "cannot set file times" s2) as (f2 & [u2|e] & ->); [|by apply Hun].
  split_and!; [by left|done|]. change (sum_of data_len (ws_inodes s2) ≤ sum_of data_len (ws_inodes s) + st_Size st). lia.
Qed.

Lemma file_step st reopened reads path rel s :
  let s' := (copy_file st reopened reads path rel s).2 in
  (moved path None s s' ∨ ∃ i, moved path (Some (NFile i)) s s') ∧
  ((ws_budget s' = ws_budget s ∧ sum_of data_len (ws_inodes s') ≤ sum_of data_len (ws_inodes s)) ∨
   ∃ b, reserveBytes (st_Size st) (ws_budget s) = inl b ∧ ws_budget s' = b ∧
        sum_of data_len (ws_inodes s') ≤ sum_of data_len (ws_inodes s) + st_Size st).
Proof.
  unfold copy_file. rewrite bind_snd. cbn [get fst snd]. cbv zeta. destruct (ws_hardlinks s !! _) as [first|].
  { unfold link_file. rewrite bind_snd. cbn [get fst snd].
    destruct (ws_tree s !! _) as [[m|target|i]|]; try (split; [left; by apply moved_none|left; by split]).
    destruct (create_cases "cannot create hardlink" path (NFile i) s) as (f & [E|[Hn E]]); rewrite E; cbn [fst snd].
    - split; [left; by apply moved_none|left; by split].
    - split; [right; exists i; by eapply moved_made|left; by split]. }
  rewrite bind_snd. assert (Hro : (reopen "cannot open for reading" st reopened s).2 = s).
  { unfold reopen. destruct reopened; [by destruct (same_identity _ _)|done]. }
  rewrite Hro. destruct ((reopen "cannot open for reading" st reopened s).1); [|split; [left; by apply moved_none|left; by split]].
  rewrite bind_snd. destruct (spend_cases (reserveBytes (st_Size st)) s) as [[-> [b Hb]]|[e ->]];
    [|split; [left; by apply moved_none|left; by split]]. rewrite Hb. cbn [fst snd].
  assert (Hsz : 0 ≤ st_Size st) by (unfold reserveBytes in Hb; destruct (Z.ltb_spec (st_Size st) 0); [done|lia]).
  set (s0 := with_budget b s).
  unfold create_file. rewrite bind_snd. rewrite bind_snd. cbn [get fst snd]. set (i := fresh _).
  rewrite bind_snd. destruct (create_cases "cannot create" path (NFile i) s0) as (f & [E|[Hn E]]); rewrite E; cbn [fst snd].
  { split; [left; by apply moved_none|]. right. exists b. split_and!; [done..|simpl; lia]. }
  rewrite bind_snd. cbn [modify fst snd mret sm_ret].
  set (s1 := with_inodes _ _).
  destruct (file_made path st i reads rel s1 Hsz) as (Ht & Hbu & Hd).
  assert (Hs1 : sum_of data_len (ws_inodes s1) = sum_of data_len (ws_inodes s)).
  { unfold s1. simpl. rewrite sum_insert; [done|]. apply not_elem_of_dom, is_fresh. }
  assert (Hm : moved path (Some (NFile i)) s s1) by (by eapply moved_made).
  split.
  - destruct Ht as [Ht|Ht]; [right; exists i; by eapply moved_made|]. left. apply moved_none. rewrite Ht. simpl. by apply delete_insert_id.
  - right. exists b. split_and!; [done|exact Hbu|lia].
Qed.

(** ** The invariant of the walk *)

Record walk_inv (c : buildStagingCeilings) (s : walk_state) : Prop := {
  wi_ceilings : ceilings (ws_budget s) = c;
  wi_links : links_ok (ws_tree s);
  wi_remaining : 0 ≤ bytesRemaining (ws_budget s) ∧ 0 ≤ entriesRemaining (ws_budget s);
  wi_bytes : written (ws_tree s) (ws_inodes s) + bytesRemaining (ws_budget s) ≤ MaxBytes c;
  wi_depth : ∀ p n, ws_tree s !! p = Some n →
    Z.of_nat (length p) ≤ MaxDepth c + 1 ∧ ∀ m, n = NDir m → Z.of_nat (length p) ≤ MaxDepth c }.

Lemma reserve_ok size b b' : reserveBytes size b = inl b' →
  0 ≤ size ≤ bytesRemaining b ∧ b' = mkBudget (ceilings b) (bytesRemaining b - size) (entriesRemaining b).
Proof.
  unfold reserveBytes. destruct (Z.ltb_spec size 0); [done|]. destruct (Z.ltb_spec (bytesRemaining b) size); [done|]. by intros [= <-].
Qed.

Lemma link_len_nonneg n : 0 ≤ link_len n.
Proof. destruct n; simpl; lia. Qed.

Lemma moved_bytes path n s s' : moved path n s s' →
  sum_of link_len (ws_tree s') ≤ sum_of link_len (ws_tree s) + match n with Some m => link_len m | None => 0 end.
Proof.
  pose proof link_len_nonneg as H0. assert (Hn : 0 ≤ match n with Some m => link_len m | None => 0 end) by (by destruct n).
  intros [->| ->|m -> Hp ->]; [lia| |rewrite sum_insert by done; lia].
  pose proof (sum_delete_le link_len (ws_tree s) path H0). lia.
Qed.

Lemma moved_links dir name n s s' : Forall proper dir →
  (∀ target, n = Some (NLink target) → symlinkTargetWithinStagedContext (join_sep dir) target = true) →
  moved (dir ++ [name]) n s s' → links_ok (ws_tree s) → links_ok (ws_tree s').
Proof.
  intros Hd Hg [->| ->|m -> Hp ->] Hl; [done| |]; intros p nm target Ht.
  - apply lookup_delete_Some in Ht as [_ Ht]. by apply (Hl p nm).
  - apply lookup_insert_Some in Ht as [[E Ht]|[_ Ht]]; [|by apply (Hl p nm)]. apply app_inj_tail in E as [<- <-]. subst m. auto.
Qed.

Lemma moved_depth c dir name n s s' : Z.of_nat (length dir) ≤ MaxDepth c →
  (∀ m, n = Some (NDir m) → Z.of_nat (length (dir ++ [name])) ≤ MaxDepth c) → moved (dir ++ [name]) n s s' →
  (∀ p x, ws_tree s !! p = Some x → Z.of_nat (length p) ≤ MaxDepth c + 1 ∧ ∀ m, x = NDir m → Z.of_nat (length p) ≤ MaxDepth c) →
  ∀ p x, ws_tree s' !! p = Some x → Z.of_nat (length p) ≤ MaxDepth c + 1 ∧ ∀ m, x = NDir m → Z.of_nat (length p) ≤ MaxDepth c.
Proof.
  intros Hlen Hdir [->| ->|m -> Hp ->] H p x Hx; [eauto|apply lookup_delete_Some in Hx as [_ Hx]; eauto|].
  apply lookup_insert_Some in Hx as [[<- <-]|[_ Hx]]; [|eauto]. split; [rewrite length_app; simpl; lia|]. intros m' ->. by eapply Hdir.
Qed.

(** A step that places [n], pays [k] and writes at most [k]. *)
Lemma step_inv c dir name n k s s' :
  Forall proper dir → Z.of_nat (length dir) ≤ MaxDepth c → moved (dir ++ [name]) n s s' →
  (∀ target, n = Some (NLink target) → symlinkTargetWithinStagedContext (join_sep dir) target = true) →
  (∀ m, n = Some (NDir m) → Z.of_nat (length (dir ++ [name])) ≤ MaxDepth c) →
  0 ≤ k ≤ bytesRemaining (ws_budget s) →
  ws_budget s' = mkBudget (ceilings (ws_budget s)) (bytesRemaining (ws_budget s) - k) (entriesRemaining (ws_budget s)) →
  sum_of data_len (ws_inodes s') + match n with Some m => link_len m | None => 0 end ≤ sum_of data_len (ws_inodes s) + k →
  walk_inv c s → walk_inv c s'.
Proof.
  intros Hd Hlen Hm Hg Hdir Hk Hb Hw [H1 H2 [H3 H3'] H4 H5]. pose proof (moved_bytes _ _ _ _ Hm) as Hs.
  split; rewrite ?Hb; simpl; [done|by eapply moved_links|lia|unfold written in *; lia|by eapply moved_depth].
Qed.

Lemma same_budget b : b = mkBudget (ceilings b) (bytesRemaining b - 0) (entriesRemaining b).
Proof. rewrite Z.sub_0_r. by destruct b. Qed.

(** A change of directories only. *)
Lemma dir_inv c s s' : ws_budget s' = ws_budget s → ws_inodes s' = ws_inodes s →
  (ws_tree s' = ws_tree s ∨ (∃ path, ws_tree s' = delete path (ws_tree s)) ∨
   ∃ path mode, ws_tree s' = alter (λ n, match n with NDir _ => NDir mode | n => n end) path (ws_tree s)) →
  walk_inv c s → walk_inv c s'.
Proof.
  intros Hb Hi Ht [H1 H2 H3 H4 H5]. destruct Ht as [Ht|[[path Ht]|(path & mode & Ht)]].
  - split; rewrite ?Ht, ?Hb, ?Hi; done.
  - split; rewrite ?Ht, ?Hb, ?Hi; [done| |done| |].
    + intros p n target Hl. apply lookup_delete_Some in Hl as [_ Hl]. by apply (H2 p n).
    + unfold written in *. pose proof (sum_delete_le link_len (ws_tree s) path link_len_nonneg). lia.
    + intros p n Hl. apply lookup_delete_Some in Hl as [_ Hl]. eauto.
  - split; rewrite ?Ht, ?Hb, ?Hi; [done| |done| |].
    + intros p n target Hl. destruct (decide (path = p ++ [n])) as [->|Hne]; [|rewrite lookup_alter_ne in Hl by done; by apply (H2 p n)].
      rewrite lookup_alter_eq in Hl. destruct (ws_tree s !! (p ++ [n])) as [[]|] eqn:E; simplify_eq/=. by apply (H2 p n).
    + unfold written in *. rewrite sum_alter; [done|]. by intros [] _.
    + intros p n Hl. destruct (decide (path = p)) as [->|Hne]; [|rewrite lookup_alter_ne in Hl by done; eauto].
      rewrite lookup_alter_eq in Hl. destruct (ws_tree s !! p) as [x|] eqn:E; [|done]. destruct (H5 _ _ E) as [Ha Hm].
      injection Hl as <-. destruct x; (split; [done|]); [intros m _; by eapply Hm|done..].
Qed.

Lemma walk_keeps c entries listed :
  Forall (λ e, entry_name e.1 ∧ names_ok e.2) entries → 0 ≤ MaxDepth c → ∀ s, walk_inv c s → walk_inv c (walkAndCopy entries listed [] "" 0 s).2.
Proof.
  intros Hent H0 s Hs.
  enough (Hw : walks c (kept (walk_inv c)) (walkAndCopy entries listed [] "" 0)) by (apply Hw; [by destruct Hs|done]).
  clear s Hs. apply walks_walk; [apply _|by intros ?? []|..|done|done].
  - intros x f. split; [done|]. apply dir_inv; [done|done|by left].
  - intros link dir name Hd Hn Hlen x Hx. destruct (link_step link (dir ++ [name]) (join_sep dir) x) as (Hi & _ & Hm).
    destruct Hm as [[Hm Hb]|(target & b & -> & Hg & Hr & Hb & Hm)].
    + split; [by rewrite Hb|]. intros Hinv. eapply (step_inv c dir name None 0); [done..| |rewrite Hb; apply same_budget|rewrite Hi; lia|done].
      destruct (wi_remaining _ _ Hinv). lia.
    + apply reserve_ok in Hr as [Hk ->]. split; [by rewrite Hb|].
      eapply (step_inv c dir name (Some (NLink target))); [done..|by intros ? [= <-]|done|exact Hk|by rewrite Hb|rewrite Hi; simpl; lia].
  - intros st ro reads dir name Hd Hn Hlen x Hx. destruct (file_step st ro reads (dir ++ [name]) (join_sep (dir ++ [name])) x) as (Hm & Hb).
    assert (Hm' : ∃ n, moved (dir ++ [name]) n x (copy_file st ro reads (dir ++ [name]) (join_sep (dir ++ [name])) x).2 ∧
      (n = None ∨ ∃ i, n = Some (NFile i))) by (destruct Hm as [?|[i ?]]; eauto).
    destruct Hm' as (n & Hm' & Hn'). assert (Hz : match n with Some m => link_len m | None => 0 end = 0) by (by destruct Hn' as [->|[i ->]]).
    assert (Hg : ∀ y, n = Some y → ∃ i, y = NFile i) by (intros y ->; destruct Hn' as [[=]|[i [= ->]]]; eauto).
    destruct Hb as [[Hb Hw]|(b & Hr & Hb & Hw)].
    + split; [by rewrite Hb|]. intros Hinv. eapply (step_inv c dir name n 0); [done..| | | |rewrite Hb; apply same_budget|lia|done].
      * intros t Ht. by destruct (Hg _ Ht).
      * intros m Hm0. by destruct (Hg _ Hm0).
      * destruct (wi_remaining _ _ Hinv). lia.
    + apply reserve_ok in Hr as [Hk ->]. split; [by rewrite Hb|].
      eapply (step_inv c dir name n); [done..| | |exact Hk|by rewrite Hb|lia].
      * intros t Ht. by destruct (Hg _ Ht).
      * intros m Hm0. by destruct (Hg _ Hm0).
  - intros dir name Hd Hn Hlen x Hx.
    destruct (create_cases "cannot create directory" (dir ++ [name]) (NDir 448) x) as (f & [E|[Hnone E]]); rewrite E; cbn [snd].
    + split; [done|]. apply dir_inv; [done|done|by left].
    + split; [done|]. intros Hinv. rewrite length_app in Hlen. simpl in Hlen.
      eapply (step_inv c dir name (Some (NDir 448)) 0); [done|lia|by eapply moved_made|done|by rewrite length_app; simpl; lia| |apply same_budget|simpl; lia|done].
      destruct (wi_remaining _ _ Hinv). lia.
  - intros path x. destruct (remove_dir_cases path x) as (f & [->| ->]); (split; [done|]); apply dir_inv; try done; [by left|right; left; by eexists].
  - intros path mode x. split; [done|]. apply dir_inv; [done|done|]. right; right. by eexists _, _.
  - intros x b Hb. unfold admitEnumeration in Hb. destruct (Z.ltb_spec (entriesRemaining (ws_budget x)) 1); [done|]. injection Hb as <-.
    split; [done|]. intros [H1 H2 [H3 H3'] H4 H5]. split; simpl; [done|done|lia|done|done].
Qed.

(** ** The number of entries *)

(** Staged entries and entries that may still be listed. *)
Definition entries_of (s : walk_state) : Z := Z.of_nat (size (ws_tree s)) + entriesRemaining (ws_budget s).
Definition adds {A} (k : Z) (m : SM A) : Prop := ∀ s, entries_of (m s).2 ≤ entries_of s + k.

Lemma adds_le {A} k k' (m : SM A) : adds k m → k ≤ k' → adds k' m.
Proof. intros H Hk s. specialize (H s). lia. Qed.
Lemma adds_bind {A B} k k' (m : SM A) (f : A → SM B) : adds k m → (∀ a, adds k' (f a)) → 0 ≤ k' → adds (k + k') (m ≫= f).
Proof.
  intros Hm Hf Hk s. specialize (Hm s). rewrite bind_eq. destruct (m s) as [[a|e] s']; simpl in *; [|lia]. specialize (Hf a s'). lia.
Qed.
Lemma adds_undo {A} k (m : SM A) undo : adds k m → adds 0 undo → adds k (or_undo m undo).
Proof. intros Hm Hu s. specialize (Hm s). rewrite or_undo_eq. destruct (m s) as [[a|e] s']; simpl in *; [done|]. specialize (Hu s'). lia. Qed.
Lemma adds_call what : adds 0 (call what).
Proof. intros s. destruct (call_cases what s) as (f & r & ->). unfold entries_of. simpl. lia. Qed.
Lemma adds_id {A} (r : A + staging_error) : adds 0 (λ s, (r, s)).
Proof. intros s. simpl. lia. Qed.

Lemma moved_entries path n s s' : moved path n s s' → ws_budget s' = ws_budget s ∨ entriesRemaining (ws_budget s') = entriesRemaining (ws_budget s) →
  entries_of s' ≤ entries_of s + match n with Some _ => 1 | None => 0 end.
Proof.
  intros Hm Hb. unfold entries_of. assert (entriesRemaining (ws_budget s') = entriesRemaining (ws_budget s)) as -> by (by destruct Hb as [->|]).
  destruct Hm as [->| ->|m -> Hp ->]; [destruct n; lia| |rewrite map_size_insert_None by done; lia].
  pose proof (map_size_delete path (ws_tree s)) as Hd. destruct (ws_tree s !! path); unfold id in Hd; destruct n; lia.
Qed.

Lemma size_alter (f : snode → snode) (path : list string) (t : gmap (list string) snode) : size (alter f path t) = size t.
Proof.
  destruct (t !! path) as [n|] eqn:E; [|by rewrite alter_id by congruence].
  assert (alter f path t = <[path := f n]> t) as -> by (apply map_eq; intros p; destruct (decide (path = p)) as [<-|];
    [by rewrite lookup_alter_eq, lookup_insert_eq, E|by rewrite lookup_alter_ne, lookup_insert_ne]).
  by apply map_size_insert_Some.
Qed.

Lemma adds_remove_dir path : adds 0 (remove_dir path).
Proof.
  intros s. apply (moved_entries path None); destruct (remove_dir_cases path s) as (f & [->| ->]); [by apply moved_none|by apply moved_gone|by left..].
Qed.

Fixpoint listed_names (entries : list (string * source)) : Z :=
  match entries with [] => 0 | (n, _) :: entries => (if is_dot n then 0 else 1) + listed_names entries end.
Lemma listed_nonneg entries : 0 ≤ listed_names entries.
Proof. induction entries as [|[n s] entries IH]; simpl; [done|]. destruct (is_dot n); lia. Qed.

(** Every name listed was reserved before anything of its directory was staged. *)
Lemma admit_spec entries listed s :
  let s' := (admit_entries entries listed s).2 in
  ws_tree s' = ws_tree s ∧ entriesRemaining (ws_budget s') ≤ entriesRemaining (ws_budget s) ∧
  ((admit_entries entries listed s).1 = inl () → entriesRemaining (ws_budget s') = entriesRemaining (ws_budget s) - listed_names entries).
Proof.
  cbv zeta. revert s. induction entries as [|[n src] entries IH]; intros s; simpl.
  { destruct listed; simpl; split_and!; [done|lia..|done|lia|done]. }
  rewrite bind_eq. destruct (is_dot n); [simpl; apply IH|]. unfold spend, admitEnumeration.
  destruct (Z.ltb_spec (entriesRemaining (ws_budget s)) 1); [simpl; split_and!; [done|lia|done]|].
  set (s1 := with_budget _ s). destruct (IH s1) as (H1 & H2 & H3). split_and!; [done|simpl in H2; lia|].
  intros E. rewrite (H3 E). simpl. lia.
Qed.

Lemma adds_each copy entries : Forall (λ e, is_dot e.1 = false → adds 1 (copy e.1 e.2)) entries → adds (listed_names entries) (copy_each copy entries).
Proof.
  induction 1 as [|[n src] entries He _ IH]; simpl; [apply (adds_id (inl ()))|]. apply adds_bind; [|done|apply listed_nonneg].
  destruct (is_dot n) eqn:E; [apply (adds_id (inl ()))|]. change 1 with (0 + 1). apply adds_bind; [apply adds_call|by intros _; apply He|lia].
Qed.

Lemma adds_listing copy entries listed :
  Forall (λ e, is_dot e.1 = false → adds 1 (copy e.1 e.2)) entries →
  adds 0 (_ ← check_cancelled; _ ← admit_entries entries listed; copy_each copy entries).
Proof.
  intros He. change 0 with (0 + 0). apply adds_bind; [apply adds_call| |lia]. intros _ s. rewrite bind_eq.
  destruct (admit_spec entries listed s) as (H1 & H2 & H3). destruct (admit_entries entries listed s) as [[[]|e] s']; simpl in *.
  - specialize (H3 eq_refl). pose proof (adds_each copy entries He s'). unfold entries_of in *. rewrite H1 in H. lia.
  - unfold entries_of. rewrite H1. lia.
Qed.

Lemma adds_entry src name dir rel depth : adds 1 (copyEntry src name dir rel depth).
Proof.
  revert name dir rel depth. induction src as [pin link ro reads entries listed IH] using source_ind'. intros name dir rel depth. cbn [copyEntry].
  destruct pin as [st|]; [|eapply adds_le; [apply (adds_id (inr _))|lia]].
  destruct (_ =? S_IFLNK).
  { intros s. destruct (link_step link (dir ++ [name]) rel s) as (_ & _ & [[Hm Hb]|(t & b & _ & _ & Hr & Hb & Hm)]).
    - pose proof (moved_entries _ _ _ _ Hm (or_introl Hb)). simpl in *. lia.
    - apply (moved_entries _ _ _ _ Hm). right. rewrite Hb. by apply reserve_ok in Hr as [_ ->]. }
  destruct (_ =? S_IFREG).
  { intros s. destruct (file_step st ro reads (dir ++ [name]) (Join [rel; name]) s) as (Hm & Hb).
    assert (Hb' : ws_budget (copy_file st ro reads (dir ++ [name]) (Join [rel; name]) s).2 = ws_budget s ∨
      entriesRemaining (ws_budget (copy_file st ro reads (dir ++ [name]) (Join [rel; name]) s).2) = entriesRemaining (ws_budget s)).
    { destruct Hb as [[Hb _]|(b & Hr & Hb & _)]; [by left|right]. rewrite Hb. by apply reserve_ok in Hr as [_ ->]. }
    destruct Hm as [Hm|[i Hm]]; pose proof (moved_entries _ _ _ _ Hm Hb'); simpl in *; lia. }
  destruct (_ =? S_IFDIR); [|eapply adds_le; [apply (adds_id (inr _))|lia]].
  change 1 with (0 + 1). apply adds_bind; [|intros _|lia].
  { unfold reopen. destruct ro; [destruct (same_identity _ _)|]; [apply (adds_id (inl ()))|apply (adds_id (inr _))..]. }
  change 1 with (0 + 1). apply adds_bind; [|intros _|lia].
  { intros s. unfold spend, checkDepth. destruct (_ <? _); unfold entries_of; simpl; lia. }
  change 1 with (1 + 0). apply adds_bind; [|intros _|lia].
  { intros s. destruct (create_cases "cannot create directory" (dir ++ [name]) (NDir 448) s) as (f & [E|[Hn E]]); rewrite E; cbn [snd].
    - unfold entries_of. simpl. lia.
    - apply (moved_entries (dir ++ [name]) (Some (NDir 448))); [by eapply moved_made|by left]. }
  pose proof (adds_remove_dir (dir ++ [name])) as Hrm.
  change 0 with (0 + 0). apply adds_bind; [by apply adds_undo; [apply adds_call|]|intros _|lia].
  change 0 with (0 + 0). apply adds_bind; [|intros _|lia].
  { apply adds_undo; [|done]. apply adds_listing. eapply Forall_impl; [exact IH|]. simpl. intros [n s] H _. apply H. }
  change 0 with (0 + 0). apply adds_bind; [by apply adds_undo; [apply adds_call|]|intros _|lia].
  change 0 with (0 + 0). apply adds_bind; [|intros _; by apply adds_undo; [apply adds_call|]|lia].
  intros s. unfold chmod_dir, modify, entries_of. simpl. rewrite size_alter. lia.
Qed.

Lemma adds_walk entries listed : adds 0 (walkAndCopy entries listed [] "" 0).
Proof. apply adds_listing. apply Forall_true. intros [n s] _. apply adds_entry. Qed.

(** ** A staged context *)

Lemma start_walk_inv c faults : 0 ≤ MaxBytes c → 0 ≤ MaxEntries c → 0 ≤ MaxDepth c → walk_inv c (walk_start c faults).
Proof.
  intros H1 H2 H3. split; simpl; [done| |done| |].
  - intros p n target Ht. apply lookup_singleton_Some in Ht as [E _]. by destruct p.
  - unfold written. rewrite <-insert_empty, sum_insert by done. unfold sum_of. rewrite !map_fold_empty. simpl. lia.
  - intros p n [<- <-]%lookup_singleton_Some. simpl. split; [lia|]. intros m _. lia.
Qed.

(** The verification of the Dockerfile leaves the copy alone. *)
Lemma stage_walk_same entries listed df s :
  ∃ f, (stage_walk entries listed df s).2 = with_faults f (walkAndCopy entries listed [] "" 0 s).2.
Proof.
  unfold stage_walk. rewrite bind_eq. destruct (walkAndCopy entries listed [] "" 0 s) as [[u|e] s1].
  2: { exists (ws_faults s1). by destruct s1. }
  rewrite bind_eq. destruct (call_cases "cannot open staging for verification" s1) as (f & [u1|e] & ->); [|by exists f].
  rewrite bind_eq. destruct (call_cases "Dockerfile not found in staging" (with_faults f s1)) as (f2 & [u2|e] & ->); [|by exists f2].
  exists f2. rewrite bind_eq. simpl. by repeat case_match.
Qed.

Section staging.
Context (c : buildStagingCeilings) (workspace contextPath dockerfileRel runtimeDir operationID : string).
Context (pinned : bool) (entries : list (string * source)) (listed : bool) (faults : list bool) (left : option (list string → bool)) (dirs : staging_dirs).

Definition staging : (stagedBuildContext + staging_error) * staging_dirs :=
  stageBuildContextInternal c workspace contextPath dockerfileRel runtimeDir operationID pinned entries listed faults left dirs.

(** The run of the copy, once the operation directory was made. *)
Definition staging_run : (() + staging_error) * walk_state :=
  (_ ← call "cannot open operation directory"; _ ← call "cannot create staging directory";
   _ ← call "cannot open staging directory"; stage_walk entries listed dockerfileRel : SM ()) (walk_start c faults).

Lemma staging_cases : let '(r, dirs') := staging in
  ((∃ what, r = inr (staging_failed what)) ∧ dirs' = dirs) ∨
  (dirs !! operationID = None ∧ pathWithin workspace contextPath = true ∧ isValidDockerfileRel dockerfileRel = true ∧
   match staging_run with
   | (inl _, s) => r = inl (staged_paths runtimeDir operationID dockerfileRel) ∧ dirs' = <[operationID := (ws_tree s, ws_inodes s)]> dirs
   | (inr e, s) => r = inr e ∧ dirs' = remove_all left operationID (ws_tree s, ws_inodes s) dirs
   end).
Proof.
  unfold staging, stageBuildContextInternal.
  destruct (IsAbs workspace); [|left; eauto]. destruct (IsAbs contextPath); [|left; eauto]. destruct (IsAbs runtimeDir); [|left; eauto].
  destruct (isOperationIDSafe operationID); [|left; eauto]. destruct (isValidDockerfileRel dockerfileRel); [|left; eauto].
  destruct (pathWithin workspace contextPath); [|left; eauto]. destruct pinned; [|left; eauto].
  destruct (dirs !! operationID) eqn:E; [left; eauto|]. cbv zeta. fold staging_run. cbn [negb].
  destruct staging_run as [[u|e] s]; right; by split_and!.
Qed.

(** What every state of the run satisfies. *)
Lemma staging_run_inv (I : walk_state → Prop) :
  (∀ f s, I s → I (with_faults f s)) → (∀ s, I s → I (walkAndCopy entries listed [] "" 0 s).2) →
  I (walk_start c faults) → I staging_run.2.
Proof.
  intros Hf Hw H0. unfold staging_run. rewrite bind_eq.
  destruct (call_cases "cannot open operation directory" (walk_start c faults)) as (f & [u|e] & ->); [|exact (Hf _ _ H0)].
  rewrite bind_eq. destruct (call_cases "cannot create staging directory" (with_faults f (walk_start c faults))) as (f1 & [u1|e] & ->); [|exact (Hf _ _ (Hf _ _ H0))].
  rewrite bind_eq. destruct (call_cases "cannot open staging directory" (with_faults f1 (with_faults f (walk_start c faults)))) as (f2 & [u2|e] & ->); [|exact (Hf _ _ (Hf _ _ (Hf _ _ H0)))].
  destruct (stage_walk_same entries listed dockerfileRel (with_faults f2 (with_faults f1 (with_faults f (walk_start c faults))))) as [f3 ->].
  exact (Hf _ _ (Hw _ (Hf _ _ (Hf _ _ (Hf _ _ H0))))).
Qed.

Lemma walk_inv_faults f s : walk_inv c s → walk_inv c (with_faults f s).
Proof. intros [H1 H2 H3 H4 H5]. by split. Qed.

Hypothesis (Hnames : Forall (λ e, entry_name e.1 ∧ names_ok e.2) entries).
Hypothesis (Hc : 0 ≤ MaxBytes c ∧ 0 ≤ MaxEntries c ∧ 0 ≤ MaxDepth c).

Lemma run_inv : walk_inv c staging_run.2.
Proof.
  destruct Hc as (H1 & H2 & H3). apply staging_run_inv; [apply walk_inv_faults| |by apply start_walk_inv].
  intros s. by apply walk_keeps.
Qed.

Lemma run_entries : entries_of staging_run.2 ≤ 1 + MaxEntries c.
Proof.
  apply (staging_run_inv (λ s, entries_of s ≤ 1 + MaxEntries c)); [done| |].
  - intros s Hs. pose proof (adds_walk entries listed s). lia.
  - unfold entries_of. simpl. by rewrite map_size_singleton.
Qed.

Lemma staged_at t m : dirs !! operationID = None → staging.2 !! operationID = Some (t, m) →
  t ⊆ ws_tree staging_run.2 ∧ m = ws_inodes staging_run.2.
Proof.
  intros Hn Hd. pose proof staging_cases as H. destruct staging as [r dirs']. simpl in Hd.
  destruct H as [[_ ->]|(_ & _ & _ & H)]; [congruence|]. destruct staging_run as [[u|e] s]; destruct H as [_ ->].
  - rewrite lookup_insert_eq in Hd. by injection Hd as <- <-.
  - unfold remove_all in Hd. destruct left as [keep|]; [|by rewrite lookup_delete_eq in Hd].
    rewrite lookup_insert_eq in Hd. injection Hd as <- <-. split; [|done]. apply map_filter_subseteq.
Qed.

End staging.

(** ** The properties of StageBuildContext *)

(** C14. C1: Whatever the caller's directory answers during the walk, and wherever the walk
    stops, no path of the staged context leaves it: resolving, with every staged link
    followed where it stands, any text that itself climbs at most to the context root
    before its first name never steps above the root and never meets an absolute link. *)
Theorem staged_links_confined workspace contextPath dockerfileRel runtimeDir operationID pinned entries listed faults left dirs t m :
  Forall (λ e, entry_name e.1 ∧ names_ok e.2) entries → dirs !! operationID = None →
  (StageBuildContext workspace contextPath dockerfileRel runtimeDir operationID pinned entries listed faults left dirs).2 !! operationID = Some (t, m) →
  (∀ fuel cur pending, climbs (length cur) pending → resolve fuel t cur pending ≠ Escaped) ∧
  (∀ fuel p n target, t !! (p ++ [n]) = Some (NLink target) → IsAbs target = false ∧ resolve fuel t p (split_sep target) ≠ Escaped).
Proof.
  intros Hn Hd Hs. apply staged_at in Hs as [Ht _]; [|done].
  pose proof (wi_links _ _ (run_inv productionBuildStagingCeilings dockerfileRel entries listed faults Hn ltac:(done))) as Hl.
  apply (links_ok_weaken _ t) in Hl; [|done].
  split; [intros fuel cur pending; by apply resolve_stays|]. intros fuel p n target Hp'. destruct (Hl _ _ _ Hp') as [Hp Hg].
  apply link_text_spec in Hg as (_ & Ha & Hc); [|done]. split; [done|]. by apply resolve_stays.
Qed.

(** C30. C2: At whatever point the walk stops, it has written at most 128 MiB of file data and
    link targets, made at most 50,000 entries below the context root and no directory
    deeper than 64 levels. *)
Theorem staging_within_ceilings workspace contextPath dockerfileRel runtimeDir operationID pinned entries listed faults left dirs t m :
  Forall (λ e, entry_name e.1 ∧ names_ok e.2) entries → dirs !! operationID = None →
  (StageBuildContext workspace contextPath dockerfileRel runtimeDir operationID pinned entries listed faults left dirs).2 !! operationID = Some (t, m) →
  written t m ≤ 128 * 1024 * 1024 ∧ Z.of_nat (size t) ≤ 1 + 50000 ∧
  ∀ path mode, t !! path = Some (NDir mode) → Z.of_nat (length path) ≤ 64.
Proof.
  intros Hn Hd Hs. apply staged_at in Hs as [Ht ->]; [|done].
  destruct (run_inv productionBuildStagingCeilings dockerfileRel entries listed faults Hn ltac:(done)) as [_ _ [Hb He] Hw Hdep].
  pose proof (run_entries productionBuildStagingCeilings dockerfileRel entries listed faults) as Hc. unfold entries_of in Hc.
  pose proof (sum_subseteq link_len _ _ link_len_nonneg Ht). pose proof (map_subseteq_size _ _ Ht). unfold written in *. simpl in Hw, Hdep, Hc.
  split_and!; [lia|lia|]. intros path mode Hp. eapply Hdep; [|done]. by eapply lookup_weaken.
Qed.

(** The Dockerfile the verification found. *)
Lemma stage_walk_found entries listed df s u s' : stage_walk entries listed df s = (inl u, s') →
  ∃ path i, open_beneath (ws_tree s') [] (split_sep df) = Some path ∧ ws_tree s' !! path = Some (NFile i).
Proof.
  unfold stage_walk. rewrite bind_eq. destruct (walkAndCopy entries listed [] "" 0 s) as [[u0|e] s1]; [|done].
  rewrite bind_eq. destruct (call_cases "cannot open staging for verification" s1) as (f & [u1|e] & ->); [|done].
  rewrite bind_eq. destruct (call_cases "Dockerfile not found in staging" (with_faults f s1)) as (f2 & [u2|e] & ->); [|done].
  rewrite bind_eq. cbn [get fst snd]. destruct (open_beneath _ [] (split_sep df)) as [path|] eqn:E; [|done].
  destruct (ws_tree _ !! path) as [[| |i]|] eqn:Et; try done. intros [= _ <-]. eauto.
Qed.

Lemma staging_run_found c df entries listed faults u s : staging_run c df entries listed faults = (inl u, s) →
  ∃ path i, open_beneath (ws_tree s) [] (split_sep df) = Some path ∧ ws_tree s !! path = Some (NFile i).
Proof.
  unfold staging_run. rewrite bind_eq. destruct (call "cannot open operation directory" _) as [[?|?] ?]; [|done].
  rewrite bind_eq. destruct (call "cannot create staging directory" _) as [[?|?] ?]; [|done].
  rewrite bind_eq. destruct (call "cannot open staging directory" _) as [[?|?] ?]; [|done]. apply stage_walk_found.
Qed.

(** What a staging leaves of the operation directories. *)
Lemma staging_leaves workspace contextPath dockerfileRel runtimeDir operationID pinned entries listed faults left dirs :
  match StageBuildContext workspace contextPath dockerfileRel runtimeDir operationID pinned entries listed faults left dirs with
  | (inl staged, dirs') =>
      (pathWithin workspace contextPath = true ∧ isValidDockerfileRel dockerfileRel = true ∧ dirs !! operationID = None ∧
       staged = staged_paths runtimeDir operationID dockerfileRel) ∧
      (∃ u s, staging_run productionBuildStagingCeilings dockerfileRel entries listed faults = (inl u, s) ∧
         dirs' = <[operationID := (ws_tree s, ws_inodes s)]> dirs) ∧
      delete operationID dirs' = dirs
  | (inr _, dirs') => dirs' = dirs ∨ left ≠ None ∧ dirs !! operationID = None ∧ delete operationID dirs' = dirs
  end.
Proof.
  pose proof (staging_cases productionBuildStagingCeilings workspace contextPath dockerfileRel runtimeDir operationID pinned entries listed faults left dirs) as H.
  unfold staging in H. unfold StageBuildContext. destruct (stageBuildContextInternal _ _ _ _ _ _ _ _ _ _ _ _) as [r dirs'].
  destruct H as [[[what ->] ->]|(Hn & Hw & Hv & H)]; [by left|].
  destruct (staging_run _ _ _ _ _) as [[u|e] s] eqn:Er; destruct H as [-> ->].
  - split; [by split_and!|]. split; [by eexists _, _|]. by rewrite delete_insert_id.
  - unfold remove_all. destruct left as [keep|]; [right|left; by apply delete_id]. split_and!; [done..|]. by rewrite delete_insert_id.
Qed.

(** C31. C3: A staging succeeds only for a context within the workspace and only under an
    operation id without a directory; it then names paths below the operation's own
    directory, its Dockerfile is a regular file reached in the copy without following a
    link, and its cleanup gives back the directories of before.  A staging that fails
    leaves the directories as they were, unless removing the partial copy failed too;
    even then only its own directory is there. *)
Theorem staging_outcome workspace contextPath dockerfileRel runtimeDir operationID pinned entries listed faults left dirs :
  match StageBuildContext workspace contextPath dockerfileRel runtimeDir operationID pinned entries listed faults left dirs with
  | (inl staged, dirs') =>
      pathWithin workspace contextPath = true ∧ isValidDockerfileRel dockerfileRel = true ∧ dirs !! operationID = None ∧
      staged = staged_paths runtimeDir operationID dockerfileRel ∧
      (∃ t m path i, dirs' !! operationID = Some (t, m) ∧ open_beneath t [] (split_sep dockerfileRel) = Some path ∧ t !! path = Some (NFile i)) ∧
      (Cleanup operationID None dirs').2 = dirs
  | (inr _, dirs') => dirs' = dirs ∨ left ≠ None ∧ dirs !! operationID = None ∧ delete operationID dirs' = dirs
  end.
Proof.
  pose proof (staging_leaves workspace contextPath dockerfileRel runtimeDir operationID pinned entries listed faults left dirs) as H.
  destruct (StageBuildContext _ _ _ _ _ _ _ _ _ _ _) as [[staged|e] dirs']; [|done].
  destruct H as ((Hw & Hv & Hn & ->) & (u & s & Er & ->) & Hdel). apply staging_run_found in Er as (path & i & Ho & Hp). split_and!; [done..| |].
  - exists (ws_tree s), (ws_inodes s), path, i. by rewrite lookup_insert_eq.
  - unfold Cleanup. by rewrite lookup_insert_eq.
Qed.

(** *** Examples *)

(** A Dockerfile and a directory with a link to it. *)
Definition ex_file : stat := mkStat 1 10 33188 4.
Definition ex_sub : stat := mkStat 1 11 16877 4096.
Definition ex_source : list (string * source) :=
  [("Dockerfile", Source (Some ex_file) None (Some ex_file) [Some "FROM"] [] true);
   ("d", Source (Some ex_sub) None (Some ex_sub) []
     [("up", Source (Some (mkStat 1 12 41471 13)) (Some "../Dockerfile") None [] [] true)] true)].
Definition ex_staging : (stagedBuildContext + staging_error) * staging_dirs :=
  StageBuildContext "/w" "/w/app" "Dockerfile" "/run/h" "op_00000000000000000000000000000001" true ex_source true [] None ∅.

Lemma ex_source_names : Forall (λ e, entry_name e.1 ∧ names_ok e.2) ex_source.
Proof. repeat constructor; done. Qed.

Definition ex_staged : option (gmap (list string) snode * gmap nat inode) := ex_staging.2 !! "op_00000000000000000000000000000001".
Definition ex_seen {A} (f : gmap (list string) snode → gmap nat inode → A) : option A := '(t, m) ← ex_staged; Some (f t m).

Lemma ex_seen_eq {A} (f : gmap (list string) snode → gmap nat inode → A) t m a : ex_seen f = Some a → ex_staged = Some (t, m) → f t m = a.
Proof. unfold ex_seen. intros H E. rewrite E in H. by injection H. Qed.

Lemma ex_staged_some : ex_seen (λ _ _, true) = Some true → ∃ t m, ex_staged = Some (t, m).
Proof. unfold ex_seen. destruct ex_staged as [[t m]|]; [eauto|done]. Qed.

Lemma staged_links_confined_witness :
  ∃ t m, ex_staged = Some (t, m) ∧ t !! ["d"; "up"] = Some (NLink "../Dockerfile") ∧
    resolve 9 t [] ["d"; "up"] = Reached ["Dockerfile"] ∧ ∀ fuel, resolve fuel t [] ["d"; "up"] ≠ Escaped.
Proof.
  destruct ex_staged_some as (t & m & E); [vm_compute; reflexivity|]. exists t, m. split; [exact E|].
  split; [apply (ex_seen_eq (λ t _, t !! ["d"; "up"]) t m); [vm_compute; reflexivity|exact E]|].
  split; [apply (ex_seen_eq (λ t _, resolve 9 t [] ["d"; "up"]) t m); [vm_compute; reflexivity|exact E]|].
  intros fuel. apply (staged_links_confined "/w" "/w/app" "Dockerfile" "/run/h" "op_00000000000000000000000000000001" true ex_source true [] None ∅ t m
    ex_source_names (lookup_empty _) E). split; [reflexivity|vm_compute; lia].
Defined.

Lemma staging_within_ceilings_witness :
  ∃ t m, ex_staged = Some (t, m) ∧ written t m = 17 ∧ written t m ≤ 128 * 1024 * 1024 ∧ Z.of_nat (size t) ≤ 1 + 50000.
Proof.
  destruct ex_staged_some as (t & m & E); [vm_compute; reflexivity|]. exists t, m. split; [exact E|].
  split; [apply (ex_seen_eq written t m); [vm_compute; reflexivity|exact E]|].
  destruct (staging_within_ceilings "/w" "/w/app" "Dockerfile" "/run/h" "op_00000000000000000000000000000001" true ex_source true [] None ∅ t m
    ex_source_names (lookup_empty _) E) as (H1 & H2 & _). split; [exact H1|exact H2].
Defined.
