(* ===== verification/StagingCopy.v ===== *)
(** * StagingCopy: a staged context is a copy of what the walk was told *)
From S2P Require Import Prelude Filepath GoStrings Operation Staging StagingTheory StagingSpec.
Local Open Scope Z_scope.

(** ** Staged images *)

Definition identity (st : stat) : Z * Z := (st_Dev st, st_Ino st).
Definition kind (st : stat) : Z := Z.land (st_Mode st) S_IFMT.

(** What the reads of a file of this size gave. *)
Fixpoint contents (reads : list (option string)) (size : Z) : string :=
  if size <=? 0 then "" else
  match reads with
  | Some b :: reads =>
      let buf := String.substring 0 (Z.to_nat (Z.min copyChunkSize size)) b in
      buf +:+ contents reads (size - Z.of_nat (String.length buf))
  | _ => ""
  end.

(** The entry [src] is staged at [path]; [ino] tells which inode a file of the source
    became. *)
Inductive image (t : gmap (list string) snode) (ino : Z * Z → option nat) : list string → source → Prop :=
  | image_link path st target reopened reads entries listed :
      kind st = S_IFLNK → t !! path = Some (NLink target) → image t ino path (Source (Some st) (Some target) reopened reads entries listed)
  | image_file path st link reopened reads entries listed i :
      kind st = S_IFREG → t !! path = Some (NFile i) → ino (identity st) = Some i →
      image t ino path (Source (Some st) link reopened reads entries listed)
  | image_dir path st link reopened reads entries listed :
      kind st = S_IFDIR → t !! path = Some (NDir (Z.land (st_Mode st) 4095)) → listing t ino path entries →
      image t ino path (Source (Some st) link reopened reads entries listed)
(** The names below [path] are those of the listing, each staged. *)
with listing (t : gmap (list string) snode) (ino : Z * Z → option nat) : list string → list (string * source) → Prop :=
  | listing_intro path entries :
      (∀ n src, (n, src) ∈ entries → is_dot n = false → image t ino (path ++ [n]) src) →
      (∀ n, is_Some (t !! (path ++ [n])) → ∃ src, (n, src) ∈ entries ∧ is_dot n = false) →
      listing t ino path entries.

(** An entry somewhere below a listing. *)
Inductive below : list (string * source) → source → Prop :=
  | below_here entries n src : (n, src) ∈ entries → is_dot n = false → below entries src
  | below_there entries n pin link reopened reads entries' listed src :
      (n, Source pin link reopened reads entries' listed) ∈ entries → is_dot n = false → below entries' src → below entries src.

(** [nd] is a copy of the file [st] whose reads gave [reads]. *)
Record copy_of (st : stat) (reads : list (option string)) (nd : inode) : Prop := {
  cp_mode : in_mode nd = file_mode_of (st_Mode st);
  cp_data : in_data nd = contents reads (st_Size st);
  cp_size : Z.of_nat (String.length (in_data nd)) = st_Size st }.

(** ** The state of a walk that has not failed *)

Definition rel_comps (rel : string) : list string := filter (λ w, w ≠ "") (split_sep rel).
Definition ino_of (s : walk_state) (id : Z * Z) : option nat :=
  rel ← ws_hardlinks s !! id; match ws_tree s !! rel_comps rel with Some (NFile i) => Some i | _ => None end.

Lemma rel_comps_join p : Forall proper p → p ≠ [] → rel_comps (join_sep p) = p.
Proof.
  intros Hp Hne. unfold rel_comps. rewrite split_join by (try done; by apply proper_no_sep).
  clear Hne. induction Hp as [|w p (_ & Hw & _) _ IH]; [done|]. by rewrite filter_cons_True, IH.
Qed.

(** The parent of every staged entry is a staged directory; every first copy is where
    the hardlink map says; an inode belongs to one file of the source. *)
Record sound (all : list (string * source)) (s : walk_state) : Prop := {
  so_closed : ∀ p n, is_Some (ws_tree s !! (p ++ [n])) → ∃ m, ws_tree s !! p = Some (NDir m);
  so_first : ∀ id rel, ws_hardlinks s !! id = Some rel →
    ∃ p i st link reopened reads entries listed nd, rel = join_sep p ∧ Forall proper p ∧ p ≠ [] ∧ ws_tree s !! p = Some (NFile i) ∧
      ws_inodes s !! i = Some nd ∧ copy_of st reads nd ∧ kind st = S_IFREG ∧ identity st = id ∧
      below all (Source (Some st) link reopened reads entries listed);
  so_inj : ∀ id id' i, ino_of s id = Some i → ino_of s id' = Some i → id = id' }.

(** What a step below [path] keeps. *)
Record extends (path : list string) (s s' : walk_state) : Prop := {
  ex_fresh : ws_tree s !! path = None;
  ex_tree : ∀ p, ¬ path `prefix_of` p → ws_tree s' !! p = ws_tree s !! p;
  ex_inodes : ∀ i nd, ws_inodes s !! i = Some nd → ws_inodes s' !! i = Some nd;
  ex_links : ∀ id rel, ws_hardlinks s !! id = Some rel → ws_hardlinks s' !! id = Some rel }.

(** Nothing is staged below a name that is not. *)
Lemma closed_below (t : gmap (list string) snode) : (∀ p n, is_Some (t !! (p ++ [n])) → ∃ m : Z, t !! p = Some (NDir m)) →
  ∀ path p, t !! path = None → path `prefix_of` p → t !! p = None.
Proof.
  intros Hc path p Hn [k ->]. induction k as [|n k IH] using rev_ind; [by rewrite app_nil_r|].
  destruct (t !! (path ++ k ++ [n])) as [x|] eqn:E; [|done]. rewrite app_assoc in E.
  destruct (Hc (path ++ k) n) as [m Hm]; [by eexists|]. congruence.
Qed.

Lemma ino_extends all path s s' id i : sound all s → extends path s s' → ino_of s id = Some i → ino_of s' id = Some i.
Proof.
  intros Hs Hx. unfold ino_of. destruct (ws_hardlinks s !! id) as [rel|] eqn:E; [|done]. rewrite (ex_links _ _ _ Hx _ _ E). simpl.
  destruct (so_first _ _ Hs _ _ E) as (p & j & st & ? & ? & ? & ? & ? & nd & -> & Hp & Hne & Ht & _).
  rewrite rel_comps_join by done. rewrite (ex_tree _ _ _ Hx); [done|]. intros Hpre.
  rewrite (closed_below _ (so_closed _ _ Hs) path p (ex_fresh _ _ _ Hx) Hpre) in Ht. done.
Qed.

Lemma image_mono t t' ino ino' :
  (∀ id i, ino id = Some i → ino' id = Some i) →
  ∀ src path, (∀ p, path `prefix_of` p → t' !! p = t !! p) → image t ino path src → image t' ino' path src.
Proof.
  intros Hi src. induction src as [pin link ro reads entries listed IH] using source_ind'. intros path Ht H.
  inversion H as [? st target|? st ? ? ? ? ? i Hk Hp Hino|? st ? ? ? ? ? Hk Hp Hl]; subst.
  - apply image_link; [done|]. by rewrite Ht.
  - eapply image_file; [done|by rewrite Ht|by apply Hi].
  - apply image_dir; [done|by rewrite Ht|]. inversion Hl as [? ? Hin Hout]; subst. constructor.
    + intros n src Hsrc Hdot. rewrite Forall_forall in IH. apply (IH _ Hsrc); [|by apply Hin].
      intros p [k ->]. apply Ht. rewrite <-app_assoc. by apply prefix_app_r.
    + intros n Hn. apply Hout. rewrite Ht in Hn by (by apply prefix_app_r). done.
Qed.

(** ** Steps that succeed *)

Lemma ok_bind {A B} (m : SM A) (k : A → SM B) s b s2 :
  (m ≫= k) s = (inl b, s2) → ∃ a s1, m s = (inl a, s1) ∧ k a s1 = (inl b, s2).
Proof. rewrite bind_eq. destruct (m s) as [[a|e] s1]; [eauto|done]. Qed.
Lemma ok_undo {A} (m : SM A) undo s a s1 : or_undo m undo s = (inl a, s1) → m s = (inl a, s1).
Proof. rewrite or_undo_eq. by destruct (m s) as [[x|e] s']. Qed.
Lemma ok_call what s u s1 : call what s = (inl u, s1) → ∃ f, s1 = with_faults f s.
Proof. destruct (call_cases what s) as (f & r & ->). intros [= -> <-]. eauto. Qed.
Lemma ok_create what path n s u s1 : create what path n s = (inl u, s1) →
  ws_tree s !! path = None ∧ ∃ f, s1 = with_tree (<[path := n]> (ws_tree s)) (with_faults f s).
Proof. destruct (create_cases what path n s) as (f & [->|[Hn ->]]); [done|]. intros [= _ <-]. eauto. Qed.

(** The same destination: only faults and budget differ. *)
Definition same_dest (s s' : walk_state) : Prop :=
  ws_tree s' = ws_tree s ∧ ws_inodes s' = ws_inodes s ∧ ws_hardlinks s' = ws_hardlinks s.

Lemma ok_spend f s u s1 : spend f s = (inl u, s1) → same_dest s s1.
Proof. unfold spend. destruct (f _); [|done]. by intros [= _ <-]. Qed.
Lemma ok_reopen what st ro s u s1 : reopen what st ro s = (inl u, s1) → s1 = s.
Proof. unfold reopen. destruct ro; [|done]. destruct (same_identity _ _); [|done]. by intros [= _ <-]. Qed.
Lemma ok_admit entries listed s u s1 : admit_entries entries listed s = (inl u, s1) → same_dest s s1.
Proof.
  revert s. induction entries as [|[n src] entries IH]; intros s; simpl; [destruct listed; [by intros [= _ <-]|done]|].
  intros (a & s2 & H1 & H2)%ok_bind. apply IH in H2 as (A1 & A2 & A3).
  assert (same_dest s s2) as (B1 & B2 & B3) by (destruct (is_dot n); [by injection H1 as _ <-|by eapply ok_spend]).
  split_and!; congruence.
Qed.

Lemma ok_contents reads i off size s u s1 nd : copyFileContents reads i off size s = (inl u, s1) → ws_inodes s !! i = Some nd → off ≤ size →
  ws_tree s1 = ws_tree s ∧ ws_hardlinks s1 = ws_hardlinks s ∧
  ws_inodes s1 = <[i := mkInode (in_mode nd) (in_data nd +:+ contents reads (size - off))]> (ws_inodes s) ∧
  Z.of_nat (String.length (contents reads (size - off))) = size - off.
Proof.
  intros H Hi Hoff. revert off s nd H Hi Hoff. induction reads as [|r reads IH]; intros off s nd H Hi Hoff; simpl in H |- *.
  all: destruct (Z.leb_spec size off); [injection H as _ <-; replace (size - off) with 0 by lia; simpl; rewrite str_app_nil_r;
    split_and!; [done|done|destruct nd; by rewrite insert_id|done]|].
  { apply ok_bind in H as (a & s2 & _ & H). done. }
  rewrite (proj2 (Z.leb_gt (size - off) 0)) by lia. apply ok_bind in H as (a & s2 & Hc & H). apply ok_call in Hc as [f ->].
  destruct r as [b|]; [|done]. set (buf := String.substring _ _ b) in *. case_bool_decide; [done|].
  apply ok_bind in H as (a' & s3 & Hc & H). apply ok_call in Hc as [f' ->]. apply ok_bind in H as (a2 & s4 & Hw & H).
  unfold write_inode, modify in Hw. injection Hw as _ <-.
  assert (Hlen : Z.of_nat (String.length buf) ≤ size - off).
  { unfold buf. pose proof (substring_le (Z.to_nat (Z.min copyChunkSize (size - off))) b). unfold copyChunkSize in *. lia. }
  apply (IH _ _ (mkInode (in_mode nd) (in_data nd +:+ buf))) in H; [|simpl; by rewrite lookup_alter_eq, Hi|lia].
  destruct H as (D1 & D2 & D3 & D4). simpl in D1, D2, D3.
  replace (size - (off + Z.of_nat (String.length buf))) with (size - off - Z.of_nat (String.length buf)) in * by lia.
  split_and!; [done|done| |rewrite str_length_app; lia]. rewrite D3. apply map_eq. intros j.
  destruct (decide (i = j)) as [<-|Hj]; [by rewrite !lookup_insert_eq, str_app_assoc|by rewrite !lookup_insert_ne, lookup_alter_ne].
Qed.

Lemma ok_link link path rel s u s1 : copy_link link path rel s = (inl u, s1) →
  ∃ target, link = Some target ∧ ws_tree s !! path = None ∧ ws_tree s1 = <[path := NLink target]> (ws_tree s) ∧
    ws_inodes s1 = ws_inodes s ∧ ws_hardlinks s1 = ws_hardlinks s.
Proof.
  unfold copy_link. destruct link as [target|]; [|done]. destruct (negb _); [done|].
  intros (a & s2 & H & (a2 & s3 & H2 & H3%ok_undo)%ok_bind)%ok_bind. apply ok_spend in H as (E1 & E2 & E3).
  apply ok_create in H2 as (Hn & f & ->). apply ok_call in H3 as [f' ->]. exists target. simpl. rewrite E1 in *. by split_and!.
Qed.

Lemma ok_file st ro reads path rel s u s1 : copy_file st ro reads path rel s = (inl u, s1) →
  ws_tree s !! path = None ∧
  ((∃ first i, ws_hardlinks s !! identity st = Some first ∧ ws_tree s !! rel_comps first = Some (NFile i) ∧
      ws_tree s1 = <[path := NFile i]> (ws_tree s) ∧ ws_inodes s1 = ws_inodes s ∧ ws_hardlinks s1 = ws_hardlinks s) ∨
   (∃ i nd, ws_hardlinks s !! identity st = None ∧ ws_inodes s !! i = None ∧ copy_of st reads nd ∧
      ws_tree s1 = <[path := NFile i]> (ws_tree s) ∧ ws_inodes s1 = <[i := nd]> (ws_inodes s) ∧
      ws_hardlinks s1 = <[identity st := rel]> (ws_hardlinks s))).
Proof.
  unfold copy_file. intros (hl & s2 & Hg & H)%ok_bind. injection Hg as <- <-. fold (identity st) in H.
  destruct (ws_hardlinks s !! identity st) as [first|] eqn:Eh.
  { unfold link_file in H. apply ok_bind in H as (t & s2 & Hg & H). injection Hg as <- <-. fold (rel_comps first) in H.
    destruct (ws_tree s !! rel_comps first) as [[| |i]|] eqn:Et; try done. apply ok_create in H as (Hn & f & ->).
    split; [done|left]. exists first, i. by split_and!. }
  apply ok_bind in H as (a & s2 & ->%ok_reopen & H). apply ok_bind in H as (a1 & s3 & Hs & H).
  assert (Hsz : 0 ≤ st_Size st).
  { unfold spend in Hs. destruct (reserveBytes _ _) eqn:E; [|done]. apply reserve_ok in E as [? _]. lia. }
  apply ok_spend in Hs as (E1 & E2 & E3).
  apply ok_bind in H as (i & s4 & Hc & H). unfold create_file in Hc. apply ok_bind in Hc as (j & s5 & Hj & Hc). injection Hj as <- <-.
  apply ok_bind in Hc as (a2 & s6 & (Hn & f & ->)%ok_create & Hc). apply ok_bind in Hc as (a3 & s7 & Hm & Hr).
  injection Hm as _ <-. injection Hr as <- <-. set (k := fresh (dom (ws_inodes s3))) in *.
  assert (Hk : ws_inodes s3 !! k = None) by apply not_elem_of_dom, is_fresh.
  apply ok_bind in H as (a4 & s8 & H8%ok_undo & H). apply (ok_contents _ _ _ _ _ _ _ (mkInode 0 "")) in H8; [|simpl; by rewrite lookup_insert_eq|lia].
  destruct H8 as (T1 & T2 & T3 & T4). rewrite Z.sub_0_r in *. cbn [in_mode in_data] in T3.
  apply ok_bind in H as (a5 & s9 & [f9 ->]%ok_undo%ok_call & H). apply ok_bind in H as (a6 & s10 & Hw & H). injection Hw as _ <-.
  apply ok_bind in H as (a7 & s11 & [f11 ->]%ok_undo%ok_call & H). injection H as _ <-. simpl in *.
  split; [by rewrite <-E1|right]. exists k, (mkInode (file_mode_of (st_Mode st)) (contents reads (st_Size st))).
  rewrite E2 in *. split_and!; [done|done| |by rewrite T1, E1| |by rewrite T2, E3].
  - by split.
  - rewrite T3. apply map_eq. intros j. destruct (decide (k = j)) as [<-|Hj].
    + by rewrite lookup_alter_eq, !lookup_insert_eq.
    + by rewrite lookup_alter_ne, !lookup_insert_ne.
Qed.

(** ** The walk *)

(** What exists stays. *)
Record grows (s s' : walk_state) : Prop := {
  gw_tree : ∀ p x, ws_tree s !! p = Some x → ws_tree s' !! p = Some x;
  gw_inodes : ∀ i nd, ws_inodes s !! i = Some nd → ws_inodes s' !! i = Some nd;
  gw_links : ∀ id rel, ws_hardlinks s !! id = Some rel → ws_hardlinks s' !! id = Some rel }.

Lemma grows_trans s1 s2 s3 : grows s1 s2 → grows s2 s3 → grows s1 s3.
Proof. intros [] []. split; eauto. Qed.
Lemma grows_same s s' : same_dest s s' → grows s s'.
Proof. intros (E1 & E2 & E3). by split; rewrite ?E1, ?E2, ?E3. Qed.

Lemma grows_ino s s' id i : grows s s' → ino_of s id = Some i → ino_of s' id = Some i.
Proof.
  intros Hg. unfold ino_of. destruct (ws_hardlinks s !! id) as [rel|] eqn:E; [|done]. rewrite (gw_links _ _ Hg _ _ E). simpl.
  destruct (ws_tree s !! rel_comps rel) as [[| |j]|] eqn:Et; try done. by rewrite (gw_tree _ _ Hg _ _ Et).
Qed.

Lemma extends_grows all path s s' : sound all s → extends path s s' → grows s s'.
Proof.
  intros Hs [H1 H2 H3 H4]. split; [|done..]. intros p x Hx. rewrite H2; [done|]. intros Hp.
  by rewrite (closed_below _ (so_closed _ _ Hs) path p H1 Hp) in Hx.
Qed.

(** A new entry below a staged directory keeps the state sound. *)
Lemma sound_insert all dir name n s s' :
  sound all s → (∃ m, ws_tree s !! dir = Some (NDir m)) → ws_tree s !! (dir ++ [name]) = None →
  ws_tree s' = <[dir ++ [name] := n]> (ws_tree s) → ws_inodes s' = ws_inodes s → ws_hardlinks s' = ws_hardlinks s →
  sound all s' ∧ extends (dir ++ [name]) s s' ∧ ∀ id i, ino_of s' id = Some i → ino_of s id = Some i.
Proof.
  intros Hs [m Hm] Hn Et Ei Eh. 
  assert (Hino : ∀ id i, ino_of s' id = Some i → ino_of s id = Some i).
  { intros id i. unfold ino_of. rewrite Eh, Et. destruct (ws_hardlinks s !! id) as [rel|] eqn:E; [|done]. simpl.
    destruct (so_first _ _ Hs _ _ E) as (p & j & ? & ? & ? & ? & ? & ? & ? & -> & Hp & Hne & Hj & _). rewrite rel_comps_join by done.
    rewrite lookup_insert_ne; [done|]. intros <-. congruence. }
  assert (Hx : extends (dir ++ [name]) s s').
  { split; [done| |by rewrite Ei|by rewrite Eh]. intros p Hp. rewrite Et, lookup_insert_ne; [done|]. by intros <-. }
  split; [|by split]. pose proof (extends_grows _ _ _ _ Hs Hx) as Hg. split.
  - intros p nm. rewrite Et. destruct (decide (dir ++ [name] = p ++ [nm])) as [E|Hne].
    + apply app_inj_tail in E as [<- <-]. intros _. exists m. rewrite lookup_insert_ne; [done|]. intros E. by apply (f_equal length) in E; rewrite length_app in E; simpl in E; lia.
    + rewrite lookup_insert_ne by done. intros Hp. destruct (so_closed _ _ Hs _ _ Hp) as [m' Hm']. exists m'. rewrite <-Et. by apply (gw_tree _ _ Hg).
  - intros id rel. rewrite Eh. intros E.
    destruct (so_first _ _ Hs _ _ E) as (p & j & st & l & ro & rd & en & li & nd & H1 & H2 & H3 & H4 & H5 & H6).
    exists p, j, st, l, ro, rd, en, li, nd. split; [done|]; split; [done|]; split; [done|]; split; [by apply (gw_tree _ _ Hg)|]. by rewrite Ei.
  - intros id id' i H1 H2. eapply (so_inj _ _ Hs); by apply Hino.
Qed.

Lemma below_dir all n pin link ro rd entries listed e :
  below all (Source pin link ro rd entries listed) → (n, e) ∈ entries → is_dot n = false → below all e.
Proof.
  remember (Source pin link ro rd entries listed) as d. intros H. revert Heqd.
  induction H as [es n' src Hin Hd|es n' pin' link' ro' rd' es' listed' src Hin Hd Hb IH]; intros -> He Hn.
  - eapply below_there; [exact Hin|exact Hd|]. by eapply below_here.
  - eapply below_there; [exact Hin|exact Hd|]. by apply IH.
Qed.

Lemma image_some t ino path src : image t ino path src → is_Some (t !! path).
Proof. intros H. inversion H; subst; eauto. Qed.

Lemma sound_same all s s' : same_dest s s' → sound all s → sound all s'.
Proof. intros (E1 & E2 & E3) [H1 H2 H3]. split; unfold ino_of in *; rewrite ?E1, ?E2, ?E3; done. Qed.

Lemma ino_same s s' : same_dest s s' → ∀ id, ino_of s' id = ino_of s id.
Proof. intros (E1 & E2 & E3) id. unfold ino_of. by rewrite E1, E3. Qed.

(** The mode of a staged directory. *)
Lemma sound_chmod all path m0 mode s s' :
  sound all s → ws_tree s !! path = Some (NDir m0) → ws_tree s' = <[path := NDir mode]> (ws_tree s) →
  ws_inodes s' = ws_inodes s → ws_hardlinks s' = ws_hardlinks s → sound all s' ∧ ∀ id, ino_of s' id = ino_of s id.
Proof.
  intros Hs Hm Et Ei Eh.
  assert (Hino : ∀ id, ino_of s' id = ino_of s id).
  { intros id. unfold ino_of. rewrite Eh, Et. destruct (ws_hardlinks s !! id) as [rel|] eqn:E; [|done]. simpl.
    destruct (so_first _ _ Hs _ _ E) as (p & j & ? & ? & ? & ? & ? & ? & ? & -> & Hp & Hne & Hj & _). rewrite rel_comps_join by done.
    rewrite lookup_insert_ne; [done|]. intros <-. congruence. }
  split; [|done]. split.
  - intros p n. rewrite Et. intros Hp. destruct (decide (path = p)) as [<-|Hne]; [rewrite lookup_insert_eq; eauto|].
    rewrite lookup_insert_ne by done. apply (so_closed _ _ Hs p n).
    destruct (decide (path = p ++ [n])) as [E|Hne']; [rewrite <-E; eauto|]. by rewrite lookup_insert_ne in Hp.
  - intros id rel. rewrite Eh. intros E.
    destruct (so_first _ _ Hs _ _ E) as (p & j & st & l & ro & rd & en & li & nd & H1 & H2 & H3 & H4 & H5 & H6).
    exists p, j, st, l, ro, rd, en, li, nd. split; [done|]; split; [done|]; split; [done|]. rewrite Ei, Et.
    split; [|by split]. rewrite lookup_insert_ne; [done|]. intros <-. congruence.
  - intros id id' i. rewrite !Hino. apply (so_inj _ _ Hs).
Qed.

(** The first copy of a file. *)
Lemma sound_file all dir name i nd st link ro reads entries listed s s' :
  sound all s → (∃ m, ws_tree s !! dir = Some (NDir m)) → Forall proper (dir ++ [name]) → ws_tree s !! (dir ++ [name]) = None →
  ws_hardlinks s !! identity st = None → ws_inodes s !! i = None → copy_of st reads nd → kind st = S_IFREG →
  below all (Source (Some st) link ro reads entries listed) →
  ws_tree s' = <[dir ++ [name] := NFile i]> (ws_tree s) → ws_inodes s' = <[i := nd]> (ws_inodes s) →
  ws_hardlinks s' = <[identity st := join_sep (dir ++ [name])]> (ws_hardlinks s) →
  sound all s' ∧ extends (dir ++ [name]) s s' ∧ ino_of s' (identity st) = Some i.
Proof.
  intros Hs [m Hm] Hp Hn Hh Hi Hc Hk Hb Et Ei Eh. assert (Hne : dir ++ [name] ≠ []) by (by destruct dir).
  assert (Hx : extends (dir ++ [name]) s s').
  { split; [done|..].
    - intros p Hpre. rewrite Et, lookup_insert_ne; [done|]. by intros <-.
    - intros j x Hj. rewrite Ei, lookup_insert_ne; [done|]. intros <-. congruence.
    - intros id rel Hl. rewrite Eh, lookup_insert_ne; [done|]. intros <-. congruence. }
  assert (Hnew : ino_of s' (identity st) = Some i).
  { unfold ino_of. rewrite Eh, lookup_insert_eq. simpl. by rewrite rel_comps_join, Et, lookup_insert_eq. }
  split; [|by split]. pose proof (extends_grows _ _ _ _ Hs Hx) as Hg.
  assert (Hold : ∀ id j, ino_of s' id = Some j → id = identity st ∧ j = i ∨ ino_of s id = Some j ∧ is_Some (ws_inodes s !! j)).
  { intros id j Hj. destruct (decide (id = identity st)) as [->|Hid]; [left; split; congruence|right].
    unfold ino_of in *. rewrite Eh, lookup_insert_ne in Hj by done. destruct (ws_hardlinks s !! id) as [rel|] eqn:E; [|done]. simpl in *.
    destruct (so_first _ _ Hs _ _ E) as (p & k & ? & ? & ? & ? & ? & ? & ? & -> & Hpp & Hpn & Hk1 & Hk2 & _).
    rewrite rel_comps_join in * by done. rewrite (gw_tree _ _ Hg _ _ Hk1) in Hj. injection Hj as <-. rewrite Hk1. eauto. }
  split.
  - intros p nm. rewrite Et. destruct (decide (dir ++ [name] = p ++ [nm])) as [E|Hne'].
    + apply app_inj_tail in E as [<- <-]. intros _. exists m. rewrite <-Et. by apply (gw_tree _ _ Hg).
    + rewrite lookup_insert_ne by done. intros Hx'. destruct (so_closed _ _ Hs _ _ Hx') as [m' Hm']. exists m'. rewrite <-Et. by apply (gw_tree _ _ Hg).
  - intros id rel. rewrite Eh. destruct (decide (identity st = id)) as [<-|Hid].
    + rewrite lookup_insert_eq. intros [= <-]. exists (dir ++ [name]), i, st, link, ro, reads, entries, listed, nd.
      by rewrite Et, Ei, !lookup_insert_eq.
    + rewrite lookup_insert_ne by done. intros E.
      destruct (so_first _ _ Hs _ _ E) as (p & j & st0 & l & r0 & rd & en & li & nd0 & H1 & H2 & H3 & H4 & H5 & H6).
      exists p, j, st0, l, r0, rd, en, li, nd0. split; [done|]; split; [done|]; split; [done|].
      split; [by apply (gw_tree _ _ Hg)|]. split; [by apply (gw_inodes _ _ Hg)|done].
  - intros id id' j H1 H2. apply Hold in H1 as [[-> ->]|[H1 Hs1]]; apply Hold in H2 as [[-> E2]|[H2 Hs2]]; [done| | |by eapply (so_inj _ _ Hs)].
    + rewrite Hi in Hs2. by destruct Hs2.
    + subst. rewrite Hi in Hs1. by destruct Hs1.
Qed.

(** What a successful entry leaves. *)
Definition copied (all : list (string * source)) (path : list string) (src : source) (s s' : walk_state) : Prop :=
  sound all s' ∧ extends path s s' ∧ image (ws_tree s') (ino_of s') path src.

Lemma copied_same all path src s s' s2 s2' :
  same_dest s2 s → same_dest s' s2' → copied all path src s s' → copied all path src s2 s2'.
Proof.
  intros (A1 & A2 & A3) Hs2 (H1 & H2 & H3). pose proof Hs2 as (B1 & B2 & B3). split; [by eapply sound_same|]. split.
  - destruct H2 as [E1 E2 E3 E4]. rewrite A1, A2, A3 in *. by split; rewrite ?B1, ?B2, ?B3.
  - rewrite B1. eapply image_mono; [| |exact H3]; [|done]. intros id i. by rewrite (ino_same _ _ Hs2).
Qed.

Lemma each_copied all path copy entries :
  (∀ n src, (n, src) ∈ entries → is_dot n = false → ∀ s u s', sound all s → (∃ m, ws_tree s !! path = Some (NDir m)) →
    copy n src s = (inl u, s') → copied all (path ++ [n]) src s s') →
  ∀ s u s', sound all s → (∃ m, ws_tree s !! path = Some (NDir m)) → copy_each copy entries s = (inl u, s') →
  sound all s' ∧ grows s s' ∧
  (∀ p, (∀ n src, (n, src) ∈ entries → is_dot n = false → ¬ (path ++ [n]) `prefix_of` p) → ws_tree s' !! p = ws_tree s !! p) ∧
  (∀ n src, (n, src) ∈ entries → is_dot n = false → ws_tree s !! (path ++ [n]) = None ∧ image (ws_tree s') (ino_of s') (path ++ [n]) src).
Proof.
  induction entries as [|[n src] entries IH]; intros Hc s u s' Hs Hd H.
  { injection H as _ <-. split_and!; [done|by split|done|]. by intros n src ?%not_elem_of_nil. }
  cbn [copy_each] in H. apply ok_bind in H as (a & s1 & H1 & H2).
  assert (Hc' : ∀ n src, (n, src) ∈ entries → is_dot n = false → ∀ s u s', sound all s → (∃ m, ws_tree s !! path = Some (NDir m)) →
    copy n src s = (inl u, s') → copied all (path ++ [n]) src s s') by (intros; eapply Hc; [by right|done..]).
  specialize (IH Hc'). destruct (is_dot n) eqn:Edot.
  { injection H1 as _ <-. destruct (IH _ _ _ Hs Hd H2) as (A1 & A2 & A3 & A4). split_and!; [done|done| |].
    - intros p Hp. apply A3. intros n' src' Hin. apply (Hp n' src'). by right.
    - intros n' src' [[= -> ->]|Hin]%elem_of_cons Hn'; [congruence|by apply A4]. }
  apply ok_bind in H1 as (a1 & s2 & [f ->]%ok_call & H1).
  assert (Hsame : same_dest s (with_faults f s)) by done.
  assert (Hcp : copied all (path ++ [n]) src s s1).
  { eapply (copied_same _ _ _ (with_faults f s)); [done| |eapply (Hc n src); [by left|done|by eapply sound_same|exact Hd|exact H1]]. done. }
  destruct Hcp as (B1 & B2 & B3). pose proof (extends_grows _ _ _ _ Hs B2) as Bg.
  assert (Hd1 : ∃ m, ws_tree s1 !! path = Some (NDir m)) by (destruct Hd as [m Hm]; exists m; by apply (gw_tree _ _ Bg)).
  destruct (IH _ _ _ B1 Hd1 H2) as (A1 & A2 & A3 & A4). split_and!; [done|by eapply grows_trans|..].
  - intros p Hp. rewrite A3; [apply (ex_tree _ _ _ B2); eapply Hp; [by left|done]|]. intros n' src' Hin. apply (Hp n' src'). by right.
  - intros n' src' [[= -> ->]|Hin]%elem_of_cons Hn'.
    + split; [apply (ex_fresh _ _ _ B2)|]. eapply image_mono; [| |exact B3]; [intros id i; by apply grows_ino|].
      intros p Hp. apply A3. intros n' src' Hin Hn'' Hp'. destruct (A4 _ _ Hin Hn'') as [Hnone _].
      apply image_some in B3 as [x Hx]. destruct Hp as [k1 ->]. destruct Hp' as [k2 E]. rewrite <-!app_assoc in E.
      apply app_inv_head in E. simpl in E. injection E as <- _. congruence.
    + destruct (A4 _ _ Hin Hn') as [Hnone Him]. split; [|done].
      destruct (ws_tree s !! (path ++ [n'])) as [x|] eqn:E; [|done]. apply (gw_tree _ _ Bg) in E. congruence.
Qed.

Lemma listed_or (n : string) (entries : list (string * source)) :
  (∃ src, (n, src) ∈ entries ∧ is_dot n = false) ∨ (∀ n' src, (n', src) ∈ entries → is_dot n' = false → n' ≠ n).
Proof.
  destruct (decide (Exists (λ e : string * source, e.1 = n ∧ is_dot e.1 = false) entries)) as [H|H].
  - left. apply Exists_exists in H as ([n' src] & Hin & <- & Hd). eauto.
  - right. intros n' src Hin Hd <-. apply H, Exists_exists. by eexists.
Qed.

Lemma listing_mono t t' ino ino' path entries :
  (∀ id i, ino id = Some i → ino' id = Some i) → (∀ p n, path ++ [n] `prefix_of` p → t' !! p = t !! p) →
  listing t ino path entries → listing t' ino' path entries.
Proof.
  intros Hi Ht H. inversion H as [? ? Hin Hout]; subst. constructor.
  - intros n e He Hd. eapply image_mono; [exact Hi|intros p; apply Ht|by apply Hin].
  - intros n Hn. apply Hout. by rewrite <-(Ht _ n).
Qed.

(** The copy of a whole listing into an empty directory. *)
Lemma each_listing all path copy entries s u s' :
  (∀ n src, (n, src) ∈ entries → is_dot n = false → ∀ s u s', sound all s → (∃ m, ws_tree s !! path = Some (NDir m)) →
    copy n src s = (inl u, s') → copied all (path ++ [n]) src s s') →
  sound all s → (∃ m, ws_tree s !! path = Some (NDir m)) → (∀ n, ws_tree s !! (path ++ [n]) = None) →
  copy_each copy entries s = (inl u, s') →
  sound all s' ∧ grows s s' ∧ (∀ p, ¬ path `prefix_of` p → ws_tree s' !! p = ws_tree s !! p) ∧
  listing (ws_tree s') (ino_of s') path entries.
Proof.
  intros Hc Hs Hd Hn H. destruct (each_copied all path copy entries Hc s u s' Hs Hd H) as (C1 & C2 & C3 & C4). split_and!; [done|done| |].
  - intros p Hp. apply C3. intros n e _ _ Hpre. apply Hp. etrans; [|exact Hpre]. by apply prefix_app_r.
  - constructor; [intros n e He Hdot; by apply C4|]. intros n [x Hx]. destruct (listed_or n entries) as [?|Hno]; [done|].
    rewrite C3, Hn in Hx; [done|]. intros n' e He Hdot [k E]. rewrite <-app_assoc in E. apply app_inv_head in E. injection E as E _.
    by apply (Hno _ _ He Hdot).
Qed.

Lemma entry_copied all src name dir depth s u s' :
  names_ok src → below all src → Forall proper dir → proper name →
  sound all s → (∃ m, ws_tree s !! dir = Some (NDir m)) →
  copyEntry src name dir (join_sep dir) depth s = (inl u, s') → copied all (dir ++ [name]) src s s'.
Proof.
  revert name dir depth s u s'. induction src as [pin link ro reads entries listed IH] using source_ind'.
  intros name dir depth s u s' Hn Hb Hd Hna Hs Hdir H. inversion_clear Hn as [?????? Hent]. cbn [copyEntry] in H.
  destruct pin as [st|]; [|done]. rewrite join_prefix in H by done. pose proof (proper_snoc _ _ Hd Hna) as Hdn.
  fold (kind st) in H. destruct (Z.eqb_spec (kind st) S_IFLNK) as [Ek|Ek].
  { apply ok_link in H as (target & -> & Hnone & E1 & E2 & E3).
    destruct (sound_insert all dir name (NLink target) s s' Hs Hdir Hnone E1 E2 E3) as (A1 & A2 & _).
    split_and!; [done|done|]. apply image_link; [done|]. by rewrite E1, lookup_insert_eq. }
  destruct (Z.eqb_spec (kind st) S_IFREG) as [Ek'|Ek'].
  { apply ok_file in H as [Hnone [(first & i & Hh & Ht & E1 & E2 & E3)|(i & nd & Hh & Hi & Hc & E1 & E2 & E3)]].
    - destruct (sound_insert all dir name (NFile i) s s' Hs Hdir Hnone E1 E2 E3) as (A1 & A2 & _). split_and!; [done|done|].
      apply image_file with i; [done|by rewrite E1, lookup_insert_eq|]. eapply ino_extends; [exact Hs|exact A2|].
      unfold ino_of. rewrite Hh. simpl. by rewrite Ht.
    - destruct (sound_file all dir name i nd st link ro reads entries listed s s' Hs Hdir Hdn Hnone Hh Hi Hc Ek' Hb E1 E2 E3) as (A1 & A2 & A3).
      split_and!; [done|done|]. apply image_file with i; [done|by rewrite E1, lookup_insert_eq|done]. }
  destruct (Z.eqb_spec (kind st) S_IFDIR) as [Ekd|Ekd]; [|done].
  apply ok_bind in H as (a0 & s0 & ->%ok_reopen & H). apply ok_bind in H as (a1 & s1 & H1%ok_spend & H).
  apply ok_bind in H as (a2 & s2 & (Hnone & f2 & ->)%ok_create & H). apply ok_bind in H as (a3 & s3 & [f3 ->]%ok_undo%ok_call & H).
  apply ok_bind in H as (a4 & s4 & H4%ok_undo & H).
  apply ok_bind in H4 as (a5 & s5 & [f5 ->]%ok_call & H4). apply ok_bind in H4 as (a6 & s6 & H6%ok_admit & H4).
  apply ok_bind in H as (a7 & s7 & [f7 ->]%ok_undo%ok_call & H). apply ok_bind in H as (a8 & s8 & H8 & [f9 ->]%ok_undo%ok_call).
  unfold chmod_dir, modify in H8. injection H8 as _ <-.
  destruct H1 as (P1 & P2 & P3). destruct H6 as (Q1 & Q2 & Q3). simpl in Q1, Q2, Q3. rewrite P1 in Q1, Hnone. rewrite P2 in Q2. rewrite P3 in Q3.
  destruct (sound_insert all dir name (NDir 448) s s6 Hs Hdir Hnone Q1 Q2 Q3) as (A1 & A2 & A3).
  assert (Hd6 : ∃ m, ws_tree s6 !! (dir ++ [name]) = Some (NDir m)) by (exists 448; by rewrite Q1, lookup_insert_eq).
  destruct (each_listing all (dir ++ [name]) (λ n e, copyEntry e n (dir ++ [name]) (join_sep (dir ++ [name])) (depth + 1)) entries s6 a4 s4)
    as (C1 & C2 & C3 & C4); [|done..| |exact H4|].
  { intros n e He Hdot x v x' Hx Hdx. rewrite Forall_forall in IH, Hent. destruct (Hent _ He) as [Hen Hok].
    apply (IH _ He); [done|by eapply below_dir|done|by apply entry_proper|done|done]. }
  { intros n. rewrite Q1, lookup_insert_ne. 2: { intros E. apply (f_equal length) in E. rewrite !length_app in E. simpl in E. lia. }
    apply (closed_below _ (so_closed _ _ Hs) (dir ++ [name]) _ Hnone). by apply prefix_app_r. }
  destruct Hd6 as [m6 Hd6]. pose proof (gw_tree _ _ C2 _ _ Hd6) as Hm4.
  set (s' := with_faults f9 _). assert (Et : ws_tree s' = <[dir ++ [name] := NDir (Z.land (st_Mode st) 4095)]> (ws_tree s4)).
  { apply map_eq. intros p. unfold s'. simpl. destruct (decide (dir ++ [name] = p)) as [<-|Hne];
      [by rewrite lookup_alter_eq, Hm4, lookup_insert_eq|by rewrite lookup_alter_ne, lookup_insert_ne]. }
  destruct (sound_chmod all (dir ++ [name]) m6 (Z.land (st_Mode st) 4095) s4 s' C1 Hm4 Et) as [D1 D2]; [done..|].
  split_and!; [done| |].
  - destruct A2 as [X1 X2 X3 X4]. split; [done|..].
    + intros p Hp. rewrite Et, lookup_insert_ne by (by intros <-). rewrite C3 by done. by apply X2.
    + intros i nd Hi. apply (gw_inodes _ _ C2), X3, Hi.
    + intros id rl Hi. apply (gw_links _ _ C2), X4, Hi.
  - apply image_dir; [done|by rewrite Et, lookup_insert_eq|]. eapply listing_mono; [| |exact C4]; [intros id i; by rewrite D2|].
    intros p n [k ->]. rewrite Et, lookup_insert_ne; [done|]. intros E. apply (f_equal length) in E. rewrite !length_app in E. simpl in E. lia.
Qed.

(** ** The copy *)

Lemma start_sound all c faults : sound all (walk_start c faults).
Proof.
  split; simpl.
  - intros p n [x Hx]. apply lookup_singleton_Some in Hx as [E _]. by destruct p.
  - intros id rel Hx. by rewrite lookup_empty in Hx.
  - intros id id' i. unfold ino_of. simpl. by rewrite lookup_empty.
Qed.

Lemma walk_copied c entries listed faults s u s' :
  Forall (λ e, entry_name e.1 ∧ names_ok e.2) entries → same_dest (walk_start c faults) s → walkAndCopy entries listed [] "" 0 s = (inl u, s') →
  sound entries s' ∧ ws_tree s' !! [] = Some (NDir 448) ∧ listing (ws_tree s') (ino_of s') [] entries.
Proof.
  intros Hn Hs H. apply ok_bind in H as (a & s1 & [f ->]%ok_call & H). apply ok_bind in H as (a1 & s2 & H2%ok_admit & H).
  assert (Hsame : same_dest (walk_start c faults) s2) by (destruct Hs as (A1 & A2 & A3); destruct H2 as (B1 & B2 & B3); simpl in *; split_and!; simpl; congruence).
  pose proof Hsame as (E1 & _ & _). assert (Hroot : ws_tree s2 !! [] = Some (NDir 448)) by (rewrite E1; apply lookup_singleton_eq).
  rewrite Forall_forall in Hn.
  destruct (each_listing entries [] (λ n e, copyEntry e n [] (join_sep []) (0 + 1)) entries s2 u s') as (C1 & C2 & C3 & C4); [|..|exact H|].
  - intros n e He Hdot x v x' Hx Hdx. destruct (Hn _ He) as [Hen Hok].
    apply entry_copied; [done|by eapply below_here|done|by apply entry_proper|done|done].
  - eapply sound_same; [exact Hsame|apply start_sound].
  - eauto.
  - intros n. rewrite E1. by apply lookup_singleton_ne.
  - split; [done|]. split; [by apply (gw_tree _ _ C2)|done].
Qed.

Lemma run_copied c df entries listed faults u s :
  Forall (λ e, entry_name e.1 ∧ names_ok e.2) entries → staging_run c df entries listed faults = (inl u, s) →
  sound entries s ∧ ws_tree s !! [] = Some (NDir 448) ∧ listing (ws_tree s) (ino_of s) [] entries.
Proof.
  intros Hn H. unfold staging_run in H. apply ok_bind in H as (? & s1 & [f1 ->]%ok_call & H).
  apply ok_bind in H as (? & s2 & [f2 ->]%ok_call & H). apply ok_bind in H as (? & s3 & [f3 ->]%ok_call & H).
  unfold stage_walk in H. apply ok_bind in H as (? & s4 & H4 & H). apply ok_bind in H as (? & s5 & [f5 ->]%ok_call & H).
  apply ok_bind in H as (? & s6 & [f6 ->]%ok_call & H). apply ok_bind in H as (t & s7 & Ht & H). injection Ht as <- <-.
  apply (walk_copied c _ _ faults) in H4 as (A1 & A2 & A3); [|done|done].
  assert (Es : s = with_faults f6 (with_faults f5 s4)).
  { destruct (open_beneath _ _ _) as [path|]; [|done]. destruct (ws_tree _ !! path) as [[| |]|]; try done. by injection H as _ <-. }
  subst s. split; [|by split]. apply (sound_same entries s4 (with_faults f6 (with_faults f5 s4))); [by split_and!|done].
Qed.

(** C15. C1: A context that is staged is exactly what the walk was told: every name the listings
    gave, and no other, with its link text, its directory permissions, or its file; files
    of one identity share one inode and no others do, and that inode has the bytes read,
    as many as the file's size announced, and the permission bits without set-uid and
    set-gid. *)
Theorem staged_copy_exact workspace contextPath dockerfileRel runtimeDir operationID pinned entries listed faults left dirs :
  Forall (λ e, entry_name e.1 ∧ names_ok e.2) entries →
  match StageBuildContext workspace contextPath dockerfileRel runtimeDir operationID pinned entries listed faults left dirs with
  | (inl _, dirs') => ∃ t m ino, dirs' !! operationID = Some (t, m) ∧ t !! [] = Some (NDir 448) ∧ listing t ino [] entries ∧
      (∀ id id' i, ino id = Some i → ino id' = Some i → id = id') ∧
      (∀ id i, ino id = Some i → ∃ st link reopened reads es l nd, below entries (Source (Some st) link reopened reads es l) ∧
        identity st = id ∧ m !! i = Some nd ∧ copy_of st reads nd)
  | (inr _, _) => True
  end.
Proof.
  intros Hn.
  pose proof (staging_cases productionBuildStagingCeilings workspace contextPath dockerfileRel runtimeDir operationID pinned entries listed faults left dirs) as H.
  unfold staging in H. unfold StageBuildContext. destruct (stageBuildContextInternal _ _ _ _ _ _ _ _ _ _ _ _) as [[r|e] dirs']; [|done].
  destruct H as [[[what [=]] _]|(Hno & _ & _ & H)]. destruct (staging_run _ _ _ _ _) as [[u|e] s] eqn:Er; destruct H as [Hr ->]; [|done].
  apply run_copied in Er as (Hs & Hroot & Hl); [|done]. exists (ws_tree s), (ws_inodes s), (ino_of s).
  split; [by rewrite lookup_insert_eq|]. split; [done|]. split; [done|]. split; [apply (so_inj _ _ Hs)|].
  intros id i Hi. unfold ino_of in Hi. destruct (ws_hardlinks s !! id) as [rel|] eqn:E; [|done]. simpl in Hi.
  destruct (so_first _ _ Hs _ _ E) as (p & j & st & link & ro & reads & es & l & nd & -> & Hp & Hne & Ht & Hm & Hc & _ & Hid & Hb).
  rewrite rel_comps_join, Ht in Hi by done. injection Hi as <-. by exists st, link, ro, reads, es, l, nd.
Qed.

Lemma staged_copy_exact_witness : ∃ t m ino, ex_staged = Some (t, m) ∧ listing t ino [] ex_source.
Proof.
  pose proof (staged_copy_exact "/w" "/w/app" "Dockerfile" "/run/h" "op_00000000000000000000000000000001" true ex_source true [] None ∅ ex_source_names) as H.
  assert (Hok : ∃ r, ex_staging.1 = inl r) by (eexists; vm_compute; reflexivity).
  unfold ex_staged, ex_staging in *. destruct (StageBuildContext _ _ _ _ _ _ _ _ _ _ _) as [[r|e] dirs']; [|by destruct Hok].
  destruct H as (t & m & ino & H1 & _ & H2 & _). exists t, m, ino. split; [exact H1|exact H2].
Defined.
