(* ===== verification/Build.v ===== *)
(** * Build: src/build.go — the build handler and its completion

    The build request from the captured authority to the started docker process, with
    what every early return gives back, and the completion of the process.  What one
    request draws and is answered is the record [build_world]; the copy of the context
    is that of Staging. *)
From S2P Require Import Prelude Filepath AllowedRoots GoStrings WorkspacePolicy Database SnapshotStore MacLifecycle Session Operation Proc DockerMount RunRequest Run Staging.
Local Open Scope Z_scope.

(** ** The request *)

Record buildRequest := mkBuildRequest {
  bq_Context : string; bq_Dockerfile : string; bq_Image : string; bq_BuildArgs : gmap string string }.

(** The missing field is named by the message only. *)
Definition check_build_request (req : buildRequest) : result unit :=
  if bool_decide (bq_Context req = "") then Err (code_error "missing_field")
  else if bool_decide (bq_Dockerfile req = "") then Err (code_error "missing_field")
  else if bool_decide (bq_Image req = "") then Err (code_error "missing_field")
  else Ok ().

(** The names in byte order. *)
Definition validateBuildArgs (args : gmap string string) : result (list string) :=
  if forallb (λ kv : string * string, envNamePattern kv.1) (map_to_list args)
  then Ok (sorted_names args) else errorf "invalid build arg name" [].

Section paths.
Context (h : host).

(** [filepath.Abs] of an absolute path is [Clean]. *)
Definition build_context_spelling (workspace : string) (req : buildRequest) : string :=
  if IsAbs (bq_Context req) then Clean (bq_Context req) else Join [workspace; bq_Context req].

Definition validateBuildRequest (workspace : string) (req : buildRequest) : HP (string * string) :=
  if IsAbs (bq_Dockerfile req) then hp_fail "dockerfile must be relative to context" []
  else
    let spelled := build_context_spelling workspace req in
    if negb (pathWithin workspace spelled) then hp_fail "context must be inside workspace" []
    else
      contextPath ← resolve_link h (λ _, code_error "cannot resolve context") spelled;
      if negb (pathWithin workspace contextPath) then hp_fail "context must be inside workspace" []
      else
        info ← stat_path h (λ _, code_error "cannot access context") contextPath;
        if bool_decide (info ≠ is_dir) then hp_fail "context is not a directory" []
        else
          let dockerfile := Join [contextPath; bq_Dockerfile req] in
          if negb (pathWithin contextPath dockerfile) then hp_fail "dockerfile escapes build context" []
          else
            dockerfilePath ← resolve_link h (λ _, code_error "cannot resolve dockerfile") dockerfile;
            if negb (pathWithin contextPath dockerfilePath) then hp_fail "dockerfile escapes build context" []
            else
              info ← stat_path h (λ _, code_error "cannot access dockerfile") dockerfilePath;
              if bool_decide (info ≠ is_regular) then hp_fail "dockerfile is not a regular file" []
              else mret (contextPath, dockerfilePath).
End paths.

(** The canonical relative Dockerfile. *)
Definition dockerfile_rel (contextPath dockerfilePath : string) : option string :=
  rel ← Rel contextPath dockerfilePath;
  if negb (IsLocal rel) || bool_decide (rel = ".") then None else Some rel.

(** A host input is evaluated as read-only consumption. *)
Definition read_exposure (snapshot : sessionFilesystemSnapshot) (path : string) : result sessionFilesystemExposure :=
  match resolveSessionFilesystemExposure snapshot path "" true with
  | (e, None) => Ok e
  | (_, Some e) => Err e
  end.

(** The docker arguments; the build arguments in key order. *)
Definition build_argv (dockerDir : string) (req : buildRequest) (keys : list string) (staged : stagedBuildContext) : list string :=
  ["--config"; dockerDir; "build"; "--pull"; "--provenance=false"; "--sbom=false";
   "--file"; DockerfilePath staged; "--tag"; bq_Image req] ++
  flags "--build-arg" ((λ key, key +:+ "=" +:+ default "" (bq_BuildArgs req !! key)) <$> keys) ++
  [ContextPath staged].

(** The public code of a failed staging. *)
Definition staging_code (e : staging_error) : string :=
  match e with
  | buildStagingCeilingError _ _ _ => "build_context_too_large"
  | errBuildStagingSymlinkOutsideContext => "invalid_build_context"
  | staging_failed _ => "internal_error"
  end.

(** ** The handler's state and its host *)

(** [bw_source] is what the walk of a context is told, [bw_left] what the removal after
    a failed staging leaves and [bw_cleanup] what the cleanup of a staged context
    leaves; [bw_marked] a cancellation or shutdown before the start. *)
Record build_world := mkBuildWorld {
  bw_operationID : string; bw_leaseKey : string; bw_now : Z; bw_docker_dir : bool;
  bw_pinned : bool; bw_source : string → list (string * source) * bool; bw_faults : list bool;
  bw_left : option (list string → bool); bw_cleanup : option (list string → bool);
  bw_marked : option terminationReason; bw_start : bool }.

Record build_state (W : Type) := mkBuildState {
  bs_mac : mac W; bs_sup : sup; bs_probes : list probe; bs_dirs : staging_dirs; bs_docker : list (op_ref * list string) }.
Arguments mkBuildState {W}. Arguments bs_mac {W}. Arguments bs_sup {W}. Arguments bs_probes {W}.
Arguments bs_dirs {W}. Arguments bs_docker {W}.

Section handler.
Context {W : Type} `{!sessionMACDriver W} (h : host) (cfg : run_config) (w : build_world).
Implicit Types s : build_state W.
Abbreviation HB := (HR (build_state W)).

Definition bs_with_mac (m : mac W) s : build_state W := mkBuildState m (bs_sup s) (bs_probes s) (bs_dirs s) (bs_docker s).
Definition bs_with_sup (x : sup) s : build_state W := mkBuildState (bs_mac s) x (bs_probes s) (bs_dirs s) (bs_docker s).
Definition bs_with_probes (l : list probe) s : build_state W := mkBuildState (bs_mac s) (bs_sup s) l (bs_dirs s) (bs_docker s).
Definition bs_with_dirs (d : staging_dirs) s : build_state W := mkBuildState (bs_mac s) (bs_sup s) (bs_probes s) d (bs_docker s).
Definition bs_with_docker (l : list (op_ref * list string)) s : build_state W :=
  mkBuildState (bs_mac s) (bs_sup s) (bs_probes s) (bs_dirs s) l.

Definition release_build_lease s : build_state W := bs_with_mac (releaseLease (bw_leaseKey w) (bs_mac s)) s.

(** [releasePreparation]: the lease, then the reservation. *)
Definition release_build_preparation (r : option reservation_ref) s : build_state W :=
  let s := release_build_lease s in bs_with_sup (Release r (bs_sup s)) s.

Definition build_preparing {A} (r : option reservation_ref) (code : string) (m : HP A) : HB A := λ s,
  match m (bs_probes s) with
  | (Ok a, l) => (inl a, bs_with_probes l s)
  | (Err _, l) => (inr (run_rejected code), release_build_preparation r (bs_with_probes l s))
  end.

(** The operation takes the capacity and the lease. *)
Definition new_build_operation (r : option reservation_ref) (session : Session) : HB op_ref := λ s,
  let o := fresh (dom (heap (bs_sup s))) in
  let op := newOperation operationKindBuild (bw_operationID w) (ss_ID session) (ss_LauncherID session) (bw_now w) "" in
  (inl o, bs_with_sup (transfer o r (set_op o op (bs_sup s))) s).

Definition stage_build (o : op_ref) (session : Session) (contextPath dockerfileRel : string) : HB stagedBuildContext := λ s,
  let '(entries, listed) := bw_source w contextPath in
  match StageBuildContext (ss_Workspace session) contextPath dockerfileRel (rc_RuntimeDir cfg) (bw_operationID w)
          (bw_pinned w) entries listed (bw_faults w) (bw_left w) (bs_dirs s) with
  | (inl staged, dirs) => (inl staged, bs_with_dirs dirs s)
  | (inr e, dirs) =>
      let s := release_build_lease (bs_with_dirs dirs s) in
      (inr (run_rejected (staging_code e)), bs_with_sup (releaseCapacity o (bs_sup s)) s)
  end.

(** The cleanup of the staged copy, then the lease; the lease stays when the cleanup
    failed. *)
Definition release_staged s : build_state W :=
  let '(ok, dirs) := Cleanup (bw_operationID w) (bw_cleanup w) (bs_dirs s) in
  let s := bs_with_dirs dirs s in
  if ok : bool then release_build_lease s else s.

Definition admit_build (o : op_ref) (r : option reservation_ref) : HB () := λ s,
  let '(decision, x) := admitReserved o r (bs_sup s) in
  if bool_decide (decision = admissionAccepted)
  then (inl (), bs_with_sup (pruneCompleted (bw_now w) (rc_RetentionTTL cfg) (rc_MaxCompleted cfg) x) s)
  else
    let s := release_staged (bs_with_sup x s) in
    (inr (run_rejected (refusal_code decision)), bs_with_sup (releaseCapacity o (bs_sup s)) s).

Definition start_build (o : op_ref) (args : list string) : HB op_ref := λ s,
  let s := match bw_marked w with Some reason => bs_with_sup (mark_op reason o (bs_sup s)) s | None => s end in
  let '(res, x) := startOperationProcess o (bw_start w) (bw_now w) (bs_sup s) in
  let s := bs_with_sup x s in
  let failed code s := bs_with_sup (fail_op o code None None (bw_now w) (bs_sup s)).2 s in
  match res with
  | startTerminated =>
      let code := if bool_decide (bw_marked w = Some terminationCancelled) then resultCancelled else "docker_build_failed" in
      (inr (run_created o), failed code (release_staged s))
  | startErr => (inr (run_created o), failed "docker_build_failed" (release_staged s))
  | startOk => (inl o, bs_with_docker (bs_docker s ++ [(o, args)]) s)
  end.

(** The policy half, under the reservation and the lease: the canonical context, the
    relative Dockerfile and the names of the build arguments. *)
Definition resolve_build (r : option reservation_ref) (req : buildRequest) (session : Session) (snapshot : sessionFilesystemSnapshot)
    : HB (string * string * list string) :=
  '(contextPath, dockerfilePath) ← build_preparing r "invalid_build_context" (validateBuildRequest h (ss_Workspace session) req);
  dockerfileRel ← build_preparing r "invalid_build_context"
    (hp_lift (match dockerfile_rel contextPath dockerfilePath with Some rel => Ok rel | None => errorf "dockerfile" [] end));
  _ ← build_preparing r "internal_error" (hp_lift (read_exposure snapshot contextPath));
  _ ← build_preparing r "internal_error" (hp_lift (read_exposure snapshot dockerfilePath));
  keys ← build_preparing r "invalid_build_args" (hp_lift (validateBuildArgs (bq_BuildArgs req)));
  mret (contextPath, dockerfileRel, keys).

Definition handleBuild (session : Session) (snapshot : sessionFilesystemSnapshot) (req : buildRequest) : HB op_ref :=
  _ ← on_result (check_build_request req);
  r ← (λ s, match reserve (ss_ID session) (ss_LauncherID session) operationKindBuild (bs_sup s) with
            | (r, admissionAccepted, x) => (inl r, bs_with_sup x s)
            | (_, decision, x) => (inr (run_rejected (refusal_code decision)), bs_with_sup x s)
            end) : HB (option reservation_ref);
  _ ← (λ s, match AcquireSessionUse (ss_ID session) (ss_Workspace session) (bw_leaseKey w) (bw_now w) (bs_mac s) with
            | (Ok _, m) => (inl (), bs_with_mac m s)
            | (Err _, m) => (inr (run_rejected "internal_error"), bs_with_sup (Release r (bs_sup s)) (bs_with_mac m s))
            end) : HB ();
  '(contextPath, dockerfileRel, keys) ← resolve_build r req session snapshot;
  _ ← build_preparing r "internal_error" (hp_lift (if bw_docker_dir w then Ok () else errorf "docker directory" []));
  o ← new_build_operation r session;
  staged ← stage_build o session contextPath dockerfileRel;
  _ ← admit_build o r;
  start_build o (build_argv (docker_dir cfg session) req keys staged).

(** The completion of the process: the cleanup, the lease, the terminal state. *)
Definition waitBuildCompletion (o : op_ref) (exit : option (option Z)) (duration : string) s : build_state W :=
  let s := release_staged s in
  let wasCancelled := match heap (bs_sup s) !! o with
                      | Some x => bool_decide (op_reason x = terminationCancelled) | None => false end in
  match exit with
  | None => bs_with_sup (succeed o (Some duration) (bw_now w) (bs_sup s)).2 s
  | Some exitCode =>
      let code := if wasCancelled then resultCancelled else "docker_build_failed" in
      bs_with_sup (fail_op o code exitCode (Some duration) (bw_now w) (bs_sup s)).2 s
  end.

End handler.
