(* ===== verification/BuildSpec.v ===== *)
(** * BuildSpec: what the build handler guarantees

    What a refusal gives back, what docker is given, which paths are probed, and the
    completion. *)
From S2P Require Import Prelude Filepath AllowedRoots AllowedRootsTheory GoStrings WorkspacePolicy Database SnapshotStore MacLifecycle MacTheory MacSpec Session SessionTheory Operation OperationTheory OwnershipTheory Proc Lifecycle LifecycleTheory DockerMount RunRequest RunRequestTheory Run RunTheory RunSpec Staging StagingTheory StagingSpec StagingCopy Build.
Local Open Scope Z_scope.

(** ** The ledger of a build *)

Section ledger.
Context {W : Type} `{!sessionMACDriver W} (h : host) (cfg : run_config) (w : build_world).
Implicit Types s : build_state W.

(** What the request draws is new. *)
Record fresh_build (s0 : build_state W) : Prop := {
  fb_capacity : capacity_inv (bs_sup s0);
  fb_lease : sessionUseLeases (bs_mac s0) !! bw_leaseKey w = None;
  fb_once : bw_leaseKey w ∉ releasedOnce (bs_mac s0) }.

Context (s0 : build_state W) (Hfresh : fresh_build s0).

Definition lease_back s : Prop := sessionUseLeases (bs_mac s) = sessionUseLeases (bs_mac s0).
Definition lease_held cov s : Prop :=
  sessionUseLeases (bs_mac s) = <[bw_leaseKey w := cov]> (sessionUseLeases (bs_mac s0)) ∧ bw_leaseKey w ∉ releasedOnce (bs_mac s).
(** The operation's own directory is all that is left. *)
Definition residue s : Prop := bs_dirs s0 !! bw_operationID w = None ∧ delete (bw_operationID w) (bs_dirs s) = bs_dirs s0.

(** Everything is back; or a removal failed: the one after a failed staging, or the
    cleanup of a staged context, which keeps the lease. *)
Definition restored s : Prop :=
  (bs_dirs s = bs_dirs s0 ∧ lease_back s) ∨ (bw_left w ≠ None ∧ residue s ∧ lease_back s) ∨
  (bw_cleanup w ≠ None ∧ residue s ∧ is_Some (sessionUseLeases (bs_mac s) !! bw_leaseKey w)).

Definition build_back s : Prop := bs_docker s = bs_docker s0 ∧ freed (bs_sup s0) (bs_sup s) ∧ restored s.
Definition build_refused (resp : run_response) s : Prop :=
  (∃ code, resp = run_rejected code) ∧ build_back s ∧ ops (bs_sup s) = ops (bs_sup s0).
Definition build_created (resp : run_response) s : Prop :=
  ∃ o x, resp = run_created o ∧ build_back s ∧ ops (bs_sup s) !! bw_operationID w = Some o ∧ heap (bs_sup s) !! o = Some x ∧
         op_State x = operationFailed ∧ is_Some (op_ResultCode x) ∧ op_done x = chan_closed.

Lemma lease_released cov s : lease_held cov s → lease_back (release_build_lease w s).
Proof.
  intros [El Ho]. unfold lease_back, release_build_lease. simpl.
  destruct (quiet_lease (bw_leaseKey w) (bs_mac s) Ho) as (_ & _ & ->). rewrite El, delete_insert_id; [done|apply Hfresh].
Qed.

Record b_leased sid c r cov s : Prop := {
  bl_docker : bs_docker s = bs_docker s0; bl_dirs : bs_dirs s = bs_dirs s0;
  bl_slot : slot true (bs_sup s0) sid c (bs_sup s);
  bl_reservation : reservations (bs_sup s) !! r = Some (Some c);
  bl_ops : ops (bs_sup s) = ops (bs_sup s0); bl_lease : lease_held cov s }.

Lemma build_untouched code s : bs_docker s = bs_docker s0 → bs_sup s = bs_sup s0 → bs_dirs s = bs_dirs s0 → lease_back s → build_refused (run_rejected code) s.
Proof.
  intros Hd Hs Hr Hl. split; [by eexists|]. rewrite Hs. split; [|done]. split; [done|]. split; [|by left].
  rewrite Hs. split; [apply Hfresh|done].
Qed.

Lemma preparation_released sid c r cov code s : b_leased sid c r cov s → build_refused (run_rejected code) (release_build_preparation w (Some r) s).
Proof.
  intros [H1 H2 H3 H4 H5 H6]. destruct (release_slot _ _ _ _ _ _ H3 H4) as [Hf Ho]. split; [by eexists|]. split.
  - split; [done|]. split; [done|]. left. split; [done|]. by eapply lease_released.
  - unfold release_build_preparation. cbn [bs_sup bs_with_sup release_build_lease bs_with_mac]. by rewrite Ho.
Qed.

Lemma build_preparing_hr {A} sid c r cov code (m : HP A) :
  hr (b_leased sid c r cov) (build_preparing w (Some r) code m) (λ a s, b_leased sid c r cov s ∧ ∃ l l', m l = (Ok a, l')) build_refused.
Proof.
  intros s Hs. unfold build_preparing. destruct (m (bs_probes s)) as [[a|e] l] eqn:E.
  - split; [|by eauto]. destruct Hs as [????? []]. by split.
  - eapply preparation_released with (s := bs_with_probes l s). destruct Hs as [????? []]. by split.
Qed.

(** What the policy half decided. *)
Record build_resolved (req : buildRequest) (session : Session) (snapshot : sessionFilesystemSnapshot) (res : string * string * list string) : Prop := {
  rb_paths : ∃ dockerfilePath l l', validateBuildRequest h (ss_Workspace session) req l = (Ok (res.1.1, dockerfilePath), l') ∧
    dockerfile_rel res.1.1 dockerfilePath = Some res.1.2 ∧ (∃ e, read_exposure snapshot res.1.1 = Ok e) ∧ ∃ e, read_exposure snapshot dockerfilePath = Ok e;
  rb_keys : validateBuildArgs (bq_BuildArgs req) = Ok res.2 }.

Lemma resolve_build_hr sid c r cov req session snapshot :
  hr (b_leased sid c r cov) (resolve_build h w (Some r) req session snapshot)
    (λ res s, b_leased sid c r cov s ∧ build_resolved req session snapshot res) build_refused.
Proof.
  unfold resolve_build. eapply hr_bind_; [apply build_preparing_hr|]. intros [contextPath dockerfilePath].
  apply (hr_pure _ _ _ _ _ (λ s H, proj2 H)). intros (l & l' & Hv).
  eapply hr_bind_; [eapply hr_pre; [apply build_preparing_hr|by intros s [? _]]|]. intros rel.
  apply (hr_pure _ _ _ _ _ (λ s H, proj2 H)). intros (? & ? & Hrel).
  eapply hr_bind_; [eapply hr_pre; [apply build_preparing_hr|by intros s [? _]]|]. intros e1.
  apply (hr_pure _ _ _ _ _ (λ s H, proj2 H)). intros (? & ? & He1).
  eapply hr_bind_; [eapply hr_pre; [apply build_preparing_hr|by intros s [? _]]|]. intros e2.
  apply (hr_pure _ _ _ _ _ (λ s H, proj2 H)). intros (? & ? & He2).
  eapply hr_bind_; [eapply hr_pre; [apply build_preparing_hr|by intros s [? _]]|]. intros keys.
  apply hr_ret_. intros s [Hs (? & ? & Hk)]. split; [done|]. unfold hp_lift in *.
  destruct (dockerfile_rel contextPath dockerfilePath) as [rel'|] eqn:Er; [|done]. simplify_eq/=.
  split; [|done]. exists dockerfilePath, l, l'. simpl. split_and!; [done..|by eexists|by eexists].
Qed.

(** An operation that no one has marked, started or completed, with its slot. *)
Definition b_waiting c (x : operation) : Prop :=
  op_State x = operationRunning ∧ op_ID x = bw_operationID w ∧ op_terminated x = false ∧ op_started x = false ∧
  op_reason x = terminationNone ∧ op_ResultCode x = None ∧ op_CompletedAt x = None ∧ op_capacityRelease x = Some c.

Record b_prepared sid c cov o s : Prop := {
  bp_docker : bs_docker s = bs_docker s0;
  bp_slot : slot true (bs_sup s0) sid c (bs_sup s);
  bp_op : ∃ x, heap (bs_sup s) !! o = Some x ∧ b_waiting c x;
  bp_lease : lease_held cov s }.

Definition b_unadmitted r s : Prop := ops (bs_sup s) = ops (bs_sup s0) ∧ reservations (bs_sup s) !! r = Some None.
(** The staged copy is in the operation's directory. *)
Definition b_staged s : Prop := residue s.

Lemma new_build_hr sid c r cov (session : Session) :
  hr (b_leased sid c r cov) (new_build_operation w (Some r) session)
    (λ o s, (b_prepared sid c cov o s ∧ b_unadmitted r s) ∧ bs_dirs s = bs_dirs s0) build_refused.
Proof.
  intros s [H1 H2 (Hi & Hc & Ec) H3 H4 H5]. unfold new_build_operation.
  set (o := fresh (dom (heap (bs_sup s)))). set (op := newOperation _ _ _ _ _ _).
  assert (Ho : heap (bs_sup s) !! o = None) by apply not_elem_of_dom, is_fresh.
  set (x1 := set_op o op (bs_sup s)).
  assert (Hi1 : capacity_inv x1) by (eapply capacity_inv_step; [exact Hi|by apply step_new]).
  assert (Hx1 : heap x1 !! o = Some op) by apply lookup_insert_eq.
  assert (Hi2 : capacity_inv (transfer o (Some r) x1)) by (eapply capacity_inv_step; [exact Hi1|by eapply step_transfer]).
  assert (Et : transfer o (Some r) x1 = set_reservations (<[r := None]> (reservations x1)) (set_op o (with_capacityRelease (Some c) op) x1)).
  { unfold transfer. change (reservations x1) with (reservations (bs_sup s)). rewrite H3. by rewrite Hx1. }
  change (set_op o op (bs_sup s)) with x1. split; [split|done].
  - split; [done| | |done].
    + split; [done|]. cbn [bs_sup bs_with_sup]. rewrite Et. by split.
    + exists (with_capacityRelease (Some c) op). cbn [bs_sup bs_with_sup]. rewrite Et. split; [apply lookup_insert_eq|]. by split_and!.
  - unfold b_unadmitted. cbn [bs_sup bs_with_sup]. rewrite Et. split; [done|apply lookup_insert_eq].
Qed.

Lemma op_freed sid c cov o s : b_prepared sid c cov o s →
  freed (bs_sup s0) (releaseCapacity o (bs_sup s)) ∧ ops (releaseCapacity o (bs_sup s)) = ops (bs_sup s) ∧
  ∃ x, b_waiting c x ∧ heap (releaseCapacity o (bs_sup s)) !! o = Some (with_capacityRelease None x).
Proof.
  intros [_ Hs (x & Hx & Hw) _]. destruct (release_op_slot _ _ _ _ _ _ _ Hs Hx (proj2 (proj2 (proj2 (proj2 (proj2 (proj2 (proj2 Hw)))))))) as (H1 & H2 & H3).
  split_and!; [done..|]. exists x. split; [done|]. rewrite H3. apply lookup_insert_eq.
Qed.

Lemma stage_build_hr sid c r cov o session contextPath rel :
  hr (λ s, (b_prepared sid c cov o s ∧ b_unadmitted r s) ∧ bs_dirs s = bs_dirs s0) (stage_build cfg w o session contextPath rel)
    (λ staged s, (b_prepared sid c cov o s ∧ b_unadmitted r s) ∧ residue s ∧
       StageBuildContext (ss_Workspace session) contextPath rel (rc_RuntimeDir cfg) (bw_operationID w) (bw_pinned w)
         (bw_source w contextPath).1 (bw_source w contextPath).2 (bw_faults w) (bw_left w) (bs_dirs s0) = (inl staged, bs_dirs s)) build_refused.
Proof.
  intros s [[Hp [Ho Hr]] Hd]. unfold stage_build. destruct (bw_source w contextPath) as [entries listed]. rewrite Hd.
  pose proof (staging_leaves (ss_Workspace session) contextPath rel (rc_RuntimeDir cfg) (bw_operationID w) (bw_pinned w) entries listed (bw_faults w) (bw_left w) (bs_dirs s0)) as Hout.
  cbn [fst snd]. destruct (StageBuildContext _ _ _ _ _ _ _ _ _ _ _) as [[staged|e] dirs] eqn:E.
  - destruct Hout as ((_ & _ & Hn & _) & _ & Hback). split; [split|split; [split; [done|]|reflexivity]].
    + destruct Hp as [A1 A2 A3 A4]. by split.
    + by split.
    + done.
  - destruct (op_freed _ _ _ _ _ Hp) as (Hf & Hops & _). split; [by eexists|]. split; [|simpl; by rewrite Hops].
    split; [apply (bp_docker _ _ _ _ _ Hp)|]. split; [done|].
    assert (Hl : lease_back (release_build_lease w (bs_with_dirs dirs s))) by (eapply (lease_released cov); exact (bp_lease _ _ _ _ _ Hp)).
    destruct Hout as [->|(Hne & Hn & Hdel)]; [left; by split|]. right; left. split_and!; [done| |done]. by split.
Qed.

(** The cleanup of a staged copy, and its lease. *)
Lemma staged_released cov s : residue s → lease_held cov s →
  bs_docker (release_staged w s) = bs_docker s ∧ bs_sup (release_staged w s) = bs_sup s ∧ restored (release_staged w s).
Proof.
  intros [Hn Hd] Hl. unfold release_staged, Cleanup. destruct (bs_dirs s !! bw_operationID w) as [staged|] eqn:E.
  - unfold remove_all. destruct (bw_cleanup w) as [keep|] eqn:Ec.
    + split_and!; [done..|]. right; right. rewrite Ec. split_and!; [done| |].
      * split; [done|]. simpl. by rewrite delete_insert_eq.
      * simpl. by rewrite (proj1 Hl), lookup_insert_eq.
    + split_and!; [done..|]. left. split; [done|]. by apply (lease_released cov).
  - split_and!; [done..|]. left. split; [simpl; by rewrite <-Hd, delete_id|]. by apply (lease_released cov).
Qed.

Lemma b_prepared_sup sid c cov o s x :
  b_prepared sid c cov o s → capacity_inv x → closures x = closures (bs_sup s) → heap x !! o = heap (bs_sup s) !! o →
  b_prepared sid c cov o (bs_with_sup x s).
Proof.
  intros [A1 A2 (y & Hy & Hw) A4] Hi Ec Hh. split; [done|by eapply slot_view| |done]. exists y. simpl. by rewrite Hh.
Qed.

Definition b_admitted o s : Prop := ops (bs_sup s) !! bw_operationID w = Some o.

Lemma admit_build_hr sid c r cov o :
  hr (λ s, (b_prepared sid c cov o s ∧ b_unadmitted r s) ∧ residue s) (admit_build cfg w o (Some r))
    (λ _ s, (b_prepared sid c cov o s ∧ b_admitted o s) ∧ residue s) build_refused.
Proof.
  intros s [[Hp [Hops Hr]] Hd]. destruct (bp_op _ _ _ _ _ Hp) as (x & Hx & Hw). unfold admit_build, admitReserved. rewrite Hx.
  assert (Hrej : ∀ code, build_refused (run_rejected code)
    (bs_with_sup (releaseCapacity o (bs_sup (release_staged w (bs_with_sup (bs_sup s) s)))) (release_staged w (bs_with_sup (bs_sup s) s)))).
  { intros code. destruct (op_freed _ _ _ _ _ Hp) as (Hf & Ho & _).
    destruct (staged_released cov (bs_with_sup (bs_sup s) s) Hd (bp_lease _ _ _ _ _ Hp)) as (E1 & E2 & E3).
    split; [by eexists|]. cbn [bs_sup bs_with_sup]. rewrite E2. cbn [bs_sup bs_with_sup]. split; [|by rewrite Ho].
    split; [cbn; rewrite E1; apply Hp|]. cbn [bs_sup bs_with_sup]. by split. }
  destruct (shutting _); [apply Hrej|]. destruct (default _ _); [apply Hrej|]. clear Hrej.
  set (x1 := set_ops (<[op_ID x := o]> (ops (bs_sup s))) (bs_sup s)).
  assert (Et : transfer o (Some r) x1 = x1) by (unfold transfer; change (reservations x1) with (reservations (bs_sup s)); by rewrite Hr).
  rewrite Et. cbv beta iota zeta. rewrite bool_decide_true by done.
  assert (Hi1 : capacity_inv x1) by (apply capacity_inv_set_ops, Hp).
  destruct (prune_set_ops (bw_now w) (rc_RetentionTTL cfg) (rc_MaxCompleted cfg) x1) as [m Em].
  assert (Hin : ops (pruneCompleted (bw_now w) (rc_RetentionTTL cfg) (rc_MaxCompleted cfg) x1) !! bw_operationID w = Some o).
  { eapply prune_keeps; [|exact Hx|apply Hw]. destruct Hw as (_ & Hid & _). simpl. rewrite Hid. apply lookup_insert_eq. }
  rewrite Em in *. split; [split|exact Hd]; [|exact Hin].
  eapply b_prepared_sup; [exact Hp|by apply capacity_inv_set_ops|done..].
Qed.

(** The process runs: the slot, the lease and the staged copy are the operation's. *)
Record build_running (sid : string) (c : closure_ref) (cov : list sessionMACCoverage) (o : op_ref) (args : list string) (dirs : staging_dirs) s : Prop := {
  br_docker : bs_docker s = bs_docker s0 ++ [(o, args)]; br_dirs : bs_dirs s = dirs; br_residue : residue s;
  br_slot : slot true (bs_sup s0) sid c (bs_sup s);
  br_listed : ops (bs_sup s) !! bw_operationID w = Some o;
  br_op : ∃ x, heap (bs_sup s) !! o = Some x ∧ op_State x = operationRunning ∧ op_started x = true ∧
    op_reason x = terminationNone ∧ op_ResultCode x = None ∧ op_CompletedAt x = None ∧ op_capacityRelease x = Some c;
  br_lease : lease_held cov s }.

(** A failed operation whose capacity is the terminal transition's to give back. *)
Lemma failed_slot sid c o x code now y :
  slot true (bs_sup s0) sid c y → heap y !! o = Some x → op_CompletedAt x = None → op_ResultCode x = None → op_capacityRelease x = Some c →
  let y' := (fail_op o code None None now y).2 in
  freed (bs_sup s0) y' ∧ ops y' = ops y ∧
  ∃ x', heap y' !! o = Some x' ∧ op_State x' = operationFailed ∧ is_Some (op_ResultCode x') ∧ op_done x' = chan_closed.
Proof.
  intros Hs Hx Hct Hrc Hcap. unfold fail_op. rewrite Hx, Hct, Hrc. cbn [snd]. set (x2 := with_terminal _ _ _ _ _ x).
  destruct (complete_slot _ _ _ _ _ x x2 y Hs Hx Hcap Hcap) as (Hf & Ho & Hh). split_and!; [done..|].
  eexists. split; [exact Hh|]. by split_and!.
Qed.

Lemma start_build_hr sid c cov o args dirs :
  hr (λ s, (b_prepared sid c cov o s ∧ b_admitted o s) ∧ residue s ∧ bs_dirs s = dirs) (start_build w o args)
    (λ o' s, o' = o ∧ build_running sid c cov o args dirs s) build_created.
Proof.
  intros s ([Hp Hid] & Hres & Hd). destruct Hp as [Hdk Hsl (x & Hx & Hst & Hidx & Hter & Hstd & Hre & Hrc & Hct & Hcap) Hl].
  pose proof (proj1 Hsl) as Hi.
  assert (Habandon : ∀ y z code, slot true (bs_sup s0) sid c y → heap y !! o = Some z → op_CompletedAt z = None → op_ResultCode z = None →
    op_capacityRelease z = Some c → ops y = ops (bs_sup s) → ∀ s1, bs_sup s1 = y → bs_docker s1 = bs_docker s → bs_dirs s1 = bs_dirs s → bs_mac s1 = bs_mac s →
    build_created (run_created o) (bs_with_sup (fail_op o code None None (bw_now w) (bs_sup (release_staged w s1))).2 (release_staged w s1))).
  { intros y z code Hsy Hz Hzc Hzr Hzp Hoy s1 E1 E2 E3 E4.
    assert (Hr1 : residue s1) by (destruct Hres; split; [done|by rewrite E3]).
    assert (Hl1 : lease_held cov s1) by (unfold lease_held; by rewrite E4).
    destruct (staged_released cov s1 Hr1 Hl1) as (F1 & F2 & F3). rewrite F2, E1.
    destruct (failed_slot sid c o z code (bw_now w) y Hsy Hz Hzc Hzr Hzp) as (G1 & G2 & x' & G3 & G4 & G5 & G6).
    exists o, x'. cbn [bs_sup bs_with_sup]. split_and!; [done| |by rewrite G2, Hoy|done..].
    split; [cbn; by rewrite F1, E2|]. cbn [bs_sup bs_with_sup]. by split. }
  unfold start_build. destruct (bw_marked w) as [reason|].
  - unfold mark_op. rewrite Hx, Hstd, Hre. cbn [negb]. rewrite (bool_decide_true (terminationNone = terminationNone)) by done.
    set (x1 := set_op _ _ _). assert (Hx1 : heap x1 !! o = Some (with_mark reason true x)) by apply lookup_insert_eq.
    unfold startOperationProcess. change (bs_sup (bs_with_sup x1 s)) with x1. rewrite Hx1. cbn [op_terminated with_mark].
    cbv beta iota zeta. assert (Hi1 : capacity_inv x1) by (eapply capacity_inv_set_op; [done|exact Hx|done|by left]).
    eapply (Habandon x1); [by eapply slot_view|exact Hx1|done..].
  - unfold startOperationProcess. rewrite Hx, Hter. cbv zeta. set (x1 := set_op _ _ _).
    assert (Hx1 : heap x1 !! o = Some (with_start (bw_now w) (bw_start w) x)) by apply lookup_insert_eq.
    assert (Hi1 : capacity_inv x1) by (eapply capacity_inv_set_op; [done|exact Hx|done|by left]).
    destruct (bw_start w) eqn:Es.
    + split; [done|]. split; [by simpl; rewrite Hdk|exact Hd|exact Hres| |exact Hid| |exact Hl].
      * eapply slot_view; [exact Hsl|by apply capacity_inv_emit|done].
      * eexists. split; [exact Hx1|]. by split_and!.
    + eapply (Habandon x1); [by eapply slot_view|exact Hx1|done..].
Qed.

End ledger.

(** ** The handler *)

Section handler.
Context {W : Type} `{!sessionMACDriver W} (h : host) (cfg : run_config) (w : build_world).
Context (session : Session) (snapshot : sessionFilesystemSnapshot) (req : buildRequest).
Implicit Types s : build_state W.

(** What the start of the process was decided on. *)
Record build_decided (s0 : build_state W) (args : list string) (contextPath rel : string) (dirs : staging_dirs) : Prop := {
  bd_checked : check_build_request req = Ok ();
  bd_resolved : ∃ keys, build_resolved h req session snapshot (contextPath, rel, keys) ∧
    args = build_argv (docker_dir cfg session) req keys (staged_paths (rc_RuntimeDir cfg) (bw_operationID w) rel);
  bd_staged : StageBuildContext (ss_Workspace session) contextPath rel (rc_RuntimeDir cfg) (bw_operationID w) (bw_pinned w)
    (bw_source w contextPath).1 (bw_source w contextPath).2 (bw_faults w) (bw_left w) (bs_dirs s0) =
    (inl (staged_paths (rc_RuntimeDir cfg) (bw_operationID w) rel), dirs) }.

Lemma handle_build_hr s0 :
  fresh_build w s0 →
  hr (λ s, s = s0) (handleBuild h cfg w session snapshot req)
    (λ o s, ∃ c cov args contextPath rel dirs, build_running w s0 (ss_ID session) c cov o args dirs s ∧ build_decided s0 args contextPath rel dirs)
    (λ resp s, build_refused w s0 resp s ∨ build_created w s0 resp s).
Proof.
  intros Hf. unfold handleBuild. eapply hr_bind_ with (Q := λ _ s, s = s0 ∧ check_build_request req = Ok ()).
  { intros s ->. destruct (check_build_request req) as [[]|e]; [done|]. left. by apply build_untouched. }
  intros u. apply (hr_pure (check_build_request req = Ok ())); [by intros s [_ ?]|]. intros Hchk. clear u.
  eapply hr_bind_ with (Q := λ r s, ∃ c r0, r = Some r0 ∧ bs_docker s = bs_docker s0 ∧ bs_mac s = bs_mac s0 ∧ bs_dirs s = bs_dirs s0 ∧
     slot true (bs_sup s0) (ss_ID session) c (bs_sup s) ∧ reservations (bs_sup s) !! r0 = Some (Some c) ∧ ops (bs_sup s) = ops (bs_sup s0)).
  { intros s [-> _]. destruct (reserve (ss_ID session) (ss_LauncherID session) operationKindBuild (bs_sup s0)) as [[r d] x] eqn:E.
    destruct (decide (d = admissionAccepted)) as [->|Hd].
    - apply reserve_slot in E as (c & r0 & -> & Hs & Hr & Ho & _); [|apply Hf]. by exists c, r0.
    - pose proof (reserve_refused _ _ _ _ _ _ _ E Hd) as ->. destruct d; [done|left; by apply build_untouched..]. }
  intros r. apply (hr_pure (∃ r0, r = Some r0)); [by intros s (c & r0 & -> & _); eauto|]. intros [r0 ->].
  eapply hr_bind_ with (Q := λ _ s, ∃ c cov, b_leased w s0 (ss_ID session) c r0 cov s).
  { intros s (c & ? & [= <-] & Hd & Hm & Hdi & Hs & Hr & Ho). rewrite Hm.
    pose proof (acquire_outcome (ss_ID session) (ss_Workspace session) (bw_leaseKey w) (bw_now w) (bs_mac s0)) as Ha.
    destruct (AcquireSessionUse _ _ _ _ _) as [[l|e] m].
    - destruct Ha as ([cov Ha] & Hon & _). exists c, cov. split; try done. split; [done|]. simpl. rewrite Hon. apply Hf.
    - destruct Ha as [Ha Hon]. left. split; [by eexists|]. cbn [bs_sup bs_with_sup]. destruct (release_slot _ _ _ _ _ _ Hs Hr) as [Hfr Hops].
      split; [|by rewrite Hops]. split; [done|]. split; [done|]. by left. }
  intros []. apply (hr_ex (λ c s, ∃ cov, b_leased w s0 (ss_ID session) c r0 cov s)). intros c.
  apply (hr_ex (λ cov s, b_leased w s0 (ss_ID session) c r0 cov s)). intros cov.
  eapply hr_bind_; [eapply hr_conseq; [by apply resolve_build_hr|done|by left]|]. intros [[contextPath rel] keys].
  apply (hr_pure _ _ _ _ _ (λ s H, proj2 H)). intros Hres.
  eapply hr_bind_; [eapply hr_conseq; [eapply hr_pre; [by apply build_preparing_hr|by intros s [? _]]|done|by left]|]. intros [].
  eapply hr_bind_; [eapply hr_conseq; [eapply hr_pre; [by apply new_build_hr|by intros s [? _]]|done|by left]|]. intros o.
  eapply hr_bind_; [eapply hr_conseq; [by apply stage_build_hr|done|by left]|]. intros staged.
  set (run := StageBuildContext (ss_Workspace session) contextPath rel (rc_RuntimeDir cfg) (bw_operationID w) (bw_pinned w)
    (bw_source w contextPath).1 (bw_source w contextPath).2 (bw_faults w) (bw_left w) (bs_dirs s0)).
  apply (hr_pure (∃ dirs, run = (inl staged, dirs))); [by intros s (_ & _ & E); eauto|]. intros [dirs Hrun].
  eapply hr_bind_ with (Q := λ _ s, (b_prepared w s0 (ss_ID session) c cov o s ∧ b_admitted w o s) ∧ residue w s0 s ∧ bs_dirs s = dirs).
  { intros s (Hs & Hr & E). rewrite Hrun in E. injection E as E.
    pose proof (admit_build_hr cfg w s0 Hf (ss_ID session) c r0 cov o s (conj Hs Hr)) as Ha.
    assert (Hdirs : ∀ a s', admit_build cfg w o (Some r0) s = (inl a, s') → bs_dirs s' = bs_dirs s).
    { unfold admit_build. intros a s'. destruct (admitReserved _ _ _) as [d x]. case_bool_decide; [by intros [= _ <-]|done]. }
    destruct (admit_build _ _ _ _ _) as [[a|resp] s']; [|by left]. destruct Ha as [Ha1 Ha2]. split; [done|]. split; [done|].
    by rewrite (Hdirs _ _ eq_refl). }
  intros []. eapply hr_conseq; [by apply start_build_hr| |by right]. intros o' s [-> Hr].
  eexists c, cov, _, contextPath, rel, dirs. split; [exact Hr|].
  assert (Hst : staged = staged_paths (rc_RuntimeDir cfg) (bw_operationID w) rel).
  { pose proof (staging_leaves (ss_Workspace session) contextPath rel (rc_RuntimeDir cfg) (bw_operationID w) (bw_pinned w)
      (bw_source w contextPath).1 (bw_source w contextPath).2 (bw_faults w) (bw_left w) (bs_dirs s0)) as Hl.
    fold run in Hl. rewrite Hrun in Hl. apply Hl. }
  subst staged. split; [done| |exact Hrun]. by exists keys.
Qed.

(** C17. A build that does not start takes nothing.  Whatever step refuses it, no docker
    process was started, every capacity counter is what it was, and the lease and the
    staging directories are what they were; only when a removal itself failed is the
    operation's own directory left — after a failed staging, or after the cleanup of a
    staged context, and then the Session's lease is still held.  A rejection registers
    nothing; a build refused after its admission is listed as failed, with a result code
    and closed.  A build that starts has one process, one more slot of its Session and of
    the builds, its lease, one staged copy, and is listed as running. *)
Theorem build_refusal_gives_back (s0 : build_state W) (Hf : fresh_build w s0) :
  let counts x x' n := globalRunning x' = globalRunning x + n ∧ globalBuildCount x' = globalBuildCount x + n ∧
    ∀ sid, session_count x' sid = session_count x sid + if decide (ss_ID session = sid) then n else 0 in
  match handleBuild h cfg w session snapshot req s0 with
  | (inr resp, s) =>
      bs_docker s = bs_docker s0 ∧ counts (bs_sup s0) (bs_sup s) 0 ∧ restored w s0 s ∧
      match resp with
      | run_rejected _ => ops (bs_sup s) = ops (bs_sup s0)
      | run_created o => ∃ x, ops (bs_sup s) !! bw_operationID w = Some o ∧ heap (bs_sup s) !! o = Some x ∧
          op_State x = operationFailed ∧ is_Some (op_ResultCode x) ∧ op_done x = chan_closed
      end
  | (inl o, s) =>
      (∃ args, bs_docker s = bs_docker s0 ++ [(o, args)]) ∧ counts (bs_sup s0) (bs_sup s) 1 ∧
      is_Some (sessionUseLeases (bs_mac s) !! bw_leaseKey w) ∧ residue w s0 s ∧ is_Some (bs_dirs s !! bw_operationID w) ∧
      ∃ x, ops (bs_sup s) !! bw_operationID w = Some o ∧ heap (bs_sup s) !! o = Some x ∧ op_State x = operationRunning ∧ op_started x = true
  end.
Proof.
  intros counts. pose proof (fb_capacity _ _ Hf) as H0. pose proof (handle_build_hr s0 Hf s0 eq_refl) as H.
  assert (Hfreed : ∀ x, freed (bs_sup s0) x → counts (bs_sup s0) x 0).
  { intros x Hx. destruct (freed_counts _ _ H0 Hx) as (H1 & H2 & H3). unfold counts. rewrite H1, H2, !Z.add_0_r.
    split_and!; [done..|]. intros sid. rewrite H3. case_decide; lia. }
  destruct (handleBuild h cfg w session snapshot req s0) as [[o|resp] s].
  - destruct H as (c & cov & args & ctx & rel & dirs & [H1 H2 H3 H4 H5 (x & Hx & Hst & Hsd & _) H6] & Hdec). split_and!.
    + by exists args.
    + destruct (slot_counts _ _ _ _ _ H0 H4) as (A1 & A2 & A3). by split_and!.
    + by rewrite (proj1 H6), lookup_insert_eq.
    + done.
    + pose proof (staging_leaves (ss_Workspace session) ctx rel (rc_RuntimeDir cfg) (bw_operationID w) (bw_pinned w)
        (bw_source w ctx).1 (bw_source w ctx).2 (bw_faults w) (bw_left w) (bs_dirs s0)) as Hl.
      rewrite (bd_staged _ _ _ _ _ Hdec) in Hl. destruct Hl as (_ & (u & y & _ & ->) & _). by rewrite H2, lookup_insert_eq.
    + by exists x.
  - destruct H as [((code & ->) & (H1 & H2 & H3) & H4)|(o & x & -> & (H1 & H2 & H3) & H4 & H5 & H6 & H7 & H8)].
    + by split_and!; [|apply Hfreed| |].
    + split_and!; [done|by apply Hfreed|done|by exists x].
Qed.

(** ** What docker is given *)

Lemma read_exposure_granted p e : read_exposure snapshot p = Ok e → is_Some (LookupAccess snapshot p).
Proof. unfold read_exposure, resolveSessionFilesystemExposure. by destruct (LookupAccess snapshot p). Qed.

Lemma validated_within ctx df l l' : validateBuildRequest h (ss_Workspace session) req l = (Ok (ctx, df), l') →
  pathWithin (ss_Workspace session) ctx = true ∧ pathWithin ctx df = true ∧
  evalSymlinksFn h (build_context_spelling (ss_Workspace session) req) = inl ctx ∧ osStatFn h ctx = inl is_dir ∧
  evalSymlinksFn h (Join [ctx; bq_Dockerfile req]) = inl df.
Proof.
  unfold validateBuildRequest. destruct (IsAbs (bq_Dockerfile req)); [done|]. destruct (pathWithin _ (build_context_spelling _ _)); [|done]. cbn [negb].
  unfold mbind, hp_bind at 1, resolve_link at 1. destruct (evalSymlinksFn h (build_context_spelling _ _)) as [ctx'|] eqn:E1; [|done].
  destruct (pathWithin (ss_Workspace session) ctx') eqn:Ew; [|done]. cbn [negb]. unfold hp_bind at 1, stat_path at 1.
  destruct (osStatFn h ctx') as [i|] eqn:Ei; [|done]. case_bool_decide as Hi; [done|]. cbv zeta. destruct (pathWithin ctx' (Join _)); [|done]. cbn [negb].
  unfold hp_bind at 1, resolve_link. destruct (evalSymlinksFn h (Join _)) as [df'|] eqn:E2; [|done].
  destruct (pathWithin ctx' df') eqn:Ed; [|done]. cbn [negb]. unfold hp_bind, stat_path. destruct (osStatFn h df'); [|done]. case_bool_decide; [done|].
  intros [= <- <- _]. split_and!; [done..| |done]. rewrite Ei. by destruct (decide (i = is_dir)) as [->|].
Qed.

Lemma build_args_named keys : validateBuildArgs (bq_BuildArgs req) = Ok keys →
  keys = sorted_names (bq_BuildArgs req) ∧ Forall (λ k, envNamePattern k = true) keys.
Proof.
  unfold validateBuildArgs. destruct (forallb _ _) eqn:E; [|done]. intros [= <-]. split; [done|].
  rewrite forallb_forall in E. apply Forall_forall. intros k Hk. unfold sorted_names in Hk. rewrite merge_sort_Permutation in Hk.
  apply list_elem_of_fmap in Hk as ([k' v] & -> & Hk). apply (E (k', v)). by apply list_elem_of_In.
Qed.

(** C16. Docker is never given the caller's directory.  The command of a started build is
    the fixed prefix (the Session's own docker directory), the Dockerfile and the context
    of the operation's staged copy, the tag, and the build arguments in the order of
    their names, each name a portable environment name.  The copy lists exactly the
    names of the tree at the context path: the directory that the requested spelling
    resolves to, in the workspace and granted by the issued snapshot, as is the file its
    Dockerfile spelling resolves to.  The copy has the Dockerfile, at the path of that
    file below the context, as a regular file reached without a link, and no path of it
    leaves it. *)
Theorem build_docker_staged_only (s0 : build_state W) (Hf : fresh_build w s0)
    (Hnames : ∀ p, Forall (λ e, entry_name e.1 ∧ names_ok e.2) (bw_source w p).1)
    (o : op_ref) (s : build_state W) (Hrun : handleBuild h cfg w session snapshot req s0 = (inl o, s)) :
  let staging := Join [Join [rc_RuntimeDir cfg; "builds"; bw_operationID w]; "context"] in
  ∃ contextPath dockerfilePath rel t m ino,
    bs_docker s = bs_docker s0 ++
      [(o, ["--config"; docker_dir cfg session; "build"; "--pull"; "--provenance=false"; "--sbom=false";
            "--file"; Join [staging; rel]; "--tag"; bq_Image req] ++
           flag_pairs ((λ key, ("--build-arg", key +:+ "=" +:+ default "" (bq_BuildArgs req !! key))) <$> sorted_names (bq_BuildArgs req)) ++
           [staging])] ∧
    Forall (λ k, envNamePattern k = true) (sorted_names (bq_BuildArgs req)) ∧
    evalSymlinksFn h (build_context_spelling (ss_Workspace session) req) = inl contextPath ∧
    osStatFn h contextPath = inl is_dir ∧
    pathWithin (ss_Workspace session) contextPath = true ∧ is_Some (LookupAccess snapshot contextPath) ∧
    evalSymlinksFn h (Join [contextPath; bq_Dockerfile req]) = inl dockerfilePath ∧
    pathWithin contextPath dockerfilePath = true ∧ is_Some (LookupAccess snapshot dockerfilePath) ∧
    dockerfile_rel contextPath dockerfilePath = Some rel ∧
    bs_dirs s !! bw_operationID w = Some (t, m) ∧ listing t ino [] (bw_source w contextPath).1 ∧
    (∃ path i, open_beneath t [] (split_sep rel) = Some path ∧ t !! path = Some (NFile i)) ∧
    ∀ fuel cur pending, climbs (length cur) pending → resolve fuel t cur pending ≠ Escaped.
Proof.
  intros staging. pose proof (handle_build_hr s0 Hf s0 eq_refl) as H. rewrite Hrun in H.
  destruct H as (c & cov & args & ctx & rel & dirs & Hr & [_ (keys & [(df & l & l' & Hv & Hrel & (e & He) & e' & He') Hk] & ->) Hst]).
  cbn [fst snd] in *. apply validated_within in Hv as (Hw & Hwd & Hc & Hdir & Hdf). apply build_args_named in Hk as [-> Hk].
  pose proof (staging_leaves (ss_Workspace session) ctx rel (rc_RuntimeDir cfg) (bw_operationID w) (bw_pinned w)
    (bw_source w ctx).1 (bw_source w ctx).2 (bw_faults w) (bw_left w) (bs_dirs s0)) as Hl.
  rewrite Hst in Hl. destruct Hl as (_ & (u & y & Hy & ->) & _).
  pose proof (run_inv productionBuildStagingCeilings rel (bw_source w ctx).1 (bw_source w ctx).2 (bw_faults w) (Hnames ctx) ltac:(done)) as Hinv.
  rewrite Hy in Hinv. pose proof (run_copied _ _ _ _ _ _ _ (Hnames ctx) Hy) as (_ & _ & Hlist).
  apply staging_run_found in Hy as (path & i & Ho & Hp).
  exists ctx, df, rel, (ws_tree y), (ws_inodes y), (ino_of y). split.
  { rewrite (br_docker _ _ _ _ _ _ _ _ _ Hr). unfold build_argv. rewrite flags_pairs, <-list_fmap_compose. reflexivity. }
  split_and!; [done|done|done|done|by eapply read_exposure_granted|done|done|by eapply read_exposure_granted|done|by rewrite (br_dirs _ _ _ _ _ _ _ _ _ Hr), lookup_insert_eq|done|by exists path, i|].
  intros fuel cur pending. apply resolve_stays, Hinv.
Qed.

(** ** The probes of a build *)

Lemma elem_last {A} (l : list A) x : x ∈ l ++ [x].
Proof. set_solver. Qed.

Lemma validate_admits : snapshot_wf snapshot → ss_Workspace session = Workspace snapshot → host_ok h →
  admits h (granted snapshot) (validateBuildRequest h (ss_Workspace session) req).
Proof.
  intros Hwf Hws Hh.
  assert (Hcw : canonical (ss_Workspace session) = true) by (apply snapshot_wf_inv in Hwf as (_ & Hc & _); by rewrite Hws).
  assert (Ha : ∀ p, canonical p = true → IsAbs p = true) by (intros p Hp; by apply andb_true_iff in Hp as [? _]).
  unfold validateBuildRequest. destruct (IsAbs (bq_Dockerfile req)); [apply admits_ret|].
  destruct (pathWithin _ (build_context_spelling _ _)) eqn:Ew; [|apply admits_ret]. cbn [negb].
  assert (Hg : granted snapshot (build_context_spelling (ss_Workspace session) req)).
  { apply (workspace_granted (ss_Workspace session)); [done|done| |done]. unfold build_context_spelling.
    destruct (IsAbs (bq_Context req)) eqn:Eabs; [by apply Clean_canonical|]. by apply Join_canonical, Ha. }
  intros l Hl. unfold mbind, hp_bind at 1, resolve_link at 1.
  assert (Hl1 := admitted_link _ _ l _ Hl Hg). destruct (evalSymlinksFn h (build_context_spelling _ _)) as [ctx|] eqn:Ec; [|exact Hl1].
  destruct (pathWithin (ss_Workspace session) ctx) eqn:Ewc; [|exact Hl1]. cbn [negb].
  assert (Hl2 := admitted_stat _ _ _ _ _ Hl1 (elem_last _ _) Ec). unfold hp_bind at 1, stat_path at 1.
  destruct (osStatFn h ctx); [|exact Hl2]. case_bool_decide; [exact Hl2|]. cbv zeta.
  destruct (pathWithin ctx (Join [ctx; bq_Dockerfile req])) eqn:Ewd; [|exact Hl2]. cbn [negb].
  assert (Hcc : canonical ctx = true) by (by eapply Hh).
  assert (Hcd : canonical (Join [ctx; bq_Dockerfile req]) = true) by (by apply Join_canonical, Ha).
  assert (Hg2 : granted snapshot (Join [ctx; bq_Dockerfile req])).
  { apply (workspace_granted (ss_Workspace session)); [done..|]. by apply (pathWithin_trans _ ctx). }
  unfold hp_bind at 1, resolve_link. assert (Hl3 := admitted_link _ _ _ _ Hl2 Hg2).
  destruct (evalSymlinksFn h (Join [ctx; bq_Dockerfile req])) as [df|] eqn:Ed; [|exact Hl3].
  destruct (pathWithin ctx df); [|exact Hl3]. cbn [negb]. assert (Hl4 := admitted_stat _ _ _ _ _ Hl3 (elem_last _ _) Ed).
  unfold hp_bind, stat_path. destruct (osStatFn h df); [|exact Hl4]. case_bool_decide; exact Hl4.
Qed.

(** No privileged probe before admission: in every build, whatever its outcome, the
    host resolves only spellings of the workspace that the issued snapshot grants, and
    stats only what such a resolution answered. *)
Theorem build_probes_granted (s0 : build_state W)
    (Hwf : snapshot_wf snapshot) (Hws : ss_Workspace session = Workspace snapshot) (Hh : host_ok h) (Hnone : bs_probes s0 = []) :
  let s := (handleBuild h cfg w session snapshot req s0).2 in
  (∀ q, EvalSymlinks q ∈ bs_probes s → canonical q = true ∧ is_Some (LookupAccess snapshot q)) ∧
  (∀ q, Stat q ∈ bs_probes s → ∃ q0, EvalSymlinks q0 ∈ bs_probes s ∧ evalSymlinksFn h q0 = inl q).
Proof.
  set (P := λ s : build_state W, admitted_by h (granted snapshot) (bs_probes s)).
  assert (Hrel : ∀ s, P s → P (release_staged w s)).
  { intros s Hs. unfold release_staged. destruct (Cleanup _ _ _) as [[] d]; exact Hs. }
  assert (H : hr P (handleBuild h cfg w session snapshot req) (λ _, P) (λ _, P)).
  { unfold handleBuild. eapply hr_bind_ with (Q := λ _, P); [by intros s Hs; destruct (check_build_request req)|intros u].
    eapply hr_bind_ with (Q := λ _, P); [intros s Hs; by destruct (reserve _ _ _ _) as [[r []] x]|intros r].
    eapply hr_bind_ with (Q := λ _, P); [intros s Hs; by destruct (AcquireSessionUse _ _ _ _ _) as [[] m]|intros []].
    assert (Hprep : ∀ A code (m : HP A), admits h (granted snapshot) m → hr P (build_preparing w r code m) (λ _, P) (λ _, P)).
    { intros A code m Hm s Hs. unfold build_preparing, P in *. specialize (Hm _ Hs). by destruct (m (bs_probes s)) as [[] l]. }
    eapply hr_bind_ with (Q := λ _, P).
    { unfold resolve_build. eapply hr_bind_; [by apply Hprep, validate_admits|intros [ctx df]].
      do 4 (eapply hr_bind_; [by apply Hprep, admits_ret|intros ?]). by apply hr_ret_. }
    intros [[ctx rel] keys]. eapply hr_bind_; [by apply Hprep, admits_ret|intros u'].
    eapply hr_bind_ with (Q := λ _, P); [by intros s Hs|intros o].
    eapply hr_bind_ with (Q := λ _, P).
    { intros s Hs. unfold stage_build. destruct (bw_source w ctx). by destruct (StageBuildContext _ _ _ _ _ _ _ _ _ _ _) as [[] d]. }
    intros staged. eapply hr_bind_ with (Q := λ _, P).
    { intros s Hs. unfold admit_build. destruct (admitReserved _ _ _) as [d x]. case_bool_decide; [done|]. by apply (Hrel (bs_with_sup x s)). }
    intros [] s Hs. unfold start_build. destruct (bw_marked w).
    all: cbn zeta; destruct (startOperationProcess _ _ _ _) as [[] x]; try done; by eapply (Hrel (bs_with_sup x _)). }
  assert (Hs0 : P s0) by (unfold P; rewrite Hnone; split; intros q Hq; by apply not_elem_of_nil in Hq).
  specialize (H s0 Hs0). destruct (handleBuild _ _ _ _ _ _ s0) as [[a|resp] s]; exact H.
Qed.

(** ** The completion *)

(** When the process of a started build ends, its capacity slot is free, its
    operation is closed and terminal with the result of the exit, and the staging
    directories and the leases are those of before the request, unless the cleanup of the
    staged copy failed, which keeps the lease. *)
Theorem build_completion (s0 : build_state W) (Hf : fresh_build w s0) (o : op_ref) (s : build_state W)
    (Hrun : handleBuild h cfg w session snapshot req s0 = (inl o, s)) (exit : option (option Z)) (duration : string) :
  let s' := waitBuildCompletion w o exit duration s in
  bs_docker s' = bs_docker s ∧
  globalRunning (bs_sup s') = globalRunning (bs_sup s0) ∧ globalBuildCount (bs_sup s') = globalBuildCount (bs_sup s0) ∧
  (∀ sid, session_count (bs_sup s') sid = session_count (bs_sup s0) sid) ∧
  (if bw_cleanup w is None then bs_dirs s' = bs_dirs s0 ∧ lease_back s0 s'
   else residue w s0 s' ∧ is_Some (sessionUseLeases (bs_mac s') !! bw_leaseKey w)) ∧
  ∃ x, ops (bs_sup s') !! bw_operationID w = Some o ∧ heap (bs_sup s') !! o = Some x ∧ op_done x = chan_closed ∧
    match exit with
    | None => op_State x = operationSucceeded
    | Some _ => op_State x = operationFailed ∧ op_ResultCode x = Some "docker_build_failed"
    end.
Proof.
  intros s'. pose proof (handle_build_hr s0 Hf s0 eq_refl) as H. rewrite Hrun in H.
  destruct H as (c & cov & args & ctx & rel & dirs & [_ Hdirs Hres Hslot Hid (x & Hx & Hst & _ & Hre & Hrc & Hct & Hcap) Hl] & Hdec).
  pose proof (staging_leaves (ss_Workspace session) ctx rel (rc_RuntimeDir cfg) (bw_operationID w) (bw_pinned w)
    (bw_source w ctx).1 (bw_source w ctx).2 (bw_faults w) (bw_left w) (bs_dirs s0)) as Hlv.
  rewrite (bd_staged _ _ _ _ _ Hdec) in Hlv. destruct Hlv as (_ & (u & y & _ & Hdy) & _).
  assert (Hc : bs_docker (release_staged w s) = bs_docker s ∧ bs_sup (release_staged w s) = bs_sup s ∧
    if bw_cleanup w is None then bs_dirs (release_staged w s) = bs_dirs s0 ∧ lease_back s0 (release_staged w s)
    else residue w s0 (release_staged w s) ∧ is_Some (sessionUseLeases (bs_mac (release_staged w s)) !! bw_leaseKey w)).
  { unfold release_staged, Cleanup. rewrite Hdirs, Hdy, lookup_insert_eq. unfold remove_all. destruct Hres as [Hn Hdel].
    destruct (bw_cleanup w) as [keep|].
    - split_and!; [done..| |]; simpl.
      + split; [done|]. simpl. by rewrite insert_insert_eq, delete_insert_id.
      + by rewrite (proj1 Hl), lookup_insert_eq.
    - split_and!; [done..| |]; [simpl; by rewrite delete_insert_id|]. by apply (lease_released w s0 Hf cov). }
  destruct Hc as (C1 & C2 & C3).
  assert (Hdone : ∀ x2, op_capacityRelease x2 = Some c → let z := finish o (releaseCapacity o (set_op o x2 (bs_sup s))) in
    freed (bs_sup s0) z ∧ ops z = ops (bs_sup s) ∧ heap z !! o = Some (with_done chan_closed (with_capacityRelease None x2))).
  { intros x2 Hx2. by eapply complete_slot. }
  assert (Hend : ∃ st ex d rc, s' = bs_with_sup (finish o (releaseCapacity o (set_op o (with_terminal st (bw_now w) d ex rc x) (bs_sup s)))) (release_staged w s) ∧
    match exit with None => st = operationSucceeded | Some _ => st = operationFailed ∧ rc = Some "docker_build_failed" end).
  { unfold s', waitBuildCompletion. rewrite C2, Hx, Hre. rewrite bool_decide_false by done. destruct exit as [ex|].
    - unfold fail_op. rewrite Hx, Hct, Hrc. cbv zeta. cbn [snd]. by do 4 eexists.
    - unfold succeed. rewrite Hx, Hct, Hrc. cbv zeta. cbn [snd]. by do 4 eexists. }
  destruct Hend as (st & ex & d & rc & -> & Hcode). destruct (Hdone (with_terminal st (bw_now w) d ex rc x) Hcap) as (Hfr & Ho & Hh).
  destruct (freed_counts _ _ (fb_capacity _ _ Hf) Hfr) as (F1 & F2 & F3).
  split_and!; [done|done|done|done|exact C3|]. eexists. cbn [bs_sup bs_with_sup]. rewrite Ho, Hh. split_and!; [done..|]. by destruct exit.
Qed.

End handler.

(** ** A concrete build *)

#[local] Existing Instances MacSpec.Example.driver.

Module BuildExample.

(** A host without links: the Dockerfile is a file, every other path a directory. *)
Definition host1 : host :=
  mkHost (λ p, if bool_decide (p = "/srv/app/web/Dockerfile") then inl is_regular else inl is_dir)
    (λ p, if IsAbs p then inl (Clean p) else inr not_exist) (Some "/") None 0.
Definition request : buildRequest := mkBuildRequest "web" "Dockerfile" "web:1" {[ "B" := "2"; "A" := "1" ]}.
Definition start : build_state (list string) :=
  mkBuildState (rs_mac Example.start) newOperationSupervisor [] ∅ [].
(** The staged source is that of the example of Staging; the process may fail to start. *)
Definition world (started : bool) : build_world :=
  mkBuildWorld "op_1" "lease_1" 10 true true (λ _, (ex_source, true)) [] None None None started.
Definition build (started : bool) : (op_ref + run_response) * build_state (list string) :=
  handleBuild host1 Example.cfg (world started) Example.session Example.snapshot request start.

Lemma start_fresh_build started : fresh_build (world started) start.
Proof. split; simpl; [apply capacity_inv_init|by rewrite lookup_empty|set_solver]. Qed.

Lemma host1_ok : host_ok host1.
Proof. intros p q. simpl. destruct (IsAbs p) eqn:E; [|done]. intros [= <-]. by apply Clean_canonical. Qed.

Lemma build_starts : ∃ s, build true = (inl 0%nat, s).
Proof.
  destruct (build true) as [r s] eqn:E. exists s. f_equal.
  change r with ((r, s).1). rewrite <-E. vm_compute. reflexivity.
Qed.

End BuildExample.

Lemma build_refusal_gives_back_witness :
  (BuildExample.build false).1 = inr (run_created 0%nat) ∧ bs_docker (BuildExample.build false).2 = [] ∧
  globalBuildCount (bs_sup (BuildExample.build false).2) = 0.
Proof.
  pose proof (build_refusal_gives_back BuildExample.host1 Example.cfg (BuildExample.world false) Example.session Example.snapshot
    BuildExample.request BuildExample.start (BuildExample.start_fresh_build false)) as H.
  change (handleBuild _ _ _ _ _ _ BuildExample.start) with (BuildExample.build false) in H.
  destruct (BuildExample.build false) as [res s] eqn:E.
  assert (Hres : res = inr (run_created 0%nat)) by (change res with ((res, s).1); rewrite <- E; vm_compute; reflexivity).
  subst res. destruct H as (Hd & (_ & Hg & _) & _). split; [reflexivity|]. split; [exact Hd|]. cbn [snd]. rewrite Hg. reflexivity.
Defined.

Lemma build_docker_staged_only_witness :
  ∃ s contextPath rel t m, BuildExample.build true = (inl 0%nat, s) ∧
    pathWithin "/srv/app" contextPath = true ∧ bs_dirs s !! "op_1" = Some (t, m) ∧
    (∃ path i, open_beneath t [] (split_sep rel) = Some path ∧ t !! path = Some (NFile i)).
Proof.
  destruct BuildExample.build_starts as [s Hs]. pose proof Hs as Hs'. unfold BuildExample.build in Hs'.
  destruct (build_docker_staged_only BuildExample.host1 Example.cfg (BuildExample.world true) Example.session Example.snapshot BuildExample.request
    BuildExample.start (BuildExample.start_fresh_build true) (λ _, ex_source_names) 0%nat s Hs')
    as (ctx & df & rel & t & m & ino & _ & _ & _ & _ & Hw & _ & _ & _ & _ & _ & Hd & _ & Hp & _).
  exists s, ctx, rel, t, m. split; [exact Hs|]. split; [exact Hw|]. split; [exact Hd|exact Hp].
Defined.

Lemma build_probes_granted_witness :
  length (bs_probes (BuildExample.build true).2) = 4%nat ∧
  ∀ q, EvalSymlinks q ∈ bs_probes (BuildExample.build true).2 → is_Some (LookupAccess Example.snapshot q).
Proof.
  pose proof (build_probes_granted BuildExample.host1 Example.cfg (BuildExample.world true) Example.session Example.snapshot
    BuildExample.request BuildExample.start Example.snapshot_ok eq_refl BuildExample.host1_ok eq_refl) as [H _].
  split; [vm_compute; reflexivity|]. intros q Hq. apply (H q Hq).
Defined.

Lemma build_completion_witness :
  ∃ s, BuildExample.build true = (inl 0%nat, s) ∧
    bs_dirs (waitBuildCompletion (BuildExample.world true) 0%nat (Some (Some 1)) "1s" s) = ∅.
Proof.
  destruct BuildExample.build_starts as [s Hs]. exists s. split; [exact Hs|]. unfold BuildExample.build in Hs.
  pose proof (build_completion BuildExample.host1 Example.cfg (BuildExample.world true) Example.session Example.snapshot BuildExample.request
    BuildExample.start (BuildExample.start_fresh_build true) 0%nat s Hs (Some (Some 1)) "1s") as (_ & _ & _ & _ & Hc & _).
  apply Hc.
Defined.
