(* ===== verification/HandlerSteps.v ===== *)
(** * HandlerSteps: the run and build handlers are runs of the data plane

    What [handleRun], [handleBuild] and the completions do to the supervisor, the
    coordinator and the tables is a sequence of the steps [LifecycleTheory.env] that the
    lifecycle operations face, so what is proved of those steps holds beside the
    handlers as they are written. *)
From S2P Require Import Prelude Filepath AllowedRoots WorkspacePolicy Database SnapshotStore Credential Launcher MacLifecycle MacTheory MacSpec Session SessionTheory SessionSpec Operation OperationTheory OperationSpec OwnershipTheory Proc Lifecycle LifecycleTheory DockerMount RunRequest RunRequestTheory Run RunTheory RunSpec Staging StagingSpec Build BuildSpec.
Local Open Scope Z_scope.

(** ** What a step of the data plane leaves alone *)

(** The closed Launchers are those of before, and no operation is new. *)
Definition sup_frame (x x' : sup) : Prop := quiesced x' = quiesced x ∧ dom (heap x') ⊆ dom (heap x).

Lemma sup_frame_refl x : sup_frame x x.
Proof. done. Qed.

Lemma frame_set_op o op op' x : heap x !! o = Some op → sup_frame x (set_op o op' x).
Proof. intros Ho. split; [done|]. simpl. rewrite dom_insert_L. apply elem_of_dom_2 in Ho. set_solver. Qed.

Lemma frame_call c x : sup_frame x (call_release c x).
Proof. unfold call_release. by repeat case_match. Qed.

Lemma frame_Release r x : sup_frame x (Release r x).
Proof. unfold Release. repeat case_match; try done. apply (frame_call _ x). Qed.

Lemma frame_releaseCapacity o x : sup_frame x (releaseCapacity o x).
Proof.
  unfold releaseCapacity. destruct (heap x !! o) as [op|] eqn:Ho; [|done]. destruct (op_capacityRelease op) as [c|]; [|done].
  destruct (frame_call c x) as [Hq Hd]. split; [done|]. cbn. rewrite dom_insert_L. apply elem_of_dom_2 in Ho. set_solver.
Qed.

Lemma frame_transfer o r x : sup_frame x (transfer o r x).
Proof.
  unfold transfer. destruct r as [r|]; [|done]. destruct (reservations x !! r) as [[c|]|]; [|done..].
  destruct (heap x !! o) as [op|] eqn:Ho; [|done]. apply (frame_set_op _ _ _ _ Ho).
Qed.

Lemma frame_admit o r x : sup_frame x (admitReserved o r x).2.
Proof. unfold admitReserved. repeat case_match; try done. apply (frame_transfer _ _ (set_ops _ x)). Qed.

Lemma frame_reserve sid lid kind x : sup_frame x (reserve sid lid kind x).2.
Proof. unfold reserve, reserveCapacityLocked. by repeat case_match; simplify_eq. Qed.

Lemma frame_start o ok now x : sup_frame x (startOperationProcess o ok now x).2.
Proof.
  unfold startOperationProcess. destruct (heap x !! o) as [op|] eqn:Ho; [|done]. destruct (op_terminated op); [done|].
  destruct ok; apply (frame_set_op _ _ _ _ Ho).
Qed.

Lemma frame_mark reason o x : sup_frame x (mark_op reason o x).
Proof.
  unfold mark_op. destruct (heap x !! o) as [op|] eqn:Ho; [|done]. repeat case_match; apply (frame_set_op _ _ _ _ Ho).
Qed.

Lemma frame_complete o op op' x : heap x !! o = Some op → sup_frame x (finish o (releaseCapacity o (set_op o op' x))).
Proof.
  intros Ho. destruct (frame_releaseCapacity o (set_op o op' x)) as [Hq _]. split.
  - rewrite <-(proj1 (frame_set_op o op op' x Ho)), <-Hq. unfold finish. by case_match.
  - rewrite (proj1 (complete_spec o op' x)), dom_insert_L. apply elem_of_dom_2 in Ho. set_solver.
Qed.

Lemma frame_succeed o d now x : sup_frame x (succeed o d now x).2.
Proof.
  unfold succeed. destruct (heap x !! o) as [op|] eqn:Ho; [|done]. destruct (op_CompletedAt op); [done|]. by eapply frame_complete.
Qed.

Lemma frame_fail o rc ex d now x : sup_frame x (fail_op o rc ex d now x).2.
Proof.
  unfold fail_op. destruct (heap x !! o) as [op|] eqn:Ho; [|done]. destruct (op_CompletedAt op); [done|]. by eapply frame_complete.
Qed.

Lemma frame_prune o x : sup_frame x (prune_remove x o).
Proof. unfold prune_remove. by repeat case_match. Qed.

Create HintDb frame.
#[export] Hint Resolve sup_frame_refl frame_Release frame_releaseCapacity frame_admit frame_reserve frame_start frame_mark frame_succeed frame_fail frame_prune : frame.

(** A victim of the pruning is completed: its removal is a step, or nothing. *)
Lemma prune_remove_step x o op : heap x !! o = Some op → is_Some (op_CompletedAt op) → op_State op ≠ operationRunning →
  prune_remove x o = x ∨ step x (prune_remove x o).
Proof.
  intros Ho [t Ht] Hr. unfold prune_remove at 1. rewrite Ho. case_bool_decide as Hid; [|by left]. right. constructor.
  apply list_elem_of_fmap. exists (o, t). split; [done|]. unfold completed_ops. apply list_elem_of_omap. exists o. split.
  - unfold op_list. apply list_elem_of_fmap. exists (op_ID op, o). split; [done|]. by apply elem_of_map_to_list.
  - by rewrite Ho, bool_decide_true, Ht.
Qed.

Lemma victims_completed now ttl n x : Forall (λ o, ∃ op, heap x !! o = Some op ∧ is_Some (op_CompletedAt op) ∧ op_State op ≠ operationRunning)
  (prune_victims now ttl n (completed_ops x)).
Proof.
  apply Forall_forall. intros o Ho.
  assert (Hc : o ∈ (completed_ops x).*1).
  { unfold prune_victims in Ho. apply elem_of_app in Ho as [Ho|Ho].
    - apply list_elem_of_fmap in Ho as (c & -> & [_ Hc]%list_elem_of_filter). by apply list_elem_of_fmap_2.
    - case_decide; [|by apply elem_of_nil in Ho]. apply list_elem_of_fmap in Ho as (c & -> & Hc).
      apply list_elem_of_fmap_2. apply (subseteq_take _ _) in Hc. rewrite merge_sort_Permutation in Hc. by apply list_elem_of_filter in Hc as [_ Hc]. }
  apply list_elem_of_fmap in Hc as ([o' t] & -> & (o2 & _ & Hc)%list_elem_of_omap).
  destruct (heap x !! o2) as [op|] eqn:Eo; [|done]. case_bool_decide; [|done]. apply fmap_Some in Hc as (t' & Ht & [= -> ->]).
  exists op. by rewrite Ht.
Qed.

(** ** Runs of the data plane *)

Section sup_moves.
Context {W : Type} `{!sessionMACDriver W} (removed requests : list string).

(** The supervisor's part, beside any coordinator. *)
Definition sup_moves (x x' : sup) : Prop := ∀ m : mac W, rtc env (mkApp m x removed requests) (mkApp m x' removed requests).

#[global] Instance sup_moves_preorder : PreOrder sup_moves.
Proof. split; [intros x m; apply rtc_refl|unfold sup_moves; intros x1 x2 x3 H1 H2 m; exact (transitivity (H1 m) (H2 m))]. Qed.

Lemma sup_moves_step x x' : step x x' → sup_frame x x' → sup_moves x x'.
Proof.
  intros Hs [Hq Hd] m. apply rtc_once, (env_operation (mkApp m x removed requests)). split; [done|]. split; [done|].
  intros o op Ho Hn. apply elem_of_dom_2 in Ho. apply not_elem_of_dom in Hn. set_solver.
Qed.

(** An operation of a Launcher whose request is being served takes the reservation. *)
Lemma sup_moves_new o kind id sid lid now cid r x :
  heap x !! o = None → lid ∈ requests → sup_moves x (transfer o r (set_op o (newOperation kind id sid lid now cid) x)).
Proof.
  intros Ho Hl. trans (set_op o (newOperation kind id sid lid now cid) x).
  - intros m. apply rtc_once, (env_operation (mkApp m x removed requests)). split; [by constructor|]. split; [done|].
    intros o' op. simpl. destruct (decide (o = o')) as [<-|Hne]; [|by rewrite lookup_insert_ne by done; intros ->].
    rewrite lookup_insert_eq. by intros [= <-] _.
  - apply sup_moves_step; [|apply frame_transfer]. eapply step_transfer; [apply lookup_insert_eq|done..].
Qed.

(** What the final admission needs: the operation is open and the reservation empty. *)
Definition admissible (o : op_ref) (r : option reservation_ref) (x : sup) : Prop :=
  (∃ op, heap x !! o = Some op ∧ op_CompletedAt op = None) ∧ ∀ r', r = Some r' → mjoin (reservations x !! r') = None.

Lemma new_admissible o kind id sid lid now cid r x :
  admissible o r (transfer o r (set_op o (newOperation kind id sid lid now cid) x)).
Proof.
  unfold admissible, transfer. destruct r as [r|]; simpl.
  - rewrite lookup_insert_eq. destruct (reservations x !! r) as [[c|]|] eqn:Er; simpl; rewrite ?lookup_insert_eq.
    + split; [by eexists|]. intros r' [= <-]. by rewrite lookup_insert_eq.
    + split; [by eexists|]. intros r' [= <-]. by rewrite Er.
    + split; [by eexists|]. intros r' [= <-]. by rewrite Er.
  - rewrite lookup_insert_eq. split; [by eexists|done].
Qed.

Lemma sup_moves_admit o r x : admissible o r x → sup_moves x (admitReserved o r x).2.
Proof. intros [(op & Ho & Hc) Hr]. apply sup_moves_step; [|apply frame_admit]. eapply step_admit; eauto. Qed.

Lemma sup_moves_prune now ttl n x : sup_moves x (pruneCompleted now ttl n x).
Proof.
  unfold pruneCompleted. pose proof (victims_completed now ttl n x) as Hv. revert Hv.
  generalize (prune_victims now ttl n (completed_ops x)). intros vs. revert x.
  induction vs as [|o vs IH]; intros x Hv; [reflexivity|]. apply Forall_cons in Hv as [(op & Ho & Hc & Hr) Hv]. simpl.
  trans (prune_remove x o); [|apply IH; by rewrite (proj1 (prune_remove_heap x o))].
  destruct (prune_remove_step x o op Ho Hc Hr) as [->|Hs]; [reflexivity|]. apply sup_moves_step; [done|apply frame_prune].
Qed.

End sup_moves.

Section moves.
Context {W S : Type} `{!sessionMACDriver W} (mac_of : S → mac W) (sup_of : S → sup) (removed requests : list string).
#[local] Abbreviation HS := (HR S).

Definition as_app (s : S) : app W := mkApp (mac_of s) (sup_of s) removed requests.

(** From one state of a handler to another by steps of the data plane. *)
Definition moves (s s' : S) : Prop := rtc env (as_app s) (as_app s').

#[global] Instance moves_preorder : PreOrder moves.
Proof. split; [intros s; apply rtc_refl|unfold moves; intros s1 s2 s3; apply transitivity]. Qed.

Lemma moves_still s s' : mac_of s' = mac_of s → sup_of s' = sup_of s → moves s s'.
Proof. intros Hm Hx. unfold moves, as_app. rewrite Hm, Hx. apply rtc_refl. Qed.

Lemma moves_sup s s' : mac_of s' = mac_of s → sup_moves (W := W) removed requests (sup_of s) (sup_of s') → moves s s'.
Proof. intros Hm Hs. unfold moves, as_app. rewrite Hm. apply Hs. Qed.

Lemma moves_mac s s' : sup_of s' = sup_of s → same_owners (m_db (mac_of s)) (m_db (mac_of s')) → moves s s'.
Proof. intros Hx Hm. apply rtc_once. unfold as_app. rewrite Hx. by apply (env_tables (as_app s)). Qed.

(** Every outcome of the handler is reached by such steps; [Q] holds of the supervisor
    where it goes on. *)
Definition serves {A} (P : sup → Prop) (m : HS A) (Q : A → sup → Prop) : Prop :=
  ∀ s, P (sup_of s) → moves s (m s).2 ∧ match (m s).1 with inl a => Q a (sup_of (m s).2) | inr _ => True end.

Lemma serves_ret {A} P (a : A) : serves P (mret a) (λ _, P).
Proof. intros s Hs. split; [reflexivity|done]. Qed.

Lemma serves_bind {A B} P Q R (m : HS A) (k : A → HS B) :
  serves P m Q → (∀ a, serves (Q a) (k a) R) → serves P (m ≫= k) R.
Proof.
  intros Hm Hk s Hs. destruct (Hm s Hs) as [H1 H2]. unfold mbind, hr_bind. destruct (m s) as [[a|r] s1]; [|done].
  destruct (Hk a s1 H2) as [H3 H4]. split; [by etrans|done].
Qed.

Lemma serves_on_result {A} P (r : result A) : serves P (on_result r) (λ _, P).
Proof. intros s Hs. by destruct r. Qed.

End moves.

(** One step of the supervisor. *)
Ltac sup_step := apply sup_moves_step; [by constructor|auto with frame].

Lemma lease_owners {W} `{!sessionMACDriver W} key (m : mac W) : same_owners (m_db m) (m_db (releaseLease key m)).
Proof.
  destruct (decide (key ∈ releasedOnce m)) as [Hk|Hk].
  - unfold releaseLease. by rewrite decide_True.
  - destruct (quiet_lease key m Hk) as [E _]. unfold db_frame in E. by rewrite E.
Qed.

Lemma acquire_owners {W} `{!sessionMACDriver W} sid ws key now (m : mac W) :
  same_owners (m_db m) (m_db (AcquireSessionUse sid ws key now m).2).
Proof.
  unfold AcquireSessionUse. destruct (sessionBindings m !! sid) as [covs|]; [|done]. unfold sessionExistsExact.
  set (q := λ d : db, _). destruct (on_db_reads (query q) m (reads_query q)) as [f Ef].
  destruct (on_db (query q) m) as [[[]|e] m1]; simpl in Ef; subst m1; try done.
  by destruct (incr_counts_with covs (with_db (m_db m) f m)) as [cm ->].
Qed.

(** ** The run handler *)

Section run.
Context {W : Type} `{!sessionMACDriver W} (h : host) (cfg : run_config) (w : run_world) (removed requests : list string).
Context (Hmarked : w_marked w ≠ Some terminationNone).
#[local] Abbreviation run_moves := (moves (W := W) rs_mac rs_sup removed requests).
#[local] Abbreviation run_serves := (serves (W := W) rs_mac rs_sup removed requests).
Implicit Types s : run_state W.

Lemma run_sup x s : sup_moves (W := W) removed requests (rs_sup s) x → run_moves s (with_sup x s).
Proof. intros Hx. by apply moves_sup. Qed.

Lemma run_lease key s : run_moves s (with_mac (releaseLease key (rs_mac s)) s).
Proof. apply moves_mac; [done|apply lease_owners]. Qed.

Lemma release_preparation_moves r s : run_moves s (releasePreparation w r s).
Proof. unfold releasePreparation. etrans; [apply run_lease|]. apply run_sup. sup_step. Qed.

Lemma rollback_moves op s : run_moves s (rollbackRunPreparation w op s).
Proof.
  rewrite rollback_eq. trans (with_sup (releaseCapacity (ro_ref op) (rs_sup s)) s); [apply run_sup; sup_step|].
  match goal with |- run_moves ?x _ => set (y := x) end.
  apply (run_sequence_inv (run_moves y)); [|reflexivity]. unfold tail_stages, rollback_stages. cbn [tail].
  repeat constructor; intros f z [= <-] Hz; (etrans; [exact Hz|]).
  - destruct (ro_prepared op); [|reflexivity]. unfold mac_cleanup_stage. destruct (w_mac_cleanup w); [by apply moves_still|reflexivity].
  - by apply moves_still.
  - unfold removeWorkloadMACState. destruct (w_remove_state w); [by apply moves_still|reflexivity].
  - apply run_lease.
  - reflexivity.
Qed.

Lemma preparing_serves {A} P r code (m : HP A) : run_serves P (preparing w r code m) (λ _, P).
Proof.
  intros s Hs. unfold preparing. destruct (m (rs_probes s)) as [[a|e] l]; simpl.
  - split; [by apply moves_still|done].
  - split; [|done]. etrans; [|apply release_preparation_moves]. by apply moves_still.
Qed.

Lemma pin_sources_serves P op i mounts :
  run_serves P (pin_sources w op i mounts) (λ r x, ro_ref r.1 = ro_ref op ∧ P x).
Proof.
  revert op i. induction mounts as [|mt mounts IH]; intros op i; [by intros s Hs; split; [reflexivity|]|]. cbn [pin_sources].
  destruct (w_pin w i (rm_SourcePath mt)) as [pinned|]; [|by intros s Hs; split; [apply rollback_moves|]].
  apply (serves_bind _ _ _ _ _ (λ _, P)); [by intros s Hs; split; [by apply moves_still|]|intros _].
  eapply serves_bind; [apply IH|]. intros r s Hs. split; [reflexivity|exact Hs].
Qed.

Lemma prepare_workload_serves P op plan pinned :
  run_serves P (prepare_workload w op plan pinned) (λ r x, ro_ref r.1 = ro_ref op ∧ P x).
Proof.
  intros s Hs. unfold prepare_workload. destruct (w_prepare w plan pinned) as [prepared|recorded|]; simpl.
  - split; [by apply moves_still|done].
  - split; [|done]. destruct recorded; [etrans; [|apply rollback_moves]; by apply moves_still|apply rollback_moves].
  - split; [|done]. trans (with_workload ({[ro_id op]} ∪ rs_wmac s) ({[ro_id op]} ∪ rs_owned s) s); [by apply moves_still|].
    apply run_sup. sup_step.
Qed.

Lemma admit_operation_serves op r : run_serves (admissible (ro_ref op) r) (admit_operation cfg w op r) (λ _ _, True).
Proof.
  intros s Hs. unfold admit_operation. pose proof (sup_moves_admit (W := W) removed requests _ _ _ Hs) as Ha.
  destruct (admitReserved (ro_ref op) r (rs_sup s)) as [decision x]. simpl in Ha. case_bool_decide; simpl.
  - split; [|done]. apply run_sup. etrans; [exact Ha|apply sup_moves_prune].
  - split; [|done]. etrans; [|apply rollback_moves]. by apply run_sup.
Qed.

Lemma start_operation_serves op args : run_serves (λ _, True) (start_operation w op args) (λ _ _, True).
Proof.
  intros s _. unfold start_operation. set (s1 := match w_marked w with Some _ => _ | None => s end).
  assert (H1 : run_moves s s1).
  { subst s1. destruct (w_marked w) as [reason|]; [|reflexivity]. apply run_sup. apply sup_moves_step; [|auto with frame].
    apply step_mark. congruence. }
  clearbody s1. pose proof (frame_start (ro_ref op) (w_start w) (w_now w) (rs_sup s1)) as Hf.
  pose proof (step_start (rs_sup s1) (ro_ref op) (w_start w) (w_now w)) as Hst.
  destruct (startOperationProcess (ro_ref op) (w_start w) (w_now w) (rs_sup s1)) as [res x]. simpl in Hf, Hst.
  assert (H2 : run_moves s (with_sup x s1)) by (etrans; [exact H1|]; apply run_sup; by apply sup_moves_step).
  assert (H3 : ∀ code, run_moves s (with_sup (fail_op (ro_ref op) code None None (w_now w) (rs_sup (rollbackRunPreparation w op (with_sup x s1)))).2
    (rollbackRunPreparation w op (with_sup x s1)))).
  { intros code. etrans; [exact H2|]. etrans; [apply rollback_moves|]. apply run_sup. sup_step. }
  destruct res; (split; [|done]); [apply H3..|]. etrans; [exact H2|]. by apply moves_still.
Qed.

Lemma identity_serves P r session : run_serves P (resolve_identity w r session) (λ _, P).
Proof.
  intros s Hs. unfold resolve_identity. assert (Hr : reads (resolveSessionExecutionIdentity session)).
  { unfold resolveSessionExecutionIdentity. apply reads_bind; [auto with dh|]. intros [[l p]|]; auto with dh. }
  destruct (on_db_reads _ (rs_mac s) Hr) as [f Ef].
  destruct (on_db (resolveSessionExecutionIdentity session) (rs_mac s)) as [[identity|e] m]; simpl in Ef; subst m; simpl.
  - split; [|done]. by apply moves_mac.
  - split; [|done]. etrans; [|apply release_preparation_moves]. by apply moves_mac.
Qed.

Lemma run_handler_moves session snapshot req s : ss_LauncherID session ∈ requests →
  run_moves s (handleRun h cfg w session snapshot req s).2.
Proof.
  intros Hlid. cut (run_serves (λ _, True) (handleRun h cfg w session snapshot req) (λ _ _, True)); [intros H; by apply H|].
  unfold handleRun. eapply serves_bind; [apply serves_on_result|intros shm].
  apply (serves_bind _ _ _ _ _ (λ _ _, True)).
  { intros s1 _. pose proof (frame_reserve (ss_ID session) (ss_LauncherID session) operationKindRun (rs_sup s1)) as Hf.
    pose proof (step_reserve (rs_sup s1) (ss_ID session) (ss_LauncherID session) operationKindRun) as Hst.
    destruct (reserve _ _ _ (rs_sup s1)) as [[r []] x]; (split; [apply run_sup; by apply sup_moves_step|done]). }
  intros r. apply (serves_bind _ _ _ _ _ (λ _ _, True)).
  { intros s1 _. pose proof (acquire_owners (ss_ID session) (ss_Workspace session) (w_leaseKey w) (w_now w) (rs_mac s1)) as Ho.
    destruct (AcquireSessionUse _ _ _ _ _) as [[l|e] m]; simpl in Ho |- *; (split; [|done]); [by apply moves_mac|].
    trans (with_mac m s1); [by apply moves_mac|]. apply (run_sup _ (with_mac m s1)). sup_step. }
  intros _. apply (serves_bind _ _ _ _ _ (λ _ _, True)).
  { unfold resolve_plan. repeat (eapply serves_bind; [apply preparing_serves|intros ?]). apply (serves_ret _ _ _ _ (λ _, True)). }
  intros [resolved plan]. eapply serves_bind; [apply identity_serves|intros identity].
  eapply serves_bind; [apply preparing_serves|intros ?].
  apply (serves_bind _ _ _ _ _ (λ op, admissible (ro_ref op) r)).
  { intros s1 _. unfold new_run_operation. simpl. split; [|apply new_admissible].
    apply run_sup, sup_moves_new; [|done]. apply not_elem_of_dom, is_fresh. }
  intros op. eapply serves_bind; [apply pin_sources_serves|]. intros [op1 pinned]. simpl.
  eapply serves_bind; [apply prepare_workload_serves|]. intros [op2 prepared]. simpl.
  apply (serves_bind _ _ _ _ _ (λ _, admissible (ro_ref op2) r)).
  { intros s1 (E2 & E1 & Ha). destruct (run_argv _ _ _ _ _ _ _ _ _ _); (split; [|simpl; by rewrite ?E2, ?E1]); [reflexivity|apply rollback_moves]. }
  intros args. eapply serves_bind; [apply admit_operation_serves|intros ?]. apply start_operation_serves.
Qed.

Lemma cleanup_moves prov op s : run_moves s (cleanupAfterRunProcess w prov op s).
Proof.
  unfold cleanupAfterRunProcess. assert (E : run_stages (after_process_stages w prov op) s = Some (run_sequence (after_process_stages w prov op) s)) by reflexivity.
  rewrite E. destruct (run_sequence (after_process_stages w prov op) s) as [o s'] eqn:Er.
  change s' with (o, s').2. rewrite <-Er. apply (run_sequence_inv (run_moves s)); [|reflexivity].
  repeat constructor; intros f z [= <-] Hz; (etrans; [exact Hz|]).
  - reflexivity.
  - unfold mac_cleanup_stage. destruct (w_mac_cleanup w); [by apply moves_still|reflexivity].
  - by apply moves_still.
  - unfold removeWorkloadMACState. destruct (w_remove_state w); [by apply moves_still|reflexivity].
  - apply run_lease.
  - reflexivity.
Qed.

Lemma run_completion_moves prov op exit duration s : run_moves s (waitRunCompletion w prov op exit duration s).
Proof.
  unfold waitRunCompletion. etrans; [apply (cleanup_moves prov op)|]. set (s1 := cleanupAfterRunProcess w prov op s).
  destruct exit as [ex|]; apply run_sup; sup_step.
Qed.

End run.

(** ** The build handler *)

Section build.
Context {W : Type} `{!sessionMACDriver W} (h : host) (cfg : run_config) (w : build_world) (removed requests : list string).
Context (Hmarked : bw_marked w ≠ Some terminationNone).
#[local] Abbreviation build_moves := (moves (W := W) bs_mac bs_sup removed requests).
#[local] Abbreviation build_serves := (serves (W := W) bs_mac bs_sup removed requests).
Implicit Types s : build_state W.

Lemma build_sup x s : sup_moves (W := W) removed requests (bs_sup s) x → build_moves s (bs_with_sup x s).
Proof. intros Hx. by apply moves_sup. Qed.

Lemma build_lease s : build_moves s (release_build_lease w s).
Proof. apply moves_mac; [done|apply lease_owners]. Qed.

Lemma build_preparing_serves {A} P r code (m : HP A) : build_serves P (build_preparing w r code m) (λ _, P).
Proof.
  intros s Hs. unfold build_preparing. destruct (m (bs_probes s)) as [[a|e] l]; simpl.
  - split; [by apply moves_still|done].
  - split; [|done]. trans (bs_with_probes l s); [by apply moves_still|]. unfold release_build_preparation.
    etrans; [apply build_lease|]. apply build_sup. sup_step.
Qed.

Lemma release_staged_moves s : build_moves s (release_staged w s).
Proof.
  unfold release_staged. destruct (Cleanup (bw_operationID w) (bw_cleanup w) (bs_dirs s)) as [ok dirs].
  trans (bs_with_dirs dirs s); [by apply moves_still|]. destruct ok; [apply build_lease|reflexivity].
Qed.

Lemma stage_build_serves P o session ctx rel : build_serves P (stage_build cfg w o session ctx rel) (λ _, P).
Proof.
  intros s Hs. unfold stage_build. destruct (bw_source w ctx) as [entries listed].
  destruct (StageBuildContext _ _ _ _ _ _ _ _ _ _ _) as [[staged|e] dirs]; (split; [|done]); [by apply moves_still|].
  trans (bs_with_dirs dirs s); [by apply moves_still|]. etrans; [apply build_lease|]. apply build_sup. sup_step.
Qed.

Lemma admit_build_serves o r : build_serves (admissible o r) (admit_build cfg w o r) (λ _ _, True).
Proof.
  intros s Hs. unfold admit_build. pose proof (sup_moves_admit (W := W) removed requests _ _ _ Hs) as Ha.
  destruct (admitReserved o r (bs_sup s)) as [decision x]. simpl in Ha. case_bool_decide; (split; [|done]).
  - apply build_sup. etrans; [exact Ha|apply sup_moves_prune].
  - trans (bs_with_sup x s); [by apply build_sup|]. etrans; [apply release_staged_moves|]. apply build_sup. sup_step.
Qed.

Lemma start_build_serves o args : build_serves (λ _, True) (start_build w o args) (λ _ _, True).
Proof.
  intros s _. unfold start_build. set (s1 := match bw_marked w with Some _ => _ | None => s end).
  assert (H1 : build_moves s s1).
  { subst s1. destruct (bw_marked w) as [reason|]; [|reflexivity]. apply build_sup. apply sup_moves_step; [|auto with frame].
    apply step_mark. congruence. }
  clearbody s1. pose proof (frame_start o (bw_start w) (bw_now w) (bs_sup s1)) as Hf.
  pose proof (step_start (bs_sup s1) o (bw_start w) (bw_now w)) as Hst.
  destruct (startOperationProcess o (bw_start w) (bw_now w) (bs_sup s1)) as [res x]. simpl in Hf, Hst.
  assert (H2 : build_moves s (bs_with_sup x s1)) by (etrans; [exact H1|]; apply build_sup; by apply sup_moves_step).
  assert (H3 : ∀ code, build_moves s (bs_with_sup (fail_op o code None None (bw_now w) (bs_sup (release_staged w (bs_with_sup x s1)))).2
    (release_staged w (bs_with_sup x s1)))).
  { intros code. etrans; [exact H2|]. etrans; [apply release_staged_moves|]. apply build_sup. sup_step. }
  destruct res; (split; [|done]); [apply H3..|]. etrans; [exact H2|]. by apply moves_still.
Qed.

Lemma build_handler_moves session snapshot req s : ss_LauncherID session ∈ requests →
  build_moves s (handleBuild h cfg w session snapshot req s).2.
Proof.
  intros Hlid. cut (build_serves (λ _, True) (handleBuild h cfg w session snapshot req) (λ _ _, True)); [intros H; by apply H|].
  unfold handleBuild. eapply serves_bind; [apply serves_on_result|intros []].
  apply (serves_bind _ _ _ _ _ (λ _ _, True)).
  { intros s1 _. pose proof (frame_reserve (ss_ID session) (ss_LauncherID session) operationKindBuild (bs_sup s1)) as Hf.
    pose proof (step_reserve (bs_sup s1) (ss_ID session) (ss_LauncherID session) operationKindBuild) as Hst.
    destruct (reserve _ _ _ (bs_sup s1)) as [[r []] x]; (split; [apply build_sup; by apply sup_moves_step|done]). }
  intros r. apply (serves_bind _ _ _ _ _ (λ _ _, True)).
  { intros s1 _. pose proof (acquire_owners (ss_ID session) (ss_Workspace session) (bw_leaseKey w) (bw_now w) (bs_mac s1)) as Ho.
    destruct (AcquireSessionUse _ _ _ _ _) as [[l|e] m]; simpl in Ho |- *; (split; [|done]); [by apply moves_mac|].
    trans (bs_with_mac m s1); [by apply moves_mac|]. apply (build_sup _ (bs_with_mac m s1)). sup_step. }
  intros _. apply (serves_bind _ _ _ _ _ (λ _ _, True)).
  { unfold resolve_build. eapply serves_bind; [apply build_preparing_serves|intros [ctx df]].
    repeat (eapply serves_bind; [apply build_preparing_serves|intros ?]). apply (serves_ret _ _ _ _ (λ _, True)). }
  intros [[ctx rel] keys]. eapply serves_bind; [apply build_preparing_serves|intros ?].
  apply (serves_bind _ _ _ _ _ (λ o, admissible o r)).
  { intros s1 _. unfold new_build_operation. simpl. split; [|apply new_admissible].
    apply build_sup, sup_moves_new; [|done]. apply not_elem_of_dom, is_fresh. }
  intros o. eapply serves_bind; [apply stage_build_serves|intros staged].
  eapply serves_bind; [apply admit_build_serves|intros ?]. apply start_build_serves.
Qed.

Lemma build_completion_moves o exit duration s : build_moves s (waitBuildCompletion w o exit duration s).
Proof.
  unfold waitBuildCompletion. etrans; [apply release_staged_moves|]. set (s1 := release_staged w s).
  destruct exit as [ex|]; apply build_sup; sup_step.
Qed.

End build.

(** ** The refinement *)

Section refinement.
Context {W : Type} `{!sessionMACDriver W} (h : host) (cfg : run_config).

(** The daemon's state as a lifecycle operation sees it beside a handler. *)
Definition run_app (removed requests : list string) (s : run_state W) : app W := mkApp (rs_mac s) (rs_sup s) removed requests.
Definition build_app (removed requests : list string) (s : build_state W) : app W := mkApp (bs_mac s) (bs_sup s) removed requests.

(** C8. The data plane that the lifecycle operations are proved against is the data plane
    of the code.  From every state, whatever the host, the database and docker answer and
    wherever the handler returns, a run and a build of a Session whose request is being
    served, and the completions of their processes, take the daemon along a path of the
    environment's steps: critical sections of the supervisor that open no quiesced
    Launcher and register operations of that Launcher only, and changes of the
    coordinator that leave Principals and Launchers alone. *)
Theorem handlers_refine_data_plane (session : Session) (snapshot : sessionFilesystemSnapshot) (removed requests : list string)
    (Hserved : ss_LauncherID session ∈ requests) :
  (∀ w req s, w_marked w ≠ Some terminationNone →
     rtc env (run_app removed requests s) (run_app removed requests (handleRun h cfg w session snapshot req s).2)) ∧
  (∀ w prov op exit duration s,
     rtc env (run_app removed requests s) (run_app removed requests (waitRunCompletion w prov op exit duration s))) ∧
  (∀ w req s, bw_marked w ≠ Some terminationNone →
     rtc env (build_app removed requests s) (build_app removed requests (handleBuild h cfg w session snapshot req s).2)) ∧
  (∀ w o exit duration s,
     rtc env (build_app removed requests s) (build_app removed requests (waitBuildCompletion w o exit duration s))).
Proof.
  split_and!.
  - intros w req s Hm. by apply run_handler_moves.
  - intros w prov op exit duration s. apply run_completion_moves.
  - intros w req s Hm. by apply build_handler_moves.
  - intros w o exit duration s. apply build_completion_moves.
Qed.

End refinement.

#[local] Existing Instances MacSpec.Example.driver.

(** The build of BuildExample and its completion, as the environment of a lifecycle
    operation. *)
Lemma handlers_refine_data_plane_witness :
  let s := (BuildExample.build true).2 in
  rtc env (build_app [] ["dhl_1"] BuildExample.start) (build_app [] ["dhl_1"] s) ∧
  rtc env (build_app [] ["dhl_1"] s) (build_app [] ["dhl_1"] (waitBuildCompletion (BuildExample.world true) 0%nat None "1s" s)).
Proof.
  assert (Hs : ss_LauncherID RunSpec.Example.session ∈ ["dhl_1"]) by (apply (bool_decide_unpack _); vm_compute; exact I).
  destruct (handlers_refine_data_plane BuildExample.host1 RunSpec.Example.cfg RunSpec.Example.session RunSpec.Example.snapshot [] ["dhl_1"] Hs)
    as (_ & _ & Hb & Hc).
  cbv zeta. split; [|apply Hc]. apply (Hb (BuildExample.world true) BuildExample.request BuildExample.start). discriminate.
Defined.
