(* ===== verification/OperationHandlers.v ===== *)
(** * OperationHandlers: the Session-token requests on operations and registries

    The status and the logs of an operation (src/build.go), the synchronous pull
    (src/pull.go) and registry login (src/registry.go), in the handler monad of Http.
    What a docker process does is the record [docker_run]; the log buffers are an
    argument. *)
From S2P Require Import Prelude Filepath GoStrings Json Sha256 BoundedBuffer Database Credential MacLifecycle MacSpec Session SessionTheory SessionSpec Operation OperationTheory Proc Lifecycle LifecycleTheory LifecycleSpec Http Routes HttpSpec RunRequest Run RunTheory.
Local Open Scope Z_scope.

(** ** src/docker_error_classify.go *)

Inductive dockerErrorKind := dockerErrorUnknown | dockerErrorImageNotFound | dockerErrorAuthDenied | dockerErrorNetwork.
#[export] Instance dockerErrorKind_eq_dec : EqDecision dockerErrorKind.
Proof. solve_decision. Defined.

Fixpoint Contains (s substr : string) : bool :=
  String.prefix substr s || match s with "" => false | String _ s => Contains s substr end.

Section docker.
(** [unicode_lower] is unicode.ToLower beyond ASCII. *)
Context (unicode_lower : Z → Z).

(** [strings.ToLower]: rune by rune, an invalid byte becoming RuneError. *)
Definition rune_lower (r : Z) : Z :=
  if (65 <=? r) && (r <=? 90) then r + 32 else if r <? 128 then r else unicode_lower r.
Definition ToLower (s : string) : string := String.concat "" ((λ p : Z * string, EncodeRune (rune_lower p.1)) <$> range s).

Definition classifyDockerError (output : string) : dockerErrorKind :=
  let has := Contains (ToLower output) in
  if has "dial tcp" || has "connection refused" || has "no such host" || has "i/o timeout" || has "tls handshake timeout" ||
     has "connection reset" || has "proxyconnect" || has "net/http: request canceled" then dockerErrorNetwork
  else if has "unauthorized" || has "authentication required" || has "401 unauthorized" || has "failed with status: 401" ||
     has "pull access denied" || has "denied: requested access" || has "authorization failed" || has "no basic auth credentials"
  then dockerErrorAuthDenied
  else if has "manifest unknown" || has "no such manifest" || has "repository does not exist" || has "name does not exist" ||
     (has "manifest for " && has "not found") then dockerErrorImageNotFound
  else dockerErrorUnknown.

Definition classifyPullFailure (output : string) : Z * string * string :=
  match classifyDockerError output with
  | dockerErrorImageNotFound => (404, "image_not_found", "image not found")
  | dockerErrorAuthDenied => (401, "pull_access_denied", "pull access denied or authentication required")
  | dockerErrorNetwork => (502, "registry_unavailable", "registry unreachable or backend failure")
  | dockerErrorUnknown => (500, "docker_pull_failed", "docker pull failed")
  end.

Definition classifyRegistryLoginFailure (output : string) : Z * string * string :=
  match classifyDockerError output with
  | dockerErrorAuthDenied => (401, "registry_auth_denied", "authentication failed for registry")
  | dockerErrorNetwork => (502, "registry_unavailable", "registry unreachable or backend failure")
  | _ => (400, "registry_login_failed", "registry login failed")
  end.

(** ** Requests and replies *)

Definition decode_pull : json → option string := decode_struct [("image", into_string)] "".

Record registryLoginRequest := mkLogin { lr_Registry : string; lr_Username : string; lr_Password : string }.
Definition decode_login : json → option registryLoginRequest :=
  decode_struct
    [("registry", λ v q, s ← into_string v (lr_Registry q); Some (mkLogin s (lr_Username q) (lr_Password q)));
     ("username", λ v q, s ← into_string v (lr_Username q); Some (mkLogin (lr_Registry q) s (lr_Password q)));
     ("password", λ v q, s ← into_string v (lr_Password q); Some (mkLogin (lr_Registry q) (lr_Username q) s))]
    (mkLogin "" "" "").

Definition member_opt (k : string) (v : option json) : list (string * json) := match v with Some v => [(k, v)] | None => [] end.
Definition member_bool (k : string) (b : bool) : list (string * json) := if b then [(k, JBool true)] else [].

Definition pull_json (ok : bool) (code message output : string) (truncated : bool) (duration : string) : json :=
  JObject (("ok", JBool ok) :: member "code" code ++ member "message" message ++ member "output" output ++
           member_bool "truncated" truncated ++ member "duration" duration).

Definition state_text (st : operationState) : string :=
  match st with operationRunning => "running" | operationSucceeded => "succeeded" | operationFailed => "failed" end.

(** What one docker process does: whether the Session's docker directory could be made,
    whether the process started, what it wrote, how it exited ([None] is success). *)
Record docker_run := mkDockerRun {
  dr_dir : bool; dr_started : bool; dr_output : list bytes; dr_exit : option (option Z); dr_duration : string }.

Definition captured (max : Z) (out : list bytes) : bytes * Z * bool :=
  Range 0 rangeUnbounded (foldl (λ b p, (Write p b).2) (newBoundedBuffer max) out).
Definition bytes_string (b : bytes) : string := String.string_of_list_ascii b.

(** ** The handlers *)

Section handlers.
Context {W : Type} `{!sessionMACDriver W} (format_time : Z → string) (cfg : run_config) (logMax : Z).
#[local] Existing Instance h_ret.
#[local] Existing Instance h_bind.
Implicit Types a : app W.

Definition sup_action {A} (f : sup → A * sup) : proc (app W) A :=
  atom (λ a, let '(r, x) := f (a_sup a) in (r, mkApp (a_mac a) x (a_removed a) (a_requests a))).

(** [defer]: after the reply. *)
Definition deferred {A} (m : H (W := W) A) (d : proc (app W) unit) : H (W := W) A :=
  proc_bind_ (λ r, proc_bind_ (λ _, PRet r) d) m.

Definition session_fields (s : Session) : list (string * string) :=
  [("principal_name", ss_PrincipalName s); ("launcher_id", ss_LauncherID s); ("launcher_name", ss_LauncherName s)].

(** The Session's id is that of the request context. *)
Definition writeDockerActionRejected {A} (status : Z) (kind code message : string) (session : Session) : H (W := W) A :=
  _ ← writeAudit (audit [("event", kind +:+ ".rejected"); ("result", code); ("principal_name", ss_PrincipalName session);
                         ("session_id", ss_ID session)]);
  respond (writeError status code message).

Definition operation_not_found : reply := writeError 404 "operation_not_found" "operation not found".

(** The operation of the Session, by reference. *)
Definition find_operation (s : Session) (id : string) : H (W := W) op_ref :=
  o ← h_proc (get_sup (operationForSession (ss_ID s) id));
  match o with Some o => mret o | None => respond operation_not_found end.

Definition status_json (op : operation) : json :=
  JObject ([("ok", JBool true); ("operation_id", JString (op_ID op)); ("status", JString (state_text (op_State op)));
            ("created_at", JString (format_time (op_CreatedAt op)))] ++
           member_opt "started_at" ((λ t, JString (format_time t)) <$> op_StartedAt op) ++
           member_opt "completed_at" ((λ t, JString (format_time t)) <$> op_CompletedAt op) ++
           member_opt "duration" (JString <$> op_Duration op) ++
           member_opt "exit_code" ((λ n, JNumber (Some n)) <$> op_ExitCode op) ++
           member_opt "result_code" (JString <$> op_ResultCode op)).

Definition handleOperationStatus (now : Z) (r : request) : H (W := W) unit :=
  session ← requireSessionCapability now r;
  o ← find_operation session (rq_value r "id");
  _ ← h_proc (on_sup (pruneCompleted now (rc_RetentionTTL cfg) (rc_MaxCompleted cfg)));
  op ← h_proc (get_sup (λ x, heap x !! o));
  match op with
  | Some op => respond (writeJSONRaw 200 (status_json op))
  | None => respond operation_not_found
  end.

(** [logs] is the buffer of each operation. *)
Definition handleOperationLogs (logs : op_ref → boundedBuffer) (now : Z) (r : request) : H (W := W) unit :=
  session ← requireSessionCapability now r;
  let opID := rq_value r "id" in
  o ← find_operation session opID;
  match parseOffset (rq_query r "offset") with
  | Err _ => respond (writeError 400 "invalid_offset" "invalid offset parameter")
  | Ok offset =>
      let '(data, next, truncated) := Range offset logResponseChunkBytes (logs o) in
      respond (writeJSONRaw 200
        (JObject [("ok", JBool true); ("operation_id", JString opID); ("offset", JNumber (Some offset));
                  ("next_offset", JNumber (Some next)); ("truncated", JBool truncated); ("logs", JString (bytes_string data))]))
  end.

(** The capacity of a synchronous execution. *)
Definition reserve_execution (s : Session) : H (W := W) (option reservation_ref) :=
  h_proc (sup_action (λ x, let '(r, _, x) := reserveCapacity (ss_ID s) false x in (r, x))).

Definition run_pull (d : docker_run) (session : Session) (image : string) : H (W := W) unit :=
  if negb (dr_dir d) then writeDockerActionRejected 500 "pull" "internal_error" "internal server error" session
  else
    _ ← writeAudit (audit ([("event", "pull.start"); ("session_id", ss_ID session); ("image", image)] ++ session_fields session));
    _ ← emit (Docker ["--config"; docker_dir cfg session; "pull"; image] "");
    let '(data, _, truncated) := captured logMax (if dr_started d then dr_output d else []) in
    let output := bytes_string data in
    let finish (result : string) (exit : option Z) (rep : reply) : H (W := W) unit :=
      _ ← writeAudit (audit ([("event", "pull.finish"); ("session_id", ss_ID session); ("image", image); ("result", result);
            ("exit_code", match exit with Some c => print_int c | None => "" end)] ++ session_fields session));
      respond rep in
    if negb (dr_started d) then
      finish "pull_error" None (writeJSONRaw 500 (pull_json false "docker_pull_failed" "docker pull failed" output truncated (dr_duration d)))
    else match dr_exit d with
    | Some exitCode =>
        let '(status, code, message) := classifyPullFailure output in
        finish "pull_error" exitCode (writeJSONRaw status (pull_json false code message output truncated (dr_duration d)))
    | None => finish "success" None (writeJSONRaw 200 (pull_json true "" "image pulled successfully" output truncated (dr_duration d)))
    end.

Definition handlePull (d : docker_run) (now : Z) (r : request) : H (W := W) unit :=
  session ← requireSessionCapability now r;
  let rejected {A} status code message : H (W := W) A := writeDockerActionRejected status "pull" code message session in
  match decodeJSONRequest decode_pull r with
  | None => rejected 400 "invalid_json" "invalid JSON request"
  | Some image =>
      if bool_decide (image = "") then rejected 400 "invalid_image" "image is required"
      else if String.prefix "-" image then rejected 400 "invalid_image" "image must not start with '-'"
      else
        reservation ← reserve_execution session;
        match reservation with
        | None => rejected 429 "capacity_unavailable" "too many concurrent requests"
        | Some _ => deferred (run_pull d session image) (on_sup (Release reservation))
        end
  end.

Definition run_login (d : docker_run) (session : Session) (req : registryLoginRequest) : H (W := W) unit :=
  if negb (dr_dir d) then respond internal_error
  else
    let record (fields : list (string * string)) :=
      writeAudit (audit (fields ++ [("session_id", ss_ID session); ("registry", lr_Registry req)] ++ session_fields session)) in
    _ ← record [("event", "registry.login.start")];
    _ ← emit (Docker ["--config"; docker_dir cfg session; "login"; "--username"; lr_Username req; "--password-stdin"; lr_Registry req]
                (lr_Password req));
    if dr_started d && bool_decide (dr_exit d = None) then
      _ ← record [("event", "registry.login.finish"); ("result", "success")];
      respond (writeJSONRaw 200 (JObject (("ok", JBool true) :: member "message" ("login succeeded for " +:+ lr_Registry req))))
    else
      let '(data, _, _) := captured 4096 (if dr_started d then dr_output d else []) in
      let '(status, code, message) := classifyRegistryLoginFailure (bytes_string data) in
      _ ← record [("event", "registry.login.finish"); ("result", "login_failed")];
      respond (writeJSONRaw status (JObject (("ok", JBool false) :: member "code" code ++ member "message" message ++ member "duration" (dr_duration d)))).

Definition handleRegistryLogin (d : docker_run) (now : Z) (r : request) : H (W := W) unit :=
  session ← requireSessionCapability now r;
  match decodeJSONRequest decode_login r with
  | None => respond invalid_json
  | Some req =>
      if bool_decide (lr_Registry req = "" ∨ lr_Username req = "" ∨ lr_Password req = "")
      then respond (writeError 400 "invalid_registry_login" "invalid registry login request")
      else if String.prefix "-" (lr_Registry req)
      then respond (writeError 400 "invalid_registry_login" "registry must not start with '-'")
      else
        reservation ← reserve_execution session;
        match reservation with
        | None => respond (writeError 429 "capacity_unavailable" "too many concurrent requests")
        | Some _ => deferred (run_login d session req) (on_sup (Release reservation))
        end
  end.

End handlers.
End docker.

(** ** Theory *)

Lemma reserve_execution_slot sid x r b x' : capacity_inv x → reserveCapacity sid false x = (Some r, b, x') →
  freed x (Release (Some r) x') ∧ ops (Release (Some r) x') = ops x.
Proof.
  intros Hi Hr. pose proof (capacity_inv_step x _ Hi (step_reserveCapacity x sid false)) as Hi'. rewrite Hr in Hi'. simpl in Hi'.
  unfold reserveCapacity in Hr. destruct (reserveCapacityLocked sid false x) as [r0 y] eqn:E. injection Hr as -> _ ->.
  unfold reserveCapacityLocked in E. destruct (_ <=? _); [done|]. destruct (_ <=? _); [done|]. simpl in E. injection E as <- <-.
  match goal with |- freed x (Release (Some ?r) ?y) ∧ _ => set (z := y) in * end.
  assert (Hs : slot false x sid (fresh (dom (closures x))) z).
  { split; [exact Hi'|]. split; [apply not_elem_of_dom, is_fresh|done]. }
  destruct (release_slot _ _ _ _ _ _ Hs (lookup_insert_eq _ _ _)) as [H1 H2]. split; [exact H1|]. by rewrite H2.
Qed.

Section theory.
Context (unicode_lower : Z → Z) {W : Type} `{!sessionMACDriver W} (format_time : Z → string) (cfg : run_config) (logMax : Z).
#[local] Existing Instance h_ret.
#[local] Existing Instance h_bind.
Implicit Types a : app W.

Lemma h_run_deferred {A} (m : H (W := W) A) (d : proc (app W) unit) a :
  h_run (deferred m d) a = (let '(l, o, a') := h_run m a in (l, o, (run d a').2)).
Proof. unfold h_run, deferred. rewrite run_proc_bind. destruct (run m a) as [[l o] a']. simpl. by rewrite run_proc_bind. Qed.

(** The bearer of a live Session. *)
Definition session_of (now : Z) (d : db) (r : request) (s : Session) : Prop :=
  ∃ token f d' f', parseBearerToken r = Some token ∧ findSessionByToken token now d f = (Ok s, d', f').

(** The state with other statements consumed. *)
Definition consumed (f : list bool) (m : mac W) a : app W := mkApp (with_db (m_db m) f m) (a_sup a) (a_removed a) (a_requests a).

(** Authentication changes nothing, starts nothing, and sees the tables only. *)
Lemma require_session now r (m : mac W) :
  ∃ l o f, (∀ a, a_mac a = m → h_run (requireSessionCapability now r) a = (l, o, consumed f m a)) ∧
    match o with
    | inr s => l = [] ∧ session_of now (m_db m) r s
    | inl rep => (rep = writeUnauthorized unauthorizedSessionCapability ∨ rep = internal_error) ∧ ∀ args stdin, Docker args stdin ∉ l
    end.
Proof.
  unfold requireSessionCapability. destruct (parseBearerToken r) as [token|] eqn:Hp.
  2: { eexists [Audit _], (inl (writeUnauthorized unauthorizedSessionCapability)), (m_faults m). split; [|split; [by left|]; intros args stdin Hin; apply list_elem_of_singleton in Hin; done].
       intros a <-. unfold consumed. rewrite with_db_same. by destruct a. }
  pose proof (reads_session_token token now (m_db m) (m_faults m)) as Hr.
  destruct (findSessionByToken token now (m_db m) (m_faults m)) as [[res d'] f'] eqn:E. simpl in Hr. subst d'.
  assert (Hrun : ∀ a, a_mac a = m → h_run (h_db (findSessionByToken token now)) a = ([], inr res, consumed f' m a)).
  { intros a Ha. unfold h_db. rewrite h_run_proc, run_call_db. unfold a_db. rewrite Ha, E. reflexivity. }
  destruct res as [s|e].
  - exists [], (inr s), f'. split; [|split; [done|by exists token, (m_faults m), (m_db m), f']]. intros a Ha. by rewrite h_run_bind, Hrun.
  - destruct (errors_is e ErrSessionNotFound) eqn:Ee; (eexists [Audit _], (inl _), f'; split; [intros a Ha; rewrite h_run_bind, Hrun by done; cbv beta iota; rewrite Ee; reflexivity|]);
      (split; [auto|]); intros args stdin [=]%list_elem_of_singleton.
Qed.

(** A pull replies, and runs at most the one command. *)
Lemma run_pull_spec d session image a :
  ∃ l rep, h_run (run_pull unicode_lower cfg logMax d session image) a = (l, inl rep, a) ∧
    ∀ args stdin, Docker args stdin ∈ l → args = ["--config"; docker_dir cfg session; "pull"; image] ∧ stdin = "".
Proof.
  unfold run_pull. destruct (dr_dir d); cbn [negb].
  2: { eexists _, _. split; [reflexivity|]. by intros args stdin [=]%list_elem_of_singleton. }
  rewrite h_run_bind, h_run_audit, h_run_bind, h_run_emit.
  destruct (captured logMax _) as [[data next] truncated]. cbv zeta.
  set (start := Audit _).
  assert (Hfin : ∀ rec rep, ∃ l rep', (let '(l', o, a'') :=
      (let '(l', o, a'') := h_run (_ ← writeAudit rec; respond (A := unit) rep : H (W := W) unit) a in
       ([Docker ["--config"; docker_dir cfg session; "pull"; image] ""] ++ l', o, a'')) in ([start] ++ l', o, a'')) = (l, inl rep', a) ∧
      ∀ args stdin, Docker args stdin ∈ l → args = ["--config"; docker_dir cfg session; "pull"; image] ∧ stdin = "").
  { intros rec rep. rewrite h_run_bind, h_run_audit, h_run_respond. eexists _, _. split; [reflexivity|].
    intros args stdin Hin. cbn in Hin. rewrite !elem_of_cons in Hin. destruct Hin as [[=]|[[= -> ->]|[[=]|[]%elem_of_nil]]]. done. }
  destruct (dr_started d); cbn [negb]; [|apply Hfin]. destruct (dr_exit d) as [ex|]; [|apply Hfin].
  destruct (classifyPullFailure unicode_lower (bytes_string data)) as [[status code] message]. apply Hfin.
Qed.

Definition login_args (session : Session) (registry username : string) : list string :=
  ["--config"; docker_dir cfg session; "login"; "--username"; username; "--password-stdin"; registry].

(** What a login does, but for the password. *)
Lemma run_login_spec d session registry username :
  ∃ pre post rep, (∀ e, e ∈ pre ++ post → ∃ rec, e = Audit rec) ∧
    ∀ password a, h_run (run_login unicode_lower cfg d session (mkLogin registry username password)) a =
      (pre ++ (if dr_dir d then [Docker (login_args session registry username) password] else []) ++ post, inl rep, a).
Proof.
  unfold run_login. destruct (dr_dir d); cbn [negb].
  2: { exists [], [], internal_error. split; [by intros e ?%elem_of_nil|done]. }
  cbn [lr_Registry lr_Username lr_Password]. eexists [Audit _].
  destruct (dr_started d && bool_decide (dr_exit d = None)).
  - eexists [Audit _], _. split; [|intros password a; rewrite h_run_bind, h_run_audit, h_run_bind, h_run_emit, h_run_bind, h_run_audit, h_run_respond; reflexivity].
    intros e [->|[->|[]%elem_of_nil]%elem_of_cons]%elem_of_cons; eauto.
  - destruct (captured 4096 _) as [[data next] tr]. destruct (classifyRegistryLoginFailure unicode_lower (bytes_string data)) as [[status code] message].
    eexists [Audit _], _. split; [|intros password a; rewrite h_run_bind, h_run_audit, h_run_bind, h_run_emit, h_run_bind, h_run_audit, h_run_respond; reflexivity].
    intros e [->|[->|[]%elem_of_nil]%elem_of_cons]%elem_of_cons; eauto.
Qed.

(** ** The properties *)

(** The counters of the supervisor. *)
Definition same_counts (x x' : sup) : Prop :=
  globalRunning x' = globalRunning x ∧ globalBuildCount x' = globalBuildCount x ∧ (∀ sid, session_count x' sid = session_count x sid) ∧
  ops x' = ops x.

Lemma same_counts_refl x : same_counts x x.
Proof. done. Qed.

(** A reserved execution gives its slot back, whatever it does with it. *)
Lemma execution_back (session : Session) (m : H (W := W) unit) (rep : reply) (P : list event → Prop) a :
  capacity_inv (a_sup a) → P [] →
  (∀ a1, ∃ l rep', h_run m a1 = (l, inl rep', a1) ∧ P l) →
  ∀ refused : H (W := W) unit, (∃ l rep', h_run refused = (λ a1, (l, inl rep', a1)) ∧ P l) →
  ∃ l rep' a', h_run (reservation ← reserve_execution session;
    match reservation with None => refused | Some _ => deferred m (on_sup (Release reservation)) end) a = (l, inl rep', a') ∧
    P l ∧ a_db a' = a_db a ∧ same_counts (a_sup a) (a_sup a').
Proof.
  intros Hi HP0 Hm refused (lr & rr & Er & HPr). rewrite h_run_bind. unfold reserve_execution. rewrite h_run_proc. unfold sup_action. rewrite run_atom.
  destruct (reserveCapacity (ss_ID session) false (a_sup a)) as [[r b] x'] eqn:E. cbn [fst snd]. destruct r as [r|].
  - rewrite h_run_deferred. destruct (Hm (mkApp (a_mac a) x' (a_removed a) (a_requests a))) as (l & rep' & -> & HP).
    apply reserve_execution_slot in E as [Hf Ho]; [|done]. unfold on_sup. rewrite run_atom. cbn [fst snd a_sup a_mac a_db].
    eexists l, rep', _. split; [reflexivity|]. split; [done|]. split; [done|]. cbn [a_sup].
    destruct (freed_counts _ _ Hi Hf) as (H1 & H2 & H3). by split_and!.
  - rewrite Er. eexists lr, rr, _. split; [reflexivity|]. split; [done|]. split; [done|]. cbn [a_sup].
    unfold reserveCapacity in E. destruct (reserveCapacityLocked _ _ _) as [r0 y] eqn:El. injection E as -> _ ->.
    unfold reserveCapacityLocked in El. by repeat case_match; simplify_eq.
Qed.

Lemma rejected_run (status : Z) (kind code message : string) (s : Session) :
  h_run (writeDockerActionRejected (W := W) (A := unit) status kind code message s) =
  λ a1, ([Audit (audit [("event", kind +:+ ".rejected"); ("result", code); ("principal_name", ss_PrincipalName s); ("session_id", ss_ID s)])], inl (writeError status code message), a1).
Proof. done. Qed.

(** A pull takes nothing for good.  Served alone, whatever the request and the docker
    process do, it ends with a reply, the capacity counters and the registered operations
    of before, and unchanged tables; the only docker command it may run is the pull, with
    the docker directory of the bearer's own Session, of one image that is not empty and
    cannot be read as a flag. *)
Theorem pull_gives_back (d : docker_run) (now : Z) (r : request) a (Hi : capacity_inv (a_sup a)) :
  ∃ l rep a', serve_alone (handlePull unicode_lower cfg logMax d now r) a = (l, rep, a') ∧
    a_db a' = a_db a ∧ same_counts (a_sup a) (a_sup a') ∧
    ∀ args stdin, Docker args stdin ∈ l → ∃ session image, session_of now (a_db a) r session ∧
      args = ["--config"; docker_dir cfg session; "pull"; image] ∧ stdin = "" ∧ image ≠ "" ∧ String.prefix "-" image = false.
Proof.
  unfold serve_alone. fold (h_run (handlePull unicode_lower cfg logMax d now r) a). unfold handlePull. rewrite h_run_bind.
  destruct (require_session now r (a_mac a)) as (l0 & o & f & E1 & Ho). rewrite (E1 a eq_refl). destruct o as [rep|session].
  { eexists l0, rep, _. split; [reflexivity|]. split_and!; [done..|]. intros args stdin Hin. by destruct (proj2 Ho args stdin). }
  set (a1 := consumed f (a_mac a) a).
  destruct Ho as [-> Hses]. assert (Hi1 : capacity_inv (a_sup a1)) by done. cbv zeta.
  assert (Hrej : ∀ status code message, ∃ l rep a', (let '(l, o, a') := (let '(l', o, a'') := h_run (writeDockerActionRejected (A := unit) status "pull" code message session : H (W := W) unit) a1 in ([] ++ l', o, a'')) in
      (l, match o with inl rep => rep | inr _ => empty_reply end, a')) = (l, rep, a') ∧
    a_db a' = a_db a ∧ same_counts (a_sup a) (a_sup a') ∧ ∀ args stdin, Docker args stdin ∈ l → ∃ session image, session_of now (a_db a) r session ∧
      args = ["--config"; docker_dir cfg session; "pull"; image] ∧ stdin = "" ∧ image ≠ "" ∧ String.prefix "-" image = false).
  { intros. rewrite rejected_run. eexists _, _, _. split; [reflexivity|]. split_and!; [done..|]. intros args stdin Hin. by apply list_elem_of_singleton in Hin. }
  destruct (decodeJSONRequest decode_pull r) as [image|]; [|apply Hrej]. case_bool_decide as Hne; [apply Hrej|].
  destruct (String.prefix "-" image) eqn:Hpre; [apply Hrej|]. clear Hrej.
  destruct (execution_back session (run_pull unicode_lower cfg logMax d session image) empty_reply
    (λ l, ∀ args stdin, Docker args stdin ∈ l → args = ["--config"; docker_dir cfg session; "pull"; image] ∧ stdin = "") a1 Hi1) with
    (refused := writeDockerActionRejected (A := unit) 429 "pull" "capacity_unavailable" "too many concurrent requests" session : H (W := W) unit)
    as (l & rep & a' & -> & HP & Hdb & Hc).
  - by intros args stdin ?%elem_of_nil.
  - intros a2. apply run_pull_spec.
  - rewrite rejected_run. eexists _, _. split; [reflexivity|]. intros args stdin [=]%list_elem_of_singleton.
  - eexists _, _, _. split; [reflexivity|]. split; [done|]. split; [done|].
    intros args stdin Hin. destruct (HP args stdin Hin) as [-> ->]. by exists session, image.
Qed.

Ltac refused_login :=
  rewrite ?h_run_respond; do 3 (split; [done|]); intros ? ? Hin; cbn [Datatypes.app] in Hin; by apply elem_of_nil in Hin.

Definition hide_stdin (e : event) : event := match e with Docker args _ => Docker args "" | e => e end.
Definition with_body (body : option string) (r : request) : request :=
  mkRequest (rq_Method r) (rq_Path r) (rq_auth r) body (rq_value r) (rq_query r) (rq_deliver r).

(** C13. A registry password reaches the standard input of docker login and nothing else.
    Two login requests that differ in their bodies only, and whose bodies name the same
    registry and user with two passwords that are not empty, have the same reply, the
    same audit records, the same docker command and the same effects; the password is
    the standard input of that command. *)
Theorem login_password_confined (d : docker_run) (now : Z) (r : request) (b1 b2 : option string) (q1 q2 : registryLoginRequest) a
    (H1 : decodeJSONRequest decode_login (with_body b1 r) = Some q1) (H2 : decodeJSONRequest decode_login (with_body b2 r) = Some q2)
    (Hr : lr_Registry q1 = lr_Registry q2) (Hu : lr_Username q1 = lr_Username q2) (Hp1 : lr_Password q1 ≠ "") (Hp2 : lr_Password q2 ≠ "") :
  let '(l1, rep1, a1) := serve_alone (handleRegistryLogin unicode_lower cfg d now (with_body b1 r)) a in
  let '(l2, rep2, a2) := serve_alone (handleRegistryLogin unicode_lower cfg d now (with_body b2 r)) a in
  rep1 = rep2 ∧ a1 = a2 ∧ hide_stdin <$> l1 = hide_stdin <$> l2 ∧
  ∀ args stdin, Docker args stdin ∈ l1 → stdin = lr_Password q1 ∧ ∃ session, session_of now (a_db a) r session ∧
    args = login_args session (lr_Registry q1) (lr_Username q1).
Proof.
  clear format_time logMax.
  unfold serve_alone. fold (h_run (handleRegistryLogin unicode_lower cfg d now (with_body b1 r)) a).
  fold (h_run (handleRegistryLogin unicode_lower cfg d now (with_body b2 r)) a). unfold handleRegistryLogin. rewrite !h_run_bind, H1, H2.
  change (requireSessionCapability now (with_body b2 r)) with (requireSessionCapability (W := W) now (with_body b1 r)).
  destruct (require_session now (with_body b1 r) (a_mac a)) as (l0 & o & f & E1 & Ho). rewrite (E1 a eq_refl). destruct o as [rep|session].
  { split_and!; [done..|]. intros args stdin Hin. by destruct (proj2 Ho args stdin). }
  destruct Ho as [-> Hses]. set (a0 := consumed f (a_mac a) a).
  destruct q1 as [reg user p1], q2 as [reg2 user2 p2]. simpl in Hr, Hu, Hp1, Hp2. subst reg2 user2. cbn [lr_Registry lr_Username lr_Password].
  assert (Hcond : bool_decide (reg = "" ∨ user = "" ∨ p1 = "") = bool_decide (reg = "" ∨ user = "" ∨ p2 = "")) by (apply bool_decide_ext; tauto).
  rewrite Hcond. clear Hcond. case_bool_decide; [refused_login|].
  destruct (String.prefix "-" reg); [refused_login|].
  rewrite !h_run_bind. unfold reserve_execution. rewrite h_run_proc. unfold sup_action. rewrite run_atom.
  destruct (reserveCapacity (ss_ID session) false (a_sup a0)) as [[res b] x']. cbn [fst snd]. destruct res as [res|].
  2: { refused_login. }
  rewrite !h_run_deferred. destruct (run_login_spec d session reg user) as (pre & post & rep & Haud & Hrun). rewrite !Hrun. cbn [Datatypes.app].
  split; [done|]. split; [done|]. split.
  { rewrite !fmap_app. f_equal. f_equal. by destruct (dr_dir d). }
  intros args stdin Hin. assert (Hno : Docker args stdin ∉ pre ++ post) by (intros Hx; destruct (Haud _ Hx) as [rec [=]]).
  rewrite !elem_of_app in Hin. rewrite elem_of_app in Hno. destruct Hin as [?|[Hin|?]]; [tauto| |tauto].
  destruct (dr_dir d); [|by apply elem_of_nil in Hin]. apply list_elem_of_singleton in Hin as [= -> ->]. split; [done|]. by exists session.
Qed.

(** No registered operation of the id belongs to the Session. *)
Definition has_no_operation (sid id : string) (x : sup) : Prop :=
  ∀ o op, ops x !! id = Some o → heap x !! o = Some op → op_SessionID op ≠ sid.

Lemma has_no_operation_none sid id x : has_no_operation sid id x → operationForSession sid id x = None.
Proof.
  intros H. unfold operationForSession, lookup_op. destruct (ops x !! id) as [o|] eqn:Eo; [|done].
  destruct (heap x !! o) as [op|] eqn:Ep; [|done]. by rewrite bool_decide_true by exact (H o op Eo Ep).
Qed.

(** C12. An operation of another Session cannot be told from one that was never
    registered.  Where the bearer's Session has no operation of the id, whatever
    operations other Sessions have, a request for its status or its logs gets the same
    reply and writes the same records — not found, or the fixed refusals of the bearer
    —, and leaves the supervisor as it is. *)
Theorem foreign_operation_hidden (logs : op_ref → boundedBuffer) (now : Z) (r : request) a a' (Hm : a_mac a' = a_mac a)
    (Hf : ∀ s, session_of now (a_db a) r s → has_no_operation (ss_ID s) (rq_value r "id") (a_sup a))
    (Hf' : ∀ s, session_of now (a_db a) r s → has_no_operation (ss_ID s) (rq_value r "id") (a_sup a')) :
  ∀ m : H (W := W) unit, m = handleOperationStatus format_time cfg now r ∨ m = handleOperationLogs logs now r →
  let '(l1, rep1, a1) := serve_alone m a in
  let '(l2, rep2, a2) := serve_alone m a' in
  l1 = l2 ∧ rep1 = rep2 ∧ a_mac a1 = a_mac a2 ∧ a_sup a1 = a_sup a ∧ a_sup a2 = a_sup a' ∧
  (rep1 = operation_not_found ∨ rep1 = writeUnauthorized unauthorizedSessionCapability ∨ rep1 = internal_error).
Proof.
  intros m Hcase. destruct (require_session now r (a_mac a)) as (l0 & o & f & E1 & Ho).
  assert (Hfind : ∀ b s, session_of now (a_db a) r s → has_no_operation (ss_ID s) (rq_value r "id") (a_sup b) →
    h_run (find_operation s (rq_value r "id")) (consumed f (a_mac a) b) = ([], inl operation_not_found, consumed f (a_mac a) b)).
  { intros b s _ Hn%has_no_operation_none. unfold find_operation. rewrite h_run_bind, h_run_proc. unfold get_sup. rewrite run_atom. cbn [fst snd consumed a_sup]. by rewrite Hn. }
  assert (Hrun : ∃ l rep, (rep = operation_not_found ∨ rep = writeUnauthorized unauthorizedSessionCapability ∨ rep = internal_error) ∧
    ∀ b, a_mac b = a_mac a → (∀ s, session_of now (a_db a) r s → has_no_operation (ss_ID s) (rq_value r "id") (a_sup b)) →
    h_run m b = (l, inl rep, consumed f (a_mac a) b)).
  { destruct o as [rep|s].
    - exists l0, rep. split; [right; apply Ho|]. intros b Hb _. destruct Hcase as [->| ->]; unfold handleOperationStatus, handleOperationLogs; by apply h_run_stop, E1.
    - destruct Ho as [-> Hs]. exists [], operation_not_found. split; [by left|]. intros b Hb Hn. specialize (Hfind b s Hs (Hn s Hs)).
      destruct Hcase as [->| ->]; unfold handleOperationStatus, handleOperationLogs; rewrite h_run_bind, (E1 b Hb), (h_run_stop _ _ _ _ _ _ Hfind); done. }
  destruct Hrun as (l & rep & Hrep & Hrun). unfold serve_alone. fold (h_run m a). fold (h_run m a').
  rewrite (Hrun a eq_refl Hf), (Hrun a' Hm Hf'). by split_and!.
Qed.

End theory.

(** ** Concrete requests of the Session "s1" *)

#[local] Existing Instances MacSpec.Example.driver.

Module Requests.
Definition cfg : run_config := mkRunConfig "/run/dh" "off" "" 100 10.
Definition done_well : docker_run := mkDockerRun true true [] None "1s".
Definition post (id body : string) : request :=
  mkRequest "POST" "/" "Bearer dht_x" (Some body) (λ k, if bool_decide (k = "id") then id else "") (λ _, "") true.
Definition login_body (password : string) : string :=
  let q := String "034" "" in
  "{" +:+ q +:+ "registry" +:+ q +:+ ":" +:+ q +:+ "ghcr.io" +:+ q +:+ "," +:+ q +:+ "username" +:+ q +:+ ":" +:+ q +:+ "bob" +:+ q +:+
  "," +:+ q +:+ "password" +:+ q +:+ ":" +:+ q +:+ password +:+ q +:+ "}".
Definition pull_body : string := let q := String "034" "" in "{" +:+ q +:+ "image" +:+ q +:+ ":" +:+ q +:+ "alpine" +:+ q +:+ "}".
(** A supervisor with an operation of the Session "s2". *)
Definition other : sup :=
  set_ops {[ "op_1" := 0%nat ]} (set_heap {[ 0%nat := newBuildOperation "op_1" "s2" "l1" 0 ]} newOperationSupervisor).
Definition pull (r : request) : list Http.event * reply * app (list string) :=
  serve_alone (handlePull (λ z, z) cfg 100 done_well 5 r) (ex_app newOperationSupervisor).
Definition login (body : string) : list Http.event * reply * app (list string) :=
  serve_alone (handleRegistryLogin (λ z, z) cfg done_well 5 (with_body (Some body) (post "" ""))) (ex_app newOperationSupervisor).
Definition status (s : sup) : list Http.event * reply * app (list string) :=
  serve_alone (handleOperationStatus (λ _, "") cfg 5 (post "op_1" "")) (ex_app s).
End Requests.

Example pull_runs : (λ e, match e with Docker args _ => args | _ => [] end) <$> (Requests.pull (Requests.post "" Requests.pull_body)).1.1 =
  [[]; ["--config"; docker_dir Requests.cfg (mkSess "s1" "/srv/app" 0 100 "l1" "default" "alice"); "pull"; "alpine"]; []].
Proof. vm_compute. reflexivity. Qed.
Example login_runs : rp_status (Requests.login (Requests.login_body "secret")).1.2 = 200.
Proof. vm_compute. reflexivity. Qed.

Lemma pull_gives_back_witness :
  same_counts newOperationSupervisor (a_sup (Requests.pull (Requests.post "" Requests.pull_body)).2).
Proof.
  destruct (pull_gives_back (λ z, z) Requests.cfg 100 Requests.done_well 5 (Requests.post "" Requests.pull_body)
    (ex_app newOperationSupervisor) capacity_inv_init) as (l & rep & a' & E & _ & Hc & _).
  unfold Requests.pull. rewrite E. exact Hc.
Defined.

Lemma login_password_confined_witness :
  (Requests.login (Requests.login_body "secret")).1.2 = (Requests.login (Requests.login_body "hidden")).1.2 ∧
  hide_stdin <$> (Requests.login (Requests.login_body "secret")).1.1 = hide_stdin <$> (Requests.login (Requests.login_body "hidden")).1.1.
Proof.
  assert (Hd : ∀ p, p = "secret" ∨ p = "hidden" →
    decodeJSONRequest decode_login (with_body (Some (Requests.login_body p)) (Requests.post "" "")) = Some (mkLogin "ghcr.io" "bob" p))
    by (intros p [-> | ->]; vm_compute; reflexivity).
  pose proof (login_password_confined (λ z, z) Requests.cfg Requests.done_well 5 (Requests.post "" "")
    (Some (Requests.login_body "secret")) (Some (Requests.login_body "hidden")) (mkLogin "ghcr.io" "bob" "secret") (mkLogin "ghcr.io" "bob" "hidden")
    (ex_app newOperationSupervisor) (Hd _ (or_introl eq_refl)) (Hd _ (or_intror eq_refl)) eq_refl eq_refl ltac:(discriminate) ltac:(discriminate)) as H.
  fold (Requests.login (Requests.login_body "secret")) in H. fold (Requests.login (Requests.login_body "hidden")) in H.
  destruct (Requests.login (Requests.login_body "secret")) as [[l1 r1] a1], (Requests.login (Requests.login_body "hidden")) as [[l2 r2] a2].
  destruct H as (Hr & _ & Hl & _). split; [exact Hr|exact Hl].
Defined.

Lemma foreign_operation_hidden_witness :
  (Requests.status Requests.other).1 = (Requests.status newOperationSupervisor).1 ∧ rp_status (Requests.status Requests.other).1.2 = 404.
Proof.
  assert (Hs : ∀ s, session_of 5 (a_db (ex_app newOperationSupervisor)) (Requests.post "op_1" "") s → ss_ID s = "s1").
  { intros s (token & f & d' & f' & Hp & Hf). vm_compute in Hp. injection Hp as <-.
    destruct f as [|[] f]; vm_compute in Hf; try discriminate Hf; injection Hf as <- _ _; reflexivity. }
  pose proof (foreign_operation_hidden (λ _, "") Requests.cfg (λ _, newBoundedBuffer 10) 5 (Requests.post "op_1" "")
    (ex_app Requests.other) (ex_app newOperationSupervisor) eq_refl
    ltac:(intros s H o op Eo Ep; rewrite (Hs s H); vm_compute in Eo; injection Eo as <-; vm_compute in Ep; injection Ep as <-; vm_compute; discriminate)
    ltac:(intros s H o op Eo; vm_compute in Eo; discriminate Eo)
    _ (or_introl eq_refl)) as H.
  fold (Requests.status Requests.other) in H. fold (Requests.status newOperationSupervisor) in H.
  split; [|vm_compute; reflexivity].
  destruct (Requests.status Requests.other) as [[l1 r1] a1], (Requests.status newOperationSupervisor) as [[l2 r2] a2].
  destruct H as (Hl & Hr & _). simpl. congruence.
Defined.
