(* ===== verification/Aare.v ===== *)
(** * Aare: AppArmor path patterns and the segment exclusion of src/workload_apparmor.go

    The pattern language of apparmor.d(5) as a syntax with its textual form and
    its meaning (an executable matcher), and the byte-trie fragment that matches
    the segments different from given names. *)
From S2P Require Import Prelude Filepath GoStrings Sha256.
Local Open Scope Z_scope.

(** ** Encoding of bytes *)

Definition slash : ascii := "/".

Definition alnum (b : ascii) : bool :=
  let n := byte_of b in in_range 65 90 n || in_range 97 122 n || in_range 48 57 n.

(** A backslash, an x and two hexadecimal digits. *)
Definition hex_escape (b : ascii) : string :=
  let n := N_of_ascii b in String "\" (String "x" (String (hex_digit (N.shiftr n 4)) (String (hex_digit (N.land n 15)) ""))).

Definition literal_safe (b : ascii) : bool :=
  alnum b || bool_decide (b = "/"%char ∨ b = "."%char ∨ b = "_"%char ∨ b = "-"%char).

Fixpoint appArmorPathLiteral (path : string) : string :=
  match path with
  | "" => ""
  | String b path => (if literal_safe b then String b "" else hex_escape b) +:+ appArmorPathLiteral path
  end.

Definition appArmorClassSafeByte (b : ascii) : bool :=
  alnum b || bool_decide (b = "/"%char ∨ b = "."%char ∨ b = "_"%char).
Definition appArmorClassByte (b : ascii) : string := if appArmorClassSafeByte b then String b "" else hex_escape b.
Definition appArmorLiteralByte (b : ascii) : string := if literal_safe b then String b "" else hex_escape b.

(** ** Patterns *)

Inductive aare :=
  | ALit (c : ascii)             (* the byte *)
  | ANot (l : list ascii)        (* one byte outside the class *)
  | AAny                         (* one byte, no slash *)
  | AStar                        (* any bytes, no slash *)
  | ADStar                       (* any bytes *)
  | AAlt (l : list (list aare)). (* one of the patterns *)

Fixpoint str_join (sep : string) (l : list string) : string :=
  match l with
  | [] => ""
  | [w] => w
  | w :: l => w +:+ sep +:+ str_join sep l
  end.

(** The textual form. *)
Fixpoint aare_text (a : aare) : string :=
  match a with
  | ALit c => appArmorLiteralByte c
  | ANot l => "[^" +:+ str_concat (appArmorClassByte <$> l) +:+ "]"
  | AAny => "?"
  | AStar => "*"
  | ADStar => "**"
  | AAlt l => "{" +:+ str_join "," (str_concat <$> (map aare_text <$> l)) +:+ "}"
  end.
Definition pattern_text (p : list aare) : string := str_concat (aare_text <$> p).

(** Every way to cut a string in two. *)
Fixpoint splits (s : string) : list (string * string) :=
  ("", s) :: match s with "" => [] | String c s => (λ p, (String c p.1, p.2)) <$> splits s end.

Definition no_slash (s : string) : bool := str_forall (λ c, negb (bool_decide (c = slash))) s.

Definition one_byte (P : ascii → bool) (s : string) : bool :=
  match s with String c "" => P c | _ => false end.

(** A sequence of items, each with its meaning. *)
Fixpoint seq_match (p : list (string → bool)) (s : string) : bool :=
  match p with
  | [] => bool_decide (s = "")
  | m :: p => existsb (λ sp, m sp.1 && seq_match p sp.2) (splits s)
  end.

Fixpoint aare_match (a : aare) (s : string) : bool :=
  match a with
  | ALit c => one_byte (λ d, bool_decide (d = c)) s
  | ANot l => one_byte (λ d, bool_decide (d ∉ l)) s
  | AAny => one_byte (λ d, bool_decide (d ≠ slash)) s
  | AStar => no_slash s
  | ADStar => true
  | AAlt l => existsb (λ p, seq_match (map aare_match p) s) l
  end.
Definition matches (p : list aare) (s : string) : bool := seq_match (map aare_match p) s.

(** ** Maps with allocation *)

Section keyed.
Context {K A : Type} `{EqDecision K}.

(** The value at a key, [new] when it is missing, is changed by [f]. *)
Fixpoint update_key (new : A) (k : K) (f : A → A) (l : list (K * A)) : list (K * A) :=
  match l with
  | [] => [(k, f new)]
  | (j, a) :: l => if bool_decide (j = k) then (j, f a) :: l else (j, a) :: update_key new k f l
  end.
Fixpoint find_key (k : K) (l : list (K * A)) : option A :=
  match l with
  | [] => None
  | (j, a) :: l => if bool_decide (j = k) then Some a else find_key k l
  end.
End keyed.

(** Sorting by key: insertion sort. *)
Fixpoint insert_keyed {K A} (le : K → K → bool) (e : K * A) (l : list (K * A)) : list (K * A) :=
  match l with
  | [] => [e]
  | x :: l => if le e.1 x.1 then e :: x :: l else x :: insert_keyed le e l
  end.
Definition sort_keyed {K A} (le : K → K → bool) (l : list (K * A)) : list (K * A) := foldr (insert_keyed le) [] l.

(** ** The trie of excluded names *)

Inductive appArmorSegmentTrieNode := TNode (leaf : bool) (children : list (ascii * appArmorSegmentTrieNode)).
Definition tleaf (t : appArmorSegmentTrieNode) : bool := let 'TNode leaf _ := t in leaf.
Definition tchildren (t : appArmorSegmentTrieNode) : list (ascii * appArmorSegmentTrieNode) := let 'TNode _ cs := t in cs.

Definition newAppArmorSegmentTrieNode : appArmorSegmentTrieNode := TNode false [].

(** The walk along one segment, then [k] at its end. *)
Fixpoint insert_bytes (seg : string) (k : appArmorSegmentTrieNode → appArmorSegmentTrieNode) (t : appArmorSegmentTrieNode)
    : appArmorSegmentTrieNode :=
  match seg with
  | "" => let 'TNode _ cs := t in k (TNode true cs)
  | String b seg => let 'TNode leaf cs := t in TNode leaf (update_key newAppArmorSegmentTrieNode b (insert_bytes seg k) cs)
  end.
Fixpoint insertSegment (segments : list string) (t : appArmorSegmentTrieNode) : appArmorSegmentTrieNode :=
  match segments with
  | [] => t
  | seg :: segments => insert_bytes seg (insertSegment segments) t
  end.

Definition byte_le (a b : ascii) : bool := byte_of a <=? byte_of b.
Definition sort_edges {A} (l : list (ascii * A)) : list (ascii * A) := sort_keyed byte_le l.

(** Each byte once, at its first place. *)
Fixpoint dedup_bytes (seen bytes : list ascii) : list ascii :=
  match bytes with
  | [] => []
  | b :: bytes => if bool_decide (b ∈ seen) then dedup_bytes seen bytes else b :: dedup_bytes (b :: seen) bytes
  end.

Definition appArmorNegatedClass (bytes : list ascii) : string :=
  "[^" +:+ str_concat (appArmorClassByte <$> dedup_bytes [] bytes) +:+ "]".

Definition brace_alternatives (alts : list string) : string :=
  match alts with
  | [a] => if bool_decide (a ≠ "") then a else "{" +:+ str_join "," alts +:+ "}"
  | _ => "{" +:+ str_join "," alts +:+ "}"
  end.

Fixpoint appArmorExclusionFragment (node : appArmorSegmentTrieNode) (minContinuation : bool) : string :=
  let 'TNode leaf children := node in
  let edges := sort_edges
    ((fix edges l := match l with
      | [] => []
      | (b, child) :: l =>
          (b, if tleaf child && bool_decide (tchildren child = []) then appArmorLiteralByte b +:+ "?*"
              else appArmorLiteralByte b +:+ appArmorExclusionFragment child (tleaf child)) :: edges l
      end) children) in
  brace_alternatives
    ((if negb minContinuation && negb leaf then [""] else []) ++
     (if bool_decide (children ≠ []) then [appArmorNegatedClass (edges.*1 ++ [slash]) +:+ "*"] else []) ++ edges.*2).

Definition appArmorSegmentExclusion (names : list string) : string :=
  appArmorExclusionFragment
    (foldl (λ t name, if bool_decide (name = "") then t else insertSegment [name] t) newAppArmorSegmentTrieNode names) false.
