(* ===== verification/AareTheory.v ===== *)
(** * AareTheory: the segment exclusion matches every segment but the excluded names *)
From S2P Require Import Prelude Filepath Sha256 GoStrings Aare.
Local Open Scope Z_scope.

(** ** The meaning of patterns *)

Lemma splits_spec s p : p ∈ splits s ↔ s = p.1 +:+ p.2.
Proof.
  revert p. induction s as [|c s IH]; intros [a b]; simpl.
  - rewrite list_elem_of_singleton. split; [by intros [= -> ->]|]. destruct a; [simpl; by intros <-|done].
  - rewrite elem_of_cons, list_elem_of_fmap. split.
    + intros [[= -> ->]|(q & [= -> ->] & Hq%IH)]; [done|]. simpl. by rewrite Hq.
    + destruct a as [|d a]; simpl; [intros ->; by left|]. intros [= -> Hs]. right. exists (a, b). split; [done|]. by apply IH.
Qed.

Lemma matches_nil s : matches [] s = true ↔ s = "".
Proof. unfold matches. simpl. apply bool_decide_eq_true. Qed.

Lemma matches_cons a p s : matches (a :: p) s = true ↔ ∃ s1 s2, s = s1 +:+ s2 ∧ aare_match a s1 = true ∧ matches p s2 = true.
Proof.
  unfold matches. simpl. rewrite existsb_exists. split.
  - intros ([s1 s2] & Hin%list_elem_of_In%splits_spec & [H1 H2]%andb_true_iff). by exists s1, s2.
  - intros (s1 & s2 & -> & H1 & H2). exists (s1, s2). split; [by apply list_elem_of_In, splits_spec|]. simpl. by rewrite H1, H2.
Qed.

Lemma matches_app p q s : matches (p ++ q) s = true ↔ ∃ s1 s2, s = s1 +:+ s2 ∧ matches p s1 = true ∧ matches q s2 = true.
Proof.
  revert s. induction p as [|a p IH]; intros s; cbn [app].
  - split; [intros H; exists "", s; by rewrite matches_nil|]. intros (s1 & s2 & -> & ->%matches_nil & H). done.
  - rewrite matches_cons. split.
    + intros (s1 & s2 & -> & H1 & (s3 & s4 & -> & H3 & H4)%IH). exists (s1 +:+ s3), s4. rewrite str_app_assoc. split_and!; [done| |done].
      apply matches_cons. by exists s1, s3.
    + intros (s1 & s2 & -> & (s3 & s4 & -> & H3 & H4)%matches_cons & H2). exists s3, (s4 +:+ s2). rewrite str_app_assoc. split_and!; [done..|].
      apply IH. by exists s4, s2.
Qed.

Lemma matches_alt l p s : matches (AAlt l :: p) s = true ↔ ∃ q, q ∈ l ∧ matches (q ++ p) s = true.
Proof.
  rewrite matches_cons. setoid_rewrite matches_app. cbn [aare_match]. setoid_rewrite existsb_exists. split.
  - intros (s1 & s2 & -> & (q & Hq%list_elem_of_In & Hm) & Hp). exists q. split; [done|]. by exists s1, s2.
  - intros (q & Hq & s1 & s2 & -> & Hm & Hp). exists s1, s2. split_and!; [done| |done]. exists q. by rewrite <-list_elem_of_In.
Qed.

Lemma one_byte_spec P s : one_byte P s = true ↔ ∃ c, s = String c "" ∧ P c = true.
Proof. destruct s as [|c [|d s]]; simpl; split; try done; [intros (? & ? & _); done|eauto|by intros (? & [= <-] & ?)|intros (? & ? & _); done]. Qed.

Lemma matches_byte a P p c s : (∀ s, aare_match a s = one_byte P s) → matches (a :: p) (String c s) = P c && matches p s.
Proof.
  intros Ha. apply eq_true_iff_eq. rewrite matches_cons, andb_true_iff. setoid_rewrite Ha. setoid_rewrite one_byte_spec. split.
  - intros (? & s2 & E & (d & -> & Hd) & Hp). by injection E as <- <-.
  - intros [Hc Hp]. exists (String c ""), s. split_and!; [done|by exists c|done].
Qed.
Lemma matches_byte_nil a P p : (∀ s, aare_match a s = one_byte P s) → matches (a :: p) "" = false.
Proof.
  intros Ha. apply not_true_iff_false. rewrite matches_cons. setoid_rewrite Ha. setoid_rewrite one_byte_spec.
  by intros (? & s2 & E & (d & -> & Hd) & Hp).
Qed.

Lemma matches_star s : matches [AStar] s = no_slash s.
Proof.
  apply eq_true_iff_eq. rewrite matches_cons. split.
  - intros (s1 & s2 & -> & H1 & ->%matches_nil). by rewrite str_app_nil_r.
  - intros H. exists s, "". rewrite str_app_nil_r. by split_and!.
Qed.

(** Literal text. *)
Fixpoint lits (s : string) : list aare := match s with "" => [] | String c s => ALit c :: lits s end.

Lemma matches_lits w p s : matches (lits w ++ p) s = true ↔ ∃ r, s = w +:+ r ∧ matches p r = true.
Proof.
  revert s. induction w as [|c w IH]; intros s; cbn [lits app].
  - split; [intros H; by exists s|]. by intros (r & -> & H).
  - destruct s as [|d s].
    + rewrite (matches_byte_nil _ (λ d, bool_decide (d = c))) by done. split; [done|]. by intros (r & ? & _).
    + rewrite (matches_byte _ (λ d, bool_decide (d = c))) by done. rewrite andb_true_iff, bool_decide_eq_true, IH. split.
      * intros [-> (r & -> & H)]. by exists r.
      * intros (r & [= -> ->] & H). split; [done|]. by exists r.
Qed.

(** ** The pattern of the exclusion *)

Definition brace_patterns (alts : list (list aare)) : list aare :=
  match alts with
  | [a] => match a with [] => [AAlt alts] | _ => a end
  | _ => [AAlt alts]
  end.

Fixpoint exclusion_pattern (node : appArmorSegmentTrieNode) (minContinuation : bool) : list aare :=
  let 'TNode leaf children := node in
  let edges := sort_edges
    ((fix edges l := match l with
      | [] => []
      | (b, child) :: l =>
          (b, if tleaf child && bool_decide (tchildren child = []) then [ALit b; AAny; AStar]
              else ALit b :: exclusion_pattern child (tleaf child)) :: edges l
      end) children) in
  brace_patterns
    ((if negb minContinuation && negb leaf then [[]] else []) ++
     (if bool_decide (children ≠ []) then [[ANot (dedup_bytes [] (edges.*1 ++ [slash])); AStar]] else []) ++ edges.*2).

Definition edge_pattern (e : ascii * appArmorSegmentTrieNode) : ascii * list aare :=
  (e.1, if tleaf e.2 && bool_decide (tchildren e.2 = []) then [ALit e.1; AAny; AStar]
        else ALit e.1 :: exclusion_pattern e.2 (tleaf e.2)).

Lemma exclusion_pattern_eq leaf children minC :
  exclusion_pattern (TNode leaf children) minC =
  let edges := sort_edges (edge_pattern <$> children) in
  brace_patterns
    ((if negb minC && negb leaf then [[]] else []) ++
     (if bool_decide (children ≠ []) then [[ANot (dedup_bytes [] (edges.*1 ++ [slash])); AStar]] else []) ++ edges.*2).
Proof.
  cbn [exclusion_pattern]. cbv zeta. match goal with |- context [sort_edges (?f children)] => assert (E : f children = edge_pattern <$> children) end.
  { induction children as [|[b c] cs IH]; [done|]. rewrite fmap_cons, <-IH. reflexivity. }
  by rewrite E.
Qed.

Definition edge_text (e : ascii * appArmorSegmentTrieNode) : ascii * string :=
  (e.1, if tleaf e.2 && bool_decide (tchildren e.2 = []) then appArmorLiteralByte e.1 +:+ "?*"
        else appArmorLiteralByte e.1 +:+ appArmorExclusionFragment e.2 (tleaf e.2)).

Lemma exclusion_text_eq leaf children minC :
  appArmorExclusionFragment (TNode leaf children) minC =
  let edges := sort_edges (edge_text <$> children) in
  brace_alternatives
    ((if negb minC && negb leaf then [""] else []) ++
     (if bool_decide (children ≠ []) then [appArmorNegatedClass (edges.*1 ++ [slash]) +:+ "*"] else []) ++ edges.*2).
Proof.
  cbn [appArmorExclusionFragment]. cbv zeta. match goal with |- context [sort_edges (?f children)] => assert (E : f children = edge_text <$> children) end.
  { induction children as [|[b c] cs IH]; [done|]. rewrite fmap_cons, <-IH. reflexivity. }
  by rewrite E.
Qed.

Lemma trie_ind' (P : appArmorSegmentTrieNode → Prop) :
  (∀ leaf cs, Forall (λ e, P e.2) cs → P (TNode leaf cs)) → ∀ t, P t.
Proof.
  intros H. fix IH 1. intros [leaf cs]. apply H. revert cs. fix IHcs 1. intros [|[b t] cs]; [constructor|]. constructor; [apply IH|apply IHcs].
Qed.

Lemma sort_keyed_map {K A B} (le : K → K → bool) (f : K → A → B) l :
  sort_keyed le ((λ e, (e.1, f e.1 e.2)) <$> l) = (λ e, (e.1, f e.1 e.2)) <$> sort_keyed le l.
Proof.
  assert (Hi : ∀ e l, insert_keyed le (e.1, f e.1 e.2) ((λ e, (e.1, f e.1 e.2)) <$> l) = (λ e, (e.1, f e.1 e.2)) <$> insert_keyed le e l).
  { intros e m. induction m as [|x m IH]; [done|]. rewrite fmap_cons. simpl. destruct (le _ _); [done|]. by rewrite IH. }
  induction l as [|e l IH]; [done|]. rewrite fmap_cons. simpl. rewrite IH. apply (Hi e).
Qed.

Lemma sort_keyed_perm {K A} (le : K → K → bool) (l : list (K * A)) : sort_keyed le l ≡ₚ l.
Proof.
  assert (Hi : ∀ (e : K * A) l, insert_keyed le e l ≡ₚ e :: l).
  { intros e m. induction m as [|x m IH]; simpl; [done|]. destruct (le _ _); [done|]. rewrite IH. constructor. }
  induction l as [|x l IH]; simpl; [done|]. by rewrite Hi, IH.
Qed.
Lemma sort_edges_perm {A} (l : list (ascii * A)) : sort_edges l ≡ₚ l.
Proof. apply sort_keyed_perm. Qed.
Lemma sort_edges_map {A B} (f : A → B) (l : list (ascii * A)) :
  sort_edges ((λ e, (e.1, f e.2)) <$> l) = (λ e, (e.1, f e.2)) <$> sort_edges l.
Proof. apply (sort_keyed_map byte_le (λ _, f)). Qed.

(** ** The text of the pattern *)

Lemma aare_text_ne a : aare_text a ≠ "".
Proof.
  destruct a as [c|l| | | |l]; simpl; try done. unfold appArmorLiteralByte. by destruct (literal_safe c).
Qed.

Lemma pattern_text_nil p : pattern_text p = "" ↔ p = [].
Proof.
  split; [|by intros ->]. destruct p as [|a p]; [done|]. unfold pattern_text. rewrite fmap_cons. simpl.
  pose proof (aare_text_ne a). by destruct (aare_text a).
Qed.

Lemma str_concat_app l k : str_concat (l ++ k) = str_concat l +:+ str_concat k.
Proof. induction l as [|w l IH]; [done|]. simpl. by rewrite IH, str_app_assoc. Qed.

Lemma pattern_text_app p q : pattern_text (p ++ q) = pattern_text p +:+ pattern_text q.
Proof. unfold pattern_text. by rewrite fmap_app, str_concat_app. Qed.

Lemma alt_text l : aare_text (AAlt l) = "{" +:+ str_join "," (pattern_text <$> l) +:+ "}".
Proof. cbn [aare_text]. do 2 f_equal. by rewrite <-list_fmap_compose. Qed.

Lemma brace_text alts : pattern_text (brace_patterns alts) = brace_alternatives (pattern_text <$> alts).
Proof.
  assert (H : pattern_text [AAlt alts] = "{" +:+ str_join "," (pattern_text <$> alts) +:+ "}").
  { unfold pattern_text at 1. rewrite fmap_cons, alt_text. simpl. by rewrite str_app_nil_r. }
  destruct alts as [|a [|b alts]]; [exact H| |exact H]. cbn [fmap list_fmap brace_alternatives brace_patterns] in *.
  destruct a as [|x a]; [rewrite bool_decide_false; [exact H|]; intros Hn; by apply Hn|]. rewrite bool_decide_true; [done|]. by rewrite pattern_text_nil.
Qed.

Theorem exclusion_text t m : pattern_text (exclusion_pattern t m) = appArmorExclusionFragment t m.
Proof.
  revert m. induction t as [leaf cs IH] using trie_ind'. intros m. rewrite exclusion_pattern_eq, exclusion_text_eq. cbv zeta. rewrite brace_text. f_equal.
  assert (Hmap : edge_text <$> cs = (λ e, (e.1, pattern_text e.2)) <$> (edge_pattern <$> cs)).
  { rewrite <-list_fmap_compose. apply list_fmap_ext. intros i [b c] Hi. rewrite Forall_forall in IH.
    pose proof (IH _ (list_elem_of_lookup_2 _ _ _ Hi)) as Ht. unfold edge_text, edge_pattern. simpl in *. f_equal.
    destruct (tleaf c && _); unfold pattern_text in *; simpl; [done|]. by rewrite <-Ht. }
  rewrite Hmap, (sort_edges_map pattern_text). set (es := sort_edges (edge_pattern <$> cs)).
  rewrite !fmap_app, <-!list_fmap_compose. f_equal; [by destruct (_ && _)|]. f_equal.
  case_bool_decide; [|done]. cbn [fmap list_fmap]. f_equal.
Qed.

(** ** Maps with allocation *)

Section keyed_theory.
Context {K A : Type} `{EqDecision K}.
Implicit Types (k j : K) (a new : A) (l : list (K * A)).

Lemma find_key_spec k l a : NoDup l.*1 → find_key k l = Some a ↔ (k, a) ∈ l.
Proof.
  induction l as [|[c u] l IH]; simpl; intros Hnd; [split; [done|by intros ?%not_elem_of_nil]|].
  apply NoDup_cons in Hnd as [Hc Hnd]. rewrite elem_of_cons. case_bool_decide as E.
  - subst. split; [intros [= ->]; by left|]. intros [[= ->]|Hin]; [done|]. exfalso. apply Hc. by apply (list_elem_of_fmap_2 fst) in Hin.
  - rewrite IH by done. naive_solver.
Qed.

Lemma find_key_none k l : find_key k l = None ↔ k ∉ l.*1.
Proof.
  induction l as [|[c u] l IH]; simpl; [split; [intros _; apply not_elem_of_nil|done]|]. rewrite not_elem_of_cons.
  case_bool_decide; [naive_solver|]. rewrite IH. naive_solver.
Qed.

Lemma find_update_key new k j f l :
  find_key j (update_key new k f l) = if bool_decide (k = j) then Some (f (default new (find_key k l))) else find_key j l.
Proof.
  induction l as [|[c u] l IH]; simpl; [by case_bool_decide|].
  destruct (decide (c = k)) as [->|Hc].
  - rewrite !(bool_decide_true (k = k)) by done. simpl. by case_bool_decide.
  - rewrite !(bool_decide_false (c = k)) by done. simpl. rewrite IH. repeat case_bool_decide; naive_solver.
Qed.

Lemma update_key_keys new k f l : (update_key new k f l).*1 = if bool_decide (k ∈ l.*1) then l.*1 else l.*1 ++ [k].
Proof.
  induction l as [|[c u] l IH]; [done|]. cbn [update_key]. rewrite !fmap_cons. cbn [fst].
  destruct (decide (c = k)) as [->|Hc].
  - rewrite (bool_decide_true (k = k)) by done. rewrite fmap_cons. rewrite bool_decide_true; [done|by left].
  - rewrite (bool_decide_false (c = k)) by done. rewrite fmap_cons, IH. cbn [fst]. destruct (decide (k ∈ l.*1)) as [Hin|Hin].
    + rewrite !bool_decide_true; [done|by right|done].
    + rewrite !bool_decide_false; [done| |done]. rewrite not_elem_of_cons. naive_solver.
Qed.

Lemma update_key_nodup new k f l : NoDup l.*1 → NoDup (update_key new k f l).*1.
Proof.
  intros Hnd. rewrite update_key_keys. case_bool_decide; [done|]. apply NoDup_app.
  split_and!; [done| |apply NoDup_singleton]. intros x Hx ->%list_elem_of_singleton. done.
Qed.

Lemma update_key_elem new k f l j : j ∈ (update_key new k f l).*1 ↔ j = k ∨ j ∈ l.*1.
Proof. rewrite update_key_keys. case_bool_decide; rewrite ?elem_of_app, ?list_elem_of_singleton; naive_solver. Qed.

Lemma update_key_forall (Q : A → Prop) new k f l :
  Forall (λ e, Q e.2) l → (∀ a, a = new ∨ Q a → Q (f a)) → Forall (λ e, Q e.2) (update_key new k f l).
Proof.
  intros Hl Hf. induction Hl as [|[c u] l Hu Hl IH]; simpl; [constructor; [|done]; apply Hf; by left|].
  case_bool_decide; constructor; simpl; auto.
Qed.

Lemma update_key_ne new k f l : update_key new k f l ≠ [].
Proof. destruct l as [|[c u] l]; simpl; [done|]. by case_bool_decide. Qed.
End keyed_theory.

(** ** The names of a trie *)

Fixpoint tmem (t : appArmorSegmentTrieNode) (s : string) : bool :=
  match s with
  | "" => tleaf t
  | String c s => match find_key c (tchildren t) with Some t => tmem t s | None => false end
  end.

Definition tlive (t : appArmorSegmentTrieNode) : Prop := tleaf t = true ∨ tchildren t ≠ [].

Inductive twf : appArmorSegmentTrieNode → Prop :=
  | TWF leaf cs : NoDup cs.*1 → slash ∉ cs.*1 → Forall (λ e, tlive e.2 ∧ twf e.2) cs → twf (TNode leaf cs).

Definition insert_name (name : string) : appArmorSegmentTrieNode → appArmorSegmentTrieNode := insert_bytes name (λ t, t).

Lemma insert_live name t : tlive (insert_name name t).
Proof.
  destruct t as [leaf cs], name as [|b name]; simpl; [by left|right]. apply update_key_ne.
Qed.

Lemma insert_wf name t : no_slash name = true → twf t → twf (insert_name name t).
Proof.
  revert t. induction name as [|b name IH]; intros t Hn; inversion 1 as [leaf cs Hnd Hs Hall]; subst; simpl; [by constructor|].
  simpl in Hn. apply andb_true_iff in Hn as [Hb Hn]. apply negb_true_iff, bool_decide_eq_false in Hb. constructor.
  - by apply update_key_nodup.
  - rewrite update_key_elem. naive_solver.
  - apply (update_key_forall (λ t, tlive t ∧ twf t)); [exact Hall|]. intros u Hu. split; [apply insert_live|]. apply IH; [done|].
    destruct Hu as [->|[_ Hu]]; [|done]. constructor; [constructor|apply not_elem_of_nil|constructor].
Qed.

Lemma insert_mem name t s : tmem (insert_name name t) s = bool_decide (s = name) || tmem t s.
Proof.
  revert t s. induction name as [|b name IH]; intros [leaf cs] s; [by destruct s|].
  destruct s as [|c s]; [done|]. unfold insert_name. cbn [insert_bytes tmem tchildren].
  rewrite find_update_key. destruct (decide (b = c)) as [->|Hbc].
  - rewrite bool_decide_true by done. fold (insert_name name). rewrite IH.
    rewrite (bool_decide_ext (String c s = String c name) (s = name)) by naive_solver. f_equal.
    destruct (find_key c cs); [done|]. by destruct s.
  - rewrite bool_decide_false by done. rewrite (bool_decide_false (String c s = String b name)) by naive_solver. done.
Qed.

(** ** The meaning of the exclusion *)

Lemma no_slash_cons c s : no_slash (String c s) = negb (bool_decide (c = slash)) && no_slash s.
Proof. done. Qed.

Lemma matches_not l s :
  matches [ANot l; AStar] s = true ↔ ∃ c s', s = String c s' ∧ c ∉ l ∧ no_slash s' = true.
Proof.
  destruct s as [|c s].
  - rewrite (matches_byte_nil _ (λ d, bool_decide (d ∉ l))) by done. split; [done|]. by intros (? & ? & ? & _).
  - rewrite (matches_byte _ (λ d, bool_decide (d ∉ l))) by done. rewrite matches_star, andb_true_iff, bool_decide_eq_true. naive_solver.
Qed.

Lemma matches_any s : matches [AAny; AStar] s = true ↔ s ≠ "" ∧ no_slash s = true.
Proof.
  destruct s as [|c s].
  - rewrite (matches_byte_nil _ (λ d, bool_decide (d ≠ slash))) by done. naive_solver.
  - rewrite (matches_byte _ (λ d, bool_decide (d ≠ slash))) by done.
    rewrite matches_star, no_slash_cons, !andb_true_iff, negb_true_iff, bool_decide_eq_true, bool_decide_eq_false. naive_solver.
Qed.

Lemma matches_brace alts s :
  (2 ≤ length alts)%nat → matches (brace_patterns alts) s = true ↔ ∃ q, q ∈ alts ∧ matches q s = true.
Proof.
  intros Hl. assert (brace_patterns alts = [AAlt alts]) as -> by (destruct alts as [|a [|b alts]]; [done|simpl in Hl; lia|done]).
  rewrite matches_alt. by setoid_rewrite app_nil_r.
Qed.

Lemma dedup_bytes_elem seen l b : b ∈ dedup_bytes seen l ↔ b ∈ l ∧ b ∉ seen.
Proof.
  revert seen. induction l as [|c l IH]; intros seen; simpl; [rewrite elem_of_nil; tauto|].
  destruct (decide (b = c)); case_bool_decide as E; rewrite ?elem_of_cons, IH, ?elem_of_cons, ?not_elem_of_cons; naive_solver.
Qed.

Lemma matches_lit_cons b p s : matches (ALit b :: p) s = true ↔ ∃ s', s = String b s' ∧ matches p s' = true.
Proof. by apply (matches_lits (String b "") p s). Qed.

Definition excluded (t : appArmorSegmentTrieNode) (s : string) : Prop := no_slash s = true ∧ tmem t s = false.

Definition exclusion_meaning (t : appArmorSegmentTrieNode) : Prop :=
  tchildren t ≠ [] → ∀ m s, matches (exclusion_pattern t m) s = true ↔ excluded t s ∧ (s = "" → m = false).

Lemma edge_match b t s :
  tlive t → exclusion_meaning t →
  matches (edge_pattern (b, t)).2 s = true ↔ ∃ s', s = String b s' ∧ excluded t s'.
Proof.
  intros Hl Ht. unfold edge_pattern. cbn [fst snd]. destruct (tleaf t && bool_decide (tchildren t = [])) eqn:E.
  - apply andb_true_iff in E as [El Ec%bool_decide_eq_true]. rewrite matches_lit_cons. setoid_rewrite matches_any.
    assert (Hm : ∀ s, tmem t s = bool_decide (s = "")) by (intros [|c s']; simpl; [done|]; by rewrite Ec). unfold excluded. setoid_rewrite Hm.
    setoid_rewrite bool_decide_eq_false. naive_solver.
  - assert (Hc : tchildren t ≠ []).
    { destruct Hl as [El|Hc]; [|done]. intros Hc. by rewrite El, Hc in E. }
    rewrite matches_lit_cons. setoid_rewrite (Ht Hc). split.
    + intros (s' & -> & He & _). by exists s'.
    + intros (s' & -> & He). exists s'. split_and!; [done..|]. intros ->. by destruct He as [_ ?].
Qed.

Lemma exclusion_match t : twf t → exclusion_meaning t.
Proof.
  induction t as [leaf cs IH] using trie_ind'. intros Hwf Hne m s. inversion Hwf as [? ? Hnd Hsl Hall]; subst. cbn [tchildren] in Hne.
  rewrite exclusion_pattern_eq. cbv zeta. set (es := sort_edges (edge_pattern <$> cs)).
  assert (Hes : es ≡ₚ edge_pattern <$> cs) by apply sort_edges_perm.
  assert (Hk : ∀ b, b ∈ es.*1 ↔ b ∈ cs.*1) by (intros b; rewrite Hes; by rewrite <-list_fmap_compose).
  rewrite bool_decide_true by done. rewrite matches_brace.
  2:{ rewrite !length_app, length_fmap, (Permutation_length Hes), length_fmap. destruct cs; [done|]. simpl. lia. }
  assert (Hedge : (∃ q, q ∈ es.*2 ∧ matches q s = true) ↔ ∃ b t s', (b, t) ∈ cs ∧ s = String b s' ∧ excluded t s').
  { assert (Hq : ∀ q, q ∈ es.*2 ↔ ∃ e, q = (edge_pattern e).2 ∧ e ∈ cs).
    { intros q. rewrite Hes, <-list_fmap_compose. apply list_elem_of_fmap. }
    setoid_rewrite Hq. clear Hq. rewrite Forall_forall in IH, Hall. split.
    - intros (q & ([b t] & -> & Hin) & Hq). destruct (Hall _ Hin) as [Hlv Htw]. apply (edge_match b t) in Hq as (s' & -> & He); [|done|by apply (IH _ Hin)].
      by exists b, t, s'.
    - intros (b & t & s' & Hin & -> & He). destruct (Hall _ Hin) as [Hlv Htw]. eexists. split; [by exists (b, t)|]. apply edge_match; [done|by apply (IH _ Hin)|].
      by exists s'. }
  setoid_rewrite elem_of_app. setoid_rewrite elem_of_app. setoid_rewrite list_elem_of_singleton.
  split.
  - intros (q & [Hq|[->|Hq]] & Hm).
    + destruct (negb m && negb leaf) eqn:E; [|by apply elem_of_nil in Hq]. apply list_elem_of_singleton in Hq as ->.
      apply matches_nil in Hm as ->. apply andb_true_iff in E as [?%negb_true_iff ?%negb_true_iff]. by split_and!.
    + apply matches_not in Hm as (c & s' & -> & Hc & Hs'). rewrite dedup_bytes_elem, elem_of_app, list_elem_of_singleton, Hk in Hc.
      assert (Hcs : c ∉ cs.*1 ∧ c ≠ slash) by (split; intros ?; apply Hc; split; [tauto|apply not_elem_of_nil|tauto|apply not_elem_of_nil]).
      destruct Hcs as [Hn Hs]. split; [|done]. split; [by rewrite no_slash_cons, Hs', bool_decide_false|]. cbn [tmem tchildren].
      by rewrite (proj2 (find_key_none c cs) Hn).
    + destruct (proj1 Hedge (ex_intro _ q (conj Hq Hm))) as (b & t & s' & Hin & -> & Hs' & Ht). split; [|done]. split.
      * rewrite no_slash_cons, Hs', andb_true_r, bool_decide_false; [done|]. intros ->. by apply Hsl, (list_elem_of_fmap_2 fst _ (slash, t)).
      * cbn [tmem tchildren]. by rewrite (proj2 (find_key_spec b cs t Hnd) Hin).
  - intros [[Hs Ht] Hm]. destruct s as [|c s'].
    + exists []. split; [left|by apply matches_nil]. rewrite Hm by done. simpl in Ht. rewrite Ht. simpl. by left.
    + rewrite no_slash_cons in Hs. apply andb_true_iff in Hs as [Hc%negb_true_iff%bool_decide_eq_false Hs]. cbn [tmem tchildren] in Ht.
      destruct (find_key c cs) as [t|] eqn:Ef.
      * apply find_key_spec in Ef; [|done]. destruct (proj2 Hedge) as (q & Hq & Hqm); [by exists c, t, s'|]. exists q. split; [tauto|done].
      * apply find_key_none in Ef. exists [ANot (dedup_bytes [] (es.*1 ++ [slash])); AStar]. split; [tauto|]. apply matches_not. exists c, s'.
        split_and!; [done| |done]. rewrite dedup_bytes_elem, elem_of_app, list_elem_of_singleton, Hk. naive_solver.
Qed.

(** ** The exclusion of a list of names *)

Definition insert_names (names : list string) (t : appArmorSegmentTrieNode) : appArmorSegmentTrieNode :=
  foldl (λ t name, if bool_decide (name = "") then t else insertSegment [name] t) t names.
Definition exclusion_trie (names : list string) : appArmorSegmentTrieNode := insert_names names newAppArmorSegmentTrieNode.

(** The pattern whose text [appArmorSegmentExclusion] renders. *)
Definition segment_pattern (names : list string) : list aare := exclusion_pattern (exclusion_trie names) false.

Definition segment_names (names : list string) : Prop := Forall (λ n, n ≠ "" ∧ no_slash n = true) names.

Lemma segment_text names : appArmorSegmentExclusion names = pattern_text (segment_pattern names).
Proof. symmetry. apply exclusion_text. Qed.

Lemma insert_names_spec names t :
  segment_names names → twf t →
  twf (insert_names names t) ∧ (∀ s, tmem (insert_names names t) s = bool_decide (s ∈ names) || tmem t s) ∧
  (names ≠ [] ∨ tchildren t ≠ [] → tchildren (insert_names names t) ≠ []).
Proof.
  revert t. induction names as [|n names IH]; intros t Hn Hwf.
  { split_and!; [done|intros s; by rewrite bool_decide_false by apply not_elem_of_nil|naive_solver]. }
  inversion Hn as [|? ? [Hne Hs] Hn']; subst. cbn [insert_names foldl]. rewrite bool_decide_false by done.
  change (insertSegment [n] t) with (insert_name n t). fold (insert_names names (insert_name n t)).
  destruct (IH (insert_name n t)) as (Hw & Hm & Hc); [done|by apply insert_wf|]. split_and!; [done| |].
  - intros s. rewrite Hm, insert_mem, orb_assoc. f_equal. destruct (decide (s = n)) as [->|Hsn].
    + rewrite (bool_decide_true (n = n)), orb_true_r, bool_decide_true by (done || by left). done.
    + rewrite (bool_decide_false (s = n)), orb_false_r by done. apply bool_decide_ext. rewrite elem_of_cons. naive_solver.
  - intros _. apply Hc. right. destruct n as [|b n]; [done|]. destruct t as [leaf cs]. apply update_key_ne.
Qed.

(** The exclusion of a nonempty list of segments matches exactly the slash-free texts outside the list. *)
Lemma segment_match names s :
  names ≠ [] → segment_names names → matches (segment_pattern names) s = true ↔ no_slash s = true ∧ s ∉ names.
Proof.
  intros Hne Hn. destruct (insert_names_spec names newAppArmorSegmentTrieNode Hn) as (Hwf & Hm & Hc).
  { constructor; [constructor|apply not_elem_of_nil|constructor]. }
  unfold segment_pattern. rewrite (exclusion_match _ Hwf (Hc (or_introl Hne))). unfold excluded, exclusion_trie. rewrite Hm.
  assert (tmem newAppArmorSegmentTrieNode s = false) as -> by (by destruct s). rewrite orb_false_r, bool_decide_eq_false. naive_solver.
Qed.

(** ** reading the text of an AppArmor path pattern

    The patterns whose text apparmor_parser accepts with their meaning, a
    reader of that text, and the round trip.  The segment exclusion is such a
    pattern: its alternations have two items or more. *)

(** ** Accepted patterns *)

Definition is_star (a : aare) : bool := match a with AStar | ADStar => true | _ => false end.

(** A run of stars next to another run, or right after a slash, has another meaning. *)
Definition repels_star (a : aare) : bool := match a with ALit c => bool_decide (c = slash) | _ => is_star a end.
Definition head_star (p : list aare) : bool := match p with a :: _ => is_star a | [] => false end.

Fixpoint no_double_star (p : list aare) : bool :=
  match p with
  | a :: q => negb (repels_star a && head_star q) && no_double_star q
  | [] => true
  end.

Fixpoint wf_aare (a : aare) : bool :=
  match a with
  | ANot l => bool_decide (l ≠ [])
  | AAlt l => (2 <=? Z.of_nat (length l)) && forallb (λ p, no_double_star p && forallb wf_aare p) l
  | _ => true
  end.
Definition wf_pattern (p : list aare) : bool := no_double_star p && forallb wf_aare p.

(** ** The reader *)

Definition hex_value (c : ascii) : option N :=
  let n := N_of_ascii c in
  if ((48 <=? n) && (n <=? 57))%N then Some (n - 48)%N else if ((97 <=? n) && (n <=? 102))%N then Some (n - 87)%N else None.

(** One byte of a pattern or of a class. *)
Definition read_byte (safe : ascii → bool) (s : string) : option (ascii * string) :=
  match s with
  | String "\" (String "x" (String a (String b s))) =>
      h ← hex_value a; l ← hex_value b; Some (ascii_of_N (16 * h + l), s)
  | String c s => if safe c then Some (c, s) else None
  | "" => None
  end.

(** The bytes of a class, up to its closing bracket. *)
Fixpoint read_class (n : nat) (s : string) : option (list ascii * string) :=
  match n, s with
  | S n, String "]" s => Some ([], s)
  | S n, _ => '(c, s) ← read_byte appArmorClassSafeByte s; '(l, s) ← read_class n s; Some (c :: l, s)
  | O, _ => None
  end.

(** A sequence of items up to the end of the text, a comma or a closing brace;
    the items of an alternation, two or more, up to its closing brace. *)
Fixpoint read_seq (n : nat) (s : string) : option (list aare * string) :=
  match n with
  | O => None
  | S n =>
      let item a s := '(p, s) ← read_seq n s; Some (a :: p, s) in
      match s with
      | "" => Some ([], s)
      | String "," _ | String "}" _ => Some ([], s)
      | String "*" (String "*" s) => item ADStar s
      | String "*" s => item AStar s
      | String "?" s => item AAny s
      | String "[" (String "^" s) =>
          '(l, s) ← read_class n s; if bool_decide (l = []) then None else item (ANot l) s
      | String "{" s => '(l, s) ← read_alts n s; if 2 <=? Z.of_nat (length l) then item (AAlt l) s else None
      | _ => '(c, s) ← read_byte literal_safe s; item (ALit c) s
      end
  end
with read_alts (n : nat) (s : string) : option (list (list aare) * string) :=
  match n with
  | O => None
  | S n =>
      '(p, s) ← read_seq n s;
      match s with
      | String "," s => '(l, s) ← read_alts n s; Some (p :: l, s)
      | String "}" s => Some ([p], s)
      | _ => None
      end
  end.

Definition read_pattern (s : string) : option (list aare) :=
  match read_seq (S (2 * String.length s)) s with
  | Some (p, "") => Some p
  | _ => None
  end.

(** The names a pattern text matches. *)
Definition text_matches (text name : string) : bool :=
  match read_pattern text with Some p => matches p name | None => false end.

(** ** The round trip *)

Lemma read_escape safe b s : read_byte safe (hex_escape b +:+ s) = Some (b, s).
Proof. destruct b as [[] [] [] [] [] [] [] []]; reflexivity. Qed.

Lemma read_literal b s : read_byte literal_safe (appArmorLiteralByte b +:+ s) = Some (b, s).
Proof.
  unfold appArmorLiteralByte. destruct (literal_safe b) eqn:E; [|apply read_escape].
  destruct b as [[] [] [] [] [] [] [] []]; try discriminate E; reflexivity.
Qed.

Lemma read_class_byte b s : read_byte appArmorClassSafeByte (appArmorClassByte b +:+ s) = Some (b, s).
Proof.
  unfold appArmorClassByte. destruct (appArmorClassSafeByte b) eqn:E; [|apply read_escape].
  destruct b as [[] [] [] [] [] [] [] []]; try discriminate E; reflexivity.
Qed.

Lemma class_byte_head b s : ∃ c r, appArmorClassByte b +:+ s = String c r ∧ c ≠ "]"%char.
Proof.
  unfold appArmorClassByte. destruct (appArmorClassSafeByte b) eqn:E; [|by eexists "\"%char, _].
  exists b, s. split; [done|]. by intros ->.
Qed.

Lemma class_byte_length b : (1 ≤ String.length (appArmorClassByte b))%nat.
Proof. unfold appArmorClassByte. destruct (appArmorClassSafeByte b); simpl; lia. Qed.

Lemma read_class_text l n s :
  (String.length (str_concat (appArmorClassByte <$> l)) < n)%nat →
  read_class n (str_concat (appArmorClassByte <$> l) +:+ String "]" s) = Some (l, s).
Proof.
  revert n. induction l as [|b l IH]; intros n Hn; (destruct n as [|n]; [simpl in Hn; lia|]); [done|].
  rewrite fmap_cons in *. cbn [str_concat] in *. rewrite str_length_app in Hn. pose proof (class_byte_length b). rewrite str_app_assoc.
  destruct (class_byte_head b (str_concat (appArmorClassByte <$> l) +:+ String "]" s)) as (c & r & E & Hc).
  assert (Hr : read_class (S n) (String c r) = '(c, s) ← read_byte appArmorClassSafeByte (String c r); '(l, s) ← read_class n s; Some (c :: l, s)).
  { destruct c as [[] [] [] [] [] [] [] []]; try reflexivity. by destruct Hc. }
  rewrite E, Hr, <-E, read_class_byte. simpl. rewrite IH by lia. done.
Qed.

Definition stops (s : string) : bool := match s with "" => true | String c _ => bool_decide (c = ","%char ∨ c = "}"%char) end.
Definition star_head (s : string) : bool := match s with String "*" _ => true | _ => false end.

Lemma literal_head b s : ∃ c r, appArmorLiteralByte b +:+ s = String c r ∧ (c = "\"%char ∨ literal_safe c = true).
Proof.
  unfold appArmorLiteralByte. destruct (literal_safe b) eqn:E; [|eexists "\"%char, _; by split; [|left]].
  exists b, s. split; [done|by right].
Qed.

Lemma literal_length b : (1 ≤ String.length (appArmorLiteralByte b))%nat.
Proof. unfold appArmorLiteralByte. destruct (literal_safe b); simpl; lia. Qed.

Lemma text_cons a p s : pattern_text (a :: p) +:+ s = aare_text a +:+ (pattern_text p +:+ s).
Proof. unfold pattern_text. rewrite fmap_cons. cbn [str_concat]. by rewrite str_app_assoc. Qed.

Lemma item_star_head a s : is_star a = false → star_head (aare_text a +:+ s) = false.
Proof.
  destruct a as [c|l| | | |l]; try done. intros _. cbn [aare_text]. destruct (literal_head c s) as (d & r & -> & Hd).
  destruct d as [[] [] [] [] [] [] [] []]; try reflexivity. by destruct Hd.
Qed.

Lemma text_star_head a p s :
  no_double_star (a :: p) = true → is_star a = true → stops s = true → star_head (pattern_text p +:+ s) = false.
Proof.
  intros Hd Ha Hs. destruct p as [|b p].
  - destruct s as [|c s]; [done|]. simpl in *. apply bool_decide_eq_true in Hs. by destruct Hs as [-> | ->].
  - simpl in Hd. assert (repels_star a = true) as Hr by (by destruct a). rewrite Hr in Hd. simpl in Hd.
    rewrite text_cons. apply item_star_head. by destruct (is_star b).
Qed.

Lemma no_double_star_tail a p : no_double_star (a :: p) = true → no_double_star p = true.
Proof. simpl. by intros [_ ?]%andb_true_iff. Qed.

Lemma read_seq_literal n b s :
  read_seq (S n) (appArmorLiteralByte b +:+ s) = '(p, s) ← read_seq n s; Some (ALit b :: p, s).
Proof.
  destruct (literal_head b s) as (c & r & E & Hc).
  assert (Hr : read_seq (S n) (String c r) =
    '(c, s) ← read_byte literal_safe (String c r); '(p, s) ← read_seq n s; Some (ALit c :: p, s)).
  { destruct c as [[] [] [] [] [] [] [] []]; try reflexivity; by destruct Hc. }
  by rewrite E, Hr, <-E, read_literal.
Qed.

Lemma read_seq_star n s :
  star_head s = false → read_seq (S n) (String "*" s) = '(p, s) ← read_seq n s; Some (AStar :: p, s).
Proof. destruct s as [|c s]; [done|]. destruct c as [[] [] [] [] [] [] [] []]; try done. Qed.

Lemma read_seq_stop n s : stops s = true → read_seq (S n) s = Some ([], s).
Proof. destruct s as [|c s]; [done|]. simpl. intros [-> | ->]%bool_decide_eq_true; reflexivity. Qed.

Definition alts_text (l : list (list aare)) : string := str_join "," (pattern_text <$> l).

Lemma alts_text_cons p l s :
  alts_text (p :: l) +:+ String "}" s =
  pattern_text p +:+ match l with [] => String "}" s | _ => String "," (alts_text l +:+ String "}" s) end.
Proof.
  unfold alts_text. destruct l as [|q l]; [done|]. rewrite !fmap_cons. cbn [str_join].
  by rewrite !str_app_assoc.
Qed.

Lemma read_text n :
  (∀ p s, wf_pattern p = true → stops s = true → (2 * String.length (pattern_text p +:+ s) < n)%nat →
    read_seq n (pattern_text p +:+ s) = Some (p, s)) ∧
  (∀ l s, l ≠ [] → forallb wf_pattern l = true → (2 * String.length (alts_text l +:+ String "}" s) + 1 < n)%nat →
    read_alts n (alts_text l +:+ String "}" s) = Some (l, s)).
Proof.
  induction n as [|n [IHs IHa]]; [split; intros; lia|]. split.
  - intros [|a p] s Hwf Hs Hn; [by apply read_seq_stop|]. unfold wf_pattern in Hwf. apply andb_true_iff in Hwf as [Hd Hf].
    simpl in Hf. apply andb_true_iff in Hf as [Ha Hf]. rewrite text_cons in *.
    assert (Hp : wf_pattern p = true) by (unfold wf_pattern; by rewrite (no_double_star_tail _ _ Hd), Hf).
    rewrite str_length_app in Hn.
    assert (IHp : (1 ≤ String.length (aare_text a))%nat → read_seq n (pattern_text p +:+ s) = Some (p, s)) by (intros; apply IHs; [done..|lia]).
    destruct a as [c|l| | | |l].
    + cbn [aare_text] in *. rewrite read_seq_literal, IHp; [done|]. apply literal_length.
    + cbn [aare_text] in *. rewrite !str_app_assoc. cbn [read_seq String.app].
      rewrite !str_length_app in Hn. simpl in Hn. rewrite ?str_length_app in Hn. simpl in Hn.
      change ("]" +:+ ?x) with (String "]" x). rewrite read_class_text by lia. simpl. simpl in Ha. apply bool_decide_eq_true in Ha.
      rewrite bool_decide_false by done. rewrite IHs; [done..|rewrite str_length_app; lia].
    + cbn [aare_text String.app read_seq]. rewrite IHp; [done|simpl; lia].
    + change (aare_text AStar +:+ ?x) with (String "*" x). rewrite read_seq_star by (by apply text_star_head with AStar).
      rewrite IHp; [done|simpl; lia].
    + cbn [aare_text String.app read_seq]. rewrite IHp; [done|simpl; lia].
    + rewrite alt_text in *. fold (alts_text l) in *. rewrite !str_length_app in Hn. simpl in Hn. rewrite ?str_length_app in Hn. simpl in Hn. rewrite !str_app_assoc.
      change ("}" +:+ ?x) with (String "}" x). change ("{" +:+ ?x) with (String "{" x). cbn [read_seq].
      cbn [wf_aare] in Ha. apply andb_true_iff in Ha as [Hlen Hl].
      rewrite IHa; [|by intros ->|exact Hl|rewrite !str_length_app; simpl; rewrite !str_length_app; lia].
      simpl. rewrite Hlen, IHs; [done..|]. rewrite str_length_app. lia.
  - intros [|p l] s Hne Hf Hn; [done|]. simpl in Hf. apply andb_true_iff in Hf as [Hp Hf]. rewrite alts_text_cons in *. cbn [read_alts].
    rewrite IHs; [|done|by destruct l|lia]. destruct l as [|q l]; [done|]. cbn [mbind option_bind].
    rewrite str_length_app in Hn. simpl in Hn. rewrite IHa; [done..|]. lia.
Qed.

(** A well-formed pattern is read back from its text. *)
Theorem read_pattern_text p : wf_pattern p = true → read_pattern (pattern_text p) = Some p.
Proof.
  intros Hp. unfold read_pattern. pose proof (proj1 (read_text (S (2 * String.length (pattern_text p)))) p "" Hp eq_refl) as H.
  rewrite str_app_nil_r in H. rewrite H by lia. done.
Qed.

Lemma text_matches_spec p name : wf_pattern p = true → text_matches (pattern_text p) name = matches p name.
Proof. intros Hp. unfold text_matches. by rewrite read_pattern_text. Qed.

(** ** The exclusion is well-formed *)

Lemma wf_cons a p : wf_aare a = true → wf_pattern p = true → head_star p = false → wf_pattern (a :: p) = true.
Proof. unfold wf_pattern. intros Ha [Hd Hf]%andb_true_iff Hs. simpl. by rewrite Ha, Hf, Hs, Hd, andb_false_r. Qed.

Lemma wf_lit c p : wf_pattern p = true → head_star p = false → wf_pattern (ALit c :: p) = true.
Proof. intros Hp. by apply wf_cons. Qed.

Lemma wf_lits w p : wf_pattern p = true → head_star p = false → wf_pattern (lits w ++ p) = true.
Proof. intros Hp Hs. induction w as [|c w IH]; [done|]. apply wf_lit; [done|]. by destruct w. Qed.

Lemma brace_alt alts : (2 ≤ length alts)%nat → brace_patterns alts = [AAlt alts].
Proof. destruct alts as [|a [|b alts]]; simpl; [lia..|done]. Qed.

Lemma exclusion_wf t : tchildren t ≠ [] → twf t → ∀ m, wf_pattern (exclusion_pattern t m) = true ∧ ∃ l, exclusion_pattern t m = [AAlt l].
Proof.
  induction t as [leaf cs IH] using trie_ind'. intros Hne Hwf m. inversion Hwf as [? ? Hnd Hsl Hall]; subst. cbn [tchildren] in Hne.
  rewrite exclusion_pattern_eq. cbv zeta. set (es := sort_edges (edge_pattern <$> cs)).
  assert (Hes : es ≡ₚ edge_pattern <$> cs) by apply sort_edges_perm.
  rewrite bool_decide_true by done. set (alts := _ ++ _).
  assert (Hlen : (2 ≤ length alts)%nat).
  { subst alts. rewrite !length_app, length_fmap, (Permutation_length Hes), length_fmap. destruct cs; [done|]. simpl. lia. }
  rewrite brace_alt by done. split; [|by exists alts].
  assert (Hf : forallb wf_pattern alts = true).
  { apply forallb_forall. intros q Hq%list_elem_of_In. subst alts. rewrite !elem_of_app, list_elem_of_singleton in Hq. destruct Hq as [Hq|[->|Hq]].
    - destruct (negb m && _); [|by apply elem_of_nil in Hq]. by apply list_elem_of_singleton in Hq as ->.
    - unfold wf_pattern. simpl. rewrite !andb_true_r. apply bool_decide_eq_true. intros Hn.
      assert (Hin : slash ∈ dedup_bytes [] (es.*1 ++ [slash])); [|by rewrite Hn in Hin; apply elem_of_nil in Hin].
      apply dedup_bytes_elem. split; [|apply not_elem_of_nil]. apply elem_of_app. right. by left.
    - rewrite Hes, <-list_fmap_compose in Hq. apply list_elem_of_fmap in Hq as ([b t] & -> & Hin). rewrite Forall_forall in IH, Hall.
      destruct (Hall _ Hin) as [Hlv Htw]. simpl. destruct (tleaf t && _) eqn:E; [by apply wf_lit|].
      assert (Hc : tchildren t ≠ []) by (destruct Hlv as [El|Hc]; [|done]; simpl in *; intros Hc; by rewrite El, Hc in E).
      destruct (IH _ Hin Hc Htw (tleaf t)) as [Hp [l El]]. cbn [snd] in *. rewrite El in *. by apply wf_lit. }
  unfold wf_pattern. cbn [no_double_star forallb wf_aare repels_star is_star head_star andb negb]. change (λ p, no_double_star p && forallb wf_aare p) with wf_pattern.
  rewrite Hf, !andb_true_r. simpl. apply Z.leb_le. lia.
Qed.

Lemma segment_wf names :
  names ≠ [] → segment_names names → wf_pattern (segment_pattern names) = true ∧ ∃ l, segment_pattern names = [AAlt l].
Proof.
  intros Hne Hn. destruct (insert_names_spec names newAppArmorSegmentTrieNode Hn) as (Hwf & _ & Hc).
  { constructor; [constructor|apply not_elem_of_nil|constructor]. }
  apply exclusion_wf; [|done]. apply Hc. by left.
Qed.
