(* ===== verification/WorkloadAppArmor.v ===== *)
(** * WorkloadAppArmor: the generated workload profile (src/workload_apparmor.go)

    The projection of the exposure plan, the trie of read-write holes below a
    read-only target, the walk that emits the deny rules, and the text of the
    profile. *)
From S2P Require Import Prelude Filepath AllowedRoots GoStrings Sha256 DockerMount Aare.
Local Open Scope Z_scope.

(** ** Identity *)

Definition appArmorWorkloadProfilePrefix : string := "docker-helper-workload-".
Definition workloadAppArmorProfileName (operationID : string) : string := appArmorWorkloadProfilePrefix +:+ operationID.
Definition appArmorWorkloadProfileFileName : string := "profile".

(** ** The projection of the accepted plan *)

Record appArmorROTarget := mkROTarget { rot_Target : string; rot_RegularFile : bool }.
Record workloadAppArmorTargetPlan := mkTargetPlan { plan_RO : list appArmorROTarget; plan_RW : list string }.

Section projection.
(** [os.Lstat] of a pinned source: [None] is an error, else whether it is a directory. *)
Context (lstat : string → option bool).

Fixpoint project (exposures : list sessionFilesystemExposure) (pins : list string) (plan : workloadAppArmorTargetPlan)
    : option workloadAppArmorTargetPlan :=
  match exposures, pins with
  | e :: exposures, pin :: pins =>
      if negb (RequestedReadOnly e) then
        project exposures pins
          (if bool_decide (Target e = "") then plan else mkTargetPlan (plan_RO plan) (plan_RW plan ++ [Target e]))
      else isDir ← lstat pin; project exposures pins (mkTargetPlan (plan_RO plan ++ [mkROTarget (Target e) (negb isDir)]) (plan_RW plan))
  | _, _ => Some plan
  end.

Definition workloadAppArmorTargetPlanFromExposures (exposures : list sessionFilesystemExposure) (pinnedSources : list string)
    : option workloadAppArmorTargetPlan :=
  if bool_decide (length exposures ≠ length pinnedSources) then None else project exposures pinnedSources (mkTargetPlan [] []).
End projection.

(** ** The holes below a read-only target *)

Inductive appArmorHoleNode := HNode (leaf : bool) (children : list (string * appArmorHoleNode)).
Definition hleaf (t : appArmorHoleNode) : bool := let 'HNode leaf _ := t in leaf.
Definition hchildren (t : appArmorHoleNode) : list (string * appArmorHoleNode) := let 'HNode _ cs := t in cs.
Definition newHoleNode : appArmorHoleNode := HNode false [].

Definition appArmorRelativeSegments (root target : string) : option (list string) :=
  rel ← CutPrefix target (root +:+ "/");
  if bool_decide (rel = "") then None else Some (split_sep rel).

(** The order of the sort: byte order, segment by segment. *)
Fixpoint hole_less (a b : list string) : bool :=
  match a, b with
  | x :: a, y :: b => if bool_decide (x ≠ y) then str_ltb x y else hole_less a b
  | _ :: _, [] => false
  | [], b => bool_decide (b ≠ [])
  end.
Definition hole_le (a b : list string) : Prop := hole_less b a = false.
#[export] Instance hole_le_dec : RelDecision hole_le.
Proof. intros a b. unfold hole_le. apply _. Defined.

Fixpoint appArmorHoleContains (a b : list string) : bool :=
  match a, b with
  | _, [] => false
  | [], _ :: _ => true
  | x :: a, y :: b => bool_decide (x = y) && appArmorHoleContains a b
  end.

Fixpoint insert_hole (hole : list string) (t : appArmorHoleNode) : appArmorHoleNode :=
  match hole with
  | [] => HNode true (hchildren t)
  | seg :: hole => HNode (hleaf t) (update_key newHoleNode seg (insert_hole hole) (hchildren t))
  end.

(** The sorted holes, but one right after a hole that contains it is skipped. *)
Fixpoint insert_holes (prev : option (list string)) (holes : list (list string)) (t : appArmorHoleNode) : appArmorHoleNode :=
  match holes with
  | [] => t
  | hole :: holes =>
      insert_holes (Some hole) holes
        (if match prev with Some p => appArmorHoleContains p hole | None => false end then t else insert_hole hole t)
  end.

Definition appArmorHoleTrie (root : string) (rwTargets : list string) : option appArmorHoleNode :=
  let holes := omap (appArmorRelativeSegments root) rwTargets in
  if bool_decide (holes = []) then None else Some (insert_holes None (merge_sort hole_le holes) newHoleNode).

(** ** The rules *)

Definition deny_rule (pattern : string) : string := "audit deny " +:+ String quote (pattern +:+ String quote " wkl,").

Definition sortedHoleChildNames {A} (children : list (string * A)) : list (string * A) := sort_keyed str_leb children.

(** The patterns of one node and of the nodes below it, in the order they are emitted. *)
Fixpoint hole_walk (is_root : bool) (node : appArmorHoleNode) (base : string) : list string :=
  let 'HNode leaf children := node in
  if negb is_root && leaf then []
  else
    let below := sortedHoleChildNames
      (map (λ e : string * appArmorHoleNode, let '(name, child) := e in (name, hole_walk false child (base +:+ "/" +:+ appArmorPathLiteral name))) children) in
    let excl := appArmorSegmentExclusion below.*1 in
    (base +:+ "/{,}") ::
    (if bool_decide (children ≠ []) then [base +:+ "/" +:+ excl; base +:+ "/" +:+ excl +:+ "/{,**}"] else []) ++ concat below.*2.

Definition target_patterns (plan : workloadAppArmorTargetPlan) (target : appArmorROTarget) : list string :=
  let lit := appArmorPathLiteral (rot_Target target) in
  if rot_RegularFile target then [lit]
  else match appArmorHoleTrie (rot_Target target) (plan_RW plan) with
       | None => [lit +:+ "/{,**}"]
       | Some holeRoot => hole_walk true holeRoot lit
       end.

(** The text written so far and the rules rendered so far. *)
Record emitter := mkEmitter { em_sb : string; em_emitted : list string }.
Definition appArmorEmit (e : emitter) (rule : string) : emitter :=
  if bool_decide (rule ∈ em_emitted e) then e
  else mkEmitter (em_sb e +:+ String LF "  " +:+ rule +:+ String LF "") (rule :: em_emitted e).
Definition appArmorEmitHoleWalk (e : emitter) (rules : list string) : emitter := foldl appArmorEmit e rules.

(** ** The profile *)

Definition quoted (s : string) : string := String quote (s +:+ String quote "").

Definition profile_lines (profileName : string) (abi30 : bool) : list string :=
  ["# Generated by docker-helper. Do not edit."; "# Helper-owned workload profile; correlated with one run operation."] ++
  (if abi30 then ["abi <abi/3.0>,"] else []) ++
  ["#include <tunables/global>"; "";
   "profile " +:+ quoted profileName +:+ " flags=(attach_disconnected,mediate_deleted) {";
   "  #include <abstractions/base>"; "";
   "  network,"; "  deny network alg,"; "  deny network vsock,"; "  capability,"; "  file,"; "  umount,";
   "  signal (receive) peer=unconfined,"; "  signal (receive) peer=runc,"; "  signal (receive) peer=crun,";
   "  signal (send,receive) peer=" +:+ quoted profileName +:+ ","; "";
   "  deny @{PROC}/* w,";
   "  deny @{PROC}/{[^1-9/],[^1-9/][^0-9/],[^1-9s/][^0-9y/][^0-9s/],[^1-9/][^0-9/][^0-9/][^0-9/]*}/** w,";
   "  deny @{PROC}/sys/[^k]** w,";
   "  deny @{PROC}/sys/kernel/{?,??,[^s][^h][^m]**} w,";
   "  deny @{PROC}/sysrq-trigger rwklx,"; "  deny @{PROC}/kcore rwklx,"; "  deny mount,";
   "  deny /sys/[^f]*/** wklx,"; "  deny /sys/f[^s]*/** wklx,"; "  deny /sys/fs/[^c]*/** wklx,"; "  deny /sys/fs/c[^g]*/** wklx,";
   "  deny /sys/firmware/** rwklx,"; "  deny /sys/devices/virtual/powercap/** rwklx,"; "  deny /sys/kernel/security/** rwklx,";
   "  ptrace (trace,tracedby,read,readby) peer=" +:+ quoted profileName +:+ ","].

Definition lines (l : list string) : string := str_concat ((λ w, w +:+ String LF "") <$> l).

Definition renderWorkloadAppArmorProfile (profileName : string) (plan : workloadAppArmorTargetPlan) (abi30 : bool) : string :=
  let emitted := foldl (λ e target, appArmorEmitHoleWalk e (deny_rule <$> target_patterns plan target))
                       (mkEmitter (lines (profile_lines profileName abi30)) []) (plan_RO plan) in
  em_sb emitted +:+ String "}" (String LF "").
