(* ===== verification/WorkloadAppArmorTheory.v ===== *)
(** * WorkloadAppArmorTheory: the deny rules of one read-only target

    The trie of holes as a set of paths, the patterns whose text the walk
    emits, and what they match. *)
From S2P Require Import Prelude Filepath AllowedRoots GoStrings Sha256 DockerMount Aare AareTheory WorkloadAppArmor.
Local Open Scope Z_scope.

(** ** Names of the mediated files *)

Definition segment (w : string) : Prop := w ≠ "" ∧ no_slash w = true.

Definition path_text (l : list string) : string := str_concat ((λ w, String slash w) <$> l).

(** The name under which an access to the path is mediated: a directory carries a trailing slash. *)
Definition mediated (l : list string) (dir : bool) : string := path_text l +:+ (if dir then "/" else "").

Lemma path_text_app l k : path_text (l ++ k) = path_text l +:+ path_text k.
Proof. unfold path_text. by rewrite fmap_app, str_concat_app. Qed.

Lemma mediated_app l k dir : mediated (l ++ k) dir = path_text l +:+ mediated k dir.
Proof. unfold mediated. by rewrite path_text_app, str_app_assoc. Qed.

Lemma mediated_cons w k dir : mediated (w :: k) dir = String slash (w +:+ mediated k dir).
Proof. change (w :: k) with ([w] ++ k). rewrite mediated_app. cbn. by rewrite str_app_nil_r. Qed.

Lemma render_text l : l ≠ [] → render l = path_text l.
Proof.
  intros Hne. unfold render, path_text. revert Hne. induction l as [|w l IH]; intros Hne; [done|]. rewrite fmap_cons. cbn [str_concat].
  destruct l as [|x l]; [simpl; by rewrite str_app_nil_r|]. rewrite <-IH by done. done.
Qed.

(** A text that starts with a slash or is empty. *)
Definition slashed (s : string) : bool := match s with "" => true | String c _ => bool_decide (c = slash) end.

Lemma mediated_slashed l dir : slashed (mediated l dir) = true.
Proof. destruct l as [|w l]; [by destruct dir|]. by rewrite mediated_cons. Qed.

Lemma no_slash_split a b s t :
  no_slash a = true → no_slash b = true → slashed s = true → slashed t = true → a +:+ s = b +:+ t → a = b ∧ s = t.
Proof.
  revert b. induction a as [|c a IH]; intros [|d b] Ha Hb Hs Ht E; simpl in E.
  - done.
  - subst s. simpl in Hs. rewrite no_slash_cons in Hb. by rewrite Hs in Hb.
  - subst t. simpl in Ht. rewrite no_slash_cons in Ha. by rewrite Ht in Ha.
  - rewrite no_slash_cons in Ha, Hb. apply andb_true_iff in Ha as [_ Ha], Hb as [_ Hb]. injection E as -> E.
    by destruct (IH b Ha Hb Hs Ht E) as [-> ->].
Qed.

(** The part of a mediated name below a directory. *)
Lemma mediated_below ls l dir s :
  Forall segment ls → Forall segment l →
  mediated l dir = path_text ls +:+ String slash s ↔ ∃ r, l = ls ++ r ∧ String slash s = mediated r dir.
Proof.
  intros Hls. revert l. induction Hls as [|w ls [Hw Hws] Hls IH]; intros l Hl.
  - split; [intros E; by exists l|]. by intros (r & -> & ->).
  - split; [|intros (r & -> & E); by rewrite mediated_app, E]. unfold path_text. rewrite fmap_cons. cbn [str_concat].
    fold (path_text ls). rewrite str_app_assoc. destruct Hl as [|x l [Hx Hxs] Hl].
    + destruct dir; [|done]. intros [= E]. destruct w; done.
    + rewrite mediated_cons. cbn [String.app]. intros [= E].
      apply no_slash_split in E as [-> E]; [|done..|apply mediated_slashed|by destruct Hls]. apply IH in E as (r & -> & E); [|done].
      by exists r.
Qed.

(** ** The set of paths of a trie *)

Fixpoint hpath (t : appArmorHoleNode) (k : list string) : bool :=
  match k with
  | [] => hleaf t
  | n :: k => match find_key n (hchildren t) with Some t => hpath t k | None => false end
  end.

(** Whether the walk denies a name, and whether a hole covers it. *)
Fixpoint walk_denies (t : appArmorHoleNode) (r : list string) (dir : bool) : bool :=
  match r with
  | [] => dir
  | n :: r => match find_key n (hchildren t) with Some t => negb (hleaf t) && walk_denies t r dir | None => true end
  end.
Fixpoint covered (t : appArmorHoleNode) (r : list string) : bool :=
  match r with
  | [] => false
  | n :: r => match find_key n (hchildren t) with Some t => hleaf t || covered t r | None => false end
  end.

Definition hlive (t : appArmorHoleNode) : Prop := hleaf t = true ∨ hchildren t ≠ [].
Inductive hwf : appArmorHoleNode → Prop :=
  | HWF leaf cs : NoDup cs.*1 → Forall segment cs.*1 → Forall (λ e, hlive e.2 ∧ hwf e.2) cs → hwf (HNode leaf cs).

Lemma hole_ind' (P : appArmorHoleNode → Prop) :
  (∀ leaf cs, Forall (λ e, P e.2) cs → P (HNode leaf cs)) → ∀ t, P t.
Proof.
  intros H. fix IH 1. intros [leaf cs]. apply H. revert cs. fix IHcs 1. intros [|[n t] cs]; [constructor|]. constructor; [apply IH|apply IHcs].
Qed.


Lemma insert_hole_live k t : hlive (insert_hole k t).
Proof. destruct k as [|n k]; [by left|right]. apply update_key_ne. Qed.

Lemma newHoleNode_wf : hwf newHoleNode.
Proof. constructor; constructor. Qed.

Lemma insert_hole_wf k t : Forall segment k → hwf t → hwf (insert_hole k t).
Proof.
  intros Hk. revert t. induction Hk as [|n k Hn Hk IH]; intros t; inversion 1 as [leaf cs Hnd Hs Hall]; subst; simpl; [by constructor|]. constructor.
  - by apply update_key_nodup.
  - apply Forall_forall. intros m [->|Hm]%update_key_elem; [done|]. by apply (proj1 (Forall_forall _ _) Hs).
  - apply (update_key_forall (λ t, hlive t ∧ hwf t)); [exact Hall|]. intros u Hu. split; [apply insert_hole_live|]. apply IH.
    destruct Hu as [->|[_ Hu]]; [apply newHoleNode_wf|done].
Qed.

Lemma insert_hole_path h t k : hpath (insert_hole h t) k = bool_decide (k = h) || hpath t k.
Proof.
  revert t k. induction h as [|n h IH]; intros [leaf cs] k; [by destruct k|].
  destruct k as [|m k]; [done|]. cbn [insert_hole hpath hchildren].
  rewrite find_update_key. destruct (decide (n = m)) as [->|Hnm].
  - rewrite bool_decide_true by done. rewrite IH.
    rewrite (bool_decide_ext (m :: k = m :: h) (k = h)) by naive_solver. f_equal.
    destruct (find_key m cs); [done|]. by destruct k.
  - rewrite bool_decide_false by done. rewrite (bool_decide_false (m :: k = n :: h)) by naive_solver. done.
Qed.

Lemma covered_spec t r : covered t r = true ↔ ∃ h, h ≠ [] ∧ h `prefix_of` r ∧ hpath t h = true.
Proof.
  revert t. induction r as [|n r IH]; intros t.
  - split; [done|]. intros (h & Hh & Hp%prefix_nil_inv & _). done.
  - cbn [covered]. destruct (find_key n (hchildren t)) as [u|] eqn:E.
    + rewrite orb_true_iff, IH. split.
      * intros [Hl|(h & Hh & Hp & Hu)]; [exists [n]|exists (n :: h)]; cbn [hpath]; rewrite ?E; split_and!; try done.
        -- apply prefix_cons, prefix_nil.
        -- by apply prefix_cons.
      * intros ([|m h] & Hne & Hp & Hh); [done|]. pose proof (prefix_cons_inv_1 _ _ _ _ Hp) as ->. apply prefix_cons_inv_2 in Hp.
        cbn [hpath] in Hh. rewrite E in Hh. destruct h as [|x h]; [by left|]. right. by exists (x :: h).
    + split; [done|]. intros ([|m h] & Hne & Hp & Hh); [done|]. pose proof (prefix_cons_inv_1 _ _ _ _ Hp) as ->.
      cbn [hpath] in Hh. by rewrite E in Hh.
Qed.

(** A live node has a hole at it or below it. *)
Lemma live_path t : hwf t → hchildren t ≠ [] → ∃ h, h ≠ [] ∧ hpath t h = true.
Proof.
  induction t as [leaf cs IH] using hole_ind'. intros Hwf Hne. inversion Hwf as [? ? Hnd Hs Hall]; subst. cbn [hchildren] in Hne.
  destruct cs as [|[n u] cs]; [done|]. inversion IH as [|? ? Hu _]; subst. inversion Hall as [|? ? [Hl Hw] _]; subst. cbn [snd] in *.
  assert (∃ h, hpath u h = true) as (h & Hh).
  { destruct Hl as [Hl|Hc]; [by exists []|]. destruct (Hu Hw Hc) as (h & _ & Hh). by exists h. }
  exists (n :: h). split; [done|]. cbn [hpath hchildren find_key]. by rewrite bool_decide_true.
Qed.

(** Where the entries with a hole below them are directories, the walk denies what no hole covers. *)
Lemma walk_denies_spec t r dir :
  hwf t → hchildren t ≠ [] → (∀ h, h ≠ [] → hpath t (r ++ h) = true → dir = true) →
  walk_denies t r dir = negb (covered t r).
Proof.
  revert t. induction r as [|n r IH]; intros t Hwf Hne Hdir.
  - destruct (live_path t Hwf Hne) as (h & Hh & Hp). by apply (Hdir h).
  - cbn [walk_denies covered]. destruct (find_key n (hchildren t)) as [u|] eqn:E; [|done]. inversion Hwf as [leaf cs Hnd Hs Hall]; subst.
    cbn [hchildren] in E. pose proof E as Hin. apply find_key_spec in Hin; [|done]. destruct (proj1 (Forall_forall _ _) Hall _ Hin) as [Hl Hw]. cbn [snd] in *.
    destruct (hleaf u) eqn:El; [done|]. simpl. apply IH; [done|by destruct Hl; congruence|].
    intros h Hh Hp. apply (Hdir h Hh). cbn [app hpath hchildren]. by rewrite E.
Qed.

(** The inserted holes are sorted paths of the list; each path of the list has an inserted prefix. *)
Definition holes_in (t : appArmorHoleNode) (P : list (list string)) : Prop :=
  (∀ k, hpath t k = true → k ∈ P) ∧ (∀ k, k ∈ P → ∃ h, h `prefix_of` k ∧ hpath t h = true).

Lemma holes_contains_prefix a b : appArmorHoleContains a b = true → a `prefix_of` b.
Proof.
  revert b. induction a as [|x a IH]; intros [|y b]; simpl; try done; [intros _; apply prefix_nil|].
  intros [->%bool_decide_eq_true H]%andb_true_iff. by apply prefix_cons, IH.
Qed.

Lemma insert_holes_spec prev holes P t :
  Forall (λ h, h ≠ [] ∧ Forall segment h) holes → (∀ p, prev = Some p → p ∈ P) → hwf t → holes_in t P →
  let t' := insert_holes prev holes t in hwf t' ∧ holes_in t' (P ++ holes).
Proof.
  intros Hh. revert prev P t. induction Hh as [|h holes [Hne Hs] Hh IH]; intros prev P t Hprev Hwf [Hin Hcov]; cbn [insert_holes].
  - rewrite app_nil_r. by split.
  - rewrite (assoc (++) P [h] holes : P ++ h :: holes = _). apply IH.
    + intros p [= <-]. apply elem_of_app. right. by left.
    + destruct prev as [p|]; [destruct (appArmorHoleContains p h)|]; [done|by apply insert_hole_wf..].
    + set (skip := match prev with Some p => _ | None => false end). destruct skip eqn:E; subst skip.
      * destruct prev as [p|]; [|done]. split; [intros k Hk; apply elem_of_app; left; by apply Hin|].
        intros k [Hk|Hk%list_elem_of_singleton]%elem_of_app; [by apply Hcov|]. subst. apply holes_contains_prefix in E.
        destruct (Hcov p (Hprev p eq_refl)) as (h' & Hp & Hh'). exists h'. split; [by etrans|done].
      * split.
        -- intros k. rewrite insert_hole_path, orb_true_iff, bool_decide_eq_true, elem_of_app, list_elem_of_singleton. naive_solver.
        -- setoid_rewrite insert_hole_path. intros k [Hk|Hk%list_elem_of_singleton]%elem_of_app.
           ++ destruct (Hcov k Hk) as (h' & Hp & Hh'). exists h'. by rewrite Hh', orb_true_r.
           ++ subst. exists h. by rewrite bool_decide_true.
Qed.

(** ** The patterns of the walk *)

Definition entry_pattern : list aare := [ALit slash; AAlt [[]; []]].
Definition subtree_pattern : list aare := [ALit slash; AAlt [[]; [ADStar]]].

Fixpoint walk_patterns (is_root : bool) (node : appArmorHoleNode) : list (list aare) :=
  let 'HNode leaf children := node in
  if negb is_root && leaf then []
  else
    let below := sortedHoleChildNames (map (λ e : string * appArmorHoleNode, let '(name, child) := e in (name, walk_patterns false child)) children) in
    let excl := segment_pattern below.*1 in
    entry_pattern :: (if bool_decide (children ≠ []) then [ALit slash :: excl; ALit slash :: excl ++ subtree_pattern] else []) ++
    concat ((λ e : string * list (list aare), (λ p, lits (String slash e.1) ++ p) <$> e.2) <$> below).

Lemma lits_app a b : lits (a +:+ b) = lits a ++ lits b.
Proof. induction a as [|c a IH]; simpl; [done|]. by rewrite IH. Qed.

Lemma literal_text w : appArmorPathLiteral w = pattern_text (lits w).
Proof. induction w as [|c w IH]; simpl; [done|]. rewrite IH. done. Qed.

Lemma entry_text base : base +:+ "/{,}" = base +:+ pattern_text entry_pattern.
Proof. done. Qed.
Lemma subtree_text base : base +:+ "/{,**}" = base +:+ pattern_text subtree_pattern.
Proof. done. Qed.

Lemma walk_patterns_eq is_root leaf children :
  walk_patterns is_root (HNode leaf children) =
  if negb is_root && leaf then []
  else
    let below := sortedHoleChildNames ((λ e, (e.1, walk_patterns false e.2)) <$> children) in
    let excl := segment_pattern below.*1 in
    entry_pattern :: (if bool_decide (children ≠ []) then [ALit slash :: excl; ALit slash :: excl ++ subtree_pattern] else []) ++
    concat ((λ e : string * list (list aare), (λ p, lits (String slash e.1) ++ p) <$> e.2) <$> below).
Proof.
  cbn [walk_patterns]. destruct (negb is_root && leaf); [done|]. cbv zeta.
  assert (map (λ e : string * appArmorHoleNode, let '(name, child) := e in (name, walk_patterns false child)) children =
          (λ e, (e.1, walk_patterns false e.2)) <$> children) as -> by (apply map_ext; by intros []). done.
Qed.

Lemma hole_walk_eq is_root leaf children base :
  hole_walk is_root (HNode leaf children) base =
  if negb is_root && leaf then []
  else
    let below := sortedHoleChildNames ((λ e, (e.1, hole_walk false e.2 (base +:+ "/" +:+ appArmorPathLiteral e.1))) <$> children) in
    let excl := appArmorSegmentExclusion below.*1 in
    (base +:+ "/{,}") ::
    (if bool_decide (children ≠ []) then [base +:+ "/" +:+ excl; base +:+ "/" +:+ excl +:+ "/{,**}"] else []) ++ concat below.*2.
Proof.
  cbn [hole_walk]. destruct (negb is_root && leaf); [done|]. cbv zeta. match goal with |- context [map ?f children] =>
  assert (map f children =
          (λ e, (e.1, hole_walk false e.2 (base +:+ "/" +:+ appArmorPathLiteral e.1))) <$> children) as -> by (apply map_ext; by intros []) end. done.
Qed.

Lemma sort_map {A B} (f : string → A → B) cs :
  sortedHoleChildNames ((λ e, (e.1, f e.1 e.2)) <$> cs) = (λ e, (e.1, f e.1 e.2)) <$> sortedHoleChildNames cs.
Proof. apply sort_keyed_map. Qed.

Lemma keys_map {A B} (f : string → A → B) (cs : list (string * A)) : ((λ e, (e.1, f e.1 e.2)) <$> cs).*1 = cs.*1.
Proof. rewrite <-list_fmap_compose. done. Qed.

(** The text of the walk below a path. *)
Lemma walk_text t is_root base :
  hole_walk is_root t (pattern_text (lits base)) = (λ p, pattern_text (lits base ++ p)) <$> walk_patterns is_root t.
Proof.
  revert is_root base. induction t as [leaf cs IH] using hole_ind'. intros is_root base. rewrite hole_walk_eq, walk_patterns_eq.
  destruct (negb is_root && leaf); [done|]. cbv zeta.
  set (f := λ (n : string) u, hole_walk false u (pattern_text (lits base) +:+ "/" +:+ appArmorPathLiteral n)).
  rewrite (sort_map f), (sort_map (λ _, walk_patterns false)), (keys_map f), (keys_map (λ _, walk_patterns false)).
  rewrite fmap_cons, fmap_app. f_equal; [|f_equal].
  - rewrite pattern_text_app. done.
  - case_bool_decide; [|done]. rewrite !fmap_cons, segment_text. set (seg := segment_pattern _).
    change (ALit slash :: seg ++ subtree_pattern) with ([ALit slash] ++ seg ++ subtree_pattern).
    change (ALit slash :: seg) with ([ALit slash] ++ seg). rewrite !pattern_text_app. done.
  - assert (Hs : Forall (λ e, ∀ is_root base, hole_walk is_root e.2 (pattern_text (lits base)) = (λ p, pattern_text (lits base ++ p)) <$> walk_patterns is_root e.2)
      (sortedHoleChildNames cs)) by (unfold sortedHoleChildNames; by rewrite sort_keyed_perm). clear IH.
    induction Hs as [|[n u] l Hu Hs IH]; [done|]. rewrite !fmap_cons. cbn [concat fst snd] in *. rewrite fmap_app. f_equal; [|exact IH]. subst f. cbn beta.
    assert (pattern_text (lits base) +:+ "/" +:+ appArmorPathLiteral n = pattern_text (lits (base +:+ String slash n))) as ->.
    { rewrite lits_app, pattern_text_app, literal_text. done. }
    rewrite Hu, <-list_fmap_compose. apply list_fmap_ext. intros i p _. cbn. by rewrite lits_app, <-(assoc (++)).
Qed.

(** ** What the walk matches *)

Lemma matches_entry s : matches entry_pattern s = true ↔ s = "/".
Proof.
  unfold entry_pattern. rewrite matches_lit_cons. setoid_rewrite matches_alt. split.
  - intros (s' & -> & q & Hq & Hm). assert (q = []) as -> by (rewrite !elem_of_cons, elem_of_nil in Hq; tauto). by apply matches_nil in Hm as ->.
  - intros ->. exists "". split; [done|]. exists []. split; [by left|]. by apply matches_nil.
Qed.

Lemma matches_dstar s : matches [ADStar] s = true.
Proof. apply matches_cons. exists s, "". rewrite str_app_nil_r. by split_and!. Qed.

Lemma matches_subtree s : matches subtree_pattern s = true ↔ ∃ s', s = String slash s'.
Proof.
  unfold subtree_pattern. rewrite matches_lit_cons. setoid_rewrite matches_alt. split; [intros (s' & -> & _); by exists s'|].
  intros (s' & ->). exists s'. split; [done|]. exists [ADStar]. split; [by right; left|]. apply matches_dstar.
Qed.

Lemma own_patterns names r dir :
  names ≠ [] → Forall segment names → Forall segment r →
  (∃ q, q ∈ [entry_pattern; ALit slash :: segment_pattern names; ALit slash :: segment_pattern names ++ subtree_pattern] ∧
        matches q (mediated r dir) = true) ↔
  match r with [] => dir = true | x :: _ => x ∉ names end.
Proof.
  intros Hne Hn Hr. assert (Hseg := λ s, segment_match names s Hne Hn). split.
  - intros (q & Hq & Hm). rewrite !elem_of_cons, elem_of_nil in Hq. destruct Hq as [->|[->|[->|[]]]].
    + apply matches_entry in Hm. destruct r as [|x r]; [by destruct dir|]. rewrite mediated_cons in Hm. injection Hm as Hm.
      inversion Hr as [|? ? [Hx _]]; subst. by destruct x.
    + apply matches_lit_cons in Hm as (s & Hs & [Hns Hin]%Hseg). destruct r as [|x r]; [by destruct dir|].
      rewrite mediated_cons in Hs. injection Hs as Hs. rewrite <-(str_app_nil_r s) in Hs. inversion Hr as [|? ? [Hx Hxs] Hr']; subst.
      apply no_slash_split in Hs as [-> _]; [done..|apply mediated_slashed|done].
    + apply matches_lit_cons in Hm as (s & Hs & Hm). apply matches_app in Hm as (w & s' & -> & [Hw Hin]%Hseg & (t & ->)%matches_subtree).
      destruct r as [|x r]; [by destruct dir|]. rewrite mediated_cons in Hs. injection Hs as Hs. inversion Hr as [|? ? [Hx Hxs] Hr']; subst.
      apply no_slash_split in Hs as [-> _]; [done..|apply mediated_slashed|done].
  - destruct r as [|x r].
    + intros ->. exists entry_pattern. split; [by left|]. by apply matches_entry.
    + intros Hx. inversion Hr as [|? ? [Hxne Hxs] Hr']; subst. rewrite mediated_cons. destruct (mediated r dir) as [|c s] eqn:E.
      * exists (ALit slash :: segment_pattern names). split; [by right; left|]. rewrite str_app_nil_r. apply matches_lit_cons. exists x. split; [done|by apply Hseg].
      * exists (ALit slash :: segment_pattern names ++ subtree_pattern). split; [by right; right; left|]. apply matches_lit_cons.
        eexists. split; [done|]. apply matches_app. exists x, (String c s). split; [done|]. split; [by apply Hseg|]. apply matches_subtree.
        pose proof (mediated_slashed r dir) as Hs. rewrite E in Hs. apply bool_decide_eq_true in Hs as ->. by exists s.
Qed.

Lemma below_elem {A} (f : string → A → list (list aare)) (cs : list (string * A)) q :
  q ∈ concat ((λ e : string * list (list aare), (λ p, lits (String slash e.1) ++ p) <$> e.2) <$>
              sortedHoleChildNames ((λ e, (e.1, f e.1 e.2)) <$> cs)) ↔
  ∃ n u p, (n, u) ∈ cs ∧ p ∈ f n u ∧ q = lits (String slash n) ++ p.
Proof.
  assert (Hc : ∀ ls, q ∈ concat ls ↔ ∃ l, q ∈ l ∧ l ∈ ls).
  { intros ls. rewrite list_elem_of_In, in_concat. setoid_rewrite <-list_elem_of_In. naive_solver. }
  rewrite Hc. setoid_rewrite list_elem_of_fmap. unfold sortedHoleChildNames.
  assert (Hp : ∀ e, e ∈ sort_keyed str_leb ((λ e, (e.1, f e.1 e.2)) <$> cs) ↔ ∃ n u, e = (n, f n u) ∧ (n, u) ∈ cs).
  { intros e. rewrite sort_keyed_perm, list_elem_of_fmap. split; [intros ([n u] & -> & ?); by exists n, u|]. intros (n & u & -> & ?). by exists (n, u). }
  split.
  - intros (l & Hq & [n ps] & -> & (n' & u & [= -> ->] & Hin)%Hp). apply list_elem_of_fmap in Hq as (p & -> & Hpin). by exists n', u, p.
  - intros (n & u & p & Hin & Hpin & ->). eexists. split; [|exists (n, f n u); split; [done|]; apply Hp; by exists n, u].
    apply list_elem_of_fmap. by exists p.
Qed.

Lemma walk_slash b t q : q ∈ walk_patterns b t → ∃ p, q = ALit slash :: p.
Proof.
  destruct t as [leaf cs]. rewrite walk_patterns_eq. destruct (negb b && leaf); [by intros ?%elem_of_nil|]. cbv zeta.
  rewrite elem_of_cons, elem_of_app, (below_elem (λ _, walk_patterns false)). intros [->|[Hq|(n & u & p & _ & _ & ->)]]; [by eexists| |by eexists].
  case_bool_decide; [|by apply elem_of_nil in Hq]. rewrite !elem_of_cons, elem_of_nil in Hq. destruct Hq as [->|[->|[]]]; by eexists.
Qed.

(** The patterns of a visited node: its own, and those of its children below their names. *)
Lemma walk_elem b leaf cs : (b = true ∨ leaf = false) → cs ≠ [] → ∃ names, names ≡ₚ cs.*1 ∧ ∀ q,
  q ∈ walk_patterns b (HNode leaf cs) ↔
  q ∈ [entry_pattern; ALit slash :: segment_pattern names; ALit slash :: segment_pattern names ++ subtree_pattern] ∨
  ∃ n u p, (n, u) ∈ cs ∧ p ∈ walk_patterns false u ∧ q = lits (String slash n) ++ p.
Proof.
  intros Hb Hne. exists (sortedHoleChildNames ((λ e, (e.1, walk_patterns false e.2)) <$> cs)).*1. split.
  - unfold sortedHoleChildNames. by rewrite sort_keyed_perm, (keys_map (λ _, walk_patterns false)).
  - intros q. rewrite walk_patterns_eq. assert (negb b && leaf = false) as -> by (destruct Hb as [-> | ->]; [done|apply andb_false_r]).
    cbv zeta. rewrite bool_decide_true by done. rewrite elem_of_cons, elem_of_app, (below_elem (λ _, walk_patterns false)).
    rewrite !elem_of_cons. tauto.
Qed.

(** A child's pattern matches exactly below the child. *)
Lemma child_match n u p r dir :
  segment n → Forall segment r → p ∈ walk_patterns false u →
  matches (lits (String slash n) ++ p) (mediated r dir) = true ↔ ∃ r', r = n :: r' ∧ matches p (mediated r' dir) = true.
Proof.
  intros Hn Hr Hp. rewrite matches_lits. destruct (walk_slash _ _ _ Hp) as [p' ->]. split.
  - intros (s & E & Hm). pose proof Hm as Hm'. apply matches_lit_cons in Hm' as (s' & -> & _).
    assert (E' : mediated r dir = path_text [n] +:+ String slash s') by (rewrite E; cbn; by rewrite str_app_nil_r).
    apply mediated_below in E' as (r' & -> & E'); [|by constructor|done]. exists r'. split; [done|]. by rewrite <-E'.
  - intros (r' & -> & Hm). exists (mediated r' dir). by rewrite mediated_cons.
Qed.

Lemma walk_match t b r dir :
  hwf t → hchildren t ≠ [] → (b = true ∨ hleaf t = false) → Forall segment r →
  (∃ q, q ∈ walk_patterns b t ∧ matches q (mediated r dir) = true) ↔ walk_denies t r dir = true.
Proof.
  revert b r. induction t as [leaf cs IH] using hole_ind'. intros b r Hwf Hne Hb Hr. inversion Hwf as [? ? Hnd Hs Hall]; subst. cbn [hchildren hleaf] in *.
  rewrite Forall_forall in IH. destruct (walk_elem b leaf cs Hb Hne) as (names & Hk & Helem). setoid_rewrite Helem.
  pose proof (own_patterns names r dir) as Hown. assert (Hkn : Forall segment names) by (by rewrite Hk).
  specialize (Hown ltac:(intros ->; apply Permutation_nil_l in Hk; by destruct cs) Hkn Hr).
  assert (Hchild : ∀ n u, (n, u) ∈ cs → find_key n cs = Some u ∧ segment n ∧ hlive u ∧ hwf u).
  { intros n u Hin. split; [by apply find_key_spec|]. split; [|by apply (proj1 (Forall_forall _ _) Hall (n, u))].
    apply (proj1 (Forall_forall _ _) Hs), (list_elem_of_fmap_2 fst _ (n, u) Hin). }
  split.
  - intros (q & [Hq|(n & u & p & Hin & Hp & ->)] & Hm).
    + assert (Ho := proj1 Hown (ex_intro _ q (conj Hq Hm))). destruct r as [|x r]; [done|].
      cbn [walk_denies hchildren]. rewrite Hk in Ho. by rewrite (proj2 (find_key_none x cs) Ho).
    + destruct (Hchild n u Hin) as (Hf & Hn & Hl & Hw). apply (child_match n u p r dir Hn Hr Hp) in Hm as (r' & -> & Hm). cbn [walk_denies hchildren]. rewrite Hf.
      destruct (hleaf u) eqn:El; [destruct u as [l' c']; cbn in El; subst l'; by apply elem_of_nil in Hp|]. simpl.
      apply (proj1 (IH _ Hin false r' Hw ltac:(destruct Hl; cbn in *; congruence) (or_intror El) ltac:(by inversion Hr))). by exists p.
  - intros Hd. destruct r as [|x r].
    + destruct (proj2 Hown Hd) as (q & Hq & Hm). exists q. tauto.
    + cbn [walk_denies hchildren] in Hd. destruct (find_key x cs) as [u|] eqn:E.
      * pose proof E as Hin. apply find_key_spec in Hin; [|done]. apply andb_true_iff in Hd as [Hl%negb_true_iff Hd].
        destruct (Hchild x u Hin) as (_ & Hn & Hlv & Hw). inversion Hr as [|? ? Hx Hr']; subst.
        destruct (proj2 (IH _ Hin false r Hw ltac:(destruct Hlv; cbn in *; congruence) (or_intror Hl) Hr') Hd) as (p & Hp & Hm).
        exists (lits (String slash x) ++ p). split; [right; by exists x, u, p|]. apply (child_match x u); [done..|by exists r].
      * apply find_key_none in E. destruct (proj2 Hown) as (q & Hq & Hm); [by rewrite Hk|]. exists q. tauto.
Qed.

(** ** The trie of a target *)

Lemma proper_segments l : Forall proper l → Forall segment l.
Proof. intros Hl. eapply Forall_impl; [exact Hl|]. by intros w (Hs & Hne & _). Qed.

Lemma path_text_mediated l : path_text l = mediated l false.
Proof. unfold mediated. by rewrite str_app_nil_r. Qed.

Lemma split_render r s : Forall proper r → r ≠ [] → String slash s = path_text r → split_sep s = r.
Proof.
  intros Hr Hne E. rewrite <-render_text in E by done. injection E as ->. apply split_join; [done|]. by apply proper_no_sep.
Qed.

Lemma relative_segments ls ws r :
  Forall proper ls → Forall proper ws → ls ≠ [] →
  appArmorRelativeSegments (render ls) (render ws) = Some r ↔ ws = ls ++ r ∧ r ≠ [].
Proof.
  intros Hls Hws Hne. unfold appArmorRelativeSegments.
  assert (Hcut : ∀ rel, CutPrefix (render ws) (render ls +:+ "/") = Some rel ∧ rel ≠ "" ↔
    ∃ r, ws = ls ++ r ∧ r ≠ [] ∧ String slash rel = path_text r).
  { intros rel. rewrite CutPrefix_spec, str_app_assoc. cbn [String.app]. rewrite (render_text ls) by done. split.
    - intros [E Hrel]. destruct (decide (ws = [])) as [->|Hw]; [destruct ls as [|w ls]; [done|]; cbn in E; injection E as E; inversion Hls as [|? ? (_ & Hw & _) _]; by destruct w|].
      rewrite render_text, path_text_mediated in E by done. apply mediated_below in E as (r' & -> & E); [|by apply proper_segments..].
      exists r'. rewrite path_text_mediated. split_and!; [done| |done]. by intros ->.
    - intros (r' & -> & Hr & E). rewrite render_text, path_text_app, <-E by (by destruct ls). split; [done|].
      intros ->. destruct r' as [|w r']; [done|]. apply Forall_app in Hws as [_ Hr']. inversion Hr' as [|? ? (_ & Hw & _) _]; subst.
      cbn in E. injection E as E. by destruct w. }
  split.
  - destruct (CutPrefix (render ws) (render ls +:+ "/")) as [rel|] eqn:E; [|done]. simpl. case_bool_decide as Er; [done|].
    intros [= <-]. destruct (proj1 (Hcut rel) (conj eq_refl Er)) as (r' & -> & Hr & Et). apply Forall_app in Hws as [_ Hr'].
    by rewrite (split_render r' rel).
  - intros [-> Hr]. destruct (path_text r) as [|c rel] eqn:E; [destruct r; [done|by cbn in E]|].
    assert (c = slash) as -> by (destruct r as [|w r]; [done|]; cbn in E; by injection E).
    destruct (proj2 (Hcut rel)) as [Hc Hrel]; [by exists r|]. rewrite Hc. simpl. rewrite bool_decide_false by done. f_equal.
    apply Forall_app in Hws as [_ Hr']. by apply split_render.
Qed.

Section target.
Context (ls : list string) (rw : list (list string)) (Hls : Forall proper ls) (Hne : ls ≠ []) (Hrw : Forall (Forall proper) rw).

Lemma holes_elem h : h ∈ omap (appArmorRelativeSegments (render ls)) (render <$> rw) ↔ h ≠ [] ∧ ls ++ h ∈ rw.
Proof.
  rewrite list_elem_of_omap. setoid_rewrite list_elem_of_fmap. split.
  - intros (x & (ws & -> & Hin) & E). apply relative_segments in E as [-> Hh]; [done..| |done]. by apply (proj1 (Forall_forall _ _) Hrw).
  - intros [Hh Hin]. exists (render (ls ++ h)). split; [by exists (ls ++ h)|]. apply relative_segments; [done| |done|done].
    by apply (proj1 (Forall_forall _ _) Hrw).
Qed.

Lemma hole_trie_none : appArmorHoleTrie (render ls) (render <$> rw) = None ↔ ∀ h, h ≠ [] → ls ++ h ∉ rw.
Proof.
  unfold appArmorHoleTrie. case_bool_decide as E.
  - split; [|done]. intros _ h Hh Hin. assert (h ∈ @nil (list string)) as ?%elem_of_nil; [|done]. rewrite <-E. by apply holes_elem.
  - split; [done|]. intros Hno. exfalso. apply E. destruct (omap _ _) as [|h hs] eqn:Eo; [done|].
    destruct (proj1 (holes_elem h)) as [Hh Hin]; [rewrite Eo; by left|]. by destruct (Hno h).
Qed.

Lemma hole_trie_some t :
  appArmorHoleTrie (render ls) (render <$> rw) = Some t →
  hwf t ∧ hchildren t ≠ [] ∧ (∀ k, hpath t k = true → ls ++ k ∈ rw ∧ k ≠ []) ∧
  (∀ r, covered t r = true ↔ ∃ h, h ≠ [] ∧ h `prefix_of` r ∧ ls ++ h ∈ rw).
Proof.
  unfold appArmorHoleTrie. case_bool_decide as E; [done|]. intros [= <-]. set (hs := omap _ _) in *.
  pose proof (insert_holes_spec None (merge_sort hole_le hs) [] newHoleNode) as H. cbv zeta in H. set (t := insert_holes _ _ _) in *.
  destruct H as [Hwf [Hin Hcov]]; [|done|apply newHoleNode_wf|by split; [intros []|intros k ?%elem_of_nil]|].
  { apply Forall_forall. intros h Hh. rewrite merge_sort_Permutation in Hh. apply holes_elem in Hh as [Hh Hh']. split; [done|].
    pose proof (proj1 (Forall_forall _ _) Hrw _ Hh') as Hp. apply Forall_app in Hp as [_ Hp]. by apply proper_segments. }
  cbn [app] in Hin, Hcov. setoid_rewrite merge_sort_Permutation in Hin. setoid_rewrite merge_sort_Permutation in Hcov.
  split_and!; [done| | |].
  - destruct hs as [|h hs'] eqn:Eh; [done|]. destruct (Hcov h) as (k & _ & Hk); [by left|]. pose proof (Hin k Hk) as Hk'.
    rewrite <-Eh in Hk'. apply holes_elem in Hk' as [Hne' _]. destruct t as [leaf [|e cs]]; [|done]. destruct k; [done|]. discriminate Hk.
  - intros k Hk. apply and_comm, holes_elem. by apply Hin.
  - intros r. rewrite covered_spec. split.
    + intros (h & Hh & Hp & Hk). exists h. split_and!; [done..|]. by apply holes_elem, Hin.
    + intros (h & Hh & Hp & Hk). destruct (Hcov h) as (k & Hkp & Hk'); [by apply holes_elem|]. exists k. split_and!; [|by etrans|done].
      by apply holes_elem, Hin.
Qed.
End target.
