(* ===== verification/WorkloadAppArmorSpec.v ===== *)
(** * WorkloadAppArmorSpec: the generated profile denies exactly the read-only region of the plan *)
From S2P Require Import Prelude Filepath AllowedRoots GoStrings Sha256 DockerMount Aare AareTheory WorkloadAppArmor WorkloadAppArmorTheory.
Local Open Scope Z_scope.

(** ** The patterns of a target *)

Definition target_asts (target : string) (regular : bool) (rw : list string) : list (list aare) :=
  if regular then [lits target]
  else match appArmorHoleTrie target rw with
       | None => [lits target ++ subtree_pattern]
       | Some t => (λ q, lits target ++ q) <$> walk_patterns true t
       end.

Lemma target_text plan target :
  target_patterns plan target = pattern_text <$> target_asts (rot_Target target) (rot_RegularFile target) (plan_RW plan).
Proof.
  unfold target_patterns, target_asts. rewrite literal_text. destruct (rot_RegularFile target); [done|].
  destruct (appArmorHoleTrie _ _) as [t|]; [|by rewrite subtree_text, <-pattern_text_app].
  rewrite walk_text, <-list_fmap_compose. done.
Qed.

Lemma walk_wf t b q : hwf t → q ∈ walk_patterns b t → wf_pattern q = true.
Proof.
  revert b q. induction t as [leaf cs IH] using hole_ind'. intros b q Hwf Hq. inversion Hwf as [? ? Hnd Hs Hall]; subst.
  destruct (negb b && leaf) eqn:Eb; [rewrite walk_patterns_eq, Eb in Hq; by apply elem_of_nil in Hq|].
  assert (Hb : b = true ∨ leaf = false) by (destruct b, leaf; auto).
  destruct (decide (cs = [])) as [->|Hne].
  { rewrite walk_patterns_eq, Eb in Hq. cbv zeta in Hq. apply list_elem_of_singleton in Hq as ->. done. }
  destruct (walk_elem b leaf cs Hb Hne) as (names & Hk & Helem). apply Helem in Hq as [Hq|(n & u & p & Hin & Hp & ->)].
  - destruct (segment_wf names) as [Hw (l & El)]; [intros ->; apply Permutation_nil_l in Hk; by destruct cs|unfold segment_names; by rewrite Hk|].
    rewrite !elem_of_cons, elem_of_nil in Hq. rewrite El in *. destruct Hq as [->|[->|[->|[]]]]; [done|by apply wf_lit|]. apply wf_lit; [|done].
    apply wf_cons; [unfold wf_pattern in Hw; cbn [forallb] in Hw; by apply andb_true_iff in Hw as [_ [? _]%andb_true_iff]|done..].
  - apply wf_lits; [|by destruct (walk_slash _ _ _ Hp) as [p' ->]]. rewrite Forall_forall in IH. apply (IH _ Hin false); [|done].
    by apply (proj1 (Forall_forall _ _) Hall (n, u)).
Qed.

Lemma target_asts_wf ls regular rw q :
  Forall proper ls → ls ≠ [] → Forall (Forall proper) rw → q ∈ target_asts (render ls) regular (render <$> rw) → wf_pattern q = true.
Proof.
  intros Hls Hne Hrw. unfold target_asts. destruct regular.
  - intros ->%list_elem_of_singleton. rewrite <-(app_nil_r (lits _)). by apply wf_lits.
  - destruct (appArmorHoleTrie _ _) as [t|] eqn:E.
    + intros (p & -> & Hp)%list_elem_of_fmap. apply wf_lits; [|by destruct (walk_slash _ _ _ Hp) as [p' ->]]. apply (walk_wf t true); [|done].
      by apply (hole_trie_some ls rw).
    + intros ->%list_elem_of_singleton. by apply wf_lits.
Qed.

(** ** What a target denies *)

Definition target_denies (target : string) (regular : bool) (rw : list string) (name : string) : Prop :=
  ∃ q, q ∈ target_asts target regular rw ∧ matches q name = true.

Lemma matches_all w s : matches (lits w) s = true ↔ s = w.
Proof.
  rewrite <-(app_nil_r (lits w)), matches_lits. setoid_rewrite matches_nil. split; [intros (r & -> & ->); by rewrite str_app_nil_r|].
  intros ->. exists "". by rewrite str_app_nil_r.
Qed.

Lemma below_match ls l dir p :
  Forall proper ls → ls ≠ [] → Forall proper l → (∃ p', p = ALit slash :: p') →
  matches (lits (render ls) ++ p) (mediated l dir) = true ↔ ∃ r, l = ls ++ r ∧ matches p (mediated r dir) = true.
Proof.
  intros Hls Hne Hl [p' ->]. rewrite matches_lits, render_text by done. split.
  - intros (s & E & Hm). pose proof Hm as Hm'. apply matches_lit_cons in Hm' as (s' & -> & _).
    apply mediated_below in E as (r & -> & E); [|by apply proper_segments..]. exists r. by rewrite <-E.
  - intros (r & -> & Hm). exists (mediated r dir). by rewrite mediated_app.
Qed.

Lemma directory_denies ls rw l dir :
  Forall proper ls → ls ≠ [] → Forall (Forall proper) rw → Forall proper l →
  (∀ w, (w = ls ∨ w ∈ rw) → l `prefix_of` w → (w ≠ l ∨ w = ls) → dir = true) →
  target_denies (render ls) false (render <$> rw) (mediated l dir) ↔
  ls `prefix_of` l ∧ ∀ w, w ∈ rw → w ≠ ls → ls `prefix_of` w → ¬ w `prefix_of` l.
Proof.
  intros Hls Hne Hrw Hl Hdir. unfold target_denies, target_asts. destruct (appArmorHoleTrie _ _) as [t|] eqn:E.
  - destruct (hole_trie_some ls rw Hls Hne Hrw t E) as (Hwf & Hc & Hpath & Hcov).
    assert (Hden : ∀ r, l = ls ++ r → walk_denies t r dir = negb (covered t r)).
    { intros r ->. apply walk_denies_spec; [done..|]. intros h Hh Hp. destruct (Hpath _ Hp) as [Hin _].
      apply (Hdir (ls ++ r ++ h)); [by right|rewrite (assoc (++)); by apply prefix_app_r|]. left. rewrite (assoc (++)).
      intros Eq. rewrite <-(app_nil_r (ls ++ r)) in Eq at 2. by apply app_inv_head in Eq. }
    split.
    + intros (q & (p & -> & Hp)%list_elem_of_fmap & Hm). apply below_match in Hm as (r & -> & Hm); [|done..|by apply (walk_slash true t)].
      split; [by apply prefix_app_r|]. intros w Hw Hwne [h ->] [k Eq]. rewrite <-(assoc (++)) in Eq. apply app_inv_head in Eq as ->.
      apply Forall_app in Hl as [_ Hr]. pose proof (proj1 (walk_match t true (h ++ k) dir Hwf Hc (or_introl eq_refl) (proper_segments _ Hr)) (ex_intro _ p (conj Hp Hm))) as Hd.
      rewrite (Hden _ eq_refl) in Hd. apply negb_true_iff, not_true_iff_false in Hd. apply Hd, Hcov. exists h.
      split_and!; [|by apply prefix_app_r|done]. intros ->. by rewrite app_nil_r in Hwne.
    + intros [[r ->] Hno]. apply Forall_app in Hl as [_ Hr].
      destruct (proj2 (walk_match t true r dir Hwf Hc (or_introl eq_refl) (proper_segments _ Hr))) as (p & Hp & Hm).
      { rewrite (Hden _ eq_refl). apply negb_true_iff, not_true_iff_false. intros (h & Hh & Hp & Hin)%Hcov.
        apply (Hno _ Hin); [|by apply prefix_app_r|by apply prefix_app]. intros Eq. rewrite <-(app_nil_r ls) in Eq at 2. by apply app_inv_head in Eq. }
      exists (lits (render ls) ++ p). split; [by apply list_elem_of_fmap; exists p|]. apply below_match; [done..|by apply Forall_app|by apply (walk_slash true t)|by exists r].
  - pose proof (proj1 (hole_trie_none ls rw Hls Hne Hrw) E) as Hno. setoid_rewrite list_elem_of_singleton. split.
    + intros (q & -> & Hm). apply below_match in Hm as (r & -> & _); [|done..|by eexists]. split; [by apply prefix_app_r|].
      intros w Hw Hwne [h ->]. exfalso. apply (Hno h); [|done]. intros ->. by rewrite app_nil_r in Hwne.
    + intros [[r ->] _]. eexists. split; [done|]. apply below_match; [done..|by eexists|]. exists r. split; [done|]. apply matches_subtree.
      destruct r as [|x r]; [|rewrite mediated_cons; by eexists]. rewrite app_nil_r in *. rewrite (Hdir ls); [by eexists|by left|done|by right].
Qed.

Lemma file_denies ls rw l dir :
  Forall proper ls → ls ≠ [] → Forall proper l → (ls = l → dir = false) →
  target_denies (render ls) true rw (mediated l dir) ↔ ls = l.
Proof.
  intros Hls Hne Hl Hdir. unfold target_denies, target_asts. setoid_rewrite list_elem_of_singleton. split.
  - intros (q & -> & Hm%matches_all). rewrite render_text, path_text_mediated in Hm by done.
    destruct ls as [|w ls]; [done|]. clear Hne Hdir. destruct dir.
    + exfalso. revert w ls Hls Hm. induction Hl as [|x l Hx Hl IH]; intros w ls Hls Hm.
      * inversion Hls as [|? ? (_ & Hw & _) _]; subst. rewrite mediated_cons in Hm. injection Hm as Hm. by destruct w.
      * rewrite !mediated_cons in Hm. injection Hm as Hm. inversion Hls as [|? ? (Hws & Hw & _) Hls']; subst.
        destruct Hx as (Hxs & Hxn & _). apply no_slash_split in Hm as [-> Hm]; [|done..|apply mediated_slashed|apply mediated_slashed].
        destruct ls as [|w' ls]; [by destruct l|]. by apply (IH w' ls).
    + rewrite <-!path_text_mediated in Hm. assert (l ≠ []) by (intros ->; done). rewrite <-!render_text in Hm by done. symmetry. by apply render_inj.
  - intros ->. eexists. split; [done|]. apply matches_all. rewrite Hdir by done. by rewrite render_text, path_text_mediated.
Qed.

(** ** Reading the deny rules back from the profile *)

(** The pattern of a line [  audit deny "pattern" wkl,]. *)
Definition audit_pattern (line : string) : option string :=
  rest ← CutPrefix line ("  audit deny " +:+ String quote ""); CutSuffix rest (String quote " wkl,").
(** The pattern of a line [  deny pattern permissions,] of a file rule that
    denies the write: a file rule starts with a path or with a variable. *)
Definition plain_pattern (line : string) : option string :=
  rest ← CutPrefix line "  deny "; '(path, permissions) ← Cut rest " ";
  match path with
  | String c _ => if bool_decide (c = "/"%char ∨ c = "@"%char) && bool_decide (str_count "w" permissions ≠ 0%nat) then Some path else None
  | "" => None
  end.
Definition write_pattern (line : string) : option string :=
  match audit_pattern line with Some p => Some p | None => plain_pattern line end.

(** The patterns of all the file rules of a profile that deny the write. *)
Definition profile_patterns (text : string) : list string := omap write_pattern (split_byte LF text).

(** The part of the kernel's interfaces that every profile denies. *)
Definition proc_baseline : list string :=
  ["@{PROC}/*"; "@{PROC}/{[^1-9/],[^1-9/][^0-9/],[^1-9s/][^0-9y/][^0-9s/],[^1-9/][^0-9/][^0-9/][^0-9/]*}/**"; "@{PROC}/sys/[^k]**";
   "@{PROC}/sys/kernel/{?,??,[^s][^h][^m]**}"; "@{PROC}/sysrq-trigger"; "@{PROC}/kcore"].
Definition sys_baseline : list string :=
  ["/sys/[^f]*/**"; "/sys/f[^s]*/**"; "/sys/fs/[^c]*/**"; "/sys/fs/c[^g]*/**"; "/sys/firmware/**"; "/sys/devices/virtual/powercap/**"; "/sys/kernel/security/**"].
Definition baseline_patterns : list string := proc_baseline ++ sys_baseline.

Definition one_line (s : string) : Prop := str_count LF s = 0%nat.

Lemma one_line_app a b : one_line a → one_line b → one_line (a +:+ b).
Proof. unfold one_line. rewrite str_count_app. lia. Qed.

Lemma one_line_concat l : Forall one_line l → one_line (str_concat l).
Proof. induction 1; [done|]. by apply one_line_app. Qed.

Lemma one_line_join l : Forall one_line l → one_line (str_join "," l).
Proof.
  induction 1 as [|w l Hw Hl IH]; [done|]. destruct l as [|x l]; [done|]. cbn [str_join]. apply one_line_app; [done|]. by apply (one_line_app ",").
Qed.

Lemma one_line_literal b : one_line (appArmorLiteralByte b).
Proof. destruct b as [[] [] [] [] [] [] [] []]; reflexivity. Qed.
Lemma one_line_class b : one_line (appArmorClassByte b).
Proof. destruct b as [[] [] [] [] [] [] [] []]; reflexivity. Qed.

Lemma aare_ind' (P : aare → Prop) :
  (∀ c, P (ALit c)) → (∀ l, P (ANot l)) → P AAny → P AStar → P ADStar → (∀ l, Forall (Forall P) l → P (AAlt l)) → ∀ a, P a.
Proof.
  intros H1 H2 H3 H4 H5 H6. fix IH 1. intros [c|l| | | |l]; [apply H1|apply H2|done..|]. apply H6. revert l. fix IHl 1. intros [|p l]; constructor; [|apply IHl].
  revert p. fix IHp 1. intros [|a p]; constructor; [apply IH|apply IHp].
Qed.

Lemma one_line_item a : one_line (aare_text a).
Proof.
  induction a as [c|l| | | |l IH] using aare_ind'; [apply one_line_literal| |done..|].
  - cbn [aare_text]. apply (one_line_app "[^"); [done|]. apply one_line_app; [|done]. apply one_line_concat, Forall_fmap, Forall_forall. intros b _. apply one_line_class.
  - rewrite alt_text. apply (one_line_app "{"); [done|]. apply one_line_app; [|done]. apply one_line_join, Forall_fmap. eapply Forall_impl; [exact IH|].
    intros p Hp. by apply one_line_concat, Forall_fmap.
Qed.

Lemma one_line_text p : one_line (pattern_text p).
Proof. apply one_line_concat, Forall_fmap, Forall_forall. intros a _. apply one_line_item. Qed.

Lemma one_line_rule p : one_line (deny_rule (pattern_text p)).
Proof. unfold deny_rule. apply (one_line_app "audit deny "); [done|]. apply (one_line_app (String quote "")); [done|]. apply one_line_app; [apply one_line_text|done]. Qed.

Lemma profile_patterns_line w s : one_line w → profile_patterns (w +:+ String LF s) = option_list (write_pattern w) ++ profile_patterns s.
Proof. intros Hw. unfold profile_patterns. rewrite split_byte_app by done. cbn [omap list_omap]. by destruct (write_pattern w). Qed.

Lemma profile_patterns_lines l s :
  Forall one_line l → profile_patterns (lines l +:+ s) = concat (option_list <$> (write_pattern <$> l)) ++ profile_patterns s.
Proof.
  induction 1 as [|w l Hw Hl IH]; [done|]. unfold lines. rewrite !fmap_cons. cbn [str_concat concat]. fold (lines l).
  rewrite !str_app_assoc. cbn [String.app]. rewrite profile_patterns_line by done. rewrite IH. by rewrite (assoc (++)).
Qed.

Lemma audit_rule p : write_pattern ("  " +:+ deny_rule p) = Some p.
Proof.
  unfold write_pattern, audit_pattern, deny_rule. rewrite (proj2 (CutPrefix_spec _ _ (p +:+ String quote " wkl,"))); [|done]. cbn [mbind option_bind].
  by rewrite (proj2 (CutSuffix_spec _ _ p)).
Qed.

(** The emitter keeps the text of each rule once. *)
Lemma emit_rules e rules :
  Forall one_line rules →
  ∃ rs, em_sb (foldl appArmorEmit e rules) = em_sb e +:+ str_concat ((λ r, String LF "  " +:+ r +:+ String LF "") <$> rs) ∧
        (∀ r, r ∈ em_emitted (foldl appArmorEmit e rules) ↔ r ∈ em_emitted e ∨ r ∈ rules) ∧
        (∀ r, r ∈ rs ↔ r ∈ rules ∧ r ∉ em_emitted e) ∧ Forall one_line rs.
Proof.
  intros Hl. revert e. induction Hl as [|r rules Hr Hl IH]; intros e.
  { exists []. split_and!; [by rewrite str_app_nil_r|intros r; by rewrite elem_of_nil; tauto|intros r; rewrite elem_of_nil; tauto|done]. }
  cbn [foldl]. destruct (IH (appArmorEmit e r)) as (rs & Ht & He & Hrs & Hol). unfold appArmorEmit in *. case_bool_decide as Hin.
  - exists rs. split_and!; [done| | |done]; intros r'; rewrite ?He, ?Hrs, elem_of_cons; naive_solver.
  - exists (r :: rs). cbn [em_sb em_emitted] in *. split_and!.
    + rewrite Ht, fmap_cons. cbn [str_concat]. by rewrite !str_app_assoc.
    + intros r'. rewrite He, !elem_of_cons. tauto.
    + intros r'. rewrite elem_of_cons, Hrs, !elem_of_cons. destruct (decide (r' = r)); naive_solver.
    + by constructor.
Qed.

Lemma header_lines name abi30 :
  one_line name → Forall one_line (profile_lines name abi30) ∧ concat (option_list <$> (write_pattern <$> profile_lines name abi30)) = baseline_patterns.
Proof.
  intros Hn. assert (Hq : one_line (quoted name)) by (apply (one_line_app (String quote "")); [done|]; by apply one_line_app).
  split; [|by destruct abi30].
  unfold profile_lines. rewrite !Forall_app. split_and!; [by repeat constructor|by destruct abi30; repeat constructor|].
  repeat (constructor; [first [reflexivity|match goal with |- one_line (?a +:+ quoted name +:+ ?b) => apply (one_line_app a); [reflexivity|by apply one_line_app] end]|]).
  constructor.
Qed.

Lemma emitted_lines rs : str_concat ((λ r, String LF "  " +:+ r +:+ String LF "") <$> rs) = lines (concat ((λ r, [""; "  " +:+ r]) <$> rs)).
Proof. induction rs as [|r rs IH]; [done|]. rewrite !fmap_cons. cbn [str_concat concat]. rewrite IH. unfold lines. cbn. by rewrite !str_app_assoc. Qed.

Lemma deny_rule_inj p q : deny_rule p = deny_rule q → p = q.
Proof.
  unfold deny_rule. intros [= E]. assert (Hc : CutSuffix (p +:+ String quote " wkl,") (String quote " wkl,") = Some q) by (rewrite E; by apply CutSuffix_spec).
  rewrite (proj2 (CutSuffix_spec _ _ p)) in Hc by done. by injection Hc.
Qed.

(** The file rules of the profile that deny the write: the baseline, and those of the read-only targets. *)
Lemma rendered_patterns name plan abi30 pats :
  one_line name → (∀ target, target ∈ plan_RO plan → ∀ p, p ∈ target_patterns plan target → one_line (deny_rule p)) →
  pats ∈ profile_patterns (renderWorkloadAppArmorProfile name plan abi30) ↔
  pats ∈ baseline_patterns ∨ ∃ target, target ∈ plan_RO plan ∧ pats ∈ target_patterns plan target.
Proof.
  intros Hn Hol. destruct (header_lines name abi30 Hn) as [Hh Hbase]. unfold renderWorkloadAppArmorProfile.
  set (rules := concat ((λ t, deny_rule <$> target_patterns plan t) <$> plan_RO plan)).
  assert (Hfold : ∀ e, foldl (λ e target, appArmorEmitHoleWalk e (deny_rule <$> target_patterns plan target)) e (plan_RO plan) = foldl appArmorEmit e rules).
  { intros e. subst rules. generalize (plan_RO plan). intros l. revert e. induction l as [|t l IH]; intros e; [done|]. cbn [foldl]. rewrite IH, fmap_cons. cbn [concat]. by rewrite foldl_app. }
  assert (Hrule : ∀ r, r ∈ rules ↔ ∃ target p, target ∈ plan_RO plan ∧ p ∈ target_patterns plan target ∧ r = deny_rule p).
  { intros r. subst rules. rewrite list_elem_of_In, in_concat. setoid_rewrite <-list_elem_of_In. split.
    - intros (l & (t & -> & Ht)%list_elem_of_fmap & (p & -> & Hp)%list_elem_of_fmap). by exists t, p.
    - intros (t & p & Ht & Hp & ->). exists (deny_rule <$> target_patterns plan t). split; [by apply (list_elem_of_fmap_2 (λ t, deny_rule <$> target_patterns plan t))|].
      by apply list_elem_of_fmap_2. }
  rewrite Hfold. destruct (emit_rules (mkEmitter (lines (profile_lines name abi30)) []) rules) as (rs & -> & _ & Hrs & Hrl).
  { apply Forall_forall. intros r (t & p & Ht & Hp & ->)%Hrule. by apply (Hol t). }
  cbn [em_sb em_emitted] in *. rewrite str_app_assoc, profile_patterns_lines, Hbase by done. rewrite emitted_lines, elem_of_app.
  apply or_iff_compat_l.
  rewrite profile_patterns_lines.
  2:{ clear Hrs. induction Hrl as [|r rs Hr Hrl IH]; [constructor|]. cbn. constructor; [done|]. constructor; [by apply (one_line_app "  ")|done]. }
  assert (Hres : concat (option_list <$> (write_pattern <$> concat ((λ r, [""; "  " +:+ r]) <$> rs))) ++ profile_patterns (String "}" (String LF "")) = omap (λ r, write_pattern ("  " +:+ r)) rs).
  { change (profile_patterns (String "}" (String LF ""))) with (@nil string). rewrite app_nil_r. clear. induction rs as [|r rs IH]; [done|]. rewrite fmap_cons. cbn [concat].
    rewrite fmap_app, fmap_app, concat_app, IH. cbn [omap list_omap]. rewrite !fmap_cons. cbn [concat].
    change (write_pattern "") with (@None string). cbn [option_list app]. by destruct (write_pattern ("  " +:+ r)). }
  rewrite Hres, list_elem_of_omap. split.
  - intros (r & [(t & p & Ht & Hp & ->)%Hrule _]%Hrs & E). rewrite audit_rule in E. injection E as <-. by exists t.
  - intros (t & Ht & Hp). exists (deny_rule pats). rewrite audit_rule. split; [|done]. apply Hrs. split; [|apply not_elem_of_nil]. apply Hrule. by exists t, pats.
Qed.

(** ** The profile of an accepted plan *)

Section projected.
Context (lstat : string → option bool).

Lemma exists_cons {A} (P : A → Prop) y l : (∃ x, x ∈ y :: l ∧ P x) ↔ P y ∨ ∃ x, x ∈ l ∧ P x.
Proof.
  split; [intros (x & [->|Hx]%elem_of_cons & H); [by left|right; by exists x]|].
  intros [H|(x & Hx & H)]; [exists y; split; [left|done]|exists x; split; [by right|done]].
Qed.

Definition ro_entry (t : appArmorROTarget) (ep : sessionFilesystemExposure * string) : Prop :=
  RequestedReadOnly ep.1 = true ∧ lstat ep.2 = Some (negb (rot_RegularFile t)) ∧ Target ep.1 = rot_Target t.
Definition rw_entry (w : string) (e : sessionFilesystemExposure) : Prop := RequestedReadOnly e = false ∧ Target e = w.

Lemma project_spec es pins plan0 plan :
  project lstat es pins plan0 = Some plan → length es = length pins →
  (∀ w, w ∈ plan_RW plan ↔ w ∈ plan_RW plan0 ∨ w ≠ "" ∧ ∃ e, e ∈ es ∧ rw_entry w e) ∧
  (∀ t, t ∈ plan_RO plan ↔ t ∈ plan_RO plan0 ∨ ∃ ep, ep ∈ zip es pins ∧ ro_entry t ep).
Proof.
  revert pins plan0. induction es as [|e es IH]; intros [|pin pins] plan0; cbn [project zip zip_with length]; try done.
  - intros [= ->] _. split; intros x; split; try tauto; intros [H|H]; [done| |done|]; [destruct H as [_ (? & ?%elem_of_nil & _)]|destruct H as (? & ?%elem_of_nil & _)]; done.
  - intros H [= Hlen]. setoid_rewrite exists_cons. destruct (RequestedReadOnly e) eqn:Er; cbn [negb] in H.
    + destruct (lstat pin) as [isDir|] eqn:El; [|done]. simpl in H. destruct (IH _ _ H Hlen) as [HW HR]. cbn [plan_RW plan_RO] in *. split.
      * intros w. rewrite HW. assert (¬ rw_entry w e) by (intros [? _]; congruence). tauto.
      * intros t. rewrite HR, elem_of_app, list_elem_of_singleton. assert (t = mkROTarget (Target e) (negb isDir) ↔ ro_entry t (e, pin)); [|tauto].
        unfold ro_entry. cbn [fst snd]. rewrite El. destruct t as [t reg]. cbn. rewrite Er. split.
        -- intros [= -> ->]. by rewrite negb_involutive.
        -- intros (_ & [= ->] & ->). by rewrite negb_involutive.
    + destruct (IH _ _ H Hlen) as [HW HR]. split.
      * intros w. rewrite HW. assert (w = Target e ↔ rw_entry w e) as <- by (unfold rw_entry; rewrite Er; naive_solver).
        case_bool_decide as Et; cbn [plan_RW]; [|rewrite elem_of_app, list_elem_of_singleton].
        -- split; [tauto|]. intros [?|[Hw [->|?]]]; tauto.
        -- split; [|tauto]. intros [[?| ->]|?]; tauto.
      * intros t. rewrite HR. assert (¬ ro_entry t (e, pin)) by (intros [? _]; cbn in *; congruence). case_bool_decide; cbn [plan_RO]; tauto.
Qed.

Lemma project_lstat es pins plan0 plan e pin :
  project lstat es pins plan0 = Some plan → (e, pin) ∈ zip es pins → RequestedReadOnly e = true → ∃ isDir, lstat pin = Some isDir.
Proof.
  revert pins plan0. induction es as [|x es IH]; intros [|q pins] plan0; cbn [project zip zip_with]; try (by intros _ ?%elem_of_nil).
  intros H Hin Hro. apply elem_of_cons in Hin as [[= <- <-]|Hin].
  - rewrite Hro in H. simpl in H. destruct (lstat pin) as [isDir|]; [by exists isDir|done].
  - destruct (negb _); [by eapply IH|]. destruct (lstat q); [|done]. by eapply IH.
Qed.

(** An access under its mediated name, on a tree where the plan is mounted:
    the ancestors of a target are directories, a read-only target has the kind
    of its pinned source, and a regular file has nothing below it. *)
Definition mediated_as (es : list sessionFilesystemExposure) (pins : list string) (l : list string) (dir : bool) : Prop :=
  (∀ e, e ∈ es → pathStrictlyWithin (render l) (Target e) = true → dir = true) ∧
  (∀ e pin, (e, pin) ∈ zip es pins → RequestedReadOnly e = true → Target e = render l → lstat pin = Some dir) ∧
  (∀ e pin, (e, pin) ∈ zip es pins → RequestedReadOnly e = true → lstat pin = Some false → pathStrictlyWithin (Target e) (render l) = false).
End projected.

(** The innermost mount over a path is a read-only one. *)
Definition innermost_read_only (es : list sessionFilesystemExposure) (p : string) : Prop :=
  ∃ e, e ∈ es ∧ RequestedReadOnly e = true ∧ pathWithin (Target e) p = true ∧
       ∀ e', e' ∈ es → pathWithin (Target e') p = true → pathWithin (Target e') (Target e) = true.

(** Among targets over a path, one is innermost. *)
Lemma innermost_exists (es : list sessionFilesystemExposure) p e :
  Forall (λ e, canonical (Target e) = true) es → canonical p = true → e ∈ es → pathWithin (Target e) p = true →
  ∃ m, m ∈ es ∧ pathWithin (Target m) p = true ∧ ∀ e', e' ∈ es → pathWithin (Target e') p = true → pathWithin (Target e') (Target m) = true.
Proof.
  intros Hc Hp He Hw. revert e He Hw. induction Hc as [|x es Hx Hc IH]; [by intros e ?%elem_of_nil|]. intros e He Hw.
  destruct (decide (Exists (λ e, pathWithin (Target e) p = true) es)) as [(y & Hy & Hyw)%Exists_exists|Hno].
  - destruct (IH y Hy Hyw) as (m & Hm & Hmw & Hmax). assert (Hcm : canonical (Target m) = true) by (by apply (proj1 (Forall_forall _ _) Hc)).
    destruct (pathWithin (Target x) p) eqn:Ex.
    + destruct (pathWithin_chain (Target x) (Target m) p Hx Hcm Hp Ex Hmw) as [H|H].
      * exists m. split; [by right|]. split; [done|]. intros e' [->|He']%elem_of_cons Hw'; [done|by apply Hmax].
      * exists x. split; [by left|]. split; [done|]. intros e' [->|He']%elem_of_cons Hw'; [apply pathWithin_refl|].
        eapply (pathWithin_trans _ (Target m)); [|done..|by apply Hmax|done]. by apply (proj1 (Forall_forall _ _) Hc).
    + exists m. split; [by right|]. split; [done|]. intros e' [->|He']%elem_of_cons Hw'; [by rewrite Ex in Hw'|by apply Hmax].
  - assert (Hn : ∀ e', e' ∈ es → pathWithin (Target e') p = true → False) by (intros e' ? ?; apply Hno, Exists_exists; by exists e').
    apply elem_of_cons in He as [->|He]; [|by destruct (Hn e)]. exists x. split; [by left|]. split; [done|].
    intros e' [->|He']%elem_of_cons Hw'; [apply pathWithin_refl|by destruct (Hn e')].
Qed.

Lemma comps_render_canonical t : canonical t = true → render (comps t) = t.
Proof. intros Hc. symmetry. by apply canonical_inv. Qed.

Section exact.
Context (lstat : string → option bool) (es : list sessionFilesystemExposure) (pins : list string) (plan : workloadAppArmorTargetPlan).
Context (Hplan : workloadAppArmorTargetPlanFromExposures lstat es pins = Some plan).
Context (Htargets : Forall (λ e, canonical (Target e) = true ∧ Target e ≠ "/") es).
Context (l : list string) (dir : bool) (Hl : Forall proper l) (Hmed : mediated_as lstat es pins l dir).

Lemma target_canonical e : e ∈ es → canonical (Target e) = true ∧ comps (Target e) ≠ [] ∧ Forall proper (comps (Target e)).
Proof.
  intros He. destruct (proj1 (Forall_forall _ _) Htargets e He) as [Hc Hne]. destruct (canonical_inv _ Hc) as [E Hp].
  split_and!; [done| |done]. intros En. rewrite En in E. by apply Hne.
Qed.

Lemma plan_entries :
  (∀ w, w ∈ plan_RW plan ↔ ∃ e, e ∈ es ∧ rw_entry w e) ∧ (∀ t, t ∈ plan_RO plan ↔ ∃ e pin, (e, pin) ∈ zip es pins ∧ e ∈ es ∧ ro_entry lstat t (e, pin)).
Proof.
  unfold workloadAppArmorTargetPlanFromExposures in Hplan. case_bool_decide as Hlen; [done|].
  destruct (project_spec _ _ _ _ _ Hplan) as [HW HR]; [exact Hlen|]. cbn [plan_RW plan_RO] in *. split.
  - intros w. rewrite HW. split; [by intros [?%elem_of_nil|[_ ?]]|]. intros (e & He & Hr & <-). right. split; [|by exists e].
    destruct (target_canonical e He) as (Hc & _). by destruct (Target e).
  - intros t. rewrite HR. split.
    + intros [?%elem_of_nil|([e pin] & Hin & Hro)]; [done|]. exists e, pin. split_and!; [done| |done]. by apply elem_of_zip_l in Hin.
    + intros (e & pin & Hin & _ & Hro). right. by exists (e, pin).
Qed.

Lemma rw_comps : ∃ rw, Forall (Forall proper) rw ∧ plan_RW plan = render <$> rw ∧ ∀ e, e ∈ es → RequestedReadOnly e = false ↔ comps (Target e) ∈ rw ∧ RequestedReadOnly e = false.
Proof.
  exists (comps <$> plan_RW plan). destruct plan_entries as [HW _]. split_and!.
  - apply Forall_fmap, Forall_forall. intros w (e & He & _ & <-)%HW. by apply target_canonical.
  - rewrite <-list_fmap_compose. rewrite <-(list_fmap_id (plan_RW plan)) at 1. apply list_fmap_ext. intros i w Hw%list_elem_of_lookup_2.
    apply HW in Hw as (e & He & _ & <-). symmetry. apply comps_render_canonical. by apply target_canonical.
  - intros e He. split; [|tauto]. intros Hr. split; [|done]. apply list_elem_of_fmap_2, HW. by exists e.
Qed.

Lemma rw_comps_inv rw : Forall (Forall proper) rw → plan_RW plan = render <$> rw → ∀ w, w ∈ rw → ∃ e, e ∈ es ∧ RequestedReadOnly e = false ∧ Target e = render w ∧ comps (Target e) = w.
Proof.
  intros Hrw E w Hw. destruct plan_entries as [HW _]. destruct (proj1 (HW (render w))) as (e & He & Hr & Ht).
  { rewrite E. by apply list_elem_of_fmap_2. }
  exists e. split_and!; [done..|]. rewrite Ht. apply comps_render. by apply (proj1 (Forall_forall _ _) Hrw).
Qed.

Lemma within_comps e p : e ∈ es → Forall proper p → pathWithin (Target e) (render p) = bool_decide (comps (Target e) `prefix_of` p).
Proof. intros He Hp. rewrite pathWithin_spec, comps_render; [done..|by apply target_canonical|by apply canonical_render]. Qed.

(** One read-only target denies what it covers, but what a read-write target strictly below it covers. *)
Lemma target_exact t e pin :
  (e, pin) ∈ zip es pins → e ∈ es → ro_entry lstat t (e, pin) →
  target_denies (rot_Target t) (rot_RegularFile t) (plan_RW plan) (mediated l dir) ↔
  pathWithin (Target e) (render l) = true ∧
  ∀ e', e' ∈ es → RequestedReadOnly e' = false → Target e' ≠ Target e → pathWithin (Target e) (Target e') = true → pathWithin (Target e') (render l) = false.
Proof.
  intros Hzip He (Hro & Hst & Ht). cbn [fst snd] in *. destruct (target_canonical e He) as (Hc & Hne & Hp). destruct Hmed as (Hanc & Hkind & Hfile).
  destruct rw_comps as (rw & Hrw & Erw & Hin). rewrite Erw, <-Ht, <-(comps_render_canonical (Target e)) at 1 by done.
  assert (Hcov : (∀ w, w ∈ rw → w ≠ comps (Target e) → comps (Target e) `prefix_of` w → ¬ w `prefix_of` l) ↔
    ∀ e', e' ∈ es → RequestedReadOnly e' = false → Target e' ≠ Target e → pathWithin (Target e) (Target e') = true → pathWithin (Target e') (render l) = false).
  { split.
    - intros H e' He' Hr' Hne' Hw. destruct (target_canonical e' He') as (Hc' & _ & Hp'). rewrite within_comps by done. apply bool_decide_eq_false.
      rewrite <-(comps_render_canonical (Target e')), within_comps, bool_decide_eq_true in Hw by done.
      apply H; [by apply (Hin e' He')|intros Eq; by apply Hne', comps_inj|done].
    - intros H w Hw Hwne Hpre Hl'. destruct (rw_comps_inv rw Hrw Erw w Hw) as (e' & He' & Hr' & Ht' & Hcw). specialize (H e' He' Hr').
      rewrite within_comps, bool_decide_eq_false, Hcw in H by done. apply H; [intros Eq; by rewrite <-Hcw, Eq in Hwne| |done].
      rewrite Ht', within_comps; [by apply bool_decide_eq_true|done|by apply (proj1 (Forall_forall _ _) Hrw)]. }
  rewrite <-Hcov, within_comps, bool_decide_eq_true by done. destruct (rot_RegularFile t) eqn:Ereg.
  - rewrite file_denies; [|done..|].
    + split.
      * intros <-. split; [done|]. intros w _ Hwne H1 H2. by apply Hwne, (anti_symm prefix).
      * intros [Hpre _]. specialize (Hfile e pin Hzip Hro Hst).
        rewrite pathStrictlyWithin_spec, comps_render, bool_decide_eq_false in Hfile by (done || by apply canonical_render).
        rewrite <-(comps_render l) by done. f_equal. apply dec_stable. intros Hn. apply Hfile. split; [done|done].
    + intros <-. rewrite comps_render_canonical in Hkind by done. specialize (Hkind e pin Hzip Hro eq_refl). cbn in Hst. congruence.
  - apply directory_denies; [done..|]. intros w Hw Hpre Hcase. destruct (decide (w = l)) as [->|Hwl].
    + destruct Hcase as [?| ->]; [done|]. rewrite comps_render_canonical in Hkind by done. specialize (Hkind e pin Hzip Hro eq_refl). cbn in Hst. congruence.
    + assert (∃ e', e' ∈ es ∧ Target e' = render w ∧ comps (Target e') = w) as (e' & He' & Ht' & Hcw).
      { destruct Hw as [->|Hw]; [exists e; by rewrite comps_render_canonical|]. destruct (rw_comps_inv rw Hrw Erw w Hw) as (e' & ? & _ & ?). by exists e'. }
      apply (Hanc e' He'). destruct (target_canonical e' He') as (Hc' & _ & Hp').
      rewrite pathStrictlyWithin_spec, comps_render, Hcw by (done || by apply canonical_render). apply bool_decide_eq_true. split; [done|].
      rewrite Ht'. intros Eq. apply render_inj in Eq; [done..|]. by rewrite <-Hcw.
Qed.
End exact.

(** ** Reading patterns *)

(** What the profile relies on in apparmor_parser's reading of a pattern
    (apparmor.d(5)): it agrees with the documented meaning on the syntax the
    generator writes; a pattern below a literal directory matches only names
    below it; and the variable PROC of tunables/global is the mount of procfs. *)
Record aare_reading (aare_matches : string → string → bool) : Prop := {
  reading_pattern p name : wf_pattern p = true → aare_matches (pattern_text p) name = matches p name;
  reading_directory d p name : canonical d = true → d ≠ "/" → str_forall literal_safe d = true →
    aare_matches (d +:+ "/" +:+ p) name = true → ∃ r, name = d +:+ "/" +:+ r;
  reading_variable p name : aare_matches ("@{PROC}" +:+ p) name = aare_matches ("/proc" +:+ p) name;
}.

(** Such a reading: the variable is expanded, then the text is read. *)
Definition expand_variable (text : string) : string :=
  match CutPrefix text "@{PROC}" with Some p => "/proc" +:+ p | None => text end.
Definition variable_matches (text name : string) : bool := text_matches (expand_variable text) name.

Lemma read_literals w n s q r :
  str_forall literal_safe w = true → read_seq n (w +:+ s) = Some (q, r) → ∃ q', q = lits w ++ q'.
Proof.
  revert n q. induction w as [|c w IH]; intros n q Hw H; [by exists q|]. cbn [str_forall] in Hw. apply andb_true_iff in Hw as [Hc Hw].
  destruct n as [|n]; [done|].
  assert (E : String c w +:+ s = appArmorLiteralByte c +:+ (w +:+ s)) by (unfold appArmorLiteralByte; by rewrite Hc).
  rewrite E, read_seq_literal in H. destruct (read_seq n (w +:+ s)) as [[q1 r1]|] eqn:Eq; [|done]. cbn [mbind option_bind] in H. injection H as <- <-.
  destruct (IH _ _ Hw Eq) as [q' ->]. by exists q'.
Qed.

Lemma text_matches_below w p name :
  str_forall literal_safe w = true → text_matches (w +:+ p) name = true → ∃ r, name = w +:+ r.
Proof.
  intros Hw. unfold text_matches, read_pattern. destruct (read_seq _ _) as [[q r]|] eqn:E; [|done]. apply read_literals in E as [q' ->]; [|done].
  destruct r; [|done]. intros (r & -> & _)%matches_lits. by exists r.
Qed.

Lemma expand_other c s : c ≠ "@"%char → expand_variable (String c s) = String c s.
Proof. intros Hc. unfold expand_variable. cbn [CutPrefix]. by rewrite bool_decide_false. Qed.

Lemma expand_pattern p : expand_variable (pattern_text p) = pattern_text p.
Proof.
  destruct p as [|a p]; [done|]. rewrite <-(str_app_nil_r (pattern_text (a :: p))), text_cons.
  destruct a as [c|l| | | |l]; [|by apply expand_other..]. cbn [aare_text]. destruct (literal_head c (pattern_text p +:+ "")) as (b & r & -> & Hb).
  apply expand_other. intros ->. by destruct Hb.
Qed.

Lemma str_forall_snoc P w c : str_forall P w = true → P c = true → str_forall P (w +:+ String c "") = true.
Proof. intros Hw Hc. induction w as [|b w IH]; cbn [String.app str_forall] in *; [by rewrite Hc|]. apply andb_true_iff in Hw as [-> Hw]. by apply IH. Qed.

Lemma variable_reading : aare_reading variable_matches.
Proof.
  constructor; unfold variable_matches.
  - intros p name Hp. rewrite expand_pattern. by apply text_matches_spec.
  - intros d p name Hc _ Hd. destruct d as [|c d]; [done|]. assert (c ≠ "@"%char) as Hne by (intros ->; done). cbn [String.app].
    rewrite expand_other by done. change (String c (d +:+ String "/" p)) with (String c d +:+ ("/" +:+ p)). rewrite <-str_app_assoc.
    intros (r & ->)%text_matches_below; [exists r; by rewrite str_app_assoc|]. by apply str_forall_snoc.
  - done.
Qed.

(** Whether a file rule of the profile denies the writes to a mediated name. *)
Definition profile_denies (aare_matches : string → string → bool) (profile name : string) : Prop :=
  ∃ pat, pat ∈ profile_patterns profile ∧ aare_matches pat name = true.
Definition baseline_denies (aare_matches : string → string → bool) (name : string) : Prop :=
  ∃ pat, pat ∈ baseline_patterns ∧ aare_matches pat name = true.

(** The baseline is confined to the kernel's interfaces. *)
Definition kernel_interface (l : list string) : Prop := head l = Some "proc" ∨ head l = Some "sys".

Lemma below_top aare_matches (R : aare_reading aare_matches) top p l dir :
  segment top → canonical (String slash top) = true → str_forall literal_safe (String slash top) = true → Forall proper l →
  aare_matches (String slash top +:+ "/" +:+ p) (mediated l dir) = true → head l = Some top.
Proof.
  intros Ht Hc Hs Hl Hm. apply (reading_directory _ R) in Hm as [r E]; [|done| |done].
  - destruct (proj1 (mediated_below [top] l dir r ltac:(by constructor) (proper_segments _ Hl))) as (r' & -> & _); [|done].
    rewrite E. unfold path_text. cbn. by rewrite str_app_nil_r.
  - intros [= ->]. by destruct Ht.
Qed.

Lemma baseline_kernel aare_matches (R : aare_reading aare_matches) l dir :
  Forall proper l → baseline_denies aare_matches (mediated l dir) → kernel_interface l.
Proof.
  intros Hl (pat & Hp & Hm). unfold baseline_patterns in Hp. apply elem_of_app in Hp as [Hp|Hp].
  - left. assert (∃ p, pat = "@{PROC}" +:+ "/" +:+ p) as [p ->].
    { unfold proc_baseline in Hp. rewrite !elem_of_cons, elem_of_nil in Hp. destruct_or! Hp; subst; by eexists. }
    rewrite (reading_variable _ R) in Hm. by apply (below_top aare_matches R "proc" p l dir).
  - right. assert (∃ p, pat = "/sys" +:+ "/" +:+ p) as [p ->].
    { unfold sys_baseline in Hp. rewrite !elem_of_cons, elem_of_nil in Hp. destruct_or! Hp; subst; by eexists. }
    by apply (below_top aare_matches R "sys" p l dir).
Qed.

Lemma profile_denies_plan (aare_matches : string → string → bool) (R : aare_reading aare_matches) lstat es pins plan operationID abi30 l dir :
  workloadAppArmorTargetPlanFromExposures lstat es pins = Some plan →
  Forall (λ e, canonical (Target e) = true ∧ Target e ≠ "/") es → NoDup (Target <$> es) →
  one_line operationID → Forall proper l → mediated_as lstat es pins l dir →
  profile_denies aare_matches (renderWorkloadAppArmorProfile (workloadAppArmorProfileName operationID) plan abi30) (mediated l dir) ↔
  innermost_read_only es (render l) ∨ baseline_denies aare_matches (mediated l dir).
Proof.
  intros Hplan Htargets Hnd Hop Hl Hmed. unfold profile_denies, baseline_denies.
  destruct (plan_entries lstat es pins plan Hplan Htargets) as [HW HR].
  destruct (rw_comps lstat es pins plan Hplan Htargets) as (rw & Hrw & Erw & _).
  assert (Hcan : ∀ t, t ∈ plan_RO plan → ∃ ls, Forall proper ls ∧ ls ≠ [] ∧ rot_Target t = render ls).
  { intros t (e & pin & _ & He & _ & _ & Ht)%HR. exists (comps (Target e)). cbn in Ht.
    destruct (target_canonical es Htargets e He) as (Hc & Hne & Hp). by rewrite <-Ht, comps_render_canonical. }
  assert (Hpat : ∀ pat, pat ∈ profile_patterns (renderWorkloadAppArmorProfile (workloadAppArmorProfileName operationID) plan abi30) ↔
    pat ∈ baseline_patterns ∨ ∃ t, t ∈ plan_RO plan ∧ pat ∈ target_patterns plan t).
  { intros pat. apply rendered_patterns; [by apply (one_line_app appArmorWorkloadProfilePrefix)|]. intros t _ p Hp. rewrite target_text in Hp.
    apply list_elem_of_fmap in Hp as (q & -> & _). apply one_line_rule. }
  assert (Hden : (∃ pat, (∃ t, t ∈ plan_RO plan ∧ pat ∈ target_patterns plan t) ∧ aare_matches pat (mediated l dir) = true) ↔
    ∃ t, t ∈ plan_RO plan ∧ target_denies (rot_Target t) (rot_RegularFile t) (plan_RW plan) (mediated l dir)).
  { setoid_rewrite target_text. unfold target_denies. split.
    - intros (pat & (t & Ht & (q & -> & Hq)%list_elem_of_fmap) & Hm). exists t. split; [done|]. exists q. split; [done|]. rewrite <-(reading_pattern _ R); [done|].
      destruct (Hcan t Ht) as (ls & Hls & Hne & E). rewrite E, Erw in Hq. by apply target_asts_wf in Hq.
    - intros (t & Ht & q & Hq & Hm). exists (pattern_text q). split; [exists t; split; [done|by apply list_elem_of_fmap_2]|]. rewrite (reading_pattern _ R); [done|].
      destruct (Hcan t Ht) as (ls & Hls & Hne & E). rewrite E, Erw in Hq. by apply target_asts_wf in Hq. }
  assert (Hsplit : ∀ P : string → Prop, (∃ pat, (pat ∈ baseline_patterns ∨ P pat) ∧ aare_matches pat (mediated l dir) = true) ↔
    (∃ pat, P pat ∧ aare_matches pat (mediated l dir) = true) ∨ ∃ pat, pat ∈ baseline_patterns ∧ aare_matches pat (mediated l dir) = true) by naive_solver.
  setoid_rewrite Hpat. rewrite Hsplit. apply or_iff_compat_r.
  rewrite Hden. clear Hden Hpat Hcan. pose proof (target_exact lstat es pins plan Hplan Htargets l dir Hl Hmed) as Hexact. split.
  - intros (t & Ht & Hd). apply HR in Ht as (e & pin & Hzip & He & Hro). apply (Hexact t e pin Hzip He Hro) in Hd as [Hw Hno].
    destruct (innermost_exists es (render l) e) as (m & Hm & Hmw & Hmax); [by eapply Forall_impl; [exact Htargets|intros x [? _]]|by apply canonical_render|done..|].
    exists m. split_and!; [done| |done..]. destruct (RequestedReadOnly m) eqn:Er; [done|]. exfalso.
    assert (Hne : Target m ≠ Target e).
    { intros Eq. apply list_elem_of_lookup in Hm as [i Hi]. apply list_elem_of_lookup in He as [j Hj].
      assert (i = j) as -> by (eapply NoDup_lookup; [exact Hnd|by rewrite list_lookup_fmap, Hi|rewrite list_lookup_fmap, Hj; simpl; by f_equal]).
      rewrite Hi in Hj. injection Hj as ->. destruct Hro as [Hro _]. cbn in Hro. congruence. }
    specialize (Hno m Hm Er Hne (Hmax e He Hw)). congruence.
  - intros (e & He & Hro & Hw & Hmax). apply list_elem_of_lookup in He as [i Hi]. pose proof (list_elem_of_lookup_2 _ _ _ Hi) as He.
    pose proof Hplan as Hproj. unfold workloadAppArmorTargetPlanFromExposures in Hproj. case_bool_decide as Hlen; [done|].
    assert (∃ pin, (e, pin) ∈ zip es pins) as (pin & Hzip).
    { assert (is_Some (pins !! i)) as [pin Hpin] by (apply lookup_lt_is_Some; rewrite <-Hlen; by apply lookup_lt_is_Some; eexists).
      exists pin. apply list_elem_of_lookup. exists i. rewrite lookup_zip_with, Hi, Hpin. done. }
    assert (∃ isDir, lstat pin = Some isDir) as (isDir & Hst) by (eapply project_lstat; [exact Hproj|exact Hzip|exact Hro]).
    exists (mkROTarget (Target e) (negb isDir)). assert (Hent : ro_entry lstat (mkROTarget (Target e) (negb isDir)) (e, pin)) by (unfold ro_entry; cbn; by rewrite negb_involutive).
    split; [apply HR; by exists e, pin|]. apply (Hexact _ e pin Hzip He Hent). split; [done|]. intros e' He' Hr' Hne Hin.
    destruct (pathWithin (Target e') (render l)) eqn:E; [|done]. exfalso. apply Hne.
    apply pathWithin_antisym; [by apply (target_canonical es Htargets)..|by apply Hmax|done].
Qed.

(** C6. Of all the file rules written in the generated profile, some rule denies
    the writes to a mediated name exactly when the innermost mount of the
    accepted plan over it is a read-only one or the fixed baseline denies it, and
    the baseline is confined to /proc and /sys. So outside these two trees the
    profile denies exactly the read-only region: nothing of a read-only target
    stays writable, whatever bytes its segments have, and no read-write target
    below it, at any depth, is denied. [aare_matches] is any reading of
    patterns with the documented properties that [aare_reading] lists. *)
Theorem workload_profile_exact (aare_matches : string → string → bool) (R : aare_reading aare_matches) lstat es pins plan operationID abi30 l dir :
  workloadAppArmorTargetPlanFromExposures lstat es pins = Some plan →
  Forall (λ e, canonical (Target e) = true ∧ Target e ≠ "/") es → NoDup (Target <$> es) →
  one_line operationID → Forall proper l → mediated_as lstat es pins l dir →
  let denied := profile_denies aare_matches (renderWorkloadAppArmorProfile (workloadAppArmorProfileName operationID) plan abi30) (mediated l dir) in
  (denied ↔ innermost_read_only es (render l) ∨ baseline_denies aare_matches (mediated l dir)) ∧
  (baseline_denies aare_matches (mediated l dir) → kernel_interface l).
Proof.
  intros Hplan Ht Hnd Hop Hl Hmed denied. split; [by eapply profile_denies_plan|by apply baseline_kernel].
Qed.

Module Example.
(** A read-only work tree with a writable [out-dir] and a read-only file. *)
Definition lstat (p : string) : option bool := Some (bool_decide (p ≠ "/pins/2")).
Definition exposure (target : string) (ro : bool) : sessionFilesystemExposure := mkExposure ("/srv" +:+ target) target ro AllowedRootAccessReadWrite true.
Definition es : list sessionFilesystemExposure := [exposure "/work" true; exposure "/work/a/out-dir" false; exposure "/etc/app.conf" true].
Definition pins : list string := ["/pins/0"; "/pins/1"; "/pins/2"].
Definition plan : workloadAppArmorTargetPlan := mkTargetPlan [mkROTarget "/work" false; mkROTarget "/etc/app.conf" true] ["/work/a/out-dir"].

Lemma proper_check l : forallb (λ w, no_sep w && bool_decide (w ≠ "" ∧ w ≠ "." ∧ w ≠ "..")) l = true → Forall proper l.
Proof.
  intros H. apply Forall_forall. intros w Hw. apply list_elem_of_In in Hw. apply (proj1 (forallb_forall _ _) H) in Hw.
  apply andb_true_iff in Hw as [H1 H2%bool_decide_eq_true]. by split.
Qed.
Lemma targets_ok : Forall (λ e, canonical (Target e) = true ∧ Target e ≠ "/") es.
Proof. repeat constructor; try reflexivity; discriminate. Qed.
Lemma targets_nodup : NoDup (Target <$> es).
Proof. apply (bool_decide_unpack _). vm_compute. exact I. Qed.
Lemma mediated_check l dir :
  forallb (λ e, implb (pathStrictlyWithin (render l) (Target e)) dir) es &&
  forallb (λ ep, implb (RequestedReadOnly ep.1 && bool_decide (Target ep.1 = render l)) (bool_decide (lstat ep.2 = Some dir))) (zip es pins) &&
  forallb (λ ep, implb (RequestedReadOnly ep.1 && bool_decide (lstat ep.2 = Some false)) (negb (pathStrictlyWithin (Target ep.1) (render l)))) (zip es pins) = true →
  mediated_as lstat es pins l dir.
Proof.
  intros [[H1 H2]%andb_true_iff H3]%andb_true_iff. rewrite forallb_forall in H1, H2, H3. split; [|split].
  - intros e He%list_elem_of_In Hs. specialize (H1 _ He). rewrite Hs in H1. done.
  - intros e pin He%list_elem_of_In Hr Hs. specialize (H2 _ He). cbn [fst snd] in H2. rewrite Hr, (bool_decide_true _ Hs) in H2. by apply bool_decide_eq_true in H2.
  - intros e pin He%list_elem_of_In Hr Hs. specialize (H3 _ He). cbn [fst snd] in H3. rewrite Hr, (bool_decide_true _ Hs) in H3. by apply negb_true_iff in H3.
Qed.
Lemma out_read_only : innermost_read_only es "/work/a/out".
Proof.
  exists (exposure "/work" true). split; [by left|]. split; [done|]. split; [vm_compute; reflexivity|].
  intros e' He'. unfold es in He'. rewrite !elem_of_cons, elem_of_nil in He'. destruct He' as [->|[->|[->|[]]]]; vm_compute; done.
Qed.
Lemma dir_writable : ¬ innermost_read_only es "/work/a/out-dir/x".
Proof.
  intros (e & He & Hr & Hw & Hmax). specialize (Hmax (exposure "/work/a/out-dir" false) ltac:(right; left) ltac:(vm_compute; reflexivity)).
  unfold es in He. rewrite !elem_of_cons, elem_of_nil in He. destruct He as [->|[->|[->|[]]]]; vm_compute in Hmax, Hw, Hr; discriminate.
Qed.
End Example.

(** In the example: the read-only tree is denied, the read-write directory in it
    is not, and the baseline denies a write under /proc. *)
Lemma workload_profile_exact_witness :
  let text := renderWorkloadAppArmorProfile (workloadAppArmorProfileName "op_1") Example.plan true in
  profile_denies variable_matches text "/work/a/out/" ∧ ¬ profile_denies variable_matches text "/work/a/out-dir/x" ∧
  profile_denies variable_matches text "/proc/kcore".
Proof.
  pose proof (λ l dir Hl Hm, workload_profile_exact variable_matches variable_reading Example.lstat Example.es Example.pins Example.plan "op_1" true l dir
    eq_refl Example.targets_ok Example.targets_nodup eq_refl (Example.proper_check l Hl) (Example.mediated_check l dir Hm)) as H.
  split; [|split].
  - apply (H ["work"; "a"; "out"] true eq_refl eq_refl). left. exact Example.out_read_only.
  - intros Hd. destruct (H ["work"; "a"; "out-dir"; "x"] false eq_refl eq_refl) as [Hiff Hbase]. apply Hiff in Hd as [Hd|Hd].
    + by apply Example.dir_writable.
    + by destruct (Hbase Hd).
  - apply (H ["proc"; "kcore"] false eq_refl eq_refl). right. exists "@{PROC}/kcore". split; [|vm_compute; reflexivity].
    unfold baseline_patterns, proc_baseline. rewrite elem_of_app, !elem_of_cons. left. tauto.
Defined.
