(* ===== verification/WorkloadMac.v ===== *)
(** * WorkloadMac: src/workload_mac.go — the workload MAC coordinator

    The host directories it owns (the ownership records under the state root,
    the transient directories under the runtime root, the pin layouts), the
    interface it has to its backend, and its operations as procedures: every
    system call and every backend action is one atomic action, so a crash or
    another operation's step may come between any two. *)
From S2P Require Import Prelude Filepath AllowedRoots GoStrings Session Operation Proc Lifecycle RunRequest Run.
Local Open Scope Z_scope.

Definition LSMAppArmor : string := "apparmor".
Definition LSMSELinux : string := "selinux".

(** ** Records *)

Definition workloadMACStateSchema : Z := 1.

(** The fields of the durable record; the resolved directories follow from the
    operation ID. *)
Record workloadMACRecord := mkRecord {
  wr_Schema : Z; wr_OperationID : string; wr_SessionID : string; wr_Backend : string; wr_CreatedAt : string }.

Record workloadPreparation := mkPreparation {
  wp_OperationID : string; wp_SessionID : string; wp_Exposures : list sessionFilesystemExposure; wp_PinnedSources : list string }.

Definition sessionIDHexLength : nat := 32.

Definition hex_rune (r : Z) : bool := in_range 48 57 r || in_range 97 102 r.
Definition isCanonicalPrefixedHexID (value prefix : string) (hexLength : nat) : bool :=
  if bool_decide (String.length value ≠ (String.length prefix + hexLength)%nat) then false
  else match CutPrefix value prefix with
       | None => false
       | Some rest => forallb (λ p, hex_rune p.1) (range rest)
       end.
Definition isCanonicalOperationID (value : string) : bool := isCanonicalPrefixedHexID value operationIDPrefix operationIDHexLength.
Definition isCanonicalSessionIDShape (value : string) : bool := isCanonicalPrefixedHexID value sessionIDPrefix sessionIDHexLength.

(** What the [ownership] file of a state directory decodes to: exactly one JSON
    value of exactly the record's fields, or nothing usable. *)
Inductive ownership_file := own_missing | own_malformed | own_record (rec : workloadMACRecord).

(** An entry of the state root: a real directory, or anything else. *)
Inductive state_entry := entry_foreign | entry_dir (own : ownership_file).

(** ** Pin layouts *)

Inductive pin_node := pin_symlink | pin_irregular | pin_destination (mounted : bool).
Inductive pin_layout := pins_foreign | pins_dir (pins : gmap string pin_node).

Definition isCanonicalDecimalIndex (name : string) : bool :=
  if bool_decide (name = "") then false
  else if negb (forallb (λ p, in_range 48 57 p.1) (range name)) then false
  else negb (bool_decide ((1 < String.length name)%nat) && String.prefix "0" name).

(** ** The backend *)

Inductive backend_answer (H : Type) := backend_prepared (prepared : preparedWorkloadMAC) (handle : H) | backend_failed | backend_rollback_retained.
Arguments backend_prepared {H}. Arguments backend_failed {H}. Arguments backend_rollback_retained {H}.

(** [workloadMACBackend] over the kernel and the backend's own files.
    [wb_release] is the closure [preparedWorkloadMAC.cleanup]; [wb_drop_state]
    and [wb_drop_runtime] are what removing an operation's directories does to
    the backend's files in them; the kernel refuses to remove a directory with a
    mount in it. *)
Class workloadMACBackend (K : Type) := {
  wb_handle : Type;
  wb_backend : string;
  wb_prepare : workloadPreparation → proc K (backend_answer wb_handle);
  wb_release : string → wb_handle → proc K bool;
  wb_validate : workloadMACRecord → proc K bool;
  wb_cleanup : workloadMACRecord → proc K bool;
  wb_drop_state : string → K → K;
  wb_drop_runtime : string → K → bool * K }.

(** ** The host *)

(** How a system call ends: it succeeds, it fails without effect, or it ends
    with part of its effect ([RemoveAll] that stops half-way, an unmount whose
    answer hides that the mount is still there). *)
Inductive io := io_ok | io_fail | io_partial.

Record whost (K : Type) := mkWhost {
  wh_state : gmap string state_entry; wh_runtime : gset string; wh_pins : gmap string pin_layout;
  wh_once : gmap string bool; wh_io : list io; wh_kernel : K }.
Arguments mkWhost {K}. Arguments wh_state {K}. Arguments wh_runtime {K}. Arguments wh_pins {K}.
Arguments wh_once {K}. Arguments wh_io {K}. Arguments wh_kernel {K}.

(** Each in turn, up to the first failure. *)
Fixpoint all_of {S} (l : list (proc S bool)) : proc S bool :=
  match l with
  | [] => mret true
  | m :: l => ok ← m; if ok : bool then all_of l else mret false
  end.

Section coordinator.
Context {K : Type} `{!workloadMACBackend K}.
Implicit Types s : whost K.

Definition with_state (m : gmap string state_entry) s : whost K := mkWhost m (wh_runtime s) (wh_pins s) (wh_once s) (wh_io s) (wh_kernel s).
Definition with_runtime (r : gset string) s : whost K := mkWhost (wh_state s) r (wh_pins s) (wh_once s) (wh_io s) (wh_kernel s).
Definition with_layouts (p : gmap string pin_layout) s : whost K := mkWhost (wh_state s) (wh_runtime s) p (wh_once s) (wh_io s) (wh_kernel s).
Definition with_once (o : gmap string bool) s : whost K := mkWhost (wh_state s) (wh_runtime s) (wh_pins s) o (wh_io s) (wh_kernel s).
Definition with_io (l : list io) s : whost K := mkWhost (wh_state s) (wh_runtime s) (wh_pins s) (wh_once s) l (wh_kernel s).
Definition with_kernel (k : K) s : whost K := mkWhost (wh_state s) (wh_runtime s) (wh_pins s) (wh_once s) (wh_io s) k.

(** One system call. *)
Definition syscall {A} (f : io → whost K → A * whost K) : proc (whost K) A :=
  atom (λ s, match wh_io s with [] => f io_ok s | x :: l => f x (with_io l s) end).
(** A call that only reads. *)
Definition look {A} (f : whost K → A) : proc (whost K) (option A) :=
  syscall (λ x s, (match x with io_ok => Some (f s) | _ => None end, s)).

Definition backend {A} (m : proc K A) : proc (whost K) A := lift wh_kernel with_kernel m.

(** ** Directories *)

(** A call whose effect is not modelled. *)
Definition io_done : proc (whost K) bool := syscall (λ x s, (match x with io_ok => true | _ => false end, s)).

Definition ensureWorkloadStateRoot : proc (whost K) bool := io_done.

Definition mkdir_state_io (op : string) (x : io) s : bool * whost K :=
  match x, wh_state s !! op with
  | io_ok, None => (true, with_state (<[op := entry_dir own_missing]> (wh_state s)) s)
  | _, _ => (false, s)
  end.
Definition mkdir_state (op : string) : proc (whost K) bool := syscall (mkdir_state_io op).
Definition mkdir_runtime_io (op : string) (x : io) s : bool * whost K :=
  match x with
  | io_ok => if bool_decide (op ∈ wh_runtime s) then (false, s) else (true, with_runtime ({[op]} ∪ wh_runtime s) s)
  | _ => (false, s)
  end.
Definition mkdir_runtime (op : string) : proc (whost K) bool := syscall (mkdir_runtime_io op).

(** [removeWorkloadMACStateDir] of the state root: the ownership record goes
    with the directory. *)
Definition remove_state_io (op : string) (x : io) s : bool * whost K :=
  match x with
  | io_ok => (true, with_kernel (wb_drop_state op (wh_kernel s)) (with_state (delete op (wh_state s)) s))
  | io_partial => (false, with_kernel (wb_drop_state op (wh_kernel s)) (with_state (alter (λ _, entry_dir own_missing) op (wh_state s)) s))
  | io_fail => (false, s)
  end.
Definition remove_state_dir (op : string) : proc (whost K) bool := syscall (remove_state_io op).
(** Of the runtime root. *)
Definition remove_runtime_io (op : string) (x : io) s : bool * whost K :=
  let '(ok, k) := wb_drop_runtime op (wh_kernel s) in
  match x with
  | io_ok => (ok, with_kernel k (if ok then with_runtime (wh_runtime s ∖ {[op]}) s else s))
  | io_partial => (false, with_kernel k s)
  | io_fail => (false, s)
  end.
Definition remove_runtime_dir (op : string) : proc (whost K) bool := syscall (remove_runtime_io op).

(** The runtime state first, the durable record last. *)
Definition removeWorkloadMACState (op : string) : proc (whost K) bool :=
  ok ← remove_runtime_dir op; if ok : bool then remove_state_dir op else mret false.

(** The temporary file, then the rename. *)
Definition rename_record_io (op : string) (rec : workloadMACRecord) (x : io) s : bool * whost K :=
  match x with
  | io_ok => (true, with_state (alter (λ _, entry_dir (own_record rec)) op (wh_state s)) s)
  | _ => (false, s)
  end.
Definition writeWorkloadMACRecord (op : string) (rec : workloadMACRecord) : proc (whost K) bool :=
  tmp ← io_done;
  if tmp : bool then syscall (rename_record_io op rec) else mret false.

(** ** Prepare *)

Inductive wprepare_answer := wprepare_ok (prepared : preparedWorkloadMAC) (handle : wb_handle) | wprepare_failed | wprepare_retained.

Definition Prepare (now : string) (p : workloadPreparation) : proc (whost K) wprepare_answer :=
  let op := wp_OperationID p in
  let rec := mkRecord workloadMACStateSchema op (wp_SessionID p) wb_backend now in
  ok ← ensureWorkloadStateRoot;
  if negb ok then mret wprepare_failed else
  ok ← ensureWorkloadStateRoot;
  if negb ok then mret wprepare_failed else
  ok ← mkdir_state op;
  if negb ok then mret wprepare_failed else
  ok ← mkdir_runtime op;
  if negb ok then (_ ← remove_state_dir op; mret wprepare_failed) else
  ok ← writeWorkloadMACRecord op rec;
  if negb ok then (_ ← remove_state_dir op; _ ← remove_runtime_dir op; mret wprepare_failed) else
  answer ← backend (wb_prepare p);
  match answer with
  | backend_prepared prepared handle => mret (wprepare_ok prepared handle)
  | backend_rollback_retained => mret wprepare_retained
  | backend_failed =>
      ok ← backend (wb_cleanup rec);
      mret (if ok : bool then wprepare_failed else wprepare_retained)
  end.

(** [preparedWorkloadMAC.Cleanup]: the backend's cleanup runs once, every call
    returns its result. *)
Definition Cleanup (op : string) (handle : wb_handle) : proc (whost K) bool :=
  done ← atom (λ s, (wh_once s !! op, s));
  match done with
  | Some ok => mret ok
  | None => ok ← backend (wb_release op handle); atom (λ s, (ok, with_once (<[op := ok]> (wh_once s)) s))
  end.

(** ** Stale pins *)

Definition sorted (names : gset string) : list string := merge_sort str_le (elements names).

Definition pin_of (op name : string) s : option pin_node :=
  match wh_pins s !! op with Some (pins_dir pins) => pins !! name | _ => None end.
Definition set_pin (op name : string) (f : option pin_node → option pin_node) s : whost K :=
  with_layouts (alter (λ l, match l with pins_dir pins => pins_dir (partial_alter f name pins) | pins_foreign => pins_foreign end) op (wh_pins s)) s.

Definition validateStalePinEntry (op name : string) : proc (whost K) bool :=
  if negb (isCanonicalDecimalIndex name) then mret false
  else node ← look (pin_of op name); mret (match node with Some (Some (pin_destination _)) => true | _ => false end).

Definition procMountinfoContains (op name : string) : proc (whost K) (option bool) :=
  look (λ s, match pin_of op name s with Some (pin_destination mounted) => mounted | _ => false end).

(** The already-unmounted answer of the kernel is tolerated. *)
Definition unmountOwnedStalePin (op name : string) : proc (whost K) bool :=
  syscall (λ x s, match x with
                  | io_ok => (true, set_pin op name (fmap (λ n, match n with pin_destination _ => pin_destination false | n => n end)) s)
                  | io_partial => (true, s)
                  | io_fail => (false, s)
                  end).

(** [os.Remove] of a pin; the kernel refuses a mount point. *)
Definition remove_pin (op name : string) : proc (whost K) bool :=
  syscall (λ x s, match x, pin_of op name s with
                  | io_ok, Some (pin_destination true) => (false, s)
                  | io_ok, _ => (true, set_pin op name (λ _, None) s)
                  | _, _ => (false, s)
                  end).

Definition cleanup_pin (op name : string) : proc (whost K) bool :=
  ok ← validateStalePinEntry op name;
  if negb ok then mret false else
  mounted ← procMountinfoContains op name;
  match mounted with
  | None => mret false
  | Some true =>
      ok ← unmountOwnedStalePin op name;
      if negb ok then mret false else
      still ← procMountinfoContains op name;
      match still with Some false => remove_pin op name | _ => mret false end
  | Some false => remove_pin op name
  end.

(** [os.Remove] of the layout's directory, which must be empty. *)
Definition remove_layout_io (op : string) (x : io) s : bool * whost K :=
  match x, wh_pins s !! op with
  | io_ok, Some (pins_dir pins) => if bool_decide (pins = ∅) then (true, with_layouts (delete op (wh_pins s)) s) else (false, s)
  | io_ok, None => (true, s)
  | _, _ => (false, s)
  end.
Definition remove_layout (op : string) : proc (whost K) bool := syscall (remove_layout_io op).

Definition cleanupStalePinsIn (op : string) : proc (whost K) bool :=
  layout ← look (λ s, wh_pins s !! op);
  match layout with
  | None | Some (Some pins_foreign) => mret false
  | Some None => mret true
  | Some (Some (pins_dir _)) =>
      entries ← look (λ s, match wh_pins s !! op with Some (pins_dir pins) => sorted (dom pins) | _ => [] end);
      match entries with
      | None => mret false
      | Some names =>
          ok ← all_of (cleanup_pin op <$> names);
          if ok : bool then remove_layout op else mret false
      end
  end.

(** ** One operation *)

(** [cleanupPinnedMounts] of the operation's pins. *)
Definition release_pins_io (op : string) (x : io) s : bool * whost K :=
  match x with io_ok => (true, with_layouts (delete op (wh_pins s)) s) | _ => (false, s) end.

(** The workload MAC part of the cleanup and rollback sequences of the run handler. *)
Definition release_stages (op : string) (mac : proc (whost K) bool) : list (cleanupStage (proc (whost K) bool)) :=
  [mkStage cleanupStageWorkloadMAC (Some mac);
   mkStage cleanupStageSourcePins (Some (syscall (release_pins_io op)));
   mkStage cleanupStageOwnershipState (Some (removeWorkloadMACState op))].
(** The stages in order, up to the first failure. *)
Fixpoint run_cleanup (stages : list (cleanupStage (proc (whost K) bool))) : proc (whost K) (option workloadCleanupStageName) :=
  match stages with
  | [] => mret None
  | st :: stages =>
      match cs_run st with
      | None => run_cleanup stages
      | Some m => ok ← m; if ok : bool then run_cleanup stages else mret (Some (cs_name st))
      end
  end.
Definition run_stages_of (stages : list (cleanupStage (proc (whost K) bool))) : proc (whost K) () :=
  match newRunCleanupSequence stages with Some l => _ ← run_cleanup l; mret () | None => mret () end.

(** A run, from the preparation to the release of what it holds; a retained
    preparation releases nothing. *)
Definition workload_run (now : string) (p : workloadPreparation) : proc (whost K) () :=
  answer ← Prepare now p;
  match answer with
  | wprepare_ok _ handle => run_stages_of (release_stages (wp_OperationID p) (Cleanup (wp_OperationID p) handle))
  | wprepare_failed => run_stages_of (release_stages (wp_OperationID p) (mret true))
  | wprepare_retained => mret ()
  end.

(** ** Startup *)

(** [os.ReadDir] of the state root; a missing root has no entries. *)
Definition read_state_root : proc (whost K) (option (list string)) := look (λ s, sorted (dom (wh_state s))).

Definition readWorkloadMACRecord (own : ownership_file) : option workloadMACRecord :=
  match own with
  | own_record rec =>
      if bool_decide (wr_Schema rec ≠ workloadMACStateSchema) then None
      else if negb (isCanonicalOperationID (wr_OperationID rec)) then None
      else if negb (isCanonicalSessionIDShape (wr_SessionID rec)) then None
      else if bool_decide (wr_Backend rec ≠ LSMAppArmor ∧ wr_Backend rec ≠ LSMSELinux) then None
      else Some rec
  | _ => None
  end.

Definition parseReconcileEntry (name : string) : proc (whost K) (option workloadMACRecord) :=
  if negb (isOperationIDSafe name) then mret None else
  entry ← look (λ s, wh_state s !! name);
  match entry with
  | Some (Some (entry_dir _)) =>
      own ← look (λ s, match wh_state s !! name with Some (entry_dir own) => own | _ => own_missing end);
      mret (rec ← own ≫= readWorkloadMACRecord; if bool_decide (wr_OperationID rec ≠ name) then None else Some rec)
  | _ => mret None
  end.

Definition workloadPendingUnknownSession : string := String "000" "unknown-session".

Fixpoint pending_of (names : list string) (acc : gset string) : proc (whost K) (gset string) :=
  match names with
  | [] => mret acc
  | name :: names =>
      rec ← parseReconcileEntry name;
      pending_of names (match rec with Some rec => {[wr_SessionID rec]} ∪ acc | None => {[workloadPendingUnknownSession]} ∪ acc end)
  end.
Definition PendingWorkloadSessions : proc (whost K) (gset string) :=
  entries ← read_state_root;
  match entries with
  | None => mret {[workloadPendingUnknownSession]}
  | Some names => pending_of names ∅
  end.

(** [prov] answers the queries about the containers of an operation of a Session. *)
Definition reconcile_stages (prov : string → string → containerProvenance) (rec : workloadMACRecord) : list (cleanupStage (proc (whost K) bool)) :=
  [mkStage cleanupStageContainerProof (Some (mret (is_ok (proveOperationContainerAbsent (prov (wr_OperationID rec) (wr_SessionID rec))))));
   mkStage cleanupStageWorkloadMAC (Some (backend (wb_cleanup rec)));
   mkStage cleanupStageSourcePins (Some (cleanupStalePinsIn (wr_OperationID rec)));
   mkStage cleanupStageOwnershipState (Some (removeWorkloadMACState (wr_OperationID rec)))].

(** Whether the entry was completed. *)
Definition reconcileOne (prov : string → string → containerProvenance) (rec : workloadMACRecord) : proc (whost K) bool :=
  if bool_decide (wr_Schema rec ≠ workloadMACStateSchema) then mret false
  else if bool_decide (wr_Backend rec ≠ wb_backend) then mret false
  else
    ok ← backend (wb_validate rec);
    if negb ok then mret false else
    match newRunCleanupSequence (reconcile_stages prov rec) with
    | None => mret false
    | Some stages => failed ← run_cleanup stages; mret (bool_decide (failed = None))
    end.

Definition reconcile_entry (prov : string → string → containerProvenance) (name : string) : proc (whost K) () :=
  rec ← parseReconcileEntry name;
  match rec with
  | Some rec => _ ← reconcileOne prov rec; mret ()
  | None => mret ()
  end.

(** [false] is an unreadable state root. *)
Definition ReconcileStartup (prov : string → string → containerProvenance) : proc (whost K) bool :=
  entries ← read_state_root;
  match entries with
  | None => mret false
  | Some names => _ ← proc_iter (reconcile_entry prov) names; mret true
  end.
End coordinator.
