(* ===== verification/WorkloadMacTheory.v ===== *)
(** * WorkloadMacTheory: the ownership record precedes and outlives the kernel state *)
From S2P Require Import Prelude Filepath AllowedRoots GoStrings Session Operation Proc Lifecycle RunRequest Run WorkloadMac.
Local Open Scope Z_scope.

(** ** What the coordinator asks of a backend *)

(** A preparation of an issued operation of an issued Session. *)
Definition canonical_ids (p : workloadPreparation) : Prop :=
  isCanonicalOperationID (wp_OperationID p) = true ∧ isCanonicalSessionIDShape (wp_SessionID p) = true.

(** [wb_holds k op]: the kernel has MAC state of the operation.  [wb_own op] are
    the steps of the operation's own procedures: they change nothing of
    another operation.  A cleanup that reports success leaves no kernel state,
    whatever the other operations do meanwhile. *)
Class workloadMACLaws (K : Type) `{!workloadMACBackend K} := {
  wb_inv : K → Prop;
  wb_holds : K → string → Prop;
  wb_own : string → K → K → Prop;
  wb_ready : workloadPreparation → preparedWorkloadMAC → wb_handle → K → Prop;
  wb_known : wb_backend = LSMAppArmor ∨ wb_backend = LSMSELinux;
  wb_own_inv op k k' : wb_inv k → wb_own op k k' → wb_inv k';
  wb_own_holds op op' k k' : op ≠ op' → wb_inv k → wb_own op k k' → wb_holds k' op' ↔ wb_holds k op';
  wb_own_ready p prepared handle op k k' :
    op ≠ wp_OperationID p → wb_inv k → wb_own op k k' → wb_ready p prepared handle k → wb_ready p prepared handle k';
  wb_prepare_own p : canonical_ids p → acts (wb_own (wp_OperationID p)) (wb_prepare p);
  wb_release_own op handle : acts (wb_own op) (wb_release op handle);
  wb_validate_own rec : acts (λ k k', wb_own (wr_OperationID rec) k k' ∧ (wb_holds k' (wr_OperationID rec) ↔ wb_holds k (wr_OperationID rec))) (wb_validate rec);
  wb_cleanup_own rec : acts (wb_own (wr_OperationID rec)) (wb_cleanup rec);
  wb_drop_state_own op k : wb_own op k (wb_drop_state op k);
  wb_drop_runtime_own op k : wb_own op k (wb_drop_runtime op k).2;
  wb_drop_state_holds op k : wb_holds (wb_drop_state op k) op → wb_holds k op;
  wb_drop_runtime_holds op k : wb_holds (wb_drop_runtime op k).2 op → wb_holds k op;
  wb_prepare_spec p : canonical_ids p →
    rg wb_inv (λ k k', ∃ op, op ≠ wp_OperationID p ∧ wb_own op k k') (λ k, ¬ wb_holds k (wp_OperationID p)) (wb_prepare p)
       (λ a k, match a with backend_prepared prepared handle => wb_ready p prepared handle k | _ => True end);
  wb_release_spec p prepared handle :
    rg wb_inv (λ k k', ∃ op, op ≠ wp_OperationID p ∧ wb_own op k k') (wb_ready p prepared handle) (wb_release (wp_OperationID p) handle)
       (λ ok k, ok = true → ¬ wb_holds k (wp_OperationID p));
  wb_cleanup_spec rec :
    rg wb_inv (λ k k', ∃ op, op ≠ wr_OperationID rec ∧ wb_own op k k') (λ _, True) (wb_cleanup rec)
       (λ ok k, ok = true → ¬ wb_holds k (wr_OperationID rec)) }.

(** ** Directory listings *)

Lemma sorted_elem (l : gset string) n : n ∈ sorted l ↔ n ∈ l.
Proof. unfold sorted. by rewrite (merge_sort_Permutation str_le), elem_of_elements. Qed.
Lemma sorted_nodup (l : gset string) : NoDup (sorted l).
Proof. unfold sorted. rewrite (merge_sort_Permutation str_le). apply NoDup_elements. Qed.

Section theory.
Context {K : Type} `{!workloadMACBackend K} `{!workloadMACLaws K}.
Implicit Types s : whost K.

Definition holds s (op : string) : Prop := wb_holds (wh_kernel s) op.

(** The durable record startup can prove ownership from. *)
Definition identifies (op : string) (entry : option state_entry) (rec : workloadMACRecord) : Prop :=
  isOperationIDSafe op = true ∧
  (∃ own, entry = Some (entry_dir own) ∧ readWorkloadMACRecord own = Some rec) ∧ wr_OperationID rec = op.
Definition recorded s (op : string) : Prop := ∃ rec, identifies op (wh_state s !! op) rec ∧ wr_Backend rec = wb_backend.

(** Kernel state has its record. *)
Definition host_inv s : Prop := wb_inv (wh_kernel s) ∧ ∀ op, holds s op → recorded s op.

(** A step of the operation: the rest of the host stays. *)
Definition kept s s' (op : string) : Prop :=
  wh_state s' !! op = wh_state s !! op ∧ (op ∈ wh_runtime s' ↔ op ∈ wh_runtime s) ∧ wh_pins s' !! op = wh_pins s !! op ∧ wh_once s' !! op = wh_once s !! op.
Definition host_own (op : string) s s' : Prop :=
  (∀ op', op' ≠ op → kept s s' op') ∧ (wh_kernel s' = wh_kernel s ∨ wb_own op (wh_kernel s) (wh_kernel s')).
(** The steps of the other operations. *)
Definition host_env (op : string) s s' : Prop := host_inv s' ∧ ∃ op', op' ≠ op ∧ host_own op' s s'.

Lemma host_env_inv op s s' : host_inv s → host_env op s s' → host_inv s'.
Proof. by intros _ [? _]. Qed.

Lemma own_holds op op' s s' : op' ≠ op → wb_inv (wh_kernel s) → host_own op s s' → holds s' op' ↔ holds s op'.
Proof. intros Hne Hi [_ [E|Ho]]; unfold holds; [by rewrite E|by apply (wb_own_holds op)]. Qed.

(** ** What the other operations leave *)

Lemma stable_holds op : stable host_inv (host_env op) (λ s, ¬ holds s op).
Proof. intros s s' [Hi _] Hn [_ (op' & Hne & Ho)]. by rewrite (own_holds op' op s s'). Qed.

Lemma stable_kept op (P : option state_entry → bool → option pin_layout → option bool → Prop) :
  stable host_inv (host_env op) (λ s, P (wh_state s !! op) (bool_decide (op ∈ wh_runtime s)) (wh_pins s !! op) (wh_once s !! op)).
Proof.
  intros s s' _ Hp [_ (op' & Hne & Hk & _)]. destruct (Hk op) as (E1 & E2 & E3 & E4); [done|]. rewrite E1, E3, E4.
  by rewrite (bool_decide_ext _ _ E2).
Qed.

Lemma stable_entry op (P : option state_entry → Prop) : stable host_inv (host_env op) (λ s, P (wh_state s !! op)).
Proof. apply (stable_kept op (λ e _ _ _, P e)). Qed.

Lemma stable_recorded op : stable host_inv (host_env op) (λ s, recorded s op).
Proof. apply (stable_entry op (λ e, ∃ rec, identifies op e rec ∧ wr_Backend rec = wb_backend)). Qed.

Lemma stable_true op : stable host_inv (host_env op) (λ _, True).
Proof. apply stable_const. Qed.

(** ** Atomic steps *)

(** A predicate that does not read the outcomes to come. *)
Definition io_free (P : whost K → Prop) : Prop := ∀ l s, P s → P (with_io l s).

Lemma host_inv_io : io_free host_inv.
Proof. by intros l s. Qed.

Lemma rg_syscall {A} op (f : io → whost K → A * whost K) P Q :
  stable host_inv (host_env op) P → io_free P →
  (∀ x s, host_inv s → P s → host_inv (f x s).2 ∧ Q (f x s).1 (f x s).2) → rg host_inv (host_env op) P (syscall f) Q.
Proof.
  intros HP Hio H. apply rg_atom; [apply host_env_inv|done|]. intros s Hi Hp.
  destruct (wh_io s) as [|x l]; apply H; [done..|by apply host_inv_io|by apply Hio].
Qed.

Lemma acts_syscall {A} op (f : io → whost K → A * whost K) :
  (∀ x s, host_own op s (f x s).2) → acts (host_own op) (syscall f).
Proof.
  intros H. apply acts_atom. intros s. destruct (wh_io s) as [|x l]; [apply H|]. apply (H x (with_io l s)).
Qed.

Lemma rg_look {A} op (f : whost K → A) P Q :
  stable host_inv (host_env op) P → io_free P → (∀ s, host_inv s → P s → Q (Some (f s)) s) → (∀ s, host_inv s → P s → Q None s) →
  rg host_inv (host_env op) P (look f) Q.
Proof. intros HP Hio H1 H2. apply rg_syscall; [done..|]. intros x s Hi Hp. split; [done|]. destruct x; simpl; auto. Qed.

Lemma own_refl op s : host_own op s s.
Proof. split; [by split|by left]. Qed.
Lemma acts_look {A} op (f : whost K → A) : acts (host_own op) (look f).
Proof. apply acts_syscall. intros x s. apply own_refl. Qed.

(** A step of the backend. *)
Lemma put_own op (k : K) s : wb_own op (wh_kernel s) k → host_own op s (with_kernel k s).
Proof. intros H. split; [by split|by right]. Qed.

Lemma acts_backend {A} op (m : proc K A) : acts (wb_own op) m → acts (host_own op) (backend m).
Proof. intros Hm. eapply acts_lift; [exact Hm|]. intros k s. apply put_own. Qed.

(** The backend's steps of a recorded operation keep the invariant. *)
Lemma rg_backend {A} op (m : proc K A) (PK : K → Prop) (QK : A → K → Prop) :
  acts (wb_own op) m → rg wb_inv (λ k k', ∃ op', op' ≠ op ∧ wb_own op' k k') PK m QK →
  rg host_inv (host_env op) (λ s, recorded s op ∧ PK (wh_kernel s)) (backend m) (λ a s, recorded s op ∧ QK a (wh_kernel s)).
Proof.
  intros Ha Hm s Hi [Hr Hp]. unfold backend.
  apply (wp_lift wh_kernel with_kernel) with (I := wb_inv) (R := λ k k', k' = k ∨ ∃ op', op' ≠ op ∧ wb_own op' k k') (G := wb_own op); try done.
  - by intros t [? _].
  - intros t t' _ [_ (op' & Hne & _ & [E|Ho])]; [by left|right; by exists op'].
  - intros t t' _ [? _]. done.
  - intros t t' _ Hr' [_ (op' & Hne & Hk & _)]. destruct (Hk op) as (E & _); [done|]. unfold recorded. by rewrite E.
  - intros k t [Hit Hh] Hrt Hik Hg. split; [|done]. split; [done|]. intros op' Hh'. destruct (decide (op' = op)) as [->|Hne]; [done|].
    apply Hh. unfold holds in *. by rewrite (wb_own_holds op op' (wh_kernel t) k) in Hh'.
  - eapply wp_env; [|apply Hm; [by destruct Hi|exact Hp]]. intros k k' [->|Hr']; [done|by apply rtc_once].
Qed.

(** ** The guarantee of every operation *)

Ltac own_step := apply acts_syscall; intros [] s; simpl; try apply own_refl.

Lemma own_change op s s' :
  (∀ op', op' ≠ op → kept s s' op') → wh_kernel s' = wh_kernel s → host_own op s s'.
Proof. intros H E. split; [exact H|by left]. Qed.

Lemma kept_state op op' m s : op' ≠ op → m !! op' = wh_state s !! op' → kept s (with_state m s) op'.
Proof. intros _ E. by split. Qed.

Lemma own_mkdir_state op x s : host_own op s (mkdir_state_io op x s).2.
Proof.
  destruct x; simpl; try apply own_refl. destruct (wh_state s !! op); simpl; [apply own_refl|]. apply own_change; [|done]. intros op' Hne.
  apply (kept_state op); [done|]. by rewrite lookup_insert_ne.
Qed.
Lemma own_mkdir_runtime op x s : host_own op s (mkdir_runtime_io op x s).2.
Proof.
  destruct x; simpl; try apply own_refl. case_bool_decide; simpl; [apply own_refl|]. apply own_change; [|done]. intros op' Hne. split_and!; try done. cbn. set_solver.
Qed.
Lemma own_remove_state op x s : host_own op s (remove_state_io op x s).2.
Proof.
  destruct x; simpl; try apply own_refl; (split; [|right; apply wb_drop_state_own]); intros op' Hne; split_and!; try done; cbn;
    [by rewrite lookup_delete_ne|by rewrite lookup_alter_ne].
Qed.
Lemma own_remove_runtime op x s : host_own op s (remove_runtime_io op x s).2.
Proof.
  pose proof (wb_drop_runtime_own op (wh_kernel s)) as Ho. unfold remove_runtime_io. destruct (wb_drop_runtime op (wh_kernel s)) as [ok k].
  destruct x; simpl; try apply own_refl; (split; [|by right]); intros op' Hne; split_and!; try done; destruct ok; cbn; set_solver.
Qed.
Lemma remove_runtime_holds op x s : holds (remove_runtime_io op x s).2 op → holds s op.
Proof.
  pose proof (wb_drop_runtime_holds op (wh_kernel s)) as Hh. unfold holds, remove_runtime_io. destruct (wb_drop_runtime op (wh_kernel s)) as [ok k].
  destruct x; simpl; auto.
Qed.
Lemma remove_runtime_gone op x s : (remove_runtime_io op x s).1 = true → op ∉ wh_runtime (remove_runtime_io op x s).2.
Proof. unfold remove_runtime_io. destruct (wb_drop_runtime op (wh_kernel s)) as [[] k]; destruct x; simpl; try done. set_solver. Qed.
Lemma remove_runtime_rest op x s :
  wh_state (remove_runtime_io op x s).2 = wh_state s ∧ wh_pins (remove_runtime_io op x s).2 = wh_pins s ∧ wh_once (remove_runtime_io op x s).2 = wh_once s.
Proof. unfold remove_runtime_io. destruct (wb_drop_runtime op (wh_kernel s)) as [[] k]; by destruct x. Qed.
Lemma own_rename op rec x s : host_own op s (rename_record_io op rec x s).2.
Proof.
  destruct x; simpl; try apply own_refl. apply own_change; [|done]. intros op' Hne. apply (kept_state op); [done|]. by rewrite lookup_alter_ne.
Qed.

Lemma acts_done op : acts (host_own op) io_done.
Proof. own_step. Qed.
Lemma acts_removeWorkloadMACState op : acts (host_own op) (removeWorkloadMACState op).
Proof.
  apply acts_bind; [apply acts_syscall; intros; apply own_remove_runtime|]. intros []; [apply acts_syscall; intros; apply own_remove_state|apply acts_ret].
Qed.
Lemma acts_write op rec : acts (host_own op) (writeWorkloadMACRecord op rec).
Proof. apply acts_bind; [apply acts_done|]. intros []; [apply acts_syscall; intros; apply own_rename|apply acts_ret]. Qed.

Lemma acts_Prepare now p : canonical_ids p → acts (host_own (wp_OperationID p)) (Prepare now p).
Proof.
  intros Hp. unfold Prepare. set (op := wp_OperationID p).
  apply acts_bind; [apply acts_done|]. intros ok. apply acts_case; [apply acts_ret|].
  apply acts_bind; [apply acts_done|]. intros ok2. apply acts_case; [apply acts_ret|].
  apply acts_bind; [apply acts_syscall; intros; apply own_mkdir_state|]. intros ok3. apply acts_case; [apply acts_ret|].
  apply acts_bind; [apply acts_syscall; intros; apply own_mkdir_runtime|]. intros ok4. apply acts_case; [apply acts_bind; [apply acts_syscall; intros; apply own_remove_state|done]|].
  apply acts_bind; [apply acts_write|]. intros ok5.
  apply acts_case; [apply acts_bind; [apply acts_syscall; intros; apply own_remove_state|]; intros _; apply acts_bind; [apply acts_syscall; intros; apply own_remove_runtime|done]|].
  apply acts_bind; [by apply acts_backend, wb_prepare_own|]. intros [prepared handle| |]; try apply acts_ret.
  apply acts_bind; [apply acts_backend, (wb_cleanup_own (mkRecord _ op _ _ _))|]. intros []; apply acts_ret.
Qed.

Lemma acts_Cleanup op handle : acts (host_own op) (Cleanup op handle).
Proof.
  apply acts_bind; [apply acts_atom; intros s; apply own_refl|]. intros [ok|]; [apply acts_ret|].
  apply acts_bind; [apply acts_backend, wb_release_own|]. intros ok. apply acts_atom. intros s. apply own_change; [|done].
  intros op' Hne. split_and!; try done. cbn. by rewrite lookup_insert_ne.
Qed.

(** ** Identified records *)

Lemma hex_bytes w : forallb (λ p, hex_rune p.1) (range w) = true → str_forall (λ c, hex_rune (byte_of c)) w = true.
Proof.
  intros H. rewrite <-(range_concat w). assert (Hl : ∀ p, p ∈ range w → ∃ a, p.2 = str1 a ∧ hex_rune (byte_of a) = true).
  { intros p Hp. pose proof (proj1 (forallb_forall _ _) H p (proj1 (list_elem_of_In _ _) Hp)) as Hx. cbn in Hx.
    destruct (range_bytes w p Hp) as [(a & -> & _)|[_ Hge]]; [by exists a|]. unfold hex_rune, in_range in Hx. lia. }
  clear H. induction (range w) as [|p l IH]; [done|]. rewrite fmap_cons. cbn [str_concat].
  destruct (Hl p) as (a & -> & Ha); [by left|]. simpl. rewrite Ha. simpl. apply IH. intros q Hq. apply Hl. by right.
Qed.

Lemma canonical_safe op : isCanonicalOperationID op = true → isOperationIDSafe op = true.
Proof.
  unfold isCanonicalOperationID, isCanonicalPrefixedHexID. case_bool_decide; [done|]. destruct (CutPrefix op operationIDPrefix) as [rest|] eqn:E; [|done].
  apply CutPrefix_spec in E as ->. intros Hx%hex_bytes. unfold isOperationIDSafe, operationIDPrefix. simpl. clear H.
  induction rest as [|c rest IH]; [done|]. simpl in Hx |- *. apply andb_true_iff in Hx as [Hc Hx]. rewrite IH, andb_true_r by done.
  apply negb_true_iff, orb_false_iff. split; apply bool_decide_eq_false; intros ->; done.
Qed.

Lemma fresh_record op rec :
  isCanonicalOperationID op = true → isCanonicalSessionIDShape (wr_SessionID rec) = true → wr_Schema rec = workloadMACStateSchema →
  wr_OperationID rec = op → wr_Backend rec = wb_backend → identifies op (Some (entry_dir (own_record rec))) rec.
Proof.
  intros Hop Hs Hsc Ho Hb. split; [by apply canonical_safe|]. split; [|done]. exists (own_record rec). split; [done|]. cbn.
  rewrite Hsc, Ho, Hop, Hs, Hb. rewrite bool_decide_false by (intros Hn; by apply Hn). cbn.
  rewrite bool_decide_false; [done|]. intros [H1 H2]. by destruct wb_known.
Qed.

(** Steps on the operation's own directories, while it has no kernel state. *)
Lemma inv_own op s s' :
  host_inv s → host_own op s s' → (holds s' op → recorded s' op) → host_inv s'.
Proof.
  intros [Hi Hh] Ho Hop. split; [destruct Ho as [_ [->|Hk]]; [done|by eapply wb_own_inv]|].
  intros op' Hh'. destruct (decide (op' = op)) as [->|Hne]; [by apply Hop|]. rewrite (own_holds op op' s s') in Hh' by done.
  destruct Ho as [Hk _]. destruct (Hk op' Hne) as (E & _). unfold recorded. rewrite E. by apply Hh.
Qed.

Definition free s (op : string) : Prop := ¬ holds s op.

Lemma free_io op : io_free (λ s, free s op).
Proof. by intros l s. Qed.

(** A system call of an operation without kernel state, that creates none. *)
Lemma rg_free_call {A} op (f : io → whost K → A * whost K) (P : whost K → Prop) (Q : A → whost K → Prop) :
  stable host_inv (host_env op) P → io_free P → (∀ x s, host_own op s (f x s).2) → (∀ x s, free s op → free (f x s).2 op) →
  (∀ x s, free s op → P s → Q (f x s).1 (f x s).2) →
  rg host_inv (host_env op) (λ s, free s op ∧ P s) (syscall f) (λ a s, free s op ∧ Q a s).
Proof.
  intros HP Hio Ho Hf HQ. apply rg_syscall.
  - apply stable_and; [apply stable_holds|done].
  - intros l s [? ?]. split; [by apply free_io|by apply Hio].
  - intros x s Hi [Hfr Hp]. split; [|split; [by apply Hf|by apply HQ]]. apply (inv_own op s); [done|apply Ho|]. intros Hh. by destruct (Hf x s Hfr).
Qed.

Lemma rg_remove_state_free op : rg host_inv (host_env op) (λ s, free s op) (remove_state_dir op) (λ _ s, free s op).
Proof.
  eapply rg_weaken; [apply (rg_free_call op _ (λ _, True) (λ _ _, True)); try done|done|by intros a s [? _]].
  - apply own_remove_state.
  - intros [] s Hf Hh; [|done|]; by apply wb_drop_state_holds in Hh.
Qed.
Lemma rg_remove_runtime_free op : rg host_inv (host_env op) (λ s, free s op) (remove_runtime_dir op) (λ _ s, free s op).
Proof.
  eapply rg_weaken; [apply (rg_free_call op _ (λ _, True) (λ _ _, True)); try done|done|by intros a s [? _]].
  - apply own_remove_runtime.
  - intros x s Hf Hh. by apply Hf, (remove_runtime_holds op x).
Qed.
(** ** Prepare *)

Definition entry_is (op : string) (e : state_entry) s : Prop := wh_state s !! op = Some e.

Lemma rg_done_free op (P : whost K → Prop) :
  stable host_inv (host_env op) P → io_free P → rg host_inv (host_env op) (λ s, free s op ∧ P s) io_done (λ _ s, free s op ∧ P s).
Proof. intros HP Hio. apply (rg_free_call op _ P (λ _, P)); try done. intros x s. apply own_refl. Qed.

Lemma rg_mkdir_state op :
  rg host_inv (host_env op) (λ s, free s op ∧ True) (mkdir_state op) (λ ok s, free s op ∧ (ok = true → entry_is op (entry_dir own_missing) s)).
Proof.
  apply (rg_free_call op _ (λ _, True) (λ ok s, ok = true → entry_is op (entry_dir own_missing) s)); try done; [apply own_mkdir_state|..].
  - intros [] s Hf; simpl; try done. by destruct (wh_state s !! op).
  - intros [] s Hf _; simpl; try done. destruct (wh_state s !! op) eqn:E; simpl; [done|]. intros _. apply lookup_insert_eq.
Qed.

Lemma rg_mkdir_runtime op e :
  rg host_inv (host_env op) (λ s, free s op ∧ entry_is op e s) (mkdir_runtime op) (λ _ s, free s op ∧ entry_is op e s).
Proof.
  apply (rg_free_call op _ (entry_is op e) (λ _, entry_is op e)); [apply (stable_entry op (λ x, x = Some e))|by intros l s|apply own_mkdir_runtime|..].
  - intros [] s Hf; simpl; try done. by case_bool_decide.
  - intros [] s Hf He; simpl; try done. by case_bool_decide.
Qed.

Lemma rg_write op rec :
  isCanonicalOperationID op = true → isCanonicalSessionIDShape (wr_SessionID rec) = true → wr_Schema rec = workloadMACStateSchema →
  wr_OperationID rec = op → wr_Backend rec = wb_backend →
  rg host_inv (host_env op) (λ s, free s op ∧ entry_is op (entry_dir own_missing) s) (writeWorkloadMACRecord op rec)
     (λ ok s, free s op ∧ (ok = true → recorded s op)).
Proof.
  intros H1 H2 H3 H4 H5. eapply rg_bind; [apply rg_done_free; [apply (stable_entry op (λ x, x = Some (entry_dir own_missing)))|by intros l s]|]. intros [].
  - apply (rg_free_call op _ (entry_is op (entry_dir own_missing)) (λ ok s, ok = true → recorded s op));
      [apply (stable_entry op (λ x, x = Some (entry_dir own_missing)))|by intros l s|apply own_rename|by intros []|].
    intros [] s Hf He; simpl; try done. intros _. exists rec. split; [|done]. cbn. rewrite lookup_alter_eq, He. by apply fresh_record.
  - apply rg_ret. intros s _ [Hf _]. by split.
Qed.

Definition prepare_post (p : workloadPreparation) (a : wprepare_answer) s : Prop :=
  match a with
  | wprepare_ok prepared handle => recorded s (wp_OperationID p) ∧ wb_ready p prepared handle (wh_kernel s)
  | wprepare_failed => free s (wp_OperationID p)
  | wprepare_retained => recorded s (wp_OperationID p)
  end.

Lemma Prepare_rg now p :
  canonical_ids p →
  rg host_inv (host_env (wp_OperationID p)) (λ s, free s (wp_OperationID p)) (Prepare now p) (prepare_post p).
Proof.
  intros Hp. pose proof Hp as [Hop Hses]. unfold Prepare. set (op := wp_OperationID p) in *. set (rec := mkRecord _ op _ _ _).
  assert (Hfail : ∀ P : whost K → Prop, (∀ s, P s → free s op) → rg host_inv (host_env op) P (mret wprepare_failed) (prepare_post p)).
  { intros P HP. apply rg_ret. intros s _. apply HP. }
  apply (rg_weaken _ _ _ (λ s, free s op ∧ True) _ _ (prepare_post p)); [|by split|done].
  eapply rg_bind; [by apply rg_done_free|]. intros ok1. apply rg_case; intros _; [apply Hfail; by intros s [? _]|].
  eapply rg_bind; [by apply rg_done_free|]. intros ok2. apply rg_case; intros _; [apply Hfail; by intros s [? _]|].
  eapply rg_bind; [apply rg_mkdir_state|]. intros ok3. apply rg_case; intros H3; [apply Hfail; by intros s [? _]|]. apply negb_false_iff in H3 as ->.
  apply (rg_weaken _ _ _ (λ s, free s op ∧ entry_is op (entry_dir own_missing) s) _ _ (prepare_post p)); [|by intros s _ [? H]; split; [|apply H]|done].
  eapply rg_bind; [apply rg_mkdir_runtime|]. intros ok4. apply rg_case; intros _.
  { eapply rg_bind; [eapply rg_weaken; [apply rg_remove_state_free|by intros s _ [? _]|done]|]. intros ?. by apply Hfail. }
  eapply rg_bind; [by apply (rg_write op rec)|]. intros ok5. apply rg_case; intros H5.
  { eapply rg_bind; [eapply rg_weaken; [apply rg_remove_state_free|by intros s _ [? _]|done]|]. intros ?.
    eapply rg_bind; [apply rg_remove_runtime_free|]. intros ?. by apply Hfail. }
  apply negb_false_iff in H5 as ->.
  apply (rg_weaken _ _ _ (λ s, recorded s op ∧ ¬ wb_holds (wh_kernel s) op) _ _ (prepare_post p)); [|by intros s _ [? H]; split; [apply H|]|done].
  eapply rg_bind; [apply (rg_backend op _ (λ k, ¬ wb_holds k op)); [by apply wb_prepare_own|by apply wb_prepare_spec]|]. intros [prepared handle| |].
  - by apply rg_ret.
  - eapply rg_bind; [eapply rg_weaken; [apply (rg_backend op _ (λ _, True)); [apply (wb_cleanup_own rec)|apply (wb_cleanup_spec rec)]|by intros s _ [? _]|done]|].
    intros []; apply rg_ret; intros s _ [Hr H]; [by apply H|done].
  - apply rg_ret. by intros s _ [? _].
Qed.

(** ** Release *)

Lemma rg_free_remove op : rg host_inv (host_env op) (λ s, free s op) (removeWorkloadMACState op) (λ _ s, free s op).
Proof.
  unfold removeWorkloadMACState. eapply rg_bind; [apply rg_remove_runtime_free|]. intros []; [apply rg_remove_state_free|by apply rg_ret].
Qed.

(** Calls that leave the records and the kernel alone. *)
Lemma rg_quiet {A} op (f : io → whost K → A * whost K) (P : whost K → Prop) (Q : A → whost K → Prop) :
  (∀ x s, wh_state (f x s).2 = wh_state s ∧ wh_kernel (f x s).2 = wh_kernel s) → stable host_inv (host_env op) P → io_free P →
  (∀ x s, host_inv s → P s → Q (f x s).1 (f x s).2) → rg host_inv (host_env op) P (syscall f) Q.
Proof.
  intros Hf HP Hio HQ. apply rg_syscall; [done..|]. intros x s Hi Hp. split; [|by apply HQ]. destruct (Hf x s) as [E1 E2]. destruct Hi as [Hi Hh].
  split; [by rewrite E2|]. intros op'. unfold holds, recorded. rewrite E1, E2. apply Hh.
Qed.

Lemma own_release_pins op x s : host_own op s (release_pins_io op x s).2.
Proof.
  destruct x; simpl; try apply own_refl. apply own_change; [|done]. intros op' Hne. split_and!; try done. cbn. by rewrite lookup_delete_ne.
Qed.

Lemma rg_release op mac P :
  rg host_inv (host_env op) P mac (λ ok s, ok = true → free s op) →
  rg host_inv (host_env op) P (run_stages_of (release_stages op mac)) (λ _ _, True).
Proof.
  intros Hmac. unfold run_stages_of, release_stages. cbn [newRunCleanupSequence]. change (newRunCleanupSequence _) with (Some (release_stages op mac)).
  apply rg_bind with (Q := λ _ _, True); [|intros a; by apply rg_ret]. unfold release_stages. cbn [run_cleanup cs_run cs_name].
  eapply rg_bind; [exact Hmac|]. intros [|]; [|by apply rg_ret].
  apply (rg_weaken _ _ _ (λ s, free s op) _ _ (λ _ _, True)); [|by intros s _ H; apply H|done].
  eapply rg_bind; [apply (rg_quiet op _ (λ s, free s op) (λ _ s, free s op)); [by intros [] s|apply stable_holds|by intros l s|by intros [] s]|].
  intros [|]; [|by apply rg_ret]. eapply rg_bind; [apply rg_free_remove|]. intros [|]; by apply rg_ret.
Qed.

Lemma stable_ready p prepared handle :
  stable host_inv (host_env (wp_OperationID p)) (λ s, wb_ready p prepared handle (wh_kernel s)).
Proof.
  intros s s' [Hi _] Hr [_ (op & Hne & _ & [->|Ho])]; [done|]. by eapply wb_own_ready.
Qed.

Lemma rg_Cleanup p prepared handle :
  rg host_inv (host_env (wp_OperationID p))
     (λ s, (recorded s (wp_OperationID p) ∧ wb_ready p prepared handle (wh_kernel s)) ∧ wh_once s !! wp_OperationID p = None)
     (Cleanup (wp_OperationID p) handle) (λ ok s, ok = true → free s (wp_OperationID p)).
Proof.
  set (op := wp_OperationID p). unfold Cleanup.
  apply rg_bind with (Q := λ done s, (recorded s op ∧ wb_ready p prepared handle (wh_kernel s)) ∧ done = None).
  { apply rg_atom; [apply host_env_inv| |done]. apply stable_and; [apply stable_and; [apply stable_recorded|apply stable_ready]|].
    apply (stable_kept op (λ _ _ _ o, o = None)). }
  intros [ok|]; [by intros s _ [_ ?]|]. apply (rg_weaken _ _ _ (λ s, recorded s op ∧ wb_ready p prepared handle (wh_kernel s)) _ _ (λ ok s, ok = true → free s op)); [|by intros s _ [? _]|done].
  eapply rg_bind; [apply (rg_backend op); [apply wb_release_own|apply wb_release_spec]|]. intros ok.
  apply rg_atom; [apply host_env_inv|..].
  - apply stable_and; [apply stable_recorded|]. intros s s' Hi H Hr Hok. by eapply stable_holds; [exact Hi|apply H|exact Hr].
  - intros s Hi [Hr H]. split; [done|exact H].
Qed.

(** ** A run *)

Lemma acts_run_cleanup op stages :
  Forall (λ st, ∀ m, cs_run st = Some m → acts (host_own op) m) stages → acts (host_own op) (run_cleanup stages).
Proof.
  induction 1 as [|st stages Hst Hs IH]; cbn [run_cleanup]; [apply acts_ret|]. destruct (cs_run st) as [m|]; [|done].
  apply acts_bind; [by apply Hst|]. intros []; [done|apply acts_ret].
Qed.

Lemma acts_release op mac : acts (host_own op) mac → acts (host_own op) (run_stages_of (release_stages op mac)).
Proof.
  intros Hm. unfold run_stages_of. change (newRunCleanupSequence _) with (Some (release_stages op mac)).
  apply acts_bind; [|intros; apply acts_ret]. apply acts_run_cleanup. repeat constructor; intros m [= <-]; [done| |apply acts_removeWorkloadMACState].
  apply acts_syscall. intros. apply own_release_pins.
Qed.

Lemma acts_workload_run now p : canonical_ids p → acts (host_own (wp_OperationID p)) (workload_run now p).
Proof.
  intros Hp. apply acts_bind; [by apply acts_Prepare|]. intros [prepared handle| |]; [apply acts_release, acts_Cleanup|apply acts_release, acts_ret|apply acts_ret].
Qed.

Lemma rg_frame {A} op P (F : whost K → Prop) (m : proc (whost K) A) Q :
  stable host_inv (host_env op) F → acts (λ s s', F s → F s') m → rg host_inv (host_env op) P m Q →
  rg host_inv (host_env op) (λ s, P s ∧ F s) m (λ a s, Q a s ∧ F s).
Proof.
  intros HF Ha Hm s Hi [Hp Hf]. specialize (Hm s Hi Hp). clear Hp. revert s Hi Hf Hm. induction m as [a|f k IH]; intros s Hi Hf Hm; simpl in *; [done|].
  intros s' Hr Hi'. destruct (Hm s' Hr Hi') as [Hif Hk]. destruct (Ha s') as [Hg Hak]. split; [done|]. apply IH; [done..| |done].
  apply Hg. by eapply stable_rtc; [apply host_env_inv|exact HF|..].
Qed.

Definition once_free (op : string) s : Prop := wh_once s !! op = None.
Lemma stable_once op : stable host_inv (host_env op) (once_free op).
Proof. apply (stable_kept op (λ _ _ _ o, o = None)). Qed.

Lemma acts_once_call {A} op (f : io → whost K → A * whost K) :
  (∀ x s, wh_once (f x s).2 = wh_once s) → acts (λ s s', once_free op s → once_free op s') (syscall f).
Proof. intros H. apply acts_atom. intros s. unfold once_free. destruct (wh_io s) as [|x l]; by rewrite H. Qed.
Lemma acts_once_backend {A} op (m : proc K A) : acts (λ s s', once_free op s → once_free op s') (backend m).
Proof. apply (acts_lift _ _ (λ _ _, True)); [|done]. induction m as [a|f k IH]; simpl; [done|]. intros s. split; [done|apply IH]. Qed.

Lemma Prepare_once now p op : acts (λ s s', once_free op s → once_free op s') (Prepare now p).
Proof.
  unfold Prepare.
  assert (Hd : acts (λ s s', once_free op s → once_free op s') io_done) by by apply acts_once_call.
  assert (Hrs : ∀ o, acts (λ s s', once_free op s → once_free op s') (remove_state_dir o)) by (intros o; apply acts_once_call; by intros []).
  assert (Hrr : ∀ o, acts (λ s s', once_free op s → once_free op s') (remove_runtime_dir o)) by (intros o; apply acts_once_call; intros; apply remove_runtime_rest).
  apply acts_bind; [done|]. intros ok1. apply acts_case; [apply acts_ret|]. apply acts_bind; [done|]. intros ok2. apply acts_case; [apply acts_ret|].
  apply acts_bind; [apply acts_once_call; intros [] s; simpl; try done; by destruct (_ !! _)|]. intros ok3. apply acts_case; [apply acts_ret|].
  apply acts_bind; [apply acts_once_call; intros [] s; simpl; try done; by case_bool_decide|]. intros ok4.
  apply acts_case; [apply acts_bind; [done|]; intros; apply acts_ret|].
  apply acts_bind; [apply acts_bind; [done|]; intros []; [apply acts_once_call; by intros []|apply acts_ret]|]. intros ok5.
  apply acts_case; [apply acts_bind; [done|]; intros; apply acts_bind; [done|]; intros; apply acts_ret|].
  apply acts_bind; [apply acts_once_backend|]. intros [prepared handle| |]; try apply acts_ret.
  apply acts_bind; [apply acts_once_backend|]. intros []; apply acts_ret.
Qed.

Lemma rg_workload_run now p :
  canonical_ids p →
  rg host_inv (host_env (wp_OperationID p)) (λ s, free s (wp_OperationID p) ∧ once_free (wp_OperationID p) s) (workload_run now p) (λ _ _, True).
Proof.
  intros Hp. unfold workload_run. set (op := wp_OperationID p).
  eapply rg_bind; [apply rg_frame; [apply stable_once|apply Prepare_once|by apply Prepare_rg]|]. intros [prepared handle| |].
  - apply rg_release, rg_Cleanup.
  - apply rg_release. apply rg_ret. by intros s _ [? _] _.
  - by apply rg_ret.
Qed.
End theory.
