(* ===== verification/WorkloadMacSpec.v ===== *)
(** * WorkloadMacSpec: crash safety and startup reconciliation of the workload MAC state *)
From S2P Require Import Prelude Filepath AllowedRoots GoStrings Session Operation Proc Lifecycle RunRequest Run WorkloadMac WorkloadMacTheory.
Local Open Scope Z_scope.

Section spec.
Context {K : Type} `{!workloadMACBackend K} `{!workloadMACLaws K}.
Implicit Types s : whost K.

(** ** Interleaved runs *)

Definition run_pool (now : string) (ps : list workloadPreparation) : list (proc (whost K) ()) := workload_run now <$> ps.

Lemma canonical_nonempty op : isCanonicalOperationID op = true → op ≠ "".
Proof. by intros H ->. Qed.

(** The invariant of every interleaving. *)
Lemma run_pool_inv now ps s pool s' :
  host_inv s → NoDup (wp_OperationID <$> ps) → Forall canonical_ids ps →
  Forall (λ p, free s (wp_OperationID p) ∧ once_free (wp_OperationID p) s) ps →
  rtc pool_step (run_pool now ps, s) (pool, s') → host_inv s'.
Proof.
  intros Hi Hnd Hc Hf Hr. set (opOf i := default "" (wp_OperationID <$> ps !! i)).
  assert (Hop : ∀ i p, ps !! i = Some p → opOf i = wp_OperationID p) by (intros i p E; subst opOf; cbn; by rewrite E).
  apply (pool_inv host_inv (λ i, host_env (opOf i)) (λ i s s', is_Some (ps !! i) ∧ host_own (opOf i) s s')) with (ps := (run_pool now ps, s)) (ps' := (pool, s')); [| |done].
  - intros i j t t' Hij _ Hi' [[p Hp] Ho]. split; [done|]. exists (opOf i). split; [|done]. rewrite (Hop i p Hp).
    destruct (ps !! j) as [q|] eqn:Hq.
    + rewrite (Hop j q Hq). intros Eq. apply Hij. eapply NoDup_lookup; [exact Hnd|by rewrite list_lookup_fmap, Hp|rewrite list_lookup_fmap, Hq; cbn; by rewrite Eq].
    + subst opOf. cbn. rewrite Hq. cbn. apply canonical_nonempty. apply (Forall_lookup_1 _ _ _ _ Hc) in Hp. apply Hp.
  - split; [done|]. intros i m Hm. unfold run_pool in Hm. cbn in Hm. rewrite list_lookup_fmap in Hm.
    destruct (ps !! i) as [p|] eqn:Ep; [|done]. injection Hm as <-. rewrite (Hop i p Ep).
    apply (Forall_lookup_1 _ _ _ _ Hc) in Ep as Hcp. split; [eapply acts_mono; [|by apply acts_workload_run]; intros; by split; [eexists|]|].
    apply (Forall_lookup_1 _ _ _ _ Hf) in Ep as Hfp. by apply rg_workload_run.
Qed.

(** ** One entry at startup *)

(** The host as it was for an operation. *)
Definition same s0 s (op : string) : Prop := kept s0 s op ∧ (holds s op ↔ holds s0 op).

Lemma same_refl s op : same s s op.
Proof. by split. Qed.

Lemma stable_same s0 op : stable host_inv (host_env op) (λ s, same s0 s op).
Proof.
  intros s s' [Hi _] [(E1 & E2 & E3 & E4) Hh] [_ (op' & Hne & Ho)]. pose proof Ho as Ho'. destruct Ho' as [Hk _].
  destruct (Hk op) as (F1 & F2 & F3 & F4); [done|]. split; [split; [congruence|]; split; [tauto|]; split; congruence|].
  rewrite (own_holds op' op s s'); [done..|tauto].
Qed.

Lemma same_io s0 op : io_free (λ s, same s0 s op).
Proof. by intros l s. Qed.

(** What startup may reclaim: a proven record of the active backend whose
    container is proven absent. *)
Definition reclaimable (prov : string → string → containerProvenance) s (op : string) : Prop :=
  ∃ rec, identifies op (wh_state s !! op) rec ∧ wr_Backend rec = wb_backend ∧
         is_ok (proveOperationContainerAbsent (prov op (wr_SessionID rec))) = true.

(** A record leaves only after everything it proves the ownership of. *)
Definition reclaimed s0 s (op : string) : Prop :=
  wh_state s !! op ≠ wh_state s0 !! op →
  free s op ∧ wh_pins s !! op = None ∧ (wh_state s !! op = None → op ∉ wh_runtime s).

Definition outcome (prov : string → string → containerProvenance) s0 s (op : string) : Prop :=
  (¬ reclaimable prov s0 op → same s0 s op) ∧ reclaimed s0 s op.

Lemma same_outcome prov s0 s op : same s0 s op → outcome prov s0 s op.
Proof. intros H. split; [done|]. intros Hne. by destruct H as [(E & _) _]. Qed.

Lemma parse_rg s0 name :
  rg host_inv (host_env name) (λ s, same s0 s name) (parseReconcileEntry name)
     (λ r s, same s0 s name ∧ ∀ rec, r = Some rec → identifies name (wh_state s0 !! name) rec).
Proof.
  unfold parseReconcileEntry. apply rg_case; intros Hsafe; [by apply rg_ret|]. apply negb_false_iff in Hsafe.
  apply rg_bind with (Q := λ e s, same s0 s name ∧ ∀ x, e = Some x → x = wh_state s0 !! name).
  { apply rg_look; [apply stable_same|apply same_io|..]; intros s _ Hs; (split; [done|]); intros x [= <-]. by destruct Hs as [(E & _) _]. }
  intros [[[|own]|]|]; try (apply rg_ret; intros s _ [? _]; by split).
  apply rg_pure with (F := Some (entry_dir own) = wh_state s0 !! name); [intros s [_ H]; by apply H|]. intros E0.
  apply (rg_weaken _ _ _ (λ s, same s0 s name) _ _ (λ r s, same s0 s name ∧ ∀ rec, r = Some rec → identifies name (wh_state s0 !! name) rec)); [|by intros s _ [? _]|done].
  apply rg_bind with (Q := λ e s, same s0 s name ∧ ∀ x, e = Some x → x = own).
  { apply rg_look; [apply stable_same|apply same_io|..]; intros s _ Hs; (split; [done|]); intros x [= <-]. destruct Hs as [(E & _) _]. by rewrite E, <-E0. }
  intros r. apply rg_ret. intros s _ [Hs Hr]. split; [done|]. intros rec Hrec. destruct r as [own'|]; [|done]. rewrite (Hr own' eq_refl) in Hrec. cbn in Hrec.
  destruct (readWorkloadMACRecord own) as [rec'|] eqn:Er; [|done]. cbn in Hrec. case_bool_decide as Ho; [done|]. injection Hrec as ->.
  split; [done|]. split; [by exists own|done].
Qed.

(** The entry's record while it is reclaimed. *)
Definition entry_kept s0 (op : string) s : Prop := wh_state s !! op = wh_state s0 !! op.
Lemma stable_kept_entry s0 op : stable host_inv (host_env op) (entry_kept s0 op).
Proof. apply (stable_entry op (λ e, e = wh_state s0 !! op)). Qed.

Lemma kept_outcome prov s0 s op : reclaimable prov s0 op → entry_kept s0 op s → outcome prov s0 s op.
Proof. intros Hr He. split; [done|]. intros Hne. by destruct Hne. Qed.

(** ** Stale pins *)

Lemma set_pin_own op name f s : host_own op s (set_pin op name f s).
Proof. apply own_change; [|done]. intros op' Hne. split_and!; try done. cbn. by rewrite lookup_alter_ne. Qed.

Definition quiet (op : string) s s' : Prop := wh_state s' = wh_state s ∧ wh_kernel s' = wh_kernel s ∧ host_own op s s'.

Lemma acts_quiet_call {A} op (f : io → whost K → A * whost K) : (∀ x s, quiet op s (f x s).2) → acts (quiet op) (syscall f).
Proof.
  intros H. apply acts_atom. intros s. destruct (wh_io s) as [|x l]; [apply H|]. apply (H x (with_io l s)).
Qed.
Lemma quiet_refl op s : quiet op s s.
Proof. split_and!; [done..|apply own_refl]. Qed.
Lemma quiet_set_pin op name f s : quiet op s (set_pin op name f s).
Proof. split_and!; [done..|apply set_pin_own]. Qed.
Lemma acts_quiet_look {A} op (f : whost K → A) : acts (quiet op) (look f).
Proof. apply acts_quiet_call. intros x s. apply quiet_refl. Qed.

Lemma acts_cleanup_pin op name : acts (quiet op) (cleanup_pin op name).
Proof.
  assert (Hr : acts (quiet op) (remove_pin op name)).
  { apply acts_quiet_call. intros [] s; simpl; try apply quiet_refl. destruct (pin_of op name s) as [[| |[]]|]; simpl; try apply quiet_refl; apply quiet_set_pin. }
  unfold cleanup_pin, validateStalePinEntry. apply acts_bind; [apply acts_case; [apply acts_ret|apply acts_bind; [apply acts_quiet_look|intros; apply acts_ret]]|].
  intros ok. apply acts_case; [apply acts_ret|]. apply acts_bind; [apply acts_quiet_look|]. intros [[]|]; [|done|apply acts_ret].
  apply acts_bind; [apply acts_quiet_call; intros [] s; simpl; try apply quiet_refl; apply quiet_set_pin|]. intros ok2. apply acts_case; [apply acts_ret|].
  apply acts_bind; [apply acts_quiet_look|]. intros [[]|]; [apply acts_ret|done|apply acts_ret].
Qed.

Lemma acts_all_of (G : whost K → whost K → Prop) l : Forall (acts G) l → acts G (all_of l).
Proof. induction 1 as [|m l Hm Hl IH]; cbn [all_of]; [apply acts_ret|]. apply acts_bind; [done|]. intros []; [done|apply acts_ret]. Qed.

Lemma quiet_remove_layout op x s : quiet op s (remove_layout_io op x s).2.
Proof.
  destruct x; simpl; try apply quiet_refl. destruct (wh_pins s !! op) as [[|pins]|]; simpl; try apply quiet_refl.
  case_bool_decide; simpl; [|apply quiet_refl]. split_and!; [done..|]. apply own_change; [|done]. intros op' Hne. split_and!; try done. cbn. by rewrite lookup_delete_ne.
Qed.

Lemma quiet_inv op s s' : host_inv s → quiet op s s' → host_inv s'.
Proof. intros [Hk Hh] (E1 & E2 & _). split; [by rewrite E2|]. intros o. unfold holds, recorded. rewrite E1, E2. apply Hh. Qed.

(** Quiet actions keep what the records and the kernel say. *)
Lemma rg_of_quiet {A} op (P : whost K → Prop) (m : proc (whost K) A) :
  stable host_inv (host_env op) P → (∀ s s', P s → quiet op s s' → P s') → acts (quiet op) m → rg host_inv (host_env op) P m (λ _, P).
Proof.
  intros HP HQ Ha s Hi Hp. revert s Hi Hp. induction m as [a|f k IH]; intros s Hi Hp; simpl in *; [done|]. intros s' Hr Hi'.
  destruct (Ha s') as [Hq Hak]. assert (Hp' : P s') by (by eapply stable_rtc; [apply host_env_inv|exact HP|..]).
  pose proof (quiet_inv op _ _ Hi' Hq) as Hif.
  split; [done|]. apply IH; [done..|]. by eapply HQ.
Qed.

Lemma pins_rg op (P : whost K → Prop) :
  stable host_inv (host_env op) P → io_free P → (∀ s s', P s → quiet op s s' → P s') →
  rg host_inv (host_env op) P (cleanupStalePinsIn op) (λ ok s, P s ∧ (ok = true → wh_pins s !! op = None)).
Proof.
  intros HP Hio HQ. unfold cleanupStalePinsIn.
  assert (Hs : stable host_inv (host_env op) (λ s, wh_pins s !! op = None)) by apply (stable_kept op (λ _ _ l _, l = None)).
  apply rg_bind with (Q := λ l s, P s ∧ (l = Some None → wh_pins s !! op = None)).
  { apply rg_look; [done|done|..]; intros s _ Hp; (split; [done|]); [by intros [= ->]|done]. }
  intros [[[|pins]|]|]; try (apply rg_ret; by intros s _ [? ?]); [|apply rg_ret; intros s _ [? H]; split; [done|]; intros _; by apply H].
  apply (rg_weaken _ _ _ P _ _ (λ ok s, P s ∧ (ok = true → wh_pins s !! op = None))); [|by intros s _ [? _]|done].
  apply rg_bind with (Q := λ _, P); [by apply rg_look|]. intros [names|]; [|by apply rg_ret].
  apply rg_bind with (Q := λ _, P).
  { apply rg_of_quiet; [done..|]. apply acts_all_of, Forall_fmap, Forall_forall. intros name _. apply acts_cleanup_pin. }
  intros []; [|by apply rg_ret]. apply rg_syscall; [done..|]. intros x s Hi Hp.
  pose proof (quiet_remove_layout op x s) as Hq. split; [by eapply quiet_inv|].
  split; [by eapply HQ|]. destruct x; simpl; try done. destruct (wh_pins s !! op) as [[|ps]|] eqn:E; simpl; try done. case_bool_decide; simpl; [|done]. intros _. apply lookup_delete_eq.
Qed.

(** ** Reclaiming an entry *)

Lemma acts_backend_state {A} op s0 (m : proc K A) : acts (λ s s', entry_kept s0 op s → entry_kept s0 op s') (backend m).
Proof. apply (acts_lift _ _ (λ _ _, True)); [|done]. induction m as [a|f k IH]; simpl; [done|]. intros s. split; [done|apply IH]. Qed.

Lemma validate_rg s0 op rec :
  wr_OperationID rec = op →
  rg host_inv (host_env op) (λ s, recorded s op ∧ same s0 s op) (backend (wb_validate rec)) (λ _ s, recorded s op ∧ same s0 s op).
Proof.
  intros <-. set (op := wr_OperationID rec).
  eapply rg_weaken; [apply (rg_frame op (λ s, recorded s op ∧ True) (λ s, same s0 s op) _ (λ _ s, recorded s op ∧ True))|intros s _ [? ?]; by split|intros a s [[? _] ?]; by split].
  - apply stable_same.
  - apply (acts_lift _ _ (λ k k', wb_own op k k' ∧ (wb_holds k' op ↔ wb_holds k op))); [apply wb_validate_own|]. intros k t [_ Hh] [Hk Hs]. split; [done|]. by rewrite <-Hs.
  - apply (rg_backend op _ (λ _, True) (λ _ _, True)); [eapply acts_mono; [|apply wb_validate_own]; by intros k k' [? _]|].
    assert (Ha := wb_validate_own rec). intros k Hk _. revert k Hk Ha. induction (wb_validate rec) as [a|f m IH]; intros k Hk Ha; simpl in *; [done|].
    intros k' _ Hk'. destruct (Ha k') as [[Ho _] Ham]. assert (wb_inv (f k')) by (by eapply wb_own_inv). split; [done|]. by apply IH.
Qed.

Lemma remove_rg prov s0 op :
  reclaimable prov s0 op →
  rg host_inv (host_env op) (λ s, (free s op ∧ entry_kept s0 op s) ∧ wh_pins s !! op = None) (removeWorkloadMACState op) (λ _ s, outcome prov s0 s op).
Proof.
  intros Hrec. unfold removeWorkloadMACState.
  assert (Hpins : stable host_inv (host_env op) (λ s, wh_pins s !! op = None)) by apply (stable_kept op (λ _ _ l _, l = None)).
  assert (Hrun : stable host_inv (host_env op) (λ s, op ∉ wh_runtime s)).
  { intros s s' _ Hn [_ (op' & Hne & Hk & _)]. destruct (Hk op) as (_ & E & _); [done|]. by rewrite E. }
  apply rg_bind with (Q := λ ok s, free s op ∧ ((entry_kept s0 op s ∧ wh_pins s !! op = None) ∧ (ok = true → op ∉ wh_runtime s))).
  { eapply rg_weaken; [apply (rg_free_call op _ (λ s, entry_kept s0 op s ∧ wh_pins s !! op = None)
      (λ ok s, (entry_kept s0 op s ∧ wh_pins s !! op = None) ∧ (ok = true → op ∉ wh_runtime s)))|by intros s _ [[? ?] ?]|done].
    - apply stable_and; [apply stable_kept_entry|done].
    - by intros l s.
    - apply own_remove_runtime.
    - intros x s Hf Hh. by apply Hf, (remove_runtime_holds op x).
    - intros x s Hf Hp. destruct (remove_runtime_rest op x s) as (E1 & E2 & E3). unfold entry_kept. rewrite E1, E2. split; [exact Hp|]. apply remove_runtime_gone. }
  intros [|]; [|apply rg_ret; intros s _ (_ & [He _] & _); by apply kept_outcome].
  eapply rg_weaken; [apply (rg_free_call op _ (λ s, (entry_kept s0 op s ∧ wh_pins s !! op = None) ∧ op ∉ wh_runtime s)
      (λ _ s, wh_pins s !! op = None ∧ op ∉ wh_runtime s))|intros s _ (? & ? & H); split; [done|]; split; [done|by apply H]|].
  - by apply stable_and; [apply stable_and; [apply stable_kept_entry|]|].
  - by intros l s.
  - apply own_remove_state.
  - intros [] s Hf Hh; [|done|]; by apply wb_drop_state_holds in Hh.
  - intros [] s Hf [[_ Hp] Hr]; by split.
  - intros a s (Hf & Hp & Hr). split; [done|]. intros _. by split_and!.
Qed.

Lemma reconcileOne_rg prov s0 name rec :
  identifies name (wh_state s0 !! name) rec →
  rg host_inv (host_env name) (λ s, same s0 s name) (reconcileOne prov rec) (λ _ s, outcome prov s0 s name).
Proof.
  intros Hid. pose proof Hid as (Hsafe & (own & Eown & Hread) & Hop). unfold reconcileOne.
  apply rg_case; intros Hsch; [apply rg_ret; intros s _; apply same_outcome|]. apply rg_case; intros Hb; [apply rg_ret; intros s _; apply same_outcome|].
  apply bool_decide_eq_false, dec_stable in Hb.
  assert (Hrecd : ∀ s, entry_kept s0 name s → recorded s name) by (intros s E; exists rec; by rewrite E).
  apply (rg_weaken _ _ _ (λ s, recorded s name ∧ same s0 s name) _ _ (λ _ s, outcome prov s0 s name)); [|intros s _ Hs; split; [|done]; apply Hrecd; by destruct Hs as [(E & _) _]|done].
  eapply rg_bind; [by apply validate_rg|]. intros ok. apply rg_case; intros _; [apply rg_ret; intros s _ [_ Hs]; by apply same_outcome|].
  change (newRunCleanupSequence (reconcile_stages prov rec)) with (Some (reconcile_stages prov rec)). cbv iota.
  apply rg_bind with (Q := λ _ s, outcome prov s0 s name); [|intros a; by apply rg_ret].
  unfold reconcile_stages. cbn [run_cleanup cs_run cs_name]. rewrite Hop.
  destruct (is_ok (proveOperationContainerAbsent (prov name (wr_SessionID rec)))) eqn:Eabs; [|apply rg_ret; intros s _ [_ Hs]; by apply same_outcome].
  assert (Hrecl : reclaimable prov s0 name) by (by exists rec).
  change (mret true ≫= ?k) with (k true). cbv beta iota.
  apply rg_bind with (Q := λ ok s, (recorded s name ∧ (ok = true → free s name)) ∧ entry_kept s0 name s).
  { eapply rg_weaken; [apply (rg_frame name (λ s, recorded s name ∧ True) (entry_kept s0 name) _ (λ ok s, recorded s name ∧ (ok = true → ¬ wb_holds (wh_kernel s) name))); [apply stable_kept_entry|apply acts_backend_state|]|intros s _ [? [(E & _) _]]; split; [by split|done]|by intros a s].
    subst name. apply (rg_backend (wr_OperationID rec) _ (λ _, True) (λ ok k, ok = true → ¬ wb_holds k (wr_OperationID rec))); [apply wb_cleanup_own|apply wb_cleanup_spec]. }
  intros [|]; [|apply rg_ret; intros s _ [_ He]; by apply kept_outcome].
  apply (rg_weaken _ _ _ (λ s, free s name ∧ entry_kept s0 name s) _ _ (λ _ s, outcome prov s0 s name)); [|intros s _ [[_ H] He]; split; [by apply H|done]|done].
  eapply rg_bind; [apply (pins_rg name (λ s, free s name ∧ entry_kept s0 name s))|].
  - apply stable_and; [apply stable_holds|apply stable_kept_entry].
  - by intros l s.
  - intros s s' [Hf He] (E1 & E2 & _). split; [unfold free, holds; by rewrite E2|unfold entry_kept; by rewrite E1].
  - intros [|]; [|apply rg_ret; intros s _ [[_ He] _]; by apply kept_outcome].
    apply (rg_weaken _ _ _ (λ s, (free s name ∧ entry_kept s0 name s) ∧ wh_pins s !! name = None) _ _ (λ _ s, outcome prov s0 s name)); [|intros s _ [H1 H2]; split; [done|by apply H2]|done].
    eapply rg_bind; [by apply remove_rg|]. intros []; by apply rg_ret.
Qed.

Lemma reconcile_entry_rg prov s0 name :
  rg host_inv (host_env name) (λ s, same s0 s name) (reconcile_entry prov name) (λ _ s, outcome prov s0 s name).
Proof.
  eapply rg_bind; [apply parse_rg|]. intros [rec|].
  - apply rg_pure with (F := identifies name (wh_state s0 !! name) rec); [intros s [_ H]; by apply H|]. intros Hid.
    apply (rg_weaken _ _ _ (λ s, same s0 s name) _ _ (λ _ s, outcome prov s0 s name)); [|by intros s _ [? _]|done].
    eapply rg_bind; [by apply reconcileOne_rg|]. intros a. by apply rg_ret.
  - apply rg_ret. intros s _ [Hs _]. by apply same_outcome.
Qed.

(** ** The whole scan *)

Lemma acts_bind2 {S A B C} (G : S → S → Prop) (m : proc S A) (f : A → proc S B) (k : B → proc S C) :
  acts G m → (∀ a, acts G (f a ≫= k)) → acts G ((m ≫= f) ≫= k).
Proof.
  intros Hm Hf. unfold mbind, proc_bind in *. induction m as [a|g m IH]; simpl; [apply Hf|]. intros s. destruct (Hm s) as [? ?]. split; [done|]. by apply IH.
Qed.

Lemma acts_reconcileOne prov rec : acts (host_own (wr_OperationID rec)) (reconcileOne prov rec).
Proof.
  unfold reconcileOne. set (op := wr_OperationID rec). apply acts_case; [apply acts_ret|]. apply acts_case; [apply acts_ret|].
  assert (Hq : ∀ A (m : proc (whost K) A), acts (quiet op) m → acts (host_own op) m) by (intros A m; apply acts_mono; by intros s s' (_ & _ & ?)).
  apply acts_bind; [apply acts_backend; eapply acts_mono; [|apply wb_validate_own]; by intros k k' [? _]|]. intros ok. apply acts_case; [apply acts_ret|].
  change (newRunCleanupSequence (reconcile_stages prov rec)) with (Some (reconcile_stages prov rec)). cbv iota.
  apply acts_bind; [|intros; apply acts_ret]. apply acts_run_cleanup. repeat constructor; intros m [= <-].
  - apply acts_ret.
  - apply acts_backend, wb_cleanup_own.
  - apply Hq. unfold cleanupStalePinsIn. apply acts_bind; [apply acts_quiet_look|]. intros [[[|pins]|]|]; try apply acts_ret.
    apply acts_bind; [apply acts_quiet_look|]. intros [names|]; [|apply acts_ret].
    apply acts_bind; [apply acts_all_of, Forall_fmap, Forall_forall; intros name _; apply acts_cleanup_pin|].
    intros []; [apply acts_quiet_call, quiet_remove_layout|apply acts_ret].
  - apply acts_removeWorkloadMACState.
Qed.

Lemma acts_reconcile_entry prov name : acts (host_own name) (reconcile_entry prov name).
Proof.
  unfold reconcile_entry, parseReconcileEntry. destruct (negb (isOperationIDSafe name)); [apply acts_ret|].
  apply acts_bind2; [apply acts_look|]. intros [[[|own]|]|]; try apply acts_ret. apply acts_bind2; [apply acts_look|]. intros own'.
  change (mret ?x ≫= ?k) with (k x). cbv beta. destruct (own' ≫= readWorkloadMACRecord) as [rec|]; [|apply acts_ret]. cbn [mbind option_bind].
  case_bool_decide as Ho; [apply acts_ret|]. apply acts_bind; [|intros; apply acts_ret]. subst name. apply acts_reconcileOne.
Qed.

Lemma own_run_same name op s s' : op ≠ name → wb_inv (wh_kernel s) → rtc (host_own name) s s' → same s s' op.
Proof.
  intros Hne Hi Hr. induction Hr as [s|s s1 s2 Ho _ IH]; [apply same_refl|].
  assert (Hi1 : wb_inv (wh_kernel s1)) by (destruct Ho as [_ [->|Hk]]; [done|by eapply wb_own_inv]).
  destruct (IH Hi1) as [(E1 & E2 & E3 & E4) Hh]. pose proof (own_holds name op s s1 Hne Hi Ho) as Hh1. destruct Ho as [Hk _].
  destruct (Hk op Hne) as (F1 & F2 & F3 & F4). split; [split; [congruence|]; split; [tauto|]; split; congruence|tauto].
Qed.

Lemma same_trans s0 s s' op : same s0 s op → same s s' op → same s0 s' op.
Proof. intros [(E1 & E2 & E3 & E4) Hh] [(F1 & F2 & F3 & F4) Hh']. split; [split; [congruence|]; split; [tauto|]; split; congruence|tauto]. Qed.

Lemma outcome_same prov s0 s s' op : outcome prov s0 s op → same s s' op → outcome prov s0 s' op.
Proof.
  intros [H1 H2] Hs. split; [intros Hn; eapply same_trans; [by apply H1|done]|]. destruct Hs as [(F1 & F2 & F3 & F4) Hh]. unfold reclaimed, free in *. rewrite F1, F3, F2, Hh. exact H2.
Qed.

Lemma scan_outcome prov s0 names s :
  NoDup names → host_inv s → (∀ op, op ∈ names → same s0 s op) →
  let s' := (run (proc_iter (reconcile_entry prov) names) s).2 in
  host_inv s' ∧ (∀ op, op ∈ names → outcome prov s0 s' op) ∧ (∀ op, op ∉ names → same s s' op).
Proof.
  revert s. induction names as [|n names IH]; intros s Hnd Hi Hsame; cbn [proc_iter].
  - split_and!; [done| |intros op _; apply same_refl]. by intros op ?%elem_of_nil.
  - apply NoDup_cons in Hnd as [Hn Hnd]. rewrite run_bind. destruct (run (reconcile_entry prov n) s) as [[] s1] eqn:E.
    pose proof (wp_run _ _ (reconcile_entry prov n) _ s Hi (reconcile_entry_rg prov s0 n s Hi (Hsame n ltac:(by left)))) as [Hi1 Ho]. rewrite E in Hi1, Ho. cbn [fst snd] in *.
    pose proof (acts_run _ _ s (acts_reconcile_entry prov n)) as Hr. rewrite E in Hr. cbn [snd] in Hr.
    assert (Hoth : ∀ op, op ≠ n → same s s1 op) by (intros op Hne; eapply own_run_same; [done|by destruct Hi|done]).
    destruct (IH s1 Hnd Hi1) as (Hi' & Hin & Hout).
    { intros op Hop. eapply same_trans; [apply Hsame; by right|]. apply Hoth. by intros ->. }
    split_and!; [done| |].
    + intros op [->|Hop]%elem_of_cons; [|by apply Hin]. eapply outcome_same; [exact Ho|by apply Hout].
    + intros op [Hne Hop]%not_elem_of_cons. eapply same_trans; [by apply Hoth|by apply Hout].
Qed.

(** ** The pending Sessions *)

Definition reads s s' : Prop := wh_state s' = wh_state s ∧ wh_kernel s' = wh_kernel s.

Lemma acts_reads_look {A} (f : whost K → A) : acts reads (look f).
Proof. apply acts_atom. intros s. by destruct (wh_io s). Qed.

Lemma acts_reads_parse name : acts reads (parseReconcileEntry name).
Proof.
  unfold parseReconcileEntry. apply acts_case; [apply acts_ret|]. apply acts_bind; [apply acts_reads_look|]. intros [[[|own]|]|]; try apply acts_ret.
  apply acts_bind; [apply acts_reads_look|]. intros; apply acts_ret.
Qed.

Lemma reads_run {A} (m : proc (whost K) A) s : acts reads m → reads s (run m s).2.
Proof.
  intros Ha. pose proof (acts_run _ _ s Ha) as Hr. induction Hr as [s'|x y z [E1 E2] _ [F1 F2]]; [done|]. split; congruence.
Qed.

Lemma parse_run name s :
  host_inv s → let '(r, s') := run (parseReconcileEntry name) s in
  host_inv s' ∧ reads s s' ∧ ∀ rec, r = Some rec → identifies name (wh_state s !! name) rec.
Proof.
  intros Hi. pose proof (wp_run _ _ (parseReconcileEntry name) _ s Hi (parse_rg s name s Hi (same_refl s name))) as [Hi' [_ Hid]].
  pose proof (reads_run (parseReconcileEntry name) s (acts_reads_parse name)) as Hr. by destruct (run (parseReconcileEntry name) s) as [r s'].
Qed.

(** The Session of the entry is pending, or an unknown one is. *)
Definition covers_entry (pending : gset string) s (name : string) : Prop :=
  workloadPendingUnknownSession ∈ pending ∨ ∃ rec, identifies name (wh_state s !! name) rec ∧ wr_SessionID rec ∈ pending.

Lemma pending_of_spec names acc s :
  host_inv s → let '(pending, s') := run (pending_of names acc) s in reads s s' ∧ acc ⊆ pending ∧ ∀ name, name ∈ names → covers_entry pending s name.
Proof.
  revert acc s. induction names as [|n names IH]; intros acc s Hi; cbn [pending_of].
  - split; [done|]. split; [done|]. by intros n ?%elem_of_nil.
  - rewrite run_bind. pose proof (parse_run n s Hi) as Hp. destruct (run (parseReconcileEntry n) s) as [r s1]. destruct Hp as (Hi1 & [E1 E2] & Hid).
    set (acc' := match r with Some rec => _ | None => _ end). specialize (IH acc' s1 Hi1). destruct (run (pending_of names acc') s1) as [pending s2].
    destruct IH as ([F1 F2] & Hsub & Hc). split; [split; congruence|]. split; [destruct r; set_solver|].
    intros name [->|Hname]%elem_of_cons.
    + destruct r as [rec|]; [right; exists rec; split; [by apply Hid|]|left]; apply Hsub; set_solver.
    + destruct (Hc name Hname) as [?|(rec & H1 & H2)]; [by left|right]. exists rec. by rewrite <-E1.
Qed.
End spec.

Section properties.
Context {K : Type} `{!workloadMACBackend K} `{!workloadMACLaws K}.
Implicit Types s : whost K.

(** C18. Crash safety: whatever runs prepare, clean up and release at once, in
    any interleaving of their system calls and backend steps and whatever those
    fail, at every moment each operation with kernel MAC state has a durable
    record from which startup proves its ownership.  A crash is such a moment. *)
Theorem crash_leaves_records now ps s pool s' :
  host_inv s → NoDup (wp_OperationID <$> ps) → Forall canonical_ids ps →
  Forall (λ p, free s (wp_OperationID p) ∧ once_free (wp_OperationID p) s) ps →
  rtc pool_step (workload_run now <$> ps, s) (pool, s') →
  ∀ op, holds s' op → ∃ rec, identifies op (wh_state s' !! op) rec ∧ wr_Backend rec = wb_backend.
Proof.
  intros Hi Hnd Hc Hf Hr. by apply (run_pool_inv now ps s pool s').
Qed.

(** C19. Startup reclaims exactly what it can prove: an entry that is not a
    proven record of the active backend with a provably absent container keeps
    its record, its directories, its pins and its kernel state; a record leaves
    only after the kernel state, the pins and, when it is gone, the runtime
    directory of its operation.  Whatever fails, the kernel state left has its
    record. *)
Theorem startup_reclaims_proven prov s :
  host_inv s →
  let s' := (run (ReconcileStartup prov) s).2 in
  (∀ op, (¬ reclaimable prov s op → same s s' op) ∧ reclaimed s s' op) ∧
  ∀ op, holds s' op → recorded s' op.
Proof.
  intros Hi. unfold ReconcileStartup. cbv zeta. rewrite run_bind.
  assert (Hread : ∃ names s1, run read_state_root s = (names, s1) ∧ (∀ op, same s s1 op) ∧ host_inv s1 ∧ ∀ l, names = Some l → NoDup l).
  { unfold read_state_root, look, syscall. rewrite run_atom. destruct (wh_io s) as [|x l]; [|destruct x]; (do 2 eexists; split; [reflexivity|]; split; [intros op; split_and!; done|]; split; [done|]); intros l' [= <-].
    all: unfold sorted; rewrite (merge_sort_Permutation str_le); apply NoDup_elements. }
  destruct Hread as (names & s1 & -> & Hsame & Hi1 & Hnd). destruct names as [names|].
  - rewrite run_bind. destruct (scan_outcome prov s names s1 (Hnd _ eq_refl) Hi1) as (Hi' & Hin & Hout); [by intros op _|].
    destruct (run (proc_iter (reconcile_entry prov) names) s1) as [[] s2]. cbn [run mret proc_ret snd] in *. split; [|by destruct Hi'].
    intros op. destruct (decide (op ∈ names)) as [Hop|Hop]; [by apply Hin|]. apply same_outcome. eapply same_trans; [apply Hsame|by apply Hout].
  - cbn [run mret proc_ret snd]. split; [|by destruct Hi1]. intros op. by apply same_outcome.
Qed.

(** C25. The pending Sessions cover the kernel state: for every operation with
    kernel MAC state the Session of its record is pending, or the marker of an
    unknown Session is, even when records or the state root cannot be read. *)
Theorem pending_covers_kernel_state s op :
  host_inv s → holds s op →
  let pending := (run PendingWorkloadSessions s).1 in
  workloadPendingUnknownSession ∈ pending ∨
  ∃ rec, identifies op (wh_state s !! op) rec ∧ wr_Backend rec = wb_backend ∧ wr_SessionID rec ∈ pending.
Proof.
  intros Hi Hh. unfold PendingWorkloadSessions. cbv zeta. rewrite run_bind. destruct (proj2 Hi op Hh) as (rec & Hid & Hb).
  assert (Hread : ∃ names s1, run read_state_root s = (names, s1) ∧ reads s s1 ∧ host_inv s1 ∧ ∀ l, names = Some l → op ∈ l).
  { unfold read_state_root, look, syscall. rewrite run_atom.
    assert (Hin : op ∈ sorted (dom (wh_state s))).
    { unfold sorted. rewrite (merge_sort_Permutation str_le), elem_of_elements. apply elem_of_dom. destruct Hid as (_ & (own & -> & _) & _). by eexists. }
    destruct (wh_io s) as [|x l]; [|destruct x]; (do 2 eexists; split; [reflexivity|]; split; [done|]; split; [done|]); by intros l' [= <-]. }
  destruct Hread as (names & s1 & -> & [E1 E2] & Hi1 & Hin). destruct names as [names|]; [|left; cbn; set_solver].
  pose proof (pending_of_spec names ∅ s1 Hi1) as H. destruct (run (pending_of names ∅) s1) as [pending s2]. destruct H as (_ & _ & Hc).
  cbn [fst]. destruct (Hc op (Hin _ eq_refl)) as [?|(rec' & H1 & H2)]; [by left|right]. rewrite E1 in H1. exists rec'. split; [done|]. split; [|done].
  destruct Hid as (_ & (own & Eo & Hr) & _), H1 as (_ & (own' & Eo' & Hr') & _). rewrite Eo in Eo'. injection Eo' as <-. rewrite Hr in Hr'. by injection Hr' as <-.
Qed.
End properties.
