(* ===== verification/WorkloadRecovery.v ===== *)
(** * WorkloadRecovery: a healthy startup clears the workload MAC state *)
From S2P Require Import Prelude Filepath AllowedRoots GoStrings Session Operation Proc Lifecycle RunRequest Run WorkloadMac WorkloadMacTheory WorkloadMacSpec.
Local Open Scope Z_scope.

(** A backend that answers: owned state validates and is cleaned. *)
Class workloadMACHealth (K : Type) `{!workloadMACBackend K} `{!workloadMACLaws K} := {
  wb_healthy : K → Prop;
  wb_healthy_validate rec k : wb_healthy k → wr_Backend rec = wb_backend → ∃ k', run (wb_validate rec) k = (true, k') ∧ wb_healthy k';
  wb_healthy_cleanup rec k : wb_healthy k → ∃ k', run (wb_cleanup rec) k = (true, k') ∧ wb_healthy k' ∧ ¬ wb_holds k' (wr_OperationID rec);
  wb_healthy_drop_state op k : wb_healthy k → ¬ wb_holds k op → wb_healthy (wb_drop_state op k);
  wb_healthy_drop_runtime op k : wb_healthy k → ¬ wb_holds k op → (wb_drop_runtime op k).1 = true ∧ wb_healthy (wb_drop_runtime op k).2 }.

Section recovery.
Context {K : Type} `{!workloadMACBackend K} `{!workloadMACLaws K} `{!workloadMACHealth K}.
Implicit Types s : whost K.

(** ** System calls that succeed *)

Lemma run_syscall {A} (f : io → whost K → A * whost K) s : wh_io s = [] → run (syscall f) s = f io_ok s.
Proof. intros E. unfold syscall. rewrite run_atom. by rewrite E. Qed.
Lemma run_look {A} (f : whost K → A) s : wh_io s = [] → run (look f) s = (Some (f s), s).
Proof. intros E. unfold look. by rewrite run_syscall. Qed.
Lemma run_backend {A} (m : proc K A) s : run (backend m) s = let '(a, k) := run m (wh_kernel s) in (a, with_kernel k s).
Proof. apply run_lift; [done|done|by intros []]. Qed.

(** The pins of an operation, the rest unchanged. *)
Definition pins_become (op : string) (l : option pin_layout) s s' : Prop :=
  wh_io s' = wh_io s ∧ wh_state s' = wh_state s ∧ wh_runtime s' = wh_runtime s ∧ wh_kernel s' = wh_kernel s ∧ wh_pins s' !! op = l.

Lemma set_pin_become op name f s m :
  wh_pins s !! op = Some (pins_dir m) → pins_become op (Some (pins_dir (partial_alter f name m))) s (set_pin op name f s).
Proof. intros E. split_and!; try done. cbn. by rewrite lookup_alter_eq, E. Qed.

Definition pin_ok (name : string) (node : pin_node) : Prop := isCanonicalDecimalIndex name = true ∧ ∃ b, node = pin_destination b.

Lemma run_remove_pin op name s m :
  wh_io s = [] → wh_pins s !! op = Some (pins_dir m) → m !! name = Some (pin_destination false) →
  ∃ s', run (remove_pin op name) s = (true, s') ∧ pins_become op (Some (pins_dir (delete name m))) s s'.
Proof.
  intros Hio E Em. unfold remove_pin. rewrite run_syscall by done. assert (pin_of op name s = Some (pin_destination false)) as -> by (unfold pin_of; by rewrite E).
  eexists. split; [done|]. by apply set_pin_become.
Qed.

Lemma run_cleanup_pin op name s m node :
  wh_io s = [] → wh_pins s !! op = Some (pins_dir m) → m !! name = Some node → pin_ok name node →
  ∃ s', run (cleanup_pin op name) s = (true, s') ∧ pins_become op (Some (pins_dir (delete name m))) s s'.
Proof.
  intros Hio E Em [Hn [b ->]]. assert (Hp : pin_of op name s = Some (pin_destination b)) by (unfold pin_of; by rewrite E).
  unfold cleanup_pin, validateStalePinEntry. rewrite Hn. cbn [negb]. rewrite !run_bind, run_look, Hp by done. cbn [run mret proc_ret negb].
  unfold procMountinfoContains. rewrite run_bind, run_look, Hp by done. destruct b; [|by apply run_remove_pin].
  rewrite run_bind. unfold unmountOwnedStalePin. rewrite run_syscall by done. cbn [negb]. set (unmount := fmap _). set (s1 := set_pin op name unmount s).
  destruct (set_pin_become op name unmount s m E) as (H1 & H2 & H3 & H4 & H5). fold s1 in H1, H2, H3, H4, H5.
  assert (Em1 : partial_alter unmount name m !! name = Some (pin_destination false)) by (rewrite lookup_partial_alter_eq, Em; done).
  rewrite run_bind, run_look by congruence. assert (pin_of op name s1 = Some (pin_destination false)) as -> by (unfold pin_of; by rewrite H5).
  destruct (run_remove_pin op name s1 _ ltac:(congruence) H5 Em1) as (s' & Hr & F1 & F2 & F3 & F4 & F5). exists s'. split; [done|].
  split_and!; [congruence..|]. rewrite F5. do 2 f_equal. apply map_eq. intros i. destruct (decide (i = name)) as [->|Hne].
  - by rewrite !lookup_delete_eq.
  - by rewrite !lookup_delete_ne, lookup_partial_alter_ne.
Qed.

Lemma run_all_pins op names s m :
  NoDup names → wh_io s = [] → wh_pins s !! op = Some (pins_dir m) → (∀ n, n ∈ names ↔ n ∈ dom m) → (∀ n node, m !! n = Some node → pin_ok n node) →
  ∃ s', run (all_of (cleanup_pin op <$> names)) s = (true, s') ∧ pins_become op (Some (pins_dir ∅)) s s'.
Proof.
  revert s m. induction names as [|n names IH]; intros s m Hnd Hio E Hdom Hok.
  - exists s. split; [done|]. split_and!; try done. rewrite E. do 2 f_equal. apply map_empty. intros i. apply not_elem_of_dom. rewrite <-Hdom. apply not_elem_of_nil.
  - apply NoDup_cons in Hnd as [Hn Hnd]. destruct (proj1 (elem_of_dom m n) (proj1 (Hdom n) ltac:(by left))) as [node En].
    destruct (run_cleanup_pin op n s m node Hio E En (Hok n node En)) as (s1 & Hr & H1 & H2 & H3 & H4 & H5).
    destruct (IH s1 (delete n m) Hnd ltac:(congruence) H5) as (s' & Hr' & F1 & F2 & F3 & F4 & F5).
    + intros i. rewrite dom_delete, elem_of_difference, <-Hdom, elem_of_cons, not_elem_of_singleton. destruct (decide (i = n)); naive_solver.
    + intros i nd Hi. apply lookup_delete_Some in Hi as [_ Hi]. by apply Hok.
    + exists s'. rewrite fmap_cons. cbn [all_of]. rewrite run_bind, Hr. split; [done|]. split_and!; congruence.
Qed.

(** The pin layout that can be cleaned. *)
Definition pins_clean (op : string) s : Prop :=
  match wh_pins s !! op with
  | None => True
  | Some pins_foreign => False
  | Some (pins_dir m) => ∀ n node, m !! n = Some node → pin_ok n node
  end.

Lemma run_pins op s :
  wh_io s = [] → pins_clean op s → ∃ s', run (cleanupStalePinsIn op) s = (true, s') ∧ pins_become op None s s'.
Proof.
  intros Hio Hp. unfold pins_clean in Hp. unfold cleanupStalePinsIn. rewrite run_bind, run_look by done.
  destruct (wh_pins s !! op) as [[|m]|] eqn:E; [done| |by exists s].
  rewrite run_bind, run_look, E by done. rewrite run_bind.
  destruct (run_all_pins op (sorted (dom m)) s m (sorted_nodup _) Hio E (sorted_elem _) Hp) as (s1 & -> & H1 & H2 & H3 & H4 & H5).
  unfold remove_layout. rewrite run_syscall by congruence. unfold remove_layout_io. rewrite H5, bool_decide_true by done.
  eexists. split; [done|]. split_and!; try done. apply lookup_delete_eq.
Qed.

(** ** One entry *)

Lemma run_parse name s :
  wh_io s = [] → ∃ r, run (parseReconcileEntry name) s = (r, s) ∧ ∀ rec, r = Some rec ↔ identifies name (wh_state s !! name) rec.
Proof.
  intros Hio. unfold parseReconcileEntry. destruct (isOperationIDSafe name) eqn:Hs; cbn [negb].
  2:{ exists None. split; [done|]. intros rec. split; [done|]. intros (H & _). by rewrite H in Hs. }
  rewrite run_bind, run_look by done. destruct (wh_state s !! name) as [[|own]|] eqn:E.
  - exists None. split; [done|]. intros rec. split; [done|]. by intros (_ & (own & ? & _) & _).
  - rewrite run_bind, run_look, E by done. eexists. split; [done|]. cbn [mbind option_bind]. intros rec. destruct (readWorkloadMACRecord own) as [rec'|] eqn:Er; cbn [mbind option_bind].
    + case_bool_decide as Ho; split.
      * done.
      * intros (_ & (own' & [= <-] & Hr) & Hop). rewrite Er in Hr. injection Hr as ->. done.
      * intros [= ->]. split; [done|]. split; [by exists own|done].
      * intros (_ & (own' & [= <-] & Hr) & Hop). rewrite Er in Hr. by injection Hr as ->.
    + split; [done|]. intros (_ & (own' & [= <-] & Hr) & _). by rewrite Er in Hr.
  - exists None. split; [done|]. intros rec. split; [done|]. by intros (_ & (own & ? & _) & _).
Qed.

Definition proven_absent (prov : string → string → containerProvenance) s (op : string) : Prop :=
  ∀ rec, identifies op (wh_state s !! op) rec → is_ok (proveOperationContainerAbsent (prov op (wr_SessionID rec))) = true.

Definition ready s : Prop := wh_io s = [] ∧ wb_healthy (wh_kernel s).

Lemma run_unrecorded prov name s : ready s → ¬ recorded s name → run (reconcile_entry prov name) s = ((), s).
Proof.
  intros [Hio _] Hn. unfold reconcile_entry. rewrite run_bind. destruct (run_parse name s Hio) as (r & -> & Hr). destruct r as [rec|]; [|done].
  pose proof (proj1 (Hr rec) eq_refl) as Hid. rewrite run_bind. unfold reconcileOne. case_bool_decide; [done|]. case_bool_decide as Hb; [done|].
  exfalso. apply Hn. exists rec. by split.
Qed.

Lemma run_remove_all op s :
  ready s → ¬ wb_holds (wh_kernel s) op → ∃ s', run (removeWorkloadMACState op) s = (true, s') ∧ ready s' ∧ wh_state s' !! op = None.
Proof.
  intros [Hio Hh] Hn. unfold removeWorkloadMACState. rewrite run_bind. unfold remove_runtime_dir, remove_state_dir. rewrite run_syscall by done.
  unfold remove_runtime_io. destruct (wb_healthy_drop_runtime op (wh_kernel s) Hh Hn) as [E Hh2]. pose proof (wb_drop_runtime_holds op (wh_kernel s)) as Hn2.
  destruct (wb_drop_runtime op (wh_kernel s)) as [ok k]. simpl in E, Hh2, Hn2. subst ok. rewrite run_syscall by done. eexists. split; [done|]. split; [|apply lookup_delete_eq]. split; [done|]. cbn.
  apply wb_healthy_drop_state; [done|]. by intros H%Hn2.
Qed.

Lemma run_recorded prov name s :
  ready s → recorded s name → proven_absent prov s name → pins_clean name s →
  ∃ s', run (reconcile_entry prov name) s = ((), s') ∧ ready s' ∧ wh_state s' !! name = None.
Proof.
  intros [Hio Hh] (rec & Hid & Hb) Habs Hp. unfold reconcile_entry. rewrite run_bind. destruct (run_parse name s Hio) as (r & -> & Hr). rewrite (proj2 (Hr rec) Hid).
  specialize (Habs rec Hid). rewrite run_bind. pose proof Hid as (_ & (own & _ & Hread) & Hop). unfold reconcileOne.
  rewrite bool_decide_false by (destruct own; [done..|]; cbn in Hread; case_bool_decide; [done|]; repeat (case_match; [done|]); injection Hread as <-; tauto).
  rewrite bool_decide_false by tauto. rewrite run_bind, run_backend. destruct (wb_healthy_validate rec _ Hh Hb) as (k1 & -> & Hh1).
  change (newRunCleanupSequence (reconcile_stages prov rec)) with (Some (reconcile_stages prov rec)). cbn [negb]. rewrite run_bind. unfold reconcile_stages.
  cbn [run_cleanup cs_run cs_name]. rewrite Hop, Habs. change (mret true ≫= ?k) with (k true). cbv beta iota.
  rewrite run_bind, run_backend. destruct (wb_healthy_cleanup rec _ Hh1) as (k2 & E2 & Hh2 & Hn). cbn [wh_kernel with_kernel]. rewrite E2. cbv iota.
  set (s2 := with_kernel k2 _). rewrite run_bind. destruct (run_pins name s2) as (s3 & -> & H1 & H2 & H3 & H4 & H5); [done|done|]. cbv iota.
  rewrite run_bind. destruct (run_remove_all name s3) as (s4 & -> & Hr4 & Hs4).
  { split; [by rewrite H1|by rewrite H4]. }
  { rewrite H4. by rewrite <-Hop. }
  exists s4. split; [done|]. by split.
Qed.

(** ** The scan *)

Lemma same_recorded s s' op : same s s' op → recorded s' op ↔ recorded s op.
Proof. intros [(E & _) _]. unfold recorded. by rewrite E. Qed.

Lemma recorded_dec s name : ready s → recorded s name ∨ ¬ recorded s name.
Proof.
  intros [Hio _]. destruct (run_parse name s Hio) as ([rec|] & _ & Hr).
  - destruct (decide (wr_Backend rec = wb_backend)) as [Hb|Hb]; [left; exists rec; by split; [apply Hr|]|right].
    intros (rec' & Hid & Hb'). apply Hr in Hid as [= ->]. done.
  - right. by intros (rec & Hid%Hr & _).
Qed.

Lemma run_entry prov name s :
  ready s → (recorded s name → proven_absent prov s name ∧ pins_clean name s) →
  let s' := (run (reconcile_entry prov name) s).2 in ready s' ∧ (recorded s name → wh_state s' !! name = None).
Proof.
  intros Hready Hok. destruct (recorded_dec s name Hready) as [Hrec|Hn].
  - destruct (Hok Hrec) as [Ha Hp]. destruct (run_recorded prov name s Hready Hrec Ha Hp) as (s' & -> & H1 & H2). by split.
  - rewrite run_unrecorded by done. by split.
Qed.

Lemma run_scan prov names s :
  NoDup names → host_inv s → ready s →
  (∀ op, op ∈ names → recorded s op → proven_absent prov s op ∧ pins_clean op s) →
  ∀ op, op ∈ names → recorded s op → wh_state (run (proc_iter (reconcile_entry prov) names) s).2 !! op = None.
Proof.
  revert s. induction names as [|n names IH]; intros s Hnd Hi Hready Hok; [by intros op ?%elem_of_nil|].
  apply NoDup_cons in Hnd as [Hn Hnd]. cbn [proc_iter]. rewrite run_bind.
  pose proof (wp_run _ _ (reconcile_entry prov n) _ s Hi (reconcile_entry_rg prov s n s Hi (same_refl s n))) as [Hi1 _].
  pose proof (acts_run _ _ s (acts_reconcile_entry prov n)) as Hr.
  destruct (run_entry prov n s Hready (Hok n ltac:(by left))) as [Hready1 Hgone].
  destruct (run (reconcile_entry prov n) s) as [[] s1]. cbn [snd] in *.
  assert (Hoth : ∀ op, op ≠ n → same s s1 op) by (intros op Hne; eapply own_run_same; [done|by destruct Hi|done]).
  intros op [->|Hop]%elem_of_cons Hrec.
  - destruct (scan_outcome prov s1 names s1 Hnd Hi1) as (_ & _ & Hout); [intros; apply same_refl|]. destruct (Hout n Hn) as [(E & _) _]. rewrite E. by apply Hgone.
  - assert (Hne : op ≠ n) by (by intros ->). apply IH; [done..| |done|by apply (same_recorded s s1 op (Hoth op Hne))].
    intros op' Hop' Hrec'. assert (Hne' : op' ≠ n) by (by intros ->). pose proof (Hoth op' Hne') as Hs. apply (same_recorded s s1 op' Hs) in Hrec'.
    destruct (Hok op' ltac:(by right) Hrec') as [Ha Hp]. destruct Hs as [(E1 & _ & E3 & _) _]. unfold proven_absent, pins_clean in *. by rewrite E1, E3.
Qed.

(** C26. Recovery: after any crash, a startup whose host answers - the backend
    cleans what it owns, the containers of the recorded operations are proven
    absent and their pin layouts are well-formed - removes every record of the
    active backend, and no kernel MAC state of any operation is left. *)
Theorem healthy_startup_clears prov s :
  host_inv s → wh_io s = [] → wb_healthy (wh_kernel s) →
  (∀ op, recorded s op → proven_absent prov s op ∧ pins_clean op s) →
  let s' := (run (ReconcileStartup prov) s).2 in
  (∀ op, recorded s op → wh_state s' !! op = None) ∧ ∀ op, ¬ holds s' op.
Proof.
  intros Hi Hio Hh Hok. unfold ReconcileStartup. cbv zeta. rewrite run_bind. unfold read_state_root. rewrite run_look by done. rewrite run_bind.
  set (names := sorted (dom (wh_state s))).
  assert (Hdom : ∀ op, recorded s op → op ∈ names).
  { intros op (rec & (_ & (own & E & _) & _) & _). apply sorted_elem, elem_of_dom. by rewrite E. }
  pose proof (run_scan prov names s (sorted_nodup _) Hi (conj Hio Hh) (λ op _, Hok op)) as Hgone.
  destruct (scan_outcome prov s names s (sorted_nodup _) Hi) as (Hi' & Hin & Hout); [intros; apply same_refl|].
  destruct (run (proc_iter (reconcile_entry prov) names) s) as [[] s']. cbn [run mret proc_ret snd] in *.
  split; [intros op Hrec; by apply Hgone; [apply Hdom|]|]. intros op Hh'. destruct (proj2 Hi' op Hh') as (rec & Hid & Hb).
  assert (Hrec' : recorded s' op) by (by exists rec).
  destruct (decide (op ∈ names)) as [Hop|Hop]; [|apply Hop, Hdom; by apply (same_recorded s s' op (Hout op Hop))].
  destruct (recorded_dec s op (conj Hio Hh)) as [Hrec|Hn]; [destruct Hid as (_ & (own & E & _) & _); by rewrite (Hgone op Hop Hrec) in E|].
  destruct (Hin op Hop) as [Hsame _]. apply Hn, (same_recorded s s' op); [|done]. apply Hsame.
  intros (rec' & Hid' & Hb' & _). apply Hn. by exists rec'.
Qed.
End recovery.
