(* ===== verification/WorkloadAppArmorBackend.v ===== *)
(** * WorkloadAppArmorBackend: the AppArmor backend of workload MAC (src/workload_apparmor.go)

    Preparation, unloading, validation and cleanup over the loaded profiles and
    the profile sources, as an instance of the coordinator's interface. *)
From S2P Require Import Prelude Filepath AllowedRoots GoStrings Session Operation Proc Lifecycle DockerMount RunRequest Run Aare AareTheory WorkloadAppArmor WorkloadAppArmorTheory WorkloadAppArmorSpec WorkloadMac WorkloadMacTheory WorkloadMacSpec WorkloadRecovery.
Local Open Scope Z_scope.

(** A profile source: a regular file, or another node. *)
Inductive aa_file := aa_regular (content : string) | aa_other.

(** What a call answers and whether it took effect: a parser that is killed at
    its deadline may have loaded the profile, and one that exits cleanly may
    not have. *)
Record aa_answer := mkAnswer { aa_exit : bool; aa_effect : bool }.

(** The profiles in force with their text, the profile source of each state
    directory, the answers to come. *)
Record aa_kernel := mkAA { aa_loaded : gmap string string; aa_files : gmap string aa_file; aa_io : list aa_answer }.

Lemma canonical_count (c : ascii) op : isCanonicalOperationID op = true → hex_rune (byte_of c) = false → str_count c operationIDPrefix = 0%nat → str_count c op = 0%nat.
Proof.
  unfold isCanonicalOperationID, isCanonicalPrefixedHexID. case_bool_decide; [done|]. destruct (CutPrefix op operationIDPrefix) as [rest|] eqn:E; [|done].
  apply CutPrefix_spec in E as ->. intros Hx%hex_bytes Hc Hp. rewrite str_count_app, Hp. clear -Hx Hc.
  induction rest as [|d rest IH]; [done|]. simpl in *. apply andb_true_iff in Hx as [Hd Hx]. destruct (ascii_dec c d) as [->|]; [congruence|]. by apply IH.
Qed.
Lemma canonical_one_line op : isCanonicalOperationID op = true → one_line op.
Proof. intros H. by apply canonical_count. Qed.

Section backend.
(** [os.Lstat] of a pinned source, the ABI 3.0 file, and the profile that
    apparmor_parser declares for a text. *)
Context (lstat : string → option bool) (abi30 : bool) (declares : string → option string).
Implicit Types k : aa_kernel.

Definition aa_with_io (l : list aa_answer) k : aa_kernel := mkAA (aa_loaded k) (aa_files k) l.
Definition aa_with_loaded (m : gmap string string) k : aa_kernel := mkAA m (aa_files k) (aa_io k).
Definition aa_with_files (m : gmap string aa_file) k : aa_kernel := mkAA (aa_loaded k) m (aa_io k).

Definition aa_call {A} (f : aa_answer → aa_kernel → A * aa_kernel) : proc aa_kernel A :=
  atom (λ k, match aa_io k with [] => f (mkAnswer true true) k | x :: l => f x (aa_with_io l k) end).
Definition aa_look {A} (f : aa_kernel → A) : proc aa_kernel (option A) :=
  aa_call (λ x k, (if aa_exit x then Some (f k) else None, k)).

Definition ensureParserAvailable : proc aa_kernel bool := aa_call (λ x k, (aa_exit x, k)).

(** [atomicWriteFile] of the profile source. *)
Definition write_profile_io (op content : string) (x : aa_answer) k : bool * aa_kernel :=
  if aa_exit x then (true, aa_with_files (<[op := aa_regular content]> (aa_files k)) k) else (false, k).

(** apparmor_parser on the source: the profile it declares is loaded, or
    removed. *)
Definition parser_io (load : bool) (op : string) (x : aa_answer) k : bool * aa_kernel :=
  match aa_files k !! op with
  | Some (aa_regular content) =>
      match declares content with
      | Some name =>
          (aa_exit x, if aa_effect x then aa_with_loaded (if load then <[name := content]> (aa_loaded k) else delete name (aa_loaded k)) k else k)
      | None => (false, k)
      end
  | _ => (false, k)
  end.

Definition isProfileLoaded (name : string) : proc aa_kernel (option bool) := aa_look (λ k, bool_decide (is_Some (aa_loaded k !! name))).

Definition requireProfileLoaded (name : string) : proc aa_kernel bool :=
  loaded ← isProfileLoaded name; mret (bool_decide (loaded = Some true)).

Definition aa_prepare (p : workloadPreparation) : proc aa_kernel (backend_answer unit) :=
  let op := wp_OperationID p in
  let name := workloadAppArmorProfileName op in
  ok ← ensureParserAvailable;
  if negb ok then mret backend_failed else
  match workloadAppArmorTargetPlanFromExposures lstat (wp_Exposures p) (wp_PinnedSources p) with
  | None => mret backend_failed
  | Some plan =>
      ok ← aa_call (write_profile_io op (renderWorkloadAppArmorProfile name plan abi30));
      if negb ok then mret backend_failed else
      ok ← aa_call (parser_io true op);
      if negb ok then mret backend_failed else
      ok ← requireProfileLoaded name;
      if negb ok then mret backend_failed else
      mret (backend_prepared (mkPreparedMAC ["label=disable"; "apparmor=" +:+ name] (wp_PinnedSources p)) ())
  end.

Definition unloadProfile (op name : string) : proc aa_kernel bool :=
  loaded ← isProfileLoaded name;
  match loaded with
  | None => mret false
  | Some false => mret true
  | Some true =>
      ok ← aa_call (parser_io false op);
      if negb ok then mret false else
      still ← isProfileLoaded name;
      mret (bool_decide (still = Some false))
  end.

(** [os.Remove] of the source; a missing one is removed. *)
Definition remove_profile_io (op : string) (x : aa_answer) k : bool * aa_kernel :=
  if aa_exit x then (true, aa_with_files (delete op (aa_files k)) k) else (false, k).

Definition cleanupPrepared (op : string) : proc aa_kernel bool :=
  ok ← unloadProfile op (workloadAppArmorProfileName op);
  if ok : bool then aa_call (remove_profile_io op) else mret false.

Definition aa_validateOwnedState (rec : workloadMACRecord) : proc aa_kernel bool :=
  if bool_decide (wr_Backend rec ≠ LSMAppArmor) then mret false else
  node ← aa_look (λ k, aa_files k !! wr_OperationID rec);
  mret (match node with Some None | Some (Some (aa_regular _)) => true | _ => false end).

Definition aa_cleanupOwnedState (rec : workloadMACRecord) : proc aa_kernel bool :=
  let op := wr_OperationID rec in
  let name := workloadAppArmorProfileName op in
  loaded ← isProfileLoaded name;
  match loaded with
  | None => mret false
  | Some loaded =>
      ok ← (if loaded : bool then
              node ← aa_look (λ k, aa_files k !! op);
              match node with Some (Some (aa_regular _)) => unloadProfile op name | _ => mret false end
            else mret true) : proc aa_kernel bool;
      if negb ok then mret false else aa_call (remove_profile_io op)
  end.

#[local] Instance workloadAppArmorBackend : workloadMACBackend aa_kernel := {
  wb_handle := unit;
  wb_backend := LSMAppArmor;
  wb_prepare := aa_prepare;
  wb_release := λ op _, cleanupPrepared op;
  wb_validate := aa_validateOwnedState;
  wb_cleanup := aa_cleanupOwnedState;
  wb_drop_state := λ op k, aa_with_files (delete op (aa_files k)) k;
  wb_drop_runtime := λ _ k, (true, k) }.

(** ** The laws *)

Hypothesis Hdeclares : ∀ op plan abi, isCanonicalOperationID op = true →
  declares (renderWorkloadAppArmorProfile (workloadAppArmorProfileName op) plan abi) = Some (workloadAppArmorProfileName op).

(** Every profile source declares the profile of its operation. *)
Definition aa_inv k : Prop :=
  ∀ op content, aa_files k !! op = Some (aa_regular content) → declares content = None ∨ declares content = Some (workloadAppArmorProfileName op).
Definition aa_holds k (op : string) : Prop := is_Some (aa_loaded k !! workloadAppArmorProfileName op).

Definition aa_own (op : string) k k' : Prop :=
  aa_inv k → aa_inv k' ∧ (∀ name, name ≠ workloadAppArmorProfileName op → aa_loaded k' !! name = aa_loaded k !! name) ∧
             (∀ op', op' ≠ op → aa_files k' !! op' = aa_files k !! op').

Definition aa_ready (p : workloadPreparation) (prepared : preparedWorkloadMAC) (_ : ()) k : Prop :=
  let name := workloadAppArmorProfileName (wp_OperationID p) in
  pm_SecurityOpts prepared = ["label=disable"; "apparmor=" +:+ name] ∧ pm_MountSources prepared = wp_PinnedSources p ∧
  ∃ plan, workloadAppArmorTargetPlanFromExposures lstat (wp_Exposures p) (wp_PinnedSources p) = Some plan ∧
          aa_loaded k !! name = Some (renderWorkloadAppArmorProfile name plan abi30).

Lemma profile_name_inj op op' : workloadAppArmorProfileName op = workloadAppArmorProfileName op' → op = op'.
Proof. apply str_app_inj_l. Qed.

Lemma acts_aa_call {A} op (f : aa_answer → aa_kernel → A * aa_kernel) : (∀ x k, aa_own op k (f x k).2) → acts (aa_own op) (aa_call f).
Proof. intros H. apply acts_atom. intros k. destruct (aa_io k) as [|x l]; [apply H|]. apply (H x (aa_with_io l k)). Qed.

Lemma aa_own_refl op k : aa_own op k k.
Proof. by intros Hi. Qed.

Lemma acts_aa_look {A} op (f : aa_kernel → A) : acts (aa_own op) (aa_look f).
Proof. apply acts_aa_call. intros. apply aa_own_refl. Qed.

Lemma own_write op plan abi x k :
  isCanonicalOperationID op = true → aa_own op k (write_profile_io op (renderWorkloadAppArmorProfile (workloadAppArmorProfileName op) plan abi) x k).2.
Proof.
  intros Hop Hi. unfold write_profile_io. destruct (aa_exit x); [|done]. split; [|split; [done|intros op' Hne; by apply lookup_insert_ne]]. intros op' content. cbn.
  destruct (decide (op' = op)) as [->|Hne]; [rewrite lookup_insert_eq; intros [= <-]; right; by apply Hdeclares|rewrite lookup_insert_ne by done; apply Hi].
Qed.

Lemma own_parser load op x k : aa_own op k (parser_io load op x k).2.
Proof.
  intros Hi. unfold parser_io. destruct (aa_files k !! op) as [[content|]|] eqn:E; [|done..]. pose proof (Hi op content E) as [Hd|Hd]; rewrite Hd; [done|].
  cbn. destruct (aa_effect x); [|done]. split; [done|]. split; [|done]. intros name Hne. cbn. destruct load; [by rewrite lookup_insert_ne|by rewrite lookup_delete_ne].
Qed.

Lemma own_remove_profile op x k : aa_own op k (remove_profile_io op x k).2.
Proof.
  intros Hi. unfold remove_profile_io. destruct (aa_exit x); [|done]. split; [|split; [done|intros op' Hne; by apply lookup_delete_ne]]. intros op' content H. cbn in H. apply lookup_delete_Some in H as [_ H]. by apply Hi.
Qed.

Lemma acts_unload op : acts (aa_own op) (unloadProfile op (workloadAppArmorProfileName op)).
Proof.
  apply acts_bind; [apply acts_aa_look|]. intros [[]|]; [|apply acts_ret..]. apply acts_bind; [apply acts_aa_call; intros; apply own_parser|].
  intros ok. apply acts_case; [apply acts_ret|]. apply acts_bind; [apply acts_aa_look|]. intros; apply acts_ret.
Qed.

Lemma acts_aa_prepare p : canonical_ids p → acts (aa_own (wp_OperationID p)) (aa_prepare p).
Proof.
  intros [Hop _]. unfold aa_prepare. apply acts_bind; [apply acts_aa_call; intros; apply aa_own_refl|]. intros ok1. apply acts_case; [apply acts_ret|].
  destruct (workloadAppArmorTargetPlanFromExposures _ _ _) as [plan|]; [|apply acts_ret].
  apply acts_bind; [apply acts_aa_call; intros; by apply own_write|]. intros ok2. apply acts_case; [apply acts_ret|].
  apply acts_bind; [apply acts_aa_call; intros; apply own_parser|]. intros ok3. apply acts_case; [apply acts_ret|].
  apply acts_bind; [apply acts_bind; [apply acts_aa_look|]; intros; apply acts_ret|]. intros ok4. apply acts_case; apply acts_ret.
Qed.

Lemma acts_aa_cleanup rec : acts (aa_own (wr_OperationID rec)) (aa_cleanupOwnedState rec).
Proof.
  unfold aa_cleanupOwnedState. apply acts_bind; [apply acts_aa_look|]. intros [loaded|]; [|apply acts_ret].
  apply acts_bind; [apply acts_case; [apply acts_bind; [apply acts_aa_look|]; intros [[[]|]|]; try apply acts_ret; apply acts_unload|apply acts_ret]|].
  intros ok. apply acts_case; [apply acts_ret|]. apply acts_aa_call. intros; apply own_remove_profile.
Qed.

Definition aa_env (op : string) k k' : Prop := ∃ op', op' ≠ op ∧ aa_own op' k k'.

Lemma aa_env_inv op k k' : aa_inv k → aa_env op k k' → aa_inv k'.
Proof. intros Hi (op' & _ & Ho). by apply Ho. Qed.

(** The profile of an operation, seen by the others' steps. *)
Lemma stable_profile op (P : option string → Prop) : stable aa_inv (aa_env op) (λ k, P (aa_loaded k !! workloadAppArmorProfileName op)).
Proof. intros k k' Hi Hp (op' & Hne & Ho). destruct (Ho Hi) as (_ & E & _). rewrite E; [done|]. by intros ?%profile_name_inj. Qed.
Lemma stable_source op (P : option aa_file → Prop) : stable aa_inv (aa_env op) (λ k, P (aa_files k !! op)).
Proof. intros k k' Hi Hp (op' & Hne & Ho). destruct (Ho Hi) as (_ & _ & E). by rewrite E. Qed.

Lemma rg_aa_call {A} op (f : aa_answer → aa_kernel → A * aa_kernel) (P : aa_kernel → Prop) (Q : A → aa_kernel → Prop) :
  stable aa_inv (aa_env op) P → (∀ l k, P k → P (aa_with_io l k)) → (∀ x k, aa_own op k (f x k).2) →
  (∀ x k, aa_inv k → P k → Q (f x k).1 (f x k).2) → rg aa_inv (aa_env op) P (aa_call f) Q.
Proof.
  intros HP Hio Ho HQ. apply rg_atom; [apply aa_env_inv|done|]. intros k Hi Hp. destruct (aa_io k) as [|x l]; (split; [by apply Ho|apply HQ; auto]).
Qed.

Lemma rg_aa_quiet {A} op (f : aa_answer → aa_kernel → A * aa_kernel) : (∀ x k, aa_own op k (f x k).2) → rg aa_inv (aa_env op) (λ _, True) (aa_call f) (λ _ _, True).
Proof. intros H. apply rg_aa_call; [apply stable_const|done|done|done]. Qed.

(** What a look at the loaded profiles says stays true. *)
Lemma rg_loaded op :
  rg aa_inv (aa_env op) (λ _, True) (isProfileLoaded (workloadAppArmorProfileName op))
     (λ r k, ∀ b, r = Some b → bool_decide (is_Some (aa_loaded k !! workloadAppArmorProfileName op)) = b).
Proof.
  apply rg_aa_call; [apply stable_const|done|intros; apply aa_own_refl|]. intros x k _ _. cbn. destruct (aa_exit x); [|done]. by intros b [= <-].
Qed.

Lemma rg_unload op : rg aa_inv (aa_env op) (λ _, True) (unloadProfile op (workloadAppArmorProfileName op)) (λ ok k, ok = true → ¬ aa_holds k op).
Proof.
  unfold unloadProfile. eapply rg_bind; [apply rg_loaded|]. intros [[]|]; [|apply rg_ret; intros k _ H _; by apply (bool_decide_eq_false_1 _), H|by apply rg_ret].
  apply (rg_weaken _ _ _ (λ _, True) _ _ (λ ok k, ok = true → ¬ aa_holds k op)); [|done|done].
  eapply rg_bind; [apply rg_aa_quiet; intros; apply own_parser|]. intros ok. apply rg_case; intros _; [by apply rg_ret|].
  eapply rg_bind; [apply rg_loaded|]. intros still. apply rg_ret. intros k _ H Hs%bool_decide_eq_true. by apply (bool_decide_eq_false_1 _), H.
Qed.

Lemma rg_remove_profile op :
  rg aa_inv (aa_env op) (λ k, ¬ aa_holds k op) (aa_call (remove_profile_io op)) (λ _ k, ¬ aa_holds k op).
Proof.
  apply rg_aa_call; [apply (stable_profile op (λ x, ¬ is_Some x))|by intros l k|intros; apply own_remove_profile|]. intros x k _ H. unfold remove_profile_io. by destruct (aa_exit x).
Qed.

Lemma rg_cleanupPrepared op : rg aa_inv (aa_env op) (λ _, True) (cleanupPrepared op) (λ ok k, ok = true → ¬ aa_holds k op).
Proof.
  unfold cleanupPrepared. eapply rg_bind; [apply rg_unload|]. intros []; [|by apply rg_ret].
  eapply rg_weaken; [apply rg_remove_profile|intros k _ H; by apply H|by intros a k H _].
Qed.

Lemma rg_cleanupOwned rec :
  rg aa_inv (aa_env (wr_OperationID rec)) (λ _, True) (aa_cleanupOwnedState rec) (λ ok k, ok = true → ¬ aa_holds k (wr_OperationID rec)).
Proof.
  unfold aa_cleanupOwnedState. set (op := wr_OperationID rec). eapply rg_bind; [apply rg_loaded|]. intros [loaded|]; [|by apply rg_ret].
  apply rg_bind with (Q := λ ok k, ok = true → ¬ aa_holds k op).
  { destruct loaded; [|apply rg_ret; intros k _ H _; by apply (bool_decide_eq_false_1 _), H].
    apply (rg_weaken _ _ _ (λ _, True) _ _ (λ ok k, ok = true → ¬ aa_holds k op)); [|done|done].
    eapply rg_bind; [apply rg_aa_quiet; intros; apply aa_own_refl|]. intros [[[]|]|]; try (by apply rg_ret). apply rg_unload. }
  intros []; [|by apply rg_ret]. eapply rg_weaken; [apply rg_remove_profile|intros k _ H; by apply H|by intros a k H _].
Qed.

Definition loaded_is (op : string) (x : option string) k : Prop := aa_loaded k !! workloadAppArmorProfileName op = x.
Definition source_is (op text : string) k : Prop := aa_files k !! op = Some (aa_regular text).

Lemma rg_aa_write op plan :
  isCanonicalOperationID op = true → let text := renderWorkloadAppArmorProfile (workloadAppArmorProfileName op) plan abi30 in
  rg aa_inv (aa_env op) (loaded_is op None) (aa_call (write_profile_io op text)) (λ ok k, loaded_is op None k ∧ (ok = true → source_is op text k)).
Proof.
  intros Hop. cbv zeta. apply rg_aa_call; [apply (stable_profile op (λ x, x = None))|by intros l k|intros; by apply own_write|].
  intros x k _ Hk. unfold write_profile_io. destruct (aa_exit x); (split; [done|]); [|done]. intros _. apply lookup_insert_eq.
Qed.

Lemma rg_aa_load op text :
  declares text = Some (workloadAppArmorProfileName op) →
  rg aa_inv (aa_env op) (λ k, loaded_is op None k ∧ source_is op text k) (aa_call (parser_io true op)) (λ _ k, loaded_is op None k ∨ loaded_is op (Some text) k).
Proof.
  intros Hd. apply rg_aa_call; [|by intros l k|intros; apply own_parser|].
  - apply stable_and; [apply (stable_profile op (λ x, x = None))|apply (stable_source op (λ x, x = Some (aa_regular text)))].
  - intros x k _ [Hn Hs]. unfold parser_io. rewrite Hs, Hd. cbn. destruct (aa_effect x); [right; apply lookup_insert_eq|by left].
Qed.

Lemma rg_aa_prepare p :
  canonical_ids p →
  rg aa_inv (aa_env (wp_OperationID p)) (λ k, ¬ aa_holds k (wp_OperationID p)) (aa_prepare p)
     (λ a k, match a with backend_prepared prepared handle => aa_ready p prepared handle k | _ => True end).
Proof.
  intros [Hop _]. unfold aa_prepare. set (op := wp_OperationID p) in *.
  apply (rg_weaken _ _ _ (loaded_is op None) _ _ (λ a k, match a with backend_prepared prepared handle => aa_ready p prepared handle k | _ => True end));
    [|by intros k _ H%eq_None_not_Some|done].
  apply rg_bind with (Q := λ _, loaded_is op None).
  { apply rg_aa_call; [apply (stable_profile op (λ x, x = None))|by intros l k|intros; apply aa_own_refl|done]. }
  intros ok1. apply rg_case; intros _; [by apply rg_ret|].
  destruct (workloadAppArmorTargetPlanFromExposures lstat (wp_Exposures p) (wp_PinnedSources p)) as [plan|] eqn:Eplan; [|by apply rg_ret].
  eapply rg_bind; [by apply rg_aa_write|]. intros ok2. apply rg_case; intros H2; [by apply rg_ret|]. apply negb_false_iff in H2 as ->.
  set (text := renderWorkloadAppArmorProfile _ plan abi30).
  eapply rg_bind; [eapply rg_weaken; [apply (rg_aa_load op text); by apply Hdeclares|intros k _ [? H]; split; [done|by apply H]|done]|].
  intros ok3. apply rg_case; intros _; [by apply rg_ret|].
  apply rg_bind with (Q := λ ok k, ok = true → loaded_is op (Some text) k).
  - unfold requireProfileLoaded. apply rg_bind with (Q := λ r k, r = Some true → loaded_is op (Some text) k).
    + apply rg_aa_call; [|by intros l k|intros; apply aa_own_refl|].
      * intros k k' Hi [H|H] Hr; [left; by apply (stable_profile op (λ x, x = None) k)|right; by apply (stable_profile op (λ x, x = Some text) k)].
      * intros x k _ Hk. cbn. destruct (aa_exit x); [|done]. intros [= Hl]. apply bool_decide_eq_true in Hl. destruct Hk as [Hk|Hk]; [|done]. apply eq_None_not_Some in Hk. by destruct Hk.
    + intros r. apply rg_ret. intros k _ H Hr%bool_decide_eq_true. by apply H.
  - intros ok4. apply rg_case; intros H4; [by apply rg_ret|]. apply negb_false_iff in H4 as ->. apply rg_ret. intros k _ H. split; [done|]. split; [done|].
    exists plan. split; [done|]. by apply H.
Qed.

#[local] Instance workloadAppArmorLaws : workloadMACLaws aa_kernel.
Proof.
  refine (Build_workloadMACLaws _ _ aa_inv aa_holds aa_own aa_ready _ _ _ _ _ _ _ _ _ _ _ _ _ _ _).
  - by left.
  - intros op k k' Hi Ho. by apply Ho.
  - intros op op' k k' Hne Hi Ho. destruct (Ho Hi) as (_ & E & _). unfold aa_holds. rewrite E; [done|]. by intros ?%profile_name_inj.
  - intros p prepared handle op k k' Hne Hi Ho (H1 & H2 & plan & H3 & H4). split; [done|]. split; [done|]. exists plan. split; [done|].
    destruct (Ho Hi) as (_ & E & _). rewrite E; [done|]. by intros ?%profile_name_inj.
  - apply acts_aa_prepare.
  - intros op ?. apply acts_bind; [apply acts_unload|]. intros []; [apply acts_aa_call; intros; apply own_remove_profile|apply acts_ret].
  - intros rec. unfold wb_validate. cbn. unfold aa_validateOwnedState. apply acts_case; [apply acts_ret|]. apply acts_bind; [|intros; apply acts_ret].
    apply acts_atom. intros k. by destruct (aa_io k) as [|x l].
  - apply acts_aa_cleanup.
  - intros op k Hi. split; [|split; [done|intros op' Hne; by apply lookup_delete_ne]]. intros op' content H. cbn in H. apply lookup_delete_Some in H as [_ H]. by apply Hi.
  - intros op k. apply aa_own_refl.
  - done.
  - done.
  - apply rg_aa_prepare.
  - intros p prepared handle. eapply rg_weaken; [apply rg_cleanupPrepared|done|done].
  - apply rg_cleanupOwned.
Defined.

(** ** Health *)

(** The calls answer, and each profile in force has its source. *)
Definition aa_healthy k : Prop :=
  aa_io k = [] ∧ aa_inv k ∧ (∀ op, aa_files k !! op ≠ Some aa_other) ∧
  ∀ op, aa_holds k op → ∃ content, aa_files k !! op = Some (aa_regular content) ∧ declares content = Some (workloadAppArmorProfileName op).

Lemma run_aa_call {A} (f : aa_answer → aa_kernel → A * aa_kernel) k : aa_io k = [] → run (aa_call f) k = f (mkAnswer true true) k.
Proof. intros E. unfold aa_call. rewrite run_atom. by rewrite E. Qed.
Lemma run_isProfileLoaded name k : aa_io k = [] → run (isProfileLoaded name) k = (Some (bool_decide (is_Some (aa_loaded k !! name))), k).
Proof. intros E. unfold isProfileLoaded, aa_look. by rewrite run_aa_call. Qed.

Lemma healthy_drop op k : aa_healthy k → ¬ aa_holds k op → aa_healthy (aa_with_files (delete op (aa_files k)) k).
Proof.
  intros (H1 & H2 & H3 & H4) Hn. split_and!; [done|..].
  - intros op' c Hc. cbn in Hc. apply lookup_delete_Some in Hc as [_ Hc]. by apply H2.
  - intros op' Hc. cbn in Hc. apply lookup_delete_Some in Hc as [_ Hc]. by apply (H3 op').
  - intros op' Hh. destruct (decide (op' = op)) as [->|Hne]; [done|]. cbn. rewrite lookup_delete_ne by done. by apply H4.
Qed.

Lemma run_unload op k :
  aa_healthy k → ∃ k', run (unloadProfile op (workloadAppArmorProfileName op)) k = (true, k') ∧ aa_healthy k' ∧ ¬ aa_holds k' op.
Proof.
  intros Hh. pose proof Hh as (H1 & H2 & H3 & H4). unfold unloadProfile. rewrite run_bind, run_isProfileLoaded by done. case_bool_decide as Hl; [|exists k; split; [done|split; [done|exact Hl]]].
  destruct (H4 op Hl) as (c & Hc & Hd). rewrite run_bind, run_aa_call by done. unfold parser_io. rewrite Hc, Hd. cbn [aa_exit aa_effect negb].
  set (k1 := aa_with_loaded _ k). assert (Hn : ¬ aa_holds k1 op) by (unfold aa_holds, k1; cbn; rewrite lookup_delete_eq; by intros [? ?]).
  rewrite run_bind, run_isProfileLoaded by done. rewrite (bool_decide_false (is_Some _)) by exact Hn. exists k1. split; [cbn; by rewrite bool_decide_true by done|]. split; [|exact Hn].
  split_and!; [done..|]. intros op' Hh'. apply H4. unfold aa_holds, k1 in *. cbn in Hh'. destruct Hh' as [x Hx]. apply lookup_delete_Some in Hx as [_ Hx]. by exists x.
Qed.

Lemma run_validateOwned rec k :
  aa_healthy k → wr_Backend rec = LSMAppArmor → ∃ k', run (aa_validateOwnedState rec) k = (true, k') ∧ aa_healthy k'.
Proof.
  intros Hh Hb. pose proof Hh as (H1 & H2 & H3 & H4). unfold aa_validateOwnedState. rewrite (bool_decide_false (wr_Backend rec ≠ LSMAppArmor)) by auto.
  rewrite run_bind. unfold aa_look. rewrite run_aa_call by done. cbn [aa_exit]. exists k. split; [|done].
  destruct (aa_files k !! wr_OperationID rec) as [[c|]|] eqn:E; [done| |done]. by destruct (H3 _ E).
Qed.

Lemma run_cleanupOwned rec k :
  aa_healthy k → ∃ k', run (aa_cleanupOwnedState rec) k = (true, k') ∧ aa_healthy k' ∧ ¬ aa_holds k' (wr_OperationID rec).
Proof.
  intros Hh. pose proof Hh as (H1 & H2 & H3 & H4). unfold aa_cleanupOwnedState. set (op := wr_OperationID rec).
  assert (Hdrop : ∀ k1, aa_healthy k1 → ¬ aa_holds k1 op →
    ∃ k', run (aa_call (remove_profile_io op)) k1 = (true, k') ∧ aa_healthy k' ∧ ¬ aa_holds k' op).
  { intros k1 Hh1 Hn1. rewrite run_aa_call by apply Hh1. eexists. split; [done|]. split; [by apply healthy_drop|done]. }
  rewrite run_bind, run_isProfileLoaded by done. rewrite run_bind. case_bool_decide as Hl; [|by apply Hdrop].
  destruct (H4 op Hl) as (c & Hc & _). rewrite run_bind. unfold aa_look. rewrite run_aa_call by done. rewrite Hc. cbn [aa_exit].
  destruct (run_unload op k Hh) as (k1 & -> & Hh1 & Hn1). by apply Hdrop.
Qed.

#[local] Instance workloadAppArmorHealth : workloadMACHealth aa_kernel.
Proof.
  refine (Build_workloadMACHealth _ _ _ aa_healthy _ _ _ _).
  - apply run_validateOwned.
  - apply run_cleanupOwned.
  - intros op k. apply healthy_drop.
  - done.
Defined.

(** A preparation of the AppArmor backend, beside any steps of other
    operations and whatever fails: it succeeds only with its record in place,
    with the profile the security options select in force, and that profile
    denies writes exactly where the innermost mount of the accepted plan is
    read-only or the fixed baseline of every profile applies; it fails only without kernel state; otherwise it is retained with
    its record. *)
Theorem apparmor_prepare_outcome (aare_matches : string → string → bool) (R : aare_reading aare_matches) now p :
  canonical_ids p → Forall (λ e, canonical (Target e) = true ∧ Target e ≠ "/") (wp_Exposures p) → NoDup (Target <$> wp_Exposures p) →
  rg host_inv (host_env (wp_OperationID p)) (λ s, ¬ holds s (wp_OperationID p)) (Prepare now p)
    (λ a s, match a with
     | wprepare_ok prepared _ =>
         let name := workloadAppArmorProfileName (wp_OperationID p) in
         recorded s (wp_OperationID p) ∧ pm_SecurityOpts prepared = ["label=disable"; "apparmor=" +:+ name] ∧
         ∃ text, aa_loaded (wh_kernel s) !! name = Some text ∧
           ∀ l dir, Forall proper l → mediated_as lstat (wp_Exposures p) (wp_PinnedSources p) l dir →
             profile_denies aare_matches text (mediated l dir) ↔
             innermost_read_only (wp_Exposures p) (render l) ∨ baseline_denies aare_matches (mediated l dir)
     | wprepare_failed => ¬ holds s (wp_OperationID p)
     | wprepare_retained => recorded s (wp_OperationID p)
     end).
Proof.
  intros Hp Ht Hnd. eapply rg_weaken; [apply (Prepare_rg now p Hp)|done|]. intros [prepared handle| |] s; [|done..].
  intros [Hr (Hopts & _ & plan & Hplan & Hl)]. split; [done|]. split; [done|]. eexists. split; [exact Hl|]. intros l dir Hprop Hmed.
  apply (profile_denies_plan aare_matches R lstat (wp_Exposures p) (wp_PinnedSources p) plan); try done.
  apply canonical_one_line. by destruct Hp.
Qed.
End backend.

(** ** The profile a text declares *)

Definition declared_line (line : string) : option string :=
  rest ← CutPrefix line ("profile " +:+ String quote ""); fst <$> Cut rest (String quote "").
(** The profile apparmor_parser declares for a generated text. *)
Definition declared_profile (text : string) : option string := head (omap declared_line (split_byte LF text)).

Lemma declared_skip w s : one_line w → declared_line w = None → declared_profile (w +:+ String LF s) = declared_profile s.
Proof. intros Hw E. unfold declared_profile. rewrite split_byte_app by done. cbn [omap list_omap]. by rewrite E. Qed.
Lemma declared_here w s name : one_line w → declared_line w = Some name → declared_profile (w +:+ String LF s) = Some name.
Proof. intros Hw E. unfold declared_profile. rewrite split_byte_app by done. cbn [omap list_omap]. by rewrite E. Qed.

Lemma emit_prefix rules e : ∃ rest, em_sb (foldl appArmorEmit e rules) = em_sb e +:+ rest.
Proof.
  revert e. induction rules as [|r rules IH]; intros e; [exists ""; by rewrite str_app_nil_r|]. cbn [foldl]. destruct (IH (appArmorEmit e r)) as [rest ->].
  unfold appArmorEmit. case_bool_decide; [by eexists|]. eexists. cbn [em_sb]. by rewrite str_app_assoc.
Qed.

Lemma render_prefix name plan abi : ∃ rest, renderWorkloadAppArmorProfile name plan abi = lines (profile_lines name abi) +:+ rest.
Proof.
  unfold renderWorkloadAppArmorProfile.
  assert (H : ∀ l e, ∃ rest, em_sb (foldl (λ e target, appArmorEmitHoleWalk e (deny_rule <$> target_patterns plan target)) e l) = em_sb e +:+ rest).
  { induction l as [|t l IH]; intros e; [exists ""; by rewrite str_app_nil_r|]. cbn [foldl].
    destruct (IH (appArmorEmitHoleWalk e (deny_rule <$> target_patterns plan t))) as [rest ->]. destruct (emit_prefix (deny_rule <$> target_patterns plan t) e) as [r1 E].
    unfold appArmorEmitHoleWalk. rewrite E. eexists. by rewrite str_app_assoc. }
  destruct (H (plan_RO plan) (mkEmitter (lines (profile_lines name abi)) [])) as [rest ->]. eexists. by rewrite str_app_assoc.
Qed.

Lemma declared_lines l1 line l2 rest name :
  Forall (λ w, one_line w ∧ declared_line w = None) l1 → one_line line → declared_line line = Some name →
  declared_profile (lines (l1 ++ line :: l2) +:+ rest) = Some name.
Proof.
  intros H1 Hl Hd. induction H1 as [|w l1 [Hw Hn] H1 IH]; unfold lines; cbn; rewrite !str_app_assoc; cbn; [by apply declared_here|]. by rewrite declared_skip.
Qed.

Lemma declared_render op plan abi :
  isCanonicalOperationID op = true →
  declared_profile (renderWorkloadAppArmorProfile (workloadAppArmorProfileName op) plan abi) = Some (workloadAppArmorProfileName op).
Proof.
  intros Hop. destruct (render_prefix (workloadAppArmorProfileName op) plan abi) as [rest ->]. set (name := workloadAppArmorProfileName op).
  assert (Hq : str_count quote name = 0%nat) by (unfold name, workloadAppArmorProfileName; rewrite str_count_app; by rewrite (canonical_count quote op)).
  assert (Hn : one_line name) by (apply (one_line_app appArmorWorkloadProfilePrefix); [done|by apply canonical_one_line]).
  set (line := "profile " +:+ quoted name +:+ " flags=(attach_disconnected,mediate_deleted) {").
  assert (Hline : declared_line line = Some name).
  { unfold declared_line, line. rewrite (proj2 (CutPrefix_spec _ _ (name +:+ String quote " flags=(attach_disconnected,mediate_deleted) {"))).
    - cbn [mbind option_bind]. by rewrite Cut_byte.
    - unfold quoted. cbn [String.app]. do 9 f_equal. by rewrite str_app_assoc. }
  assert (Hol : one_line line).
  { apply (one_line_app "profile "); [done|]. apply one_line_app; [|done]. apply (one_line_app (String quote "")); [done|]. by apply one_line_app. }
  assert (∃ l1 l2, profile_lines name abi = l1 ++ line :: l2 ∧ Forall (λ w, one_line w ∧ declared_line w = None) l1) as (l1 & l2 & -> & Hl1).
  { destruct abi; [eexists [_; _; _; _; _], _|eexists [_; _; _; _], _]; (split; [reflexivity|]); by repeat constructor. }
  by apply declared_lines.
Qed.

(** ** A run beside a crash *)

(** The first [n] actions of a procedure run alone. *)
Fixpoint advance {S A} (n : nat) (m : proc S A) (s : S) : proc S A * S :=
  match n, m with
  | S n, PAtom f k => advance n (k s) (f s)
  | _, _ => (m, s)
  end.
Lemma advance_pool {S A} n (m : proc S A) s : rtc pool_step ([m], s) ([(advance n m s).1], (advance n m s).2).
Proof.
  revert m s. induction n as [|n IH]; intros m s; [done|]. destruct m as [a|f k]; [done|]. eapply rtc_l; [by apply (pool_act 0)|]. apply IH.
Qed.

Module AppArmorExample.
Definition lstat := WorkloadAppArmorSpec.Example.lstat.
#[export] Instance aa_backend : workloadMACBackend aa_kernel := workloadAppArmorBackend lstat true declared_profile.
#[export] Instance aa_laws : workloadMACLaws aa_kernel := workloadAppArmorLaws lstat true declared_profile declared_render.
#[export] Instance aa_health : workloadMACHealth aa_kernel := workloadAppArmorHealth lstat true declared_profile declared_render.
Definition op : string := "op_0123456789abcdef0123456789abcdef".
Definition sid : string := "dhs_0123456789abcdef0123456789abcdef".
Definition p : workloadPreparation := mkPreparation op sid WorkloadAppArmorSpec.Example.es WorkloadAppArmorSpec.Example.pins.
(** A host with a foreign entry in the state root; the parser exits with an error although it loads. *)
Definition foreign : gmap string state_entry := {["lost+found" := entry_foreign]}.
Definition start (root : gmap string state_entry) (answers : list aa_answer) : whost aa_kernel := mkWhost root ∅ ∅ ∅ [] (mkAA ∅ ∅ answers).
Definition parser_fails : list aa_answer := [mkAnswer true true; mkAnswer true true; mkAnswer false true].
Definition prov : string → string → containerProvenance := λ _ _, mkProvenance (Ok []) (λ _, removed) [].

Lemma inv0 root answers : host_inv (start root answers).
Proof. split; [by intros op' c|]. intros op' [x Hx]. done. Qed.
Lemma canonical_p : canonical_ids p.
Proof. by vm_compute. Qed.
End AppArmorExample.

Section witnesses.
Import AppArmorExample.

Lemma apparmor_prepare_outcome_witness :
  let s := (run (Prepare "now" p) (start foreign [])).2 in
  recorded s op ∧ ∃ text, aa_loaded (wh_kernel s) !! workloadAppArmorProfileName op = Some text ∧ profile_denies variable_matches text "/work/a/out/".
Proof.
  pose proof (apparmor_prepare_outcome lstat true declared_profile declared_render variable_matches variable_reading "now" p canonical_p
    WorkloadAppArmorSpec.Example.targets_ok WorkloadAppArmorSpec.Example.targets_nodup (start foreign []) (inv0 _ _)) as H.
  specialize (H ltac:(intros [x Hx]; done)). apply wp_run in H as [_ H]; [|apply inv0].
  assert (Ea : match (run (Prepare "now" p) (start foreign [])).1 with wprepare_ok _ _ => true | _ => false end = true) by (vm_compute; reflexivity).
  destruct ((run (Prepare "now" p) (start foreign [])).1) as [prepared h| |]; [|discriminate Ea..].
  cbv zeta. destruct H as (Hr & _ & text & Hl & Hex). split; [exact Hr|]. exists text. split; [exact Hl|].
  apply (Hex ["work"; "a"; "out"] true);
    [apply WorkloadAppArmorSpec.Example.proper_check; vm_compute; reflexivity|apply WorkloadAppArmorSpec.Example.mediated_check; vm_compute; reflexivity|left; exact WorkloadAppArmorSpec.Example.out_read_only].
Defined.

(** The parser's failure leaves the profile in force: a crash before the
    coordinator's cleanup finds its record. *)
Definition crashed (root : gmap string state_entry) : whost aa_kernel := (advance 9 (workload_run "now" p) (start root parser_fails)).2.

Lemma crash_inv root : host_inv (crashed root).
Proof.
  apply (run_pool_inv "now" [p] (start root parser_fails) [(advance 9 (workload_run "now" p) (start root parser_fails)).1]);
    [apply inv0|apply (bool_decide_unpack _); vm_compute; exact I|constructor; [apply canonical_p|constructor]| |apply advance_pool].
  constructor; [|constructor]. split; [intros [x Hx]; done|reflexivity].
Qed.

Lemma crash_leaves_records_witness :
  holds (crashed foreign) op ∧ ∃ rec, identifies op (wh_state (crashed foreign) !! op) rec ∧ wr_Backend rec = wb_backend (K := aa_kernel).
Proof.
  assert (Hh : holds (crashed foreign) op) by (eexists; vm_compute; reflexivity). split; [exact Hh|].
  apply (crash_leaves_records "now" [p] (start foreign parser_fails) [(advance 9 (workload_run "now" p) (start foreign parser_fails)).1] (crashed foreign));
    [apply inv0|apply (bool_decide_unpack _); vm_compute; exact I|constructor; [apply canonical_p|constructor]| |apply advance_pool|exact Hh].
  constructor; [|constructor]. split; [intros [x Hx]; done|reflexivity].
Defined.

Lemma startup_reclaims_proven_witness :
  let s' := (run (ReconcileStartup prov) (crashed foreign)).2 in
  ¬ holds s' op ∧ same (crashed foreign) s' "lost+found".
Proof.
  destruct (startup_reclaims_proven prov (crashed foreign) (crash_inv foreign)) as [H _]. split.
  - destruct (H op) as [_ Hr]. apply Hr. intros E.
    assert (E' : bool_decide (is_Some (wh_state (run (ReconcileStartup prov) (crashed foreign)).2 !! op)) = false) by (vm_compute; reflexivity).
    apply bool_decide_eq_false in E'. apply E'. rewrite E. apply (bool_decide_unpack _). vm_compute. exact I.
  - destruct (H "lost+found") as [Hs _]. apply Hs. intros (rec & (_ & (own & E & _) & _) & _).
    assert (Ef : wh_state (crashed foreign) !! "lost+found" = Some entry_foreign) by (vm_compute; reflexivity). rewrite Ef in E. discriminate E.
Defined.

Lemma pending_covers_kernel_state_witness :
  let pending := (run PendingWorkloadSessions (crashed ∅)).1 in sid ∈ pending.
Proof.
  assert (Hh : holds (crashed ∅) op) by (eexists; vm_compute; reflexivity).
  destruct (pending_covers_kernel_state (crashed ∅) op (crash_inv ∅) Hh) as [Hu|(rec & (_ & (own & E & Hr) & _) & _ & Hin)].
  - exfalso. revert Hu. apply (bool_decide_unpack _). vm_compute. exact I.
  - assert (Ef : wh_state (crashed ∅) !! op = Some (entry_dir (own_record (mkRecord 1 op sid LSMAppArmor "now")))) by (vm_compute; reflexivity).
    rewrite Ef in E. injection E as <-.
    assert (Er : readWorkloadMACRecord (own_record (mkRecord 1 op sid LSMAppArmor "now")) = Some (mkRecord 1 op sid LSMAppArmor "now")) by (vm_compute; reflexivity).
    rewrite Er in Hr. injection Hr as <-. exact Hin.
Defined.

Lemma healthy_startup_clears_witness :
  let s' := (run (ReconcileStartup prov) (crashed foreign)).2 in holds (crashed foreign) op ∧ wh_state s' !! op = None ∧ ∀ op, ¬ holds s' op.
Proof.
  cbv zeta. assert (Hent : ∀ o, o ≠ op → o ≠ "lost+found" → wh_state (crashed foreign) !! o = None).
  { intros o H1 H2. assert (E : wh_state (crashed foreign) = <[op := entry_dir (own_record (mkRecord 1 op sid LSMAppArmor "now"))]> foreign) by (vm_compute; reflexivity).
    rewrite E, lookup_insert_ne by done. unfold foreign. by rewrite lookup_singleton_ne. }
  assert (Hload : aa_loaded (wh_kernel (crashed foreign)) = {[workloadAppArmorProfileName op := renderWorkloadAppArmorProfile (workloadAppArmorProfileName op) WorkloadAppArmorSpec.Example.plan true]}) by (vm_compute; reflexivity).
  assert (Hfile : aa_files (wh_kernel (crashed foreign)) = {[op := aa_regular (renderWorkloadAppArmorProfile (workloadAppArmorProfileName op) WorkloadAppArmorSpec.Example.plan true)]}) by (vm_compute; reflexivity).
  destruct (healthy_startup_clears prov (crashed foreign) (crash_inv foreign)) as [H1 H2].
  - vm_compute. reflexivity.
  - split; [vm_compute; reflexivity|]. split; [apply crash_inv|]. split.
    + intros o E. rewrite Hfile in E. apply lookup_singleton_Some in E as [_ E]. discriminate E.
    + intros o [x Hx]. rewrite Hload in Hx. apply lookup_singleton_Some in Hx as [Eo _]. apply profile_name_inj in Eo as <-. eexists. split; [by rewrite Hfile, lookup_singleton_eq|].
      by apply declared_render.
  - intros o _. split; [by intros rec _|]. unfold pins_clean. assert (E : wh_pins (crashed foreign) = ∅) by (vm_compute; reflexivity). by rewrite E, lookup_empty.
  - split; [eexists; vm_compute; reflexivity|]. split; [|exact H2]. apply H1. exists (mkRecord 1 op sid LSMAppArmor "now"). split; [|reflexivity].
    split; [vm_compute; reflexivity|]. split; [|reflexivity]. eexists. split; vm_compute; reflexivity.
Defined.
End witnesses.
