(* ===== verification/ApparmorBoundary.v ===== *)
(** * ApparmorBoundary: the managed boundaries of the AppArmor profile (src/apparmor.go)

    The validators of boundary paths, and the fragment the manager writes into the
    system profile: its text, and the reader that accepts nothing but it. *)
From S2P Require Import Prelude Filepath GoStrings WorkspacePolicy Json.
Local Open Scope Z_scope.

Definition fragmentHeader1 : string := "# Generated by docker-helper. Do not edit.".
Definition fragmentHeader2 : string := "# Managed AppArmor workspace boundaries for docker-helper-system profile.".
Definition legacyFragmentHeader2 : string := "# Managed AppArmor workspace roots for docker-helper-system profile.".
Definition line_feed : ascii := "010"%char.
Definition line_end : string := String line_feed "".

(** ** Kinds *)

Inductive appArmorBoundaryKind := appArmorBoundaryDirectory | appArmorBoundaryRegularFile.
#[export] Instance appArmorBoundaryKind_eq_dec : EqDecision appArmorBoundaryKind.
Proof. solve_decision. Defined.
Definition kind_number (k : appArmorBoundaryKind) : Z := match k with appArmorBoundaryDirectory => 0 | appArmorBoundaryRegularFile => 1 end.

Record appArmorManagedBoundary := mkBoundary { ab_Path : string; ab_Kind : appArmorBoundaryKind }.
#[export] Instance appArmorManagedBoundary_eq_dec : EqDecision appArmorManagedBoundary.
Proof. solve_decision. Defined.

Definition appArmorBoundaryFileMarker : string := "regular-file".

(** ** Paths *)

(** The runes AppArmor reads as patterns: [*?[]{}]. *)
Definition aare_rune (r : Z) : bool := existsb (Z.eqb r) [42; 63; 91; 93; 123; 125].

Definition validateBoundaryLexical (path : string) : result unit :=
  if negb (ValidString path) then errorf "path is not valid UTF-8" []
  else if negb (IsAbs path) then errorf "path must be absolute" []
  else if bool_decide (path = "/") then errorf "cannot use root directory as workspace root" []
  else if bool_decide (Clean path ≠ path) then errorf "path is not in clean form" []
  else if bool_decide (is_Some (CutSuffix path "/")) then errorf "path must not end with /" []
  else if existsb aare_rune (runes path) then errorf "path contains invalid character" []
  else validateHostPathText path.

Definition validateBoundaryPathForAdd (h : host) (path : string) : result (string * appArmorBoundaryKind) :=
  if negb (IsAbs path) then errorf "path must be absolute" []
  else
    canonical ← canonicalizeIssuedTreePathForAdd h path;
    _ ← validateBoundaryLexical canonical;
    match osStatFn h canonical with
    | inr _ => errorf "cannot stat issued tree" []
    | inl is_dir => Ok (canonical, appArmorBoundaryDirectory)
    | inl is_regular => Ok (canonical, appArmorBoundaryRegularFile)
    | inl is_other => errorf "issued tree is neither a directory nor a regular file" []
    end.

Definition validateBoundaryPathForRemove (h : host) (path : string) : result string :=
  if negb (IsAbs path) then errorf "path must be absolute" []
  else
    match osStatFn h path with
    | inl is_dir =>
        match evalSymlinksFn h path with
        | inr _ => errorf "cannot resolve path" []
        | inl canonical => _ ← validateBoundaryLexical canonical; Ok canonical
        end
    | inl _ | inr not_exist => _ ← validateBoundaryLexical (Clean path); Ok (Clean path)
    | inr _ => errorf "cannot stat path" []
    end.

(** ** The fragment *)

(** [strings.ReplaceAll] of one byte. *)
Fixpoint replace_byte (c : ascii) (by_ : string) (s : string) : string :=
  match s with
  | "" => ""
  | String x s => (if bool_decide (x = c) then by_ else str1 x) +:+ replace_byte c by_ s
  end.

Definition jsonQuote (s : string) : string := marshal_string s.
Definition escapeAppArmorPath (path : string) : string :=
  replace_byte "034" (backslash quote_mark) (replace_byte (to_byte 92) (backslash (backslash "")) path).

(** By path, then by kind. *)
Definition boundary_before (a b : appArmorManagedBoundary) : Prop :=
  str_ltb (ab_Path a) (ab_Path b) = true ∨ ab_Path a = ab_Path b ∧ kind_number (ab_Kind a) <= kind_number (ab_Kind b).
#[export] Instance boundary_before_dec : RelDecision boundary_before.
Proof. intros a b. unfold boundary_before. apply _. Defined.

(** The first of the boundaries with one path stays. *)
Fixpoint dedupe_paths (last : option string) (l : list appArmorManagedBoundary) : list appArmorManagedBoundary :=
  match l with
  | [] => []
  | b :: l => if bool_decide (last = Some (ab_Path b)) then dedupe_paths last l else b :: dedupe_paths (Some (ab_Path b)) l
  end.

Definition sortManagedBoundaries (boundaries : list appArmorManagedBoundary) : list appArmorManagedBoundary :=
  dedupe_paths None (merge_sort boundary_before boundaries).

Definition metadata_prefix : string := "# root-json: ".
Definition file_meta (path : string) : string := marshal (JObject [("path", JString path); ("kind", JString appArmorBoundaryFileMarker)]).
Definition rule (path : string) : string := quote_mark +:+ path +:+ quote_mark +:+ " r,".

Definition boundary_lines (b : appArmorManagedBoundary) : list string :=
  let escaped := escapeAppArmorPath (ab_Path b) in
  match ab_Kind b with
  | appArmorBoundaryRegularFile => [""; metadata_prefix +:+ file_meta (ab_Path b); rule escaped]
  | appArmorBoundaryDirectory =>
      [""; metadata_prefix +:+ jsonQuote (ab_Path b); rule (escaped +:+ "/"); rule (escaped +:+ "/**")]
  end.

Definition text_of (lines : list string) : string := str_concat ((λ l, l +:+ line_end) <$> lines).

Definition renderFragment_with (header2 : string) (boundaries : list appArmorManagedBoundary) : string :=
  text_of (fragmentHeader1 :: header2 :: mbind boundary_lines (sortManagedBoundaries boundaries)).
Definition renderFragment (boundaries : list appArmorManagedBoundary) : string := renderFragment_with fragmentHeader2 boundaries.

Definition parseRootJSONBoundary (metadata : string) : result appArmorManagedBoundary :=
  match json_decode metadata with
  | None => errorf "not a boundary metadata value" []
  | Some v =>
      match unmarshal_string v with
      | Some legacy => Ok (mkBoundary legacy appArmorBoundaryDirectory)
      | None =>
          match v with
          | JObject l =>
              match struct_member "path" l "", struct_member "kind" l "" with
              | Some path, Some kind =>
                  if bool_decide (kind ≠ appArmorBoundaryFileMarker) then errorf "unknown boundary kind" []
                  else Ok (mkBoundary path appArmorBoundaryRegularFile)
              | _, _ => errorf "not a boundary metadata value" []
              end
          | _ => errorf "not a boundary metadata value" []
          end
      end
  end.

(** The lines after the headers. *)
Fixpoint parse_boundary_lines (lines : list string) : result (list appArmorManagedBoundary) :=
  match lines with
  | [] => Ok []
  | line :: lines =>
      match CutPrefix line metadata_prefix with
      | None => parse_boundary_lines lines
      | Some metadata =>
          boundary ← match parseRootJSONBoundary metadata with
                     | Ok b => Ok b
                     | Err e => errorf "malformed root-json metadata" (err_wraps e)
                     end;
          _ ← match validateBoundaryLexical (ab_Path boundary) with
              | Ok _ => Ok ()
              | Err e => errorf "invalid root" (err_wraps e)
              end;
          boundaries ← parse_boundary_lines lines;
          Ok (boundary :: boundaries)
      end
  end.

(** [bytes.Replace] of the second header, in a text that starts with both. *)
Definition legacy_form (boundaries : list appArmorManagedBoundary) : string := renderFragment_with legacyFragmentHeader2 boundaries.

Definition parseFragment (data : string) : result (list appArmorManagedBoundary) :=
  if negb (bool_decide (is_Some (CutSuffix data line_end))) then errorf "fragment missing trailing newline" []
  else
    match split_byte line_feed data with
    | header1 :: header2 :: lines =>
        if bool_decide (header1 ≠ fragmentHeader1) then errorf "fragment header mismatch" []
        else if bool_decide (header2 ≠ fragmentHeader2 ∧ header2 ≠ legacyFragmentHeader2) then errorf "fragment header mismatch" []
        else
          boundaries ← parse_boundary_lines lines;
          let deduped := sortManagedBoundaries boundaries in
          if bool_decide (data ≠ renderFragment deduped ∧ data ≠ legacy_form deduped)
          then errorf "fragment content does not match expected format (manually modified?)" []
          else Ok deduped
    | _ => errorf "fragment too short" []
    end.
