(* ===== verification/ApparmorManager.v ===== *)
(** * ApparmorManager: the profile manager and its MAC driver (src/apparmor.go, src/mac_lifecycle.go)

    The managed fragment on disk, the profile the kernel has loaded, and the calls
    the manager makes, each of which may fail; the additions and removals with their
    rollback; the driver of the coordinator over them. *)
From S2P Require Import Prelude Filepath GoStrings AllowedRoots Database SnapshotStore MacLifecycle WorkspacePolicy Json ApparmorBoundary.
Local Open Scope Z_scope.

(** ** The fragment and the loaded profile *)

(** What [os.Lstat] and [os.ReadFile] find at the path of the fragment, with its
    permission bits. *)
Inductive fragment_node := fragment_absent | fragment_file (data : string) (mode : Z) | fragment_symlink | fragment_other.
#[export] Instance fragment_node_eq_dec : EqDecision fragment_node.
Proof. solve_decision. Defined.

(** The boundaries the profile includes. *)
Definition included (n : fragment_node) : string := match n with fragment_file data _ => data | _ => "" end.

(** A call: whether it succeeds, and whether a failed apparmor_parser (killed at
    its budget) replaced the profile all the same. *)
Record parser_answer := mkAnswer { an_ok : bool; an_took : bool }.
Record aa_world := mkAA { aw_fragment : fragment_node; aw_loaded : string; aw_answers : list parser_answer }.

Definition AM (A : Type) : Type := aa_world → result A * aa_world.
#[export] Instance am_ret : MRet AM := λ A a w, (Ok a, w).
#[export] Instance am_bind : MBind AM := λ A B k m w,
  match m w with (Ok a, w) => k a w | (Err e, w) => (Err e, w) end.
Definition am_fail {A} (text : string) : AM A := λ w, (errorf text [], w).
Definition am_lift {A} (r : result A) : AM A := λ w, (r, w).
Definition am_get {A} (f : aa_world → result A) : AM A := λ w, (f w, w).
Definition am_do (f : aa_world → aa_world) : AM unit := λ w, (Ok (), f w).
Definition am_wrapf {A} (text : string) (m : AM A) : AM A := λ w,
  match m w with (Err e, w) => (Err (wrap_error text [] e), w) | r => r end.

Definition next (w : aa_world) : parser_answer * aa_world :=
  (default (mkAnswer true false) (head (aw_answers w)), mkAA (aw_fragment w) (aw_loaded w) (tail (aw_answers w))).
Definition set_fragment (n : fragment_node) (w : aa_world) : aa_world := mkAA n (aw_loaded w) (aw_answers w).
Definition set_loaded (s : string) (w : aa_world) : aa_world := mkAA (aw_fragment w) s (aw_answers w).

(** A call that changes nothing the manager reads. *)
Definition ask (text : string) : AM unit := λ w,
  let '(x, w) := next w in if an_ok x then (Ok (), w) else (errorf text [], w).

Section manager.
(** The file system at the boundary paths; [os.Stat] of the parser and of the main
    profile: regular file, permission bits. *)
Context (h : host) (parserStat profileStat : (bool * Z) + probe_error).

Definition acquireAppArmorLock : AM unit :=
  _ ← ask "cannot create lock directory"; _ ← ask "cannot open lock file"; ask "cannot acquire lock".

Definition checkPrerequisites : AM unit :=
  match parserStat with
  | inr not_exist => am_fail "apparmor_parser not found"
  | inr _ => am_fail "cannot stat apparmor_parser"
  | inl (regular, perm) =>
      if negb regular then am_fail "apparmor_parser is not a regular file"
      else if Z.land perm 73 =? 0 then am_fail "apparmor_parser is not executable"
      else match profileStat with
           | inr not_exist => am_fail "main profile not found"
           | inr _ => am_fail "cannot stat main profile"
           | inl (regular, _) => if negb regular then am_fail "main profile is not a regular file" else mret ()
           end
  end.

(** The bytes of the fragment, [None] when there is none. *)
Definition read_fragment_file : AM (option (string * Z)) :=
  _ ← ask "cannot lstat managed fragment";
  node ← am_get (λ w, Ok (aw_fragment w));
  match node with
  | fragment_absent => mret None
  | fragment_symlink => am_fail "managed fragment path is a symlink"
  | fragment_other => am_fail "managed fragment is not a regular file"
  | fragment_file data mode => _ ← ask "cannot read managed fragment"; mret (Some (data, mode))
  end.

Definition readFragment : AM (list appArmorManagedBoundary) :=
  file ← read_fragment_file;
  match file with None => mret [] | Some (data, _) => am_lift (parseFragment data) end.

Definition listManagedBoundaries : AM (list appArmorManagedBoundary) := readFragment.

Record fragmentSnapshot := mkFragmentSnapshot { sn_exists : bool; sn_data : string; sn_mode : Z; sn_boundaries : list appArmorManagedBoundary }.

Definition snapshotFragment : AM fragmentSnapshot :=
  file ← read_fragment_file;
  match file with
  | None => mret (mkFragmentSnapshot false "" 0 [])
  | Some (data, mode) =>
      boundaries ← am_wrapf "fragment parse error" (am_lift (parseFragment data));
      mret (mkFragmentSnapshot true data mode boundaries)
  end.

(** The temporary file and its rename; a failed step leaves the fragment. *)
Definition replace_fragment (data : string) (mode : Z) : AM unit :=
  _ ← ask "cannot create temp file"; _ ← ask "cannot write temp file"; _ ← ask "cannot set temp file mode";
  _ ← ask "cannot close temp file"; _ ← ask "cannot rename temp file";
  am_do (set_fragment (fragment_file data mode)).

Definition writeFragment (boundaries : list appArmorManagedBoundary) : AM unit :=
  _ ← ask "cannot create fragment directory"; replace_fragment (renderFragment boundaries) 420.

(** apparmor_parser --replace: it loads the main profile with what it includes. *)
Definition reloadProfile : AM unit := λ w,
  let '(x, w) := next w in
  let w' := set_loaded (included (aw_fragment w)) w in
  if an_ok x then (Ok (), w') else (errorf "apparmor_parser" [], if an_took x then w' else w).

(** apparmor_parser --skip-kernel-load. *)
Definition validateProfile : AM unit := ask "apparmor_parser".

Definition restoreFragmentFile (snap : fragmentSnapshot) : AM unit :=
  if negb (sn_exists snap) then
    node ← am_get (λ w, Ok (aw_fragment w));
    if bool_decide (node = fragment_absent) then mret ()
    else _ ← ask "cannot remove fragment during rollback"; am_do (set_fragment fragment_absent)
  else replace_fragment (sn_data snap) (sn_mode snap).

Definition rollbackFragment (snap : fragmentSnapshot) : AM unit := _ ← restoreFragmentFile snap; reloadProfile.

Definition rollback_failed : string := "reload failed; rollback also failed".

(** The reload after a written fragment, with its rollback. *)
Definition reload_or_rollback (snap : fragmentSnapshot) : AM unit := λ w,
  match reloadProfile w with
  | (Ok _, w) => (Ok (), w)
  | (Err e, w) =>
      match rollbackFragment snap w with
      | (Err rb, w) => (Err (mkError rollback_failed (err_wraps e ++ err_wraps rb)), w)
      | (Ok _, w) => (Err (wrap_error "reload failed" [] e), w)
      end
  end.

Record boundaryResult := mkResult { br_Path : string; br_Changed : bool; br_Kind : appArmorBoundaryKind }.

(** The boundary of a path in a list. *)
Definition find_boundary (path : string) (l : list appArmorManagedBoundary) : option appArmorManagedBoundary :=
  head (filter (λ b, ab_Path b = path) l).

Definition addManagedBoundary (path : string) : AM boundaryResult :=
  validated ← am_lift (validateBoundaryPathForAdd h path);
  let '(canonical, kind) := validated in
  _ ← acquireAppArmorLock;
  _ ← checkPrerequisites;
  snap ← snapshotFragment;
  match find_boundary canonical (sn_boundaries snap) with
  | Some r =>
      if bool_decide (ab_Kind r ≠ kind) then am_fail "managed boundary already exists with another kind"
      else mret (mkResult canonical false (ab_Kind r))
  | None =>
      _ ← writeFragment (sn_boundaries snap ++ [mkBoundary canonical kind]);
      _ ← reload_or_rollback snap;
      mret (mkResult canonical true kind)
  end.

Definition removeManagedBoundary (path : string) : AM boundaryResult :=
  canonical ← am_lift (validateBoundaryPathForRemove h path);
  _ ← acquireAppArmorLock;
  _ ← checkPrerequisites;
  snap ← snapshotFragment;
  match find_boundary canonical (sn_boundaries snap) with
  | None => mret (mkResult canonical false appArmorBoundaryDirectory)
  | Some _ =>
      _ ← writeFragment (filter (λ b, ab_Path b ≠ canonical) (sn_boundaries snap));
      _ ← reload_or_rollback snap;
      mret (mkResult canonical true appArmorBoundaryDirectory)
  end.

Fixpoint check_policy (l : list appArmorManagedBoundary) : result unit :=
  match l with
  | [] => Ok ()
  | b :: l =>
      match validateWorkspacePathPolicy (EffectiveUID h) (ab_Path b) with
      | Ok _ => check_policy l
      | Err e => errorf "managed boundary violates workspace root policy" []
      end
  end.

Definition check : AM unit :=
  _ ← checkPrerequisites;
  boundaries ← am_wrapf "managed fragment is malformed" readFragment;
  _ ← am_lift (check_policy boundaries);
  am_wrapf "profile validation failed" validateProfile.

(** ** The driver *)

(** [os.Lstat] of a tree. *)
Context (lstat : string → lstat_result).

Definition appArmorBoundaryCoversTree (boundary : appArmorManagedBoundary) (tree : string) (treeKind : macBoundaryKind) : bool :=
  match treeKind with
  | macBoundaryRegularFile =>
      match ab_Kind boundary with
      | appArmorBoundaryRegularFile => bool_decide (ab_Path boundary = tree)
      | appArmorBoundaryDirectory => pathStrictlyWithin (ab_Path boundary) tree
      end
  | macBoundaryDirectory =>
      match ab_Kind boundary with
      | appArmorBoundaryDirectory => pathWithin (ab_Path boundary) tree
      | appArmorBoundaryRegularFile => false
      end
  | _ => false
  end.

Definition macBoundaryKindForAppArmor (kind : appArmorBoundaryKind) : macBoundaryKind :=
  match kind with appArmorBoundaryRegularFile => macBoundaryRegularFile | appArmorBoundaryDirectory => macBoundaryDirectory end.

Definition classifyTree (tree : string) : result macBoundaryKind := macBoundaryKindFor lstat tree.

Definition provableKind (tree : string) : result macBoundaryKind :=
  match classifyTree tree with
  | Err e => Err (wrap_error "cannot classify issued tree" [] e)
  | Ok kind =>
      if bool_decide (kind ≠ macBoundaryDirectory ∧ kind ≠ macBoundaryRegularFile)
      then errorf "a missing or unsupported tree cannot be covered" [] else Ok kind
  end.

(** The first boundary that covers the tree, as a coverage. *)
Definition covering_boundary (tree : string) (treeKind : macBoundaryKind) (l : list appArmorManagedBoundary) : option sessionMACCoverage :=
  (λ b, mkCoverage (ab_Path b) true (macBoundaryKindForAppArmor (ab_Kind b))) <$>
    head (filter (λ b, appArmorBoundaryCoversTree b tree treeKind = true) l).

Definition aa_ensureCoverage (tree : string) : AM (sessionMACCoverage * bool) :=
  treeKind ← am_lift (provableKind tree);
  boundaries ← am_wrapf "cannot list AppArmor managed boundaries" listManagedBoundaries;
  match covering_boundary tree treeKind boundaries with
  | Some coverage => mret (coverage, false)
  | None =>
      result ← addManagedBoundary tree;
      mret (mkCoverage (br_Path result) true (macBoundaryKindForAppArmor (br_Kind result)), br_Changed result)
  end.

Definition aa_verifyCoverage (tree : string) : AM sessionMACCoverage :=
  treeKind ← am_lift (provableKind tree);
  boundaries ← listManagedBoundaries;
  match covering_boundary tree treeKind boundaries with
  | Some coverage => mret coverage
  | None => am_fail "tree not covered by any managed AppArmor boundary"
  end.

Definition aa_removeBoundary (boundary : string) (_ : macBoundaryKind) : AM unit :=
  _ ← removeManagedBoundary boundary; mret ().

Definition aa_discoverHelperOwnedBoundaries (w : aa_world) : result (list (string * macBoundaryKind)) :=
  match (listManagedBoundaries w).1 with
  | Ok boundaries => Ok ((λ b, (ab_Path b, macBoundaryKindForAppArmor (ab_Kind b))) <$> boundaries)
  | Err e => Err e
  end.

Definition aa_proveOwnedKind (boundary : string) : AM (option macBoundaryKind) :=
  boundaries ← am_wrapf "cannot list AppArmor managed boundaries" listManagedBoundaries;
  mret ((λ b, macBoundaryKindForAppArmor (ab_Kind b)) <$> find_boundary boundary boundaries).

Definition appArmorMACDriver : sessionMACDriver aa_world := {|
  ensureCoverage := aa_ensureCoverage;
  verifyCoverage := aa_verifyCoverage;
  removeBoundary := aa_removeBoundary;
  discoverHelperOwnedBoundaries := aa_discoverHelperOwnedBoundaries;
  proveOwnedKind := aa_proveOwnedKind;
  backend := "apparmor" |}.
End manager.
