(* ===== verification/ApparmorSpec.v ===== *)
(** * ApparmorSpec: the fragment is read back, and what the manager guarantees

    The order and the deduplication of boundaries, the lines of the fragment, the
    round trip and its converse; then the additions and removals of the manager. *)
From S2P Require Import Prelude Filepath AllowedRoots AllowedRootsTheory GoStrings Database SnapshotStore SnapshotSpec MacLifecycle MacTheory WorkspacePolicy Json ApparmorBoundary ApparmorManager.
Local Open Scope Z_scope.

(** ** Order *)

#[export] Instance boundary_before_trans : Transitive boundary_before.
Proof.
  intros [p k] [q l] [r m]; unfold boundary_before; cbn. intros [H|[-> H]] [H'|[-> H']]; [left; by eapply str_ltb_trans|by left..|right; split; [done|lia]].
Qed.
#[export] Instance boundary_before_total : Total boundary_before.
Proof.
  intros [p k] [q l]. unfold boundary_before; cbn. destruct (str_ltb p q) eqn:E1; [by left; left|]. destruct (str_ltb q p) eqn:E2; [by right; left|].
  pose proof (str_ltb_total p q E1 E2) as ->. destruct (Z.le_ge_cases (kind_number k) (kind_number l)); [left|right]; by right.
Qed.
#[export] Instance boundary_before_anti : AntiSymm (=) boundary_before.
Proof.
  intros [p k] [q l]. unfold boundary_before; cbn. intros [H|[-> H]] [H'|[E H']].
  - by rewrite (str_ltb_asym _ _ H) in H'.
  - subst. by rewrite str_ltb_irrefl in H.
  - by rewrite str_ltb_irrefl in H'.
  - f_equal. destruct k, l; cbn in *; (done || lia).
Qed.

Definition path_before (a b : appArmorManagedBoundary) : Prop := str_ltb (ab_Path a) (ab_Path b) = true.

Lemma dedupe_sub last l : dedupe_paths last l `sublist_of` l.
Proof.
  revert last. induction l as [|b l IH]; intros last; cbn; [constructor|]. case_bool_decide; [by apply sublist_cons|by apply sublist_skip].
Qed.

Lemma dedupe_sorted last l : StronglySorted boundary_before l → (∀ p, last = Some p → ∀ b, b ∈ l → p = ab_Path b ∨ str_ltb p (ab_Path b) = true) →
  StronglySorted path_before (dedupe_paths last l) ∧ ∀ p, last = Some p → Forall (λ b, str_ltb p (ab_Path b) = true) (dedupe_paths last l).
Proof.
  revert last. induction l as [|b l IH]; intros last Hs Hlast; cbn; [split; [constructor|by intros]|].
  apply StronglySorted_inv in Hs as [Hs Hb]. rewrite Forall_forall in Hb. case_bool_decide as E.
  - apply IH; [done|]. intros p Hp c Hc. apply (Hlast p Hp). by right.
  - destruct (IH (Some (ab_Path b)) Hs) as [IH1 IH2].
    { intros p [= <-] c Hc. destruct (Hb c Hc) as [?|[? _]]; auto. }
    specialize (IH2 _ eq_refl). split; [by constructor|]. intros p Hp. assert (Hpb : str_ltb p (ab_Path b) = true).
    { destruct (Hlast p Hp b); [by left| |done]. congruence. }
    constructor; [done|]. eapply Forall_impl; [exact IH2|]. intros c Hc. by eapply str_ltb_trans.
Qed.

Lemma dedupe_paths_all last l b : b ∈ l → last = Some (ab_Path b) ∨ ab_Path b ∈ ab_Path <$> dedupe_paths last l.
Proof.
  revert last. induction l as [|c l IH]; intros last; [by intros ?%not_elem_of_nil|]. cbn. intros [->|Hb]%elem_of_cons.
  - case_bool_decide; [by left|]. right. rewrite fmap_cons. by left.
  - case_bool_decide as E; [by apply IH|]. right. rewrite fmap_cons. destruct (IH (Some (ab_Path c)) Hb) as [[= ->]|H]; [by left|by right].
Qed.

Lemma dedupe_self last l : StronglySorted path_before l → (∀ p, last = Some p → Forall (λ b, str_ltb p (ab_Path b) = true) l) → dedupe_paths last l = l.
Proof.
  revert last. induction l as [|b l IH]; intros last Hs Hl; [done|]. apply StronglySorted_inv in Hs as [Hs Hb]. cbn. case_bool_decide as E.
  - subst. specialize (Hl _ eq_refl). apply Forall_cons in Hl as [Hl _]. by rewrite str_ltb_irrefl in Hl.
  - f_equal. apply IH; [done|]. by intros p [= <-].
Qed.

Lemma sort_boundaries_sorted l : StronglySorted path_before (sortManagedBoundaries l).
Proof. apply dedupe_sorted; [|done]. apply StronglySorted_merge_sort; apply _. Qed.

Lemma sorted_boundaries_sort l : StronglySorted path_before l → sortManagedBoundaries l = l.
Proof.
  intros Hs. unfold sortManagedBoundaries. assert (Hb : StronglySorted boundary_before l) by (induction Hs; constructor; [done|]; eapply Forall_impl; [done|]; by left).
  rewrite (StronglySorted_unique boundary_before (merge_sort boundary_before l) l); [by apply dedupe_self|apply StronglySorted_merge_sort; apply _|done|apply merge_sort_Permutation].
Qed.

Lemma sort_boundaries_idem l : sortManagedBoundaries (sortManagedBoundaries l) = sortManagedBoundaries l.
Proof. apply sorted_boundaries_sort, sort_boundaries_sorted. Qed.

Lemma sort_boundaries_in b l : b ∈ sortManagedBoundaries l → b ∈ l.
Proof. intros H. eapply (elem_of_sublist _ _ _) in H; [|apply dedupe_sub]. by rewrite merge_sort_Permutation in H. Qed.

Lemma sort_boundaries_path b l : b ∈ l → ab_Path b ∈ ab_Path <$> sortManagedBoundaries l.
Proof. intros H. destruct (dedupe_paths_all None (merge_sort boundary_before l) b) as [|?]; [by rewrite merge_sort_Permutation|done..]. Qed.

Lemma sorted_nodup_paths l : StronglySorted path_before l → NoDup (ab_Path <$> l).
Proof.
  induction 1 as [|b l _ IH Hb]; [constructor|]. rewrite fmap_cons. constructor; [|done]. intros (c & E & Hc)%list_elem_of_fmap.
  rewrite Forall_forall in Hb. specialize (Hb c Hc). unfold path_before in Hb. rewrite E in Hb. by rewrite str_ltb_irrefl in Hb.
Qed.

(** With one boundary per path, no boundary is lost. *)
Lemma sort_boundaries_keeps b l : NoDup (ab_Path <$> l) → b ∈ l → b ∈ sortManagedBoundaries l.
Proof.
  intros Hn Hb. pose proof (sort_boundaries_path b l Hb) as (c & E & Hc)%list_elem_of_fmap. pose proof (sort_boundaries_in c l Hc) as Hc'.
  assert (b = c) as ->; [|done]. apply list_elem_of_lookup in Hb as [i Hi], Hc' as [j Hj].
  assert (i = j) as ->; [|congruence]. eapply (NoDup_lookup (ab_Path <$> l) i j (ab_Path b)); [done|by rewrite list_lookup_fmap, Hi|]. by rewrite list_lookup_fmap, Hj, E.
Qed.

(** ** Lines *)

Definition one_line (s : string) : Prop := str_count line_feed s = 0%nat.
Definition lexical (p : string) : Prop := validateBoundaryLexical p = Ok ().

Lemma lexical_inv p : lexical p → ValidString p = true ∧ IsAbs p = true ∧ p ≠ "/" ∧ Clean p = p ∧ plain_text p.
Proof.
  unfold lexical, validateBoundaryLexical. destruct (ValidString p); [|done]. destruct (IsAbs p); [|done]. cbn [negb].
  case_bool_decide; [done|]. case_bool_decide as Hc; [done|]. case_bool_decide; [done|]. destruct (existsb _ _); [done|].
  intros Ht%text_ok. destruct (decide (Clean p = p)) as [E|]; [|done]. done.
Qed.

Lemma concat_one_line l : (∀ w, w ∈ l → one_line w) → one_line (str_concat l).
Proof.
  unfold one_line. induction l as [|w l IH]; intros H; [done|]. cbn. rewrite str_count_app, H, IH; [done|intros v Hv; apply H; by right|by left].
Qed.

Lemma high_one_line w : high w = true → one_line w.
Proof.
  unfold one_line, high. induction w as [|c w IH]; [done|]. cbn. intros [Hc Hw]%andb_true_iff. destruct (ascii_dec line_feed c) as [<-|]; [done|]. auto.
Qed.

Lemma plain_one_line p : plain_text p → one_line p.
Proof.
  intros Hp. rewrite <-(range_concat p). apply concat_one_line. intros w (q & -> & Hq)%list_elem_of_fmap.
  destruct (range_bytes p q Hq) as [(a & -> & Ha)|[Hh _]]; [|by apply high_one_line]. unfold one_line. cbn. destruct (ascii_dec line_feed a) as [<-|]; [|done].
  assert (Hr : 10 ∈ runes p) by (unfold runes; apply list_elem_of_fmap; by exists (byte_of line_feed, str1 line_feed)). by apply Hp in Hr.
Qed.

Lemma quote_one_line p : one_line (marshal_string p).
Proof.
  unfold marshal_string, one_line. rewrite !str_count_app. cut (one_line (str_concat (quote_rune <$> range p))); [unfold one_line; intros ->; done|].
  apply concat_one_line. intros w ([r bytes] & -> & Hq)%list_elem_of_fmap. destruct (range_bytes p _ Hq) as [(a & [= -> ->] & Ha)|[Hh Hge]].
  - assert (H : forallb (λ n, bool_decide (str_count line_feed (quote_rune (byte_of (ascii_of_nat n), str1 (ascii_of_nat n))) = 0%nat)) (seq 0 128) = true) by (vm_compute; reflexivity).
    rewrite forallb_forall in H. specialize (H (nat_of_ascii a)). rewrite ascii_nat_embedding in H. assert (Hin : In (nat_of_ascii a) (seq 0 128)) by (apply in_seq; unfold byte_of in Ha; unfold nat_of_ascii; lia).
    by apply H, bool_decide_eq_true in Hin.
  - cbn [fst snd] in *. unfold quote_rune.
    repeat match goal with |- context [r =? ?k] => lazymatch k with 8232 => fail | 8233 => fail | _ => rewrite (proj2 (Z.eqb_neq r k)) by lia end end.
    rewrite (proj2 (Z.ltb_ge r 32)) by lia. cbn [orb]. destruct (bad_rune (r, bytes)); [done|].
    destruct ((r =? 8232) || (r =? 8233)) eqn:E; [|by apply high_one_line]. by apply orb_true_iff in E as [->%Z.eqb_eq| ->%Z.eqb_eq].
Qed.

Lemma replace_one_line c w s : one_line w → one_line s → one_line (replace_byte c w s).
Proof.
  unfold one_line. intros Hw. induction s as [|x s IH]; [done|]. cbn. destruct (ascii_dec line_feed x) as [|Hx]; [done|]. intros Hs.
  rewrite str_count_app, IH by done. case_bool_decide; [by rewrite Hw|]. cbn. by destruct (ascii_dec line_feed x).
Qed.

Lemma boundary_lines_one b : lexical (ab_Path b) → Forall one_line (boundary_lines b).
Proof.
  intros (_ & _ & _ & _ & Hp)%lexical_inv. apply plain_one_line in Hp.
  assert (He : one_line (escapeAppArmorPath (ab_Path b))) by (unfold escapeAppArmorPath; by repeat apply replace_one_line).
  assert (Hr : ∀ w, one_line w → one_line (rule w)) by (unfold one_line, rule; intros w Hw; by rewrite !str_count_app, Hw).
  assert (Ha : ∀ x y, one_line x → one_line y → one_line (x +:+ y)) by (unfold one_line; intros x y Hx Hy; by rewrite str_count_app, Hx, Hy).
  unfold boundary_lines. destruct (ab_Kind b); repeat (apply Forall_cons; split); try done; try (by apply Hr, Ha); try (by apply Hr); apply Ha; try done.
  - apply quote_one_line.
  - unfold file_meta. cbn [marshal fmap list_fmap join_with fst snd]. repeat first [apply quote_one_line|done|apply Ha].
Qed.

Lemma split_lines lines : Forall one_line lines → split_byte line_feed (text_of lines) = lines ++ [""].
Proof.
  unfold text_of. induction 1 as [|w l Hw _ IH]; [done|]. rewrite fmap_cons. cbn [str_concat]. rewrite str_app_assoc. cbn [line_end String.append].
  rewrite split_byte_app by done. by rewrite IH.
Qed.

(** ** The metadata *)

Lemma parse_metadata b : ValidString (ab_Path b) = true →
  parseRootJSONBoundary (match ab_Kind b with appArmorBoundaryDirectory => jsonQuote (ab_Path b) | appArmorBoundaryRegularFile => file_meta (ab_Path b) end) = Ok b.
Proof.
  destruct b as [p []]; cbn [ab_Path ab_Kind]; intros Hv; unfold parseRootJSONBoundary.
  - unfold jsonQuote. change (marshal_string p) with (marshal (JString p)). by rewrite decode_marshal.
  - unfold file_meta. rewrite decode_marshal; [|cbn [plain_json forallb fst snd]; by rewrite Hv|by vm_compute].
    cbn [unmarshal_string struct_member]. change (folds_to "path" "path") with true. change (folds_to "kind" "path") with false.
    change (folds_to "path" "kind") with false. change (folds_to "kind" "kind") with true. cbn iota. by rewrite bool_decide_eq_false_2 by auto.
Qed.

Lemma parse_rendered l k : Forall (λ b, lexical (ab_Path b)) l → parse_boundary_lines k = Ok [] → parse_boundary_lines (mbind boundary_lines l ++ k) = Ok l.
Proof.
  intros Hl Hk. induction Hl as [|b l Hb _ IH]; [done|]. cbn [mbind list_bind]. change (mbind (M:=list) boundary_lines l) with (list_bind _ _ boundary_lines l) in IH.
  pose proof (lexical_inv _ Hb) as (Hv & _). pose proof (parse_metadata b Hv) as Hm. rewrite <-app_assoc.
  assert (Hrule : ∀ w rest, parse_boundary_lines (rule w :: rest) = parse_boundary_lines rest).
  { intros w rest. cbn [parse_boundary_lines]. destruct (CutPrefix (rule w) metadata_prefix) as [x|] eqn:E; [|done]. by apply CutPrefix_spec in E. }
  assert (Hmeta : ∀ m rest, parseRootJSONBoundary m = Ok b → parse_boundary_lines rest = Ok l → parse_boundary_lines ((metadata_prefix +:+ m) :: rest) = Ok (b :: l)).
  { intros m rest Hd Hr. cbn [parse_boundary_lines]. rewrite (proj2 (CutPrefix_spec _ _ m) eq_refl), Hd. cbn. unfold lexical in Hb. by rewrite Hb, Hr. }
  unfold boundary_lines at 1. destruct (ab_Kind b); cbn [app]; (etrans; [|apply Hmeta; [exact Hm|]]); [reflexivity| |reflexivity|]; by rewrite ?Hrule.
Qed.

(** ** The fragment *)

Lemma text_of_ends lines : lines ≠ [] → is_Some (CutSuffix (text_of lines) line_end).
Proof.
  intros Hne. destruct (exists_last Hne) as (l & w & ->). exists (text_of l +:+ w). apply CutSuffix_spec. unfold text_of.
  rewrite fmap_app, fmap_cons, fmap_nil. clear Hne. induction l as [|x l IH]; cbn [app fmap list_fmap str_concat]; [by rewrite str_app_nil_r|].
  change (list_fmap string string ?f l) with (f <$> l). by rewrite IH, !str_app_assoc.
Qed.

Lemma parse_fragment_rendered header2 l : header2 = fragmentHeader2 ∨ header2 = legacyFragmentHeader2 → Forall (λ b, lexical (ab_Path b)) l →
  parseFragment (renderFragment_with header2 l) = Ok (sortManagedBoundaries l).
Proof.
  intros Hh Hl. set (k := sortManagedBoundaries l). assert (Hk : Forall (λ b, lexical (ab_Path b)) k).
  { rewrite Forall_forall in *. intros b Hb. by apply Hl, sort_boundaries_in. }
  assert (Hsplit : split_byte line_feed (renderFragment_with header2 l) = (fragmentHeader1 :: header2 :: mbind boundary_lines k) ++ [""]).
  { apply split_lines. constructor; [done|]. constructor; [by destruct Hh as [->| ->]|]. apply Forall_bind. eapply Forall_impl; [exact Hk|]. intros b. apply boundary_lines_one. }
  unfold parseFragment. rewrite bool_decide_eq_true_2 by by apply text_of_ends. cbn [negb]. rewrite Hsplit.
  cbn [app]. rewrite bool_decide_eq_false_2 by auto. rewrite (bool_decide_eq_false_2 (header2 ≠ _ ∧ _)) by naive_solver.
  rewrite parse_rendered by done. cbn [mbind result_bind]. unfold renderFragment, legacy_form, renderFragment_with. fold k.
  assert (Ek : sortManagedBoundaries k = k) by apply sort_boundaries_idem. rewrite !Ek.
  rewrite bool_decide_eq_false_2; [done|]. destruct Hh as [->| ->]; tauto.
Qed.

Lemma parse_lines_lexical lines l : parse_boundary_lines lines = Ok l → Forall (λ b, lexical (ab_Path b)) l.
Proof.
  revert l. induction lines as [|line lines IH]; intros l; cbn [parse_boundary_lines]; [by intros [= <-]|]. destruct (CutPrefix line metadata_prefix) as [m|]; [|apply IH].
  destruct (parseRootJSONBoundary m) as [b|]; [|done]. cbn. destruct (validateBoundaryLexical (ab_Path b)) as [[]|] eqn:E; [|done]. cbn.
  destruct (parse_boundary_lines lines) as [bs|]; [|done]. intros [= <-]. constructor; [done|by apply IH].
Qed.

(** What is read: boundaries in order, one per path, each lexically valid, of which
    the text is the rendering. *)
Definition canonical_boundaries (l : list appArmorManagedBoundary) : Prop := sortManagedBoundaries l = l ∧ Forall (λ b, lexical (ab_Path b)) l.

Lemma parse_fragment_inv data l : parseFragment data = Ok l → canonical_boundaries l ∧ (data = renderFragment l ∨ data = legacy_form l).
Proof.
  unfold parseFragment. case_bool_decide; [|done]. cbn [negb]. destruct (split_byte line_feed data) as [|h1 [|h2 lines]]; [done..|].
  case_bool_decide; [done|]. case_bool_decide; [done|]. destruct (parse_boundary_lines lines) as [bs|] eqn:E; [|done]. cbn [mbind result_bind].
  case_bool_decide as Hd; [done|]. intros [= <-]. split; [split; [apply sort_boundaries_idem|]|].
  - apply parse_lines_lexical in E. rewrite Forall_forall in *. intros b Hb. by apply E, sort_boundaries_in.
  - destruct (decide (data = renderFragment (sortManagedBoundaries bs))); [by left|]. right.
    destruct (decide (data = legacy_form (sortManagedBoundaries bs))); [done|]. tauto.
Qed.

(** ** Additions and removals of managed boundaries, whatever fails

    What each operation leaves in the fragment and in the loaded profile, the
    contract of the coordinator, and the removal that follows a symbolic link. *)

(** ** Triples *)

(** From [P], [m] ends well in [R] or fails in [E]. *)
Definition spec {A} (P : aa_world → Prop) (m : AM A) (R : A → aa_world → Prop) (E : error → aa_world → Prop) : Prop :=
  ∀ w, P w → match m w with (Ok a, w') => R a w' | (Err e, w') => E e w' end.

Lemma spec_bind {A B} P (m : AM A) (k : A → AM B) R Q E : spec P m R E → (∀ a, spec (R a) (k a) Q E) → spec P (m ≫= k) Q E.
Proof. intros Hm Hk w Hw. specialize (Hm w Hw). unfold mbind, am_bind. destruct (m w) as [[a|e] w']; [by apply Hk|done]. Qed.

Lemma spec_weaken {A} (P P' : aa_world → Prop) (m : AM A) (R R' : A → aa_world → Prop) (E E' : error → aa_world → Prop) :
  spec P' m R' E' → (∀ w, P w → P' w) → (∀ a w, R' a w → R a w) → (∀ e w, E' e w → E e w) → spec P m R E.
Proof. intros H HP HR HE w Hw. specialize (H w (HP w Hw)). destruct (m w) as [[a|e] w']; auto. Qed.

Lemma spec_ret {A} P (a : A) (R : A → aa_world → Prop) E : (∀ w, P w → R a w) → spec P (mret a) R E.
Proof. intros H w Hw. by apply H. Qed.
Lemma spec_fail {A} P text (R : A → aa_world → Prop) (E : error → aa_world → Prop) : (∀ w, P w → E (mkError text []) w) → spec P (am_fail text) R E.
Proof. intros H w Hw. by apply H. Qed.
Lemma spec_lift {A} P (r : result A) R E : (∀ w, P w → match r with Ok a => R a w | Err e => E e w end) → spec P (am_lift r) R E.
Proof. intros H w Hw. specialize (H w Hw). unfold am_lift. by destruct r. Qed.
Lemma spec_wrapf {A} P text (m : AM A) R E : spec P m R (λ e, E (wrap_error text [] e)) → spec P (am_wrapf text m) R E.
Proof. intros H w Hw. specialize (H w Hw). unfold am_wrapf. destruct (m w) as [[a|e] w']; done. Qed.
Lemma spec_pure {A} P (φ : Prop) (m : AM A) R E : (φ → spec P m R E) → spec (λ w, P w ∧ φ) m R E.
Proof. intros H w [Hw Hφ]. by apply H. Qed.

(** The fragment and the loaded profile of a state. *)
Definition at_ (n : fragment_node) (s : string) (w : aa_world) : Prop := aw_fragment w = n ∧ aw_loaded w = s.

Lemma spec_ask n s text (E : error → aa_world → Prop) : (∀ e w, at_ n s w → E e w) → spec (at_ n s) (ask text) (λ _, at_ n s) E.
Proof. intros HE w H. unfold ask, next. destruct (an_ok _); [exact H|]. apply HE, H. Qed.

(** A call, then the rest. *)
Lemma spec_step {B} n s text (k : unit → AM B) R E :
  (∀ e w, at_ n s w → E e w) → spec (at_ n s) (k ()) R E → spec (at_ n s) (ask text ≫= k) R E.
Proof. intros HE Hk. eapply spec_bind; [by apply spec_ask|]. by intros []. Qed.

(** ** Reading *)

(** The boundaries a fragment stands for. *)
Definition managed (n : fragment_node) : option (list appArmorManagedBoundary) :=
  match n with
  | fragment_absent => Some []
  | fragment_file data _ => match parseFragment data with Ok l => Some l | Err _ => None end
  | _ => None
  end.

Lemma managed_canonical n l : managed n = Some l → canonical_boundaries l.
Proof.
  destruct n as [|data mode| |]; cbn; [intros [= <-]; by split| |done..]. destruct (parseFragment data) as [l'|] eqn:E; [|done]. intros [= <-]. by apply parse_fragment_inv in E as [? _].
Qed.

Lemma managed_render l mode : Forall (λ b, lexical (ab_Path b)) l → managed (fragment_file (renderFragment l) mode) = Some (sortManagedBoundaries l).
Proof. intros Hl. unfold managed, renderFragment. by rewrite parse_fragment_rendered by auto. Qed.

Definition read_shape (n : fragment_node) (f : option (string * Z)) : Prop :=
  match f with None => n = fragment_absent | Some (d, m) => n = fragment_file d m end.

Lemma spec_node {B} n s (k : fragment_node → AM B) R E : spec (at_ n s) (k n) R E → spec (at_ n s) (am_get (λ w, Ok (aw_fragment w)) ≫= k) R E.
Proof. intros H. apply (spec_bind _ _ _ (λ node w, at_ n s w ∧ node = n)); [by intros w [<- <-]|]. intros node. apply spec_pure. by intros ->. Qed.

Lemma spec_read_file n s : spec (at_ n s) read_fragment_file (λ f w, at_ n s w ∧ read_shape n f) (λ _, at_ n s).
Proof.
  apply spec_step; [done|]. apply spec_node. destruct n as [|d m| |]; [by apply spec_ret| |by apply spec_fail..].
  apply spec_step; [done|]. by apply spec_ret.
Qed.

Lemma spec_list n s : spec (at_ n s) listManagedBoundaries (λ l w, at_ n s w ∧ managed n = Some l) (λ _, at_ n s).
Proof.
  eapply spec_bind; [apply spec_read_file|]. intros [[d m]|]; apply spec_pure; intros H; hnf in H; subst n; [|by apply spec_ret].
  apply spec_lift. intros w Hw. cbn. by destruct (parseFragment d).
Qed.

(** A snapshot is the fragment. *)
Definition node_of (snap : fragmentSnapshot) : fragment_node := if sn_exists snap then fragment_file (sn_data snap) (sn_mode snap) else fragment_absent.

Lemma spec_snapshot n s : spec (at_ n s) snapshotFragment (λ snap w, at_ n s w ∧ node_of snap = n ∧ managed n = Some (sn_boundaries snap)) (λ _, at_ n s).
Proof.
  eapply spec_bind; [apply spec_read_file|]. intros [[d m]|]; apply spec_pure; intros H; hnf in H; subst n; [|by apply spec_ret].
  apply (spec_bind _ _ _ (λ l w, at_ (fragment_file d m) s w ∧ parseFragment d = Ok l)).
  - apply spec_wrapf, spec_lift. intros w Hw. by destruct (parseFragment d).
  - intros l. apply spec_pure. intros Hl. apply spec_ret. intros w Hw. cbn. by rewrite Hl.
Qed.

(** ** Writing *)

Lemma spec_replace n s data mode : spec (at_ n s) (replace_fragment data mode) (λ _, at_ (fragment_file data mode) s) (λ _, at_ n s).
Proof. unfold replace_fragment. do 5 (apply spec_step; [done|]). by intros w [_ <-]. Qed.

Lemma spec_write n s l : spec (at_ n s) (writeFragment l) (λ _, at_ (fragment_file (renderFragment l) 420) s) (λ _, at_ n s).
Proof. apply spec_step; [done|]. apply spec_replace. Qed.

Lemma spec_restore n s snap : spec (at_ n s) (restoreFragmentFile snap) (λ _, at_ (node_of snap) s) (λ _, at_ n s).
Proof.
  unfold restoreFragmentFile, node_of. destruct (sn_exists snap); cbn [negb]; [apply spec_replace|]. apply spec_node.
  case_bool_decide as E; [subst; by apply spec_ret|]. apply spec_step; [done|]. by intros w [_ <-].
Qed.

Lemma spec_reload n s : spec (at_ n s) reloadProfile (λ _, at_ n (included n)) (λ _ w, at_ n s w ∨ at_ n (included n) w).
Proof. intros w [<- <-]. unfold reloadProfile, next. cbn. destruct (an_ok _); [done|]. destruct (an_took _); [by right|by left]. Qed.

(** What the failed reload of a new fragment leaves: the old fragment, loaded again;
    or, when the rollback failed too, one of the two, and any profile of the three. *)
Definition rolled_back (new old : fragment_node) (s : string) (e : error) (w : aa_world) : Prop :=
  if bool_decide (err_text e = rollback_failed)
  then (aw_fragment w = new ∨ aw_fragment w = old) ∧ (aw_loaded w = s ∨ aw_loaded w = included new ∨ aw_loaded w = included old)
  else at_ old (included old) w.

Lemma spec_reload_or_rollback n s snap :
  spec (at_ n s) (reload_or_rollback snap) (λ _, at_ n (included n)) (rolled_back n (node_of snap) s).
Proof.
  intros w Hw. pose proof (spec_reload n s w Hw) as H. unfold reload_or_rollback. destruct (reloadProfile w) as [[[]|e] w1]; [exact H|]. cbn in H.
  assert (H1 : ∃ s1, at_ n s1 w1 ∧ (s1 = s ∨ s1 = included n)) by (destruct H as [H|H]; eauto). destruct H1 as (s1 & H1 & Hs1).
  unfold rollbackFragment, mbind, am_bind. pose proof (spec_restore n s1 snap w1 H1) as Hr. destruct (restoreFragmentFile snap w1) as [[[]|rb] w2]; cbn in Hr.
  - pose proof (spec_reload (node_of snap) s1 w2 Hr) as H2. destruct (reloadProfile w2) as [[[]|rb] w3]; cbn in *; unfold rolled_back.
    + rewrite bool_decide_eq_false_2 by done. done.
    + rewrite bool_decide_eq_true_2 by done. destruct H2 as [[-> ->]|[-> ->]]; naive_solver.
  - cbn. unfold rolled_back. rewrite bool_decide_eq_true_2 by done. destruct Hr as [-> ->]. naive_solver.
Qed.

(** ** Additions and removals *)

Lemma find_boundary_spec p l : match find_boundary p l with
  | Some b => b ∈ l ∧ ab_Path b = p
  | None => p ∉ ab_Path <$> l end.
Proof.
  unfold find_boundary. destruct (filter _ l) as [|b r] eqn:E; cbn.
  - intros (b & -> & Hb)%list_elem_of_fmap. assert (Hin : b ∈ filter (λ b', ab_Path b' = ab_Path b) l) by by apply list_elem_of_filter. rewrite E in Hin. by apply not_elem_of_nil in Hin.
  - assert (Hin : b ∈ filter (λ b', ab_Path b' = p) l) by (rewrite E; by left). by apply list_elem_of_filter in Hin as [? ?].
Qed.

Lemma spec_prerequisites parserStat profileStat n s : spec (at_ n s) (checkPrerequisites parserStat profileStat) (λ _, at_ n s) (λ _, at_ n s).
Proof.
  unfold checkPrerequisites. destruct parserStat as [[[] perm]|[]]; cbn [negb]; try by apply spec_fail. case_match; [by apply spec_fail|].
  destruct profileStat as [[[] ?]|[]]; cbn [negb]; try (by apply spec_fail); by apply spec_ret.
Qed.

Section outcomes.
Context (h : host) (parserStat profileStat : (bool * Z) + probe_error).

(** The lock, the prerequisites and the snapshot, then the rest. *)
Lemma spec_locked {B} n s (k : fragmentSnapshot → AM B) R E :
  (∀ e w, at_ n s w → E e w) → (∀ snap, node_of snap = n → managed n = Some (sn_boundaries snap) → spec (at_ n s) (k snap) R E) →
  spec (at_ n s) (_ ← acquireAppArmorLock; _ ← checkPrerequisites parserStat profileStat; snap ← snapshotFragment; k snap) R E.
Proof.
  intros HE Hk. apply (spec_bind _ _ _ (λ _, at_ n s)); [do 2 (apply spec_step; [done|]); by apply spec_ask|]. intros _.
  apply (spec_bind _ _ _ (λ _, at_ n s)); [eapply spec_weaken; [apply spec_prerequisites|done|done|auto]|]. intros _.
  eapply spec_bind; [eapply spec_weaken; [apply spec_snapshot|done|intros ? ? H; exact H|auto]|]. intros snap w (Hw & H1 & H2). by apply Hk.
Qed.

(** The contents before a change are read and ordered; what they become. *)
Definition with_boundary (b : appArmorManagedBoundary) (l : list appArmorManagedBoundary) : list appArmorManagedBoundary := sortManagedBoundaries (l ++ [b]).
Definition without_path (p : string) (l : list appArmorManagedBoundary) : list appArmorManagedBoundary := filter (λ b, ab_Path b ≠ p) l.

Definition add_result n s path (res : boundaryResult) (w : aa_world) : Prop :=
  ∃ l, managed n = Some l ∧ validateBoundaryPathForAdd h path = Ok (br_Path res, br_Kind res) ∧
    let b := mkBoundary (br_Path res) (br_Kind res) in
    if br_Changed res
    then br_Path res ∉ ab_Path <$> l ∧ managed (aw_fragment w) = Some (with_boundary b l) ∧ aw_loaded w = included (aw_fragment w)
    else b ∈ l ∧ at_ n s w.

(** A failure leaves the fragment as it was, and loaded if it was; unless the
    rollback failed too: then it may hold what was to be written. *)
Definition failed n s (l' : option (list appArmorManagedBoundary)) (e : error) (w : aa_world) : Prop :=
  if bool_decide (err_text e = rollback_failed) then (∃ x, l' = Some x ∧ managed (aw_fragment w) = Some x) ∨ aw_fragment w = n
  else aw_fragment w = n ∧ (aw_loaded w = s ∨ aw_loaded w = included n).

Lemma at_failed n s l' e w : at_ n s w → failed n s l' e w.
Proof. intros [H1 H2]. unfold failed. case_bool_decide; [by right|]. split; [done|by left]. Qed.

(** The two last steps of a change. *)
Lemma spec_change {B} n s snap l (res : B) R E : node_of snap = n → Forall (λ b, lexical (ab_Path b)) l →
  (∀ e w, failed n s (Some (sortManagedBoundaries l)) e w → E e w) →
  (∀ w, managed (aw_fragment w) = Some (sortManagedBoundaries l) → aw_loaded w = included (aw_fragment w) → R res w) →
  spec (at_ n s) (_ ← writeFragment l; _ ← reload_or_rollback snap; mret res) R E.
Proof.
  intros Hsnap Hl HE HR. set (new := fragment_file (renderFragment l) 420). apply (spec_bind _ _ _ (λ _, at_ new s)).
  { eapply spec_weaken; [apply spec_write|done|done|]. intros e w Hw. by apply HE, at_failed. }
  intros _. apply (spec_bind _ _ _ (λ _, at_ new (included new))).
  - eapply spec_weaken; [apply spec_reload_or_rollback|done|done|]. intros e w H. apply HE. rewrite Hsnap in H. unfold rolled_back in H. unfold failed. case_bool_decide.
    + destruct H as [[->| ->] _]; [left; eexists; split; [done|by apply managed_render]|by right].
    + destruct H as [-> ->]. by split; [|right].
  - intros _. apply spec_ret. intros w [Hn Hld]. apply HR; rewrite Hn; [by apply managed_render|done].
Qed.

Lemma add_lexical path c k : validateBoundaryPathForAdd h path = Ok (c, k) → lexical c.
Proof.
  unfold validateBoundaryPathForAdd. destruct (IsAbs path); [|done]. cbn [negb]. destruct (canonicalizeIssuedTreePathForAdd h path) as [x|]; [|done]. cbn.
  destruct (validateBoundaryLexical x) as [[]|] eqn:E; [|done]. cbn. destruct (osStatFn h x) as [[]|]; [..|done]; by intros [= <- <-].
Qed.

Lemma remove_lexical path c : validateBoundaryPathForRemove h path = Ok c → lexical c.
Proof.
  unfold validateBoundaryPathForRemove. destruct (IsAbs path); [|done]. cbn [negb]. assert (H : ∀ x, (_ ← validateBoundaryLexical x; Ok x : result string) = Ok c → lexical c).
  { intros x. destruct (validateBoundaryLexical x) as [[]|] eqn:E; [|done]. by intros [= <-]. }
  destruct (osStatFn h path) as [[]|[]]; try (apply H); [|done..]. destruct (evalSymlinksFn h path) as [x|]; [apply H|done].
Qed.

Lemma spec_add n s path : spec (at_ n s) (addManagedBoundary h parserStat profileStat path) (add_result n s path)
  (failed n s (match validateBoundaryPathForAdd h path, managed n with Ok (c, k), Some l => Some (with_boundary (mkBoundary c k) l) | _, _ => None end)).
Proof.
  unfold addManagedBoundary. destruct (validateBoundaryPathForAdd h path) as [[c k]|] eqn:Ev; [|intros w Hw; by apply at_failed].
  apply (spec_bind _ _ _ (λ v w, at_ n s w ∧ v = (c, k))); [by intros w Hw|]. intros v. apply spec_pure. intros ->.
  apply spec_locked; [intros; by apply at_failed|]. intros snap Hsnap Hm. rewrite Hm. pose proof (managed_canonical _ _ Hm) as [_ Hl].
  pose proof (find_boundary_spec c (sn_boundaries snap)) as Hf. destruct (find_boundary c (sn_boundaries snap)) as [r|].
  - destruct Hf as [Hin Hp]. case_bool_decide as Hk; [apply spec_fail; intros; by apply at_failed|]. apply spec_ret. intros w Hw. exists (sn_boundaries snap).
    assert (ab_Kind r = k) as <- by (by destruct (decide (ab_Kind r = k))). rewrite <-Hp. split_and!; [done|by rewrite Hp|]. by destruct r.
  - assert (Hlex : Forall (λ b, lexical (ab_Path b)) (sn_boundaries snap ++ [mkBoundary c k])) by (apply Forall_app; split; [done|]; constructor; [by apply (add_lexical path c k)|done]).
    apply spec_change; [done..|]. intros w Hn Hld. by exists (sn_boundaries snap).
Qed.

Definition remove_result n s path (res : boundaryResult) (w : aa_world) : Prop :=
  ∃ l, managed n = Some l ∧ validateBoundaryPathForRemove h path = Ok (br_Path res) ∧
    if br_Changed res
    then br_Path res ∈ ab_Path <$> l ∧ managed (aw_fragment w) = Some (without_path (br_Path res) l) ∧ aw_loaded w = included (aw_fragment w)
    else br_Path res ∉ ab_Path <$> l ∧ at_ n s w.

Lemma without_canonical p l : canonical_boundaries l → canonical_boundaries (without_path p l).
Proof.
  intros [Hs Hl]. split.
  - apply sorted_boundaries_sort. rewrite <-Hs. eapply StronglySorted_sublist; [apply sublist_filter|apply sort_boundaries_sorted].
  - rewrite Forall_forall in *. intros b [_ Hb]%list_elem_of_filter. by apply Hl.
Qed.

Lemma spec_remove n s path : spec (at_ n s) (removeManagedBoundary h parserStat profileStat path) (remove_result n s path)
  (failed n s (match validateBoundaryPathForRemove h path, managed n with Ok c, Some l => Some (without_path c l) | _, _ => None end)).
Proof.
  unfold removeManagedBoundary. destruct (validateBoundaryPathForRemove h path) as [c|] eqn:Ev; [|intros w Hw; by apply at_failed].
  apply (spec_bind _ _ _ (λ v w, at_ n s w ∧ v = c)); [by intros w Hw|]. intros v. apply spec_pure. intros ->.
  apply spec_locked; [intros; by apply at_failed|]. intros snap Hsnap Hm. rewrite Hm. pose proof (without_canonical c _ (managed_canonical _ _ Hm)) as [Hs Hlex].
  pose proof (find_boundary_spec c (sn_boundaries snap)) as Hf. destruct (find_boundary c (sn_boundaries snap)) as [r|].
  - destruct Hf as [Hin Hp]. change (filter _ (sn_boundaries snap)) with (without_path c (sn_boundaries snap)).
    apply spec_change; [done..|by rewrite Hs|]. intros w Hn Hld. exists (sn_boundaries snap). cbn [br_Path br_Changed]. rewrite Hs in Hn.
    split_and!; try done. rewrite <-Hp. by apply list_elem_of_fmap_2.
  - apply spec_ret. intros w Hw. by exists (sn_boundaries snap).
Qed.
End outcomes.
