(* ===== verification/ApparmorDriver.v ===== *)
(** * ApparmorDriver: the AppArmor driver keeps its contract

    The driver of src/mac_lifecycle.go over the profile manager satisfies the laws the
    coordinator relies on, where no boundary path runs through a symbolic link; and
    what a removal does where one does. *)
From S2P Require Import Prelude Filepath GoStrings AllowedRoots AllowedRootsTheory Json Database SnapshotStore MacLifecycle SnapshotSpec MacTheory WorkspacePolicy ApparmorBoundary ApparmorSpec ApparmorManager.
Local Open Scope Z_scope.

(** C35. A fragment is read as a list of boundaries exactly when the list is in order,
    with one lexically valid boundary per path, and the text is its rendering (with
    either spelling of the second header): nothing else is taken for the daemon's
    fragment, and everything it writes is read back. *)
Theorem fragment_exact data l : parseFragment data = Ok l ↔ canonical_boundaries l ∧ (data = renderFragment l ∨ data = legacy_form l).
Proof.
  split; [apply parse_fragment_inv|]. intros [[Hs Hl] [->| ->]]; (etrans; [apply parse_fragment_rendered; [auto|done]|by rewrite Hs]).
Qed.

(** Whatever fails: an addition that succeeds leaves the boundary in the fragment
    beside those that were there, loaded when it changed anything; a removal that
    succeeds leaves all others.  A failure leaves the fragment as it was, unless the
    error says that the rollback failed too. *)
Theorem boundary_change_outcome h parserStat profileStat n s path :
  spec (at_ n s) (addManagedBoundary h parserStat profileStat path) (add_result h n s path)
    (failed n s (match validateBoundaryPathForAdd h path, managed n with Ok (c, k), Some l => Some (with_boundary (mkBoundary c k) l) | _, _ => None end)) ∧
  spec (at_ n s) (removeManagedBoundary h parserStat profileStat path) (remove_result h n s path)
    (failed n s (match validateBoundaryPathForRemove h path, managed n with Ok c, Some l => Some (without_path c l) | _, _ => None end)).
Proof. split; [apply spec_add|apply spec_remove]. Qed.

(** ** The contract *)

(** The boundaries of a fragment, by path. *)
Definition manages (n : fragment_node) (b : string) : Prop := ∃ l, managed n = Some l ∧ b ∈ ab_Path <$> l.

Section contract.
Context (h : host) (parserStat profileStat : (bool * Z) + probe_error) (lstat : string → lstat_result).
(** No symbolic link: resolving a path only cleans it. *)
Hypothesis no_links : ∀ p c, evalSymlinksFn h p = inl c → c = Clean p.

#[local] Instance driver : sessionMACDriver aa_world := appArmorMACDriver h parserStat profileStat lstat.

Lemma covers_clean t : pathWithin (Clean t) t = true ∨ IsAbs t = false.
Proof.
  destruct (IsAbs t) eqn:Ha; [left|by right]. unfold pathWithin. case_bool_decide; [done|]. unfold Rel.
  destruct (canonical_inv _ (Clean_canonical t Ha)) as [E Hp]. assert (Clean (Clean t) = Clean t) as -> by (rewrite E; by apply Clean_render). by rewrite bool_decide_eq_true_2.
Qed.

Lemma add_clean t c k : validateBoundaryPathForAdd h t = Ok (c, k) → pathWithin c t = true.
Proof.
  unfold validateBoundaryPathForAdd. destruct (IsAbs t) eqn:Ha; [|done]. cbn [negb]. unfold canonicalizeIssuedTreePathForAdd.
  case_bool_decide; [done|]. destruct (validateHostPathText t) as [[]|]; [|done]. cbn. rewrite Ha. cbn [negb].
  assert (H1 : ∀ r : result string, r = match evalSymlinksFn h t with inl canonical => _ ← validateWorkspacePathSafety (EffectiveUID h) canonical; Ok canonical | inr _ => errorf "cannot resolve issued tree symlinks" [] end →
    (canonical ← r; _ ← validateBoundaryLexical canonical; match osStatFn h canonical with inr _ => errorf "cannot stat issued tree" [] | inl is_dir => Ok (canonical, appArmorBoundaryDirectory) | inl is_regular => Ok (canonical, appArmorBoundaryRegularFile) | inl is_other => errorf "issued tree is neither a directory nor a regular file" [] end) = Ok (c, k) → pathWithin c t = true).
  { intros r ->. destruct (evalSymlinksFn h t) as [x|] eqn:Ee; [|done]. apply no_links in Ee as ->. destruct (validateWorkspacePathSafety _ _) as [[]|]; [|done]. cbn.
    destruct (validateBoundaryLexical (Clean t)) as [[]|]; [|done]. cbn. destruct (covers_clean t) as [Hc|]; [|congruence].
    destruct (osStatFn h (Clean t)) as [[]|]; [..|done]; by intros [= <- <-]. }
  destruct (osStatFn h t) as [[]|[]]; try (by apply H1); done.
Qed.

Lemma remove_self b c : lexical b → validateBoundaryPathForRemove h b = Ok c → c = b.
Proof.
  intros (_ & Ha & _ & Hc & _)%lexical_inv. unfold validateBoundaryPathForRemove. rewrite Ha. cbn [negb].
  assert (H : ∀ x, x = b → (_ ← validateBoundaryLexical x; Ok x : result string) = Ok c → c = b) by (intros x ->; destruct (validateBoundaryLexical b); [|done]; by intros [= <-]).
  destruct (osStatFn h b) as [[]|[]]; try (by apply H); [|done..]. destruct (evalSymlinksFn h b) as [x|] eqn:E; [|done]. apply H. by rewrite (no_links b x E).
Qed.

Lemma covering_spec_aa t k l c : covering_boundary t k l = Some c → Boundary c ∈ ab_Path <$> l ∧ pathWithin (Boundary c) t = true.
Proof.
  unfold covering_boundary. destruct (filter _ l) as [|b r] eqn:E; [done|]. intros [= <-]. cbn.
  assert (Hb : b ∈ filter (λ b, appArmorBoundaryCoversTree b t k = true) l) by (rewrite E; by left). apply list_elem_of_filter in Hb as [Hc Hb].
  split; [by apply list_elem_of_fmap_2|]. unfold appArmorBoundaryCoversTree in Hc. destruct k, (ab_Kind b); try done.
  - unfold pathStrictlyWithin in Hc. unfold pathWithin. by case_bool_decide.
  - apply bool_decide_eq_true in Hc as <-. apply pathWithin_refl.
Qed.

(** What a preparation leaves, well or not. *)
Definition keeps_all (n : fragment_node) (w : aa_world) : Prop := ∀ b, manages n b → manages (aw_fragment w) b.
Lemma keeps_at n s w : at_ n s w → keeps_all n w.
Proof. intros [<- _] b Hb. exact Hb. Qed.

Lemma keeps_with n b l w : managed n = Some l → managed (aw_fragment w) = Some (with_boundary b l) → keeps_all n w.
Proof.
  intros Hm Hw p (l' & E & Hp). rewrite Hm in E. injection E as <-. exists (with_boundary b l). split; [done|].
  apply list_elem_of_fmap in Hp as (c & -> & Hc). apply sort_boundaries_path. apply elem_of_app. by left.
Qed.

Lemma spec_ensure n s t : spec (at_ n s) (aa_ensureCoverage h parserStat profileStat lstat t)
  (λ r w, manages (aw_fragment w) (Boundary r.1) ∧ pathWithin (Boundary r.1) t = true ∧ (r.2 = true → ¬ manages n (Boundary r.1) ∧ lexical (Boundary r.1)) ∧ keeps_all n w)
  (λ _, keeps_all n).
Proof.
  unfold aa_ensureCoverage. apply (spec_bind _ _ _ (λ _, at_ n s)); [apply spec_lift; intros w Hw; destruct (provableKind _ _); [done|exact (keeps_at n s w Hw)]|]. intros k.
  apply (spec_bind _ _ _ (λ l w, at_ n s w ∧ managed n = Some l)).
  { apply spec_wrapf. eapply spec_weaken; [apply (spec_list n s)|done|done|]. intros e w Hw. exact (keeps_at n s w Hw). }
  intros l. apply spec_pure. intros Hm. destruct (covering_boundary t k l) as [c|] eqn:Ec.
  - apply covering_spec_aa in Ec as [Hc Hw]. apply spec_ret. intros w [<- <-]. cbn [fst snd]. split; [by exists l|]. split; [done|]. split; [done|]. by intros b Hb.
  - apply (spec_bind _ _ _ (add_result h n s t)).
    { eapply spec_weaken; [apply (spec_add h parserStat profileStat n s t)|done|done|]. rewrite Hm. intros e w H. unfold failed in H. destruct (bool_decide _); [|destruct H as [<- _]; by intros b Hb].
      destruct H as [(x & Ex & H)| <-]; [|by intros b Hb]. destruct (validateBoundaryPathForAdd h t) as [[c k']|]; [|done]. injection Ex as <-. by eapply keeps_with. }
    intros res. apply spec_ret. intros w (l' & Hm' & Hv & H). rewrite Hm in Hm'. injection Hm' as <-. cbn [fst snd Boundary]. pose proof (add_clean _ _ _ Hv) as Hcov. pose proof (add_lexical h _ _ _ Hv) as Hlex.
    destruct (br_Changed res).
    + destruct H as (Hnew & Hw & _). split_and!; [|done| |by eapply keeps_with].
      * eexists. split; [exact Hw|]. change (br_Path res) with (ab_Path (mkBoundary (br_Path res) (br_Kind res))). apply sort_boundaries_path, elem_of_app. right. by left.
      * intros _. split; [|done]. intros (l' & E & Hin). rewrite Hm in E. by injection E as <-.
    + destruct H as [Hin [<- <-]]. split_and!; [|done|done|by intros b Hb]. exists l. split; [done|]. by apply (list_elem_of_fmap_2 ab_Path) in Hin.
Qed.

Lemma spec_verify n s t : spec (at_ n s) (aa_verifyCoverage lstat t) (λ c w, manages (aw_fragment w) (Boundary c) ∧ pathWithin (Boundary c) t = true ∧ at_ n s w) (λ _, at_ n s).
Proof.
  unfold aa_verifyCoverage. apply (spec_bind _ _ _ (λ _, at_ n s)); [apply spec_lift; intros w Hw; by destruct (provableKind _ _)|]. intros k.
  eapply spec_bind; [apply spec_list|]. intros l. apply spec_pure. intros Hm. destruct (covering_boundary t k l) as [c|] eqn:Ec; [|by apply spec_fail].
  apply covering_spec_aa in Ec as [Hc Hw]. apply spec_ret. intros w [<- <-]. split; [by exists l|]. done.
Qed.

Lemma spec_remove_frame n s b k b' : lexical b → b' ≠ b → manages n b' →
  spec (at_ n s) (aa_removeBoundary h parserStat profileStat b k) (λ _ w, manages (aw_fragment w) b') (λ _ w, manages (aw_fragment w) b').
Proof.
  intros Hb Hne Hm. unfold aa_removeBoundary.
  assert (Hw : ∀ c l w, validateBoundaryPathForRemove h b = Ok c → managed n = Some l → managed (aw_fragment w) = Some (without_path c l) → manages (aw_fragment w) b').
  { intros c l w Hc El Hw. rewrite (remove_self b c Hb Hc) in Hw. eexists. split; [exact Hw|]. destruct Hm as (l' & El' & Hin). rewrite El in El'. injection El' as <-.
    apply list_elem_of_fmap in Hin as (x & -> & Hx). apply list_elem_of_fmap_2, list_elem_of_filter. done. }
  apply (spec_bind _ _ _ (λ _ w, manages (aw_fragment w) b')); [|intros _; by apply spec_ret]. eapply spec_weaken; [apply (spec_remove h parserStat profileStat n s b)|done| |].
  - intros res w (l & El & Hc & H). destruct (br_Changed res); [destruct H as (_ & H & _); exact (Hw _ _ _ Hc El H)|]. by destruct H as [_ [-> _]].
  - intros e w H. unfold failed in H. destruct (bool_decide _); [|by destruct H as [-> _]]. destruct H as [(x & Ex & H)| ->]; [|done].
    destruct (validateBoundaryPathForRemove h b) as [c|] eqn:Hc; [|done]. destruct (managed n) as [l|] eqn:El; [|done]. injection Ex as <-. by eapply Hw.
Qed.

(** C24. The driver refines the contract of the coordinator: a boundary is in force when
    the fragment manages it, and no lexically valid path is the operator's. *)
Theorem apparmor_driver_refines :
  ∃ laws : macDriverLaws aa_world, (∀ w b, present w b ↔ manages (aw_fragment w) b) ∧ (∀ b, operator_owned (W:=aa_world) b ↔ ¬ lexical b).
Proof.
  unshelve eexists.
  { refine {| present w b := manages (aw_fragment w) b; operator_owned b := ¬ lexical b |}.
    - intros t w c new w' E. pose proof (spec_ensure (aw_fragment w) (aw_loaded w) t w) as H. change (aa_ensureCoverage h parserStat profileStat lstat t w = (Ok (c, new), w')) in E.
      rewrite E in H. destruct H as (H1 & H2 & _); [done|]. done.
    - intros t w r w' b E. pose proof (spec_ensure (aw_fragment w) (aw_loaded w) t w) as H. change (aa_ensureCoverage h parserStat profileStat lstat t w = (r, w')) in E.
      rewrite E in H. destruct r; [destruct H as (_ & _ & _ & H); [done|]; apply H|by apply H].
    - intros t w c w' E. pose proof (spec_ensure (aw_fragment w) (aw_loaded w) t w) as H. change (aa_ensureCoverage h parserStat profileStat lstat t w = (Ok (c, true), w')) in E.
      rewrite E in H. destruct H as (_ & _ & H & _); [done|]. destruct (H eq_refl) as [? Hl]. split; [done|]. intros Hn. by apply Hn.
    - intros t w c w' E. pose proof (spec_verify (aw_fragment w) (aw_loaded w) t w) as H. change (aa_verifyCoverage lstat t w = (Ok c, w')) in E.
      rewrite E in H. destruct H as (H1 & H2 & _); [done|]. done.
    - intros t w r w' b E. pose proof (spec_verify (aw_fragment w) (aw_loaded w) t w) as H. change (aa_verifyCoverage lstat t w = (r, w')) in E.
      rewrite E in H. destruct r; [destruct H as (_ & _ & -> & _)|destruct H as [-> _]]; done.
    - intros b k w r w' b' E Hb Hne Hm. pose proof (spec_remove_frame (aw_fragment w) (aw_loaded w) b k b') as H. change (aa_removeBoundary h parserStat profileStat b k w = (r, w')) in E.
      assert (Hl : lexical b) by (destruct (decide (lexical b)); [done|by destruct Hb]). specialize (H Hl Hne Hm w). rewrite E in H. by destruct r; apply H.
    - intros b w r w' b' E. assert (H : spec (at_ (aw_fragment w) (aw_loaded w)) (aa_proveOwnedKind b) (λ _, at_ (aw_fragment w) (aw_loaded w)) (λ _, at_ (aw_fragment w) (aw_loaded w))).
      { eapply spec_bind; [apply spec_wrapf, spec_list|]. intros l. apply spec_pure. intros _. by apply spec_ret. }
      specialize (H w). change (aa_proveOwnedKind b w = (r, w')) in E. rewrite E in H. destruct r; destruct H as [-> _]; done.
    - intros w l b k E Hin Hn. apply Hn. change (aa_discoverHelperOwnedBoundaries w = Ok l) in E. unfold aa_discoverHelperOwnedBoundaries in E.
      pose proof (spec_list (aw_fragment w) (aw_loaded w) w ltac:(done)) as H. destruct (listManagedBoundaries w) as [[bs|] w']; [|done]. injection E as <-. destruct H as [_ Hm].
      apply list_elem_of_fmap in Hin as (x & [= -> ->] & Hx). apply managed_canonical in Hm as [_ Hl]. rewrite Forall_forall in Hl. by apply Hl. }
  by split.
Qed.
End contract.

(** ** Symbolic links *)

(** C28. Where a managed directory was replaced by a symbolic link, the removal of its
    boundary is the removal of another one: when it succeeds the boundary is still
    managed, and the boundary of the directory the link leads to is not. *)
Theorem removal_follows_links h parserStat profileStat n s b c kind :
  lexical b → osStatFn h b = inl is_dir → evalSymlinksFn h b = inl c → c ≠ b → manages n b →
  spec (at_ n s) (aa_removeBoundary h parserStat profileStat b kind) (λ _ w, manages (aw_fragment w) b ∧ ¬ manages (aw_fragment w) c) (λ _ _, True).
Proof.
  intros (_ & Ha & _)%lexical_inv Hstat Hlink Hne (l & El & Hb). assert (Hv : ∀ x, validateBoundaryPathForRemove h b = Ok x → x = c).
  { intros x. unfold validateBoundaryPathForRemove. rewrite Ha, Hstat, Hlink. cbn [negb]. destruct (validateBoundaryLexical c); [|done]. by intros [= <-]. }
  unfold aa_removeBoundary. apply (spec_bind _ _ _ (λ _ w, manages (aw_fragment w) b ∧ ¬ manages (aw_fragment w) c)); [|intros _; by apply spec_ret].
  eapply spec_weaken; [apply (spec_remove h parserStat profileStat n s b)|done| |done].
  intros res w (l' & El' & Hc & H). rewrite El in El'. injection El' as <-. apply Hv in Hc. rewrite Hc in H. destruct (br_Changed res).
  - destruct H as (_ & Hw & _). split.
    + eexists. split; [exact Hw|]. apply list_elem_of_fmap in Hb as (x & -> & Hx). by apply list_elem_of_fmap_2, list_elem_of_filter.
    + intros (l' & El' & Hin). rewrite Hw in El'. injection El' as <-. by apply list_elem_of_fmap in Hin as (x & -> & [Hx _]%list_elem_of_filter).
  - destruct H as [Hin [-> _]]. split; [by exists l|]. intros (l' & El' & Hc'). rewrite El in El'. by injection El' as <-.
Qed.

Module BoundaryExample.
Definition tree (link : bool) : host := mkHost
  (λ p, if bool_decide (p ∈ ["/srv/a"; "/srv/b"]) then inl is_dir else inr not_exist)
  (λ p, inl (if link && bool_decide (p = "/srv/a") then "/srv/b" else Clean p)) None None 0.
Definition binary : (bool * Z) + probe_error := inl (true, 493).
Definition start : aa_world := mkAA fragment_absent "" [].
Definition both : aa_world :=
  mkAA (fragment_file (renderFragment [mkBoundary "/srv/a" appArmorBoundaryDirectory; mkBoundary "/srv/b" appArmorBoundaryDirectory]) 420) "" [].
End BoundaryExample.

(** On a host without links the laws hold and a preparation takes effect. *)
Lemma apparmor_driver_refines_witness :
  (∃ laws : @macDriverLaws aa_world (appArmorMACDriver (BoundaryExample.tree false) BoundaryExample.binary BoundaryExample.binary (λ _, lstat_dir)),
     ∀ w b, @present aa_world _ laws w b ↔ manages (aw_fragment w) b) ∧
  (aa_ensureCoverage (BoundaryExample.tree false) BoundaryExample.binary BoundaryExample.binary (λ _, lstat_dir) "/srv/a" BoundaryExample.start).1 =
    Ok (mkCoverage "/srv/a" true macBoundaryDirectory, true).
Proof.
  split; [|vm_compute; reflexivity].
  destruct (apparmor_driver_refines (BoundaryExample.tree false) BoundaryExample.binary BoundaryExample.binary (λ _, lstat_dir) (λ p c (H : inl (Clean p) = inl c), eq_sym (f_equal (λ x, match x with inl y => y | inr _ => c end) H))) as [laws [H _]].
  by exists laws.
Defined.

Lemma removal_follows_links_witness :
  let r := aa_removeBoundary (BoundaryExample.tree true) BoundaryExample.binary BoundaryExample.binary "/srv/a" macBoundaryDirectory BoundaryExample.both in
  r.1 = Ok () ∧ manages (aw_fragment r.2) "/srv/a" ∧ ¬ manages (aw_fragment r.2) "/srv/b".
Proof.
  cbv zeta. assert (Em : managed (aw_fragment BoundaryExample.both) = Some [mkBoundary "/srv/a" appArmorBoundaryDirectory; mkBoundary "/srv/b" appArmorBoundaryDirectory]) by (vm_compute; reflexivity).
  pose proof (removal_follows_links (BoundaryExample.tree true) BoundaryExample.binary BoundaryExample.binary (aw_fragment BoundaryExample.both) "" "/srv/a" "/srv/b" macBoundaryDirectory) as H.
  specialize (H ltac:(vm_compute; reflexivity) ltac:(vm_compute; reflexivity) ltac:(vm_compute; reflexivity) ltac:(discriminate)).
  assert (Hm : manages (aw_fragment BoundaryExample.both) "/srv/a") by (eexists; split; [exact Em|by left]). specialize (H Hm BoundaryExample.both (conj eq_refl eq_refl)).
  assert (E1 : (aa_removeBoundary (BoundaryExample.tree true) BoundaryExample.binary BoundaryExample.binary "/srv/a" macBoundaryDirectory BoundaryExample.both).1 = Ok ()) by (vm_compute; reflexivity).
  split; [exact E1|]. destruct (aa_removeBoundary _ _ _ _ _ _) as [[u|e] w]; [exact H|discriminate E1].
Defined.
