(* ===== verification/Mountinfo.v ===== *)
(** * Mountinfo: the readers of /proc/self/mountinfo

    The mount inventory of src/workload_selinux.go, which decides whether an owned
    path is unmounted before it is removed, and the relabel guard of
    src/selinux_fcontext.go: what they see of a table of mounts as the kernel
    prints it. *)
From S2P Require Import Prelude Filepath GoStrings AllowedRoots Database SnapshotStore MacLifecycle SelinuxManager FcontextSpec DockerMount.
Local Open Scope Z_scope.

(** ** The reader *)

Fixpoint octal_value (v : Z) (s : string) : option Z :=
  match s with
  | "" => Some v
  | String c s => if in_range 48 55 (byte_of c) then octal_value (v * 8 + (byte_of c - 48)) s else None
  end.
(** [byte(v)] keeps the low eight bits. *)
Definition octalDigits3 (s : string) : option ascii :=
  if bool_decide (String.length s ≠ 3%nat) then None else v ← octal_value 0 s; Some (to_byte (v mod 256)).

Fixpoint unescapeMountPath (path : string) : string :=
  match path with
  | "" => ""
  | String c rest =>
      match rest with
      | String x (String y (String z rest')) =>
          if bool_decide (c = "\"%char) then
            match octalDigits3 (String x (String y (String z ""))) with
            | Some v => String v (unescapeMountPath rest')
            | None => String c (unescapeMountPath rest)
            end
          else String c (unescapeMountPath rest)
      | _ => String c (unescapeMountPath rest)
      end
  end.

(** The mount point of a line: its fifth field. *)
Definition line_lists (path line : string) : bool :=
  match Fields line with
  | _ :: _ :: _ :: _ :: point :: _ => bool_decide (unescapeMountPath point = path)
  | _ => false
  end.

(** [data] is what reading the inventory gave. *)
Definition procMountinfoContains (data : option string) (path : string) : option bool :=
  text ← data; Some (existsb (line_lists path) (split_byte LF text)).

(** ** The table the kernel prints *)

(** A mount: its identifiers, the root of the mount within its file system, the
    mount point, and the rest of the line. *)
Record mount_entry := mkMount { me_id : string; me_parent : string; me_dev : string; me_root : string; me_point : string; me_rest : string }.

Definition mount_line (m : mount_entry) : string :=
  str_concat ((λ w, w +:+ " ") <$> [me_id m; me_parent m; me_dev m; kernel_escape (me_root m); kernel_escape (me_point m)]) +:+ me_rest m.
Definition mountinfo_text (l : list mount_entry) : string := str_concat ((λ m, mount_line m +:+ String LF "") <$> l).

(** The text has no rune that [strings.Fields] takes for white space. *)
Definition no_space (s : string) : bool := forallb (λ p, negb (IsSpace p.1)) (range s).
(** A word of a line. *)
Definition field (w : string) : Prop := w ≠ "" ∧ no_space w = true.
(** A table as the kernel prints it, whose roots and mount points have no white
    space beyond what is escaped. *)
Definition readable (m : mount_entry) : Prop :=
  Forall field [me_id m; me_parent m; me_dev m; kernel_escape (me_root m); kernel_escape (me_point m)] ∧ str_count LF (me_rest m) = 0%nat.

(** ** Escapes *)

Lemma octal_same x y z : octalDigits3 (String x (String y (String z ""))) = to_byte <$> decodeMountinfoOctal x y z.
Proof.
  unfold octalDigits3, decodeMountinfoOctal, octal_digit. cbn [String.length octal_value]. rewrite bool_decide_eq_false_2 by auto.
  destruct (in_range 48 55 (byte_of x)); [|done]. destruct (in_range 48 55 (byte_of y)); [|done]. by destruct (in_range 48 55 (byte_of z)).
Qed.

(** The two decoders of the sources agree. *)
Lemma unescape_same s : unescapeMountPath s = unescapeMountinfoPath s.
Proof.
  induction s as [s IH] using (well_founded_induction (well_founded_ltof _ String.length)).
  assert (IH' : ∀ s', (String.length s' < String.length s)%nat → unescapeMountPath s' = unescapeMountinfoPath s') by (intros; by apply IH). clear IH.
  destruct s as [|c r]; [done|]. cbn [unescapeMountPath unescapeMountinfoPath]. rewrite (IH' r) by (simpl; lia).
  destruct r as [|x [|y [|z r]]]; try (by case_bool_decide). rewrite octal_same, (IH' r) by (simpl; lia).
  change backslash with "\"%char. case_bool_decide; [|done]. by destruct (decodeMountinfoOctal x y z).
Qed.

Lemma unescape_kernel s : unescapeMountPath (kernel_escape s) = s.
Proof. rewrite unescape_same. apply mountinfo_unescape_roundtrip. Qed.

(** ** Decoding in front of an ASCII byte *)

Lemma cont_ascii c : byte_of c < 128 → cont_byte (byte_of c) = false.
Proof. intros H. apply in_range_false. lia. Qed.

Lemma second_ascii lo hi c : 128 <= lo → byte_of c < 128 → in_range lo hi (byte_of c) = false.
Proof. intros ? ?. apply in_range_false. lia. Qed.
Lemma two_ok_ascii a c : byte_of c < 128 → two_ok a (byte_of c) = false.
Proof. intros H. unfold two_ok. rewrite cont_ascii by done. apply andb_false_r. Qed.
Lemma three_ok_ascii2 a c d : byte_of c < 128 → three_ok a (byte_of c) d = false.
Proof. intros H. unfold three_ok. rewrite (second_ascii _ _ c) by (done || by destruct (a =? 224)). apply andb_false_r. Qed.
Lemma three_ok_ascii3 a b c : byte_of c < 128 → three_ok a b (byte_of c) = false.
Proof. intros H. unfold three_ok. rewrite cont_ascii by done. by rewrite andb_false_r. Qed.
Lemma four_ok_ascii2 a c d e : byte_of c < 128 → four_ok a (byte_of c) d e = false.
Proof. intros H. unfold four_ok. rewrite (second_ascii _ _ c) by (done || by destruct (a =? 240)). apply andb_false_r. Qed.
Lemma four_ok_ascii3 a b c d : byte_of c < 128 → four_ok a b (byte_of c) d = false.
Proof. intros H. unfold four_ok. rewrite cont_ascii by done. by rewrite andb_false_r. Qed.
Lemma four_ok_ascii4 a b c d : byte_of d < 128 → four_ok a b c (byte_of d) = false.
Proof. intros H. unfold four_ok. rewrite (cont_ascii d) by done. by rewrite andb_false_r. Qed.

(** A sequence is never continued by an ASCII byte. *)
Lemma range_app_ascii a c b : byte_of c < 128 → range (a +:+ String c b) = range a ++ range (String c b).
Proof.
  intros Hc.
  induction a as [a IH] using (well_founded_induction (well_founded_ltof _ String.length)).
  assert (IH' : ∀ a', (String.length a' < String.length a)%nat → range (a' +:+ String c b) = range a' ++ range (String c b)) by (intros; by apply IH).
  clear IH. destruct a as [|x a1]; [done|]. cbn [String.append range]. destruct (byte_of x <? RuneSelf); [rewrite IH' by (simpl; lia); done|].
  destruct a1 as [|y a2]; cbn [String.append].
  { rewrite two_ok_ascii by done. destruct b as [|d [|e b]]; [done| |]; rewrite !three_ok_ascii2 by done; [done|]. by rewrite four_ok_ascii2. }
  destruct (two_ok (byte_of x) (byte_of y)); [rewrite IH' by (simpl; lia); done|].
  destruct a2 as [|z a3]; cbn [String.append].
  { rewrite three_ok_ascii3 by done. pose proof (IH' (str1 y) ltac:(simpl; lia)) as E; cbn [str1 String.append] in E; rewrite E. destruct b as [|d b]; [done|]. by rewrite four_ok_ascii3. }
  destruct (three_ok (byte_of x) (byte_of y) (byte_of z)); [rewrite IH' by (simpl; lia); done|].
  destruct a3 as [|w a4]; cbn [String.append].
  { rewrite four_ok_ascii4 by done. pose proof (IH' (String y (str1 z)) ltac:(simpl; lia)) as E; cbn [str1 String.append] in E; by rewrite E. }
  destruct (four_ok (byte_of x) (byte_of y) (byte_of z) (byte_of w)); [rewrite IH' by (simpl; lia); done|].
  pose proof (IH' (String y (String z (String w a4))) ltac:(simpl; lia)) as E; cbn [String.append] in E; by rewrite E.
Qed.

(** ** Fields *)

Lemma fields_word l cur rest : forallb (λ p, negb (IsSpace p.1)) l = true → fields_from (l ++ rest) cur = fields_from rest (cur +:+ str_concat l.*2).
Proof.
  revert cur. induction l as [|[r raw] l IH]; intros cur; simpl; [by rewrite str_app_nil_r|]. intros [Hr H]%andb_true_iff.
  apply negb_true_iff in Hr. rewrite Hr, IH by done. by rewrite str_app_assoc.
Qed.

Lemma Fields_cons w s : field w → Fields (w +:+ String " " s) = w :: Fields s.
Proof.
  intros [Hne Hw]. unfold Fields. rewrite range_app_ascii by done. rewrite fields_word by done. rewrite range_concat.
  cbn [range]. simpl. rewrite bool_decide_eq_false_2 by done. done.
Qed.

Lemma Fields_words l rest : Forall field l → Fields (str_concat ((λ w, w +:+ " ") <$> l) +:+ rest) = l ++ Fields rest.
Proof.
  induction 1 as [|w l Hw _ IH]; [done|]. rewrite fmap_cons. cbn [str_concat].
  rewrite !str_app_assoc. cbn [String.append]. by rewrite Fields_cons, IH.
Qed.

Lemma line_lists_spec path m : readable m → line_lists path (mount_line m) = bool_decide (me_point m = path).
Proof. intros [Hf _]. unfold line_lists, mount_line. rewrite Fields_words by done. cbn [app]. by rewrite unescape_kernel. Qed.

(** ** Lines *)

Lemma str_count_split c s : str_count c s ≠ 0%nat → ∃ a b, s = a +:+ String c b.
Proof.
  induction s as [|x s IH]; simpl; [done|]. destruct (ascii_dec c x) as [->|]; [by exists "", s|].
  intros (a & b & ->)%IH. by exists (String x a), b.
Qed.

Lemma field_one_line w : no_space w = true → str_count LF w = 0%nat.
Proof.
  intros Hw. destruct (decide (str_count LF w = 0%nat)) as [|Hn]; [done|]. apply str_count_split in Hn as (a & b & ->).
  unfold no_space in Hw. rewrite range_app_ascii, forallb_app in Hw by done. by apply andb_true_iff in Hw as [_ Hw].
Qed.

Lemma words_one_line l : Forall field l → str_count LF (str_concat ((λ w, w +:+ " ") <$> l)) = 0%nat.
Proof.
  induction 1 as [|w l [_ Hw] _ IH]; [done|]. rewrite fmap_cons. cbn [str_concat]. rewrite !str_count_app, IH, field_one_line by done. done.
Qed.

Lemma mountinfo_lines l : Forall readable l → split_byte LF (mountinfo_text l) = (mount_line <$> l) ++ [""].
Proof.
  unfold mountinfo_text. induction 1 as [|m l [Hf Hr] _ IH]; [done|]. rewrite !fmap_cons. cbn [str_concat]. rewrite str_app_assoc. cbn [String.append].
  rewrite split_byte_app; [by rewrite IH|]. unfold mount_line. by rewrite str_count_app, words_one_line, Hr.
Qed.

(** The inventory is exact on the tables whose roots have no white space beyond
    what the kernel escapes: a path is reported exactly when something is mounted
    there. *)
Theorem inventory_exact l path :
  Forall readable l → procMountinfoContains (Some (mountinfo_text l)) path = Some (bool_decide (path ∈ me_point <$> l)).
Proof.
  intros Hl. unfold procMountinfoContains. cbn [mbind option_bind]. f_equal. rewrite mountinfo_lines, existsb_app by done. cbn [existsb].
  change (line_lists path "") with false. rewrite !orb_false_r.
  induction Hl as [|m l Hm _ IH]; [done|]. rewrite !fmap_cons. cbn [existsb]. rewrite line_lists_spec, IH by done.
  rewrite <-bool_decide_or. apply bool_decide_ext. rewrite elem_of_cons. naive_solver.
Qed.

(** ** The relabel guard on a table *)

(** The separator of the line is its first one. *)
Definition separated (m : mount_entry) : Prop :=
  ∃ opts fs, Cut (mount_line m) " - " =
    Some (str_concat ((λ w, w +:+ " ") <$> [me_id m; me_parent m; me_dev m; kernel_escape (me_root m); kernel_escape (me_point m)]) +:+ opts, fs).

Lemma range_nonempty s p : p ∈ range s → p.2 ≠ "".
Proof.
  apply (range_ind (λ s l, p ∈ l → p.2 ≠ "")); [by intros ?%not_elem_of_nil|..]; intros; by match goal with H : p ∈ _ |- _ => apply elem_of_cons in H as [->|?]; [done|auto] end.
Qed.

Lemma drop_space_in l p : p ∈ l → IsSpace p.1 = false → p ∈ drop_space l.
Proof.
  induction l as [|q l IH]; [by intros ?%not_elem_of_nil|]. intros Hp Hs. cbn [drop_space]. destruct (IsSpace q.1) eqn:E; [|done].
  apply elem_of_cons in Hp as [->|Hp]; [congruence|auto].
Qed.

Lemma concat_nonempty l (w : string) : w ∈ l → w ≠ "" → str_concat l ≠ "".
Proof.
  induction l as [|x l IH]; [by intros ?%not_elem_of_nil|]. intros [->|Hw]%elem_of_cons Hne E; cbn [str_concat] in E.
  - by destruct x.
  - destruct x; [|done]. by apply IH.
Qed.

Lemma TrimSpace_nonempty s p : p ∈ range s → IsSpace p.1 = false → TrimSpace s ≠ "".
Proof.
  intros Hp Hs E. unfold TrimSpace in E.
  assert (Hin : p ∈ reverse (drop_space (reverse (drop_space (range s))))).
  { rewrite elem_of_reverse. apply drop_space_in; [|done]. rewrite elem_of_reverse. by apply drop_space_in. }
  apply (concat_nonempty _ p.2) in E; [done|by apply list_elem_of_fmap_2|by apply (range_nonempty s)].
Qed.

Lemma parse_table l :
  Forall readable l → Forall separated l → parseMountinfoMountPoints (mountinfo_text l) = Ok (me_point <$> l).
Proof.
  intros Hl Hs. unfold parseMountinfoMountPoints. change newline with LF. rewrite mountinfo_lines by done.
  induction Hl as [|m l [Hf Hr] _ IH]; [done|]. apply Forall_cons in Hs as [(opts & fs & Hcut) Hs]. rewrite !fmap_cons. cbn [app parse_mount_lines].
  rewrite bool_decide_eq_false_2.
  - rewrite Hcut, Fields_words by done. cbn [app lookup list_lookup]. rewrite IH by done. cbn. by rewrite mountinfo_unescape_roundtrip.
  - apply Forall_cons in Hf as [[Hne Hw] _]. unfold mount_line. cbn [fmap list_fmap str_concat]. rewrite !str_app_assoc. cbn [String.append].
    destruct (range (me_id m)) as [|p k] eqn:E; [by rewrite <-(range_concat (me_id m)), E in Hne|].
    apply (TrimSpace_nonempty _ p).
    + rewrite range_app_ascii by done. apply elem_of_app. left. rewrite E. by left.
    + unfold no_space in Hw. rewrite E in Hw. cbn [forallb] in Hw. apply andb_true_iff in Hw as [Hw _]. by apply negb_true_iff in Hw.
Qed.

(** On a readable table the recursive relabel of a workspace is admitted exactly
    when nothing is mounted at it or below it. *)
Theorem relabel_table_exact l ws :
  Forall readable l → Forall separated l → Forall (λ m, IsAbs (me_point m) = true) l → IsAbs ws = true →
  checkTreeRelabelBoundary (Ok (mountinfo_text l)) ws = Ok () ↔ ∀ m, m ∈ l → pathWithin (Clean ws) (Clean (me_point m)) = false.
Proof.
  intros Hl Hs Ha Hw. unfold checkTreeRelabelBoundary. rewrite parse_table by done.
  rewrite mount_guard_ok by (try (by apply Clean_canonical); by apply Forall_fmap). split; intros H.
  - intros m Hm. apply H. by apply list_elem_of_fmap_2.
  - intros mp (m & -> & Hm)%list_elem_of_fmap. by apply H.
Qed.

(** ** White space that is not escaped *)

(** U+00A0 *)
Definition nbsp : string := String "194" (String "160" "").

(** A bind mount whose source has U+00A0 in its path is reported at the place
    the rest of the source names, not at its mount point: an owned mount of such a
    source is taken for absent, and a source can be chosen to report any path. *)
Theorem wide_space_misplaces m a b path :
  Forall field [me_id m; me_parent m; me_dev m] → field a → ValidString a = true → field (kernel_escape b) →
  kernel_escape (me_root m) = a +:+ nbsp +:+ kernel_escape b →
  line_lists path (mount_line m) = bool_decide (b = path).
Proof.
  intros Hh [Ha1 Ha2] Hv Hb Hroot. unfold line_lists, mount_line.
  set (tail := kernel_escape (me_point m) +:+ " " +:+ me_rest m).
  assert (E : str_concat ((λ w, w +:+ " ") <$> [me_id m; me_parent m; me_dev m; kernel_escape (me_root m); kernel_escape (me_point m)]) +:+ me_rest m =
              str_concat ((λ w, w +:+ " ") <$> [me_id m; me_parent m; me_dev m]) +:+ (a +:+ nbsp +:+ (kernel_escape b +:+ String " " tail))).
  { cbn [fmap list_fmap str_concat]. rewrite Hroot. unfold tail. rewrite !str_app_assoc.
    done. }
  rewrite E, Fields_words by done. cbn [app].
  assert (E2 : Fields (a +:+ nbsp +:+ (kernel_escape b +:+ String " " tail)) = a :: kernel_escape b :: Fields tail).
  { unfold Fields at 1. rewrite range_app by done. rewrite fields_word by done. rewrite range_concat.
    rewrite range_app by done. change (range nbsp) with [(160, nbsp)]. cbn [app fields_from IsSpace]. simpl.
    rewrite bool_decide_eq_false_2 by done. cbn [app]. f_equal. by apply Fields_cons. }
  by rewrite E2, unescape_kernel.
Qed.

(** ** Two tables *)

Definition item_mount (root : string) : mount_entry :=
  mkMount "412" "25" "8:1" root "/run/docker-helper/workload-mac/op_1/mount-0/lower/item" "rw,relatime shared:1 - ext4 /dev/sda1 rw".

Lemma field_check w : bool_decide (w ≠ "") && no_space w = true → field w.
Proof. by intros [?%bool_decide_eq_true ?]%andb_true_iff. Qed.

(** A source with blanks and a backslash. *)
Lemma inventory_exact_witness :
  procMountinfoContains (Some (mountinfo_text [item_mount "/home/u/my \files/f"])) (me_point (item_mount "")) = Some true.
Proof.
  rewrite (inventory_exact [item_mount "/home/u/my \files/f"] (me_point (item_mount ""))).
  - vm_compute. reflexivity.
  - constructor; [|constructor]. split; [|reflexivity]. repeat constructor; apply field_check; vm_compute; reflexivity.
Defined.

(** The mount of a source with U+00A0 is not found where it is. *)
Lemma wide_space_misplaces_witness :
  let m := item_mount ("/home/u/a" +:+ nbsp +:+ "b/f") in
  me_point m ∈ me_point <$> [m] ∧ line_lists (me_point m) (mount_line m) = false.
Proof.
  cbv zeta. split; [by left|]. rewrite (wide_space_misplaces _ "/home/u/a" "b/f").
  - reflexivity.
  - repeat constructor; apply field_check; vm_compute; reflexivity.
  - apply field_check; vm_compute; reflexivity.
  - vm_compute; reflexivity.
  - apply field_check; vm_compute; reflexivity.
  - vm_compute; reflexivity.
Defined.

(** With U+00A0 in the path of the workspace, a mount below it passes the guard. *)
Definition wide_mount : mount_entry :=
  mkMount "413" "25" "8:2" "/" ("/home/u/a" +:+ nbsp +:+ "b/data") "rw,relatime shared:2 - ext4 /dev/sdb1 rw".
Theorem relabel_guard_misses_wide_space :
  let ws := "/home/u/a" +:+ nbsp +:+ "b" in
  pathStrictlyWithin ws (me_point wide_mount) = true ∧ checkTreeRelabelBoundary (Ok (mountinfo_text [wide_mount])) ws = Ok ().
Proof. split; vm_compute; reflexivity. Qed.

Lemma relabel_table_exact_witness :
  checkTreeRelabelBoundary (Ok (mountinfo_text [item_mount "/home/u/my files/f"])) "/home/u" = Ok () ∧
  checkTreeRelabelBoundary (Ok (mountinfo_text [item_mount "/home/u/my files/f"])) "/run" ≠ Ok ().
Proof.
  assert (Hr : Forall readable [item_mount "/home/u/my files/f"]).
  { constructor; [|constructor]. split; [|reflexivity]. repeat constructor; apply field_check; vm_compute; reflexivity. }
  assert (Hs : Forall separated [item_mount "/home/u/my files/f"]).
  { constructor; [|constructor]. eexists "rw,relatime shared:1", _. vm_compute. reflexivity. }
  assert (Ha : Forall (λ m, IsAbs (me_point m) = true) [item_mount "/home/u/my files/f"]) by (constructor; [reflexivity|constructor]).
  split.
  - apply (relabel_table_exact _ "/home/u" Hr Hs Ha); [reflexivity|]. intros m ->%list_elem_of_singleton. vm_compute. reflexivity.
  - intros H. pose proof (proj1 (relabel_table_exact _ "/run" Hr Hs Ha eq_refl) H) as H'. specialize (H' _ ltac:(by left)). vm_compute in H'. discriminate H'.
Defined.
