(* ===== verification/WorkloadSelinux.v ===== *)
(** * WorkloadSelinux: the SELinux backend of workload MAC (src/workload_selinux.go)

    Read-only projections: the runtime tree, the mounts and the workers of each
    operation, the preparation, the release in its frozen order, and the proof of
    the runtime shape at startup, as an instance of the coordinator's interface.
    Workers are processes of their own: they mount, unmount and exit between any
    two calls of their operation. *)
From S2P Require Import Prelude Filepath AllowedRoots GoStrings Session Operation Proc Lifecycle RunRequest Run WorkloadMac.
Local Open Scope Z_scope.

Definition selinuxROProjectionType : string := "docker_helper_ro_projection_t".
Definition selinuxROProjectionContext : string := "system_u:object_r:" +:+ selinuxROProjectionType +:+ ":s0".

(** ** Names and labels *)

(** The directory of the projection of a mount: "mount-%d". *)
Definition projection_name (index : Z) : string := "mount-" +:+ Itoa index.

Definition parseProjectionDirName (name : string) : option Z :=
  rest ← CutPrefix name "mount-";
  if bool_decide (rest = "") then None
  else if negb (forallb (λ p, in_range 48 57 p.1) (range rest)) then None
  else if bool_decide ((1 < String.length rest)%nat) && String.prefix "0" rest then None
  else ParseInt10 rest.

(** [strings.TrimRight(value, "\x00")]. *)
Fixpoint trim_nul (s : string) : string :=
  match s with
  | "" => ""
  | String c s => let r := trim_nul s in if bool_decide (r = "") && bool_decide (c = "000"%char) then "" else String c r
  end.

(** The type of a context as the extended attribute holds it. *)
Definition selinuxTypeOf (value : string) : option string :=
  match split_byte ":" (trim_nul value) with
  | _ :: _ :: typ :: _ => Some typ
  | _ => None
  end.

(** ** The runtime tree, the mounts and the workers of an operation *)

Inductive leaf := leaf_regular | leaf_other.
Inductive child := child_dir (items : gmap string leaf) | child_other.
Inductive proj := proj_dir (children : gmap string child) | proj_other.
Inductive runtime_entry := runtime_dir (projs : gmap string proj) | runtime_other.

Inductive worker_state := worker_starting | worker_serving | worker_exited.
#[export] Instance leaf_eq : EqDecision leaf.
Proof. solve_decision. Defined.
#[export] Instance child_eq : EqDecision child.
Proof. solve_decision. Defined.
#[export] Instance worker_state_eq : EqDecision worker_state.
Proof. solve_decision. Defined.

(** By the name of the projection: the context of what is mounted at its mount
    point, the source bound onto its lower item, its worker.  [os_damage] records
    a removal that went through a projection with a live worker: into the source. *)
Record op_state := mkOp {
  os_runtime : option runtime_entry; os_mounts : gmap string string; os_items : gmap string string;
  os_workers : gmap string worker_state; os_damage : bool }.
#[export] Instance op_state_inhabited : Inhabited op_state := populate (mkOp None ∅ ∅ ∅ false).

Definition os_with_runtime (r : option runtime_entry) (o : op_state) : op_state := mkOp r (os_mounts o) (os_items o) (os_workers o) (os_damage o).
Definition os_with_mounts (m : gmap string string) (o : op_state) : op_state := mkOp (os_runtime o) m (os_items o) (os_workers o) (os_damage o).
Definition os_with_items (m : gmap string string) (o : op_state) : op_state := mkOp (os_runtime o) (os_mounts o) m (os_workers o) (os_damage o).
Definition os_with_workers (m : gmap string worker_state) (o : op_state) : op_state := mkOp (os_runtime o) (os_mounts o) (os_items o) m (os_damage o).
Definition os_damaged (o : op_state) : op_state := mkOp (os_runtime o) (os_mounts o) (os_items o) (os_workers o) true.

Definition projs (o : op_state) : gmap string proj := match os_runtime o with Some (runtime_dir m) => m | _ => ∅ end.
Definition set_projs (m : gmap string proj) (o : op_state) : op_state := os_with_runtime (Some (runtime_dir m)) o.
Definition children (o : op_state) (name : string) : gmap string child := match projs o !! name with Some (proj_dir cs) => cs | _ => ∅ end.

(** ** Workers *)

(** What a worker does on its own: it mounts its projection with a context, the
    mount goes away, it exits (with or without its mount). *)
Inductive worker_event := ev_mount (name context : string) | ev_unmount (name : string) | ev_exit (name : string).

Definition apply_event (o : op_state) (e : worker_event) : op_state :=
  match e with
  | ev_mount name context =>
      if bool_decide (os_workers o !! name = Some worker_starting ∧ os_mounts o !! name = None)
      then os_with_workers (<[name := worker_serving]> (os_workers o)) (os_with_mounts (<[name := context]> (os_mounts o)) o) else o
  | ev_unmount name => os_with_mounts (delete name (os_mounts o)) o
  | ev_exit name =>
      if bool_decide (is_Some (os_workers o !! name)) then os_with_workers (<[name := worker_exited]> (os_workers o)) o else o
  end.

(** A call: what the workers did before it, whether it succeeds, whether its
    answer does not match the state (a line of the inventory that names another
    mount, an unmount without effect), the names a failed removal took. *)
Record se_answer := mkSA { sa_events : list worker_event; sa_ok : bool; sa_odd : bool; sa_removed : gset string }.
Definition plain_answer : se_answer := mkSA [] true false ∅.

Record se_kernel := mkSE { se_ops : gmap string op_state; se_io : list se_answer }.

Definition se_call {A} (op : string) (f : se_answer → op_state → A * op_state) : proc se_kernel A :=
  atom (λ k,
    let x := default plain_answer (head (se_io k)) in
    let r := f x (foldl apply_event (se_ops k !!! op) (sa_events x)) in
    (r.1, mkSE (<[op := r.2]> (se_ops k)) (tail (se_io k)))).

(** ** Calls *)

Definition se_ask (op : string) : proc se_kernel bool := se_call op (λ x o, (sa_ok x, o)).
Definition se_look {A} (op : string) (f : se_answer → op_state → A) : proc se_kernel (option A) :=
  se_call op (λ x o, (if sa_ok x then Some (f x o) else None, o)).

Definition mkdir_proj_io (name : string) (x : se_answer) (o : op_state) : bool * op_state :=
  match os_runtime o, projs o !! name with
  | Some runtime_other, _ | _, Some _ => (false, o)
  | _, None => if sa_ok x then (true, set_projs (<[name := proj_dir ∅]> (projs o)) o) else (false, o)
  end.
Definition mkdir_child_io (name c : string) (x : se_answer) (o : op_state) : bool * op_state :=
  match projs o !! name with
  | Some (proj_dir cs) =>
      if sa_ok x && bool_decide (cs !! c = None) then (true, set_projs (<[name := proj_dir (<[c := child_dir ∅]> cs)]> (projs o)) o) else (false, o)
  | _ => (false, o)
  end.
Definition write_item_io (name : string) (x : se_answer) (o : op_state) : bool * op_state :=
  match projs o !! name with
  | Some (proj_dir cs) =>
      match cs !! "lower" with
      | Some (child_dir items) =>
          if sa_ok x then (true, set_projs (<[name := proj_dir (<["lower" := child_dir (<["item" := leaf_regular]> items)]> cs)]> (projs o)) o) else (false, o)
      | _ => (false, o)
      end
  | _ => (false, o)
  end.
(** [os.Remove] of the projection state. *)
Definition remove_proj_io (name : string) (x : se_answer) (o : op_state) : bool * op_state :=
  match projs o !! name with
  | Some (proj_dir cs) => if sa_ok x && bool_decide (cs = ∅) then (true, set_projs (delete name (projs o)) o) else (false, o)
  | _ => (false, o)
  end.

Definition has_item (o : op_state) (name : string) : bool :=
  match children o name !! "lower" with Some (child_dir items) => bool_decide (is_Some (items !! "item")) | _ => false end.
Definition has_mount_dir (o : op_state) (name : string) : bool := bool_decide (is_Some (children o name !! "mount")).

Definition mount_bind_io (name source : string) (x : se_answer) (o : op_state) : bool * op_state :=
  if sa_ok x && has_item o name then (true, os_with_items (<[name := source]> (os_items o)) o) else (false, o).
Definition start_worker_io (name : string) (x : se_answer) (o : op_state) : bool * op_state :=
  if sa_ok x then (true, os_with_workers (<[name := if has_mount_dir o name then worker_starting else worker_exited]> (os_workers o)) o) else (false, o).

(** A worker whose mount point is gone cannot mount any more. *)
Definition orphan (w : worker_state) : worker_state := match w with worker_starting => worker_exited | _ => w end.
Definition live (o : op_state) (name : string) : Prop := is_Some (os_mounts o !! name) ∧ os_workers o !! name = Some worker_serving.
#[export] Instance live_dec o name : Decision (live o name).
Proof. unfold live. apply _. Defined.
Definition mounted_child (o : op_state) (name c : string) : Prop :=
  (c = "mount" ∧ is_Some (os_mounts o !! name)) ∨ (c = "lower" ∧ is_Some (os_items o !! name)).
#[export] Instance mounted_child_dec o name c : Decision (mounted_child o name c).
Proof. unfold mounted_child. apply _. Defined.
Definition busy (o : op_state) (name : string) : bool := bool_decide (is_Some (os_mounts o !! name) ∨ is_Some (os_items o !! name)).

(** [os.RemoveAll] of the projection state; the kernel refuses to remove a mount
    point, but the removal walks into what is mounted. *)
Definition remove_all_io (name : string) (x : se_answer) (o : op_state) : bool * op_state :=
  let o := if bool_decide (live o name) then os_damaged o else o in
  match projs o !! name with
  | None => (true, o)
  | Some pr =>
      if sa_ok x && negb (busy o name) then (true, os_with_workers (alter orphan name (os_workers o)) (set_projs (delete name (projs o)) o))
      else
        match pr with
        | proj_other => (false, o)
        | proj_dir cs =>
            let cs' := filter (λ e, e.1 ∉ sa_removed x ∨ mounted_child o name e.1) cs in
            (false, os_with_workers (if bool_decide (is_Some (cs' !! "mount")) then os_workers o else alter orphan name (os_workers o))
                                    (set_projs (<[name := proj_dir cs']> (projs o)) o))
        end
  end.

(** ** Mounts *)

Inductive slot := slot_projection | slot_item.

Section backend.
(** What [os.Lstat] finds at a pinned source, the runtime directory of an
    operation, whether the inventory shows the mount of a source where it is (see
    Mountinfo), the polls before the readiness deadline, and the context of a
    directory the helper made. *)
Inductive source_kind := src_directory | src_regular | src_other.
Context (lstat : string → option source_kind) (runtimeDir : string → string) (visible : string → bool) (polls : nat) (own_context : string).

Definition isMountpoint (op name : string) (sl : slot) : proc se_kernel (option bool) :=
  se_look op (λ x o,
    sa_odd x ||
    match sl with
    | slot_projection => bool_decide (is_Some (os_mounts o !! name))
    | slot_item => match os_items o !! name with Some source => visible source | None => false end
    end).

Definition unmount_io (name : string) (sl : slot) (x : se_answer) (o : op_state) : bool * op_state :=
  if sa_ok x then
    (true, if sa_odd x then o else
           match sl with
           | slot_projection => os_with_mounts (delete name (os_mounts o)) o
           | slot_item => os_with_items (delete name (os_items o)) o
           end)
  else (false, o).
Definition unmountPath (op name : string) (sl : slot) : proc se_kernel bool := se_call op (unmount_io name sl).

Definition proveUnmountOwnedMount (op name : string) (sl : slot) : proc se_kernel bool :=
  mounted ← isMountpoint op name sl;
  match mounted with
  | None => mret false
  | Some false => mret true
  | Some true =>
      ok ← unmountPath op name sl;
      if negb ok then mret false else
      still ← isMountpoint op name sl;
      mret (bool_decide (still = Some false))
  end.

(** ** Projections *)

(** [pe_lower]: the lower item is set; [pe_worker]: the worker's handle is held. *)
Record projectionEntry := mkEntryP { pe_index : Z; pe_name : string; pe_regular : bool; pe_lower : bool; pe_dockerSource : string; pe_worker : bool }.

Definition mount_dir (op name : string) : string := Join [Join [runtimeDir op; name]; "mount"].

Definition worker_alive (op name : string) : proc se_kernel bool :=
  se_call op (λ _ o, (bool_decide (os_workers o !! name ≠ Some worker_exited), o)).
(** Whether the exit is proven within the budget; a nonzero status is proven too. *)
Definition waitExit (op name : string) : proc se_kernel bool :=
  se_call op (λ _ o, (bool_decide (os_workers o !! name = Some worker_exited), o)).

Definition cleanupOwnedProjectionEntry (op : string) (e : projectionEntry) : proc se_kernel bool :=
  ok ← proveUnmountOwnedMount op (pe_name e) slot_projection;
  if negb ok then mret false else
  ok ← (if pe_worker e then waitExit op (pe_name e) else mret true) : proc se_kernel bool;
  if negb ok then mret false else
  ok ← (if pe_lower e then proveUnmountOwnedMount op (pe_name e) slot_item else mret true) : proc se_kernel bool;
  if negb ok then mret false else
  se_call op (remove_all_io (pe_name e)).

Definition cleanupOwnedProjections (op : string) (l : list projectionEntry) : proc se_kernel bool :=
  all_of (cleanupOwnedProjectionEntry op <$> reverse l).

(** ** Readiness *)

Fixpoint await_mount (op : string) (e : projectionEntry) (n : nat) : proc se_kernel bool :=
  mounted ← isMountpoint op (pe_name e) slot_projection;
  match mounted, n with
  | Some true, _ => mret true
  | _, O => mret false
  | _, S n =>
      alive ← worker_alive op (pe_name e);
      if negb alive then (_ ← waitExit op (pe_name e); mret false) else await_mount op e n
  end.

(** The extended attribute at the probed path: a mount whose worker is gone does
    not answer, and an unmounted directory shows its own context. *)
Definition label_io (e : projectionEntry) (x : se_answer) (o : op_state) : option string * op_state :=
  (if sa_ok x then
     match os_mounts o !! pe_name e with
     | Some context => if bool_decide (os_workers o !! pe_name e = Some worker_serving) then Some context else None
     | None => if pe_regular e then None else Some own_context
     end
   else None, o).

Definition awaitProjectionReady (op : string) (e : projectionEntry) : proc se_kernel bool :=
  mounted ← await_mount op e polls;
  if negb mounted then mret false else
  alive ← worker_alive op (pe_name e);
  if negb alive then mret false else
  value ← se_call op (label_io e);
  mret (bool_decide (value ≫= selinuxTypeOf = Some selinuxROProjectionType)).

(** ** Preparation *)

Definition ensureDependencies (op : string) : proc se_kernel bool :=
  ok ← se_ask op; if ok : bool then se_ask op else mret false.

Inductive projection_answer := projection_ready (e : projectionEntry) | projection_failed | projection_retained.

(** The rollback of one projection, then the answer of the failed preparation. *)
Definition roll_back (op : string) (e : projectionEntry) : proc se_kernel projection_answer :=
  ok ← cleanupOwnedProjectionEntry op e; mret (if ok : bool then projection_failed else projection_retained).

(** The worker, the proof that its projection is ready. *)
Definition start_projection (op : string) (e : projectionEntry) : proc se_kernel projection_answer :=
  started ← se_call op (start_worker_io (pe_name e));
  if negb started then roll_back op e else
  let e := mkEntryP (pe_index e) (pe_name e) (pe_regular e) (pe_lower e) (pe_dockerSource e) true in
  ready ← awaitProjectionReady op e;
  if negb ready then roll_back op e else mret (projection_ready e).

Definition prepareProjection (op source : string) (index : Z) : proc se_kernel projection_answer :=
  match lstat source with
  | None => mret projection_failed
  | Some kind =>
      let name := projection_name index in
      let abandon := _ ← se_call op (remove_all_io name); mret projection_failed in
      ok ← se_call op (mkdir_proj_io name);
      if negb ok then mret projection_failed else
      ok ← se_call op (mkdir_child_io name "mount");
      if negb ok then (_ ← se_call op (remove_proj_io name); mret projection_failed) else
      match kind with
      | src_directory => start_projection op (mkEntryP index name false false (mount_dir op name) false)
      | src_regular =>
          ok ← se_call op (mkdir_child_io name "lower");
          if negb ok then abandon else
          ok ← se_call op (write_item_io name);
          if negb ok then abandon else
          ok ← se_call op (mount_bind_io name source);
          if negb ok then abandon else
          start_projection op (mkEntryP index name true true (Join [mount_dir op name; "item"]) false)
      | src_other => abandon
      end
  end.

(** The exposures from an index on, with the projections and the mount sources so
    far.  An exposure without its pinned source is an index out of range, a panic
    that leaves what was done. *)
Fixpoint prepare_from (op : string) (index : Z) (exposures : list sessionFilesystemExposure) (pins : list string)
    (projections : list projectionEntry) (sources : list string) : proc se_kernel (backend_answer (list projectionEntry)) :=
  match exposures, pins with
  | [], _ => mret (backend_prepared (mkPreparedMAC ["label=type:docker_helper_container_t"] sources) projections)
  | _ :: _, [] => mret backend_rollback_retained
  | e :: exposures, pin :: pins =>
      if negb (RequestedReadOnly e) then prepare_from op (index + 1) exposures pins projections (sources ++ [pin])
      else
        answer ← prepareProjection op pin index;
        match answer with
        | projection_ready entry =>
            prepare_from op (index + 1) exposures pins (projections ++ [entry]) (sources ++ [pe_dockerSource entry])
        | projection_failed =>
            ok ← cleanupOwnedProjections op projections; mret (if ok : bool then backend_failed else backend_rollback_retained)
        | projection_retained => _ ← cleanupOwnedProjections op projections; mret backend_rollback_retained
        end
  end.

Definition se_prepare (p : workloadPreparation) : proc se_kernel (backend_answer (list projectionEntry)) :=
  ok ← ensureDependencies (wp_OperationID p);
  if negb ok then mret backend_failed else prepare_from (wp_OperationID p) 0 (wp_Exposures p) (wp_PinnedSources p) [] [].

(** The closure [preparedWorkloadMAC.cleanup]. *)
Definition se_release (op : string) (handle : list projectionEntry) : proc se_kernel bool := cleanupOwnedProjections op handle.

(** ** Startup *)

Definition se_validateOwnedState (rec : workloadMACRecord) : proc se_kernel bool := mret (bool_decide (wr_Backend rec = LSMSELinux)).

(** A directory that is no mount of an exited worker: [os.Lstat] of such a mount
    fails. *)
Definition is_dir_child (o : op_state) (name c : string) : bool :=
  match children o name !! c with
  | Some (child_dir _) =>
      negb (bool_decide (c = "mount" ∧ is_Some (os_mounts o !! name) ∧ os_workers o !! name ≠ Some worker_serving))
  | _ => false
  end.

(** The names of a directory of the tree. *)
Definition child_names (o : op_state) (name : string) : list string := sorted (dom (children o name)).
Definition lower_names (o : op_state) (name : string) : list string :=
  match children o name !! "lower" with Some (child_dir items) => sorted (dom items) | _ => [] end.
Definition is_regular_item (o : op_state) (name : string) : bool :=
  match children o name !! "lower" with Some (child_dir items) => bool_decide (items !! "item" = Some leaf_regular) | _ => false end.

(** The entries of the lower directory: whether its item was seen. *)
Fixpoint prove_lower (op name : string) (items : list string) (seen : bool) : proc se_kernel (option bool) :=
  match items with
  | [] => mret (Some seen)
  | item :: items =>
      if bool_decide (item ≠ "item") then mret None else
      regular ← se_look op (λ _ o, is_regular_item o name);
      if bool_decide (regular = Some true) then prove_lower op name items true else mret None
  end.

Fixpoint prove_children (op name : string) (cs : list string) (lower : bool) : proc se_kernel (option bool) :=
  match cs with
  | [] => mret (Some lower)
  | c :: cs =>
      if bool_decide (c = "mount" ∨ c = "lower") then
        dir ← se_look op (λ _ o, is_dir_child o name c);
        if bool_decide (dir ≠ Some true) then mret None
        else if bool_decide (c = "mount") then prove_children op name cs lower
        else
          items ← se_look op (λ _ o, lower_names o name);
          match items with
          | None => mret None
          | Some items =>
              seen ← prove_lower op name items lower;
              match seen with Some lower => prove_children op name cs lower | None => mret None end
          end
      else mret None
  end.

Definition proveProjectionEntryShape (op name : string) (index : Z) : proc se_kernel (option projectionEntry) :=
  cs ← se_look op (λ _ o, child_names o name);
  match cs with
  | None => mret None
  | Some cs => lower ← prove_children op name cs false; mret (lower ← lower; Some (mkEntryP index name lower lower "" false))
  end.

Definition is_proj_dir (o : op_state) (name : string) : bool := match projs o !! name with Some (proj_dir _) => true | _ => false end.

Fixpoint prove_projections (op : string) (names : list string) (acc : list projectionEntry) : proc se_kernel (option (list projectionEntry)) :=
  match names with
  | [] => mret (Some acc)
  | name :: names =>
      match parseProjectionDirName name with
      | None => mret None
      | Some index =>
          dir ← se_look op (λ _ o, is_proj_dir o name);
          if bool_decide (dir ≠ Some true) then mret None else
          e ← proveProjectionEntryShape op name index;
          match e with
          | None => mret None
          | Some e => prove_projections op names (acc ++ [e])
          end
      end
  end.

Definition index_le (a b : projectionEntry) : Prop := pe_index a <= pe_index b.
#[local] Instance index_le_dec : RelDecision index_le.
Proof. intros a b. unfold index_le. apply _. Defined.

Definition proveProjectionRuntimeShape (op : string) : proc se_kernel (option (list projectionEntry)) :=
  runtime ← se_look op (λ _ o, os_runtime o);
  match runtime with
  | None | Some (Some runtime_other) => mret None
  | Some None => mret (Some [])
  | Some (Some (runtime_dir _)) =>
      names ← se_look op (λ _ o, sorted (dom (projs o)));
      match names with
      | None => mret None
      | Some names => entries ← prove_projections op names []; mret (merge_sort index_le <$> entries)
      end
  end.

Definition se_cleanupOwnedState (rec : workloadMACRecord) : proc se_kernel bool :=
  entries ← proveProjectionRuntimeShape (wr_OperationID rec);
  match entries with
  | None => mret false
  | Some entries => cleanupOwnedProjections (wr_OperationID rec) entries
  end.

(** [os.RemoveAll] of the runtime directory. *)
Definition any_mount (o : op_state) : bool := negb (bool_decide (os_mounts o = ∅ ∧ os_items o = ∅)).
Definition drop_runtime (o : op_state) : bool * op_state :=
  let o := if existsb (λ name, bool_decide (live o name)) (elements (dom (os_mounts o))) then os_damaged o else o in
  if any_mount o then (false, o) else (true, os_with_workers (orphan <$> os_workers o) (os_with_runtime None o)).
Definition se_drop_runtime (op : string) (k : se_kernel) : bool * se_kernel :=
  let '(ok, o) := drop_runtime (se_ops k !!! op) in (ok, mkSE (<[op := o]> (se_ops k)) (se_io k)).

#[local] Instance workloadSELinuxBackend : workloadMACBackend se_kernel := {
  wb_handle := list projectionEntry;
  wb_backend := LSMSELinux;
  wb_prepare := se_prepare;
  wb_release := se_release;
  wb_validate := se_validateOwnedState;
  wb_cleanup := se_cleanupOwnedState;
  wb_drop_state := λ _ k, k;
  wb_drop_runtime := se_drop_runtime }.
End backend.
