(* ===== verification/WorkloadSelinuxTheory.v ===== *)
(** * WorkloadSelinuxTheory: projections beside other operations

    The state of an operation changes only by its own calls and its own workers,
    so the procedures of one operation are reasoned about on that state alone. *)
From S2P Require Import Prelude Filepath AllowedRoots GoStrings Session Operation Proc Lifecycle RunRequest Run WorkloadMac WorkloadMacTheory WorkloadSelinux.
Local Open Scope Z_scope.

Implicit Types (o : op_state) (k : se_kernel).

(** ** The invariant *)

(** Something of the projection is mounted, or its worker may still mount it. *)
Definition pending o (name : string) : Prop :=
  is_Some (os_mounts o !! name) ∨ is_Some (os_items o !! name) ∨ os_workers o !! name = Some worker_starting.

(** Mounts and starting workers have their places in the runtime tree. *)
Definition op_inv o : Prop :=
  ∀ name, (is_Some (os_mounts o !! name) ∨ os_workers o !! name = Some worker_starting → is_Some (children o name !! "mount")) ∧
          (is_Some (os_items o !! name) → has_item o name = true).
Definition se_inv k : Prop := ∀ op, op_inv (se_ops k !!! op).
Definition se_holds k (op : string) : Prop := ∃ name, pending (se_ops k !!! op) name.
(** The steps of an operation. *)
Definition se_own (op : string) k k' : Prop := se_inv k → se_inv k' ∧ ∀ op', op' ≠ op → se_ops k' !!! op' = se_ops k !!! op'.
Definition se_env (op : string) k k' : Prop := ∃ op', op' ≠ op ∧ se_own op' k k'.

Lemma se_env_inv op k k' : se_inv k → se_env op k k' → se_inv k'.
Proof. intros Hi (op' & _ & Ho). by apply Ho. Qed.

Lemma children_projs o name c : is_Some (children o name !! c) → is_Some (projs o !! name).
Proof. unfold children. destruct (projs o !! name) as [[]|]; [eauto|by intros [? ?]|by intros [? ?]]. Qed.

Lemma has_item_projs o name : has_item o name = true → is_Some (projs o !! name).
Proof. unfold has_item. destruct (children o name !! "lower") eqn:E; [|done]. intros _. apply (children_projs o name "lower"). by rewrite E. Qed.

(** What is pending has its directory. *)
Lemma pending_projs o name : op_inv o → pending o name → is_Some (projs o !! name).
Proof.
  intros Hi [Hm|[Hm|Hm]]; [apply (children_projs o name "mount"), Hi; by left|apply has_item_projs, Hi, Hm|apply (children_projs o name "mount"), Hi; by right].
Qed.

Lemma event_inv o e : op_inv o → op_inv (apply_event o e).
Proof.
  intros Hi. destruct e as [name ctx|name|name]; simpl.
  - case_bool_decide as H; [|done]. destruct H as [Hs Hn]. intros n. destruct (Hi n) as [H1 H2]. split; [|done]. cbn. intros Hm. apply H1.
    destruct (decide (n = name)) as [->|Hne]; [by right|]. by rewrite !lookup_insert_ne in Hm.
  - intros n. destruct (Hi n) as [H1 H2]. split; [|done]. cbn. intros [Hm|Hm]; apply H1; [left|by right].
    destruct (decide (n = name)) as [->|Hne]; [rewrite lookup_delete_eq in Hm; by destruct Hm|by rewrite lookup_delete_ne in Hm].
  - case_bool_decide as H; [|done]. intros n. destruct (Hi n) as [H1 H2]. split; [|done]. cbn. intros [Hm|Hm]; apply H1; [by left|right].
    destruct (decide (n = name)) as [->|Hne]; [by rewrite lookup_insert_eq in Hm|by rewrite lookup_insert_ne in Hm].
Qed.

Lemma events_inv o l : op_inv o → op_inv (foldl apply_event o l).
Proof. revert o. induction l as [|e l IH]; intros o Hi; [done|]. apply IH. by apply event_inv. Qed.

(** ** Calls *)

Lemma ops_put op op' o k l : se_ops (mkSE (<[op := o]> (se_ops k)) l) !!! op' = if decide (op' = op) then o else se_ops k !!! op'.
Proof. cbn [se_ops]. rewrite !lookup_total_alt. destruct (decide (op' = op)) as [->|Hne]; [by rewrite lookup_insert_eq|by rewrite lookup_insert_ne]. Qed.

Lemma put_inv op o k l : se_inv k → op_inv o → se_inv (mkSE (<[op := o]> (se_ops k)) l).
Proof. intros Hi Ho op'. rewrite ops_put. by case_decide. Qed.
Lemma se_put_own op o k l : op_inv o → se_own op k (mkSE (<[op := o]> (se_ops k)) l).
Proof. intros Ho Hi. split; [by apply put_inv|]. intros op' Hne. rewrite ops_put. by case_decide. Qed.

Definition keeps_inv {A} (f : se_answer → op_state → A * op_state) : Prop := ∀ x o, op_inv o → op_inv (f x o).2.

Lemma acts_call {A} op (f : se_answer → op_state → A * op_state) : keeps_inv f → acts (se_own op) (se_call op f).
Proof.
  intros Hf. apply acts_atom. intros k Hi. apply se_put_own; [|done]. apply Hf. by apply events_inv.
Qed.

(** Nothing a worker does on its own invalidates the assertion. *)
Definition calm (P : op_state → Prop) : Prop := ∀ o e, op_inv o → P o → P (apply_event o e).

Definition hoare {A} op (P : op_state → Prop) (m : proc se_kernel A) (Q : A → op_state → Prop) : Prop :=
  rg se_inv (se_env op) (λ k, P (se_ops k !!! op)) m (λ a k, Q a (se_ops k !!! op)).

Lemma stable_op op (P : op_state → Prop) : stable se_inv (se_env op) (λ k, P (se_ops k !!! op)).
Proof. intros k k' Hi Hp (op' & Hne & Ho). destruct (Ho Hi) as [_ E]. by rewrite E. Qed.

Lemma h_call {A} op (f : se_answer → op_state → A * op_state) (P : op_state → Prop) (Q : A → op_state → Prop) :
  calm P → (∀ x o, op_inv o → P o → op_inv (f x o).2 ∧ Q (f x o).1 (f x o).2) → hoare op P (se_call op f) Q.
Proof.
  intros HP Hf. apply rg_atom; [apply se_env_inv|apply stable_op|]. intros k Hi Hp. set (x := default plain_answer (head (se_io k))).
  assert (Hev : ∀ l o, op_inv o → P o → op_inv (foldl apply_event o l) ∧ P (foldl apply_event o l)).
  { clear -HP. induction l as [|e l IH]; intros o Hi Hp; [done|]. apply IH; [by apply event_inv|by apply HP]. }
  destruct (Hev (sa_events x) _ (Hi op) Hp) as [Hi' Hp']. destruct (Hf x _ Hi' Hp') as [H1 H2]. split; [by apply put_inv|]. cbn [fst snd]. by rewrite ops_put, decide_True.
Qed.

Lemma h_bind {A B} op P (m : proc se_kernel A) (f : A → proc se_kernel B) Q T : hoare op P m Q → (∀ a, hoare op (Q a) (f a) T) → hoare op P (m ≫= f) T.
Proof. intros H1 H2. by eapply rg_bind. Qed.
Lemma h_ret {A} op (a : A) (P : op_state → Prop) (Q : A → op_state → Prop) : (∀ o, op_inv o → P o → Q a o) → hoare op P (mret a) Q.
Proof. intros H. apply rg_ret. intros k Hi Hp. by apply H. Qed.
Lemma h_weaken {A} op (P P' : op_state → Prop) (m : proc se_kernel A) (Q Q' : A → op_state → Prop) :
  hoare op P' m Q' → (∀ o, op_inv o → P o → P' o) → (∀ a o, Q' a o → Q a o) → hoare op P m Q.
Proof. intros H H1 H2. eapply rg_weaken; [exact H|intros k Hi; apply H1, Hi|intros a k; apply H2]. Qed.
Lemma h_case {A} op (b : bool) P (m m' : proc se_kernel A) Q :
  (b = true → hoare op P m Q) → (b = false → hoare op P m' Q) → hoare op P (if b then m else m') Q.
Proof. destruct b; auto. Qed.
Lemma h_pure {A} op (F : Prop) (P : op_state → Prop) (m : proc se_kernel A) Q : (∀ o, op_inv o → P o → F) → (F → hoare op P m Q) → hoare op P m Q.
Proof. intros HF Hm k Hi Hp. exact (Hm (HF _ (Hi op) Hp) k Hi Hp). Qed.

(** Steps of the operation keep the invariant, whatever the procedure. *)
Lemma h_acts {A} op (P : op_state → Prop) (m : proc se_kernel A) : acts (se_own op) m → hoare op P m (λ _ _, True).
Proof.
  intros Ha k Hi _. revert k Hi. induction m as [a|f m IH]; intros k Hi; [done|]. intros k' Hr Hi'. destruct (Ha k') as [Hg Hk].
  assert (Hi2 : se_inv (f k')) by by apply Hg. split; [done|]. by apply IH.
Qed.

(** A look. *)
Lemma h_look {A} op (f : se_answer → op_state → A) P (Q : option A → op_state → Prop) :
  calm P → (∀ x o, op_inv o → P o → Q (Some (f x o)) o) → (∀ o, P o → Q None o) → hoare op P (se_look op f) Q.
Proof. intros HP H1 H2. apply h_call; [done|]. intros x o Hi Hp. split; [done|]. simpl. destruct (sa_ok x); auto. Qed.
Lemma h_look_keep {A} op (f : se_answer → op_state → A) P : calm P → hoare op P (se_look op f) (λ _, P).
Proof. intros HP. by apply h_look. Qed.

(** ** The tree under a call *)

Lemma children_insert o name pr n :
  children (set_projs (<[name := pr]> (projs o)) o) n = if decide (n = name) then (match pr with proj_dir cs => cs | proj_other => ∅ end) else children o n.
Proof. unfold children. cbn [projs set_projs os_with_runtime os_runtime]. case_decide as E; [subst; by rewrite lookup_insert_eq|by rewrite lookup_insert_ne]. Qed.
Lemma children_delete o name n : children (set_projs (delete name (projs o)) o) n = if decide (n = name) then ∅ else children o n.
Proof. unfold children. cbn [projs set_projs os_with_runtime os_runtime]. case_decide as E; [subst; by rewrite lookup_delete_eq|by rewrite lookup_delete_ne]. Qed.
Lemma has_item_children o o' n : children o' n = children o n → has_item o' n = has_item o n.
Proof. unfold has_item. by intros ->. Qed.
Lemma children_eq o name cs : projs o !! name = Some (proj_dir cs) → children o name = cs.
Proof. unfold children. by intros ->. Qed.
Lemma children_none o name : (∀ cs, projs o !! name ≠ Some (proj_dir cs)) → children o name = ∅.
Proof. unfold children. intros H. destruct (projs o !! name) as [[cs|]|]; [by destruct (H cs)|done..]. Qed.

(** A change of the tree keeps what is pending in its place. *)
Lemma inv_tree m o :
  op_inv o →
  (∀ n, pending o n → (is_Some (children o n !! "mount") → is_Some (children (set_projs m o) n !! "mount")) ∧
                      (has_item o n = true → has_item (set_projs m o) n = true)) →
  op_inv (set_projs m o).
Proof.
  intros Hi H n. destruct (Hi n) as [H1 H2]. split.
  - intros Hm. apply H; [destruct Hm; [by left|by right; right]|by apply H1].
  - intros Hm. apply H; [by right; left|by apply H2].
Qed.

(** What a call of one projection changes: only its own mounts and workers. *)
Definition confined (name : string) o o' : Prop :=
  (∀ n, n ≠ name → os_mounts o' !! n = os_mounts o !! n ∧ os_workers o' !! n = os_workers o !! n) ∧
  (∀ n, pending o' n → pending o n ∨ n = name) ∧ os_damage o' = os_damage o.
(** It changes no mount and no worker, and drops no directory. *)
Definition builds o o' : Prop :=
  os_mounts o' = os_mounts o ∧ os_workers o' = os_workers o ∧ os_damage o' = os_damage o ∧ (∀ n, is_Some (projs o !! n) → is_Some (projs o' !! n)).

Lemma inv_absent o name : op_inv o → projs o !! name = None → os_mounts o !! name = None ∧ os_items o !! name = None ∧ os_workers o !! name ≠ Some worker_starting.
Proof.
  intros Hi Hn. assert (Hp : ¬ pending o name) by (intros H; apply pending_projs in H as [x Hx]; [congruence|done]).
  unfold pending in Hp. rewrite <-!not_eq_None_Some in Hp. split; [|split]; [destruct (os_mounts o !! name)|destruct (os_items o !! name)|]; naive_solver.
Qed.

Lemma mkdir_proj_spec name x o :
  op_inv o → let '(ok, o') := mkdir_proj_io name x o in
  op_inv o' ∧ builds o o' ∧ os_items o' = os_items o ∧ (ok = true → projs o !! name = None ∧ is_Some (projs o' !! name)).
Proof.
  intros Hi. unfold mkdir_proj_io. destruct (os_runtime o) as [[pm|]|] eqn:Er, (projs o !! name) eqn:Ep, (sa_ok x); try done.
  all: split; [apply inv_tree; [done|]; intros n Hp; unfold has_item; rewrite children_insert; case_decide as E; [subst; by apply pending_projs in Hp as [? ?]; [congruence|]|done]|].
  all: split; [|split; [done|]; intros _; split; [done|]; cbn; rewrite lookup_insert_eq; eauto].
  all: split_and!; try done; intros n Hn; cbn; rewrite lookup_insert_is_Some; destruct (decide (name = n)); auto.
Qed.

Lemma builds_refl o : builds o o.
Proof. by split_and!. Qed.
Lemma builds_insert o name pr : builds o (set_projs (<[name := pr]> (projs o)) o).
Proof. split_and!; try done. intros n Hn. cbn. rewrite lookup_insert_is_Some. destruct (decide (name = n)); auto. Qed.

Lemma mkdir_child_spec name c x o : op_inv o → op_inv (mkdir_child_io name c x o).2 ∧ builds o (mkdir_child_io name c x o).2 ∧ os_items (mkdir_child_io name c x o).2 = os_items o.
Proof.
  intros Hi. unfold mkdir_child_io. destruct (projs o !! name) as [[cs|]|] eqn:Ep; [|by split; [|split; [apply builds_refl|]]..].
  destruct (sa_ok x && bool_decide (cs !! c = None)) eqn:E; [|by split; [|split; [apply builds_refl|]]]. apply andb_true_iff in E as [_ Hc%bool_decide_eq_true].
  split; [|split; [apply builds_insert|done]]. apply inv_tree; [done|]. intros n _. unfold has_item. rewrite children_insert. case_decide as En; [subst n|done].
  rewrite (children_eq o name cs Ep). split.
  - intros Hm. rewrite lookup_insert_is_Some. destruct (decide (c = "mount")); auto.
  - destruct (decide (c = "lower")) as [->|Hne]; [by rewrite Hc|by rewrite lookup_insert_ne].
Qed.

Lemma write_item_spec name x o : op_inv o → op_inv (write_item_io name x o).2 ∧ builds o (write_item_io name x o).2 ∧ os_items (write_item_io name x o).2 = os_items o.
Proof.
  intros Hi. unfold write_item_io. destruct (projs o !! name) as [[cs|]|] eqn:Ep; [|by split; [|split; [apply builds_refl|]]..].
  destruct (cs !! "lower") as [[items|]|] eqn:El; [|by split; [|split; [apply builds_refl|]]..]. destruct (sa_ok x); [|by split; [|split; [apply builds_refl|]]].
  split; [|split; [apply builds_insert|done]]. apply inv_tree; [done|]. intros n _. unfold has_item. rewrite children_insert. case_decide as En; [subst n|done].
  rewrite (children_eq o name cs Ep). split.
  - intros Hm. by rewrite lookup_insert_ne.
  - intros _. rewrite lookup_insert_eq. apply bool_decide_eq_true. rewrite lookup_insert_eq. eauto.
Qed.

Lemma remove_proj_spec name x o :
  op_inv o → op_inv (remove_proj_io name x o).2 ∧ os_mounts (remove_proj_io name x o).2 = os_mounts o ∧ os_items (remove_proj_io name x o).2 = os_items o ∧
    os_workers (remove_proj_io name x o).2 = os_workers o ∧ os_damage (remove_proj_io name x o).2 = os_damage o.
Proof.
  intros Hi. unfold remove_proj_io. destruct (projs o !! name) as [[cs|]|] eqn:Ep; [|done..].
  destruct (sa_ok x && bool_decide (cs = ∅)) eqn:E; [|done]. apply andb_true_iff in E as [_ ->%bool_decide_eq_true]. split; [|done].
  apply inv_tree; [done|]. intros n _. unfold has_item. rewrite children_delete. case_decide as En; [subst n|done].
  rewrite (children_eq o name ∅ Ep), !lookup_empty. split; [by intros [? ?]|done].
Qed.

Lemma mount_bind_spec name source x o :
  op_inv o → op_inv (mount_bind_io name source x o).2 ∧ builds o (mount_bind_io name source x o).2 ∧
    (∀ n, n ≠ name → os_items (mount_bind_io name source x o).2 !! n = os_items o !! n).
Proof.
  intros Hi. unfold mount_bind_io. destruct (sa_ok x && has_item o name) eqn:E; [|by split; [|split; [apply builds_refl|]]]. apply andb_true_iff in E as [_ Hit].
  split; [|split; [by split_and!|intros n Hne; by apply lookup_insert_ne]]. intros n. destruct (Hi n) as [H1 H2]. split; [exact H1|]. cbn.
  destruct (decide (n = name)) as [->|Hne]; [by intros _|by rewrite lookup_insert_ne].
Qed.

Lemma start_worker_spec name x o :
  op_inv o → op_inv (start_worker_io name x o).2 ∧ os_mounts (start_worker_io name x o).2 = os_mounts o ∧ os_items (start_worker_io name x o).2 = os_items o ∧
    (∀ n, n ≠ name → os_workers (start_worker_io name x o).2 !! n = os_workers o !! n) ∧ os_damage (start_worker_io name x o).2 = os_damage o ∧
    (∀ n, is_Some (projs o !! n) → is_Some (projs (start_worker_io name x o).2 !! n)).
Proof.
  intros Hi. unfold start_worker_io. destruct (sa_ok x); [|done]. split; [|split_and!; try done; intros n Hne; by apply lookup_insert_ne].
  intros n. destruct (Hi n) as [H1 H2]. split; [|exact H2]. cbn. intros [Hm|Hm]; [apply H1; by left|].
  destruct (decide (n = name)) as [->|Hne]; [|rewrite lookup_insert_ne in Hm by done; apply H1; by right].
  rewrite lookup_insert_eq in Hm. destruct (has_mount_dir o name) eqn:E; [|done]. by apply bool_decide_eq_true in E.
Qed.

Lemma unmount_spec name sl x o :
  op_inv o → op_inv (unmount_io name sl x o).2 ∧ (∀ n, pending (unmount_io name sl x o).2 n → pending o n) ∧
    os_workers (unmount_io name sl x o).2 = os_workers o ∧ os_damage (unmount_io name sl x o).2 = os_damage o ∧
    (∀ n, os_mounts o !! n = None → os_mounts (unmount_io name sl x o).2 !! n = None).
Proof.
  intros Hi. unfold unmount_io. destruct (sa_ok x), (sa_odd x); try done. destruct sl; simpl.
  - split; [|split_and!; try done].
    + intros n. destruct (Hi n) as [H1 H2]. split; [|done]. cbn. intros [Hm|Hm]; apply H1; [left|by right].
      destruct (decide (n = name)) as [->|Hne]; [rewrite lookup_delete_eq in Hm; by destruct Hm|by rewrite lookup_delete_ne in Hm].
    + intros n [Hm|Hm]; [|by right]. left. cbn in Hm. destruct Hm as [v Hm]. apply lookup_delete_Some in Hm as [_ Hm]. by exists v.
    + intros n Hn. cbn. apply lookup_delete_None. by right.
  - split; [|split_and!; try done].
    + intros n. destruct (Hi n) as [H1 H2]. split; [done|]. cbn. intros [v Hm]. apply lookup_delete_Some in Hm as [_ Hm]. apply H2. by exists v.
    + intros n [Hm|[Hm|Hm]]; [by left| |by right; right]. right. left. cbn in Hm. destruct Hm as [v Hm]. apply lookup_delete_Some in Hm as [_ Hm]. by exists v.
Qed.

Lemma damaged_inv o : op_inv o → op_inv (os_damaged o).
Proof. done. Qed.

Lemma orphan_starting (w : option worker_state) : orphan <$> w ≠ Some worker_starting.
Proof. by destruct w as [[]|]. Qed.

(** Removing a whole projection that nothing is mounted in. *)
Lemma remove_site_spec name o :
  op_inv o → busy o name = false →
  let o' := os_with_workers (alter orphan name (os_workers o)) (set_projs (delete name (projs o)) o) in
  op_inv o' ∧ (∀ n, pending o' n → pending o n) ∧ ¬ pending o' name.
Proof.
  intros Hi Hb. apply bool_decide_eq_false in Hb. cbv zeta.
  assert (Hw : ∀ n, alter orphan name (os_workers o) !! n = Some worker_starting → os_workers o !! n = Some worker_starting ∧ n ≠ name).
  { intros n. destruct (decide (n = name)) as [->|Hne]; [rewrite lookup_alter_eq; intros H; by apply orphan_starting in H|by rewrite lookup_alter_ne]. }
  split; [|split].
  - intros n. destruct (Hi n) as [H1 H2]. unfold has_item, children. cbn. destruct (decide (n = name)) as [->|Hne].
    + rewrite !lookup_delete_eq. split; [|intros Hm; destruct Hb; by right]. intros [Hm|Hm]; [destruct Hb; by left|]. by apply Hw in Hm as [_ ?].
    + rewrite !lookup_delete_ne by done. split; [|exact H2]. intros [Hm|Hm]; apply H1; [by left|right; by apply Hw].
  - intros n [Hm|[Hm|Hm]]; [by left|by right; left|right; right; by apply Hw].
  - intros [Hm|[Hm|Hm]]; [destruct Hb; by left|destruct Hb; by right|]. by apply Hw in Hm as [_ ?].
Qed.

(** A removal that fails keeps what is mounted. *)
Lemma remove_part_spec name (removed : gset string) (cs : gmap string child) o :
  op_inv o → projs o !! name = Some (proj_dir cs) →
  let cs' := filter (λ e, e.1 ∉ removed ∨ mounted_child o name e.1) cs in
  let o' := os_with_workers (if bool_decide (is_Some (cs' !! "mount")) then os_workers o else alter orphan name (os_workers o))
                            (set_projs (<[name := proj_dir cs']> (projs o)) o) in
  op_inv o' ∧ (∀ n, pending o' n → pending o n).
Proof.
  intros Hi Hp. cbv zeta. set (cs' := filter _ cs).
  assert (Hw : ∀ n, os_workers (os_with_workers (if bool_decide (is_Some (cs' !! "mount")) then os_workers o else alter orphan name (os_workers o)) o) !! n = Some worker_starting →
                    os_workers o !! n = Some worker_starting ∧ (n = name → is_Some (cs' !! "mount"))).
  { intros n. cbn. case_bool_decide as Hm; [done|]. destruct (decide (n = name)) as [->|Hne]; [rewrite lookup_alter_eq; intros H; by apply orphan_starting in H|by rewrite lookup_alter_ne]. }
  assert (Hkeep : ∀ c v, cs !! c = Some v → mounted_child o name c → cs' !! c = Some v) by (intros c v Hc Hm; apply map_lookup_filter_Some; split; [done|by right]).
  split.
  - intros n. destruct (Hi n) as [H1 H2]. unfold has_item, children in *. cbn. destruct (decide (n = name)) as [->|Hne].
    + rewrite !lookup_insert_eq, Hp in *. split.
      * intros [Hm|Hm]; [|by apply Hw in Hm as [_ ?]; auto]. destruct H1 as [v Hv]; [by left|]. exists v. apply Hkeep; [done|by left].
      * intros Hm. specialize (H2 Hm). destruct (cs !! "lower") as [v|] eqn:El; [|done]. rewrite (Hkeep _ _ El); [done|by right].
    + rewrite !lookup_insert_ne by done. split; [|exact H2]. intros [Hm|Hm]; apply H1; [by left|right; by apply Hw].
  - intros n [Hm|[Hm|Hm]]; [by left|by right; left|right; right; by apply Hw].
Qed.

Lemma remove_all_spec name x o :
  op_inv o → op_inv (remove_all_io name x o).2 ∧ (∀ n, pending (remove_all_io name x o).2 n → pending o n) ∧
    ((remove_all_io name x o).1 = true → ¬ pending (remove_all_io name x o).2 name).
Proof.
  intros Hi. unfold remove_all_io. set (o1 := if bool_decide (live o name) then os_damaged o else o).
  assert (Hi1 : op_inv o1) by (unfold o1; by case_bool_decide). assert (Hp1 : ∀ n, pending o1 n ↔ pending o n) by (unfold o1; by case_bool_decide).
  destruct (projs o1 !! name) as [pr|] eqn:Ep.
  - destruct (sa_ok x && negb (busy o1 name)) eqn:E.
    + apply andb_true_iff in E as [_ Hb%negb_true_iff]. destruct (remove_site_spec name o1 Hi1 Hb) as (H1 & H2 & H3). split; [done|]. split; [|done].
      intros n Hn. by apply Hp1, H2.
    + destruct pr as [cs|]; [|split; [done|]; split; [intros n Hn; by apply Hp1|done]].
      destruct (remove_part_spec name (sa_removed x) cs o1 Hi1 Ep) as [H1 H2]. split; [done|]. split; [|done]. intros n Hn. by apply Hp1, H2.
  - split; [done|]. split; [intros n Hn; by apply Hp1|]. intros _ Hn. apply pending_projs in Hn as [? ?]; [|done]. cbn [snd] in *. congruence.
Qed.

Lemma remove_all_damage name x o : ¬ live o name → os_damage (remove_all_io name x o).2 = os_damage o.
Proof.
  intros Hl. unfold remove_all_io. rewrite bool_decide_eq_false_2 by done. destruct (projs o !! name) as [[cs|]|]; [|by destruct (_ && _)|done].
  by destruct (_ && _).
Qed.

Lemma drop_runtime_pending o n : pending (drop_runtime o).2 n → pending o n.
Proof.
  unfold drop_runtime. set (o1 := if existsb _ _ then os_damaged o else o).
  assert (Hp1 : ∀ n, pending o1 n ↔ pending o n) by (unfold o1; by destruct (existsb _ _)).
  destruct (any_mount o1) eqn:E; [intros Hn; by apply Hp1|]. apply negb_false_iff, bool_decide_eq_true in E as [E1 E2]. cbn [snd].
  intros [Hm|[Hm|Hm]]; cbn in Hm; [rewrite E1 in Hm; by destruct Hm|rewrite E2 in Hm; by destruct Hm|]. rewrite lookup_fmap in Hm. by apply orphan_starting in Hm.
Qed.
Lemma drop_runtime_inv o : op_inv o → op_inv (drop_runtime o).2.
Proof.
  intros Hi. unfold drop_runtime. set (o1 := if existsb _ _ then os_damaged o else o). assert (Hi1 : op_inv o1) by (unfold o1; by destruct (existsb _ _)).
  destruct (any_mount o1) eqn:E; [done|]. apply negb_false_iff, bool_decide_eq_true in E as [E1 E2]. cbn [snd]. intros n. cbn.
  rewrite E1, E2, !lookup_empty, lookup_fmap. split; [|by intros [? ?]]. intros [[? ?]|Hm]; [done|by apply orphan_starting in Hm].
Qed.
(** Nothing is removed through a live projection when nothing is mounted. *)
Lemma drop_runtime_damage o : (∀ n, ¬ pending o n) → os_damage (drop_runtime o).2 = os_damage o.
Proof.
  intros Hn. unfold drop_runtime. destruct (existsb _ _) eqn:E; [|by destruct (any_mount o)]. apply existsb_exists in E as (n & _ & [Hm _]%bool_decide_eq_true).
  destruct (Hn n). by left.
Qed.

Lemma remove_all_starting name x o n :
  os_workers (remove_all_io name x o).2 !! n = Some worker_starting → os_workers o !! n = Some worker_starting.
Proof.
  assert (Ha : alter orphan name (os_workers o) !! n = Some worker_starting → os_workers o !! n = Some worker_starting).
  { destruct (decide (n = name)) as [->|Hne]; [rewrite lookup_alter_eq; intros H; by apply orphan_starting in H|by rewrite lookup_alter_ne]. }
  unfold remove_all_io. set (o1 := if bool_decide (live o name) then os_damaged o else o). assert (E : os_workers o1 = os_workers o) by (unfold o1; by case_bool_decide).
  destruct (projs o1 !! name) as [[cs|]|]; [| |cbn; by rewrite E]; (destruct (_ && _); [cbn; by rewrite E|]); cbn; [|by rewrite E].
  case_bool_decide; by rewrite E.
Qed.

(** ** Assertions *)

Lemma event_pending o e n : pending (apply_event o e) n → pending o n.
Proof.
  destruct e as [name ctx|name|name]; simpl.
  - case_bool_decide as H; [|done]. destruct H as [Hs Hn]. unfold pending. cbn. destruct (decide (n = name)) as [->|Hne]; [auto|by rewrite !lookup_insert_ne].
  - unfold pending. cbn. intros [[v Hm]|Hm]; [|auto]. apply lookup_delete_Some in Hm as [_ Hm]. left. by exists v.
  - case_bool_decide as H; [|done]. unfold pending. cbn. destruct (decide (n = name)) as [->|Hne]; [rewrite lookup_insert_eq; naive_solver|by rewrite lookup_insert_ne].
Qed.

(** Everything pending is at a name of [L]. *)
Definition within (L : string → Prop) o : Prop := ∀ n, pending o n → L n.
Lemma calm_within L : calm (within L).
Proof. intros o e _ H n Hn. by apply H, (event_pending o e). Qed.
Lemma within_mono (L L' : string → Prop) o : (∀ n, L n → L' n) → within L o → within L' o.
Proof. intros H Hw n Hn. auto. Qed.
Lemma within_le L o o' : (∀ n, pending o' n → pending o n) → within L o → within L o'.
Proof. intros H Hw n Hn. auto. Qed.

(** The projection of a name is served read-only, or its worker is gone. *)
Definition settled o (n : string) : Prop :=
  os_workers o !! n ≠ Some worker_starting ∧ ∀ ctx, os_mounts o !! n = Some ctx → selinuxTypeOf ctx = Some selinuxROProjectionType.
Lemma event_settled o e n : settled o n → settled (apply_event o e) n.
Proof.
  intros [H1 H2]. destruct e as [name ctx|name|name]; simpl.
  - case_bool_decide as H; [|done]. destruct H as [Hs Hn]. destruct (decide (n = name)) as [->|Hne]; [done|]. unfold settled. cbn. by rewrite !lookup_insert_ne.
  - split; [done|]. intros ctx Hc. cbn in Hc. apply lookup_delete_Some in Hc as [_ Hc]. by apply H2.
  - case_bool_decide as H; [|done]. split; [|done]. cbn. destruct (decide (n = name)) as [->|Hne]; [by rewrite lookup_insert_eq|by rewrite lookup_insert_ne].
Qed.
Lemma event_projs o e : projs (apply_event o e) = projs o.
Proof. destruct e; simpl; by try case_bool_decide. Qed.

Lemma calm_and P P' : calm P → calm P' → calm (λ o, P o ∧ P' o).
Proof. intros H1 H2 o e Hi [? ?]. split; [by apply H1|by apply H2]. Qed.
Lemma calm_const (F : Prop) : calm (λ _, F).
Proof. by intros o e _ H. Qed.

Section procedures.
Context (lstat : string → option source_kind) (runtimeDir : string → string) (visible : string → bool) (polls : nat) (own_context : string).

Lemma keeps_look {A} (f : se_answer → op_state → A) : keeps_inv (λ x o, (if sa_ok x then Some (f x o) else None, o)).
Proof. by intros x o. Qed.
Lemma acts_se_look {A} op (f : se_answer → op_state → A) : acts (se_own op) (se_look op f).
Proof. apply acts_call, keeps_look. Qed.

Lemma acts_prove_unmount op name sl : acts (se_own op) (proveUnmountOwnedMount visible op name sl).
Proof.
  apply acts_bind; [apply acts_se_look|]. intros [[]|]; [|apply acts_ret..]. apply acts_bind; [apply acts_call; intros x o Hi; by apply unmount_spec|].
  intros ok. apply acts_case; [apply acts_ret|]. apply acts_bind; [apply acts_se_look|]. intros; apply acts_ret.
Qed.

Lemma acts_cleanup_entry op e : acts (se_own op) (cleanupOwnedProjectionEntry visible op e).
Proof.
  apply acts_bind; [apply acts_prove_unmount|]. intros ok1. apply acts_case; [apply acts_ret|].
  apply acts_bind; [apply acts_case; [apply acts_call; by intros x o|apply acts_ret]|]. intros ok2. apply acts_case; [apply acts_ret|].
  apply acts_bind; [apply acts_case; [apply acts_prove_unmount|apply acts_ret]|]. intros ok3. apply acts_case; [apply acts_ret|].
  apply acts_call. intros x o Hi. by apply remove_all_spec.
Qed.

Lemma acts_all_steps {S} (G : S → S → Prop) (l : list (proc S bool)) : Forall (acts G) l → acts G (all_of l).
Proof. induction 1 as [|m l Hm _ IH]; [apply acts_ret|]. cbn [all_of]. apply acts_bind; [done|]. intros []; [done|apply acts_ret]. Qed.

Lemma acts_cleanup_projections op l : acts (se_own op) (cleanupOwnedProjections visible op l).
Proof. apply acts_all_steps. rewrite Forall_fmap. apply Forall_forall. intros e _. apply acts_cleanup_entry. Qed.

(** ** Release *)

Lemma h_prove_unmount op name sl L : hoare op (within L) (proveUnmountOwnedMount visible op name sl) (λ _, within L).
Proof.
  eapply h_bind; [apply h_look_keep, calm_within|]. intros [[]|]; [|by apply h_ret..].
  eapply h_bind; [apply (h_call op _ (within L) (λ _, within L)); [apply calm_within|]|].
  - intros x o Hi Hw. destruct (unmount_spec name sl x o Hi) as (H1 & H2 & _). split; [done|]. by apply (within_le L o).
  - intros ok. apply h_case; intros _; [by apply h_ret|]. eapply h_bind; [apply h_look_keep, calm_within|]. intros; by apply h_ret.
Qed.

(** A projection released with success has nothing pending. *)
Lemma h_cleanup_entry op e L :
  hoare op (within L) (cleanupOwnedProjectionEntry visible op e) (λ ok, within (if ok then λ n, L n ∧ n ≠ pe_name e else L)).
Proof.
  eapply h_bind; [apply (h_prove_unmount op (pe_name e) slot_projection L)|]. intros ok1. apply h_case; intros _; [by apply h_ret|].
  apply (h_bind op _ _ _ (λ _, within L)); [apply h_case; intros _; [apply h_call; [apply calm_within|done]|by apply h_ret]|].
  intros ok2. apply h_case; intros _; [by apply h_ret|].
  apply (h_bind op _ _ _ (λ _, within L)); [apply h_case; intros _; [apply h_prove_unmount|by apply h_ret]|]. intros ok3. apply h_case; intros _; [by apply h_ret|].
  apply h_call; [apply calm_within|]. intros x o Hi Hw. destruct (remove_all_spec (pe_name e) x o Hi) as (H1 & H2 & H3). split; [done|].
  pose proof (within_le L o _ H2 Hw) as Hw'. destruct (remove_all_io (pe_name e) x o).1; [|done]. intros n Hn. split; [by apply Hw'|]. intros ->. by apply H3.
Qed.

Lemma h_cleanup_all op l L :
  hoare op (within L) (all_of (cleanupOwnedProjectionEntry visible op <$> l)) (λ ok, within (if ok then λ n, L n ∧ n ∉ pe_name <$> l else L)).
Proof.
  revert L. induction l as [|e l IH]; intros L; [apply h_ret; intros o _ Hw; apply (within_mono L); [|done]; intros n Hn; split; [done|apply not_elem_of_nil]|].
  cbn [fmap list_fmap all_of]. eapply h_bind; [apply h_cleanup_entry|]. intros [|].
  - eapply h_weaken; [apply IH|done|]. intros [] o; apply within_mono; [|naive_solver]. intros n [[Hn Hne] Hl]. split; [done|]. by apply not_elem_of_cons.
  - apply h_ret. intros o _ Hw. exact Hw.
Qed.

Lemma h_cleanup_projections op l L :
  hoare op (within L) (cleanupOwnedProjections visible op l) (λ ok, within (if ok then λ n, L n ∧ n ∉ pe_name <$> l else L)).
Proof.
  eapply h_weaken; [apply h_cleanup_all|done|]. intros [] o; [|done]. apply within_mono. intros n [Hn Hl]. split; [done|]. intros Hin. apply Hl.
  rewrite fmap_reverse. by apply elem_of_reverse.
Qed.

(** ** The shape of the runtime state *)

Lemma acts_prove_lower op name items seen : acts (se_own op) (prove_lower op name items seen).
Proof.
  revert seen. induction items as [|i items IH]; intros seen; [apply acts_ret|]. cbn [prove_lower]. apply acts_case; [apply acts_ret|].
  apply acts_bind; [apply acts_se_look|]. intros r. apply acts_case; [apply IH|apply acts_ret].
Qed.
Lemma acts_prove_children op name cs lower : acts (se_own op) (prove_children op name cs lower).
Proof.
  revert lower. induction cs as [|c cs IH]; intros lower; [apply acts_ret|]. cbn [prove_children]. apply acts_case; [|apply acts_ret].
  apply acts_bind; [apply acts_se_look|]. intros dir. apply acts_case; [apply acts_ret|]. apply acts_case; [apply IH|].
  apply acts_bind; [apply acts_se_look|]. intros [items|]; [|apply acts_ret]. apply acts_bind; [apply acts_prove_lower|]. intros [s|]; [apply IH|apply acts_ret].
Qed.
Lemma acts_entry_shape op name index : acts (se_own op) (proveProjectionEntryShape op name index).
Proof.
  apply acts_bind; [apply acts_se_look|]. intros [cs|]; [|apply acts_ret]. apply acts_bind; [apply acts_prove_children|]. intros; apply acts_ret.
Qed.
Lemma acts_prove_projections op names acc : acts (se_own op) (prove_projections op names acc).
Proof.
  revert acc. induction names as [|name names IH]; intros acc; [apply acts_ret|]. cbn [prove_projections].
  destruct (parseProjectionDirName name); [|apply acts_ret]. apply acts_bind; [apply acts_se_look|]. intros dir. apply acts_case; [apply acts_ret|].
  apply acts_bind; [apply acts_entry_shape|]. intros [e|]; [apply IH|apply acts_ret].
Qed.
Lemma acts_runtime_shape op : acts (se_own op) (proveProjectionRuntimeShape op).
Proof.
  apply acts_bind; [apply acts_se_look|]. intros [[[pm|]|]|]; try apply acts_ret. apply acts_bind; [apply acts_se_look|].
  intros [names|]; [|apply acts_ret]. apply acts_bind; [apply acts_prove_projections|]. intros; apply acts_ret.
Qed.
Lemma acts_se_cleanup rec : acts (se_own (wr_OperationID rec)) (se_cleanupOwnedState visible rec).
Proof. apply acts_bind; [apply acts_runtime_shape|]. intros [es|]; [apply acts_cleanup_projections|apply acts_ret]. Qed.

Lemma h_prove_lower op name items seen P : calm P → hoare op P (prove_lower op name items seen) (λ _, P).
Proof.
  intros HP. revert seen. induction items as [|i items IH]; intros seen; [by apply h_ret|]. cbn [prove_lower]. apply h_case; intros _; [by apply h_ret|].
  eapply h_bind; [by apply h_look_keep|]. intros r. apply h_case; intros _; [apply IH|by apply h_ret].
Qed.
Lemma h_prove_children op name cs lower P : calm P → hoare op P (prove_children op name cs lower) (λ _, P).
Proof.
  intros HP. revert lower. induction cs as [|c cs IH]; intros lower; [by apply h_ret|]. cbn [prove_children]. apply h_case; intros _; [|by apply h_ret].
  eapply h_bind; [by apply h_look_keep|]. intros dir. apply h_case; intros _; [by apply h_ret|]. apply h_case; intros _; [apply IH|].
  eapply h_bind; [by apply h_look_keep|]. intros [items|]; [|by apply h_ret]. eapply h_bind; [by apply h_prove_lower|]. intros [s|]; [apply IH|by apply h_ret].
Qed.
Lemma h_entry_shape op name index P :
  calm P → hoare op P (proveProjectionEntryShape op name index) (λ r o, P o ∧ ∀ e, r = Some e → pe_name e = name ∧ pe_index e = index ∧ pe_worker e = false).
Proof.
  intros HP. eapply h_bind; [by apply h_look_keep|]. intros [cs|]; [|by apply h_ret]. eapply h_bind; [by apply h_prove_children|].
  intros [lower|]; apply h_ret; intros o _ Hp; (split; [done|]); [by intros e [= <-]|done].
Qed.

(** The entries are those of the names, each without a worker's handle. *)
Lemma h_prove_projections op names acc P :
  calm P → Forall (λ e, pe_worker e = false) acc →
  hoare op P (prove_projections op names acc) (λ r o, P o ∧ ∀ es, r = Some es → pe_name <$> es = (pe_name <$> acc) ++ names ∧ Forall (λ e, pe_worker e = false) es).
Proof.
  intros HP. revert acc. induction names as [|name names IH]; intros acc Hacc; [apply h_ret; intros o _ Hp; split; [done|]; intros es [= <-]; by rewrite app_nil_r|].
  cbn [prove_projections]. destruct (parseProjectionDirName name) as [index|]; [|by apply h_ret].
  eapply h_bind; [by apply h_look_keep|]. intros dir. apply h_case; intros _; [by apply h_ret|].
  eapply h_bind; [by apply h_entry_shape|]. intros [e|]; [|apply h_ret; intros o _ [Hp _]; by split].
  apply (h_pure op (pe_name e = name ∧ pe_worker e = false)); [intros o _ [_ He]; by destruct (He e eq_refl) as (? & _ & ?)|]. intros [Hn Hw].
  eapply h_weaken; [apply (IH (acc ++ [e])); apply Forall_app; split; [done|by constructor]|by intros o _ [? _]|].
  intros r o [Hp H]. split; [done|]. intros es Hes. destruct (H es Hes) as [E Hf]. split; [|done]. by rewrite E, fmap_app, <-app_assoc, <-Hn.
Qed.

(** Whatever is pending is among the entries found. *)
Lemma h_runtime_shape op P :
  calm P →
  hoare op P (proveProjectionRuntimeShape op)
    (λ r o, P o ∧ ∀ es, r = Some es → within (λ n, n ∈ pe_name <$> es) o ∧ Forall (λ e, pe_worker e = false) es).
Proof.
  intros HP. unfold proveProjectionRuntimeShape.
  apply (h_bind op _ _ _ (λ r o, P o ∧ (r = Some None → within (λ _, False) o))).
  { apply h_look; [done| |by intros o Hp]. intros x o Hi Hp. split; [done|]. intros [= Hr] n Hn. apply pending_projs in Hn as [pr Hpr]; [|done].
    unfold projs in Hpr. by rewrite Hr in Hpr. }
  intros [[[pm|]|]|]; try by (apply h_ret; intros o _ [Hp _]).
  - apply (h_weaken op _ P _ _ (λ r o, P o ∧ ∀ es, r = Some es → within (λ n, n ∈ pe_name <$> es) o ∧ Forall (λ e, pe_worker e = false) es)); [|by intros o _ [? _]|done].
    apply (h_bind op _ _ _ (λ r o, P o ∧ ∀ names, r = Some names → within (λ n, n ∈ names) o)).
    { apply h_look; [done| |by intros o Hp]. intros x o Hi Hp. split; [done|]. intros names [= <-] n Hn. apply pending_projs in Hn as [pr Hpr]; [|done].
      apply sorted_elem, elem_of_dom. by exists pr. }
    intros [names|]; [|apply h_ret; intros o _ [Hp _]; by split].
    eapply h_bind; [eapply h_weaken; [apply (h_prove_projections op names [] (λ o, P o ∧ within (λ n, n ∈ names) o))|intros o _ [Hp H]; split; [done|by apply H]|done];
      [apply calm_and; [done|apply calm_within]|constructor]|].
    intros [es|]; apply h_ret; intros o _ [[Hp Hw] H]; (split; [done|]); [|done]. intros es' [= <-]. destruct (H es eq_refl) as [E Hf]. split.
    + apply (within_mono (λ n, n ∈ names)); [|done]. intros n Hn. rewrite (merge_sort_Permutation index_le es), E. done.
    + by rewrite (merge_sort_Permutation index_le es).
  - apply h_ret. intros o _ [Hp H]. split; [done|]. intros es [= <-]. split; [|constructor]. apply (within_mono (λ _, False)); [done|by apply H].
Qed.

Lemma h_se_cleanup rec P : calm P → hoare (wr_OperationID rec) P (se_cleanupOwnedState visible rec) (λ ok o, ok = true → within (λ _, False) o).
Proof.
  intros HP. eapply h_bind; [by apply h_runtime_shape|]. intros [es|]; [|by apply h_ret].
  eapply h_weaken; [apply h_cleanup_projections|intros o _ [_ H]; by apply H|]. intros [] o; [|done]. intros Hw _. eapply within_mono; [|exact Hw]. naive_solver.
Qed.
End procedures.
