(* ===== verification/WorkloadSelinuxSpec.v ===== *)
(** * WorkloadSelinuxSpec: what the SELinux backend guarantees

    A preparation exposes read-only paths through projections of the read-only
    type only; a release or cleanup that succeeds leaves no mount; and no removal
    ever reaches through a live projection into its source. *)
From S2P Require Import Prelude Filepath AllowedRoots GoStrings Session Operation Proc Lifecycle RunRequest Run WorkloadMac WorkloadMacTheory WorkloadMacSpec WorkloadSelinux WorkloadSelinuxTheory.
Local Open Scope Z_scope.

Implicit Types (o : op_state) (k : se_kernel).

Section spec.
Context (lstat : string → option source_kind) (runtimeDir : string → string) (visible : string → bool) (polls : nat) (own_context : string).
(** A directory the helper made has no projection type: the type is dedicated to
    the projections. *)
Context (Hown : selinuxTypeOf own_context ≠ Some selinuxROProjectionType).

(** ** Steps of a preparation *)

(** All that is pending is at [L]; the names of [S] are settled. *)
Definition good (L : string → Prop) (S : list string) o : Prop :=
  within L o ∧ ∀ n, n ∈ S → settled o n ∧ is_Some (projs o !! n).
Lemma calm_good L S : calm (good L S).
Proof.
  intros o e Hi [Hw Hs]. split; [by apply calm_within|]. intros n Hn. destruct (Hs n Hn). rewrite event_projs. split; [by apply event_settled|done].
Qed.
Definition under_way (L : string → Prop) (S : list string) (name : string) o : Prop :=
  good (λ n, L n ∨ n = name) S o ∧ is_Some (projs o !! name).
Lemma calm_under_way L S name : calm (under_way L S name).
Proof. intros o e Hi [Hg Hp]. split; [by apply calm_good|by rewrite event_projs]. Qed.

Lemma good_builds L S name o o' :
  builds o o' → (∀ n, n ≠ name → os_items o' !! n = os_items o !! n) → good L S o → good (λ n, L n ∨ n = name) S o'.
Proof.
  intros (E1 & E2 & E3 & E4) Hit [Hw Hs]. split.
  - intros n Hn. destruct (decide (n = name)) as [->|Hne]; [by right|left]. apply Hw. destruct Hn as [Hn|[Hn|Hn]]; [left; by rewrite <-E1|right; left; by rewrite <-Hit|right; right; by rewrite <-E2].
  - intros n Hn. destruct (Hs n Hn) as [H1 H2]. split; [|by apply E4]. unfold settled in *. by rewrite E1, E2.
Qed.
Lemma under_way_builds L S name o o' :
  builds o o' → (∀ n, n ≠ name → os_items o' !! n = os_items o !! n) → under_way L S name o → under_way L S name o'.
Proof.
  intros Hb Hit [Hg Hp]. split; [|by apply Hb]. destruct (good_builds _ _ name _ _ Hb Hit Hg) as [Hw Hs]. split; [|done].
  apply (within_mono _ _ _) with (2 := Hw). naive_solver.
Qed.

(** A call that only builds the tree of its projection. *)
Lemma h_build op name (f : se_answer → op_state → bool * op_state) L S :
  (∀ x o, op_inv o → op_inv (f x o).2 ∧ builds o (f x o).2 ∧ ∀ n, n ≠ name → os_items (f x o).2 !! n = os_items o !! n) →
  hoare op (under_way L S name) (se_call op f) (λ _, under_way L S name).
Proof.
  intros Hf. apply h_call; [apply calm_under_way|]. intros x o Hi Hu. destruct (Hf x o Hi) as (H1 & H2 & H3). split; [done|]. by apply (under_way_builds L S name o).
Qed.

Lemma h_await_mount op e n P : calm P → hoare op P (await_mount visible op e n) (λ _, P).
Proof.
  intros HP. induction n as [|n IH]; cbn [await_mount].
  all: eapply h_bind; [by apply h_look_keep|]; intros [[]|]; try by apply h_ret.
  all: eapply h_bind; [by apply (h_call op _ P (λ _, P))|]; intros alive; apply h_case; intros _; [|apply IH].
  all: eapply h_bind; [by apply (h_call op _ P (λ _, P))|]; intros; by apply h_ret.
Qed.

(** What is proven ready is settled. *)
Lemma h_await_ready op e P :
  calm P → hoare op P (awaitProjectionReady visible polls own_context op e) (λ ok o, P o ∧ (ok = true → settled o (pe_name e))).
Proof.
  intros HP. eapply h_bind; [by apply h_await_mount|]. intros mounted. apply h_case; intros _; [by apply h_ret|].
  eapply h_bind; [by apply (h_call op _ P (λ _, P))|]. intros alive. apply h_case; intros _; [by apply h_ret|].
  apply (h_bind op _ _ _ (λ v o, P o ∧ (v ≫= selinuxTypeOf = Some selinuxROProjectionType → settled o (pe_name e)))).
  - apply h_call; [done|]. intros x o Hi Hp. split; [done|]. split; [done|]. unfold label_io. cbn [fst snd]. destruct (sa_ok x); [|done].
    destruct (os_mounts o !! pe_name e) as [ctx|] eqn:E.
    + case_bool_decide as Hw; [|done]. cbn. intros Ht. split; [by rewrite Hw|]. intros ctx' Hc. rewrite E in Hc. by injection Hc as <-.
    + by destruct (pe_regular e).
  - intros v. apply h_ret. intros o _ [Hp Hs]. split; [done|]. intros Hv%bool_decide_eq_true. by apply Hs.
Qed.

(** ** Guarantees of the procedures *)

Lemma keeps_own {A} (f : se_answer → op_state → A) : keeps_inv (λ x o, (f x o, o)).
Proof. by intros x o. Qed.

Lemma acts_await_ready op e : acts (se_own op) (awaitProjectionReady visible polls own_context op e).
Proof.
  apply acts_bind.
  - induction polls as [|n IH]; cbn [await_mount]; (apply acts_bind; [apply acts_se_look|]; intros [[]|]; try apply acts_ret).
    all: apply acts_bind; [apply acts_call, keeps_own|]; intros; apply acts_case; [apply acts_bind; [apply acts_call, keeps_own|]; intros; apply acts_ret|apply IH].
  - intros mounted. apply acts_case; [apply acts_ret|]. apply acts_bind; [apply acts_call, keeps_own|]. intros alive. apply acts_case; [apply acts_ret|].
    apply acts_bind; [apply acts_call, keeps_own|]. intros; apply acts_ret.
Qed.
Lemma acts_roll_back op e : acts (se_own op) (roll_back visible op e).
Proof. apply acts_bind; [apply acts_cleanup_entry|]. intros; apply acts_ret. Qed.
Lemma acts_start op e : acts (se_own op) (start_projection visible polls own_context op e).
Proof.
  apply acts_bind; [apply acts_call; intros x o Hi; by apply start_worker_spec|]. intros started. apply acts_case; [apply acts_roll_back|].
  apply acts_bind; [apply acts_await_ready|]. intros ready. apply acts_case; [apply acts_roll_back|apply acts_ret].
Qed.
Lemma acts_give_up op name : acts (se_own op) (_ ← se_call op (remove_all_io name); mret projection_failed).
Proof. apply acts_bind; [apply acts_call; intros x o Hi; by apply remove_all_spec|]. intros; apply acts_ret. Qed.
Lemma acts_prepareProjection op source index : acts (se_own op) (prepareProjection lstat runtimeDir visible polls own_context op source index).
Proof.
  unfold prepareProjection. destruct (lstat source) as [kind|]; [|apply acts_ret]. cbv zeta.
  apply acts_bind; [apply acts_call; intros x o Hi; pose proof (mkdir_proj_spec (projection_name index) x o Hi) as H; destruct (mkdir_proj_io (projection_name index) x o); by destruct H|].
  intros ok1. apply acts_case; [apply acts_ret|]. apply acts_bind; [apply acts_call; intros x o Hi; by apply mkdir_child_spec|].
  intros ok2. apply acts_case; [apply acts_bind; [apply acts_call; intros x o Hi; by apply remove_proj_spec|]; intros; apply acts_ret|].
  destruct kind; [apply acts_start| |apply acts_give_up].
  apply acts_bind; [apply acts_call; intros x o Hi; by apply mkdir_child_spec|]. intros ok3. apply acts_case; [apply acts_give_up|].
  apply acts_bind; [apply acts_call; intros x o Hi; by apply write_item_spec|]. intros ok4. apply acts_case; [apply acts_give_up|].
  apply acts_bind; [apply acts_call; intros x o Hi; by apply mount_bind_spec|]. intros ok5. apply acts_case; [apply acts_give_up|apply acts_start].
Qed.
Lemma acts_prepare_from op index exposures pins projections sources :
  acts (se_own op) (prepare_from lstat runtimeDir visible polls own_context op index exposures pins projections sources).
Proof.
  revert index pins projections sources. induction exposures as [|e exposures IH]; intros index pins projections sources; cbn [prepare_from]; [apply acts_ret|].
  destruct pins as [|pin pins]; [apply acts_ret|]. apply acts_case; [apply IH|]. apply acts_bind; [apply acts_prepareProjection|].
  intros [entry| |]; [apply IH|..]; (apply acts_bind; [apply acts_cleanup_projections|]; intros; apply acts_ret).
Qed.
Lemma acts_se_prepare p : acts (se_own (wp_OperationID p)) (se_prepare lstat runtimeDir visible polls own_context p).
Proof.
  apply acts_bind; [apply acts_bind; [apply acts_call, keeps_own|]; intros []; [apply acts_call, keeps_own|apply acts_ret]|].
  intros ok. apply acts_case; [apply acts_ret|apply acts_prepare_from].
Qed.

(** ** Preparation *)

(** The projection of a source at its index: a read-only exposure is handed to
    Docker as the projection, never as the source. *)
Definition projected (op source : string) (index : Z) (e : projectionEntry) : Prop :=
  pe_name e = projection_name index ∧ pe_worker e = true ∧
  lstat source = Some (if pe_regular e then src_regular else src_directory) ∧
  pe_dockerSource e = if pe_regular e then Join [mount_dir runtimeDir op (pe_name e); "item"] else mount_dir runtimeDir op (pe_name e).
Fixpoint materialized (op : string) (index : Z) (exposures : list sessionFilesystemExposure) (pins : list string)
    (handle : list projectionEntry) (sources : list string) : Prop :=
  match exposures, pins, sources with
  | [], _, [] => handle = []
  | e :: exposures, pin :: pins, source :: sources =>
      if RequestedReadOnly e then
        match handle with
        | entry :: handle => projected op pin index entry ∧ source = pe_dockerSource entry ∧ materialized op (index + 1) exposures pins handle sources
        | [] => False
        end
      else source = pin ∧ materialized op (index + 1) exposures pins handle sources
  | _, _, _ => False
  end.

(** The projections so far hold all that is pending, each settled. *)
Definition held (l : list projectionEntry) o : Prop := good (λ n, n ∈ pe_name <$> l) (pe_name <$> l) o.

Lemma h_not_ready op e P (Q : projectionEntry → op_state → Prop) :
  hoare op P (roll_back visible op e) (λ a o, match a with projection_ready e' => Q e' o | _ => True end).
Proof. eapply h_bind; [apply h_acts, acts_cleanup_entry|]. intros ok. apply h_ret. intros o _ _. by destruct ok. Qed.
Lemma h_give_up op name P (Q : projectionEntry → op_state → Prop) :
  hoare op P (_ ← se_call op (remove_all_io name); mret projection_failed) (λ a o, match a with projection_ready e' => Q e' o | _ => True end).
Proof. eapply h_bind; [apply h_acts, acts_call; intros x o Hi; by apply remove_all_spec|]. intros ok. by apply h_ret. Qed.

Definition with_worker (e : projectionEntry) : projectionEntry := mkEntryP (pe_index e) (pe_name e) (pe_regular e) (pe_lower e) (pe_dockerSource e) true.

Lemma h_start op e L S :
  pe_name e ∉ S →
  hoare op (under_way L S (pe_name e)) (start_projection visible polls own_context op e)
    (λ a o, match a with projection_ready e' => e' = with_worker e ∧ good (λ n, L n ∨ n = pe_name e) (S ++ [pe_name e]) o | _ => True end).
Proof.
  intros HS. unfold start_projection. apply (h_bind op _ _ _ (λ _, under_way L S (pe_name e))).
  { apply h_call; [apply calm_under_way|]. intros x o Hi [[Hw Hs] Hp]. destruct (start_worker_spec (pe_name e) x o Hi) as (H1 & E1 & E2 & E3 & _ & H4).
    split; [done|]. split; [|by apply H4]. split.
    - intros n Hn. destruct (decide (n = pe_name e)) as [->|Hne]; [by right|]. apply Hw. unfold pending in *. by rewrite E1, E2, E3 in Hn.
    - intros n Hn. destruct (Hs n Hn) as [Hset Hpn]. split; [|by apply H4]. unfold settled in *. rewrite E1, E3; [done|]. by intros ->. }
  intros started. apply h_case; intros _; [apply h_not_ready|]. fold (with_worker e).
  eapply h_bind; [apply h_await_ready, calm_under_way|]. intros ready. apply h_case; intros Hr; [apply h_not_ready|]. apply negb_false_iff in Hr as ->.
  apply h_ret. intros o _ [[[Hw Hs] Hp] Hset]. split; [done|]. split; [done|]. intros n [Hn|Hn]%elem_of_app; [by apply Hs|].
  apply list_elem_of_singleton in Hn as ->. split; [by apply Hset|done].
Qed.

Lemma h_prepareProjection op source index L S :
  hoare op (good L S) (prepareProjection lstat runtimeDir visible polls own_context op source index)
    (λ a o, match a with projection_ready e => projected op source index e ∧ good (λ n, L n ∨ n = pe_name e) (S ++ [pe_name e]) o | _ => True end).
Proof.
  unfold prepareProjection. destruct (lstat source) as [kind|] eqn:El; [|by apply h_ret]. cbv zeta. set (name := projection_name index).
  apply (h_bind op _ _ _ (λ ok o, good L S o ∧ (ok = true → name ∉ S ∧ under_way L S name o))).
  { apply h_call; [apply calm_good|]. intros x o Hi Hg. pose proof (mkdir_proj_spec name x o Hi) as H. destruct (mkdir_proj_io name x o) as [ok o'] eqn:E.
    destruct H as (H1 & Hb & H2 & H3). split; [done|]. cbn [fst snd]. assert (Hit : ∀ n, n ≠ name → os_items o' !! n = os_items o !! n) by (intros; by rewrite H2).
    pose proof (good_builds L S name o o' Hb Hit Hg) as Hg'. split.
    - destruct Hg as [Hw Hs], Hg' as [Hw' Hs']. split; [|done]. intros n Hn. apply Hw. destruct Hb as (E1 & E2 & _). unfold pending in *. by rewrite E1, E2, H2 in Hn.
    - intros Hok. destruct (H3 Hok) as [Hnone Hsome]. split; [|by split]. intros Hn. destruct Hg as [_ Hs]. destruct (Hs name Hn) as [_ [? ?]]. congruence. }
  intros ok1. apply h_case; intros H1; [by apply h_ret|]. apply negb_false_iff in H1 as ->.
  apply (h_pure op (name ∉ S)); [intros o _ [_ H]; by apply H|]. intros HS.
  apply (h_weaken op _ (under_way L S name) _ _ (λ a o, match a with projection_ready e => projected op source index e ∧ good (λ n, L n ∨ n = pe_name e) (S ++ [pe_name e]) o | _ => True end));
    [|intros o _ [_ H]; by apply H|done].
  assert (Hdir : ∀ c, hoare op (under_way L S name) (se_call op (mkdir_child_io name c)) (λ _, under_way L S name)).
  { intros c. apply h_build. intros x o Hi. destruct (mkdir_child_spec name c x o Hi) as (? & ? & E). split; [done|]. split; [done|]. intros; by rewrite E. }
  assert (Hstart : ∀ e, pe_name e = name → projected op source index (with_worker e) →
    hoare op (under_way L S name) (start_projection visible polls own_context op e)
      (λ a o, match a with projection_ready e => projected op source index e ∧ good (λ n, L n ∨ n = pe_name e) (S ++ [pe_name e]) o | _ => True end)).
  { intros e En Hpr. rewrite <-En. eapply h_weaken; [apply h_start; by rewrite En|done|]. intros [e'| |] o; [|done..]. intros [-> Hg]. split; [done|exact Hg]. }
  eapply h_bind; [apply Hdir|]. intros ok2. apply h_case; intros _.
  { eapply h_bind; [apply h_acts, acts_call; intros x o Hi; by apply remove_proj_spec|]. intros; by apply h_ret. }
  destruct kind; [by apply Hstart| |apply h_give_up].
  eapply h_bind; [apply Hdir|]. intros ok3. apply h_case; intros _; [apply h_give_up|].
  apply (h_bind op _ _ _ (λ _, under_way L S name)).
  { apply h_build. intros x o Hi. destruct (write_item_spec name x o Hi) as (? & ? & E). split; [done|]. split; [done|]. intros; by rewrite E. }
  intros ok4. apply h_case; intros _; [apply h_give_up|]. apply (h_bind op _ _ _ (λ _, under_way L S name)).
  { apply h_build. intros x o Hi. destruct (mount_bind_spec name source x o Hi) as (? & ? & E). by split. }
  intros ok5. apply h_case; intros _; [apply h_give_up|by apply Hstart].
Qed.

Lemma h_prepare_from op index exposures pins projections sources :
  hoare op (held projections) (prepare_from lstat runtimeDir visible polls own_context op index exposures pins projections sources)
    (λ a o, match a with
     | backend_prepared prepared handle =>
         pm_SecurityOpts prepared = ["label=type:docker_helper_container_t"] ∧ held handle o ∧
         ∃ h ns, handle = projections ++ h ∧ pm_MountSources prepared = sources ++ ns ∧ materialized op index exposures pins h ns
     | _ => True
     end).
Proof.
  revert index pins projections sources. induction exposures as [|e exposures IH]; intros index pins projections sources; cbn [prepare_from].
  { apply h_ret. intros o _ Hh. split; [done|]. split; [done|]. exists [], []. by rewrite !app_nil_r. }
  destruct pins as [|pin pins]; [by apply h_ret|]. apply h_case; intros Hro.
  - apply negb_true_iff in Hro. eapply h_weaken; [apply IH|done|]. intros [prepared handle| |] o; [|done..].
    intros (H1 & H2 & h & ns & -> & E & Hm). split; [done|]. split; [done|]. exists h, (pin :: ns). rewrite E, <-app_assoc. split; [done|]. split; [done|].
    cbn [materialized]. by rewrite Hro.
  - apply negb_false_iff in Hro. eapply h_bind; [apply h_prepareProjection|]. intros [entry| |].
    + apply (h_pure op (projected op pin index entry)); [by intros o _ [? _]|]. intros Hpr. eapply h_weaken; [apply (IH (index + 1) pins (projections ++ [entry]))| |].
      * intros o _ [_ [Hw Hs]]. unfold held. rewrite fmap_app. split; [|done]. apply (within_mono _ _ _) with (2 := Hw). intros n [Hn| ->]; set_solver.
      * intros [prepared handle| |] o; [|done..]. intros (H1 & H2 & h & ns & -> & E & Hm). split; [done|]. split; [done|].
        exists (entry :: h), (pe_dockerSource entry :: ns). rewrite E, <-!app_assoc. split; [done|]. split; [done|]. cbn [materialized]. rewrite Hro. by split_and!.
    + eapply h_bind; [apply h_acts, acts_cleanup_projections|]. intros ok. apply h_ret. intros o _ _. by destruct ok.
    + eapply h_bind; [apply h_acts, acts_cleanup_projections|]. intros ok. by apply h_ret.
Qed.

Definition se_ready (p : workloadPreparation) (prepared : preparedWorkloadMAC) (handle : list projectionEntry) k : Prop :=
  pm_SecurityOpts prepared = ["label=type:docker_helper_container_t"] ∧
  materialized (wp_OperationID p) 0 (wp_Exposures p) (wp_PinnedSources p) handle (pm_MountSources prepared) ∧
  held handle (se_ops k !!! wp_OperationID p).

Lemma h_se_prepare p :
  hoare (wp_OperationID p) (λ o, ¬ ∃ n, pending o n) (se_prepare lstat runtimeDir visible polls own_context p)
    (λ a o, match a with
     | backend_prepared prepared handle =>
         pm_SecurityOpts prepared = ["label=type:docker_helper_container_t"] ∧
         materialized (wp_OperationID p) 0 (wp_Exposures p) (wp_PinnedSources p) handle (pm_MountSources prepared) ∧ held handle o
     | _ => True
     end).
Proof.
  assert (Hc : calm (λ o, ¬ ∃ n, pending o n)) by (intros o e Hi Hn [n Hp]; apply Hn; exists n; by apply (event_pending o e)).
  unfold se_prepare. apply (h_bind _ _ _ _ (λ _ o, ¬ ∃ n, pending o n)).
  { eapply h_bind; [by apply (h_call _ _ _ (λ _ o, ¬ ∃ n, pending o n))|]. intros []; [by apply h_call|by apply h_ret]. }
  intros ok. apply h_case; intros _; [by apply h_ret|].
  eapply h_weaken; [apply (h_prepare_from (wp_OperationID p) 0 (wp_Exposures p) (wp_PinnedSources p) [] [])| |].
  - intros o _ Hn. split; [|by intros n ?%not_elem_of_nil]. intros n Hp. destruct Hn. by exists n.
  - intros [prepared handle| |] o; [|done..]. intros (H1 & H2 & h & ns & -> & -> & Hm). by split_and!.
Qed.

(** ** The laws *)

#[local] Instance workloadSELinuxBackend : workloadMACBackend se_kernel := WorkloadSelinux.workloadSELinuxBackend lstat runtimeDir visible polls own_context.

Lemma se_drop_runtime_own op k : se_own op k (se_drop_runtime op k).2.
Proof.
  intros Hi. unfold se_drop_runtime. pose proof (drop_runtime_inv (se_ops k !!! op) (Hi op)) as H. destruct (drop_runtime _) as [ok o]. by apply se_put_own.
Qed.
Lemma se_drop_runtime_holds op k : se_holds (se_drop_runtime op k).2 op → se_holds k op.
Proof.
  unfold se_drop_runtime, se_holds. pose proof (drop_runtime_pending (se_ops k !!! op)) as H. destruct (drop_runtime _) as [ok o].
  cbn [snd]. rewrite ops_put, decide_True by done. intros [n Hn]. exists n. by apply H.
Qed.

#[local] Instance workloadSELinuxLaws : workloadMACLaws se_kernel.
Proof.
  refine (Build_workloadMACLaws _ _ se_inv se_holds se_own se_ready _ _ _ _ _ _ _ _ _ _ _ _ _ _ _).
  - by right.
  - intros op k k' Hi Ho. by apply Ho.
  - intros op op' k k' Hne Hi Ho. destruct (Ho Hi) as [_ E]. unfold se_holds. by rewrite E.
  - intros p prepared handle op k k' Hne Hi Ho. destruct (Ho Hi) as [_ E]. unfold se_ready. by rewrite E.
  - intros p _. apply acts_se_prepare.
  - intros op handle. apply acts_cleanup_projections.
  - intros rec. apply acts_ret.
  - intros rec. apply acts_se_cleanup.
  - by intros op k.
  - apply se_drop_runtime_own.
  - done.
  - apply se_drop_runtime_holds.
  - intros p _. eapply rg_weaken; [apply (h_se_prepare p)|done|]. by intros [prepared handle| |] k.
  - intros p prepared handle. eapply rg_weaken; [apply (h_cleanup_projections visible (wp_OperationID p) handle (λ n, n ∈ pe_name <$> handle))| |].
    + by intros k _ (_ & _ & Hw & _).
    + intros ok k Hw -> [n Hn]. destruct (Hw n Hn). done.
  - intros rec. eapply rg_weaken; [apply (h_se_cleanup visible rec (λ _, True)), calm_const|done|]. intros ok k H Hok [n Hn]. by apply (H Hok n).
Defined.

(** A preparation of the SELinux backend, beside any steps of other operations
    and whatever fails: it succeeds only with its record in place and with every
    read-only exposure handed over as a projection, whose mount carries the
    read-only type as long as it is there; a read-write exposure is its pinned
    source.  It fails only without a mount or a starting worker; otherwise it is
    retained with its record. *)
Theorem selinux_prepare_outcome now p :
  canonical_ids p →
  rg host_inv (host_env (wp_OperationID p)) (λ s, ¬ holds s (wp_OperationID p)) (Prepare now p)
    (λ a s, match a with
     | wprepare_ok prepared handle =>
         recorded s (wp_OperationID p) ∧ pm_SecurityOpts prepared = ["label=type:docker_helper_container_t"] ∧
         materialized (wp_OperationID p) 0 (wp_Exposures p) (wp_PinnedSources p) handle (pm_MountSources prepared) ∧
         ∀ e, e ∈ handle → settled (se_ops (wh_kernel s) !!! wp_OperationID p) (pe_name e)
     | wprepare_failed => ∀ name, ¬ pending (se_ops (wh_kernel s) !!! wp_OperationID p) name
     | wprepare_retained => recorded s (wp_OperationID p)
     end).
Proof.
  intros Hp. eapply rg_weaken; [apply (Prepare_rg now p Hp)|done|]. intros [prepared handle| |] s; [|intros Hn name Hpn; apply Hn; by exists name|done].
  intros [Hr (H1 & H2 & _ & Hs)]. split; [done|]. split; [done|]. split; [done|]. intros e He. apply Hs. by apply list_elem_of_fmap_2.
Qed.
End spec.
