(* ===== verification/WorkloadSelinuxRemoval.v ===== *)
(** * WorkloadSelinuxRemoval: no removal reaches a source

    A projection passes writes and removals through to its source.  Neither a
    preparation nor a release ever removes a directory in which a live projection
    is mounted, whatever the workers do between two calls; nor does a startup
    before which the workers have all come up or gone.  The code does not check
    the latter: the last example is a startup that reaches a source. *)
From S2P Require Import Prelude Filepath AllowedRoots Operation GoStrings Session Json Proc Lifecycle RunRequest Run WorkloadMac WorkloadMacTheory WorkloadMacSpec WorkloadSelinux WorkloadSelinuxTheory WorkloadSelinuxSpec.
Local Open Scope Z_scope.

Implicit Types (o : op_state) (k : se_kernel).

Definition undamaged o : Prop := os_damage o = false.
Lemma event_damage o e : os_damage (apply_event o e) = os_damage o.
Proof. destruct e; simpl; by try case_bool_decide. Qed.
Lemma calm_undamaged : calm undamaged.
Proof. intros o e _ H. unfold undamaged. by rewrite event_damage. Qed.

Definition not_starting (name : string) o : Prop := os_workers o !! name ≠ Some worker_starting.
Lemma event_not_starting o e name : not_starting name o → not_starting name (apply_event o e).
Proof.
  unfold not_starting. destruct e as [n ctx|n|n]; simpl; [|done|]; case_bool_decide as H; try done; cbn;
    (destruct (decide (name = n)) as [->|Hne]; [by rewrite lookup_insert_eq|by rewrite lookup_insert_ne]).
Qed.
Lemma calm_not_starting name : calm (not_starting name).
Proof. intros o e _. apply event_not_starting. Qed.
Definition no_starting o : Prop := ∀ name, not_starting name o.
Lemma calm_no_starting : calm no_starting.
Proof. intros o e _ H name. by apply event_not_starting. Qed.

(** The projection will never be live again. *)
Definition dead (name : string) o : Prop := os_workers o !! name = Some worker_exited ∨ (os_mounts o !! name = None ∧ not_starting name o).
Lemma calm_dead name : calm (dead name).
Proof.
  intros o e _ H. destruct e as [n ctx|n|n]; simpl; [case_bool_decide as E; [|done]| |case_bool_decide as E; [|done]]; unfold dead, not_starting in *; cbn.
  - destruct E as [Es En]. destruct (decide (name = n)) as [->|Hne]; [|by rewrite !lookup_insert_ne]. destruct H as [H|[_ H]]; congruence.
  - destruct H as [H|[H1 H2]]; [by left|right]. split; [|done]. destruct (decide (name = n)) as [->|Hne]; [by rewrite lookup_delete_eq|by rewrite lookup_delete_ne].
  - destruct (decide (name = n)) as [->|Hne]; [left; by rewrite lookup_insert_eq|by rewrite !lookup_insert_ne].
Qed.
Lemma dead_not_live name o : dead name o → ¬ live o name.
Proof. intros [H|[H _]] [Hm Hw]; [congruence|]. rewrite H in Hm. by destruct Hm. Qed.

Lemma h_and {A} op P P' (m : proc se_kernel A) Q Q' : hoare op P m Q → hoare op P' m Q' → hoare op (λ o, P o ∧ P' o) m (λ a o, Q a o ∧ Q' a o).
Proof.
  intros H H' k Hi [Hp Hp']. specialize (H k Hi Hp). specialize (H' k Hi Hp'). clear Hp Hp' Hi. revert k H H'.
  induction m as [a|f m IH]; intros k; simpl; [done|]. intros H H' k' Hr Hi. destruct (H k' Hr Hi), (H' k' Hr Hi). split; [done|]. by apply IH.
Qed.

Section removal.
Context (lstat : string → option source_kind) (runtimeDir : string → string) (visible : string → bool) (polls : nat) (own_context : string).
Context (Hown : selinuxTypeOf own_context ≠ Some selinuxROProjectionType).

(** ** Release *)

(** Calls that change no worker and add no mount. *)
Lemma h_unmount op name sl P :
  calm P → (∀ o o', os_workers o' = os_workers o → os_damage o' = os_damage o → (∀ n, os_mounts o !! n = None → os_mounts o' !! n = None) → P o → P o') →
  hoare op P (proveUnmountOwnedMount visible op name sl) (λ _, P).
Proof.
  intros HP Hq. eapply h_bind; [by apply h_look_keep|]. intros [[]|]; [|by apply h_ret..].
  eapply h_bind; [apply (h_call op _ P (λ _, P)); [done|]|].
  - intros x o Hi Hp. destruct (unmount_spec name sl x o Hi) as (H1 & _ & H2 & H3 & H4). split; [done|]. by apply (Hq o).
  - intros ok. apply h_case; intros _; [by apply h_ret|]. eapply h_bind; [by apply h_look_keep|]. intros; by apply h_ret.
Qed.

(** The mount is proven gone. *)
Lemma h_unmount_gone op name P : calm P →
  hoare op P (proveUnmountOwnedMount visible op name slot_projection) (λ ok o, ok = true → not_starting name o → os_mounts o !! name = None).
Proof.
  intros HP.
  assert (Hl : ∀ T, calm T → hoare op T (isMountpoint visible op name slot_projection) (λ r o, r = Some false → os_mounts o !! name = None)).
  { intros T HT. apply h_look; [done| |done]. intros x o _ _ [= Hr]. apply orb_false_iff in Hr as [_ Hr]. apply bool_decide_eq_false in Hr. by apply eq_None_not_Some. }
  eapply h_bind; [by apply Hl|]. intros [[]|]; [|apply h_ret; intros o _ H _ _; by apply H|by apply h_ret].
  eapply h_bind; [apply (h_acts op), acts_call; intros x o Hi; by apply unmount_spec|]. intros ok. apply h_case; intros _; [by apply h_ret|].
  eapply h_bind; [apply Hl, calm_const|]. intros still. apply h_ret. intros o _ H Hs%bool_decide_eq_true _. by apply H.
Qed.

(** A projection with its worker's handle, or whose worker is not starting, is
    released without reaching its source. *)
Lemma h_entry_spares op e :
  hoare op (λ o, undamaged o ∧ (pe_worker e = true ∨ not_starting (pe_name e) o)) (cleanupOwnedProjectionEntry visible op e) (λ _, undamaged).
Proof.
  set (P := λ o, undamaged o ∧ (pe_worker e = true ∨ not_starting (pe_name e) o)).
  assert (HP : calm P) by (intros o ev Hi [H1 H2]; split; [by apply calm_undamaged|]; destruct H2; [by left|right; by apply event_not_starting]).
  unfold cleanupOwnedProjectionEntry. apply (h_bind op _ _ _ (λ ok o, P o ∧ (ok = true → not_starting (pe_name e) o → os_mounts o !! pe_name e = None))).
  { eapply h_weaken; [apply (h_and op P P); [apply (h_unmount op (pe_name e) slot_projection P HP)|by apply h_unmount_gone]|done|done].
    intros o o' E1 E2 _ [H1 H2]. unfold P, undamaged, not_starting in *. by rewrite E1, E2. }
  intros ok1. apply h_case; intros H1; [apply h_ret; by intros o _ [[? _] _]|]. apply negb_false_iff in H1 as ->.
  apply (h_bind op _ _ _ (λ ok o, undamaged o ∧ (ok = true → dead (pe_name e) o))).
  { destruct (pe_worker e) eqn:Ew.
    - eapply h_weaken; [apply (h_call op _ undamaged (λ ok o, undamaged o ∧ (ok = true → dead (pe_name e) o))); [apply calm_undamaged|]|by intros o _ [[? _] _]|done].
      intros x o Hi Hu. split; [done|]. split; [done|]. intros Hx%bool_decide_eq_true. by left.
    - apply h_ret. intros o _ [[Hu [?|Hn]] Hg]; [done|]. split; [done|]. intros _. right. split; [by apply Hg|done]. }
  intros ok2. apply h_case; intros H2; [apply h_ret; by intros o _ [? _]|]. apply negb_false_iff in H2 as ->.
  assert (HD : calm (λ o, undamaged o ∧ dead (pe_name e) o)) by (apply calm_and; [apply calm_undamaged|apply calm_dead]).
  apply (h_bind op _ _ _ (λ _ o, undamaged o ∧ dead (pe_name e) o)).
  { apply (h_weaken op _ (λ o, undamaged o ∧ dead (pe_name e) o) _ _ (λ _ o, undamaged o ∧ dead (pe_name e) o)); [|intros o _ [Hu Hd]; exact (conj Hu (Hd eq_refl))|done]. apply h_case; intros _; [|by apply h_ret].
    apply h_unmount; [done|]. intros o o' E1 E2 E3 [Hu Hd]. unfold undamaged, dead, not_starting in *. rewrite E1, E2. split; [done|]. destruct Hd as [?|[? ?]]; [by left|right; auto]. }
  intros ok3. apply h_case; intros _; [apply h_ret; by intros o _ [? _]|].
  apply h_call; [done|]. intros x o Hi [Hu Hd]. split; [by apply remove_all_spec|]. unfold undamaged. rewrite remove_all_damage; [done|by apply dead_not_live].
Qed.

Lemma h_entry_starting op e : hoare op no_starting (cleanupOwnedProjectionEntry visible op e) (λ _, no_starting).
Proof.
  assert (Hu : ∀ sl, hoare op no_starting (proveUnmountOwnedMount visible op (pe_name e) sl) (λ _, no_starting)).
  { intros sl. apply h_unmount; [apply calm_no_starting|]. intros o o' E _ _ H n. unfold not_starting. rewrite E. apply H. }
  unfold cleanupOwnedProjectionEntry. eapply h_bind; [apply Hu|]. intros ok1. apply h_case; intros _; [by apply h_ret|].
  apply (h_bind op _ _ _ (λ _, no_starting)); [apply h_case; intros _; [by apply h_call; [apply calm_no_starting|]|by apply h_ret]|]. intros ok2. apply h_case; intros _; [by apply h_ret|].
  apply (h_bind op _ _ _ (λ _, no_starting)); [apply h_case; intros _; [apply Hu|by apply h_ret]|]. intros ok3. apply h_case; intros _; [by apply h_ret|].
  apply h_call; [apply calm_no_starting|]. intros x o Hi H. split; [by apply remove_all_spec|]. intros n Hn. apply (H n). by apply (remove_all_starting (pe_name e) x o).
Qed.

Lemma h_all_of op P (l : list (proc se_kernel bool)) : Forall (λ m, hoare op P m (λ _, P)) l → hoare op P (all_of l) (λ _, P).
Proof. induction 1 as [|m l Hm _ IH]; [by apply h_ret|]. cbn [all_of]. eapply h_bind; [done|]. intros []; [done|by apply h_ret]. Qed.

Lemma h_projections_spare op l : Forall (λ e, pe_worker e = true) l → hoare op undamaged (cleanupOwnedProjections visible op l) (λ _, undamaged).
Proof.
  intros Hl. apply h_all_of. rewrite Forall_fmap. apply Forall_reverse. eapply Forall_impl; [exact Hl|]. intros e He.
  eapply h_weaken; [apply h_entry_spares|intros o _ Hu; split; [done|by left]|done].
Qed.
Lemma h_found_spare op l : hoare op (λ o, undamaged o ∧ no_starting o) (cleanupOwnedProjections visible op l) (λ _ o, undamaged o ∧ no_starting o).
Proof.
  apply h_all_of. rewrite Forall_fmap. apply Forall_forall. intros e _.
  eapply h_weaken; [apply (h_and op (λ o, undamaged o ∧ (pe_worker e = true ∨ not_starting (pe_name e) o)) no_starting); [apply h_entry_spares|apply h_entry_starting]| |done].
  intros o _ [Hu Hn]. split; [|done]. split; [done|]. right. apply Hn.
Qed.

Lemma h_found rec : hoare (wr_OperationID rec) (λ o, undamaged o ∧ no_starting o) (se_cleanupOwnedState visible rec) (λ _, undamaged).
Proof.
  assert (HP : calm (λ o, undamaged o ∧ no_starting o)) by (apply calm_and; [apply calm_undamaged|apply calm_no_starting]).
  eapply h_bind; [by apply h_runtime_shape|]. intros [es|]; [|by apply h_ret; intros o _ [[? _] _]].
  eapply h_weaken; [apply h_found_spare|by intros o _ [? _]|by intros a o [? _]].
Qed.

(** ** Preparation *)

(** A call on the tree of a projection that is not started yet. *)
Lemma h_builds op name (f : se_answer → op_state → bool * op_state) P :
  calm P → (∀ o o', builds o o' → (∀ n, n ≠ name → os_items o' !! n = os_items o !! n) → P o → P o') →
  (∀ x o, op_inv o → op_inv (f x o).2 ∧ builds o (f x o).2 ∧ ∀ n, n ≠ name → os_items (f x o).2 !! n = os_items o !! n) →
  hoare op P (se_call op f) (λ _, P).
Proof. intros HP Hq Hf. apply h_call; [done|]. intros x o Hi Hp. destruct (Hf x o Hi) as (H1 & H2 & H3). split; [done|]. by apply (Hq o). Qed.

Definition idle (name : string) o : Prop := undamaged o ∧ dead name o.
Lemma calm_idle name : calm (idle name).
Proof. apply calm_and; [apply calm_undamaged|apply calm_dead]. Qed.
Lemma idle_builds name o o' : builds o o' → idle name o → idle name o'.
Proof. intros (E1 & E2 & E3 & _). unfold idle, undamaged, dead, not_starting. by rewrite E1, E2, E3. Qed.

Definition held_worker (a : projection_answer) : Prop := match a with projection_ready e => pe_worker e = true | _ => True end.

Lemma h_roll_back op e :
  hoare op (λ o, undamaged o ∧ (pe_worker e = true ∨ not_starting (pe_name e) o)) (roll_back visible op e) (λ a o, undamaged o ∧ held_worker a).
Proof. eapply h_bind; [apply h_entry_spares|]. intros ok. apply h_ret. intros o _ Hu. split; [done|]. by destruct ok. Qed.

Lemma h_start_spares op e :
  hoare op (idle (pe_name e)) (start_projection visible polls own_context op e) (λ a o, undamaged o ∧ held_worker a).
Proof.
  unfold start_projection. apply (h_bind op _ _ _ (λ ok o, undamaged o ∧ (ok = false → dead (pe_name e) o))).
  { apply h_call; [apply calm_idle|]. intros x o Hi [Hu Hd]. destruct (start_worker_spec (pe_name e) x o Hi) as (H1 & _ & _ & _ & E & _). split; [done|].
    split; [unfold undamaged; by rewrite E|]. unfold start_worker_io. by destruct (sa_ok x). }
  intros started. apply h_case; intros Hs.
  { apply negb_true_iff in Hs as ->. eapply h_weaken; [apply h_roll_back| |done]. intros o _ [Hu Hd]. split; [done|]. right. destruct (Hd eq_refl) as [Hx|[_ ?]]; [|done].
    unfold not_starting. by rewrite Hx. }
  fold (with_worker e). eapply h_bind; [eapply h_weaken; [apply (h_await_ready visible polls own_context Hown op (with_worker e) undamaged), calm_undamaged|by intros o _ [? _]|done]|].
  intros ready. apply h_case; intros _; [|apply h_ret; by intros o _ [? _]].
  eapply h_weaken; [apply h_roll_back|intros o _ [Hu _]; split; [done|by left]|done].
Qed.

Lemma h_give_up_spares op name : hoare op (idle name) (_ ← se_call op (remove_all_io name); mret projection_failed) (λ a o, undamaged o ∧ held_worker a).
Proof.
  apply (h_bind op _ _ _ (λ _, undamaged)).
  - apply h_call; [apply calm_idle|]. intros x o Hi [Hu Hd]. split; [by apply remove_all_spec|]. unfold undamaged. rewrite remove_all_damage; [done|by apply dead_not_live].
  - intros ok. by apply h_ret.
Qed.

Lemma h_prepareProjection_spares op source index :
  hoare op undamaged (prepareProjection lstat runtimeDir visible polls own_context op source index) (λ a o, undamaged o ∧ held_worker a).
Proof.
  unfold prepareProjection. destruct (lstat source) as [kind|]; [|by apply h_ret]. cbv zeta. set (name := projection_name index).
  apply (h_bind op _ _ _ (λ ok o, undamaged o ∧ (ok = true → dead name o))).
  { apply h_call; [apply calm_undamaged|]. intros x o Hi Hu. pose proof (mkdir_proj_spec name x o Hi) as H. destruct (mkdir_proj_io name x o) as [ok o'].
    destruct H as (H1 & (E1 & E2 & E3 & _) & _ & H3). split; [done|]. cbn [fst snd]. split; [unfold undamaged; by rewrite E3|]. intros Hok. right.
    destruct (H3 Hok) as [Hn _]. destruct (inv_absent o name Hi Hn) as (A1 & _ & A3). unfold not_starting. by rewrite E1, E2. }
  intros ok1. apply h_case; intros H1; [apply h_ret; by intros o _ [? _]|]. apply negb_false_iff in H1 as ->.
  apply (h_weaken op _ (idle name) _ _ (λ a o, undamaged o ∧ held_worker a)); [|intros o _ [? H]; split; [done|by apply H]|done].
  assert (Hb : ∀ f : se_answer → op_state → bool * op_state, (∀ x o, op_inv o → op_inv (f x o).2 ∧ builds o (f x o).2 ∧ ∀ n, n ≠ name → os_items (f x o).2 !! n = os_items o !! n) →
    hoare op (idle name) (se_call op f) (λ _, idle name)).
  { intros f Hf. apply (h_builds op name f (idle name)); [apply calm_idle| |done]. intros o o' Hb _. by apply idle_builds. }
  assert (Hdir : ∀ c, hoare op (idle name) (se_call op (mkdir_child_io name c)) (λ _, idle name)).
  { intros c. apply Hb. intros x o Hi. destruct (mkdir_child_spec name c x o Hi) as (? & ? & E). split; [done|]. split; [done|]. intros; by rewrite E. }
  eapply h_bind; [apply Hdir|]. intros ok2. apply h_case; intros _.
  { apply (h_bind op _ _ _ (λ _, undamaged)); [|intros; by apply h_ret]. apply h_call; [apply calm_idle|]. intros x o Hi [Hu _].
    destruct (remove_proj_spec name x o Hi) as (? & _ & _ & _ & E). split; [done|]. unfold undamaged. by rewrite E. }
  destruct kind; [apply (h_start_spares op (mkEntryP _ _ _ _ _ _))| |apply h_give_up_spares].
  eapply h_bind; [apply Hdir|]. intros ok3. apply h_case; intros _; [apply h_give_up_spares|].
  eapply h_bind; [apply Hb|].
  { intros x o Hi. destruct (write_item_spec name x o Hi) as (? & ? & E). split; [done|]. split; [done|]. intros; by rewrite E. }
  intros ok4. apply h_case; intros _; [apply h_give_up_spares|]. eapply h_bind; [apply Hb|].
  { intros x o Hi. destruct (mount_bind_spec name source x o Hi) as (? & ? & E). by split. }
  intros ok5. apply h_case; intros _; [apply h_give_up_spares|apply (h_start_spares op (mkEntryP _ _ _ _ _ _))].
Qed.

Definition holds_workers (a : backend_answer (list projectionEntry)) : Prop :=
  match a with backend_prepared _ handle => Forall (λ e, pe_worker e = true) handle | _ => True end.

Lemma h_prepare_from_spares op index exposures pins projections sources :
  Forall (λ e, pe_worker e = true) projections →
  hoare op undamaged (prepare_from lstat runtimeDir visible polls own_context op index exposures pins projections sources) (λ a o, undamaged o ∧ holds_workers a).
Proof.
  revert index pins projections sources. induction exposures as [|e exposures IH]; intros index pins projections sources Hp; cbn [prepare_from]; [by apply h_ret|].
  destruct pins as [|pin pins]; [by apply h_ret|]. apply h_case; intros _; [by apply IH|].
  eapply h_bind; [apply h_prepareProjection_spares|]. intros [entry| |].
  - apply (h_pure op (pe_worker entry = true)); [by intros o _ [_ ?]|]. intros Hw.
    eapply h_weaken; [apply IH; apply Forall_app; split; [done|by constructor]|by intros o _ [? _]|done].
  - eapply h_bind; [eapply h_weaken; [by apply h_projections_spare|by intros o _ [? _]|done]|]. intros ok. apply h_ret. intros o _ Hu. split; [done|]. by destruct ok.
  - eapply h_bind; [eapply h_weaken; [by apply h_projections_spare|by intros o _ [? _]|done]|]. intros ok. by apply h_ret.
Qed.

Lemma h_prepare_spares p :
  hoare (wp_OperationID p) undamaged (se_prepare lstat runtimeDir visible polls own_context p) (λ a o, undamaged o ∧ holds_workers a).
Proof.
  unfold se_prepare. apply (h_bind _ _ _ _ (λ _, undamaged)).
  - eapply h_bind; [by apply (h_call _ _ _ (λ _, undamaged)); [apply calm_undamaged|]|]. intros []; [by apply h_call; [apply calm_undamaged|]|by apply h_ret].
  - intros ok. apply h_case; intros _; [by apply h_ret|by apply h_prepare_from_spares].
Qed.

(** ** A failed preparation *)

Lemma within_builds L o o' : builds o o' → os_items o' = os_items o → within L o → within L o'.
Proof. intros (E1 & E2 & _) E3 Hw n Hn. apply Hw. unfold pending in *. by rewrite E1, E2, E3 in Hn. Qed.

Lemma h_start_failed op e L :
  hoare op (within (λ n, L n ∨ n = pe_name e)) (start_projection visible polls own_context op e) (λ a o, a = projection_failed → within L o).
Proof.
  assert (Hroll : ∀ e', pe_name e' = pe_name e → hoare op (within (λ n, L n ∨ n = pe_name e)) (roll_back visible op e') (λ a o, a = projection_failed → within L o)).
  { intros e' E. eapply h_bind; [apply h_cleanup_entry|]. intros [|]; apply h_ret; [|done]. intros o _ Hw _. eapply within_mono; [|exact Hw]. rewrite E. naive_solver. }
  unfold start_projection. apply (h_bind op _ _ _ (λ _, within (λ n, L n ∨ n = pe_name e))).
  { apply h_call; [apply calm_within|]. intros x o Hi Hw. destruct (start_worker_spec (pe_name e) x o Hi) as (H1 & E1 & E2 & E3 & _). split; [done|].
    intros n Hn. destruct (decide (n = pe_name e)) as [->|Hne]; [by right|]. apply Hw. unfold pending in *. by rewrite E1, E2, E3 in Hn. }
  intros started. apply h_case; intros _; [by apply Hroll|]. fold (with_worker e).
  eapply h_bind; [apply (h_await_ready visible polls own_context Hown op (with_worker e)), calm_within|]. intros ready. apply h_case; intros _; [|by apply h_ret].
  eapply h_weaken; [by apply Hroll|by intros o _ [? _]|done].
Qed.

Lemma h_prepareProjection_failed op source index L :
  hoare op (within L) (prepareProjection lstat runtimeDir visible polls own_context op source index) (λ a o, a = projection_failed → within L o).
Proof.
  unfold prepareProjection. destruct (lstat source) as [kind|]; [|by apply h_ret]. cbv zeta. set (name := projection_name index).
  assert (Hgive : hoare op (within L) (_ ← se_call op (remove_all_io name); mret projection_failed) (λ a o, a = projection_failed → within L o)).
  { apply (h_bind op _ _ _ (λ _, within L)); [|intros; by apply h_ret]. apply h_call; [apply calm_within|]. intros x o Hi Hw. destruct (remove_all_spec name x o Hi) as (H1 & H2 & _).
    split; [done|]. by apply (within_le L o). }
  assert (Hb : ∀ f : se_answer → op_state → bool * op_state, (∀ x o, op_inv o → op_inv (f x o).2 ∧ builds o (f x o).2 ∧ os_items (f x o).2 = os_items o) →
    hoare op (within L) (se_call op f) (λ _, within L)).
  { intros f Hf. apply h_call; [apply calm_within|]. intros x o Hi Hw. destruct (Hf x o Hi) as (? & ? & ?). split; [done|]. by apply (within_builds L o). }
  assert (Hstart : ∀ e, pe_name e = name → hoare op (within L) (start_projection visible polls own_context op e) (λ a o, a = projection_failed → within L o)).
  { intros e E. eapply h_weaken; [apply (h_start_failed op e L)| |done]. intros o _. apply within_mono. by left. }
  eapply h_bind; [apply Hb; intros x o Hi; pose proof (mkdir_proj_spec name x o Hi) as H; destruct (mkdir_proj_io name x o) as [b o']; destruct H as (? & ? & ? & _); by split_and!|].
  intros ok1. apply h_case; intros _; [by apply h_ret|]. eapply h_bind; [apply Hb; intros x o Hi; by apply mkdir_child_spec|].
  intros ok2. apply h_case; intros _.
  { apply (h_bind op _ _ _ (λ _, within L)); [|intros; by apply h_ret]. apply h_call; [apply calm_within|]. intros x o Hi Hw.
    destruct (remove_proj_spec name x o Hi) as (H1 & E1 & E2 & E3 & _). split; [done|]. intros n Hn. apply Hw. unfold pending in *. by rewrite E1, E2, E3 in Hn. }
  destruct kind; [by apply Hstart| |apply Hgive]. eapply h_bind; [apply Hb; intros x o Hi; by apply mkdir_child_spec|]. intros ok3. apply h_case; intros _; [apply Hgive|].
  eapply h_bind; [apply Hb; intros x o Hi; by apply write_item_spec|]. intros ok4. apply h_case; intros _; [apply Hgive|].
  apply (h_bind op _ _ _ (λ ok, within (if ok : bool then λ n, L n ∨ n = name else L))).
  { apply h_call; [apply calm_within|]. intros x o Hi Hw. destruct (mount_bind_spec name source x o Hi) as (? & (E1 & E2 & _) & E3). split; [done|].
    unfold mount_bind_io in *. destruct (sa_ok x && has_item o name); [|done]. intros n Hn. destruct (decide (n = name)) as [->|Hne]; [by right|left]. apply Hw.
    unfold pending in *. by rewrite E1, E2, E3 in Hn. }
  intros [|]; cbn [negb]; [apply (h_start_failed op (mkEntryP index name true true _ false))|apply Hgive].
Qed.

Lemma h_prepare_from_failed op index exposures pins projections sources :
  hoare op (within (λ n, n ∈ pe_name <$> projections)) (prepare_from lstat runtimeDir visible polls own_context op index exposures pins projections sources)
    (λ a o, a = backend_failed → within (λ _, False) o).
Proof.
  revert index pins projections sources. induction exposures as [|e exposures IH]; intros index pins projections sources; cbn [prepare_from]; [by apply h_ret|].
  destruct pins as [|pin pins]; [by apply h_ret|]. apply h_case; intros _; [by apply IH|].
  set (L := λ n, n ∈ pe_name <$> projections).
  apply (h_bind op _ _ _ (λ a o, match a with projection_ready entry => within (λ n, L n ∨ n = pe_name entry) o | projection_failed => within L o | projection_retained => True end)).
  { eapply h_weaken; [apply (h_and op (good L []) (within L)); [apply h_prepareProjection; exact Hown|apply h_prepareProjection_failed]| |].
    - intros o _ Hw. split; [|done]. split; [done|]. by intros n ?%not_elem_of_nil.
    - intros [entry| |] o [H1 H2]; [by destruct H1 as [_ [? _]]|by apply H2|done]. }
  intros [entry| |].
  - eapply h_weaken; [apply IH| |done]. intros o _. apply within_mono. unfold L. rewrite fmap_app. set_solver.
  - eapply h_bind; [apply h_cleanup_projections|]. intros [|]; apply h_ret; [|done]. intros o _ Hw _. eapply within_mono; [|exact Hw]. naive_solver.
  - eapply h_bind; [apply h_acts, acts_cleanup_projections|]. intros ok. by apply h_ret.
Qed.

(** ** No removal reaches a source *)

(** C27. Beside any steps of other operations, whatever fails and whatever the workers
    do: a preparation, and a release that holds its worker handles, never remove a
    directory in which a live projection is mounted, so nothing is deleted from a
    source; a preparation that fails without retaining leaves nothing mounted and
    no worker starting.  A reclaiming, which holds no handles, deletes nothing from
    a source when it starts at a time no worker of the operation is still starting,
    as after such a failure; the code does not check this, and the witness ends in
    a reclaiming beside a starting worker that does reach the source.  The runtime
    directory is removed without touching a source once nothing is pending. *)
Theorem removal_spares_sources p handle rec k :
  rg se_inv (se_env (wp_OperationID p)) (λ k, undamaged (se_ops k !!! wp_OperationID p) ∧ ¬ se_holds k (wp_OperationID p))
     (se_prepare lstat runtimeDir visible polls own_context p)
     (λ a k, undamaged (se_ops k !!! wp_OperationID p) ∧
       match a with
       | backend_prepared _ handle => Forall (λ e, pe_worker e = true) handle
       | backend_failed => no_starting (se_ops k !!! wp_OperationID p) ∧ ¬ se_holds k (wp_OperationID p)
       | backend_rollback_retained => True
       end) ∧
  (Forall (λ e, pe_worker e = true) handle →
   rg se_inv (se_env (wp_OperationID p)) (λ k, undamaged (se_ops k !!! wp_OperationID p))
      (se_release visible (wp_OperationID p) handle) (λ _ k, undamaged (se_ops k !!! wp_OperationID p))) ∧
  rg se_inv (se_env (wr_OperationID rec)) (λ k, undamaged (se_ops k !!! wr_OperationID rec) ∧ no_starting (se_ops k !!! wr_OperationID rec))
     (se_cleanupOwnedState visible rec) (λ _ k, undamaged (se_ops k !!! wr_OperationID rec)) ∧
  (¬ se_holds k (wr_OperationID rec) → undamaged (se_ops k !!! wr_OperationID rec) →
   undamaged (se_ops (se_drop_runtime (wr_OperationID rec) k).2 !!! wr_OperationID rec)).
Proof.
  split; [|split; [intros Hh; by apply h_projections_spare|split; [apply h_found|]]].
  - assert (Hf : hoare (wp_OperationID p) (λ o, ¬ ∃ n, pending o n) (se_prepare lstat runtimeDir visible polls own_context p) (λ a o, a = backend_failed → within (λ _, False) o)).
    { assert (Hc : calm (λ o, ¬ ∃ n, pending o n)) by (intros o e Hi Hn [n Hp]; apply Hn; exists n; by apply (event_pending o e)).
      unfold se_prepare. apply (h_bind _ _ _ _ (λ _ o, ¬ ∃ n, pending o n)).
      { eapply h_bind; [by apply (h_call _ _ _ (λ _ o, ¬ ∃ n, pending o n))|]. intros []; [by apply h_call|by apply h_ret]. }
      intros ok. apply h_case; intros _; [apply h_ret; intros o _ Hn _ n Hp; destruct Hn; by exists n|].
      eapply h_weaken; [apply h_prepare_from_failed|intros o _ Hn n Hp; destruct Hn; by exists n|done]. }
    eapply rg_weaken; [apply (h_and _ _ _ _ _ _ (h_prepare_spares p) Hf)|by intros k' _ [? ?]|]. intros [prepared h| |] k' [[Hu Hw] Hn]; (split; [done|]); [done| |done].
    specialize (Hn eq_refl). split; [|intros [n Hp]; by apply (Hn n)]. intros n Hs. apply (Hn n). by right; right.
  - intros Hh Hu. unfold se_drop_runtime. pose proof (drop_runtime_damage (se_ops k !!! wr_OperationID rec)) as H. destruct (drop_runtime _) as [ok o].
    cbn [snd]. rewrite ops_put, decide_True by done. unfold undamaged in *. rewrite <-Hu. apply H. intros n Hn. apply Hh. by exists n.
Qed.
End removal.

(** ** The names of projections; a preparation, and a startup that goes wrong

    Names of projection directories are read back exactly; and runs of the model
    on a concrete host that instantiate the theorems of the SELinux backend. *)

(** ** Decimal names *)

(** ** Names of projections *)

Lemma digit_runes w : forallb (λ p, in_range 48 57 p.1) (range w) = true ↔ all_bytes (in_range 48 57) w = true.
Proof.
  split.
  - intros H. rewrite <-(range_concat w). assert (Hl : ∀ p, p ∈ range w → ∃ a, p.2 = str1 a ∧ in_range 48 57 (byte_of a) = true).
    { intros p Hp. pose proof (proj1 (forallb_forall _ _) H p (proj1 (list_elem_of_In _ _) Hp)) as Hx. cbn in Hx.
      destruct (range_bytes w p Hp) as [(a & -> & _)|[_ Hge]]; [by exists a|]. apply in_range_spec in Hx. lia. }
    clear H. induction (range w) as [|p l IH]; [done|]. rewrite fmap_cons. cbn [str_concat].
    destruct (Hl p) as (a & -> & Ha); [by left|]. unfold all_bytes. cbn [str1 String.append str_forall]. rewrite Ha. cbn. apply IH. intros q Hq. apply Hl. by right.
  - intros H. rewrite range_ascii; [|apply (all_bytes_weaken (in_range 48 57)); [|done]; intros b Hb%in_range_spec; lia].
    unfold all_bytes in H. induction w as [|c w IH]; [done|]. cbn in *. apply andb_true_iff in H as [-> H]. by apply IH.
Qed.

Lemma leading_zero w : (bool_decide ((1 < String.length w)%nat) && String.prefix "0" w) = false ∧ w ≠ "" ↔ canonical_decimal w.
Proof.
  destruct w as [|c r]; [split; [by intros [_ ?]|by intros (? & ? & ? & _)]|]. split.
  - intros [H _]. exists c, r. split; [done|]. intros Hr ->. apply andb_false_iff in H as [H|H]; [|cbn in H; by destruct r]. apply bool_decide_eq_false in H. destruct r; [done|]. simpl in H. lia.
  - intros (c' & r' & [= <- <-] & Hz). split; [|done]. destruct r as [|x r]; [done|]. apply andb_false_iff. right.
    cbn [String.prefix]. destruct (ascii_dec "0" c) as [<-|]; [|done]. by destruct Hz.
Qed.

Lemma digits_no_sign w v : canonical_decimal w → digits_value 0 w = Some v → ParseInt10 w = if v <=? maxInt64 then Some v else None.
Proof.
  intros (c & r & -> & _) Hv. unfold ParseInt10, parse_nat10. cbn [digits_value] in *. destruct (digit_of c) as [d|] eqn:E; [|done].
  destruct (digit_not_sign c) as [H1 H2]; [by rewrite E|]. rewrite !bool_decide_eq_false_2 by done. cbn [digits_value]. rewrite E, Hv. done.
Qed.

(** A name is read as an index exactly when it is the name the backend gives to
    that index: nothing else in the runtime directory is taken for a projection. *)
Theorem projection_name_exact name index :
  parseProjectionDirName name = Some index ↔ 0 <= index <= maxInt64 ∧ name = projection_name index.
Proof.
  assert (Hparse : ∀ w, parseProjectionDirName ("mount-" +:+ w) = if all_bytes (in_range 48 57) w && bool_decide (w ≠ "") && negb (bool_decide ((1 < String.length w)%nat) && String.prefix "0" w) then ParseInt10 w else None).
  { intros w. unfold parseProjectionDirName. rewrite (proj2 (CutPrefix_spec ("mount-" +:+ w) "mount-" w) eq_refl). cbn [mbind option_bind].
    pose proof (digit_runes w) as Hd. destruct (forallb (λ p, in_range 48 57 p.1) (range w)).
    - rewrite (proj1 Hd eq_refl). case_bool_decide as E; [rewrite (bool_decide_eq_false_2 (w ≠ "")) by auto; done|]. rewrite (bool_decide_eq_true_2 (w ≠ "")) by done.
      cbn. by destruct (_ && _).
    - destruct (all_bytes (in_range 48 57) w); [by destruct Hd as [_ Hd]; specialize (Hd eq_refl)|]. by case_bool_decide. }
  split.
  - intros H. assert (Hp : ∃ w, name = "mount-" +:+ w) by (unfold parseProjectionDirName in H; destruct (CutPrefix name "mount-") as [w|] eqn:E; [apply CutPrefix_spec in E; by exists w|done]).
    destruct Hp as [w ->]. rewrite Hparse in H. destruct (all_bytes (in_range 48 57) w) eqn:Ed; [|done]. destruct (bool_decide (w ≠ "")) eqn:Ene; [|done].
    destruct (bool_decide ((1 < String.length w)%nat) && String.prefix "0" w) eqn:Ez; [done|]. cbn in H. apply bool_decide_eq_true in Ene.
    assert (Hc : canonical_decimal w) by by apply leading_zero. apply (digits_of_bytes w 0) in Ed as [v Hv]. rewrite (digits_no_sign w v Hc Hv) in H.
    destruct (Z.leb_spec v maxInt64) as [Hle|]; [|done]. injection H as <-.
    assert (H0 : 0 <= v) by (pose proof (digits_value_bounds 0 w v Hv); pose proof (Z.pow_nonneg 10 (Z.of_nat (String.length w)) ltac:(lia)); lia).
    split; [done|]. unfold projection_name. f_equal. destruct (Itoa_canonical v) as [Hc' Hv']; [done|]. by apply (canonical_unique w (Itoa v) v).
  - intros [Hr ->]. unfold projection_name. destruct (Itoa_canonical index Hr) as [Hc Hv]. rewrite Hparse.
    assert (Hd : all_bytes (in_range 48 57) (Itoa index) = true) by (apply (digits_of_bytes _ 0); by exists index).
    destruct (proj2 (leading_zero (Itoa index)) Hc) as [Hz Hne]. rewrite Hd, Hz, (bool_decide_eq_true_2 (Itoa index ≠ "")) by done. cbn [andb negb].
    rewrite (digits_no_sign _ _ Hc Hv). by rewrite (proj2 (Z.leb_le _ _)) by lia.
Qed.

Lemma projection_name_exact_witness : parseProjectionDirName "mount-10" = Some 10 ∧ parseProjectionDirName "mount-010" ≠ Some 10.
Proof.
  split; [apply projection_name_exact; split; [unfold maxInt64; lia|vm_compute; reflexivity]|].
  intros H. apply projection_name_exact in H as [_ H]. revert H. vm_compute. discriminate.
Defined.

(** ** A host *)

Module SelinuxExample.
(** A read-only tree, a writable directory in it, a read-only file. *)
Definition lstat (p : string) : option source_kind := Some (if bool_decide (p = "/pins/2") then src_regular else src_directory).
Definition runtimeDir (op : string) : string := "/run/docker-helper/workload-mac/" +:+ op.
Definition visible (_ : string) : bool := true.
Definition polls : nat := 2.
Definition own_context : string := "system_u:object_r:docker_helper_var_run_t:s0".
Lemma own_type : selinuxTypeOf own_context ≠ Some selinuxROProjectionType.
Proof. by vm_compute. Qed.
#[export] Instance se_backend : workloadMACBackend se_kernel := WorkloadSelinux.workloadSELinuxBackend lstat runtimeDir visible polls own_context.
#[export] Instance se_laws : workloadMACLaws se_kernel := workloadSELinuxLaws lstat runtimeDir visible polls own_context own_type.

Definition op : string := "op_0123456789abcdef0123456789abcdef".
Definition sid : string := "dhs_0123456789abcdef0123456789abcdef".
Definition exposure (target : string) (ro : bool) : sessionFilesystemExposure := mkExposure ("/srv" +:+ target) target ro AllowedRootAccessReadWrite true.
Definition p : workloadPreparation :=
  mkPreparation op sid [exposure "/work" true; exposure "/work/out" false; exposure "/etc/app.conf" true] ["/pins/0"; "/pins/1"; "/pins/2"].
(** Workers that mount as soon as they can. *)
Definition context : string := selinuxROProjectionContext +:+ String "000" "".
Definition prompt : se_answer := mkSA [ev_mount "mount-0" context; ev_mount "mount-2" context] true false ∅.
Definition start (answers : list se_answer) : whost se_kernel := mkWhost ∅ ∅ ∅ ∅ [] (mkSE ∅ answers).

Lemma empty_op k' : se_ops k' = ∅ → ∀ op', se_ops k' !!! op' = mkOp None ∅ ∅ ∅ false.
Proof. intros E op'. by rewrite E, lookup_total_empty. Qed.
Lemma kernel_inv answers : se_inv (mkSE ∅ answers).
Proof. intros op'. rewrite empty_op by done. intros n. cbn. rewrite lookup_empty. split; [intros [[? H]|H]; discriminate H|by intros [? ?]]. Qed.
Lemma none_pending answers : ¬ se_holds (mkSE ∅ answers) op.
Proof. intros [n Hn]. rewrite empty_op in Hn by done. destruct Hn as [[? Hn]|[[? Hn]|Hn]]; discriminate Hn. Qed.
Lemma start_inv answers : host_inv (start answers).
Proof. split; [apply kernel_inv|]. intros op' [n Hn]. cbn [wh_kernel start] in Hn. rewrite empty_op in Hn by done. destruct Hn as [[? Hn]|[[? Hn]|Hn]]; discriminate Hn. Qed.
Lemma canonical_prep : canonical_ids p.
Proof. by vm_compute. Qed.
End SelinuxExample.

Section witnesses.
Import SelinuxExample.

(** The first projection is handed over instead of its source. *)
Lemma selinux_prepare_outcome_witness :
  let r := run (Prepare "now" p) (start (replicate 40 prompt)) in
  match r.1 with
  | wprepare_ok prepared _ => recorded r.2 op ∧ pm_MountSources prepared !! 0%nat = Some (runtimeDir op +:+ "/mount-0/mount")
  | _ => False
  end.
Proof.
  pose proof (selinux_prepare_outcome lstat runtimeDir visible polls own_context own_type "now" p canonical_prep (start (replicate 40 prompt)) (start_inv _) (none_pending _)) as H.
  apply wp_run in H as [_ H]; [|apply start_inv].
  assert (Ea : match (run (Prepare "now" p) (start (replicate 40 prompt))).1 with wprepare_ok _ _ => true | _ => false end = true) by (vm_compute; reflexivity).
  cbv zeta. destruct ((run (Prepare "now" p) (start (replicate 40 prompt))).1) as [prepared h| |]; [|discriminate Ea..].
  destruct H as (Hr & _ & Hm & _). split; [exact Hr|]. cbn [wp_OperationID wp_Exposures wp_PinnedSources p materialized RequestedReadOnly exposure] in Hm.
  destruct (pm_MountSources prepared) as [|src srcs]; [done|]. destruct h as [|e h]; [done|]. destruct Hm as ((En & _ & El & Es) & -> & _).
  cbn [lookup list_lookup]. f_equal. assert (Hk : pe_regular e = false) by (revert El; destruct (pe_regular e); [vm_compute; discriminate|done]).
  rewrite Es, Hk, En. vm_compute. reflexivity.
Defined.

(** A startup while a worker is still coming up: the mount appears after it was
    proven absent, the removal walks into it. *)
Definition stale : op_state :=
  mkOp (Some (runtime_dir {["mount-0" := proj_dir {["mount" := child_dir ∅]}]})) ∅ ∅ {["mount-0" := worker_starting]} false.
Definition late : list se_answer := replicate 6 plain_answer ++ [prompt].
Definition rec : workloadMACRecord := mkRecord 1 op sid LSMSELinux "now".

Lemma removal_spares_sources_witness :
  undamaged (se_ops (run (se_prepare lstat runtimeDir visible polls own_context p) (mkSE ∅ (replicate 40 prompt))).2 !!! op) ∧
  os_damage (se_ops (run (se_cleanupOwnedState visible rec) (mkSE {[op := stale]} late)).2 !!! op) = true.
Proof.
  split; [|vm_compute; reflexivity].
  destruct (removal_spares_sources lstat runtimeDir visible polls own_context own_type p [] rec (mkSE ∅ [])) as [H _].
  specialize (H (mkSE ∅ (replicate 40 prompt)) (kernel_inv _)). assert (Hp : undamaged (se_ops (mkSE ∅ (replicate 40 prompt)) !!! op) ∧ ¬ se_holds (mkSE ∅ (replicate 40 prompt)) op).
  { split; [by rewrite empty_op|apply none_pending]. }
  specialize (H Hp). apply wp_run in H as [_ [H _]]; [exact H|apply kernel_inv].
Defined.
End witnesses.
